(* ===== verification/_CoqProject ===== *)
-Q . S2P
Prelude.v
RbTree.v
Extents.v
RangeTree.v
SegTree.v
ExtentTree.v
WriteIndex.v
SlotMap.v
LogIO.v
KTree.v
IdStack.v
ArrayList.v
Meta.v
AppTable.v
InodeTree.v
Inode.v
InodeProps.v
Client.v
ServerRead.v
ServerReadProps.v
ReadSystem.v
ClientRead.v
ClientReadProps.v
LocalRead.v
ClientWrite.v
ReadResult.v
Rpc.v
ServiceMgr.v
RpcHandlers.v
RequestMgr.v
Cluster.v
ClusterInv.v
ClusterProg.v
ClusterProps.v
ClusterRun.v
Consistency.v
Blocking.v
PosixClient.v
SysIO.v
StdIO.v
FileSpec.v
FdProps.v
FdSession.v
StreamProps.v
StreamSession.v
FdTable.v
PathOps.v
PathProps.v
Transfer.v
TransferProps.v
PosixEdge.v
LibApi.v
LibApiProps.v
LibApiEdge.v
LibTransfer.v
LibTransferProps.v
Collective.v
CollectiveProps.v
ServerTransfer.v
ServerTransferProps.v
Bootstrap.v
BootstrapProps.v
ClientCalls.v
ClientCallsProps.v
Callbacks.v
Ini.v
Config.v
ConfigProps.v
ConfigInit.v
ConfigValues.v
ConfigRound.v
ConfigThms.v
