(* ===== verification/Prelude.v ===== *)
(** * UnifyFS: a verification development

    UnifyFS makes the memory and the local disks of the nodes of a cluster
    appear as one shared file system.  An application is linked with a client
    library; each node runs a server.  A client appends what it writes to a log
    of its own, which is a region of shared memory that is continued in a
    spill-over file, and keeps an index that maps ranges of a file to places in
    the log.  When a file is synchronised the client passes the index to its
    server, and the server that owns the file (chosen by a hash of its path)
    merges it into the extents of the file.  A read is served from the extents
    of the client itself when they cover it; otherwise the server asks the
    owner which logs hold the bytes, asks the servers of those logs for the
    data, and passes it to the client in pieces.

    ** Conventions

    The models are shallow: a function of the source is a Gallina function of
    the same name, on explicit state.  Machine integers are [Z] with their
    wrap-around written out ([u64], [u32] and the operators of the scope
    [unifyfs_scope]).  Pointers to nodes of a tree are addresses; an allocation
    takes the next address or fails as the memory [mem] says, so that every
    path on which an allocation fails is a path of the model, and [mem_plenty]
    says that none does.  A function that can block on a lock that is never
    given back, read outside an array or fail an assertion returns [lres], with
    the values [LBlocked] and [LFault]; a theorem that says what such a function
    returns also says that it does return.  An operation under a lock is one
    step.  Where the order of operations of different processes matters the
    steps are a relation and the theorems are about all reachable states: in
    [ReadSystem] for the reads of clients, and in [Cluster] for all operations
    on files, where the code of a thread is a program of operations of its own
    server, calls of other servers and broadcasts.

    Loops that are not structural have fuel.  It is computed from the data: the
    number of nodes for walks through a tree ([seg_tree_fuel], [extent_tree]'s
    likewise), twice that number for the loops that resolve conflicts (each
    pass removes or shortens a node), the number of bytes for transfers in
    pieces, the number of chunks or slots for searches, the number of bytes
    asked for, plus one, for the loops of a stream (each pass moves at least one
    byte or is the last).  The copy of a file takes its fuel as an argument,
    and its theorem asks for more than the bytes of the longest range.  The
    wait for transfers makes the 6000 passes of the source.  The responses of a
    tree of servers have the number of servers as fuel, and the copy of local
    extents through a buffer one more than the number of extents.  The parser
    of configuration files has one more than the characters of the file, as it
    reads at least one with each line, and a decimal number the 19 digits of the
    largest [long].  The lemmas about each function prove that it is enough: running out of fuel is
    [None], [NoFuel], [LBlocked] or [LFault], which the theorems exclude.

    ** Files

    Data structures ([src/common/src], [src/server/src]):
    - [Prelude]: this file; integers, the allocator, lemmas on lists.
    - [RbTree]: [tree.h], the red-black tree macros (insertion, removal,
      searches, neighbours), with the balance of every reachable tree.
    - [Extents], [RangeTree]: what the two trees of ranges have in common:
      sorted disjoint intervals as a map from bytes to log positions, cutting a
      range out of an interval, and the loop that inserts an interval.
    - [SegTree]: [seg_tree.c], the client's index of writes.
    - [ExtentTree]: [extent_tree.c], the server's extents of a file, with
      truncation and the lookup of the chunks of a request.
    - [WriteIndex]: the class of what both trees promise, the replay of a
      sequence of writes proved against it, and the equivalence of the two.
    - [SlotMap]: [slotmap.c], the bit map of the chunks of a log.
    - [LogIO]: [unifyfs_logio.c], allocation, release, reading and writing of
      a log, as one address space over shared memory and spill-over file.
    - [KTree]: [unifyfs_tree.c], the tree that broadcasts follow.
    - [IdStack]: [unifyfs-stack.c]; [ArrayList]: [arraylist.c].
    - [Meta]: [unifyfs_meta.h] and [unifyfs_meta.c], attributes and file ids.

    The configuration ([src/common/src]):
    - [Ini]: [ini.c], the parser of configuration files, for any handler.
    - [Config]: [unifyfs_configurator.c], the list of settings and all
      operations on it; the strings of a configuration are blocks of a heap.
      [ConfigProps]: ownership of the strings, and what each source of settings
      is to do; [ConfigInit]: that it does so; [ConfigValues]: the value of each
      setting and its validation; [ConfigRound]: printing and reading;
      [ConfigThms]: the initialisation as a whole.

    The server ([src/server/src]):
    - [AppTable]: the applications and clients of [unifyfs_server.c].
    - [InodeTree]: [unifyfs_inode_tree.c]; [Inode], [InodeProps]:
      [unifyfs_inode.c], all operations on the files of a server.
    - [ServerRead]: the read path, [unifyfs_fops_rpc.c],
      [unifyfs_request_manager.c], [unifyfs_service_manager.c] and
      [unifyfs_p2p_rpc.c]; [ServerReadProps]: grouping of chunks, slots of
      requests, data of the chunks and the calls on the client.
    - [ReadSystem]: the servers that serve the reads of a client as a
      transition system, with its invariant.
    - [Rpc]: the programs of the threads of a server, and its queue of
      requests; [ServiceMgr]: [unifyfs_service_manager.c],
      [unifyfs_p2p_rpc.c] and [unifyfs_group_rpc.c], the operations that
      involve other servers; [RpcHandlers]: their handlers at the other server
      and [unifyfs_rpc_util.c]; [RequestMgr]: [unifyfs_fops_rpc.c] and
      [unifyfs_request_manager.c], the requests of clients.
    - [Cluster]: the servers of a job as a transition system: threads,
      messages that are reordered or lost, calls that fail or time out, and the
      trace of what happened; [ClusterInv], [ClusterProg], [ClusterProps]: its
      invariant, for the operations, for the programs and for the steps;
      [ClusterRun]: a scheduler that can be evaluated.
    - [Consistency]: what clients observe of files; [Blocking]: servers that
      wait for each other.
    - [Collective], [CollectiveProps]: the responses of a broadcast in
      [unifyfs_group_rpc.c], which go up the tree and are merged on their way,
      and the listing of all files that is built on them.
    - [ServerTransfer], [ServerTransferProps]: [unifyfs_transfer.c] and the
      transfers of [unifyfs_service_manager.c]: each server copies its part of
      a file in a thread of its own.
    - [Bootstrap], [BootstrapProps]: [unifyfs_server_pid.c], the start-up of the
      servers, as a transition system with its invariant.
    - [ClientCalls], [ClientCallsProps]: the calls of clients, at the client
      ([margo_client.c]), in the handlers ([unifyfs_client_rpc.c]) and in the
      queue of the request manager; [Callbacks]: the calls of a server on its
      clients for unlinked files, heartbeats, and clients that fail.

    The client ([src/client/src]):
    - [Client]: [unifyfs_fid.c] and parts of [unifyfs.c]: the table of files,
      writing, synchronisation, truncation, opening, deleting.
    - [ClientRead]: [client_read.c] and the handlers of the server's calls in
      [margo_client.c].
    - [ClientReadProps]: active reads, the calls of the server, and the
      composition with [ReadSystem].
    - [LocalRead]: reads from the extents of the client.
    - [ClientWrite]: the contents of the files of a client under writes, reads
      and synchronisation.
    - [ReadResult]: what a read returns.

    The calls of an application ([src/client/src]):
    - [PosixClient]: [posix_client.c], the tables of descriptors, streams and
      directory streams, and which calls the library takes; the class
      [FidLayer] of the files below, and its instance, the client of [Client]
      and [ClientRead].  A call that is left to the system is [System].
    - [SysIO]: the calls of [unifyfs-sysio.c] with descriptors; [StdIO]:
      [unifyfs-stdio.c], streams with their buffers; [PathOps]: the calls of
      [unifyfs-sysio.c] with paths and [unifyfs-dirops.c]; [Transfer]: the
      transfers of [posix_client.c], over a class [WrapOps] of wrapped calls.
    - [FileSpec]: the contract of the files, as sequences of bytes, against
      which descriptors and streams are proved, and a reference instance.
    - [FdProps], [FdSession]: descriptors; [StreamProps], [StreamSession]:
      streams; [FdTable]: the tables; [PathProps]: paths; [TransferProps]:
      copies of files; [PosixEdge]: behaviour that a caller does not expect.
    - [LibApi]: [unifyfs_api_file.c] and [unifyfs_api_io.c], the interface of
      the library that other software uses directly, with batches of requests;
      [LibApiProps]: batches; [LibTransfer], [LibTransferProps]:
      [client_transfer.c] and [unifyfs_api_transfer.c], transfers that the
      servers carry out; [LibApiEdge]: behaviour that a caller does not expect.

    ** What the theorems show

    The trees: every tree that the operations can build is a red-black tree of
    sorted disjoint ranges with the right count; adding maps each byte to the
    last write that covers it and removal removes exactly its range; failed
    allocations leave a consistent tree; client and server agree on every byte
    after any sequence of writes.

    The log: an allocation only takes free chunks, what is written is read
    back and nothing else changes, what is allocated can be freed.

    The files of a server: extents, sizes, lamination, truncation, unlinking
    and listing, as invariants of every reachable server and as the effect of
    each operation; requests are resolved to exactly the chunks that hold
    their bytes.

    Reads through servers: whatever the order in which requests and answers
    arrive, a request is completed once, with every byte from the right place
    of the right log ([ReadSystem.read_delivery]); it can always be completed
    ([ReadSystem.reads_can_complete]); and the buffers of the client end up
    with these bytes ([ClientReadProps.served_reads_correct]).

    Files shared by servers: however the threads and messages of the servers
    interleave and whatever fails, each server has each file as its operations
    left it ([servers_hold_contents]), a synchronisation is acknowledged only
    when the owner of the file has its extents ([acknowledged_sync_applied]),
    a lookup shows the file at a moment while it ran ([lookup_linearizes]), and
    so a client finds what another one has synchronised ([read_after_sync]).

    Broadcasts: a failure at any server reaches the root, and only then the
    root reports one, when the responses can be read
    ([broadcast_failure_reported]); the listing of all files has every file of
    every server once, with its name ([metaget_all_complete]); the threads of
    the servers write every byte of the file they were asked to copy to its
    place ([distributed_transfer_correct]).  No server leaves the start-up
    with success before all have reported ([bootstrap_safe]), and the start-up
    can complete for any number of servers ([bootstrap_completes]).

    Calls of clients: each call is refused or dispatched once, in order, with
    its input ([calls_served_once]), and a client is told once of each file
    that was unlinked ([callbacks_once]).

    The client: a write changes exactly its range ([client_write_correct]), the
    index passed to the server describes exactly the unsynchronised bytes
    ([sync_passes_extents]), a client reads its own writes
    ([read_own_writes], [own_data_read]), and a read returns as many bytes as
    the file has ([read_result_correct]).

    Calls of an application: a program that uses a buffered stream between
    [fopen] and [fclose], or a set of descriptors that share an open file,
    cannot tell it from a sequence of bytes with a position
    ([stream_session_correct], [fd_session_correct]); a descriptor that is in
    use is never given out again ([tables_invariant],
    [open_free_descriptor]); exactly the paths below the mount point are the
    library's ([intercept_path_correct]); [stat] reports a size that includes
    the writes of the process ([stat_sees_writes]); the processes of a parallel
    transfer copy the whole file ([transfer_rank_correct],
    [parallel_transfer_complete]).  A batch of requests of the library
    interface is carried out in the documented order, each request with its own
    result ([dispatch_io_correct]), and a wait for transfers returns with all
    of them completed when the servers complete them in time
    ([transfers_complete]).

    The configuration: the initialisation neither frees nor reads a string
    that is not allocated, gives each setting the value of its source of
    highest precedence, and the end frees all strings
    ([config_init_correct]); a configuration that is printed as a file or
    listed as options and read again is the same
    ([config_print_ini_roundtrip], [config_options_roundtrip]); an integer that
    is given as an expression reads back as its value if its digits are no more
    than the characters of the expression ([int_setting_readback]).

    Some lemmas show where the code does not do what it means to, on a
    concrete input: [LogIO.logio_alloc_overlaps],
    [LogIO.logio_alloc_leaks_lock], [LogIO.logio_alloc_out_of_range],
    [ReadSystem.short_chunk_shifts_data],
    [ReadSystem.failed_chunk_completes_twice],
    [ReadSystem.unsent_request_never_completes],
    [ReadResult.short_read_keeps_hole], [Blocking.crossed_syncs_block],
    [RpcHandlers.laminate_bcast_empty_refused], the lemmas of [PosixEdge] and
    [LibApiEdge], [LibTransferProps.failed_move_removes_source],
    [TransferProps.short_write_corrupts],
    [CollectiveProps.unread_response_hidden],
    [CollectiveProps.failed_merge_loses_files],
    [CollectiveProps.listing_ignores_failure],
    [ServerTransferProps.unopened_destination_untold],
    [ServerTransferProps.remote_failure_hidden],
    [BootstrapProps.duplicate_report_counted],
    [ClientCallsProps.node_local_extents_lost_chunk],
    [Callbacks.heartbeat_shared], [ConfigThms.system_file_double_free],
    [ConfigThms.custom_file_overrides_command_line],
    [ConfigRound.int_setting_truncated] and others.  The theorems about the
    client's log therefore ask for a log in shared memory with a number of
    chunks that is a multiple of 8, and those about reads for chunks that can
    be read in full.

    ** Not modelled

    System calls, the remote procedure call library, MPI and OpenSSL are
    parameters or interfaces: [io_result] for reads and writes of files,
    [ServerRpc] and [ClientRpc] for calls, [network] for messages, a function
    for MD5 and one for the reduction of a path.  Formatted input from streams
    is code of a C library and is left out; formatted output takes the text as
    an argument.  The environment, [getopt_long], files, directories and the
    evaluation of expressions over floating-point numbers ([tinyexpr.c]) are
    operations of a [platform].  The main functions of client and server,
    logging and the command line tools are not modelled: they are input and
    output, packing of arguments and threads around the operations that are.
    The theorems about descriptors and streams are proved against the contract
    [FileSpec]; that the client implements its reads and writes is the subject
    of [ClientWrite] and [ReadResult], for a client whose log is in shared
    memory. *)

From Stdlib Require Export ssreflect ZArith Lia.
From stdpp Require Export base list sorting gmap.

#[export] Set Default Goal Selector "!".
#[export] Set Warnings "-rewrite-rw,-clear-no-such-hyp".

Declare Scope unifyfs_scope.
Delimit Scope unifyfs_scope with ufs.
Open Scope Z_scope.

(** ** Machine integers

    [unsigned long], [size_t] and [uint64_t] are 64 bits wide on the
    platforms UnifyFS supports.  A value of such a type is a [Z] in
    [0 .. ULONG_MAX]; every arithmetic operation of the source is followed by
    the reduction [u64]. *)

Definition ULONG_MAX : Z := 18446744073709551615.
Definition u64 (z : Z) : Z := z mod 18446744073709551616.
Definition is_u64 (z : Z) : Prop := 0 <= z <= ULONG_MAX.

Notation "a ⊞ b" := (u64 (a + b)) (at level 50, left associativity) : unifyfs_scope.
Notation "a ⊟ b" := (u64 (a - b)) (at level 50, left associativity) : unifyfs_scope.
Open Scope unifyfs_scope.

(** [unsigned int] *)
Definition u32 (z : Z) : Z := z mod 4294967296.

(** The outcome of code with a loop: a result, a read through a null pointer,
    or more passes than the model allows. *)
Inductive run (A : Type) :=
  | Done (a : A)
  | NullDeref
  | NoFuel.

Arguments Done {A}.
Arguments NullDeref {A}.
Arguments NoFuel {A}.

(** ** Return codes ([unifyfs_rc.h] and [errno.h]) *)

Definition UNIFYFS_SUCCESS : Z := 0.
Definition UNIFYFS_FAILURE : Z := -1.
Definition ENOENT : Z := 2.
Definition ENOMEM : Z := 12.
Definition EEXIST : Z := 17.
Definition EINVAL : Z := 22.
Definition ENOSPC : Z := 28.
Definition ENODATA : Z := 61.
Definition ETIMEDOUT : Z := 110.
Definition EINPROGRESS : Z := 115.
Definition UNIFYFS_ERROR_MARGO : Z := 1004.
Definition UNIFYFS_ERROR_NYI : Z := 1005.

(** ** Automation *)

Create HintDb unifyfs discriminated.
Create Rewrite HintDb u64_norm.

(** Linear arithmetic with [u64] unfolded. *)
Ltac ulia :=
  unfold is_u64, u64, ULONG_MAX in *; Z.div_mod_to_equations; lia.

(** Split the boolean tests of the goal and turn them into propositions. *)
Ltac zbool :=
  repeat match goal with
  | H : (_ && _)%bool = true |- _ => apply andb_prop in H as [? ?]
  | H : (_ <? _) = true |- _ => apply Z.ltb_lt in H
  | H : (_ <? _) = false |- _ => apply Z.ltb_ge in H
  | H : (_ <=? _) = true |- _ => apply Z.leb_le in H
  | H : (_ <=? _) = false |- _ => apply Z.leb_gt in H
  | H : (_ =? _) = true |- _ => apply Z.eqb_eq in H
  | H : (_ =? _) = false |- _ => apply Z.eqb_neq in H
  | H : (_ >? _) = true |- _ => rewrite Z.gtb_ltb in H
  | H : (_ >? _) = false |- _ => rewrite Z.gtb_ltb in H
  | H : (_ >=? _) = true |- _ => rewrite Z.geb_leb in H
  | H : (_ >=? _) = false |- _ => rewrite Z.geb_leb in H
  end.

(** Case analysis on the first conditional of the goal. *)
Ltac zcase :=
  match goal with
  | |- context [if ?b then _ else _] => destruct b eqn:?
  end; zbool.

(** All comparisons of the goal by cases. *)
Ltac zcompare :=
  repeat match goal with
    | |- context [?x <=? ?y] => destruct (Z.leb_spec x y)
    | |- context [?x <? ?y] => destruct (Z.ltb_spec x y)
    | |- context [?x =? ?y] => destruct (Z.eqb_spec x y)
    end; simpl; try done; try lia.

(** A value that depends on whether [b] is in [lo..hi]. *)
Lemma if_in_range {A} lo hi b (x y z : A) :
  (lo <= b <= hi -> z = x) -> (~ (lo <= b <= hi) -> z = y) ->
  z = if (lo <=? b) && (b <=? hi) then x else y.
Proof.
  intros H1 H2. destruct (_ && _) eqn:Hb; [zbool; by apply H1|].
  apply H2. intros ?. apply andb_false_iff in Hb as [?|?]; zbool; lia.
Qed.

(** ** 64-bit arithmetic *)

Lemma u64_small z : is_u64 z -> u64 z = z.
Proof. intros. unfold u64. apply Z.mod_small. unfold is_u64, ULONG_MAX in *. lia. Qed.

Lemma u64_range z : is_u64 (u64 z).
Proof. unfold is_u64, u64, ULONG_MAX. pose proof (Z.mod_pos_bound z 18446744073709551616). lia. Qed.

Lemma u64_add_l a b : u64 (u64 a + b) = u64 (a + b).
Proof. apply Zplus_mod_idemp_l. Qed.

Lemma u64_add_r a b : u64 (a + u64 b) = u64 (a + b).
Proof. apply Zplus_mod_idemp_r. Qed.

Lemma u64_sub_l a b : u64 (u64 a - b) = u64 (a - b).
Proof. apply Zminus_mod_idemp_l. Qed.

Lemma u64_sub_r a b : u64 (a - u64 b) = u64 (a - b).
Proof. apply Zminus_mod_idemp_r. Qed.

#[export] Hint Resolve u64_range : unifyfs.
#[export] Hint Rewrite u64_add_l u64_add_r u64_sub_l u64_sub_r : u64_norm.

(** ** Lists *)

(** A list split at two places. *)
Lemma app_cons_split {A} (k1 k2 n1 n2 : list A) (y x : A) :
  k1 ++ y :: k2 = n1 ++ x :: n2 ->
  (n1 = k1 /\ x = y /\ n2 = k2) \/
  (exists k, k1 = n1 ++ x :: k /\ n2 = k ++ y :: k2) \/
  (exists k, n1 = k1 ++ y :: k /\ k2 = k ++ x :: n2).
Proof.
  revert n1; induction k1 as [|z k1 IH]; intros [|z' n1]; simpl.
  - intros [= -> ->]. by left.
  - intros [= -> ->]. right; right. by exists n1.
  - intros [= -> <-]. right; left. by exists k1.
  - intros [= -> Heq]. destruct (IH _ Heq) as [(-> & -> & ->)|[(k & -> & ->)|(k & -> & ->)]];
      [by left|right; left|right; right]; by exists k.
Qed.

Lemma find_app {A} (f : A -> bool) (l1 l2 : list A) :
  List.find f (l1 ++ l2) =
  match List.find f l1 with Some x => Some x | None => List.find f l2 end.
Proof. induction l1 as [|x l1 IH]; simpl; [done|]. by destruct (f x). Qed.

Lemma find_none_Forall {A} (f : A -> bool) (l : list A) :
  List.find f l = None <-> Forall (fun x => f x = false) l.
Proof.
  induction l as [|x l IH]; simpl; [by split|]. destruct (f x) eqn:Hx.
  - split; [done|]. inversion 1; congruence.
  - rewrite IH Forall_cons. naive_solver.
Qed.

(** The first element that passes a test splits the list. *)
Lemma find_some_split {A} (f : A -> bool) (l : list A) x :
  List.find f l = Some x ->
  exists l1 l2, l = l1 ++ x :: l2 /\ Forall (fun y => f y = false) l1 /\ f x = true.
Proof.
  induction l as [|y l IH]; simpl; [done|]. destruct (f y) eqn:Hy.
  - intros [= <-]. exists [], l. by repeat constructor.
  - intros (l1 & l2 & -> & ? & ?)%IH. exists (y :: l1), l2. by repeat constructor.
Qed.

(** Changing an element that is there is writing the new value to it. *)
Lemma list_alter_insert {A} (f : A -> A) (l : list A) i x : l !! i = Some x -> alter f i l = <[i := f x]> l.
Proof.
  intros Hi. apply list_eq. intros j. destruct (decide (i = j)) as [<-|Hne].
  - rewrite list_lookup_alter_eq Hi list_lookup_insert_eq //. by apply (lookup_lt_Some _ _ _ Hi).
  - by rewrite list_lookup_alter_ne // list_lookup_insert_ne.
Qed.

Lemma StronglySorted_map {A B} (R : relation B) (f : A -> B) (l : list A) :
  StronglySorted (fun x y => R (f x) (f y)) l -> StronglySorted R (f <$> l).
Proof. induction 1 as [|x l _ IH Hx]; [constructor|]. rewrite fmap_cons. constructor; [done|]. by apply Forall_fmap. Qed.

Lemma NoDup_flat_map {A B} (f : A -> list B) l :
  NoDup l -> (forall a, a ∈ l -> NoDup (f a)) ->
  (forall a b x, a ∈ l -> b ∈ l -> x ∈ f a -> x ∈ f b -> a = b) -> NoDup (flat_map f l).
Proof.
  induction 1 as [|a l Ha Hl IH]; intros Hn Hd; simpl; [constructor|].
  apply NoDup_app. split_and!.
  - apply Hn. by left.
  - intros x Hx (b & Hb & Hxb)%list_elem_of_In%in_flat_map. apply list_elem_of_In in Hb, Hxb.
    assert (a = b) as -> by (apply (Hd a b x); set_solver). done.
  - apply IH; [set_solver|]. intros ? ? ? ? ?. apply Hd; set_solver.
Qed.

(** ** Memory allocation

    [calloc] returns the address of a fresh object, or the null pointer when
    the next entry of [mem_fail] says so (an exhausted list means that the
    following calls succeed).  Addresses are not reused, so that two objects
    never share one. *)
Record mem := Mem {
  mem_next : Z;
  mem_fail : list bool;
}.

Definition calloc (m : mem) : option Z * mem :=
  match mem_fail m with
  | true :: fs => (None, Mem (mem_next m) fs)
  | false :: fs => (Some (mem_next m), Mem (mem_next m + 1) fs)
  | [] => (Some (mem_next m), Mem (mem_next m + 1) [])
  end.

Lemma calloc_some m a m' :
  calloc m = (Some a, m') -> a = mem_next m /\ mem_next m' = mem_next m + 1.
Proof. unfold calloc. destruct (mem_fail m) as [|[] fs]; by intros [= <- <-]. Qed.

Lemma calloc_none m m' : calloc m = (None, m') -> mem_next m' = mem_next m.
Proof. unfold calloc. destruct (mem_fail m) as [|[] fs]; by intros [= <-]. Qed.

Lemma calloc_next m p m' : calloc m = (p, m') -> mem_next m <= mem_next m'.
Proof. destruct p; intros H; [apply calloc_some in H as [_ ->]|apply calloc_none in H as ->]; lia. Qed.

(** No allocation fails from here on. *)
Definition mem_plenty (m : mem) : Prop := Forall (eq false) (mem_fail m).

Lemma mem_plenty_nil n : mem_plenty (Mem n []).
Proof. constructor. Qed.

Lemma calloc_plenty m :
  mem_plenty m -> exists m', calloc m = (Some (mem_next m), m') /\ mem_plenty m' /\
    mem_next m' = mem_next m + 1.
Proof.
  unfold mem_plenty, calloc. destruct 1 as [|? fs <- Hf]; eexists; split_and!; eauto; constructor.
Qed.

(** What every operation does to the allocator: it hands out addresses, and
    does not run out of memory when there is enough. *)
Definition mem_le (m m' : mem) : Prop := mem_next m <= mem_next m' /\ (mem_plenty m -> mem_plenty m').

#[export] Instance mem_le_preorder : PreOrder mem_le.
Proof. split; [by intros m; split; [lia|]|]. intros m1 m2 m3 [? ?] [? ?]. split; [lia|auto]. Qed.

Lemma calloc_le m p m' : calloc m = (p, m') -> mem_le m m'.
Proof.
  intros Hc. split; [by eapply calloc_next|]. intros (m2 & Hc' & ? & _)%calloc_plenty. congruence.
Qed.

Lemma calloc_le_plenty m m' : mem_plenty m -> calloc m = (None, m') -> False.
Proof. intros (? & ? & _)%calloc_plenty. congruence. Qed.

#[export] Hint Resolve calloc_le : unifyfs.

Ltac calloc_step :=
  match goal with
  | |- context [calloc ?m] =>
      let p := fresh "p" in let m' := fresh "m" in let H := fresh "Hm" in
      destruct (calloc m) as [p m'] eqn:H; apply calloc_le in H
  end.

Ltac mem_chain := simpl in *; repeat match goal with H : mem_le ?a ?b |- mem_le ?a _ => etrans; [exact H|]; clear H end; reflexivity.
