(* ===== verification/RbTree.v ===== *)
(** * The intrusive red-black tree of [common/src/tree.h]

    [RB_GENERATE] expands, for a node type and a comparison function, to the
    functions [RB_INSERT], [RB_REMOVE], [RB_FIND], [RB_NFIND], [RB_NEXT],
    [RB_PREV] and [RB_MINMAX] and to the two rebalancing loops
    [RB_INSERT_COLOR] and [RB_REMOVE_COLOR].  The segment tree, the extent tree
    and the inode tree are expansions of these macros.

    The nodes are linked by parent, left and right pointers.  The model is a
    binary tree of node structures; a pointer into the tree is the address
    stored with the node, and the chain of parent pointers from a node to the
    root is a list of frames (a zipper).  Walking up the parent pointers is
    recursion on that list.

    The file proves that the operations act on the in-order sequence of the
    nodes as on a list, and that insertion and removal preserve the red-black
    invariant, which bounds the depth of every search. *)

From S2P Require Import Prelude.

(** ** The nodes *)

(** What [RB_GENERATE] is told about the node type: the identity of a node
    (its address) and the comparison function of the tree. *)
Class RbNode (E : Type) := {
  rb_addr : E -> Z;
  rb_cmp : E -> E -> Z;
}.

Inductive rb_color := RB_BLACK | RB_RED.

#[export] Instance rb_color_eq_dec : EqDecision rb_color.
Proof. solve_decision. Defined.

(** [RB_NULL] is the null pointer. *)
Inductive rb_tree (E : Type) :=
| RB_NULL
| RB_NODE (c : rb_color) (l : rb_tree E) (x : E) (r : rb_tree E).
Arguments RB_NULL {E}.
Arguments RB_NODE {E} c l x r.

(** One step of the chain of parent pointers: the parent of the node under
    consideration, which is its left or its right child. *)
Inductive rb_frame (E : Type) :=
| LeftOf (c : rb_color) (x : E) (r : rb_tree E)
| RightOf (c : rb_color) (l : rb_tree E) (x : E).
Arguments LeftOf {E} c x r.
Arguments RightOf {E} c l x.

Section Operations.
Context {E : Type} `{!RbNode E}.
Implicit Types (t l r : rb_tree E) (x y : E) (p : list (rb_frame E)).

(** The nodes from left to right. *)
Fixpoint rb_elems t : list E :=
  match t with
  | RB_NULL => []
  | RB_NODE _ l x r => rb_elems l ++ x :: rb_elems r
  end.

(** The whole tree, seen from the subtree [t] with the ancestors [p]. *)
Fixpoint rb_plug t p : rb_tree E :=
  match p with
  | [] => t
  | LeftOf c x r :: p' => rb_plug (RB_NODE c t x r) p'
  | RightOf c l x :: p' => rb_plug (RB_NODE c l x t) p'
  end.

Definition rb_is_red t : bool :=
  match t with RB_NODE RB_RED _ _ _ => true | _ => false end.

(** [RB_COLOR(t) = RB_BLACK], skipped for the null pointer. *)
Definition rb_blacken t : rb_tree E :=
  match t with RB_NULL => RB_NULL | RB_NODE _ l x r => RB_NODE RB_BLACK l x r end.

Definition RB_EMPTY t : bool :=
  match t with RB_NULL => true | RB_NODE _ _ _ _ => false end.

(** ** Insertion *)

(** [RB_INSERT_COLOR]: [elm] is the red node just linked below the ancestors
    [p].  While its parent is red, the loop either recolours parent, uncle and
    grandparent and moves up two levels, or rotates once or twice and leaves.
    A red parent without a parent of its own is a null dereference in C; it
    does not occur because the root is black ([rb_insert_color_inv]). *)
Fixpoint RB_INSERT_COLOR (elm : rb_tree E) p : rb_tree E :=
  match p with
  | LeftOf RB_RED px pr :: LeftOf gc gx tmp :: p' =>
      if rb_is_red tmp then
        RB_INSERT_COLOR (RB_NODE RB_RED (RB_NODE RB_BLACK elm px pr) gx (rb_blacken tmp)) p'
      else
        rb_blacken (rb_plug (RB_NODE RB_BLACK elm px (RB_NODE RB_RED pr gx tmp)) p')
  | RightOf RB_RED pl px :: LeftOf gc gx tmp :: p' =>
      if rb_is_red tmp then
        RB_INSERT_COLOR (RB_NODE RB_RED (RB_NODE RB_BLACK pl px elm) gx (rb_blacken tmp)) p'
      else
        match elm with
        | RB_NODE _ el ex er =>
            rb_blacken (rb_plug
              (RB_NODE RB_BLACK (RB_NODE RB_RED pl px el) ex (RB_NODE RB_RED er gx tmp)) p')
        | RB_NULL => rb_plug elm p
        end
  | RightOf RB_RED pl px :: RightOf gc tmp gx :: p' =>
      if rb_is_red tmp then
        RB_INSERT_COLOR (RB_NODE RB_RED (rb_blacken tmp) gx (RB_NODE RB_BLACK pl px elm)) p'
      else
        rb_blacken (rb_plug (RB_NODE RB_BLACK (RB_NODE RB_RED tmp gx pl) px elm) p')
  | LeftOf RB_RED px pr :: RightOf gc tmp gx :: p' =>
      if rb_is_red tmp then
        RB_INSERT_COLOR (RB_NODE RB_RED (rb_blacken tmp) gx (RB_NODE RB_BLACK elm px pr)) p'
      else
        match elm with
        | RB_NODE _ el ex er =>
            rb_blacken (rb_plug
              (RB_NODE RB_BLACK (RB_NODE RB_RED tmp gx el) ex (RB_NODE RB_RED er px pr)) p')
        | RB_NULL => rb_plug elm p
        end
  | _ => rb_blacken (rb_plug elm p)
  end.

(** The descent of [RB_INSERT]: an equal node, or the place to link at. *)
Fixpoint rb_descend (elm : E) t p : E + list (rb_frame E) :=
  match t with
  | RB_NULL => inr p
  | RB_NODE c l x r =>
      let comp := rb_cmp elm x in
      if comp <? 0 then rb_descend elm l (LeftOf c x r :: p)
      else if comp >? 0 then rb_descend elm r (RightOf c l x :: p)
      else inl x
  end.

(** Returns the conflicting node and leaves the tree alone, or links [elm]. *)
Definition RB_INSERT t (elm : E) : option E * rb_tree E :=
  match rb_descend elm t [] with
  | inl x => (Some x, t)
  | inr p => (None, RB_INSERT_COLOR (RB_NODE RB_RED RB_NULL elm RB_NULL) p)
  end.

(** ** Removal *)

(** The last branch of [RB_REMOVE_COLOR], which ends the loop: the sibling
    [tmp], to the right of the parent [px], has a red child. *)
Definition rb_remove_rot_left (cp : rb_color) (elm : rb_tree E) (px : E)
    (tl : rb_tree E) (tx : E) (tr : rb_tree E) : rb_tree E :=
  if rb_is_red tr then
    RB_NODE cp (RB_NODE RB_BLACK elm px tl) tx (rb_blacken tr)
  else
    match tl with
    | RB_NODE _ ll lx lr =>
        RB_NODE cp (RB_NODE RB_BLACK elm px ll) lx (RB_NODE RB_BLACK lr tx tr)
    | RB_NULL => RB_NODE cp elm px (RB_NODE RB_RED tl tx tr)
    end.

(** The mirror image: the sibling is to the left of the parent. *)
Definition rb_remove_rot_right (cp : rb_color) (elm : rb_tree E) (px : E)
    (tl : rb_tree E) (tx : E) (tr : rb_tree E) : rb_tree E :=
  if rb_is_red tl then
    RB_NODE cp (rb_blacken tl) tx (RB_NODE RB_BLACK tr px elm)
  else
    match tr with
    | RB_NODE _ rl rx rr =>
        RB_NODE cp (RB_NODE RB_BLACK tl tx rl) rx (RB_NODE RB_BLACK rr px elm)
    | RB_NULL => RB_NODE cp (RB_NODE RB_RED tl tx tr) px elm
    end.

(** [RB_REMOVE_COLOR]: the subtree [elm] below the ancestors [p] has lost one
    black node.  A red sibling is first rotated above the parent, which makes
    the parent red, so that the following recolouring ends the loop. *)
Fixpoint RB_REMOVE_COLOR (elm : rb_tree E) p : rb_tree E :=
  if rb_is_red elm then rb_plug (rb_blacken elm) p
  else
    match p with
    | [] => rb_blacken elm
    | LeftOf cp px tmp :: p' =>
        match tmp with
        | RB_NODE RB_RED tl tx tr =>
            match tl with
            | RB_NODE _ tll tlx tlr =>
                if negb (rb_is_red tll) && negb (rb_is_red tlr) then
                  rb_plug (RB_NODE RB_BLACK elm px (RB_NODE RB_RED tll tlx tlr))
                    (LeftOf RB_BLACK tx tr :: p')
                else
                  rb_blacken (rb_plug (rb_remove_rot_left RB_RED elm px tll tlx tlr)
                    (LeftOf RB_BLACK tx tr :: p'))
            | RB_NULL => rb_plug elm p
            end
        | RB_NODE RB_BLACK tl tx tr =>
            if negb (rb_is_red tl) && negb (rb_is_red tr) then
              RB_REMOVE_COLOR (RB_NODE cp elm px (RB_NODE RB_RED tl tx tr)) p'
            else
              rb_blacken (rb_plug (rb_remove_rot_left cp elm px tl tx tr) p')
        | RB_NULL => rb_plug elm p
        end
    | RightOf cp tmp px :: p' =>
        match tmp with
        | RB_NODE RB_RED tl tx tr =>
            match tr with
            | RB_NODE _ trl trx trr =>
                if negb (rb_is_red trl) && negb (rb_is_red trr) then
                  rb_plug (RB_NODE RB_BLACK (RB_NODE RB_RED trl trx trr) px elm)
                    (RightOf RB_BLACK tl tx :: p')
                else
                  rb_blacken (rb_plug (rb_remove_rot_right RB_RED elm px trl trx trr)
                    (RightOf RB_BLACK tl tx :: p'))
            | RB_NULL => rb_plug elm p
            end
        | RB_NODE RB_BLACK tl tx tr =>
            if negb (rb_is_red tl) && negb (rb_is_red tr) then
              RB_REMOVE_COLOR (RB_NODE cp (RB_NODE RB_RED tl tx tr) px elm) p'
            else
              rb_blacken (rb_plug (rb_remove_rot_right cp elm px tl tx tr) p')
        | RB_NULL => rb_plug elm p
        end
    end.

(** Following the pointer to the node at address [a]: its colour, its left
    subtree, the node, its right subtree and its ancestors. *)
Fixpoint rb_locate (a : Z) t p
    : option (rb_color * rb_tree E * E * rb_tree E * list (rb_frame E)) :=
  match t with
  | RB_NULL => None
  | RB_NODE c l x r =>
      if rb_addr x =? a then Some (c, l, x, r, p)
      else
        match rb_locate a l (LeftOf c x r :: p) with
        | Some z => Some z
        | None => rb_locate a r (RightOf c l x :: p)
        end
  end.

(** [while ((left = RB_LEFT(elm))) elm = left]: the leftmost node of the
    non-null tree [RB_NODE c l x r], with its ancestors. *)
Fixpoint rb_leftmost (c : rb_color) l (x : E) r p
    : rb_color * E * rb_tree E * list (rb_frame E) :=
  match l with
  | RB_NULL => (c, x, r, p)
  | RB_NODE c' l' x' r' => rb_leftmost c' l' x' r' (LeftOf c x r :: p)
  end.

(** The tail of [RB_REMOVE]: a node of colour [color] is unlinked by putting
    its only child in its place. *)
Definition rb_unlink (color : rb_color) (child : rb_tree E) p : rb_tree E :=
  match color with
  | RB_BLACK => RB_REMOVE_COLOR child p
  | RB_RED => rb_plug child p
  end.

(** [RB_REMOVE] of the node at address [a].  A node with two children is
    replaced, in its place and colour, by its in-order successor. *)
Definition RB_REMOVE t (a : Z) : rb_tree E :=
  match rb_locate a t [] with
  | None => t
  | Some (c, RB_NULL, _, r, p) => rb_unlink c r p
  | Some (c, l, _, RB_NULL, p) => rb_unlink c l p
  | Some (c, l, _, RB_NODE rc rl rx rr, p) =>
      let '(color, y, child, q) := rb_leftmost rc rl rx rr [] in
      rb_unlink color child (q ++ RightOf c l y :: p)
  end.

(** ** Searching *)

Fixpoint RB_FIND t (elm : E) : option E :=
  match t with
  | RB_NULL => None
  | RB_NODE _ l x r =>
      let comp := rb_cmp elm x in
      if comp <? 0 then RB_FIND l elm
      else if comp >? 0 then RB_FIND r elm
      else Some x
  end.

Fixpoint rb_nfind t (elm : E) (res : option E) : option E :=
  match t with
  | RB_NULL => res
  | RB_NODE _ l x r =>
      let comp := rb_cmp elm x in
      if comp <? 0 then rb_nfind l elm (Some x)
      else if comp >? 0 then rb_nfind r elm res
      else Some x
  end.

Definition RB_NFIND t (elm : E) : option E := rb_nfind t elm None.

Fixpoint rb_minmax (val : Z) t (parent : option E) : option E :=
  match t with
  | RB_NULL => parent
  | RB_NODE _ l x r => rb_minmax val (if val <? 0 then l else r) (Some x)
  end.

Definition RB_MIN t : option E := rb_minmax (-1) t None.
Definition RB_MAX t : option E := rb_minmax 1 t None.

(** Walking up while the node is a right (left) child of its parent. *)
Fixpoint rb_up_next p : option E :=
  match p with
  | [] => None
  | LeftOf _ x _ :: _ => Some x
  | RightOf _ _ _ :: p' => rb_up_next p'
  end.

Fixpoint rb_up_prev p : option E :=
  match p with
  | [] => None
  | RightOf _ _ x :: _ => Some x
  | LeftOf _ _ _ :: p' => rb_up_prev p'
  end.

Definition RB_NEXT t (a : Z) : option E :=
  match rb_locate a t [] with
  | Some (_, _, _, RB_NULL, p) => rb_up_next p
  | Some (_, _, _, r, _) => RB_MIN r
  | None => None
  end.

Definition RB_PREV t (a : Z) : option E :=
  match rb_locate a t [] with
  | Some (_, RB_NULL, _, _, p) => rb_up_prev p
  | Some (_, l, _, _, _) => RB_MAX l
  | None => None
  end.

(** Assigning to fields of the node at address [a], which is linked in the
    tree: the links and colours stay. *)
Fixpoint rb_update (a : Z) (f : E -> E) t : rb_tree E :=
  match t with
  | RB_NULL => RB_NULL
  | RB_NODE c l x r =>
      RB_NODE c (rb_update a f l) (if rb_addr x =? a then f x else x) (rb_update a f r)
  end.

End Operations.

(** ** The in-order sequence *)

Section InOrder.
Context {E : Type} `{!RbNode E}.
Implicit Types (t : rb_tree E) (x y : E) (p q : list (rb_frame E)).

(** The nodes to the left and to the right of a subtree, given its ancestors. *)
Fixpoint rb_before p : list E :=
  match p with
  | [] => []
  | LeftOf _ _ _ :: p' => rb_before p'
  | RightOf _ l x :: p' => rb_before p' ++ rb_elems l ++ [x]
  end.

Fixpoint rb_after p : list E :=
  match p with
  | [] => []
  | LeftOf _ x r :: p' => x :: rb_elems r ++ rb_after p'
  | RightOf _ _ _ :: p' => rb_after p'
  end.

Lemma rb_elems_plug t p :
  rb_elems (rb_plug t p) = rb_before p ++ rb_elems t ++ rb_after p.
Proof.
  revert t; induction p as [|[] p IH]; intros t; simpl;
    rewrite ?app_nil_r; try rewrite IH; simpl; by rewrite -?app_assoc.
Qed.

Lemma rb_elems_blacken t : rb_elems (rb_blacken t) = rb_elems t.
Proof. by destruct t. Qed.

(** Rewriting of in-order sequences up to associativity. *)
Ltac inorder :=
  repeat first
    [ progress simpl
    | rewrite rb_elems_blacken
    | rewrite rb_elems_plug
    | rewrite -!app_assoc ];
  rewrite ?app_nil_r -?app_assoc; simpl; try done.

Lemma rb_elems_insert_color elm p :
  rb_elems (RB_INSERT_COLOR elm p) = rb_before p ++ rb_elems elm ++ rb_after p.
Proof.
  remember (length p) as n eqn:Hn.
  revert elm p Hn; induction n as [n IH] using lt_wf_ind; intros elm p Hn.
  destruct p as [|[[] px pr|[] pl px] [|[gc gx tmp|gc tmp gx] p]]; simpl; try by inorder.
  all: destruct (rb_is_red tmp) eqn:?; [|first [by inorder | by destruct elm; inorder]].
  all: rewrite (IH (length p) ltac:(simpl in *; lia) _ p eq_refl); by inorder.
Qed.

Lemma rb_elems_rot_left cp (elm : rb_tree E) px tl tx tr :
  rb_elems (rb_remove_rot_left cp elm px tl tx tr) =
  rb_elems elm ++ px :: rb_elems tl ++ tx :: rb_elems tr.
Proof. unfold rb_remove_rot_left. destruct (rb_is_red tr); [|destruct tl]; by inorder. Qed.

Lemma rb_elems_rot_right cp (elm : rb_tree E) px tl tx tr :
  rb_elems (rb_remove_rot_right cp elm px tl tx tr) =
  rb_elems tl ++ tx :: rb_elems tr ++ px :: rb_elems elm.
Proof. unfold rb_remove_rot_right. destruct (rb_is_red tl); [|destruct tr]; by inorder. Qed.

Lemma rb_elems_remove_color (elm : rb_tree E) p :
  rb_elems (RB_REMOVE_COLOR elm p) = rb_before p ++ rb_elems elm ++ rb_after p.
Proof.
  revert elm; induction p as [|f p IH]; intros elm; simpl.
  { destruct (rb_is_red elm); by inorder. }
  destruct (rb_is_red elm) eqn:?; [by destruct f; inorder|].
  destruct f as [cp px [|[] tl tx tr]|cp [|[] tl tx tr] px]; try by inorder.
  - destruct (_ && _); [rewrite IH; by inorder|].
    rewrite rb_elems_blacken rb_elems_plug rb_elems_rot_left; by inorder.
  - destruct tl as [|? tll tlx tlr]; [by inorder|].
    destruct (_ && _); [by inorder|].
    rewrite rb_elems_blacken rb_elems_plug; simpl. rewrite rb_elems_rot_left; by inorder.
  - destruct (_ && _); [rewrite IH; by inorder|].
    rewrite rb_elems_blacken rb_elems_plug rb_elems_rot_right; by inorder.
  - destruct tr as [|? trl trx trr]; [by inorder|].
    destruct (_ && _); [by inorder|].
    rewrite rb_elems_blacken rb_elems_plug; simpl. rewrite rb_elems_rot_right; by inorder.
Qed.

Lemma rb_elems_unlink color child p :
  rb_elems (rb_unlink color child p) = rb_before p ++ rb_elems child ++ rb_after p.
Proof. destruct color; simpl; [apply rb_elems_remove_color|apply rb_elems_plug]. Qed.

(** *** Pointers into the tree *)

Lemma rb_locate_some a t p c l x r q :
  rb_locate a t p = Some (c, l, x, r, q) ->
  rb_addr x = a /\ rb_plug (RB_NODE c l x r) q = rb_plug t p.
Proof.
  revert p; induction t as [|c' l' IHl x' r' IHr]; intros p; simpl; [done|].
  destruct (rb_addr x' =? a) eqn:Ha; [intros [= <- <- <- <- <-]; zbool; done|].
  destruct (rb_locate a l' _) as [z|] eqn:Hl.
  - intros [= ->]. by apply IHl in Hl.
  - intros Hr. by apply IHr in Hr.
Qed.

Lemma rb_locate_none a t p :
  rb_locate a t p = None -> Forall (fun x => rb_addr x <> a) (rb_elems t).
Proof.
  revert p; induction t as [|c' l' IHl x' r' IHr]; intros p; simpl; [by constructor|].
  destruct (rb_addr x' =? a) eqn:Ha; [done|].
  destruct (rb_locate a l' _) as [z|] eqn:Hl; [done|].
  intros Hr. zbool. apply Forall_app; split; [eauto|]. constructor; [done|eauto].
Qed.

Lemma NoDup_addr_inv (l1 l2 k1 k2 : list E) x y :
  NoDup (rb_addr <$> (l1 ++ x :: l2)) ->
  l1 ++ x :: l2 = k1 ++ y :: k2 -> rb_addr x = rb_addr y ->
  l1 = k1 /\ x = y /\ l2 = k2.
Proof.
  revert k1; induction l1 as [|z l1 IH]; intros [|z' k1]; simpl.
  - by intros _ [= -> ->].
  - intros [Hn _]%NoDup_cons [= <- ->] Haddr. destruct Hn.
    rewrite Haddr. apply list_elem_of_fmap. exists y. split; [done|]. by apply elem_of_app; right; constructor.
  - intros [Hn _]%NoDup_cons [= -> <-] Haddr. destruct Hn.
    rewrite -Haddr. apply list_elem_of_fmap. exists x. split; [done|]. by apply elem_of_app; right; constructor.
  - intros [_ Hd]%NoDup_cons [= -> Heq] Haddr.
    by destruct (IH k1 Hd Heq Haddr) as (-> & -> & ->).
Qed.

(** The node structure at an address is found with its in-order context. *)
Lemma rb_locate_spec t l1 x l2 :
  NoDup (rb_addr <$> rb_elems t) -> rb_elems t = l1 ++ x :: l2 ->
  exists c l r p, rb_locate (rb_addr x) t [] = Some (c, l, x, r, p) /\
    l1 = rb_before p ++ rb_elems l /\ l2 = rb_elems r ++ rb_after p /\
    rb_plug (RB_NODE c l x r) p = t.
Proof.
  intros Hnd Heq.
  destruct (rb_locate (rb_addr x) t []) as [[[[[c l] y] r] p]|] eqn:Hloc.
  - apply rb_locate_some in Hloc as [Ha Hp]. simpl in Hp.
    assert (rb_elems t = (rb_before p ++ rb_elems l) ++ y :: (rb_elems r ++ rb_after p)) as Ht.
    { rewrite -Hp rb_elems_plug. simpl. by rewrite -!app_assoc. }
    rewrite Heq in Hnd Ht. destruct (NoDup_addr_inv _ _ _ _ _ _ Hnd Ht) as (-> & -> & ->); [done|].
    naive_solver.
  - apply rb_locate_none in Hloc. rewrite Heq in Hloc.
    apply Forall_app in Hloc as [_ [? _]%Forall_cons]. done.
Qed.

Lemma rb_leftmost_spec c (l : rb_tree E) x r p c' y child q :
  rb_leftmost c l x r p = (c', y, child, q) ->
  rb_plug (RB_NODE c' RB_NULL y child) q = rb_plug (RB_NODE c l x r) p /\
  rb_before q = rb_before p.
Proof.
  revert c x r p; induction l as [|cl ll IHl lx lr IHr]; intros c x r p; simpl.
  - by intros [= -> -> -> ->].
  - intros H. by destruct (IHl _ _ _ _ H) as [-> ->].
Qed.

Lemma rb_before_app p q : rb_before (p ++ q) = rb_before q ++ rb_before p.
Proof. induction p as [|[] p IH]; simpl; by rewrite ?app_nil_r ?IH -?app_assoc. Qed.

Lemma rb_after_app p q : rb_after (p ++ q) = rb_after p ++ rb_after q.
Proof. induction p as [|[] p IH]; simpl; by rewrite ?IH -?app_assoc. Qed.

(** [RB_REMOVE] takes exactly the given node out of the sequence. *)
Lemma rb_elems_remove t l1 x l2 :
  NoDup (rb_addr <$> rb_elems t) -> rb_elems t = l1 ++ x :: l2 ->
  rb_elems (RB_REMOVE t (rb_addr x)) = l1 ++ l2.
Proof.
  intros Hnd Heq.
  destruct (rb_locate_spec t l1 x l2 Hnd Heq) as (c & l & r & p & Hloc & -> & -> & Ht).
  unfold RB_REMOVE. rewrite Hloc.
  destruct l as [|lc ll lx lr]; [rewrite rb_elems_unlink; by inorder|].
  destruct r as [|rc rl rx rr]; [rewrite rb_elems_unlink; by inorder|].
  destruct (rb_leftmost rc rl rx rr []) as [[[color y] child] q] eqn:Hlm.
  apply rb_leftmost_spec in Hlm as [Hlm Hq]. simpl in Hlm, Hq.
  apply (f_equal rb_elems) in Hlm. rewrite rb_elems_plug Hq in Hlm. simpl in Hlm.
  rewrite rb_elems_unlink rb_before_app rb_after_app Hq. simpl.
  rewrite -Hlm. by inorder.
Qed.

Lemma rb_minmax_min t d : rb_minmax (-1) t d = match head (rb_elems t) with Some x => Some x | None => d end.
Proof.
  revert d; induction t as [|c l IHl x r IHr]; intros d; simpl; [done|].
  rewrite IHl. by destruct (rb_elems l).
Qed.

Lemma rb_minmax_max t d : rb_minmax 1 t d = match last (rb_elems t) with Some x => Some x | None => d end.
Proof.
  revert d; induction t as [|c l IHl x r IHr]; intros d; simpl; [done|].
  rewrite IHr last_app_cons last_cons. by destruct (last (rb_elems r)).
Qed.

Lemma RB_MIN_spec t : RB_MIN t = head (rb_elems t).
Proof. unfold RB_MIN. rewrite rb_minmax_min. by destruct (head _). Qed.

Lemma RB_MAX_spec t : RB_MAX t = last (rb_elems t).
Proof. unfold RB_MAX. rewrite rb_minmax_max. by destruct (last _). Qed.

Lemma rb_up_next_spec p : rb_up_next p = head (rb_after p).
Proof. induction p as [|[] p IH]; simpl; done. Qed.

Lemma rb_up_prev_spec p : rb_up_prev p = last (rb_before p).
Proof. induction p as [|[] p IH]; simpl; [done..|]. by rewrite app_assoc last_snoc. Qed.

(** [RB_NEXT] and [RB_PREV] are the neighbours in the sequence. *)
Lemma RB_NEXT_spec t l1 x l2 :
  NoDup (rb_addr <$> rb_elems t) -> rb_elems t = l1 ++ x :: l2 ->
  RB_NEXT t (rb_addr x) = head l2.
Proof.
  intros Hnd Heq.
  destruct (rb_locate_spec t l1 x l2 Hnd Heq) as (c & l & r & p & Hloc & -> & -> & Ht).
  unfold RB_NEXT. rewrite Hloc. destruct r as [|rc rl rx rr]; [apply rb_up_next_spec|].
  rewrite RB_MIN_spec. simpl. by destruct (rb_elems rl).
Qed.

Lemma RB_PREV_spec t l1 x l2 :
  NoDup (rb_addr <$> rb_elems t) -> rb_elems t = l1 ++ x :: l2 ->
  RB_PREV t (rb_addr x) = last l1.
Proof.
  intros Hnd Heq.
  destruct (rb_locate_spec t l1 x l2 Hnd Heq) as (c & l & r & p & Hloc & -> & -> & Ht).
  unfold RB_PREV. rewrite Hloc. destruct l as [|lc ll lx lr].
  - rewrite app_nil_r. apply rb_up_prev_spec.
  - rewrite RB_MAX_spec. simpl. by rewrite app_assoc !last_app_cons.
Qed.

Lemma rb_elems_update_eq a f t :
  rb_elems (rb_update a f t) = (fun y => if rb_addr y =? a then f y else y) <$> rb_elems t.
Proof. induction t as [|c l IHl x r IHr]; simpl; [done|]. by rewrite IHl IHr fmap_app. Qed.

(** Assigning to the fields of a linked node. *)
Lemma rb_elems_update t f l1 x l2 :
  NoDup (rb_addr <$> rb_elems t) -> rb_elems t = l1 ++ x :: l2 ->
  rb_elems (rb_update (rb_addr x) f t) = l1 ++ f x :: l2.
Proof.
  intros Hnd Heq. rewrite rb_elems_update_eq Heq. rewrite Heq in Hnd.
  rewrite fmap_app fmap_cons in Hnd. apply NoDup_app in Hnd as (Hn1 & Hx & [Hn2 Hn3]%NoDup_cons).
  rewrite fmap_app fmap_cons Z.eqb_refl. f_equal; [|f_equal].
  - rewrite -{2}(list_fmap_id l1). apply list_fmap_ext. intros i y Hy.
    destruct (rb_addr y =? rb_addr x) eqn:He; [|done]. zbool.
    destruct (Hx (rb_addr x)); [|set_solver]. rewrite -He.
    apply list_elem_of_fmap. exists y. split; [done|]. by eapply list_elem_of_lookup_2.
  - rewrite -{2}(list_fmap_id l2). apply list_fmap_ext. intros i y Hy.
    destruct (rb_addr y =? rb_addr x) eqn:He; [|done]. zbool.
    destruct Hn2. rewrite -He.
    apply list_elem_of_fmap. exists y. split; [done|]. by eapply list_elem_of_lookup_2.
Qed.

Lemma rb_elems_nil t : rb_elems t = [] -> t = RB_NULL.
Proof. destruct t as [|c l x r]; simpl; [done|]. by intros [_ ?]%app_eq_nil. Qed.

Lemma RB_EMPTY_spec t : RB_EMPTY t = true <-> rb_elems t = [].
Proof. destruct t as [|c l x r]; simpl; [done|]. split; [done|]. intros H. by destruct (rb_elems l). Qed.

End InOrder.

(** ** Searching by comparison *)

Section Search.
Context {E : Type} `{!RbNode E}.
Implicit Types (t : rb_tree E) (elm x y : E) (p : list (rb_frame E)).

(** The comparison function need not be a total order (overlapping ranges
    compare as equal).  What a search for [elm] relies on is that, from left to
    right, the nodes below [elm] come first and the nodes above it last. *)
Definition rb_mono elm (ns : list E) : Prop :=
  StronglySorted (fun x y => (rb_cmp elm x < 0 -> rb_cmp elm y < 0) /\
                             (0 < rb_cmp elm y -> 0 < rb_cmp elm x)) ns.

Definition rb_above elm (ns : list E) : Prop := Forall (fun y => rb_cmp elm y < 0) ns.
Definition rb_below elm (ns : list E) : Prop := Forall (fun y => 0 < rb_cmp elm y) ns.

Lemma rb_mono_left elm n1 x n2 :
  rb_mono elm (n1 ++ x :: n2) -> rb_cmp elm x < 0 ->
  rb_mono elm n1 /\ rb_above elm (x :: n2).
Proof.
  intros Hs Hx. split; [by eapply StronglySorted_app_1_l|].
  apply StronglySorted_app_1_r, StronglySorted_inv in Hs as [_ Hf].
  constructor; [done|]. eapply Forall_impl; [exact Hf|]. simpl. tauto.
Qed.

Lemma rb_mono_right elm n1 x n2 :
  rb_mono elm (n1 ++ x :: n2) -> 0 < rb_cmp elm x ->
  rb_mono elm n2 /\ rb_below elm (n1 ++ [x]).
Proof.
  intros Hs Hx. split.
  - by apply StronglySorted_app_1_r, StronglySorted_inv in Hs as [? _].
  - apply Forall_app; split; [|by repeat constructor]. apply Forall_forall. intros y Hy.
    eapply (StronglySorted_app_1_elem_of _ _ _ y x) in Hs as [_ Hr]; [auto|done|by constructor].
Qed.

Lemma rb_descend_spec elm t p :
  rb_mono elm (rb_elems t) -> rb_below elm (rb_before p) -> rb_above elm (rb_after p) ->
  match rb_descend elm t p with
  | inl y => y ∈ rb_elems t /\ rb_cmp elm y = 0
  | inr q => rb_before q ++ rb_after q = rb_before p ++ rb_elems t ++ rb_after p /\
             rb_below elm (rb_before q) /\ rb_above elm (rb_after q)
  end.
Proof.
  revert p; induction t as [|c l IHl x r IHr]; intros p Hm Hb Ha; simpl; [done|].
  simpl in Hm. destruct (rb_cmp elm x <? 0) eqn:Hlt; zbool.
  - destruct (rb_mono_left _ _ _ _ Hm Hlt) as [Hml [_ Har]%Forall_cons].
    specialize (IHl (LeftOf c x r :: p) Hml Hb).
    assert (rb_above elm (rb_after (LeftOf c x r :: p))) as Ha'.
    { simpl. constructor; [done|]. by apply Forall_app. }
    specialize (IHl Ha'). destruct (rb_descend elm l _) as [y|q]; simpl in *.
    + destruct IHl. split; [|done]. apply elem_of_app; by left.
    + destruct IHl as [-> ?]. split; [|done]. by rewrite -!app_assoc.
  - destruct (rb_cmp elm x >? 0) eqn:Hgt; zbool.
    + destruct (rb_mono_right _ _ _ _ Hm Hgt) as [Hmr Hbl].
      assert (rb_below elm (rb_before (RightOf c l x :: p))) as Hb' by (by apply Forall_app).
      specialize (IHr (RightOf c l x :: p) Hmr Hb' Ha).
      destruct (rb_descend elm r _) as [y|q]; simpl in *.
      * destruct IHr. split; [|done]. apply elem_of_app; right. by constructor.
      * destruct IHr as [-> ?]. split; [|done]. by rewrite -!app_assoc.
    + split; [apply elem_of_app; right; by constructor|lia].
Qed.

(** [RB_INSERT] either reports a node that compares equal and changes nothing,
    or adds the node at its place in the sequence. *)
Lemma RB_INSERT_spec t elm :
  rb_mono elm (rb_elems t) ->
  match RB_INSERT t elm with
  | (Some y, t') => t' = t /\ y ∈ rb_elems t /\ rb_cmp elm y = 0
  | (None, t') => exists n1 n2, rb_elems t = n1 ++ n2 /\ rb_elems t' = n1 ++ elm :: n2 /\
                    rb_below elm n1 /\ rb_above elm n2
  end.
Proof.
  intros Hm. unfold RB_INSERT.
  pose proof (rb_descend_spec elm t [] Hm ltac:(constructor) ltac:(constructor)) as Hd.
  destruct (rb_descend elm t []) as [y|q]; [done|]. simpl in Hd.
  destruct Hd as (Heq & Hb & Ha). exists (rb_before q), (rb_after q).
  rewrite app_nil_r in Heq. rewrite rb_elems_insert_color. naive_solver.
Qed.

Lemma rb_below_above_nil elm ns : rb_below elm ns -> rb_above elm ns -> ns = [].
Proof. destruct 1; [done|]. inversion 1; subst. lia. Qed.

(** Splitting a sequence into its lower and its upper part is unique. *)
Lemma rb_split_unique elm n1 n2 k1 k2 :
  n1 ++ n2 = k1 ++ k2 -> rb_below elm n1 -> rb_above elm n2 ->
  rb_below elm k1 -> rb_above elm k2 -> n1 = k1 /\ n2 = k2.
Proof.
  intros Heq Hb1 Ha1 Hb2 Ha2. revert k1 Heq Hb2; induction n1 as [|x n1 IH]; intros [|y k1]; simpl.
  - by intros ->.
  - intros ->. inversion 1; inversion Ha1; subst; lia.
  - intros <-. inversion 1; inversion Hb1; inversion Ha2; subst; lia.
  - intros [= -> Heq]. inversion 1; inversion Hb1; subst.
    by destruct (IH ltac:(done) k1 Heq) as [-> ->].
Qed.

Lemma rb_mono_split elm n1 n2 :
  rb_below elm n1 -> rb_above elm n2 -> rb_mono elm (n1 ++ n2).
Proof.
  unfold rb_below, rb_above. rewrite !Forall_forall. intros H1 H2.
  assert (forall n, (forall x, x ∈ n -> x ∈ n1 \/ x ∈ n2) -> (forall x, x ∈ n -> 0 < rb_cmp elm x) \/
    (forall x, x ∈ n -> rb_cmp elm x < 0) -> rb_mono elm n) as Haux.
  { intros n _ Hn. induction n as [|x n IH]; constructor.
    - apply IH. destruct Hn as [Hn|Hn]; [left|right]; intros y Hy; apply Hn; by constructor.
    - apply Forall_forall. intros y Hy. destruct Hn as [Hn|Hn];
        pose proof (Hn x ltac:(by constructor)); pose proof (Hn y ltac:(by constructor)); lia. }
  apply StronglySorted_app_2; [|apply Haux; auto..].
  intros x y Hx Hy. pose proof (H1 x Hx). pose proof (H2 y Hy). lia.
Qed.

(** Insertion between a lower and an upper part always succeeds. *)
Lemma RB_INSERT_fresh t elm n1 n2 :
  rb_elems t = n1 ++ n2 -> rb_below elm n1 -> rb_above elm n2 ->
  exists t', RB_INSERT t elm = (None, t') /\ rb_elems t' = n1 ++ elm :: n2.
Proof.
  intros Heq Hb Ha. pose proof (RB_INSERT_spec t elm) as Hs.
  rewrite Heq in Hs. specialize (Hs (rb_mono_split _ _ _ Hb Ha)).
  destruct (RB_INSERT t elm) as [[y|] t'].
  - destruct Hs as (_ & [Hy|Hy]%elem_of_app & Hc);
      (eapply Forall_forall in Hy; [|eassumption]); simpl in Hy; lia.
  - destruct Hs as (k1 & k2 & Hk & Ht' & Hb' & Ha'). exists t'. split; [done|].
    by destruct (rb_split_unique elm n1 n2 k1 k2) as [-> ->].
Qed.

(** [RB_FIND]: with at most one node comparing equal, that node. *)
Lemma RB_FIND_some t elm n1 x n2 :
  rb_elems t = n1 ++ x :: n2 -> rb_below elm n1 -> rb_cmp elm x = 0 -> rb_above elm n2 ->
  RB_FIND t elm = Some x.
Proof.
  revert n1 n2; induction t as [|c l IHl y r IHr]; intros n1 n2 Heq Hb Hx Ha; simpl in *.
  - by destruct n1.
  - destruct (app_cons_split _ _ _ _ _ _ Heq) as [(-> & -> & ->)|[(k & Hk & ->)|(k & -> & Hk)]].
    + rewrite Hx. done.
    + apply Forall_app in Ha as [Hak [Hay Har]%Forall_cons].
      rewrite (proj2 (Z.ltb_lt _ _) Hay). eapply IHl; eauto.
    + apply Forall_app in Hb as [Hbl [Hby Hbk]%Forall_cons].
      destruct (rb_cmp elm y <? 0) eqn:?; zbool; [lia|].
      destruct (rb_cmp elm y >? 0) eqn:?; zbool; [|lia]. eapply IHr; eauto.
Qed.
Lemma rb_split_node elm (l : list E) y r n1 n2 :
  l ++ y :: r = n1 ++ n2 -> rb_below elm n1 -> rb_above elm n2 ->
  (rb_cmp elm y < 0 /\ exists k, l = n1 ++ k /\ n2 = k ++ y :: r /\ rb_above elm k) \/
  (0 < rb_cmp elm y /\ exists k, r = k ++ n2 /\ n1 = l ++ y :: k /\ rb_below elm k).
Proof.
  revert n1; induction l as [|z l IH]; intros n1; simpl.
  - destruct n1 as [|z' n1]; simpl.
    + intros <- _ [? ?]%Forall_cons. left. split; [done|]. exists []. repeat split. constructor.
    + intros [= -> ->] [? ?]%Forall_cons _. right. split; [done|]. by exists n1.
  - destruct n1 as [|z' n1]; simpl.
    + intros <- _ Ha. left. pose proof Ha as [_ [Hal [? ?]%Forall_cons]%Forall_app]%Forall_cons.
      split; [done|]. exists (z :: l). split_and!; [done..|].
      apply Forall_cons in Ha as [? ?]. by constructor.
    + intros [= -> Heq] [Hz Hb]%Forall_cons Ha.
      destruct (IH n1 Heq Hb Ha) as [(? & k & -> & -> & ?)|(? & k & -> & -> & ?)]; [left|right];
        (split; [done|by exists k]).
Qed.

(** [RB_FIND] without a node comparing equal. *)
Lemma RB_FIND_none t elm n1 n2 :
  rb_elems t = n1 ++ n2 -> rb_below elm n1 -> rb_above elm n2 -> RB_FIND t elm = None.
Proof.
  revert n1 n2; induction t as [|c l IHl y r IHr]; intros n1 n2 Heq Hb Ha; simpl in *; [done|].
  destruct (rb_split_node _ _ _ _ _ _ Heq Hb Ha) as [(Hy & k & Hl & -> & Hk)|(Hy & k & Hr & -> & Hk)].
  - rewrite (proj2 (Z.ltb_lt _ _) Hy). by eapply IHl.
  - rewrite (proj2 (Z.ltb_ge _ _)); [lia|]. rewrite Z.gtb_ltb (proj2 (Z.ltb_lt _ _) Hy).
    by eapply IHr.
Qed.

(** [RB_NFIND]: the node comparing equal, or the first node above. *)
Lemma RB_NFIND_some t elm n1 x n2 :
  rb_elems t = n1 ++ x :: n2 -> rb_below elm n1 -> rb_cmp elm x = 0 -> rb_above elm n2 ->
  RB_NFIND t elm = Some x.
Proof.
  unfold RB_NFIND. generalize (@None E) as res.
  revert n1 n2; induction t as [|c l IHl y r IHr]; intros n1 n2 res Heq Hb Hx Ha; simpl in *.
  - by destruct n1.
  - destruct (app_cons_split _ _ _ _ _ _ Heq) as [(-> & -> & ->)|[(k & Hk & ->)|(k & -> & Hk)]].
    + by rewrite Hx.
    + apply Forall_app in Ha as [Hak [Hay Har]%Forall_cons].
      rewrite (proj2 (Z.ltb_lt _ _) Hay). eapply IHl; eauto.
    + apply Forall_app in Hb as [Hbl [Hby Hbk]%Forall_cons].
      rewrite (proj2 (Z.ltb_ge _ _)); [lia|]. rewrite Z.gtb_ltb (proj2 (Z.ltb_lt _ _) Hby).
      eapply IHr; eauto.
Qed.

Lemma RB_NFIND_next t elm n1 n2 :
  rb_elems t = n1 ++ n2 -> rb_below elm n1 -> rb_above elm n2 -> RB_NFIND t elm = head n2.
Proof.
  unfold RB_NFIND. intros Heq Hb Ha.
  assert (forall res, rb_nfind t elm res = match head n2 with Some y => Some y | None => res end)
    as ->; [|by destruct (head n2)].
  revert n1 n2 Heq Hb Ha; induction t as [|c l IHl y r IHr]; intros n1 n2 Heq Hb Ha res; simpl in *.
  { by destruct n1, n2. }
  destruct (rb_split_node _ _ _ _ _ _ Heq Hb Ha) as [(Hy & k & Hl & -> & Hk)|(Hy & k & Hr & -> & Hk)].
  - rewrite (proj2 (Z.ltb_lt _ _) Hy) (IHl n1 k) //. by destruct k.
  - rewrite (proj2 (Z.ltb_ge _ _)); [lia|]. rewrite Z.gtb_ltb (proj2 (Z.ltb_lt _ _) Hy).
    by rewrite (IHr k n2).
Qed.

End Search.

(** ** The red-black invariant *)

Section Balance.
Context {E : Type} `{!RbNode E}.
Implicit Types (t elm : rb_tree E) (x y : E) (p q : list (rb_frame E)) (n : nat).

(** No red node has a red child and every path down to a null pointer passes
    [n] black nodes. *)
Inductive rb_ok : nat -> rb_tree E -> Prop :=
| rb_ok_null : rb_ok 0 RB_NULL
| rb_ok_black n l x r : rb_ok n l -> rb_ok n r -> rb_ok (S n) (RB_NODE RB_BLACK l x r)
| rb_ok_red n l x r : rb_ok n l -> rb_ok n r -> rb_is_red l = false -> rb_is_red r = false ->
    rb_ok n (RB_NODE RB_RED l x r).

Definition rb_valid t : Prop := rb_is_red t = false /\ exists n, rb_ok n t.

(** Ancestors that take a subtree of black height [n]: a black one, or with
    [RB_RED] a subtree of any colour. *)
Inductive rb_ctx : rb_color -> nat -> list (rb_frame E) -> Prop :=
| rb_ctx_root n : rb_ctx RB_BLACK n []
| rb_ctx_black_l c n x r p : rb_ok n r -> rb_ctx RB_BLACK (S n) p ->
    rb_ctx c n (LeftOf RB_BLACK x r :: p)
| rb_ctx_black_r c n l x p : rb_ok n l -> rb_ctx RB_BLACK (S n) p ->
    rb_ctx c n (RightOf RB_BLACK l x :: p)
| rb_ctx_red_l n x r p : rb_ok n r -> rb_is_red r = false -> rb_ctx RB_RED n p ->
    rb_ctx RB_BLACK n (LeftOf RB_RED x r :: p)
| rb_ctx_red_r n l x p : rb_ok n l -> rb_is_red l = false -> rb_ctx RB_RED n p ->
    rb_ctx RB_BLACK n (RightOf RB_RED l x :: p).

Definition rb_fits t n p : Prop :=
  rb_ok n t /\ rb_ctx (if rb_is_red t then RB_RED else RB_BLACK) n p.

Hint Constructors rb_ok rb_ctx : unifyfs.

Lemma rb_ctx_weaken n p : rb_ctx RB_RED n p -> rb_ctx RB_BLACK n p.
Proof. inversion 1; subst; auto with unifyfs. Qed.
Hint Resolve rb_ctx_weaken : unifyfs.

Lemma rb_ctx_of_red c n p : rb_ctx RB_RED n p -> rb_ctx c n p.
Proof. destruct c; auto with unifyfs. Qed.

Lemma rb_blacken_ok n t : rb_ok n t -> rb_is_red t = true -> rb_ok (S n) (rb_blacken t).
Proof. destruct 1; simpl; [done..|]. auto with unifyfs. Qed.

Lemma rb_blacken_not_red t : rb_is_red (rb_blacken t) = false.
Proof. by destruct t. Qed.
Hint Resolve rb_blacken_ok rb_blacken_not_red : unifyfs.

Lemma rb_blacken_valid t : (exists n, rb_ok n t) -> rb_valid (rb_blacken t).
Proof.
  intros [n Hn]. split; [apply rb_blacken_not_red|].
  destruct Hn; simpl; eauto with unifyfs.
Qed.

Lemma rb_fits_valid t n p : rb_fits t n p -> rb_valid (rb_plug t p).
Proof.
  unfold rb_fits. revert t n; induction p as [|f p IH]; intros t n [Ht Hp]; simpl.
  - split; [by destruct (rb_is_red t); inversion Hp|eauto].
  - destruct (rb_is_red t) eqn:Hc; inversion Hp; subst; eapply IH; simpl; eauto with unifyfs.
Qed.

Lemma rb_valid_fits t : rb_valid t -> exists n, rb_fits t n [].
Proof. intros [Hc [n Hn]]. exists n. split; [done|]. rewrite Hc. constructor. Qed.

Lemma rb_fits_left c l x r n p :
  rb_fits (RB_NODE c l x r) n p -> exists m, rb_fits l m (LeftOf c x r :: p).
Proof.
  intros [Hok Hp]. inversion Hok; subst; simpl in *; eexists; split; eauto with unifyfs.
  match goal with H : rb_is_red l = false |- _ => rewrite H end. auto with unifyfs.
Qed.

Lemma rb_fits_right c l x r n p :
  rb_fits (RB_NODE c l x r) n p -> exists m, rb_fits r m (RightOf c l x :: p).
Proof.
  intros [Hok Hp]. inversion Hok; subst; simpl in *; eexists; split; eauto with unifyfs.
  match goal with H : rb_is_red r = false |- _ => rewrite H end. auto with unifyfs.
Qed.

(** *** Insertion *)

Lemma rb_insert_color_inv elm n p :
  rb_ok n elm -> rb_is_red elm = true -> rb_ctx RB_BLACK n p -> rb_valid (RB_INSERT_COLOR elm p).
Proof.
  remember (length p) as k eqn:Hk.
  revert elm n p Hk; induction k as [k IH] using lt_wf_ind; intros elm n p Hk Hok Hred Hp.
  assert (rb_ctx RB_RED n p -> rb_valid (rb_blacken (rb_plug elm p))) as Hstop.
  { intros Hr. apply rb_blacken_valid, (rb_fits_valid elm n p). split; [done|]. by rewrite Hred. }
  destruct p as [|f p]; [apply rb_blacken_valid; eauto|].
  inversion Hp as [|c' ? px pr ? Hs Hp'|c' ? pl px ? Hs Hp'|? px pr ? Hs Hsc Hp'|? pl px ? Hs Hsc Hp'];
    subst; [apply Hstop; constructor; done..| |].
  all: inversion Hp' as [|? ? gx tmp p' Ht Hg|? ? tmp gx p' Ht Hg| |]; subst; simpl.
  all: destruct (rb_is_red tmp) eqn:Htmp.
  all: try (eapply (IH (length p')); [simpl; lia|done| |done|exact Hg]; auto with unifyfs).
  all: inversion Hok; subst; simpl in Hred; try done.
  all: apply rb_blacken_valid, (rb_fits_valid _ (S n)); split; [|exact Hg]; auto 8 with unifyfs.
Qed.

Lemma rb_descend_ctx x t n p q :
  rb_fits t n p -> rb_descend x t p = inr q -> rb_ctx RB_BLACK 0 q.
Proof.
  revert n p; induction t as [|c l IHl y r IHr]; intros n p Hf; simpl.
  - intros [= <-]. destruct Hf as [Hok Hp]. by inversion Hok; subst.
  - destruct (rb_cmp x y <? 0); [|destruct (rb_cmp x y >? 0); [|done]].
    + destruct (rb_fits_left _ _ _ _ _ _ Hf) as [m Hm]. by eapply IHl.
    + destruct (rb_fits_right _ _ _ _ _ _ Hf) as [m Hm]. by eapply IHr.
Qed.

Lemma RB_INSERT_valid t x : rb_valid t -> rb_valid (RB_INSERT t x).2.
Proof.
  intros Hv. unfold RB_INSERT. destruct (rb_descend x t []) as [y|q] eqn:Hd; [done|].
  destruct (rb_valid_fits t Hv) as [n Hn]. simpl.
  apply (rb_insert_color_inv _ 0); [auto with unifyfs|done|by eapply rb_descend_ctx].
Qed.

(** *** Removal *)

Lemma rb_rot_left_ok cp elm px n tl tx tr :
  rb_ok n elm -> rb_ok n tl -> rb_ok n tr ->
  negb (rb_is_red tl) && negb (rb_is_red tr) = false ->
  rb_ok (match cp with RB_BLACK => S (S n) | RB_RED => S n end)
    (rb_remove_rot_left cp elm px tl tx tr).
Proof.
  intros He Hl Hr Hc. unfold rb_remove_rot_left. destruct (rb_is_red tr) eqn:Htr.
  - destruct cp; auto with unifyfs.
  - inversion Hl; subst; simpl in *; try done; destruct cp; auto 6 with unifyfs.
Qed.

Lemma rb_rot_right_ok cp elm px n tl tx tr :
  rb_ok n elm -> rb_ok n tl -> rb_ok n tr ->
  negb (rb_is_red tl) && negb (rb_is_red tr) = false ->
  rb_ok (match cp with RB_BLACK => S (S n) | RB_RED => S n end)
    (rb_remove_rot_right cp elm px tl tx tr).
Proof.
  intros He Hl Hr Hc. unfold rb_remove_rot_right. destruct (rb_is_red tl) eqn:Htl.
  - destruct cp; auto with unifyfs.
  - inversion Hr; subst; simpl in *; try done; destruct cp; auto 6 with unifyfs.
Qed.

Lemma rb_rot_left_red cp elm px tl tx tr :
  rb_is_red (rb_remove_rot_left cp elm px tl tx tr) = match cp with RB_RED => true | _ => false end.
Proof. unfold rb_remove_rot_left. by destruct cp, (rb_is_red tr), tl. Qed.

Lemma rb_rot_right_red cp elm px tl tx tr :
  rb_is_red (rb_remove_rot_right cp elm px tl tx tr) = match cp with RB_RED => true | _ => false end.
Proof. unfold rb_remove_rot_right. by destruct cp, (rb_is_red tl), tr. Qed.

Lemma RB_REMOVE_COLOR_red elm p :
  rb_is_red elm = true -> RB_REMOVE_COLOR elm p = rb_plug (rb_blacken elm) p.
Proof. intros H. destruct p; simpl; by rewrite H. Qed.

(** A subtree that lost a black node, below ancestors expecting height [S n]. *)
Lemma rb_remove_color_inv elm n p :
  rb_ok n elm -> rb_ctx RB_BLACK (S n) p -> rb_valid (RB_REMOVE_COLOR elm p).
Proof.
  revert elm n; induction p as [|f p IH]; intros elm n Hok Hp; destruct (rb_is_red elm) eqn:Hred.
  1,3: rewrite RB_REMOVE_COLOR_red //; apply (rb_fits_valid _ (S n));
    split; [auto with unifyfs|by rewrite rb_blacken_not_red].
  { simpl. rewrite Hred. apply rb_blacken_valid; eauto. }
  inversion Hp as [|c' ? px tmp ? Hs Hp'|c' ? tmp px ? Hs Hp'|? px tmp ? Hs Hsc Hp'|? tmp px ? Hs Hsc Hp'];
    subst; inversion Hs as [|? tl tx tr Htl Htr|? tl tx tr Htl Htr Hlc Hrc]; subst; try (simpl in Hsc);
    simpl; rewrite Hred; try done.
  - destruct (_ && _) eqn:Hcc.
    { apply andb_prop in Hcc as [?%negb_true_iff ?%negb_true_iff].
      apply (IH _ (S n)); auto with unifyfs. }
    apply rb_blacken_valid, (rb_fits_valid _ (S (S n))). split; [by apply (rb_rot_left_ok RB_BLACK)|].
    by rewrite rb_rot_left_red.
  - inversion Htl as [|? tll tlx tlr Hll Hlr|]; subst; try done.
    destruct (_ && _) eqn:Hcc; [|apply rb_blacken_valid];
      apply (rb_fits_valid _ (S (S n))); (split; [constructor; [|done]|done]);
      [|by apply (rb_rot_left_ok RB_RED)].
    apply andb_prop in Hcc as [?%negb_true_iff ?%negb_true_iff]. auto with unifyfs.
  - destruct (_ && _) eqn:Hcc.
    { apply andb_prop in Hcc as [?%negb_true_iff ?%negb_true_iff].
      apply (IH _ (S n)); auto with unifyfs. }
    apply rb_blacken_valid, (rb_fits_valid _ (S (S n))). split; [by apply (rb_rot_right_ok RB_BLACK)|].
    by rewrite rb_rot_right_red.
  - inversion Htr as [|? trl trx trr Hrl Hrr|]; subst; try done.
    destruct (_ && _) eqn:Hcc; [|apply rb_blacken_valid];
      apply (rb_fits_valid _ (S (S n))); (split; [constructor; [done|]|done]);
      [|by apply (rb_rot_right_ok RB_RED)].
    apply andb_prop in Hcc as [?%negb_true_iff ?%negb_true_iff]. auto with unifyfs.
  - destruct (_ && _) eqn:Hcc.
    + rewrite RB_REMOVE_COLOR_red //. apply (rb_fits_valid _ (S n)). 
      apply andb_prop in Hcc as [?%negb_true_iff ?%negb_true_iff].
      split; [|by apply rb_ctx_weaken]. simpl. auto with unifyfs.
    + apply rb_blacken_valid, (rb_fits_valid _ (S n)). split; [by apply (rb_rot_left_ok RB_RED)|].
      by rewrite rb_rot_left_red.
  - destruct (_ && _) eqn:Hcc.
    + rewrite RB_REMOVE_COLOR_red //. apply (rb_fits_valid _ (S n)). 
      apply andb_prop in Hcc as [?%negb_true_iff ?%negb_true_iff].
      split; [|by apply rb_ctx_weaken]. simpl. auto with unifyfs.
    + apply rb_blacken_valid, (rb_fits_valid _ (S n)). split; [by apply (rb_rot_right_ok RB_RED)|].
      by rewrite rb_rot_right_red.
Qed.

Lemma rb_unlink_valid c child x n p :
  rb_fits (RB_NODE c RB_NULL x child) n p \/ rb_fits (RB_NODE c child x RB_NULL) n p ->
  rb_valid (rb_unlink c child p).
Proof.
  intros [[Hok Hp]|[Hok Hp]]; inversion Hok; subst; simpl in *;
    try (by eapply rb_remove_color_inv).
  all: eapply rb_fits_valid; split; [eassumption|].
  all: match goal with H : rb_is_red ?u = false |- context [rb_is_red ?u] => rewrite H end;
    auto with unifyfs.
Qed.

Lemma rb_locate_fits a t n p c l x r q :
  rb_fits t n p -> rb_locate a t p = Some (c, l, x, r, q) ->
  exists m, rb_fits (RB_NODE c l x r) m q.
Proof.
  revert n p; induction t as [|c' l' IHl x' r' IHr]; intros n p Hf; simpl; [done|].
  destruct (rb_addr x' =? a); [intros [= <- <- <- <- <-]; eauto|].
  destruct (rb_locate a l' _) as [z|] eqn:Hl.
  - intros [= ->]. destruct (rb_fits_left _ _ _ _ _ _ Hf) as [m Hm]. by eapply IHl.
  - intros Hr. destruct (rb_fits_right _ _ _ _ _ _ Hf) as [m Hm]. by eapply IHr.
Qed.

Lemma rb_leftmost_fits c l x r n p c' y child q :
  rb_fits (RB_NODE c l x r) n p -> rb_leftmost c l x r p = (c', y, child, q) ->
  exists m, rb_fits (RB_NODE c' RB_NULL y child) m q.
Proof.
  revert c x r n p; induction l as [|cl ll IHl lx lr IHr]; intros c x r n p Hf; simpl.
  - intros [= <- <- <- <-]. eauto.
  - intros H. destruct (rb_fits_left _ _ _ _ _ _ Hf) as [m Hm]. by eapply IHl.
Qed.

Lemma rb_leftmost_app c (l : rb_tree E) x r p k c' y child q :
  rb_leftmost c l x r p = (c', y, child, q) ->
  rb_leftmost c l x r (p ++ k) = (c', y, child, q ++ k).
Proof.
  revert c x r p; induction l as [|cl ll IHl lx lr IHr]; intros c x r p; simpl.
  - by intros [= <- <- <- <-].
  - intros H. by apply IHl in H.
Qed.

(** The invariant does not depend on the values in the nodes. *)
Lemma rb_ctx_replace c n q cf l x y p :
  rb_ctx c n (q ++ RightOf cf l x :: p) -> rb_ctx c n (q ++ RightOf cf l y :: p).
Proof.
  revert c n; induction q as [|f q IH]; intros c n; simpl; inversion 1; subst; auto with unifyfs.
Qed.

Lemma RB_REMOVE_valid t a : rb_valid t -> rb_valid (RB_REMOVE t a).
Proof.
  intros Hv. unfold RB_REMOVE.
  destruct (rb_locate a t []) as [[[[[c l] x] r] p]|] eqn:Hloc; [|done].
  destruct (rb_valid_fits t Hv) as [n Hn].
  destruct (rb_locate_fits _ _ _ _ _ _ _ _ _ Hn Hloc) as [m Hm].
  destruct l as [|lc ll lx lr]; [by eapply rb_unlink_valid; left|].
  destruct r as [|rc rl rx rr]; [by eapply rb_unlink_valid; right|].
  destruct (rb_leftmost rc rl rx rr []) as [[[color y] child] q] eqn:Hlm.
  destruct (rb_fits_right _ _ _ _ _ _ Hm) as [k Hk].
  apply (rb_leftmost_app _ _ _ _ _ (RightOf c (RB_NODE lc ll lx lr) x :: p)) in Hlm.
  destruct (rb_leftmost_fits _ _ _ _ _ _ _ _ _ _ Hk Hlm) as [j [Hok Hp]].
  eapply rb_unlink_valid; left. split; [exact Hok|]. by eapply rb_ctx_replace.
Qed.

Lemma rb_update_red a f t : rb_is_red (rb_update a f t) = rb_is_red t.
Proof. by destruct t. Qed.

Lemma rb_update_valid a f t : rb_valid t -> rb_valid (rb_update a f t).
Proof.
  intros [Hr [n Hn]]. split; [by rewrite rb_update_red|]. exists n. clear Hr.
  induction Hn; simpl; constructor; rewrite ?rb_update_red; done.
Qed.

Lemma RB_NULL_valid : rb_valid RB_NULL.
Proof. split; [done|]. exists 0%nat. constructor. Qed.

(** *** Depth *)

Fixpoint rb_depth t : nat :=
  match t with
  | RB_NULL => 0
  | RB_NODE _ l _ r => S (Nat.max (rb_depth l) (rb_depth r))
  end.

Lemma rb_ok_size n t : rb_ok n t -> (2 ^ n <= S (length (rb_elems t)))%nat.
Proof.
  induction 1; simpl; [lia| |]; rewrite length_app; simpl; [|lia].
  change (2 ^ S n)%nat with (2 * 2 ^ n)%nat. lia.
Qed.

Lemma rb_ok_depth n t : rb_ok n t -> (rb_depth t <= 2 * n + if rb_is_red t then 1 else 0)%nat.
Proof.
  induction 1; simpl.
  - lia.
  - destruct (rb_is_red l), (rb_is_red r); lia.
  - rewrite H1 in IHrb_ok1. rewrite H2 in IHrb_ok2. lia.
Qed.

Lemma rb_valid_depth t :
  rb_valid t -> (rb_depth t <= 2 * Nat.log2 (S (length (rb_elems t))))%nat.
Proof.
  intros [Hr [n Hn]]. pose proof (rb_ok_depth _ _ Hn) as Hd. rewrite Hr in Hd.
  assert (n <= Nat.log2 (S (length (rb_elems t))))%nat; [|lia].
  apply Nat.log2_le_pow2; [lia|]. by apply rb_ok_size.
Qed.

End Balance.

(** ** Properties *)

Section Properties.
Context {E : Type} `{!RbNode E}.
Implicit Types (t : rb_tree E) (elm : E).

(** The trees a program can build from the empty one, whatever the comparison
    function returns. *)
Inductive rb_reachable : rb_tree E -> Prop :=
  | rb_reach_init : rb_reachable RB_NULL
  | rb_reach_insert t elm : rb_reachable t -> rb_reachable (RB_INSERT t elm).2
  | rb_reach_remove t a : rb_reachable t -> rb_reachable (RB_REMOVE t a)
  | rb_reach_update t a f : rb_reachable t -> rb_reachable (rb_update a f t).

(** C39. The rotations and recolourings of [RB_INSERT_COLOR] and
    [RB_REMOVE_COLOR] keep every reachable tree a red-black tree: black root,
    no red node with a red child, equal black heights, hence a depth of at
    most [2 * log2 (n + 1)]. *)
Theorem rb_reachable_balanced t :
  rb_reachable t ->
  rb_valid t /\ (rb_depth t <= 2 * Nat.log2 (S (length (rb_elems t))))%nat.
Proof.
  intros Hr. assert (rb_valid t) as Hv; [|by split; [|apply rb_valid_depth]].
  induction Hr; auto using RB_NULL_valid, RB_INSERT_valid, RB_REMOVE_valid, rb_update_valid.
Qed.

(** [RB_INSERT] under a comparison function that is monotone along the
    tree either returns a node that compares equal and leaves the tree as it
    was, or links the element between its predecessors and its successors. *)
Theorem rb_insert_outcome t elm :
  rb_mono elm (rb_elems t) ->
  match RB_INSERT t elm with
  | (Some y, t') => t' = t /\ y ∈ rb_elems t /\ rb_cmp elm y = 0
  | (None, t') => exists n1 n2, rb_elems t = n1 ++ n2 /\ rb_elems t' = n1 ++ elm :: n2 /\
                    rb_below elm n1 /\ rb_above elm n2
  end.
Proof. apply RB_INSERT_spec. Qed.

(** Removing a node right after its insertion restores the sequence of
    nodes, in whatever way the two operations restructured the tree. *)
Theorem rb_insert_remove_roundtrip t elm t' :
  rb_mono elm (rb_elems t) -> NoDup (rb_addr <$> rb_elems t) ->
  Forall (fun y => rb_addr y <> rb_addr elm) (rb_elems t) ->
  RB_INSERT t elm = (None, t') ->
  rb_elems (RB_REMOVE t' (rb_addr elm)) = rb_elems t.
Proof.
  intros Hm Hn Hf Hi. pose proof (RB_INSERT_spec t elm Hm) as Hs. rewrite Hi in Hs.
  destruct Hs as (n1 & n2 & Ht & Ht' & _ & _). rewrite Ht.
  apply rb_elems_remove; [|done]. rewrite Ht'. rewrite Ht in Hn, Hf.
  rewrite -Permutation_middle. simpl. constructor; [|done].
  intros (y & Hy & Hin)%list_elem_of_fmap. eapply Forall_forall in Hf; [|exact Hin]. by symmetry in Hy.
Qed.

End Properties.

(** *** Instances: nodes with an integer key *)

Record rb_int_node := RbInt { ri_addr : Z; ri_key : Z }.

#[export] Instance rb_int_rb : RbNode rb_int_node :=
  { rb_addr := ri_addr; rb_cmp a b := ri_key a - ri_key b }.

Definition rb_int_example : rb_tree rb_int_node :=
  fold_left (fun t k => (RB_INSERT t (RbInt k k)).2) [50; 20; 70; 10; 30; 60; 80; 5] RB_NULL.

Lemma rb_reachable_balanced_witness :
  rb_valid (RB_REMOVE rb_int_example 50) /\ (rb_depth (RB_REMOVE rb_int_example 50) <= 6)%nat.
Proof.
  destruct (rb_reachable_balanced (RB_REMOVE rb_int_example 50)) as [Hv Hd].
  - unfold rb_int_example. cbn [fold_left]. repeat constructor.
  - split; [exact Hv|exact Hd].
Defined.

Lemma rb_int_example_mono : rb_mono (RbInt 99 25) (rb_elems rb_int_example).
Proof. unfold rb_mono. vm_compute rb_elems. repeat constructor; simpl; lia. Qed.

Lemma rb_insert_outcome_witness :
  exists n1 n2, rb_elems rb_int_example = n1 ++ n2 /\
    rb_elems (RB_INSERT rb_int_example (RbInt 99 25)).2 = n1 ++ RbInt 99 25 :: n2.
Proof.
  pose proof (rb_insert_outcome rb_int_example (RbInt 99 25) rb_int_example_mono) as H.
  destruct (RB_INSERT rb_int_example (RbInt 99 25)) as [[y|] t'] eqn:Hi; [by vm_compute in Hi|].
  destruct H as (n1 & n2 & ? & ? & _). by exists n1, n2.
Defined.

Lemma rb_insert_remove_roundtrip_witness :
  rb_elems (RB_REMOVE (RB_INSERT rb_int_example (RbInt 99 25)).2 99) = rb_elems rb_int_example.
Proof.
  refine (rb_insert_remove_roundtrip rb_int_example (RbInt 99 25) _ _ _ _ _).
  - exact rb_int_example_mono.
  - apply (bool_decide_unpack _). by vm_compute.
  - vm_compute rb_elems. repeat constructor; simpl; lia.
  - by vm_compute.
Defined.
