(* ===== verification/Extents.v ===== *)
(** * Disjoint extents and the byte maps they describe

    The segment tree of the client ([common/src/seg_tree.c]) and the extent
    tree of the server ([server/src/extent_tree.c]) hold ranges of logical file
    offsets, each with the place of its data in a write log.  What such a tree
    means is the partial map from a file offset to the place of that byte.

    This file holds what the two trees share: the class of range-like node
    structures, the byte map of a sequence of nodes, the invariant "sorted and
    disjoint", and the lemmas on carving a hole out of a node, inserting a node
    and merging two adjacent ones. *)

From S2P Require Import Prelude.
From S2P Require Import RbTree.

(** ** Ranges *)

(** A structure [e] of type [E] describes the offsets from [iv_start e] to
    [iv_end e], both included; the byte at offset [b] is stored at
    [iv_loc e b]. *)
Class Interval (E L : Type) := {
  iv_start : E -> Z;
  iv_end : E -> Z;
  iv_loc : E -> Z -> L;
}.

(** Node structures of a red-black tree whose comparison function treats
    overlapping ranges as equal. *)
Class IntervalNode (E L : Type) `{!RbNode E, !Interval E L} :=
  iv_cmp_eq (a b : E) :
    rb_cmp a b = if iv_start a >? iv_end b then 1
                 else if iv_end a <? iv_start b then -1 else 0.

Section Ranges.
Context {E L : Type} `{!Interval E L}.
Implicit Types (e c x : E) (es : list E) (lo hi b : Z).

Definition iv_covers e b : bool := (iv_start e <=? b) && (b <=? iv_end e).

(** The byte map. *)
Fixpoint iv_lookup es b : option L :=
  match es with
  | [] => None
  | e :: es' => if iv_covers e b then Some (iv_loc e b) else iv_lookup es' b
  end.

Definition iv_wf e : Prop := 0 <= iv_start e <= iv_end e /\ iv_end e <= ULONG_MAX.

Definition iv_lt e c : Prop := iv_end e < iv_start c.

(** The invariant of both trees. *)
Definition iv_sorted es : Prop := Forall iv_wf es /\ StronglySorted iv_lt es.

(** The ranges of [es] overlapping [lo..hi], one starting before [lo] counted
    twice: a bound on the conflicts an insertion still has to resolve. *)
Definition iv_weight (lo hi : Z) (x : E) : nat :=
  if (iv_start x <=? hi) && (lo <=? iv_end x) then if iv_start x <? lo then 2%nat else 1%nat else 0%nat.
Definition iv_conflicts (lo hi : Z) es : nat := sum_list_with (iv_weight lo hi) es.

(** [ps] is what is left of [c] outside (or moved clear of) [lo..hi]. *)
Record iv_carve (lo hi : Z) (c : E) (ps : list E) : Prop := {
  iv_carve_wf : Forall (fun p => iv_wf p /\ iv_start c <= iv_start p /\ iv_end p <= iv_end c) ps;
  iv_carve_sorted : StronglySorted iv_lt ps;
  iv_carve_lookup b : ~ (lo <= b <= hi) -> iv_lookup ps b = iv_lookup [c] b;
  iv_carve_loc p b : p ∈ ps -> iv_start p <= b <= iv_end p -> iv_loc p b = iv_loc c b;
  iv_carve_less : (iv_conflicts lo hi ps < iv_conflicts lo hi [c])%nat;
  iv_carve_start p : p ∈ ps -> iv_start p = iv_start c \/ iv_start p = lo \/ iv_start p = hi + 1;
}.

Lemma iv_covers_true e b : iv_covers e b = true <-> iv_start e <= b <= iv_end e.
Proof. unfold iv_covers. rewrite andb_true_iff !Z.leb_le. done. Qed.

Lemma iv_covers_false e b : iv_covers e b = false <-> ~ (iv_start e <= b <= iv_end e).
Proof. rewrite -iv_covers_true. by destruct (iv_covers e b). Qed.

Lemma iv_lookup_app es1 es2 b :
  iv_lookup (es1 ++ es2) b =
  match iv_lookup es1 b with Some v => Some v | None => iv_lookup es2 b end.
Proof. induction es1 as [|e es1 IH]; simpl; [done|]. by destruct (iv_covers e b). Qed.

Lemma iv_lookup_none es b :
  Forall (fun e => ~ (iv_start e <= b <= iv_end e)) es -> iv_lookup es b = None.
Proof.
  induction 1 as [|e es Hb _ IH]; simpl; [done|].
  by rewrite (proj2 (iv_covers_false e b) Hb).
Qed.

Lemma iv_lookup_some es b v :
  iv_lookup es b = Some v -> exists e, e ∈ es /\ iv_start e <= b <= iv_end e /\ v = iv_loc e b.
Proof.
  induction es as [|e es IH]; simpl; [done|]. destruct (iv_covers e b) eqn:Hc.
  - intros [= <-]. apply iv_covers_true in Hc. exists e. split; [constructor|done].
  - intros (e' & ? & ? & ?)%IH. exists e'. split; [by constructor|done].
Qed.

Lemma iv_sorted_nil : iv_sorted [].
Proof. split; constructor. Qed.

Lemma iv_sorted_app es1 es2 :
  iv_sorted (es1 ++ es2) <->
  iv_sorted es1 /\ iv_sorted es2 /\ (forall x y, x ∈ es1 -> y ∈ es2 -> iv_lt x y).
Proof. unfold iv_sorted. rewrite Forall_app StronglySorted_app. naive_solver. Qed.

Lemma iv_sorted_cons e es :
  iv_sorted (e :: es) <-> iv_wf e /\ iv_sorted es /\ Forall (iv_lt e) es.
Proof.
  unfold iv_sorted. rewrite Forall_cons. split.
  - intros [[? ?] [? ?]%StronglySorted_inv]. done.
  - intros (? & [? ?] & ?). split; [done|]. by constructor.
Qed.

(** Everything before and after an element of a sorted sequence. *)
Lemma iv_sorted_mid es1 e es2 :
  iv_sorted (es1 ++ e :: es2) <->
  iv_sorted (es1 ++ es2) /\ iv_wf e /\ Forall (fun x => iv_lt x e) es1 /\ Forall (iv_lt e) es2.
Proof.
  rewrite !iv_sorted_app iv_sorted_cons !Forall_forall. split.
  - intros (H1 & (? & ? & ?) & Hlt). split_and!; try done; intros; apply Hlt; try done; by constructor.
  - intros ((? & ? & ?) & ? & Hlt1 & Hlt2). split_and!; try done.
    intros x y Hx [->|Hy]%elem_of_cons; auto.
Qed.

(** In a sorted sequence the byte map reads off the element covering [b]. *)
Lemma iv_lookup_mid es1 e es2 b :
  iv_sorted (es1 ++ e :: es2) ->
  iv_lookup (es1 ++ e :: es2) b =
  if iv_covers e b then Some (iv_loc e b) else iv_lookup (es1 ++ es2) b.
Proof.
  intros (_ & _ & H1 & H2)%iv_sorted_mid. rewrite !iv_lookup_app. simpl.
  destruct (iv_covers e b) eqn:Hc; [|done]. apply iv_covers_true in Hc.
  rewrite iv_lookup_none; [|done]. eapply Forall_impl; [exact H1|].
  intros x Hx. unfold iv_lt in Hx. lia.
Qed.

Lemma iv_lookup_elem es e b :
  iv_sorted es -> e ∈ es -> iv_start e <= b <= iv_end e -> iv_lookup es b = Some (iv_loc e b).
Proof.
  intros Hs (es1 & es2 & ->)%list_elem_of_split Hb. rewrite iv_lookup_mid //.
  by rewrite (proj2 (iv_covers_true e b) Hb).
Qed.

Lemma iv_conflicts_app lo hi es1 es2 :
  iv_conflicts lo hi (es1 ++ es2) = (iv_conflicts lo hi es1 + iv_conflicts lo hi es2)%nat.
Proof. apply sum_list_with_app. Qed.

Lemma iv_conflicts_bound lo hi es : (iv_conflicts lo hi es <= 2 * length es)%nat.
Proof.
  unfold iv_conflicts. induction es as [|x es IH]; [simpl; lia|].
  simpl in *.
  unfold iv_weight at 1. destruct (_ && _); [destruct (iv_start x <? lo)|]; lia.
Qed.

Lemma iv_carve_sorted_app lo hi es1 c ps es2 :
  iv_sorted (es1 ++ c :: es2) -> iv_carve lo hi c ps -> iv_sorted (es1 ++ ps ++ es2).
Proof.
  intros (H12 & Hc & H1 & H2)%iv_sorted_mid [Hw Hs _ _ _].
  apply iv_sorted_app in H12 as (Hs1 & Hs2 & H12).
  rewrite Forall_forall in H1. rewrite Forall_forall in H2. rewrite Forall_forall in Hw.
  unfold iv_lt, iv_wf in *. rewrite !iv_sorted_app. split_and!; try done.
  - split; [apply Forall_forall; intros x Hx; apply (Hw x Hx)|done].
  - intros x y Hx Hy. specialize (Hw x Hx). specialize (H2 y Hy). unfold iv_lt. lia.
  - intros x y Hx [Hy|Hy]%elem_of_app; [|by apply H12].
    specialize (Hw y Hy). specialize (H1 x Hx). unfold iv_lt. lia.
Qed.

Lemma iv_carve_lookup_app lo hi es1 c ps es2 b :
  iv_carve lo hi c ps -> ~ (lo <= b <= hi) ->
  iv_lookup (es1 ++ ps ++ es2) b = iv_lookup (es1 ++ c :: es2) b.
Proof.
  intros Hc Hb. rewrite !iv_lookup_app (iv_carve_lookup _ _ _ _ Hc b Hb). simpl.
  by destruct (iv_lookup es1 b), (iv_covers c b).
Qed.

(** Carving never invents a mapping. *)
Lemma iv_carve_sub_app lo hi es1 c ps es2 b v :
  iv_sorted (es1 ++ c :: es2) -> iv_carve lo hi c ps ->
  iv_lookup (es1 ++ ps ++ es2) b = Some v -> iv_lookup (es1 ++ c :: es2) b = Some v.
Proof.
  intros Hs Hcv (e & He & Hb & ->)%iv_lookup_some. rewrite !elem_of_app in He.
  destruct He as [He|[He|He]]; [by apply iv_lookup_elem; set_solver| |by apply iv_lookup_elem; set_solver].
  rewrite (iv_carve_loc _ _ _ _ Hcv e b He Hb).
  pose proof (iv_carve_wf _ _ _ _ Hcv) as Hw. eapply Forall_forall in Hw as (_ & ? & ?); [|exact He].
  apply iv_lookup_elem; [done|set_solver|lia].
Qed.

Lemma iv_carve_conflicts lo hi es1 c ps es2 :
  iv_carve lo hi c ps ->
  (iv_conflicts lo hi (es1 ++ ps ++ es2) < iv_conflicts lo hi (es1 ++ c :: es2))%nat.
Proof.
  intros Hc. pose proof (iv_carve_less _ _ _ _ Hc).
  change (es1 ++ c :: es2) with (es1 ++ [c] ++ es2). rewrite !iv_conflicts_app. lia.
Qed.

(** Merging two neighbours whose data is also contiguous. *)
Lemma iv_merge_sorted es1 p n m es2 :
  iv_sorted (es1 ++ p :: n :: es2) -> iv_start m = iv_start p -> iv_end m = iv_end n ->
  iv_sorted (es1 ++ m :: es2).
Proof.
  intros Hs Hms Hme.
  apply iv_sorted_mid in Hs as (Hs & Hwp & H1 & [Hpn H2]%Forall_cons).
  apply iv_sorted_mid in Hs as (Hs & Hwn & H3 & H4).
  apply iv_sorted_mid. unfold iv_lt, iv_wf in *. rewrite Hms Hme. split_and!; try done; lia.
Qed.

Lemma iv_merge_lookup es1 p n m es2 b :
  iv_start m = iv_start p -> iv_end m = iv_end n -> iv_end p + 1 = iv_start n ->
  iv_wf p -> iv_wf n ->
  (forall b, iv_start p <= b <= iv_end p -> iv_loc m b = iv_loc p b) ->
  (forall b, iv_start n <= b <= iv_end n -> iv_loc m b = iv_loc n b) ->
  iv_lookup (es1 ++ m :: es2) b = iv_lookup (es1 ++ p :: n :: es2) b.
Proof.
  intros Hms Hme Hpn Hp Hn Hlp Hln. rewrite !iv_lookup_app. simpl.
  destruct (iv_lookup es1 b); [done|]. unfold iv_wf in *.
  destruct (iv_covers m b) eqn:Hm, (iv_covers p b) eqn:Hcp, (iv_covers n b) eqn:Hcn;
    rewrite ?iv_covers_true ?iv_covers_false in Hm, Hcp, Hcn;
    first [lia | done | f_equal; auto].
Qed.

(** *** What an insertion leaves of a conflicting range *)

Ltac iv_carve_solve :=
  unfold iv_conflicts, iv_weight, iv_wf, iv_lt in *; simpl in *;
  repeat match goal with H : _ /\ _ |- _ => destruct H end;
  try (repeat zcase; lia).

Lemma iv_carve_all lo hi c :
  iv_wf c -> lo <= iv_start c -> iv_end c <= hi -> iv_carve lo hi c [].
Proof.
  intros. split;
    [constructor|constructor| |by intros p b ?%elem_of_nil|iv_carve_solve|by intros p ?%elem_of_nil].
  intros b Hb. simpl. by rewrite (proj2 (iv_covers_false c b)) //; lia.
Qed.

(** [p] is the part of [c] on one side of the range. *)
Lemma iv_carve_one lo hi c p :
  iv_wf c -> iv_wf p -> iv_start c <= hi -> lo <= iv_end c ->
  (iv_start c < lo /\ iv_end c <= hi /\ iv_start p = iv_start c /\ iv_end p = lo - 1 \/
   lo <= iv_start c /\ hi < iv_end c /\ iv_start p = hi + 1 /\ iv_end p = iv_end c) ->
  (forall b, iv_start p <= b <= iv_end p -> iv_loc p b = iv_loc c b) ->
  iv_carve lo hi c [p].
Proof.
  intros Hc Hp H1 H2 Hcase Hloc. split.
  - constructor; [|done]. split; [done|]. unfold iv_wf in *. lia.
  - repeat constructor.
  - intros b Hb. simpl.
    destruct (iv_covers p b) eqn:Hpb, (iv_covers c b) eqn:Hcb;
      rewrite ?iv_covers_true ?iv_covers_false in Hpb, Hcb;
      first [done | lia | f_equal; by apply Hloc].
  - intros p' b ->%list_elem_of_singleton. apply Hloc.
  - iv_carve_solve.
  - intros p' ->%list_elem_of_singleton. lia.
Qed.

(** [p] is the part of [c] before the range; [q] is the rest of [c], or only
    the part of it after the range. *)
Lemma iv_carve_two lo hi c p q :
  iv_wf c -> iv_wf p -> iv_wf q ->
  iv_start c < lo -> lo <= iv_end c -> iv_start p = iv_start c -> iv_end p = lo - 1 ->
  (iv_start q = lo /\ lo <= hi \/ hi < iv_end c /\ iv_start q = hi + 1) ->
  lo <= hi -> iv_end q = iv_end c ->
  (forall b, iv_start p <= b <= iv_end p -> iv_loc p b = iv_loc c b) ->
  (forall b, iv_start q <= b <= iv_end q -> iv_loc q b = iv_loc c b) ->
  iv_carve lo hi c [p; q].
Proof.
  intros Hc Hp Hq H1 H2 Hps Hpe Hqs Hlh Hqe Hlp Hlq. split.
  - repeat constructor; try done; unfold iv_wf in *; lia.
  - repeat constructor. unfold iv_lt. lia.
  - intros b Hb. simpl.
    destruct (iv_covers p b) eqn:Hpb, (iv_covers q b) eqn:Hqb, (iv_covers c b) eqn:Hcb;
      rewrite ?iv_covers_true ?iv_covers_false in Hpb, Hqb, Hcb;
      first [done | lia | f_equal; auto].
  - intros p' b [->| ->%list_elem_of_singleton]%elem_of_cons; auto.
  - iv_carve_solve.
  - intros p' [->| ->%list_elem_of_singleton]%elem_of_cons; lia.
Qed.

(** *** Searching a range of offsets *)

Definition iv_overlaps (lo hi : Z) e : bool := (iv_start e <=? hi) && (lo <=? iv_end e).

(** The first range that does not end before [lo] decides whether anything
    overlaps [lo..hi]. *)
Lemma iv_find_first lo hi es :
  iv_sorted es ->
  match List.find (fun e => lo <=? iv_end e) es with
  | Some e => if iv_start e <=? hi then Some e else None
  | None => None
  end = List.find (iv_overlaps lo hi) es.
Proof.
  induction es as [|e es IH]; [done|]. intros (He & Hs & Hlt)%iv_sorted_cons.
  simpl. unfold iv_overlaps at 1. destruct (lo <=? iv_end e) eqn:H1.
  - destruct (iv_start e <=? hi) eqn:H2; [done|]. simpl. symmetry. apply find_none_Forall.
    eapply Forall_impl; [exact Hlt|]. unfold iv_lt, iv_overlaps. intros y Hy.
    unfold iv_wf in He. zbool. apply andb_false_iff. left. apply Z.leb_gt. lia.
  - rewrite andb_false_r. by apply IH.
Qed.

(** No range overlaps [lo..hi] exactly when its bytes are unmapped. *)
Lemma iv_unmapped lo hi es :
  iv_sorted es -> (forall b, lo <= b <= hi -> iv_lookup es b = None) -> lo <= hi ->
  List.find (iv_overlaps lo hi) es = None.
Proof.
  intros Hs Hb Hlh. apply find_none_Forall, Forall_forall. intros e He.
  destruct (iv_overlaps lo hi e) eqn:Ho; [exfalso|done]. unfold iv_overlaps in Ho. zbool.
  pose proof Hs as [Hw _]. eapply Forall_forall in Hw; [|exact He]. unfold iv_wf in Hw.
  assert (iv_lookup es (Z.max lo (iv_start e)) = Some (iv_loc e (Z.max lo (iv_start e)))) as Hl.
  { apply iv_lookup_elem; [done..|lia]. }
  rewrite Hb in Hl; [lia|done].
Qed.

Lemma iv_mapped_none lo hi es b :
  List.find (iv_overlaps lo hi) es = None -> lo <= b <= hi -> iv_lookup es b = None.
Proof.
  intros Hf%find_none_Forall Hb. apply iv_lookup_none. eapply Forall_impl; [exact Hf|].
  unfold iv_overlaps. intros e He. apply andb_false_iff in He as [He|He]; zbool; lia.
Qed.

Lemma iv_conflicts_zero lo hi es :
  iv_conflicts lo hi es = 0%nat <-> List.find (iv_overlaps lo hi) es = None.
Proof.
  rewrite find_none_Forall. unfold iv_conflicts. induction es as [|e es IH]; simpl; [by split|].
  rewrite Forall_cons -IH. unfold iv_weight at 1, iv_overlaps.
  destruct (_ && _); [destruct (iv_start e <? lo)|]; split; intros; try lia; destruct_and?; done.
Qed.

Lemma iv_conflicts_pos lo hi es c :
  c ∈ es -> iv_start c <= hi -> lo <= iv_end c -> (0 < iv_conflicts lo hi es)%nat.
Proof.
  intros Hin H1 H2. destruct (iv_conflicts lo hi es) eqn:H0; [exfalso|lia].
  apply iv_conflicts_zero, find_none_Forall in H0. eapply Forall_forall in H0; [|exact Hin].
  unfold iv_overlaps in H0. apply andb_false_iff in H0 as [?|?]; zbool; lia.
Qed.

(** Outside the other ranges, only [c] maps the bytes of [c]. *)
Lemma iv_lookup_others es1 c es2 b :
  iv_sorted (es1 ++ c :: es2) -> iv_start c <= b <= iv_end c -> iv_lookup (es1 ++ es2) b = None.
Proof.
  intros (_ & _ & H1 & H2)%iv_sorted_mid Hb. apply iv_lookup_none, Forall_app.
  split; [eapply Forall_impl; [exact H1|]|eapply Forall_impl; [exact H2|]]; unfold iv_lt; intros; lia.
Qed.

(** The last range has the largest offsets. *)
Lemma iv_sorted_last es n :
  iv_sorted es -> last es = Some n -> Forall (fun e => iv_end e <= iv_end n) es.
Proof.
  intros Hs [es0 ->]%last_Some. apply iv_sorted_app in Hs as (_ & ([Hn1 Hn2] & _ & _)%iv_sorted_cons & Hlt).
  apply Forall_app; split; [|by repeat constructor]. apply Forall_forall. intros e He.
  specialize (Hlt e n He). unfold iv_lt in Hlt. set_unfold in Hlt. specialize (Hlt (or_introl eq_refl)). lia.
Qed.

(** *** The ranges a read request touches *)

(** The ranges up to the first that starts after [hi]. *)
Fixpoint iv_upto hi es : list E :=
  match es with
  | e :: es' => if iv_start e <=? hi then e :: iv_upto hi es' else []
  | [] => []
  end.

(** Whether some range of [es] does not start right after its predecessor, the
    predecessor of the first one ending at [prev]. *)
Fixpoint iv_gap (prev : Z) es : bool :=
  match es with
  | e :: es' => negb (prev + 1 =? iv_start e) || iv_gap (iv_end e) es'
  | [] => false
  end.

Definition iv_last_end (prev : Z) es : Z :=
  match last es with Some e => iv_end e | None => prev end.

Lemma iv_last_end_cons prev e es : iv_last_end prev (e :: es) = iv_last_end (iv_end e) es.
Proof. unfold iv_last_end. rewrite last_cons. by destruct (last es). Qed.

Lemma iv_upto_sorted hi es : iv_sorted es -> iv_sorted (iv_upto hi es).
Proof.
  induction es as [|e es IH]; [done|]. intros (He & Hs & Hlt)%iv_sorted_cons. simpl.
  destruct (_ <=? hi); [|apply iv_sorted_nil]. apply iv_sorted_cons. split_and!; [done|by apply IH|].
  clear -Hlt. induction Hlt as [|x es Hx _ IH]; simpl; [done|]. destruct (_ <=? hi); by constructor.
Qed.

Lemma iv_upto_start hi es : Forall (fun e => iv_start e <= hi) (iv_upto hi es).
Proof.
  induction es as [|e es IH]; simpl; [done|]. destruct (_ <=? hi) eqn:H; zbool; by constructor.
Qed.

Lemma iv_upto_subset hi es e : e ∈ iv_upto hi es -> e ∈ es.
Proof.
  induction es as [|x es IH]; simpl; [done|]. destruct (_ <=? hi); [|by intros ?%elem_of_nil].
  rewrite !elem_of_cons. naive_solver.
Qed.

Lemma iv_upto_length hi es : (length (iv_upto hi es) <= length es)%nat.
Proof. induction es as [|x es IH]; simpl; [lia|]. destruct (_ <=? hi); simpl; lia. Qed.

Lemma iv_upto_lookup hi es b :
  iv_sorted es -> b <= hi -> iv_lookup (iv_upto hi es) b = iv_lookup es b.
Proof.
  induction es as [|e es IH]; [done|]. intros (He & Hs & Hlt)%iv_sorted_cons Hb. simpl.
  destruct (_ <=? hi) eqn:H; simpl; [by rewrite IH|]. zbool. symmetry.
  apply (iv_lookup_none (e :: es)). constructor; [lia|].
  eapply Forall_impl; [exact Hlt|]. unfold iv_lt, iv_wf in *. intros; lia.
Qed.

(** Without a gap every byte up to the last end is mapped. *)
Lemma iv_gap_false prev es b :
  iv_gap prev es = false -> prev < b <= iv_last_end prev es -> iv_lookup es b <> None.
Proof.
  revert prev. induction es as [|e es IH]; intros prev; simpl.
  - intros _. unfold iv_last_end. simpl. lia.
  - rewrite iv_last_end_cons. intros [Hp%negb_false_iff Hg]%orb_false_iff Hb. zbool.
    destruct (iv_covers e b) eqn:Hc; [done|]. rewrite iv_covers_false in Hc.
    apply (IH (iv_end e) Hg). lia.
Qed.

(** A gap is an unmapped byte before the start of some range. *)
Lemma iv_gap_true prev es :
  iv_sorted es -> Forall (fun e => prev < iv_start e) es -> iv_gap prev es = true ->
  exists b e, e ∈ es /\ prev < b < iv_start e /\ iv_lookup es b = None.
Proof.
  revert prev. induction es as [|e es IH]; intros prev; simpl; [done|].
  intros (He & Hs & Hlt)%iv_sorted_cons [Hpe Hps]%Forall_cons [Hp%negb_true_iff|Hg]%orb_true_iff; zbool.
  - exists (prev + 1), e. split_and!; [left|lia|lia|].
    apply (iv_lookup_none (e :: es)). constructor; [lia|].
    eapply Forall_impl; [exact Hlt|]. unfold iv_lt, iv_wf in *. intros; lia.
  - destruct (IH (iv_end e) Hs Hlt Hg) as (b & x & Hx & Hb & Hl). unfold iv_wf in He.
    exists b, x. split_and!; [by right|lia|lia|]. rewrite (proj2 (iv_covers_false e b)) //; lia.
Qed.

(** The test for full coverage of [lo..hi] on the ranges that overlap it. *)
Lemma iv_covered lo hi e es :
  iv_sorted (e :: es) -> lo <= hi -> Forall (fun x => lo <= iv_end x /\ iv_start x <= hi) (e :: es) ->
  iv_gap (iv_end e) es = false /\ iv_start e <= lo /\ hi <= iv_last_end (iv_end e) es <->
  forall b, lo <= b <= hi -> iv_lookup (e :: es) b <> None.
Proof.
  intros Hs Hlh Hov. pose proof Hs as (He & Hs' & Hlt)%iv_sorted_cons. split.
  - intros (Hg & Hst & Hen) b Hb. simpl. destruct (iv_covers e b) eqn:Hc; [done|].
    rewrite iv_covers_false in Hc. apply (iv_gap_false (iv_end e)); [done|]. lia.
  - intros Hall. apply Forall_cons in Hov as [[He1 He2] Hov]. split_and!.
    + destruct (iv_gap (iv_end e) es) eqn:Hg; [exfalso|done].
      destruct (iv_gap_true _ _ Hs' Hlt Hg) as (b & x & Hx & Hb & Hl).
      rewrite Forall_forall in Hov. destruct (Hov x Hx) as [_ Hxs].
      apply (Hall b); [lia|]. simpl. rewrite (proj2 (iv_covers_false e b)) //; lia.
    + destruct (decide (iv_start e <= lo)) as [|Hn]; [done|exfalso]. apply (Hall lo); [lia|].
      apply iv_lookup_none. constructor; [lia|]. eapply Forall_impl; [exact Hlt|].
      unfold iv_lt, iv_wf in *. intros; lia.
    + destruct (decide (hi <= iv_last_end (iv_end e) es)) as [|Hn]; [done|exfalso]. apply (Hall hi); [lia|].
      destruct (last (e :: es)) as [l|] eqn:Hl; [|by apply last_None in Hl].
      pose proof (iv_sorted_last _ _ Hs Hl) as Hmax. rewrite last_cons in Hl.
      unfold iv_last_end in Hn. apply iv_lookup_none. eapply Forall_impl; [exact Hmax|].
      destruct (last es); injection Hl as <-; simpl; intros; lia.
Qed.

End Ranges.

(** ** Trees of ranges *)

Section Trees.
Context {E L : Type} `{!RbNode E, !Interval E L, !IntervalNode E L}.
Implicit Types (e c x : E) (es : list E) (t : rb_tree E) (m : mem).

(** The invariant of a tree of ranges: in-order sequence sorted and disjoint,
    nodes at distinct addresses handed out by the allocator, balanced. *)
Record iv_tree m t : Prop := {
  iv_tree_sorted : iv_sorted (rb_elems t);
  iv_tree_nodup : NoDup (rb_addr <$> rb_elems t);
  iv_tree_addr : Forall (fun e => rb_addr e < mem_next m) (rb_elems t);
  iv_tree_valid : rb_valid t;
}.

Lemma iv_cmp_lt x e : iv_lt x e -> iv_wf x -> iv_wf e -> rb_cmp x e < 0.
Proof. unfold iv_lt, iv_wf. rewrite iv_cmp_eq. intros. repeat zcase; lia. Qed.

Lemma iv_cmp_gt x e : iv_lt e x -> 0 < rb_cmp x e.
Proof. unfold iv_lt. rewrite iv_cmp_eq. intros. repeat zcase; lia. Qed.

Lemma iv_cmp_zero x e : rb_cmp x e = 0 <-> iv_start x <= iv_end e /\ iv_start e <= iv_end x.
Proof. rewrite iv_cmp_eq. repeat zcase; lia. Qed.

Lemma iv_cmp_pos x e : 0 < rb_cmp x e -> iv_lt e x.
Proof. unfold iv_lt. rewrite iv_cmp_eq. repeat zcase; lia. Qed.

Lemma iv_cmp_neg x e : rb_cmp x e < 0 -> iv_lt x e.
Proof. unfold iv_lt. rewrite iv_cmp_eq. repeat zcase; lia. Qed.

(** The comparison function is usable for searches in sorted sequences. *)
Lemma iv_mono x es : iv_wf x -> iv_sorted es -> rb_mono x es.
Proof.
  intros Hx [Hwf Hs]. induction Hs as [|e es Hs IH Hlt]; constructor.
  - apply IH. by inversion Hwf.
  - apply Forall_cons in Hwf as [He Hes]. apply Forall_forall. intros y Hy.
    pose proof (proj1 (Forall_forall _ _) Hlt y Hy). pose proof (proj1 (Forall_forall _ _) Hes y Hy).
    split; intros Hc.
    + apply iv_cmp_neg in Hc. apply iv_cmp_lt; auto. unfold iv_lt, iv_wf in *; lia.
    + apply iv_cmp_pos in Hc. apply iv_cmp_gt. unfold iv_lt, iv_wf in *; lia.
Qed.

Lemma iv_below x es : Forall (fun e => iv_lt e x) es -> rb_below x es.
Proof. intros H. eapply Forall_impl; [exact H|]. intros e. apply iv_cmp_gt. Qed.

Lemma iv_above x es : iv_wf x -> Forall iv_wf es -> Forall (iv_lt x) es -> rb_above x es.
Proof.
  intros Hx Hw H. apply Forall_forall. intros e He.
  apply iv_cmp_lt; [|done|]; by eapply Forall_forall in He.
Qed.

Lemma iv_tree_null m : iv_tree m RB_NULL.
Proof. split; simpl; [apply iv_sorted_nil|constructor|constructor|apply RB_NULL_valid]. Qed.

Lemma iv_tree_mono m m' t : mem_next m <= mem_next m' -> iv_tree m t -> iv_tree m' t.
Proof.
  intros Hm [? ? Ha ?]. split; [done..| |done]. eapply Forall_impl; [exact Ha|]. simpl. lia.
Qed.

(** Trying to insert: a conflicting node, or the node in its place. *)
Lemma iv_insert_conflict m t x c t' :
  iv_tree m t -> iv_wf x -> RB_INSERT t x = (Some c, t') ->
  t' = t /\ iv_start c <= iv_end x /\ iv_start x <= iv_end c /\
  exists es1 es2, rb_elems t = es1 ++ c :: es2.
Proof.
  intros [Hs _ _ _] Hx Hi. pose proof (RB_INSERT_spec t x (iv_mono x _ Hx Hs)) as H.
  rewrite Hi in H. destruct H as (-> & (es1 & es2 & ?)%list_elem_of_split & Hc%iv_cmp_zero).
  naive_solver.
Qed.

Lemma iv_insert_done m t x t' :
  iv_tree m t -> iv_wf x -> rb_addr x < mem_next m ->
  Forall (fun e => rb_addr e <> rb_addr x) (rb_elems t) ->
  RB_INSERT t x = (None, t') ->
  iv_tree m t' /\ exists es1 es2, rb_elems t = es1 ++ es2 /\ rb_elems t' = es1 ++ x :: es2.
Proof.
  intros Ht Hx Hm Hf Hi. pose proof Ht as [Hs Hn Ha Hv].
  pose proof (RB_INSERT_spec t x (iv_mono x _ Hx Hs)) as H. rewrite Hi in H.
  destruct H as (es1 & es2 & Heq & Heq' & Hb & Hab). split; [|eauto].
  assert (rb_valid t') by (pose proof (RB_INSERT_valid t x Hv) as Hv'; by rewrite Hi in Hv').
  rewrite Heq in Hs, Hn, Ha, Hf. split; rewrite ?Heq'; try done.
  - apply iv_sorted_mid. split_and!; [done..| |].
    + eapply Forall_impl; [exact Hb|]. intros e. apply iv_cmp_pos.
    + eapply Forall_impl; [exact Hab|]. intros e. apply iv_cmp_neg.
  - rewrite fmap_app fmap_cons -Permutation_middle -fmap_app. constructor; [|done].
    intros (e & He & Hin)%list_elem_of_fmap. eapply Forall_forall in Hf; [|exact Hin]. done.
  - apply Forall_app in Ha as [? ?]. apply Forall_app; split; [done|]. by constructor.
Qed.

(** Inserting a node that fits between its neighbours. *)
Lemma iv_insert_between m t x es1 es2 :
  iv_tree m t -> rb_elems t = es1 ++ es2 -> iv_wf x -> rb_addr x < mem_next m ->
  Forall (fun e => rb_addr e <> rb_addr x) (rb_elems t) ->
  Forall (fun e => iv_lt e x) es1 -> Forall (iv_lt x) es2 ->
  exists t', RB_INSERT t x = (None, t') /\ rb_elems t' = es1 ++ x :: es2 /\ iv_tree m t'.
Proof.
  intros Ht Heq Hx Hm Hf H1 H2.
  assert (Forall iv_wf es2) as Hw.
  { destruct Ht as [[Hw _] _ _ _]. rewrite Heq in Hw. by apply Forall_app in Hw as [_ ?]. }
  destruct (RB_INSERT_fresh t x es1 es2 Heq (iv_below _ _ H1) (iv_above _ _ Hx Hw H2))
    as (t' & Hi & Ht').
  exists t'. split_and!; [done..|]. by destruct (iv_insert_done m t x t' Ht Hx Hm Hf Hi).
Qed.

Lemma iv_remove m t es1 c es2 :
  iv_tree m t -> rb_elems t = es1 ++ c :: es2 ->
  rb_elems (RB_REMOVE t (rb_addr c)) = es1 ++ es2 /\ iv_tree m (RB_REMOVE t (rb_addr c)).
Proof.
  intros [Hs Hn Ha Hv] Heq. pose proof (rb_elems_remove t es1 c es2 Hn Heq) as Hr.
  split; [done|]. rewrite Heq in Hs, Hn, Ha. split; rewrite ?Hr.
  - by apply iv_sorted_mid in Hs as [? _].
  - rewrite fmap_app fmap_cons -Permutation_middle -fmap_app in Hn. by apply NoDup_cons in Hn as [_ ?].
  - apply Forall_app in Ha as [? [_ ?]%Forall_cons]. by apply Forall_app.
  - by apply RB_REMOVE_valid.
Qed.

(** Assigning to the range of a linked node, its place in the order kept. *)
Lemma iv_update m t f es1 c es2 :
  iv_tree m t -> rb_elems t = es1 ++ c :: es2 -> rb_addr (f c) = rb_addr c ->
  iv_sorted (es1 ++ f c :: es2) ->
  rb_elems (rb_update (rb_addr c) f t) = es1 ++ f c :: es2 /\
  iv_tree m (rb_update (rb_addr c) f t).
Proof.
  intros [Hs Hn Ha Hv] Heq Haddr Hs'. pose proof (rb_elems_update t f es1 c es2 Hn Heq) as Hr.
  split; [done|]. rewrite Heq in Hs, Hn, Ha. split; rewrite ?Hr.
  - done.
  - rewrite fmap_app fmap_cons in Hn. by rewrite fmap_app fmap_cons Haddr.
  - apply Forall_app in Ha as [? [? ?]%Forall_cons]. apply Forall_app; split; [done|].
    constructor; [by rewrite Haddr|done].
  - by apply rb_update_valid.
Qed.

(** [RB_NFIND] for a single offset is the first range that does not end
    before it. *)
Lemma iv_nfind m t x :
  iv_tree m t -> iv_wf x -> iv_start x = iv_end x ->
  RB_NFIND t x = List.find (fun e => iv_start x <=? iv_end e) (rb_elems t).
Proof.
  intros [Hs _ _ _] Hx Hpt. destruct (List.find _ (rb_elems t)) as [e|] eqn:Hf.
  - apply find_some_split in Hf as (es1 & es2 & Heq & H1 & He). zbool. rewrite Heq in Hs.
    pose proof Hs as ((Hw & _) & Hwe & Hl1 & Hl2)%iv_sorted_mid.
    apply Forall_app in Hw as [Hw1 Hw2].
    assert (Forall (fun y => iv_lt y x) es1) as Hb.
    { eapply Forall_impl; [exact H1|]. unfold iv_lt. intros y Hy. simpl in Hy. zbool. lia. }
    destruct (decide (iv_start e <= iv_start x)).
    + apply (RB_NFIND_some t x es1 e es2); [done|by apply iv_below| |].
      * apply iv_cmp_zero. lia.
      * apply iv_above; [done..|]. eapply Forall_impl; [exact Hl2|]. unfold iv_lt. intros; lia.
    + apply (RB_NFIND_next t x es1 (e :: es2)); [done|by apply iv_below|].
      apply iv_above; [done|by constructor|]. constructor; [unfold iv_lt; lia|].
      eapply Forall_impl; [exact Hl2|]. unfold iv_lt, iv_wf in *. intros; lia.
  - apply find_none_Forall in Hf.
    apply (RB_NFIND_next t x (rb_elems t) []); [by rewrite app_nil_r| |constructor].
    apply iv_below. eapply Forall_impl; [exact Hf|]. unfold iv_lt. intros y Hy. simpl in Hy.
    zbool. lia.
Qed.

(** A node of the tree finds itself. *)
Lemma iv_find_self m t es1 c es2 :
  iv_tree m t -> rb_elems t = es1 ++ c :: es2 -> RB_FIND t c = Some c.
Proof.
  intros [Hs _ _ _] Heq. rewrite Heq in Hs.
  pose proof Hs as ((Hw & _) & Hwe & Hl1 & Hl2)%iv_sorted_mid.
  apply Forall_app in Hw as [Hw1 Hw2].
  apply (RB_FIND_some t c es1 c es2); [done|by apply iv_below| |by apply iv_above].
  apply iv_cmp_zero. unfold iv_wf in *. lia.
Qed.

(** Replacing a node by the pieces that are left of it: unlink it, then insert
    freshly allocated nodes for the pieces. *)
Definition rb_insert_all t (ps : list E) : rb_tree E := fold_left (fun t p => (RB_INSERT t p).2) ps t.

Lemma iv_insert_all m t es1 ps es2 :
  iv_tree m t -> rb_elems t = es1 ++ es2 -> iv_sorted (es1 ++ ps ++ es2) ->
  Forall (fun p => rb_addr p < mem_next m) ps ->
  NoDup (rb_addr <$> (es1 ++ ps ++ es2)) ->
  rb_elems (rb_insert_all t ps) = es1 ++ ps ++ es2 /\ iv_tree m (rb_insert_all t ps).
Proof.
  revert t es1. induction ps as [|p ps IH]; intros t es1 Ht Heq Hs Ha Hn; [done|].
  apply Forall_cons in Ha as [Hp Ha]. simpl.
  pose proof Hs as (Hs' & Hwp & Hlp & Hpl)%(iv_sorted_mid es1 p (ps ++ es2)).
  destruct (iv_insert_between m t p es1 es2 Ht Heq Hwp Hp) as (t' & Hi & He' & Ht').
  - rewrite Heq. apply Forall_forall. intros e He Hae.
    rewrite fmap_app /= -Permutation_middle in Hn. apply NoDup_cons in Hn as [Hni _]. apply Hni.
    rewrite -Hae -fmap_app. apply list_elem_of_fmap_2. set_solver.
  - done.
  - apply Forall_app in Hpl as [_ ?]. done.
  - rewrite Hi /=. rewrite (app_assoc es1 [p] es2) in He'.
    destruct (IH t' (es1 ++ [p]) Ht' He') as [He2 Ht2].
    + by rewrite -app_assoc.
    + done.
    + by rewrite -app_assoc.
    + by rewrite -app_assoc /= in He2.
Qed.

Lemma iv_replace m m' t es1 c ps es2 lo hi :
  iv_tree m t -> rb_elems t = es1 ++ c :: es2 -> iv_carve lo hi c ps ->
  mem_next m <= mem_next m' ->
  Forall (fun p => mem_next m <= rb_addr p < mem_next m') ps -> NoDup (rb_addr <$> ps) ->
  rb_elems (rb_insert_all (RB_REMOVE t (rb_addr c)) ps) = es1 ++ ps ++ es2 /\
  iv_tree m' (rb_insert_all (RB_REMOVE t (rb_addr c)) ps).
Proof.
  intros Ht Heq Hc Hm Hp Hnp. destruct (iv_remove m t es1 c es2 Ht Heq) as [He1 Ht1].
  assert (NoDup (rb_addr <$> (es1 ++ ps ++ es2))) as Hn.
  { pose proof (iv_tree_nodup _ _ Ht1) as Hn. pose proof (iv_tree_addr _ _ Ht1) as Ha.
    rewrite He1 in Hn, Ha. rewrite (Permutation_app_comm ps es2) app_assoc fmap_app.
    apply NoDup_app. split_and!; [done| |done].
    intros a (e & -> & He)%list_elem_of_fmap (p & Hpe & Hp')%list_elem_of_fmap.
    eapply Forall_forall in Ha; [|exact He]. eapply Forall_forall in Hp; [|exact Hp'].
    simpl in *. lia. }
  apply iv_insert_all; [by eapply iv_tree_mono|done| | |done].
  - eapply iv_carve_sorted_app; [|exact Hc]. rewrite -Heq. apply Ht.
  - eapply Forall_impl; [exact Hp|]. simpl. lia.
Qed.

(** Merging two neighbours: the first is extended over the second, which is
    then unlinked. *)
Lemma iv_merge m t f es1 p n es2 :
  iv_tree m t -> rb_elems t = es1 ++ p :: n :: es2 -> rb_addr (f p) = rb_addr p ->
  iv_start (f p) = iv_start p -> iv_end (f p) = iv_end n ->
  let t' := RB_REMOVE (rb_update (rb_addr p) f t) (rb_addr n) in
  rb_elems t' = es1 ++ f p :: es2 /\ iv_tree m t'.
Proof.
  intros [Hs Hn Ha Hv] Heq Haddr Hst Hen t'. rewrite Heq in Hs, Ha.
  pose proof (rb_elems_update t f es1 p (n :: es2) Hn Heq) as Hu.
  assert (NoDup (rb_addr <$> rb_elems (rb_update (rb_addr p) f t))) as Hn'.
  { rewrite Hu. rewrite Heq in Hn. rewrite fmap_app fmap_cons in Hn. by rewrite fmap_app fmap_cons Haddr. }
  rewrite (app_assoc es1 [f p] (n :: es2)) in Hu.
  pose proof (rb_elems_remove _ (es1 ++ [f p]) n es2 Hn' Hu) as Hr.
  rewrite -app_assoc in Hr. split; [done|]. split; rewrite ?Hr /=.
  - by eapply iv_merge_sorted.
  - rewrite Hu in Hn'. rewrite fmap_app fmap_cons -Permutation_middle -fmap_app -app_assoc in Hn'.
    by apply NoDup_cons in Hn' as [_ ?].
  - apply Forall_app in Ha as [? [? [_ ?]%Forall_cons]%Forall_cons].
    apply Forall_app; split; [done|]. constructor; [by rewrite Haddr|done].
  - by apply RB_REMOVE_valid, rb_update_valid.
Qed.

End Trees.
