(* ===== verification/RangeTree.v ===== *)
(** * The tree structure shared by segment trees and extent trees

    [struct seg_tree] ([common/src/seg_tree.h]) and [struct extent_tree]
    ([server/src/extent_tree.h]) have the same fields: the head of a red-black
    tree of ranges, the number of its nodes and the largest offset.  This file
    holds that record, the invariant both components maintain and the effect
    on it of the tree updates both perform: replacing a node by its remains,
    linking a new node, merging neighbours, and changing a range in place.
    [insert_loop] is the conflict loop of both [add] functions, parametric in
    its body; its termination and effect are proved here from the contract
    [resolves], which each component discharges for its own loop body. *)

From S2P Require Import Prelude.
From S2P Require Import RbTree.
From S2P Require Import Extents.

Record range_tree (E : Type) := mk_range_tree {
  rt_head : rb_tree E;
  rt_count : Z;       (* number of segments stored in tree *)
  rt_max : Z;         (* maximum logical offset value in the tree *)
}.

Arguments mk_range_tree {E}.
Arguments rt_head {E}.
Arguments rt_count {E}.
Arguments rt_max {E}.

(** A range of offsets as the callers pass it. *)
Definition valid_range (start end_ : Z) : Prop := 0 <= start <= end_ /\ end_ <= ULONG_MAX.

Section RangeTree.
Context {E L : Type} `{!RbNode E, !Interval E L, !IntervalNode E L}.
Implicit Types (m : mem) (st : range_tree E) (n c p : E) (es : list E).

Definition rt_nodes st : list E := rb_elems (rt_head st).

(** The byte map a tree stands for. *)
Definition rt_lookup st (b : Z) : option L := iv_lookup (rt_nodes st) b.

Record rt_wf m st : Prop := {
  rt_wf_tree : iv_tree m (rt_head st);
  rt_wf_count : rt_count st = u64 (Z.of_nat (length (rt_nodes st)));
  rt_wf_max : Forall (fun e => iv_end e <= rt_max st) (rt_nodes st);
}.

Lemma rt_wf_mono m m' st : mem_next m <= mem_next m' -> rt_wf m st -> rt_wf m' st.
Proof. intros ? [? ? ?]. split; [by eapply iv_tree_mono|done..]. Qed.

Lemma rt_wf_null m mx : rt_wf m (mk_range_tree RB_NULL 0 mx).
Proof. split; [apply iv_tree_null|done|constructor]. Qed.

Lemma rt_wf_sorted m st : rt_wf m st -> iv_sorted (rt_nodes st).
Proof. intros [[]]. done. Qed.

Lemma rt_wf_elem m st n : rt_wf m st -> n ∈ rt_nodes st -> iv_wf n /\ iv_end n <= rt_max st.
Proof.
  intros Hwf Hin. split; [apply rt_wf_sorted in Hwf as [Hw _]|apply rt_wf_max in Hwf as Hw];
    by eapply Forall_forall in Hw.
Qed.

(** A node of the tree with its neighbours. *)
Lemma rt_elem_split m st n :
  rt_wf m st -> n ∈ rt_nodes st ->
  exists es1 es2, rt_nodes st = es1 ++ n :: es2 /\
    RB_PREV (rt_head st) (rb_addr n) = last es1 /\ RB_NEXT (rt_head st) (rb_addr n) = head es2.
Proof.
  intros [[_ Hn _ _] _ _] (es1 & es2 & Heq)%list_elem_of_split. exists es1, es2.
  split_and!; [done|exact (RB_PREV_spec _ es1 n es2 Hn Heq)|exact (RB_NEXT_spec _ es1 n es2 Hn Heq)].
Qed.

(** *** Replacing a node by its parts *)

Lemma rt_replace m m' st es1 c ps es2 lo hi cnt :
  rt_wf m st -> rt_nodes st = es1 ++ c :: es2 -> iv_carve lo hi c ps ->
  mem_next m <= mem_next m' ->
  Forall (fun p => mem_next m <= rb_addr p < mem_next m') ps -> NoDup (rb_addr <$> ps) ->
  cnt = u64 (rt_count st - 1 + Z.of_nat (length ps)) ->
  let st' := mk_range_tree (rb_insert_all (RB_REMOVE (rt_head st) (rb_addr c)) ps) cnt (rt_max st) in
  rt_wf m' st' /\ rt_nodes st' = es1 ++ ps ++ es2.
Proof.
  intros [Ht Hc Hx] Heq Hcv Hm Hp Hn -> st'.
  destruct (iv_replace m m' (rt_head st) es1 c ps es2 lo hi Ht Heq Hcv Hm Hp Hn) as [He Ht'].
  change (rt_nodes st' = es1 ++ ps ++ es2) in He. split; [|done].
  rewrite Heq in Hc, Hx. split; [done| |]; rewrite He.
  - simpl. rewrite Hc !length_app /=. ulia.
  - apply Forall_app in Hx as [Hx1 [Hxc Hx2]%Forall_cons].
    apply Forall_app; split; [done|]. apply Forall_app; split; [|done].
    eapply Forall_impl; [apply (iv_carve_wf _ _ _ _ Hcv)|]. simpl. intros p (_ & _ & Hpe). lia.
Qed.

(** *** Linking a node that conflicts with nothing *)

(** The bookkeeping after a successful insertion. *)
Definition rt_finish st (hi : Z) : range_tree E :=
  mk_range_tree (rt_head st) (rt_count st ⊞ 1) (Z.max (rt_max st) hi).

Lemma rt_insert m st node t' :
  rt_wf m st -> iv_wf node -> rb_addr node < mem_next m ->
  Forall (fun e => rb_addr e <> rb_addr node) (rt_nodes st) ->
  RB_INSERT (rt_head st) node = (None, t') ->
  let st' := mk_range_tree t' (rt_count st) (rt_max st) in
  rt_wf m (rt_finish st' (iv_end node)) /\
  (forall e, e ∈ rt_nodes st' <-> e ∈ rt_nodes st \/ e = node) /\
  (forall b, ~ (iv_start node <= b <= iv_end node) -> rt_lookup st' b = rt_lookup st b).
Proof.
  intros [Ht Hc Hx] Hw Ha Hf Hi st'.
  destruct (iv_insert_done m (rt_head st) node t' Ht Hw Ha Hf Hi) as [Ht' (es1 & es2 & He & He')].
  pose proof (iv_tree_sorted _ _ Ht') as Hs'. rewrite He' in Hs'.
  fold (rt_nodes st) in He. change (rt_nodes st' = es1 ++ node :: es2) in He'.
  rewrite He in Hc Hx. split_and!.
  - split; [done| |]; change (rt_nodes (rt_finish st' _)) with (rt_nodes st'); rewrite He'.
    + simpl. rewrite Hc !length_app /=. ulia.
    + apply Forall_app in Hx as [Hx1 Hx2].
      apply Forall_app; split; [|constructor; [simpl; lia|]];
        (eapply Forall_impl; [eassumption|]); simpl; lia.
  - intros e. rewrite He' He. set_solver.
  - intros b Hb. unfold rt_lookup. rewrite He' He iv_lookup_mid //.
    by rewrite (proj2 (iv_covers_false node b)).
Qed.

(** *** Merging neighbours *)

Lemma rt_merge m st f es1 p n es2 :
  rt_wf m st -> rt_nodes st = es1 ++ p :: n :: es2 ->
  rb_addr (f p) = rb_addr p -> iv_start (f p) = iv_start p -> iv_end (f p) = iv_end n ->
  iv_end p ⊞ 1 = iv_start n ->
  (forall b, iv_loc (f p) b = iv_loc p b) ->
  (forall b, iv_end p + 1 = iv_start n -> iv_start n <= b <= iv_end n -> iv_loc (f p) b = iv_loc n b) ->
  let st' := mk_range_tree (RB_REMOVE (rb_update (rb_addr p) f (rt_head st)) (rb_addr n))
    (rt_count st ⊟ 1) (rt_max st) in
  rt_wf m st' /\ rt_nodes st' = es1 ++ f p :: es2 /\ (forall b, rt_lookup st' b = rt_lookup st b).
Proof.
  intros [Ht Hc Hx] Heq Hfa Hfs Hfe Hadj Hlp Hln st'.
  destruct (iv_merge m (rt_head st) f es1 p n es2 Ht Heq Hfa Hfs Hfe) as [He Ht'].
  change (rt_nodes st' = es1 ++ f p :: es2) in He.
  pose proof (iv_tree_sorted _ _ Ht) as Hs. fold (rt_nodes st) in Hs. rewrite Heq in Hs.
  assert (iv_wf p /\ iv_wf n /\ iv_lt p n) as (Hp & Hn & Hpn).
  { apply iv_sorted_app in Hs as (_ & (? & (? & _)%iv_sorted_cons & [? _]%Forall_cons)%iv_sorted_cons & _).
    done. }
  pose proof Hp as [Hp1 Hp2]. pose proof Hn as [Hn1 Hn2]. unfold iv_lt in Hpn.
  rewrite u64_small in Hadj; [ulia|]. rewrite Heq in Hc, Hx.
  split_and!; [split; [done| |]| done|].
  - rewrite He /= Hc !length_app /=. ulia.
  - rewrite He. apply Forall_app in Hx as [? [? [? ?]%Forall_cons]%Forall_cons].
    apply Forall_app; split; [done|]. constructor; [by rewrite Hfe|done].
  - intros b. unfold rt_lookup. rewrite He Heq. apply iv_merge_lookup; auto.
Qed.

(** *** Changing a range in place *)

Lemma rt_update m st f es1 c es2 :
  rt_wf m st -> rt_nodes st = es1 ++ c :: es2 -> rb_addr (f c) = rb_addr c ->
  iv_sorted (es1 ++ f c :: es2) -> iv_end (f c) <= iv_end c ->
  let st' := mk_range_tree (rb_update (rb_addr c) f (rt_head st)) (rt_count st) (rt_max st) in
  rt_wf m st' /\ rt_nodes st' = es1 ++ f c :: es2.
Proof.
  intros [Ht Hc Hx] Heq Ha Hs Hle st'.
  destruct (iv_update m (rt_head st) f es1 c es2 Ht Heq Ha Hs) as [He Ht'].
  change (rt_nodes st' = es1 ++ f c :: es2) in He. split; [|done]. rewrite Heq in Hc, Hx.
  split; [done| |]; rewrite He.
  - simpl. rewrite Hc !length_app /=. done.
  - apply Forall_app in Hx as [? [? ?]%Forall_cons].
    apply Forall_app; split; [done|]. constructor; [simpl in *; lia|done].
Qed.

(** *** Resolving the conflicts of an insertion *)

(** [while ((conflict = RB_INSERT(head, node)) != NULL) body], which both
    components run to link [node]: [body] resolves one conflict, or gives up
    with an error code ([inl]).  [None]: more than [fuel] passes. *)
Fixpoint insert_loop (body : mem -> range_tree E -> E -> (mem * Z) + (mem * range_tree E))
    (fuel : nat) m st (node : E) : option (mem * range_tree E * Z) :=
  match fuel with
  | O => None
  | S fuel' =>
      match RB_INSERT (rt_head st) node with
      | (None, t) => Some (m, mk_range_tree t (rt_count st) (rt_max st), 0)
      | (Some conflict, _) =>
          match body m st conflict with
          | inl (m', rc) => Some (m', st, rc)
          | inr (m', st') => insert_loop body fuel' m' st' node
          end
      end
  end.

(** What one pass guarantees: the conflicting node [c] has been replaced by
    the parts of it that do not conflict yet; [P] holds of the parts. *)
Record resolved (P : E -> Prop) m st (lo hi : Z) (c : E) (m' : mem) (st' : range_tree E) : Prop := {
  resolved_next : mem_next m <= mem_next m';
  resolved_plenty : mem_plenty m -> mem_plenty m';
  resolved_wf : rt_wf m' st';
  resolved_max : rt_max st' = rt_max st;
  resolved_parts : exists es1 ps es2, rt_nodes st = es1 ++ c :: es2 /\
    rt_nodes st' = es1 ++ ps ++ es2 /\ iv_carve lo hi c ps /\
    Forall (fun p => mem_next m <= rb_addr p) ps /\ Forall P ps;
}.

Lemma resolved_intro (P : E -> Prop) m m' st es1 c ps es2 lo hi t cnt :
  t = rb_insert_all (RB_REMOVE (rt_head st) (rb_addr c)) ps ->
  rt_wf m st -> rt_nodes st = es1 ++ c :: es2 -> iv_carve lo hi c ps ->
  mem_next m <= mem_next m' -> (mem_plenty m -> mem_plenty m') ->
  Forall (fun p => mem_next m <= rb_addr p < mem_next m') ps -> NoDup (rb_addr <$> ps) ->
  Forall P ps ->
  cnt = u64 (rt_count st - 1 + Z.of_nat (length ps)) ->
  resolved P m st lo hi c m' (mk_range_tree t cnt (rt_max st)).
Proof.
  intros -> Hwf Heq Hcv Hm Hpl Hp Hn HP Hcnt.
  destruct (rt_replace m m' st es1 c ps es2 lo hi cnt Hwf Heq Hcv Hm Hp Hn Hcnt) as [Hw He].
  split; [done|done|done|done|]. exists es1, ps, es2. split_and!; [done|done|done| |done].
  eapply Forall_impl; [exact Hp|]. simpl. lia.
Qed.

(** The contract of a loop body, for the range [lo..hi]. *)
Definition resolves (P : E -> Prop) (lo hi : Z)
    (body : mem -> range_tree E -> E -> (mem * Z) + (mem * range_tree E)) : Prop :=
  forall m st c, rt_wf m st -> c ∈ rt_nodes st -> iv_start c <= hi -> lo <= iv_end c ->
  match body m st c with
  | inl (m', rc) => rc = ENOMEM /\ mem_next m <= mem_next m' /\ ~ mem_plenty m
  | inr (m', st') => resolved P m st lo hi c m' st'
  end.

(** Every node starts where an old one did, or at a boundary of [lo..hi]. *)
Definition starts_within (lo hi : Z) (es es' : list E) : Prop :=
  forall e, e ∈ es' ->
    iv_start e = lo \/ iv_start e = hi + 1 \/ exists e', e' ∈ es /\ iv_start e = iv_start e'.

Lemma starts_within_refl lo hi es : starts_within lo hi es es.
Proof. intros e He. eauto. Qed.

Lemma starts_within_trans lo hi es1 es2 es3 :
  starts_within lo hi es1 es2 -> starts_within lo hi es2 es3 -> starts_within lo hi es1 es3.
Proof. intros H1 H2 e [?|[?|(e' & [?|[?|?]]%H1 & ->)]]%H2; auto. Qed.

Lemma starts_within_carve lo hi es1 c ps es2 :
  iv_carve lo hi c ps -> starts_within lo hi (es1 ++ c :: es2) (es1 ++ ps ++ es2).
Proof.
  intros Hcv e [?|[He|?]%elem_of_app]%elem_of_app; [right; right; exists e; set_solver| |right; right; exists e; set_solver].
  destruct (iv_carve_start _ _ _ _ Hcv e He) as [Hs|[?|?]]; [|by left|by right; left].
  right; right. exists c. set_solver.
Qed.

(** So resolving the conflicts of a range and inserting it adds two nodes at
    the most. *)
Lemma starts_within_length lo hi es es' :
  iv_sorted es' -> starts_within lo hi es es' -> (length es' <= 2 + length es)%nat.
Proof.
  intros [Hwf Hs] Hin.
  assert (NoDup (iv_start <$> es')) as Hnd.
  { clear Hin. induction Hs as [|e l _ IH Hl]; [constructor|].
    apply Forall_cons in Hwf as [He Hwf']. constructor; [|by apply IH].
    intros (e' & Heq & He')%list_elem_of_fmap. rewrite Forall_forall in Hl. specialize (Hl e' He').
    unfold iv_lt, iv_wf in *. lia. }
  rewrite -(length_fmap iv_start es') -(length_fmap iv_start es).
  change (2 + length (iv_start <$> es))%nat with (length (lo :: (hi + 1) :: (iv_start <$> es))).
  apply submseteq_length, NoDup_submseteq; [done|].
  intros x (e & -> & [->|[->|(e' & He' & ->)]]%Hin)%list_elem_of_fmap; set_solver.
Qed.

Record insert_post (P : E -> Prop) m st (lo hi : Z) (node : E)
    (m' : mem) (st' : range_tree E) (rc : Z) : Prop := {
  ip_next : mem_next m <= mem_next m';
  ip_rc : rc = 0 \/ rc = ENOMEM;
  ip_plenty : mem_plenty m -> rc = 0 /\ mem_plenty m';
  ip_max : rt_max st' = rt_max st;
  ip_outside b : ~ (lo <= b <= hi) -> rt_lookup st' b = rt_lookup st b;
  ip_sub b v : rc <> 0 -> rt_lookup st' b = Some v -> rt_lookup st b = Some v;
  ip_parts e : e ∈ rt_nodes st' -> e ∈ rt_nodes st \/ e = node \/ P e;
  ip_starts : starts_within lo hi (rt_nodes st) (rt_nodes st');
  ip_wf : if rc =? 0 then rt_wf m' (rt_finish st' hi) /\ node ∈ rt_nodes st' else rt_wf m' st';
}.

Lemma insert_loop_spec P body fuel m st node :
  iv_wf node -> resolves P (iv_start node) (iv_end node) body ->
  rt_wf m st -> rb_addr node < mem_next m ->
  Forall (fun e => rb_addr e <> rb_addr node) (rt_nodes st) ->
  (iv_conflicts (iv_start node) (iv_end node) (rt_nodes st) < fuel)%nat ->
  exists m' st' rc, insert_loop body fuel m st node = Some (m', st', rc) /\
    insert_post P m st (iv_start node) (iv_end node) node m' st' rc.
Proof.
  intros Hw Hbody. revert m st.
  induction fuel as [|fuel IH]; intros m st Hwf Ha Hf Hfuel; [lia|]. simpl.
  destruct (RB_INSERT (rt_head st) node) as [[c|] t'] eqn:Hi.
  2:{ eexists _, _, _. split; [done|].
      destruct (rt_insert m st node t' Hwf Hw Ha Hf Hi) as (Hfin & Hin & Hout).
      split; try done; [by left|intros e; rewrite Hin; tauto| |].
      { intros e [?| ->]%Hin; [right; right; by exists e|by left]. }
      simpl. split; [done|].
      apply Hin. by right. }
  destruct (iv_insert_conflict m (rt_head st) node c t' (rt_wf_tree _ _ Hwf) Hw Hi)
    as (-> & Ho1 & Ho2 & es1 & es2 & Heq). fold (rt_nodes st) in Heq.
  assert (c ∈ rt_nodes st) as Hcin by (rewrite Heq; apply elem_of_app; right; left).
  pose proof (Hbody m st c Hwf Hcin Ho1 Ho2) as Hres. clear es1 es2 Heq Hcin.
  destruct (body m st c) as [[m1 rc]|[m1 st1]].
  - destruct Hres as (-> & Hm & Hnp). eexists _, _, _. split; [done|].
    split; [done|by right|done|done|done|done|by left|apply starts_within_refl|]. by eapply rt_wf_mono.
  - destruct Hres as [Hm Hpl Hwf1 Hmax (es1 & ps & es2 & Heq & He1 & Hcv & Hpa & HP)].
    destruct (IH m1 st1) as (m2 & st2 & rc & Hloop & Hpost); [done|lia| | |].
    + rewrite He1. rewrite Heq in Hf. apply Forall_app in Hf as [Hf1 [_ Hf2]%Forall_cons].
      rewrite !Forall_app. split_and!; [done| |done]. eapply Forall_impl; [exact Hpa|]. simpl. lia.
    + pose proof (iv_carve_conflicts _ _ es1 c ps es2 Hcv) as Hlt.
      rewrite Heq in Hfuel. rewrite He1. lia.
    + exists m2, st2, rc. split; [done|]. destruct Hpost as [Hn Hrc Hp Hmx Hout Hsub Hown Hst Hw'].
      split; [lia|done|by intros; apply Hp, Hpl|congruence| | | | |done].
      * intros b Hb. rewrite Hout //. unfold rt_lookup. rewrite He1 Heq.
        by apply (iv_carve_lookup_app _ _ _ _ _ _ _ Hcv).
      * intros b v H0 Hb%Hsub; [|done]. unfold rt_lookup in *. rewrite He1 in Hb. rewrite Heq.
        eapply iv_carve_sub_app; [|exact Hcv|exact Hb]. rewrite -Heq. apply Hwf.
      * intros e [He|He]%Hown; [|by right]. rewrite He1 in He. rewrite Heq.
        rewrite Forall_forall in HP. specialize (HP e). rewrite !elem_of_app elem_of_cons in He *.
        naive_solver.
      * rewrite He1 in Hst. rewrite Heq. eapply starts_within_trans; [|exact Hst].
        by apply starts_within_carve.
Qed.

End RangeTree.

(** A part of a range keeps the log positions of the bytes it covers. *)
Lemma u64_shift p d s b d' : d' = d + (b - s) -> p ⊞ d ⊞ (b - s) = p ⊞ d'.
Proof. intros ->. rewrite u64_add_l. f_equal. lia. Qed.
