(* ===== verification/SegTree.v ===== *)
(** * The client's segment tree ([common/src/seg_tree.c])

    A client records the extents it writes, and the extents it may read
    locally, in a [seg_tree]: a red-black tree of disjoint ranges of file
    offsets, each with the position of its data in a write log.  Adding a range
    overwrites what it overlaps; adjacent ranges whose data is contiguous in
    the log are merged.

    The state is [seg_tree]; there is one definition per function of the file.
    [RB_INSERT] in the loop of [seg_tree_add] returns whichever overlapping
    node the search meets first, so the order in which conflicts are resolved
    depends on the shape of the tree; the theorems show that the outcome does
    not.  The read-write lock of the tree serialises whole operations and has
    no counterpart in the sequential model. *)

From S2P Require Import Prelude.
From S2P Require Import RbTree.
From S2P Require Import Extents.
From S2P Require Import RangeTree.

(** ** State *)

Record seg_tree_node := SegNode {
  sn_addr : Z;        (* the node's address *)
  sn_start : Z;       (* starting logical offset of range *)
  sn_end : Z;         (* ending logical offset of range *)
  sn_ptr : Z;         (* physical offset of data in log *)
  sn_client_id : Z;   (* client id of the owner of the log *)
}.

Definition stn_compare_func (node1 node2 : seg_tree_node) : Z :=
  if sn_start node1 >? sn_end node2 then 1
  else if sn_end node1 <? sn_start node2 then -1
  else 0.

#[export] Instance seg_tree_node_rb : RbNode seg_tree_node :=
  { rb_addr := sn_addr; rb_cmp := stn_compare_func }.

(** The log position of the byte at offset [b]. *)
#[export] Instance seg_tree_node_interval : Interval seg_tree_node Z :=
  { iv_start := sn_start; iv_end := sn_end; iv_loc n b := sn_ptr n ⊞ (b - sn_start n) }.

#[export] Instance seg_tree_node_cmp : IntervalNode seg_tree_node Z.
Proof. done. Qed.

(** [struct seg_tree]: head, count and max. *)
Definition seg_tree : Type := range_tree seg_tree_node.

(** ** Operations *)

Definition seg_tree_init : seg_tree := mk_range_tree RB_NULL 0 0.

Definition seg_tree_node_alloc (m : mem) (start end_ ptr client_id : Z)
    : option seg_tree_node * mem :=
  match calloc m with
  | (Some a, m') => (Some (SegNode a start end_ ptr client_id), m')
  | (None, m') => (None, m')
  end.

(** [None] stands for the return value 1, a pair for the return value 0 with
    the outputs [new_start] and [new_end]. *)
Definition get_non_overlapping_range (start1 end1 start2 end2 : Z) : option (Z * Z) :=
  if start1 <? start2 then Some (start1, start2 ⊟ 1)
  else if end1 >? end2 then Some (end2 ⊞ 1, end1)
  else None.

(** The body of the [while] loop of [seg_tree_add] for the conflicting node
    [overlap]; [inl] is the [goto release_add] of a failed allocation. *)
Definition seg_tree_resolve (m : mem) (st : seg_tree) (overlap : seg_tree_node)
    (start end_ client_id : Z) : (mem * Z) + (mem * seg_tree) :=
  match get_non_overlapping_range (sn_start overlap) (sn_end overlap) start end_ with
  | None =>
      inr (m, mk_range_tree (RB_REMOVE (rt_head st) (sn_addr overlap)) (rt_count st ⊟ 1) (rt_max st))
  | Some (new_start, new_end) =>
      match seg_tree_node_alloc m new_start new_end
              (sn_ptr overlap ⊞ (new_start - sn_start overlap)) client_id with
      | (None, m1) => inl (m1, ENOMEM)
      | (Some resized, m1) =>
          let insert_parts m2 remaining :=
            let t1 := RB_REMOVE (rt_head st) (sn_addr overlap) in
            let c1 := rt_count st ⊟ 1 in
            let t2 := (RB_INSERT t1 resized).2 in
            let c2 := c1 ⊞ 1 in
            match remaining with
            | None => inr (m2, mk_range_tree t2 c2 (rt_max st))
            | Some rest => inr (m2, mk_range_tree (RB_INSERT t2 rest).2 (c2 ⊞ 1) (rt_max st))
            end in
          if sn_end resized <? sn_end overlap then
            match seg_tree_node_alloc m1 (sn_end resized ⊞ 1) (sn_end overlap)
                    (sn_ptr overlap ⊞ (sn_end resized + 1 - sn_start overlap)) client_id with
            | (None, m2) => inl (m2, ENOMEM)
            | (Some rest, m2) => insert_parts m2 (Some rest)
            end
          else insert_parts m1 None
      end
  end.

(** The [while] loop. *)
Definition seg_tree_add_loop (fuel : nat) (m : mem) (st : seg_tree) (node : seg_tree_node)
    (start end_ client_id : Z) : option (mem * seg_tree * Z) :=
  insert_loop (fun m st overlap => seg_tree_resolve m st overlap start end_ client_id) fuel m st node.

Definition sn_set_end (e : Z) (n : seg_tree_node) : seg_tree_node :=
  SegNode (sn_addr n) (sn_start n) e (sn_ptr n) (sn_client_id n).

(** Merge [target] into the preceding extent if they are contiguous in the
    file and in the log; returns the new [target]. *)
Definition seg_tree_coalesce_prev (st : seg_tree) (target : seg_tree_node)
    : seg_tree * seg_tree_node :=
  match RB_PREV (rt_head st) (sn_addr target) with
  | Some prev =>
      if sn_end prev ⊞ 1 =? sn_start target then
        let ptr_end := sn_ptr prev ⊞ (sn_end prev - sn_start prev + 1) in
        if ptr_end =? sn_ptr target then
          let t1 := rb_update (sn_addr prev) (sn_set_end (sn_end target)) (rt_head st) in
          (mk_range_tree (RB_REMOVE t1 (sn_addr target)) (rt_count st ⊟ 1) (rt_max st),
           sn_set_end (sn_end target) prev)
        else (st, target)
      else (st, target)
  | None => (st, target)
  end.

(** Merge the following extent into [target]. *)
Definition seg_tree_coalesce_next (st : seg_tree) (target : seg_tree_node) : seg_tree :=
  match RB_NEXT (rt_head st) (sn_addr target) with
  | Some next =>
      if sn_end target ⊞ 1 =? sn_start next then
        let ptr_end := sn_ptr target ⊞ (sn_end target - sn_start target + 1) in
        if ptr_end =? sn_ptr next then
          let t1 := rb_update (sn_addr target) (sn_set_end (sn_end next)) (rt_head st) in
          mk_range_tree (RB_REMOVE t1 (sn_addr next)) (rt_count st ⊟ 1) (rt_max st)
        else st
      else st
  | None => st
  end.

Definition seg_tree_fuel (st : seg_tree) : nat := S (2 * length (rb_elems (rt_head st))).

Definition seg_tree_add (m : mem) (st : seg_tree) (start end_ ptr client_id : Z)
    : option (mem * seg_tree * Z) :=
  match seg_tree_node_alloc m start end_ ptr client_id with
  | (None, m1) => Some (m1, st, ENOMEM)
  | (Some node, m1) =>
      match seg_tree_add_loop (seg_tree_fuel st) m1 st node start end_ client_id with
      | None => None
      | Some (m2, st2, rc) =>
          if rc =? 0 then
            let st3 := mk_range_tree (rt_head st2) (rt_count st2 ⊞ 1) (Z.max (rt_max st2) end_) in
            let '(st4, target) := seg_tree_coalesce_prev st3 node in
            Some (m2, seg_tree_coalesce_next st4 target, 0)
          else Some (m2, st2, rc)
      end
  end.

(** A failed allocation of the search key reads as "not found". *)
Definition seg_tree_find_nolock (m : mem) (st : seg_tree) (start end_ : Z)
    : mem * option seg_tree_node :=
  match seg_tree_node_alloc m start start 0 0 with
  | (None, m1) => (m1, None)
  | (Some node, m1) =>
      match RB_NFIND (rt_head st) node with
      | Some next => if sn_start next <=? end_ then (m1, Some next) else (m1, None)
      | None => (m1, None)
      end
  end.

Definition seg_tree_find := seg_tree_find_nolock.

Definition sn_set_start (n_start n_ptr : Z) (n : seg_tree_node) : seg_tree_node :=
  SegNode (sn_addr n) n_start (sn_end n) n_ptr (sn_client_id n).

(** The loop of [seg_tree_remove]: [node] is the result of the last search. *)
Fixpoint seg_tree_remove_loop (fuel : nat) (m : mem) (st : seg_tree) (start end_ : Z)
    (found : option seg_tree_node) : option (mem * seg_tree * Z) :=
  match found with
  | None => Some (m, st, 0)
  | Some node =>
      match fuel with
      | O => None
      | S fuel' =>
          let again m' st' :=
            let '(m2, found') := seg_tree_find_nolock m' st' start end_ in
            seg_tree_remove_loop fuel' m2 st' start end_ found' in
          let upd f := mk_range_tree (rb_update (sn_addr node) f (rt_head st)) (rt_count st) (rt_max st) in
          if start <=? sn_start node then
            if sn_end node <=? end_ then
              again m (mk_range_tree (RB_REMOVE (rt_head st) (sn_addr node)) (rt_count st ⊟ 1) (rt_max st))
            else
              again m (upd (sn_set_start (end_ ⊞ 1) (sn_ptr node ⊞ (end_ + 1 - sn_start node))))
          else
            if sn_end node <=? end_ then
              again m (upd (sn_set_end (start ⊟ 1)))
            else
              let a_end := sn_end node in
              let a_start := end_ ⊞ 1 in
              let a_ptr := sn_ptr node ⊞ (a_start - sn_start node) in
              match seg_tree_add m (upd (sn_set_end (start ⊟ 1))) a_start a_end a_ptr
                      (sn_client_id node) with
              | None => None
              | Some (m', st', rc) => if rc =? 0 then again m' st' else Some (m', st', rc)
              end
      end
  end.

Definition seg_tree_remove (m : mem) (st : seg_tree) (start end_ : Z)
    : option (mem * seg_tree * Z) :=
  let '(m1, node) := seg_tree_find_nolock m st start end_ in
  seg_tree_remove_loop (seg_tree_fuel st) m1 st start end_ node.

Definition seg_tree_iter (st : seg_tree) (start : option seg_tree_node) : option seg_tree_node :=
  match start with
  | None => RB_MIN (rt_head st)
  | Some n =>
      match RB_FIND (rt_head st) n with
      | None => None
      | Some _ => RB_NEXT (rt_head st) (sn_addr n)
      end
  end.

(** The callers' loop [while ((node = seg_tree_iter(tree, node)))]: the nodes
    it visits after [node]. *)
Fixpoint seg_tree_walk (fuel : nat) (st : seg_tree) (node : option seg_tree_node)
    : option (list seg_tree_node) :=
  match fuel with
  | O => None
  | S fuel' =>
      match seg_tree_iter st node with
      | None => Some []
      | Some n => match seg_tree_walk fuel' st (Some n) with
                  | Some ns => Some (n :: ns)
                  | None => None
                  end
      end
  end.

(** The loop of [seg_tree_clear], which removes every node one step behind the
    iteration. *)
Fixpoint seg_tree_clear_loop (fuel : nat) (st : seg_tree) (node oldnode : option seg_tree_node)
    : option seg_tree :=
  let drop o := match o with
                | Some n => mk_range_tree (RB_REMOVE (rt_head st) (sn_addr n)) (rt_count st) (rt_max st)
                | None => st
                end in
  match fuel with
  | O => None
  | S fuel' =>
      match seg_tree_iter st node with
      | Some n => seg_tree_clear_loop fuel' (drop oldnode) (Some n) (Some n)
      | None => Some (drop oldnode)
      end
  end.

Definition seg_tree_clear (st : seg_tree) : option seg_tree :=
  if RB_EMPTY (rt_head st) then Some st
  else
    match seg_tree_clear_loop (seg_tree_fuel st) st None None with
    | Some st' => Some (mk_range_tree (rt_head st') 0 0)
    | None => None
    end.

Definition seg_tree_destroy (st : seg_tree) : option seg_tree := seg_tree_clear st.

Definition seg_tree_count (st : seg_tree) : Z := rt_count st.
Definition seg_tree_max (st : seg_tree) : Z := rt_max st.

(** ** Allocation *)

Implicit Types (m : mem) (st : seg_tree) (n c : seg_tree_node).

Lemma seg_tree_node_alloc_some m s e p cl n m' :
  seg_tree_node_alloc m s e p cl = (Some n, m') ->
  n = SegNode (mem_next m) s e p cl /\ mem_next m' = mem_next m + 1.
Proof.
  unfold seg_tree_node_alloc. destruct (calloc m) as [[a|] m1] eqn:Hc; [|done].
  intros [= <- <-]. apply calloc_some in Hc as [-> ?]. done.
Qed.

Lemma seg_tree_node_alloc_none m s e p cl m' :
  seg_tree_node_alloc m s e p cl = (None, m') -> mem_next m' = mem_next m /\ ~ mem_plenty m.
Proof.
  unfold seg_tree_node_alloc. destruct (calloc m) as [[a|] m1] eqn:Hc; [done|].
  intros [= <-]. split; [by apply calloc_none in Hc|].
  intros (m2 & Hc' & _)%calloc_plenty. congruence.
Qed.

Lemma seg_tree_node_alloc_plenty m s e p cl n m' :
  seg_tree_node_alloc m s e p cl = (Some n, m') -> mem_plenty m -> mem_plenty m'.
Proof.
  unfold seg_tree_node_alloc. intros Ha (m2 & Hc & Hm & _)%calloc_plenty.
  rewrite Hc in Ha. by injection Ha as _ <-.
Qed.

(** ** Adding a range *)

(** One pass of the conflict loop: the parts that are left of the conflicting
    node carry the client id of the new range. *)
Lemma seg_tree_resolve_spec lo hi cl :
  valid_range lo hi ->
  resolves (fun p => sn_client_id p = cl) lo hi (fun m st c => seg_tree_resolve m st c lo hi cl).
Proof.
  intros [Hr1 Hr2] m st c Hwf Hin Ho1 Ho2.
  destruct (rt_elem_split m st c Hwf Hin) as (es1 & es2 & Heq & _).
  destruct (rt_wf_elem m st c Hwf Hin) as [Hwc _].
  pose proof Hwc as [Hc1 Hc2]. simpl in *.
  unfold seg_tree_resolve, get_non_overlapping_range.
  destruct (sn_start c <? lo) eqn:Hlt; [|destruct (sn_end c >? hi) eqn:Hgt]; zbool.
  - (* a part before the range, and the rest *)
    destruct (seg_tree_node_alloc m _ _ _ _) as [[p|] m1] eqn:Ha1.
    2:{ apply seg_tree_node_alloc_none in Ha1 as [? ?]. split_and!; [done|lia|done]. }
    pose proof (seg_tree_node_alloc_plenty _ _ _ _ _ _ _ Ha1) as Hpl1.
    apply seg_tree_node_alloc_some in Ha1 as [-> Hm1]. simpl.
    rewrite (u64_small (lo - 1)); first ulia. rewrite (proj2 (Z.ltb_lt _ _)); first lia.
    destruct (seg_tree_node_alloc m1 _ _ _ _) as [[q|] m2] eqn:Ha2.
    2:{ apply seg_tree_node_alloc_none in Ha2 as [? ?]. split_and!; [done|lia|auto]. }
    pose proof (seg_tree_node_alloc_plenty _ _ _ _ _ _ _ Ha2) as Hpl2.
    apply seg_tree_node_alloc_some in Ha2 as [-> Hm2].
    rewrite (u64_small (lo - 1 + 1)); first ulia.
    eapply (resolved_intro _ m m2 st es1 c [_; _] es2); [cbn; reflexivity|eauto..]; simpl.
    + apply iv_carve_two; simpl; try lia; [done|split; simpl; lia..| |];
        intros b _; apply u64_shift; lia.
    + lia.
    + repeat constructor; simpl; lia.
    + repeat constructor; set_solver by lia.
    + ulia.
  - (* a part after the range *)
    destruct (seg_tree_node_alloc m _ _ _ _) as [[p|] m1] eqn:Ha1.
    2:{ apply seg_tree_node_alloc_none in Ha1 as [? ?]. split_and!; [done|lia|done]. }
    pose proof (seg_tree_node_alloc_plenty _ _ _ _ _ _ _ Ha1) as Hpl1.
    apply seg_tree_node_alloc_some in Ha1 as [-> Hm1]. simpl.
    rewrite Z.ltb_irrefl (u64_small (hi + 1)); first ulia.
    eapply (resolved_intro _ m m1 st es1 c [_] es2); [cbn; reflexivity|eauto..]; simpl.
    + apply iv_carve_one; simpl; try lia; [done|split; simpl; lia|].
      intros b _. apply u64_shift. lia.
    + lia.
    + repeat constructor; simpl; lia.
    + repeat constructor; set_solver.
    + ulia.
  - (* covered *)
    apply (resolved_intro _ m m st es1 c [] es2); try done; [by apply iv_carve_all|constructor|].
    simpl. f_equal. lia.
Qed.

(** Merging neighbours that are contiguous in the file and in the log. *)
Lemma seg_tree_merge m (st : seg_tree) es1 p n es2 :
  rt_wf m st -> rt_nodes st = es1 ++ p :: n :: es2 ->
  sn_end p ⊞ 1 = sn_start n -> sn_ptr p ⊞ (sn_end p - sn_start p + 1) = sn_ptr n ->
  let st' := mk_range_tree
    (RB_REMOVE (rb_update (sn_addr p) (sn_set_end (sn_end n)) (rt_head st)) (sn_addr n))
    (rt_count st ⊟ 1) (rt_max st) in
  rt_wf m st' /\ rt_nodes st' = es1 ++ sn_set_end (sn_end n) p :: es2 /\
  (forall b, rt_lookup st' b = rt_lookup st b).
Proof.
  intros Hwf Heq Hadj Hptr.
  apply (rt_merge m st (sn_set_end (sn_end n)) es1 p n es2 Hwf Heq); try done. simpl. intros b Hn _. rewrite -Hptr.
  symmetry. apply u64_shift. lia.
Qed.

(** Coalescing keeps the byte map, the invariant and the owners. *)
Record coalesced (m : mem) (st st' : seg_tree) : Prop := {
  co_wf : rt_wf m st';
  co_max : rt_max st' = rt_max st;
  co_lookup b : rt_lookup st' b = rt_lookup st b;
  co_owner e : e ∈ rt_nodes st' -> exists e', e' ∈ rt_nodes st /\
    sn_client_id e = sn_client_id e' /\ sn_start e = sn_start e';
}.

Lemma coalesced_refl m st : rt_wf m st -> coalesced m st st.
Proof. intros. split; eauto. Qed.

Lemma coalesced_merge m st es1 p n es2 :
  rt_wf m st -> rt_nodes st = es1 ++ p :: n :: es2 ->
  sn_end p ⊞ 1 = sn_start n -> sn_ptr p ⊞ (sn_end p - sn_start p + 1) = sn_ptr n ->
  coalesced m st (mk_range_tree
    (RB_REMOVE (rb_update (sn_addr p) (sn_set_end (sn_end n)) (rt_head st)) (sn_addr n))
    (rt_count st ⊟ 1) (rt_max st)).
Proof.
  intros Hwf Heq H1 H2. destruct (seg_tree_merge m st es1 p n es2 Hwf Heq H1 H2) as (Hw & He & Hl).
  split; [done|done|done|]. intros e. rewrite He Heq. rewrite elem_of_app elem_of_cons.
  intros [Hi|[->|Hi]]; [exists e; set_solver|exists p; set_solver|exists e; set_solver].
Qed.

Lemma seg_tree_coalesce_prev_spec m st target :
  rt_wf m st -> target ∈ rt_nodes st ->
  coalesced m st (seg_tree_coalesce_prev st target).1 /\
  (seg_tree_coalesce_prev st target).2 ∈ rt_nodes (seg_tree_coalesce_prev st target).1.
Proof.
  intros Hwf Hin. destruct (rt_elem_split m st target Hwf Hin) as (es1 & es2 & Heq & Hprev & _).
  unfold seg_tree_coalesce_prev. rewrite Hprev.
  destruct (last es1) as [p|] eqn:Hp; [|split; [by apply coalesced_refl|done]].
  apply last_Some in Hp as [es0 ->]. rewrite -app_assoc in Heq.
  destruct (_ =? sn_start target) eqn:H1; [|split; [by apply coalesced_refl|done]].
  destruct (_ =? sn_ptr target) eqn:H2; [zbool|split; [by apply coalesced_refl|done]].
  split; [by apply (coalesced_merge m st es0 p target es2)|].
  destruct (seg_tree_merge m st es0 p target es2 Hwf Heq H1 H2) as (_ & He & _). simpl. rewrite He.
  set_solver.
Qed.

Lemma seg_tree_coalesce_next_spec m st target :
  rt_wf m st -> target ∈ rt_nodes st -> coalesced m st (seg_tree_coalesce_next st target).
Proof.
  intros Hwf Hin. destruct (rt_elem_split m st target Hwf Hin) as (es1 & es2 & Heq & _ & Hnext).
  unfold seg_tree_coalesce_next. rewrite Hnext.
  destruct es2 as [|n es2]; [by apply coalesced_refl|]. simpl.
  destruct (_ =? sn_start n) eqn:H1; [|by apply coalesced_refl].
  destruct (_ =? sn_ptr n) eqn:H2; [zbool|by apply coalesced_refl].
  by apply (coalesced_merge m st es1 target n es2).
Qed.

Record add_post (m : mem) (st : seg_tree) (lo hi ptr cl : Z)
    (m' : mem) (st' : seg_tree) (rc : Z) : Prop := {
  ap_next : mem_next m <= mem_next m';
  ap_rc : rc = 0 \/ rc = ENOMEM;
  ap_plenty : mem_plenty m -> rc = 0 /\ mem_plenty m';
  ap_wf : rt_wf m' st';
  ap_max : rt_max st' = if rc =? 0 then Z.max (rt_max st) hi else rt_max st;
  ap_outside b : ~ (lo <= b <= hi) -> rt_lookup st' b = rt_lookup st b;
  ap_sub b v : rc <> 0 -> rt_lookup st' b = Some v -> rt_lookup st b = Some v;
  ap_inside b : rc = 0 -> lo <= b <= hi -> rt_lookup st' b = Some (ptr ⊞ (b - lo));
  ap_owner e : e ∈ rt_nodes st' ->
    sn_client_id e = cl \/ exists e', e' ∈ rt_nodes st /\ sn_client_id e = sn_client_id e';
  ap_starts : starts_within lo hi (rt_nodes st) (rt_nodes st');
}.

(** The conflict loop, from a fresh node: the fuel suffices. *)
Lemma seg_tree_add_loop_spec m m1 st lo hi ptr cl :
  let node := SegNode (mem_next m) lo hi ptr cl in
  rt_wf m st -> valid_range lo hi -> mem_next m1 = mem_next m + 1 ->
  exists m' st' rc, seg_tree_add_loop (seg_tree_fuel st) m1 st node lo hi cl = Some (m', st', rc) /\
    insert_post (fun p => sn_client_id p = cl) m1 st lo hi node m' st' rc.
Proof.
  intros node Hwf Hr Hm1.
  refine (insert_loop_spec (fun p => sn_client_id p = cl)
    (fun m st c => seg_tree_resolve m st c lo hi cl) (seg_tree_fuel st) m1 st node _ _ _ _ _ _).
  - done.
  - by apply seg_tree_resolve_spec.
  - eapply rt_wf_mono; [|done]. lia.
  - simpl. lia.
  - eapply Forall_impl; [apply (iv_tree_addr _ _ (rt_wf_tree _ _ Hwf))|]. simpl. lia.
  - pose proof (iv_conflicts_bound lo hi (rt_nodes st)). unfold seg_tree_fuel. simpl.
    fold (rt_nodes st). lia.
Qed.

Lemma seg_tree_add_post m st lo hi ptr cl :
  rt_wf m st -> valid_range lo hi ->
  exists m' st' rc, seg_tree_add m st lo hi ptr cl = Some (m', st', rc) /\
    add_post m st lo hi ptr cl m' st' rc.
Proof.
  intros Hwf Hr. unfold seg_tree_add.
  destruct (seg_tree_node_alloc m lo hi ptr cl) as [[node|] m1] eqn:Ha.
  2:{ apply seg_tree_node_alloc_none in Ha as [Hn Hnp]. eexists _, _, _. split; [done|].
      split; [lia|by right|done| |done|done|done|done|by eauto|apply starts_within_refl]. eapply rt_wf_mono; [|done]. lia. }
  pose proof (seg_tree_node_alloc_plenty _ _ _ _ _ _ _ Ha) as Hpl.
  apply seg_tree_node_alloc_some in Ha as [Hnode Hm1].
  destruct (seg_tree_add_loop_spec m m1 st lo hi ptr cl Hwf Hr Hm1) as (m2 & st2 & rc & Hloop & Hp).
  rewrite -Hnode in Hloop, Hp. rewrite Hloop.
  destruct Hp as [Hn Hrc Hplenty Hmax Hout Hsub Hown Hst Hw].
  assert (forall e, e ∈ rt_nodes st2 ->
    sn_client_id e = cl \/ exists e', e' ∈ rt_nodes st /\ sn_client_id e = sn_client_id e') as Hown2.
  { intros e [He|[->|He]]%Hown; [right; by exists e|left; by subst node|by left]. }
  destruct Hrc as [-> | ->].
  2:{ eexists _, _, _. split; [done|]. split; try done; [lia|by right|by intros; apply Hplenty, Hpl]. }
  destruct Hw as [Hw Hin]. cbn [Z.eqb]. fold (rt_finish st2 hi).
  destruct (seg_tree_coalesce_prev_spec m2 (rt_finish st2 hi) node Hw Hin) as [Hc1 Hin1].
  destruct (seg_tree_coalesce_prev _ node) as [st4 target]. simpl in Hc1, Hin1.
  pose proof (seg_tree_coalesce_next_spec m2 st4 target (co_wf _ _ _ Hc1) Hin1) as Hc2.
  eexists _, _, _. split; [done|].
  destruct Hc1 as [Hcw1 Hcm1 Hcl1 Hco1], Hc2 as [Hcw2 Hcm2 Hcl2 Hco2].
  split; [lia|by left|by intros; split; [done|apply Hplenty, Hpl]|done| | |done| | |].
  - rewrite Hcm2 Hcm1 /= Hmax. done.
  - intros b Hb. rewrite Hcl2 Hcl1. by apply Hout.
  - intros b _ Hb. rewrite Hcl2 Hcl1. unfold rt_lookup.
    rewrite (iv_lookup_elem _ node b (rt_wf_sorted _ _ Hw) Hin); [|by subst node].
    subst node. simpl. lia.
  - intros e (e' & (e'' & [He|(e3 & ? & ?)]%Hown2 & ? & _)%Hco1 & ? & _)%Hco2;
      [left|right; exists e3]; split_and?; congruence.
  - intros e (e' & (e'' & He & _ & H1)%Hco1 & _ & H2)%Hco2. specialize (Hst e'' He).
    simpl in *. by rewrite H2 H1.
Qed.

(** An add creates two nodes at the most. *)
Lemma seg_tree_add_grows m st lo hi ptr cl m' st' rc :
  rt_wf m st -> valid_range lo hi -> seg_tree_add m st lo hi ptr cl = Some (m', st', rc) ->
  (length (rt_nodes st') <= 2 + length (rt_nodes st))%nat.
Proof.
  intros Hwf Hr Hadd.
  destruct (seg_tree_add_post m st lo hi ptr cl Hwf Hr) as (m1 & st1 & rc1 & Hadd1 & Hp).
  rewrite Hadd in Hadd1. simplify_eq.
  exact (starts_within_length lo hi _ _ (rt_wf_sorted _ _ (ap_wf _ _ _ _ _ _ _ _ _ Hp)) (ap_starts _ _ _ _ _ _ _ _ _ Hp)).
Qed.

(** ** Searching *)

Lemma seg_tree_find_post m st lo hi :
  rt_wf m st -> is_u64 lo ->
  let '(m', r) := seg_tree_find_nolock m st lo hi in
  mem_next m <= mem_next m' /\ (mem_plenty m -> mem_plenty m') /\
  (r = List.find (iv_overlaps lo hi) (rt_nodes st) \/ r = None /\ ~ mem_plenty m).
Proof.
  intros Hwf Hlo. unfold seg_tree_find_nolock.
  destruct (seg_tree_node_alloc m lo lo 0 0) as [[node|] m1] eqn:Ha.
  2:{ apply seg_tree_node_alloc_none in Ha as [? ?]. split_and!; [lia|done|by right]. }
  pose proof (seg_tree_node_alloc_plenty _ _ _ _ _ _ _ Ha) as Hpl.
  apply seg_tree_node_alloc_some in Ha as [-> Hm].
  rewrite (iv_nfind m _ _ (rt_wf_tree _ _ Hwf)).
  { unfold iv_wf, is_u64 in *. simpl. lia. } { done. }
  pose proof (iv_find_first lo hi (rt_nodes st) (iv_tree_sorted _ _ (rt_wf_tree _ _ Hwf))) as Hf.
  simpl in *. fold (rt_nodes st). rewrite -Hf.
  destruct (List.find _ (rt_nodes st)) as [e|]; [destruct (sn_start e <=? hi)|];
    (split_and!; [lia|done|by left]).
Qed.

(** ** Removing a range *)

(** What one pass of the removal loop guarantees. *)
Record removed (m : mem) (st : seg_tree) (lo hi : Z) (m' : mem) (st' : seg_tree) : Prop := {
  rm_next : mem_next m <= mem_next m';
  rm_plenty : mem_plenty m -> mem_plenty m';
  rm_wf : rt_wf m' st';
  rm_max : rt_max st' = rt_max st;
  rm_outside b : ~ (lo <= b <= hi) -> rt_lookup st' b = rt_lookup st b;
  rm_sub b v : rt_lookup st' b = Some v -> rt_lookup st b = Some v;
  rm_less : (iv_conflicts lo hi (rt_nodes st') < iv_conflicts lo hi (rt_nodes st))%nat;
}.

(** The whole node is unlinked. *)
Lemma removed_whole m st es1 c es2 lo hi :
  rt_wf m st -> rt_nodes st = es1 ++ c :: es2 -> iv_wf c -> lo <= sn_start c -> sn_end c <= hi ->
  removed m st lo hi m
    (mk_range_tree (RB_REMOVE (rt_head st) (sn_addr c)) (rt_count st ⊟ 1) (rt_max st)).
Proof.
  intros Hwf Heq Hc H1 H2. pose proof (iv_carve_all lo hi c Hc H1 H2) as Hcv.
  destruct (rt_replace m m st es1 c [] es2 lo hi (rt_count st ⊟ 1) Hwf Heq Hcv) as [Hw He];
    [lia|done|constructor|simpl; f_equal; lia|]. simpl in Hw, He. split; [lia|done|done|done| | |].
  - intros b Hb. unfold rt_lookup. rewrite He Heq.
    apply (iv_carve_lookup_app lo hi es1 c [] es2 b Hcv Hb).
  - intros b v. unfold rt_lookup. rewrite He Heq.
    apply (iv_carve_sub_app lo hi es1 c [] es2 b v); [|done]. rewrite -Heq. apply Hwf.
  - rewrite He Heq. apply (iv_carve_conflicts lo hi es1 c [] es2 Hcv).
Qed.

(** The range of the node is changed in place. *)
Lemma removed_part m st f es1 c es2 lo hi :
  rt_wf m st -> rt_nodes st = es1 ++ c :: es2 -> sn_addr (f c) = sn_addr c ->
  iv_carve lo hi c [f c] ->
  removed m st lo hi m
    (mk_range_tree (rb_update (sn_addr c) f (rt_head st)) (rt_count st) (rt_max st)).
Proof.
  intros Hwf Heq Ha Hcv.
  pose proof (iv_carve_wf _ _ _ _ Hcv) as [(_ & _ & Hle) _]%Forall_cons.
  destruct (rt_update m st f es1 c es2 Hwf Heq Ha) as [Hw He].
  { apply (iv_carve_sorted_app lo hi es1 c [f c] es2); [|done]. rewrite -Heq. apply Hwf. }
  { done. }
  split; [lia|done|done|done| | |].
  - intros b Hb. unfold rt_lookup. rewrite He Heq.
    apply (iv_carve_lookup_app lo hi es1 c [f c] es2 b Hcv Hb).
  - intros b v. unfold rt_lookup. rewrite He Heq.
    apply (iv_carve_sub_app lo hi es1 c [f c] es2 b v); [|done]. rewrite -Heq. apply Hwf.
  - rewrite He Heq. apply (iv_carve_conflicts lo hi es1 c [f c] es2 Hcv).
Qed.

(** A node that spans the whole range: what is left of it before the range
    stays in the tree while the part after it is added. *)
Lemma removed_before m st es1 c es2 lo hi :
  rt_wf m st -> rt_nodes st = es1 ++ c :: es2 -> valid_range lo hi ->
  sn_start c < lo -> hi < sn_end c ->
  let st1 := mk_range_tree (rb_update (sn_addr c) (sn_set_end (lo ⊟ 1)) (rt_head st))
               (rt_count st) (rt_max st) in
  rt_wf m st1 /\
  (forall b, ~ (lo <= b <= sn_end c) -> rt_lookup st1 b = rt_lookup st b) /\
  (forall b, lo <= b <= sn_end c -> rt_lookup st1 b = None).
Proof.
  intros Hwf Heq [Hr1 Hr2] H1 H2. pose proof (iv_tree_sorted _ _ (rt_wf_tree _ _ Hwf)) as Hs.
  fold (rt_nodes st) in Hs. rewrite Heq in Hs.
  pose proof Hs as (_ & [Hc1 Hc2] & _ & _)%iv_sorted_mid. simpl in Hc1, Hc2.
  rewrite (u64_small (lo - 1)); first ulia.
  assert (iv_carve lo (sn_end c) c [sn_set_end (lo - 1) c]) as Hcv.
  { apply iv_carve_one; simpl; try lia; try done; split; simpl; lia. }
  destruct (removed_part m st (sn_set_end (lo - 1)) es1 c es2 _ _ Hwf Heq eq_refl Hcv)
    as [_ _ Hw _ Hout _ _].
  destruct (rt_update m st (sn_set_end (lo - 1)) es1 c es2 Hwf Heq) as [_ He]; [done| |simpl; lia|].
  { by apply (iv_carve_sorted_app _ _ es1 c [_] es2 Hs Hcv). }
  split_and!; [done|done|]. intros b Hb. unfold rt_lookup. rewrite He.
  rewrite iv_lookup_mid.
  { by apply (iv_carve_sorted_app _ _ es1 c [_] es2 Hs Hcv). }
  rewrite (proj2 (iv_covers_false _ b)) //=; [lia|].
  apply (iv_lookup_others es1 c es2); simpl; [done|lia].
Qed.

(** The longest case of the loop body. *)
Lemma removed_split m st es1 c es2 lo hi :
  rt_wf m st -> rt_nodes st = es1 ++ c :: es2 -> valid_range lo hi ->
  sn_start c < lo -> hi < sn_end c ->
  exists m' st' rc,
    seg_tree_add m (mk_range_tree (rb_update (sn_addr c) (sn_set_end (lo ⊟ 1)) (rt_head st))
                      (rt_count st) (rt_max st))
      (hi ⊞ 1) (sn_end c) (sn_ptr c ⊞ (hi ⊞ 1 - sn_start c)) (sn_client_id c) = Some (m', st', rc) /\
    mem_next m <= mem_next m' /\ rt_wf m' st' /\ rt_max st' = rt_max st /\
    (rc = 0 \/ rc = ENOMEM) /\ (mem_plenty m -> rc = 0) /\
    (forall b v, rt_lookup st' b = Some v -> rt_lookup st b = Some v) /\
    (rc = 0 -> removed m st lo hi m' st').
Proof.
  intros Hwf Heq Hr H1 H2.
  destruct (removed_before m st es1 c es2 lo hi Hwf Heq Hr H1 H2) as (Hw1 & Hout1 & Hin1).
  set (st1 := mk_range_tree _ _ _) in *. destruct Hr as [Hr1 Hr2].
  assert (c ∈ rt_nodes st) as Hin by (rewrite Heq; set_solver).
  pose proof (iv_tree_sorted _ _ (rt_wf_tree _ _ Hwf)) as Hs. fold (rt_nodes st) in Hs.
  pose proof (proj1 Hs) as Hwc. eapply Forall_forall in Hwc as [Hc1 Hc2]; [|exact Hin]. simpl in Hc1, Hc2.
  pose proof (rt_wf_max _ _ Hwf) as Hmx. eapply Forall_forall in Hmx; [|exact Hin]. simpl in Hmx.
  rewrite (u64_small (hi + 1)); first ulia.
  destruct (seg_tree_add_post m st1 (hi + 1) (sn_end c) (sn_ptr c ⊞ (hi + 1 - sn_start c)) (sn_client_id c))
    as (m' & st' & rc & Hadd & [Hn Hrc Hpl Hw Hm Hout Hsub Hins _]); [done|split; lia|].
  assert (forall b, hi < b <= sn_end c -> rt_lookup st b = Some (sn_ptr c ⊞ (b - sn_start c))) as Hold.
  { intros b Hb. apply (iv_lookup_elem _ c b Hs Hin). simpl. lia. }
  assert (forall b, rc = 0 -> hi < b <= sn_end c -> rt_lookup st' b = rt_lookup st b) as Hafter.
  { intros b H0 Hb. rewrite Hins //; [lia|]. rewrite Hold //. f_equal. apply u64_shift. lia. }
  assert (forall b v, rt_lookup st' b = Some v -> rt_lookup st b = Some v) as Hsub'.
  { intros b v Hb. destruct (decide (lo <= b <= sn_end c)) as [Hb'|Hb'].
    - destruct (decide (b <= hi)); [rewrite Hout // in Hb; [lia|]; by rewrite Hin1 in Hb|].
      destruct Hrc as [-> | ->]; [rewrite -Hafter //; lia|].
      apply Hsub in Hb; [|done]. by rewrite Hin1 in Hb.
    - rewrite Hout in Hb; [lia|]. by rewrite Hout1 in Hb. }
  exists m', st', rc. split_and!; [done|done|done| |done|by intros; apply Hpl|done|].
  - rewrite Hm /=. destruct (rc =? 0); lia.
  - intros ->. split; [done|by apply Hpl|done|rewrite Hm /=; lia| |done|].
    + intros b Hb. destruct (decide (hi < b <= sn_end c)); [by apply Hafter|].
      rewrite Hout; [lia|]. apply Hout1. lia.
    + assert (iv_conflicts lo hi (rt_nodes st') = 0%nat) as ->.
      { apply iv_conflicts_zero, iv_unmapped; [apply Hw| |lia]. intros b Hb.
        change (rt_lookup st' b = None). rewrite Hout; [lia|]. apply Hin1. lia. }
      apply (iv_conflicts_pos _ _ _ c Hin); simpl; lia.
Qed.

(** [pl] says that no allocation fails. *)
Record remove_post (pl : Prop) (m : mem) (st : seg_tree) (lo hi : Z)
    (m' : mem) (st' : seg_tree) (rc : Z) : Prop := {
  rp_next : mem_next m <= mem_next m';
  rp_rc : rc = 0 \/ rc = ENOMEM;
  rp_wf : rt_wf m' st';
  rp_max : rt_max st' = rt_max st;
  rp_sub b v : rt_lookup st' b = Some v -> rt_lookup st b = Some v;
  rp_outside b : rc = 0 -> ~ (lo <= b <= hi) -> rt_lookup st' b = rt_lookup st b;
  rp_inside : pl -> rc = 0 /\ forall b, lo <= b <= hi -> rt_lookup st' b = None;
}.

(** One pass followed by a conforming rest conforms. *)
Lemma remove_post_step pl m st lo hi m1 st1 m2 m' st' rc :
  removed m st lo hi m1 st1 -> mem_next m1 <= mem_next m2 ->
  remove_post pl m2 st1 lo hi m' st' rc -> remove_post pl m st lo hi m' st' rc.
Proof.
  intros [? ? ? ? Ho Hs ?] ? [? ? ? ? Hs' Ho' Hi']. split; [lia|done|done|congruence|auto| |done].
  intros b Hrc Hb. rewrite Ho' //. by apply Ho.
Qed.

Definition seg_tree_found (pl : Prop) st (lo hi : Z) (found : option seg_tree_node) : Prop :=
  found = List.find (iv_overlaps lo hi) (rt_nodes st) \/ found = None /\ ~ pl.

Lemma seg_tree_remove_done pl m st lo hi :
  rt_wf m st -> seg_tree_found pl st lo hi None -> remove_post pl m st lo hi m st 0.
Proof.
  intros Hwf Hf. split; try done; [by left|]. intros Hpl. split; [done|]. intros b Hb.
  destruct Hf as [Hf|[_ Hf]]; [|done]. by eapply iv_mapped_none.
Qed.

Lemma seg_tree_remove_loop_spec fuel pl m st lo hi found :
  (pl -> mem_plenty m) -> rt_wf m st -> valid_range lo hi -> seg_tree_found pl st lo hi found ->
  (iv_conflicts lo hi (rt_nodes st) <= fuel)%nat ->
  exists m' st' rc, seg_tree_remove_loop fuel m st lo hi found = Some (m', st', rc) /\
    remove_post pl m st lo hi m' st' rc.
Proof.
  revert m st found. induction fuel as [|fuel IH]; intros m st found Hpl Hwf Hr Hfound Hfuel;
    destruct found as [c|].
  2,4: by exists m, st, 0; split; [|apply seg_tree_remove_done].
  all: destruct Hfound as [Hf|[? _]]; [symmetry in Hf|done];
    apply find_some_split in Hf as (es1 & es2 & Heq & _ & Hov); unfold iv_overlaps in Hov; zbool;
    fold (rt_nodes st) in Heq; assert (c ∈ rt_nodes st) as Hin by (rewrite Heq; set_solver).
  { pose proof (iv_conflicts_pos lo hi (rt_nodes st) c Hin). lia. }
  pose proof (proj1 (iv_tree_sorted _ _ (rt_wf_tree _ _ Hwf))) as Hwc.
  eapply Forall_forall in Hwc as Hc; [|exact Hin]. pose proof Hc as [Hc1 Hc2].
  pose proof Hr as [Hr1 Hr2].
  assert (forall m1 st1, removed m st lo hi m1 st1 -> exists m' st' rc,
    (let '(m2, found') := seg_tree_find_nolock m1 st1 lo hi in
     seg_tree_remove_loop fuel m2 st1 lo hi found') = Some (m', st', rc) /\
    remove_post pl m st lo hi m' st' rc) as Hagain.
  { intros m1 st1 Hrm. pose proof Hrm as [? Hpl1 Hwf1 _ _ _ Hless].
    pose proof (seg_tree_find_post m1 st1 lo hi Hwf1) as Hfp.
    destruct (seg_tree_find_nolock m1 st1 lo hi) as [m2 found'].
    destruct Hfp as (Hn & Hpl' & Hf'); [ulia|].
    destruct (IH m2 st1 found') as (m' & st' & rc & Hloop & Hpost);
      [by auto|by eapply rt_wf_mono|done| |lia|].
    - destruct Hf' as [?|[? Hnp]]; [by left|right]. split; [done|]. by intros ?%Hpl%Hpl1.
    - exists m', st', rc. split; [done|]. by eapply remove_post_step. }
  simpl in *. destruct (lo <=? sn_start c) eqn:Hlt; destruct (sn_end c <=? hi) eqn:Hle; zbool.
  - apply Hagain. by apply (removed_whole m st es1 c es2).
  - rewrite (u64_small (hi + 1)); first ulia.
    apply Hagain. apply (removed_part m st _ es1 c es2); [done..|].
    apply iv_carve_one; simpl; try lia; [done|split; simpl; lia|]. intros b Hb. apply u64_shift. lia.
  - rewrite (u64_small (lo - 1)); first ulia.
    apply Hagain. apply (removed_part m st _ es1 c es2); [done..|].
    apply iv_carve_one; simpl; try lia; done || (split; simpl; lia).
  - destruct (removed_split m st es1 c es2 lo hi Hwf Heq Hr) as
      (m' & st' & rc & -> & Hn & Hw & Hm & Hrc & Hpl' & Hsub & Hrm); [lia..|].
    destruct Hrc as [-> | ->]; simpl; [by apply Hagain, Hrm|].
    eexists _, _, _. split; [done|]. split; [done|by right|done|done|done|done|].
    intros ?%Hpl%Hpl'. done.
Qed.

Lemma seg_tree_remove_post m st lo hi :
  rt_wf m st -> valid_range lo hi ->
  exists m' st' rc, seg_tree_remove m st lo hi = Some (m', st', rc) /\
    remove_post (mem_plenty m) m st lo hi m' st' rc.
Proof.
  intros Hwf Hr. unfold seg_tree_remove.
  pose proof (seg_tree_find_post m st lo hi Hwf) as Hfp.
  destruct (seg_tree_find_nolock m st lo hi) as [m1 found].
  destruct Hfp as (Hn & Hpl & Hf); [destruct Hr; ulia|].
  destruct (seg_tree_remove_loop_spec (seg_tree_fuel st) (mem_plenty m) m1 st lo hi found)
    as (m' & st' & rc & Hloop & Hpost); [done|by eapply rt_wf_mono|done|done| |].
  - pose proof (iv_conflicts_bound lo hi (rt_nodes st)). unfold seg_tree_fuel, rt_nodes in *. lia.
  - eexists _, _, _. split; [done|]. destruct Hpost. split; try done. lia.
Qed.

(** ** Iterating and clearing *)

Lemma seg_tree_iter_first st : seg_tree_iter st None = head (rt_nodes st).
Proof. apply RB_MIN_spec. Qed.

Lemma seg_tree_iter_next m st es1 n es2 :
  iv_tree m (rt_head st) -> rt_nodes st = es1 ++ n :: es2 -> seg_tree_iter st (Some n) = head es2.
Proof.
  intros Ht Heq. simpl. rewrite (iv_find_self m _ es1 n es2 Ht Heq).
  exact (RB_NEXT_spec _ es1 n es2 (iv_tree_nodup _ _ Ht) Heq).
Qed.

Lemma seg_tree_walk_from fuel m st es1 n es2 :
  iv_tree m (rt_head st) -> rt_nodes st = es1 ++ n :: es2 -> (length es2 < fuel)%nat ->
  seg_tree_walk fuel st (Some n) = Some es2.
Proof.
  intros Hwf. revert es1 n es2.
  induction fuel as [|fuel IH]; intros es1 n es2 Heq Hlen; [lia|]. cbn [seg_tree_walk].
  rewrite (seg_tree_iter_next m st es1 n es2 Hwf Heq). destruct es2 as [|n' es2]; [done|]. simpl.
  simpl in Hlen. rewrite (IH (es1 ++ [n]) n' es2) //; [by rewrite -app_assoc|lia].
Qed.

Lemma seg_tree_clear_loop_spec fuel m st n es2 :
  iv_tree m (rt_head st) -> rt_nodes st = n :: es2 -> (length es2 < fuel)%nat ->
  exists st', seg_tree_clear_loop fuel st (Some n) (Some n) = Some st' /\ rt_head st' = RB_NULL.
Proof.
  revert st n es2. induction fuel as [|fuel IH]; intros st n es2 Ht Heq Hlen; [lia|].
  cbn [seg_tree_clear_loop]. rewrite (seg_tree_iter_next m st [] n es2 Ht Heq).
  destruct (iv_remove m (rt_head st) [] n es2 Ht Heq) as [He Ht'].
  destruct es2 as [|n' es2]; simpl.
  - eexists. split; [done|]. by apply rb_elems_nil.
  - apply (IH _ n' es2); [done|done|simpl in Hlen; lia].
Qed.

Lemma seg_tree_clear_spec m st :
  rt_wf m st ->
  seg_tree_clear st = Some (mk_range_tree RB_NULL 0 (if RB_EMPTY (rt_head st) then rt_max st else 0)).
Proof.
  intros [Ht Hc _]. unfold seg_tree_clear. destruct (RB_EMPTY (rt_head st)) eqn:He.
  { apply RB_EMPTY_spec in He. rewrite /rt_nodes He in Hc. apply rb_elems_nil in He.
    destruct st as [t cnt mx]; simpl in *; subst. done. }
  unfold seg_tree_fuel. cbn [seg_tree_clear_loop]. rewrite seg_tree_iter_first.
  destruct (rt_nodes st) as [|n es2] eqn:Heq.
  { by rewrite (proj2 (RB_EMPTY_spec _) Heq) in He. }
  destruct (seg_tree_clear_loop_spec (2 * length (rb_elems (rt_head st))) m st n es2)
    as (st' & Hloop & Hnull); [done|done| |].
  - fold (rt_nodes st). rewrite Heq. simpl. lia.
  - cbn [head]. by rewrite Hloop Hnull.
Qed.

(** ** Reachable trees *)

(** Every state of a tree between [seg_tree_init] and [seg_tree_destroy],
    with the state of the allocator. *)
Inductive seg_tree_reach : mem -> seg_tree -> Prop :=
  | reach_init m : seg_tree_reach m seg_tree_init
  | reach_add m st lo hi ptr cl m' st' rc :
      seg_tree_reach m st -> valid_range lo hi ->
      seg_tree_add m st lo hi ptr cl = Some (m', st', rc) -> seg_tree_reach m' st'
  | reach_remove m st lo hi m' st' rc :
      seg_tree_reach m st -> valid_range lo hi ->
      seg_tree_remove m st lo hi = Some (m', st', rc) -> seg_tree_reach m' st'
  | reach_find m st lo hi m' r :
      seg_tree_reach m st -> is_u64 lo ->
      seg_tree_find m st lo hi = (m', r) -> seg_tree_reach m' st
  | reach_clear m st st' :
      seg_tree_reach m st -> seg_tree_clear st = Some st' -> seg_tree_reach m st'.

Lemma seg_tree_reach_wf m st : seg_tree_reach m st -> rt_wf m st.
Proof.
  induction 1 as [m|m st lo hi ptr cl m' st' rc _ IH Hr Hop|m st lo hi m' st' rc _ IH Hr Hop
    |m st lo hi m' r _ IH Hr Hop|m st st' _ IH Hop].
  - split; [apply iv_tree_null|done|constructor].
  - destruct (seg_tree_add_post m st lo hi ptr cl IH Hr) as (? & ? & ? & Hop' & [? ? ? Hw]).
    congruence.
  - destruct (seg_tree_remove_post m st lo hi IH Hr) as (? & ? & ? & Hop' & [? ? Hw]).
    congruence.
  - pose proof (seg_tree_find_post m st lo hi IH Hr) as Hf. unfold seg_tree_find in Hop.
    rewrite Hop in Hf. destruct Hf as (? & _ & _). by eapply rt_wf_mono.
  - rewrite (seg_tree_clear_spec m st IH) in Hop. injection Hop as <-.
    split; [apply iv_tree_null|done|constructor].
Qed.

(** ** Properties *)

(** C16. Last writer wins.  On every reachable tree, while allocations succeed,
    [seg_tree_add] returns 0 and the byte map afterwards is the old one with
    the offsets of the new range redirected to its log position: splitting,
    deleting and coalescing change no other byte. *)
Theorem seg_tree_add_last_write m st lo hi ptr cl :
  seg_tree_reach m st -> valid_range lo hi -> mem_plenty m ->
  exists m' st', seg_tree_add m st lo hi ptr cl = Some (m', st', 0) /\
    forall b, rt_lookup st' b =
      if (lo <=? b) && (b <=? hi) then Some (ptr ⊞ (b - lo)) else rt_lookup st b.
Proof.
  intros Hreach Hr Hpl.
  destruct (seg_tree_add_post m st lo hi ptr cl (seg_tree_reach_wf _ _ Hreach) Hr)
    as (m' & st' & rc & Hadd & Hp).
  destruct (ap_plenty _ _ _ _ _ _ _ _ _ Hp Hpl) as [-> _]. exists m', st'. split; [done|].
  intros b. apply if_in_range.
  - by apply (ap_inside _ _ _ _ _ _ _ _ _ Hp).
  - by apply (ap_outside _ _ _ _ _ _ _ _ _ Hp).
Qed.

(** A failed [seg_tree_add].  Whatever allocations fail, the call ends
    (the conflict loop runs at most [2 * count + 1] times) with 0 or ENOMEM;
    after ENOMEM no byte outside the range has changed, none is redirected,
    and the maximum offset is the old one. *)
Theorem seg_tree_add_failure m st lo hi ptr cl :
  seg_tree_reach m st -> valid_range lo hi ->
  exists m' st' rc, seg_tree_add m st lo hi ptr cl = Some (m', st', rc) /\
    (rc = 0 \/ rc = ENOMEM) /\
    (rc = ENOMEM -> seg_tree_max st' = seg_tree_max st /\ forall b,
      (rt_lookup st' b = rt_lookup st b \/ lo <= b <= hi /\ rt_lookup st' b = None)).
Proof.
  intros Hreach Hr.
  destruct (seg_tree_add_post m st lo hi ptr cl (seg_tree_reach_wf _ _ Hreach) Hr)
    as (m' & st' & rc & Hadd & Hp).
  exists m', st', rc. split_and!; [done|apply Hp|]. intros ->.
  split; [by rewrite /seg_tree_max (ap_max _ _ _ _ _ _ _ _ _ Hp)|]. intros b.
  destruct (decide (lo <= b <= hi)) as [Hb|Hb]; [|left; by apply (ap_outside _ _ _ _ _ _ _ _ _ Hp)].
  destruct (rt_lookup st' b) as [v|] eqn:Hl; [left|by right].
  symmetry. by apply (ap_sub _ _ _ _ _ _ _ _ _ Hp).
Qed.

(** [seg_tree_remove] unmaps exactly the given range: it terminates,
    returns 0, and every byte outside keeps its log position, also when one
    node spans the range and is split around it. *)
Theorem seg_tree_remove_exact m st lo hi :
  seg_tree_reach m st -> valid_range lo hi -> mem_plenty m ->
  exists m' st', seg_tree_remove m st lo hi = Some (m', st', 0) /\
    forall b, rt_lookup st' b =
      if (lo <=? b) && (b <=? hi) then None else rt_lookup st b.
Proof.
  intros Hreach Hr Hpl.
  destruct (seg_tree_remove_post m st lo hi (seg_tree_reach_wf _ _ Hreach) Hr)
    as (m' & st' & rc & Hrm & Hp).
  destruct (rp_inside _ _ _ _ _ _ _ _ Hp Hpl) as [-> Hin]. exists m', st'. split; [done|].
  intros b. apply if_in_range; [apply Hin|by apply (rp_outside _ _ _ _ _ _ _ _ Hp)].
Qed.

(** The invariant of every reachable tree: the nodes are ranges of
    offsets, sorted and pairwise disjoint, [count] is their number, [max]
    bounds their ends, and the tree is balanced, so that a search visits at
    most [2 * log2 (n + 1)] nodes. *)
Theorem seg_tree_invariant m st :
  seg_tree_reach m st ->
  iv_sorted (rt_nodes st) /\
  seg_tree_count st = u64 (Z.of_nat (length (rt_nodes st))) /\
  Forall (fun n => sn_end n <= seg_tree_max st) (rt_nodes st) /\
  (rb_depth (rt_head st) <= 2 * Nat.log2 (S (length (rt_nodes st))))%nat.
Proof.
  intros [Ht Hc Hx]%seg_tree_reach_wf. split_and!; [apply Ht|done|done|].
  apply rb_valid_depth, Ht.
Qed.

(** [seg_tree_find] returns the overlapping node with the lowest offset,
    and the null pointer exactly when nothing overlaps. *)
Theorem seg_tree_find_first m st lo hi :
  seg_tree_reach m st -> is_u64 lo -> mem_plenty m ->
  (seg_tree_find m st lo hi).2 = List.find (iv_overlaps lo hi) (rt_nodes st).
Proof.
  intros Hreach Hlo Hpl.
  pose proof (seg_tree_find_post m st lo hi (seg_tree_reach_wf _ _ Hreach) Hlo) as Hf.
  unfold seg_tree_find. destruct (seg_tree_find_nolock m st lo hi) as [m' r]. simpl.
  by destruct Hf as (_ & _ & [?|[_ ?]]).
Qed.

(** The iteration [while ((node = seg_tree_iter(tree, node)))] visits every
    node once, in the order of the offsets, and ends. *)
Theorem seg_tree_walk_all m st :
  seg_tree_reach m st ->
  seg_tree_walk (S (length (rt_nodes st))) st None = Some (rt_nodes st).
Proof.
  intros [Ht _ _]%seg_tree_reach_wf. cbn [seg_tree_walk]. rewrite seg_tree_iter_first.
  destruct (rt_nodes st) as [|n es] eqn:Heq; [done|]. cbn [head].
  by rewrite (seg_tree_walk_from _ m st [] n es Ht Heq); [simpl; lia|].
Qed.

(** [seg_tree_clear] terminates and leaves the tree of [seg_tree_init],
    except that an already empty tree keeps its [max]. *)
Theorem seg_tree_clear_init m st :
  seg_tree_reach m st ->
  seg_tree_clear st = Some (mk_range_tree RB_NULL 0 (if RB_EMPTY (rt_head st) then seg_tree_max st else 0)).
Proof. intros Hr%seg_tree_reach_wf. by apply (seg_tree_clear_spec m). Qed.

(** Ownership with a single writer.  While every node of the tree and the
    caller carry one client id, as in a client's own tree of local writes,
    every node still carries it after the call. *)
Theorem seg_tree_add_owner m st lo hi ptr cl m' st' rc :
  seg_tree_reach m st -> valid_range lo hi ->
  Forall (fun n => sn_client_id n = cl) (rt_nodes st) ->
  seg_tree_add m st lo hi ptr cl = Some (m', st', rc) ->
  Forall (fun n => sn_client_id n = cl) (rt_nodes st').
Proof.
  intros Hreach Hr Hall Hadd.
  destruct (seg_tree_add_post m st lo hi ptr cl (seg_tree_reach_wf _ _ Hreach) Hr)
    as (? & ? & ? & Hadd' & Hp).
  rewrite Hadd' in Hadd. injection Hadd as -> -> ->. apply Forall_forall.
  intros e [?|(e' & He' & ->)]%(ap_owner _ _ _ _ _ _ _ _ _ Hp); [done|].
  rewrite Forall_forall in Hall. by apply Hall.
Qed.

(** *** A concrete tree: a write, a write over its middle, and one elsewhere *)

Definition seg_example_writes (m : mem) : option (mem * seg_tree * Z) :=
  match seg_tree_add m seg_tree_init 0 99 1000 1 with
  | Some (m1, st1, _) =>
      match seg_tree_add m1 st1 40 59 5000 1 with
      | Some (m2, st2, _) => seg_tree_add m2 st2 200 209 7000 1
      | None => None
      end
  | None => None
  end.

Lemma seg_example_writes_reach m m' st rc :
  seg_example_writes m = Some (m', st, rc) -> seg_tree_reach m' st.
Proof.
  unfold seg_example_writes.
  destruct (seg_tree_add m _ _ _ _ _) as [[[m1 st1] rc1]|] eqn:H1; [|done].
  destruct (seg_tree_add m1 _ _ _ _ _) as [[[m2 st2] rc2]|] eqn:H2; [|done]. intros H3.
  refine (reach_add _ _ _ _ _ _ _ _ _ _ _ H3); [|split; [lia|by vm_compute]].
  refine (reach_add _ _ _ _ _ _ _ _ _ _ _ H2); [|split; [lia|by vm_compute]].
  refine (reach_add _ _ _ _ _ _ _ _ _ _ _ H1); [|split; [lia|by vm_compute]]. constructor.
Qed.

Definition seg_example_tree : seg_tree := Eval vm_compute in
  match seg_example_writes (Mem 1 []) with Some (_, st, _) => st | None => seg_tree_init end.

(** [fs] says which of the following allocations fail. *)
Lemma seg_example_reach fs : seg_tree_reach (Mem 7 fs) seg_example_tree.
Proof. apply (seg_example_writes_reach (Mem 1 (repeat false 6 ++ fs)) _ _ 0). by vm_compute. Qed.

Lemma seg_tree_add_last_write_witness :
  exists m' st', seg_tree_add (Mem 7 []) seg_example_tree 30 69 9000 1 = Some (m', st', 0) /\
    rt_lookup st' 29 = Some 1029 /\ rt_lookup st' 30 = Some 9000 /\ rt_lookup st' 70 = Some 1070.
Proof.
  destruct (seg_tree_add_last_write (Mem 7 []) seg_example_tree 30 69 9000 1)
    as (m' & st' & Hadd & Hl); [apply seg_example_reach|split; [lia|by vm_compute]|constructor|].
  exists m', st'. split; [exact Hadd|]. rewrite !Hl. split_and!; by vm_compute.
Defined.

Lemma seg_tree_add_failure_witness :
  exists m' st', seg_tree_add (Mem 7 [false; true]) seg_example_tree 30 69 9000 1
    = Some (m', st', ENOMEM) /\ seg_tree_max st' = 209.
Proof.
  destruct (seg_tree_add_failure (Mem 7 [false; true]) seg_example_tree 30 69 9000 1)
    as (m' & st' & rc & Hadd & _ & Hl); [apply seg_example_reach|split; [lia|by vm_compute]|].
  assert (rc = ENOMEM) as -> by (vm_compute in Hadd; by injection Hadd).
  exists m', st'. split; [exact Hadd|]. by rewrite (proj1 (Hl eq_refl)).
Defined.

Lemma seg_tree_remove_exact_witness :
  exists m' st', seg_tree_remove (Mem 7 []) seg_example_tree 10 19 = Some (m', st', 0) /\
    rt_lookup st' 9 = Some 1009 /\ rt_lookup st' 10 = None /\ rt_lookup st' 20 = Some 1020.
Proof.
  destruct (seg_tree_remove_exact (Mem 7 []) seg_example_tree 10 19)
    as (m' & st' & Hrm & Hl); [apply seg_example_reach|split; [lia|by vm_compute]|constructor|].
  exists m', st'. split; [exact Hrm|]. rewrite !Hl. split_and!; by vm_compute.
Defined.

Lemma seg_tree_invariant_witness : (rb_depth (rt_head seg_example_tree) <= 4)%nat.
Proof. apply (seg_tree_invariant (Mem 7 []) seg_example_tree (seg_example_reach [])). Defined.

Lemma seg_tree_find_first_witness :
  (seg_tree_find (Mem 7 []) seg_example_tree 35 45).2 = Some (SegNode 3 0 39 1000 1).
Proof.
  rewrite (seg_tree_find_first (Mem 7 []) seg_example_tree 35 45 (seg_example_reach []));
    [by vm_compute|constructor|by vm_compute].
Defined.

Lemma seg_tree_walk_all_witness :
  seg_tree_walk 5 seg_example_tree None = Some (rt_nodes seg_example_tree).
Proof. exact (seg_tree_walk_all (Mem 7 []) seg_example_tree (seg_example_reach [])). Defined.

Lemma seg_tree_clear_init_witness : seg_tree_clear seg_example_tree = Some seg_tree_init.
Proof. exact (seg_tree_clear_init (Mem 7 []) seg_example_tree (seg_example_reach [])). Defined.

Lemma seg_tree_add_owner_witness :
  exists m' st', seg_tree_add (Mem 7 []) seg_example_tree 30 69 9000 1 = Some (m', st', 0) /\
    Forall (fun n => sn_client_id n = 1) (rt_nodes st').
Proof.
  destruct (seg_tree_add (Mem 7 []) seg_example_tree 30 69 9000 1) as [[[m' st'] rc]|] eqn:Hadd;
    [|by vm_compute in Hadd].
  pose proof Hadd as Hrc. vm_compute in Hrc. assert (rc = 0) as -> by by injection Hrc.
  exists m', st'. split; [done|].
  refine (seg_tree_add_owner _ _ _ _ _ _ _ _ _ (seg_example_reach []) _ _ Hadd);
    [split; [lia|by vm_compute]|by repeat constructor].
Defined.

(** *** Where the code departs from its intent *)

(** The parts that are left of another client's range are given the id of the
    client that overwrites its middle: bytes 0 to 3 of client 1's log are then
    attributed to client 2. *)
Theorem seg_tree_add_changes_owner :
  match seg_tree_add (Mem 1 []) seg_tree_init 0 9 100 1 with
  | Some (m1, st1, _) =>
      match seg_tree_add m1 st1 4 5 700 2 with
      | Some (_, st2, _) => (fun n => (sn_start n, sn_end n, sn_ptr n, sn_client_id n)) <$> rt_nodes st2
      | None => []
      end
  | None => []
  end = [(0, 3, 100, 2); (4, 5, 700, 2); (6, 9, 106, 2)].
Proof. by vm_compute. Qed.

(** Ranges of two clients that happen to be contiguous in their respective
    logs are merged into one range of the first client. *)
Theorem seg_tree_add_merges_owners :
  match seg_tree_add (Mem 1 []) seg_tree_init 0 9 100 1 with
  | Some (m1, st1, _) =>
      match seg_tree_add m1 st1 10 19 110 2 with
      | Some (_, st2, _) => (fun n => (sn_start n, sn_end n, sn_ptr n, sn_client_id n)) <$> rt_nodes st2
      | None => []
      end
  | None => []
  end = [(0, 19, 100, 1)].
Proof. by vm_compute. Qed.

(** After the last range is removed, [seg_tree_max] still reports its end, and
    clearing the (empty) tree does not reset it. *)
Theorem seg_tree_max_stale :
  match seg_tree_add (Mem 1 []) seg_tree_init 0 9 100 1 with
  | Some (m1, st1, _) =>
      match seg_tree_remove m1 st1 0 9 with
      | Some (_, st2, _) =>
          (length (rt_nodes st2), seg_tree_max st2, seg_tree_max <$> seg_tree_clear st2)
      | None => (1%nat, 0, None)
      end
  | None => (1%nat, 0, None)
  end = (0%nat, 9, Some 9).
Proof. by vm_compute. Qed.
