(* ===== verification/ExtentTree.v ===== *)
(** * The server's extent tree ([server/src/extent_tree.c])

    For every file a server keeps the extents that the clients have synced:
    disjoint ranges of file offsets, each with the log that holds the data
    (server rank, application id, client id) and the position in that log.
    The tree is updated as extents arrive, truncated with the file, and turned
    into lists of chunk reads when the file is read.

    The state is [extent_tree]; there is one definition per function.  As in
    the segment tree, the lock only serialises the operations. *)

From S2P Require Import Prelude.
From S2P Require Import RbTree.
From S2P Require Import Extents.
From S2P Require Import RangeTree.

(** ** State *)

Record extent_metadata := ExtentMd {
  em_start : Z;      (* starting logical offset of the extent *)
  em_end : Z;        (* ending logical offset of the extent *)
  em_log_pos : Z;    (* physical offset of data in log *)
  em_svr_rank : Z;   (* rank of server hosting the log *)
  em_app_id : Z;     (* application id (namespace) of client *)
  em_cli_id : Z;     (* rank (on host server) of client *)
}.

Record extent_tree_node := ExtNode {
  en_addr : Z;       (* the node's address *)
  en_extent : extent_metadata;
}.

Definition extent_length (meta : extent_metadata) : Z := 1 ⊞ (em_end meta - em_start meta).

Definition etn_compare_func (node1 node2 : extent_tree_node) : Z :=
  if em_start (en_extent node1) >? em_end (en_extent node2) then 1
  else if em_end (en_extent node1) <? em_start (en_extent node2) then -1
  else 0.

#[export] Instance extent_tree_node_rb : RbNode extent_tree_node :=
  { rb_addr := en_addr; rb_cmp := etn_compare_func }.

(** Where a byte is stored: the log and the position in it. *)
Record extent_loc := ExtentLoc {
  el_svr_rank : Z;
  el_app_id : Z;
  el_cli_id : Z;
  el_log_pos : Z;
}.

Definition extent_byte_loc (e : extent_metadata) (b : Z) : extent_loc :=
  ExtentLoc (em_svr_rank e) (em_app_id e) (em_cli_id e) (em_log_pos e ⊞ (b - em_start e)).

#[export] Instance extent_tree_node_interval : Interval extent_tree_node extent_loc :=
  { iv_start n := em_start (en_extent n); iv_end n := em_end (en_extent n);
    iv_loc n b := extent_byte_loc (en_extent n) b }.

#[export] Instance extent_tree_node_cmp : IntervalNode extent_tree_node extent_loc.
Proof. done. Qed.

(** [struct extent_tree]: head, count and max. *)
Definition extent_tree : Type := range_tree extent_tree_node.

(** [chunk_read_req_t] *)
Record chunk_read_req := ChunkReq {
  cr_gfid : Z;
  cr_nbytes : Z;         (* size of data chunk *)
  cr_offset : Z;         (* file offset *)
  cr_log_offset : Z;     (* remote log offset *)
  cr_log_app_id : Z;     (* remote log application id *)
  cr_log_client_id : Z;  (* remote log client id *)
  cr_rank : Z;           (* remote server rank who holds data *)
}.

(** ** Operations *)

Definition extent_tree_init : extent_tree := mk_range_tree RB_NULL 0 0.

Definition extent_tree_node_alloc (m : mem) (extent : extent_metadata)
    : option extent_tree_node * mem :=
  match calloc m with
  | (Some a, m') => (Some (ExtNode a extent), m')
  | (None, m') => (None, m')
  end.

(** [None] stands for the return value 1. *)
Definition get_non_overlapping_range (start1 end1 start2 end2 : Z) : option (Z * Z) :=
  if start1 <? start2 then Some (start1, start2 ⊟ 1)
  else if end1 >? end2 then Some (end2 ⊞ 1, end1)
  else None.

(** The part [new_start..new_end] of the extent [c], in the same log. *)
Definition extent_part (c : extent_metadata) (new_start new_end : Z) : extent_metadata :=
  ExtentMd new_start new_end (em_log_pos c ⊞ (new_start - em_start c))
    (em_svr_rank c) (em_app_id c) (em_cli_id c).

(** The body of the [while] loop of [extent_tree_add]. *)
Definition extent_tree_resolve (m : mem) (tree : extent_tree) (conflict : extent_tree_node)
    (extent : extent_metadata) : (mem * Z) + (mem * extent_tree) :=
  let c := en_extent conflict in
  match get_non_overlapping_range (em_start c) (em_end c) (em_start extent) (em_end extent) with
  | None =>
      inr (m, mk_range_tree (RB_REMOVE (rt_head tree) (en_addr conflict)) (rt_count tree ⊟ 1)
                (rt_max tree))
  | Some (new_start, new_end) =>
      match extent_tree_node_alloc m (extent_part c new_start new_end) with
      | (None, m1) => inl (m1, ENOMEM)
      | (Some non_overlap, m1) =>
          let insert_parts m2 conflict_tail :=
            let t1 := RB_REMOVE (rt_head tree) (en_addr conflict) in
            let c1 := rt_count tree ⊟ 1 in
            let t2 := (RB_INSERT t1 non_overlap).2 in
            let c2 := c1 ⊞ 1 in
            match conflict_tail with
            | None => inr (m2, mk_range_tree t2 c2 (rt_max tree))
            | Some tail => inr (m2, mk_range_tree (RB_INSERT t2 tail).2 (c2 ⊞ 1) (rt_max tree))
            end in
          if new_end <? em_end c then
            match extent_tree_node_alloc m1 (extent_part c (new_end ⊞ 1) (em_end c)) with
            | (None, m2) => inl (m2, ENOMEM)
            | (Some tail, m2) => insert_parts m2 (Some tail)
            end
          else insert_parts m1 None
      end
  end.

Definition extent_tree_add_loop (fuel : nat) (m : mem) (tree : extent_tree)
    (node : extent_tree_node) (extent : extent_metadata) : option (mem * extent_tree * Z) :=
  insert_loop (fun m tree conflict => extent_tree_resolve m tree conflict extent) fuel m tree node.

Definition en_set_end (e : Z) (n : extent_tree_node) : extent_tree_node :=
  let x := en_extent n in
  ExtNode (en_addr n)
    (ExtentMd (em_start x) e (em_log_pos x) (em_svr_rank x) (em_app_id x) (em_cli_id x)).

(** Whether [next] continues [prev] in the same log: the conditions under
    which the code coalesces two extents that are adjacent in the file. *)
Definition extent_contiguous (prev next : extent_metadata) : bool :=
  (em_svr_rank prev =? em_svr_rank next) && (em_cli_id prev =? em_cli_id next) &&
  (em_app_id prev =? em_app_id next) &&
  (em_log_pos prev ⊞ extent_length prev =? em_log_pos next).

Definition extent_tree_coalesce_prev (tree : extent_tree) (target : extent_tree_node)
    : extent_tree * extent_tree_node :=
  match RB_PREV (rt_head tree) (en_addr target) with
  | Some prev =>
      if em_end (en_extent prev) ⊞ 1 =? em_start (en_extent target) then
        if extent_contiguous (en_extent prev) (en_extent target) then
          let t1 := rb_update (en_addr prev) (en_set_end (em_end (en_extent target))) (rt_head tree) in
          (mk_range_tree (RB_REMOVE t1 (en_addr target)) (rt_count tree ⊟ 1) (rt_max tree),
           en_set_end (em_end (en_extent target)) prev)
        else (tree, target)
      else (tree, target)
  | None => (tree, target)
  end.

Definition extent_tree_coalesce_next (tree : extent_tree) (target : extent_tree_node) : extent_tree :=
  match RB_NEXT (rt_head tree) (en_addr target) with
  | Some next =>
      if em_end (en_extent target) ⊞ 1 =? em_start (en_extent next) then
        if extent_contiguous (en_extent target) (en_extent next) then
          let t1 := rb_update (en_addr target) (en_set_end (em_end (en_extent next))) (rt_head tree) in
          mk_range_tree (RB_REMOVE t1 (en_addr next)) (rt_count tree ⊟ 1) (rt_max tree)
        else tree
      else tree
  | None => tree
  end.

Definition extent_tree_fuel (tree : extent_tree) : nat := S (2 * length (rb_elems (rt_head tree))).

Definition extent_tree_add (m : mem) (tree : extent_tree) (extent : extent_metadata)
    : option (mem * extent_tree * Z) :=
  match extent_tree_node_alloc m extent with
  | (None, m1) => Some (m1, tree, ENOMEM)
  | (Some node, m1) =>
      match extent_tree_add_loop (extent_tree_fuel tree) m1 tree node extent with
      | None => None
      | Some (m2, tree2, rc) =>
          if rc =? 0 then
            let tree3 := mk_range_tree (rt_head tree2) (rt_count tree2 ⊞ 1)
                           (Z.max (rt_max tree2) (em_end extent)) in
            let '(tree4, target) := extent_tree_coalesce_prev tree3 node in
            Some (m2, extent_tree_coalesce_next tree4 target, 0)
          else Some (m2, tree2, rc)
      end
  end.

Definition extent_tree_find (m : mem) (tree : extent_tree) (start end_ : Z)
    : mem * option extent_tree_node :=
  match extent_tree_node_alloc m (ExtentMd start start 0 0 0 0) with
  | (None, m1) => (m1, None)
  | (Some node, m1) =>
      match RB_NFIND (rt_head tree) node with
      | Some next => if em_start (en_extent next) <=? end_ then (m1, Some next) else (m1, None)
      | None => (m1, None)
      end
  end.

Definition extent_tree_iter (tree : extent_tree) (start : option extent_tree_node)
    : option extent_tree_node :=
  match start with
  | None => RB_MIN (rt_head tree)
  | Some n =>
      match RB_FIND (rt_head tree) n with
      | None => None
      | Some _ => RB_NEXT (rt_head tree) (en_addr n)
      end
  end.

(** The backward walk of [extent_tree_truncate].  With debug logging enabled
    ([dbg]) the message printed for a removed extent reads the fields of the
    extent before it, through a null pointer if there is none. *)
Fixpoint extent_tree_truncate_loop (dbg : bool) (fuel : nat) (tree : extent_tree)
    (node : option extent_tree_node) (size : Z) : run (extent_tree * option extent_tree_node) :=
  match node with
  | None => Done (tree, None)
  | Some n =>
      match fuel with
      | O => NoFuel
      | S fuel' =>
          if em_end (en_extent n) >=? size then
            if em_start (en_extent n) >=? size then
              let prev := RB_PREV (rt_head tree) (en_addr n) in
              let tree' := mk_range_tree (RB_REMOVE (rt_head tree) (en_addr n))
                             (rt_count tree ⊟ 1) (rt_max tree) in
              match dbg, prev with
              | true, None => NullDeref
              | _, _ => extent_tree_truncate_loop dbg fuel' tree' prev size
              end
            else
              let last_byte := size ⊟ 1 in
              Done (mk_range_tree (rb_update (en_addr n) (en_set_end last_byte) (rt_head tree))
                      (rt_count tree) (rt_max tree),
                    Some (en_set_end last_byte n))
          else Done (tree, Some n)
      end
  end.

Fixpoint extent_tree_walk (fuel : nat) (tree : extent_tree) (node : option extent_tree_node)
    : option (list extent_tree_node) :=
  match fuel with
  | O => None
  | S fuel' =>
      match extent_tree_iter tree node with
      | None => Some []
      | Some n => match extent_tree_walk fuel' tree (Some n) with
                  | Some ns => Some (n :: ns)
                  | None => None
                  end
      end
  end.

Fixpoint extent_tree_clear_loop (fuel : nat) (tree : extent_tree)
    (node oldnode : option extent_tree_node) : option extent_tree :=
  let drop o := match o with
                | Some n => mk_range_tree (RB_REMOVE (rt_head tree) (en_addr n))
                              (rt_count tree) (rt_max tree)
                | None => tree
                end in
  match fuel with
  | O => None
  | S fuel' =>
      match extent_tree_iter tree node with
      | Some n => extent_tree_clear_loop fuel' (drop oldnode) (Some n) (Some n)
      | None => Some (drop oldnode)
      end
  end.

Definition extent_tree_clear (tree : extent_tree) : option extent_tree :=
  if RB_EMPTY (rt_head tree) then Some tree
  else
    match extent_tree_clear_loop (extent_tree_fuel tree) tree None None with
    | Some tree' => Some (mk_range_tree (rt_head tree') 0 0)
    | None => None
    end.

Definition extent_tree_destroy (tree : extent_tree) : option extent_tree := extent_tree_clear tree.

Definition extent_tree_truncate (dbg : bool) (tree : extent_tree) (size : Z) : run extent_tree :=
  if size =? 0 then
    match extent_tree_clear tree with Some tree' => Done tree' | None => NoFuel end
  else
    match extent_tree_truncate_loop dbg (extent_tree_fuel tree) tree (RB_MAX (rt_head tree)) size with
    | Done (tree', Some node) =>
        Done (mk_range_tree (rt_head tree') (rt_count tree') (em_end (en_extent node)))
    | Done (tree', None) => Done (mk_range_tree (rt_head tree') (rt_count tree') 0)
    | NullDeref => NullDeref
    | NoFuel => NoFuel
    end.

Definition extent_tree_count (tree : extent_tree) : Z := rt_count tree.
Definition extent_tree_max_offset (tree : extent_tree) : Z := rt_max tree.

(** The chunk of a read request [req_offset, req_len] that the extent of [n]
    supplies; the array of chunks is zero-initialised. *)
Definition chunk_req_from_extent (req_offset req_len : Z) (n : extent_tree_node) : chunk_read_req :=
  let e := en_extent n in
  let offset := em_start e in
  let nbytes := em_end e - em_start e ⊞ 1 in
  let log_offset := em_log_pos e in
  let last := req_offset + req_len ⊟ 1 in
  let '(offset, log_offset, nbytes) :=
    if offset <? req_offset then
      let diff := req_offset ⊟ offset in
      (req_offset, log_offset ⊞ diff, nbytes ⊟ diff)
    else (offset, log_offset, nbytes) in
  let nbytes :=
    if em_end e >? last then
      let diff := em_end e ⊟ last in nbytes ⊟ diff
    else nbytes in
  ChunkReq 0 nbytes offset log_offset (em_app_id e) (em_cli_id e) (em_svr_rank e).

(** The first loop of [extent_tree_get_chunk_list]: the variables [count],
    [prev_end], [gap_found] and [last]. *)
Fixpoint extent_tree_count_chunks (fuel : nat) (tree : extent_tree) (end_ : Z)
    (first : option extent_tree_node) (next : option extent_tree_node)
    (count prev_end : Z) (gap_found : bool) (last : option extent_tree_node)
    : option (Z * bool * option extent_tree_node) :=
  match next with
  | Some n =>
      if em_start (en_extent n) <=? end_ then
        match fuel with
        | O => None
        | S fuel' =>
            let is_first := match first with Some f => en_addr n =? en_addr f | None => false end in
            let gap' := gap_found ||
              (negb is_first && negb (prev_end ⊞ 1 =? em_start (en_extent n))) in
            let prev_end' := if gap_found then prev_end else em_end (en_extent n) in
            extent_tree_count_chunks fuel' tree end_ first (extent_tree_iter tree (Some n))
              (u32 (count + 1)) prev_end' gap' (Some n)
        end
      else Some (count, gap_found, last)
  | None => Some (count, gap_found, last)
  end.

(** The second loop, which fills the array. *)
Fixpoint extent_tree_fill_chunks (fuel : nat) (tree : extent_tree) (offset len end_ : Z)
    (next : option extent_tree_node) : option (list chunk_read_req) :=
  match next with
  | Some n =>
      if em_start (en_extent n) <=? end_ then
        match fuel with
        | O => None
        | S fuel' =>
            match extent_tree_fill_chunks fuel' tree offset len end_ (extent_tree_iter tree (Some n)) with
            | Some cs => Some (chunk_req_from_extent offset len n :: cs)
            | None => None
            end
        end
      else Some []
  | None => Some []
  end.

(** The outputs of [extent_tree_get_chunk_list]. *)
Record chunk_list := ChunkList {
  cl_ret : Z;
  cl_n_chunks : Z;
  cl_chunks : list chunk_read_req;
  cl_extent_covered : bool;
}.

Definition extent_tree_get_chunk_list (m : mem) (tree : extent_tree) (offset len : Z)
    : option (mem * chunk_list) :=
  let end_ := offset + len ⊟ 1 in
  let '(m1, first) := extent_tree_find m tree offset end_ in
  let fuel := extent_tree_fuel tree in
  match extent_tree_count_chunks fuel tree end_ first first 0 0 false None with
  | None => None
  | Some (count, gap_found, last) =>
      if count =? 0 then Some (m1, ChunkList 0 0 [] false)
      else
        let outside :=
          match first, last with
          | Some f, Some l => (em_start (en_extent f) >? offset) || (em_end (en_extent l) <? end_)
          | _, _ => false
          end in
        let gap_found := gap_found || outside in
        match calloc m1 with
        | (None, m2) => Some (m2, ChunkList ENOMEM count [] (negb gap_found))
        | (Some _, m2) =>
            match extent_tree_fill_chunks fuel tree offset len end_ first with
            | None => None
            | Some cs => Some (m2, ChunkList 0 count cs (negb gap_found))
            end
        end
  end.

(** ** Allocation *)

Implicit Types (m : mem) (tree : extent_tree) (n : extent_tree_node) (e : extent_metadata).

Lemma extent_tree_node_alloc_some m e n m' :
  extent_tree_node_alloc m e = (Some n, m') ->
  n = ExtNode (mem_next m) e /\ mem_next m' = mem_next m + 1 /\ (mem_plenty m -> mem_plenty m').
Proof.
  unfold extent_tree_node_alloc. destruct (calloc m) as [[a|] m1] eqn:Hc; [|done].
  intros [= <- <-]. split_and!; [by apply calloc_some in Hc as [-> ?]..|].
  intros (m2 & Hc' & ? & _)%calloc_plenty. congruence.
Qed.

Lemma extent_tree_node_alloc_none m e m' :
  extent_tree_node_alloc m e = (None, m') -> mem_next m' = mem_next m /\ ~ mem_plenty m.
Proof.
  unfold extent_tree_node_alloc. destruct (calloc m) as [[a|] m1] eqn:Hc; [done|].
  intros [= <-]. split; [by apply calloc_none in Hc|].
  intros (m2 & Hc' & _)%calloc_plenty. congruence.
Qed.

(** ** Adding an extent *)

Definition em_valid e : Prop := valid_range (em_start e) (em_end e).

Lemma extent_part_loc e (s t b : Z) :
  extent_byte_loc (extent_part e s t) b = extent_byte_loc e b.
Proof. unfold extent_byte_loc. simpl. f_equal. apply u64_shift. lia. Qed.

Lemma extent_tree_resolve_spec e :
  em_valid e ->
  resolves (fun _ => True) (em_start e) (em_end e)
    (fun m tree c => extent_tree_resolve m tree c e).
Proof.
  intros [Hr1 Hr2] m tree c Hwf Hin Ho1 Ho2.
  destruct (rt_elem_split m tree c Hwf Hin) as (es1 & es2 & Heq & _).
  destruct (rt_wf_elem m tree c Hwf Hin) as [Hwc _]. pose proof Hwc as [Hc1 Hc2]. simpl in *.
  unfold extent_tree_resolve, get_non_overlapping_range.
  destruct (em_start (en_extent c) <? em_start e) eqn:Hlt;
    [|destruct (em_end (en_extent c) >? em_end e) eqn:Hgt]; zbool.
  - destruct (extent_tree_node_alloc m _) as [[p|] m1] eqn:Ha1.
    2:{ apply extent_tree_node_alloc_none in Ha1 as [? ?]. split_and!; [done|lia|done]. }
    apply extent_tree_node_alloc_some in Ha1 as (-> & Hm1 & Hpl1).
    rewrite (u64_small (em_start e - 1)); first ulia. rewrite (proj2 (Z.ltb_lt _ _)); first lia.
    destruct (extent_tree_node_alloc m1 _) as [[q|] m2] eqn:Ha2.
    2:{ apply extent_tree_node_alloc_none in Ha2 as [? ?]. split_and!; [done|lia|auto]. }
    apply extent_tree_node_alloc_some in Ha2 as (-> & Hm2 & Hpl2).
    rewrite (u64_small (em_start e - 1 + 1)); first ulia.
    eapply (resolved_intro _ m m2 tree es1 c [_; _] es2); [cbn; reflexivity|eauto..]; simpl.
    + apply iv_carve_two; simpl; try lia; [done|split; simpl; lia..| |];
        intros b _; apply extent_part_loc.
    + lia.
    + repeat constructor; simpl; lia.
    + repeat constructor; set_solver by lia.
    + ulia.
  - destruct (extent_tree_node_alloc m _) as [[p|] m1] eqn:Ha1.
    2:{ apply extent_tree_node_alloc_none in Ha1 as [? ?]. split_and!; [done|lia|done]. }
    apply extent_tree_node_alloc_some in Ha1 as (-> & Hm1 & Hpl1).
    rewrite Z.ltb_irrefl (u64_small (em_end e + 1)); first ulia.
    eapply (resolved_intro _ m m1 tree es1 c [_] es2); [cbn; reflexivity|eauto..]; simpl.
    + apply iv_carve_one; simpl; try lia; [done|split; simpl; lia|].
      intros b _. apply extent_part_loc.
    + lia.
    + repeat constructor; simpl; lia.
    + repeat constructor; set_solver.
    + ulia.
  - apply (resolved_intro _ m m tree es1 c [] es2); try done; [by apply iv_carve_all|constructor|].
    simpl. f_equal. lia.
Qed.

Lemma extent_contiguous_spec p n b :
  extent_contiguous (en_extent p) (en_extent n) = true ->
  em_end (en_extent p) + 1 = em_start (en_extent n) ->
  extent_byte_loc (en_extent p) b = extent_byte_loc (en_extent n) b.
Proof.
  unfold extent_contiguous, extent_byte_loc. intros H Hadj. zbool.
  f_equal; [done..|]. rewrite -H0 -Hadj. unfold extent_length. rewrite u64_add_r.
  symmetry. apply u64_shift. lia.
Qed.

Record ext_coalesced m tree (tree' : extent_tree) : Prop := {
  ec_wf : rt_wf m tree';
  ec_max : rt_max tree' = rt_max tree;
  ec_lookup b : rt_lookup tree' b = rt_lookup tree b;
  ec_length : (length (rt_nodes tree') <= length (rt_nodes tree))%nat;
}.

Lemma ext_coalesced_refl m tree : rt_wf m tree -> ext_coalesced m tree tree.
Proof. by split. Qed.

Lemma extent_tree_merge m tree es1 p n es2 :
  rt_wf m tree -> rt_nodes tree = es1 ++ p :: n :: es2 ->
  em_end (en_extent p) ⊞ 1 = em_start (en_extent n) ->
  extent_contiguous (en_extent p) (en_extent n) = true ->
  let tree' := mk_range_tree
    (RB_REMOVE (rb_update (en_addr p) (en_set_end (em_end (en_extent n))) (rt_head tree)) (en_addr n))
    (rt_count tree ⊟ 1) (rt_max tree) in
  ext_coalesced m tree tree' /\ en_set_end (em_end (en_extent n)) p ∈ rt_nodes tree'.
Proof.
  intros Hwf Heq Hadj Hcont tree'.
  destruct (rt_merge m tree (en_set_end (em_end (en_extent n))) es1 p n es2 Hwf Heq)
    as (Hw & He & Hl); try done.
  - intros b Hn _. by apply (extent_contiguous_spec p n).
  - split; [split; try done; rewrite He Heq !length_app /=; lia|]. rewrite He. set_solver.
Qed.

Lemma extent_tree_coalesce_prev_spec m tree target :
  rt_wf m tree -> target ∈ rt_nodes tree ->
  ext_coalesced m tree (extent_tree_coalesce_prev tree target).1 /\
  (extent_tree_coalesce_prev tree target).2 ∈ rt_nodes (extent_tree_coalesce_prev tree target).1.
Proof.
  intros Hwf Hin. destruct (rt_elem_split m tree target Hwf Hin) as (es1 & es2 & Heq & Hprev & _).
  unfold extent_tree_coalesce_prev. simpl in Hprev. rewrite Hprev.
  destruct (last es1) as [p|] eqn:Hp; [|split; [by apply ext_coalesced_refl|done]].
  apply last_Some in Hp as [es0 ->]. rewrite -app_assoc in Heq.
  destruct (_ =? _) eqn:H1; [|split; [by apply ext_coalesced_refl|done]].
  destruct (extent_contiguous _ _) eqn:H2; [zbool|split; [by apply ext_coalesced_refl|done]].
  by apply (extent_tree_merge m tree es0 p target es2).
Qed.

Lemma extent_tree_coalesce_next_spec m tree target :
  rt_wf m tree -> target ∈ rt_nodes tree -> ext_coalesced m tree (extent_tree_coalesce_next tree target).
Proof.
  intros Hwf Hin. destruct (rt_elem_split m tree target Hwf Hin) as (es1 & es2 & Heq & _ & Hnext).
  unfold extent_tree_coalesce_next. simpl in Hnext. rewrite Hnext.
  destruct es2 as [|n es2]; [by apply ext_coalesced_refl|]. simpl.
  destruct (_ =? _) eqn:H1; [|by apply ext_coalesced_refl].
  destruct (extent_contiguous _ _) eqn:H2; [zbool|by apply ext_coalesced_refl].
  by apply (extent_tree_merge m tree es1 target n es2).
Qed.

Record ext_add_post m tree e (m' : mem) (tree' : extent_tree) (rc : Z) : Prop := {
  eap_next : mem_next m <= mem_next m';
  eap_rc : rc = 0 \/ rc = ENOMEM;
  eap_plenty : mem_plenty m -> rc = 0 /\ mem_plenty m';
  eap_wf : rt_wf m' tree';
  eap_max : rt_max tree' = if rc =? 0 then Z.max (rt_max tree) (em_end e) else rt_max tree;
  eap_outside b : ~ (em_start e <= b <= em_end e) -> rt_lookup tree' b = rt_lookup tree b;
  eap_sub b v : rc <> 0 -> rt_lookup tree' b = Some v -> rt_lookup tree b = Some v;
  eap_inside b : rc = 0 -> em_start e <= b <= em_end e -> rt_lookup tree' b = Some (extent_byte_loc e b);
  eap_length : (length (rt_nodes tree') <= 2 + length (rt_nodes tree))%nat;
}.

Lemma extent_tree_add_loop_spec m m1 tree e :
  let node := ExtNode (mem_next m) e in
  rt_wf m tree -> em_valid e -> mem_next m1 = mem_next m + 1 ->
  exists m' tree' rc,
    extent_tree_add_loop (extent_tree_fuel tree) m1 tree node e = Some (m', tree', rc) /\
    insert_post (fun _ => True) m1 tree (em_start e) (em_end e) node m' tree' rc.
Proof.
  intros node Hwf Hr Hm1.
  refine (insert_loop_spec (fun _ => True) (fun m tree c => extent_tree_resolve m tree c e)
    (extent_tree_fuel tree) m1 tree node _ _ _ _ _ _).
  - done.
  - by apply extent_tree_resolve_spec.
  - eapply rt_wf_mono; [|done]. lia.
  - simpl. lia.
  - eapply Forall_impl; [apply (iv_tree_addr _ _ (rt_wf_tree _ _ Hwf))|]. simpl. lia.
  - pose proof (iv_conflicts_bound (em_start e) (em_end e) (rt_nodes tree)). unfold extent_tree_fuel. simpl.
    fold (rt_nodes tree). lia.
Qed.

Lemma extent_tree_add_post m tree e :
  rt_wf m tree -> em_valid e ->
  exists m' tree' rc, extent_tree_add m tree e = Some (m', tree', rc) /\
    ext_add_post m tree e m' tree' rc.
Proof.
  intros Hwf Hr. unfold extent_tree_add.
  destruct (extent_tree_node_alloc m e) as [[node|] m1] eqn:Ha.
  2:{ apply extent_tree_node_alloc_none in Ha as [Hn Hnp]. eexists _, _, _. split; [done|].
      split; [lia|by right|done| |done|done|done|done|lia]. eapply rt_wf_mono; [|done]. lia. }
  apply extent_tree_node_alloc_some in Ha as (Hnode & Hm1 & Hpl).
  destruct (extent_tree_add_loop_spec m m1 tree e Hwf Hr Hm1) as (m2 & tree2 & rc & Hloop & Hp).
  rewrite -Hnode in Hloop, Hp. rewrite Hloop.
  destruct Hp as [Hn Hrc Hplenty Hmax Hout Hsub _ Hstarts Hw].
  assert (length (rt_nodes tree2) <= 2 + length (rt_nodes tree))%nat as Hlen.
  { eapply starts_within_length; [|exact Hstarts]. destruct Hrc as [-> | ->]; [apply (rt_wf_sorted _ _ (proj1 Hw))|apply Hw]. }
  destruct Hrc as [-> | ->].
  2:{ eexists _, _, _. split; [done|]. split; try done; [lia|by right|by intros; apply Hplenty, Hpl]. }
  destruct Hw as [Hw Hin]. cbn [Z.eqb]. fold (rt_finish tree2 (em_end e)).
  destruct (extent_tree_coalesce_prev_spec m2 (rt_finish tree2 (em_end e)) node Hw Hin) as [Hc1 Hin1].
  destruct (extent_tree_coalesce_prev _ node) as [tree4 target]. simpl in Hc1, Hin1.
  pose proof (extent_tree_coalesce_next_spec m2 tree4 target (ec_wf _ _ _ Hc1) Hin1) as Hc2.
  eexists _, _, _. split; [done|].
  destruct Hc1 as [Hcw1 Hcm1 Hcl1 Hcn1], Hc2 as [Hcw2 Hcm2 Hcl2 Hcn2].
  change (rt_nodes (rt_finish tree2 _)) with (rt_nodes tree2) in Hcn1.
  split; [lia|by left|by intros; split; [done|apply Hplenty, Hpl]|done| | |done| |lia].
  - rewrite Hcm2 Hcm1 /= Hmax. done.
  - intros b Hb. rewrite Hcl2 Hcl1. by apply Hout.
  - intros b _ Hb. rewrite Hcl2 Hcl1. unfold rt_lookup.
    by rewrite (iv_lookup_elem _ node b (rt_wf_sorted _ _ Hw) Hin); subst node.
Qed.

(** ** Searching, iterating and clearing *)

Lemma extent_tree_find_post m tree lo hi :
  rt_wf m tree -> is_u64 lo ->
  let '(m', r) := extent_tree_find m tree lo hi in
  mem_next m <= mem_next m' /\ (mem_plenty m -> mem_plenty m') /\
  (r = List.find (iv_overlaps lo hi) (rt_nodes tree) \/ r = None /\ ~ mem_plenty m).
Proof.
  intros Hwf Hlo. unfold extent_tree_find.
  destruct (extent_tree_node_alloc m _) as [[node|] m1] eqn:Ha.
  2:{ apply extent_tree_node_alloc_none in Ha as [? ?]. split_and!; [lia|done|by right]. }
  apply extent_tree_node_alloc_some in Ha as (-> & Hm & Hpl).
  rewrite (iv_nfind m _ _ (rt_wf_tree _ _ Hwf)).
  { unfold iv_wf, is_u64 in *. simpl. lia. } { done. }
  pose proof (iv_find_first lo hi (rt_nodes tree) (rt_wf_sorted _ _ Hwf)) as Hf.
  simpl in *. fold (rt_nodes tree). rewrite -Hf.
  destruct (List.find _ (rt_nodes tree)) as [x|]; [destruct (em_start (en_extent x) <=? hi)|];
    (split_and!; [lia|done|by left]).
Qed.

Lemma extent_tree_iter_first tree : extent_tree_iter tree None = head (rt_nodes tree).
Proof. apply RB_MIN_spec. Qed.

Lemma extent_tree_iter_next m tree es1 n es2 :
  iv_tree m (rt_head tree) -> rt_nodes tree = es1 ++ n :: es2 ->
  extent_tree_iter tree (Some n) = head es2.
Proof.
  intros Ht Heq. simpl. rewrite (iv_find_self m _ es1 n es2 Ht Heq).
  exact (RB_NEXT_spec _ es1 n es2 (iv_tree_nodup _ _ Ht) Heq).
Qed.

Lemma extent_tree_walk_from fuel m tree es1 n es2 :
  iv_tree m (rt_head tree) -> rt_nodes tree = es1 ++ n :: es2 -> (length es2 < fuel)%nat ->
  extent_tree_walk fuel tree (Some n) = Some es2.
Proof.
  intros Hwf. revert es1 n es2.
  induction fuel as [|fuel IH]; intros es1 n es2 Heq Hlen; [lia|]. cbn [extent_tree_walk].
  rewrite (extent_tree_iter_next m tree es1 n es2 Hwf Heq). destruct es2 as [|n' es2]; [done|]. simpl.
  simpl in Hlen. rewrite (IH (es1 ++ [n]) n' es2) //; [by rewrite -app_assoc|lia].
Qed.

Lemma extent_tree_clear_loop_spec fuel m tree n es2 :
  iv_tree m (rt_head tree) -> rt_nodes tree = n :: es2 -> (length es2 < fuel)%nat ->
  exists tree', extent_tree_clear_loop fuel tree (Some n) (Some n) = Some tree' /\ rt_head tree' = RB_NULL.
Proof.
  revert tree n es2. induction fuel as [|fuel IH]; intros tree n es2 Ht Heq Hlen; [lia|].
  cbn [extent_tree_clear_loop]. rewrite (extent_tree_iter_next m tree [] n es2 Ht Heq).
  destruct (iv_remove m (rt_head tree) [] n es2 Ht Heq) as [He Ht'].
  destruct es2 as [|n' es2]; simpl.
  - eexists. split; [done|]. by apply rb_elems_nil.
  - apply (IH _ n' es2); [done|done|simpl in Hlen; lia].
Qed.

Lemma extent_tree_clear_spec m tree :
  rt_wf m tree ->
  extent_tree_clear tree =
    Some (mk_range_tree RB_NULL 0 (if RB_EMPTY (rt_head tree) then rt_max tree else 0)).
Proof.
  intros [Ht Hc _]. unfold extent_tree_clear. destruct (RB_EMPTY (rt_head tree)) eqn:He.
  { apply RB_EMPTY_spec in He. rewrite /rt_nodes He in Hc. apply rb_elems_nil in He.
    destruct tree as [t cnt mx]; simpl in *; subst. done. }
  unfold extent_tree_fuel. cbn [extent_tree_clear_loop]. rewrite extent_tree_iter_first.
  destruct (rt_nodes tree) as [|n es2] eqn:Heq.
  { by rewrite (proj2 (RB_EMPTY_spec _) Heq) in He. }
  destruct (extent_tree_clear_loop_spec (2 * length (rb_elems (rt_head tree))) m tree n es2)
    as (tree' & Hloop & Hnull); [done|done| |].
  - fold (rt_nodes tree). rewrite Heq. simpl. lia.
  - cbn [head]. by rewrite Hloop Hnull.
Qed.

(** ** Truncating *)

(** The state when the backward walk stops at [node]. *)
Record truncated m tree (size : Z) (tree' : extent_tree) (node : option extent_tree_node) : Prop := {
  tr_wf : rt_wf m tree';
  tr_node : node = last (rt_nodes tree');
  tr_lookup b : rt_lookup tree' b = if b <? size then rt_lookup tree b else None;
  tr_length : (length (rt_nodes tree') <= length (rt_nodes tree))%nat;
}.

(** Cutting the last node back to [size], or dropping it. *)
Lemma truncated_carve tree (tree' : extent_tree) es1 n ps size b :
  iv_sorted (rt_nodes tree) -> rt_nodes tree = es1 ++ [n] -> rt_nodes tree' = es1 ++ ps ->
  iv_carve size ULONG_MAX n ps ->
  b < size -> rt_lookup tree' b = rt_lookup tree b.
Proof.
  intros Hs Heq He Hcv Hb. unfold rt_lookup. rewrite He Heq.
  pose proof (iv_carve_lookup_app size ULONG_MAX es1 n ps [] b Hcv) as Hl.
  rewrite app_nil_r in Hl. apply Hl. lia.
Qed.

(** Nothing is mapped at or after [size] when the last node ends before it. *)
Lemma truncated_beyond tree size b :
  iv_sorted (rt_nodes tree) ->
  (forall n, last (rt_nodes tree) = Some n -> em_end (en_extent n) < size) ->
  size <= b -> rt_lookup tree b = None.
Proof.
  intros Hs Hlast Hb. apply iv_lookup_none.
  destruct (last (rt_nodes tree)) as [n|] eqn:Hl.
  - eapply Forall_impl; [by apply (iv_sorted_last _ n)|]. specialize (Hlast n eq_refl). simpl. intros; lia.
  - apply last_None in Hl as ->. constructor.
Qed.

Definition truncate_loop_post (dbg : bool) m tree (size : Z)
    (r : run (extent_tree * option extent_tree_node)) : Prop :=
  match r with
  | Done (tree', node) => truncated m tree size tree' node
  | NullDeref => dbg = true /\ rt_nodes tree <> [] /\
                 Forall (fun n => size <= em_start (en_extent n)) (rt_nodes tree)
  | NoFuel => False
  end.

(** Dropping the last node first. *)
Lemma truncate_loop_step dbg m tree (tree1 : extent_tree) es1 n size r :
  iv_sorted (rt_nodes tree) -> rt_nodes tree = es1 ++ [n] -> rt_nodes tree1 = es1 ->
  iv_carve size ULONG_MAX n [] -> size <= em_start (en_extent n) ->
  truncate_loop_post dbg m tree1 size r -> truncate_loop_post dbg m tree size r.
Proof.
  intros Hs Heq He Hcv Hn. destruct r as [[tree' node]| |]; simpl; [| |done].
  - intros [Hw Hnode Hl Hlen]. split; [done|done| |rewrite Heq length_app -He; lia]. intros b. rewrite Hl. zcase; [|done].
    apply (truncated_carve tree tree1 es1 n [] size b); [done|done|by rewrite app_nil_r|done|lia].
  - intros (Hd & _ & Hall). rewrite He in Hall. rewrite Heq. split_and!; [done| |].
    + by destruct es1.
    + apply Forall_app. split; [done|]. by repeat constructor.
Qed.

Lemma extent_tree_truncate_loop_spec dbg fuel m tree size :
  rt_wf m tree -> 0 < size <= ULONG_MAX -> (length (rt_nodes tree) < fuel)%nat ->
  truncate_loop_post dbg m tree size
    (extent_tree_truncate_loop dbg fuel tree (last (rt_nodes tree)) size).
Proof.
  revert tree. induction fuel as [|fuel IH]; intros tree Hwf Hsize Hlen; [lia|].
  pose proof (rt_wf_sorted _ _ Hwf) as Hs.
  destruct (last (rt_nodes tree)) as [n|] eqn:Hlast; simpl.
  2:{ split; [done|by rewrite Hlast| |done]. intros b. zcase; [done|].
      apply (truncated_beyond tree size b Hs); [congruence|lia]. }
  pose proof Hlast as [es1 Heq]%last_Some.
  assert (n ∈ rt_nodes tree) as Hin by (rewrite Heq; set_solver).
  destruct (rt_wf_elem m tree n Hwf Hin) as [[Hn1 Hn2] _]. simpl in Hn1, Hn2.
  destruct (_ >=? size) eqn:He; zbool.
  2:{ split; [done|done| |done]. intros b. zcase; [done|].
      apply (truncated_beyond tree size b Hs); [|lia]. intros n' Hn'. rewrite Hlast in Hn'.
      injection Hn' as <-. lia. }
  destruct (em_start (en_extent n) >=? size) eqn:Hst; zbool.
  - (* the whole extent is beyond the size *)
    assert (RB_PREV (rt_head tree) (en_addr n) = last es1) as ->.
    { exact (RB_PREV_spec _ es1 n [] (iv_tree_nodup _ _ (rt_wf_tree _ _ Hwf)) Heq). }
    assert (iv_carve size ULONG_MAX n []) as Hcv by (apply iv_carve_all; simpl; try done; split; simpl; lia).
    destruct (rt_replace m m tree es1 n [] [] size ULONG_MAX (rt_count tree ⊟ 1) Hwf Heq Hcv)
      as [Hw' He']; [lia|done|constructor|simpl; f_equal; lia|]. simpl in Hw', He'.
    set (tree1 := mk_range_tree _ _ _) in *. rewrite app_nil_r in He'.
    specialize (IH tree1 Hw' Hsize). rewrite He' in IH.
    assert (length es1 < fuel)%nat as Hf by (rewrite Heq length_app /= in Hlen; lia).
    specialize (IH Hf).
    apply (truncate_loop_step dbg m tree tree1 es1 n size) in IH; [|done..].
    destruct dbg, (last es1) as [n'|] eqn:Hl1; try done.
    apply last_None in Hl1 as ->. rewrite /= Heq. split_and!; [done|done|by repeat constructor].
  - (* the new size falls within the extent *)
    rewrite (u64_small (size - 1)); first ulia.
    assert (iv_carve size ULONG_MAX n [en_set_end (size - 1) n]) as Hcv.
    { apply iv_carve_one; simpl; try lia; done || (split; simpl; lia). }
    destruct (rt_update m tree (en_set_end (size - 1)) es1 n [] Hwf Heq) as [Hw' He'];
      [done| |simpl; lia|].
    { apply (iv_carve_sorted_app size ULONG_MAX es1 n [_] []); [by rewrite -Heq|done]. }
    simpl in Hw', He'. split; [done|by rewrite He' last_snoc| |by rewrite He' Heq !length_app].
    intros b. zcase; [by eapply truncated_carve|].
    apply (truncated_beyond _ size b); [apply Hw'| |lia].
    rewrite He' last_snoc. intros n' [= <-]. simpl. lia.
Qed.

Lemma rt_max_last m tree node :
  rt_wf m tree -> node = last (rt_nodes tree) ->
  rt_wf m (mk_range_tree (rt_head tree) (rt_count tree)
    (match node with Some n => em_end (en_extent n) | None => 0 end)).
Proof.
  intros [Ht Hc Hx] ->. split; [done|done|]. unfold rt_nodes at 2. simpl. fold (rt_nodes tree).
  destruct (last (rt_nodes tree)) as [n|] eqn:Hl; [exact (iv_sorted_last _ n (iv_tree_sorted _ _ Ht) Hl)|].
  apply last_None in Hl as ->. constructor.
Qed.

(** The largest mapped offset, 0 for an empty tree. *)
Definition last_offset tree : Z :=
  match last (rt_nodes tree) with Some n => em_end (en_extent n) | None => 0 end.

Lemma extent_tree_truncate_spec dbg m tree size :
  rt_wf m tree -> is_u64 size ->
  match extent_tree_truncate dbg tree size with
  | Done tree' => rt_wf m tree' /\
      (forall b, rt_lookup tree' b = if b <? size then rt_lookup tree b else None) /\
      (rt_nodes tree <> [] \/ 0 < size -> rt_max tree' = last_offset tree') /\
      (length (rt_nodes tree') <= length (rt_nodes tree))%nat
  | NullDeref => dbg = true /\ 0 < size /\ rt_nodes tree <> [] /\
      Forall (fun n => size <= em_start (en_extent n)) (rt_nodes tree)
  | NoFuel => False
  end.
Proof.
  intros Hwf Hsize. unfold extent_tree_truncate. destruct (size =? 0) eqn:H0; zbool.
  - subst size. rewrite (extent_tree_clear_spec m tree Hwf). split_and!; [apply rt_wf_null| | |].
    + intros b. destruct (b <? 0) eqn:Hb; [zbool|done]. symmetry. apply iv_lookup_none. apply Forall_forall.
      intros n Hn. destruct (rt_wf_elem m tree n Hwf Hn) as [[? ?] _]. lia.
    + intros [Hne|?]; [|lia]. simpl. destruct (RB_EMPTY (rt_head tree)) eqn:He; [|done].
      by apply RB_EMPTY_spec in He.
    + simpl. lia.
  - rewrite RB_MAX_spec. fold (rt_nodes tree). unfold is_u64 in Hsize.
    pose proof (extent_tree_truncate_loop_spec dbg (extent_tree_fuel tree) m tree size Hwf
      ltac:(lia) ltac:(unfold extent_tree_fuel, rt_nodes; lia)) as Hl.
    destruct (extent_tree_truncate_loop _ _ _ _ _) as [[tree' node]| |]; simpl in Hl; [| |done].
    2:{ destruct Hl as (? & ? & ?). split_and!; [done|lia|done..]. }
    destruct Hl as [H1 H2 H3 H4]. pose proof (rt_max_last m tree' node H1 H2) as Hm.
    destruct node as [n|]; (split_and!; [done|done| |done]); intros _; unfold last_offset, rt_nodes; simpl;
      fold (rt_nodes tree'); by rewrite -H2.
Qed.

(** ** Chunk lists *)

(** The bytes a chunk read fetches, and where from. *)
#[export] Instance chunk_interval : Interval chunk_read_req extent_loc :=
  { iv_start c := cr_offset c; iv_end c := cr_offset c + cr_nbytes c - 1;
    iv_loc c b := ExtentLoc (cr_rank c) (cr_log_app_id c) (cr_log_client_id c)
                    (cr_log_offset c ⊞ (b - cr_offset c)) }.

(** A chunk is the part of the extent inside the request. *)
Lemma chunk_req_from_extent_spec lo len n :
  iv_wf n -> 0 <= lo -> 0 < len <= ULONG_MAX -> lo + len - 1 <= ULONG_MAX ->
  em_start (en_extent n) <= lo + len - 1 -> lo <= em_end (en_extent n) ->
  let c := chunk_req_from_extent lo len n in
  iv_start c = Z.max (em_start (en_extent n)) lo /\
  iv_end c = Z.min (em_end (en_extent n)) (lo + len - 1) /\
  (forall b, iv_loc c b = iv_loc n b).
Proof.
  destruct n as [a [s e p sv ap cl]]. unfold iv_wf. simpl. intros [Hs He] Hlo Hlen Hhi Ho1 Ho2.
  unfold chunk_req_from_extent, extent_byte_loc. simpl.
  rewrite (u64_small (lo + len - 1)); first ulia.
  destruct (s <? lo) eqn:H1; zbool; simpl; (destruct (e >? lo + len - 1) eqn:H2; zbool; simpl);
    (split_and!; [lia| |intros b; f_equal]).
  all: try done.
  all: autorewrite with u64_norm; try (rewrite ?u64_add_l ?u64_sub_l; f_equal; lia).
  1: rewrite -Z.sub_add_distr u64_sub_l.
  all: rewrite u64_small; unfold is_u64; lia.
Qed.

Lemma extent_tree_fill_chunks_spec fuel m tree lo len hi es1 rest :
  rt_wf m tree -> rt_nodes tree = es1 ++ rest -> (length rest <= fuel)%nat ->
  extent_tree_fill_chunks fuel tree lo len hi (head rest) =
    Some (chunk_req_from_extent lo len <$> iv_upto hi rest).
Proof.
  intros Hwf. revert es1 rest. induction fuel as [|fuel IH]; intros es1 [|n rest] Heq Hlen;
    simpl in Hlen; try lia; try done.
  cbn [extent_tree_fill_chunks head iv_upto]. change (iv_start n) with (em_start (en_extent n)).
  destruct (_ <=? hi); [|done].
  rewrite (extent_tree_iter_next m tree es1 n rest (rt_wf_tree _ _ Hwf) Heq).
  rewrite (IH (es1 ++ [n]) rest); [by rewrite -app_assoc|lia|done].
Qed.

Lemma u32_add_l a b : u32 (u32 a + b) = u32 (a + b).
Proof. apply Zplus_mod_idemp_l. Qed.

(** The counting loop after the first extent [f]. *)
Lemma extent_tree_count_chunks_spec fuel m tree hi f es1 rest cnt prev gap lst :
  rt_wf m tree -> rt_nodes tree = es1 ++ rest -> f ∈ es1 -> (length rest <= fuel)%nat ->
  u32 cnt = cnt -> 0 <= prev -> (gap = false -> Forall (fun n => prev < em_start (en_extent n)) rest) ->
  extent_tree_count_chunks fuel tree hi (Some f) (head rest) cnt prev gap lst =
    Some (u32 (cnt + Z.of_nat (length (iv_upto hi rest))),
          gap || iv_gap prev (iv_upto hi rest),
          match last (iv_upto hi rest) with Some l => Some l | None => lst end).
Proof.
  intros Hwf. revert es1 rest cnt prev gap lst.
  induction fuel as [|fuel IH]; intros es1 [|n rest] cnt prev gap lst Heq Hf Hlen Hcnt Hp Hgap;
    simpl in Hlen; try lia; try by rewrite orb_false_r /= Z.add_0_r Hcnt.
  cbn [extent_tree_count_chunks head iv_upto]. change (iv_start n) with (em_start (en_extent n)).
  destruct (_ <=? hi); [|by rewrite orb_false_r /= Z.add_0_r Hcnt].
  rewrite (extent_tree_iter_next m tree es1 n rest (rt_wf_tree _ _ Hwf) Heq).
  assert ((en_addr n =? en_addr f) = false) as ->.
  { apply Z.eqb_neq. intros Ha. pose proof (iv_tree_nodup _ _ (rt_wf_tree _ _ Hwf)) as Hn.
    fold (rt_nodes tree) in Hn. rewrite Heq fmap_app fmap_cons in Hn.
    apply NoDup_app in Hn as (_ & Hd & _). apply (Hd (en_addr f)); [by apply list_elem_of_fmap_2|].
    simpl. rewrite Ha. left. }
  assert (n ∈ rt_nodes tree) as Hin by (rewrite Heq; set_solver).
  destruct (rt_wf_elem m tree n Hwf Hin) as [[Hn1 Hn2] _]. simpl in Hn1, Hn2.
  pose proof (rt_wf_sorted _ _ Hwf) as Hs. rewrite Heq in Hs.
  apply iv_sorted_app in Hs as (_ & (_ & _ & Hlt)%iv_sorted_cons & _).
  rewrite (IH (es1 ++ [n]) rest); [by rewrite -app_assoc|set_solver|lia| | | |].
  - unfold u32. by rewrite Z.mod_mod.
  - destruct gap; lia.
  - intros [-> _]%orb_false_iff. exact Hlt.
  - f_equal. f_equal; [f_equal|].
    + rewrite u32_add_l. f_equal. simpl. lia.
    + destruct gap; simpl; [done|]. specialize (Hgap eq_refl). apply Forall_cons in Hgap as [Hpn _].
      rewrite u64_small; [unfold is_u64; lia|]. done.
    + rewrite last_cons. by destruct (last (iv_upto hi rest)).
Qed.

(** The chunks of the extents that overlap a request. *)
Lemma chunks_lookup lo len us b :
  Forall (fun n => iv_wf n /\ lo <= em_end (en_extent n) /\ em_start (en_extent n) <= lo + len - 1) us ->
  0 <= lo -> 0 < len <= ULONG_MAX -> lo + len - 1 <= ULONG_MAX -> lo <= b <= lo + len - 1 ->
  iv_lookup (chunk_req_from_extent lo len <$> us) b = iv_lookup us b.
Proof.
  intros Hus Hlo Hlen Hhi Hb. induction Hus as [|n us (Hn & H1 & H2) _ IH]; [done|].
  cbn [fmap list_fmap iv_lookup]. fold (fmap (M:=list) (chunk_req_from_extent lo len) us).
  destruct (chunk_req_from_extent_spec lo len n Hn Hlo Hlen Hhi H2 H1) as (Hs & He & Hl).
  rewrite IH Hl. assert (iv_covers (chunk_req_from_extent lo len n) b = iv_covers n b) as ->; [|done].
  apply eq_true_iff_eq. rewrite !iv_covers_true Hs He. simpl. lia.
Qed.

Lemma chunks_sorted lo len us :
  iv_sorted us ->
  Forall (fun n => iv_wf n /\ lo <= em_end (en_extent n) /\ em_start (en_extent n) <= lo + len - 1) us ->
  0 <= lo -> 0 < len <= ULONG_MAX -> lo + len - 1 <= ULONG_MAX ->
  iv_sorted (chunk_req_from_extent lo len <$> us) /\
  Forall (fun c => lo <= iv_start c /\ iv_end c <= lo + len - 1) (chunk_req_from_extent lo len <$> us).
Proof.
  intros Hs Hus Hlo Hlen Hhi. induction Hus as [|n us (Hn & H1 & H2) Hus IH]; [split; [apply iv_sorted_nil|done]|].
  apply iv_sorted_cons in Hs as (_ & Hs & Hlt). destruct (IH Hs) as [IH1 IH2].
  destruct (chunk_req_from_extent_spec lo len n Hn Hlo Hlen Hhi H2 H1) as (Hcs & Hce & _).
  destruct Hn as [Hn1 Hn2]. simpl in Hn1, Hn2. rewrite fmap_cons. split.
  - apply iv_sorted_cons. split_and!; [split; lia|done|].
    apply Forall_fmap, Forall_forall. intros x Hx. rewrite Forall_forall in Hlt.
    rewrite Forall_forall in Hus. specialize (Hlt x Hx). destruct (Hus x Hx) as (Hwx & Hx1 & Hx2).
    destruct (chunk_req_from_extent_spec lo len x Hwx Hlo Hlen Hhi Hx2 Hx1) as (Hxs & _ & _).
    unfold compose, iv_lt in *. simpl in Hlt. rewrite Hxs Hce. lia.
  - constructor; [lia|done].
Qed.

(** The first overlapping extent and everything after it. *)
Lemma find_overlap_split lo hi (es : list extent_tree_node) f :
  iv_sorted es -> List.find (iv_overlaps lo hi) es = Some f ->
  exists es1 es2, es = es1 ++ f :: es2 /\
    Forall (fun n => em_end (en_extent n) < lo) es1 /\
    Forall (fun n => lo <= em_end (en_extent n)) (f :: es2) /\ em_start (en_extent f) <= hi.
Proof.
  intros Hs (es1 & es2 & -> & Hno & Hf)%find_some_split. unfold iv_overlaps in Hf. zbool. simpl in *.
  pose proof Hs as (Hs' & Hwf & Hlt1 & Hlt2)%iv_sorted_mid. exists es1, es2. split_and!; [done| | |done].
  - apply Forall_forall. intros n Hn. rewrite Forall_forall in Hno. rewrite Forall_forall in Hlt1.
    specialize (Hno n Hn). specialize (Hlt1 n Hn). unfold iv_overlaps, iv_lt, iv_wf in *. simpl in *.
    destruct Hs as [Hw _]. apply Forall_app in Hw as [Hw _]. rewrite Forall_forall in Hw.
    destruct (Hw n Hn) as [Hn1 _]. simpl in Hn1. apply andb_false_iff in Hno as [?|?]; zbool; lia.
  - constructor; [done|]. apply Forall_forall. intros n Hn. rewrite Forall_forall in Hlt2.
    specialize (Hlt2 n Hn). unfold iv_lt in Hlt2. simpl in Hlt2.
    destruct Hs' as [Hw _]. apply Forall_app in Hw as [_ Hw]. rewrite Forall_forall in Hw.
    destruct (Hw n Hn) as [Hn1 _]. simpl in Hn1. lia.
Qed.

Record chunk_list_post tree (lo len : Z) (cl : chunk_list) : Prop := {
  clp_ret : cl_ret cl = 0;
  clp_count : cl_n_chunks cl = Z.of_nat (length (cl_chunks cl));
  clp_sorted : iv_sorted (cl_chunks cl);
  clp_within : Forall (fun c => lo <= iv_start c /\ iv_end c <= lo + len - 1) (cl_chunks cl);
  clp_lookup b : lo <= b <= lo + len - 1 -> iv_lookup (cl_chunks cl) b = rt_lookup tree b;
  clp_covered : cl_extent_covered cl = true <->
    forall b, lo <= b <= lo + len - 1 -> rt_lookup tree b <> None;
}.

(** The extents that overlap the request, from the first one found. *)
Lemma overlapping_extents m tree lo hi f es1 es2 :
  rt_wf m tree -> rt_nodes tree = es1 ++ f :: es2 ->
  Forall (fun n => em_end (en_extent n) < lo) es1 ->
  Forall (fun n => lo <= em_end (en_extent n)) (f :: es2) ->
  let us := iv_upto hi (f :: es2) in
  iv_sorted us /\
  Forall (fun n => iv_wf n /\ lo <= em_end (en_extent n) /\ em_start (en_extent n) <= hi) us /\
  (forall b, lo <= b <= hi -> iv_lookup us b = rt_lookup tree b).
Proof.
  intros Hwf Heq Hes1 Hrest us. pose proof (rt_wf_sorted _ _ Hwf) as Hs.
  rewrite Heq in Hs. apply iv_sorted_app in Hs as (_ & Hs & _). split_and!.
  - by apply iv_upto_sorted.
  - pose proof (iv_upto_start hi (f :: es2)) as Hst. fold us in Hst.
    rewrite Forall_forall in Hst. rewrite Forall_forall in Hrest. destruct Hs as [Hw _].
    rewrite Forall_forall in Hw. apply Forall_forall. intros n Hn.
    pose proof (iv_upto_subset _ _ _ Hn). split_and!; [by apply Hw|by apply Hrest|by apply Hst].
  - intros b Hb. unfold us. rewrite iv_upto_lookup //; [lia|]. unfold rt_lookup. rewrite Heq iv_lookup_app.
    rewrite (iv_lookup_none es1) //. eapply Forall_impl; [exact Hes1|]. simpl. intros; lia.
Qed.

Lemma chunk_count_small (us : list extent_tree_node) :
  Z.of_nat (S (length us)) < 4294967296 ->
  u32 (u32 (0 + 1) + Z.of_nat (length us)) = Z.of_nat (S (length us)).
Proof. intros Hc. rewrite u32_add_l. unfold u32. rewrite Z.mod_small; lia. Qed.

Lemma chunk_list_post_intro tree lo len f us :
  is_u64 lo -> 0 < len <= ULONG_MAX -> lo + len - 1 <= ULONG_MAX ->
  iv_sorted (f :: us) ->
  Forall (fun n => iv_wf n /\ lo <= em_end (en_extent n) /\ em_start (en_extent n) <= lo + len - 1)
    (f :: us) ->
  (forall b, lo <= b <= lo + len - 1 -> iv_lookup (f :: us) b = rt_lookup tree b) ->
  chunk_list_post tree lo len
    (ChunkList 0 (Z.of_nat (S (length us))) (chunk_req_from_extent lo len <$> f :: us)
       (negb (false || iv_gap (em_end (en_extent f)) us ||
         match (match last us with Some l => Some l | None => Some f end) with
         | Some l => (em_start (en_extent f) >? lo) || (em_end (en_extent l) <? lo + len - 1)
         | None => false
         end))).
Proof.
  intros [Hlo _] Hlen Hhi Hs Hov Hlk.
  destruct (chunks_sorted lo len (f :: us) Hs Hov Hlo Hlen Hhi) as [Hcs Hcw].
  split; cbn [cl_ret cl_n_chunks cl_chunks cl_extent_covered]; [done|by rewrite length_fmap|done|done| |].
  - intros b Hb. rewrite chunks_lookup //. by apply Hlk.
  - assert (forall b, lo <= b <= lo + len - 1 ->
      (rt_lookup tree b <> None <-> iv_lookup (f :: us) b <> None)) as Hiff.
    { intros b Hb. by rewrite Hlk. }
    rewrite negb_true_iff !orb_false_iff.
    transitivity (iv_gap (iv_end f) us = false /\ iv_start f <= lo /\
                  lo + len - 1 <= iv_last_end (iv_end f) us).
    + unfold iv_last_end. simpl.
      destruct (last us) as [l|]; rewrite orb_false_iff Z.gtb_ltb !Z.ltb_ge; tauto.
    + rewrite (iv_covered lo (lo + len - 1)) //; [lia| |].
      * eapply Forall_impl; [exact Hov|]. simpl. tauto.
      * split; intros Hall b Hb; apply (Hiff b Hb), Hall, Hb.
Qed.

Lemma extent_tree_get_chunk_list_post m tree lo len :
  rt_wf m tree -> is_u64 lo -> 0 < len <= ULONG_MAX -> lo + len - 1 <= ULONG_MAX ->
  Z.of_nat (length (rt_nodes tree)) < 4294967296 -> mem_plenty m ->
  exists m' cl, extent_tree_get_chunk_list m tree lo len = Some (m', cl) /\
    chunk_list_post tree lo len cl /\ (length (cl_chunks cl) <= length (rt_nodes tree))%nat /\
    mem_next m <= mem_next m' /\ mem_plenty m'.
Proof.
  intros Hwf Hlo Hlen Hhi Hsmall Hpl. unfold extent_tree_get_chunk_list.
  rewrite (u64_small (lo + len - 1)); first (unfold is_u64 in *; lia).
  set (hi := lo + len - 1) in *. pose proof (rt_wf_sorted _ _ Hwf) as Hs.
  pose proof (extent_tree_find_post m tree lo hi Hwf Hlo) as Hfind.
  destruct (extent_tree_find m tree lo hi) as [m1 first].
  destruct Hfind as (Hn1 & Hpl1 & [-> | [_ ?]]); [|done]. specialize (Hpl1 Hpl).
  destruct (List.find (iv_overlaps lo hi) (rt_nodes tree)) as [f|] eqn:Hf.
  2:{ eexists _, _. split; [done|]. split; [|split; [simpl; lia|done]]. split; simpl; [done|done|apply iv_sorted_nil|done| |].
      - intros b Hb. symmetry. by apply (iv_mapped_none lo hi).
      - split; [done|]. intros Hall. exfalso. apply (Hall lo); [lia|].
        apply (iv_mapped_none lo hi); [done|lia]. }
  destruct (find_overlap_split lo hi _ f Hs Hf) as (es1 & es2 & Heq & Hes1 & Hrest & Hfs).
  destruct (overlapping_extents m tree lo hi f es1 es2 Hwf Heq Hes1 Hrest) as (Hus & Hov & Hlk).
  assert (length es2 <= 2 * length (rb_elems (rt_head tree)))%nat as Hfuel.
  { fold (rt_nodes tree). rewrite Heq length_app /=. lia. }
  unfold extent_tree_fuel. cbn [extent_tree_count_chunks].
  rewrite (proj2 (Z.leb_le _ _) Hfs) Z.eqb_refl. cbn [negb andb orb].
  assert (f ∈ rt_nodes tree) as Hin by (rewrite Heq; set_solver).
  destruct (rt_wf_elem m tree f Hwf Hin) as [[Hf1 Hf2] _]. simpl in Hf1, Hf2.
  rewrite Heq in Hs. apply iv_sorted_app in Hs as (_ & (_ & _ & Hlt)%iv_sorted_cons & _).
  rewrite (extent_tree_iter_next m tree es1 f es2 (rt_wf_tree _ _ Hwf) Heq).
  rewrite (extent_tree_count_chunks_spec _ m tree hi f (es1 ++ [f]) es2);
    [done|by rewrite -app_assoc|set_solver|done|done|lia|by intros|].
  rewrite (extent_tree_fill_chunks_spec _ m tree lo len hi es1 (f :: es2));
    [done|done|simpl; lia|].
  assert (iv_upto hi (f :: es2) = f :: iv_upto hi es2) as Hu.
  { simpl. by rewrite (proj2 (Z.leb_le _ _) Hfs). }
  rewrite Hu in Hus Hov Hlk *.
  assert (Z.of_nat (S (length (iv_upto hi es2))) < 4294967296) as Hcnt.
  { rewrite Heq length_app /= in Hsmall. pose proof (iv_upto_length hi es2). lia. }
  rewrite (chunk_count_small _ Hcnt). rewrite (proj2 (Z.eqb_neq _ _)); first lia.
  destruct (calloc_plenty m1 Hpl1) as (m2 & -> & Hpl2 & Hn2).
  eexists _, _. split; [done|]. split; [by apply chunk_list_post_intro|]. split; [|split; [lia|done]].
  cbn [cl_chunks]. rewrite length_fmap Heq length_app /=. pose proof (iv_upto_length hi es2). lia.
Qed.

(** ** Reachable trees *)

Inductive extent_tree_reach : mem -> extent_tree -> Prop :=
  | ext_reach_init m : extent_tree_reach m extent_tree_init
  | ext_reach_add m tree e m' tree' rc :
      extent_tree_reach m tree -> em_valid e ->
      extent_tree_add m tree e = Some (m', tree', rc) -> extent_tree_reach m' tree'
  | ext_reach_find m tree lo hi m' r :
      extent_tree_reach m tree -> is_u64 lo ->
      extent_tree_find m tree lo hi = (m', r) -> extent_tree_reach m' tree
  | ext_reach_truncate dbg m tree size tree' :
      extent_tree_reach m tree -> is_u64 size ->
      extent_tree_truncate dbg tree size = Done tree' -> extent_tree_reach m tree'
  | ext_reach_clear m tree tree' :
      extent_tree_reach m tree -> extent_tree_clear tree = Some tree' -> extent_tree_reach m tree'.

Lemma extent_tree_reach_wf m tree : extent_tree_reach m tree -> rt_wf m tree.
Proof.
  induction 1 as [m|m tree e m' tree' rc _ IH Hr Hop|m tree lo hi m' r _ IH Hr Hop
    |dbg m tree size tree' _ IH Hr Hop|m tree tree' _ IH Hop].
  - apply rt_wf_null.
  - destruct (extent_tree_add_post m tree e IH Hr) as (? & ? & ? & Hop' & [? ? ? Hw]). congruence.
  - pose proof (extent_tree_find_post m tree lo hi IH Hr) as Hf. rewrite Hop in Hf.
    destruct Hf as (? & _ & _). by eapply rt_wf_mono.
  - pose proof (extent_tree_truncate_spec dbg m tree size IH Hr) as Ht. rewrite Hop in Ht. apply Ht.
  - rewrite (extent_tree_clear_spec m tree IH) in Hop. injection Hop as <-. apply rt_wf_null.
Qed.

(** ** Properties *)

(** C17. Last writer wins, with the identity of the log.  On every reachable
    extent tree, while allocations succeed, [extent_tree_add] returns 0 and
    the file is afterwards mapped as before, except for the bytes of the new
    extent, which are mapped to the given server, application, client and log
    position. *)
Theorem extent_tree_add_last_write m tree e :
  extent_tree_reach m tree -> em_valid e -> mem_plenty m ->
  exists m' tree', extent_tree_add m tree e = Some (m', tree', 0) /\
    forall b, rt_lookup tree' b =
      if (em_start e <=? b) && (b <=? em_end e) then Some (extent_byte_loc e b) else rt_lookup tree b.
Proof.
  intros Hreach Hr Hpl.
  destruct (extent_tree_add_post m tree e (extent_tree_reach_wf _ _ Hreach) Hr)
    as (m' & tree' & rc & Hadd & Hp).
  destruct (eap_plenty _ _ _ _ _ _ Hp Hpl) as [-> _]. exists m', tree'. split; [done|].
  intros b. apply if_in_range.
  - by apply (eap_inside _ _ _ _ _ _ Hp).
  - by apply (eap_outside _ _ _ _ _ _ Hp).
Qed.

(** A failed [extent_tree_add] (ENOMEM) loses at most bytes of the range
    that was being overwritten: nothing is redirected and nothing outside the
    range or in [max] changes; the call ends in every case. *)
Theorem extent_tree_add_failure m tree e :
  extent_tree_reach m tree -> em_valid e ->
  exists m' tree' rc, extent_tree_add m tree e = Some (m', tree', rc) /\
    (rc = 0 \/ rc = ENOMEM) /\
    (rc = ENOMEM -> extent_tree_max_offset tree' = extent_tree_max_offset tree /\ forall b,
      (rt_lookup tree' b = rt_lookup tree b \/ em_start e <= b <= em_end e /\ rt_lookup tree' b = None)).
Proof.
  intros Hreach Hr.
  destruct (extent_tree_add_post m tree e (extent_tree_reach_wf _ _ Hreach) Hr)
    as (m' & tree' & rc & Hadd & Hp).
  exists m', tree', rc. split_and!; [done|apply Hp|]. intros ->.
  split; [by rewrite /extent_tree_max_offset (eap_max _ _ _ _ _ _ Hp)|]. intros b.
  destruct (decide (em_start e <= b <= em_end e)) as [Hb|Hb];
    [|left; by apply (eap_outside _ _ _ _ _ _ Hp)].
  destruct (rt_lookup tree' b) as [v|] eqn:Hl; [left|by right].
  symmetry. by apply (eap_sub _ _ _ _ _ _ Hp).
Qed.

(** The invariant of every reachable extent tree: sorted disjoint extents,
    [count] their number, [max] a bound on their ends, balanced. *)
Theorem extent_tree_invariant m tree :
  extent_tree_reach m tree ->
  iv_sorted (rt_nodes tree) /\
  extent_tree_count tree = u64 (Z.of_nat (length (rt_nodes tree))) /\
  Forall (fun n => em_end (en_extent n) <= extent_tree_max_offset tree) (rt_nodes tree) /\
  (rb_depth (rt_head tree) <= 2 * Nat.log2 (S (length (rt_nodes tree))))%nat.
Proof.
  intros [Ht Hc Hx]%extent_tree_reach_wf. split_and!; [apply Ht|done|done|].
  apply rb_valid_depth, Ht.
Qed.

(** Without debug logging, [extent_tree_truncate] ends, keeps every byte
    below the new size, drops every byte at or above it, and sets [max] to the
    end of the last extent that is left. *)
Theorem extent_tree_truncate_exact m tree size :
  extent_tree_reach m tree -> is_u64 size ->
  exists tree', extent_tree_truncate false tree size = Done tree' /\
    (forall b, rt_lookup tree' b = if b <? size then rt_lookup tree b else None) /\
    (0 < size -> extent_tree_max_offset tree' = last_offset tree').
Proof.
  intros Hreach Hsize.
  pose proof (extent_tree_truncate_spec false m tree size (extent_tree_reach_wf _ _ Hreach) Hsize) as Ht.
  destruct (extent_tree_truncate false tree size) as [tree'| |]; [|by destruct Ht|done].
  destruct Ht as (_ & Hl & Hm). exists tree'. split_and!; [done|done|]. intros. apply Hm. by right.
Qed.

(** The chunk list of a read request.  For a request of [len] bytes at
    [lo], [extent_tree_get_chunk_list] returns sorted disjoint chunks inside
    the request that fetch every mapped byte from the log position the tree
    maps it to and no other byte, and it sets [extent_covered] exactly when
    every byte of the request is mapped. *)
Theorem extent_tree_get_chunk_list_correct m tree lo len :
  extent_tree_reach m tree -> is_u64 lo -> 0 < len <= ULONG_MAX -> lo + len - 1 <= ULONG_MAX ->
  Z.of_nat (length (rt_nodes tree)) < 4294967296 -> mem_plenty m ->
  exists m' cl, extent_tree_get_chunk_list m tree lo len = Some (m', cl) /\
    cl_ret cl = 0 /\ cl_n_chunks cl = Z.of_nat (length (cl_chunks cl)) /\
    iv_sorted (cl_chunks cl) /\
    Forall (fun c => lo <= cr_offset c /\ cr_offset c + cr_nbytes c <= lo + len) (cl_chunks cl) /\
    (forall b, lo <= b < lo + len -> iv_lookup (cl_chunks cl) b = rt_lookup tree b) /\
    (cl_extent_covered cl = true <-> forall b, lo <= b < lo + len -> rt_lookup tree b <> None).
Proof.
  intros Hreach Hlo Hlen Hhi Hsmall Hpl.
  destruct (extent_tree_get_chunk_list_post m tree lo len (extent_tree_reach_wf _ _ Hreach)
    Hlo Hlen Hhi Hsmall Hpl) as (m' & cl & Hget & [Hret Hcnt Hs Hw Hlk Hcov] & _).
  exists m', cl. split_and!; [done..| | |].
  - eapply Forall_impl; [exact Hw|]. simpl. intros; lia.
  - intros b Hb. apply Hlk. lia.
  - rewrite Hcov. split; intros Hall b Hb; apply Hall; lia.
Qed.

(** *** A concrete tree: two clients of two servers *)

Definition ext_example_writes (m : mem) : option (mem * extent_tree * Z) :=
  match extent_tree_add m extent_tree_init (ExtentMd 0 99 1000 0 7 1) with
  | Some (m1, t1, _) =>
      match extent_tree_add m1 t1 (ExtentMd 40 59 5000 1 7 2) with
      | Some (m2, t2, _) => extent_tree_add m2 t2 (ExtentMd 200 209 7000 0 7 1)
      | None => None
      end
  | None => None
  end.

Lemma ext_example_writes_reach m m' tree rc :
  ext_example_writes m = Some (m', tree, rc) -> extent_tree_reach m' tree.
Proof.
  unfold ext_example_writes.
  destruct (extent_tree_add m _ _) as [[[m1 t1] rc1]|] eqn:H1; [|done].
  destruct (extent_tree_add m1 _ _) as [[[m2 t2] rc2]|] eqn:H2; [|done]. intros H3.
  refine (ext_reach_add _ _ _ _ _ _ _ _ H3); [|split; [simpl; lia|by vm_compute]].
  refine (ext_reach_add _ _ _ _ _ _ _ _ H2); [|split; [simpl; lia|by vm_compute]].
  refine (ext_reach_add _ _ _ _ _ _ _ _ H1); [|split; [simpl; lia|by vm_compute]]. constructor.
Qed.

Definition ext_example_tree : extent_tree := Eval vm_compute in
  match ext_example_writes (Mem 1 []) with Some (_, t, _) => t | None => extent_tree_init end.

Lemma ext_example_reach fs : extent_tree_reach (Mem 7 fs) ext_example_tree.
Proof. apply (ext_example_writes_reach (Mem 1 (repeat false 6 ++ fs)) _ _ 0). by vm_compute. Qed.

Lemma extent_tree_add_last_write_witness :
  exists m' tree', extent_tree_add (Mem 7 []) ext_example_tree (ExtentMd 30 69 9000 1 7 3)
    = Some (m', tree', 0) /\
    rt_lookup tree' 29 = Some (ExtentLoc 0 7 1 1029) /\ rt_lookup tree' 69 = Some (ExtentLoc 1 7 3 9039).
Proof.
  destruct (extent_tree_add_last_write (Mem 7 []) ext_example_tree (ExtentMd 30 69 9000 1 7 3))
    as (m' & tree' & Hadd & Hl); [apply ext_example_reach|split; [simpl; lia|by vm_compute]|constructor|].
  exists m', tree'. split; [exact Hadd|]. rewrite !Hl. split; by vm_compute.
Defined.

Lemma extent_tree_add_failure_witness :
  exists m' tree', extent_tree_add (Mem 7 [false; true]) ext_example_tree (ExtentMd 30 69 9000 1 7 3)
    = Some (m', tree', ENOMEM) /\ extent_tree_max_offset tree' = 209.
Proof.
  destruct (extent_tree_add_failure (Mem 7 [false; true]) ext_example_tree (ExtentMd 30 69 9000 1 7 3))
    as (m' & tree' & rc & Hadd & _ & Hl); [apply ext_example_reach|split; [simpl; lia|by vm_compute]|].
  assert (rc = ENOMEM) as -> by (vm_compute in Hadd; by injection Hadd).
  exists m', tree'. split; [exact Hadd|]. by rewrite (proj1 (Hl eq_refl)).
Defined.

Lemma extent_tree_invariant_witness : (rb_depth (rt_head ext_example_tree) <= 4)%nat.
Proof. apply (extent_tree_invariant (Mem 7 []) ext_example_tree (ext_example_reach [])). Defined.

Lemma extent_tree_truncate_exact_witness :
  exists tree', extent_tree_truncate false ext_example_tree 50 = Done tree' /\
    rt_lookup tree' 49 = Some (ExtentLoc 1 7 2 5009) /\ rt_lookup tree' 50 = None.
Proof.
  destruct (extent_tree_truncate_exact (Mem 7 []) ext_example_tree 50 (ext_example_reach []))
    as (tree' & Ht & Hl & _); [by vm_compute|]. exists tree'. rewrite !Hl. split_and!; by vm_compute.
Defined.

Lemma extent_tree_get_chunk_list_correct_witness :
  exists m' cl, extent_tree_get_chunk_list (Mem 7 []) ext_example_tree 30 60 = Some (m', cl) /\
    cl_extent_covered cl = true /\ iv_lookup (cl_chunks cl) 45 = Some (ExtentLoc 1 7 2 5005).
Proof.
  destruct (extent_tree_get_chunk_list_correct (Mem 7 []) ext_example_tree 30 60 (ext_example_reach []))
    as (m' & cl & Hget & _ & _ & _ & _ & Hl & _);
    [by vm_compute|by vm_compute|by vm_compute|by vm_compute|constructor|].
  exists m', cl. split; [done|]. split; [vm_compute in Hget; by injection Hget as _ <-|].
  rewrite Hl; [lia|by vm_compute].
Defined.

(** *** Where the code departs from its intent *)

(** With debug logging, truncating a file to a size before its first extent
    reads the fields of a null pointer: the message printed for the removed
    extent uses the previous one, which does not exist. *)
Theorem extent_tree_truncate_null_deref :
  match extent_tree_add (Mem 1 []) extent_tree_init (ExtentMd 100 199 0 0 7 1) with
  | Some (_, tree, _) => extent_tree_truncate true tree 50
  | None => NoFuel
  end = NullDeref.
Proof. by vm_compute. Qed.
