(* ===== verification/WriteIndex.v ===== *)
(** * Write indexes: what the client's and the server's trees promise

    A client records a write in its segment tree; when the file is synced the
    servers record the same extents in their extent trees
    ([unifyfs_inode_add_extents]).  Both structures promise the same to their
    users: a map from bytes to log positions in which a write overrides what
    it overlaps.  [WriteIndex] states that promise; the theorems about
    sequences of writes are proved against it, and the two trees discharge it. *)

From S2P Require Import Prelude.
From S2P Require Import RbTree.
From S2P Require Import Extents.
From S2P Require Import RangeTree.
From S2P Require Import SegTree.
From S2P Require Import ExtentTree.

(** ** The interface *)

Class WriteIndexOps (T W L : Type) := {
  wi_init : T;
  wi_add : mem -> T -> W -> option (mem * T * Z);
  wi_get : T -> Z -> option L;
  wi_start : W -> Z;
  wi_end : W -> Z;
  wi_loc : W -> Z -> L;
}.

Class WriteIndex (T W L : Type) `{!WriteIndexOps T W L} := {
  wi_ok : mem -> T -> Prop;
  wi_init_ok m : wi_ok m wi_init;
  wi_init_get b : wi_get wi_init b = None;
  wi_add_ok m t w :
    wi_ok m t -> mem_plenty m -> valid_range (wi_start w) (wi_end w) ->
    exists m' t', wi_add m t w = Some (m', t', 0) /\ wi_ok m' t' /\ mem_plenty m' /\
      forall b, wi_get t' b =
        if (wi_start w <=? b) && (b <=? wi_end w) then Some (wi_loc w b) else wi_get t b;
}.

(** ** Sequences of writes *)

Section Replay.
Context {T W L : Type} `{!WriteIndexOps T W L, !WriteIndex T W L}.
Implicit Types (m : mem) (t : T) (w : W) (ws : list W).

(** Adding a sequence of writes, stopping at the first error. *)
Fixpoint wi_replay m t ws : option (mem * T * Z) :=
  match ws with
  | [] => Some (m, t, 0)
  | w :: ws' =>
      match wi_add m t w with
      | Some (m', t', rc) => if rc =? 0 then wi_replay m' t' ws' else Some (m', t', rc)
      | None => None
      end
  end.

(** The specification: the last write that covers [b] decides. *)
Fixpoint wi_last ws b (old : option L) : option L :=
  match ws with
  | [] => old
  | w :: ws' =>
      wi_last ws' b (if (wi_start w <=? b) && (b <=? wi_end w) then Some (wi_loc w b) else old)
  end.

Lemma wi_replay_from m t ws :
  wi_ok m t -> mem_plenty m -> Forall (fun w => valid_range (wi_start w) (wi_end w)) ws ->
  exists m' t', wi_replay m t ws = Some (m', t', 0) /\ wi_ok m' t' /\
    forall b, wi_get t' b = wi_last ws b (wi_get t b).
Proof.
  intros Hok Hpl Hws. revert m t Hok Hpl. induction Hws as [|w ws Hw _ IH]; intros m t Hok Hpl; simpl.
  - by exists m, t.
  - destruct (wi_add_ok m t w Hok Hpl Hw) as (m1 & t1 & -> & Hok1 & Hpl1 & Hget). simpl.
    destruct (IH m1 t1 Hok1 Hpl1) as (m' & t' & Hr & Hok' & Hget'). exists m', t'.
    split_and!; [done|done|]. intros b. by rewrite Hget' Hget.
Qed.

Lemma wi_replay_spec m ws :
  mem_plenty m -> Forall (fun w => valid_range (wi_start w) (wi_end w)) ws ->
  exists m' t', wi_replay m wi_init ws = Some (m', t', 0) /\
    forall b, wi_get t' b = wi_last ws b None.
Proof.
  intros Hpl Hws. destruct (wi_replay_from m wi_init ws (wi_init_ok m) Hpl Hws) as (m' & t' & Hr & _ & Hg).
  exists m', t'. split; [done|]. intros b. by rewrite Hg wi_init_get.
Qed.

End Replay.

(** ** The segment tree *)

(** A write of client [sw_client_id] to its log. *)
Record seg_write := SegWrite { sw_start : Z; sw_end : Z; sw_ptr : Z; sw_client_id : Z }.

#[export] Instance seg_tree_index_ops : WriteIndexOps seg_tree seg_write Z :=
  { wi_init := seg_tree_init;
    wi_add m st w := seg_tree_add m st (sw_start w) (sw_end w) (sw_ptr w) (sw_client_id w);
    wi_get := rt_lookup;
    wi_start := sw_start; wi_end := sw_end;
    wi_loc w b := sw_ptr w ⊞ (b - sw_start w) }.

#[export] Instance seg_tree_index : WriteIndex seg_tree seg_write Z.
Proof.
  refine {| wi_ok := fun m (st : seg_tree) => rt_wf m st |}.
  - intros m. apply rt_wf_null.
  - done.
  - intros m st w Hok Hpl Hw. simpl in *.
    destruct (seg_tree_add_post m st _ _ (sw_ptr w) (sw_client_id w) Hok Hw) as (m' & st' & rc & Hadd & Hp).
    destruct (ap_plenty _ _ _ _ _ _ _ _ _ Hp Hpl) as [-> Hpl']. exists m', st'.
    split_and!; [done|apply Hp|done|]. intros b. apply if_in_range.
    + by apply (ap_inside _ _ _ _ _ _ _ _ _ Hp).
    + by apply (ap_outside _ _ _ _ _ _ _ _ _ Hp).
Defined.

(** ** The extent tree *)

#[export] Instance extent_tree_index_ops : WriteIndexOps extent_tree extent_metadata extent_loc :=
  { wi_init := extent_tree_init; wi_add := extent_tree_add; wi_get := rt_lookup;
    wi_start := em_start; wi_end := em_end; wi_loc := extent_byte_loc }.

#[export] Instance extent_tree_index : WriteIndex extent_tree extent_metadata extent_loc.
Proof.
  refine {| wi_ok := fun m (tree : extent_tree) => rt_wf m tree |}.
  - intros m. apply rt_wf_null.
  - done.
  - intros m tree e Hok Hpl He. simpl in *.
    destruct (extent_tree_add_post m tree e Hok He) as (m' & tree' & rc & Hadd & Hp).
    destruct (eap_plenty _ _ _ _ _ _ Hp Hpl) as [-> Hpl']. exists m', tree'.
    split_and!; [done|apply Hp|done|]. intros b. apply if_in_range.
    + by apply (eap_inside _ _ _ _ _ _ Hp).
    + by apply (eap_outside _ _ _ _ _ _ Hp).
Defined.

(** ** Client and server agree *)

(** The extent a server records for a write of a client of application [app]
    on server [svr]. *)
Definition synced (svr app : Z) (w : seg_write) : extent_metadata :=
  ExtentMd (sw_start w) (sw_end w) (sw_ptr w) svr app (sw_client_id w).

Lemma wi_last_synced svr app ws b old1 old2 :
  option_map el_log_pos old2 = old1 ->
  option_map el_log_pos (wi_last (synced svr app <$> ws) b old2) = wi_last ws b old1.
Proof.
  revert old1 old2. induction ws as [|w ws IH]; intros old1 old2 Hold; [done|].
  cbn [fmap list_fmap wi_last]. apply IH. simpl. by destruct (_ && _).
Qed.

(** C18. Replaying any sequence of writes leaves the tree of [seg_tree_add] and
    the tree of [extent_tree_add] with the same view of the file: every byte
    is mapped by both or by none, to the same log position, namely that of
    the last write that covers it, although the two trees split and merge
    different ranges on the way. *)
Theorem client_server_agree m1 m2 svr app ws :
  mem_plenty m1 -> mem_plenty m2 -> Forall (fun w => valid_range (sw_start w) (sw_end w)) ws ->
  exists m1' st m2' tree,
    wi_replay m1 seg_tree_init ws = Some (m1', st, 0) /\
    wi_replay m2 extent_tree_init (synced svr app <$> ws) = Some (m2', tree, 0) /\
    forall b, rt_lookup st b = wi_last ws b None /\
      option_map el_log_pos (rt_lookup tree b) = rt_lookup st b.
Proof.
  intros Hp1 Hp2 Hws.
  destruct (wi_replay_spec (T := seg_tree) (L := Z) m1 ws Hp1) as (m1' & st & Hr1 & Hg1); [exact Hws|].
  destruct (wi_replay_spec (T := extent_tree) (L := extent_loc) m2 (synced svr app <$> ws) Hp2) as (m2' & tree & Hr2 & Hg2).
  { apply Forall_fmap. eapply Forall_impl; [exact Hws|]. done. }
  exists m1', st, m2', tree. split_and!; [done|done|]. intros b. simpl in Hg1, Hg2.
  rewrite Hg1 Hg2. split; [done|]. by apply wi_last_synced.
Qed.

Lemma client_server_agree_witness :
  exists m1 st m2 tree,
    wi_replay (Mem 1 []) seg_tree_init [SegWrite 0 9 100 1; SegWrite 4 5 200 1; SegWrite 6 20 300 1]
      = Some (m1, st, 0) /\
    wi_replay (Mem 1 []) extent_tree_init
      (synced 0 7 <$> [SegWrite 0 9 100 1; SegWrite 4 5 200 1; SegWrite 6 20 300 1]) = Some (m2, tree, 0) /\
    rt_lookup st 5 = Some 201 /\ option_map el_log_pos (rt_lookup tree 5) = rt_lookup st 5.
Proof.
  destruct (client_server_agree (Mem 1 []) (Mem 1 []) 0 7
    [SegWrite 0 9 100 1; SegWrite 4 5 200 1; SegWrite 6 20 300 1]) as (m1 & st & m2 & tree & H1 & H2 & Hl).
  - constructor.
  - constructor.
  - repeat constructor; simpl; try lia; by vm_compute.
  - exists m1, st, m2, tree. split_and!; [done|done| |apply Hl]. by rewrite (proj1 (Hl 5)).
Defined.
