(* ===== verification/SlotMap.v ===== *)
(** * Slot maps ([common/src/slotmap.c])

    A slot map tracks the use of consecutive slots (the data chunks of a
    client's write log) in a bitmap that follows the structure in memory.  The
    state [slot_map] is the structure and its bitmap; there is one definition
    per function.  Slot and byte numbers are [size_t] values, [-1] stands for
    the [ssize_t] value -1. *)

From S2P Require Import Prelude.

(** ** State *)

Record slot_map := SlotMap {
  total_slots : Z;
  used_slots : Z;
  first_used_slot : Z;
  last_used_slot : Z;
  use_map : list Z;      (* the bytes after the structure *)
}.

(** [sizeof(slot_map)]: four 8-byte fields. *)
Definition sizeof_slot_map : Z := 32.

(** ** Bits and bytes *)

Definition SLOT_BYTE (slot : Z) : Z := Z.shiftr slot 3.
Definition SLOT_BIT (slot : Z) : Z := Z.land slot 7.
Definition BYTE_BIT_TO_SLOT (byte bit : Z) : Z := byte * 8 + bit.
Definition BYTE_VAL_BIT (byte_val bit : Z) : bool := negb (Z.land byte_val (Z.shiftl 1 bit) =? 0).

(** A byte of the bitmap; every access of [slotmap_reserve] is in range. *)
Definition usemap_byte (usemap : list Z) (byte : Z) : Z := nth (Z.to_nat byte) usemap 0.

Definition set_usemap_byte_bit (usemap : list Z) (byte bit : Z) : list Z :=
  let byte_val := usemap_byte usemap byte in
  <[Z.to_nat byte := Z.lor byte_val (Z.shiftl 1 bit)]> usemap.

Definition clear_usemap_byte_bit (usemap : list Z) (byte bit : Z) : list Z :=
  let byte_val := usemap_byte usemap byte in
  let byte_mask := 255 - Z.shiftl 1 bit in
  <[Z.to_nat byte := Z.land byte_val byte_mask]> usemap.

Definition check_slot (usemap : list Z) (slot : Z) : bool :=
  BYTE_VAL_BIT (usemap_byte usemap (SLOT_BYTE slot)) (SLOT_BIT slot).

Definition use_slot (usemap : list Z) (slot : Z) : list Z :=
  set_usemap_byte_bit usemap (SLOT_BYTE slot) (SLOT_BIT slot).

Definition release_slot (usemap : list Z) (slot : Z) : list Z :=
  clear_usemap_byte_bit usemap (SLOT_BYTE slot) (SLOT_BIT slot).

Definition slot_map_bytes (total : Z) : Z :=
  SLOT_BYTE total + (if SLOT_BIT total =? 0 then 0 else 1).

Definition get_free_slots (smap : slot_map) : Z := total_slots smap ⊟ used_slots smap.

(** ** Initialisation *)

Definition slotmap_clear (smap : slot_map) : slot_map :=
  SlotMap (total_slots smap) 0 (-1) (-1)
    (replicate (Z.to_nat (slot_map_bytes (total_slots smap))) 0).

(** [None]: the region is too small.  The bitmap starts with the contents of
    the region, [region], which [slotmap_clear] overwrites. *)
Definition slotmap_init (num_slots region_sz : Z) (region : list Z) : option slot_map :=
  let avail_use_bytes := region_sz ⊟ sizeof_slot_map in
  let needed_use_bytes := slot_map_bytes num_slots in
  if needed_use_bytes >? avail_use_bytes then None
  else Some (slotmap_clear (SlotMap num_slots 0 0 0 region)).

(** ** Searching a byte *)

(** The inner loop: count zero bits from [bit] on; returns [run_max] and the
    bit at which the loop stops. *)
Fixpoint zero_bit_run (fuel : nat) (byte_val bit run_max : Z) : Z * Z :=
  match fuel with
  | O => (run_max, bit)
  | S fuel' =>
      if BYTE_VAL_BIT byte_val bit then (run_max, bit)
      else if bit + 1 =? 8 then (run_max + 1, bit + 1)
      else zero_bit_run fuel' byte_val (bit + 1) (run_max + 1)
  end.

(** The outer loop: [max_free] and [free_start]. *)
Fixpoint zero_bit_scan (fuel : nat) (byte_val bit max_free free_start : Z) : Z * Z :=
  match fuel with
  | O => (max_free, free_start)
  | S fuel' =>
      if bit <? 8 then
        let '(run_max, bit') := zero_bit_run 8 byte_val bit 0 in
        if run_max >? max_free then zero_bit_scan fuel' byte_val (bit' + 1) run_max bit
        else zero_bit_scan fuel' byte_val (bit' + 1) max_free free_start
      else (max_free, free_start)
  end.

(** Returns [max_free] and [*start_bit]. *)
Definition find_consecutive_zero_bits (byte_val num_bits : Z) : Z * Z :=
  let '(max_free, free_start) := zero_bit_scan 9 byte_val 0 0 0 in
  (max_free, if max_free >=? num_bits then free_start else -1).

(** ** Reserving *)

(** [while (0 == usemap[byte_ndx])], at most [k] more bytes; returns whether
    the run is complete and the byte at which the loop stops. *)
Fixpoint zero_byte_run (k : nat) (usemap : list Z) (byte_ndx : Z) : bool * Z :=
  match k with
  | O => (true, byte_ndx)
  | S k' => if usemap_byte usemap byte_ndx =? 0 then zero_byte_run k' usemap (byte_ndx + 1)
            else (false, byte_ndx)
  end.

(** The last branch of the search: at most 8 bits, in this byte or at the end
    of this byte and the start of the next. *)
Definition reserve_bits (usemap : list Z) (map_bytes num_slots byte_ndx : Z) : option Z :=
  let byte_val := usemap_byte usemap byte_ndx in
  let '(free_bits, bit_in_byte) := find_consecutive_zero_bits byte_val num_slots in
  if free_bits >=? num_slots then Some (BYTE_BIT_TO_SLOT byte_ndx bit_in_byte)
  else if byte_ndx + 1 <? map_bytes then
    let '(_, bit_in_byte) := find_consecutive_zero_bits byte_val free_bits in
    if bit_in_byte =? 8 - free_bits then
      let need_bits := num_slots - free_bits in
      let '(free_bits2, bit_in_byte2) :=
        find_consecutive_zero_bits (usemap_byte usemap (byte_ndx + 1)) need_bits in
      if (free_bits2 >=? need_bits) && (bit_in_byte2 =? 0)
      then Some (BYTE_BIT_TO_SLOT byte_ndx bit_in_byte) else None
    else None
  else None.

(** The [for] loop over the bytes of the map.  The outer [None]: more than
    [fuel] passes; the inner one: no room found. *)
Fixpoint reserve_search (fuel : nat) (usemap : list Z) (map_bytes slot_bytes num_slots byte_ndx : Z)
    : option (option Z) :=
  match fuel with
  | O => None
  | S fuel' =>
      if byte_ndx <? map_bytes then
        if usemap_byte usemap byte_ndx =? 255 then
          reserve_search fuel' usemap map_bytes slot_bytes num_slots (byte_ndx + 1)
        else if (slot_bytes >? 1) && (byte_ndx + slot_bytes <=? map_bytes) then
          let '(found, stop) := zero_byte_run (Z.to_nat slot_bytes) usemap byte_ndx in
          if found then Some (Some (BYTE_BIT_TO_SLOT byte_ndx 0))
          else reserve_search fuel' usemap map_bytes slot_bytes num_slots (stop + 1)
        else
          match reserve_bits usemap map_bytes num_slots byte_ndx with
          | Some start_slot => Some (Some start_slot)
          | None => reserve_search fuel' usemap map_bytes slot_bytes num_slots (byte_ndx + 1)
          end
      else Some None
  end.

(** [for (i = start; i <= end; i++) use_slot(usemap, i)], [n] passes. *)
Fixpoint use_slots (n : nat) (usemap : list Z) (i : Z) : list Z :=
  match n with O => usemap | S n' => use_slots n' (use_slot usemap i) (i + 1) end.

Definition slotmap_reserve (smap : slot_map) (num_slots : Z) : option (slot_map * Z) :=
  if num_slots =? 0 then Some (smap, -1)
  else if get_free_slots smap <? num_slots then Some (smap, -1)
  else
    let slot_bytes := slot_map_bytes num_slots in
    let search_start :=
      if negb (last_used_slot smap =? -1) && (slot_bytes >? 1)
      then SLOT_BYTE (last_used_slot smap) else 0 in
    let map_bytes := slot_map_bytes (total_slots smap) in
    match reserve_search (S (Z.to_nat map_bytes)) (use_map smap) map_bytes slot_bytes num_slots search_start with
    | None => None
    | Some None => Some (smap, -1)
    | Some (Some start_slot) =>
        let end_slot := start_slot + num_slots - 1 in
        let usemap := use_slots (Z.to_nat num_slots) (use_map smap) start_slot in
        let first := if (first_used_slot smap =? -1) || (start_slot <? first_used_slot smap)
                     then start_slot else first_used_slot smap in
        let last := if (last_used_slot smap =? -1) || (end_slot >? last_used_slot smap)
                    then end_slot else last_used_slot smap in
        Some (SlotMap (total_slots smap) (used_slots smap ⊞ num_slots) first last usemap, start_slot)
    end.

(** ** Releasing *)

Fixpoint release_slots (n : nat) (usemap : list Z) (i : Z) : list Z :=
  match n with O => usemap | S n' => release_slots n' (release_slot usemap i) (i + 1) end.

(** [while ((first_slot < total) && !check_slot(usemap, first_slot)) first_slot++],
    at most [n] passes. *)
Fixpoint next_used (n : nat) (usemap : list Z) (total slot : Z) : Z :=
  match n with
  | O => slot
  | S n' => if (slot <? total) && negb (check_slot usemap slot)
            then next_used n' usemap total (slot + 1) else slot
  end.

(** [while ((last_slot >= 0) && !check_slot(usemap, last_slot)) last_slot--] *)
Fixpoint prev_used (n : nat) (usemap : list Z) (slot : Z) : Z :=
  match n with
  | O => slot
  | S n' => if (slot >=? 0) && negb (check_slot usemap slot)
            then prev_used n' usemap (slot - 1) else slot
  end.

(** The tail of [slotmap_release]: the bounds of the used slots.  Both
    assignments are to [last_used_slot], as in the source. *)
Definition release_bounds (smap : slot_map) (usemap : list Z) (used start_index end_slot : Z)
    : slot_map :=
  let total := total_slots smap in
  let last1 :=
    if start_index =? u64 (first_used_slot smap) then
      let first_slot := next_used (Z.to_nat total) usemap total (end_slot + 1) in
      if first_slot =? total then -1 else first_slot
    else last_used_slot smap in
  let last2 :=
    if end_slot =? u64 last1 then prev_used (Z.to_nat start_index) usemap (start_index - 1)
    else last1 in
  SlotMap total used (first_used_slot smap) last2 usemap.

(** [None]: an access beyond the bitmap. *)
Definition slotmap_release (smap : slot_map) (start_index num_slots : Z) : option (slot_map * Z) :=
  let size := Z.of_nat (length (use_map smap)) in
  if SLOT_BYTE start_index >=? size then None
  else if negb (check_slot (use_map smap) start_index) then Some (smap, EINVAL)
  else
    let end_slot := start_index + num_slots ⊟ 1 in
    if SLOT_BYTE end_slot >=? size then None
    else
      let usemap := release_slots (Z.to_nat (end_slot - start_index + 1)) (use_map smap) start_index in
      let used := used_slots smap ⊟ num_slots in
      if used =? 0 then Some (SlotMap (total_slots smap) 0 (-1) (-1) usemap, UNIFYFS_SUCCESS)
      else Some (release_bounds smap usemap used start_index end_slot, UNIFYFS_SUCCESS).

(** ** Reading and writing bits *)

Implicit Types (u : list Z) (smap : slot_map).

Definition is_byte (v : Z) : Prop := 0 <= v < 256.

Definition usemap_ok u : Prop := Forall is_byte u.

Definition usemap_slots u : Z := 8 * Z.of_nat (length u).

Lemma SLOT_BYTE_div s : SLOT_BYTE s = s / 8.
Proof. unfold SLOT_BYTE. by rewrite Z.shiftr_div_pow2. Qed.

Lemma SLOT_BIT_mod s : SLOT_BIT s = s mod 8.
Proof. unfold SLOT_BIT. by rewrite (Z.land_ones s 3). Qed.

Lemma slot_map_bytes_spec n : 0 <= n -> n <= 8 * slot_map_bytes n < n + 8.
Proof.
  intros. unfold slot_map_bytes. rewrite SLOT_BYTE_div SLOT_BIT_mod. zcase; Z.div_mod_to_equations; lia.
Qed.

Lemma BYTE_VAL_BIT_testbit v b : 0 <= b -> BYTE_VAL_BIT v b = Z.testbit v b.
Proof.
  intros Hb. unfold BYTE_VAL_BIT. rewrite Z.shiftl_1_l.
  destruct (Z.testbit v b) eqn:Ht.
  - rewrite (proj2 (Z.eqb_neq _ _)) //. intros H0.
    assert (Z.testbit (Z.land v (2 ^ b)) b = true) as H; [|by rewrite H0 Z.bits_0 in H].
    by rewrite Z.land_spec Ht Z.pow2_bits_true.
  - rewrite (proj2 (Z.eqb_eq _ _)) //. apply Z.bits_inj'. intros k Hk.
    rewrite Z.land_spec Z.bits_0 Z.pow2_bits_eqb //. destruct (b =? k) eqn:Hbk; zbool; subst; [by rewrite Ht|].
    by rewrite andb_false_r.
Qed.

Lemma check_slot_testbit u s : check_slot u s = Z.testbit (usemap_byte u (s / 8)) (s mod 8).
Proof.
  unfold check_slot. rewrite SLOT_BYTE_div SLOT_BIT_mod BYTE_VAL_BIT_testbit //.
  by apply Z.mod_pos_bound.
Qed.

Lemma usemap_byte_ok u i : usemap_ok u -> is_byte (usemap_byte u i).
Proof.
  intros Hu. unfold usemap_byte. destruct (decide (Z.to_nat i < length u)%nat).
  - eapply Forall_forall; [exact Hu|]. apply list_elem_of_In. by apply nth_In.
  - rewrite nth_overflow; [lia|]. by vm_compute.
Qed.

Lemma usemap_byte_insert u i j v :
  0 <= i < Z.of_nat (length u) -> 0 <= j ->
  usemap_byte (<[Z.to_nat i := v]> u) j = if i =? j then v else usemap_byte u j.
Proof.
  intros Hi Hj. unfold usemap_byte. rewrite !nth_lookup. destruct (i =? j) eqn:Hij; zbool.
  - subst. rewrite list_lookup_insert_eq //; lia.
  - rewrite list_lookup_insert_ne //; lia.
Qed.

Lemma use_slot_length u i : length (use_slot u i) = length u.
Proof. apply length_insert. Qed.

Lemma release_slot_length u i : length (release_slot u i) = length u.
Proof. apply length_insert. Qed.

(** Bits of a byte, case by case. *)
Lemma byte_bit_cases (P : Z -> Prop) b : 0 <= b < 8 ->
  P 0 -> P 1 -> P 2 -> P 3 -> P 4 -> P 5 -> P 6 -> P 7 -> P b.
Proof.
  intros Hb. assert (b = 0 \/ b = 1 \/ b = 2 \/ b = 3 \/ b = 4 \/ b = 5 \/ b = 6 \/ b = 7) as H by lia.
  intros. repeat (destruct H as [->|H]; [done|]). by subst.
Qed.

Lemma slot_bit_eq i j : 0 <= i -> 0 <= j -> i / 8 = j / 8 -> (i mod 8 =? j mod 8) = (i =? j).
Proof. intros. apply eq_true_iff_eq. rewrite !Z.eqb_eq. Z.div_mod_to_equations. lia. Qed.

Lemma check_use_slot u i j :
  0 <= i < usemap_slots u -> 0 <= j -> check_slot (use_slot u i) j = (i =? j) || check_slot u j.
Proof.
  intros Hi Hj. unfold usemap_slots in Hi. rewrite !check_slot_testbit.
  unfold use_slot, set_usemap_byte_bit. rewrite SLOT_BYTE_div SLOT_BIT_mod Z.shiftl_1_l.
  rewrite usemap_byte_insert; [Z.div_mod_to_equations; lia|by apply Z.div_pos|].
  destruct (i / 8 =? j / 8) eqn:He; zbool.
  - rewrite Z.lor_spec Z.pow2_bits_eqb; [by apply Z.mod_pos_bound|].
    rewrite slot_bit_eq //; [lia|]. rewrite He orb_comm //.
  - rewrite (proj2 (Z.eqb_neq i j)) //. intros ->. done.
Qed.

Lemma check_release_slot u i j :
  0 <= i < usemap_slots u -> 0 <= j ->
  check_slot (release_slot u i) j = negb (i =? j) && check_slot u j.
Proof.
  intros Hi Hj. unfold usemap_slots in Hi. rewrite !check_slot_testbit.
  unfold release_slot, clear_usemap_byte_bit. rewrite SLOT_BYTE_div SLOT_BIT_mod Z.shiftl_1_l.
  rewrite usemap_byte_insert; [Z.div_mod_to_equations; lia|by apply Z.div_pos|].
  destruct (i / 8 =? j / 8) eqn:He; zbool.
  - rewrite Z.land_spec He -slot_bit_eq //; [lia|]. rewrite andb_comm. f_equal.
    pose proof (Z.mod_pos_bound i 8 ltac:(lia)) as Hbi. pose proof (Z.mod_pos_bound j 8 ltac:(lia)) as Hbj.
    revert Hbi Hbj. generalize (i mod 8) (j mod 8). intros bi bj Hbi Hbj.
    apply (byte_bit_cases (fun bi => Z.testbit (255 - 2 ^ bi) bj = negb (bi =? bj)) bi Hbi);
      by apply (byte_bit_cases (fun bj => Z.testbit _ bj = negb (_ =? bj)) bj Hbj).
  - rewrite (proj2 (Z.eqb_neq i j)) //. intros ->. done.
Qed.

Lemma use_slot_ok u i : usemap_ok u -> usemap_ok (use_slot u i).
Proof.
  intros Hu. apply Forall_insert; [done|]. pose proof (usemap_byte_ok u (SLOT_BYTE i) Hu) as [H0 H1].
  rewrite SLOT_BIT_mod Z.shiftl_1_l. split; [apply Z.lor_nonneg; split; [done|by apply Z.pow_nonneg]|].
  pose proof (Z.mod_pos_bound i 8 ltac:(lia)). apply Z.log2_lt_cancel. rewrite Z.log2_lor; [done|by apply Z.pow_nonneg|].
  rewrite Z.log2_pow2; [lia|]. assert (Z.log2 (usemap_byte u (SLOT_BYTE i)) < 8); [|simpl; lia].
  destruct (decide (usemap_byte u (SLOT_BYTE i) = 0)) as [->|]; [done|]. apply Z.log2_lt_pow2; simpl; lia.
Qed.

Lemma release_slot_ok u i : usemap_ok u -> usemap_ok (release_slot u i).
Proof.
  intros Hu. apply Forall_insert; [done|]. pose proof (usemap_byte_ok u (SLOT_BYTE i) Hu) as [H0 H1].
  split; [apply Z.land_nonneg; by left|].
  assert (Z.land (usemap_byte u (SLOT_BYTE i)) (255 - Z.shiftl 1 (SLOT_BIT i))
          = Z.land (Z.land (usemap_byte u (SLOT_BYTE i)) (255 - Z.shiftl 1 (SLOT_BIT i))) (Z.ones 8)) as ->.
  { rewrite -Z.land_assoc (Z.land_comm (255 - _)) Z.land_assoc. f_equal.
    rewrite Z.land_ones // Z.mod_small //. }
  rewrite Z.land_ones //. by apply Z.mod_pos_bound.
Qed.

Lemma range_empty (s j : Z) : (s <=? j) && (j <? s + Z.of_nat 0) = false.
Proof. apply andb_false_iff. destruct (Z.leb_spec s j); [right; apply Z.ltb_ge; lia|by left]. Qed.

Lemma use_slots_spec n u s :
  usemap_ok u -> 0 <= s -> s + Z.of_nat n <= usemap_slots u ->
  usemap_ok (use_slots n u s) /\ length (use_slots n u s) = length u /\
  forall j, 0 <= j ->
    check_slot (use_slots n u s) j = ((s <=? j) && (j <? s + Z.of_nat n)) || check_slot u j.
Proof.
  revert u s. induction n as [|n IH]; intros u s Hu Hs Hr; cbn [use_slots].
  - split_and!; [done|done|]. intros j Hj. by rewrite range_empty.
  - destruct (IH (use_slot u s) (s + 1)) as (H1 & H2 & H3); [by apply use_slot_ok|lia| |].
    { unfold usemap_slots in *. rewrite use_slot_length. lia. }
    rewrite use_slot_length in H2. split_and!; [done|done|]. intros j Hj.
    rewrite H3 // check_use_slot //; [lia|]. rewrite orb_assoc. f_equal.
    apply eq_true_iff_eq. rewrite orb_true_iff !andb_true_iff Z.eqb_eq !Z.leb_le !Z.ltb_lt. lia.
Qed.

Lemma release_slots_spec n u s :
  usemap_ok u -> 0 <= s -> s + Z.of_nat n <= usemap_slots u ->
  usemap_ok (release_slots n u s) /\ length (release_slots n u s) = length u /\
  forall j, 0 <= j ->
    check_slot (release_slots n u s) j = negb ((s <=? j) && (j <? s + Z.of_nat n)) && check_slot u j.
Proof.
  revert u s. induction n as [|n IH]; intros u s Hu Hs Hr; cbn [release_slots].
  - split_and!; [done|done|]. intros j Hj. by rewrite range_empty.
  - destruct (IH (release_slot u s) (s + 1)) as (H1 & H2 & H3); [by apply release_slot_ok|lia| |].
    { unfold usemap_slots in *. rewrite release_slot_length. lia. }
    rewrite release_slot_length in H2. split_and!; [done|done|]. intros j Hj.
    rewrite H3 // check_release_slot //; [lia|]. rewrite andb_assoc. f_equal.
    apply eq_true_iff_eq. rewrite andb_true_iff !negb_true_iff !andb_false_iff Z.eqb_neq !Z.leb_gt !Z.ltb_ge. lia.
Qed.

(** ** Searching *)

(** What [find_consecutive_zero_bits] finds, checked for all 256 bytes. *)
Definition zero_bits_ok (v : Z) : bool :=
  let '(mf, fs) := zero_bit_scan 9 v 0 0 0 in
  (0 <=? fs) && (fs + mf <=? 8) && ((0 <? mf) || (v =? 255)) && (0 <=? mf) &&
  forallb (fun k => negb ((fs <=? k) && (k <? fs + mf)) || negb (Z.testbit v k)) [0; 1; 2; 3; 4; 5; 6; 7].

Lemma zero_bits_all : forallb zero_bits_ok (Z.of_nat <$> seq 0 256) = true.
Proof. by vm_compute. Qed.

Lemma zero_bit_scan_spec v mf fs :
  is_byte v -> zero_bit_scan 9 v 0 0 0 = (mf, fs) ->
  0 <= fs /\ 0 <= mf /\ fs + mf <= 8 /\ (v <> 255 -> 0 < mf) /\
  forall k, fs <= k < fs + mf -> Z.testbit v k = false.
Proof.
  intros Hv Hscan. assert (zero_bits_ok v = true) as Hok.
  { pose proof zero_bits_all as Hall. rewrite forallb_forall in Hall. apply Hall.
    apply list_elem_of_In, list_elem_of_fmap. exists (Z.to_nat v). unfold is_byte in Hv. split; [lia|].
    apply elem_of_seq. lia. }
  unfold zero_bits_ok in Hok. rewrite Hscan in Hok. zbool. split_and!; [done|done|done| |].
  - intros Hne. apply orb_true_iff in H2 as [?|?]; zbool; [done|lia].
  - intros k Hk. rewrite forallb_forall in H0. specialize (H0 k). rewrite orb_true_iff !negb_true_iff in H0.
    destruct H0 as [H0|H0]; [|apply andb_false_iff in H0 as [?|?]; zbool; lia|done].
    apply (byte_bit_cases (fun k => List.In k [0; 1; 2; 3; 4; 5; 6; 7]) k); [lia|simpl; tauto..].
Qed.

Lemma find_consecutive_zero_bits_spec v n mf st :
  is_byte v -> find_consecutive_zero_bits v n = (mf, st) ->
  0 <= mf <= 8 /\ (v <> 255 -> 0 < mf) /\
  (n <= mf -> 0 <= st /\ st + mf <= 8 /\ forall k, st <= k < st + mf -> Z.testbit v k = false).
Proof.
  unfold find_consecutive_zero_bits. destruct (zero_bit_scan 9 v 0 0 0) as [mf' fs] eqn:Hs.
  intros Hv [= <- <-]. apply zero_bit_scan_spec in Hs as (H1 & H2 & H3 & H4 & H5); [|done].
  split_and!; [lia|lia|done|]. intros Hn. rewrite Z.geb_leb (proj2 (Z.leb_le _ _) Hn). done.
Qed.

Lemma find_consecutive_zero_bits_max v n n' :
  (find_consecutive_zero_bits v n').1 = (find_consecutive_zero_bits v n).1.
Proof. unfold find_consecutive_zero_bits. by destruct (zero_bit_scan 9 v 0 0 0). Qed.

(** A run of free slots inside the bitmap. *)
Definition free_run u (s n : Z) : Prop :=
  0 <= s /\ s + n <= usemap_slots u /\ forall j, s <= j < s + n -> check_slot u j = false.

Lemma check_slot_in_byte u byte bit :
  0 <= bit < 8 -> check_slot u (BYTE_BIT_TO_SLOT byte bit) = Z.testbit (usemap_byte u byte) bit.
Proof.
  intros Hb. rewrite check_slot_testbit. unfold BYTE_BIT_TO_SLOT.
  assert ((byte * 8 + bit) / 8 = byte) as -> by (Z.div_mod_to_equations; lia).
  assert ((byte * 8 + bit) mod 8 = bit) as -> by (Z.div_mod_to_equations; lia). done.
Qed.

Lemma zero_byte_run_spec k u byte found stop :
  zero_byte_run k u byte = (found, stop) ->
  byte <= stop /\ (found = true -> forall i, byte <= i < byte + Z.of_nat k -> usemap_byte u i = 0).
Proof.
  revert byte. induction k as [|k IH]; intros byte; simpl.
  - intros [= <- <-]. split; [lia|]. intros _ i Hi. lia.
  - destruct (usemap_byte u byte =? 0) eqn:H0; [|intros [= <- <-]; split; [lia|done]].
    intros [H1 H2]%IH. split; [lia|]. intros Hf i Hi. zbool.
    destruct (decide (i = byte)) as [->|]; [done|]. apply H2; [done|lia].
Qed.

(** Whole zero bytes are free slots. *)
Lemma zero_bytes_free u byte k n :
  0 <= byte -> byte + k <= Z.of_nat (length u) -> n <= 8 * k ->
  (forall i, byte <= i < byte + k -> usemap_byte u i = 0) -> free_run u (BYTE_BIT_TO_SLOT byte 0) n.
Proof.
  intros Hb Hk Hn Hz. unfold free_run, usemap_slots, BYTE_BIT_TO_SLOT. split_and!; [lia|lia|].
  intros j Hj. rewrite check_slot_testbit Hz; [Z.div_mod_to_equations; lia|]. apply Z.bits_0.
Qed.

Lemma reserve_bits_spec u map_bytes n byte s :
  usemap_ok u -> map_bytes = Z.of_nat (length u) -> 0 <= byte < map_bytes -> 0 < n ->
  usemap_byte u byte <> 255 ->
  reserve_bits u map_bytes n byte = Some s -> free_run u s n.
Proof.
  intros Hu -> Hb Hn Hne. unfold reserve_bits, free_run, usemap_slots.
  destruct (find_consecutive_zero_bits _ n) as [mf st] eqn:Hf1. pose proof Hf1 as Hf1'.
  apply find_consecutive_zero_bits_spec in Hf1' as (Hmf & Hpos & Hrun); [|by apply usemap_byte_ok].
  specialize (Hpos Hne). destruct (mf >=? n) eqn:Hge; zbool.
  - intros [= <-]. destruct (Hrun Hge) as (Hst & Hend & Hz). unfold BYTE_BIT_TO_SLOT. split_and!; [lia|lia|].
    intros j Hj. replace j with (BYTE_BIT_TO_SLOT byte (j - byte * 8)) by (unfold BYTE_BIT_TO_SLOT; lia).
    rewrite check_slot_in_byte; [lia|]. apply Hz. lia.
  - destruct (byte + 1 <? _) eqn:Hb1; [zbool|done].
    destruct (find_consecutive_zero_bits _ mf) as [mf' st'] eqn:Hf2.
    assert (mf' = mf) as ->.
    { pose proof (find_consecutive_zero_bits_max (usemap_byte u byte) n mf) as Hm.
      rewrite Hf1 Hf2 in Hm. done. }
    apply find_consecutive_zero_bits_spec in Hf2 as (_ & _ & Hrun2); [|by apply usemap_byte_ok].
    destruct (st' =? 8 - mf) eqn:Htail; [zbool|done].
    destruct (find_consecutive_zero_bits (usemap_byte u (byte + 1)) (n - mf)) as [mf2 st2] eqn:Hf3.
    destruct ((mf2 >=? n - mf) && (st2 =? 0)) eqn:Hok; [zbool|done]. intros [= <-].
    apply find_consecutive_zero_bits_spec in Hf3 as (Hmf2 & _ & Hrun3); [|by apply usemap_byte_ok].
    destruct (Hrun2 ltac:(lia)) as (Hst' & Hend' & Hz'). destruct (Hrun3 H) as (_ & _ & Hz2). subst st2.
    unfold BYTE_BIT_TO_SLOT. split_and!; [lia|lia|]. intros j Hj.
    destruct (decide (j < byte * 8 + 8)).
    + replace j with (BYTE_BIT_TO_SLOT byte (j - byte * 8)) by (unfold BYTE_BIT_TO_SLOT; lia).
      rewrite check_slot_in_byte; [lia|]. apply Hz'. lia.
    + replace j with (BYTE_BIT_TO_SLOT (byte + 1) (j - byte * 8 - 8)) by (unfold BYTE_BIT_TO_SLOT; lia).
      rewrite check_slot_in_byte; [lia|]. apply Hz2. lia.
Qed.

(** The search ends, and what it finds is free. *)
Lemma reserve_search_spec fuel u map_bytes n byte :
  usemap_ok u -> map_bytes = Z.of_nat (length u) -> 0 < n -> 0 <= byte ->
  (1 <= fuel)%nat -> map_bytes - byte < Z.of_nat fuel ->
  match reserve_search fuel u map_bytes (slot_map_bytes n) n byte with
  | Some (Some s) => free_run u s n
  | Some None => True
  | None => False
  end.
Proof.
  intros Hu Hmb Hn. revert byte. induction fuel as [|fuel IH]; intros byte Hb H1 Hfuel; [lia|]. simpl.
  destruct (byte <? map_bytes) eqn:Hlt; zbool; [|done].
  destruct (usemap_byte u byte =? 255) eqn:H255; zbool; [apply IH; lia|].
  destruct ((slot_map_bytes n >? 1) && (byte + slot_map_bytes n <=? map_bytes)) eqn:Hmany.
  - zbool. destruct (zero_byte_run _ u byte) as [found stop] eqn:Hrun.
    apply zero_byte_run_spec in Hrun as [Hstop Hz]. destruct found; [|apply IH; lia].
    apply (zero_bytes_free u byte (slot_map_bytes n) n); [done|lia| |].
    + pose proof (slot_map_bytes_spec n). lia.
    + intros i Hi. apply Hz; [done|]. lia.
  - destruct (reserve_bits u map_bytes n byte) as [s|] eqn:Hbits; [|apply IH; lia].
    by apply (reserve_bits_spec u map_bytes n byte s).
Qed.

(** ** Counting *)

Definition slots_in_use u : Z := Z.of_nat (length (List.filter (check_slot u) (seqZ 0 (usemap_slots u)))).

Definition in_run (s n j : Z) : bool := (s <=? j) && (j <? s + n).

Lemma in_run_true s n j : in_run s n j = true <-> s <= j < s + n.
Proof. unfold in_run. rewrite andb_true_iff Z.leb_le Z.ltb_lt. done. Qed.

Lemma in_run_false s n j : in_run s n j = false <-> ~ (s <= j < s + n).
Proof. rewrite -in_run_true. by destruct (in_run s n j). Qed.

Lemma filter_ext_len (f g : Z -> bool) (l : list Z) :
  (forall j, j ∈ l -> f j = g j) -> length (List.filter f l) = length (List.filter g l).
Proof.
  induction l as [|x l IH]; intros H; simpl; [done|].
  rewrite (H x); [left|]. destruct (g x); simpl; rewrite IH //; intros; apply H; by right.
Qed.

(** Disjoint predicates add up. *)
Lemma filter_or_len (f g : Z -> bool) (l : list Z) :
  (forall j, j ∈ l -> f j = true -> g j = false) ->
  length (List.filter (fun j => f j || g j) l) = (length (List.filter f l) + length (List.filter g l))%nat.
Proof.
  induction l as [|x l IH]; intros H; simpl; [done|].
  pose proof (H x ltac:(left)) as Hx.
  assert (forall j, j ∈ l -> f j = true -> g j = false) as Hl by (intros; apply H; [by right|done]).
  specialize (IH Hl). destruct (f x); simpl; [rewrite Hx //=; lia|]. destruct (g x); simpl; lia.
Qed.

Lemma filter_all_len (f : Z -> bool) (b : bool) (l : list Z) :
  (forall j, j ∈ l -> f j = b) -> length (List.filter f l) = if b then length l else 0%nat.
Proof.
  induction l as [|x l IH]; intros H; simpl; [by destruct b|].
  rewrite (H x); [left|]. assert (forall j, j ∈ l -> f j = b) as Hl by (intros; apply H; by right).
  specialize (IH Hl). destruct b; simpl; lia.
Qed.

Lemma filter_in_run N s n :
  0 <= s -> 0 <= n -> s + n <= N -> length (List.filter (in_run s n) (seqZ 0 N)) = Z.to_nat n.
Proof.
  intros Hs Hn HN. replace N with (s + (n + (N - s - n))) by lia.
  rewrite seqZ_app; [lia|lia|]. rewrite seqZ_app; [lia|lia|]. rewrite !List.filter_app !length_app.
  rewrite (filter_all_len _ false (seqZ 0 s)).
  { intros j Hj%elem_of_seqZ. apply in_run_false. lia. }
  rewrite (filter_all_len _ true (seqZ (0 + s) n)).
  { intros j Hj%elem_of_seqZ. apply in_run_true. lia. }
  rewrite (filter_all_len _ false (seqZ (0 + s + n) _)).
  { intros j Hj%elem_of_seqZ. apply in_run_false. lia. }
  rewrite length_seqZ. lia.
Qed.

(** Two bitmaps that differ in a run, free in [u] and used in [u']. *)
Lemma slots_in_use_run u u' s n :
  length u' = length u -> 0 <= s -> 0 <= n -> s + n <= usemap_slots u ->
  (forall j, s <= j < s + n -> check_slot u j = false) ->
  (forall j, 0 <= j -> check_slot u' j = in_run s n j || check_slot u j) ->
  slots_in_use u' = slots_in_use u + n.
Proof.
  intros Hlen Hs Hn HN Hfree Hu'. unfold slots_in_use, usemap_slots in *. rewrite Hlen.
  rewrite (filter_ext_len (check_slot u') (fun j => in_run s n j || check_slot u j)).
  { intros j Hj%elem_of_seqZ. apply Hu'. lia. }
  rewrite filter_or_len. { intros j _ Hj%in_run_true. by apply Hfree. }
  rewrite filter_in_run; [done|done|done|lia].
Qed.

(** A bitmap is determined by its bits. *)
Lemma usemap_ext u u' :
  usemap_ok u -> usemap_ok u' -> length u = length u' ->
  (forall j, 0 <= j -> check_slot u j = check_slot u' j) -> u = u'.
Proof.
  intros Hu Hu' Hlen Hc. apply (nth_ext _ _ 0 0 Hlen). intros i Hi.
  assert (forall w, nth i w 0 = usemap_byte w (Z.of_nat i)) as Hb.
  { intros w. unfold usemap_byte. by rewrite Nat2Z.id. }
  rewrite !Hb. pose proof (usemap_byte_ok u (Z.of_nat i) Hu) as Hv.
  pose proof (usemap_byte_ok u' (Z.of_nat i) Hu') as Hv'. unfold is_byte in *.
  apply Z.bits_inj'. intros k Hk. destruct (decide (k < 8)).
  - rewrite -!check_slot_in_byte; [lia..|]. apply Hc. unfold BYTE_BIT_TO_SLOT. lia.
  - assert (forall v, 0 <= v < 256 -> Z.testbit v k = false) as Hz; [|by rewrite !Hz].
    intros v Hvr. destruct (decide (v = 0)) as [->|]; [apply Z.bits_0|].
    apply Z.bits_above_log2; [lia|]. assert (Z.log2 v < 8); [|lia]. apply Z.log2_lt_pow2; simpl; lia.
Qed.

(** ** The invariant *)

Record slotmap_wf smap : Prop := {
  sm_bytes : usemap_ok (use_map smap);
  sm_length : Z.of_nat (length (use_map smap)) = slot_map_bytes (total_slots smap);
  sm_total : is_u64 (total_slots smap);
  sm_used : used_slots smap = slots_in_use (use_map smap);
  sm_used_le : used_slots smap <= total_slots smap;
  sm_last : -1 <= last_used_slot smap;
}.

Lemma slots_in_use_nonneg u : 0 <= slots_in_use u.
Proof. unfold slots_in_use. lia. Qed.

Lemma slotmap_clear_wf smap : is_u64 (total_slots smap) -> slotmap_wf (slotmap_clear smap).
Proof.
  intros Ht. pose proof Ht as [Ht0 Ht1].
  assert (0 <= slot_map_bytes (total_slots smap)) as Hb by (pose proof (slot_map_bytes_spec _ Ht0); lia).
  split; simpl; [by apply Forall_replicate|rewrite length_replicate; lia|done| |lia|lia].
  unfold slots_in_use. rewrite (filter_all_len _ false); [|done].
  intros j [Hj _]%elem_of_seqZ. rewrite check_slot_testbit. unfold usemap_byte.
  rewrite nth_lookup. destruct (_ !! _) as [v|] eqn:Hl; [|apply Z.bits_0].
  apply lookup_replicate in Hl as [-> _]. apply Z.bits_0.
Qed.

Record reserve_post smap (num : Z) smap' (r : Z) : Prop := {
  rv_run : free_run (use_map smap) r num;
  rv_wf : slotmap_wf smap';
  rv_total : total_slots smap' = total_slots smap;
  rv_used : used_slots smap' = used_slots smap + num;
  rv_bits j : 0 <= j -> check_slot (use_map smap') j = in_run r num j || check_slot (use_map smap) j;
}.

Lemma slotmap_reserve_post smap num :
  slotmap_wf smap -> 0 <= num ->
  exists smap' r, slotmap_reserve smap num = Some (smap', r) /\
    (r = -1 /\ smap' = smap \/ reserve_post smap num smap' r).
Proof.
  intros [Hu Hlen Ht Hused Hle Hlast] Hnum. unfold slotmap_reserve.
  destruct (num =? 0) eqn:H0; zbool; [by eexists _, _; split; [|left]|].
  destruct (get_free_slots smap <? num) eqn:Hfree; zbool; [by eexists _, _; split; [|left]|].
  pose proof (slots_in_use_nonneg (use_map smap)) as Hnn. unfold is_u64 in Ht.
  unfold get_free_slots in Hfree. rewrite u64_small in Hfree; [unfold is_u64; lia|].
  set (start := if _ then SLOT_BYTE (last_used_slot smap) else 0).
  assert (0 <= start) as Hstart.
  { unfold start. zcase; [|lia]. rewrite SLOT_BYTE_div. apply Z.div_pos; [|lia].
    rewrite negb_true_iff in H. zbool. lia. }
  pose proof (reserve_search_spec (S (Z.to_nat (slot_map_bytes (total_slots smap)))) (use_map smap)
    (slot_map_bytes (total_slots smap)) num start Hu (eq_sym Hlen)) as Hsearch.
  destruct (reserve_search _ _ _ _ _ start) as [[s|]|]; [| |exfalso; apply Hsearch; lia].
  2:{ by eexists _, _; split; [|left]. }
  destruct Hsearch as (Hs & Hend & Hrun); [lia..|].
  destruct (use_slots_spec (Z.to_nat num) (use_map smap) s Hu Hs) as (Hu' & Hlen' & Hbits); [lia|].
  rewrite Z2Nat.id in Hbits; [lia|].
  assert (slots_in_use (use_slots (Z.to_nat num) (use_map smap) s) = used_slots smap + num) as Hcount.
  { rewrite Hused. by apply (slots_in_use_run _ _ s num). }
  eexists _, _. split; [done|]. right. split; simpl; [done| |done| |done].
  - split; simpl; [done|by rewrite Hlen'|unfold is_u64; lia| | |].
    + rewrite u64_small; [unfold is_u64; lia|done].
    + rewrite u64_small; [unfold is_u64; lia|lia].
    + zcase; lia.
  - apply u64_small. unfold is_u64. lia.
Qed.

Lemma next_used_ge n u total s : s <= next_used n u total s.
Proof.
  revert s. induction n as [|n IH]; intros s; simpl; [lia|]. zcase; [|lia]. specialize (IH (s + 1)). lia.
Qed.

Lemma prev_used_ge n u s : -1 <= s -> -1 <= prev_used n u s.
Proof.
  revert s. induction n as [|n IH]; intros s Hs; simpl; [lia|]. zcase; [|lia]. apply IH. lia.
Qed.

Record release_post smap (s num : Z) smap' : Prop := {
  rl_wf : slotmap_wf smap';
  rl_total : total_slots smap' = total_slots smap;
  rl_used : used_slots smap' = used_slots smap - num;
  rl_bits j : 0 <= j -> check_slot (use_map smap') j = negb (in_run s num j) && check_slot (use_map smap) j;
}.

Lemma release_slots_count u s n :
  usemap_ok u -> 0 <= s -> 0 <= n -> s + n <= usemap_slots u ->
  (forall j, s <= j < s + n -> check_slot u j = true) ->
  slots_in_use u = slots_in_use (release_slots (Z.to_nat n) u s) + n.
Proof.
  intros Hu Hs Hn HN Hall.
  destruct (release_slots_spec (Z.to_nat n) u s Hu Hs) as (Hu' & Hlen & Hbits); [lia|].
  rewrite Z2Nat.id in Hbits; [lia|].
  apply (slots_in_use_run (release_slots (Z.to_nat n) u s) u s n); [done|done|done| | |].
  - unfold usemap_slots in *. by rewrite Hlen.
  - intros j Hj. rewrite Hbits; [lia|]. fold (in_run s n j). by rewrite (proj2 (in_run_true s n j) Hj).
  - intros j Hj. rewrite Hbits //. fold (in_run s n j). destruct (in_run s n j) eqn:Hr; simpl; [|done].
    apply in_run_true in Hr. by apply Hall.
Qed.

(** Releasing a run of used slots, as [slotmap_reserve] handed it out. *)
Lemma slotmap_release_post smap s num :
  slotmap_wf smap -> 0 <= s -> 0 < num -> s + num <= usemap_slots (use_map smap) ->
  usemap_slots (use_map smap) <= ULONG_MAX ->
  (forall j, s <= j < s + num -> check_slot (use_map smap) j = true) ->
  exists smap', slotmap_release smap s num = Some (smap', UNIFYFS_SUCCESS) /\
    release_post smap s num smap'.
Proof.
  intros [Hu Hlen Ht Hused Hle Hlast] Hs Hnum HN HNmax Hall. unfold slotmap_release. unfold is_u64 in Ht.
  pose proof (release_slots_count (use_map smap) s num Hu Hs ltac:(lia) HN Hall) as Hcount.
  destruct (release_slots_spec (Z.to_nat num) (use_map smap) s Hu Hs) as (Hu' & Hlen' & Hbits); [lia|].
  rewrite Z2Nat.id in Hbits; [lia|].
  set (u' := release_slots (Z.to_nat num) (use_map smap) s) in *.
  pose proof (slots_in_use_nonneg u') as Hnn. unfold usemap_slots in *.
  rewrite (u64_small (s + num - 1)); first (unfold is_u64; lia). rewrite !SLOT_BYTE_div.
  rewrite Z.geb_leb (proj2 (Z.leb_gt _ _)); first (Z.div_mod_to_equations; lia).
  rewrite (Hall s); first lia. rewrite Z.geb_leb (proj2 (Z.leb_gt _ _)); first (Z.div_mod_to_equations; lia).
  replace (s + num - 1 - s + 1) with num by lia. fold u'.
  rewrite (u64_small (used_slots smap - num)); first (unfold is_u64; lia). cbn [negb].
  destruct (used_slots smap - num =? 0) eqn:H0; zbool; (eexists; split; [done|]).
  - split; simpl; [split; simpl|done|lia|done]; try done; try lia; by rewrite Hlen'.
  - unfold release_bounds. split; simpl; [split; simpl|done|done|done];
      [done|by rewrite Hlen'|done|lia|lia|].
    zcase; [apply prev_used_ge; lia|]. zcase; [|done]. zcase; [lia|].
    pose proof (next_used_ge (Z.to_nat (total_slots smap)) u' (total_slots smap) (s + num - 1 + 1)). lia.
Qed.

(** Releasing any run inside the bitmap returns and keeps the size of the
    bitmap, also when some of the slots are not in use. *)
Lemma slotmap_release_returns smap s num :
  0 <= s -> 0 < num -> s + num <= usemap_slots (use_map smap) -> usemap_slots (use_map smap) <= ULONG_MAX ->
  exists smap' rc, slotmap_release smap s num = Some (smap', rc) /\
    length (use_map smap') = length (use_map smap) /\ total_slots smap' = total_slots smap.
Proof.
  intros Hs Hn HN Hmax. unfold slotmap_release. unfold usemap_slots in *.
  assert (forall n u i, length (release_slots n u i) = length u) as Hlen.
  { induction n as [|n IH]; intros u i; simpl; [done|]. rewrite IH. unfold release_slot, clear_usemap_byte_bit.
    by rewrite length_insert. }
  rewrite (u64_small (s + num - 1)); first (unfold is_u64; lia). rewrite !SLOT_BYTE_div.
  rewrite Z.geb_leb (proj2 (Z.leb_gt _ _)); first (Z.div_mod_to_equations; lia).
  destruct (negb _); [by eexists _, _|].
  rewrite Z.geb_leb (proj2 (Z.leb_gt _ _)); first (Z.div_mod_to_equations; lia).
  destruct (_ =? 0); eexists _, _; (split; [done|]); simpl; by rewrite Hlen.
Qed.

(** ** Completeness for single slots *)

Lemma reserve_bits_one u map_bytes byte :
  usemap_ok u -> usemap_byte u byte <> 255 -> reserve_bits u map_bytes 1 byte <> None.
Proof.
  intros Hu Hne. unfold reserve_bits. destruct (find_consecutive_zero_bits _ 1) as [mf st] eqn:Hf.
  apply find_consecutive_zero_bits_spec in Hf as (_ & Hpos & _); [|by apply usemap_byte_ok].
  rewrite Z.geb_leb (proj2 (Z.leb_le 1 mf)) //. specialize (Hpos Hne). lia.
Qed.

(** If the search for one slot fails, every byte from there on is full. *)
Lemma reserve_search_one fuel u map_bytes byte :
  usemap_ok u -> 0 <= byte -> reserve_search fuel u map_bytes 1 1 byte = Some None ->
  forall i, byte <= i < map_bytes -> usemap_byte u i = 255.
Proof.
  intros Hu. revert byte. induction fuel as [|fuel IH]; intros byte Hb; simpl; [done|].
  destruct (byte <? map_bytes) eqn:Hlt; zbool; [|intros _ i Hi; lia].
  destruct (usemap_byte u byte =? 255) eqn:H255; zbool.
  - intros Hs i Hi. destruct (decide (i = byte)) as [->|]; [done|]. apply (IH (byte + 1)); [lia|done|lia].
  - pose proof (reserve_bits_one u map_bytes byte Hu H255) as Hne.
    by destruct (reserve_bits u map_bytes 1 byte).
Qed.

Lemma full_bytes_in_use u :
  (forall i, 0 <= i < Z.of_nat (length u) -> usemap_byte u i = 255) -> slots_in_use u = usemap_slots u.
Proof.
  intros Hall. unfold slots_in_use. rewrite (filter_all_len _ true).
  - intros j Hj%elem_of_seqZ. unfold usemap_slots in Hj. rewrite check_slot_testbit Hall.
    { Z.div_mod_to_equations; lia. }
    pose proof (Z.mod_pos_bound j 8 ltac:(lia)) as Hb. by apply (byte_bit_cases (fun b => Z.testbit 255 b = true)).
  - rewrite length_seqZ. unfold usemap_slots. lia.
Qed.

(** ** Reachable slot maps *)

Inductive slotmap_reach : slot_map -> Prop :=
  | sm_reach_init n sz region smap :
      0 <= n <= ULONG_MAX - 8 -> slotmap_init n sz region = Some smap -> slotmap_reach smap
  | sm_reach_clear smap : slotmap_reach smap -> slotmap_reach (slotmap_clear smap)
  | sm_reach_reserve smap num smap' r :
      slotmap_reach smap -> 0 <= num -> slotmap_reserve smap num = Some (smap', r) ->
      slotmap_reach smap'
  | sm_reach_release smap s num smap' rc :
      slotmap_reach smap -> 0 <= s -> 0 < num -> s + num <= usemap_slots (use_map smap) ->
      (forall j, s <= j < s + num -> check_slot (use_map smap) j = true) ->
      slotmap_release smap s num = Some (smap', rc) -> slotmap_reach smap'.

Lemma slotmap_wf_slots smap :
  slotmap_wf smap -> total_slots smap <= usemap_slots (use_map smap) < total_slots smap + 8.
Proof.
  intros [_ Hlen [Ht _] _ _ _]. unfold usemap_slots. rewrite Hlen. by apply slot_map_bytes_spec.
Qed.

Lemma slotmap_reach_wf smap :
  slotmap_reach smap -> slotmap_wf smap /\ total_slots smap <= ULONG_MAX - 8.
Proof.
  induction 1 as [n sz region smap Hn Hi|smap _ [IH Hm]|smap num smap' r _ [IH Hm] Hn Hop
    |smap s num smap' rc _ [IH Hm] Hs Hn HN Hall Hop].
  - unfold slotmap_init in Hi. destruct (_ >? _); [done|]. injection Hi as <-.
    split; [|simpl; lia]. apply slotmap_clear_wf. unfold is_u64. simpl. lia.
  - split; [by apply slotmap_clear_wf, IH|done].
  - destruct (slotmap_reserve_post smap num IH Hn) as (? & ? & Hop' & Hp). rewrite Hop in Hop'.
    injection Hop' as <- <-. destruct Hp as [[_ ->]|[_ Hw Ht _ _]]; [done|]. by rewrite Ht.
  - pose proof (slotmap_wf_slots _ IH) as Hsl.
    destruct (slotmap_release_post smap s num IH Hs Hn HN ltac:(lia) Hall) as (? & Hop' & [Hw Ht _ _]).
    rewrite Hop in Hop'. injection Hop' as <- _. by rewrite Ht.
Qed.

(** Undoing a reservation. *)
Lemma slotmap_undo smap num smap' r :
  slotmap_reach smap -> 0 < num -> slotmap_reserve smap num = Some (smap', r) -> r <> -1 ->
  exists smap'', slotmap_release smap' r num = Some (smap'', UNIFYFS_SUCCESS) /\
    slotmap_reach smap'' /\ total_slots smap'' = total_slots smap /\
    use_map smap'' = use_map smap /\ used_slots smap'' = used_slots smap.
Proof.
  intros Hreach Hn Hop Hr. pose proof Hreach as [Hwf Hmax]%slotmap_reach_wf.
  destruct (slotmap_reserve_post smap num Hwf ltac:(lia)) as (? & ? & Hop' & Hp).
  rewrite Hop in Hop'. injection Hop' as <- <-.
  destruct Hp as [[? _]|[(Hr0 & HN & Hfree) Hw Ht Hused Hbits]]; [done|].
  assert (usemap_slots (use_map smap') = usemap_slots (use_map smap)) as Hsl.
  { unfold usemap_slots. by rewrite (sm_length _ Hw) (sm_length _ Hwf) Ht. }
  pose proof (slotmap_wf_slots _ Hwf) as Hsz.
  assert (forall j, r <= j < r + num -> check_slot (use_map smap') j = true) as Hall.
  { intros j Hj. rewrite Hbits; [lia|]. by rewrite (proj2 (in_run_true r num j) Hj). }
  destruct (slotmap_release_post smap' r num Hw Hr0 Hn) as (smap'' & Hrel & [Hw'' Ht'' Hu'' Hb'']);
    [by rewrite Hsl|rewrite Hsl; lia|done|].
  exists smap''. split_and!; [done| |congruence| |lia].
  - refine (sm_reach_release _ _ _ _ _ _ Hr0 Hn _ Hall Hrel); [|by rewrite Hsl].
    refine (sm_reach_reserve _ _ _ _ Hreach _ Hop). lia.
  - apply usemap_ext; [apply Hw''|apply Hwf| |].
    + pose proof (sm_length _ Hw'') as H1. pose proof (sm_length _ Hwf). rewrite Ht'' Ht in H1. lia.
    + intros j Hj. rewrite Hb'' // Hbits //. destruct (in_run r num j) eqn:Hrun; simpl; [|done].
      apply in_run_true in Hrun. by rewrite Hfree.
Qed.

(** ** Properties *)

(** [slotmap_reserve] ends on every reachable map; it either returns -1
    and changes nothing, or returns the start of a run of [num] slots inside
    the bitmap that were all free, are all used afterwards, and are the only
    slots whose state changes.  When the number of slots is a multiple of 8
    the run lies within the slots of the map. *)
Theorem slotmap_reserve_correct smap num :
  slotmap_reach smap -> 0 < num ->
  exists smap' r, slotmap_reserve smap num = Some (smap', r) /\
    (r = -1 /\ smap' = smap \/
     0 <= r /\ r + num <= usemap_slots (use_map smap) /\
     (total_slots smap mod 8 = 0 -> r + num <= total_slots smap) /\
     (forall j, r <= j < r + num -> check_slot (use_map smap) j = false) /\
     (forall j, 0 <= j -> check_slot (use_map smap') j =
        if in_run r num j then true else check_slot (use_map smap) j) /\
     used_slots smap' = used_slots smap + num).
Proof.
  intros [Hwf _]%slotmap_reach_wf Hn.
  destruct (slotmap_reserve_post smap num Hwf ltac:(lia)) as (smap' & r & Hop & Hp).
  exists smap', r. split; [done|]. destruct Hp as [Hp|[(Hr & HN & Hfree) Hw _ Hused Hbits]]; [by left|right].
  split_and!; [done|done| |done| |done].
  - intros Hmod. pose proof (slotmap_wf_slots _ Hwf) as Hsl. unfold usemap_slots in *.
    Z.div_mod_to_equations. lia.
  - intros j Hj. by rewrite Hbits.
Qed.

(** Reserving and releasing is the identity on the bitmap and on the
    number of used slots, and the release of a reservation always succeeds. *)
Theorem slotmap_reserve_release smap num smap' r :
  slotmap_reach smap -> 0 < num -> slotmap_reserve smap num = Some (smap', r) -> r <> -1 ->
  exists smap'', slotmap_release smap' r num = Some (smap'', UNIFYFS_SUCCESS) /\
    use_map smap'' = use_map smap /\ used_slots smap'' = used_slots smap.
Proof.
  intros Hreach Hn Hop Hr.
  destruct (slotmap_undo smap num smap' r Hreach Hn Hop Hr) as (smap'' & Hrel & _ & _ & Hm & Hu).
  by exists smap''.
Qed.

(** On every reachable slot map [used_slots] is the number of bits set in
    the bitmap and never exceeds [total_slots], so the free count does not
    wrap around. *)
Theorem slotmap_invariant smap :
  slotmap_reach smap ->
  used_slots smap = slots_in_use (use_map smap) /\ 0 <= used_slots smap <= total_slots smap /\
  get_free_slots smap = total_slots smap - used_slots smap.
Proof.
  intros [[Hu Hlen Ht Hused Hle Hlast] _]%slotmap_reach_wf. unfold is_u64 in Ht.
  pose proof (slots_in_use_nonneg (use_map smap)). split_and!; [done|lia|lia|].
  apply u64_small. unfold is_u64. lia.
Qed.

(** While a slot is free (and the number of slots is a multiple of 8), a
    reservation of one slot succeeds. *)
Theorem slotmap_reserve_one smap :
  slotmap_reach smap -> total_slots smap mod 8 = 0 -> used_slots smap < total_slots smap ->
  exists smap' r, slotmap_reserve smap 1 = Some (smap', r) /\ 0 <= r < total_slots smap.
Proof.
  intros [Hwf Hmax]%slotmap_reach_wf Hmod Hfree. pose proof (slotmap_wf_slots _ Hwf) as Hsl.
  destruct (slotmap_reserve_post smap 1 Hwf ltac:(lia)) as (smap' & r & Hop & Hp).
  exists smap', r. split; [done|]. destruct Hp as [[-> ->]|[(Hr & HN & _) _ _ _ _]].
  2:{ unfold usemap_slots in *. Z.div_mod_to_equations. lia. }
  exfalso. destruct Hwf as [Hu Hlen Ht Hused Hle Hlast]. unfold slotmap_reserve in Hop.
  cbn [Z.eqb] in Hop. unfold get_free_slots in Hop. unfold is_u64 in Ht.
  pose proof (slots_in_use_nonneg (use_map smap)).
  rewrite u64_small in Hop; [unfold is_u64; lia|]. rewrite (proj2 (Z.ltb_ge _ _)) in Hop; [lia|].
  change (slot_map_bytes 1) with 1 in Hop. rewrite andb_false_r in Hop.
  destruct (reserve_search _ _ _ _ _ 0) as [[s|]|] eqn:Hs; [|clear Hop|done].
  - injection Hop as Hop _. apply (f_equal used_slots) in Hop. simpl in Hop.
    rewrite u64_small in Hop; [unfold is_u64; lia|]. lia.
  - rewrite -Hlen in Hs. pose proof (reserve_search_one _ _ _ 0 Hu ltac:(lia) Hs) as Hfull.
    apply full_bytes_in_use in Hfull. lia.
Qed.

(** *** A concrete map: 24 slots, of which a run of 5 and a run of 16 *)

Definition slotmap_example : slot_map := Eval vm_compute in
  match slotmap_init 24 64 [] with
  | Some s0 => match slotmap_reserve s0 5 with
               | Some (s1, _) => match slotmap_reserve s1 6 with Some (s2, _) => s2 | None => s1 end
               | None => s0
               end
  | None => SlotMap 0 0 0 0 []
  end.

Lemma slotmap_example_reach : slotmap_reach slotmap_example.
Proof.
  destruct (slotmap_init 24 64 []) as [s0|] eqn:H0; [|by vm_compute in H0].
  destruct (slotmap_reserve s0 5) as [[s1 r1]|] eqn:H1; [|injection H0 as <-; by vm_compute in H1].
  assert (slotmap_reserve s1 6 = Some (slotmap_example, 5)) as H2.
  { vm_compute in H0. injection H0 as <-. vm_compute in H1. injection H1 as <- <-. by vm_compute. }
  refine (sm_reach_reserve _ _ _ _ _ _ H2); [|lia]. refine (sm_reach_reserve _ _ _ _ _ _ H1); [|lia].
  refine (sm_reach_init _ _ _ _ _ H0). vm_compute. done.
Qed.

Lemma slotmap_reserve_correct_witness :
  exists smap' r, slotmap_reserve slotmap_example 8 = Some (smap', r) /\
    (r = -1 /\ smap' = slotmap_example \/ 0 <= r /\ r + 8 <= 24).
Proof.
  destruct (slotmap_reserve_correct slotmap_example 8 slotmap_example_reach) as (smap' & r & Hop & Hp); [lia|].
  exists smap', r. split; [exact Hop|].
  destruct Hp as [Hp|(H1 & _ & H2 & _)]; [by left|right]. split; [exact H1|]. by apply H2.
Defined.

Lemma slotmap_reserve_release_witness :
  exists smap'', slotmap_release (SlotMap 24 19 0 18 [255; 255; 7]) 11 8 = Some (smap'', UNIFYFS_SUCCESS) /\
    use_map smap'' = use_map slotmap_example /\ used_slots smap'' = 11.
Proof.
  refine (slotmap_reserve_release slotmap_example 8 _ 11 slotmap_example_reach _ _ _); [lia|by vm_compute|done].
Defined.

Lemma slotmap_invariant_witness : get_free_slots slotmap_example = 24 - 11.
Proof. apply (slotmap_invariant slotmap_example slotmap_example_reach). Defined.

Lemma slotmap_reserve_one_witness :
  exists smap' r, slotmap_reserve slotmap_example 1 = Some (smap', r) /\ 0 <= r < 24.
Proof. apply (slotmap_reserve_one slotmap_example slotmap_example_reach); by vm_compute. Defined.

(** *** Where the code departs from its intent *)

(** With 20 slots (not a multiple of 8), a reservation can include the unused
    bits of the last byte: of 16 slots starting at slot 8, four do not exist. *)
Theorem slotmap_reserve_out_of_range :
  match slotmap_init 20 64 [] with
  | Some s0 =>
      match slotmap_reserve s0 1 with
      | Some (s1, _) => match slotmap_reserve s1 16 with Some (_, r) => (total_slots s1, r, r + 16) | None => (0, 0, 0) end
      | None => (0, 0, 0)
      end
  | None => (0, 0, 0)
  end = (20, 8, 24).
Proof. by vm_compute. Qed.

(** After the first of two runs is released, [first_used_slot] still names a
    free slot: the new value is assigned to [last_used_slot], which then names
    the first used slot although later slots are in use. *)
Theorem slotmap_release_wrong_field :
  match slotmap_init 64 64 [] with
  | Some s0 =>
      match slotmap_reserve s0 8 with
      | Some (s1, r1) =>
          match slotmap_reserve s1 24 with
          | Some (s2, _) =>
              match slotmap_release s2 r1 8 with
              | Some (s3, _) => (check_slot (use_map s3) (first_used_slot s3), last_used_slot s3,
                                 check_slot (use_map s3) 31)
              | None => (true, 0, true)
              end
          | None => (true, 0, true)
          end
      | None => (true, 0, true)
      end
  | None => (true, 0, true)
  end = (false, 8, true).
Proof. by vm_compute. Qed.
