(* ===== verification/LogIO.v ===== *)
(** * The write log of a client ([common/src/unifyfs_logio.c])

    The data a client writes goes to its log: a shared memory region followed,
    in the log's address space, by a spill-over file.  Each part starts with a
    header that holds a slot map of its data chunks.  Space is allocated in
    whole chunks, preferably in shared memory.

    [log_header] is the header together with its slot map, [logio_context] the
    state of both parts with their contents.  The flag [updating] is the lock
    between client and server: an operation that finds it set waits, which the
    model reports as [LBlocked], since nothing else runs.  The operating system
    calls are represented by their results, which are arguments. *)

From S2P Require Import Prelude.
From S2P Require Import SlotMap.

(** ** State *)

Record log_header := LogHeader {
  hdr_sz : Z;         (* total header bytes (struct and chunk_map) *)
  data_sz : Z;        (* total data bytes in log *)
  reserved_sz : Z;    (* reserved data bytes *)
  chunk_sz : Z;       (* data chunk size *)
  data_offset : Z;    (* file/memory offset where data chunks start *)
  updating : bool;    (* flag to prevent client/server update races *)
  chunk_map : slot_map;   (* the slot map that follows the header *)
}.

(** [sizeof(log_header)]: five 8-byte fields, an int and padding. *)
Definition sizeof_log_header : Z := 48.

Record logio_context := LogioContext {
  shmem : option log_header;      (* header of the shared memory region *)
  spill_hdr : option log_header;  (* header of the spill-over file *)
  shmem_bytes : Z -> Z;           (* contents of the region, by offset *)
  spill_bytes : Z -> Z;           (* contents of the spill-over file, by offset *)
  spill_sz : Z;
  spill_fd : Z;
}.

(** The outcome of an operation: a result, waiting for a lock that is never
    released, or an access outside a slot map. *)
Inductive lres (A : Type) :=
  | LRet (a : A)
  | LBlocked
  | LFault.

Arguments LRet {A}.
Arguments LBlocked {A}.
Arguments LFault {A}.

Definition lbind {A B} (x : lres A) (f : A -> lres B) : lres B :=
  match x with LRet a => f a | LBlocked => LBlocked | LFault => LFault end.

Notation "'let!' p := x 'in' k" := (lbind x (fun p => k))
  (at level 10, p name, x at level 100, k at level 200) : unifyfs_scope.
Notation "'let!' ' p := x 'in' k" := (lbind x (fun y => match y with p => k end))
  (at level 10, p pattern, x at level 100, k at level 200) : unifyfs_scope.

(** Calls of the slot map. *)
Definition lift_slotmap {A} (x : option A) : lres A :=
  match x with Some a => LRet a | None => LFault end.

Definition set_updating (b : bool) (hdr : log_header) : log_header :=
  LogHeader (hdr_sz hdr) (data_sz hdr) (reserved_sz hdr) (chunk_sz hdr) (data_offset hdr) b (chunk_map hdr).

Definition set_chunk_map (cm : slot_map) (hdr : log_header) : log_header :=
  LogHeader (hdr_sz hdr) (data_sz hdr) (reserved_sz hdr) (chunk_sz hdr) (data_offset hdr) (updating hdr) cm.

Definition set_reserved (r : Z) (hdr : log_header) : log_header :=
  LogHeader (hdr_sz hdr) (data_sz hdr) r (chunk_sz hdr) (data_offset hdr) (updating hdr) (chunk_map hdr).

Definition LOCK_LOG_HEADER (hdr : log_header) : lres log_header :=
  if updating hdr then LBlocked else LRet (set_updating true hdr).

Definition UNLOCK_LOG_HEADER (hdr : log_header) : log_header := set_updating false hdr.

(** ** Arithmetic on the log *)

Definition bytes_to_chunks (bytes chunk_sz : Z) : Z :=
  let n_chunks := bytes / chunk_sz in
  if negb (bytes mod chunk_sz =? 0) then n_chunks + 1 else n_chunks.

(** The outputs [sz_in_mem], [sz_in_spill] and [spill_offset]. *)
Definition get_log_sizes (log_offset nbytes shmem_data_sz : Z) : Z * Z * Z :=
  if log_offset ⊞ nbytes <=? shmem_data_sz then (nbytes, 0, 0)
  else if log_offset <? shmem_data_sz then
    let sz_in_mem := shmem_data_sz ⊟ log_offset in
    (sz_in_mem, nbytes ⊟ sz_in_mem, 0)
  else (0, nbytes, log_offset - shmem_data_sz).

(** ** Initialisation *)

(** The loop that looks for the number of header pages; the outer [None] means
    more than [fuel] passes. *)
Fixpoint init_log_pages (fuel : nat) (pgsz region_size chunk_size hdr_pages : Z)
    : option (option (Z * Z * slot_map)) :=
  match fuel with
  | O => None
  | S fuel' =>
      let hdr_size := hdr_pages * pgsz in
      if hdr_size >=? region_size then Some None
      else
        let data_space := region_size - hdr_size in
        let n_chunks := data_space / chunk_size in
        let slotmap_size := hdr_size ⊟ sizeof_log_header in
        match slotmap_init n_chunks slotmap_size [] with
        | None => init_log_pages fuel' pgsz region_size chunk_size (hdr_pages + 1)
        | Some chunkmap => Some (Some (hdr_size, n_chunks * chunk_size, chunkmap))
        end
  end.

Definition init_log_header (pgsz region_size chunk_size : Z) : option (log_header * Z + Z) :=
  match init_log_pages (S (Z.to_nat (region_size / pgsz))) pgsz region_size chunk_size 1 with
  | None => None
  | Some None => Some (inr UNIFYFS_FAILURE)
  | Some (Some (hdr_size, data_size, chunkmap)) =>
      Some (inl (LogHeader hdr_size data_size 0 chunk_size hdr_size false chunkmap, UNIFYFS_SUCCESS))
  end.

(** ** Allocating *)

(** The part of [unifyfs_logio_alloc] for shared memory.  [inl]: everything
    fits, with the log offset.  [inr]: what is reserved at the end of the
    region ([mem_res_slot], [mem_res_nchk]), with the header still locked. *)
Definition logio_alloc_shmem (hdr : log_header) (have_spill : bool) (nbytes : Z)
    : lres (log_header * (Z + option (Z * Z))) :=
  let! hdr := LOCK_LOG_HEADER hdr in
  let needed_chunks := bytes_to_chunks nbytes (chunk_sz hdr) in
  let! '(cm, res_slot) := lift_slotmap (slotmap_reserve (chunk_map hdr) needed_chunks) in
  if negb (res_slot =? -1) then
    let allocated_bytes := u64 (needed_chunks * chunk_sz hdr) in
    let hdr := set_reserved (reserved_sz hdr ⊞ allocated_bytes) (set_chunk_map cm hdr) in
    LRet (UNLOCK_LOG_HEADER hdr, inl (u64 (res_slot * chunk_sz hdr)))
  else if have_spill then
    let log_end_chunks := total_slots cm ⊟ (last_used_slot cm + 1) in
    if log_end_chunks >? 0 then
      let! '(cm, res_slot) := lift_slotmap (slotmap_reserve cm log_end_chunks) in
      if negb (res_slot =? -1) then
        LRet (set_chunk_map cm hdr, inr (Some (res_slot, log_end_chunks)))
      else LRet (UNLOCK_LOG_HEADER (set_chunk_map cm hdr), inr None)
    else LRet (UNLOCK_LOG_HEADER (set_chunk_map cm hdr), inr None)
  else LRet (UNLOCK_LOG_HEADER (set_chunk_map cm hdr), inr None).

(** The result of the spill part: the headers and the log offset or ENOSPC. *)
Definition alloc_result : Type := option log_header * log_header * (Z + Z).

(** The reservation in the spill-over file that follows a failed attempt in
    shared memory: [off] is the start of the spill data in the log. *)
Definition logio_alloc_spill_only (shdr : option log_header) (hdr : log_header) (cm : slot_map)
    (res_slot res_chunks : Z) : alloc_result :=
  let allocated_bytes := u64 (res_chunks * chunk_sz hdr) in
  let hdr := set_reserved (reserved_sz hdr ⊞ allocated_bytes) (set_chunk_map cm hdr) in
  let res_off := u64 (res_slot * chunk_sz hdr) in
  let res_off := match shdr with Some s => res_off ⊞ data_sz s | None => res_off end in
  (shdr, UNLOCK_LOG_HEADER hdr, inl res_off).

(** Incompatible reservations: release both and try the whole allocation in
    the spill-over file.  The spill header is locked by the caller, and is not
    unlocked if this attempt fails. *)
Definition logio_alloc_retry (shdr hdr : log_header) (cm : slot_map)
    (res_slot res_chunks mem_res_slot mem_res_nchk nbytes : Z) : lres alloc_result :=
  let! '(cm, _) := lift_slotmap (slotmap_release cm res_slot res_chunks) in
  let! '(scm, _) := lift_slotmap (slotmap_release (chunk_map shdr) mem_res_slot mem_res_nchk) in
  let shdr := UNLOCK_LOG_HEADER (set_chunk_map scm shdr) in
  let needed_chunks := bytes_to_chunks nbytes (chunk_sz hdr) in
  let! '(cm, res_slot) := lift_slotmap (slotmap_reserve cm needed_chunks) in
  if negb (res_slot =? -1) then
    LRet (logio_alloc_spill_only (Some shdr) hdr cm res_slot needed_chunks)
  else LRet (Some shdr, set_chunk_map cm hdr, inr ENOSPC).

(** The part for the spill-over file; [mem_res] is the reservation at the end
    of the shared memory region, if any. *)
Definition logio_alloc_spill (shdr : option log_header) (hdr : log_header)
    (mem_res : option (Z * Z)) (nbytes : Z) : lres alloc_result :=
  let! hdr := LOCK_LOG_HEADER hdr in
  let mem_allocation :=
    match shdr, mem_res with Some s, Some (_, nchk) => u64 (nchk * chunk_sz s) | _, _ => 0 end in
  let needed_bytes := nbytes ⊟ mem_allocation in
  let res_chunks := bytes_to_chunks needed_bytes (chunk_sz hdr) in
  let! '(cm, res_slot) := lift_slotmap (slotmap_reserve (chunk_map hdr) res_chunks) in
  if negb (res_slot =? -1) then
    match shdr, mem_res with
    | Some s, Some (mem_res_slot, mem_res_nchk) =>
        if negb (res_slot =? 0) then
          logio_alloc_retry s hdr cm res_slot res_chunks mem_res_slot mem_res_nchk nbytes
        else
          let allocated_bytes := u64 (res_chunks * chunk_sz hdr) in
          LRet (Some (UNLOCK_LOG_HEADER (set_reserved (reserved_sz s ⊞ mem_allocation) s)),
                UNLOCK_LOG_HEADER (set_reserved (reserved_sz hdr ⊞ allocated_bytes) (set_chunk_map cm hdr)),
                inl (u64 (mem_res_slot * chunk_sz s)))
    | _, _ => LRet (logio_alloc_spill_only shdr hdr cm res_slot res_chunks)
    end
  else
    let hdr := UNLOCK_LOG_HEADER (set_chunk_map cm hdr) in
    match shdr, mem_res with
    | Some s, Some (mem_res_slot, mem_res_nchk) =>
        let! '(scm, _) := lift_slotmap (slotmap_release (chunk_map s) mem_res_slot mem_res_nchk) in
        LRet (Some (UNLOCK_LOG_HEADER (set_chunk_map scm s)), hdr, inr ENOSPC)
    | _, _ => LRet (shdr, hdr, inr ENOSPC)
    end.

Definition with_headers (ctx : logio_context) (s h : option log_header) : logio_context :=
  LogioContext s h (shmem_bytes ctx) (spill_bytes ctx) (spill_sz ctx) (spill_fd ctx).

(** The attempt in shared memory, if the context has any. *)
Definition logio_alloc_mem_part (ctx : logio_context) (nbytes : Z)
    : lres (option log_header * (Z + option (Z * Z))) :=
  match shmem ctx with
  | Some s =>
      let have_spill := match spill_hdr ctx with Some _ => true | None => false end in
      let! '(s', r) := logio_alloc_shmem s have_spill nbytes in
      LRet (Some s', r)
  | None => LRet (None, inr None)
  end.

(** Returns the context, the return code and [*log_offset]. *)
Definition unifyfs_logio_alloc (ctx : logio_context) (nbytes log_offset : Z)
    : lres (logio_context * Z * Z) :=
  if nbytes =? 0 then LRet (ctx, UNIFYFS_SUCCESS, log_offset)
  else
    let! '(shdr, r) := logio_alloc_mem_part ctx nbytes in
    match r with
    | inl off => LRet (with_headers ctx shdr (spill_hdr ctx), UNIFYFS_SUCCESS, off)
    | inr mem_res =>
        match spill_hdr ctx with
        | None => LRet (with_headers ctx shdr None, ENOSPC, log_offset)
        | Some h =>
            let! '(shdr', h', res) := logio_alloc_spill shdr h mem_res nbytes in
            match res with
            | inl off => LRet (with_headers ctx shdr' (Some h'), UNIFYFS_SUCCESS, off)
            | inr rc => LRet (with_headers ctx shdr' (Some h'), rc, log_offset)
            end
        end
    end.

(** ** Freeing *)

(** Release [sz] bytes at [off] of one part of the log. *)
Definition logio_free_part (hdr : log_header) (off sz : Z) : lres (log_header * Z) :=
  let! hdr := LOCK_LOG_HEADER hdr in
  let chunk_slot := off / chunk_sz hdr in
  let num_chunks := bytes_to_chunks sz (chunk_sz hdr) in
  let released_bytes := u64 (chunk_sz hdr * num_chunks) in
  let! '(cm, rc) := lift_slotmap (slotmap_release (chunk_map hdr) chunk_slot num_chunks) in
  let hdr := set_reserved (reserved_sz hdr ⊟ released_bytes) (set_chunk_map cm hdr) in
  LRet (UNLOCK_LOG_HEADER hdr, rc).

(** The size of the shared memory part, 0 without one. *)
Definition logio_mem_size (ctx : logio_context) : Z :=
  match shmem ctx with Some s => data_sz s | None => 0 end.

Definition unifyfs_logio_free (ctx : logio_context) (log_offset nbytes : Z) : lres (logio_context * Z) :=
  if nbytes =? 0 then LRet (ctx, UNIFYFS_SUCCESS)
  else
    let '(sz_in_mem, sz_in_spill, spill_offset) := get_log_sizes log_offset nbytes (logio_mem_size ctx) in
    let! '(ctx, rc) :=
      if sz_in_mem >? 0 then
        match shmem ctx with
        | None => LFault
        | Some s => let! '(s', rc) := logio_free_part s log_offset sz_in_mem in
                    LRet (with_headers ctx (Some s') (spill_hdr ctx), rc)
        end
      else LRet (ctx, UNIFYFS_SUCCESS) in
    if sz_in_spill >? 0 then
      match spill_hdr ctx with
      | None => LFault
      | Some h => let! '(h', rc) := logio_free_part h spill_offset sz_in_spill in
                  LRet (with_headers ctx (shmem ctx) (Some h'), rc)
      end
    else LRet (ctx, rc).

(** ** Reading and writing *)

(** The bytes of a region. *)
Definition region_read (r : Z -> Z) (off n : Z) : list Z := r <$> seqZ off n.

Definition region_write (r : Z -> Z) (off : Z) (bs : list Z) : Z -> Z :=
  fun a => if (off <=? a) && (a <? off + Z.of_nat (length bs)) then nth (Z.to_nat (a - off)) bs 0 else r a.

(** The result of [pread] or [pwrite]: the number of bytes transferred, or an
    error number. *)
Definition io_result : Type := Z + Z.

(** Returns the return code, [*obytes] and the bytes put into [obuf]. *)
Definition unifyfs_logio_read (ctx : logio_context) (log_offset nbytes : Z) (pread : io_result)
    : lres (Z * Z * list Z) :=
  if nbytes =? 0 then LRet (UNIFYFS_SUCCESS, 0, [])
  else
    let '(sz_in_mem, sz_in_spill, spill_offset) := get_log_sizes log_offset nbytes (logio_mem_size ctx) in
    let! mem_data :=
      if sz_in_mem >? 0 then
        match shmem ctx with
        | None => LFault
        | Some s => LRet (region_read (shmem_bytes ctx) (data_offset s + log_offset) sz_in_mem)
        end
      else LRet [] in
    let! '(err_rc, spill_data) :=
      if sz_in_spill >? 0 then
        match spill_hdr ctx with
        | None => LFault
        | Some h =>
            match pread with
            | inr errno => LRet (errno, [])
            | inl n => LRet (0, region_read (spill_bytes ctx) (spill_offset + data_offset h) n)
            end
        end
      else LRet (0, []) in
    let obuf := mem_data ++ spill_data in
    let nread := Z.of_nat (length obuf) in
    if negb (nread =? 0) then LRet (UNIFYFS_SUCCESS, nread, obuf)
    else LRet (err_rc, 0, []).

(** Returns the context, the return code and [*obytes]. *)
Definition unifyfs_logio_write (ctx : logio_context) (log_offset : Z) (ibuf : list Z) (pwrite : io_result)
    : lres (logio_context * Z * Z) :=
  let nbytes := Z.of_nat (length ibuf) in
  if nbytes =? 0 then LRet (ctx, UNIFYFS_SUCCESS, 0)
  else
    let '(sz_in_mem, sz_in_spill, spill_offset) := get_log_sizes log_offset nbytes (logio_mem_size ctx) in
    let! mem :=
      if sz_in_mem >? 0 then
        match shmem ctx with
        | None => LFault
        | Some s => LRet (region_write (shmem_bytes ctx) (data_offset s + log_offset)
                            (take (Z.to_nat sz_in_mem) ibuf))
        end
      else LRet (shmem_bytes ctx) in
    let! '(err_rc, n_spill, spill) :=
      if sz_in_spill >? 0 then
        match spill_hdr ctx with
        | None => LFault
        | Some h =>
            match pwrite with
            | inr errno => LRet (errno, 0, spill_bytes ctx)
            | inl n => LRet (0, n, region_write (spill_bytes ctx) (spill_offset + data_offset h)
                                     (take (Z.to_nat n) (drop (Z.to_nat sz_in_mem) ibuf)))
            end
        end
      else LRet (0, 0, spill_bytes ctx) in
    let ctx' := LogioContext (shmem ctx) (spill_hdr ctx) mem spill (spill_sz ctx) (spill_fd ctx) in
    let nwrite := sz_in_mem + n_spill in
    if negb (nwrite =? 0) then LRet (ctx', UNIFYFS_SUCCESS, nwrite)
    else LRet (ctx', err_rc, 0).

(** [fsync_err] is the error number of a failed [fsync]. *)
Definition unifyfs_logio_sync (ctx : logio_context) (fsync_err : option Z) : Z :=
  if negb (spill_sz ctx =? 0) && negb (spill_fd ctx =? -1) then
    match fsync_err with Some err => err | None => UNIFYFS_SUCCESS end
  else UNIFYFS_SUCCESS.

(** Returns [*shmem_sz] and [*spill_sz]. *)
Definition unifyfs_logio_get_sizes (ctx : logio_context) : Z * Z :=
  (match shmem ctx with Some s => data_sz s | None => 0 end,
   match spill_hdr ctx with Some h => data_sz h | None => 0 end).

(** ** Properties of the layout *)

Lemma bytes_to_chunks_spec b c :
  0 < c -> 0 <= b -> let n := bytes_to_chunks b c in b <= n * c < b + c /\ 0 <= n.
Proof.
  intros Hc Hb. unfold bytes_to_chunks. zcase; rewrite ?negb_true_iff ?negb_false_iff in Heqb0; zbool;
    Z.div_mod_to_equations; nia.
Qed.

(** How a range of the log falls into the two parts. *)
Definition log_in_mem (off n mem : Z) : Z := Z.max 0 (Z.min (off + n) mem - off).

Lemma get_log_sizes_eq off n mem :
  0 <= off -> 0 < n -> off + n <= ULONG_MAX -> 0 <= mem <= ULONG_MAX ->
  get_log_sizes off n mem = (log_in_mem off n mem, n - log_in_mem off n mem, Z.max 0 (off - mem)).
Proof.
  intros Ho Hn Hmax Hmem. unfold get_log_sizes, log_in_mem.
  rewrite (u64_small (off + n)); first (unfold is_u64; lia).
  repeat zcase; [repeat f_equal; lia| |repeat f_equal; lia].
  rewrite (u64_small (mem - off)); first (unfold is_u64; lia).
  rewrite u64_small; first (unfold is_u64; lia). repeat f_equal; lia.
Qed.

(** *** The header layout *)

Record layout_ok (pgsz region_size chunk_size : Z) (hdr : log_header) : Prop := {
  lo_map : slotmap_reach (chunk_map hdr);
  lo_empty : used_slots (chunk_map hdr) = 0;
  lo_pages : 0 < hdr_sz hdr /\ hdr_sz hdr mod pgsz = 0;
  lo_room : sizeof_log_header + sizeof_slot_map + slot_map_bytes (total_slots (chunk_map hdr)) <= hdr_sz hdr;
  lo_data : data_sz hdr = total_slots (chunk_map hdr) * chunk_size;
  lo_region : hdr_sz hdr + data_sz hdr <= region_size;
  lo_start : data_offset hdr = hdr_sz hdr /\ chunk_sz hdr = chunk_size /\ reserved_sz hdr = 0 /\ updating hdr = false;
}.

Lemma init_log_pages_spec fuel pgsz region chunk pages :
  80 <= pgsz -> 0 < chunk -> region <= ULONG_MAX - 8 -> 1 <= pages ->
  region <= (pages + Z.of_nat fuel - 1) * pgsz -> (1 <= fuel)%nat ->
  match init_log_pages fuel pgsz region chunk pages with
  | None => False
  | Some None => True
  | Some (Some (h, d, cm)) =>
      slotmap_reach cm /\ used_slots cm = 0 /\ 0 < h /\ h mod pgsz = 0 /\
      sizeof_log_header + sizeof_slot_map + slot_map_bytes (total_slots cm) <= h /\
      d = total_slots cm * chunk /\ h + d <= region
  end.
Proof.
  intros Hpg Hch Hmax. revert pages. induction fuel as [|fuel IH]; intros pages Hp Hf H1; [lia|]. simpl.
  destruct (pages * pgsz >=? region) eqn:Hge; zbool; [done|].
  assert (80 <= pages * pgsz) as Hpp by nia.
  assert (forall x, u64 (pages * pgsz - 48) ⊟ x = pages * pgsz - 48 ⊟ x) as Hu by (intros; apply u64_sub_l).
  unfold sizeof_log_header. unfold slotmap_init at 1. rewrite Hu.
  rewrite (u64_small (pages * pgsz - 48 - sizeof_slot_map)); first (unfold is_u64, sizeof_slot_map; lia).
  destruct (_ >? _) eqn:Hfit; zbool.
  - apply IH; [lia|nia|]. destruct fuel; [simpl in Hf; nia|lia].
  - assert (0 <= (region - pages * pgsz) / chunk <= region - pages * pgsz) as Hn.
    { split; [apply Z.div_pos; lia|]. apply Z.div_le_upper_bound; nia. }
    split_and!.
    + apply (sm_reach_init ((region - pages * pgsz) / chunk) (pages * pgsz - 48) []); [lia|].
      unfold slotmap_init. rewrite u64_small; first (unfold is_u64, sizeof_slot_map; lia).
      rewrite Z.gtb_ltb (proj2 (Z.ltb_ge _ _)) //.
    + done.
    + nia.
    + by rewrite Z.mod_mul; [lia|].
    + unfold sizeof_slot_map in *. simpl. lia.
    + done.
    + simpl. pose proof (Z.mul_div_le (region - pages * pgsz) chunk Hch). lia.
Qed.

Lemma init_log_header_spec pgsz region chunk :
  80 <= pgsz -> 0 < chunk -> 0 <= region <= ULONG_MAX - 8 ->
  match init_log_header pgsz region chunk with
  | Some (inl (hdr, rc)) => rc = UNIFYFS_SUCCESS /\ layout_ok pgsz region chunk hdr
  | Some (inr rc) => rc = UNIFYFS_FAILURE
  | None => False
  end.
Proof.
  intros Hpg Hch Hr. unfold init_log_header.
  pose proof (init_log_pages_spec (S (Z.to_nat (region / pgsz))) pgsz region chunk 1) as Hs.
  destruct (init_log_pages _ _ _ _ _) as [[[[h d] cm]|]|]; [|done|].
  - destruct Hs as (H1 & H2 & H3 & H4 & H5 & H6 & H7); [lia|lia|lia|lia|Z.div_mod_to_equations; nia|lia|].
    split; [done|]. by split.
  - apply Hs; [lia|lia|lia|lia|Z.div_mod_to_equations; nia|lia].
Qed.

(** ** The log as one address space *)

(** The byte at log offset [a]: shared memory first, then the spill-over file. *)
Definition log_view (ctx : logio_context) (a : Z) : Z :=
  let mem := logio_mem_size ctx in
  if a <? mem then
    match shmem ctx with Some s => shmem_bytes ctx (data_offset s + a) | None => 0 end
  else
    match spill_hdr ctx with Some h => spill_bytes ctx (data_offset h + (a - mem)) | None => 0 end.

(** A range of the log that lies in the parts the context has. *)
Record log_range_ok (ctx : logio_context) (off n : Z) : Prop := {
  lr_off : 0 <= off;
  lr_len : 0 < n;
  lr_max : off + n <= ULONG_MAX;
  lr_mem : 0 <= logio_mem_size ctx <= ULONG_MAX;
  lr_spill : logio_mem_size ctx < off + n -> spill_hdr ctx <> None;
}.

Lemma log_in_mem_bounds off n mem : 0 < n -> 0 <= log_in_mem off n mem <= n.
Proof. unfold log_in_mem. lia. Qed.

Lemma log_in_mem_shmem ctx off n :
  0 <= off -> 0 < log_in_mem off n (logio_mem_size ctx) -> exists s, shmem ctx = Some s.
Proof. unfold log_in_mem, logio_mem_size. destruct (shmem ctx) as [s|]; [by exists s|]. lia. Qed.

Lemma region_read_app r off n1 n2 :
  0 <= n1 -> 0 <= n2 -> region_read r off (n1 + n2) = region_read r off n1 ++ region_read r (off + n1) n2.
Proof. intros. unfold region_read. rewrite seqZ_app // fmap_app //. Qed.

Lemma region_read_ext r1 r2 o1 o2 n :
  (forall i, 0 <= i < n -> r1 (o1 + i) = r2 (o2 + i)) -> region_read r1 o1 n = region_read r2 o2 n.
Proof.
  intros H. unfold region_read. destruct (decide (0 <= n)) as [Hn|Hn].
  2:{ rewrite !seqZ_nil; [lia|lia|done]. }
  apply list_eq. intros i.
  rewrite (list_lookup_fmap r1 (seqZ o1 n)) (list_lookup_fmap r2 (seqZ o2 n)).
  destruct (decide (Z.of_nat i < n)).
  - rewrite (lookup_seqZ_lt o1); first lia. rewrite (lookup_seqZ_lt o2); first lia. simpl.
    f_equal. apply H. lia.
  - rewrite (lookup_seqZ_ge o1); first lia. by rewrite (lookup_seqZ_ge o2); first lia.
Qed.

Lemma region_read_length r off n : length (region_read r off n) = Z.to_nat n.
Proof. unfold region_read. by rewrite length_fmap length_seqZ. Qed.

(** Reading what was written. *)
Lemma region_read_write r off bs : region_read (region_write r off bs) off (Z.of_nat (length bs)) = bs.
Proof.
  unfold region_read. apply list_eq. intros i. rewrite (list_lookup_fmap _ (seqZ off _)).
  destruct (decide (i < length bs)%nat) as [Hi|Hi].
  - rewrite lookup_seqZ_lt; [lia|]. simpl. unfold region_write.
    rewrite (proj2 (Z.leb_le _ _)); [lia|]. rewrite (proj2 (Z.ltb_lt _ _)); [lia|]. simpl.
    replace (Z.to_nat (off + Z.of_nat i - off)) with i by lia.
    rewrite nth_lookup. by destruct (lookup_lt_is_Some_2 bs i Hi) as [x ->].
  - rewrite lookup_seqZ_ge; [lia|]. simpl. symmetry. apply lookup_ge_None_2. lia.
Qed.

(** A write in two pieces. *)
Lemma region_write_app r off bs1 bs2 a :
  region_write r off (bs1 ++ bs2) a =
  region_write (region_write r off bs1) (off + Z.of_nat (length bs1)) bs2 a.
Proof.
  unfold region_write. rewrite length_app Nat2Z.inj_add.
  repeat match goal with |- context [?x <=? ?y] => destruct (Z.leb_spec x y)
    | |- context [?x <? ?y] => destruct (Z.ltb_spec x y) end; simpl; try lia; try done.
  - rewrite app_nth2; [lia|]. f_equal. lia.
  - rewrite app_nth1; [lia|done].
Qed.

(** The part of a range in shared memory. *)
Lemma log_view_mem ctx s off n i :
  shmem ctx = Some s -> 0 <= i < log_in_mem off n (logio_mem_size ctx) ->
  shmem_bytes ctx (data_offset s + off + i) = log_view ctx (off + i).
Proof.
  intros Hs Hi. unfold log_in_mem in Hi. unfold log_view. rewrite (proj2 (Z.ltb_lt _ _)); [lia|].
  rewrite Hs. f_equal. lia.
Qed.

(** The part in the spill-over file. *)
Lemma log_view_spill ctx h off n i :
  spill_hdr ctx = Some h -> 0 < n -> 0 <= logio_mem_size ctx ->
  let m := log_in_mem off n (logio_mem_size ctx) in
  0 < n - m -> 0 <= i ->
  spill_bytes ctx (Z.max 0 (off - logio_mem_size ctx) + data_offset h + i) = log_view ctx (off + m + i).
Proof.
  intros Hh Hn Hmem m Hm Hi. unfold m, log_in_mem in *. unfold log_view.
  rewrite (proj2 (Z.ltb_ge _ _)); [lia|]. rewrite Hh. f_equal. lia.
Qed.

Lemma logio_read_spec ctx off n k :
  log_range_ok ctx off n ->
  let m := log_in_mem off n (logio_mem_size ctx) in
  0 <= k <= n - m -> 0 < m + k ->
  unifyfs_logio_read ctx off n (inl k) =
    LRet (UNIFYFS_SUCCESS, m + k, region_read (log_view ctx) off (m + k)).
Proof.
  intros [Ho Hn Hmax Hmem Hsp] m Hk Hpos. pose proof (log_in_mem_bounds off n (logio_mem_size ctx) Hn) as Hm.
  fold m in Hm. unfold unifyfs_logio_read. rewrite (proj2 (Z.eqb_neq n 0)); [lia|].
  rewrite get_log_sizes_eq // -/m region_read_app; [lia|lia|].
  assert ((if m >? 0 then match shmem ctx with
             | None => LFault
             | Some s => LRet (region_read (shmem_bytes ctx) (data_offset s + off) m) end
           else LRet []) = LRet (region_read (log_view ctx) off m)) as ->.
  { destruct (m >? 0) eqn:H0; zbool.
    - destruct (log_in_mem_shmem ctx off n Ho H0) as [s Hs]. rewrite Hs. f_equal.
      apply region_read_ext. intros i Hi. by apply (log_view_mem ctx s off n).
    - replace m with 0 by lia. done. }
  assert ((if n - m >? 0 then match spill_hdr ctx with
             | None => LFault
             | Some h => LRet (0, region_read (spill_bytes ctx) (Z.max 0 (off - logio_mem_size ctx) + data_offset h) k) end
           else LRet (0, [])) = LRet (0, region_read (log_view ctx) (off + m) k)) as ->.
  { destruct (n - m >? 0) eqn:H0; zbool.
    - destruct (spill_hdr ctx) as [h|] eqn:Hh; [|exfalso; apply Hsp; [unfold m, log_in_mem in *; lia|done]].
      f_equal. f_equal. apply region_read_ext. intros i Hi.
      apply (log_view_spill ctx h off n i Hh Hn); [lia|exact H0|lia].
    - replace k with 0 by lia. done. }
  cbn [lbind]. rewrite length_app !region_read_length (proj2 (Z.eqb_neq _ _)); [lia|]. cbn [negb].
  do 3 f_equal. lia.
Qed.

Lemma region_write_shift r1 r2 o1 o2 bs x :
  r1 (o1 + x) = r2 (o2 + x) -> region_write r1 o1 bs (o1 + x) = region_write r2 o2 bs (o2 + x).
Proof.
  intros H. unfold region_write.
  replace ((o1 <=? o1 + x) && (o1 + x <? o1 + Z.of_nat (length bs)))
    with ((o2 <=? o2 + x) && (o2 + x <? o2 + Z.of_nat (length bs))).
  2:{ apply eq_true_iff_eq. rewrite !andb_true_iff !Z.leb_le !Z.ltb_lt. lia. }
  rewrite H. by replace (o1 + x - o1) with (o2 + x - o2) by lia.
Qed.

Lemma region_write_outside r o bs a :
  ~ (o <= a < o + Z.of_nat (length bs)) -> region_write r o bs a = r a.
Proof.
  intros H. unfold region_write. destruct (_ && _) eqn:Hb; [zbool; lia|done].
Qed.

(** The bytes of a write that falls into both parts. *)
Lemma log_view_write ctx off (bs : list Z) k mem' spill' :
  log_range_ok ctx off (Z.of_nat (length bs)) ->
  let m := log_in_mem off (Z.of_nat (length bs)) (logio_mem_size ctx) in
  0 <= k <= Z.of_nat (length bs) - m ->
  (forall a s, shmem ctx = Some s ->
     mem' a = region_write (shmem_bytes ctx) (data_offset s + off) (take (Z.to_nat m) bs) a) ->
  (forall a h, spill_hdr ctx = Some h ->
     spill' a = region_write (spill_bytes ctx) (Z.max 0 (off - logio_mem_size ctx) + data_offset h)
                  (take (Z.to_nat k) (drop (Z.to_nat m) bs)) a) ->
  forall a, log_view (LogioContext (shmem ctx) (spill_hdr ctx) mem' spill' (spill_sz ctx) (spill_fd ctx)) a =
    region_write (log_view ctx) off (take (Z.to_nat (m + k)) bs) a.
Proof.
  intros [Ho Hn Hmax Hmem Hsp] m Hk Hmem' Hsp' a.
  pose proof (log_in_mem_bounds off (Z.of_nat (length bs)) (logio_mem_size ctx) Hn) as Hm. fold m in Hm.
  assert (take (Z.to_nat (m + k)) bs = take (Z.to_nat m) bs ++ take (Z.to_nat k) (drop (Z.to_nat m) bs)) as ->.
  { rewrite Z2Nat.inj_add; [lia|lia|]. by rewrite take_take_drop. }
  assert (length (take (Z.to_nat m) bs) = Z.to_nat m) as Hl1 by (rewrite length_take; lia).
  assert (length (take (Z.to_nat k) (drop (Z.to_nat m) bs)) = Z.to_nat k) as Hl2
    by (rewrite length_take length_drop; lia).
  set (b1 := take (Z.to_nat m) bs) in *. set (b2 := take (Z.to_nat k) (drop (Z.to_nat m) bs)) in *.
  rewrite region_write_app Hl1 Z2Nat.id; [lia|].
  unfold log_view at 1. change (logio_mem_size (LogioContext _ _ _ _ _ _)) with (logio_mem_size ctx).
  cbn [shmem spill_hdr shmem_bytes spill_bytes]. destruct (a <? logio_mem_size ctx) eqn:Ha; zbool.
  - (* shared memory *)
    rewrite region_write_outside; [rewrite Hl2; unfold m, log_in_mem in *; lia|].
    destruct (shmem ctx) as [s|] eqn:Hs.
    2:{ rewrite region_write_outside; [rewrite Hl1; unfold m, log_in_mem, logio_mem_size in *; rewrite Hs in Ha *; lia|].
        unfold log_view. by rewrite (proj2 (Z.ltb_lt _ _) Ha) Hs. }
    rewrite (Hmem' _ s eq_refl). replace (data_offset s + a) with (data_offset s + off + (a - off)) by lia.
    replace a with (off + (a - off)) at 2 by lia. apply region_write_shift.
    unfold log_view. rewrite (proj2 (Z.ltb_lt _ _)); [lia|]. rewrite Hs. f_equal. lia.
  - (* the spill-over file *)
    destruct (spill_hdr ctx) as [h|] eqn:Hh.
    2:{ assert (~ logio_mem_size ctx < off + Z.of_nat (length bs)) as Hno by (intros H; by apply Hsp in H).
        rewrite !region_write_outside; [rewrite ?Hl1 ?Hl2; unfold m, log_in_mem in *; lia..|].
        unfold log_view. by rewrite (proj2 (Z.ltb_ge _ _) Ha) Hh. }
    assert (region_write (region_write (log_view ctx) off b1) (off + m) b2 a =
            region_write (log_view ctx) (off + m) b2 a) as ->.
    { unfold region_write at 1 3. destruct (_ && _); [done|]. apply region_write_outside.
      rewrite Hl1. unfold m, log_in_mem in *. lia. }
    destruct (decide (k = 0)) as [Hk0|Hk0].
    + rewrite (Hsp' _ h eq_refl) !region_write_outside; [rewrite Hl2; lia|rewrite Hl2; lia|].
      unfold log_view. by rewrite (proj2 (Z.ltb_ge _ _) Ha) Hh.
    + set (so := Z.max 0 (off - logio_mem_size ctx) + data_offset h) in *.
      assert (off + m = Z.max off (logio_mem_size ctx)) as Hbase by (unfold m, log_in_mem in *; lia).
      rewrite (Hsp' _ h eq_refl).
      replace (data_offset h + (a - logio_mem_size ctx)) with (so + (a - (off + m))) by (unfold so; lia).
      replace a with (off + m + (a - (off + m))) at 2 by lia. apply region_write_shift.
      unfold log_view. rewrite (proj2 (Z.ltb_ge _ _)); [lia|]. rewrite Hh. f_equal. unfold so. lia.
Qed.

Lemma logio_write_spec ctx off bs k :
  log_range_ok ctx off (Z.of_nat (length bs)) ->
  let m := log_in_mem off (Z.of_nat (length bs)) (logio_mem_size ctx) in
  0 <= k <= Z.of_nat (length bs) - m -> 0 < m + k ->
  exists ctx', unifyfs_logio_write ctx off bs (inl k) = LRet (ctx', UNIFYFS_SUCCESS, m + k) /\
    shmem ctx' = shmem ctx /\ spill_hdr ctx' = spill_hdr ctx /\
    forall a, log_view ctx' a = region_write (log_view ctx) off (take (Z.to_nat (m + k)) bs) a.
Proof.
  intros Hok m Hk Hpos. pose proof Hok as [Ho Hn Hmax Hmem Hsp].
  pose proof (log_in_mem_bounds off (Z.of_nat (length bs)) (logio_mem_size ctx) Hn) as Hm. fold m in Hm.
  unfold unifyfs_logio_write. rewrite (proj2 (Z.eqb_neq _ 0)); [lia|].
  rewrite get_log_sizes_eq // -/m.
  set (mem' := if m >? 0 then match shmem ctx with
    | None => shmem_bytes ctx
    | Some s => region_write (shmem_bytes ctx) (data_offset s + off) (take (Z.to_nat m) bs) end
    else shmem_bytes ctx).
  set (spill' := if Z.of_nat (length bs) - m >? 0 then match spill_hdr ctx with
    | None => spill_bytes ctx
    | Some h => region_write (spill_bytes ctx) (Z.max 0 (off - logio_mem_size ctx) + data_offset h)
                  (take (Z.to_nat k) (drop (Z.to_nat m) bs)) end
    else spill_bytes ctx).
  exists (LogioContext (shmem ctx) (spill_hdr ctx) mem' spill' (spill_sz ctx) (spill_fd ctx)).
  split_and!; [|done|done|].
  - unfold mem', spill'. destruct (m >? 0) eqn:Hm0; zbool.
    + destruct (log_in_mem_shmem ctx off _ Ho Hm0) as [s Hs]. rewrite Hs. cbn [lbind].
      destruct (_ >? 0) eqn:Hs0; zbool; cbn [lbind].
      * destruct (spill_hdr ctx) as [h|] eqn:Hh; [|exfalso; apply Hsp; [unfold m, log_in_mem in *; lia|done]].
        cbn [lbind]. rewrite (proj2 (Z.eqb_neq _ 0)) //; lia.
      * replace k with 0 by lia. rewrite (proj2 (Z.eqb_neq _ 0)) //; lia.
    + cbn [lbind]. rewrite (proj2 (Z.gtb_lt (Z.of_nat (length bs) - m) 0)); [lia|].
      destruct (spill_hdr ctx) as [h|] eqn:Hh; [|exfalso; apply Hsp; [unfold m, log_in_mem in *; lia|done]].
      cbn [lbind]. rewrite (proj2 (Z.eqb_neq _ 0)) //; lia.
  - apply log_view_write; [done|done| |].
    + intros a s Hs. fold m. unfold mem'. destruct (m >? 0) eqn:Hm0; zbool; [by rewrite Hs|].
      rewrite region_write_outside //. rewrite length_take. lia.
    + intros a h Hh. fold m. unfold spill'.
      destruct (Z.of_nat (length bs) - m >? 0) eqn:Hs0; [by rewrite Hh|zbool].
      rewrite region_write_outside //. rewrite length_take. lia.
Qed.

(** ** Allocation *)

(** Whether chunk [j] of a part of the log is in use. *)
Definition chunk_used (o : option log_header) (j : Z) : bool :=
  match o with Some hdr => check_slot (use_map (chunk_map hdr)) j | None => false end.

(** The chunks [r .. r+n-1] were free and are taken; nothing else changes. *)
Definition takes (o o' : option log_header) (r n : Z) : Prop :=
  0 <= r /\ (forall j, r <= j < r + n -> chunk_used o j = false) /\
  (forall j, 0 <= j -> chunk_used o' j = in_run r n j || chunk_used o j).

Definition keeps (o o' : option log_header) : Prop :=
  forall j, 0 <= j -> chunk_used o' j = chunk_used o j.

Record hdr_ok (hdr : log_header) : Prop := {
  ho_map : slotmap_reach (chunk_map hdr);
  ho_chunk : 0 < chunk_sz hdr;
  ho_data : data_sz hdr = total_slots (chunk_map hdr) * chunk_sz hdr;
  ho_max : data_sz hdr + 8 * chunk_sz hdr <= ULONG_MAX;
  ho_lock : updating hdr = false;
}.

Lemma slotmap_reserve_cases cm n :
  slotmap_reach cm -> 0 <= n ->
  slotmap_reserve cm n = Some (cm, -1) \/
  exists cm' r, slotmap_reserve cm n = Some (cm', r) /\ r <> -1 /\ 0 < n /\
    reserve_post cm n cm' r /\ slotmap_reach cm'.
Proof.
  intros Hreach Hn0. destruct (decide (n = 0)) as [->|Hne]; [by left|].
  assert (0 < n) as Hn by lia. pose proof Hreach as [Hwf _]%slotmap_reach_wf.
  destruct (slotmap_reserve_post cm n Hwf ltac:(lia)) as (cm' & r & Hop & [[-> ->]|Hp]); [by left|right].
  exists cm', r. split_and!; [done| |done|done|].
  - destruct (rv_run _ _ _ _ Hp). lia.
  - refine (sm_reach_reserve _ _ _ _ Hreach _ Hop). lia.
Qed.

Lemma reserve_post_takes hdr hdr' n r :
  reserve_post (chunk_map hdr) n (chunk_map hdr') r -> takes (Some hdr) (Some hdr') r n.
Proof. intros [(Hr & _ & Hf) _ _ _ Hb]. split_and!; done. Qed.

(** The offset of a reserved run does not wrap around. *)
Lemma run_offset hdr n cm' r :
  hdr_ok hdr -> 0 < n -> reserve_post (chunk_map hdr) n cm' r -> u64 (r * chunk_sz hdr) = r * chunk_sz hdr.
Proof.
  intros [Hm Hc Hd Hmax _] Hn [(Hr & HN & _) _ _ _ _]. apply slotmap_reach_wf in Hm as [Hwf _].
  pose proof (slotmap_wf_slots _ Hwf). apply u64_small. unfold is_u64. nia.
Qed.

(** What the shared memory part does. *)
Definition alloc_shmem_post (s : log_header) (nbytes : Z) (s' : log_header) (r : Z + option (Z * Z)) : Prop :=
  chunk_sz s' = chunk_sz s /\ data_sz s' = data_sz s /\
  match r with
  | inl off => exists r, off = r * chunk_sz s /\ updating s' = false /\ r <> -1 /\
                 slotmap_reserve (chunk_map s) (bytes_to_chunks nbytes (chunk_sz s)) = Some (chunk_map s', r) /\
                 takes (Some s) (Some s') r (bytes_to_chunks nbytes (chunk_sz s))
  | inr None => keeps (Some s) (Some s') /\ updating s' = false
  | inr (Some (slot, k)) => 0 < k /\ slot <> -1 /\ updating s' = true /\
                 slotmap_reserve (chunk_map s) k = Some (chunk_map s', slot) /\
                 takes (Some s) (Some s') slot k
  end.

Lemma logio_alloc_shmem_spec s have_spill nbytes :
  hdr_ok s -> 0 < nbytes ->
  exists s' r, logio_alloc_shmem s have_spill nbytes = LRet (s', r) /\ alloc_shmem_post s nbytes s' r /\
    (forall x, r = inr (Some x) -> have_spill = true).
Proof.
  intros Hok Hn. pose proof Hok as [Hm Hc Hd Hmax Hlock]. unfold logio_alloc_shmem, LOCK_LOG_HEADER.
  rewrite Hlock. cbn [lbind chunk_sz set_updating chunk_map].
  pose proof (bytes_to_chunks_spec nbytes (chunk_sz s) Hc ltac:(lia)) as [Hb _].
  assert (0 < bytes_to_chunks nbytes (chunk_sz s)) as Hnc by nia.
  destruct (slotmap_reserve_cases (chunk_map s) (bytes_to_chunks nbytes (chunk_sz s)) Hm ltac:(lia))
    as [->|(cm' & r & Hop & Hr & _ & Hp & _)]; [|rewrite Hop]; cbn [lift_slotmap lbind].
  - cbn [Z.eqb negb]. destruct have_spill; [|by eexists _, _; split_and!].
    destruct (_ >? 0) eqn:Hend; zbool; [|by eexists _, _; split_and!].
    destruct (slotmap_reserve_cases _ _ Hm (Z.lt_le_incl _ _ Hend)) as [->|(cm' & r & Hop & Hr & _ & Hp & _)];
      [by eexists _, _; split_and!|]. rewrite Hop. cbn [lift_slotmap lbind].
    rewrite (proj2 (Z.eqb_neq r (-1)) Hr). eexists _, _. split; [done|]. split; [|done].
    unfold alloc_shmem_post. split_and!; try done. by apply reserve_post_takes.
  - rewrite (proj2 (Z.eqb_neq r (-1)) Hr). eexists _, _. split; [done|]. split; [|done].
    unfold alloc_shmem_post. split_and!; try done. exists r. split_and!; [|done|done|done|by apply reserve_post_takes]. by apply (run_offset s (bytes_to_chunks nbytes (chunk_sz s)) cm').
Qed.

(** What an allocation can come to. *)
Inductive alloc_outcome (ctx ctx' : logio_context) (nbytes : Z) : Z -> Z -> Prop :=
  | ao_nospace off :
      keeps (shmem ctx) (shmem ctx') -> keeps (spill_hdr ctx) (spill_hdr ctx') ->
      alloc_outcome ctx ctx' nbytes ENOSPC off
  | ao_mem s r :
      shmem ctx = Some s ->
      takes (shmem ctx) (shmem ctx') r (bytes_to_chunks nbytes (chunk_sz s)) ->
      keeps (spill_hdr ctx) (spill_hdr ctx') ->
      alloc_outcome ctx ctx' nbytes UNIFYFS_SUCCESS (r * chunk_sz s)
  | ao_spill h r :
      spill_hdr ctx = Some h -> keeps (shmem ctx) (shmem ctx') ->
      takes (spill_hdr ctx) (spill_hdr ctx') r (bytes_to_chunks nbytes (chunk_sz h)) ->
      alloc_outcome ctx ctx' nbytes UNIFYFS_SUCCESS (u64 (r * chunk_sz h + logio_mem_size ctx))
  | ao_span s h r k :
      shmem ctx = Some s -> spill_hdr ctx = Some h -> 0 < k ->
      takes (shmem ctx) (shmem ctx') r k ->
      takes (spill_hdr ctx) (spill_hdr ctx') 0
        (bytes_to_chunks (nbytes ⊟ u64 (k * chunk_sz s)) (chunk_sz h)) ->
      alloc_outcome ctx ctx' nbytes UNIFYFS_SUCCESS (u64 (r * chunk_sz s)).

(** The size of the shared memory part, given its header. *)
Definition mem_part_size (s : option log_header) : Z :=
  match s with Some s1 => data_sz s1 | None => 0 end.

(** The spill part, from the headers before the call ([s0], [h]) and what the
    shared memory part left ([s], [mem_res]). *)
Inductive spill_outcome (s0 : option log_header) (h : log_header) (s : option log_header)
    (mem_res : option (Z * Z)) (nbytes : Z) : alloc_result -> Prop :=
  | so_nospace s' h' :
      keeps s0 s' -> keeps (Some h) (Some h') -> spill_outcome s0 h s mem_res nbytes (s', h', inr ENOSPC)
  | so_spill s' h' r :
      keeps s0 s' -> takes (Some h) (Some h') r (bytes_to_chunks nbytes (chunk_sz h)) ->
      spill_outcome s0 h s mem_res nbytes
        (s', h', inl (u64 (r * chunk_sz h + mem_part_size s)))
  | so_span s1 s' h' r k :
      s = Some s1 -> mem_res = Some (r, k) -> 
      (forall j, chunk_used s' j = chunk_used s j) ->
      takes (Some h) (Some h') 0 (bytes_to_chunks (nbytes ⊟ u64 (k * chunk_sz s1)) (chunk_sz h)) ->
      spill_outcome s0 h s mem_res nbytes (s', h', inl (u64 (r * chunk_sz s1))).

Lemma logio_alloc_spill_only_spec s0 s sl h hl cm mem_res nbytes r :
  keeps s0 sl -> mem_part_size sl = mem_part_size s -> chunk_sz hl = chunk_sz h ->
  reserve_post (chunk_map h) (bytes_to_chunks nbytes (chunk_sz h)) cm r ->
  spill_outcome s0 h s mem_res nbytes
    (logio_alloc_spill_only sl hl cm r (bytes_to_chunks nbytes (chunk_sz h))).
Proof.
  intros Hk Hs Hc Hp. unfold logio_alloc_spill_only. cbn [chunk_sz set_reserved set_chunk_map]. rewrite Hc.
  match goal with |- spill_outcome _ _ _ _ _ (_, ?h', inl ?o) =>
    assert (o = u64 (r * chunk_sz h + mem_part_size s)) as -> end.
  { rewrite -Hs. destruct sl; simpl; [by rewrite u64_add_l|by rewrite Z.add_0_r]. }
  apply so_spill; [done|]. by apply (reserve_post_takes h (LogHeader _ _ _ _ _ _ _)).
Qed.

(** [s] holds a reservation that was made from [s0]. *)
Definition held (s0 s : option log_header) (mem_res : option (Z * Z)) : Prop :=
  match mem_res with
  | None => keeps s0 s
  | Some (r, k) => exists a b, s0 = Some a /\ s = Some b /\ hdr_ok a /\ 0 < k /\ r <> -1 /\
      slotmap_reserve (chunk_map a) k = Some (chunk_map b, r)
  end.

(** Rolling it back. *)
Lemma held_release s0 s r k :
  held s0 s (Some (r, k)) ->
  exists b cm, s = Some b /\ slotmap_release (chunk_map b) r k = Some (cm, UNIFYFS_SUCCESS) /\
    keeps s0 (Some (UNLOCK_LOG_HEADER (set_chunk_map cm b))).
Proof.
  intros (a & b & -> & -> & [Hm _ _ _ _] & Hk & Hr & Hop).
  destruct (slotmap_undo _ _ _ _ Hm Hk Hop Hr) as (cm & Hrel & _ & _ & Hu & _).
  exists b, cm. split_and!; [done|done|]. intros j _. unfold chunk_used. simpl. by rewrite Hu.
Qed.

Lemma logio_alloc_retry_spec s0 sb h hl cm r n r0 k nbytes :
  hdr_ok h -> chunk_sz hl = chunk_sz h -> held s0 (Some sb) (Some (r0, k)) ->
  slotmap_reserve (chunk_map h) n = Some (cm, r) -> r <> -1 -> 0 < n -> 0 < nbytes ->
  exists res, logio_alloc_retry sb hl cm r n r0 k nbytes = LRet res /\
    spill_outcome s0 h (Some sb) (Some (r0, k)) nbytes res.
Proof.
  intros Hok Hc Hheld Hop Hr Hn Hnb. pose proof Hok as [Hm Hch _ _ _]. unfold logio_alloc_retry.
  destruct (slotmap_undo _ _ _ _ Hm Hn Hop Hr) as (cm2 & -> & Hm2 & Ht2 & Hu2 & Hus2). cbn [lift_slotmap lbind].
  destruct (held_release _ _ _ _ Hheld) as (b & scm & [= <-] & -> & Hkeep). cbn [lift_slotmap lbind].
  rewrite Hc. pose proof (bytes_to_chunks_spec nbytes (chunk_sz h) Hch ltac:(lia)) as [_ Hnn].
  destruct (slotmap_reserve_cases cm2 _ Hm2 Hnn) as [->|(cm3 & r3 & -> & Hr3 & _ & Hp & _)]; cbn [lift_slotmap lbind].
  - cbn [Z.eqb negb]. eexists. split; [done|]. apply so_nospace; [done|]. intros j _. unfold chunk_used. simpl.
    by rewrite Hu2.
  - rewrite (proj2 (Z.eqb_neq r3 (-1)) Hr3). eexists. split; [done|].
    assert (reserve_post (chunk_map h) (bytes_to_chunks nbytes (chunk_sz h)) cm3 r3) as Hp'.
    { destruct Hp as [Hrun Hw Ht Hus Hb]. rewrite Hu2 in Hrun Hb. split; [done|done|congruence|congruence|done]. }
    by apply logio_alloc_spill_only_spec.
Qed.

Lemma logio_alloc_spill_spec s0 s h mem_res nbytes :
  hdr_ok h -> held s0 s mem_res -> 0 < nbytes <= ULONG_MAX ->
  exists res, logio_alloc_spill s h mem_res nbytes = LRet res /\ spill_outcome s0 h s mem_res nbytes res.
Proof.
  intros Hok Hheld Hnb. pose proof Hok as [Hm Hch _ _ Hlock]. unfold logio_alloc_spill, LOCK_LOG_HEADER.
  rewrite Hlock. cbn [lbind chunk_map set_updating chunk_sz].
  set (alloc := match s, mem_res with Some s1, Some (_, k) => u64 (k * chunk_sz s1) | _, _ => 0 end).
  pose proof (u64_range (nbytes - alloc)) as [Hr0 _].
  pose proof (bytes_to_chunks_spec (nbytes ⊟ alloc) (chunk_sz h) Hch Hr0) as [_ Hnn].
  destruct (slotmap_reserve_cases (chunk_map h) _ Hm Hnn) as [->|(cm & r & Hop & Hr & Hn & Hp & _)].
  - cbn [lift_slotmap lbind Z.eqb negb]. destruct mem_res as [[r0 k]|].
    + destruct (held_release _ _ _ _ Hheld) as (b & scm & -> & -> & Hkeep). cbn [lift_slotmap lbind].
      eexists. split; [done|]. by apply so_nospace.
    + eexists. split; [by destruct s|]. apply so_nospace; [done|]. by intros j _.
  - rewrite Hop. cbn [lift_slotmap lbind]. rewrite (proj2 (Z.eqb_neq r (-1)) Hr). cbn [negb].
    destruct mem_res as [[r0 k]|].
    + pose proof Hheld as (a & b & -> & -> & _). unfold alloc in *.
      destruct (r =? 0) eqn:H0; zbool; cbn [negb].
      * subst r. eexists. split; [done|]. eapply so_span; [done|done|done|].
        by apply (reserve_post_takes h (LogHeader _ _ _ _ _ _ _)).
      * eapply logio_alloc_retry_spec; try done. lia.
    + assert (alloc = 0) as Ha by (unfold alloc; by destruct s).
      rewrite Ha Z.sub_0_r u64_small in Hop Hp *; [unfold is_u64; lia..|].
      eexists. split; [by destruct s|]. by apply logio_alloc_spill_only_spec.
Qed.

(** ** Properties *)

(** C36. The log is one address space.  A write that the spill-over file
    accepts in full, at any offset and also across the end of the shared
    memory region, reports every byte written; a read of the same range then
    returns the bytes, and a read of any disjoint range returns what it
    returned before. *)
Theorem logio_write_read ctx off bs :
  log_range_ok ctx off (Z.of_nat (length bs)) ->
  let n_spill := Z.of_nat (length bs) - log_in_mem off (Z.of_nat (length bs)) (logio_mem_size ctx) in
  exists ctx', unifyfs_logio_write ctx off bs (inl n_spill) =
      LRet (ctx', UNIFYFS_SUCCESS, Z.of_nat (length bs)) /\
    unifyfs_logio_read ctx' off (Z.of_nat (length bs)) (inl n_spill) =
      LRet (UNIFYFS_SUCCESS, Z.of_nat (length bs), bs) /\
    forall off2 n2 k2, log_range_ok ctx off2 n2 ->
      off2 + n2 <= off \/ off + Z.of_nat (length bs) <= off2 ->
      0 <= k2 <= n2 - log_in_mem off2 n2 (logio_mem_size ctx) ->
      0 < log_in_mem off2 n2 (logio_mem_size ctx) + k2 ->
      unifyfs_logio_read ctx' off2 n2 (inl k2) = unifyfs_logio_read ctx off2 n2 (inl k2).
Proof.
  intros Hok n_spill. pose proof (log_in_mem_bounds off _ (logio_mem_size ctx) (lr_len _ _ _ Hok)) as Hm.
  pose proof (lr_len _ _ _ Hok) as Hlen.
  destruct (logio_write_spec ctx off bs n_spill Hok) as (ctx' & Hw & Hs & Hh & Hv); [unfold n_spill; lia..|].
  assert (logio_mem_size ctx' = logio_mem_size ctx) as Hmem by (unfold logio_mem_size; by rewrite Hs).
  assert (forall o n, log_range_ok ctx o n -> log_range_ok ctx' o n) as Hok'.
  { intros o n [? ? ? ? ?]. split; rewrite ?Hmem ?Hh; done. }
  rewrite (Z.add_comm _ n_spill) in Hw, Hv. unfold n_spill in Hw at 2, Hv.
  rewrite Z.sub_add in Hw, Hv. rewrite Nat2Z.id in Hv.
  rewrite firstn_all in Hv. exists ctx'. split_and!; [done| |].
  - rewrite logio_read_spec; [by apply Hok'|rewrite Hmem; unfold n_spill; lia..|].
    rewrite Hmem (Z.add_comm _ n_spill) /n_spill Z.sub_add. do 2 f_equal.
    rewrite -{2}(region_read_write (log_view ctx) off bs). apply region_read_ext. intros i Hi. apply Hv.
  - intros off2 n2 k2 Hok2 Hdis Hk2 Hpos2. rewrite (logio_read_spec ctx off2 n2 k2 Hok2 Hk2 Hpos2).
    rewrite (logio_read_spec ctx' off2 n2 k2 (Hok' _ _ Hok2)); [by rewrite Hmem..|]. rewrite Hmem. do 2 f_equal. apply region_read_ext. intros i Hi. rewrite Hv.
    apply region_write_outside. pose proof (log_in_mem_bounds off2 n2 (logio_mem_size ctx) (lr_len _ _ _ Hok2)). lia.
Qed.

(** The two parts of a context are usable. *)
Definition ctx_ok (ctx : logio_context) : Prop :=
  (forall s, shmem ctx = Some s -> hdr_ok s) /\ (forall h, spill_hdr ctx = Some h -> hdr_ok h).

Lemma logio_alloc_mem_part_spec ctx nbytes :
  ctx_ok ctx -> 0 < nbytes ->
  exists s r, logio_alloc_mem_part ctx nbytes = LRet (s, r) /\ mem_part_size s = logio_mem_size ctx /\
    match r with
    | inl off => exists s0 r, shmem ctx = Some s0 /\ off = r * chunk_sz s0 /\
                   takes (shmem ctx) s r (bytes_to_chunks nbytes (chunk_sz s0))
    | inr None => keeps (shmem ctx) s
    | inr (Some (r, k)) => held (shmem ctx) s (Some (r, k)) /\ spill_hdr ctx <> None /\
        exists s0 s1, shmem ctx = Some s0 /\ s = Some s1 /\ chunk_sz s1 = chunk_sz s0 /\
          0 < k /\ takes (shmem ctx) s r k
    end.
Proof.
  intros [Hs _] Hnb. unfold logio_alloc_mem_part, logio_mem_size.
  destruct (shmem ctx) as [s0|]; [|by eexists _, _; split_and!].
  destruct (logio_alloc_shmem_spec s0 (match spill_hdr ctx with Some _ => true | None => false end) nbytes)
    as (s1 & r & -> & (Hc & Hd & Hr) & Hsp); [by apply Hs|lia|]. eexists _, _. split_and!; [done|done|].
  destruct r as [off|[[slot k]|]].
  - destruct Hr as (r & -> & _ & _ & _ & Ht). by exists s0, r.
  - destruct Hr as (Hk & Hslot & _ & Hop & Ht). specialize (Hsp _ eq_refl).
    split_and!; [by exists s0, s1; split_and!; auto|by destruct (spill_hdr ctx)|by exists s0, s1].
  - by destruct Hr as [? _].
Qed.

(** [unifyfs_logio_alloc] returns (it takes no lock twice, and every slot
    map access is in range), and only ever takes chunks that were free: it
    reports ENOSPC with both maps as they were, also after rolling back a
    reservation in shared memory, or success with one run of chunks that
    holds the request in shared memory, one in the spill-over file, or one in
    each, the second starting at its first chunk. *)
Theorem logio_alloc_outcome ctx nbytes off0 :
  ctx_ok ctx -> 0 < nbytes <= ULONG_MAX ->
  exists ctx' rc off, unifyfs_logio_alloc ctx nbytes off0 = LRet (ctx', rc, off) /\
    alloc_outcome ctx ctx' nbytes rc off.
Proof.
  intros Hok Hnb. unfold unifyfs_logio_alloc. rewrite (proj2 (Z.eqb_neq nbytes 0)); [lia|].
  destruct (logio_alloc_mem_part_spec ctx nbytes Hok ltac:(lia)) as (s & r & -> & Hsz & Hr). cbn [lbind].
  destruct r as [off|mem_res].
  { destruct Hr as (s0 & r & Hs0 & -> & Ht). eexists _, _, _. split; [done|]. by eapply ao_mem. }
  assert (held (shmem ctx) s mem_res) as Hheld by (destruct mem_res as [[r k]|]; [apply Hr|done]).
  destruct (spill_hdr ctx) as [h|] eqn:Hh.
  2:{ eexists _, _, _. split; [done|]. destruct mem_res as [[r k]|]; [by destruct Hr as (_ & ? & _)|].
      apply ao_nospace; [done|]. by rewrite Hh. }
  destruct (logio_alloc_spill_spec (shmem ctx) s h mem_res nbytes) as (res & -> & Hout);
    [by apply Hok|done|done|]. cbn [lbind].
  destruct Hout as [s' h' Hk1 Hk2|s' h' r Hk Ht|s1 s' h' r k -> -> Hk Ht]; (eexists _, _, _; split; [done|]).
  - apply ao_nospace; [done|]. by rewrite Hh.
  - rewrite Hsz. apply ao_spill; [done|done|]. by rewrite Hh.
  - destruct Hr as (_ & _ & s0 & s2 & Hs0 & [= <-] & Hc & Hk0 & Hm). rewrite Hc in Ht |- *.
    eapply ao_span; [done|done|exact Hk0| |by rewrite Hh].
    destruct Hm as (H1 & H2 & H3). split_and!; [done|done|]. intros j Hj. simpl. rewrite Hk. by apply H3.
Qed.

(** [init_log_header] ends for every region and chunk size; it fails, or
    lays out whole header pages that hold the header structure and the slot
    map, followed by the chunks, all within the region. *)
Theorem init_log_header_layout pgsz region chunk :
  80 <= pgsz -> 0 < chunk -> 0 <= region <= ULONG_MAX - 8 ->
  match init_log_header pgsz region chunk with
  | Some (inl (hdr, rc)) => rc = UNIFYFS_SUCCESS /\ layout_ok pgsz region chunk hdr
  | Some (inr rc) => rc = UNIFYFS_FAILURE
  | None => False
  end.
Proof. apply init_log_header_spec. Qed.

(** Space that was allocated in shared memory can be freed: on a log
    without a spill-over file whose number of chunks is a multiple of 8,
    [unifyfs_logio_free] with the offset and length of a successful allocation
    returns success and leaves the map of used chunks as it was before. *)
Theorem logio_alloc_free ctx s nbytes off0 ctx' off :
  shmem ctx = Some s -> spill_hdr ctx = None -> hdr_ok s ->
  total_slots (chunk_map s) mod 8 = 0 -> 0 < nbytes <= ULONG_MAX ->
  unifyfs_logio_alloc ctx nbytes off0 = LRet (ctx', UNIFYFS_SUCCESS, off) ->
  exists ctx'', unifyfs_logio_free ctx' off nbytes = LRet (ctx'', UNIFYFS_SUCCESS) /\
    keeps (shmem ctx) (shmem ctx'').
Proof.
  intros Hs Hh Hok Hmod Hnb Hal. pose proof Hok as [Hm Hc Hd Hmax Hlock].
  unfold unifyfs_logio_alloc, logio_alloc_mem_part in Hal.
  rewrite (proj2 (Z.eqb_neq nbytes 0)) in Hal; [lia|]. rewrite Hs Hh in Hal.
  destruct (logio_alloc_shmem_spec s false nbytes Hok ltac:(lia)) as (s' & r & Hsh & (Hc' & Hd' & Hr) & Hns).
  rewrite Hsh in Hal. cbn [lbind] in Hal. destruct r as [o|[x|]]; [|by specialize (Hns _ eq_refl)|done].
  injection Hal as <- <-. destruct Hr as (r & -> & Hul & Hr & Hop & _).
  pose proof (bytes_to_chunks_spec nbytes (chunk_sz s) Hc ltac:(lia)) as [Hb Hb0].
  assert (0 < bytes_to_chunks nbytes (chunk_sz s)) as Hn by nia.
  destruct (slotmap_undo _ _ _ _ Hm Hn Hop Hr) as (cm & Hrel & _ & _ & Hu & _).
  assert (0 <= r /\ r + bytes_to_chunks nbytes (chunk_sz s) <= total_slots (chunk_map s)) as [Hr0 Hrt].
  { pose proof Hm as [Hwf _]%slotmap_reach_wf. pose proof (slotmap_wf_slots _ Hwf) as Hsl.
    destruct (slotmap_reserve_post _ (bytes_to_chunks nbytes (chunk_sz s)) Hwf ltac:(lia)) as (? & ? & Hop' & Hp).
    rewrite Hop in Hop'. injection Hop' as <- <-. destruct Hp as [[? _]|[(H1 & H2 & _) _ _ _ _]]; [done|].
    unfold usemap_slots in *. Z.div_mod_to_equations. lia. }
  unfold unifyfs_logio_free. rewrite (proj2 (Z.eqb_neq nbytes 0)); [lia|].
  unfold logio_mem_size. cbn [shmem with_headers]. rewrite get_log_sizes_eq; [nia|lia|nia|rewrite Hd'; nia|].
  assert (log_in_mem (r * chunk_sz s) nbytes (data_sz s') = nbytes) as -> by (unfold log_in_mem; nia).
  rewrite (proj2 (Z.gtb_lt nbytes 0)); [lia|]. unfold logio_free_part, LOCK_LOG_HEADER. rewrite Hul. cbn [lbind].
  cbn [chunk_sz set_updating chunk_map]. rewrite Hc' Z.div_mul; [lia|]. rewrite Hrel. cbn [lift_slotmap lbind].
  rewrite Z.sub_diag. eexists. split; [done|]. intros j _. rewrite Hs. unfold chunk_used. simpl. by rewrite Hu.
Qed.

(** ** Freeing always returns *)

(** A part of the log whose lock is free and whose map has a bit for each of
    its chunks. *)
Record part_usable (hdr : log_header) : Prop := {
  pu_unlocked : updating hdr = false;
  pu_chunk : 0 < chunk_sz hdr;
  pu_map : data_sz hdr <= chunk_sz hdr * usemap_slots (use_map (chunk_map hdr));
  pu_max : usemap_slots (use_map (chunk_map hdr)) <= ULONG_MAX;
  pu_data : 0 <= data_sz hdr <= ULONG_MAX;
}.

Lemma logio_free_part_returns hdr off sz :
  part_usable hdr -> 0 <= off -> 0 < sz -> off + sz <= data_sz hdr ->
  exists hdr' rc, logio_free_part hdr off sz = LRet (hdr', rc) /\ part_usable hdr' /\ data_sz hdr' = data_sz hdr.
Proof.
  intros [Hu Hc Hm Hx Hd] Ho Hs Hin. unfold logio_free_part, LOCK_LOG_HEADER. rewrite Hu. cbn [lbind].
  cbn [chunk_sz set_updating chunk_map].
  pose proof (bytes_to_chunks_spec sz (chunk_sz hdr) Hc ltac:(lia)) as [Hb0 Hb1].
  set (n := bytes_to_chunks sz (chunk_sz hdr)) in *.
  assert (0 <= off / chunk_sz hdr) by (apply Z.div_pos; lia). assert (0 < n) by nia.
  assert (chunk_sz hdr * (n - 1) < sz) by nia.
  assert (off / chunk_sz hdr * chunk_sz hdr <= off) by (pose proof (Z.mul_div_le off (chunk_sz hdr)); nia).
  destruct (slotmap_release_returns (chunk_map hdr) (off / chunk_sz hdr) n) as (cm & rc & -> & Hl & Ht); [lia|lia|nia|done|].
  cbn [lift_slotmap lbind]. eexists _, _. split; [done|]. split; [|done]. unfold usemap_slots in *.
  rewrite -Hl in Hm Hx. by split.
Qed.

(** The size of a whole log. *)
Definition log_size (ctx : logio_context) : Z :=
  logio_mem_size ctx + match spill_hdr ctx with Some h => data_sz h | None => 0 end.

Record log_usable (ctx : logio_context) : Prop := {
  lu_mem s : shmem ctx = Some s -> part_usable s;
  lu_spill h : spill_hdr ctx = Some h -> part_usable h;
}.

Lemma logio_free_returns ctx off n :
  log_usable ctx -> 0 <= off -> 0 < n -> off + n <= log_size ctx -> log_size ctx <= ULONG_MAX ->
  exists ctx' rc, unifyfs_logio_free ctx off n = LRet (ctx', rc) /\ log_usable ctx' /\ log_size ctx' = log_size ctx.
Proof.
  intros [Hm Hs] Ho Hn Hin Hmax. unfold unifyfs_logio_free. rewrite (proj2 (Z.eqb_neq n 0)); [lia|].
  assert (0 <= logio_mem_size ctx) as Hm0.
  { unfold logio_mem_size. destruct (shmem ctx) as [s|]; [|lia]. apply (pu_data _ (Hm s eq_refl)). }
  assert (0 <= log_size ctx - logio_mem_size ctx) as Hs0.
  { unfold log_size. destruct (spill_hdr ctx) as [h|]; [|lia]. pose proof (pu_data _ (Hs h eq_refl)). lia. }
  rewrite get_log_sizes_eq; [lia..|].
  pose proof (log_in_mem_bounds off n (logio_mem_size ctx) Hn) as Hlm.
  assert (exists ctx1 rc1, (if log_in_mem off n (logio_mem_size ctx) >? 0 then
      match shmem ctx with
      | None => LFault
      | Some s => let! '(s', rc) := logio_free_part s off (log_in_mem off n (logio_mem_size ctx)) in
                  LRet (with_headers ctx (Some s') (spill_hdr ctx), rc)
      end else LRet (ctx, UNIFYFS_SUCCESS)) = LRet (ctx1, rc1) /\ log_usable ctx1 /\
      spill_hdr ctx1 = spill_hdr ctx /\ logio_mem_size ctx1 = logio_mem_size ctx) as (ctx1 & rc1 & -> & Hu1 & Hsp1 & Hms1).
  { destruct (_ >? 0) eqn:H0; zbool; [|by exists ctx, UNIFYFS_SUCCESS]. unfold log_in_mem, logio_mem_size in *.
    destruct (shmem ctx) as [s|] eqn:Hsh; [|lia].
    destruct (logio_free_part_returns s off (Z.max 0 (Z.min (off + n) (data_sz s) - off)) (Hm s eq_refl))
      as (s' & rc & -> & Hs' & Hd'); [lia..|]. simpl. eexists _, _. split; [done|]. simpl. split_and!; [|done|done].
    split; simpl; [by intros ? [= <-]|done]. }
  cbn [lbind]. destruct (n - log_in_mem off n (logio_mem_size ctx) >? 0) eqn:H0; zbool.
  - unfold log_size in *. rewrite Hsp1. destruct (spill_hdr ctx) as [h|] eqn:Hh; [|unfold log_in_mem in *; lia].
    destruct (logio_free_part_returns h (Z.max 0 (off - logio_mem_size ctx)) (n - log_in_mem off n (logio_mem_size ctx))
      (Hs h eq_refl)) as (h' & rc & -> & Hh' & Hd'); [unfold log_in_mem in *; lia..|]. simpl.
    eexists _, _. split; [done|]. split; [split; simpl; [apply Hu1|by intros ? [= <-]]|].
    simpl. rewrite Hd'. unfold logio_mem_size in *. simpl. by rewrite Hms1.
  - exists ctx1, rc1. split; [done|]. split; [done|]. unfold log_size. by rewrite Hms1 Hsp1.
Qed.

(** *** Concrete logs *)

(** A part of [n] chunks of [chunk] bytes after one header page. *)
Definition example_header (n chunk : Z) : log_header :=
  match slotmap_init n 4048 [] with
  | Some cm => LogHeader 4096 (n * chunk) 0 chunk 4096 false cm
  | None => LogHeader 0 0 0 1 0 false (SlotMap 0 0 (-1) (-1) [])
  end.

Definition example_log (mem spill chunk : Z) : logio_context :=
  LogioContext (Some (example_header mem chunk)) (Some (example_header spill chunk))
    (fun _ => 0) (fun _ => 0) 65536 7.

Lemma example_header_ok n : n = 8 \/ n = 16 -> hdr_ok (example_header n 10).
Proof.
  intros Hn. assert (slotmap_init n 4048 [] = Some (chunk_map (example_header n 10))) as Hi
    by (by destruct Hn as [->| ->]; vm_compute).
  split; [|destruct Hn as [->| ->]; by vm_compute..].
  refine (sm_reach_init n 4048 [] _ _ Hi). destruct Hn as [->| ->]; by vm_compute.
Qed.

Lemma logio_write_read_witness :
  exists ctx', unifyfs_logio_write (example_log 8 8 10) 77 [1; 2; 3; 4; 5; 6] (inl 3) =
      LRet (ctx', UNIFYFS_SUCCESS, 6) /\
    unifyfs_logio_read ctx' 77 6 (inl 3) = LRet (UNIFYFS_SUCCESS, 6, [1; 2; 3; 4; 5; 6]).
Proof.
  destruct (logio_write_read (example_log 8 8 10) 77 [1; 2; 3; 4; 5; 6]) as (ctx' & H1 & H2 & _).
  - split; vm_compute; done.
  - exists ctx'. split; [exact H1|exact H2].
Defined.

Lemma logio_alloc_outcome_witness :
  exists ctx' rc off, unifyfs_logio_alloc (example_log 8 8 10) 25 0 = LRet (ctx', rc, off) /\
    alloc_outcome (example_log 8 8 10) ctx' 25 rc off.
Proof.
  apply (logio_alloc_outcome (example_log 8 8 10) 25 0); [|vm_compute; done].
  split; intros ? [= <-]; apply example_header_ok; by left.
Defined.

Lemma logio_alloc_free_witness :
  let ctx := LogioContext (Some (example_header 16 10)) None (fun _ => 0) (fun _ => 0) 0 (-1) in
  exists ctx' ctx'', unifyfs_logio_alloc ctx 95 0 = LRet (ctx', UNIFYFS_SUCCESS, 0) /\
    unifyfs_logio_free ctx' 0 95 = LRet (ctx'', UNIFYFS_SUCCESS).
Proof.
  intros ctx. destruct (unifyfs_logio_alloc ctx 95 0) as [[[ctx' rc] off]| |] eqn:Hal;
    [|by vm_compute in Hal..].
  assert (rc = UNIFYFS_SUCCESS /\ off = 0) as [-> ->].
  { pose proof Hal as Hal2. vm_compute in Hal2. injection Hal2 as _ <- <-. done. }
  destruct (logio_alloc_free ctx (example_header 16 10) 95 0 ctx' 0 eq_refl eq_refl
    (example_header_ok 16 ltac:(by right)) ltac:(by vm_compute) ltac:(vm_compute; done) Hal)
    as (ctx'' & Hf & _). by exists ctx', ctx''.
Defined.

Lemma init_log_header_layout_witness :
  exists hdr, init_log_header 4096 1048576 1000 = Some (inl (hdr, 0)) /\ layout_ok 4096 1048576 1000 hdr.
Proof.
  pose proof (init_log_header_layout 4096 1048576 1000 ltac:(lia) ltac:(lia) ltac:(by vm_compute)) as H.
  destruct (init_log_header 4096 1048576 1000) as [[[hdr rc]|rc]|] eqn:Hi; [|by vm_compute in Hi..].
  destruct H as [-> Hl]. by exists hdr.
Defined.

(** *** Boundary cases of the allocator *)

(** When the remainder does not start the spill-over file, the allocation is
    tried again there; if that fails, the function returns with the header of
    the spill-over file still locked, and the next allocation that needs the
    file never gets the lock. *)
Theorem logio_alloc_leaks_lock :
  (let! '(c1, _, _) := unifyfs_logio_alloc (example_log 8 8 10) 70 0 in
   let! '(c2, _, a) := unifyfs_logio_alloc c1 10 0 in
   let! '(c3, _, _) := unifyfs_logio_alloc c2 10 0 in
   let! '(c4, _) := unifyfs_logio_free c3 a 10 in
   let! '(c5, rc, _) := unifyfs_logio_alloc c4 80 0 in
   LRet (rc, match unifyfs_logio_alloc c5 20 0 with LBlocked => true | _ => false end)) =
  LRet (ENOSPC, true).
Proof. vm_compute. reflexivity. Qed.

(** The chunks reserved "at the end" of shared memory are whichever ones
    [slotmap_reserve] finds first.  With a hole before the end, the allocation
    gets the offset of the hole and its range runs over chunks in use: here
    bytes 10 to 59 while bytes 50 to 129 belong to an earlier allocation. *)
Theorem logio_alloc_overlaps :
  (let! '(c1, _, _) := unifyfs_logio_alloc (example_log 16 16 10) 10 0 in
   let! '(c2, _, hole) := unifyfs_logio_alloc c1 40 0 in
   let! '(c3, _, live) := unifyfs_logio_alloc c2 80 0 in
   let! '(c4, _, _) := unifyfs_logio_alloc c3 10 0 in
   let! '(c5, _) := unifyfs_logio_free c4 hole 40 in
   let! '(c6, rc, off) := unifyfs_logio_alloc c5 50 0 in
   LRet (live, rc, off)) = LRet (50, UNIFYFS_SUCCESS, 10).
Proof. vm_compute. reflexivity. Qed.

(** With a number of chunks that is not a multiple of 8 the map of chunks has
    spare bits, and the allocator hands them out: here chunk 63 of a part that
    has 63, the last 10 bytes of a range that starts at 480 in a part of 630
    bytes.  The next allocation gets these 10 bytes again, as the first chunk
    of the spill-over file. *)
Theorem logio_alloc_out_of_range :
  (let! '(c1, _, _) := unifyfs_logio_alloc (example_log 63 8 10) 120 0 in
   let! '(c2, _, _) := unifyfs_logio_alloc c1 120 0 in
   let! '(c3, _, _) := unifyfs_logio_alloc c2 120 0 in
   let! '(c4, rc, off) := unifyfs_logio_alloc c3 160 0 in
   let! '(c5, rc', off') := unifyfs_logio_alloc c4 80 0 in
   LRet (rc, off, rc', off')) = LRet (UNIFYFS_SUCCESS, 480, UNIFYFS_SUCCESS, 630).
Proof. vm_compute. reflexivity. Qed.
