(* ===== verification/KTree.v ===== *)
(** * The k-ary broadcast tree of the servers ([server/src/unifyfs_tree.c])

    Collective operations between the servers ([unifyfs_group_rpc.c]) are
    forwarded along a k-ary tree over the ranks [0 .. ranks-1], rooted at any
    one of them.  Every server computes its own neighbours with
    [unifyfs_tree_init]; no server sees the whole tree.  The theorems show that
    the local views fit together: they describe one tree that reaches every
    rank exactly once. *)

From S2P Require Import Prelude.

Record unifyfs_tree_t := KTree {
  t_rank : Z;                 (* global rank of calling process *)
  t_ranks : Z;                (* number of ranks in tree *)
  t_parent_rank : Z;          (* parent rank, -1 if root *)
  t_child_count : Z;          (* number of children *)
  t_child_ranks : list Z;     (* list of child ranks, [] when not allocated *)
}.

(** Store the values of [l] from the first entry of [child_ranks] on. *)
Definition fill_children (child_ranks l : list Z) : list Z :=
  l ++ drop (length l) child_ranks.

(** Back to a global rank. *)
Definition ktree_rotate (root ranks r : Z) : Z :=
  let r := r + root in if r >=? ranks then r - ranks else r.

(** The [for] loop that rotates the first [n] entries. *)
Definition rotate_children (root ranks : Z) (n : nat) (l : list Z) : list Z :=
  (ktree_rotate root ranks <$> take n l) ++ drop n l.

(** C division truncates towards zero ([Z.quot]). *)
Definition unifyfs_tree_init (m : mem) (rank ranks root k : Z) : mem * unifyfs_tree_t * Z :=
  let rank := rank - root in
  let rank := if rank <? 0 then rank + ranks else rank in
  let max_children := k in
  let '(child_ranks, m) :=
    if max_children >? 0 then
      let '(p, m) := calloc m in
      (match p with Some _ => Some (replicate (Z.to_nat max_children) (-1)) | None => None end, m)
    else (Some [], m) in
  match child_ranks with
  | None => (m, KTree rank ranks (-1) 0 [], ENOMEM)
  | Some child_ranks =>
      let parent_rank := if rank >? 0 then Z.quot (rank - 1) k else -1 in
      let left := rank * k + 1 in
      let right := rank * k + k in
      let '(child_count, child_ranks) :=
        if left <? ranks then
          let right := if right >=? ranks then ranks - 1 else right in
          let child_count := right - left + 1 in
          (child_count, fill_children child_ranks (seqZ left child_count))
        else (0, child_ranks) in
      let t_rank := ktree_rotate root ranks rank in
      let parent_rank := if negb (parent_rank =? -1) then ktree_rotate root ranks parent_rank else parent_rank in
      (m, KTree t_rank ranks parent_rank child_count
            (rotate_children root ranks (Z.to_nat child_count) child_ranks), 0)
  end.

Definition unifyfs_tree_free (t : unifyfs_tree_t) : unifyfs_tree_t := KTree 0 0 0 0 [].

(** The children a server forwards to: the first [child_count] entries. *)
Definition ktree_children (t : unifyfs_tree_t) : list Z :=
  take (Z.to_nat (t_child_count t)) (t_child_ranks t).

(** The structure a rank computes when the allocation succeeds. *)
Definition ktree_of (rank ranks root k : Z) : unifyfs_tree_t :=
  (unifyfs_tree_init (Mem 1 []) rank ranks root k).1.2.

(** A message that every server forwards to its children, for at most [fuel]
    hops: the ranks that receive it, with repetitions. *)
Fixpoint ktree_broadcast (fuel : nat) (ranks root k rank : Z) : list Z :=
  match fuel with
  | O => []
  | S fuel =>
      rank :: flat_map (ktree_broadcast fuel ranks root k) (ktree_children (ktree_of rank ranks root k))
  end.

(** ** Positions relative to the root *)

Section Positions.
#[local] Set Default Proof Using "All".
Context (ranks root k : Z) (Hroot : 0 <= root < ranks) (Hk : 1 <= k).
Implicit Types (p q x : Z).

Definition pos_parent p : Z := if p >? 0 then (p - 1) / k else -1.
Definition pos_children p : list Z := seqZ (p * k + 1) (Z.max 0 (Z.min k (ranks - (p * k + 1)))).
Definition pos_ok p : Prop := 0 <= p < ranks.

Lemma elem_of_pos_children p q :
  pos_ok p -> q ∈ pos_children p <-> pos_ok q /\ pos_parent q = p.
Proof.
  intros Hp. unfold pos_children, pos_parent, pos_ok in *. rewrite elem_of_seqZ. split.
  - intros Hq. split; [nia|]. rewrite (proj2 (Z.gtb_lt q 0)); [nia|].
    symmetry. apply (Z.div_unique _ _ _ (q - 1 - p * k)); nia.
  - intros [Hq Hpar]. destruct (q >? 0) eqn:Hq0; zbool; [|lia].
    pose proof (Z.div_mod (q - 1) k ltac:(lia)). pose proof (Z.mod_pos_bound (q - 1) k). nia.
Qed.

Lemma pos_parent_lt q : 0 < q -> 0 <= pos_parent q < q.
Proof.
  intros Hq. unfold pos_parent. rewrite (proj2 (Z.gtb_lt q 0) Hq). split; [apply Z.div_pos; lia|].
  apply Z.div_lt_upper_bound; nia.
Qed.

Lemma rotate_pos p : pos_ok p -> pos_ok (ktree_rotate root ranks p).
Proof. unfold pos_ok, ktree_rotate. intros. zcase; lia. Qed.

Lemma rotate_inj p q :
  pos_ok p -> pos_ok q -> ktree_rotate root ranks p = ktree_rotate root ranks q -> p = q.
Proof. unfold pos_ok, ktree_rotate. intros ? ?. repeat zcase; lia. Qed.

(** The position of a rank, as [unifyfs_tree_init] computes it. *)
Definition rank_pos (r : Z) : Z := let p := r - root in if p <? 0 then p + ranks else p.

Lemma rank_pos_ok r : 0 <= r < ranks -> pos_ok (rank_pos r).
Proof. unfold rank_pos, pos_ok. intros. zcase; lia. Qed.

Lemma rotate_rank_pos r : 0 <= r < ranks -> ktree_rotate root ranks (rank_pos r) = r.
Proof. unfold rank_pos, ktree_rotate. intros. repeat zcase; lia. Qed.

Lemma rank_pos_rotate p : pos_ok p -> rank_pos (ktree_rotate root ranks p) = p.
Proof. unfold rank_pos, ktree_rotate, pos_ok. intros. repeat zcase; lia. Qed.

(** The children of a rank, before and after the rotation. *)
Lemma fill_children_eq p :
  pos_ok p ->
  let left := p * k + 1 in
  let right := p * k + k in
  (if left <? ranks then
     let right := if right >=? ranks then ranks - 1 else right in
     let child_count := right - left + 1 in
     (child_count, fill_children (replicate (Z.to_nat k) (-1)) (seqZ left child_count))
   else (0, replicate (Z.to_nat k) (-1))) =
  (Z.of_nat (length (pos_children p)), fill_children (replicate (Z.to_nat k) (-1)) (pos_children p)).
Proof.
  intros Hp left right. subst left right. unfold pos_children. rewrite length_seqZ Z2Nat.id; [lia|]. zcase.
  - replace (Z.max 0 (Z.min k (ranks - (p * k + 1))))
      with ((if p * k + k >=? ranks then ranks - 1 else p * k + k) - (p * k + 1) + 1); [done|zcase; lia].
  - replace (Z.max 0 (Z.min k (ranks - (p * k + 1)))) with 0; [done|lia].
Qed.

Lemma rotate_children_take n (l1 l2 : list Z) :
  n = length l1 ->
  take n (rotate_children root ranks n (l1 ++ l2)) = ktree_rotate root ranks <$> l1.
Proof.
  intros ->. unfold rotate_children. rewrite take_app_length. rewrite -{1}(length_fmap (ktree_rotate root ranks) l1).
  by rewrite take_app_length.
Qed.

Lemma pos_parent_quot p : pos_ok p -> (if p >? 0 then Z.quot (p - 1) k else -1) = pos_parent p.
Proof.
  intros [Hp _]. unfold pos_parent. destruct (p >? 0) eqn:Hp0; zbool; [|done].
  apply Z.quot_div_nonneg; lia.
Qed.

(** What [unifyfs_tree_init] computes, in terms of positions. *)
Lemma ktree_init_spec m r :
  0 <= r < ranks ->
  let '(m', t, rc) := unifyfs_tree_init m r ranks root k in
  rc = ENOMEM /\ ~ mem_plenty m \/
  rc = 0 /\ t_rank t = r /\ t_ranks t = ranks /\
    t_parent_rank t = (if rank_pos r =? 0 then -1 else ktree_rotate root ranks (pos_parent (rank_pos r))) /\
    ktree_children t = ktree_rotate root ranks <$> pos_children (rank_pos r).
Proof.
  intros Hr. pose proof (rank_pos_ok r Hr) as Hp. unfold unifyfs_tree_init.
  change (if r - root <? 0 then r - root + ranks else r - root) with (rank_pos r).
  rewrite (proj2 (Z.gtb_lt k 0)); [lia|]. destruct (calloc m) as [[a|] m'] eqn:Hc; cbv beta iota.
  - rewrite (fill_children_eq (rank_pos r)) // pos_parent_quot //. cbv zeta beta iota. right. split_and!; [done|by apply rotate_rank_pos|done| |].
    + simpl. destruct (rank_pos r =? 0) eqn:H0; zbool.
      { rewrite H0. done. }
      destruct Hp as [Hp _]. pose proof (pos_parent_lt (rank_pos r) ltac:(lia)).
      by rewrite (proj2 (Z.eqb_neq _ (-1))); [lia|].
    + unfold ktree_children. simpl. apply rotate_children_take. lia.
  - left. split; [done|]. intros (? & ? & _)%calloc_plenty. congruence.
Qed.

Lemma ktree_of_spec r :
  0 <= r < ranks ->
  t_parent_rank (ktree_of r ranks root k) =
    (if rank_pos r =? 0 then -1 else ktree_rotate root ranks (pos_parent (rank_pos r))) /\
  ktree_children (ktree_of r ranks root k) = ktree_rotate root ranks <$> pos_children (rank_pos r).
Proof.
  intros Hr. pose proof (ktree_init_spec (Mem 1 []) r Hr) as H. unfold ktree_of.
  destruct (unifyfs_tree_init (Mem 1 []) r ranks root k) as [[m' t] rc].
  destruct H as [[_ []]|(_ & _ & _ & ? & ?)]; [constructor|done].
Qed.

Lemma ktree_count_spec r :
  0 <= r < ranks ->
  let t := ktree_of r ranks root k in Z.to_nat (t_child_count t) = length (ktree_children t).
Proof.
  intros Hr t. pose proof (rank_pos_ok r Hr) as Hp. subst t. unfold ktree_of, unifyfs_tree_init.
  change (if r - root <? 0 then r - root + ranks else r - root) with (rank_pos r).
  rewrite (proj2 (Z.gtb_lt k 0)); [lia|]. cbv beta iota zeta delta [calloc mem_fail mem_next].
  rewrite (fill_children_eq (rank_pos r)) //. cbv zeta beta iota. unfold ktree_children, rotate_children, fill_children. simpl.
  rewrite Nat2Z.id length_take length_app length_fmap length_take length_drop !length_app length_drop length_replicate. lia.
Qed.

(** ** The broadcast *)

Fixpoint pos_broadcast (fuel : nat) p : list Z :=
  match fuel with
  | O => []
  | S fuel => p :: flat_map (pos_broadcast fuel) (pos_children p)
  end.

Lemma ktree_broadcast_pos fuel p :
  pos_ok p ->
  ktree_broadcast fuel ranks root k (ktree_rotate root ranks p) = ktree_rotate root ranks <$> pos_broadcast fuel p.
Proof.
  revert p. induction fuel as [|fuel IH]; intros p Hp; [done|].
  cbn [ktree_broadcast pos_broadcast]. rewrite fmap_cons. f_equal.
  destruct (ktree_of_spec (ktree_rotate root ranks p) (rotate_pos p Hp)) as [_ ->].
  rewrite rank_pos_rotate //.
  assert (Forall pos_ok (pos_children p)) as Hch.
  { apply Forall_forall. intros q [Hq _]%elem_of_pos_children; done. }
  induction Hch as [|q qs Hq _ IHq]; [done|].
  rewrite fmap_cons. cbn [flat_map]. by rewrite fmap_app IHq IH.
Qed.

(** Following parents stays inside the tree until it leaves it at the root. *)
Lemma iter_parent_ok x i :
  pos_ok x -> Nat.iter i pos_parent x = -1 \/ 0 <= Nat.iter i pos_parent x <= x - Z.of_nat i.
Proof.
  intros [Hx _]. induction i as [|i IH]; [simpl; lia|]. rewrite Nat.iter_succ.
  destruct (decide (0 < Nat.iter i pos_parent x)) as [Hp|Hp].
  - right. pose proof (pos_parent_lt _ Hp). lia.
  - left. unfold pos_parent at 1. by destruct (_ >? 0) eqn:H; zbool; [lia|].
Qed.

Lemma elem_of_pos_broadcast fuel p x :
  pos_ok p -> x ∈ pos_broadcast fuel p <->
  pos_ok x /\ exists i, (i < fuel)%nat /\ Nat.iter i pos_parent x = p.
Proof.
  revert p. induction fuel as [|fuel IH]; intros p Hp; [set_solver by lia|].
  cbn [pos_broadcast]. rewrite elem_of_cons. rewrite list_elem_of_In in_flat_map. split.
  - intros [->|(q & Hq & Hx)]; [split; [done|]; by exists 0%nat; split; [lia|]|].
    apply list_elem_of_In in Hq, Hx. apply elem_of_pos_children in Hq as [Hq Hpar]; [|done].
    apply IH in Hx as (Hx & i & Hi & Hit); [|done]. split; [done|].
    exists (S i). split; [lia|]. simpl. by rewrite Hit.
  - intros (Hx & [|i] & Hi & Hit); [left; done|]. right. rewrite Nat.iter_succ in Hit.
    assert (pos_ok (Nat.iter i pos_parent x)) as Hq.
    { pose proof (iter_parent_ok x i Hx) as [Hm|?]; unfold pos_ok in *; [|lia].
      rewrite Hm in Hit. unfold pos_parent in Hit. simpl in Hit. lia. }
    exists (Nat.iter i pos_parent x). split; apply list_elem_of_In.
    + by apply elem_of_pos_children.
    + apply IH; [done|]. split; [done|]. exists i. split; [lia|done].
Qed.

(** Two ancestors of [x] with the same parent are the same. *)
Lemma ancestors_siblings x i j :
  pos_ok x -> (i <= j)%nat -> pos_ok (Nat.iter (S j) pos_parent x) ->
  Nat.iter (S i) pos_parent x = Nat.iter (S j) pos_parent x -> i = j.
Proof.
  intros Hx Hij Hj Heq. destruct (decide (i = j)) as [|Hne]; [done|exfalso].
  assert (S j = (j - i) + S i)%nat as Hs by lia. rewrite Hs Nat.iter_add in Heq, Hj.
  rewrite -Heq in Hj. assert (pos_ok (Nat.iter (S i) pos_parent x)) as Hi by done.
  destruct (iter_parent_ok _ (j - i) Hi) as [H|H]; unfold pos_ok in *; lia.
Qed.

Lemma NoDup_pos_broadcast fuel p : pos_ok p -> NoDup (pos_broadcast fuel p).
Proof.
  revert p. induction fuel as [|fuel IH]; intros p Hp; [constructor|]. cbn [pos_broadcast]. constructor.
  - intros (q & Hq & Hx)%list_elem_of_In%in_flat_map. apply list_elem_of_In in Hq, Hx.
    apply elem_of_pos_children in Hq as [Hq Hpar]; [|done].
    apply elem_of_pos_broadcast in Hx as (_ & i & _ & Hit); [|done].
    assert (Nat.iter (S i) pos_parent p = p) as Hc by (rewrite Nat.iter_succ Hit; done).
    destruct (iter_parent_ok p (S i) Hp) as [H|H]; unfold pos_ok in *; lia.
  - apply NoDup_flat_map; [apply NoDup_seqZ| |].
    + intros q [Hq _]%elem_of_pos_children; auto.
    + intros a b x Ha Hb Hxa Hxb.
      apply elem_of_pos_children in Ha as [Ha Hpa]; [|done]. apply elem_of_pos_children in Hb as [Hb Hpb]; [|done].
      apply elem_of_pos_broadcast in Hxa as (Hx & i & _ & Hi); [|done].
      apply elem_of_pos_broadcast in Hxb as (_ & j & _ & Hj); [|done].
      assert (Nat.iter (S i) pos_parent x = p) as Hi' by (rewrite Nat.iter_succ Hi; done).
      assert (Nat.iter (S j) pos_parent x = p) as Hj' by (rewrite Nat.iter_succ Hj; done).
      destruct (Nat.le_ge_cases i j) as [Hij|Hij].
      * rewrite -Hi -Hj. f_equal. apply (ancestors_siblings x); [done..| |]; by rewrite ?Hi' ?Hj'.
      * rewrite -Hi -Hj. f_equal. symmetry. apply (ancestors_siblings x); [done..| |]; by rewrite ?Hi' ?Hj'.
Qed.

(** Every position has the root as an ancestor. *)
Lemma root_ancestor x : pos_ok x -> exists i, (i <= Z.to_nat x)%nat /\ Nat.iter i pos_parent x = 0.
Proof.
  intros [Hx Hlt]. clear Hlt. revert Hx. induction x as [x IH] using (well_founded_induction (Z.lt_wf 0)). intros Hx.
  destruct (decide (x = 0)) as [->|Hne]; [by exists 0%nat|].
  pose proof (pos_parent_lt x ltac:(lia)) as Hp.
  destruct (IH (pos_parent x) ltac:(lia) ltac:(lia)) as (i & Hi & Hit).
  exists (S i). split; [lia|]. by rewrite Nat.iter_succ_r.
Qed.

Lemma pos_broadcast_all x : x ∈ pos_broadcast (Z.to_nat ranks) 0 <-> pos_ok x.
Proof.
  rewrite elem_of_pos_broadcast; [unfold pos_ok; lia|]. split; [by intros [? _]|]. intros Hx. split; [done|].
  destruct (root_ancestor x Hx) as (i & Hi & Hit). exists i. unfold pos_ok in Hx. split; [lia|done].
Qed.
End Positions.

(** ** Properties *)

(** A collective operation reaches every server exactly once.  For every
    number of servers, every root and every degree of at least 1, forwarding a
    message from the root to the children each server computed for itself
    visits each rank of [0 .. ranks-1] once and nothing else. *)
Theorem ktree_broadcast_once ranks root k :
  0 <= root < ranks -> 1 <= k ->
  Permutation (ktree_broadcast (Z.to_nat ranks) ranks root k root) (seqZ 0 ranks).
Proof.
  intros Hroot Hk. assert (pos_ok ranks 0) as H0 by (unfold pos_ok; lia).
  assert (ktree_rotate root ranks 0 = root) as Hr by (unfold ktree_rotate; zcase; lia).
  rewrite -{2}Hr (ktree_broadcast_pos ranks root k Hroot Hk) //. apply NoDup_Permutation.
  - apply NoDup_fmap_2_strong; [|by apply (NoDup_pos_broadcast ranks root k Hroot Hk)].
    intros x y Hx Hy. apply (rotate_inj ranks root k Hroot Hk); by apply (pos_broadcast_all ranks root k Hroot Hk).
  - apply NoDup_seqZ.
  - intros r. rewrite elem_of_seqZ. split.
    + intros (p & -> & Hp)%list_elem_of_fmap. apply (pos_broadcast_all ranks root k Hroot Hk) in Hp.
      apply (rotate_pos ranks root k Hroot Hk) in Hp. unfold pos_ok in Hp. lia.
    + intros Hx. rewrite -(rotate_rank_pos ranks root k Hroot Hk r ltac:(lia)). apply list_elem_of_fmap_2.
      apply (pos_broadcast_all ranks root k Hroot Hk), (rank_pos_ok ranks root k Hroot Hk). lia.
Qed.

(** The neighbours agree about each other: a rank is among the children
    another rank computes exactly when it computes that rank as its parent,
    the root and only the root has no parent, and no rank has more than [k]
    children.  [unifyfs_tree_init] fails only when its allocation does. *)
Theorem ktree_neighbours ranks root k m p c :
  0 <= root < ranks -> 1 <= k -> 0 <= p < ranks -> 0 <= c < ranks ->
  let '(_, tp, rcp) := unifyfs_tree_init m p ranks root k in
  let '(_, tc, rcc) := unifyfs_tree_init m c ranks root k in
  (mem_plenty m -> rcp = 0) /\
  (rcp = 0 -> t_rank tp = p /\ Z.of_nat (length (ktree_children tp)) <= k) /\
  (rcp = 0 -> rcc = 0 -> (c ∈ ktree_children tp <-> t_parent_rank tc = p) /\
    (t_parent_rank tc = -1 <-> c = root)).
Proof.
  intros Hroot Hk Hp Hc. pose proof (ktree_init_spec ranks root k Hroot Hk m p Hp) as Sp.
  pose proof (ktree_init_spec ranks root k Hroot Hk m c Hc) as Sc.
  destruct (unifyfs_tree_init m p ranks root k) as [[m1 tp] rcp].
  destruct (unifyfs_tree_init m c ranks root k) as [[m2 tc] rcc].
  destruct Sp as [[-> Hm]|(-> & Hrp & _ & _ & Hcp)]; [by split_and!|].
  split_and!; [done|rewrite Hcp length_fmap; unfold pos_children; rewrite length_seqZ; split; [done|lia]|].
  intros _ ->. destruct Sc as [[? _]|(_ & _ & _ & Hpar & _)]; [done|]. rewrite Hcp Hpar.
  pose proof (rank_pos_ok ranks root k Hroot Hk p Hp) as Hpp. pose proof (rank_pos_ok ranks root k Hroot Hk c Hc) as Hpc.
  assert (rank_pos ranks root c = 0 <-> c = root) as H0.
  { unfold rank_pos. zcase; lia. }
  destruct (rank_pos ranks root c =? 0) eqn:Hz; zbool.
  - split; [|by rewrite -H0 Hz]. split; [|lia]. intros (q & Hq & Hin)%list_elem_of_fmap.
    apply (elem_of_pos_children ranks root k Hroot Hk) in Hin as [Hqo Hqp]; [|done].
    assert (q = 0) as -> by (rewrite -Hz -(rank_pos_rotate ranks root k Hroot Hk q) // -Hq //).
    unfold pos_parent, pos_ok in *. simpl in Hqp. lia.
  - assert (0 <= pos_parent k (rank_pos ranks root c) < rank_pos ranks root c) as Hlt
      by (apply (pos_parent_lt ranks root k Hroot Hk); unfold pos_ok in Hpc; lia).
    assert (pos_ok ranks (pos_parent k (rank_pos ranks root c))) as Hpok by (unfold pos_ok in *; lia).
    pose proof (rotate_pos ranks root k Hroot Hk _ Hpok) as Hro. split.
    + rewrite -{1}(rotate_rank_pos ranks root k Hroot Hk c Hc) -{2}(rotate_rank_pos ranks root k Hroot Hk p Hp).
      rewrite list_elem_of_fmap. split.
      * intros (q & Hq & [Hqo <-]%(elem_of_pos_children ranks root k Hroot Hk)); [|done].
        apply (rotate_inj ranks root k Hroot Hk) in Hq; [|done..]. by rewrite Hq.
      * intros Heq. apply (rotate_inj ranks root k Hroot Hk) in Heq; [|done..]. exists (rank_pos ranks root c). split; [done|].
        by apply (elem_of_pos_children ranks root k Hroot Hk).
    + unfold pos_ok in Hro. split; [lia|]. intros ?%H0. lia.
Qed.

Lemma ktree_broadcast_once_witness : Permutation (ktree_broadcast 11 11 4 3 4) (seqZ 0 11).
Proof. apply (ktree_broadcast_once 11 4 3); lia. Defined.

Lemma ktree_neighbours_witness :
  6 ∈ ktree_children (unifyfs_tree_init (Mem 1 []) 4 7 2 2).1.2 <->
  t_parent_rank (unifyfs_tree_init (Mem 1 []) 6 7 2 2).1.2 = 4.
Proof.
  pose proof (ktree_neighbours 7 2 2 (Mem 1 []) 4 6 ltac:(lia) ltac:(lia) ltac:(lia) ltac:(lia)) as H.
  destruct (unifyfs_tree_init (Mem 1 []) 4 7 2 2) as [[m1 tp] rcp] eqn:Hp.
  destruct (unifyfs_tree_init (Mem 1 []) 6 7 2 2) as [[m2 tc] rcc] eqn:Hc.
  vm_compute in Hp, Hc. injection Hp as _ _ Hp. injection Hc as _ _ Hc. by apply H.
Defined.
