(* ===== verification/IdStack.v ===== *)
(** * The stack of free identifiers ([common/src/unifyfs-stack.c])

    A fixed-size stack in one block of memory: the two fields of
    [unifyfs_stack] followed by [size] integers.  The client keeps the free
    file identifiers, file descriptors, streams and directory streams in such
    stacks.  The theorems show the discipline the client relies on: an
    identifier is never handed out twice while it is in use. *)

From S2P Require Import Prelude.

Record unifyfs_stack := UnifyfsStack {
  st_size : Z;
  st_last : Z;
  st_entries : list Z;      (* the integers that follow the structure *)
}.

Definition sizeof_unifyfs_stack : Z := 8.
Definition sizeof_int : Z := 4.

Definition unifyfs_stack_bytes (size : Z) : Z := sizeof_unifyfs_stack + size * sizeof_int.

(** The loop of [unifyfs_stack_init] stores [size - 1 - i] at index [i]; what
    the memory held before is overwritten. *)
Definition unifyfs_stack_init (size : Z) : unifyfs_stack :=
  UnifyfsStack size size ((fun i => size - 1 - i) <$> seqZ 0 size).

(** An access outside the block of memory is [None]. *)
Definition unifyfs_stack_pop (stack : unifyfs_stack) : option (unifyfs_stack * Z) :=
  if st_last stack >? 0 then
    let idx := st_last stack - 1 in
    value ← st_entries stack !! Z.to_nat idx;
    Some (UnifyfsStack (st_size stack) idx (st_entries stack), value)
  else Some (stack, -1).

Definition unifyfs_stack_push (stack : unifyfs_stack) (value : Z) : option unifyfs_stack :=
  if st_last stack <? st_size stack then
    let idx := Z.to_nat (st_last stack) in
    if bool_decide (idx < length (st_entries stack))%nat then
      Some (UnifyfsStack (st_size stack) (st_last stack + 1) (<[idx := value]> (st_entries stack)))
    else None
  else Some stack.

(** ** The discipline of the client *)

(** The free identifiers, the next one to be popped last. *)
Definition stack_free (stack : unifyfs_stack) : list Z := take (Z.to_nat (st_last stack)) (st_entries stack).

(** A stack of [size] identifiers and the identifiers in use: they start
    free, are popped, and are pushed back by whoever popped them. *)
Inductive stack_uses (size : Z) : unifyfs_stack -> list Z -> Prop :=
| stack_uses_init : stack_uses size (unifyfs_stack_init size) []
| stack_uses_pop s used s' v :
    stack_uses size s used -> unifyfs_stack_pop s = Some (s', v) -> v <> -1 ->
    stack_uses size s' (v :: used)
| stack_uses_push s used1 v used2 s' :
    stack_uses size s (used1 ++ v :: used2) -> unifyfs_stack_push s v = Some s' ->
    stack_uses size s' (used1 ++ used2).

Record stack_ok (size : Z) (s : unifyfs_stack) (used : list Z) : Prop := {
  stack_ok_size : st_size s = size;
  stack_ok_last : 0 <= st_last s <= size;
  stack_ok_len : length (st_entries s) = Z.to_nat size;
  stack_ok_ids : Permutation (stack_free s ++ used) (seqZ 0 size);
}.

Lemma stack_free_length size s used :
  stack_ok size s used -> Z.of_nat (length (stack_free s)) = st_last s.
Proof. intros [_ ? Hl _]. unfold stack_free. rewrite length_take Hl. lia. Qed.

Lemma stack_used_length size s used :
  stack_ok size s used -> Z.of_nat (length used) = size - st_last s.
Proof.
  intros Hok. pose proof (stack_free_length _ _ _ Hok) as Hf. destruct Hok as [_ ? _ Hp].
  apply Permutation_length in Hp. rewrite length_app length_seqZ in Hp. lia.
Qed.

Lemma stack_pop_ok size s used :
  stack_ok size s used ->
  (st_last s = 0 /\ unifyfs_stack_pop s = Some (s, -1)) \/
  exists s' v, unifyfs_stack_pop s = Some (s', v) /\ 0 < st_last s /\ stack_free s = stack_free s' ++ [v] /\
    0 <= v < size /\ stack_ok size s' (v :: used).
Proof.
  intros Hok. pose proof Hok as [Hs Hl Hlen Hp]. unfold unifyfs_stack_pop.
  destruct (st_last s >? 0) eqn:H0; zbool; [right|left; split; [lia|done]].
  destruct (lookup_lt_is_Some_2 (st_entries s) (Z.to_nat (st_last s - 1))) as [v Hv]; [lia|].
  rewrite Hv. simpl. set (s' := UnifyfsStack _ _ _). exists s', v.
  assert (stack_free s = stack_free s' ++ [v]) as Hf.
  { unfold stack_free, s'. simpl. replace (Z.to_nat (st_last s)) with (S (Z.to_nat (st_last s - 1))); [|lia].
    by apply take_S_r. }
  rewrite Hf in Hp. split_and!; [done|lia|done|..].
  - assert (v ∈ seqZ 0 size) as Hin by (rewrite -Hp; set_solver). apply elem_of_seqZ in Hin. lia.
  - assert (v ∈ seqZ 0 size) as Hin by (rewrite -Hp; set_solver). apply elem_of_seqZ in Hin. lia.
  - split; [done|simpl; lia|done|]. rewrite -Hp. by rewrite -app_assoc.
Qed.

Lemma stack_push_ok size s used1 v used2 :
  stack_ok size s (used1 ++ v :: used2) ->
  exists s', unifyfs_stack_push s v = Some s' /\ stack_free s' = stack_free s ++ [v] /\
    stack_ok size s' (used1 ++ used2).
Proof.
  intros Hok. pose proof (stack_used_length _ _ _ Hok) as Hu. pose proof Hok as [Hs Hl Hlen Hp].
  rewrite length_app /= in Hu. unfold unifyfs_stack_push. rewrite Hs (proj2 (Z.ltb_lt _ _)); [lia|].
  rewrite bool_decide_true; [lia|]. eexists. split; [done|]. set (s' := UnifyfsStack _ _ _).
  assert (stack_free s' = stack_free s ++ [v]) as Hf.
  { unfold stack_free, s'. simpl. replace (Z.to_nat (st_last s + 1)) with (S (Z.to_nat (st_last s))); [|lia].
    rewrite (take_S_r _ _ v); [apply list_lookup_insert_eq; lia|]. by rewrite take_insert_ge. }
  split; [done|]. split; [done|simpl; lia|by rewrite /= length_insert|].
  rewrite Hf -Hp -app_assoc. apply Permutation_app_head. simpl. apply Permutation_middle.
Qed.

Lemma stack_uses_ok size s used : 0 <= size -> stack_uses size s used -> stack_ok size s used.
Proof.
  intros Hsz. induction 1 as [|s used s' v _ IH Hpop Hv|s used1 v used2 s' _ IH Hpush].
  - split; [done|simpl; lia|by rewrite /= length_fmap length_seqZ|].
    unfold stack_free. simpl. rewrite take_ge; [by rewrite length_fmap length_seqZ|]. rewrite app_nil_r.
    apply NoDup_Permutation; [apply NoDup_fmap_2; [intros ? ? ?; lia|apply NoDup_seqZ]|apply NoDup_seqZ|].
    intros x. rewrite list_elem_of_fmap elem_of_seqZ. split; [intros (i & -> & Hi%elem_of_seqZ); lia|].
    intros Hx. exists (size - 1 - x). rewrite elem_of_seqZ. lia.
  - destruct (stack_pop_ok _ _ _ IH) as [[_ Heq]|(s2 & v2 & Heq & _ & _ & _ & Hok)]; rewrite Heq in Hpop;
      by injection Hpop as <- <-.
  - destruct (stack_push_ok _ _ _ _ _ IH) as (s2 & Heq & _ & Hok). rewrite Heq in Hpush. by injection Hpush as <-.
Qed.

(** Identifiers are never handed out twice.  However a client pops
    identifiers and pushes back the ones it popped, the identifiers in use are
    distinct and in [0 .. size-1]; a pop never fails on memory, returns -1
    exactly when all [size] identifiers are in use, and otherwise returns one
    that is not in use. *)
Theorem stack_unique_ids size s used :
  0 <= size -> stack_uses size s used ->
  NoDup used /\ Forall (fun v => 0 <= v < size) used /\
  exists s' v, unifyfs_stack_pop s = Some (s', v) /\
    (v = -1 /\ Z.of_nat (length used) = size \/ 0 <= v < size /\ (v ∉ used) /\ Z.of_nat (length used) < size).
Proof.
  intros Hsz Hok%stack_uses_ok; [|done]. pose proof (stack_used_length _ _ _ Hok) as Hu.
  pose proof (stack_ok_ids _ _ _ Hok) as Hp. pose proof (NoDup_seqZ 0 size) as Hn. rewrite -Hp in Hn.
  split_and!; [by apply NoDup_app in Hn as (_ & _ & ?)| |].
  - apply Forall_forall. intros v Hv. assert (v ∈ seqZ 0 size) as Hin%elem_of_seqZ; [rewrite -Hp; set_solver|lia].
  - destruct (stack_pop_ok _ _ _ Hok) as [[H0 Heq]|(s' & v & Heq & H0 & Hf & Hv & _)].
    + exists s, (-1). split; [done|]. left. lia.
    + exists s', v. split; [done|]. right. split_and!; [lia..| |lia].
      apply NoDup_app in Hn as (_ & Hd & _). apply Hd. rewrite Hf. set_solver.
Qed.

(** Last in, first out: an identifier that is pushed back is the next one
    to be popped, and the pop leaves the free identifiers as they were before
    the push. *)
Lemma stack_push_pop size s used1 v used2 :
  0 <= size -> stack_uses size s (used1 ++ v :: used2) ->
  exists s1 s2, unifyfs_stack_push s v = Some s1 /\ unifyfs_stack_pop s1 = Some (s2, v) /\
    stack_free s2 = stack_free s.
Proof.
  intros Hsz Hok%stack_uses_ok; [|done]. destruct (stack_push_ok _ _ _ _ _ Hok) as (s1 & Heq & Hf & Hok1).
  destruct (stack_pop_ok _ _ _ Hok1) as [[H0 _]|(s2 & v2 & Hpop & _ & Hf2 & _)].
  - apply stack_free_length in Hok1. rewrite Hf length_app /= in Hok1. lia.
  - rewrite Hf in Hf2. apply app_inj_tail in Hf2 as [Hf2 ->]. by exists s1, s2.
Qed.

(** A stack that takes back what it gave. *)
Lemma stack_pop_push st st' v : unifyfs_stack_pop st = Some (st', v) -> 0 <= v -> st_last st <= st_size st -> unifyfs_stack_push st' v = Some st.
Proof.
  unfold unifyfs_stack_pop, unifyfs_stack_push. destruct (st_last st >? 0) eqn:Hl; [|intros [= <- <-]; lia].
  apply Z.gtb_lt in Hl. destruct (st_entries st !! _) as [w|] eqn:He; [|done]. intros [= <- <-] Hv Hle. cbn.
  rewrite (proj2 (Z.ltb_lt _ _)); [lia|]. rewrite bool_decide_true; [by apply lookup_lt_Some in He|]. rewrite list_insert_id //.
  rewrite Z.sub_add. by destruct st.
Qed.

(** Three identifiers, of which 0 and 1 were popped. *)
Lemma stack_example : stack_uses 3 (UnifyfsStack 3 1 [2; 1; 0]) [1; 0].
Proof.
  refine (stack_uses_pop 3 (UnifyfsStack 3 2 [2; 1; 0]) [0] _ 1 _ _ _); [|done|lia].
  refine (stack_uses_pop 3 (UnifyfsStack 3 3 [2; 1; 0]) [] _ 0 _ _ _); [|done|lia].
  exact (stack_uses_init 3).
Defined.

Lemma stack_unique_ids_witness : NoDup [1; 0] /\ unifyfs_stack_pop (UnifyfsStack 3 1 [2; 1; 0]) <> None.
Proof.
  destruct (stack_unique_ids 3 (UnifyfsStack 3 1 [2; 1; 0]) [1; 0] ltac:(lia) stack_example)
    as (H & _ & s' & v & Heq & _). split; [exact H|]. by rewrite Heq.
Defined.
