(* ===== verification/ArrayList.v ===== *)
(** * The growing array of pointers ([common/src/arraylist.c])

    An [arraylist_t] owns the objects its entries point to: they are heap
    objects, freed when an entry is overwritten and when the list is freed.
    An entry is the object it points to or [None] for the null pointer; what an
    operation passes to [free] is part of its result.  The operations that
    change a list are given a list; called with a null pointer they only
    return -1.

    The operations are shown to refine a finite map from indices to objects. *)

From S2P Require Import Prelude.

Definition ARRAYLIST_CAPACITY : Z := 1024.

(** Signed 32-bit overflow has no defined result. *)
Definition INT_MAX : Z := 2147483647.

Record arraylist_t (A : Type) := ArrayList {
  al_cap : Z;
  al_size : Z;
  al_elems : list (option A);
}.

Arguments ArrayList {A}.
Arguments al_cap {A}.
Arguments al_size {A}.
Arguments al_elems {A}.

Section Operations.
Context {A : Type}.

(** [al_elems arr [pos]]; [None] outside the array. *)
Definition al_entry (elems : list (option A)) (pos : Z) : option (option A) :=
  if pos <? 0 then None else elems !! Z.to_nat pos.

(** [calloc] of a negative number of entries is a request for more memory
    than there is. *)
Definition arraylist_create (m : mem) (capacity : Z) : mem * option (arraylist_t A) :=
  let '(arr, m) := calloc m in
  match arr with
  | None => (m, None)
  | Some _ =>
      let cap := if negb (capacity =? 0) then capacity else ARRAYLIST_CAPACITY in
      let '(elems, m) := if cap <? 0 then (None, m) else calloc m in
      match elems with
      | None => (m, None)
      | Some _ => (m, Some (ArrayList cap 0 (replicate (Z.to_nat cap) None)))
      end
  end.

Definition arraylist_capacity (arr : option (arraylist_t A)) : Z :=
  match arr with None => -1 | Some arr => al_cap arr end.

Definition arraylist_size (arr : option (arraylist_t A)) : Z :=
  match arr with None => -1 | Some arr => al_size arr end.

Definition arraylist_reset (arr : arraylist_t A) : arraylist_t A * Z :=
  (ArrayList (al_cap arr) 0 (al_elems arr), 0).

(** The objects freed with the list, in order. *)
Definition arraylist_free (arr : option (arraylist_t A)) : list A * Z :=
  match arr with
  | None => ([], -1)
  | Some arr => (omap id (take (Z.to_nat (al_cap arr)) (al_elems arr)), 0)
  end.

Definition arraylist_get (arr : option (arraylist_t A)) (pos : Z) : option (option A) :=
  match arr with
  | None => Some None
  | Some arr => if pos >=? al_size arr then Some None else al_entry (al_elems arr) pos
  end.

(** The loop over the entries before a removed last one: from index [i - 1]
    down to 0. *)
Fixpoint arraylist_shrink (i : nat) (elems : list (option A)) (size : Z) : Z :=
  match i with
  | O => size
  | S i => match elems !! i with Some None => arraylist_shrink i elems (size - 1) | _ => size end
  end.

Definition arraylist_remove (arr : arraylist_t A) (pos : Z) : option (arraylist_t A * option A) :=
  item ← arraylist_get (Some arr) pos;
  match item with
  | None => Some (arr, None)
  | Some _ =>
      let elems := <[Z.to_nat pos := None]> (al_elems arr) in
      let size :=
        if pos + 1 =? al_size arr then arraylist_shrink (Z.to_nat pos) elems (al_size arr - 1)
        else al_size arr in
      Some (ArrayList (al_cap arr) size elems, item)
  end.

(** Grow the array to hold index [pos]; the new entries are null. *)
Definition arraylist_grow (m : mem) (arr : arraylist_t A) (pos : Z) : option (mem * option (arraylist_t A)) :=
  if pos >=? al_cap arr then
    let newcap := 2 * pos in
    if newcap >? INT_MAX then None
    else
      let '(newlist, m) := calloc m in
      match newlist with
      | None => Some (m, None)
      | Some _ =>
          Some (m, Some (ArrayList newcap (al_size arr)
            (al_elems arr ++ replicate (Z.to_nat (newcap - al_cap arr)) None)))
      end
  else Some (m, Some arr).

(** The new list, the object that was freed and the return code. *)
Definition arraylist_insert (m : mem) (arr : arraylist_t A) (pos : Z) (elem : option A)
    : option (mem * arraylist_t A * list A * Z) :=
  '(m, arr') ← arraylist_grow m arr pos;
  match arr' with
  | None => Some (m, arr, [], -1)
  | Some arr =>
      old ← al_entry (al_elems arr) pos;
      let freed := match old with Some p => [p] | None => [] end in
      let elems := <[Z.to_nat pos := elem]> (al_elems arr) in
      let size := if pos + 1 >? al_size arr then pos + 1 else al_size arr in
      Some (m, ArrayList (al_cap arr) size elems, freed, 0)
  end.

Definition arraylist_add (m : mem) (arr : arraylist_t A) (elem : option A)
    : option (mem * arraylist_t A * list A * Z) :=
  let pos := al_size arr in
  '(m, arr, freed, rc) ← arraylist_insert m arr pos elem;
  Some (m, arr, freed, if rc =? -1 then rc else pos).

(** [qsort] permutes the whole array, the unused entries included; the size
    becomes one more than the last index in use. *)
Fixpoint last_used_pos (elems : list (option A)) (i last : Z) : Z :=
  match elems with
  | [] => last
  | e :: elems => last_used_pos elems (i + 1) (match e with Some _ => i | None => last end)
  end.

Definition arraylist_sort (qsort : list (option A) -> list (option A)) (arr : arraylist_t A) : arraylist_t A * Z :=
  let elems := qsort (al_elems arr) in
  (ArrayList (al_cap arr) (last_used_pos elems 0 (-1) + 1) elems, 0).

(** ** The finite map a list stands for *)

(** The calls of a client of the list, and what they return: the freed
    objects, an integer and a pointer. *)
Inductive al_op :=
| AlInsert (pos : Z) (elem : A)
| AlAdd (elem : A)
| AlRemove (pos : Z)
| AlGet (pos : Z)
| AlSize.

Definition al_out : Type := list A * Z * option A.

Definition al_step (m : mem) (arr : arraylist_t A) (op : al_op) : option (mem * arraylist_t A * al_out) :=
  match op with
  | AlInsert pos e => '(m, arr, freed, rc) ← arraylist_insert m arr pos (Some e); Some (m, arr, (freed, rc, None))
  | AlAdd e => '(m, arr, freed, rc) ← arraylist_add m arr (Some e); Some (m, arr, (freed, rc, None))
  | AlRemove pos => '(arr, item) ← arraylist_remove arr pos; Some (m, arr, ([], 0, item))
  | AlGet pos => item ← arraylist_get (Some arr) pos; Some (m, arr, ([], 0, item))
  | AlSize => Some (m, arr, ([], arraylist_size (Some arr), None))
  end.

Fixpoint al_run (m : mem) (arr : arraylist_t A) (ops : list al_op) : option (mem * arraylist_t A * list al_out) :=
  match ops with
  | [] => Some (m, arr, [])
  | op :: ops =>
      '(m, arr, o) ← al_step m arr op;
      '(m, arr, os) ← al_run m arr ops;
      Some (m, arr, o :: os)
  end.

(** The specification: the size is one more than the largest index. *)
Definition map_size (g : gmap nat A) : nat := map_fold (fun k _ r => max (S k) r) 0%nat g.

Definition spec_insert (g : gmap nat A) (pos : nat) (e : A) : gmap nat A * list A :=
  (<[pos := e]> g, match g !! pos with Some p => [p] | None => [] end).

Definition spec_step (g : gmap nat A) (op : al_op) : gmap nat A * al_out :=
  match op with
  | AlInsert pos e => let '(g', freed) := spec_insert g (Z.to_nat pos) e in (g', (freed, 0, None))
  | AlAdd e => let '(g', freed) := spec_insert g (map_size g) e in (g', (freed, Z.of_nat (map_size g), None))
  | AlRemove pos => (delete (Z.to_nat pos) g, ([], 0, g !! Z.to_nat pos))
  | AlGet pos => (g, ([], 0, g !! Z.to_nat pos))
  | AlSize => (g, ([], Z.of_nat (map_size g), None))
  end.

Fixpoint spec_run (g : gmap nat A) (ops : list al_op) : gmap nat A * list al_out :=
  match ops with
  | [] => (g, [])
  | op :: ops => let '(g, o) := spec_step g op in let '(g, os) := spec_run g ops in (g, o :: os)
  end.

(** ** The refinement *)

(** [n] is the size of [g]. *)
Definition is_size (g : gmap nat A) (n : nat) : Prop :=
  (forall j, is_Some (g !! j) -> (j < n)%nat) /\ (n = 0%nat \/ is_Some (g !! (n - 1)%nat)).

Lemma is_size_unique g n1 n2 : is_size g n1 -> is_size g n2 -> n1 = n2.
Proof.
  intros [H1 L1] [H2 L2]. destruct L1 as [->|L1%H2], L2 as [->|L2%H1]; lia.
Qed.

Lemma is_size_insert g n pos e : is_size g n -> is_size (<[pos := e]> g) (Nat.max (S pos) n).
Proof.
  intros [H L]. split.
  - intros j [->|Hj%H]%lookup_insert_is_Some'; lia.
  - right. apply lookup_insert_is_Some'. destruct L as [->|L]; [left; lia|].
    destruct (decide (n <= S pos)%nat); [left; lia|]. right. by replace (Nat.max (S pos) n - 1)%nat with (n - 1)%nat by lia.
Qed.

Lemma map_size_spec g : is_size g (map_size g).
Proof.
  unfold map_size. apply (map_fold_weak_ind (fun r g => is_size g r)).
  - split; [|by left]. intros j [? Hj]. by rewrite lookup_empty in Hj.
  - intros i x g' r Hi Hs. by apply is_size_insert.
Qed.

Record al_repr (arr : arraylist_t A) (g : gmap nat A) : Prop := {
  al_repr_len : Z.of_nat (length (al_elems arr)) = al_cap arr;
  al_repr_cap : 1 <= al_cap arr;
  al_repr_get j : g !! j = mjoin (al_elems arr !! j);
  al_repr_size : is_size g (Z.to_nat (al_size arr)) /\ 0 <= al_size arr;
}.

Lemma al_repr_map_size arr g : al_repr arr g -> al_size arr = Z.of_nat (map_size g).
Proof.
  intros [_ _ _ [Hs H0]]. pose proof (is_size_unique _ _ _ Hs (map_size_spec g)). lia.
Qed.

Lemma al_size_cap arr g : al_repr arr g -> al_size arr <= al_cap arr.
Proof.
  intros [Hl Hc Hg [[_ [Hs|[x Hs]]] H0]]; [lia|]. rewrite Hg in Hs.
  destruct (al_elems arr !! _) eqn:He; [|done]. apply lookup_lt_Some in He. lia.
Qed.

Lemma al_get_ok arr g pos :
  al_repr arr g -> 0 <= pos -> arraylist_get (Some arr) pos = Some (g !! Z.to_nat pos).
Proof.
  intros Hr Hp. pose proof (al_size_cap _ _ Hr) as Hc. destruct Hr as [Hl _ Hg [[Hs _] H0]]. simpl.
  destruct (pos >=? al_size arr) eqn:Hge; zbool.
  - f_equal. destruct (g !! Z.to_nat pos) eqn:He; [|done]. specialize (Hs (Z.to_nat pos) ltac:(eauto)). lia.
  - unfold al_entry. rewrite (proj2 (Z.ltb_ge pos 0)); [lia|].
    destruct (lookup_lt_is_Some_2 (al_elems arr) (Z.to_nat pos)) as [x Hx]; [lia|]. by rewrite Hg Hx.
Qed.

Lemma arraylist_grow_ok m arr g pos :
  al_repr arr g -> 0 <= pos -> (al_cap arr <= pos -> 2 * pos <= INT_MAX) ->
  exists m' r, arraylist_grow m arr pos = Some (m', r) /\ mem_next m <= mem_next m' /\
    (mem_plenty m -> mem_plenty m' /\ r <> None) /\
    forall arr', r = Some arr' -> al_repr arr' g /\ pos < al_cap arr' /\ al_size arr' = al_size arr.
Proof.
  intros Hr Hp Hmax. pose proof Hr as [Hl Hc Hg Hs]. unfold arraylist_grow.
  destruct (pos >=? al_cap arr) eqn:Hge; zbool.
  2:{ exists m, (Some arr). split_and!; [done|lia|done|]. by intros ? [= <-]. }
  destruct (2 * pos >? INT_MAX) eqn:Hov; zbool; [lia|].
  destruct (calloc m) as [[a|] m'] eqn:Hm; pose proof (calloc_next _ _ _ Hm) as Hn.
  2:{ exists m', None. split_and!; [done|done| |done]. intros (? & ? & _)%calloc_plenty. congruence. }
  eexists m', _. split_and!; [done|done|intros (? & ? & ? & _)%calloc_plenty; split; congruence|].
  intros ? [= <-]. split; [|simpl; lia]. split; simpl; [rewrite length_app length_replicate; lia|lia| |done].
  intros j. rewrite Hg. destruct (decide (j < length (al_elems arr))%nat).
  - by rewrite lookup_app_l.
  - rewrite lookup_app_r; [lia|]. rewrite (lookup_ge_None_2 (al_elems arr)); [lia|].
    destruct (replicate _ _ !! _) as [x|] eqn:Hx; [|done]. by apply lookup_replicate in Hx as [-> _].
Qed.

Lemma arraylist_insert_ok m arr g pos e :
  al_repr arr g -> 0 <= pos -> (al_cap arr <= pos -> 2 * pos <= INT_MAX) ->
  exists m' arr' freed rc, arraylist_insert m arr pos (Some e) = Some (m', arr', freed, rc) /\
    mem_next m <= mem_next m' /\ (mem_plenty m -> mem_plenty m' /\ rc = 0) /\
    (rc = -1 /\ arr' = arr /\ freed = [] \/
     rc = 0 /\ freed = (spec_insert g (Z.to_nat pos) e).2 /\ al_repr arr' (spec_insert g (Z.to_nat pos) e).1 /\
       al_size arr' = Z.max (al_size arr) (pos + 1)).
Proof.
  intros Hr Hp Hmax. unfold arraylist_insert.
  destruct (arraylist_grow_ok m arr g pos Hr Hp Hmax) as (m' & [a|] & -> & Hn & Hpl & Ha); simpl.
  2:{ eexists m', arr, _, _. split_and!; [done|done| |by left]. intros [_ []]%Hpl. done. }
  destruct (Ha a eq_refl) as ([Hl Hc Hg [Hs H0]] & Hlt & Hsz).
  destruct (lookup_lt_is_Some_2 (al_elems a) (Z.to_nat pos)) as [x Hx]; [lia|].
  unfold al_entry. rewrite (proj2 (Z.ltb_ge pos 0)); [lia|]. rewrite Hx. simpl.
  eexists m', _, _, _. split_and!; [done|done|by intros [? _]%Hpl|right]. split_and!; [done|by rewrite Hg Hx| |simpl; zcase; lia].
  split; simpl.
  - by rewrite length_insert.
  - lia.
  - intros j. destruct (decide (j = Z.to_nat pos)) as [->|Hne].
    + rewrite lookup_insert_eq list_lookup_insert_eq //. lia.
    + rewrite lookup_insert_ne // list_lookup_insert_ne //.
  - split; [|zcase; lia]. pose proof (is_size_insert _ _ (Z.to_nat pos) e Hs) as Hs'.
    replace (Z.to_nat (if pos + 1 >? al_size a then pos + 1 else al_size a))
      with (Nat.max (S (Z.to_nat pos)) (Z.to_nat (al_size a))); [done|zcase; lia].
Qed.

(** The loop ends at the last entry in use. *)
Lemma arraylist_shrink_ok i elems (g : gmap nat A) :
  (i <= length elems)%nat -> (forall j, g !! j = mjoin (elems !! j)) ->
  (forall j, is_Some (g !! j) -> (j < i)%nat) ->
  is_size g (Z.to_nat (arraylist_shrink i elems (Z.of_nat i))) /\
  0 <= arraylist_shrink i elems (Z.of_nat i) <= Z.of_nat i.
Proof.
  intros Hi Hg. induction i as [|i IH]; intros Hs; [split; [split; [done|by left]|simpl; lia]|].
  simpl. destruct (lookup_lt_is_Some_2 elems i) as [x Hx]; [lia|]. rewrite Hx. destruct x as [p|].
  - split; [|lia]. split; [intros j Hj%Hs; lia|]. right.
    replace (Z.to_nat (Z.of_nat (S i)) - 1)%nat with i by lia. rewrite Hg Hx. simpl. eauto.
  - replace (Z.of_nat (S i) - 1) with (Z.of_nat i) by lia. destruct IH as [IH1 IH2]; [lia| |split; [done|lia]].
    intros j Hj. specialize (Hs j Hj). destruct (decide (j = i)) as [->|]; [|lia].
    rewrite Hg Hx in Hj. by destruct Hj.
Qed.

Lemma arraylist_remove_ok arr g pos :
  al_repr arr g -> 0 <= pos ->
  exists arr', arraylist_remove arr pos = Some (arr', g !! Z.to_nat pos) /\
    al_repr arr' (delete (Z.to_nat pos) g) /\ al_size arr' <= al_size arr.
Proof.
  intros Hr Hp. pose proof (al_size_cap _ _ Hr) as Hcap. unfold arraylist_remove. rewrite (al_get_ok _ _ _ Hr Hp). simpl.
  destruct (g !! Z.to_nat pos) as [p|] eqn:He.
  2: { exists arr. split; [done|]. rewrite delete_id //. }
  destruct Hr as [Hl Hc Hg [[Hs HL] H0]]. pose proof (Hs (Z.to_nat pos) ltac:(eauto)) as Hlt.
  eexists. split; [done|].
  assert (forall j, delete (Z.to_nat pos) g !! j = mjoin (<[Z.to_nat pos := None]> (al_elems arr) !! j)) as Hg'.
  { intros j. destruct (decide (j = Z.to_nat pos)) as [->|Hne].
    - rewrite lookup_delete_eq list_lookup_insert_eq //. lia.
    - rewrite lookup_delete_ne // list_lookup_insert_ne //. }
  assert (is_size (delete (Z.to_nat pos) g) (Z.to_nat (if pos + 1 =? al_size arr
      then arraylist_shrink (Z.to_nat pos) (<[Z.to_nat pos := None]> (al_elems arr)) (al_size arr - 1)
      else al_size arr)) /\ 0 <= (if pos + 1 =? al_size arr
      then arraylist_shrink (Z.to_nat pos) (<[Z.to_nat pos := None]> (al_elems arr)) (al_size arr - 1)
      else al_size arr) <= al_size arr) as [Hsz Hb].
  { destruct (pos + 1 =? al_size arr) eqn:Hlast; zbool.
    - rewrite -Hlast. replace (pos + 1 - 1) with (Z.of_nat (Z.to_nat pos)) by lia.
      edestruct (arraylist_shrink_ok (Z.to_nat pos)) as [Hs1 Hs2]; [|exact Hg'| |split; [exact Hs1|lia]].
      + rewrite length_insert. lia.
      + intros j [Hne Hj%Hs]%lookup_delete_is_Some. lia.
    - split; [|lia]. split; [intros j [_ Hj%Hs]%lookup_delete_is_Some; lia|]. destruct HL as [HL|HL]; [by left|right].
      apply lookup_delete_is_Some. split; [lia|done]. }
  split; [|simpl; lia]. split; simpl; [by rewrite length_insert|lia|done|]. split; [done|lia].
Qed.

Definition al_op_ok (bound : Z) (op : al_op) : Prop :=
  match op with
  | AlInsert pos _ => 0 <= pos < bound
  | AlRemove pos | AlGet pos => 0 <= pos
  | AlAdd _ | AlSize => True
  end.

Lemma al_step_ok m arr g op bound :
  al_repr arr g -> al_op_ok bound op -> al_size arr <= bound -> 2 * bound <= INT_MAX -> mem_plenty m ->
  exists m' arr', al_step m arr op = Some (m', arr', (spec_step g op).2) /\ mem_plenty m' /\
    al_repr arr' (spec_step g op).1 /\ al_size arr' <= bound + 1.
Proof.
  intros Hr Hop Hsz Hb Hm. pose proof (al_repr_map_size _ _ Hr) as Hms. pose proof Hr as [_ _ _ [_ H0]].
  destruct op as [pos e|e|pos|pos|]; simpl in *.
  - destruct (arraylist_insert_ok m arr g pos e Hr) as (m' & arr' & fr & rc & -> & _ & Hpl & Hc); [lia..|].
    destruct (Hpl Hm) as [Hm' ->]. destruct Hc as [[? _]|(_ & -> & Hr' & Hs')]; [done|].
    exists m', arr'. simpl. split_and!; [done..|lia].
  - unfold arraylist_add.
    destruct (arraylist_insert_ok m arr g (al_size arr) e Hr) as (m' & arr' & fr & rc & -> & _ & Hpl & Hc); [lia..|].
    destruct (Hpl Hm) as [Hm' ->]. destruct Hc as [[? _]|(_ & -> & Hr' & Hs')]; [done|].
    exists m', arr'. simpl. replace (Z.to_nat (al_size arr)) with (map_size g) in * by lia. rewrite -Hms.
    split_and!; [done..|lia].
  - destruct (arraylist_remove_ok arr g pos Hr Hop) as (arr' & -> & Hr' & Hs'). exists m, arr'.
    split_and!; [done..|lia].
  - change (arraylist_get (Some arr) pos) with (arraylist_get (Some arr) pos).
    pose proof (al_get_ok _ _ _ Hr Hop) as Hget. simpl in Hget. rewrite Hget. exists m, arr.
    split_and!; [done..|lia].
  - exists m, arr. rewrite -Hms. split_and!; [done..|lia].
Qed.

Lemma al_run_ok ops : forall m arr g bound,
  al_repr arr g -> Forall (al_op_ok bound) ops -> al_size arr <= bound ->
  2 * (bound + Z.of_nat (length ops)) <= INT_MAX -> mem_plenty m ->
  exists m' arr', al_run m arr ops = Some (m', arr', (spec_run g ops).2) /\ al_repr arr' (spec_run g ops).1.
Proof.
  induction ops as [|op ops IH]; intros m arr g bound Hr Hops Hsz Hb Hm; [by exists m, arr|].
  apply Forall_cons in Hops as [Hop Hops]. cbn [length] in Hb.
  destruct (al_step_ok m arr g op bound Hr Hop Hsz ltac:(lia) Hm) as (m1 & arr1 & H1 & Hm1 & Hr1 & Hs1).
  destruct (spec_step g op) as [g1 o] eqn:Hg1. simpl in *.
  destruct (IH m1 arr1 g1 (bound + 1)) as (m2 & arr2 & H2 & Hr2); [done| |done|lia|done|].
  { eapply Forall_impl; [done|]. intros []; simpl; lia. }
  destruct (spec_run g1 ops) as [g2 os] eqn:Hg2. exists m2, arr2. rewrite Hg1 H1 /= Hg2 H2. done.
Qed.

Lemma arraylist_create_ok m capacity :
  0 <= capacity ->
  let '(m', r) := arraylist_create m capacity in
  mem_next m <= mem_next m' /\ (mem_plenty m -> mem_plenty m' /\ r <> None) /\
  forall arr, r = Some arr -> al_repr arr ∅.
Proof.
  intros Hc. unfold arraylist_create. destruct (calloc m) as [[a|] m1] eqn:H1; pose proof (calloc_next _ _ _ H1).
  2:{ split_and!; [lia| |done]. intros (? & ? & _)%calloc_plenty. congruence. }
  set (cap := if negb (capacity =? 0) then capacity else ARRAYLIST_CAPACITY).
  assert (1 <= cap) as Hcap. { unfold cap, ARRAYLIST_CAPACITY. destruct (capacity =? 0) eqn:?; simpl; zbool; lia. }
  rewrite (proj2 (Z.ltb_ge cap 0)); [lia|].
  destruct (calloc m1) as [[b|] m2] eqn:H2; pose proof (calloc_next _ _ _ H2); (split; [lia|]).
  2:{ split; [|done]. intros (m1' & ? & Hp & _)%calloc_plenty. assert (m1' = m1) as -> by congruence.
      apply calloc_plenty in Hp as (? & ? & _). congruence. }
  split.
  - intros (m1' & ? & Hp & _)%calloc_plenty. assert (m1' = m1) as -> by congruence.
    apply calloc_plenty in Hp as (? & ? & ? & _). split; congruence.
  - intros ? [= <-]. split; simpl; [rewrite length_replicate; lia|done| |].
    + intros j. rewrite lookup_empty. destruct (replicate _ _ !! j) as [x|] eqn:Hx; [|done].
      by apply lookup_replicate in Hx as [-> _].
    + split; [|lia]. split; [|by left]. intros j [x Hx]. by rewrite lookup_empty in Hx.
Qed.

(** Adding to a list that may fail to grow. *)
Lemma arraylist_add_repr m arr g e m' arr' freed rc :
  al_repr arr g -> arraylist_add m arr (Some e) = Some (m', arr', freed, rc) ->
  mem_next m <= mem_next m' /\ exists g', al_repr arr' g'.
Proof.
  intros Hr. pose proof Hr as [_ Hcap _ [_ H0]]. unfold arraylist_add.
  destruct (arraylist_insert m arr (al_size arr) (Some e)) as [[[[m1 a1] f1] r1]|] eqn:Hi; [|done].
  intros [= <- <- <- _].
  destruct (arraylist_insert_ok m arr g (al_size arr) e Hr H0) as (m2 & a2 & f2 & r2 & Hi' & Hn & _ & Hc).
  - intros Hfull. unfold arraylist_insert, arraylist_grow in Hi.
    rewrite Z.geb_leb (proj2 (Z.leb_le _ _) Hfull) in Hi. destruct (2 * al_size arr >? INT_MAX) eqn:Hov; [done|].
    zbool. lia.
  - rewrite Hi in Hi'. injection Hi' as -> -> -> ->. split; [done|].
    destruct Hc as [(_ & -> & _)|(_ & _ & ? & _)]; eauto.
Qed.

(** An array list behaves like a finite map from indices to objects.  From
    [arraylist_create] on, while allocations succeed and the indices stay
    below 2{^30}, every sequence of insertions, additions, removals, lookups
    and size queries stays inside the array and returns what the map returns:
    the same objects, indices and sizes, and the same objects are freed. *)
Theorem arraylist_refines_map m capacity bound ops :
  0 <= capacity -> mem_plenty m -> 0 <= bound -> Forall (al_op_ok bound) ops ->
  2 * (bound + Z.of_nat (length ops)) <= INT_MAX ->
  exists m' arr m'' arr', arraylist_create m capacity = (m', Some arr) /\
    al_run m' arr ops = Some (m'', arr', (spec_run ∅ ops).2).
Proof.
  intros Hc Hm Hb Hops Hmax. pose proof (arraylist_create_ok m capacity Hc) as H1.
  destruct (arraylist_create m capacity) as [m1 [arr|]]; destruct H1 as (_ & Hpl & Hr);
    destruct (Hpl Hm) as [Hm1 ?]; [|done]. specialize (Hr arr eq_refl).
  assert (al_size arr <= bound) as Hsz. { rewrite (al_repr_map_size _ _ Hr). done. }
  destruct (al_run_ok ops m1 arr ∅ bound Hr Hops Hsz Hmax Hm1) as (m2 & arr2 & H2 & _).
  by exists m1, arr, m2, arr2.
Qed.

End Operations.

(** ** The entries of a list *)

Lemma arraylist_create_le {A} m cap : mem_le m (arraylist_create (A := A) m cap).1.
Proof.
  unfold arraylist_create. calloc_step. destruct p; [|mem_chain]. set (c := if negb _ then _ else _).
  destruct (c <? 0); [mem_chain|]. calloc_step. destruct p; mem_chain.
Qed.

Lemma arraylist_create_elems {A} m cap (l : arraylist_t A) x :
  (arraylist_create m cap).2 = Some l -> Some x ∉ al_elems l.
Proof.
  unfold arraylist_create. calloc_step. destruct p; [|done]. set (c := if negb _ then _ else _).
  destruct (c <? 0); [done|]. calloc_step. destruct p; [|done]. intros [= <-]. simpl.
  intros [? _]%elem_of_replicate. done.
Qed.

Lemma arraylist_add_elems {A} m (l : arraylist_t A) e m' l' freed rc :
  arraylist_add m l (Some e) = Some (m', l', freed, rc) ->
  mem_le m m' /\ forall x, Some x ∈ al_elems l' -> x = e \/ Some x ∈ al_elems l.
Proof.
  unfold arraylist_add, arraylist_insert, arraylist_grow.
  assert (forall m1 (l1 : arraylist_t A), mem_le m m1 -> (forall x, Some x ∈ al_elems l1 -> Some x ∈ al_elems l) ->
    ('(m2, arr2, freed2, rc2) ← (old ← al_entry (al_elems l1) (al_size l);
      Some (m1, ArrayList (al_cap l1) (if al_size l + 1 >? al_size l1 then al_size l + 1 else al_size l1)
        (<[Z.to_nat (al_size l) := Some e]> (al_elems l1)), match old with Some p => [p] | None => [] end, 0));
      Some (m2, arr2, freed2, if rc2 =? -1 then rc2 else al_size l)) = Some (m', l', freed, rc) ->
    mem_le m m' /\ forall x, Some x ∈ al_elems l' -> x = e \/ Some x ∈ al_elems l) as Hins.
  { intros m1 l1 Hm Hl. destruct (al_entry _ _); [|done]. simpl. intros [= <- <- _ _]. split; [done|]. simpl.
    intros x [j Hj]%list_elem_of_lookup. apply list_lookup_insert_Some in Hj as [(_ & [= <-] & _)|[_ Hj]]; [by left|].
    right. apply Hl. by eapply list_elem_of_lookup_2. }
  destruct (_ >=? _); [|apply (Hins m l); [reflexivity|done]].
  destruct (_ >? INT_MAX); [done|]. calloc_step. destruct p; simpl.
  - apply (Hins m0 (ArrayList _ _ _)); [done|]. simpl. intros x [?|[? _]%elem_of_replicate]%elem_of_app; done.
  - intros [= <- <- _ _]. split; [done|]. auto.
Qed.

Lemma arraylist_remove_elems {A} (l : arraylist_t A) pos l' r x :
  arraylist_remove l pos = Some (l', r) -> Some x ∈ al_elems l' -> Some x ∈ al_elems l.
Proof.
  unfold arraylist_remove. destruct (arraylist_get _ _) as [[y|]|]; simpl; [|by intros [= <- _]|done].
  intros [= <- _]. simpl. intros [j Hj]%list_elem_of_lookup. apply list_lookup_insert_Some in Hj as [(_ & ? & _)|[_ Hj]]; [done|].
  by eapply list_elem_of_lookup_2.
Qed.

Arguments AlInsert {A}.
Arguments AlAdd {A}.
Arguments AlRemove {A}.
Arguments AlGet {A}.
Arguments AlSize {A}.

Lemma arraylist_refines_map_witness :
  exists m' arr m'' arr', arraylist_create (Mem 1 []) 1 = (m', Some arr) /\
    al_run m' arr [AlAdd 70; AlAdd 71; AlInsert 3 72; AlRemove 1; AlInsert 0 73; AlRemove 3; AlSize] =
    Some (m'', arr', [([], 0, None); ([], 1, None); ([], 0, None); ([], 0, Some 71); ([70], 0, None);
      ([], 0, Some 72); ([], 1, None)]).
Proof.
  destruct (arraylist_refines_map (Mem 1 []) 1 4
    [AlAdd 70; AlAdd 71; AlInsert 3 72; AlRemove 1; AlInsert 0 73; AlRemove 3; AlSize])
    as (m' & arr & m'' & arr' & H1 & H2); [lia|constructor|lia| |by vm_compute|].
  - repeat constructor; simpl; lia.
  - exists m', arr, m'', arr'. split; [exact H1|]. rewrite H2. by vm_compute.
Defined.

(** After [arraylist_reset] the entries are still there: an insertion past the
    new end brings an object back that the list no longer counted. *)
Lemma arraylist_reset_keeps_entries :
  let arr := ArrayList 4 2 [Some 70; Some 71; None; None] in
  match arraylist_insert (Mem 1 []) (arraylist_reset arr).1 2 (Some 72) with
  | Some (_, arr', _, _) => arraylist_get (Some arr') 0 = Some (Some 70)
  | None => False
  end.
Proof. by vm_compute. Qed.
