(* ===== verification/Meta.v ===== *)
(** * File metadata ([common/src/unifyfs_meta.h], [unifyfs_meta.c])

    The attributes of a file, the operations that update them selectively,
    their presentation as [struct stat], and the computation of global file
    identifiers from paths. *)

From Stdlib Require Import String.
From S2P Require Import Prelude.

Record timespec := Timespec { tv_sec : Z; tv_nsec : Z }.

(** [unifyfs_file_attr_t]; a filename is the string it points to. *)
Record unifyfs_file_attr_t := FileAttr {
  fa_filename : option string;
  fa_gfid : Z;
  fa_is_laminated : Z;
  fa_is_shared : Z;
  fa_mode : Z;
  fa_uid : Z;
  fa_gid : Z;
  fa_size : Z;
  fa_atime : timespec;
  fa_mtime : timespec;
  fa_ctime : timespec;
  fa_last_update : Z;
}.

(** [unifyfs_index_t]: an entry of the write index a client shares with its
    server. *)
Record unifyfs_index := UnifyfsIndex {
  ix_file_pos : Z;
  ix_log_pos : Z;
  ix_length : Z;
  ix_gfid : Z;
}.

Definition INVALID_GFID : Z := 0.

(** The value -1 of the unsigned fields. *)
Definition UINT32_INVALID : Z := 4294967295.
Definition UINT64_INVALID : Z := 18446744073709551615.

Definition unifyfs_file_attr_set_invalid : unifyfs_file_attr_t :=
  let z := Timespec 0 0 in
  FileAttr None INVALID_GFID (-1) (-1) UINT32_INVALID UINT32_INVALID UINT32_INVALID UINT64_INVALID z z z 0.

(** [unifyfs_file_attr_op_e] *)
Definition ATTR_OP_INVALID : Z := 0.
Definition ATTR_OP_CHGRP : Z := 1.
Definition ATTR_OP_CHMOD : Z := 2.
Definition ATTR_OP_CHOWN : Z := 3.
Definition ATTR_OP_CREATE : Z := 4.
Definition ATTR_OP_DATA : Z := 5.
Definition ATTR_OP_LAMINATE : Z := 6.
Definition ATTR_OP_TRUNCATE : Z := 7.
Definition ATTR_OP_UTIME : Z := 8.

(** The operation is one of those listed. *)
Definition op_in (op : Z) (ops : list Z) : bool := existsb (Z.eqb op) ops.

(** [dst->field = src->field] when the value is valid and the operation is one
    that sets the field. *)
Definition set_field {A} (valid : bool) (op : Z) (ops : list Z) (src dst : A) : A :=
  if valid && op_in op ops then src else dst.

Definition strdup (m : mem) (s : string) : mem * option string :=
  let '(p, m) := calloc m in (m, match p with Some _ => Some s | None => None end).

(** [now] is the second [clock_gettime] reads.  Both pointers are valid. *)
Definition unifyfs_file_attr_update (now : Z) (m : mem) (attr_op : Z) (dst src : unifyfs_file_attr_t)
    : mem * unifyfs_file_attr_t * Z :=
  if (attr_op =? ATTR_OP_INVALID) || (fa_gfid src =? INVALID_GFID) then (m, dst, EINVAL)
  else
    let set {A} (valid : bool) (ops : list Z) (f : unifyfs_file_attr_t -> A) : A :=
      set_field valid attr_op ops (f src) (f dst) in
    let '(m, filename) :=
      match fa_filename src, fa_filename dst with
      | Some s, None => strdup m s
      | _, old => (m, old)
      end in
    (m,
     FileAttr filename
       (if attr_op =? ATTR_OP_CREATE then fa_gfid src else fa_gfid dst)
       (set (negb (fa_is_laminated src =? -1)) [ATTR_OP_CREATE; ATTR_OP_LAMINATE] fa_is_laminated)
       (set (negb (fa_is_shared src =? -1)) [ATTR_OP_CREATE] fa_is_shared)
       (set (negb (fa_mode src =? UINT32_INVALID)) [ATTR_OP_CHMOD; ATTR_OP_CREATE; ATTR_OP_LAMINATE] fa_mode)
       (set (negb (fa_uid src =? UINT32_INVALID)) [ATTR_OP_CHOWN; ATTR_OP_CREATE] fa_uid)
       (set (negb (fa_gid src =? UINT32_INVALID)) [ATTR_OP_CHGRP; ATTR_OP_CREATE] fa_gid)
       (set (negb (fa_size src =? UINT64_INVALID))
          [ATTR_OP_CREATE; ATTR_OP_DATA; ATTR_OP_LAMINATE; ATTR_OP_TRUNCATE] fa_size)
       (set (negb (tv_sec (fa_atime src) =? 0)) [ATTR_OP_CREATE; ATTR_OP_UTIME] fa_atime)
       (set (negb (tv_sec (fa_mtime src) =? 0))
          [ATTR_OP_CREATE; ATTR_OP_UTIME; ATTR_OP_DATA; ATTR_OP_LAMINATE; ATTR_OP_TRUNCATE] fa_mtime)
       (set (negb (tv_sec (fa_ctime src) =? 0))
          [ATTR_OP_CHGRP; ATTR_OP_CHMOD; ATTR_OP_CHOWN; ATTR_OP_CREATE; ATTR_OP_DATA; ATTR_OP_LAMINATE] fa_ctime)
       now,
     0).

(** The fields of [struct stat] that [unifyfs_file_attr_to_stat] sets. *)
Record stat := Stat {
  st_dev : Z; st_ino : Z; st_mode : Z; st_uid : Z; st_gid : Z; st_rdev : Z; st_size : Z;
  st_blksize : Z; st_blocks : Z; st_nlink : Z;
  st_atim : timespec; st_mtim : timespec; st_ctim : timespec;
}.

Definition UNIFYFS_STAT_DEFAULT_DEV : Z := 0.
Definition UNIFYFS_STAT_DEFAULT_BLKSIZE : Z := 4096.

Definition unifyfs_file_attr_to_stat (fattr : unifyfs_file_attr_t) : stat :=
  let blocks := fa_size fattr / UNIFYFS_STAT_DEFAULT_BLKSIZE in
  Stat UNIFYFS_STAT_DEFAULT_DEV (fa_gfid fattr) (fa_mode fattr) (fa_uid fattr) (fa_gid fattr)
    UNIFYFS_STAT_DEFAULT_DEV (fa_size fattr)
    UNIFYFS_STAT_DEFAULT_BLKSIZE
    (if fa_size fattr mod UNIFYFS_STAT_DEFAULT_BLKSIZE >? 0 then blocks + 1 else blocks)
    (if negb (fa_is_laminated fattr =? 0) then 1 else 0)
    (fa_atime fattr) (fa_mtime fattr) (fa_ctime fattr).

(** [mask] is the file mode creation mask of the process: the two calls of
    [umask] read it and put it back. *)
Definition unifyfs_getmode (mask perms : Z) : Z :=
  let perms := if perms =? 0 then 438 else perms in      (* 0666 *)
  Z.land (Z.land perms 511) (Z.lnot mask).               (* 0777 *)

(** [slice_sz] is the global [meta_slice_sz]. *)
Definition meta_num_slices (slice_sz offset length : Z) : Z :=
  let start := offset / slice_sz in
  let end_ := (offset ⊞ length ⊟ 1) / slice_sz in
  end_ ⊟ start ⊞ 1.

(** The first 8 bytes of the MD5 digest of a path, as a big-endian number;
    [md5] is the digest function of OpenSSL. *)
Definition compute_path_md5 (md5 : string -> list Z) (path : string) : Z :=
  fold_left (fun acc b => acc * 256 + b) (take 8 (md5 path)) 0.

Definition unifyfs_generate_gfid (md5 : string -> list Z) (path : string) : Z :=
  let hash64 := compute_path_md5 md5 path in
  let hash32 := u32 (Z.shiftr hash64 32) in
  Z.shiftr hash32 1.

(** ** Properties *)

(** A time without seconds is "not set". *)
Definition time_ok (t : timespec) : Prop := tv_sec t = 0 -> tv_nsec t = 0.

Lemma set_field_valid {A} (valid : bool) op ops (src dst : A) :
  op_in op ops = true -> (valid = false -> src = dst) -> set_field valid op ops src dst = src.
Proof. intros Hop Hv. unfold set_field. rewrite Hop. destruct valid; simpl; [done|symmetry; auto]. Qed.

Lemma set_field_other {A} (valid : bool) op ops (src dst : A) :
  op_in op ops = false -> set_field valid op ops src dst = dst.
Proof. intros Hop. unfold set_field. by rewrite Hop andb_false_r. Qed.

Lemma set_field_idem {A} (valid : bool) op ops (src dst : A) :
  set_field valid op ops src (set_field valid op ops src dst) = set_field valid op ops src dst.
Proof. unfold set_field. by destruct (valid && op_in op ops). Qed.

Lemma strdup_plenty m s : mem_plenty m -> exists m', strdup m s = (m', Some s) /\ mem_plenty m'.
Proof. intros Hm. unfold strdup. destruct (calloc_plenty m Hm) as (m' & -> & ? & _). eauto. Qed.

Lemma negb_eqb_false a b : negb (a =? b) = false -> a = b.
Proof. intros H%negb_false_iff. by apply Z.eqb_eq. Qed.

Lemma time_zero t : time_ok t -> tv_sec t = 0 -> t = Timespec 0 0.
Proof. destruct t as [s n]. unfold time_ok. simpl. intros H ->. by rewrite H. Qed.

(** A new file gets the attributes it was created with: updating freshly
    invalidated attributes with the operation CREATE succeeds and copies every
    field of the source, valid or not, except for the time of the update,
    which is the current one.  Updating again with the same source changes
    nothing else. *)
Theorem file_attr_create_copies now now' m src :
  mem_plenty m -> fa_gfid src <> INVALID_GFID ->
  time_ok (fa_atime src) -> time_ok (fa_mtime src) -> time_ok (fa_ctime src) ->
  exists m' attr, unifyfs_file_attr_update now m ATTR_OP_CREATE unifyfs_file_attr_set_invalid src = (m', attr, 0) /\
    (forall f, f ∈ [fa_gfid; fa_is_laminated; fa_is_shared; fa_mode; fa_uid; fa_gid; fa_size] -> f attr = f src) /\
    fa_filename attr = fa_filename src /\
    (forall f, f ∈ [fa_atime; fa_mtime; fa_ctime] -> f attr = f src) /\
    fa_last_update attr = now /\
    exists attr', unifyfs_file_attr_update now' m' ATTR_OP_CREATE attr src = (m', attr', 0) /\
      unifyfs_file_attr_to_stat attr' = unifyfs_file_attr_to_stat attr /\ fa_last_update attr' = now'.
Proof.
  intros Hm Hg Ha Hmt Hc. unfold unifyfs_file_attr_update. rewrite (proj2 (Z.eqb_neq _ _) Hg). simpl.
  assert (exists m1, (match fa_filename src with Some s => strdup m s | None => (m, None) end) =
    (m1, fa_filename src)) as [m1 ->].
  { destruct (fa_filename src); [|eauto]. destruct (strdup_plenty m s Hm) as (m1 & -> & _). eauto. }
  eexists m1, _. split; [done|]. simpl. split_and!; [|done| |done|].
  - intros f Hf. rewrite !elem_of_cons elem_of_nil in Hf.
    destruct Hf as [->|[->|[->|[->|[->|[->|[->|[]]]]]]]]; simpl; try done;
      (apply set_field_valid; [done|by intros ?%negb_eqb_false]).
  - intros f Hf. rewrite !elem_of_cons elem_of_nil in Hf.
    destruct Hf as [->|[->|[->|[]]]]; simpl; (apply set_field_valid; [done|intros ?%negb_eqb_false; by apply time_zero]).
  - destruct (fa_filename src); (eexists; split; [done|]; split; [|done]);
      unfold unifyfs_file_attr_to_stat; simpl; by rewrite !set_field_idem.
Qed.

(** Global file identifiers are non-negative 31-bit numbers, so that the
    conversion to [int] keeps them and no identifier is negative. *)
Theorem gfid_in_range md5 path :
  Forall (fun b => 0 <= b < 256) (md5 path) -> Datatypes.length (md5 path) = 16%nat ->
  0 <= compute_path_md5 md5 path < 2 ^ 64 /\ 0 <= unifyfs_generate_gfid md5 path < 2 ^ 31.
Proof.
  intros Hb Hl. assert (forall l acc, Forall (fun b => 0 <= b < 256) l -> 0 <= acc ->
    0 <= fold_left (fun acc b => acc * 256 + b) l acc < (acc + 1) * 256 ^ Z.of_nat (Datatypes.length l)) as Hf.
  { induction l as [|b l IH]; intros acc Hl' Hacc; cbn [fold_left Datatypes.length]; [lia|].
    apply Forall_cons in Hl' as [Hbb Hl']. specialize (IH (acc * 256 + b) Hl' ltac:(lia)).
    rewrite Nat2Z.inj_succ Z.pow_succ_r; [lia|]. assert (0 < 256 ^ Z.of_nat (Datatypes.length l)) by lia. nia. }
  assert (0 <= compute_path_md5 md5 path < 2 ^ 64) as Hh.
  { pose proof (Hf (take 8 (md5 path)) 0 ltac:(by apply Forall_take) ltac:(lia)) as H.
    rewrite length_take Hl in H. unfold compute_path_md5. simpl in H. lia. }
  split; [done|]. unfold unifyfs_generate_gfid. rewrite !Z.shiftr_div_pow2; [lia..|]. unfold u32.
  set (h := compute_path_md5 md5 path) in *. Z.div_mod_to_equations. lia.
Qed.

(** The number of slices is the number of multiples of the slice size whose
    slice meets the extent. *)
Lemma meta_num_slices_count slice_sz offset length :
  0 < slice_sz -> 0 <= offset -> 0 < length -> offset + length <= ULONG_MAX ->
  forall s, (offset / slice_sz <= s < offset / slice_sz + meta_num_slices slice_sz offset length) <->
    exists b, offset <= b < offset + length /\ s = b / slice_sz.
Proof.
  intros Hs Ho Hlen Hmax s. unfold meta_num_slices. cbn zeta.
  rewrite (u64_small (offset + length)); [unfold is_u64; lia|].
  rewrite (u64_small (offset + length - 1)); [unfold is_u64; lia|].
  pose proof (Z.div_le_mono offset (offset + length - 1) slice_sz Hs ltac:(lia)) as Hle.
  pose proof (Z.div_pos offset slice_sz Ho Hs).
  assert ((offset + length - 1) / slice_sz <= offset + length - 1) by (apply Z.div_le_upper_bound; nia).
  rewrite (u64_small (_ / _ - _)); [unfold is_u64; lia|]. rewrite u64_small; [unfold is_u64; lia|]. split.
  - intros Hr. exists (Z.max offset (s * slice_sz)).
    assert (s <= (offset + length - 1) / slice_sz) as Hs1 by lia.
    assert (s * slice_sz <= offset + length - 1) by (pose proof (Z.mul_div_le (offset + length - 1) slice_sz Hs); nia).
    split; [lia|]. destruct (Z.max_spec offset (s * slice_sz)) as [[? ->]|[? ->]].
    + by rewrite Z.div_mul; [lia|].
    + apply Z.le_antisymm; [apply Z.div_le_lower_bound; lia|]. lia.
  - intros (b & Hb & ->). pose proof (Z.div_le_mono offset b slice_sz Hs ltac:(lia)).
    pose proof (Z.div_le_mono b (offset + length - 1) slice_sz Hs ltac:(lia)). lia.
Qed.

Lemma file_attr_create_copies_witness :
  exists m' attr, unifyfs_file_attr_update 100 (Mem 1 []) ATTR_OP_CREATE unifyfs_file_attr_set_invalid
    (FileAttr (Some "/unifyfs/a"%string) 7 0 (-1) 33188 10 20 0 (Timespec 5 1) (Timespec 5 2) (Timespec 0 0) 0) =
    (m', attr, 0) /\ fa_gfid attr = 7.
Proof.
  destruct (file_attr_create_copies 100 101 (Mem 1 [])
    (FileAttr (Some "/unifyfs/a"%string) 7 0 (-1) 33188 10 20 0 (Timespec 5 1) (Timespec 5 2) (Timespec 0 0) 0))
    as (m' & attr & H1 & H2 & _); [constructor|done|by intros ?..|].
  exists m', attr. split; [exact H1|]. apply (H2 fa_gfid). by constructor.
Defined.

Lemma gfid_in_range_witness :
  0 <= unifyfs_generate_gfid (fun _ => [212; 29; 140; 217; 143; 0; 178; 4; 233; 128; 9; 152; 236; 248; 66; 126]) EmptyString < 2 ^ 31.
Proof.
  destruct (gfid_in_range (fun _ => [212; 29; 140; 217; 143; 0; 178; 4; 233; 128; 9; 152; 236; 248; 66; 126]) EmptyString)
    as [_ H]; [repeat constructor; lia|done|exact H].
Defined.

(** Nothing excludes the identifier 0, which means "no file": any digest whose
    first 31 bits are 0 gives it. *)
Lemma gfid_can_be_invalid md5 path :
  take 4 (md5 path) = [0; 0; 0; 1] -> Datatypes.length (md5 path) = 16%nat ->
  Forall (fun b => 0 <= b < 256) (md5 path) -> unifyfs_generate_gfid md5 path = INVALID_GFID.
Proof.
  intros H4 Hl Hb. destruct (md5 path) as [|b0 [|b1 [|b2 [|b3 l]]]] eqn:Hd; [done..|].
  injection H4 as -> -> -> ->. do 5 (destruct l as [|? l]; [done|]). clear Hl.
  repeat (apply Forall_cons in Hb as [? Hb]). unfold unifyfs_generate_gfid, compute_path_md5. rewrite Hd. simpl.
  rewrite !Z.shiftr_div_pow2; [lia..|]. unfold u32, INVALID_GFID. Z.div_mod_to_equations. lia.
Qed.
