(* ===== verification/AppTable.v ===== *)
(** * Applications and clients of a server ([server/src/unifyfs_server.c])

    A server keeps a table of applications (one per mount point), each with an
    array of its clients.  A client id is the index of the client in that array
    plus one.  Handlers reach a client's state, in particular the write log the
    client shares with the server, through [get_app_client]. *)

From S2P Require Import Prelude.
From S2P Require Import LogIO.

Definition UNIFYFS_SERVER_MAX_NUM_APPS : nat := 64.

(** Of a client's state: its ids, its write log, and whether it is attached. *)
Record app_client := AppClient {
  ac_app_id : Z;
  ac_client_id : Z;
  ac_logio_ctx : option logio_context;
  ac_initialized : bool;
}.

Record app_config := AppConfig {
  app_id : Z;
  num_clients : Z;
  clients_sz : Z;
  clients : list (option app_client);
}.

(** [app_configs]: one entry per slot. *)
Definition app_table : Type := list (option app_config).

Definition app_table_init : app_table := replicate UNIFYFS_SERVER_MAX_NUM_APPS None.

(** A pointer to an [app_config] of the table is the index of its slot. *)
Fixpoint get_application (table : app_table) (id : Z) : option nat :=
  match table with
  | [] => None
  | e :: table =>
      if match e with Some app => app_id app =? id | None => false end then Some 0%nat
      else S <$> get_application table id
  end.

(** The loop of [new_application]: the first slot that is empty or holds the
    application. *)
Fixpoint app_slot (table : app_table) (id : Z) : option nat :=
  match table with
  | [] => None
  | e :: table =>
      if match e with Some app => app_id app =? id | None => true end then Some 0%nat
      else S <$> app_slot table id
  end.

(** The table, the application (or null) and whether it was created. *)
Definition new_application (m : mem) (clients_per_app : Z) (table : app_table) (id : Z)
    : mem * app_table * option nat * bool :=
  let '(new_app, m) := calloc m in
  match new_app with
  | None => (m, table, None, false)
  | Some _ =>
      match app_slot table id with
      | None => (m, table, None, false)
      | Some i =>
          match table !! i with
          | Some (Some existing) => (m, table, Some i, false)
          | _ =>
              let '(cls, m) := calloc m in
              match cls with
              | None => (m, table, None, false)
              | Some _ =>
                  let app := AppConfig id 0 clients_per_app (replicate (Z.to_nat clients_per_app) None) in
                  (m, <[i := Some app]> table, Some i, true)
              end
          end
      end
  end.

Definition app_at (table : app_table) (i : nat) : option app_config := mjoin (table !! i).

Definition get_app_client (table : app_table) (app_id client_id : Z) : option app_client :=
  i ← get_application table app_id;
  app_cfg ← app_at table i;
  if (client_id <=? 0) || (client_id >? clients_sz app_cfg) then None
  else mjoin (clients app_cfg !! Z.to_nat (client_id - 1)).

(** Write through the pointer [get_app_client] returns. *)
Definition set_app_client (table : app_table) (app_id client_id : Z) (c : option app_client) : app_table :=
  match get_application table app_id with
  | Some i =>
      match app_at table i with
      | Some app =>
          <[i := Some (AppConfig (AppTable.app_id app) (num_clients app) (clients_sz app)
             (<[Z.to_nat (client_id - 1) := c]> (clients app)))]> table
      | None => table
      end
  | None => table
  end.

(** [addr_ok] and [reqmgr_ok]: whether the address of the client could be
    looked up and the thread of its request manager started.  [app] is an
    application of the table. *)
Definition new_app_client (m : mem) (addr_ok reqmgr_ok : bool) (table : app_table) (i : nat)
    : mem * app_table * option app_client :=
  match app_at table i with
  | None => (m, table, None)
  | Some app =>
      if num_clients app =? clients_sz app then (m, table, None)
      else
        let client_id := num_clients app + 1 in
        let client_ndx := client_id - 1 in
        let '(p, m) := calloc m in
        match p with
        | None => (m, table, None)
        | Some _ =>
            if negb (addr_ok && reqmgr_ok) then (m, table, None)
            else
              let client := AppClient (AppTable.app_id app) client_id None false in
              (m, <[i := Some (AppConfig (AppTable.app_id app) (num_clients app + 1) (clients_sz app)
                     (<[Z.to_nat client_ndx := Some client]> (clients app)))]> table, Some client)
        end
  end.

(** [logio] and [shmem_ok]: the results of [unifyfs_logio_init] and of
    attaching to the superblock.  The log stays in the client's state when the
    other step fails. *)
Definition attach_app_client (logio : option logio_context) (shmem_ok : bool) (client : app_client)
    : app_client * Z :=
  let client := AppClient (ac_app_id client) (ac_client_id client)
    (match logio with Some l => Some l | None => ac_logio_ctx client end) (ac_initialized client) in
  if match logio with Some _ => negb shmem_ok | None => true end then (client, UNIFYFS_FAILURE)
  else (AppClient (ac_app_id client) (ac_client_id client) (ac_logio_ctx client) true, UNIFYFS_SUCCESS).

Definition disconnect_app_client (client : app_client) : app_client * Z :=
  if negb (ac_initialized client) then (client, UNIFYFS_SUCCESS)
  else (AppClient (ac_app_id client) (ac_client_id client) (ac_logio_ctx client) false, UNIFYFS_SUCCESS).

(** The client leaves the array; its log is closed and its structure freed.
    [rm_rc] is the result of stopping its request manager. *)
Definition cleanup_app_client (rm_rc : Z) (table : app_table) (client : app_client) : app_table * Z :=
  (set_app_client table (ac_app_id client) (ac_client_id client) None,
   if negb (rm_rc =? 0) then rm_rc else UNIFYFS_SUCCESS).

(** ** Reachable tables *)

(** A table and the ids handed out so far, in any application. *)
Inductive app_reach (clients_per_app : Z) : app_table -> list (Z * Z) -> Prop :=
| app_reach_init : app_reach clients_per_app app_table_init []
| app_reach_app m m' table ids id table' r created :
    app_reach clients_per_app table ids ->
    new_application m clients_per_app table id = (m', table', r, created) ->
    app_reach clients_per_app table' ids
| app_reach_client m m' a r table ids i table' c :
    app_reach clients_per_app table ids ->
    new_app_client m a r table i = (m', table', Some c) ->
    app_reach clients_per_app table' ((ac_app_id c, ac_client_id c) :: ids)
| app_reach_update table ids id cid c c' :
    app_reach clients_per_app table ids -> get_app_client table id cid = Some c ->
    ac_app_id c' = ac_app_id c -> ac_client_id c' = ac_client_id c ->
    app_reach clients_per_app (set_app_client table id cid (Some c')) ids
| app_reach_cleanup rc table ids id cid c :
    app_reach clients_per_app table ids -> get_app_client table id cid = Some c ->
    app_reach clients_per_app (cleanup_app_client rc table c).1 ids.

Record app_wf (ids : list (Z * Z)) (app : app_config) : Prop := {
  app_wf_num : 0 <= num_clients app <= clients_sz app;
  app_wf_len : Z.of_nat (length (clients app)) = clients_sz app;
  app_wf_client j c : clients app !! j = Some (Some c) ->
    ac_app_id c = app_id app /\ ac_client_id c = Z.of_nat j + 1;
  app_wf_ids cid : (app_id app, cid) ∈ ids <-> 0 < cid <= num_clients app;
  app_wf_issued j c : clients app !! j = Some (Some c) -> (app_id app, Z.of_nat j + 1) ∈ ids;
}.

Record table_wf (table : app_table) (ids : list (Z * Z)) : Prop := {
  table_wf_app i app : table !! i = Some (Some app) -> app_wf ids app;
  table_wf_inj i j app app' : table !! i = Some (Some app) -> table !! j = Some (Some app') ->
    app_id app = app_id app' -> i = j;
  table_wf_prefix i j app : table !! i = Some (Some app) -> (j < i)%nat -> exists app', table !! j = Some (Some app');
  table_wf_ids id cid : (id, cid) ∈ ids -> exists i app, table !! i = Some (Some app) /\ app_id app = id;
}.

Lemma get_application_some table id i :
  get_application table id = Some i -> exists app, table !! i = Some (Some app) /\ app_id app = id.
Proof.
  revert i. induction table as [|e table IH]; intros i; simpl; [done|].
  destruct e as [app|]; [destruct (app_id app =? id) eqn:He|]; zbool.
  - intros [= <-]. eauto.
  - intros (j & Hj & ->)%fmap_Some. by apply IH.
  - intros (j & Hj & ->)%fmap_Some. by apply IH.
Qed.

Lemma get_application_none table id :
  get_application table id = None -> forall i app, table !! i = Some (Some app) -> app_id app <> id.
Proof.
  induction table as [|e table IH]; simpl; [done|].
  destruct e as [app'|]; [destruct (app_id app' =? id) eqn:He; [done|]|]; zbool;
    intros Hn%fmap_None [|i] app; simpl; try (intros [= ->]; done); by apply IH.
Qed.

Lemma get_application_unique table ids i app :
  table_wf table ids -> table !! i = Some (Some app) -> get_application table (app_id app) = Some i.
Proof.
  intros Hwf Hi. destruct (get_application table (app_id app)) as [j|] eqn:Hg.
  - apply get_application_some in Hg as (app' & Hj & He). f_equal. by eapply table_wf_inj.
  - exfalso. by eapply get_application_none.
Qed.

Lemma app_slot_some table id i :
  app_slot table id = Some i ->
  (forall j app, table !! j = Some (Some app) -> (j < i)%nat -> app_id app <> id) /\
  (forall j, (j < i)%nat -> exists app, table !! j = Some (Some app)) /\
  (table !! i = Some None \/ exists app, table !! i = Some (Some app) /\ app_id app = id).
Proof.
  revert i. induction table as [|e table IH]; intros i; simpl; [done|].
  destruct e as [app|]; [destruct (app_id app =? id) eqn:He|]; zbool.
  - intros [= <-]. split_and!; [intros; lia..|]. right. eauto.
  - intros (i' & Hi & ->)%fmap_Some. destruct (IH i' Hi) as (H1 & H2 & H3). split_and!.
    + intros [|j] app'; simpl; [by intros [= <-]|]. intros ? ?. eapply H1; [done|lia].
    + intros [|j] Hj; simpl; [eauto|]. apply H2. lia.
    + done.
  - intros [= <-]. split_and!; [intros; lia..|]. by left.
Qed.

Lemma table_lookup_set (table : app_table) (i : nat) (app app' x : app_config) (j : nat) :
  table !! i = Some (Some app) ->
  <[i := Some app']> table !! j = Some (Some x) <-> (j = i /\ x = app' \/ j <> i /\ table !! j = Some (Some x)).
Proof.
  intros Hi. pose proof (lookup_lt_Some _ _ _ Hi). rewrite list_lookup_insert_Some. naive_solver.
Qed.

Lemma app_wf_other ids ids' app :
  (forall cid, (app_id app, cid) ∈ ids' <-> (app_id app, cid) ∈ ids) -> app_wf ids app -> app_wf ids' app.
Proof.
  intros Hids [H1 H2 H3 H4 H5]. split; [done..| |].
  - intros cid. by rewrite Hids.
  - intros j c Hj. apply Hids. eauto.
Qed.

(** Replacing an application by another state of it. *)
Lemma table_wf_set table ids ids' i app app' :
  table_wf table ids -> table !! i = Some (Some app) -> app_id app' = app_id app -> app_wf ids' app' ->
  (forall id cid, id <> app_id app -> (id, cid) ∈ ids' <-> (id, cid) ∈ ids) ->
  table_wf (<[i := Some app']> table) ids'.
Proof.
  intros [Ha Hj Hp Hids] Hi Hid Hwf Hoth. split.
  - intros j x [[-> ->]|[Hne Hx]]%(table_lookup_set _ _ app); [done| |done].
    apply (app_wf_other ids); [|by eapply Ha]. intros cid. apply Hoth.
    intros He. apply Hne. by eapply Hj.
  - intros j k x y [[-> ->]|[Hne Hx]]%(table_lookup_set _ _ app) [[-> ->]|[Hne' Hy]]%(table_lookup_set _ _ app) He;
      try done.
    + rewrite Hid in He. by eapply Hj.
    + rewrite Hid in He. by eapply Hj.
    + by eapply Hj.
  - intros j k x [[-> ->]|[Hne Hx]]%(table_lookup_set _ _ app) Hlt; [| |done].
    + destruct (Hp i k app Hi Hlt) as [y Hy]. exists y. apply (table_lookup_set _ _ app); [done|]. right. split; [lia|done].
    + destruct (Hp j k x Hx Hlt) as [y Hy]. destruct (decide (k = i)) as [->|Hk].
      * exists app'. apply (table_lookup_set _ _ app); [done|]. by left.
      * exists y. apply (table_lookup_set _ _ app); [done|]. by right.
  - intros id cid Hin. destruct (decide (id = app_id app)) as [->|Hne].
    + exists i, app'. split; [|done]. apply (table_lookup_set _ _ app); [done|]. by left.
    + apply Hoth in Hin; [|done]. destruct (Hids id cid Hin) as (j & x & Hx & <-). exists j, x. split; [|done].
      apply (table_lookup_set _ _ app); [done|]. right. split; [|done]. intros ->. congruence.
Qed.

Lemma get_app_client_some table ids id cid c :
  table_wf table ids -> get_app_client table id cid = Some c ->
  exists i app, get_application table id = Some i /\ table !! i = Some (Some app) /\ app_id app = id /\
    0 < cid <= clients_sz app /\ clients app !! Z.to_nat (cid - 1) = Some (Some c) /\
    ac_app_id c = id /\ ac_client_id c = cid /\ (id, cid) ∈ ids.
Proof.
  intros Hwf. unfold get_app_client, app_at. destruct (get_application table id) as [i|] eqn:Hg; simpl; [|done].
  pose proof (get_application_some _ _ _ Hg) as (app & Hi & Hid). rewrite Hi. simpl.
  destruct ((cid <=? 0) || (cid >? clients_sz app)) eqn:Hc; [done|]. apply orb_false_iff in Hc as [? ?]; zbool.
  destruct (clients app !! _) as [[c'|]|] eqn:Hcl; simpl; [|done..]. intros [= <-]. exists i, app.
  pose proof (table_wf_app _ _ Hwf _ _ Hi) as [_ _ H3 _ H5].
  destruct (H3 _ _ Hcl) as [H31 H32]. specialize (H5 _ _ Hcl). rewrite Hid in H31, H5.
  replace (Z.of_nat (Z.to_nat (cid - 1)) + 1) with cid in * by lia. split_and!; first [done|lia].
Qed.

Lemma set_app_client_wf table ids id cid c c' :
  table_wf table ids -> get_app_client table id cid = Some c ->
  (forall x, c' = Some x -> ac_app_id x = ac_app_id c /\ ac_client_id x = ac_client_id c) ->
  table_wf (set_app_client table id cid c') ids.
Proof.
  intros Hwf (i & app & Hg & Hi & Hid & Hb & Hcl & Ha & Hc & Hin)%(get_app_client_some _ ids) Hsame; [|done].
  unfold set_app_client, app_at. rewrite Hg Hi. simpl.
  apply (table_wf_set _ ids _ _ app); [done|done|done| |done].
  pose proof (table_wf_app _ _ Hwf _ _ Hi) as [H1 H2 H3 H4 H5].
  split; simpl; [done|by rewrite length_insert| |done|].
  - intros j x [(<- & -> & _)|[Hne Hx]]%list_lookup_insert_Some; [|by apply H3].
    destruct (Hsame x eq_refl) as [-> ->]. rewrite Ha Hc Hid. split; [done|lia].
  - intros j x [(<- & -> & _)|[Hne Hx]]%list_lookup_insert_Some; [|by eapply H5].
    by apply (H5 _ c).
Qed.

Lemma new_app_client_wf m a r table ids i m' table' c :
  table_wf table ids -> new_app_client m a r table i = (m', table', Some c) ->
  table_wf table' ((ac_app_id c, ac_client_id c) :: ids) /\ ((ac_app_id c, ac_client_id c) ∉ ids) /\
  get_app_client table' (ac_app_id c) (ac_client_id c) = Some c.
Proof.
  intros Hwf. unfold new_app_client, app_at.
  destruct (table !! i) as [[app|]|] eqn:Hi; simpl; [|done..].
  destruct (num_clients app =? clients_sz app) eqn:Hfull; zbool; [done|].
  destruct (calloc m) as [[p|] m1]; [|done]. destruct (negb (a && r)); [done|]. intros [= <- <- <-]. simpl.
  pose proof (table_wf_app _ _ Hwf _ _ Hi) as [H1 H2 H3 H4 H5].
  assert ((app_id app, num_clients app + 1) ∉ ids) as Hnew by (rewrite H4; lia).
  set (app' := AppConfig _ _ _ _).
  assert (table_wf (<[i:=Some app']> table) ((app_id app, num_clients app + 1) :: ids)) as Hwf'.
  { apply (table_wf_set _ ids _ _ app); [done|done|done| |].
    - split; simpl; [lia|by rewrite length_insert| | |].
      + intros j x [(<- & [= <-] & _)|[Hne Hx]]%list_lookup_insert_Some; [simpl; lia|by apply H3].
      + intros cid. rewrite elem_of_cons H4. split; [intros [[= ->]|?]; lia|]. intros ?.
        destruct (decide (cid = num_clients app + 1)) as [->|]; [by left|right; lia].
      + intros j x [(<- & [= <-] & _)|[Hne Hx]]%list_lookup_insert_Some; [|right; by eapply H5].
        replace (Z.of_nat (Z.to_nat (num_clients app + 1 - 1)) + 1) with (num_clients app + 1) by lia. by left.
    - intros id cid Hne. rewrite elem_of_cons. split; [by intros [[= -> _]|?]|by right]. }
  split_and!; [done..|]. unfold get_app_client, app_at.
  assert (<[i:=Some app']> table !! i = Some (Some app')) as Hi'.
  { apply list_lookup_insert_eq. by apply lookup_lt_Some in Hi. }
  pose proof (get_application_unique _ _ _ _ Hwf' Hi') as Hg. simpl in Hg. rewrite Hg. simpl. rewrite Hi'. simpl.
  destruct ((num_clients app + 1 <=? 0) || _) eqn:Hc.
  { apply orb_true_iff in Hc as [?|?]; zbool; lia. }
  rewrite list_lookup_insert_eq; [lia|done].
Qed.

Lemma new_application_cases m cpa table id m' table' r created :
  new_application m cpa table id = (m', table', r, created) ->
  (created = false /\ table' = table /\
     forall i, r = Some i -> exists app, table !! i = Some (Some app) /\ app_id app = id) \/
  (created = true /\ exists i, r = Some i /\ app_slot table id = Some i /\ table !! i = Some None /\
     table' = <[i := Some (AppConfig id 0 cpa (replicate (Z.to_nat cpa) None))]> table).
Proof.
  unfold new_application. destruct (calloc m) as [[p|] m1]; [|by intros [= <- <- <- <-]; left].
  destruct (app_slot table id) as [i|] eqn:Hs; [|by intros [= <- <- <- <-]; left].
  destruct (app_slot_some _ _ _ Hs) as (_ & _ & [Hi|(app & Hi & Hid)]); rewrite Hi.
  - destruct (calloc m1) as [[q|] m2]; [|by intros [= <- <- <- <-]; left].
    intros [= <- <- <- <-]. right. split; [done|]. by exists i.
  - intros [= <- <- <- <-]. left. split_and!; [done..|]. intros j [= <-]. eauto.
Qed.

Lemma new_application_wf m cpa table ids id m' table' r created :
  0 <= cpa -> table_wf table ids -> new_application m cpa table id = (m', table', r, created) ->
  table_wf table' ids /\ (forall i, r = Some i -> get_application table' id = Some i) /\
  (created = true -> get_application table id = None).
Proof.
  intros Hcpa Hwf [(-> & -> & Hr)|(-> & i & -> & Hs & Hi & ->)]%new_application_cases.
  { split_and!; [done| |done]. intros i (app & Hi & <-)%Hr. by eapply get_application_unique. }
  destruct (app_slot_some _ _ _ Hs) as (Hlt & Hfill & _). set (app' := AppConfig _ _ _ _).
  assert (forall j x, table !! j = Some (Some x) -> (j < i)%nat) as Hbelow.
  { intros j x Hj. destruct (decide (j < i)%nat); [done|]. destruct (decide (j = i)) as [->|]; [congruence|].
    destruct (table_wf_prefix _ _ Hwf j i x Hj ltac:(lia)) as [y Hy]. congruence. }
  assert (forall j x, table !! j = Some (Some x) -> app_id x <> id) as Hnone by eauto.
  assert (forall j x, <[i:=Some app']> table !! j = Some (Some x) <->
    (j = i /\ x = app' \/ table !! j = Some (Some x))) as Hl.
  { intros j x. rewrite list_lookup_insert_Some. pose proof (lookup_lt_Some _ _ _ Hi). split.
    - intros [(-> & [= ->] & _)|[? ?]]; auto.
    - intros [[-> ->]|Hj]; [left; done|right]. split; [|done]. intros ->. congruence. }
  pose proof Hwf as [Ha Hj Hp Hids].
  assert (table_wf (<[i:=Some app']> table) ids) as Hwf'.
  { split.
    - intros j x [[-> ->]|Hx]%Hl; [|by eapply Ha]. split; simpl; [lia|rewrite length_replicate; lia| | |].
      + intros k c Hk. by apply lookup_replicate in Hk as [? _].
      + intros cid. split; [|lia]. intros (k & x & Hx & He)%Hids. by destruct (Hnone k x).
      + intros k c Hk. by apply lookup_replicate in Hk as [? _].
    - intros j k x y [[-> ->]|Hx]%Hl [[-> ->]|Hy]%Hl He; [done| | |by eapply Hj].
      + simpl in He. by destruct (Hnone k y).
      + simpl in He. by destruct (Hnone j x).
    - intros j k x [[-> ->]|Hx]%Hl Hk.
      + destruct (Hfill k Hk) as [y Hy]. exists y. apply Hl. by right.
      + destruct (Hp j k x Hx Hk) as [y Hy]. exists y. apply Hl. by right.
    - intros id' cid (k & x & Hx & He)%Hids. exists k, x. split; [apply Hl; by right|done]. }
  split_and!; [done| |].
  - intros ? [= <-]. apply (get_application_unique _ ids i app' Hwf'). apply Hl. by left.
  - intros _. destruct (get_application table id) as [k|] eqn:Hg; [|done].
    apply get_application_some in Hg as (x & Hx & He). by destruct (Hnone k x).
Qed.

Lemma app_reach_wf cpa table ids : 0 <= cpa -> app_reach cpa table ids -> table_wf table ids.
Proof.
  intros Hcpa. induction 1 as [|m m' table ids id table' r created _ IH Hop|m m' a r table ids i table' c _ IH Hop
    |table ids id cid c c' _ IH Hg H1 H2|rc table ids id cid c _ IH Hg].
  - split; [..|by intros ? ? ?%elem_of_nil]; intros i; intros *; intros Hi; by apply lookup_replicate in Hi as [? _].
  - by eapply new_application_wf.
  - by eapply new_app_client_wf.
  - eapply set_app_client_wf; [done..|]. by intros ? [= <-].
  - destruct (get_app_client_some _ _ _ _ _ IH Hg) as (_ & _ & _ & _ & _ & _ & _ & Ha & Hc & _). simpl.
    rewrite Ha Hc. by eapply set_app_client_wf.
Qed.

(** Writing to a client and reading it, or another one, back. *)
Lemma get_put_app_client table ids id cid c (c' : option app_client) id' cid' :
  table_wf table ids -> get_app_client table id cid = Some c ->
  get_app_client (set_app_client table id cid c') id' cid' =
    if bool_decide (id' = id /\ cid' = cid) then c' else get_app_client table id' cid'.
Proof.
  intros Hwf (i & app & Hg & Hi & Hid & Hb & Hcl & _)%(get_app_client_some _ ids); [|done].
  unfold set_app_client, app_at. rewrite Hg Hi. simpl. set (app' := AppConfig _ _ _ _).
  assert (forall x, get_application (<[i := Some app']> table) x = get_application table x) as Hga.
  { intros x. clear Hwf Hg. revert i Hi. induction table as [|e table IH]; intros [|i] Hi; simpl in *; [done|done| |].
    - injection Hi as ->. simpl. done.
    - rewrite IH //. }
  unfold get_app_client, app_at. rewrite Hga. destruct (get_application table id') as [j|] eqn:Hg'; simpl.
  2:{ rewrite bool_decide_false //. intros [-> _]. congruence. }
  destruct (decide (j = i)) as [->|Hne].
  - assert (id' = id) as ->.
    { apply get_application_some in Hg' as (a1 & Ha1 & <-). congruence. }
    rewrite list_lookup_insert_eq; [by apply lookup_lt_Some in Hi|]. rewrite Hi. simpl.
    destruct ((cid' <=? 0) || (cid' >? clients_sz app)) eqn:Hc.
    { rewrite bool_decide_false //. intros [_ ->]. apply orb_true_iff in Hc as [?|?]; zbool; lia. }
    apply orb_false_iff in Hc as [? ?]; zbool. destruct (decide (cid' = cid)) as [->|Hnc].
    + rewrite bool_decide_true // list_lookup_insert_eq //. by apply lookup_lt_Some in Hcl.
    + rewrite bool_decide_false; [by intros [_ ?]|]. rewrite list_lookup_insert_ne //. lia.
  - rewrite bool_decide_false; [intros [-> _]; congruence|]. by rewrite list_lookup_insert_ne.
Qed.

Lemma get_set_app_client table ids id cid c c' id' cid' :
  table_wf table ids -> get_app_client table id cid = Some c ->
  get_app_client (set_app_client table id cid (Some c')) id' cid' =
    if bool_decide (id' = id /\ cid' = cid) then Some c' else get_app_client table id' cid'.
Proof. apply get_put_app_client. Qed.

(** ** Properties *)

(** Client ids identify clients for the life of the server.  On every
    table reached by creating applications and clients, attaching,
    disconnecting and cleaning up clients, [get_app_client] returns the client
    with the ids it is asked for; a new client gets an id that was never given
    to another client of the application, not even to one that is gone, and is
    found under it; and asking again for an application that exists returns
    the same slot. *)
Theorem app_client_ids cpa table ids :
  0 <= cpa -> app_reach cpa table ids ->
  (forall id cid c, get_app_client table id cid = Some c ->
     ac_app_id c = id /\ ac_client_id c = cid /\ (id, cid) ∈ ids) /\
  (forall m a r i m' table' c, new_app_client m a r table i = (m', table', Some c) ->
     ((ac_app_id c, ac_client_id c) ∉ ids) /\
     get_app_client table' (ac_app_id c) (ac_client_id c) = Some c) /\
  (forall m id m' table' i created, new_application m cpa table id = (m', table', Some i, created) ->
     get_application table' id = Some i /\ created = bool_decide (get_application table id = None)).
Proof.
  intros Hcpa Hwf%app_reach_wf; [|done]. split_and!.
  - intros id cid c (i & app & _ & _ & _ & _ & _ & ? & ? & ?)%(get_app_client_some _ _ _ _ _ Hwf). done.
  - intros m a r i m' table' c (_ & ? & ?)%(new_app_client_wf _ _ _ _ _ _ _ _ _ Hwf). done.
  - intros m id m' table' i created Hop.
    destruct (new_application_wf _ _ _ _ _ _ _ _ _ Hcpa Hwf Hop) as (_ & Hg & Hc). specialize (Hg i eq_refl).
    split; [done|]. destruct created; [by rewrite bool_decide_true; auto|].
    apply new_application_cases in Hop as [(_ & -> & _)|(? & _)]; [|done]. by rewrite Hg.
Qed.

(** One application with id 7 and one client. *)
Definition app_example : app_table :=
  let '(m, table, _, _) := new_application (Mem 1 []) 4 app_table_init 7 in
  (new_app_client m true true table 0).1.2.

Lemma app_example_reach : app_reach 4 app_example [(7, 1)].
Proof.
  refine (app_reach_client 4 (Mem 3 []) (Mem 4 []) true true
    (new_application (Mem 1 []) 4 app_table_init 7).1.1.2 [] 0 _ (AppClient 7 1 None false) _ _); [|done].
  by refine (app_reach_app 4 (Mem 1 []) (Mem 3 []) app_table_init [] 7 _ (Some 0%nat) true (app_reach_init 4) _).
Defined.

Lemma app_client_ids_witness :
  get_app_client app_example 7 1 = Some (AppClient 7 1 None false) /\ ((7, 1) ∈ [(7, 1)]).
Proof.
  assert (get_app_client app_example 7 1 = Some (AppClient 7 1 None false)) as Hg by (by vm_compute).
  destruct (app_client_ids 4 app_example [(7, 1)] ltac:(lia) app_example_reach) as (Hget & _).
  split; [exact Hg|]. by destruct (Hget 7 1 (AppClient 7 1 None false) Hg) as (_ & _ & ?).
Defined.
