(* ===== verification/InodeTree.v ===== *)
(** * The tree of inodes of a server ([server/src/unifyfs_inode_tree.c])

    Inodes are kept in a red-black tree ordered by global file identifier.  The
    theorem of this file is that the tree operations implement a finite map
    from identifiers to inodes. *)

From S2P Require Import Prelude.
From S2P Require Import RbTree.
From S2P Require Import ExtentTree.
From S2P Require Import ArrayList.
From S2P Require Import Meta.

(** A request of a client that waits for its extents to be added;
    [pe_client_req] stands for the request it belongs to. *)
Record pending_extents_item := PendingItem {
  pe_client_req : Z;
  pe_num_extents : Z;
  pe_extents : list extent_metadata;
}.

Record unifyfs_inode := Inode {
  ino_addr : Z;                        (* the inode's address *)
  ino_gfid : Z;                        (* global file identifier *)
  ino_attr : unifyfs_file_attr_t;      (* file attributes *)
  ino_extents : option extent_tree;    (* extent information *)
  ino_pending_extents : option (arraylist_t pending_extents_item);
}.

Definition uit_compare_func (node1 node2 : unifyfs_inode) : Z :=
  if ino_gfid node1 >? ino_gfid node2 then 1
  else if ino_gfid node1 <? ino_gfid node2 then -1
  else 0.

#[export] Instance unifyfs_inode_rb : RbNode unifyfs_inode :=
  { rb_addr := ino_addr; rb_cmp := uit_compare_func }.

(** [struct unifyfs_inode_tree] without its lock. *)
Definition unifyfs_inode_tree : Type := rb_tree unifyfs_inode.

Definition unifyfs_inode_tree_init : unifyfs_inode_tree := RB_NULL.

(** The node on the stack that the searches compare with: only its identifier
    is set. *)
Definition search_key (gfid : Z) : unifyfs_inode := Inode 0 gfid unifyfs_file_attr_set_invalid None None.

Definition unifyfs_inode_tree_insert (tree : unifyfs_inode_tree) (ino : unifyfs_inode) : unifyfs_inode_tree * Z :=
  if negb (ino_gfid ino =? fa_gfid (ino_attr ino)) then (tree, EINVAL)
  else
    match RB_FIND tree ino with
    | Some _ => (tree, EEXIST)
    | None => ((RB_INSERT tree ino).2, UNIFYFS_SUCCESS)
    end.

Definition unifyfs_inode_tree_search (tree : unifyfs_inode_tree) (gfid : Z) : option unifyfs_inode :=
  RB_FIND tree (search_key gfid).

Definition unifyfs_inode_tree_remove (tree : unifyfs_inode_tree) (gfid : Z)
    : unifyfs_inode_tree * Z * option unifyfs_inode :=
  match unifyfs_inode_tree_search tree gfid with
  | None => (tree, ENOENT, None)
  | Some ino => (RB_REMOVE tree (ino_addr ino), UNIFYFS_SUCCESS, Some ino)
  end.

Definition unifyfs_inode_tree_iter (tree : unifyfs_inode_tree) (start : option unifyfs_inode) : option unifyfs_inode :=
  match start with
  | None => RB_MIN tree
  | Some n =>
      match RB_FIND tree n with
      | None => None
      | Some _ => RB_NEXT tree (ino_addr n)
      end
  end.

(** The documented loop over the tree; one pass per node and one more. *)
Fixpoint inode_tree_walk (fuel : nat) (tree : unifyfs_inode_tree) (node : option unifyfs_inode)
    : option (list unifyfs_inode) :=
  match fuel with
  | O => None
  | S fuel =>
      match unifyfs_inode_tree_iter tree node with
      | None => Some []
      | Some n => cons n <$> inode_tree_walk fuel tree (Some n)
      end
  end.

Definition inode_tree_fuel (tree : unifyfs_inode_tree) : nat := S (length (rb_elems tree)).

(** Change the inode at an address in place. *)
Definition inode_update (tree : unifyfs_inode_tree) (ino ino' : unifyfs_inode) : unifyfs_inode_tree :=
  rb_update (ino_addr ino) (fun _ => ino') tree.

(** ** The order of the nodes *)

Implicit Types (t : unifyfs_inode_tree) (ino x : unifyfs_inode) (es : list unifyfs_inode) (g : Z).

Definition gfid_lt (a b : unifyfs_inode) : Prop := ino_gfid a < ino_gfid b.

Record it_wf (m : mem) t : Prop := {
  it_valid : rb_valid t;
  it_sorted : StronglySorted gfid_lt (rb_elems t);
  it_nodup : NoDup (ino_addr <$> rb_elems t);
  it_addr : Forall (fun ino => ino_addr ino < mem_next m) (rb_elems t);
}.

Definition it_map t : gmap Z unifyfs_inode := list_to_map ((fun ino => (ino_gfid ino, ino)) <$> rb_elems t).

Lemma sorted_split es g :
  StronglySorted gfid_lt es ->
  (exists n1 x n2, es = n1 ++ x :: n2 /\ ino_gfid x = g /\
     Forall (fun y => ino_gfid y < g) n1 /\ Forall (fun y => g < ino_gfid y) n2) \/
  (exists n1 n2, es = n1 ++ n2 /\ Forall (fun y => ino_gfid y < g) n1 /\ Forall (fun y => g < ino_gfid y) n2).
Proof.
  induction 1 as [|y es Hs IH Hy]; [right; exists [], []; repeat constructor|].
  destruct (Z.lt_trichotomy (ino_gfid y) g) as [Hlt|[Heq|Hgt]].
  - destruct IH as [(n1 & x & n2 & -> & ? & ? & ?)|(n1 & n2 & -> & ? & ?)].
    + left. exists (y :: n1), x, n2. by repeat constructor.
    + right. exists (y :: n1), n2. by repeat constructor.
  - left. exists [], y, es. split_and!; [done..|constructor|]. eapply Forall_impl; [exact Hy|].
    intros z. unfold gfid_lt. by rewrite Heq.
  - right. exists [], (y :: es). split_and!; [done|constructor|]. constructor; [done|].
    eapply Forall_impl; [exact Hy|]. unfold gfid_lt. intros; lia.
Qed.

Lemma gfid_below ino es : Forall (fun y => ino_gfid y < ino_gfid ino) es -> rb_below ino es.
Proof.
  intros H. eapply Forall_impl; [exact H|]. simpl. unfold uit_compare_func. intros y Hy.
  by rewrite (proj2 (Z.gtb_lt _ _) Hy).
Qed.

Lemma gfid_above ino es : Forall (fun y => ino_gfid ino < ino_gfid y) es -> rb_above ino es.
Proof.
  intros H. eapply Forall_impl; [exact H|]. simpl. unfold uit_compare_func. intros y Hy.
  rewrite Z.gtb_ltb (proj2 (Z.ltb_ge _ _)); [lia|]. by rewrite (proj2 (Z.ltb_lt _ _) Hy).
Qed.

Lemma gfid_equal ino x : ino_gfid x = ino_gfid ino -> rb_cmp ino x = 0.
Proof. intros H. simpl. unfold uit_compare_func. by rewrite H Z.gtb_ltb Z.ltb_irrefl. Qed.

Lemma it_map_nodup es : StronglySorted gfid_lt es -> NoDup ((fun ino => (ino_gfid ino, ino)) <$> es).*1.
Proof.
  rewrite -list_fmap_compose.
  induction 1 as [|y es Hs IH Hy]; [constructor|]. rewrite fmap_cons. constructor; [|done].
  intros (z & Hz & Hin)%list_elem_of_fmap. simpl in Hz.
  eapply Forall_forall in Hy; [|exact Hin]. unfold gfid_lt in Hy. lia.
Qed.

Lemma it_map_some m t g ino :
  it_wf m t -> it_map t !! g = Some ino <-> ino ∈ rb_elems t /\ ino_gfid ino = g.
Proof.
  intros Hwf. unfold it_map. rewrite -elem_of_list_to_map; [by apply it_map_nodup, Hwf|].
  rewrite list_elem_of_fmap. split.
  - by intros (x & [= -> ->] & ?).
  - intros [? <-]. by exists ino.
Qed.

Lemma it_map_none m t g :
  it_wf m t -> it_map t !! g = None <-> Forall (fun y => ino_gfid y <> g) (rb_elems t).
Proof.
  intros Hwf. rewrite Forall_forall. split.
  - intros Hn y Hy He. assert (it_map t !! g = Some y) by (by apply (it_map_some m)). congruence.
  - intros H. destruct (it_map t !! g) as [y|] eqn:He; [|done].
    apply (it_map_some m) in He as [Hy Hg]; [|done]. by destruct (H y Hy).
Qed.

(** ** The operations on the map *)

Lemma tree_search_map m t g : it_wf m t -> unifyfs_inode_tree_search t g = it_map t !! g.
Proof.
  intros Hwf. unfold unifyfs_inode_tree_search.
  destruct (sorted_split _ g (it_sorted _ _ Hwf)) as [(n1 & x & n2 & Heq & Hg & H1 & H2)|(n1 & n2 & Heq & H1 & H2)].
  - rewrite (RB_FIND_some t (search_key g) n1 x n2 Heq);
      [by apply gfid_below|by apply gfid_equal|by apply gfid_above|].
    symmetry. apply (it_map_some m); [done|]. rewrite Heq. set_solver.
  - rewrite (RB_FIND_none t (search_key g) n1 n2 Heq); [by apply gfid_below|by apply gfid_above|].
    symmetry. apply (it_map_none m); [done|]. rewrite Heq. apply Forall_app. split;
      (eapply Forall_impl; [eassumption|]); simpl; intros; lia.
Qed.

(** The comparison ignores everything but the identifier. *)
Lemma RB_FIND_gfid t ino : RB_FIND t ino = unifyfs_inode_tree_search t (ino_gfid ino).
Proof. unfold unifyfs_inode_tree_search. induction t as [|c l IHl y r IHr]; simpl; [done|]. by rewrite IHl IHr. Qed.

(** Two well-formed trees with the same inodes stand for the same map. *)
Lemma it_map_ext m m' t t' (f : Z -> option unifyfs_inode) :
  it_wf m t -> it_wf m' t' ->
  (forall x, x ∈ rb_elems t' <-> f (ino_gfid x) = Some x) ->
  (forall g x, f g = Some x -> ino_gfid x = g) ->
  forall g, it_map t' !! g = f g.
Proof.
  intros Hwf Hwf' Hin Hf g. apply option_eq. intros x. rewrite (it_map_some m') // Hin. split.
  - by intros [? <-].
  - intros Hx. pose proof (Hf _ _ Hx) as Hg. by rewrite Hg.
Qed.

Lemma tree_insert_new m t ino :
  it_wf m t -> it_map t !! ino_gfid ino = None -> ino_addr ino < mem_next m ->
  Forall (fun y => ino_addr y <> ino_addr ino) (rb_elems t) ->
  it_wf m (RB_INSERT t ino).2 /\ it_map (RB_INSERT t ino).2 = <[ino_gfid ino := ino]> (it_map t).
Proof.
  intros Hwf Hn Ha Hfresh. pose proof Hwf as [Hv Hs Hnd Had].
  apply (it_map_none m) in Hn; [|done].
  destruct (sorted_split _ (ino_gfid ino) Hs) as [(n1 & x & n2 & Heq & Hg & _)|(n1 & n2 & Heq & H1 & H2)].
  { rewrite Heq in Hn. apply Forall_app in Hn as [_ [? _]%Forall_cons]. done. }
  destruct (RB_INSERT_fresh t ino n1 n2 Heq) as (t' & Hins & Heq'); [by apply gfid_below|by apply gfid_above|].
  rewrite Hins. simpl. assert (it_wf m t') as Hwf'.
  { split.
    - pose proof (RB_INSERT_valid t ino Hv) as H. by rewrite Hins in H.
    - rewrite Heq'. rewrite Heq in Hs. apply StronglySorted_app in Hs as (Hc & Hs1 & Hs2).
      apply StronglySorted_app_2; [|done|constructor; [done|exact H2]].
      intros a b Ha1 [->|Hb]%elem_of_cons; [|by apply Hc]. by eapply Forall_forall in H1.
    - rewrite Heq' fmap_app fmap_cons. rewrite Heq fmap_app in Hnd. apply NoDup_app in Hnd as (Hd1 & Hd & Hd2).
      rewrite Heq in Hfresh. apply Forall_app in Hfresh as [Hf1 Hf2]. rewrite Forall_forall in Hf1. rewrite Forall_forall in Hf2.
      apply NoDup_app. split_and!; [done| |constructor; [|done]].
      + intros a Ha1 [->|Ha2]%elem_of_cons; [|by eapply Hd].
        apply list_elem_of_fmap in Ha1 as (y & Hy & Hin). by destruct (Hf1 y Hin).
      + intros (y & Hy & Hin)%list_elem_of_fmap. by destruct (Hf2 y Hin).
    - rewrite Heq'. rewrite Heq in Had. apply Forall_app in Had as [? ?]. apply Forall_app. split; [done|by constructor]. }
  split; [done|]. apply map_eq. apply (it_map_ext m m t); [done|done|..].
  - intros x. rewrite Heq'. destruct (decide (ino_gfid x = ino_gfid ino)) as [He|He].
    + rewrite He lookup_insert_eq. split; [|intros [= ->]; set_solver].
      intros [Hx|[->|Hx]%elem_of_cons]%elem_of_app; [|done|];
        (eapply Forall_forall in Hx; [|eassumption]); simpl in Hx; lia.
    + rewrite lookup_insert_ne // (it_map_some m) // Heq !elem_of_app elem_of_cons.
      split; [|tauto]. intros [?|[->|?]]; [tauto|done|tauto].
  - intros g x. destruct (decide (g = ino_gfid ino)) as [->|].
    + rewrite lookup_insert_eq. by intros [= ->].
    + rewrite lookup_insert_ne // (it_map_some m) //. tauto.
Qed.

Lemma tree_elem_split m t ino :
  it_wf m t -> ino ∈ rb_elems t -> exists n1 n2, rb_elems t = n1 ++ ino :: n2 /\
    Forall (fun y => ino_gfid y < ino_gfid ino) n1 /\ Forall (fun y => ino_gfid ino < ino_gfid y) n2.
Proof.
  intros Hwf (n1 & n2 & Heq)%list_elem_of_split. exists n1, n2. split; [done|].
  pose proof (it_sorted _ _ Hwf) as Hs. rewrite Heq in Hs.
  apply StronglySorted_app in Hs as (Hc & _ & Hs2). apply StronglySorted_inv in Hs2 as [_ Hs2]. split; [|done].
  apply Forall_forall. intros y Hy. apply (Hc y ino Hy). by left.
Qed.

Lemma tree_remove_ok m t ino :
  it_wf m t -> ino ∈ rb_elems t ->
  it_wf m (RB_REMOVE t (ino_addr ino)) /\ it_map (RB_REMOVE t (ino_addr ino)) = delete (ino_gfid ino) (it_map t).
Proof.
  intros Hwf Hin. pose proof Hwf as [Hv Hs Hnd Had].
  destruct (tree_elem_split m t ino Hwf Hin) as (n1 & n2 & Heq & H1 & H2).
  pose proof (rb_elems_remove t n1 ino n2 Hnd Heq) as Heq'. change (rb_addr ino) with (ino_addr ino) in Heq'.
  set (t' := RB_REMOVE t (ino_addr ino)) in *. assert (it_wf m t') as Hwf'.
  { split.
    - by apply RB_REMOVE_valid.
    - rewrite Heq'. rewrite Heq in Hs. apply StronglySorted_app in Hs as (Hc & Hs1 & Hs2).
      apply StronglySorted_inv in Hs2 as [Hs2 _]. apply StronglySorted_app_2; [|done..].
      intros a b Ha Hb. apply Hc; [done|by right].
    - rewrite Heq'. rewrite Heq in Hnd. rewrite !fmap_app fmap_cons in Hnd *.
      apply NoDup_app in Hnd as (Hd1 & Hd & [Hd2 Hd3]%NoDup_cons). apply NoDup_app. split_and!; [done| |done].
      intros a Ha Hb. apply (Hd a Ha). by right.
    - rewrite Heq'. rewrite Heq in Had. apply Forall_app in Had as [? [_ ?]%Forall_cons]. by apply Forall_app. }
  split; [done|]. apply map_eq. apply (it_map_ext m m t); [done|done|..].
  - intros x. rewrite Heq'. destruct (decide (ino_gfid x = ino_gfid ino)) as [He|He].
    + rewrite He lookup_delete_eq. split; [|done].
      intros [Hx|Hx]%elem_of_app; (eapply Forall_forall in Hx; [|eassumption]); simpl in Hx; lia.
    + rewrite lookup_delete_ne // (it_map_some m) // Heq !elem_of_app elem_of_cons.
      split; [tauto|]. intros [[?|[->|?]] _]; [tauto|done|tauto].
  - intros g x. rewrite lookup_delete_Some (it_map_some m) //. tauto.
Qed.

Lemma tree_update_ok m t ino ino' :
  it_wf m t -> ino ∈ rb_elems t -> ino_gfid ino' = ino_gfid ino -> ino_addr ino' = ino_addr ino ->
  it_wf m (inode_update t ino ino') /\ it_map (inode_update t ino ino') = <[ino_gfid ino := ino']> (it_map t).
Proof.
  intros Hwf Hin Hg Ha. pose proof Hwf as [Hv Hs Hnd Had].
  destruct (tree_elem_split m t ino Hwf Hin) as (n1 & n2 & Heq & H1 & H2).
  pose proof (rb_elems_update t (fun _ => ino') n1 ino n2 Hnd Heq) as Heq'.
  change (rb_addr ino) with (ino_addr ino) in Heq'. fold (inode_update t ino ino') in Heq'.
  set (t' := inode_update t ino ino') in *. assert (it_wf m t') as Hwf'.
  { split.
    - by apply rb_update_valid.
    - rewrite Heq'. rewrite Heq in Hs. apply StronglySorted_app in Hs as (Hc & Hs1 & Hs2).
      apply StronglySorted_inv in Hs2 as [Hs2 Hx]. apply StronglySorted_app_2; [|done|constructor; [done|]].
      + intros a b Ha1 [->|Hb]%elem_of_cons; [|apply Hc; [done|by right]].
        unfold gfid_lt. rewrite Hg. apply (Hc a ino Ha1). by left.
      + eapply Forall_impl; [exact Hx|]. unfold gfid_lt. by rewrite Hg.
    - rewrite Heq'. rewrite Heq in Hnd. rewrite !fmap_app !fmap_cons in Hnd *. by rewrite Ha.
    - rewrite Heq'. rewrite Heq in Had. apply Forall_app in Had as [? [? ?]%Forall_cons]. apply Forall_app.
      split; [done|]. constructor; [by rewrite Ha|done]. }
  split; [done|]. apply map_eq. apply (it_map_ext m m t); [done|done|..].
  - intros x. rewrite Heq'. destruct (decide (ino_gfid x = ino_gfid ino)) as [He|He].
    + rewrite He lookup_insert_eq. split; [|intros [= ->]; set_solver].
      intros [Hx|[->|Hx]%elem_of_cons]%elem_of_app; [|done|];
        (eapply Forall_forall in Hx; [|eassumption]); simpl in Hx; lia.
    + rewrite lookup_insert_ne // (it_map_some m) // Heq !elem_of_app !elem_of_cons.
      split; [|intros [[?|[->|?]] _]; tauto]. intros [?|[->|?]]; [tauto|by rewrite Hg in He|tauto].
  - intros g x. destruct (decide (g = ino_gfid ino)) as [->|].
    + rewrite lookup_insert_eq. by intros [= <-].
    + rewrite lookup_insert_ne // (it_map_some m) //. tauto.
Qed.

(** ** Iteration *)

Lemma inode_iter_next m t n1 ino n2 :
  it_wf m t -> rb_elems t = n1 ++ ino :: n2 -> unifyfs_inode_tree_iter t (Some ino) = head n2.
Proof.
  intros Hwf Heq. unfold unifyfs_inode_tree_iter. rewrite RB_FIND_gfid (tree_search_map m) //.
  rewrite (proj2 (it_map_some m t (ino_gfid ino) ino Hwf)); [split; [rewrite Heq; set_solver|done]|].
  exact (RB_NEXT_spec t n1 ino n2 (it_nodup _ _ Hwf) Heq).
Qed.

Lemma inode_walk_from m t n1 ino n2 fuel :
  it_wf m t -> rb_elems t = n1 ++ ino :: n2 -> (length n2 < fuel)%nat ->
  inode_tree_walk fuel t (Some ino) = Some n2.
Proof.
  revert n1 ino n2. induction fuel as [|fuel IH]; intros n1 ino n2 Hwf Heq Hf; [lia|]. simpl.
  rewrite RB_FIND_gfid (tree_search_map m) //.
  rewrite (proj2 (it_map_some m t (ino_gfid ino) ino Hwf)); [split; [rewrite Heq; set_solver|done]|].
  pose proof (RB_NEXT_spec t n1 ino n2 (it_nodup _ _ Hwf) Heq) as Hn. simpl in Hn. rewrite Hn.
  destruct n2 as [|x n2]; simpl; [done|]. simpl in Hf.
  rewrite (IH (n1 ++ [ino]) x n2) //; [by rewrite -app_assoc|lia].
Qed.

Lemma inode_walk_all m t : it_wf m t -> inode_tree_walk (inode_tree_fuel t) t None = Some (rb_elems t).
Proof.
  intros Hwf. unfold inode_tree_fuel. cbn [inode_tree_walk unifyfs_inode_tree_iter]. rewrite RB_MIN_spec.
  destruct (rb_elems t) as [|x es] eqn:Heq; [done|].
  change (cons x <$> inode_tree_walk (length (x :: es)) t (Some x) = Some (x :: es)).
  rewrite (inode_walk_from m t [] x es) //. simpl. lia.
Qed.

Lemma it_wf_null m : it_wf m RB_NULL.
Proof. split; simpl; [apply RB_NULL_valid|constructor..]. Qed.

Lemma it_wf_mono m m' t : mem_next m <= mem_next m' -> it_wf m t -> it_wf m' t.
Proof. intros Hm [? ? ? Ha]. split; [done..|]. eapply Forall_impl; [exact Ha|]. simpl. lia. Qed.

(** ** Reachable trees *)

(** Inodes are inserted at the address [calloc] gave them, removed, and
    changed in place without changing their identifier. *)
Inductive inode_tree_reach : mem -> unifyfs_inode_tree -> Prop :=
| it_reach_init m : inode_tree_reach m unifyfs_inode_tree_init
| it_reach_insert m t m' a ino t' rc :
    inode_tree_reach m t -> calloc m = (Some a, m') -> ino_addr ino = a ->
    unifyfs_inode_tree_insert t ino = (t', rc) -> inode_tree_reach m' t'
| it_reach_remove m t g t' rc r :
    inode_tree_reach m t -> unifyfs_inode_tree_remove t g = (t', rc, r) -> inode_tree_reach m t'
| it_reach_update m t g ino ino' :
    inode_tree_reach m t -> unifyfs_inode_tree_search t g = Some ino ->
    ino_gfid ino' = ino_gfid ino -> ino_addr ino' = ino_addr ino ->
    inode_tree_reach m (inode_update t ino ino').

(** What [unifyfs_inode_tree_insert] does to the map. *)
Lemma tree_insert_map m t m' a ino t' rc :
  it_wf m t -> calloc m = (Some a, m') -> ino_addr ino = a -> unifyfs_inode_tree_insert t ino = (t', rc) ->
  it_wf m' t' /\
  if negb (ino_gfid ino =? fa_gfid (ino_attr ino)) then rc = EINVAL /\ t' = t
  else match it_map t !! ino_gfid ino with
       | Some _ => rc = EEXIST /\ t' = t
       | None => rc = UNIFYFS_SUCCESS /\ it_map t' = <[ino_gfid ino := ino]> (it_map t)
       end.
Proof.
  intros Hwf Hc Ha. apply calloc_some in Hc as [-> Hm'].
  assert (it_wf m' t) as Hwf' by (eapply it_wf_mono; [|done]; lia).
  unfold unifyfs_inode_tree_insert. destruct (negb _); [by intros [= <- <-]|].
  rewrite RB_FIND_gfid (tree_search_map m) //. destruct (it_map t !! ino_gfid ino) eqn:He; [by intros [= <- <-]|].
  intros [= <- <-]. destruct (tree_insert_new m' t ino Hwf') as [H1 H2]; [done|lia| |done].
  eapply Forall_impl; [exact (it_addr _ _ Hwf)|]. simpl. lia.
Qed.

Lemma tree_remove_map m t g t' rc r :
  it_wf m t -> unifyfs_inode_tree_remove t g = (t', rc, r) ->
  it_wf m t' /\ r = it_map t !! g /\ it_map t' = delete g (it_map t) /\
  rc = match it_map t !! g with Some _ => UNIFYFS_SUCCESS | None => ENOENT end.
Proof.
  intros Hwf. unfold unifyfs_inode_tree_remove. rewrite (tree_search_map m) //.
  destruct (it_map t !! g) as [ino|] eqn:He; intros [= <- <- <-].
  - apply (it_map_some m) in He as [Hin <-]; [|done]. by destruct (tree_remove_ok m t ino Hwf Hin).
  - by rewrite delete_id.
Qed.

Lemma inode_tree_reach_wf m t : inode_tree_reach m t -> it_wf m t.
Proof.
  induction 1 as [m|m t m' a ino t' rc _ IH Hc Ha Hop|m t g t' rc r _ IH Hop|m t g ino ino' _ IH Hs Hg Ha].
  - apply it_wf_null.
  - by eapply tree_insert_map.
  - by eapply tree_remove_map.
  - rewrite (tree_search_map m) // in Hs. apply (it_map_some m) in Hs as [Hin _]; [|done]. by apply tree_update_ok.
Qed.

(** C40. The inode tree is a finite map from file identifiers to inodes.  On
    every reachable tree a search returns the entry of the map; an insertion
    adds an entry, refuses an inode whose identifier is taken (EEXIST) or
    differs from the one in its attributes (EINVAL) without changing the tree;
    a removal deletes the entry and returns it, or reports ENOENT; and the
    iteration returns every inode once, by increasing identifier. *)
Theorem inode_tree_refines_map m t :
  inode_tree_reach m t ->
  (forall g, unifyfs_inode_tree_search t g = it_map t !! g) /\
  (forall m' a ino t' rc, calloc m = (Some a, m') -> ino_addr ino = a ->
     unifyfs_inode_tree_insert t ino = (t', rc) ->
     it_map t' = (if rc =? UNIFYFS_SUCCESS then <[ino_gfid ino := ino]> (it_map t) else it_map t) /\
     rc = (if negb (ino_gfid ino =? fa_gfid (ino_attr ino)) then EINVAL
           else match it_map t !! ino_gfid ino with Some _ => EEXIST | None => UNIFYFS_SUCCESS end)) /\
  (forall g t' rc r, unifyfs_inode_tree_remove t g = (t', rc, r) ->
     r = it_map t !! g /\ it_map t' = delete g (it_map t) /\
     rc = match it_map t !! g with Some _ => UNIFYFS_SUCCESS | None => ENOENT end) /\
  exists inos, inode_tree_walk (inode_tree_fuel t) t None = Some inos /\ StronglySorted gfid_lt inos /\
    forall g ino, it_map t !! g = Some ino <-> ino ∈ inos /\ ino_gfid ino = g.
Proof.
  intros Hwf%inode_tree_reach_wf. split_and!.
  - intros g. by apply (tree_search_map m).
  - intros m' a ino t' rc Hc Ha Hop. destruct (tree_insert_map _ _ _ _ _ _ _ Hwf Hc Ha Hop) as [_ H].
    destruct (negb _); [by destruct H as [-> ->]|]. destruct (it_map t !! ino_gfid ino); destruct H as [-> H]; by rewrite H.
  - intros g t' rc r Hop. by destruct (tree_remove_map _ _ _ _ _ _ Hwf Hop) as (_ & ? & ? & ?).
  - exists (rb_elems t). split_and!; [by eapply inode_walk_all|apply Hwf|]. intros g ino. by apply (it_map_some m).
Qed.

Definition inode_example (a g : Z) : unifyfs_inode :=
  Inode a g (FileAttr None g 0 0 420 0 0 0 (Timespec 0 0) (Timespec 0 0) (Timespec 0 0) 0) None None.

Lemma inode_tree_refines_map_witness :
  exists t, inode_tree_reach (Mem 3 []) t /\
    unifyfs_inode_tree_search t 50 = Some (inode_example 2 50) /\ it_map t !! 50 = Some (inode_example 2 50).
Proof.
  exists (RB_INSERT (RB_INSERT RB_NULL (inode_example 1 90)).2 (inode_example 2 50)).2.
  assert (inode_tree_reach (Mem 3 [])
    (RB_INSERT (RB_INSERT RB_NULL (inode_example 1 90)).2 (inode_example 2 50)).2) as Hr.
  { refine (it_reach_insert (Mem 2 []) (RB_INSERT RB_NULL (inode_example 1 90)).2 (Mem 3 []) 2
      (inode_example 2 50) _ 0 _ eq_refl eq_refl _); [|by vm_compute].
    refine (it_reach_insert (Mem 1 []) RB_NULL (Mem 2 []) 1 (inode_example 1 90) _ 0
      (it_reach_init (Mem 1 [])) eq_refl eq_refl _). by vm_compute. }
  destruct (inode_tree_refines_map _ _ Hr) as (Hs & _). split; [exact Hr|].
  rewrite -Hs. split; by vm_compute.
Defined.
