(* ===== verification/Inode.v ===== *)
(** * Inodes of a server ([server/src/unifyfs_inode.c])

    The handlers of a server create, update, query and unlink files through
    these functions.  They combine the inode tree, the extent tree of a file,
    its attributes and the write logs of the local clients; all of them act on
    the global state of the server, the record [server].

    Inodes are found by [unifyfs_inode_lookup] and changed through the pointer
    it returns; [put_inode] writes a changed inode back to its place in the
    tree.  The reader-writer locks of the inodes and of the tree serialise the
    operations and are not part of the state. *)

From Stdlib Require Import String.
From S2P Require Import Prelude.
From S2P Require Import RbTree.
From S2P Require Import Extents.
From S2P Require Import RangeTree.
From S2P Require Import ExtentTree.
From S2P Require Import WriteIndex.
From S2P Require Import LogIO.
From S2P Require Import ArrayList.
From S2P Require Import Meta.
From S2P Require Import AppTable.
From S2P Require Import InodeTree.

(** ** State *)

(** The unlink callback that a server sends to a client. *)
Record client_callback_req := ClientCallback {
  cb_app_id : Z;
  cb_client_id : Z;
  cb_gfid : Z;
}.

Record server := Server {
  sv_mem : mem;
  sv_glb_pmi_rank : Z;                    (* rank of this server *)
  sv_glb_pmi_size : Z;                    (* number of servers *)
  sv_apps : app_table;                    (* app_configs *)
  sv_inodes : unifyfs_inode_tree;         (* global_inode_tree *)
  sv_callbacks : list client_callback_req; (* submitted to the request managers *)
}.

Definition set_mem (m : mem) (sv : server) : server :=
  Server m (sv_glb_pmi_rank sv) (sv_glb_pmi_size sv) (sv_apps sv) (sv_inodes sv) (sv_callbacks sv).
Definition set_apps (apps : app_table) (sv : server) : server :=
  Server (sv_mem sv) (sv_glb_pmi_rank sv) (sv_glb_pmi_size sv) apps (sv_inodes sv) (sv_callbacks sv).
Definition set_inodes (t : unifyfs_inode_tree) (sv : server) : server :=
  Server (sv_mem sv) (sv_glb_pmi_rank sv) (sv_glb_pmi_size sv) (sv_apps sv) t (sv_callbacks sv).
Definition add_callback (cb : client_callback_req) (sv : server) : server :=
  Server (sv_mem sv) (sv_glb_pmi_rank sv) (sv_glb_pmi_size sv) (sv_apps sv) (sv_inodes sv) (sv_callbacks sv ++ [cb]).

(** A loop that needs more passes than the model gives it, or an access
    outside an object, is [LFault]. *)
Definition lift_option {A} (x : option A) : lres A :=
  match x with Some a => LRet a | None => LFault end.

Definition lift_run {A} (x : run A) : lres A :=
  match x with Done a => LRet a | NullDeref | NoFuel => LFault end.

(** [server/src/unifyfs_p2p_rpc.c]; C's [%] truncates. *)
Definition hash_gfid_to_server (sv : server) (gfid : Z) : Z := Z.rem gfid (sv_glb_pmi_size sv).

(** ** Allocation, lookup and update *)

Definition unifyfs_inode_alloc (now : Z) (m : mem) (gfid : Z) (attr : unifyfs_file_attr_t)
    : mem * option unifyfs_inode :=
  let '(ino, m) := calloc m in
  match ino with
  | None => (m, None)
  | Some a =>
      let '(tree, m) := calloc m in
      match tree with
      | None => (m, None)
      | Some _ =>
          let '(m, ino_attr, _) := unifyfs_file_attr_update now m ATTR_OP_CREATE unifyfs_file_attr_set_invalid attr in
          (m, Some (Inode a gfid ino_attr (Some extent_tree_init) None))
      end
  end.

Definition unifyfs_inode_lookup (sv : server) (gfid : Z) : option unifyfs_inode :=
  unifyfs_inode_tree_search (sv_inodes sv) gfid.

Definition put_inode (ino ino' : unifyfs_inode) (sv : server) : server :=
  set_inodes (inode_update (sv_inodes sv) ino ino') sv.

Definition set_attr (attr : unifyfs_file_attr_t) (ino : unifyfs_inode) : unifyfs_inode :=
  Inode (ino_addr ino) (ino_gfid ino) attr (ino_extents ino) (ino_pending_extents ino).
Definition set_extents (tree : extent_tree) (ino : unifyfs_inode) : unifyfs_inode :=
  Inode (ino_addr ino) (ino_gfid ino) (ino_attr ino) (Some tree) (ino_pending_extents ino).
Definition set_pending (l : option (arraylist_t pending_extents_item)) (ino : unifyfs_inode) : unifyfs_inode :=
  Inode (ino_addr ino) (ino_gfid ino) (ino_attr ino) (ino_extents ino) l.

Definition attr_set_size (size : Z) (a : unifyfs_file_attr_t) : unifyfs_file_attr_t :=
  FileAttr (fa_filename a) (fa_gfid a) (fa_is_laminated a) (fa_is_shared a) (fa_mode a) (fa_uid a) (fa_gid a)
    size (fa_atime a) (fa_mtime a) (fa_ctime a) (fa_last_update a).
Definition attr_set_laminated (l : Z) (a : unifyfs_file_attr_t) : unifyfs_file_attr_t :=
  FileAttr (fa_filename a) (fa_gfid a) l (fa_is_shared a) (fa_mode a) (fa_uid a) (fa_gid a)
    (fa_size a) (fa_atime a) (fa_mtime a) (fa_ctime a) (fa_last_update a).

Definition is_laminated (ino : unifyfs_inode) : bool := negb (fa_is_laminated (ino_attr ino) =? 0).

(** ** Destruction *)

(** The variables of the loop over the extents. *)
Record destroy_state := DestroyState {
  ds_apps : app_table;
  ds_local_clients : list Z;
  ds_cb_app_id : Z;
  ds_last_client : Z;
}.

Definition client_set_logio (l : logio_context) (c : app_client) : app_client :=
  AppClient (ac_app_id c) (ac_client_id c) (Some l) (ac_initialized c).

(** [track]: the array [local_clients], of [max_clients] entries, was
    allocated. *)
Definition destroy_extent (rank : Z) (track : bool) (max_clients : Z) (st : destroy_state) (curr : extent_tree_node)
    : lres destroy_state :=
  let e := en_extent curr in
  if em_svr_rank e =? rank then
    match get_app_client (ds_apps st) (em_app_id e) (em_cli_id e) with
    | None => LRet st
    | Some client =>
        match ac_logio_ctx client with
        | None => LRet st
        | Some logio =>
            let! '(logio, rc) := unifyfs_logio_free logio (em_log_pos e) (extent_length e) in
            let apps := set_app_client (ds_apps st) (em_app_id e) (em_cli_id e)
                          (Some (client_set_logio logio client)) in
            if track then
              let cb_app_id := if ds_cb_app_id st =? -1 then em_app_id e else ds_cb_app_id st in
              if negb (ds_last_client st =? em_cli_id e) then
                if Z.of_nat (length (ds_local_clients st)) <? max_clients then
                  LRet (DestroyState apps (ds_local_clients st ++ [em_cli_id e]) cb_app_id (em_cli_id e))
                else LFault
              else LRet (DestroyState apps (ds_local_clients st) cb_app_id (em_cli_id e))
            else LRet (DestroyState apps (ds_local_clients st) (ds_cb_app_id st) (ds_last_client st))
        end
    end
  else LRet st.

Fixpoint destroy_extents (rank : Z) (track : bool) (max_clients : Z) (st : destroy_state)
    (nodes : list extent_tree_node) : lres destroy_state :=
  match nodes with
  | [] => LRet st
  | n :: nodes =>
      let! st := destroy_extent rank track max_clients st n in
      destroy_extents rank track max_clients st nodes
  end.

(** [common/src/compare_fn.c] *)
Definition int_compare_fn (a b : Z) : Z := if a =? b then 0 else if a >? b then 1 else -1.

Definition int_le (a b : Z) : Prop := int_compare_fn a b <= 0.

#[export] Instance int_le_dec a b : Decision (int_le a b).
Proof. unfold int_le. apply _. Defined.

(** [qsort] of integers; the result does not depend on the algorithm. *)
Definition qsort_int (l : list Z) : list Z := merge_sort int_le l.

(** [server/src/unifyfs_request_manager.c]: the request is queued for the
    request manager of the client, if there is such a client. *)
Definition rm_submit_client_callback_request (sv : server) (cb : client_callback_req) : server * Z :=
  match get_app_client (sv_apps sv) (cb_app_id cb) (cb_client_id cb) with
  | None => (sv, EINVAL)
  | Some _ => (add_callback cb sv, UNIFYFS_SUCCESS)
  end.

(** The loop over the sorted client ids. *)
Fixpoint unlink_callbacks (sv : server) (app gfid last_client : Z) (ids : list Z) : server :=
  match ids with
  | [] => sv
  | id :: ids =>
      if id =? last_client then unlink_callbacks sv app gfid last_client ids
      else
        let '(cb, m) := calloc (sv_mem sv) in
        let sv := set_mem m sv in
        let sv :=
          match cb with
          | None => sv
          | Some _ => (rm_submit_client_callback_request sv (ClientCallback app id gfid)).1
          end in
        unlink_callbacks sv app gfid id ids
  end.

Definition unifyfs_inode_destroy (sv : server) (ino : unifyfs_inode) : lres (server * Z) :=
  match ino_extents ino with
  | None => LRet (sv, UNIFYFS_SUCCESS)
  | Some tree =>
      let max_clients := extent_tree_count tree in
      let '(local_clients, m) := calloc (sv_mem sv) in
      let sv := set_mem m sv in
      let track := match local_clients with Some _ => true | None => false end in
      let! nodes := lift_option (extent_tree_walk (extent_tree_fuel tree) tree None) in
      let! st := destroy_extents (sv_glb_pmi_rank sv) track max_clients
                   (DestroyState (sv_apps sv) [] (-1) (-1)) nodes in
      let sv := set_apps (ds_apps st) sv in
      let! _ := lift_option (extent_tree_destroy tree) in
      let sv :=
        if track then unlink_callbacks sv (ds_cb_app_id st) (ino_gfid ino) (-1) (qsort_int (ds_local_clients st))
        else sv in
      LRet (sv, UNIFYFS_SUCCESS)
  end.

(** ** Creation and attributes *)

Definition unifyfs_inode_create (now : Z) (sv : server) (gfid : Z) (attr : unifyfs_file_attr_t) : lres (server * Z) :=
  let '(m, ino) := unifyfs_inode_alloc now (sv_mem sv) gfid attr in
  let sv := set_mem m sv in
  match ino with
  | None => LRet (sv, ENOMEM)
  | Some ino =>
      let '(t, ret) := unifyfs_inode_tree_insert (sv_inodes sv) ino in
      let sv := set_inodes t sv in
      if negb (ret =? UNIFYFS_SUCCESS) then
        let! '(sv, _) := unifyfs_inode_destroy sv ino in LRet (sv, ret)
      else LRet (sv, ret)
  end.

Definition unifyfs_inode_update_attr (now : Z) (sv : server) (gfid attr_op : Z) (attr : unifyfs_file_attr_t)
    : server * Z :=
  match unifyfs_inode_lookup sv gfid with
  | None => (sv, ENOENT)
  | Some ino =>
      let '(m, a, _) := unifyfs_file_attr_update now (sv_mem sv) attr_op (ino_attr ino) attr in
      (put_inode ino (set_attr a ino) (set_mem m sv), UNIFYFS_SUCCESS)
  end.

Definition unifyfs_inode_metaset (now : Z) (sv : server) (gfid attr_op : Z) (attr : unifyfs_file_attr_t)
    : lres (server * Z) :=
  if attr_op =? ATTR_OP_CREATE then unifyfs_inode_create now sv gfid attr
  else LRet (unifyfs_inode_update_attr now sv gfid attr_op attr).

Definition unifyfs_inode_metaget (sv : server) (gfid : Z) : option unifyfs_file_attr_t * Z :=
  match unifyfs_inode_lookup sv gfid with
  | Some ino => (Some (ino_attr ino), UNIFYFS_SUCCESS)
  | None => (None, ENOENT)
  end.

Definition unifyfs_inode_unlink (sv : server) (gfid : Z) : lres (server * Z) :=
  let '(t, ret, ino) := unifyfs_inode_tree_remove (sv_inodes sv) gfid in
  let sv := set_inodes t sv in
  match ino with
  | Some ino => if ret =? UNIFYFS_SUCCESS then unifyfs_inode_destroy sv ino else LRet (sv, ret)
  | None => LRet (sv, ret)
  end.

(** [dbg]: debug logging is on. *)
Definition unifyfs_inode_truncate (dbg : bool) (sv : server) (gfid size : Z) : lres (server * Z) :=
  match unifyfs_inode_lookup sv gfid with
  | None => LRet (sv, ENOENT)
  | Some ino =>
      if is_laminated ino then LRet (sv, EINVAL)
      else
        let ino' := set_attr (attr_set_size size (ino_attr ino)) ino in
        match ino_extents ino with
        | None => LRet (put_inode ino ino' sv, UNIFYFS_SUCCESS)
        | Some tree =>
            let! tree := lift_run (extent_tree_truncate dbg tree size) in
            LRet (put_inode ino (set_extents tree ino') sv, UNIFYFS_SUCCESS)
        end
  end.

Definition unifyfs_inode_laminate (sv : server) (gfid : Z) : server * Z :=
  match unifyfs_inode_lookup sv gfid with
  | None => (sv, ENOENT)
  | Some ino => (put_inode ino (set_attr (attr_set_laminated 1 (ino_attr ino)) ino) sv, UNIFYFS_SUCCESS)
  end.

Definition unifyfs_inode_get_filesize (sv : server) (gfid : Z) : Z * Z :=
  match unifyfs_inode_lookup sv gfid with
  | None => (ENOENT, 0)
  | Some ino => (UNIFYFS_SUCCESS, fa_size (ino_attr ino))
  end.

(** ** Extents *)

(** The loop over the array of extents: it stops at the first failure. *)
Fixpoint add_extents_loop (m : mem) (tree : extent_tree) (extents : list extent_metadata)
    : option (mem * extent_tree * Z) :=
  match extents with
  | [] => Some (m, tree, UNIFYFS_SUCCESS)
  | e :: extents =>
      '(m, tree, ret) ← extent_tree_add m tree e;
      if negb (ret =? 0) then Some (m, tree, ret) else add_extents_loop m tree extents
  end.

Definition unifyfs_inode_add_extents (sv : server) (gfid : Z) (extents : list extent_metadata) : lres (server * Z) :=
  match unifyfs_inode_lookup sv gfid with
  | None => LRet (sv, ENOENT)
  | Some ino =>
      if is_laminated ino then LRet (sv, EINVAL)
      else
        match ino_extents ino with
        | None => LRet (sv, UNIFYFS_SUCCESS)
        | Some tree =>
            let! '(m, tree, ret) := lift_option (add_extents_loop (sv_mem sv) tree extents) in
            let ino1 := set_extents tree ino in
            let ino' :=
              if negb (ret =? 0) then ino1
              else
                let extent_sz := extent_tree_max_offset tree ⊞ 1 in
                if extent_sz >? fa_size (ino_attr ino) then set_attr (attr_set_size extent_sz (ino_attr ino)) ino1
                else ino1 in
            LRet (put_inode ino ino' (set_mem m sv), ret)
        end
  end.

(** The item is appended to the list of the inode, which is created when it is
    needed; the result of [arraylist_add] is not looked at. *)
Definition unifyfs_inode_add_pending_extents (sv : server) (gfid client_req num_extents : Z)
    (extents : list extent_metadata) : lres (server * Z) :=
  match unifyfs_inode_lookup sv gfid with
  | None => LRet (sv, ENOENT)
  | Some ino =>
      if is_laminated ino then LRet (sv, EINVAL)
      else
        let '(m, pending) :=
          match ino_pending_extents ino with
          | None => arraylist_create (sv_mem sv) 0
          | Some l => (sv_mem sv, Some l)
          end in
        match pending with
        | None => LRet (set_mem m sv, ENOMEM)
        | Some l =>
            let '(item, m) := calloc m in
            match item with
            | None => LRet (put_inode ino (set_pending (Some l) ino) (set_mem m sv), ENOMEM)
            | Some _ =>
                let! '(m, l, _, _) :=
                  lift_option (arraylist_add m l (Some (PendingItem client_req num_extents extents))) in
                LRet (put_inode ino (set_pending (Some l) ino) (set_mem m sv), UNIFYFS_SUCCESS)
            end
        end
  end.

Definition unifyfs_inode_has_pending_extents (sv : server) (gfid : Z) : bool :=
  match unifyfs_inode_lookup sv gfid with
  | None => false
  | Some ino => match ino_pending_extents ino with Some _ => true | None => false end
  end.

Definition unifyfs_inode_get_pending_extents (sv : server) (gfid : Z)
    : server * option (arraylist_t pending_extents_item) * Z :=
  match unifyfs_inode_lookup sv gfid with
  | None => (sv, None, ENOENT)
  | Some ino =>
      match ino_pending_extents ino with
      | None => (sv, None, UNIFYFS_SUCCESS)
      | Some l => (put_inode ino (set_pending None ino) sv, Some l, UNIFYFS_SUCCESS)
      end
  end.

(** The array has [count] entries; an entry beyond it is a fault. *)
Definition unifyfs_inode_get_extents (sv : server) (gfid : Z) : lres (server * Z * list extent_metadata) :=
  match unifyfs_inode_lookup sv gfid with
  | None => LRet (sv, ENOENT, [])
  | Some ino =>
      let! tree := lift_option (ino_extents ino) in
      let n_extents := extent_tree_count tree in
      let '(p, m) := calloc (sv_mem sv) in
      let sv := set_mem m sv in
      match p with
      | None => LRet (sv, ENOMEM, [])
      | Some _ =>
          let! nodes := lift_option (extent_tree_walk (extent_tree_fuel tree) tree None) in
          if Z.of_nat (length nodes) >? n_extents then LFault
          else LRet (sv, UNIFYFS_SUCCESS, en_extent <$> nodes)
      end
  end.

(** [unifyfs_extent_t] ([common/src/unifyfs_meta.h]) *)
Record unifyfs_extent_t := UnifyfsExtent {
  ue_offset : Z;
  ue_length : Z;
  ue_gfid : Z;
}.

Definition chunk_set_gfid (gfid : Z) (c : chunk_read_req) : chunk_read_req :=
  ChunkReq gfid (cr_nbytes c) (cr_offset c) (cr_log_offset c) (cr_log_app_id c) (cr_log_client_id c) (cr_rank c).

(** The number of chunks, the chunks and the coverage; the number and the
    array are what the caller passed, zero and null, when the inode has no
    extents. *)
Definition unifyfs_inode_get_extent_chunks (sv : server) (extent : unifyfs_extent_t)
    : lres (server * Z * Z * list chunk_read_req * bool) :=
  let gfid := ue_gfid extent in
  match unifyfs_inode_lookup sv gfid with
  | None => LRet (sv, ENOENT, 0, [], false)
  | Some ino =>
      match ino_extents ino with
      | None => LRet (sv, UNIFYFS_SUCCESS, 0, [], false)
      | Some tree =>
          let! '(m, cl) :=
            lift_option (extent_tree_get_chunk_list (sv_mem sv) tree (ue_offset extent) (ue_length extent)) in
          let sv := set_mem m sv in
          if cl_ret cl =? UNIFYFS_SUCCESS then
            LRet (sv, UNIFYFS_SUCCESS, cl_n_chunks cl, chunk_set_gfid gfid <$> cl_chunks cl, cl_extent_covered cl)
          else LRet (sv, cl_ret cl, 0, [], false)
      end
  end.

Definition compare_chunk_read_reqs (c1 c2 : chunk_read_req) : Z :=
  if cr_rank c1 >? cr_rank c2 then 1
  else if cr_rank c1 <? cr_rank c2 then -1
  else if cr_offset c1 >? cr_offset c2 then 1
  else if cr_offset c1 <? cr_offset c2 then -1
  else 0.

(** The loop over the extents of a read request: the chunks of each, whether
    all are covered, and the number of chunks so far. *)
Fixpoint resolve_loop (sv : server) (extents : list unifyfs_extent_t) (n_chunks : Z) (covered : bool)
    : lres (server * Z * (Z * list (list chunk_read_req) * bool)) :=
  match extents with
  | [] => LRet (sv, UNIFYFS_SUCCESS, (n_chunks, [], covered))
  | e :: extents =>
      let! '(sv, ret, n, chunks, cov) := unifyfs_inode_get_extent_chunks sv e in
      if negb (ret =? UNIFYFS_SUCCESS) then LRet (sv, ret, (n_chunks, [], covered))
      else
        let! '(sv, ret, (total, resolved, covered)) := resolve_loop sv extents (u32 (n_chunks + n)) (covered && cov) in
        LRet (sv, ret, (total, chunks :: resolved, covered))
  end.

(** [qsort] is the sorting function of the C library. *)
Definition unifyfs_inode_resolve_extent_chunks (qsort : list chunk_read_req -> list chunk_read_req)
    (sv : server) (extents : list unifyfs_extent_t) : lres (server * Z * Z * list chunk_read_req * bool) :=
  let '(buf, m) := calloc (sv_mem sv) in
  let sv := set_mem m sv in
  match buf with
  | None => LRet (sv, ENOMEM, 0, [], false)
  | Some _ =>
      let! '(sv, ret, (n_chunks, resolved, fully_covered)) := resolve_loop sv extents 0 true in
      if negb (ret =? UNIFYFS_SUCCESS) then LRet (sv, ret, 0, [], false)
      else if n_chunks >? 0 then
        let '(chunks, m) := calloc (sv_mem sv) in
        let sv := set_mem m sv in
        match chunks with
        | None => LRet (sv, ENOMEM, 0, [], false)
        | Some _ =>
            let flat := concat resolved in
            LRet (sv, UNIFYFS_SUCCESS, n_chunks, if n_chunks >? 1 then qsort flat else flat, fully_covered)
        end
      else LRet (sv, UNIFYFS_SUCCESS, n_chunks, [], fully_covered)
  end.

(** ** Listing the files *)

(** The loop of [unifyfs_get_gfids]; the array starts with 64 entries and is
    reallocated with twice as many when it is full. *)
Fixpoint gfids_loop (m : mem) (gfid_list_size : Z) (gfid_list : list Z) (nodes : list unifyfs_inode)
    : mem * option (list Z) :=
  match nodes with
  | [] => (m, Some gfid_list)
  | node :: nodes =>
      let '(ok, m, gfid_list_size) :=
        if Z.of_nat (length gfid_list) =? gfid_list_size then
          let '(p, m) := calloc m in
          (match p with Some _ => true | None => false end, m, gfid_list_size * 2)
        else (true, m, gfid_list_size) in
      if ok then gfids_loop m gfid_list_size (gfid_list ++ [ino_gfid node]) nodes else (m, None)
  end.

Definition unifyfs_get_gfids (sv : server) : lres (server * Z * list Z) :=
  let '(p, m) := calloc (sv_mem sv) in
  match p with
  | None => LRet (set_mem m sv, ENOMEM, [])
  | Some _ =>
      let! nodes := lift_option (inode_tree_walk (inode_tree_fuel (sv_inodes sv)) (sv_inodes sv) None) in
      match gfids_loop m 64 [] nodes with
      | (m, None) => LRet (set_mem m sv, ENOMEM, [])
      | (m, Some l) => LRet (set_mem m sv, UNIFYFS_SUCCESS, l)
      end
  end.

Definition attr_set_filename (f : option string) (a : unifyfs_file_attr_t) : unifyfs_file_attr_t :=
  FileAttr f (fa_gfid a) (fa_is_laminated a) (fa_is_shared a) (fa_mode a) (fa_uid a) (fa_gid a)
    (fa_size a) (fa_atime a) (fa_mtime a) (fa_ctime a) (fa_last_update a).

(** The loop of [unifyfs_get_owned_files]; [strdup] of a missing name is a
    fault. *)
Fixpoint owned_loop (sv : server) (attr_list_size : Z) (attr_list : list unifyfs_file_attr_t)
    (nodes : list unifyfs_inode) : lres (server * option (list unifyfs_file_attr_t)) :=
  match nodes with
  | [] => LRet (sv, Some attr_list)
  | node :: nodes =>
      let '(ok, m, attr_list_size) :=
        if Z.of_nat (length attr_list) =? attr_list_size then
          let '(p, m) := calloc (sv_mem sv) in
          (match p with Some _ => true | None => false end, m, attr_list_size * 2)
        else (true, sv_mem sv, attr_list_size) in
      let sv := set_mem m sv in
      if negb ok then LRet (sv, None)
      else if hash_gfid_to_server sv (fa_gfid (ino_attr node)) =? sv_glb_pmi_rank sv then
        let! name := lift_option (fa_filename (ino_attr node)) in
        let '(m, f) := strdup (sv_mem sv) name in
        owned_loop (set_mem m sv) attr_list_size (attr_list ++ [attr_set_filename f (ino_attr node)]) nodes
      else owned_loop sv attr_list_size attr_list nodes
  end.

Definition unifyfs_get_owned_files (sv : server) : lres (server * Z * list unifyfs_file_attr_t) :=
  let '(p, m) := calloc (sv_mem sv) in
  let sv := set_mem m sv in
  match p with
  | None => LRet (sv, ENOMEM, [])
  | Some _ =>
      let! nodes := lift_option (inode_tree_walk (inode_tree_fuel (sv_inodes sv)) (sv_inodes sv) None) in
      let! '(sv, r) := owned_loop sv 64 [] nodes in
      match r with
      | None => LRet (sv, ENOMEM, [])
      | Some l => LRet (sv, UNIFYFS_SUCCESS, l)
      end
  end.

(** ** Clearing the tree *)

(** The loop of [unifyfs_inode_tree_clear]
    ([server/src/unifyfs_inode_tree.c]): a node is removed and destroyed once
    the iteration is past it. *)
Fixpoint inode_tree_clear_loop (fuel : nat) (sv : server) (node oldnode : option unifyfs_inode) : lres server :=
  let drop (o : option unifyfs_inode) : lres server :=
    match o with
    | Some n =>
        let! '(sv, _) := unifyfs_inode_destroy (set_inodes (RB_REMOVE (sv_inodes sv) (ino_addr n)) sv) n in LRet sv
    | None => LRet sv
    end in
  match fuel with
  | O => LFault
  | S fuel =>
      match unifyfs_inode_tree_iter (sv_inodes sv) node with
      | Some n => let! sv := drop oldnode in inode_tree_clear_loop fuel sv (Some n) (Some n)
      | None => drop oldnode
      end
  end.

Definition unifyfs_inode_tree_clear (sv : server) : lres server :=
  if RB_EMPTY (sv_inodes sv) then LRet sv
  else inode_tree_clear_loop (inode_tree_fuel (sv_inodes sv)) sv None None.

(** ** The invariant of a server *)

Definition sv_map (sv : server) : gmap Z unifyfs_inode := it_map (sv_inodes sv).

Record ino_wf (m : mem) (ino : unifyfs_inode) : Prop := {
  ino_wf_extents tree : ino_extents ino = Some tree -> rt_wf m tree;
  ino_wf_pending l : ino_pending_extents ino = Some l -> exists g, al_repr l g;
  ino_wf_some : is_Some (ino_extents ino);
}.

Record sv_wf (sv : server) : Prop := {
  sv_wf_tree : it_wf (sv_mem sv) (sv_inodes sv);
  sv_wf_ino g ino : sv_map sv !! g = Some ino -> ino_wf (sv_mem sv) ino;
}.

Lemma ino_wf_mono m m' ino : mem_next m <= mem_next m' -> ino_wf m ino -> ino_wf m' ino.
Proof. intros Hm [He Hp Hs]. split; [|done|done]. intros tree Ht. eapply rt_wf_mono; [done|by apply He]. Qed.

Lemma sv_wf_alloc sv m : mem_next (sv_mem sv) <= mem_next m -> sv_wf sv -> sv_wf (set_mem m sv).
Proof.
  intros Hm [Ht Hi]. split; [by eapply it_wf_mono|]. intros g ino Hg. eapply ino_wf_mono; [done|by eapply Hi].
Qed.

Lemma sv_wf_other sv apps : sv_wf sv -> sv_wf (set_apps apps sv).
Proof. by intros [Ht Hi]. Qed.

Lemma sv_wf_callback sv cb : sv_wf sv -> sv_wf (add_callback cb sv).
Proof. by intros [Ht Hi]. Qed.

Lemma lookup_map sv g : sv_wf sv -> unifyfs_inode_lookup sv g = sv_map sv !! g.
Proof. intros [Ht _]. by apply (tree_search_map (sv_mem sv)). Qed.

(** Writing a changed inode back. *)
Lemma put_inode_ok sv m g ino ino' :
  sv_wf sv -> mem_next (sv_mem sv) <= mem_next m -> sv_map sv !! g = Some ino ->
  ino_gfid ino' = ino_gfid ino -> ino_addr ino' = ino_addr ino -> ino_wf m ino' ->
  sv_wf (put_inode ino ino' (set_mem m sv)) /\
  sv_map (put_inode ino ino' (set_mem m sv)) = <[g := ino']> (sv_map sv).
Proof.
  intros Hwf Hm Hg Hgf Ha Hi. pose proof (sv_wf_alloc sv m Hm Hwf) as [Ht Hi'].
  pose proof Hg as Hg'. apply (it_map_some (sv_mem sv)) in Hg' as [Hin Heq]; [|apply Hwf].
  destruct (tree_update_ok m (sv_inodes sv) ino ino' Ht Hin Hgf Ha) as [Ht' Hmap]. rewrite Heq in Hmap.
  split; [|done]. split; [done|]. intros g' x. change (sv_map (put_inode ino ino' (set_mem m sv)))
    with (it_map (inode_update (sv_inodes sv) ino ino')). rewrite Hmap.
  intros [[<- <-]|[Hne Hx]]%lookup_insert_Some; [done|]. by eapply Hi'.
Qed.

Lemma set_mem_id sv : set_mem (sv_mem sv) sv = sv.
Proof. by destruct sv. Qed.

Lemma put_inode_same sv g ino ino' :
  sv_wf sv -> sv_map sv !! g = Some ino ->
  ino_gfid ino' = ino_gfid ino -> ino_addr ino' = ino_addr ino -> ino_wf (sv_mem sv) ino' ->
  sv_wf (put_inode ino ino' sv) /\ sv_map (put_inode ino ino' sv) = <[g := ino']> (sv_map sv).
Proof.
  intros Hwf Hg Hgf Ha Hi. pose proof (put_inode_ok sv (sv_mem sv) g ino ino' Hwf ltac:(lia) Hg Hgf Ha Hi) as H.
  by rewrite set_mem_id in H.
Qed.

(** ** Adding extents *)

(** The specification of [max] after a sequence of additions. *)
Definition extents_max (mx : Z) (es : list extent_metadata) : Z :=
  fold_left (fun mx e => Z.max mx (em_end e)) es mx.

Record add_extents_post (m : mem) (tree : extent_tree) (es : list extent_metadata)
    (m' : mem) (tree' : extent_tree) (rc : Z) : Prop := {
  aep_next : mem_next m <= mem_next m';
  aep_wf : rt_wf m' tree';
  aep_rc : rc = 0 \/ rc = ENOMEM;
  aep_plenty : mem_plenty m -> rc = 0 /\ mem_plenty m';
  aep_lookup b : rc = 0 -> rt_lookup tree' b = wi_last es b (rt_lookup tree b);
  aep_max : rc = 0 -> rt_max tree' = extents_max (rt_max tree) es;
  aep_length : (length (rt_nodes tree') <= 2 * length es + length (rt_nodes tree))%nat;
}.

Lemma add_extents_loop_ok es : forall m tree,
  rt_wf m tree -> Forall em_valid es ->
  exists m' tree' rc, add_extents_loop m tree es = Some (m', tree', rc) /\ add_extents_post m tree es m' tree' rc.
Proof.
  induction es as [|e es IH]; intros m tree Hwf Hes; simpl.
  - exists m, tree, 0. split; [done|]. split; [lia|done|by left|done|done|done|simpl; lia].
  - apply Forall_cons in Hes as [He Hes].
    destruct (extent_tree_add_post m tree e Hwf He) as (m1 & tree1 & rc1 & -> & [Hn1 Hrc1 Hp1 Hwf1 Hmx1 Hout1 _ Hin1 Hlen1]).
    simpl. destruct (rc1 =? 0) eqn:H0; zbool; simpl.
    + subst rc1. destruct (IH m1 tree1 Hwf1 Hes) as (m2 & tree2 & rc2 & -> & [Hn2 Hwf2 Hrc2 Hp2 Hl2 Hmx2 Hlen2]).
      exists m2, tree2, rc2. split; [done|]. split; [lia|done|done| | | |simpl; lia].
      * intros Hpl. apply Hp2. by apply Hp1.
      * intros b Hrc. rewrite Hl2 //.
        rewrite (if_in_range (em_start e) (em_end e) b (Some (extent_byte_loc e b)) (rt_lookup tree b)
          (rt_lookup tree1 b)); [by apply Hin1|by apply Hout1|done].
      * intros Hrc. by rewrite Hmx2 // Hmx1.
    + exists m1, tree1, rc1. split; [done|]. split; [done|done|done| |done|done|simpl; lia].
      intros Hpl. by apply Hp1.
Qed.

(** ** Destruction leaves the other inodes alone *)

(** [sv'] differs from [sv] only in allocations, client logs and callbacks. *)
Record same_inodes (sv sv' : server) : Prop := {
  si_inodes : sv_inodes sv' = sv_inodes sv;
  si_mem : mem_next (sv_mem sv) <= mem_next (sv_mem sv');
  si_rank : sv_glb_pmi_rank sv' = sv_glb_pmi_rank sv;
  si_size : sv_glb_pmi_size sv' = sv_glb_pmi_size sv;
}.

Lemma same_inodes_refl sv : same_inodes sv sv.
Proof. split; [done|lia|done|done]. Qed.

Lemma same_inodes_trans sv1 sv2 sv3 : same_inodes sv1 sv2 -> same_inodes sv2 sv3 -> same_inodes sv1 sv3.
Proof. intros [] []. split; [congruence|lia|congruence|congruence]. Qed.

Lemma same_inodes_wf sv sv' : same_inodes sv sv' -> sv_wf sv -> sv_wf sv'.
Proof.
  intros [Hi Hm _ _] [Ht Hino]. split; [rewrite Hi; by eapply it_wf_mono|].
  unfold sv_map. rewrite Hi. intros g ino Hg. eapply ino_wf_mono; [done|by eapply Hino].
Qed.

Lemma set_mem_same sv m : mem_next (sv_mem sv) <= mem_next m -> same_inodes sv (set_mem m sv).
Proof. by split. Qed.

Lemma unlink_callbacks_same ids : forall sv app gfid last, same_inodes sv (unlink_callbacks sv app gfid last ids).
Proof.
  induction ids as [|id ids IH]; intros sv app gfid last; simpl; [apply same_inodes_refl|].
  destruct (id =? last); [apply IH|]. destruct (calloc (sv_mem sv)) as [p m] eqn:Hc.
  eapply same_inodes_trans; [apply (set_mem_same sv m); by apply calloc_next in Hc|].
  eapply same_inodes_trans; [|apply IH]. destruct p; [|apply same_inodes_refl].
  unfold rm_submit_client_callback_request. simpl. destruct (get_app_client _ _ _); [|apply same_inodes_refl].
  split; simpl; [done|lia|done|done].
Qed.

Lemma inode_destroy_same sv ino sv' rc :
  unifyfs_inode_destroy sv ino = LRet (sv', rc) -> same_inodes sv sv' /\ rc = UNIFYFS_SUCCESS.
Proof.
  unfold unifyfs_inode_destroy. destruct (ino_extents ino) as [tree|]; [|intros [= <- <-]; split; [apply same_inodes_refl|done]].
  destruct (calloc (sv_mem sv)) as [p m] eqn:Hc. apply calloc_next in Hc.
  destruct (extent_tree_walk _ _ _) as [nodes|]; [|done]. simpl.
  destruct (destroy_extents _ _ _ _ _) as [st| |]; [|done..]. simpl.
  destruct (extent_tree_destroy tree); [|done]. simpl. intros [= <- <-]. split; [|done].
  eapply same_inodes_trans; [by apply (set_mem_same sv m)|].
  eapply (same_inodes_trans _ (set_apps (ds_apps st) (set_mem m sv))); [split; simpl; [done|lia|done|done]|].
  destruct p; [apply unlink_callbacks_same|apply same_inodes_refl].
Qed.

(** ** The effect of every operation on the map of inodes *)

Lemma file_attr_update_next now m op dst src m' a rc :
  unifyfs_file_attr_update now m op dst src = (m', a, rc) -> mem_next m <= mem_next m'.
Proof.
  unfold unifyfs_file_attr_update. destruct (_ || _); [intros [= <- _ _]; lia|].
  destruct (fa_filename src) as [s|]; [destruct (fa_filename dst)|]; try (intros [= <- _ _]; lia).
  unfold strdup. destruct (calloc m) as [p m1] eqn:Hc. apply calloc_next in Hc. intros [= <- _ _]. lia.
Qed.

Lemma inode_alloc_some now m gfid attr m' ino :
  unifyfs_inode_alloc now m gfid attr = (m', Some ino) ->
  exists m1, calloc m = (Some (mem_next m), m1) /\ mem_next m1 <= mem_next m' /\ ino_addr ino = mem_next m /\
    ino_gfid ino = gfid /\ ino_extents ino = Some extent_tree_init /\ ino_pending_extents ino = None.
Proof.
  unfold unifyfs_inode_alloc. destruct (calloc m) as [[a|] m1] eqn:Hc; [|done].
  destruct (calloc m1) as [[b|] m2] eqn:Hc2; [|done]. apply calloc_next in Hc2.
  destruct (unifyfs_file_attr_update _ _ _ _ _) as [[m3 at3] rc] eqn:Hu. apply file_attr_update_next in Hu.
  intros [= <- <-]. pose proof (calloc_some _ _ _ Hc) as [-> _]. exists m1. split_and!; [done|lia|done..].
Qed.

Lemma inode_alloc_next now m gfid attr m' r :
  unifyfs_inode_alloc now m gfid attr = (m', r) -> mem_next m <= mem_next m'.
Proof.
  unfold unifyfs_inode_alloc. destruct (calloc m) as [[a|] m1] eqn:Hc; apply calloc_next in Hc; [|by intros [= <- _]].
  destruct (calloc m1) as [[b|] m2] eqn:Hc2; apply calloc_next in Hc2; [|intros [= <- _]; lia].
  destruct (unifyfs_file_attr_update _ _ _ _ _) as [[m3 at3] rc] eqn:Hu. apply file_attr_update_next in Hu.
  intros [= <- _]. lia.
Qed.

(** The map after a call that changed nothing but the inode [g]. *)
Definition changes_inode (sv sv' : server) (g : Z) (o : option unifyfs_inode) : Prop :=
  sv_wf sv' /\ sv_map sv' = partial_alter (fun _ => o) g (sv_map sv).

Lemma changes_nothing sv sv' g : sv_wf sv' -> sv_map sv' = sv_map sv -> changes_inode sv sv' g (sv_map sv !! g).
Proof. intros Hwf He. split; [done|]. by rewrite He partial_alter_self. Qed.

Lemma inode_create_ok now sv gfid attr sv' rc :
  sv_wf sv -> unifyfs_inode_create now sv gfid attr = LRet (sv', rc) ->
  sv_wf sv' /\
  (rc <> UNIFYFS_SUCCESS /\ sv_map sv' = sv_map sv \/
   rc = UNIFYFS_SUCCESS /\ sv_map sv !! gfid = None /\ exists ino, sv_map sv' = <[gfid := ino]> (sv_map sv) /\
     ino_gfid ino = gfid /\ fa_gfid (ino_attr ino) = gfid /\ ino_extents ino = Some extent_tree_init /\
     ino_pending_extents ino = None /\ exists m, unifyfs_inode_alloc now (sv_mem sv) gfid attr = (m, Some ino)).
Proof.
  intros Hwf. unfold unifyfs_inode_create. destruct (unifyfs_inode_alloc _ _ _ _) as [m [ino|]] eqn:Ha.
  2:{ intros [= <- <-]. apply inode_alloc_next in Ha. split; [by apply sv_wf_alloc|]. by left. }
  pose proof (inode_alloc_next _ _ _ _ _ _ Ha) as Hnext. pose proof Ha as Halloc.
  apply inode_alloc_some in Ha as (m1 & Hc & Hm1 & Haddr & Hg & He & Hp). cbn [sv_inodes set_mem].
  destruct (unifyfs_inode_tree_insert (sv_inodes sv) ino) as [t ret] eqn:Hi.
  destruct (tree_insert_map _ _ _ _ _ _ _ (sv_wf_tree _ Hwf) Hc Haddr Hi) as [Ht Hcase].
  pose proof (sv_wf_alloc sv m Hnext Hwf) as Hwfm. rewrite Hg in Hcase.
  assert (ret <> UNIFYFS_SUCCESS /\ t = sv_inodes sv \/ ret = UNIFYFS_SUCCESS /\ sv_map sv !! gfid = None /\
    fa_gfid (ino_attr ino) = gfid /\ it_map t = <[gfid := ino]> (sv_map sv)) as [[Hne ->]|(-> & Hnone & Hag & Hmap)].
  { destruct (negb (gfid =? fa_gfid (ino_attr ino))) eqn:Hb; [left; by destruct Hcase as [-> ->]|].
    apply negb_eqb_false in Hb. unfold sv_map. destruct (it_map (sv_inodes sv) !! gfid); [left; by destruct Hcase as [-> ->]|].
    right. by destruct Hcase as [-> ->]. }
  - rewrite (proj2 (Z.eqb_neq _ _) Hne). cbn [negb]. destruct (unifyfs_inode_destroy _ _) as [[sv2 rc2]| |] eqn:Hd; [|done..].
    intros [= <- <-]. apply inode_destroy_same in Hd as [Hs _]. split.
    + eapply same_inodes_wf; [exact Hs|]. by destruct Hwfm.
    + left. split; [done|]. unfold sv_map. by rewrite (si_inodes _ _ Hs).
  - simpl. intros [= <- <-]. split; [|right; split_and!; [done..|]; exists ino; eauto 10].
    split; [eapply it_wf_mono; [|exact Ht]; simpl; lia|]. intros g x. change (sv_map _) with (it_map t). rewrite Hmap.
    intros [[<- <-]|[_ Hx]]%lookup_insert_Some; [|by eapply (sv_wf_ino _ Hwfm)].
    split; [rewrite He; intros ? [= <-]; apply rt_wf_null|by rewrite Hp|by rewrite He].
Qed.

Lemma inode_unlink_ok sv gfid sv' rc :
  sv_wf sv -> unifyfs_inode_unlink sv gfid = LRet (sv', rc) ->
  changes_inode sv sv' gfid None /\ rc = match sv_map sv !! gfid with Some _ => UNIFYFS_SUCCESS | None => ENOENT end.
Proof.
  intros Hwf. unfold unifyfs_inode_unlink. destruct (unifyfs_inode_tree_remove _ _) as [[t ret] r] eqn:Hr.
  destruct (tree_remove_map _ _ _ _ _ _ (sv_wf_tree _ Hwf) Hr) as (Ht & -> & Hmap & Hret).
  fold (sv_map sv) in Hmap, Hret |- *.
  assert (sv_wf (set_inodes t sv)) as Hwf'.
  { split; [done|]. intros g x. change (sv_map _) with (it_map t). rewrite Hmap.
    intros [_ Hx]%lookup_delete_Some. by eapply (sv_wf_ino _ Hwf). }
  destruct (sv_map sv !! gfid) as [ino|] eqn:Hg; subst ret; simpl.
  - intros [Hs ->]%inode_destroy_same. split; [|done]. split; [by eapply same_inodes_wf|].
    unfold sv_map at 1. by rewrite (si_inodes _ _ Hs).
  - intros [= <- <-]. split; [|done]. by split.
Qed.

Lemma inode_update_attr_ok now sv gfid op attr :
  sv_wf sv ->
  let '(sv', rc) := unifyfs_inode_update_attr now sv gfid op attr in
  sv_wf sv' /\
  match sv_map sv !! gfid with
  | None => rc = ENOENT /\ sv' = sv
  | Some ino => rc = UNIFYFS_SUCCESS /\ sv_map sv' =
      <[gfid := set_attr (unifyfs_file_attr_update now (sv_mem sv) op (ino_attr ino) attr).1.2 ino]> (sv_map sv)
  end.
Proof.
  intros Hwf. unfold unifyfs_inode_update_attr. rewrite lookup_map //.
  destruct (sv_map sv !! gfid) as [ino|] eqn:Hg; [|done].
  destruct (unifyfs_file_attr_update _ _ _ _ _) as [[m a] rc] eqn:Hu. apply file_attr_update_next in Hu.
  destruct (put_inode_ok sv m gfid ino (set_attr a ino) Hwf Hu Hg) as [Hwf' Hmap]; [done|done| |done].
  eapply ino_wf_mono; [exact Hu|]. by destruct (sv_wf_ino _ Hwf _ _ Hg).
Qed.

Lemma inode_laminate_ok sv gfid :
  sv_wf sv ->
  let '(sv', rc) := unifyfs_inode_laminate sv gfid in
  sv_wf sv' /\
  match sv_map sv !! gfid with
  | None => rc = ENOENT /\ sv' = sv
  | Some ino => rc = UNIFYFS_SUCCESS /\
      sv_map sv' = <[gfid := set_attr (attr_set_laminated 1 (ino_attr ino)) ino]> (sv_map sv)
  end.
Proof.
  intros Hwf. unfold unifyfs_inode_laminate. rewrite lookup_map //.
  destruct (sv_map sv !! gfid) as [ino|] eqn:Hg; [|done].
  destruct (put_inode_same sv gfid ino (set_attr (attr_set_laminated 1 (ino_attr ino)) ino) Hwf Hg) as [Hwf' Hmap]; [done|done| |done].
  by destruct (sv_wf_ino _ Hwf _ _ Hg).
Qed.

(** A file that can be written. *)
Definition writable (sv : server) (gfid : Z) (ino : unifyfs_inode) (tree : extent_tree) : Prop :=
  sv_map sv !! gfid = Some ino /\ is_laminated ino = false /\ ino_extents ino = Some tree.

(** Truncation does not raise the largest offset. *)
Lemma extent_tree_truncate_max dbg m tree size tree' :
  rt_wf m tree -> is_u64 size -> 0 <= rt_max tree -> extent_tree_truncate dbg tree size = Done tree' ->
  0 <= rt_max tree' <= rt_max tree.
Proof.
  intros Hwf Hsz H0 Ht. pose proof (extent_tree_truncate_spec dbg m tree size Hwf Hsz) as Hs. rewrite Ht in Hs.
  destruct Hs as (Hwf' & Hl & Hmax & _). destruct (decide (rt_nodes tree = [] /\ size = 0)) as [[He ->]|Hne].
  - unfold extent_tree_truncate in Ht. simpl in Ht. rewrite (extent_tree_clear_spec m tree Hwf) in Ht.
    injection Ht as <-. simpl. destruct (RB_EMPTY _); lia.
  - unfold is_u64 in Hsz. rewrite Hmax; [destruct (decide (size = 0)); [left; naive_solver|right; lia]|]. unfold last_offset.
    destruct (last (rt_nodes tree')) as [n|] eqn:Hn; [|lia]. apply last_Some in Hn as [l Hn].
    assert (n ∈ rt_nodes tree') as Hin by (rewrite Hn; set_solver).
    destruct (rt_wf_elem _ _ _ Hwf' Hin) as [[Hb1 Hb2] _]. simpl in Hb1, Hb2.
    specialize (Hl (em_end (en_extent n))). unfold rt_lookup at 1 in Hl.
    rewrite (iv_lookup_elem _ n) // in Hl; [apply (rt_wf_sorted _ _ Hwf')|simpl; lia|].
    destruct (_ <? size); [|done]. symmetry in Hl. apply iv_lookup_some in Hl as (e & He & Hr & _).
    destruct (rt_wf_elem _ _ _ Hwf He) as [_ Hmx]. lia.
Qed.

Lemma inode_truncate_ok dbg sv gfid size ino tree :
  sv_wf sv -> is_u64 size -> writable sv gfid ino tree ->
  match unifyfs_inode_truncate dbg sv gfid size with
  | LRet (sv', rc) => rc = UNIFYFS_SUCCESS /\ sv_wf sv' /\ exists tree',
      sv_map sv' = <[gfid := set_extents tree' (set_attr (attr_set_size size (ino_attr ino)) ino)]> (sv_map sv) /\
      (0 <= rt_max tree -> 0 <= rt_max tree' <= rt_max tree) /\
      (length (rt_nodes tree') <= length (rt_nodes tree))%nat /\
      forall b, rt_lookup tree' b = if b <? size then rt_lookup tree b else None
  | _ => dbg = true
  end.
Proof.
  intros Hwf Hsz (Hg & Hl & He). unfold unifyfs_inode_truncate. rewrite lookup_map // Hg Hl He.
  pose proof (ino_wf_extents _ _ (sv_wf_ino _ Hwf _ _ Hg) _ He) as Hrt.
  pose proof (extent_tree_truncate_spec dbg _ tree size Hrt Hsz) as Hspec.
  destruct (extent_tree_truncate dbg tree size) as [tree'| |] eqn:Htr; simpl; [|by destruct Hspec|done].
  destruct Hspec as (Hwt & Hlk & _ & Hlen). split; [done|].
  pose proof (extent_tree_truncate_max dbg _ tree size tree' Hrt Hsz) as Hmx.
  destruct (put_inode_same sv gfid ino (set_extents tree' (set_attr (attr_set_size size (ino_attr ino)) ino)) Hwf Hg)
    as [Hwf' Hmap]; [done|done| |split; [done|]; exists tree'; auto].
  destruct (sv_wf_ino _ Hwf _ _ Hg) as [_ Hp _]. split; [|done|done]. by intros ? [= <-].
Qed.

Lemma inode_add_extents_ok sv gfid es ino tree :
  sv_wf sv -> Forall em_valid es -> writable sv gfid ino tree ->
  exists sv' rc m' tree', unifyfs_inode_add_extents sv gfid es = LRet (sv', rc) /\ sv_wf sv' /\
    sv_mem sv' = m' /\ add_extents_post (sv_mem sv) tree es m' tree' rc /\
    sv_map sv' = <[gfid :=
      if (rc =? 0) && (rt_max tree' ⊞ 1 >? fa_size (ino_attr ino))
      then set_attr (attr_set_size (rt_max tree' ⊞ 1) (ino_attr ino)) (set_extents tree' ino)
      else set_extents tree' ino]> (sv_map sv).
Proof.
  intros Hwf Hes (Hg & Hl & He). unfold unifyfs_inode_add_extents. rewrite lookup_map // Hg Hl He.
  pose proof (sv_wf_ino _ Hwf _ _ Hg) as [Hrt Hp _]. specialize (Hrt _ He).
  destruct (add_extents_loop_ok es _ tree Hrt Hes) as (m' & tree' & rc & -> & Hpost). simpl.
  set (ino' := if negb (rc =? 0) then _ else _).
  assert (ino' = if (rc =? 0) && (rt_max tree' ⊞ 1 >? fa_size (ino_attr ino))
      then set_attr (attr_set_size (rt_max tree' ⊞ 1) (ino_attr ino)) (set_extents tree' ino)
      else set_extents tree' ino) as Hino by (unfold ino'; by destruct (rc =? 0)).
  destruct (put_inode_ok sv m' gfid ino ino' Hwf (aep_next _ _ _ _ _ _ Hpost) Hg) as [Hwf' Hmap].
  - unfold ino'. destruct (negb _); [done|]. by destruct (_ >? _).
  - unfold ino'. destruct (negb _); [done|]. by destruct (_ >? _).
  - assert (ino_extents ino' = Some tree' /\ ino_pending_extents ino' = ino_pending_extents ino) as [H1 H2].
    { unfold ino'. destruct (negb _); [done|]. by destruct (_ >? _). }
    split; [rewrite H1; intros ? [= <-]; apply Hpost|by rewrite H2|by rewrite H1].
  - eexists _, rc, m', tree'. split; [done|]. split_and!; [done..|by rewrite -Hino].
Qed.

Lemma add_pending_ok sv gfid creq n es sv' rc :
  sv_wf sv -> unifyfs_inode_add_pending_extents sv gfid creq n es = LRet (sv', rc) ->
  sv_wf sv' /\ mem_le (sv_mem sv) (sv_mem sv') /\
  (sv_map sv' = sv_map sv \/ exists ino l, sv_map sv !! gfid = Some ino /\ is_laminated ino = false /\
    sv_map sv' = <[gfid := set_pending (Some l) ino]> (sv_map sv) /\
    forall it, Some it ∈ al_elems l ->
      it = PendingItem creq n es \/ exists l0, ino_pending_extents ino = Some l0 /\ Some it ∈ al_elems l0).
Proof.
  intros Hwf. unfold unifyfs_inode_add_pending_extents. rewrite lookup_map //.
  destruct (sv_map sv !! gfid) as [ino|] eqn:Hg; [|intros [= <- <-]; split_and!; [done|done|by left]].
  destruct (is_laminated ino) eqn:Hl; [intros [= <- <-]; split_and!; [done|done|by left]|].
  pose proof (sv_wf_ino _ Hwf _ _ Hg) as [Hext Hpend Hsome].
  set (pl := match ino_pending_extents ino with Some l => _ | None => _ end).
  assert (mem_le (sv_mem sv) pl.1 /\ forall l, pl.2 = Some l -> (exists g, al_repr l g) /\
    forall it, Some it ∈ al_elems l -> exists l0, ino_pending_extents ino = Some l0 /\ Some it ∈ al_elems l0) as [Hm0 Hl0].
  { unfold pl. destruct (ino_pending_extents ino) as [l|].
    - split; [done|]. intros ? [= <-]. split; [by apply Hpend|eauto].
    - pose proof (arraylist_create_ok (A := pending_extents_item) (sv_mem sv) 0 ltac:(lia)) as H.
      pose proof (arraylist_create_le (A := pending_extents_item) (sv_mem sv) 0) as Hm.
      pose proof (fun l => arraylist_create_elems (A := pending_extents_item) (sv_mem sv) 0 l) as He.
      destruct (arraylist_create _ _) as [m r]. destruct H as (_ & _ & Hr). split; [done|]. intros l Hrl. split; [eauto|].
      intros it Hit. by apply He in Hit. }
  destruct pl as [m0 [l|]]; simpl in *; [|intros [= <- <-]; split_and!; [apply sv_wf_alloc; [apply Hm0|done]|done|by left]].
  destruct (Hl0 l eq_refl) as [[g Hal] Hold].
  assert (forall m l', mem_next (sv_mem sv) <= mem_next m -> (exists g, al_repr l' g) ->
    sv_wf (put_inode ino (set_pending (Some l') ino) (set_mem m sv)) /\
    sv_map (put_inode ino (set_pending (Some l') ino) (set_mem m sv)) =
      <[gfid := set_pending (Some l') ino]> (sv_map sv)) as Hput.
  { intros m l' Hm Hl'. apply put_inode_ok; [done..|]. split; [|by intros ? [= <-]|done].
    intros t Ht. eapply rt_wf_mono; [exact Hm|by apply Hext]. }
  destruct (calloc m0) as [[a|] m1] eqn:Hc; apply calloc_le in Hc; pose proof (transitivity Hm0 Hc) as Hm1.
  - destruct (arraylist_add m1 l _) as [[[[m2 l2] f] r]|] eqn:Ha; [|done]. simpl. intros [= <- <-].
    destruct (arraylist_add_repr _ _ _ _ _ _ _ _ Hal Ha) as [_ Hg2]. apply arraylist_add_elems in Ha as [Hm2 Hel].
    pose proof (transitivity Hm1 Hm2) as Hm3.
    destruct (Hput m2 l2) as [H1 H2]; [apply Hm3|done|]. split_and!; [done|done|right]. exists ino, l2. split_and!; [done..|].
    intros it [->|Hit]%Hel; auto.
  - intros [= <- <-]. destruct (Hput m1 l) as [H1 H2]; [apply Hm1|eauto|]. split_and!; [done|done|right].
    exists ino, l. split_and!; [done..|]. auto.
Qed.

Lemma get_pending_ok sv gfid :
  sv_wf sv ->
  let '(sv', l, rc) := unifyfs_inode_get_pending_extents sv gfid in
  sv_wf sv' /\
  match sv_map sv !! gfid with
  | None => rc = ENOENT /\ l = None /\ sv_map sv' = sv_map sv
  | Some ino => rc = UNIFYFS_SUCCESS /\ l = ino_pending_extents ino /\
      sv_map sv' = <[gfid := set_pending None ino]> (sv_map sv)
  end.
Proof.
  intros Hwf. unfold unifyfs_inode_get_pending_extents. rewrite lookup_map //.
  destruct (sv_map sv !! gfid) as [ino|] eqn:Hg; [|done].
  destruct (ino_pending_extents ino) as [l|] eqn:Hp.
  - destruct (put_inode_same sv gfid ino (set_pending None ino) Hwf Hg) as [H1 H2]; [done|done| |by split_and!].
    destruct (sv_wf_ino _ Hwf _ _ Hg) as [He _ Hs]. by split.
  - split_and!; [done..|]. symmetry. apply insert_id. rewrite Hg. f_equal. destruct ino; simpl in *. by subst.
Qed.
