(* ===== verification/InodeProps.v ===== *)
(** * Properties of the inodes of a server

    The calls that the handlers of a server make on its inodes, as a step
    relation, and what holds after any sequence of them: the size of a file
    covers its data, and a laminated file does not change.  Then the functional
    properties of adding extents, resolving read requests, listing files and
    unlinking them. *)

From Stdlib Require Import String.
From S2P Require Import Prelude.
From S2P Require Import RbTree.
From S2P Require Import Extents.
From S2P Require Import RangeTree.
From S2P Require Import ExtentTree.
From S2P Require Import WriteIndex.
From S2P Require Import SlotMap.
From S2P Require Import LogIO.
From S2P Require Import ArrayList.
From S2P Require Import Meta.
From S2P Require Import AppTable.
From S2P Require Import InodeTree.
From S2P Require Import Inode.

Implicit Types (sv : server) (ino : unifyfs_inode) (tree : extent_tree).

(** ** Steps *)

Definition ext_ok (e : extent_metadata) : Prop := em_valid e /\ em_end e < ULONG_MAX.

(** One call.  [upd] restricts the attribute updates, [unl] the files that are
    unlinked, and [oom] says whether adding extents may run out of memory.  The
    functions that only read the inodes change at most the allocator, and those
    that manage clients change the application table. *)
Inductive server_step (upd : Z -> unifyfs_file_attr_t -> Prop) (unl : Z -> Prop) (oom : Prop)
    : server -> server -> Prop :=
| step_metaset now gfid op attr sv sv' rc :
    (op <> ATTR_OP_CREATE -> upd op attr) ->
    unifyfs_inode_metaset now sv gfid op attr = LRet (sv', rc) -> server_step upd unl oom sv sv'
| step_unlink gfid sv sv' rc :
    unl gfid -> unifyfs_inode_unlink sv gfid = LRet (sv', rc) -> server_step upd unl oom sv sv'
| step_truncate dbg gfid size sv sv' rc :
    is_u64 size -> unifyfs_inode_truncate dbg sv gfid size = LRet (sv', rc) -> server_step upd unl oom sv sv'
| step_laminate gfid sv :
    server_step upd unl oom sv (unifyfs_inode_laminate sv gfid).1
| step_add_extents gfid es sv sv' rc :
    Forall ext_ok es -> unifyfs_inode_add_extents sv gfid es = LRet (sv', rc) ->
    (rc = ENOMEM -> oom) -> server_step upd unl oom sv sv'
| step_add_pending gfid creq n es sv sv' rc :
    unifyfs_inode_add_pending_extents sv gfid creq n es = LRet (sv', rc) -> server_step upd unl oom sv sv'
| step_get_pending gfid sv :
    server_step upd unl oom sv (unifyfs_inode_get_pending_extents sv gfid).1.1
| step_read m sv :
    mem_next (sv_mem sv) <= mem_next m -> server_step upd unl oom sv (set_mem m sv)
| step_apps apps sv : server_step upd unl oom sv (set_apps apps sv).

(** A server that has just started. *)
Definition server_init (m : mem) (rank size : Z) (apps : app_table) : server :=
  Server m rank size apps unifyfs_inode_tree_init [].

Definition server_reach (upd : Z -> unifyfs_file_attr_t -> Prop) (oom : Prop) (sv : server) : Prop :=
  exists m rank size apps, rtc (server_step upd (fun _ => True) oom) (server_init m rank size apps) sv.

(** What a step does to one file. *)
Inductive ino_change (upd : Z -> unifyfs_file_attr_t -> Prop) (unl : Z -> Prop) (oom : Prop) (g : Z)
    : option unifyfs_inode -> option unifyfs_inode -> Prop :=
| ic_same o : ino_change upd unl oom g o o
| ic_create ino :
    ino_extents ino = Some extent_tree_init -> ino_change upd unl oom g None (Some ino)
| ic_unlink ino : unl g -> ino_change upd unl oom g (Some ino) None
| ic_attr now m op attr ino :
    upd op attr ->
    ino_change upd unl oom g (Some ino) (Some (set_attr (unifyfs_file_attr_update now m op (ino_attr ino) attr).1.2 ino))
| ic_truncate size ino tree tree' :
    is_laminated ino = false -> ino_extents ino = Some tree ->
    (0 <= rt_max tree -> 0 <= rt_max tree' <= rt_max tree) ->
    (forall b, rt_lookup tree' b = if b <? size then rt_lookup tree b else None) ->
    ino_change upd unl oom g (Some ino) (Some (set_extents tree' (set_attr (attr_set_size size (ino_attr ino)) ino)))
| ic_laminate ino :
    ino_change upd unl oom g (Some ino) (Some (set_attr (attr_set_laminated 1 (ino_attr ino)) ino))
| ic_extend es m m' rc ino tree tree' :
    is_laminated ino = false -> ino_extents ino = Some tree -> Forall ext_ok es -> (rc = ENOMEM -> oom) ->
    add_extents_post m tree es m' tree' rc ->
    ino_change upd unl oom g (Some ino) (Some
      (if (rc =? 0) && (rt_max tree' ⊞ 1 >? fa_size (ino_attr ino))
       then set_attr (attr_set_size (rt_max tree' ⊞ 1) (ino_attr ino)) (set_extents tree' ino)
       else set_extents tree' ino))
| ic_pending l ino : ino_change upd unl oom g (Some ino) (Some (set_pending l ino)).

Section Steps.
Context (upd : Z -> unifyfs_file_attr_t -> Prop) (unl : Z -> Prop) (oom : Prop).

Lemma change_insert sv sv' g g0 ino ino' :
  sv_map sv !! g = Some ino -> sv_map sv' = <[g := ino']> (sv_map sv) ->
  ino_change upd unl oom g (Some ino) (Some ino') -> ino_change upd unl oom g0 (sv_map sv !! g0) (sv_map sv' !! g0).
Proof.
  intros Hg -> Hc. destruct (decide (g0 = g)) as [->|Hne].
  - by rewrite Hg lookup_insert_eq.
  - rewrite lookup_insert_ne //. constructor.
Qed.

Lemma change_equal sv sv' g : sv_map sv' = sv_map sv -> ino_change upd unl oom g (sv_map sv !! g) (sv_map sv' !! g).
Proof. intros ->. constructor. Qed.

(** A file that cannot be written leaves the server unchanged. *)
Lemma not_writable sv gfid :
  sv_wf sv ->
  (exists ino tree, writable sv gfid ino tree) \/
  ((forall es, exists rc, rc <> UNIFYFS_SUCCESS /\ unifyfs_inode_add_extents sv gfid es = LRet (sv, rc)) /\
   (forall dbg size, exists rc, rc <> UNIFYFS_SUCCESS /\ unifyfs_inode_truncate dbg sv gfid size = LRet (sv, rc))).
Proof.
  intros Hwf. unfold unifyfs_inode_add_extents, unifyfs_inode_truncate. rewrite lookup_map //.
  destruct (sv_map sv !! gfid) as [ino|] eqn:Hg; [|right; split; intros; by exists ENOENT].
  destruct (is_laminated ino) eqn:Hl; [right; split; intros; by exists EINVAL|left].
  destruct (ino_wf_some _ _ (sv_wf_ino _ Hwf _ _ Hg)) as [tree Ht]. by exists ino, tree.
Qed.

Lemma server_step_change sv sv' :
  sv_wf sv -> server_step upd unl oom sv sv' ->
  sv_wf sv' /\ forall g, ino_change upd unl oom g (sv_map sv !! g) (sv_map sv' !! g).
Proof.
  intros Hwf. destruct 1 as [now gfid op attr sv sv' rc Hupd Hop|gfid sv sv' rc Hunl Hop|dbg gfid size sv sv' rc Hsz Hop
    |gfid sv|gfid es sv sv' rc Hes Hop Hoom|gfid creq n es sv sv' rc Hop|gfid sv|m sv Hm|apps sv].
  - unfold unifyfs_inode_metaset in Hop. destruct (op =? ATTR_OP_CREATE) eqn:Hc; zbool.
    + destruct (inode_create_ok _ _ _ _ _ _ Hwf Hop) as [Hwf' [[_ Hmap]|(_ & Hn & ino & Hmap & _ & _ & He & _)]].
      { split; [done|]. intros g. by apply change_equal. }
      split; [done|]. intros g. rewrite Hmap. destruct (decide (g = gfid)) as [->|Hne].
      * rewrite Hn lookup_insert_eq. by constructor.
      * rewrite lookup_insert_ne //. constructor.
    + pose proof (inode_update_attr_ok now sv gfid op attr Hwf) as H.
      destruct (unifyfs_inode_update_attr now sv gfid op attr) as [sv2 rc2]. injection Hop as <- <-.
      destruct H as [Hwf' H]. split; [done|]. intros g.
      destruct (sv_map sv !! gfid) as [ino|] eqn:Hg; [|destruct H as [_ ->]; by apply change_equal].
      destruct H as [_ Hmap]. eapply change_insert; [done..|]. constructor. auto.
  - destruct (inode_unlink_ok _ _ _ _ Hwf Hop) as [[Hwf' Hmap] _]. split; [done|]. intros g. rewrite Hmap.
    destruct (decide (g = gfid)) as [->|Hne].
    + rewrite lookup_partial_alter_eq. destruct (sv_map sv !! gfid); by constructor.
    + rewrite lookup_partial_alter_ne //. constructor.
  - destruct (not_writable sv gfid Hwf) as [(ino & tree & Hw)|[_ Hsame]].
    + pose proof (inode_truncate_ok dbg sv gfid size ino tree Hwf Hsz Hw) as H. rewrite Hop in H.
      destruct H as (_ & Hwf' & tree' & Hmap & Hmx & _ & Hl). destruct Hw as (Hg & Hlam & He).
      split; [done|]. intros g. eapply change_insert; [done..|]. by eapply ic_truncate.
    + destruct (Hsame dbg size) as (rc' & _ & Heq). rewrite Heq in Hop. injection Hop as <- _. split; [done|].
      intros g. by apply change_equal.
  - pose proof (inode_laminate_ok sv gfid Hwf) as H. destruct (unifyfs_inode_laminate sv gfid) as [sv2 rc2].
    destruct H as [Hwf' H]. split; [done|]. intros g.
    destruct (sv_map sv !! gfid) as [ino|] eqn:Hg; [|destruct H as [_ ->]; by apply change_equal].
    destruct H as [_ Hmap]. eapply change_insert; [done..|]. constructor.
  - destruct (not_writable sv gfid Hwf) as [(ino & tree & Hw)|[Hsame _]].
    + destruct (inode_add_extents_ok sv gfid es ino tree Hwf) as (sv2 & rc2 & m' & tree' & Heq & Hwf' & _ & Hpost & Hmap);
        [by eapply Forall_impl; [exact Hes|intros ? []]|done|].
      rewrite Hop in Heq. injection Heq as <- <-. destruct Hw as (Hg & Hlam & He).
      split; [done|]. intros g. eapply change_insert; [done..|]. by eapply ic_extend.
    + destruct (Hsame es) as (rc' & _ & Heq). rewrite Heq in Hop. injection Hop as <- _. split; [done|].
      intros g. by apply change_equal.
  - destruct (add_pending_ok _ _ _ _ _ _ _ Hwf Hop) as (Hwf' & _ & [Hmap|(ino & l & Hg & _ & Hmap & _)]); (split; [done|]);
      intros g; [by apply change_equal|]. eapply change_insert; [done..|]. constructor.
  - pose proof (get_pending_ok sv gfid Hwf) as H. destruct (unifyfs_inode_get_pending_extents sv gfid) as [[sv2 l] rc2].
    destruct H as [Hwf' H]. split; [done|]. intros g.
    destruct (sv_map sv !! gfid) as [ino|] eqn:Hg; [|destruct H as (_ & _ & ?); by apply change_equal].
    destruct H as (_ & _ & Hmap). eapply change_insert; [done..|]. constructor.
  - split; [by apply sv_wf_alloc|]. intros g. by apply change_equal.
  - split; [by apply sv_wf_other|]. intros g. by apply change_equal.
Qed.

Lemma server_steps_wf sv sv' : sv_wf sv -> rtc (server_step upd unl oom) sv sv' -> sv_wf sv'.
Proof. intros Hwf Hs. induction Hs as [|sv1 sv2 sv3 H12 _ IH]; [done|]. by apply IH, (server_step_change sv1). Qed.

End Steps.

Lemma server_init_wf m rank size apps : sv_wf (server_init m rank size apps).
Proof. split; [apply it_wf_null|]. intros g ino Hg. by rewrite /sv_map /it_map lookup_empty in Hg. Qed.

Lemma server_reach_wf upd oom sv : server_reach upd oom sv -> sv_wf sv.
Proof. intros (m & rank & size & apps & Hs). eapply server_steps_wf; [apply server_init_wf|exact Hs]. Qed.

(** ** Sizes and lamination *)

(** The attribute updates that concern neither the size nor the lamination. *)
Definition plain_update (op : Z) (attr : unifyfs_file_attr_t) : Prop :=
  op ∈ [ATTR_OP_CHGRP; ATTR_OP_CHMOD; ATTR_OP_CHOWN; ATTR_OP_UTIME].

Lemma plain_update_keeps now m op dst src :
  plain_update op src ->
  let a := (unifyfs_file_attr_update now m op dst src).1.2 in
  fa_size a = fa_size dst /\ fa_is_laminated a = fa_is_laminated dst.
Proof.
  intros Hop. unfold unifyfs_file_attr_update. destruct (_ || _); [done|].
  destruct (match fa_filename src with Some s => _ | None => _ end) as [m1 f]. simpl.
  unfold plain_update in Hop. rewrite !elem_of_cons elem_of_nil in Hop.
  split; apply set_field_other; by destruct Hop as [->|[->|[->|[->|[]]]]].
Qed.

(** Every byte that has data lies below the size of the file. *)
Definition size_covers (ino : unifyfs_inode) : Prop :=
  forall tree b, ino_extents ino = Some tree -> rt_lookup tree b <> None -> b < fa_size (ino_attr ino).

Lemma rt_lookup_max m tree b : rt_wf m tree -> rt_lookup tree b <> None -> 0 <= b <= rt_max tree.
Proof.
  intros Hwf Hb. destruct (rt_lookup tree b) as [v|] eqn:Hl; [|done].
  apply iv_lookup_some in Hl as (e & He & Hr & _). destruct (rt_wf_elem _ _ _ Hwf He) as [[? ?] ?]. lia.
Qed.

Lemma extents_max_bound es : forall mx, mx < ULONG_MAX -> Forall ext_ok es -> extents_max mx es < ULONG_MAX.
Proof.
  induction es as [|e es IH]; intros mx Hmx Hes; [done|]. apply Forall_cons in Hes as [[_ He] Hes].
  apply IH; [lia|done].
Qed.

Lemma extents_max_ge es : forall mx, mx <= extents_max mx es.
Proof. induction es as [|e es IH]; intros mx; simpl; [lia|]. specialize (IH (Z.max mx (em_end e))). simpl in IH. lia. Qed.

(** The invariant of a file: its size covers its data, and the largest offset
    of its extents is not the largest number. *)
Definition ino_sized (ino : unifyfs_inode) : Prop :=
  size_covers ino /\ forall tree, ino_extents ino = Some tree -> 0 <= rt_max tree < ULONG_MAX.

Lemma ino_change_sized g ino o :
  ino_change plain_update (fun _ => True) False g (Some ino) o -> ino_sized ino -> forall ino', o = Some ino' -> ino_sized ino'.
Proof.
  intros Hc [Hsc Hmx] ino'.
  inversion Hc as [| | |now m op attr ino0 Hop|size ino0 tree tree' Hlam He Hm Hl|
    |es m m' rc ino0 tree tree' Hlam He Hes Hoom Hpost|]; subst; try done.
  - intros [= <-]. split; [done|]. done.
  - intros [= <-]. destruct (plain_update_keeps now m op (ino_attr ino) attr Hop) as [Hs _]. split; [|done].
    intros tree b Ht Hb. simpl. rewrite Hs. by eapply Hsc.
  - intros [= <-]. split; [|intros ? [= <-]; specialize (Hmx _ He); lia].
    intros t b [= <-] Hb. simpl. rewrite Hl in Hb. destruct (b <? size) eqn:Hlt; [by zbool|done].
  - intros [= <-]. split; [|done]. intros tree b Ht Hb. simpl. by eapply Hsc.
  - destruct Hpost as [_ Hwf' Hrc _ _ Hmax]. destruct Hrc as [-> | ->]; [|by destruct (Hoom eq_refl)].
    specialize (Hmax eq_refl). pose proof (Hmx _ He) as [Hm0 Hm1].
    pose proof (extents_max_bound es _ Hm1 Hes) as Hb. pose proof (extents_max_ge es (rt_max tree)) as Hge.
    assert (rt_max tree' ⊞ 1 = rt_max tree' + 1) as Hsz by (apply u64_small; unfold is_u64; lia). rewrite Hsz. simpl.
    destruct (rt_max tree' + 1 >? fa_size (ino_attr ino)) eqn:Hgt; zbool; intros [= <-];
      (split; [|intros ? [= <-]; lia]); intros t b [= <-] Hlk; simpl;
      pose proof (rt_lookup_max _ _ _ Hwf' Hlk); lia.
  - intros [= <-]. done.
Qed.


(** C24. A laminated file is read-only.  Once a file is laminated, any sequence
    of calls that does not unlink it, other than attribute updates of the size
    or of the lamination itself, leaves it laminated with the same extents and
    the same size. *)
Theorem laminated_file_immutable oom sv sv' g ino :
  server_reach (fun _ _ => True) True sv -> sv_map sv !! g = Some ino -> is_laminated ino = true ->
  rtc (server_step plain_update (fun g' => g' <> g) oom) sv sv' ->
  exists ino', sv_map sv' !! g = Some ino' /\ is_laminated ino' = true /\
    ino_extents ino' = ino_extents ino /\ fa_size (ino_attr ino') = fa_size (ino_attr ino).
Proof.
  intros Hwf%server_reach_wf Hg Hl Hs. revert ino Hg Hl.
  induction Hs as [|sv1 sv2 sv3 H12 _ IH]; intros ino Hg Hl; [by exists ino|].
  destruct (server_step_change _ _ _ _ _ Hwf H12) as [Hwf2 Hc]. specialize (Hc g). rewrite Hg in Hc.
  assert (exists ino2, sv_map sv2 !! g = Some ino2 /\ is_laminated ino2 = true /\
    ino_extents ino2 = ino_extents ino /\ fa_size (ino_attr ino2) = fa_size (ino_attr ino)) as (ino2 & Hg2 & Hl2 & He2 & Hs2).
  { inversion Hc as [| |ino0 Hne|now m op attr ino0 Hop|size ino0 tree tree' Hlam|
      |es m m' rc ino0 tree tree' Hlam|]; subst; try done; try congruence; try (eexists; split_and!; [done..|]; done).
    destruct (plain_update_keeps now m op (ino_attr ino) attr Hop) as [Hs2 Hl2].
    eexists. split_and!; [done| |done|done]. unfold is_laminated in *. simpl. by rewrite Hl2. }
  destruct (IH Hwf2 ino2 Hg2 Hl2) as (ino3 & Hg3 & Hl3 & He3 & Hs3). exists ino3. by rewrite He3 He2 Hs3 Hs2.
Qed.

(** ** Adding extents *)

(** C19. Adding extents to a file: on every reachable server, for a file that
    is not laminated and while allocations succeed, the call returns success;
    every byte of the file is then mapped to the last of the new extents that
    covers it, or as before when none does; the size grows to the largest
    offset plus one if that is more than it was; and no other file changes. *)
Theorem inode_add_extents_correct sv g ino es :
  server_reach (fun _ _ => True) True sv -> sv_map sv !! g = Some ino -> is_laminated ino = false ->
  Forall em_valid es -> mem_plenty (sv_mem sv) ->
  exists sv' ino' tree tree', unifyfs_inode_add_extents sv g es = LRet (sv', UNIFYFS_SUCCESS) /\
    sv_map sv' = <[g := ino']> (sv_map sv) /\
    ino_extents ino = Some tree /\ ino_extents ino' = Some tree' /\
    (forall b, rt_lookup tree' b = wi_last es b (rt_lookup tree b)) /\
    rt_max tree' = extents_max (rt_max tree) es /\
    fa_size (ino_attr ino') = Z.max (fa_size (ino_attr ino)) (rt_max tree' ⊞ 1).
Proof.
  intros Hwf%server_reach_wf Hg Hl Hes Hpl.
  destruct (ino_wf_some _ _ (sv_wf_ino _ Hwf _ _ Hg)) as [tree Ht].
  destruct (inode_add_extents_ok sv g es ino tree Hwf Hes) as (sv' & rc & m' & tree' & Hop & _ & _ & Hpost & Hmap); [done|].
  destruct (aep_plenty _ _ _ _ _ _ Hpost Hpl) as [-> _]. eexists sv', _, tree, tree'.
  split_and!; [done|exact Hmap|done| | | |].
  - simpl. by destruct (_ >? _).
  - intros b. by apply (aep_lookup _ _ _ _ _ _ Hpost).
  - by apply (aep_max _ _ _ _ _ _ Hpost).
  - simpl. destruct (_ >? _) eqn:Hgt; zbool; simpl; lia.
Qed.

(** ** Resolving read requests *)

Definition file_tree sv (gfid : Z) : option extent_tree := ino ← sv_map sv !! gfid; ino_extents ino.

Definition file_nodes sv (e : unifyfs_extent_t) : nat :=
  match file_tree sv (ue_gfid e) with Some tree => length (rt_nodes tree) | None => 0 end.

(** A request of at least one byte of an existing file. *)
Definition request_ok sv (e : unifyfs_extent_t) : Prop :=
  0 <= ue_offset e /\ 0 < ue_length e <= ULONG_MAX /\ ue_offset e + ue_length e - 1 <= ULONG_MAX /\
  is_Some (sv_map sv !! ue_gfid e).

(** The chunks of one request: each inside the request and of its file, and
    together an exact account of where its bytes are. *)
Record resolved_extent sv (e : unifyfs_extent_t) (cs : list chunk_read_req) : Prop := {
  re_file : Forall (fun c => cr_gfid c = ue_gfid e /\ ue_offset e <= cr_offset c /\
    cr_offset c + cr_nbytes c <= ue_offset e + ue_length e) cs;
  re_sorted : iv_sorted cs;
  re_lookup tree b : file_tree sv (ue_gfid e) = Some tree -> ue_offset e <= b < ue_offset e + ue_length e ->
    iv_lookup cs b = rt_lookup tree b;
}.

Definition extent_mapped sv (e : unifyfs_extent_t) : Prop :=
  exists tree, file_tree sv (ue_gfid e) = Some tree /\
    forall b, ue_offset e <= b < ue_offset e + ue_length e -> rt_lookup tree b <> None.

Lemma chunk_set_gfid_lookup g cs b : iv_lookup (chunk_set_gfid g <$> cs) b = iv_lookup cs b.
Proof. induction cs as [|c cs IH]; [done|]. rewrite fmap_cons. cbn [iv_lookup]. by rewrite IH. Qed.

Lemma chunk_set_gfid_sorted g cs : iv_sorted cs -> iv_sorted (chunk_set_gfid g <$> cs).
Proof.
  intros [Hw Hs]. split; [by apply Forall_fmap|]. clear Hw. induction Hs as [|c cs _ IH Hc]; [constructor|].
  rewrite fmap_cons. constructor; [done|]. by apply Forall_fmap.
Qed.

Lemma set_mem_map m sv : sv_map (set_mem m sv) = sv_map sv.
Proof. done. Qed.

Lemma get_extent_chunks_ok sv e :
  sv_wf sv -> mem_plenty (sv_mem sv) -> request_ok sv e -> Z.of_nat (file_nodes sv e) < 4294967296 ->
  exists m' cs cov, unifyfs_inode_get_extent_chunks sv e =
      LRet (set_mem m' sv, UNIFYFS_SUCCESS, Z.of_nat (length cs), cs, cov) /\
    mem_next (sv_mem sv) <= mem_next m' /\ mem_plenty m' /\ (length cs <= file_nodes sv e)%nat /\
    resolved_extent sv e cs /\ (cov = true <-> extent_mapped sv e).
Proof.
  intros Hwf Hpl (Ho & Hlen & Hmax & [ino Hg]) Hn. unfold unifyfs_inode_get_extent_chunks.
  rewrite lookup_map // Hg. destruct (ino_wf_some _ _ (sv_wf_ino _ Hwf _ _ Hg)) as [tree Ht]. rewrite Ht.
  assert (file_tree sv (ue_gfid e) = Some tree) as Hft by (unfold file_tree; by rewrite Hg).
  unfold file_nodes in *. rewrite Hft in Hn |- *.
  destruct (extent_tree_get_chunk_list_post (sv_mem sv) tree (ue_offset e) (ue_length e))
    as (m' & cl & -> & [Hret Hcnt Hs Hw Hlk Hcov] & Hle & Hnext & Hpl');
    [by apply (sv_wf_ino _ Hwf _ _ Hg)|unfold is_u64; lia|done|lia|done|done|].
  simpl. rewrite Hret. simpl.
  exists m', (chunk_set_gfid (ue_gfid e) <$> cl_chunks cl), (cl_extent_covered cl).
  rewrite length_fmap -Hcnt. split; [done|].
  split_and!; [done..| |].
  - split.
    + apply Forall_fmap. eapply Forall_impl; [exact Hw|]. simpl. intros c [? ?]. split; [done|lia].
    + by apply chunk_set_gfid_sorted.
    + intros t b [= <-]%(eq_trans (eq_sym Hft)) Hb. rewrite chunk_set_gfid_lookup. apply Hlk. lia.
  - rewrite Hcov. split.
    + intros H. exists tree. split; [done|]. intros b Hb. apply H. lia.
    + intros (t & [= <-]%(eq_trans (eq_sym Hft)) & H) b Hb. apply H. lia.
Qed.

Lemma resolved_extent_mem m sv es css :
  Forall2 (resolved_extent (set_mem m sv)) es css -> Forall2 (resolved_extent sv) es css.
Proof. intros H. eapply Forall2_impl; [exact H|]. intros e cs [H1 H2 H3]. by split. Qed.

(** The sum of the extents of the files of a request. *)
Definition total_nodes sv (es : list unifyfs_extent_t) : Z := Z.of_nat (sum_list_with (file_nodes sv) es).

Lemma resolve_loop_ok es : forall sv n cov,
  sv_wf sv -> mem_plenty (sv_mem sv) -> Forall (request_ok sv) es ->
  0 <= n -> n + total_nodes sv es < 4294967296 ->
  exists m' css cov', resolve_loop sv es n cov =
      LRet (set_mem m' sv, UNIFYFS_SUCCESS, (n + Z.of_nat (length (concat css)), css, cov')) /\
    mem_next (sv_mem sv) <= mem_next m' /\ mem_plenty m' /\ Forall2 (resolved_extent sv) es css /\
    (cov' = true <-> cov = true /\ Forall (extent_mapped sv) es).
Proof.
  induction es as [|e es IH]; intros sv n cov Hwf Hpl Hes Hn Htot.
  - exists (sv_mem sv), [], cov. simpl. rewrite set_mem_id Z.add_0_r. split_and!; [done|lia|done|constructor|].
    split; [by split|by intros [? _]].
  - apply Forall_cons in Hes as [He Hes]. unfold total_nodes in Htot. cbn [sum_list_with] in Htot.
    destruct (get_extent_chunks_ok sv e Hwf Hpl He) as (m1 & cs & c & Hop & Hm1 & Hpl1 & Hlen & Hre & Hc); [lia|].
    simpl. rewrite Hop. simpl. rewrite /u32 Z.mod_small; [lia|].
    destruct (IH (set_mem m1 sv) (n + Z.of_nat (length cs)) (cov && c)) as (m2 & css & c2 & Hl & Hm2 & Hpl2 & Hres & Hcov).
    + by apply sv_wf_alloc.
    + done.
    + exact Hes.
    + lia.
    + unfold total_nodes. change (sum_list_with (file_nodes (set_mem m1 sv)) es) with (sum_list_with (file_nodes sv) es). lia.
    + rewrite Hl. simpl. exists m2, (cs :: css), c2. split_and!.
      * simpl. rewrite length_app Nat2Z.inj_add Z.add_assoc. done.
      * simpl in Hm2. lia.
      * done.
      * constructor; [done|]. by eapply resolved_extent_mem.
      * rewrite Hcov andb_true_iff Hc Forall_cons. change (Forall (extent_mapped (set_mem m1 sv)) es) with (Forall (extent_mapped sv) es). tauto.
Qed.

Definition chunk_order (c1 c2 : chunk_read_req) : Prop := compare_chunk_read_reqs c1 c2 <= 0.

Section Resolve.
Variable qsort : list chunk_read_req -> list chunk_read_req.
Hypothesis qsort_permutes : forall l, Permutation (qsort l) l.
Hypothesis qsort_sorts : forall l, Sorted chunk_order (qsort l).

Lemma resolve_extent_chunks_ok sv es :
  sv_wf sv -> mem_plenty (sv_mem sv) -> Forall (request_ok sv) es ->
  total_nodes sv es < 4294967296 ->
  exists sv' css chunks cov, unifyfs_inode_resolve_extent_chunks qsort sv es =
      LRet (sv', UNIFYFS_SUCCESS, Z.of_nat (length chunks), chunks, cov) /\
    sv_map sv' = sv_map sv /\
    Permutation chunks (concat css) /\ Sorted chunk_order chunks /\ Forall2 (resolved_extent sv) es css /\
    (cov = true <-> Forall (extent_mapped sv) es).
Proof.
  intros Hwf Hpl Hes Htot. unfold unifyfs_inode_resolve_extent_chunks.
  destruct (calloc_plenty (sv_mem sv) Hpl) as (m1 & -> & Hpl1 & Hn1).
  destruct (resolve_loop_ok es (set_mem m1 sv) 0 true) as (m2 & css & cov & -> & Hm2 & Hpl2 & Hres & Hcov);
    [apply sv_wf_alloc; [lia|done]|done|done|lia|exact Htot|].
  apply resolved_extent_mem in Hres.
  assert (cov = true <-> Forall (extent_mapped sv) es) as Hcov' by (rewrite Hcov; by split; [intros [_ ?]|]).
  simpl. rewrite !Z.add_0_l. destruct (Z.of_nat (length (concat css)) >? 0) eqn:H0; zbool.
  - destruct (calloc_plenty m2 Hpl2) as (m3 & -> & _ & _).
    destruct (Z.of_nat (length (concat css)) >? 1) eqn:H1; zbool.
    + eexists _, css, (qsort (concat css)), cov. rewrite (Permutation_length (qsort_permutes (concat css))).
      split_and!; [done|done|apply qsort_permutes|apply qsort_sorts|done|done].
    + eexists _, css, (concat css), cov. split_and!; [done..| |done|done].
      destruct (concat css) as [|c [|c' l]]; [constructor|repeat constructor|simpl in H1; lia].
  - eexists _, css, [], cov. destruct (concat css) as [|c l] eqn:Hcc; [|simpl in H0; lia].
    split_and!; [done|done|done|constructor|done|done].
Qed.

(** C20. A read request of several extents is resolved completely: while
    allocations succeed, the result holds exactly the chunks of the extents of
    the request, ordered by the rank of the server that holds the data and by
    file offset; the chunks of an extent lie inside it and tell for each of
    its bytes where the data is, or that there is none; and full coverage is
    reported exactly when every byte of every extent has data. *)
Theorem resolve_extent_chunks_correct sv es :
  server_reach (fun _ _ => True) True sv -> mem_plenty (sv_mem sv) -> Forall (request_ok sv) es ->
  total_nodes sv es < 4294967296 ->
  exists sv' css chunks cov, unifyfs_inode_resolve_extent_chunks qsort sv es =
      LRet (sv', UNIFYFS_SUCCESS, Z.of_nat (length chunks), chunks, cov) /\
    sv_map sv' = sv_map sv /\
    Permutation chunks (concat css) /\ Sorted chunk_order chunks /\ Forall2 (resolved_extent sv) es css /\
    (cov = true <-> Forall (extent_mapped sv) es).
Proof. intros Hwf%server_reach_wf. by apply resolve_extent_chunks_ok. Qed.
End Resolve.

(** ** Unlinking *)

Implicit Types (apps : app_table) (n : extent_tree_node).

(** The write log of a client. *)
Definition client_log apps (app cid : Z) : option logio_context :=
  c ← get_app_client apps app cid; ac_logio_ctx c.

(** Every log can be used: its locks are free and its maps are complete. *)
Definition logs_usable apps : Prop :=
  (exists ids, table_wf apps ids) /\
  forall app cid ctx, client_log apps app cid = Some ctx -> log_usable ctx /\ log_size ctx <= ULONG_MAX.

Definition node_log apps n : option logio_context := client_log apps (em_app_id (en_extent n)) (em_cli_id (en_extent n)).

(** The extents of a server's own clients that still have a log. *)
Definition local_node (rank : Z) apps n : Prop :=
  em_svr_rank (en_extent n) = rank /\ is_Some (node_log apps n).

(** Those extents lie inside the log. *)
Definition node_in_log (rank : Z) apps n : Prop :=
  iv_wf n /\ em_start (en_extent n) + ULONG_MAX > em_end (en_extent n) /\ 0 <= em_log_pos (en_extent n) /\
  forall ctx, em_svr_rank (en_extent n) = rank -> node_log apps n = Some ctx ->
    em_log_pos (en_extent n) + (em_end (en_extent n) - em_start (en_extent n) + 1) <= log_size ctx.

(** The same clients with logs of the same sizes. *)
Definition same_logs apps apps' : Prop :=
  (forall app cid, log_size <$> client_log apps' app cid = log_size <$> client_log apps app cid) /\
  (forall app cid, is_Some (get_app_client apps' app cid) <-> is_Some (get_app_client apps app cid)).

Lemma same_logs_refl apps : same_logs apps apps.
Proof. done. Qed.

Lemma same_logs_trans a1 a2 a3 : same_logs a1 a2 -> same_logs a2 a3 -> same_logs a1 a3.
Proof. intros [H1 H2] [H3 H4]. split; intros; [by rewrite H3|by rewrite H4]. Qed.

Lemma same_logs_some a1 a2 app cid : same_logs a1 a2 -> is_Some (client_log a2 app cid) <-> is_Some (client_log a1 app cid).
Proof. intros [H _]. specialize (H app cid). rewrite -!(fmap_is_Some log_size). by rewrite H. Qed.

Lemma same_logs_local rank a1 a2 n : same_logs a1 a2 -> local_node rank a2 n <-> local_node rank a1 n.
Proof. intros H. unfold local_node, node_log. by rewrite (same_logs_some a1 a2). Qed.

Lemma same_logs_in_log rank a1 a2 n : same_logs a1 a2 -> node_in_log rank a1 n -> node_in_log rank a2 n.
Proof.
  intros [Hs _] (H1 & H2 & H3 & H4). split_and!; [done..|]. intros ctx Hr Hl. unfold node_log in *.
  specialize (Hs (em_app_id (en_extent n)) (em_cli_id (en_extent n))). rewrite Hl in Hs. simpl in Hs.
  destruct (client_log a1 _ _) as [ctx1|] eqn:Hl1; [|done]. injection Hs as ->. by apply H4.
Qed.

Lemma client_log_some apps app cid ctx :
  client_log apps app cid = Some ctx -> exists c, get_app_client apps app cid = Some c /\ ac_logio_ctx c = Some ctx.
Proof. unfold client_log. destruct (get_app_client apps app cid) as [c|]; [|done]. simpl. eauto. Qed.

(** Storing the log after a release. *)
Lemma set_log_same apps app cid c ctx ctx' :
  logs_usable apps -> get_app_client apps app cid = Some c -> ac_logio_ctx c = Some ctx ->
  log_usable ctx' -> log_size ctx' = log_size ctx ->
  logs_usable (set_app_client apps app cid (Some (client_set_logio ctx' c))) /\
  same_logs apps (set_app_client apps app cid (Some (client_set_logio ctx' c))).
Proof.
  intros [[ids Hwf] Hlog] Hg Hc Hu Hsz. set (apps' := set_app_client _ _ _ _).
  assert (forall a k, client_log apps' a k = if bool_decide (a = app /\ k = cid) then Some ctx' else client_log apps a k) as Hcl.
  { intros a k. unfold client_log, apps'. rewrite (get_set_app_client apps ids app cid c) //.
    by case_bool_decide. }
  assert (client_log apps app cid = Some ctx) as Hold by (unfold client_log; by rewrite Hg).
  split; [split|split].
  - exists ids. eapply set_app_client_wf; [done..|]. by intros ? [= <-].
  - intros a k x. rewrite Hcl. case_bool_decide as Hb; [|apply Hlog]. intros [= <-].
    split; [done|]. rewrite Hsz. by eapply Hlog.
  - intros a k. rewrite Hcl. case_bool_decide as Hb; [|done]. destruct Hb as [-> ->]. rewrite Hold. simpl. by rewrite Hsz.
  - intros a k. unfold apps'. rewrite (get_set_app_client apps ids app cid c) //. case_bool_decide as Hb; [|done].
    destruct Hb as [-> ->]. rewrite Hg. split; by eauto.
Qed.

(** The state of the loop over the extents: the local clients seen so far, and
    the application of the callbacks when all of them belong to [app]. *)
Record destroy_ok (app : Z) (st : destroy_state) : Prop := {
  do_logs : logs_usable (ds_apps st);
  do_last : ds_last_client st = -1 \/ ds_last_client st ∈ ds_local_clients st;
  do_app : ds_cb_app_id st = app \/ ds_cb_app_id st = -1 /\ ds_local_clients st = [];
  do_pos : Forall (fun id => 0 < id /\ is_Some (get_app_client (ds_apps st) app id)) (ds_local_clients st);
}.

Lemma destroy_extent_ok rank max app st n :
  destroy_ok app st -> node_in_log rank (ds_apps st) n ->
  (local_node rank (ds_apps st) n -> em_app_id (en_extent n) = app) ->
  Z.of_nat (length (ds_local_clients st)) < max ->
  exists st', destroy_extent rank true max st n = LRet st' /\ destroy_ok app st' /\
    same_logs (ds_apps st) (ds_apps st') /\
    (length (ds_local_clients st') <= S (length (ds_local_clients st)))%nat /\
    forall id, id ∈ ds_local_clients st' <->
      id ∈ ds_local_clients st \/ local_node rank (ds_apps st) n /\ em_cli_id (en_extent n) = id.
Proof.
  intros Hok Hin Happ Hmax. pose proof Hok as [Hlogs Hlast Hcb Hpos]. unfold destroy_extent.
  assert (~ local_node rank (ds_apps st) n ->
    exists st', LRet st = LRet st' /\ destroy_ok app st' /\ same_logs (ds_apps st) (ds_apps st') /\
    (length (ds_local_clients st') <= S (length (ds_local_clients st)))%nat /\
    forall id, id ∈ ds_local_clients st' <->
      id ∈ ds_local_clients st \/ local_node rank (ds_apps st) n /\ em_cli_id (en_extent n) = id) as Hskip.
  { intros Hn. exists st. split_and!; [done|done|apply same_logs_refl|lia|]. intros id. tauto. }
  destruct (em_svr_rank (en_extent n) =? rank) eqn:Hr; zbool; [|apply Hskip; intros [? _]; done].
  destruct (get_app_client (ds_apps st) _ _) as [c|] eqn:Hg.
  2:{ apply Hskip. intros [_ [x Hx]]. unfold node_log, client_log in Hx. by rewrite Hg in Hx. }
  destruct (ac_logio_ctx c) as [ctx|] eqn:Hc.
  2:{ apply Hskip. intros [_ [x Hx]]. unfold node_log, client_log in Hx. by rewrite Hg /= Hc in Hx. }
  assert (node_log (ds_apps st) n = Some ctx) as Hnl by (unfold node_log, client_log; by rewrite Hg).
  assert (local_node rank (ds_apps st) n) as Hloc by (split; [done|by eexists]).
  specialize (Happ Hloc). destruct Hin as ([Hw1 Hw2] & Hw3 & Hw4 & Hw5). specialize (Hw5 ctx Hr Hnl).
  simpl in Hw1, Hw2. pose proof (proj2 Hlogs _ _ _ Hnl) as [Hu Hsz].
  unfold extent_length. rewrite u64_small; [unfold is_u64; lia|].
  destruct (logio_free_returns ctx (em_log_pos (en_extent n)) (1 + (em_end (en_extent n) - em_start (en_extent n))) Hu)
    as (ctx' & rc & -> & Hu' & Hsz'); [lia..|]. cbn [lbind].
  destruct (set_log_same (ds_apps st) _ _ c ctx ctx' Hlogs Hg Hc Hu' Hsz') as [Hlogs' Hsame].
  rewrite Happ in Hlogs', Hsame, Hg |- *. set (apps' := set_app_client _ _ _ _) in *.
  assert (0 < em_cli_id (en_extent n) /\ is_Some (get_app_client apps' app (em_cli_id (en_extent n)))) as Hnew.
  { destruct Hlogs as [[ids Hwf] _].
    destruct (get_app_client_some _ _ _ _ _ Hwf Hg) as (i0 & app0 & _ & _ & _ & Hb & _). split; [lia|].
    apply Hsame. by eexists. }
  assert (Forall (fun id => 0 < id /\ is_Some (get_app_client apps' app id)) (ds_local_clients st)) as Hpos'.
  { eapply Forall_impl; [exact Hpos|]. simpl. intros id [? ?]. split; [done|]. by apply Hsame. }
  assert ((if ds_cb_app_id st =? -1 then app else ds_cb_app_id st) = app) as ->.
  { destruct Hcb as [->|[-> _]]; [by destruct (app =? -1)|done]. }
  destruct (ds_last_client st =? em_cli_id (en_extent n)) eqn:Hl; zbool; cbn [negb].
  - eexists. split; [done|]. simpl. destruct Hlast as [Hlast|Hlast]; [lia|]. rewrite Hl in Hlast.
    split_and!; [|done|lia|].
    + split; simpl; [done|by right|by left|done].
    + intros id. split; [by left|]. by intros [?|[_ <-]].
  - rewrite (proj2 (Z.ltb_lt _ _) Hmax). eexists. split; [done|]. simpl. split_and!; [|done|rewrite length_app /=; lia|].
    + split; simpl; [done|right; set_solver|by left|]. apply Forall_app. split; [done|by constructor].
    + intros id. rewrite elem_of_app list_elem_of_singleton. split; [intros [?| ->]; auto|intros [?|[_ <-]]; auto].
Qed.

Lemma destroy_extents_ok rank max app nodes : forall st,
  destroy_ok app st -> Forall (node_in_log rank (ds_apps st)) nodes ->
  Forall (fun n => local_node rank (ds_apps st) n -> em_app_id (en_extent n) = app) nodes ->
  Z.of_nat (length (ds_local_clients st) + length nodes) <= max ->
  exists st', destroy_extents rank true max st nodes = LRet st' /\ destroy_ok app st' /\
    same_logs (ds_apps st) (ds_apps st') /\
    forall id, id ∈ ds_local_clients st' <->
      id ∈ ds_local_clients st \/ exists n, n ∈ nodes /\ local_node rank (ds_apps st) n /\ em_cli_id (en_extent n) = id.
Proof.
  induction nodes as [|n nodes IH]; intros st Hok Hin Happ Hmax.
  - exists st. split_and!; [done|done|apply same_logs_refl|]. intros id. set_solver.
  - apply Forall_cons in Hin as [Hn Hin]. apply Forall_cons in Happ as [Ha Happ]. cbn [length] in Hmax. simpl.
    destruct (destroy_extent_ok rank max app st n Hok Hn Ha) as (st1 & -> & Hok1 & Hs1 & Hlen & Hel1); [lia|]. simpl.
    destruct (IH st1 Hok1) as (st2 & -> & Hok2 & Hs2 & Hel2).
    + eapply Forall_impl; [exact Hin|]. intros x. by apply same_logs_in_log.
    + eapply Forall_impl; [exact Happ|]. simpl. intros x Hx Hl. apply Hx. by apply (same_logs_local rank _ _ x Hs1).
    + lia.
    + exists st2. split_and!; [done|done|by eapply same_logs_trans|]. intros id. rewrite Hel2 Hel1. split.
      * intros [[?|[? ?]]|(x & Hx & Hl & ?)]; [by left|right; exists n; set_solver|right; exists x].
        split_and!; [set_solver| |done]. by apply (same_logs_local rank _ _ x Hs1).
      * intros [?|(x & [->|Hx]%elem_of_cons & Hl & ?)]; [by left; left|by left; right|]. right. exists x.
        split_and!; [done| |done]. by apply (same_logs_local rank _ _ x Hs1).
Qed.

(** The callbacks go to each client once, in increasing order. *)
Lemma unlink_callbacks_ok app gfid ids : forall sv last,
  mem_plenty (sv_mem sv) -> StronglySorted Z.le ids -> Forall (fun id => last <= id) ids ->
  Forall (fun id => is_Some (get_app_client (sv_apps sv) app id)) ids ->
  exists us, sv_callbacks (unlink_callbacks sv app gfid last ids) =
      sv_callbacks sv ++ ((fun id => ClientCallback app id gfid) <$> us) /\
    StronglySorted Z.lt us /\ forall id, id ∈ us <-> id ∈ ids /\ id <> last.
Proof.
  induction ids as [|id ids IH]; intros sv last Hpl Hs Hle Hc.
  - exists []. simpl. rewrite app_nil_r. split_and!; [done|constructor|]. set_solver.
  - apply StronglySorted_inv in Hs as [Hs Hid]. apply Forall_cons in Hle as [Hl Hle]. apply Forall_cons in Hc as [[c Hg] Hc].
    cbn [unlink_callbacks]. destruct (id =? last) eqn:Heq; zbool.
    + subst id. destruct (IH sv last Hpl Hs Hle Hc) as (us & -> & Hus & Hel). exists us. split_and!; [done|done|].
      intros x. rewrite Hel. set_solver.
    + destruct (calloc_plenty _ Hpl) as (m & -> & Hm & _). unfold rm_submit_client_callback_request. simpl. rewrite Hg. simpl.
      destruct (IH (add_callback (ClientCallback app id gfid) (set_mem m sv)) id) as (us & -> & Hus & Hel); [done|done|done|done|].
      exists (id :: us). simpl. rewrite -app_assoc. split_and!; [done| |].
      * constructor; [done|]. apply Forall_forall. intros x [Hx Hne]%Hel.
        rewrite Forall_forall in Hid. specialize (Hid x Hx). lia.
      * intros x. rewrite !elem_of_cons Hel. split.
        -- intros [->|[? ?]]; [split; [by left|lia]|]. split; [by right|]. intros ->.
           rewrite Forall_forall in Hid. specialize (Hid last ltac:(done)). lia.
        -- intros [[->|Hx] Hne]; [by left|]. destruct (decide (x = id)); [by left|by right].
Qed.

Lemma int_le_spec a b : int_le a b <-> a <= b.
Proof. unfold int_le, int_compare_fn. repeat zcase; lia. Qed.

Lemma qsort_int_sorted l : StronglySorted Z.le (qsort_int l).
Proof.
  assert (StronglySorted int_le (qsort_int l)) as Hs.
  { apply Sorted_StronglySorted; [intros a b c; rewrite !int_le_spec; lia|]. apply Sorted_merge_sort.
    intros a b. rewrite !int_le_spec. lia. }
  induction Hs as [|a k _ IH Ha]; constructor; [done|]. eapply Forall_impl; [exact Ha|]. intros b. by rewrite int_le_spec.
Qed.

Lemma qsort_int_elem l id : id ∈ qsort_int l <-> id ∈ l.
Proof. unfold qsort_int. by rewrite (merge_sort_Permutation int_le l). Qed.

Lemma extent_tree_walk_nodes m tree :
  rt_wf m tree -> extent_tree_walk (extent_tree_fuel tree) tree None = Some (rt_nodes tree).
Proof.
  intros Hwf. unfold extent_tree_fuel. cbn [extent_tree_walk]. rewrite extent_tree_iter_first.
  destruct (rt_nodes tree) as [|n es] eqn:Heq; cbn [head]; [done|].
  rewrite (extent_tree_walk_from _ m tree [] n es) //; [apply Hwf|].
  fold (rt_nodes tree). rewrite Heq. simpl. lia.
Qed.

Lemma unlink_callbacks_apps app gfid ids : forall sv last, sv_apps (unlink_callbacks sv app gfid last ids) = sv_apps sv.
Proof.
  induction ids as [|id ids IH]; intros sv last; simpl; [done|]. destruct (_ =? _); [apply IH|].
  destruct (calloc (sv_mem sv)) as [[p|] m]; rewrite IH; [|done].
  unfold rm_submit_client_callback_request. by destruct (get_app_client _ _ _).
Qed.

(** Destroying an inode: the callbacks and the logs. *)
Lemma inode_destroy_ok sv ino tree app :
  mem_plenty (sv_mem sv) -> ino_extents ino = Some tree -> rt_wf (sv_mem sv) tree ->
  Z.of_nat (length (rt_nodes tree)) <= ULONG_MAX -> logs_usable (sv_apps sv) ->
  Forall (node_in_log (sv_glb_pmi_rank sv) (sv_apps sv)) (rt_nodes tree) ->
  Forall (fun n => local_node (sv_glb_pmi_rank sv) (sv_apps sv) n -> em_app_id (en_extent n) = app) (rt_nodes tree) ->
  exists sv' ids, unifyfs_inode_destroy sv ino = LRet (sv', UNIFYFS_SUCCESS) /\
    sv_callbacks sv' = sv_callbacks sv ++ ((fun id => ClientCallback app id (ino_gfid ino)) <$> ids) /\
    StronglySorted Z.lt ids /\
    (forall id, id ∈ ids <-> exists n, n ∈ rt_nodes tree /\
       local_node (sv_glb_pmi_rank sv) (sv_apps sv) n /\ em_cli_id (en_extent n) = id) /\
    logs_usable (sv_apps sv') /\ same_logs (sv_apps sv) (sv_apps sv').
Proof.
  intros Hpl He Hwf Hlen Hlogs Hin Happ. unfold unifyfs_inode_destroy. rewrite He.
  destruct (calloc_plenty _ Hpl) as (m & -> & Hm & _). rewrite (extent_tree_walk_nodes _ _ Hwf). cbn [lift_option lbind].
  destruct (destroy_extents_ok (sv_glb_pmi_rank sv) (extent_tree_count tree) app (rt_nodes tree)
    (DestroyState (sv_apps sv) [] (-1) (-1))) as (st & Hop & [Hlogs' _ Hcb Hpos] & Hsame & Hel).
  - split; simpl; [done|by left|by right|constructor].
  - done.
  - done.
  - simpl. unfold extent_tree_count. rewrite (rt_wf_count _ _ Hwf) u64_small; [unfold is_u64; lia|]. lia.
  - simpl in Hop, Hel, Hsame |- *. rewrite Hop. simpl. unfold extent_tree_destroy. rewrite (extent_tree_clear_spec _ _ Hwf). simpl.
    assert (Forall (fun id => 0 < id /\ is_Some (get_app_client (ds_apps st) app id)) (qsort_int (ds_local_clients st))) as Hq.
    { rewrite Forall_forall in Hpos. apply Forall_forall. intros id Hid. rewrite qsort_int_elem in Hid. exact (Hpos id Hid). }
    destruct (unlink_callbacks_ok app (ino_gfid ino) (qsort_int (ds_local_clients st))
      (set_apps (ds_apps st) (set_mem m sv)) (-1)) as (ids & Hcbs & Hs & Hids);
      [done|apply qsort_int_sorted|eapply Forall_impl; [exact Hq|simpl; lia]|eapply Forall_impl; [exact Hq|by intros ? []]|].
    eexists _, ids. split; [done|]. rewrite unlink_callbacks_apps. split_and!; [|done| |done|done].
    + destruct Hcb as [->|[-> Hnil]]; [done|]. rewrite Hnil in Hids |- *. simpl.
      destruct ids as [|x ids]; [by rewrite app_nil_r|]. exfalso.
      assert (x ∈ x :: ids) as Hx by (by left). apply Hids in Hx as [Hx _]. rewrite qsort_int_elem in Hx. set_solver.
    + intros id. rewrite Hids qsort_int_elem Hel. split; [intros [[?|?] _]; [set_solver|done]|]. intros Hn. split; [by right|].
      assert (id ∈ ds_local_clients st) as Hid by (apply Hel; by right). rewrite Forall_forall in Hpos.
      specialize (Hpos id Hid). lia.
Qed.

(** Unlinking a file removes it, and tells each local client once.  On a
    reachable server whose client logs are usable, with the extents of the
    local clients of the file inside their logs and all from one application,
    [unifyfs_inode_unlink] returns success (it takes every lock it needs, and
    no access is outside a log or the array of clients); the file is gone and
    no other file changes; every client that has a log here and an extent in
    the file gets one callback, in increasing order of ids, and no other
    client does; and all logs keep their size and stay usable. *)
Theorem inode_unlink_complete sv g ino tree app :
  server_reach (fun _ _ => True) True sv -> mem_plenty (sv_mem sv) ->
  sv_map sv !! g = Some ino -> ino_extents ino = Some tree ->
  Z.of_nat (length (rt_nodes tree)) <= ULONG_MAX -> logs_usable (sv_apps sv) ->
  Forall (node_in_log (sv_glb_pmi_rank sv) (sv_apps sv)) (rt_nodes tree) ->
  Forall (fun n => local_node (sv_glb_pmi_rank sv) (sv_apps sv) n -> em_app_id (en_extent n) = app) (rt_nodes tree) ->
  exists sv' ids, unifyfs_inode_unlink sv g = LRet (sv', UNIFYFS_SUCCESS) /\
    sv_map sv' = delete g (sv_map sv) /\
    sv_callbacks sv' = sv_callbacks sv ++ ((fun id => ClientCallback app id g) <$> ids) /\
    StronglySorted Z.lt ids /\
    (forall id, id ∈ ids <-> exists n, n ∈ rt_nodes tree /\
       local_node (sv_glb_pmi_rank sv) (sv_apps sv) n /\ em_cli_id (en_extent n) = id) /\
    logs_usable (sv_apps sv') /\ same_logs (sv_apps sv) (sv_apps sv').
Proof.
  intros Hwf%server_reach_wf Hpl Hg He Hlen Hlogs Hin Happ.
  pose proof (ino_wf_extents _ _ (sv_wf_ino _ Hwf _ _ Hg) _ He) as Hrt.
  assert (ino_gfid ino = g) as Hgf by (by apply (it_map_some (sv_mem sv)) in Hg as [_ ?]; [|apply Hwf]).
  destruct (unifyfs_inode_tree_remove (sv_inodes sv) g) as [[t rc] r] eqn:Hrem.
  destruct (tree_remove_map _ _ _ _ _ _ (sv_wf_tree _ Hwf) Hrem) as (_ & Hr & _ & Hrc).
  fold (sv_map sv) in Hr, Hrc. rewrite Hg in Hr, Hrc. subst r rc.
  destruct (inode_destroy_ok (set_inodes t sv) ino tree app) as (sv' & ids & Hop & Hcb & Hs & Hids & Hl & Hsl); [done..|].
  assert (unifyfs_inode_unlink sv g = LRet (sv', UNIFYFS_SUCCESS)) as Hun.
  { unfold unifyfs_inode_unlink. by rewrite Hrem. }
  exists sv', ids. rewrite Hgf in Hcb. destruct (inode_unlink_ok _ _ _ _ Hwf Hun) as [[_ Hmap] _]. by split_and!.
Qed.

(** ** Listing files *)

Lemma gfids_loop_ok nodes : forall m (sz : Z) acc,
  mem_plenty m -> exists m', gfids_loop m sz acc nodes = (m', Some (acc ++ (ino_gfid <$> nodes))).
Proof.
  induction nodes as [|x nodes IH]; intros m sz acc Hpl; [exists m; by rewrite app_nil_r|].
  rewrite fmap_cons (cons_middle _ acc) app_assoc. cbn [gfids_loop]. destruct (_ =? _); [|by apply IH].
  destruct (calloc_plenty m Hpl) as (m' & -> & Hpl' & _). by apply IH.
Qed.

Lemma attr_set_filename_same a : attr_set_filename (fa_filename a) a = a.
Proof. by destruct a. Qed.

Definition owned_here sv (a : unifyfs_file_attr_t) : Prop := hash_gfid_to_server sv (fa_gfid a) = sv_glb_pmi_rank sv.

#[export] Instance owned_here_dec sv a : Decision (owned_here sv a).
Proof. unfold owned_here. apply _. Defined.

Lemma owned_loop_ok nodes : forall sv (sz : Z) acc,
  mem_plenty (sv_mem sv) -> Forall (fun ino => is_Some (fa_filename (ino_attr ino))) nodes ->
  exists m', owned_loop sv sz acc nodes =
    LRet (set_mem m' sv, Some (acc ++ filter (owned_here sv) (ino_attr <$> nodes))).
Proof.
  induction nodes as [|x nodes IH]; intros sv sz acc Hpl Hn.
  { exists (sv_mem sv). rewrite set_mem_id app_nil_r. done. }
  rewrite fmap_cons. cbn [owned_loop].
  apply Forall_cons in Hn as [[name Hx] Hn].
  assert (forall m sz', mem_plenty m -> exists m',
    (let sv := set_mem m sv in
     if hash_gfid_to_server sv (fa_gfid (ino_attr x)) =? sv_glb_pmi_rank sv then
       let! name := lift_option (fa_filename (ino_attr x)) in
       let '(m, f) := strdup (sv_mem sv) name in
       owned_loop (set_mem m sv) sz' (acc ++ [attr_set_filename f (ino_attr x)]) nodes
     else owned_loop sv sz' acc nodes) =
    LRet (set_mem m' sv, Some (acc ++ filter (owned_here sv) (ino_attr x :: (ino_attr <$> nodes))))) as Hstep.
  { intros m sz' Hm. rewrite filter_cons. unfold hash_gfid_to_server. simpl.
    destruct (_ =? _) eqn:Hh; zbool.
    - rewrite Hx. simpl. unfold strdup. destruct (calloc_plenty m Hm) as (m' & -> & Hm' & _).
      rewrite decide_True; [exact Hh|]. destruct (IH (set_mem m' sv) sz' (acc ++ [attr_set_filename (Some name) (ino_attr x)]))
        as [m'' Hop]; [done..|]. exists m''. rewrite -Hx attr_set_filename_same in Hop. rewrite -Hx attr_set_filename_same.
      etrans; [exact Hop|]. by rewrite -app_assoc.
    - rewrite decide_False; [exact Hh|]. by apply (IH (set_mem m sv)). }
  destruct (_ =? _); [|by apply Hstep].
  destruct (calloc_plenty _ Hpl) as (m' & -> & Hpl' & _). by apply Hstep.
Qed.

(** Listing the files of a server: on a reachable server, while
    allocations succeed, [unifyfs_get_gfids] returns the identifiers of
    exactly the files that exist, in increasing order and without repetition,
    and, when every file has its name, [unifyfs_get_owned_files] returns the
    attributes of exactly those files whose identifier hashes to this
    server. *)
Theorem files_listed sv :
  server_reach (fun _ _ => True) True sv -> mem_plenty (sv_mem sv) ->
  (exists m' gfids, unifyfs_get_gfids sv = LRet (set_mem m' sv, UNIFYFS_SUCCESS, gfids) /\
     StronglySorted Z.lt gfids /\ forall g, g ∈ gfids <-> is_Some (sv_map sv !! g)) /\
  ((forall g ino, sv_map sv !! g = Some ino -> is_Some (fa_filename (ino_attr ino))) ->
   exists m' attrs, unifyfs_get_owned_files sv = LRet (set_mem m' sv, UNIFYFS_SUCCESS, attrs) /\
     forall a, a ∈ attrs <-> owned_here sv a /\ exists g ino, sv_map sv !! g = Some ino /\ ino_attr ino = a).
Proof.
  intros Hwf%server_reach_wf Hpl. pose proof (sv_wf_tree _ Hwf) as Ht.
  assert (forall g ino, sv_map sv !! g = Some ino <-> ino ∈ rb_elems (sv_inodes sv) /\ ino_gfid ino = g) as Hmap.
  { intros g ino. by apply (it_map_some (sv_mem sv)). }
  unfold unifyfs_get_gfids, unifyfs_get_owned_files.
  destruct (calloc_plenty _ Hpl) as (m1 & -> & Hpl1 & _). rewrite (inode_walk_all _ _ Ht). cbn [lift_option lbind].
  split.
  - destruct (gfids_loop_ok (rb_elems (sv_inodes sv)) m1 64 [] Hpl1) as [m2 ->]. eexists m2, _. split; [done|]. split.
    + apply StronglySorted_map. apply Ht.
    + intros g. simpl. rewrite list_elem_of_fmap. split.
      * intros (ino & -> & Hin). exists ino. by apply Hmap.
      * intros [ino [Hin <-]%Hmap]. by exists ino.
  - intros Hnames. destruct (owned_loop_ok (rb_elems (sv_inodes sv)) (set_mem m1 sv) 64 []) as [m2 ->]; [done| |].
    { apply Forall_forall. intros ino Hin. by apply (Hnames (ino_gfid ino)), Hmap. }
    eexists m2, _. split; [done|]. intros a. simpl. rewrite list_elem_of_filter list_elem_of_fmap. apply and_iff_compat_l.
    split.
    + intros (ino & -> & Hin). exists (ino_gfid ino), ino. split; [by apply Hmap|done].
    + intros (g & ino & [Hin _]%Hmap & <-). by exists ino.
Qed.

(** ** A concrete server *)

(** One application with one client, whose log has 320 bytes; a file with two
    extents, the second of which overwrites a part of the first. *)
Definition ex_client : app_client := AppClient 7 1 (Some (example_log 16 16 10)) true.
Definition ex_apps : app_table := Eval vm_compute in set_app_client app_example 7 1 (Some ex_client).

Definition ex_attr : unifyfs_file_attr_t :=
  FileAttr (Some "/unifyfs/a"%string) 100 0 1 33188 0 0 0 (Timespec 1 0) (Timespec 1 0) (Timespec 1 0) 1.
Definition ex_writes : list extent_metadata := [ExtentMd 0 99 0 0 7 1; ExtentMd 50 149 100 0 7 1].

Definition state_of {A} (d : server) (r : lres (server * A)) : server :=
  match r with LRet (sv, _) => sv | _ => d end.

Definition ex_server0 : server := server_init (Mem 1 []) 0 2 ex_apps.
Definition ex_server1 : server := Eval vm_compute in
  state_of ex_server0 (unifyfs_inode_metaset 5 ex_server0 100 ATTR_OP_CREATE ex_attr).
Definition ex_server2 : server := Eval vm_compute in
  state_of ex_server1 (unifyfs_inode_add_extents ex_server1 100 ex_writes).
Definition ex_inode (sv : server) : unifyfs_inode := default (inode_example 0 0) (sv_map sv !! 100).
Definition ex_tree (sv : server) : extent_tree := default extent_tree_init (ino_extents (ex_inode sv)).

Lemma ex_writes_ok : Forall ext_ok ex_writes.
Proof. repeat constructor; simpl; done || lia. Qed.

Lemma ex_server1_reach upd oom : server_reach upd oom ex_server1.
Proof.
  exists (Mem 1 []), 0, 2, ex_apps. eapply rtc_l; [|apply rtc_refl].
  apply (step_metaset upd _ oom 5 100 ATTR_OP_CREATE ex_attr ex_server0 ex_server1 UNIFYFS_SUCCESS); [done|by vm_compute].
Qed.

Lemma ex_server2_reach upd oom : server_reach upd oom ex_server2.
Proof.
  destruct (ex_server1_reach upd oom) as (m & rank & size & apps & Hr). exists m, rank, size, apps.
  eapply rtc_r; [exact Hr|].
  apply (step_add_extents upd _ oom 100 ex_writes ex_server1 ex_server2 UNIFYFS_SUCCESS); [apply ex_writes_ok|by vm_compute|done].
Qed.

Lemma ex_server2_inode : sv_map ex_server2 !! 100 = Some (ex_inode ex_server2).
Proof. by vm_compute. Qed.

Lemma ex_server2_tree : ino_extents (ex_inode ex_server2) = Some (ex_tree ex_server2).
Proof. by vm_compute. Qed.

Lemma ex_server2_nodes :
  rt_nodes (ex_tree ex_server2) = [ExtNode 6 (ExtentMd 0 49 0 0 7 1); ExtNode 5 (ExtentMd 50 149 100 0 7 1)].
Proof. by vm_compute. Qed.


(** The file, laminated. *)
Definition ex_server3 : server := (unifyfs_inode_laminate ex_server2 100).1.

Lemma laminated_file_immutable_witness :
  exists sv' ino', unifyfs_inode_truncate false ex_server3 100 10 = LRet (sv', EINVAL) /\ sv_map sv' !! 100 = Some ino' /\
    is_laminated ino' = true /\ fa_size (ino_attr ino') = 150.
Proof.
  assert (server_reach (fun _ _ => True) True ex_server3) as Hr.
  { destruct (ex_server2_reach (fun _ _ => True) True) as (m & rank & size & apps & Hr). exists m, rank, size, apps.
    eapply rtc_r; [exact Hr|]. apply step_laminate. }
  assert (unifyfs_inode_truncate false ex_server3 100 10 = LRet (ex_server3, EINVAL)) as Ht by (by vm_compute).
  destruct (laminated_file_immutable True ex_server3 ex_server3 100 (ex_inode ex_server3)) as (ino' & Hg & Hl & _ & Hs);
    [exact Hr|by vm_compute|by vm_compute| |].
  - eapply rtc_l; [|apply rtc_refl]. by apply (step_truncate _ _ _ false 100 10 _ _ EINVAL).
  - exists ex_server3, ino'. split_and!; [exact Ht|exact Hg|exact Hl|]. rewrite Hs. by vm_compute.
Defined.

Lemma inode_add_extents_correct_witness :
  exists sv' ino' tree', unifyfs_inode_add_extents ex_server1 100 ex_writes = LRet (sv', UNIFYFS_SUCCESS) /\
    sv_map sv' !! 100 = Some ino' /\ ino_extents ino' = Some tree' /\ rt_lookup tree' 60 = Some (ExtentLoc 0 7 1 110).
Proof.
  destruct (inode_add_extents_correct ex_server1 100 (ex_inode ex_server1) ex_writes)
    as (sv' & ino' & tree & tree' & Hop & Hmap & _ & He & Hl & _);
    [apply ex_server1_reach|by vm_compute|by vm_compute| |by constructor|].
  - repeat constructor; simpl; done || lia.
  - exists sv', ino', tree'. split_and!; [exact Hop| |exact He|].
    + by rewrite Hmap lookup_insert_eq.
    + rewrite Hl. by vm_compute.
Defined.

(** [qsort], by merge sort with the comparison function of the source. *)
#[export] Instance chunk_order_dec c1 c2 : Decision (chunk_order c1 c2).
Proof. unfold chunk_order. apply _. Defined.

#[export] Instance chunk_order_total : Total chunk_order.
Proof.
  intros c1 c2. unfold chunk_order, compare_chunk_read_reqs.
  repeat (case_match; zbool); first [left; lia|right; lia].
Qed.

Lemma resolve_extent_chunks_correct_witness :
  exists sv' chunks, unifyfs_inode_resolve_extent_chunks (merge_sort chunk_order) ex_server2
      [UnifyfsExtent 0 100 100; UnifyfsExtent 140 20 100] = LRet (sv', UNIFYFS_SUCCESS, 3, chunks, false) /\
    Sorted chunk_order chunks.
Proof.
  destruct (resolve_extent_chunks_correct (merge_sort chunk_order) (merge_sort_Permutation chunk_order)
    (fun l => Sorted_merge_sort chunk_order l) ex_server2 [UnifyfsExtent 0 100 100; UnifyfsExtent 140 20 100])
    as (sv' & css & chunks & cov & Hop & _ & _ & Hs & _).
  - apply ex_server2_reach.
  - constructor.
  - repeat (apply Forall_cons_2; [split_and!; [by vm_compute..|exists (ex_inode ex_server2); apply ex_server2_inode]|]). constructor.
  - by vm_compute.
  - assert (Z.of_nat (length chunks) = 3 /\ cov = false) as [Hn ->].
    { pose proof Hop as Hop2. vm_compute in Hop2. injection Hop2 as _ _ <- <-. done. }
    rewrite Hn in Hop. exists sv', chunks. split; [exact Hop|exact Hs].
Defined.

Lemma ex_log_usable : log_usable (example_log 16 16 10).
Proof. split; intros ? [= <-]; split; by vm_compute. Qed.

Lemma ex_apps_usable : logs_usable ex_apps.
Proof.
  assert (ex_apps = set_app_client app_example 7 1 (Some ex_client)) as -> by (by vm_compute).
  assert (table_wf app_example [(7, 1)]) as Hwf by (apply (app_reach_wf 4); [lia|apply app_example_reach]).
  assert (get_app_client app_example 7 1 = Some (AppClient 7 1 None false)) as Hg by (by vm_compute).
  split.
  - exists [(7, 1)]. eapply set_app_client_wf; [exact Hwf|exact Hg|]. by intros ? [= <-].
  - intros app cid ctx. unfold client_log. rewrite (get_set_app_client _ _ _ _ _ _ _ _ Hwf Hg).
    destruct (bool_decide_reflect (app = 7 /\ cid = 1)) as [_|Hne]; simpl.
    + intros [= <-]. split; [apply ex_log_usable|by vm_compute].
    + destruct (get_app_client app_example app cid) as [c|] eqn:Hc; [|done].
      apply (get_app_client_some _ _ _ _ _ Hwf) in Hc as (_ & _ & _ & _ & _ & _ & _ & _ & _ & Hin).
      apply list_elem_of_singleton in Hin as [= -> ->]. by destruct Hne.
Qed.

Lemma ex_node_in_log n (sz : Z) ctx :
  em_app_id (en_extent n) = 7 -> em_cli_id (en_extent n) = 1 -> sz <= 320 ->
  em_svr_rank (en_extent n) = 0 -> node_log (sv_apps ex_server2) n = Some ctx -> sz <= log_size ctx.
Proof.
  intros Ha Hc Hsz _. unfold node_log. rewrite Ha Hc.
  assert (client_log (sv_apps ex_server2) 7 1 = Some (example_log 16 16 10)) as -> by (by vm_compute).
  intros Heq. apply (inj Some) in Heq. rewrite -Heq.
  assert (log_size (example_log 16 16 10) = 320) as -> by (by vm_compute). done.
Qed.

Lemma inode_unlink_complete_witness :
  exists sv', unifyfs_inode_unlink ex_server2 100 = LRet (sv', UNIFYFS_SUCCESS) /\
    sv_map sv' !! 100 = None /\ sv_callbacks sv' = [ClientCallback 7 1 100].
Proof.
  destruct (inode_unlink_complete ex_server2 100 (ex_inode ex_server2) (ex_tree ex_server2) 7)
    as (sv' & ids & Hop & Hmap & _).
  - apply ex_server2_reach.
  - constructor.
  - apply ex_server2_inode.
  - apply ex_server2_tree.
  - by vm_compute.
  - apply ex_apps_usable.
  - rewrite ex_server2_nodes. repeat (apply Forall_cons_2; [split_and!; [by vm_compute..|]; intros ctx; apply ex_node_in_log; by vm_compute|]).
    constructor.
  - rewrite ex_server2_nodes. repeat (apply Forall_cons_2; [intros _; reflexivity|]). constructor.
  - exists sv'. split; [exact Hop|]. split; [by rewrite Hmap lookup_delete_eq|].
    assert (sv' = state_of ex_server2 (unifyfs_inode_unlink ex_server2 100)) as -> by (by rewrite Hop). by vm_compute.
Defined.

Lemma files_listed_witness :
  exists m' gfids, unifyfs_get_gfids ex_server2 = LRet (set_mem m' ex_server2, UNIFYFS_SUCCESS, gfids) /\ 100 ∈ gfids.
Proof.
  destruct (files_listed ex_server2) as [(m' & gfids & Hop & _ & Hin) _]; [apply ex_server2_reach|constructor|].
  exists m', gfids. split; [exact Hop|]. apply Hin. exists (ex_inode ex_server2). apply ex_server2_inode.
Defined.

(** ** Boundary cases *)

(** An empty list of extents changes the size of an empty file to one: the
    largest offset of an empty tree is zero, and the size is set to it plus
    one. *)
Lemma add_no_extents_grows :
  fa_size (ino_attr (ex_inode ex_server1)) = 0 /\
  fa_size (ino_attr (ex_inode (state_of ex_server1 (unifyfs_inode_add_extents ex_server1 100 [])))) = 1.
Proof. by vm_compute. Qed.

(** A server with clients of two applications, 7 and 8. *)
Definition ex_apps2 : app_table :=
  let '(m, table, i, _) := new_application (Mem 1 []) 4 ex_apps 8 in
  let '(m, table, _) := new_app_client m true true table (default 0%nat i) in
  set_app_client table 8 1 (Some (AppClient 8 1 (Some (example_log 16 16 10)) true)).

(** When a file has extents of clients of two applications, only the
    application of the first extent is told about the unlink: here client 1 of
    application 8, which wrote the second half, gets no callback. *)
Lemma unlink_other_app_not_told :
  let sv0 := server_init (Mem 1 []) 0 2 ex_apps2 in
  let sv1 := state_of sv0 (unifyfs_inode_metaset 5 sv0 100 ATTR_OP_CREATE ex_attr) in
  let sv2 := state_of sv1 (unifyfs_inode_add_extents sv1 100 [ExtentMd 0 49 0 0 7 1; ExtentMd 50 99 0 0 8 1]) in
  ac_initialized <$> get_app_client (sv_apps sv2) 8 1 = Some true /\
  sv_callbacks (state_of sv2 (unifyfs_inode_unlink sv2 100)) = [ClientCallback 7 1 100].
Proof. by vm_compute. Qed.
