(* ===== verification/Client.v ===== *)
(** * Files of a client ([client/src/unifyfs_fid.c], [client/src/unifyfs.c])

    A client keeps a table of the files it knows, in its superblock: a stack of
    free local file ids, the names and the metadata of the files, and the index
    of writes that the next synchronisation passes to the server.  A write is
    appended to the client's log and recorded in the segment trees of the file.

    The server is seen through the interface [ServerRpc]: each of its
    operations is the effect of the remote procedure call that
    [client/src/margo_client.c] makes, with the return code the caller gets.

    The lock of the client structure is recursive and is taken around accesses
    by the threads of one client; the operations here are those of one
    thread. *)

From Stdlib Require Import String.
From S2P Require Import Prelude.
From S2P Require Import RbTree.
From S2P Require Import Extents.
From S2P Require Import RangeTree.
From S2P Require Import SegTree.
From S2P Require Import LogIO.
From S2P Require Import IdStack.
From S2P Require Import Meta.
From S2P Require Import Inode.

(** ** Constants *)

Definition UNIFYFS_MAX_FILENAME : Z := 1024.
Definition EIO : Z := 5.
Definition ENOTDIR : Z := 20.
Definition EISDIR : Z := 21.
Definition EMFILE : Z := 24.
Definition EROFS : Z := 30.
Definition ENAMETOOLONG : Z := 36.

Definition O_WRONLY : Z := 1.
Definition O_RDWR : Z := 2.
Definition O_CREAT : Z := 64.
Definition O_EXCL : Z := 128.
Definition O_TRUNC : Z := 512.
Definition O_APPEND : Z := 1024.
Definition O_DIRECTORY : Z := 65536.

Definition S_IFMT : Z := 61440.
Definition S_IFDIR : Z := 16384.
Definition S_IFREG : Z := 32768.
Definition UNIFYFS_STAT_DEFAULT_FILE_MODE : Z := 33188.   (* S_IFREG | 0644 *)

(** A [size_t] as an [off_t]. *)
Definition off_t_of (x : Z) : Z := if x <? 9223372036854775808 then x else x - 18446744073709551616.

Definition bits (x mask : Z) : bool := negb (Z.land x mask =? 0).
Definition S_ISDIR (mode : Z) : bool := Z.land mode S_IFMT =? S_IFDIR.

(** ** State *)

Inductive file_storage := FILE_STORAGE_NULL | FILE_STORAGE_LOGIO.

#[export] Instance file_storage_eq_dec : EqDecision file_storage.
Proof. solve_decision. Defined.

Record unifyfs_filemeta := Filemeta {
  fm_fid : Z;
  fm_storage : file_storage;
  fm_pending_unlink : bool;
  fm_needs_writes_sync : bool;
  fm_needs_reads_sync : bool;
  fm_extents_sync : seg_tree;   (* our coalesced writes between sync operations *)
  fm_extents : seg_tree;        (* all local data extents *)
  fm_attrs : unifyfs_file_attr_t;
}.

Record unifyfs_filename := Filename {
  fn_in_use : bool;
  fn_filename : string;
}.

(** The settings of a client. *)
Record client_cfg := ClientCfg {
  cc_app_id : Z;
  cc_client_id : Z;
  cc_use_excl_private : bool;
  cc_use_local_extents : bool;
  cc_use_node_local_extents : bool;
  cc_use_write_sync : bool;
  cc_max_files : Z;
  cc_max_write_index_entries : Z;
}.

Record unifyfs_client := Client {
  cl_cfg : client_cfg;
  cl_mem : mem;
  cl_free_fid_stack : unifyfs_stack;
  cl_filelist : list unifyfs_filename;
  cl_filemetas : list unifyfs_filemeta;
  cl_logio : logio_context;
  cl_index : list unifyfs_index;   (* the entries of the write index in use *)
}.

(** *** Updates *)

Definition cl_set_mem (m : mem) (c : unifyfs_client) : unifyfs_client :=
  Client (cl_cfg c) m (cl_free_fid_stack c) (cl_filelist c) (cl_filemetas c) (cl_logio c) (cl_index c).
Definition cl_set_stack (s : unifyfs_stack) (c : unifyfs_client) : unifyfs_client :=
  Client (cl_cfg c) (cl_mem c) s (cl_filelist c) (cl_filemetas c) (cl_logio c) (cl_index c).
Definition cl_set_filelist (l : list unifyfs_filename) (c : unifyfs_client) : unifyfs_client :=
  Client (cl_cfg c) (cl_mem c) (cl_free_fid_stack c) l (cl_filemetas c) (cl_logio c) (cl_index c).
Definition cl_set_filemetas (l : list unifyfs_filemeta) (c : unifyfs_client) : unifyfs_client :=
  Client (cl_cfg c) (cl_mem c) (cl_free_fid_stack c) (cl_filelist c) l (cl_logio c) (cl_index c).
Definition cl_set_logio (l : logio_context) (c : unifyfs_client) : unifyfs_client :=
  Client (cl_cfg c) (cl_mem c) (cl_free_fid_stack c) (cl_filelist c) (cl_filemetas c) l (cl_index c).
Definition cl_set_index (ix : list unifyfs_index) (c : unifyfs_client) : unifyfs_client :=
  Client (cl_cfg c) (cl_mem c) (cl_free_fid_stack c) (cl_filelist c) (cl_filemetas c) (cl_logio c) ix.

(** Write to the metadata of a file through a pointer to it. *)
Definition put_meta (fid : Z) (f : unifyfs_filemeta -> unifyfs_filemeta) (c : unifyfs_client) : unifyfs_client :=
  cl_set_filemetas (alter f (Z.to_nat fid) (cl_filemetas c)) c.

Definition fm_set_fid (fid : Z) (m : unifyfs_filemeta) : unifyfs_filemeta :=
  Filemeta fid (fm_storage m) (fm_pending_unlink m) (fm_needs_writes_sync m) (fm_needs_reads_sync m)
    (fm_extents_sync m) (fm_extents m) (fm_attrs m).
Definition fm_set_storage (st : file_storage) (m : unifyfs_filemeta) : unifyfs_filemeta :=
  Filemeta (fm_fid m) st (fm_pending_unlink m) (fm_needs_writes_sync m) (fm_needs_reads_sync m)
    (fm_extents_sync m) (fm_extents m) (fm_attrs m).
Definition fm_set_pending (b : bool) (m : unifyfs_filemeta) : unifyfs_filemeta :=
  Filemeta (fm_fid m) (fm_storage m) b (fm_needs_writes_sync m) (fm_needs_reads_sync m)
    (fm_extents_sync m) (fm_extents m) (fm_attrs m).
Definition fm_set_writes_sync (b : bool) (m : unifyfs_filemeta) : unifyfs_filemeta :=
  Filemeta (fm_fid m) (fm_storage m) (fm_pending_unlink m) b (fm_needs_reads_sync m)
    (fm_extents_sync m) (fm_extents m) (fm_attrs m).
Definition fm_set_extents_sync (t : seg_tree) (m : unifyfs_filemeta) : unifyfs_filemeta :=
  Filemeta (fm_fid m) (fm_storage m) (fm_pending_unlink m) (fm_needs_writes_sync m) (fm_needs_reads_sync m)
    t (fm_extents m) (fm_attrs m).
Definition fm_set_extents (t : seg_tree) (m : unifyfs_filemeta) : unifyfs_filemeta :=
  Filemeta (fm_fid m) (fm_storage m) (fm_pending_unlink m) (fm_needs_writes_sync m) (fm_needs_reads_sync m)
    (fm_extents_sync m) t (fm_attrs m).
Definition fm_set_attrs (a : unifyfs_file_attr_t) (m : unifyfs_filemeta) : unifyfs_filemeta :=
  Filemeta (fm_fid m) (fm_storage m) (fm_pending_unlink m) (fm_needs_writes_sync m) (fm_needs_reads_sync m)
    (fm_extents_sync m) (fm_extents m) a.

(** ** The server, as its clients see it *)

Class ServerRpc (S : Type) := {
  rpc_metaset : S -> Z -> unifyfs_file_attr_t -> S * Z;
  rpc_metaget : S -> Z -> Z + unifyfs_file_attr_t;           (* error code or attributes *)
  rpc_fsync : S -> Z -> Z -> Z -> list unifyfs_index -> S * Z;   (* app, client, gfid, write index *)
  rpc_filesize : S -> Z -> Z + Z;
  rpc_truncate : S -> Z -> Z -> S * Z;
  rpc_unlink : S -> Z -> S * Z;
}.

(** What the client gets from the operating system and from OpenSSL. *)
Record client_env := ClientEnv {
  ce_uid : Z;
  ce_gid : Z;
  ce_time : timespec;
  ce_md5 : string -> list Z;
}.

Section Client.
Context {S : Type} `{!ServerRpc S} (env : client_env).
Implicit Types (c : unifyfs_client) (s : S).

Definition gfid_of_path (path : string) : Z := unifyfs_generate_gfid (ce_md5 env) path.

(** [strlen(path) + 1] *)
Definition pathlen (path : string) : Z := Z.of_nat (String.length path) + 1.

(** ** File ids *)

Definition unifyfs_fid_alloc c : lres (unifyfs_client * Z) :=
  let! '(st, fid) := lift_option (unifyfs_stack_pop (cl_free_fid_stack c)) in
  LRet (cl_set_stack st c, if fid <? 0 then - EMFILE else fid).

Definition unifyfs_fid_free c (fid : Z) : lres (unifyfs_client * Z) :=
  let! st := lift_option (unifyfs_stack_push (cl_free_fid_stack c) fid) in
  LRet (cl_set_stack st c, UNIFYFS_SUCCESS).

Definition local_extents c : bool := cc_use_local_extents (cl_cfg c) || cc_use_node_local_extents (cl_cfg c).

(** *** Deleting a file and looking up its metadata

    The two call each other: the lookup deletes a file whose unlink callback
    is pending, and the deletion looks up the metadata of the file.  The
    lookup clears the callback first, so that it is not called a third
    time. *)

(** The loop over the unsynced extents. *)
Fixpoint free_extents (l : logio_context) (nodes : list seg_tree_node) : lres logio_context :=
  match nodes with
  | [] => LRet l
  | n :: nodes =>
      let! '(l, _) := unifyfs_logio_free l (sn_ptr n) (sn_end n ⊟ sn_start n ⊞ 1) in
      free_extents l nodes
  end.

(** The pointer to the metadata of file [fid] that [get] returns is not null
    when its result is [true]. *)
Definition fid_storage_free (get : unifyfs_client -> Z -> lres (unifyfs_client * bool)) c (fid : Z)
    : lres (unifyfs_client * Z) :=
  let! '(c, found) := get c fid in
  if found then
    let! meta := lift_option (cl_filemetas c !! Z.to_nat fid) in
    if fid =? fm_fid meta then
      let! '(c, meta) :=
        match fm_storage meta with
        | FILE_STORAGE_LOGIO =>
            let! nodes := lift_option (seg_tree_walk (seg_tree_fuel (fm_extents_sync meta)) (fm_extents_sync meta) None) in
            let! l := free_extents (cl_logio c) nodes in
            let! ts := lift_option (seg_tree_destroy (fm_extents_sync meta)) in
            let! te :=
              if local_extents c then lift_option (seg_tree_destroy (fm_extents meta)) else LRet (fm_extents meta) in
            LRet (cl_set_logio l c, fm_set_extents te (fm_set_extents_sync ts meta))
        | FILE_STORAGE_NULL => LRet (c, meta)
        end in
      LRet (put_meta fid (fun _ => fm_set_fid (-1) (fm_set_storage FILE_STORAGE_NULL meta)) c, UNIFYFS_SUCCESS)
    else LRet (c, UNIFYFS_FAILURE)
  else LRet (c, UNIFYFS_FAILURE).

(** [filelist] at [fid]; an index outside the array is a fault. *)
Definition put_filename (fid : Z) (f : unifyfs_filename) c : lres unifyfs_client :=
  if bool_decide (0 <= fid < Z.of_nat (length (cl_filelist c))) then
    LRet (cl_set_filelist (<[Z.to_nat fid := f]> (cl_filelist c)) c)
  else LFault.

Definition fid_delete (get : unifyfs_client -> Z -> lres (unifyfs_client * bool)) c (fid : Z)
    : lres (unifyfs_client * Z) :=
  let! c := put_filename fid (Filename false EmptyString) c in
  let! '(c, rc) := fid_storage_free get c fid in
  if negb (rc =? UNIFYFS_SUCCESS) then LRet (c, rc)
  else unifyfs_fid_free c fid.

Fixpoint get_meta (depth : nat) c (fid : Z) : lres (unifyfs_client * bool) :=
  if (0 <=? fid) && (fid <? cc_max_files (cl_cfg c)) then
    let! meta := lift_option (cl_filemetas c !! Z.to_nat fid) in
    if (fid =? fm_fid meta) && fm_pending_unlink meta then
      match depth with
      | O => LFault
      | Datatypes.S depth =>
          let c := put_meta fid (fm_set_pending false) c in
          let! '(c, _) := fid_delete (get_meta depth) c fid in
          LRet (c, false)
      end
    else LRet (c, true)
  else LRet (c, false).

Definition unifyfs_get_meta_from_fid c (fid : Z) : lres (unifyfs_client * bool) := get_meta 1 c fid.

Definition unifyfs_fid_delete c (fid : Z) : lres (unifyfs_client * Z) := fid_delete unifyfs_get_meta_from_fid c fid.

(** The metadata itself; a null pointer that is followed is a fault. *)
Definition with_meta {A} c (fid : Z) (k : unifyfs_client -> option unifyfs_filemeta -> lres A) : lres A :=
  let! '(c, found) := unifyfs_get_meta_from_fid c fid in
  if found then let! meta := lift_option (cl_filemetas c !! Z.to_nat fid) in k c (Some meta) else k c None.

(** ** Queries *)

Definition unifyfs_fid_is_laminated c (fid : Z) : lres (unifyfs_client * Z) :=
  with_meta c fid (fun c meta =>
    LRet (c, match meta with Some m => if fm_fid m =? fid then fa_is_laminated (fm_attrs m) else 0 | None => 0 end)).

Definition unifyfs_fid_is_dir c (fid : Z) : lres (unifyfs_client * bool) :=
  with_meta c fid (fun c meta =>
    LRet (c, match meta with Some m => bits (fa_mode (fm_attrs m)) S_IFDIR | None => false end)).

Definition unifyfs_gfid_from_fid c (fid : Z) : lres (unifyfs_client * Z) :=
  if (fid <? 0) || (fid >=? cc_max_files (cl_cfg c)) then LRet (c, -1)
  else with_meta c fid (fun c meta => LRet (c, match meta with Some m => fa_gfid (fm_attrs m) | None => -1 end)).

(** The first index below [max_files] that passes the test, or -1. *)
Fixpoint scan_files (test : unifyfs_filename -> unifyfs_filemeta -> bool) (i : Z)
    (names : list unifyfs_filename) (metas : list unifyfs_filemeta) : Z :=
  match names, metas with
  | n :: names, m :: metas => if fn_in_use n && test n m then i else scan_files test (i + 1) names metas
  | _, _ => -1
  end.

Definition unifyfs_fid_from_gfid c (gfid : Z) : Z :=
  scan_files (fun _ m => fa_gfid (fm_attrs m) =? gfid) 0 (cl_filelist c) (cl_filemetas c).

Definition unifyfs_fid_from_path c (path : string) : Z :=
  scan_files (fun n _ => bool_decide (fn_filename n = path)) 0 (cl_filelist c) (cl_filemetas c).

Definition unifyfs_path_from_fid c (fid : Z) : lres (option string) :=
  if fid <? 0 then LFault
  else let! n := lift_option (cl_filelist c !! Z.to_nat fid) in
    LRet (if fn_in_use n then Some (fn_filename n) else None).

(** A pointer into the path of the caller, or into the name of a file. *)
Inductive char_ptr := PtrPath (off : nat) | PtrFilename (fid off : nat).

#[export] Instance char_ptr_eq_dec : EqDecision char_ptr.
Proof. solve_decision. Defined.

(** [strstr(path, name)]: where the name occurs in the path. *)
Definition strstr_path (path name : string) : option char_ptr := PtrPath <$> String.index 0 name path.

Fixpoint is_dir_empty_loop (path : string) (i : nat) (names : list unifyfs_filename) : bool :=
  match names with
  | [] => true
  | n :: names =>
      if fn_in_use n && (bool_decide (strstr_path path (fn_filename n) = Some (PtrFilename i 0)) &&
           negb (bool_decide (path = fn_filename n)))
      then false
      else is_dir_empty_loop path (Datatypes.S i) names
  end.

Definition unifyfs_fid_is_dir_empty c (path : string) : bool := is_dir_empty_loop path 0 (cl_filelist c).

Definition unifyfs_fid_global_size c (fid : Z) : lres (unifyfs_client * Z) :=
  with_meta c fid (fun c meta => LRet (c, match meta with Some m => off_t_of (fa_size (fm_attrs m)) | None => -1 end)).

(** ** Synchronisation *)

Definition clear_index c : unifyfs_client := cl_set_index [] c.

Definition index_entry (gfid : Z) (n : seg_tree_node) : unifyfs_index :=
  UnifyfsIndex (sn_start n) (sn_ptr n) (sn_end n ⊟ sn_start n ⊞ 1) gfid.

(** The index region has [max_write_index_entries] entries; an entry beyond
    them is a fault. *)
Definition rewrite_index_from_seg_tree c (fid : Z) (meta : unifyfs_filemeta) : lres unifyfs_client :=
  let! nodes := lift_option (seg_tree_walk (seg_tree_fuel (fm_extents_sync meta)) (fm_extents_sync meta) None) in
  if Z.of_nat (length nodes) >? cc_max_write_index_entries (cl_cfg c) then LFault
  else
    let! t := lift_option (seg_tree_clear (fm_extents_sync meta)) in
    LRet (cl_set_index (index_entry (fa_gfid (fm_attrs meta)) <$> nodes) (put_meta fid (fm_set_extents_sync t) c)).

Definition unifyfs_fid_sync_extents c s (fid : Z) : lres (unifyfs_client * S * Z) :=
  with_meta c fid (fun c meta =>
    match meta with
    | None => LRet (c, s, UNIFYFS_SUCCESS)
    | Some meta =>
        if negb (fm_fid meta =? fid) then LRet (c, s, UNIFYFS_FAILURE)
        else if fm_needs_writes_sync meta then
          let! c := rewrite_index_from_seg_tree c fid meta in
          let done c := put_meta fid (fm_set_writes_sync false) c in
          if bool_decide (cl_index c = []) then LRet (done c, s, UNIFYFS_SUCCESS)
          else
            let '(s, rc) :=
              rpc_fsync s (cc_app_id (cl_cfg c)) (cc_client_id (cl_cfg c)) (fa_gfid (fm_attrs meta)) (cl_index c) in
            LRet (clear_index (done c), s, rc)
        else LRet (c, s, UNIFYFS_SUCCESS)
    end).

(** [fsync_err]: the error of a failed [fsync] of the spill-over file. *)
Definition unifyfs_fid_sync_data c (fsync_err : option Z) (fid : Z) : lres (unifyfs_client * Z) :=
  with_meta c fid (fun c meta =>
    match meta with
    | Some m => if fm_fid m =? fid then LRet (c, unifyfs_logio_sync (cl_logio c) fsync_err) else LRet (c, UNIFYFS_FAILURE)
    | None => LRet (c, UNIFYFS_FAILURE)
    end).

(** The loop over the files; the last error is returned. *)
Fixpoint sync_files_loop c s (fids : list nat) (ret : Z) : lres (unifyfs_client * S * Z) :=
  match fids with
  | [] => LRet (c, s, ret)
  | i :: fids =>
      let! n := lift_option (cl_filelist c !! i) in
      if fn_in_use n then
        let! '(c, s, rc) := unifyfs_fid_sync_extents c s (Z.of_nat i) in
        sync_files_loop c s fids (if negb (rc =? UNIFYFS_SUCCESS) then rc else ret)
      else sync_files_loop c s fids ret
  end.

Definition unifyfs_sync_files c s : lres (unifyfs_client * S * Z) :=
  sync_files_loop c s (seq 0 (Z.to_nat (cc_max_files (cl_cfg c)))) UNIFYFS_SUCCESS.

(** The size of a file; -1 when it is not known. *)
Definition unifyfs_fid_logical_size c s (fid : Z) : lres (unifyfs_client * S * Z) :=
  let! '(c, lam) := unifyfs_fid_is_laminated c fid in
  if negb (lam =? 0) then
    let! '(c, sz) := unifyfs_fid_global_size c fid in LRet (c, s, sz)
  else
    let! '(c, s, _) := unifyfs_fid_sync_extents c s fid in
    let! '(c, gfid) := unifyfs_gfid_from_fid c fid in
    LRet (c, s, match rpc_filesize s gfid with inr size => off_t_of size | inl _ => -1 end).

Definition unifyfs_gfid_filesize c s (gfid : Z) : lres (unifyfs_client * S * Z) :=
  let fid := unifyfs_fid_from_gfid c gfid in
  if fid >=? 0 then unifyfs_fid_logical_size c s fid
  else LRet (c, s, match rpc_filesize s gfid with inr size => off_t_of size | inl _ => -1 end).

(** ** Writing *)

(** A segment is added to a tree of the file; the return code of
    [seg_tree_add] is not looked at. *)
Definition tree_add c (t : seg_tree) (file_pos length log_pos : Z) : lres (unifyfs_client * seg_tree) :=
  let! '(m, t, _) :=
    lift_option (seg_tree_add (cl_mem c) t file_pos (u64 (file_pos + length - 1)) log_pos (cc_client_id (cl_cfg c))) in
  LRet (cl_set_mem m c, t).

Definition add_write_meta_to_index c s (fid file_pos log_pos length : Z) : lres (unifyfs_client * S * Z) :=
  let! meta := lift_option (cl_filemetas c !! Z.to_nat fid) in
  let! c :=
    if cc_use_local_extents (cl_cfg c) then
      let! '(c, t) := tree_add c (fm_extents meta) file_pos length log_pos in
      LRet (put_meta fid (fm_set_extents t) c)
    else LRet c in
  let! '(c, s) :=
    if seg_tree_count (fm_extents_sync meta) >=? (cc_max_write_index_entries (cl_cfg c) ⊟ 2) then
      let! '(c, s, _) := unifyfs_fid_sync_extents c s (fm_fid meta) in LRet (c, s)
    else LRet (c, s) in
  let! meta := lift_option (cl_filemetas c !! Z.to_nat fid) in
  let! '(c, t) := tree_add c (fm_extents_sync meta) file_pos length log_pos in
  LRet (put_meta fid (fm_set_extents_sync t) c, s, UNIFYFS_SUCCESS).

(** [meta] is the metadata of file [fid]; the return code and the number of
    bytes written.  [pwrite]: the result of writing to the spill-over file. *)
Definition fid_logio_write c s (pwrite : io_result) (fid : Z) (meta : unifyfs_filemeta) (pos : Z) (buf : list Z)
    : lres (unifyfs_client * S * Z * Z) :=
  if negb (bool_decide (fm_storage meta = FILE_STORAGE_LOGIO)) then LRet (c, s, EINVAL, 0)
  else
    let! '(l, rc, log_off) := unifyfs_logio_alloc (cl_logio c) (Z.of_nat (length buf)) 0 in
    let c := cl_set_logio l c in
    if negb (rc =? UNIFYFS_SUCCESS) then LRet (c, s, rc, 0)
    else
      let! '(l, rc, nwritten) := unifyfs_logio_write (cl_logio c) log_off buf pwrite in
      let c := cl_set_logio l c in
      if negb (rc =? UNIFYFS_SUCCESS) then LRet (c, s, rc, nwritten)
      else
        let! '(c, s, rc) := add_write_meta_to_index c s fid pos log_off nwritten in
        LRet (c, s, rc, nwritten).

Definition unifyfs_fid_write c s (pwrite : io_result) (fid pos : Z) (buf : list Z)
    : lres (unifyfs_client * S * Z * Z) :=
  if Z.of_nat (length buf) =? 0 then LRet (c, s, UNIFYFS_SUCCESS, 0)
  else
    with_meta c fid (fun c meta =>
      match meta with
      | None => LFault
      | Some meta =>
          if negb (fa_is_laminated (fm_attrs meta) =? 0) then LRet (c, s, EROFS, 0)
          else
            match fm_storage meta with
            | FILE_STORAGE_NULL => LRet (c, s, EIO, 0)
            | FILE_STORAGE_LOGIO =>
                let! '(c, s, rc, nwritten) := fid_logio_write c s pwrite fid meta pos buf in
                if rc =? UNIFYFS_SUCCESS then
                  let c := put_meta fid (fm_set_writes_sync true) c in
                  if cc_use_write_sync (cl_cfg c) then
                    let! '(c, s, ret) := unifyfs_fid_sync_extents c s fid in
                    LRet (c, s, if negb (ret =? UNIFYFS_SUCCESS) then ret else rc, nwritten)
                  else LRet (c, s, rc, nwritten)
                else LRet (c, s, rc, nwritten)
            end
      end).

(** ** Truncation *)

Definition fid_truncate_write_meta c (fid trunc_sz : Z) : lres (unifyfs_client * Z) :=
  let! meta := lift_option (cl_filemetas c !! Z.to_nat fid) in
  let local := cc_use_local_extents (cl_cfg c) in
  if trunc_sz =? 0 then
    let! ts := lift_option (seg_tree_clear (fm_extents_sync meta)) in
    let! te := if local then lift_option (seg_tree_clear (fm_extents meta)) else LRet (fm_extents meta) in
    LRet (put_meta fid (fun m => fm_set_extents te (fm_set_extents_sync ts m)) c, UNIFYFS_SUCCESS)
  else
    let trunc_off := u64 trunc_sz in
    let! '(m, ts, rc) := lift_option (seg_tree_remove (cl_mem c) (fm_extents_sync meta) trunc_off ULONG_MAX) in
    let! '(m, te, rc) :=
      if local then lift_option (seg_tree_remove m (fm_extents meta) trunc_off ULONG_MAX)
      else LRet (m, fm_extents meta, rc) in
    LRet (put_meta fid (fun m => fm_set_extents te (fm_set_extents_sync ts m)) (cl_set_mem m c),
          if negb (rc =? 0) then UNIFYFS_FAILURE else UNIFYFS_SUCCESS).

Definition unifyfs_fid_truncate c s (fid length : Z) : lres (unifyfs_client * S * Z) :=
  with_meta c fid (fun c meta =>
    match meta with
    | None => LFault
    | Some meta =>
        if S_ISDIR (fa_mode (fm_attrs meta)) then LRet (c, s, EISDIR)
        else if negb (fa_is_laminated (fm_attrs meta) =? 0) then LRet (c, s, EINVAL)
        else
          match fm_storage meta with
          | FILE_STORAGE_NULL => LRet (c, s, EIO)
          | FILE_STORAGE_LOGIO =>
              let! '(c, rc) := fid_truncate_write_meta c fid length in
              if negb (rc =? UNIFYFS_SUCCESS) then LRet (c, s, rc)
              else
                let! '(c, s, rc) := unifyfs_fid_sync_extents c s fid in
                if negb (rc =? UNIFYFS_SUCCESS) then LRet (c, s, rc)
                else
                  let c := put_meta fid (fun m => fm_set_attrs (attr_set_size (u64 length) (fm_attrs m)) m) c in
                  let! '(c, gfid) := unifyfs_gfid_from_fid c fid in
                  let '(s, rc) := rpc_truncate s gfid (u64 length) in
                  LRet (c, s, rc)
          end
    end).

(** ** Creating and opening files *)

Definition fid_storage_alloc c (fid : Z) : lres (unifyfs_client * Z) :=
  with_meta c fid (fun c meta =>
    match meta with
    | Some m =>
        if fm_fid m =? fid then
          LRet (put_meta fid (fun m =>
                  let m := fm_set_extents_sync seg_tree_init m in
                  let m := if local_extents c then fm_set_extents seg_tree_init m else m in
                  fm_set_storage FILE_STORAGE_LOGIO m) c, UNIFYFS_SUCCESS)
        else LRet (c, UNIFYFS_FAILURE)
    | None => LRet (c, UNIFYFS_FAILURE)
    end).

Definition unifyfs_fid_update_file_meta c (fid : Z) (gfattr : unifyfs_file_attr_t) : lres (unifyfs_client * Z) :=
  with_meta c fid (fun c meta =>
    match meta with
    | Some _ => LRet (put_meta fid (fm_set_attrs gfattr) c, UNIFYFS_SUCCESS)
    | None => LRet (c, EINVAL)
    end).

Definition unifyfs_set_global_file_meta s (gfid op : Z) (gfattr : unifyfs_file_attr_t) : S * Z :=
  rpc_metaset s op (FileAttr (fa_filename gfattr) gfid (fa_is_laminated gfattr) (fa_is_shared gfattr) (fa_mode gfattr)
    (fa_uid gfattr) (fa_gid gfattr) (fa_size gfattr) (fa_atime gfattr) (fa_mtime gfattr) (fa_ctime gfattr)
    (fa_last_update gfattr)).

Definition unifyfs_set_global_file_meta_from_fid c s (fid op : Z) : lres (unifyfs_client * S * Z) :=
  with_meta c fid (fun c meta =>
    match meta with
    | None => LFault
    | Some meta =>
        let inv := unifyfs_file_attr_set_invalid in
        let gfid := fa_gfid (fm_attrs meta) in
        let fattr := FileAttr (fa_filename inv) gfid (fa_is_laminated inv) (fa_is_shared inv) (fa_mode inv) (fa_uid inv)
          (fa_gid inv) (fa_size inv) (fa_atime inv) (fa_mtime inv) (fa_ctime inv) (fa_last_update inv) in
        let '(m, fattr, _) := unifyfs_file_attr_update (tv_sec (ce_time env)) (cl_mem c) op fattr (fm_attrs meta) in
        let '(s, rc) := unifyfs_set_global_file_meta s gfid op fattr in
        LRet (cl_set_mem m c, s, rc)
    end).

(** The attributes of a new file. *)
Definition new_attrs (path : string) (mode : Z) (private : bool) : unifyfs_file_attr_t :=
  FileAttr (Some path) (gfid_of_path path) 0 (if private then 0 else 1) mode (ce_uid env) (ce_gid env) 0
    (ce_time env) (ce_time env) (ce_time env) (fa_last_update unifyfs_file_attr_set_invalid).

(** The new fid, or a negative error code. *)
Definition unifyfs_fid_create_file c (path : string) (private : bool) : lres (unifyfs_client * Z) :=
  if pathlen path >? UNIFYFS_MAX_FILENAME then LRet (c, - ENAMETOOLONG)
  else
    let! '(c, fid) := unifyfs_fid_alloc c in
    if fid <? 0 then LRet (c, fid)
    else
      let! c := put_filename fid (Filename true path) c in
      with_meta c fid (fun c meta =>
        match meta with
        | None => LFault
        | Some meta =>
            LRet (put_meta fid (fun m => Filemeta fid FILE_STORAGE_NULL false false true (fm_extents_sync m) (fm_extents m)
                     (new_attrs path UNIFYFS_STAT_DEFAULT_FILE_MODE private)) c, fid)
        end).

Definition set_dir_mode (m : unifyfs_filemeta) : unifyfs_filemeta :=
  let a := fm_attrs m in
  fm_set_attrs (FileAttr (fa_filename a) (fa_gfid a) (fa_is_laminated a) (fa_is_shared a)
    (Z.lor (Z.land (fa_mode a) (Z.lnot S_IFREG)) S_IFDIR) (fa_uid a) (fa_gid a) (fa_size a) (fa_atime a) (fa_mtime a)
    (fa_ctime a) (fa_last_update a)) m.

Definition unifyfs_fid_create_directory c s (path : string) : lres (unifyfs_client * S * Z) :=
  if pathlen path >? UNIFYFS_MAX_FILENAME then LRet (c, s, ENAMETOOLONG)
  else
    let fid := unifyfs_fid_from_path c path in
    let gfid := gfid_of_path path in
    let found_local := negb (fid =? -1) in
    let found_global := match rpc_metaget s gfid with inr _ => true | inl _ => false end in
    if found_local && negb found_global then LRet (c, s, EEXIST)
    else if negb found_local then
      let! '(c, fid) := unifyfs_fid_create_file c path false in
      if fid <? 0 then LRet (c, s, - fid)
      else
        with_meta c fid (fun c meta =>
          match meta with
          | None => LFault
          | Some _ =>
              let c := put_meta fid set_dir_mode c in
              if negb found_global then
                let! '(c, s, rc) := unifyfs_set_global_file_meta_from_fid c s fid ATTR_OP_CREATE in
                if negb (rc =? UNIFYFS_SUCCESS) && negb (rc =? EEXIST) then LRet (c, s, rc) else LRet (c, s, UNIFYFS_SUCCESS)
              else LRet (c, s, UNIFYFS_SUCCESS)
          end)
    else LRet (c, s, UNIFYFS_SUCCESS).

Definition unifyfs_gfid_create s (path : string) (exclusive private : bool) (mode : Z) : S * Z :=
  if pathlen path >? UNIFYFS_MAX_FILENAME then (s, ENAMETOOLONG)
  else
    let '(s, ret) := unifyfs_set_global_file_meta s (gfid_of_path path) ATTR_OP_CREATE (new_attrs path mode private) in
    (s, if (ret =? EEXIST) && negb exclusive then UNIFYFS_SUCCESS else ret).

Definition unifyfs_fid_fetch c s (path : string) : lres (unifyfs_client * S * Z) :=
  if pathlen path >? UNIFYFS_MAX_FILENAME then LRet (c, s, ENAMETOOLONG)
  else
    let gfid := gfid_of_path path in
    let fid := unifyfs_fid_from_path c path in
    let found_local := fid >=? 0 in
    match rpc_metaget s gfid with
    | inl ret =>
        let! '(c, _) := if found_local then unifyfs_fid_delete c fid else LRet (c, 0) in
        LRet (c, s, ret)
    | inr gfattr =>
        let! '(c, fid, ret) :=
          if negb found_local then
            let! '(c, fid) := unifyfs_fid_create_file c path (fa_is_shared gfattr =? 0) in
            if fid <? 0 then LRet (c, fid, - fid)
            else
              let! '(c, ret) := fid_storage_alloc c fid in
              if negb (ret =? UNIFYFS_SUCCESS) then
                let! '(c, _) := unifyfs_fid_delete c fid in LRet (c, fid, ENOMEM)
              else LRet (c, fid, UNIFYFS_SUCCESS)
          else LRet (c, fid, UNIFYFS_SUCCESS) in
        if negb (ret =? UNIFYFS_SUCCESS) then LRet (c, s, ret)
        else
          let! '(c, _) := unifyfs_fid_update_file_meta c fid gfattr in
          LRet (c, s, UNIFYFS_SUCCESS)
    end.

(** The return code, the file id and the position. *)
Definition unifyfs_fid_open c s (path : string) (flags mode : Z) : lres (unifyfs_client * S * (Z * Z * Z)) :=
  if pathlen path >? UNIFYFS_MAX_FILENAME then LRet (c, s, (ENAMETOOLONG, 0, 0))
  else if bits flags O_CREAT && bits (Z.land mode S_IFMT) (Z.lnot S_IFREG) then LRet (c, s, (EINVAL, 0, 0))
  else
    let mode := if bits flags O_CREAT then Z.lor mode S_IFREG else mode in
    let exclusive := bits flags O_EXCL in
    let '(s, ret) :=
      if bits flags O_CREAT then
        unifyfs_gfid_create s path exclusive (exclusive && cc_use_excl_private (cl_cfg c)) mode
      else (s, UNIFYFS_SUCCESS) in
    if negb (ret =? UNIFYFS_SUCCESS) then LRet (c, s, (ret, 0, 0))
    else
      let! '(c, s, ret) := unifyfs_fid_fetch c s path in
      if negb (ret =? UNIFYFS_SUCCESS) then LRet (c, s, (ret, 0, 0))
      else
        let fid := unifyfs_fid_from_path c path in
        let fail c err := let! '(c, _) := unifyfs_fid_delete c fid in LRet (c, s, (err, 0, 0)) in
        let! '(c, dir) := unifyfs_fid_is_dir c fid in
        if bits flags O_DIRECTORY && negb dir then fail c ENOTDIR
        else if negb (bits flags O_DIRECTORY) && dir then fail c EISDIR
        else
          let! '(c, lam) := unifyfs_fid_is_laminated c fid in
          if negb (lam =? 0) && (bits flags (Z.lor O_CREAT (Z.lor O_TRUNC (Z.lor O_APPEND O_WRONLY))) ||
               (bits mode 146 && negb (flags =? 0)))        (* 0222, O_RDONLY *)
          then fail c EROFS
          else
            let open_for_write := bits flags (Z.lor O_RDWR O_WRONLY) in
            let! '(c, s, ret) :=
              if bits flags O_TRUNC && open_for_write then unifyfs_fid_truncate c s fid 0
              else LRet (c, s, UNIFYFS_SUCCESS) in
            if negb (ret =? UNIFYFS_SUCCESS) then LRet (c, s, (ret, 0, 0))
            else
              let! '(c, s, pos) :=
                if bits flags O_APPEND && open_for_write then unifyfs_fid_logical_size c s fid else LRet (c, s, 0) in
              LRet (c, s, (UNIFYFS_SUCCESS, fid, pos)).

Definition unifyfs_fid_unlink c s (fid : Z) : lres (unifyfs_client * S * Z) :=
  let! '(c, gfid) := unifyfs_gfid_from_fid c fid in
  let! '(c, rc) := unifyfs_fid_delete c fid in
  if negb (rc =? UNIFYFS_SUCCESS) then LRet (c, s, rc)
  else let '(s, rc) := rpc_unlink s gfid in LRet (c, s, rc).

End Client.
