(* ===== verification/ServerRead.v ===== *)
(** * The read path of the servers

    A server that handles a read of one of its clients groups the chunks that
    hold the data by server ([server/src/unifyfs_fops_rpc.c]), keeps the
    request in a slot of the client's request manager
    ([server/src/unifyfs_request_manager.c]) and asks each server for its
    chunks.  A server that is asked reads the chunks from the logs of its
    clients into one response buffer
    ([server/src/unifyfs_service_manager.c]).  The request manager passes the
    data of each response on to the client in pieces and tells it when the
    request is complete.

    The client is seen through the interface [ClientRpc]; its own side of it
    is in the file of the client's reads. *)

From S2P Require Import Prelude.
From S2P Require Import Extents.
From S2P Require Import ExtentTree.
From S2P Require Import LogIO.
From S2P Require Import AppTable.
From S2P Require Import Inode.

(** ** Data *)

Record chunk_read_resp := ChunkResp {
  rs_gfid : Z;
  rs_offset : Z;    (* file offset *)
  rs_nbytes : Z;    (* requested read size *)
  rs_read_rc : Z;   (* bytes read (or negative error code) *)
}.

(** [sizeof(chunk_read_resp_t)] *)
Definition sizeof_chunk_read_resp : Z := 32.

(** The buffer of a response: the array of responses, followed by
    [rp_data_sz] bytes of data. *)
Record resp_buf := RespBuf {
  rp_resps : list chunk_read_resp;
  rp_data : Z -> Z;
  rp_data_sz : Z;
}.

Inductive readreq_status := READREQ_NULL | READREQ_READY | READREQ_STARTED | READREQ_COMPLETE.

#[export] Instance readreq_status_eq_dec : EqDecision readreq_status.
Proof. solve_decision. Defined.

Record server_chunk_reads := ServerChunkReads {
  scr_rank : Z;                     (* server rank *)
  scr_rdreq_id : Z;                 (* read-request id *)
  scr_app_id : Z;
  scr_client_id : Z;
  scr_num_chunks : Z;
  scr_status : readreq_status;
  scr_total_sz : Z;                 (* total size of data requested *)
  scr_reqs : list chunk_read_req;
  scr_resp : option resp_buf;
}.

Record server_read_req := ServerReadReq {
  rq_status : readreq_status;
  rq_in_use : bool;
  rq_req_ndx : Z;                   (* index in reqmgr read_reqs array *)
  rq_app_id : Z;
  rq_client_id : Z;
  rq_client_mread : Z;              (* client mread id *)
  rq_client_read_ndx : Z;           (* client mread request index *)
  rq_remote_reads : list server_chunk_reads;  (* num_server_reads entries *)
  rq_extent : unifyfs_extent_t;     (* the requested extent *)
}.

Definition UNIFYFS_SERVER_MAX_READS : Z := 2048.
Definition UNIFYFS_SERVER_MAX_DATA_TX_SIZE : Z := 4194304.

(** ** Grouping chunks by server *)

(** The number of servers to contact. *)
Fixpoint count_servers (prev_rank : Z) (chunks : list chunk_read_req) : Z :=
  match chunks with
  | [] => 0
  | c :: chunks => (if negb (cr_rank c =? prev_rank) then 1 else 0) + count_servers (cr_rank c) chunks
  end.

(** The inner loop: the chunks from the current position on that are at
    [rank], their size, and the position after them. *)
Fixpoint take_server (rank : Z) (chunks : list chunk_read_req) (total_sz : Z)
    : list chunk_read_req * Z * list chunk_read_req :=
  match chunks with
  | [] => ([], total_sz, [])
  | c :: rest =>
      if negb (cr_rank c =? rank) then ([], total_sz, chunks)
      else
        let '(cs, sz, rest) := take_server rank rest (total_sz ⊞ cr_nbytes c) in
        (c :: cs, sz, rest)
  end.

(** The outer loop; reading the rank of a chunk after the last one is a
    fault. *)
Fixpoint fill_remote_reads (n : nat) (pos : list chunk_read_req) : lres (list server_chunk_reads) :=
  match n with
  | O => LRet []
  | S n =>
      match pos with
      | [] => LFault
      | c :: _ =>
          let '(cs, sz, rest) := take_server (cr_rank c) pos 0 in
          let! rs := fill_remote_reads n rest in
          LRet (ServerChunkReads (cr_rank c) 0 0 0 (Z.of_nat (length cs)) READREQ_NULL sz cs None :: rs)
      end
  end.

Definition create_remote_read_requests (m : mem) (chunks : list chunk_read_req)
    : lres (mem * Z * list server_chunk_reads) :=
  let num_server_reads := count_servers (-1) chunks in
  let '(p, m) := calloc m in
  match p with
  | None => LRet (m, ENOMEM, [])
  | Some _ =>
      let! rs := fill_remote_reads (Z.to_nat num_server_reads) chunks in
      LRet (m, UNIFYFS_SUCCESS, rs)
  end.

(** ** Reading the chunks *)

(** The data of one chunk and the result that is reported for it. *)
Definition read_chunk (apps : app_table) (rreq : chunk_read_req) (pread : io_result) : lres (Z * list Z) :=
  match get_app_client apps (cr_log_app_id rreq) (cr_log_client_id rreq) with
  | None => LRet (- EINVAL, [])
  | Some app_clnt =>
      match ac_logio_ctx app_clnt with
      | None => LRet (- EINVAL, [])
      | Some logio_ctx =>
          let! '(rc, nread, bytes) := unifyfs_logio_read logio_ctx (cr_log_offset rreq) (cr_nbytes rreq) pread in
          LRet (if rc =? UNIFYFS_SUCCESS then nread else - rc, bytes)
      end
  end.

(** The loop over the requests; [pread] is the result of the read from the
    spill-over file for a chunk.  Storing data beyond the buffer is a fault. *)
Fixpoint chunk_reads_loop (apps : app_table) (pread : chunk_read_req -> io_result) (reqs : list chunk_read_req)
    (total_data_sz : Z) (databuf : Z -> Z) (buf_cursor : Z) : lres (list chunk_read_resp * (Z -> Z)) :=
  match reqs with
  | [] => LRet ([], databuf)
  | rreq :: reqs =>
      let! '(read_rc, bytes) := read_chunk apps rreq (pread rreq) in
      if buf_cursor + Z.of_nat (length bytes) >? total_data_sz then LFault
      else
        let! '(resps, databuf) :=
          chunk_reads_loop apps pread reqs total_data_sz (region_write databuf buf_cursor bytes)
            (buf_cursor ⊞ cr_nbytes rreq) in
        LRet (ChunkResp (cr_gfid rreq) (cr_offset rreq) (cr_nbytes rreq) read_rc :: resps, databuf)
  end.

(** ** Slots of the request manager *)

Record reqmgr_thrd := Reqmgr {
  rm_num_read_reqs : Z;
  rm_next_rdreq_ndx : Z;
  rm_read_reqs : list server_read_req;   (* UNIFYFS_SERVER_MAX_READS entries *)
}.

Definition zero_read_req : server_read_req :=
  ServerReadReq READREQ_NULL false 0 0 0 0 0 [] (UnifyfsExtent 0 0 0).

Definition reqmgr_init : reqmgr_thrd :=
  Reqmgr 0 0 (replicate (Z.to_nat UNIFYFS_SERVER_MAX_READS) zero_read_req).

Definition rdreq_unused (r : server_read_req) : bool := (rq_req_ndx r =? 0) && negb (rq_in_use r).

Definition rdreq_reserve (ndx : Z) (r : server_read_req) : server_read_req :=
  ServerReadReq (rq_status r) true ndx (rq_app_id r) (rq_client_id r) (rq_client_mread r) (rq_client_read_ndx r)
    (rq_remote_reads r) (rq_extent r).

(** The search for an unused slot; without one the last slot is left in the
    loop variable, with the index it had. *)
Fixpoint find_unused (i : nat) (rs : list server_read_req) : option nat :=
  match rs with
  | [] => None
  | r :: rs => if rdreq_unused r then Some i else find_unused (S i) rs
  end.

(** The pointer that is returned is the position of the slot; an assertion
    that fails is a fault. *)
Definition rm_reserve_read_req (rm : reqmgr_thrd) : lres (reqmgr_thrd * option nat) :=
  if rm_num_read_reqs rm <? UNIFYFS_SERVER_MAX_READS then
    let! '(i, ndx, next) :=
      if rm_next_rdreq_ndx rm <? UNIFYFS_SERVER_MAX_READS - 1 then
        let i := Z.to_nat (rm_next_rdreq_ndx rm) in
        let! r := lift_option (rm_read_reqs rm !! i) in
        if rdreq_unused r then LRet (i, rm_next_rdreq_ndx rm, rm_next_rdreq_ndx rm + 1) else LFault
      else
        match find_unused 0 (rm_read_reqs rm) with
        | Some i => LRet (i, Z.of_nat i, rm_next_rdreq_ndx rm)
        | None =>
            let i := Z.to_nat (UNIFYFS_SERVER_MAX_READS - 1) in
            let! r := lift_option (rm_read_reqs rm !! i) in LRet (i, rq_req_ndx r, rm_next_rdreq_ndx rm)
        end in
    LRet (Reqmgr (rm_num_read_reqs rm + 1) next (alter (rdreq_reserve ndx) i (rm_read_reqs rm)), Some i)
  else LRet (rm, None).

Definition release_read_req (rm : reqmgr_thrd) (i : nat) : lres reqmgr_thrd :=
  let! rdreq := lift_option (rm_read_reqs rm !! i) in
  let next := if rq_req_ndx rdreq =? rm_next_rdreq_ndx rm - 1 then rm_next_rdreq_ndx rm - 1
              else rm_next_rdreq_ndx rm in
  let num := rm_num_read_reqs rm - 1 in
  LRet (Reqmgr num (if num =? 0 then 0 else next) (<[i := zero_read_req]> (rm_read_reqs rm))).

(** Write to a slot through the pointer to it. *)
Definition rm_set_slot (i : nat) (r : server_read_req) (rm : reqmgr_thrd) : reqmgr_thrd :=
  Reqmgr (rm_num_read_reqs rm) (rm_next_rdreq_ndx rm) (<[i := r]> (rm_read_reqs rm)).

Definition scr_set_rdreq (id : Z) (s : server_chunk_reads) : server_chunk_reads :=
  ServerChunkReads (scr_rank s) id (scr_app_id s) (scr_client_id s) (scr_num_chunks s) (scr_status s) (scr_total_sz s)
    (scr_reqs s) (scr_resp s).

(** The request is handed over to the request manager [rm] of the client; the
    slot that it gets is returned. *)
Definition rm_submit_read_request (apps : app_table) (rm : reqmgr_thrd)
    (app_id client_id client_mread client_read_ndx : Z) (remote_reads : list server_chunk_reads)
    (extent : unifyfs_extent_t) : lres (reqmgr_thrd * option nat * Z) :=
  match get_app_client apps app_id client_id with
  | None => LRet (rm, None, UNIFYFS_FAILURE)
  | Some _ =>
      let! '(rm, slot) := rm_reserve_read_req rm in
      match slot with
      | None => LRet (rm, None, UNIFYFS_FAILURE)
      | Some i =>
          let! r := lift_option (rm_read_reqs rm !! i) in
          let r' := ServerReadReq READREQ_READY (rq_in_use r) (rq_req_ndx r) app_id client_id client_mread
                      client_read_ndx (scr_set_rdreq (rq_req_ndx r) <$> remote_reads) extent in
          LRet (rm_set_slot i r' rm, Some i, UNIFYFS_SUCCESS)
      end
  end.

(** ** Requests and responses between servers *)

Definition set_remote_reads (rs : list server_chunk_reads) (r : server_read_req) : server_read_req :=
  ServerReadReq (rq_status r) (rq_in_use r) (rq_req_ndx r) (rq_app_id r) (rq_client_id r) (rq_client_mread r)
    (rq_client_read_ndx r) rs (rq_extent r).
Definition set_rq_status (s : readreq_status) (r : server_read_req) : server_read_req :=
  ServerReadReq s (rq_in_use r) (rq_req_ndx r) (rq_app_id r) (rq_client_id r) (rq_client_mread r)
    (rq_client_read_ndx r) (rq_remote_reads r) (rq_extent r).
Definition scr_set_status (st : readreq_status) (s : server_chunk_reads) : server_chunk_reads :=
  ServerChunkReads (scr_rank s) (scr_rdreq_id s) (scr_app_id s) (scr_client_id s) (scr_num_chunks s) st (scr_total_sz s)
    (scr_reqs s) (scr_resp s).

(** The response replaces what the first entry for the server had. *)
Definition scr_set_resp (num_chks bulk_sz : Z) (resp : option resp_buf) (s : server_chunk_reads) : server_chunk_reads :=
  ServerChunkReads (scr_rank s) (scr_rdreq_id s) (scr_app_id s) (scr_client_id s) num_chks (scr_status s) bulk_sz
    (scr_reqs s) resp.

Fixpoint post_response (src_rank num_chks bulk_sz : Z) (resp : resp_buf) (rs : list server_chunk_reads)
    : option (list server_chunk_reads) :=
  match rs with
  | [] => None
  | s :: rs =>
      if scr_rank s =? src_rank then Some (scr_set_resp num_chks bulk_sz (Some resp) s :: rs)
      else cons s <$> post_response src_rank num_chks bulk_sz resp rs
  end.

(** [rm] is the request manager of client [client_id] of application
    [app_id]. *)
Definition rm_post_chunk_read_responses (apps : app_table) (rm : reqmgr_thrd)
    (app_id client_id src_rank req_id num_chks bulk_sz : Z) (resp : resp_buf) : lres (reqmgr_thrd * Z) :=
  match get_app_client apps app_id client_id with
  | None => LRet (rm, UNIFYFS_FAILURE)
  | Some _ =>
      let! rdreq := lift_option (rm_read_reqs rm !! Z.to_nat req_id) in
      match post_response src_rank num_chks bulk_sz resp (rq_remote_reads rdreq) with
      | Some rs => LRet (rm_set_slot (Z.to_nat req_id) (set_remote_reads rs rdreq) rm, UNIFYFS_SUCCESS)
      | None => LRet (rm, UNIFYFS_FAILURE)
      end
  end.

(** Reading the chunks at server [my_rank].  A response for another server is
    added to [chunk_reads], the list of the service manager; a response for
    the server itself is posted to [rm], the request manager of the client that
    reads. *)
Definition sm_issue_chunk_reads (m : mem) (apps : app_table) (my_rank : Z) (pread : chunk_read_req -> io_result)
    (rm : reqmgr_thrd) (chunk_reads : list server_chunk_reads)
    (src_rank src_app_id src_client_id src_req_id total_data_sz : Z) (reqs : list chunk_read_req)
    : lres (mem * reqmgr_thrd * list server_chunk_reads * Z) :=
  let num_chks := Z.of_nat (length reqs) in
  let buf_sz := sizeof_chunk_read_resp * num_chks ⊞ total_data_sz in
  let '(crbuf, m) := calloc m in
  match crbuf with
  | None => LRet (m, rm, chunk_reads, ENOMEM)
  | Some _ =>
      let '(scr, m) := calloc m in
      match scr with
      | None => LRet (m, rm, chunk_reads, ENOMEM)
      | Some _ =>
          let! '(resps, databuf) := chunk_reads_loop apps pread reqs total_data_sz (fun _ => 0) 0 in
          let resp := RespBuf resps databuf total_data_sz in
          if negb (src_rank =? my_rank) then
            LRet (m, rm,
                  chunk_reads ++ [ServerChunkReads src_rank src_req_id src_app_id src_client_id num_chks READREQ_NULL
                                    buf_sz [] (Some resp)],
                  UNIFYFS_SUCCESS)
          else
            let! '(rm, rc) :=
              rm_post_chunk_read_responses apps rm src_app_id src_client_id src_rank src_req_id num_chks buf_sz resp in
            LRet (m, rm, chunk_reads, rc)
      end
  end.

(** The request for chunks that one server sends to another. *)
Record chunk_read_request_in := ChunkReadRequestIn {
  ci_dst : Z;
  ci_src_rank : Z;
  ci_app_id : Z;
  ci_client_id : Z;
  ci_req_id : Z;
  ci_total_data_size : Z;
  ci_reqs : list chunk_read_req;
}.

(** What the network does with a message to a server: whether it arrives, and
    the return code of the call. *)
Definition network : Type := Z -> bool * Z.

Definition invoke_chunk_read_request_rpc (m : mem) (apps : app_table) (my_rank : Z) (pread : chunk_read_req -> io_result)
    (net : network) (rm : reqmgr_thrd) (chunk_reads : list server_chunk_reads) (dst : Z) (rdreq : server_read_req)
    (s : server_chunk_reads) : lres (mem * reqmgr_thrd * list server_chunk_reads * list chunk_read_request_in * Z) :=
  let reqs := take (Z.to_nat (scr_num_chunks s)) (scr_reqs s) in
  if dst =? my_rank then
    let! '(m, rm, chunk_reads, rc) :=
      sm_issue_chunk_reads m apps my_rank pread rm chunk_reads my_rank (rq_app_id rdreq) (rq_client_id rdreq)
        (rq_req_ndx rdreq) (scr_total_sz s) reqs in
    LRet (m, rm, chunk_reads, [], rc)
  else
    let '(arrives, rc) := net dst in
    let msg := ChunkReadRequestIn dst my_rank (rq_app_id rdreq) (rq_client_id rdreq) (rq_req_ndx rdreq)
                 (scr_total_sz s) reqs in
    LRet (m, rm, chunk_reads, if (arrives : bool) then [msg] else [], rc).

(** What the threads of a request manager work on: its slots, the list of the
    service manager and the messages that have been sent. *)
Record rm_state := RmState {
  st_mem : mem;
  st_rm : reqmgr_thrd;
  st_chunk_reads : list server_chunk_reads;
  st_sent : list chunk_read_request_in;
}.

Definition st_update_slot (i : nat) (f : server_read_req -> server_read_req) (st : rm_state) : rm_state :=
  RmState (st_mem st)
    (Reqmgr (rm_num_read_reqs (st_rm st)) (rm_next_rdreq_ndx (st_rm st)) (alter f i (rm_read_reqs (st_rm st))))
    (st_chunk_reads st) (st_sent st).

(** The loop over the servers of the request in slot [i]. *)
Fixpoint request_servers (apps : app_table) (my_rank : Z) (pread : chunk_read_req -> io_result) (net : network)
    (i : nat) (js : list nat) (st : rm_state) (ret : Z) : lres (rm_state * Z) :=
  match js with
  | [] => LRet (st, ret)
  | j :: js =>
      let st := st_update_slot i (fun r => set_remote_reads (alter (scr_set_status READREQ_STARTED) j (rq_remote_reads r)) r) st in
      let! req := lift_option (rm_read_reqs (st_rm st) !! i) in
      let! s := lift_option (rq_remote_reads req !! j) in
      let! '(m, rm, chunk_reads, sent, rc) :=
        invoke_chunk_read_request_rpc (st_mem st) apps my_rank pread net (st_rm st) (st_chunk_reads st) (scr_rank s) req s in
      request_servers apps my_rank pread net i js (RmState m rm chunk_reads (st_sent st ++ sent))
        (if negb (rc =? UNIFYFS_SUCCESS) then rc else ret)
  end.

Definition request_slot (apps : app_table) (my_rank : Z) (pread : chunk_read_req -> io_result) (net : network)
    (st : rm_state) (i : nat) (ret : Z) : lres (rm_state * Z) :=
  let! req := lift_option (rm_read_reqs (st_rm st) !! i) in
  if negb (rq_in_use req) then LRet (st, ret)
  else if bool_decide (rq_status req = READREQ_READY) then
    request_servers apps my_rank pread net i (seq 0 (length (rq_remote_reads req)))
      (st_update_slot i (set_rq_status READREQ_STARTED) st) ret
  else LRet (st, ret).

Fixpoint request_slots (apps : app_table) (my_rank : Z) (pread : chunk_read_req -> io_result) (net : network)
    (st : rm_state) (slots : list nat) (ret : Z) : lres (rm_state * Z) :=
  match slots with
  | [] => LRet (st, ret)
  | i :: slots =>
      let! '(st, ret) := request_slot apps my_rank pread net st i ret in
      request_slots apps my_rank pread net st slots ret
  end.

Definition rm_request_remote_chunks (apps : app_table) (my_rank : Z) (pread : chunk_read_req -> io_result) (net : network)
    (st : rm_state) : lres (rm_state * Z) :=
  request_slots apps my_rank pread net st (seq 0 (Z.to_nat UNIFYFS_SERVER_MAX_READS)) UNIFYFS_SUCCESS.

(** ** Data for the client *)

(** The calls a server makes on a client: data for a request of a read, and
    its completion.  They return the return code of the call. *)
Class ClientRpc (C : Type) := {
  mread_req_data : C -> Z -> Z -> Z -> list Z -> C * Z;
  mread_req_complete : C -> Z -> Z -> Z -> C * Z;
}.

Section Client.
Context {C : Type} `{!ClientRpc C}.

(** The loop that sends the data in pieces; reading data beyond the buffer is
    a fault. *)
Fixpoint send_pieces (fuel : nat) (c : C) (rdreq : server_read_req) (buf : resp_buf)
    (bytes_left send_sz bufpos read_byte_offset ret : Z) : lres (C * Z) :=
  if bytes_left >? 0 then
    match fuel with
    | O => LFault
    | S fuel =>
        let send_sz := if bytes_left <? send_sz then bytes_left else send_sz in
        if bufpos + send_sz >? rp_data_sz buf then LFault
        else
          let '(c, rc) := mread_req_data c (rq_client_mread rdreq) (rq_client_read_ndx rdreq) read_byte_offset
                            (region_read (rp_data buf) bufpos send_sz) in
          send_pieces fuel c rdreq buf (bytes_left - send_sz) send_sz (bufpos + send_sz)
            (read_byte_offset ⊞ send_sz) (if negb (rc =? UNIFYFS_SUCCESS) then rc else ret)
    end
  else LRet (c, ret).

(** [data] is the position in the data of [buf]; the number of bytes that are
    processed is returned last. *)
Definition send_data_to_client (c : C) (rdreq : server_read_req) (resp : chunk_read_resp) (buf : resp_buf) (data : Z)
    : lres (C * Z * Z) :=
  if rs_read_rc resp <? 0 then
    let '(c, rc) := mread_req_complete c (rq_client_mread rdreq) (rq_client_read_ndx rdreq) (- rs_read_rc resp) in
    LRet (c, rc, 0)
  else
    let data_size := rs_read_rc resp in
    if rs_offset resp <? ue_offset (rq_extent rdreq) then LFault
    else
      let! '(c, ret) :=
        send_pieces (Z.to_nat data_size) c rdreq buf data_size UNIFYFS_SERVER_MAX_DATA_TX_SIZE data
          (rs_offset resp ⊟ ue_offset (rq_extent rdreq)) UNIFYFS_SUCCESS in
      LRet (c, ret, data_size).

Fixpoint send_responses (c : C) (rdreq : server_read_req) (buf : resp_buf) (resps : list chunk_read_resp) (data ret : Z)
    : lres (C * Z) :=
  match resps with
  | [] => LRet (c, ret)
  | resp :: resps =>
      let! '(c, rc, processed) := send_data_to_client c rdreq resp buf data in
      send_responses c rdreq buf resps (data + processed) (if negb (rc =? UNIFYFS_SUCCESS) then rc else ret)
  end.

Definition all_complete (rs : list server_chunk_reads) : bool :=
  forallb (fun s => bool_decide (scr_status s = READREQ_COMPLETE)) rs.

(** [j]: the entry of the server in the array of the request, which has a
    response. *)
Definition rm_handle_chunk_read_responses (c : C) (rdreq : server_read_req) (j : nat)
    : lres (C * server_read_req * Z) :=
  let! s := lift_option (rq_remote_reads rdreq !! j) in
  let! buf := lift_option (scr_resp s) in
  if negb (bool_decide (scr_status s = READREQ_STARTED)) then LRet (c, rdreq, EINVAL)
  else if scr_total_sz s =? 0 then LRet (c, rdreq, EINVAL)
  else
    if Z.of_nat (length (rp_resps buf)) <? scr_num_chunks s then LFault
    else
      let! '(c, ret) := send_responses c rdreq buf (take (Z.to_nat (scr_num_chunks s)) (rp_resps buf)) 0 UNIFYFS_SUCCESS in
      let s' := scr_set_status READREQ_COMPLETE (scr_set_resp (scr_num_chunks s) (scr_total_sz s) None s) in
      let rdreq := set_remote_reads (<[j := s']> (rq_remote_reads rdreq)) rdreq in
      if all_complete (rq_remote_reads rdreq) then
        let rdreq := set_rq_status READREQ_COMPLETE rdreq in
        let '(c, rc) := mread_req_complete c (rq_client_mread rdreq) (rq_client_read_ndx rdreq) ret in
        LRet (c, rdreq, if negb (rc =? UNIFYFS_SUCCESS) then rc else ret)
      else LRet (c, rdreq, ret).

(** The part of [rm_process_remote_chunk_responses] for one request: the
    servers that have responded, in the order of the array. *)
Fixpoint handle_responses (c : C) (rdreq : server_read_req) (js : list nat) (ret : Z) : lres (C * server_read_req * Z) :=
  match js with
  | [] => LRet (c, rdreq, ret)
  | j :: js =>
      let! s := lift_option (rq_remote_reads rdreq !! j) in
      match scr_resp s with
      | None => handle_responses c rdreq js ret
      | Some _ =>
          let! '(c, rdreq, rc) := rm_handle_chunk_read_responses c rdreq j in
          handle_responses c rdreq js (if negb (rc =? UNIFYFS_SUCCESS) then rc else ret)
      end
  end.

Definition process_read_req (c : C) (rm : reqmgr_thrd) (i : nat) (ret : Z) : lres (C * reqmgr_thrd * Z) :=
  let! req := lift_option (rm_read_reqs rm !! i) in
  if negb (rq_in_use req) then LRet (c, rm, ret)
  else
    match rq_status req with
    | READREQ_STARTED =>
        let! '(c, req, ret) := handle_responses c req (seq 0 (length (rq_remote_reads req))) ret in
        LRet (c, rm_set_slot i req rm, ret)
    | READREQ_COMPLETE =>
        let! rm := release_read_req rm i in LRet (c, rm, ret)
    | _ => LRet (c, rm, ret)
    end.

Fixpoint process_read_reqs (c : C) (rm : reqmgr_thrd) (slots : list nat) (ret : Z) : lres (C * reqmgr_thrd * Z) :=
  match slots with
  | [] => LRet (c, rm, ret)
  | i :: slots =>
      let! '(c, rm, ret) := process_read_req c rm i ret in
      process_read_reqs c rm slots ret
  end.

Definition rm_process_remote_chunk_responses (c : C) (rm : reqmgr_thrd) : lres (C * reqmgr_thrd * Z) :=
  process_read_reqs c rm (seq 0 (Z.to_nat UNIFYFS_SERVER_MAX_READS)) UNIFYFS_SUCCESS.

(** ** Read requests of a client

    [find] is the lookup of the chunks of an extent, with the error code of a
    failed one. *)
Fixpoint submit_extents (apps : app_table) (app_id client_id client_mread : Z)
    (find : unifyfs_extent_t -> Z + list chunk_read_req) (m : mem) (c : C) (rm : reqmgr_thrd)
    (extent_ndx : Z) (extents : list unifyfs_extent_t) (ret : Z) : lres (mem * C * reqmgr_thrd * Z) :=
  match extents with
  | [] => LRet (m, c, rm, ret)
  | ext :: extents =>
      match find ext with
      | inl rc => LRet (m, c, rm, rc)
      | inr [] =>
          let '(c, _) := mread_req_complete c client_mread extent_ndx ENODATA in
          submit_extents apps app_id client_id client_mread find m c rm (extent_ndx + 1) extents ret
      | inr chunks =>
          let! '(m, rc, remote_reads) := create_remote_read_requests m chunks in
          if negb (rc =? UNIFYFS_SUCCESS) then LRet (m, c, rm, rc)
          else
            let! '(rm, _, ret) := rm_submit_read_request apps rm app_id client_id client_mread extent_ndx remote_reads ext in
            submit_extents apps app_id client_id client_mread find m c rm (extent_ndx + 1) extents ret
      end
  end.

Definition submit_read_request (apps : app_table) (app_id client_id client_mread : Z)
    (find : unifyfs_extent_t -> Z + list chunk_read_req) (m : mem) (c : C) (rm : reqmgr_thrd)
    (extents : list unifyfs_extent_t) : lres (mem * C * reqmgr_thrd * Z) :=
  if bool_decide (extents = []) then LRet (m, c, rm, EINVAL)
  else
    match get_app_client apps app_id client_id with
    | None => LRet (m, c, rm, UNIFYFS_FAILURE)
    | Some _ => submit_extents apps app_id client_id client_mread find m c rm 0 extents UNIFYFS_SUCCESS
    end.

Definition rpc_read (apps : app_table) (app_id client_id client_mread : Z)
    (find : unifyfs_extent_t -> Z + list chunk_read_req) (m : mem) (c : C) (rm : reqmgr_thrd)
    (gfid offset length : Z) : lres (mem * C * reqmgr_thrd * Z) :=
  submit_read_request apps app_id client_id client_mread find m c rm [UnifyfsExtent (u64 offset) length gfid].

Definition rpc_mread (apps : app_table) (app_id client_id client_mread : Z)
    (find : unifyfs_extent_t -> Z + list chunk_read_req) (m : mem) (c : C) (rm : reqmgr_thrd)
    (n_req : nat) (read_reqs : list unifyfs_extent_t) : lres (mem * C * reqmgr_thrd * Z) :=
  submit_read_request apps app_id client_id client_mread find m c rm (take n_req read_reqs).

End Client.
