(* ===== verification/ServerReadProps.v ===== *)
(** * Properties of the read path of the servers

    The chunks of a request are grouped completely by server; the slots of a
    request manager are handed out without clashes and never run out early; a
    response holds the data of the chunks one after the other, and the data of
    a response reaches the client in pieces at the right place. *)

From S2P Require Import Prelude.
From S2P Require Import Extents.
From S2P Require Import ExtentTree.
From S2P Require Import LogIO.
From S2P Require Import AppTable.
From S2P Require Import Inode.
From S2P Require Import InodeProps.
From S2P Require Import ServerRead.

(** ** Grouping *)

Definition chunks_size (cs : list chunk_read_req) : Z := foldr (fun c n => cr_nbytes c + n) 0 cs.

Lemma chunks_size_app l k : chunks_size (l ++ k) = chunks_size l + chunks_size k.
Proof. induction l as [|c l IH]; simpl; [done|]. rewrite IH. lia. Qed.

Lemma chunks_size_nonneg l : Forall (fun c => 0 < cr_nbytes c) l -> 0 <= chunks_size l.
Proof. induction 1; simpl; lia. Qed.

(** The requests for one server. *)
Record server_group (g : server_chunk_reads) : Prop := {
  sg_rank : Forall (fun c => cr_rank c = scr_rank g) (scr_reqs g);
  sg_num : scr_num_chunks g = Z.of_nat (length (scr_reqs g));
  sg_size : scr_total_sz g = u64 (chunks_size (scr_reqs g));
  sg_some : scr_reqs g <> [];
}.

Lemma take_server_spec rank chunks sz : is_u64 sz ->
  exists cs rest, take_server rank chunks sz = (cs, u64 (sz + chunks_size cs), rest) /\
    chunks = cs ++ rest /\ Forall (fun c => cr_rank c = rank) cs /\
    (forall c, head rest = Some c -> cr_rank c <> rank).
Proof.
  revert sz. induction chunks as [|c chunks IH]; intros sz Hsz; simpl.
  { exists [], []. rewrite Z.add_0_r u64_small //. }
  destruct (cr_rank c =? rank) eqn:Hr; zbool; simpl.
  - destruct (IH (sz ⊞ cr_nbytes c) (u64_range _)) as (cs & rest & -> & -> & Hcs & Hrest).
    exists (c :: cs), rest. simpl. rewrite u64_add_l. split_and!; [do 3 f_equal; lia|done|by constructor|done].
  - exists [], (c :: chunks). simpl. rewrite Z.add_0_r u64_small //. split_and!; [done|done|done|by intros ? [= <-]].
Qed.

Lemma count_servers_same rank cs rest :
  Forall (fun c => cr_rank c = rank) cs -> count_servers rank (cs ++ rest) = count_servers rank rest.
Proof. induction 1 as [|c cs Hc _ IH]; [done|]. simpl. by rewrite Hc Z.eqb_refl /= IH. Qed.

Lemma count_servers_nonneg prev l : 0 <= count_servers prev l.
Proof. revert prev. induction l as [|c l IH]; intros prev; simpl; [lia|]. specialize (IH (cr_rank c)). by destruct (_ =? _); simpl; lia. Qed.

(** The groups of a list of chunks: the chunks are those of the groups, in
    order, and neighbouring groups are for different servers. *)
Record grouped (chunks : list chunk_read_req) (gs : list server_chunk_reads) : Prop := {
  gr_all : concat (scr_reqs <$> gs) = chunks;
  gr_group : Forall server_group gs;
  gr_fresh : Forall (fun g => scr_status g = READREQ_NULL /\ scr_resp g = None) gs;
}.

Lemma fill_remote_reads_spec n chunks prev :
  (length chunks <= n)%nat -> (forall c, head chunks = Some c -> cr_rank c <> prev) ->
  exists gs, fill_remote_reads (Z.to_nat (count_servers prev chunks)) chunks = LRet gs /\
    grouped chunks gs /\
    (forall g, head gs = Some g -> scr_rank g <> prev) /\
    Sorted (fun g1 g2 => scr_rank g1 <> scr_rank g2) gs.
Proof.
  revert chunks prev. induction n as [|n IH]; intros [|c chunks] prev Hn Hhd; simpl in Hn; try lia.
  1,2: exists []; split_and!; [done|by split|done|constructor].
  pose proof (take_server_spec (cr_rank c) (c :: chunks) 0 ltac:(ulia)) as (cs & rest & Ht & Heq & Hcs & Hrest).
  simpl. rewrite (proj2 (Z.eqb_neq _ _) (Hhd c eq_refl)) /=.
  pose proof (count_servers_nonneg (cr_rank c) chunks).
  replace (Z.to_nat (1 + count_servers (cr_rank c) chunks)) with (S (Z.to_nat (count_servers (cr_rank c) chunks))) by lia.
  cbn [fill_remote_reads]. rewrite Ht.
  destruct cs as [|c' cs]; simpl in Heq.
  { rewrite -Heq in Hrest. by specialize (Hrest c eq_refl). }
  injection Heq as <- Heq. apply Forall_cons in Hcs as [_ Hcs].
  rewrite Heq (count_servers_same _ _ _ Hcs).
  destruct (IH rest (cr_rank c)) as (gs & -> & [Hall Hgrp Hfr] & Hhead & Hsort);
    [apply (f_equal length) in Heq; rewrite length_app in Heq; lia|done|].
  simpl. eexists. split; [done|]. split_and!.
  - split; simpl; [by rewrite Hall|constructor; [|done]|by constructor].
    split; simpl; [by constructor| |done|done]. lia.
  - intros g [= <-]. simpl. by apply Hhd.
  - constructor; [done|]. destruct gs as [|g gs]; constructor. simpl. by apply not_eq_sym, Hhead.
Qed.

(** Chunks that are ordered by rank make one group per server. *)
Definition by_rank (cs : list chunk_read_req) : Prop := StronglySorted (fun c1 c2 => cr_rank c1 <= cr_rank c2) cs.

Lemma grouped_ranks chunks gs :
  grouped chunks gs -> by_rank chunks -> Sorted (fun g1 g2 => scr_rank g1 <> scr_rank g2) gs ->
  StronglySorted Z.lt (scr_rank <$> gs).
Proof.
  intros [Hall Hgrp _]. revert chunks Hall Hgrp.
  induction gs as [|g gs IH]; intros chunks Hall Hgrp Hs Hd; [constructor|].
  apply Forall_cons in Hgrp as [[Hr _ _ Hne] Hgrp]. rewrite fmap_cons /= in Hall.
  destruct (scr_reqs g) as [|c cs]; [done|]. apply Forall_cons in Hr as [Hc Hr]. simpl in Hall. subst chunks.
  apply StronglySorted_inv in Hs as [Hs Hle]. apply Sorted_inv in Hd as [Hd Hhd].
  apply Forall_app in Hle as [_ Hle].
  assert (by_rank (concat (scr_reqs <$> gs))) as Hs' by (by apply StronglySorted_app_1_r in Hs).
  specialize (IH _ eq_refl Hgrp Hs' Hd). rewrite fmap_cons. constructor; [done|].
  destruct gs as [|g' gs]; [constructor|]. inversion Hhd as [|? ? Hneq]; subst.
  rewrite fmap_cons. assert (scr_rank g < scr_rank g') as Hlt.
  { apply Forall_cons in Hgrp as [[Hr' _ _ Hne'] _]. destruct (scr_reqs g') as [|c' cs'] eqn:Hreqs; [done|].
    rewrite fmap_cons Hreqs /= in Hle. apply Forall_cons in Hle as [Hle _]. apply Forall_cons in Hr' as [Hc' _]. lia. }
  constructor; [done|]. rewrite fmap_cons in IH. apply StronglySorted_inv in IH as [_ IH].
  eapply Forall_impl; [exact IH|]. simpl. lia.
Qed.

Lemma create_remote_reads_spec m chunks :
  mem_plenty m -> Forall (fun c => 0 <= cr_rank c) chunks ->
  exists m' gs, create_remote_read_requests m chunks = LRet (m', UNIFYFS_SUCCESS, gs) /\ mem_plenty m' /\
    grouped chunks gs /\ (by_rank chunks -> StronglySorted Z.lt (scr_rank <$> gs)).
Proof.
  intros Hpl Hr. unfold create_remote_read_requests.
  destruct (calloc_plenty m Hpl) as (m' & -> & Hpl' & _).
  destruct (fill_remote_reads_spec (length chunks) chunks (-1)) as (gs & -> & Hg & _ & Hd);
    [done|intros c Hc; destruct chunks; [done|]; injection Hc as ->; apply Forall_cons in Hr as [? _]; lia|].
  simpl. exists m', gs. split_and!; [done..|]. intros Hs. by apply (grouped_ranks chunks).
Qed.

(** ** Slots *)

Definition num_in_use (rs : list server_read_req) : Z := Z.of_nat (length (filter (fun r => rq_in_use r = true) rs)).

Lemma num_in_use_insert rs i r r' :
  rs !! i = Some r ->
  num_in_use (<[i := r']> rs) = num_in_use rs - (if rq_in_use r then 1 else 0) + (if rq_in_use r' then 1 else 0).
Proof.
  intros Hi. unfold num_in_use. rewrite (insert_take_drop _ _ _ (lookup_lt_Some _ _ _ Hi)).
  assert (filter (fun r => rq_in_use r = true) rs =
    filter (fun r => rq_in_use r = true) (take i rs ++ r :: drop (S i) rs)) as -> by by rewrite take_drop_middle.
  rewrite !filter_app !length_app !filter_cons.
  destruct (rq_in_use r), (rq_in_use r'); repeat case_decide; simpl in *; try done; lia.
Qed.

(** The slots of a request manager: a slot in use knows its own index, the
    others are cleared; those from [next_rdreq_ndx] on are free, except the
    last one, which only the search hands out. *)
Record rm_ok (rm : reqmgr_thrd) : Prop := {
  ro_len : Z.of_nat (length (rm_read_reqs rm)) = UNIFYFS_SERVER_MAX_READS;
  ro_num : rm_num_read_reqs rm = num_in_use (rm_read_reqs rm);
  ro_next : 0 <= rm_next_rdreq_ndx rm <= UNIFYFS_SERVER_MAX_READS - 1;
  ro_ndx i r : rm_read_reqs rm !! i = Some r ->
    if rq_in_use r then rq_req_ndx r = Z.of_nat i else r = zero_read_req;
  ro_above i r : rm_read_reqs rm !! i = Some r ->
    rm_next_rdreq_ndx rm <= Z.of_nat i < UNIFYFS_SERVER_MAX_READS - 1 -> rq_in_use r = false;
}.

Lemma reqmgr_init_ok : rm_ok reqmgr_init.
Proof.
  split.
  - unfold reqmgr_init. cbn [rm_read_reqs]. by rewrite length_replicate.
  - vm_compute. done.
  - simpl. unfold UNIFYFS_SERVER_MAX_READS. lia.
  - intros i r (-> & _)%lookup_replicate. done.
  - intros i r (-> & _)%lookup_replicate. done.
Qed.

Lemma find_unused_spec k rs :
  match find_unused k rs with
  | Some i => exists j r, i = (k + j)%nat /\ rs !! j = Some r /\ rdreq_unused r = true
  | None => Forall (fun r => rdreq_unused r = false) rs
  end.
Proof.
  revert k. induction rs as [|r rs IH]; intros k; simpl; [constructor|].
  destruct (rdreq_unused r) eqn:Hr; [exists 0%nat, r; split_and!; [lia|done|done]|].
  specialize (IH (S k)). destruct (find_unused (S k) rs) as [i|]; [|by constructor].
  destruct IH as (j & r' & -> & Hj & Hu). exists (S j), r'. split_and!; [lia|done|done].
Qed.

(** A slot that passes the test of the reservation is free, and the free slots
    pass it. *)
Lemma rdreq_unused_iff rm i r :
  rm_ok rm -> rm_read_reqs rm !! i = Some r -> rdreq_unused r = negb (rq_in_use r).
Proof.
  intros Hok Hi. pose proof (ro_ndx rm Hok i r Hi) as Hr. unfold rdreq_unused.
  destruct (rq_in_use r); [by rewrite andb_false_r|by rewrite Hr].
Qed.

Lemma num_in_use_all rs : Forall (fun r => rq_in_use r = true) rs -> num_in_use rs = Z.of_nat (length rs).
Proof.
  unfold num_in_use. induction 1 as [|r rs Hr _ IH]; [done|]. rewrite filter_cons_True //=. lia.
Qed.

(** Taking a free slot [i]. *)
Lemma rm_take_ok rm i next r' :
  rm_ok rm -> rm_read_reqs rm !! i = Some zero_read_req ->
  rq_in_use r' = true -> rq_req_ndx r' = Z.of_nat i ->
  rm_next_rdreq_ndx rm <= next <= UNIFYFS_SERVER_MAX_READS - 1 ->
  (Z.of_nat i < next \/ Z.of_nat i = UNIFYFS_SERVER_MAX_READS - 1) ->
  rm_ok (Reqmgr (rm_num_read_reqs rm + 1) next (<[i := r']> (rm_read_reqs rm))).
Proof.
  intros [Hlen Hnum Hnext Hndx Hab] Hi Hu Hn Hnx Hin. split; simpl.
  - by rewrite length_insert.
  - rewrite (num_in_use_insert _ _ _ _ Hi) Hu /= Hnum. lia.
  - lia.
  - intros k r [(<- & <- & _)|[_ Hk]]%list_lookup_insert_Some; [by rewrite Hu|by apply Hndx].
  - intros k r [(<- & <- & _)|[_ Hk]]%list_lookup_insert_Some Hle; [lia|]. apply (Hab k); [done|lia].
Qed.

Lemma rm_reserve_spec rm :
  rm_ok rm ->
  (num_in_use (rm_read_reqs rm) = UNIFYFS_SERVER_MAX_READS /\ rm_reserve_read_req rm = LRet (rm, None)) \/
  (exists rm' i, num_in_use (rm_read_reqs rm) < UNIFYFS_SERVER_MAX_READS /\
    rm_reserve_read_req rm = LRet (rm', Some i) /\ rm_ok rm' /\
    rm_read_reqs rm !! i = Some zero_read_req /\
    rm_read_reqs rm' = <[i := rdreq_reserve (Z.of_nat i) zero_read_req]> (rm_read_reqs rm)).
Proof.
  intros Hok. pose proof Hok as [Hlen Hnum Hnext Hndx Hab].
  assert (num_in_use (rm_read_reqs rm) <= UNIFYFS_SERVER_MAX_READS) as Hle.
  { rewrite -Hlen. unfold num_in_use.
    pose proof (length_filter (fun r => rq_in_use r = true) (rm_read_reqs rm)). lia. }
  unfold rm_reserve_read_req. rewrite Hnum.
  destruct (_ <? UNIFYFS_SERVER_MAX_READS) eqn:Hlt; zbool; [right|left; split; [lia|done]].
  destruct (rm_next_rdreq_ndx rm <? _) eqn:Hn; zbool.
  - set (i := Z.to_nat (rm_next_rdreq_ndx rm)).
    destruct (lookup_lt_is_Some_2 (rm_read_reqs rm) i) as [r Hi]; [unfold i; lia|]. rewrite Hi /=.
    pose proof (ro_ndx rm Hok i r Hi) as Hr. rewrite (ro_above rm Hok i r Hi) in Hr; [unfold i; lia|]. subst r.
    simpl. eexists _, i. split; [done|]. split; [done|].
    rewrite (list_alter_insert _ _ _ _ Hi). replace (rm_next_rdreq_ndx rm) with (Z.of_nat i) by (unfold i; lia).
    split; [|done]. rewrite -Hnum. by apply rm_take_ok; try done; unfold i; lia.
  - pose proof (find_unused_spec 0 (rm_read_reqs rm)) as Hf.
    destruct (find_unused 0 (rm_read_reqs rm)) as [i|] eqn:He.
    + destruct Hf as (j & r & -> & Hj & Hu). simpl in *.
      rewrite (rdreq_unused_iff rm j r Hok Hj) in Hu. pose proof (ro_ndx rm Hok j r Hj) as Hr.
      destruct (rq_in_use r); [done|]. subst r. eexists _, j. split; [done|]. split; [done|].
      rewrite (list_alter_insert _ _ _ _ Hj). split; [|done].
      pose proof (lookup_lt_Some _ _ _ Hj). rewrite -Hnum. by apply rm_take_ok; try done; lia.
    + exfalso. assert (Forall (fun r => rq_in_use r = true) (rm_read_reqs rm)) as Hall.
      { apply Forall_lookup. intros k r Hk. pose proof (proj1 (Forall_lookup _ _) Hf k r Hk) as Hk'.
        simpl in Hk'. rewrite (rdreq_unused_iff rm k r Hok Hk) in Hk'. by destruct (rq_in_use r). }
      rewrite (num_in_use_all _ Hall) in Hlt. lia.
Qed.

Lemma num_in_use_zero rs i r : num_in_use rs = 0 -> rs !! i = Some r -> rq_in_use r = false.
Proof.
  intros H0 Hi. destruct (rq_in_use r) eqn:Hr; [|done].
  pose proof (num_in_use_insert rs i r zero_read_req Hi) as Hins. rewrite Hr H0 /= in Hins.
  unfold num_in_use in Hins at 1. lia.
Qed.

Lemma release_read_req_spec rm i r :
  rm_ok rm -> rm_read_reqs rm !! i = Some r -> rq_in_use r = true ->
  exists rm', release_read_req rm i = LRet rm' /\ rm_ok rm' /\
    rm_read_reqs rm' = <[i := zero_read_req]> (rm_read_reqs rm).
Proof.
  intros Hok Hi Hu. pose proof Hok as [Hlen Hnum Hnext Hndx Hab].
  unfold release_read_req. rewrite Hi /=. eexists. split; [done|]. split; [|done].
  pose proof (Hndx i r Hi) as Hr. rewrite Hu in Hr.
  pose proof (num_in_use_insert _ _ _ zero_read_req Hi) as Hins. rewrite Hu /= in Hins.
  assert (forall k q, <[i := zero_read_req]> (rm_read_reqs rm) !! k = Some q ->
    if rq_in_use q then rq_req_ndx q = Z.of_nat k else q = zero_read_req) as Hndx'.
  { intros k q [(<- & <- & _)|[_ Hk]]%list_lookup_insert_Some; [done|by apply Hndx]. }
  split; cbn [rm_read_reqs rm_num_read_reqs rm_next_rdreq_ndx]; [by rewrite length_insert|lia| |done|].
  - repeat zcase; unfold UNIFYFS_SERVER_MAX_READS in *; lia.
  - intros k q Hk Hle. destruct (rm_num_read_reqs rm - 1 =? 0) eqn:H0; zbool.
    + refine (num_in_use_zero _ k q _ Hk). lia.
    + apply list_lookup_insert_Some in Hk as [(<- & <- & _)|[Hne Hk]]; [done|].
      apply (Hab k q Hk). destruct (rq_req_ndx r =? _) eqn:He; zbool; lia.
Qed.

(** Replacing what a slot holds, by something that is still in use. *)
Lemma rm_set_slot_ok rm i r r' :
  rm_ok rm -> rm_read_reqs rm !! i = Some r -> rq_in_use r = true ->
  rq_in_use r' = true -> rq_req_ndx r' = rq_req_ndx r -> rm_ok (rm_set_slot i r' rm).
Proof.
  intros [Hlen Hnum Hnext Hndx Hab] Hi Hu Hu' Hn. pose proof (Hndx i r Hi) as Hr. rewrite Hu in Hr.
  split; cbn [rm_set_slot rm_read_reqs rm_num_read_reqs rm_next_rdreq_ndx]; [by rewrite length_insert| |done| |].
  - rewrite (num_in_use_insert _ _ _ _ Hi) Hu Hu'. lia.
  - intros k q [(<- & <- & _)|[_ Hk]]%list_lookup_insert_Some; [rewrite Hu'; lia|by apply Hndx].
  - intros k q [(<- & <- & _)|[_ Hk]]%list_lookup_insert_Some Hle; [|by apply (Hab k)].
    by rewrite (Hab i r Hi Hle) in Hu.
Qed.

(** ** Data of a response *)

(** The log that holds the data of a chunk, and the data. *)
Definition chunk_log (apps : app_table) (c : chunk_read_req) : option logio_context :=
  client_log apps (cr_log_app_id c) (cr_log_client_id c).

Definition chunk_data (apps : app_table) (c : chunk_read_req) : list Z :=
  match chunk_log apps c with
  | Some ctx => region_read (log_view ctx) (cr_log_offset c) (cr_nbytes c)
  | None => []
  end.

(** The chunk is in the log of a client of the server. *)
Definition chunk_ok (apps : app_table) (c : chunk_read_req) : Prop :=
  exists ctx, chunk_log apps c = Some ctx /\ log_range_ok ctx (cr_log_offset c) (cr_nbytes c).

(** The spill-over file returns all the bytes that are asked for. *)
Definition pread_full (apps : app_table) (pread : chunk_read_req -> io_result) : Prop :=
  forall c ctx, chunk_log apps c = Some ctx ->
    pread c = inl (cr_nbytes c - log_in_mem (cr_log_offset c) (cr_nbytes c) (logio_mem_size ctx)).

Lemma chunk_ok_pos apps c : chunk_ok apps c -> 0 < cr_nbytes c.
Proof. intros (ctx & _ & [_ ? _ _ _]). done. Qed.

Lemma chunk_data_length apps c : chunk_ok apps c -> Z.of_nat (length (chunk_data apps c)) = cr_nbytes c.
Proof.
  intros (ctx & Hl & [_ ? _ _ _]). unfold chunk_data. rewrite Hl region_read_length. lia.
Qed.

Lemma read_chunk_spec apps pread c :
  chunk_ok apps c -> pread_full apps pread -> read_chunk apps c (pread c) = LRet (cr_nbytes c, chunk_data apps c).
Proof.
  intros (ctx & Hl & Hr) Hp. pose proof Hr as [_ Hn _ _ _].
  rewrite (Hp c ctx Hl). unfold read_chunk, chunk_data. rewrite Hl.
  unfold chunk_log, client_log in Hl. destruct (get_app_client apps _ _) as [cl|]; [|done]. simpl in Hl. rewrite Hl.
  pose proof (log_in_mem_bounds (cr_log_offset c) (cr_nbytes c) (logio_mem_size ctx) Hn) as Hb.
  rewrite (logio_read_spec ctx _ _ _ Hr); [lia|lia|]. simpl. do 2 f_equal; [lia|f_equal; lia].
Qed.

Definition full_resp (c : chunk_read_req) : chunk_read_resp :=
  ChunkResp (cr_gfid c) (cr_offset c) (cr_nbytes c) (cr_nbytes c).

(** The data of the chunks, one after the other. *)
Definition chunks_data (apps : app_table) (cs : list chunk_read_req) : list Z := flat_map (chunk_data apps) cs.

Lemma chunks_data_length apps cs :
  Forall (chunk_ok apps) cs -> Z.of_nat (length (chunks_data apps cs)) = chunks_size cs.
Proof.
  induction 1 as [|c cs Hc _ IH]; [done|]. simpl. unfold chunks_data in *. simpl.
  rewrite length_app Nat2Z.inj_add IH chunk_data_length //.
Qed.

Lemma chunks_size_pos apps cs : Forall (chunk_ok apps) cs -> 0 <= chunks_size cs.
Proof. intros H. rewrite -(chunks_data_length apps cs H). lia. Qed.

Lemma region_write_below r off bs i : i < off -> region_write r off bs i = r i.
Proof. intros Hi. unfold region_write. destruct (_ && _) eqn:Hb; [zbool; lia|done]. Qed.

Lemma chunk_reads_loop_spec apps pread reqs total buf cur :
  Forall (chunk_ok apps) reqs -> pread_full apps pread ->
  0 <= cur -> cur + chunks_size reqs <= total <= ULONG_MAX ->
  exists buf', chunk_reads_loop apps pread reqs total buf cur = LRet (full_resp <$> reqs, buf') /\
    (forall i, i < cur -> buf' i = buf i) /\
    region_read buf' cur (chunks_size reqs) = chunks_data apps reqs.
Proof.
  intros Hreqs Hp. revert buf cur. induction Hreqs as [|c reqs Hc Hreqs IH]; intros buf cur Hcur Hle; simpl.
  { exists buf. by rewrite /region_read. }
  simpl in Hle. pose proof (chunk_ok_pos _ _ Hc). pose proof (chunks_size_pos _ _ Hreqs).
  rewrite (read_chunk_spec apps pread c Hc Hp) /=.
  rewrite (chunk_data_length _ _ Hc). destruct (_ >? total) eqn:Ht; zbool; [lia|].
  rewrite u64_small; [unfold is_u64; lia|].
  destruct (IH (region_write buf cur (chunk_data apps c)) (cur + cr_nbytes c)) as (buf' & -> & Hlow & Hrd); [lia|lia|].
  simpl. exists buf'. split; [done|]. split.
  - intros i Hi. rewrite Hlow; [lia|]. by apply region_write_below.
  - rewrite region_read_app; [lia|lia|]. rewrite Hrd. unfold chunks_data. simpl. f_equal.
    rewrite -(region_read_write buf cur (chunk_data apps c)) (chunk_data_length _ _ Hc).
    apply region_read_ext. intros i Hi. apply Hlow. lia.
Qed.

(** ** Data for the client *)

(** The calls that are made on a client, in order. *)
Inductive client_call :=
  | MreadData (mread_id read_ndx off : Z) (bytes : list Z)
  | MreadComplete (mread_id read_ndx errcode : Z).

(** A client that records its calls and lets them succeed. *)
#[export] Instance record_calls : ClientRpc (list client_call) := {
  mread_req_data t m n off bs := (t ++ [MreadData m n off bs], UNIFYFS_SUCCESS);
  mread_req_complete t m n rc := (t ++ [MreadComplete m n rc], UNIFYFS_SUCCESS);
}.

Definition opt_write (b : Z -> option Z) (off : Z) (bs : list Z) : Z -> option Z :=
  fun a => if (off <=? a) && (a <? off + Z.of_nat (length bs)) then bs !! Z.to_nat (a - off) else b a.

(** The data that has been passed to request [(m, n)], by position. *)
Fixpoint calls_buf (m n : Z) (b : Z -> option Z) (t : list client_call) : Z -> option Z :=
  match t with
  | [] => b
  | MreadData m' n' off bs :: t => calls_buf m n (if (m' =? m) && (n' =? n) then opt_write b off bs else b) t
  | MreadComplete _ _ _ :: t => calls_buf m n b t
  end.

(** The codes that it has been completed with. *)
Fixpoint calls_done (m n : Z) (t : list client_call) : list Z :=
  match t with
  | [] => []
  | MreadData _ _ _ _ :: t => calls_done m n t
  | MreadComplete m' n' rc :: t => (if (m' =? m) && (n' =? n) then [rc] else []) ++ calls_done m n t
  end.

Lemma calls_buf_app m n b t u : calls_buf m n b (t ++ u) = calls_buf m n (calls_buf m n b t) u.
Proof. revert b. induction t as [|[] t IH]; intros b; simpl; done. Qed.

Lemma calls_done_app m n t u : calls_done m n (t ++ u) = calls_done m n t ++ calls_done m n u.
Proof. induction t as [|[] t IH]; simpl; [done|done|]. by rewrite IH app_assoc. Qed.

Lemma opt_write_app b off bs1 bs2 a :
  opt_write b off (bs1 ++ bs2) a = opt_write (opt_write b off bs1) (off + Z.of_nat (length bs1)) bs2 a.
Proof.
  unfold opt_write. rewrite length_app Nat2Z.inj_add.
  repeat match goal with |- context [?x <=? ?y] => destruct (Z.leb_spec x y)
    | |- context [?x <? ?y] => destruct (Z.ltb_spec x y) end; simpl; try lia; try done.
  - rewrite lookup_app_r; [lia|]. f_equal. lia.
  - rewrite lookup_app_l; [lia|done].
Qed.

(** A call that passes data for positions [lo..hi-1] of request [(m, n)]. *)
Definition data_call (m n lo hi : Z) (c : client_call) : Prop :=
  exists o x, c = MreadData m n o x /\ x <> [] /\ lo <= o /\ o + Z.of_nat (length x) <= hi.

Lemma data_call_mono m n lo hi lo' hi' c : lo' <= lo -> hi <= hi' -> data_call m n lo hi c -> data_call m n lo' hi' c.
Proof. intros H1 H2 (o & x & -> & Hx & ? & ?). exists o, x. split_and!; [done|done|lia|lia]. Qed.

(** [u] passes [bs] to request [(m, n)] at [off], and nothing else. *)
Record passes (m n off : Z) (bs : list Z) (u : list client_call) : Prop := {
  pa_data : Forall (data_call m n off (off + Z.of_nat (length bs))) u;
  pa_buf b a : calls_buf m n b u a = opt_write b off bs a;
}.

Lemma opt_write_nil b off a : opt_write b off [] a = b a.
Proof. unfold opt_write. destruct (_ && _) eqn:Hb; [|done]. simpl in Hb. zbool. lia. Qed.

Lemma opt_write_ext b b' off bs a : b a = b' a -> opt_write b off bs a = opt_write b' off bs a.
Proof. unfold opt_write. intros ->. done. Qed.

Lemma passes_nil m n off : passes m n off [] [].
Proof. split; [constructor|]. intros b a. by rewrite opt_write_nil. Qed.

Lemma passes_cons m n off bs1 bs2 u :
  bs1 <> [] -> passes m n (off + Z.of_nat (length bs1)) bs2 u -> passes m n off (bs1 ++ bs2) (MreadData m n off bs1 :: u).
Proof.
  intros Hne [Hd Hb]. split.
  - rewrite length_app. constructor; [exists off, bs1; split_and!; [done|done|lia|lia]|].
    eapply Forall_impl; [exact Hd|]. intros c. apply data_call_mono; lia.
  - intros b a. simpl. rewrite !Z.eqb_refl /= Hb opt_write_app. done.
Qed.

Lemma send_pieces_spec fuel t rdreq buf left sz pos off :
  0 < sz -> 0 <= pos -> 0 <= off -> 0 <= left -> (Z.to_nat left <= fuel)%nat ->
  pos + left <= rp_data_sz buf -> off + left <= ULONG_MAX ->
  exists u, send_pieces fuel t rdreq buf left sz pos off UNIFYFS_SUCCESS = LRet (t ++ u, UNIFYFS_SUCCESS) /\
    passes (rq_client_mread rdreq) (rq_client_read_ndx rdreq) off (region_read (rp_data buf) pos left) u.
Proof.
  revert t left sz pos off. induction fuel as [|fuel IH]; intros t left sz pos off Hsz Hpos Hoff Hl Hf Hd Ho.
  { replace left with 0 by lia. exists []. simpl. rewrite app_nil_r. split; [done|]. apply passes_nil. }
  cbn [send_pieces]. destruct (left >? 0) eqn:H0; zbool.
  2:{ replace left with 0 by lia. exists []. rewrite app_nil_r. split; [done|]. apply passes_nil. }
  set (k := if left <? sz then left else sz).
  assert (0 < k <= left) as Hk by (unfold k; zcase; lia).
  destruct (_ >? rp_data_sz buf) eqn:Hb; zbool; [lia|]. cbn [mread_req_data record_calls].
  rewrite Z.eqb_refl. cbn [negb]. rewrite (u64_small (off + k)); [unfold is_u64; lia|].
  destruct (IH (t ++ [MreadData (rq_client_mread rdreq) (rq_client_read_ndx rdreq) off (region_read (rp_data buf) pos k)])
    (left - k) k (pos + k) (off + k)) as (u & -> & Hu); [lia..|].
  eexists (_ :: u). rewrite -app_assoc. split; [done|].
  replace left with (k + (left - k)) by lia. rewrite region_read_app; [lia|lia|].
  apply passes_cons; [intros Hnil; apply (f_equal length) in Hnil; rewrite region_read_length /= in Hnil; lia|].
  rewrite region_read_length Z2Nat.id; [lia|]. by replace (k + (left - k) - k) with (left - k) in Hu by lia.
Qed.

(** The positions of a chunk in the buffer of a request that starts at file
    offset [base]. *)
Definition in_chunk (base : Z) (c : chunk_read_req) (a : Z) : Prop :=
  cr_offset c - base <= a < cr_offset c - base + cr_nbytes c.

Definition chunk_disj (c1 c2 : chunk_read_req) : Prop :=
  cr_offset c1 + cr_nbytes c1 <= cr_offset c2 \/ cr_offset c2 + cr_nbytes c2 <= cr_offset c1.

Definition chunk_byte (apps : app_table) (base : Z) (c : chunk_read_req) (a : Z) : option Z :=
  chunk_data apps c !! Z.to_nat (a - (cr_offset c - base)).

(** [u] passes the data of the chunks [cs] to request [(m, n)], and nothing
    else. *)
Record serves (apps : app_table) (m n base : Z) (cs : list chunk_read_req) (u : list client_call) : Prop := {
  se_data : Forall (fun k => exists c, c ∈ cs /\ data_call m n (cr_offset c - base) (cr_offset c - base + cr_nbytes c) k) u;
  se_in b c a : c ∈ cs -> in_chunk base c a -> calls_buf m n b u a = chunk_byte apps base c a;
  se_out b a : (forall c, c ∈ cs -> ~ in_chunk base c a) -> calls_buf m n b u a = b a;
}.

Lemma passes_app_serves apps m n base c cs u1 u2 :
  Z.of_nat (length (chunk_data apps c)) = cr_nbytes c ->
  passes m n (cr_offset c - base) (chunk_data apps c) u1 -> serves apps m n base cs u2 ->
  Forall (chunk_disj c) cs -> serves apps m n base (c :: cs) (u1 ++ u2).
Proof.
  intros Hlen [Hd1 Hb1] [Hd2 Hin Hout] Hdis. rewrite Forall_forall in Hdis. split.
  - apply Forall_app. rewrite Hlen in Hd1.
    split; [eapply Forall_impl; [exact Hd1|]; intros k Hk; exists c; split; [by left|done]|].
    eapply Forall_impl; [exact Hd2|]. intros k (c' & Hc' & Hk). exists c'. split; [by right|done].
  - intros b c' a Hc' Ha. rewrite calls_buf_app. apply elem_of_cons in Hc' as [->|Hc'].
    + rewrite Hout.
      { intros c2 Hc2 Ha2. specialize (Hdis c2 Hc2). unfold chunk_disj, in_chunk in *. lia. }
      rewrite Hb1. unfold opt_write, chunk_byte, in_chunk in *. rewrite Hlen.
      rewrite (proj2 (Z.leb_le _ _)); [lia|]. rewrite (proj2 (Z.ltb_lt _ _)); [lia|done].
    + by apply Hin.
  - intros b a Ha. rewrite calls_buf_app Hout; [intros c' Hc'; apply Ha; by right|].
    rewrite Hb1. unfold opt_write. destruct (_ && _) eqn:Hb; [|done]. zbool. exfalso.
    apply (Ha c); [by left|]. unfold in_chunk. lia.
Qed.

(** The chunks of a response to a request for extent [ext]. *)
Record in_extent (ext : unifyfs_extent_t) (c : chunk_read_req) : Prop := {
  ie_start : 0 <= ue_offset ext <= cr_offset c;
  ie_end : cr_offset c + cr_nbytes c <= ULONG_MAX;
  ie_length : cr_offset c + cr_nbytes c <= ue_offset ext + ue_length ext;
}.

Lemma send_responses_spec apps t rdreq buf cs pos :
  let m := rq_client_mread rdreq in let n := rq_client_read_ndx rdreq in
  Forall (chunk_ok apps) cs -> Forall (in_extent (rq_extent rdreq)) cs -> ForallOrdPairs chunk_disj cs ->
  0 <= pos -> pos + chunks_size cs <= rp_data_sz buf ->
  region_read (rp_data buf) pos (chunks_size cs) = chunks_data apps cs ->
  exists u, send_responses t rdreq buf (full_resp <$> cs) pos UNIFYFS_SUCCESS = LRet (t ++ u, UNIFYFS_SUCCESS) /\
    serves apps m n (ue_offset (rq_extent rdreq)) cs u.
Proof.
  intros m n Hok Hext Hdis. revert t pos.
  induction cs as [|c cs IH]; intros t pos Hpos Hsz Hrd.
  { exists []. simpl. rewrite app_nil_r. split; [done|]. split; [constructor|by intros ? ? ? ?%elem_of_nil|done]. }
  apply Forall_cons in Hok as [Hc Hok], Hext as [[He1 He2 _] Hext]. inversion Hdis as [|? ? Hd Hdis']; subst.
  pose proof (chunk_ok_pos _ _ Hc) as Hnz. pose proof (chunks_size_pos _ _ Hok) as Hcs. simpl in Hsz.
  pose proof (chunk_data_length _ _ Hc) as Hlen.
  simpl in Hrd. rewrite region_read_app in Hrd; [lia|lia|]. unfold chunks_data in Hrd. simpl in Hrd.
  apply app_inj_1 in Hrd as [Hrd1 Hrd2]; [|rewrite region_read_length; lia].
  rewrite fmap_cons. cbn [send_responses]. unfold send_data_to_client. cbn [full_resp rs_read_rc rs_offset].
  destruct (cr_nbytes c <? 0) eqn:Hneg; zbool; [lia|]. destruct (cr_offset c <? _) eqn:Hlo; zbool; [lia|].
  rewrite u64_small; [unfold is_u64; lia|].
  destruct (send_pieces_spec (Z.to_nat (cr_nbytes c)) t rdreq buf (cr_nbytes c) UNIFYFS_SERVER_MAX_DATA_TX_SIZE pos
    (cr_offset c - ue_offset (rq_extent rdreq))) as (u1 & -> & Hu1); [done|lia..|].
  cbn [lbind]. rewrite Z.eqb_refl. cbn [negb].
  destruct (IH Hok Hext Hdis' (t ++ u1) (pos + cr_nbytes c)) as (u2 & -> & Hu2); [lia|lia|done|].
  exists (u1 ++ u2). rewrite app_assoc. split; [done|].
  apply passes_app_serves; [done| |done|done]. by rewrite -Hrd1.
Qed.

(** The chunks of a read are grouped by the server that holds them: the
    groups are not empty and hold all the chunks in their order, each group
    has its number of chunks and its number of bytes, and all its chunks are
    at its server; when the chunks are ordered by server, each server is asked
    once. *)
Theorem create_remote_reads_correct m chunks :
  mem_plenty m -> Forall (fun c => 0 <= cr_rank c) chunks ->
  exists m' gs, create_remote_read_requests m chunks = LRet (m', UNIFYFS_SUCCESS, gs) /\
    concat (scr_reqs <$> gs) = chunks /\
    Forall (fun g => scr_reqs g <> [] /\ scr_num_chunks g = Z.of_nat (length (scr_reqs g)) /\
      scr_total_sz g = u64 (chunks_size (scr_reqs g)) /\ Forall (fun c => cr_rank c = scr_rank g) (scr_reqs g)) gs /\
    (by_rank chunks -> NoDup (scr_rank <$> gs)).
Proof.
  intros Hpl Hr. destruct (create_remote_reads_spec m chunks Hpl Hr) as (m' & gs & Heq & _ & [Hall Hgrp _] & Hs).
  exists m', gs. split_and!; [done|done| |].
  - eapply Forall_impl; [exact Hgrp|]. by intros g [].
  - intros Hsort%Hs. clear -Hsort. induction Hsort as [|x l _ IH Hx]; constructor; [|done].
    intros Hin. rewrite Forall_forall in Hx. specialize (Hx x Hin). lia.
Qed.

Lemma create_remote_reads_correct_witness :
  exists gs, create_remote_read_requests (Mem 0 []) [ChunkReq 5 8 100 0 7 1 0; ChunkReq 5 4 108 8 7 1 2; ChunkReq 5 6 112 156 7 1 2] =
      LRet (Mem 1 [], UNIFYFS_SUCCESS, gs) /\ NoDup (scr_rank <$> gs).
Proof.
  destruct (create_remote_reads_correct (Mem 0 [])
    [ChunkReq 5 8 100 0 7 1 0; ChunkReq 5 4 108 8 7 1 2; ChunkReq 5 6 112 156 7 1 2]) as (m' & gs & H & _ & _ & Hn).
  - apply (mem_plenty_nil 0).
  - repeat constructor; done.
  - exists gs. vm_compute in H. injection H as <- <-. split; [by vm_compute|]. apply Hn. repeat constructor; simpl; lia.
Defined.
