(* ===== verification/ReadSystem.v ===== *)
(** * Reads that are served by several servers

    The request manager of a client, the servers that hold the data and the
    messages between them as one transition system: requests are submitted, the
    threads of the request manager send them out and process the responses, and
    the servers answer, in any order.  Messages are not lost, allocations
    succeed and the spill-over files return what they are asked for; the logs
    do not change while they are read. *)

From S2P Require Import Prelude.
From S2P Require Import Extents.
From S2P Require Import ExtentTree.
From S2P Require Import LogIO.
From S2P Require Import AppTable.
From S2P Require Import Inode.
From S2P Require Import InodeProps.
From S2P Require Import ServerRead.
From S2P Require Import ServerReadProps.

(** ** The system *)

(** A request that has been submitted, with the chunks that hold its data. *)
Record rd_sub := RdSub {
  sb_mread : Z;
  sb_ndx : Z;
  sb_ext : unifyfs_extent_t;
  sb_chunks : list chunk_read_req;
}.

Definition sub_key (b : rd_sub) : Z * Z := (sb_mread b, sb_ndx b).
Definition sub_base (b : rd_sub) : Z := ue_offset (sb_ext b).

Record rd_sys := RdSys {
  ds_calls : list client_call;                     (* the calls on the client *)
  ds_rm : reqmgr_thrd;
  ds_sent : list chunk_read_request_in;            (* requests that have not been served *)
  ds_replies : list (Z * server_chunk_reads);      (* responses that have not been posted *)
  ds_subs : list rd_sub;                           (* everything that was submitted *)
}.

Definition rd_init : rd_sys := RdSys [] reqmgr_init [] [] [].

(** Every message arrives. *)
Definition net_ok : network := fun _ => (true, UNIFYFS_SUCCESS).

Section System.
(** The server, the client that reads, and the clients of every server. *)
Context (my_rank app_id client_id : Z) (apps : Z -> app_table).

(** What the lookup of the chunks guarantees. *)
Record sub_ok (b : rd_sub) : Prop := {
  so_some : sb_chunks b <> [];
  so_rank : Forall (fun c => 0 <= cr_rank c) (sb_chunks b);
  so_sorted : by_rank (sb_chunks b);
  so_chunk : Forall (fun c => chunk_ok (apps (cr_rank c)) c) (sb_chunks b);
  so_ext : Forall (in_extent (sb_ext b)) (sb_chunks b);
  so_disj : ForallOrdPairs chunk_disj (sb_chunks b);
  so_size : sizeof_chunk_read_resp * Z.of_nat (length (sb_chunks b)) + chunks_size (sb_chunks b) <= ULONG_MAX;
}.

Inductive rd_step : rd_sys -> rd_sys -> Prop :=
  | rd_submit s b m m' gs rm' i :
      sub_ok b -> sub_key b ∉ sub_key <$> ds_subs s -> mem_plenty m ->
      create_remote_read_requests m (sb_chunks b) = LRet (m', UNIFYFS_SUCCESS, gs) ->
      rm_submit_read_request (apps my_rank) (ds_rm s) app_id client_id (sb_mread b) (sb_ndx b) gs (sb_ext b) =
        LRet (rm', Some i, UNIFYFS_SUCCESS) ->
      rd_step s (RdSys (ds_calls s) rm' (ds_sent s) (ds_replies s) (b :: ds_subs s))
  | rd_request s m pread st rc :
      mem_plenty m -> pread_full (apps my_rank) pread ->
      rm_request_remote_chunks (apps my_rank) my_rank pread net_ok (RmState m (ds_rm s) [] (ds_sent s)) = LRet (st, rc) ->
      rd_step s (RdSys (ds_calls s) (st_rm st) (st_sent st) (ds_replies s ++ (pair my_rank <$> st_chunk_reads st)) (ds_subs s))
  | rd_serve s l1 msg l2 m pread rm m' rm' scrs rc :
      ds_sent s = l1 ++ msg :: l2 -> mem_plenty m -> pread_full (apps (ci_dst msg)) pread ->
      sm_issue_chunk_reads m (apps (ci_dst msg)) (ci_dst msg) pread rm [] (ci_src_rank msg) (ci_app_id msg)
        (ci_client_id msg) (ci_req_id msg) (ci_total_data_size msg) (ci_reqs msg) = LRet (m', rm', scrs, rc) ->
      rd_step s (RdSys (ds_calls s) (ds_rm s) (l1 ++ l2) (ds_replies s ++ (pair (ci_dst msg) <$> scrs)) (ds_subs s))
  | rd_respond s l1 src scr l2 buf rm' rc :
      ds_replies s = l1 ++ (src, scr) :: l2 -> scr_resp scr = Some buf ->
      rm_post_chunk_read_responses (apps my_rank) (ds_rm s) (scr_app_id scr) (scr_client_id scr) src
        (scr_rdreq_id scr) (scr_num_chunks scr) (scr_total_sz scr) buf = LRet (rm', rc) ->
      rd_step s (RdSys (ds_calls s) rm' (ds_sent s) (l1 ++ l2) (ds_subs s))
  | rd_process s calls rm' rc :
      rm_process_remote_chunk_responses (ds_calls s) (ds_rm s) = LRet (calls, rm', rc) ->
      rd_step s (RdSys calls rm' (ds_sent s) (ds_replies s) (ds_subs s)).

Definition rd_reach (s : rd_sys) : Prop := rtc rd_step rd_init s.

(** ** Delivery *)

Implicit Types (t u : list client_call) (b : rd_sub) (r : server_read_req) (e : server_chunk_reads).

Definition sub_buf t b : Z -> option Z := calls_buf (sb_mread b) (sb_ndx b) (fun _ => None) t.
Definition sub_done t b : list Z := calls_done (sb_mread b) (sb_ndx b) t.

(** Every byte of the chunk is in the buffer of the request. *)
Definition delivered t b (c : chunk_read_req) : Prop :=
  forall a, in_chunk (sub_base b) c a -> sub_buf t b a = chunk_byte (apps (cr_rank c)) (sub_base b) c a.

(** The calls [u] are for other requests. *)
Definition calls_other b u : Prop :=
  (forall f, calls_buf (sb_mread b) (sb_ndx b) f u = f) /\ calls_done (sb_mread b) (sb_ndx b) u = [].

Lemma calls_other_buf t u b : calls_other b u -> sub_buf (t ++ u) b = sub_buf t b.
Proof. intros [H _]. unfold sub_buf. by rewrite calls_buf_app H. Qed.

Lemma calls_other_done t u b : calls_other b u -> sub_done (t ++ u) b = sub_done t b.
Proof. intros [_ H]. unfold sub_done. by rewrite calls_done_app H app_nil_r. Qed.

Lemma delivered_other t u b c : calls_other b u -> delivered t b c -> delivered (t ++ u) b c.
Proof. intros Ho Hd a Ha. rewrite calls_other_buf //. by apply Hd. Qed.

(** ** The state of one request *)

Definition resp_good (rank : Z) (cs : list chunk_read_req) (buf : resp_buf) : Prop :=
  rp_resps buf = full_resp <$> cs /\ rp_data_sz buf = chunks_size cs /\
  region_read (rp_data buf) 0 (chunks_size cs) = chunks_data (apps rank) cs.

Definition bulk_size (cs : list chunk_read_req) : Z :=
  sizeof_chunk_read_resp * Z.of_nat (length cs) ⊞ chunks_size cs.

(** The part of a request for one server; [F] tells whether a message for it
    is on its way. *)
Definition entry_dyn (F : Z -> Prop) t b e : Prop :=
  match scr_status e, scr_resp e with
  | READREQ_NULL, None =>
      ~ F (scr_rank e) /\ scr_num_chunks e = Z.of_nat (length (scr_reqs e)) /\ scr_total_sz e = chunks_size (scr_reqs e)
  | READREQ_STARTED, None => F (scr_rank e)
  | READREQ_STARTED, Some buf =>
      ~ F (scr_rank e) /\ resp_good (scr_rank e) (scr_reqs e) buf /\
      scr_num_chunks e = Z.of_nat (length (scr_reqs e)) /\ scr_total_sz e = bulk_size (scr_reqs e)
  | READREQ_COMPLETE, None => ~ F (scr_rank e) /\ Forall (delivered t b) (scr_reqs e)
  | _, _ => False
  end.

Definition slot_dyn (F : Z -> Prop) t b r : Prop :=
  Forall (entry_dyn F t b) (rq_remote_reads r) /\
  match rq_status r with
  | READREQ_NULL => False
  | READREQ_READY => Forall (fun e => scr_status e = READREQ_NULL) (rq_remote_reads r) /\ sub_done t b = []
  | READREQ_STARTED => all_complete (rq_remote_reads r) = false /\ sub_done t b = []
  | READREQ_COMPLETE => all_complete (rq_remote_reads r) = true /\ sub_done t b = [UNIFYFS_SUCCESS]
  end.

(** What a slot holds that does not change until it is released. *)
Definition entry_part e : Z * list chunk_read_req := (scr_rank e, scr_reqs e).

Definition view : Type := Z * Z * Z * Z * unifyfs_extent_t * list (Z * list chunk_read_req).

Definition slot_view r : option view :=
  if rq_in_use r then
    Some (rq_app_id r, rq_client_id r, rq_client_mread r, rq_client_read_ndx r, rq_extent r,
          entry_part <$> rq_remote_reads r)
  else None.

(** The parts of a request, by server. *)
Record parts_ok b (ps : list (Z * list chunk_read_req)) : Prop := {
  po_all : concat (snd <$> ps) = sb_chunks b;
  po_rank : Forall (fun p => Forall (fun c => cr_rank c = p.1) p.2 /\ p.2 <> []) ps;
  po_nodup : NoDup (fst <$> ps);
}.

Definition sub_view b (ps : list (Z * list chunk_read_req)) : view :=
  (app_id, client_id, sb_mread b, sb_ndx b, sb_ext b, ps).

(** ** The invariant *)

(** The messages on their way, by slot and server. *)
Definition flight (sent : list chunk_read_request_in) (replies : list (Z * server_chunk_reads)) : list (Z * Z) :=
  ((fun m => (ci_req_id m, ci_dst m)) <$> sent) ++ ((fun p => (scr_rdreq_id p.2, p.1)) <$> replies).

Record msg_ok (vs : list (option view)) (msg : chunk_read_request_in) (i : nat) b ps : Prop := {
  mo_slot : vs !! i = Some (Some (sub_view b ps));
  mo_part : (ci_dst msg, ci_reqs msg) ∈ ps;
  mo_req : ci_req_id msg = Z.of_nat i;
  mo_src : ci_src_rank msg = my_rank;
  mo_dst : ci_dst msg <> my_rank;
  mo_client : ci_app_id msg = app_id /\ ci_client_id msg = client_id;
  mo_total : ci_total_data_size msg = chunks_size (ci_reqs msg);
}.

Record reply_ok (vs : list (option view)) (src : Z) (scr : server_chunk_reads) (i : nat) b ps cs : Prop := {
  ry_slot : vs !! i = Some (Some (sub_view b ps));
  ry_part : (src, cs) ∈ ps;
  ry_req : scr_rdreq_id scr = Z.of_nat i;
  ry_client : scr_app_id scr = app_id /\ scr_client_id scr = client_id;
  ry_num : scr_num_chunks scr = Z.of_nat (length cs);
  ry_total : scr_total_sz scr = bulk_size cs;
  ry_resp : exists buf, scr_resp scr = Some buf /\ resp_good src cs buf;
}.

Record static_inv (vs : list (option view)) (subs : list rd_sub) sent replies : Prop := {
  vi_sub i v : vs !! i = Some (Some v) -> exists b ps, b ∈ subs /\ v = sub_view b ps /\ parts_ok b ps;
  vi_inj i j b ps qs :
    vs !! i = Some (Some (sub_view b ps)) -> vs !! j = Some (Some (sub_view b qs)) -> i = j;
  vi_subs : Forall sub_ok subs;
  vi_keys : NoDup (sub_key <$> subs);
  vi_sent msg : msg ∈ sent -> exists i b ps, msg_ok vs msg i b ps;
  vi_replies src scr : (src, scr) ∈ replies -> exists i b ps cs, reply_ok vs src scr i b ps cs;
  vi_flight : NoDup (flight sent replies);
}.

Definition views (rm : reqmgr_thrd) : list (option view) := slot_view <$> rm_read_reqs rm.

Definition finished t b : Prop := sub_done t b = [UNIFYFS_SUCCESS] /\ Forall (delivered t b) (sb_chunks b).

Definition in_flight (s : rd_sys) (i : nat) (rank : Z) : Prop :=
  (Z.of_nat i, rank) ∈ flight (ds_sent s) (ds_replies s).

(** A call is for a request that was submitted, and its data belongs to one of
    the chunks of the request. *)
Definition call_fine (subs : list rd_sub) (k : client_call) : Prop :=
  exists b, b ∈ subs /\
    ((exists c, c ∈ sb_chunks b /\
       data_call (sb_mread b) (sb_ndx b) (cr_offset c - sub_base b) (cr_offset c - sub_base b + cr_nbytes c) k) \/
     k = MreadComplete (sb_mread b) (sb_ndx b) UNIFYFS_SUCCESS).

Record inv (s : rd_sys) : Prop := {
  in_rm : rm_ok (ds_rm s);
  in_static : static_inv (views (ds_rm s)) (ds_subs s) (ds_sent s) (ds_replies s);
  in_dyn i r b ps : rm_read_reqs (ds_rm s) !! i = Some r -> b ∈ ds_subs s -> slot_view r = Some (sub_view b ps) ->
    slot_dyn (in_flight s i) (ds_calls s) b r;
  in_done b : b ∈ ds_subs s ->
    (exists i ps, views (ds_rm s) !! i = Some (Some (sub_view b ps))) \/ finished (ds_calls s) b;
  in_fresh m n : (m, n) ∉ sub_key <$> ds_subs s -> calls_done m n (ds_calls s) = [];
  in_calls : Forall (call_fine (ds_subs s)) (ds_calls s);
}.

Lemma fmap_NoDup_inj {A B} (f : A -> B) (l : list A) x y :
  NoDup (f <$> l) -> x ∈ l -> y ∈ l -> f x = f y -> x = y.
Proof.
  induction l as [|z l IH]; rewrite ?fmap_cons; [by intros _ ?%elem_of_nil|].
  intros [Hz Hn]%NoDup_cons [->|Hx]%elem_of_cons [->|Hy]%elem_of_cons Heq; [done| | |by apply IH].
  - exfalso. apply Hz. rewrite Heq. by apply list_elem_of_fmap_2.
  - exfalso. apply Hz. rewrite -Heq. by apply list_elem_of_fmap_2.
Qed.

Lemma slot_dyn_other (F F' : Z -> Prop) t u b r :
  (forall rk, F' rk <-> F rk) -> calls_other b u -> slot_dyn F t b r -> slot_dyn F' (t ++ u) b r.
Proof.
  intros HF Ho [He Hst]. split.
  - eapply Forall_impl; [exact He|]. intros e. unfold entry_dyn.
    destruct (scr_status e), (scr_resp e); rewrite ?HF; try done.
    intros [? Hd]. split; [done|]. eapply Forall_impl; [exact Hd|]. intros c. by apply delivered_other.
  - by rewrite calls_other_done.
Qed.

Lemma views_set_slot rm i r r' :
  rm_read_reqs rm !! i = Some r -> slot_view r' = slot_view r -> views (rm_set_slot i r' rm) = views rm.
Proof.
  intros Hi Hv. unfold views. simpl. rewrite list_fmap_insert Hv. apply list_insert_id.
  by rewrite list_lookup_fmap Hi.
Qed.

Lemma slot_view_some rm i r v : rm_read_reqs rm !! i = Some r -> slot_view r = Some v -> views rm !! i = Some (Some v).
Proof. intros Hi Hv. unfold views. by rewrite list_lookup_fmap Hi /= Hv. Qed.

Lemma slot_view_in_use r v : slot_view r = Some v -> rq_in_use r = true.
Proof. unfold slot_view. by destruct (rq_in_use r). Qed.

(** A step that changes one slot, and makes calls for its request only. *)
Lemma inv_update s i r r' b ps u sent replies :
  inv s -> rm_read_reqs (ds_rm s) !! i = Some r -> b ∈ ds_subs s -> slot_view r = Some (sub_view b ps) ->
  slot_view r' = slot_view r -> rq_req_ndx r' = rq_req_ndx r ->
  (forall b', sub_key b' <> sub_key b -> calls_other b' u) -> Forall (call_fine (ds_subs s)) u ->
  static_inv (views (ds_rm s)) (ds_subs s) sent replies ->
  (forall k rk, k <> i -> (Z.of_nat k, rk) ∈ flight sent replies <-> in_flight s k rk) ->
  slot_dyn (fun rk => (Z.of_nat i, rk) ∈ flight sent replies) (ds_calls s ++ u) b r' ->
  inv (RdSys (ds_calls s ++ u) (rm_set_slot i r' (ds_rm s)) sent replies (ds_subs s)).
Proof.
  intros [Hrm Hst Hdyn Hdone Hfr Hcalls] Hi Hb Hv Hv' Hn Hother Hu Hst' Hfl Hnew.
  pose proof (views_set_slot _ _ _ r' Hi Hv') as Hvs. pose proof (slot_view_some _ _ _ _ Hi Hv) as Hvi.
  assert (forall b', b' ∈ ds_subs s -> b' <> b -> calls_other b' u) as Hoth'.
  { intros b' Hb' Hne. apply Hother. intros Heq. apply Hne.
    by apply (fmap_NoDup_inj sub_key (ds_subs s)); [apply Hst| | |]. }
  split; cbn [ds_rm ds_calls ds_sent ds_replies ds_subs].
  - apply (rm_set_slot_ok _ i r); [done|done|by eapply slot_view_in_use| |done].
    eapply slot_view_in_use. by rewrite Hv'.
  - by rewrite Hvs.
  - intros k q b' qs [(<- & <- & _)|[Hne Hk]]%list_lookup_insert_Some Hb' Hq.
    + rewrite Hv' Hv in Hq. injection Hq as E1 E2 E3 E4.
      assert (b' = b) as -> by (apply (fmap_NoDup_inj sub_key (ds_subs s)); [apply Hst|done|done|];
        unfold sub_key; congruence). done.
    + apply (slot_dyn_other (in_flight s k)); [intros rk; by apply Hfl|apply Hoth'; [done|]|by eapply Hdyn].
      intros ->. apply Hne. by apply (vi_inj _ _ _ _ Hst i k b ps qs); [|apply (slot_view_some _ _ _ _ Hk Hq)].
  - intros b' Hb'. rewrite Hvs. destruct (decide (sub_key b' = sub_key b)) as [Heq|Hne].
    + left. assert (b' = b) as -> by (by apply (fmap_NoDup_inj sub_key (ds_subs s)); [apply Hst| | |]). eauto.
    + destruct (Hdone b' Hb') as [?|[Hf1 Hf2]]; [by left|]. pose proof (Hother b' Hne) as Ho.
      right. split; [by rewrite calls_other_done|].
      eapply Forall_impl; [exact Hf2|]. intros c. by apply delivered_other.
  - intros m n Hmn. rewrite calls_done_app (Hfr m n Hmn) /=.
    destruct (Hother (RdSub m n (sb_ext b) [])) as [_ Hd]; [|done].
    intros Heq. apply Hmn. change (m, n) with (sub_key (RdSub m n (sb_ext b) [])). rewrite Heq. by apply list_elem_of_fmap_2.
  - by apply Forall_app.
Qed.

(** A step that only moves messages. *)
Lemma calls_other_nil b : calls_other b [].
Proof. done. Qed.

Lemma inv_msgs s sent replies :
  inv s -> static_inv (views (ds_rm s)) (ds_subs s) sent replies ->
  (forall x, x ∈ flight sent replies <-> x ∈ flight (ds_sent s) (ds_replies s)) ->
  inv (RdSys (ds_calls s) (ds_rm s) sent replies (ds_subs s)).
Proof.
  intros [Hrm Hst Hdyn Hdone Hfr Hcalls] Hst' Hfl. split; cbn [ds_rm ds_calls ds_sent ds_replies ds_subs]; try done.
  intros i r b ps Hi Hb Hv. rewrite -(app_nil_r (ds_calls s)).
  apply (slot_dyn_other (in_flight s i)); [|apply calls_other_nil|by eapply Hdyn].
  intros rk. apply Hfl.
Qed.

(** ** Serving the chunks of a request *)

Lemma sm_issue_spec d pread m rm crs src aid cid req total cs :
  mem_plenty m -> pread_full (apps d) pread -> Forall (chunk_ok (apps d)) cs ->
  total = chunks_size cs -> total <= ULONG_MAX ->
  exists m' buf, mem_plenty m' /\ resp_good d cs buf /\
    sm_issue_chunk_reads m (apps d) d pread rm crs src aid cid req total cs =
      if negb (src =? d) then
        LRet (m', rm, crs ++ [ServerChunkReads src req aid cid (Z.of_nat (length cs)) READREQ_NULL (bulk_size cs) [] (Some buf)],
              UNIFYFS_SUCCESS)
      else
        let! '(rm, rc) := rm_post_chunk_read_responses (apps d) rm aid cid src req (Z.of_nat (length cs)) (bulk_size cs) buf in
        LRet (m', rm, crs, rc).
Proof.
  intros Hpl Hpr Hok -> Hmax. unfold sm_issue_chunk_reads.
  destruct (calloc_plenty m Hpl) as (m1 & -> & Hpl1 & _).
  destruct (calloc_plenty m1 Hpl1) as (m2 & -> & Hpl2 & _).
  destruct (chunk_reads_loop_spec (apps d) pread cs (chunks_size cs) (fun _ => 0) 0) as (buf & -> & _ & Hrd);
    [done|done|lia|lia|].
  exists m2, (RespBuf (full_resp <$> cs) buf (chunks_size cs)). split_and!; [done|done|done].
Qed.

(** The chunks of one part of a request. *)
Lemma elem_parts_sublist ps (d : Z) (cs : list chunk_read_req) :
  (d, cs) ∈ ps -> exists l1 l2, concat (snd <$> ps) = l1 ++ cs ++ l2.
Proof.
  intros (p1 & p2 & ->)%list_elem_of_split. exists (concat (snd <$> p1)), (concat (snd <$> p2)).
  by rewrite fmap_app fmap_cons concat_app.
Qed.

Lemma ForallOrdPairs_app_inv {A} (R : A -> A -> Prop) l k :
  ForallOrdPairs R (l ++ k) ->
  ForallOrdPairs R l /\ ForallOrdPairs R k /\ (forall x y, x ∈ l -> y ∈ k -> R x y).
Proof.
  induction l as [|x l IH]; simpl; [intros; split_and!; [constructor|done|by intros ? ? ?%elem_of_nil]|].
  inversion 1 as [|? ? Hx Hl]; subst. destruct (IH Hl) as (H1 & H2 & H3). apply Forall_app in Hx as [Hx1 Hx2].
  split_and!; [by constructor|done|]. intros y z [->|Hy]%elem_of_cons Hz; [by apply (proj1 (Forall_forall _ _) Hx2)|by apply H3].
Qed.

Record part_facts b (d : Z) (cs : list chunk_read_req) : Prop := {
  pf_rank : Forall (fun c => cr_rank c = d) cs;
  pf_chunk : Forall (chunk_ok (apps d)) cs;
  pf_ext : Forall (in_extent (sb_ext b)) cs;
  pf_disj : ForallOrdPairs chunk_disj cs;
  pf_some : cs <> [];
  pf_bulk : 0 < bulk_size cs /\ 0 <= chunks_size cs <= ULONG_MAX;
}.

Lemma part_facts_intro b ps d cs : sub_ok b -> parts_ok b ps -> (d, cs) ∈ ps -> part_facts b d cs.
Proof.
  intros [_ _ _ Hch Hex Hdj Hsz] [Hall Hrk _] Hin.
  rewrite Forall_forall in Hrk. destruct (Hrk _ Hin) as [Hr Hne]. simpl in *.
  destruct (elem_parts_sublist ps d cs Hin) as (l1 & l2 & Heq). rewrite Hall in Heq. rewrite Heq in Hch, Hex, Hdj, Hsz.
  apply ForallOrdPairs_app_inv in Hdj as (_ & Hdj & _). apply ForallOrdPairs_app_inv in Hdj as (Hdj & _ & _).
  rewrite !Forall_app in Hch, Hex. destruct Hch as (Hc1 & Hc & Hc2), Hex as (_ & He & _).
  assert (Forall (chunk_ok (apps d)) cs) as Hok.
  { apply Forall_forall. intros c Hcin. rewrite !Forall_forall in Hc, Hr. rewrite -(Hr c Hcin). by apply Hc. }
  pose proof (chunks_size_pos _ _ Hok).
  assert (0 <= chunks_size l1) by (apply chunks_size_nonneg; eapply Forall_impl; [exact Hc1|]; intros c; apply chunk_ok_pos).
  assert (0 <= chunks_size l2) by (apply chunks_size_nonneg; eapply Forall_impl; [exact Hc2|]; intros c; apply chunk_ok_pos).
  rewrite !length_app !chunks_size_app in Hsz. destruct cs as [|c cs]; [done|].
  unfold sizeof_chunk_read_resp in *.
  split; [done|done|done|done|done|]. unfold bulk_size, sizeof_chunk_read_resp.
  rewrite u64_small; [unfold is_u64|]; simpl in *; lia.
Qed.

Lemma chunk_disj_sym c1 c2 : chunk_disj c1 c2 -> chunk_disj c2 c1.
Proof. unfold chunk_disj. lia. Qed.

(** Chunks of different parts are disjoint. *)
Lemma parts_disj b ps i j p q c1 c2 :
  sub_ok b -> parts_ok b ps -> ps !! i = Some p -> ps !! j = Some q -> i <> j ->
  c1 ∈ p.2 -> c2 ∈ q.2 -> chunk_disj c1 c2.
Proof.
  intros Hb [Hall _ _] Hi Hj Hne Hc1 Hc2. pose proof (so_disj b Hb) as Hd. rewrite -Hall in Hd. clear Hall Hb.
  revert i j Hi Hj Hne. induction ps as [|p0 ps IH]; intros i j Hi Hj Hne; [done|].
  rewrite fmap_cons /= in Hd. apply ForallOrdPairs_app_inv in Hd as (_ & Hd & Hx).
  assert (forall k x c, ps !! k = Some x -> c ∈ x.2 -> c ∈ concat (snd <$> ps)) as Hcat.
  { intros k x c Hk Hc. apply list_elem_of_In, in_concat. exists x.2. split; apply list_elem_of_In; [|done].
    apply list_elem_of_fmap_2. by eapply list_elem_of_lookup_2. }
  destruct i as [|i], j as [|j]; simpl in *; simplify_eq.
  - apply Hx; [done|]. by eapply Hcat.
  - apply chunk_disj_sym. apply Hx; [done|]. by eapply Hcat.
  - apply (IH Hd i j); [done|done|lia].
Qed.

(** ** Changing one entry of a request *)

Lemma slot_view_inv r b ps :
  slot_view r = Some (sub_view b ps) ->
  rq_in_use r = true /\ rq_app_id r = app_id /\ rq_client_id r = client_id /\ rq_client_mread r = sb_mread b /\
  rq_client_read_ndx r = sb_ndx b /\ rq_extent r = sb_ext b /\ ps = entry_part <$> rq_remote_reads r.
Proof. unfold slot_view, sub_view. destruct (rq_in_use r); [|done]. intros [= <- <- <- <- <- <-]. done. Qed.

Lemma slot_view_entry r j e e' st :
  rq_remote_reads r !! j = Some e -> entry_part e' = entry_part e ->
  slot_view (set_rq_status st (set_remote_reads (<[j := e']> (rq_remote_reads r)) r)) = slot_view r.
Proof.
  intros Hj He. unfold slot_view. simpl. destruct (rq_in_use r); [|done]. do 2 f_equal.
  rewrite list_fmap_insert He. apply list_insert_id.
  by rewrite list_lookup_fmap Hj.
Qed.

(** What is known of the slot of a request and of one of its entries. *)
Record slot_entry (s : rd_sys) (i : nat) r b ps (j : nat) e : Prop := {
  sl_slot : rm_read_reqs (ds_rm s) !! i = Some r;
  sl_sub : b ∈ ds_subs s;
  sl_view : slot_view r = Some (sub_view b ps);
  sl_ok : sub_ok b;
  sl_parts : parts_ok b ps;
  sl_entry : rq_remote_reads r !! j = Some e;
}.

Lemma slot_of_view s i v :
  inv s -> views (ds_rm s) !! i = Some (Some v) ->
  exists r b ps, rm_read_reqs (ds_rm s) !! i = Some r /\ b ∈ ds_subs s /\ v = sub_view b ps /\
    slot_view r = Some (sub_view b ps) /\ sub_ok b /\ parts_ok b ps.
Proof.
  intros Hinv Hv. pose proof (in_static _ Hinv) as Hst. destruct (vi_sub _ _ _ _ Hst i v Hv) as (b & ps & Hb & -> & Hps).
  unfold views in Hv. rewrite list_lookup_fmap in Hv. destruct (rm_read_reqs _ !! i) as [r|] eqn:Hi; [|done].
  injection Hv as Hv. exists r, b, ps. split_and!; try done. pose proof (vi_subs _ _ _ _ Hst) as H.
  rewrite Forall_forall in H. by apply H.
Qed.

Lemma slot_entry_intro s i r b ps j e :
  inv s -> rm_read_reqs (ds_rm s) !! i = Some r -> b ∈ ds_subs s -> slot_view r = Some (sub_view b ps) ->
  rq_remote_reads r !! j = Some e -> slot_entry s i r b ps j e.
Proof.
  intros Hinv Hi Hb Hv Hj. destruct (slot_of_view s i (sub_view b ps) Hinv) as (r0 & b0 & ps0 & Hi0 & Hb0 & Heq & Hv0 & Hok & Hps);
    [by eapply slot_view_some|]. injection Heq as E1 E2 E3 E4.
  assert (b0 = b) as -> by (apply (fmap_NoDup_inj sub_key (ds_subs s)); [apply Hinv|done|done|]; unfold sub_key; congruence).
  subst ps0. done.
Qed.

Lemma entry_of_part s i b0 ps0 d cs :
  inv s -> views (ds_rm s) !! i = Some (Some (sub_view b0 ps0)) -> (d, cs) ∈ ps0 ->
  exists r b j e, slot_entry s i r b ps0 j e /\ sub_view b ps0 = sub_view b0 ps0 /\ entry_part e = (d, cs).
Proof.
  intros Hinv Hv Hin. destruct (slot_of_view s i _ Hinv Hv) as (r & b & ps & Hi & Hb & Heq & Hr & Hok & Hps).
  assert (ps0 = ps) as -> by (unfold sub_view in Heq; congruence).
  destruct (slot_view_inv _ _ _ Hr) as (_ & _ & _ & _ & _ & _ & Hp).
  pose proof Hin as Hin'. rewrite Hp in Hin'. apply list_elem_of_fmap in Hin' as (e & He & Hin').
  apply list_elem_of_lookup in Hin' as [j Hj]. by exists r, b, j, e.
Qed.

Lemma slot_entry_part s i r b ps j e : slot_entry s i r b ps j e -> ps !! j = Some (entry_part e).
Proof.
  intros [_ _ Hv _ _ He]. destruct (slot_view_inv _ _ _ Hv) as (_ & _ & _ & _ & _ & _ & ->).
  by rewrite list_lookup_fmap He.
Qed.

Lemma slot_entry_facts s i r b ps j e : slot_entry s i r b ps j e -> part_facts b (scr_rank e) (scr_reqs e).
Proof.
  intros H. pose proof (slot_entry_part _ _ _ _ _ _ _ H) as Hp. destruct H as [_ _ _ Hok Hps _].
  apply (part_facts_intro b ps); [done|done|]. by eapply list_elem_of_lookup_2.
Qed.

(** The other entries are for other servers. *)
Lemma slot_entry_rank s i r b ps j e k e' :
  slot_entry s i r b ps j e -> rq_remote_reads r !! k = Some e' -> k <> j -> scr_rank e' <> scr_rank e.
Proof.
  intros [_ _ Hv _ Hps He] Hk Hne Heq. destruct (slot_view_inv _ _ _ Hv) as (_ & _ & _ & _ & _ & _ & ->).
  apply Hne. eapply (NoDup_lookup _ k j (scr_rank e) (po_nodup _ _ Hps)); rewrite !list_lookup_fmap ?Hk ?He /=; congruence.
Qed.

Lemma post_response_spec es j e n sz buf :
  es !! j = Some e -> (forall k e', es !! k = Some e' -> k <> j -> scr_rank e' <> scr_rank e) ->
  post_response (scr_rank e) n sz buf es = Some (<[j := scr_set_resp n sz (Some buf) e]> es).
Proof.
  revert j. induction es as [|e0 es IH]; intros [|j] Hj Hr; simpl in *; [done|done| |].
  - injection Hj as ->. by rewrite Z.eqb_refl.
  - rewrite (proj2 (Z.eqb_neq _ _)); [by apply (Hr 0%nat)|]. rewrite (IH j Hj); [|done].
    intros k e' Hk Hne. apply (Hr (S k)); [done|lia].
Qed.

Lemma all_complete_spec es : all_complete es = true <-> Forall (fun e => scr_status e = READREQ_COMPLETE) es.
Proof.
  unfold all_complete. rewrite forallb_forall Forall_forall. setoid_rewrite <- list_elem_of_In.
  split; intros H e He; specialize (H e He); [by apply bool_decide_eq_true in H|by apply bool_decide_eq_true].
Qed.

Lemma all_complete_false es j e : es !! j = Some e -> scr_status e <> READREQ_COMPLETE -> all_complete es = false.
Proof.
  intros Hj Hne. destruct (all_complete es) eqn:H; [|done]. apply all_complete_spec in H.
  rewrite Forall_lookup in H. by destruct (Hne (H j e Hj)).
Qed.

(** A waiting entry belongs to a request that has been started. *)
Lemma waiting_started F t b r j e :
  slot_dyn F t b r -> rq_remote_reads r !! j = Some e -> scr_status e = READREQ_STARTED ->
  rq_status r = READREQ_STARTED.
Proof.
  intros [_ Hst] Hj He. destruct (rq_status r); [done| |done|].
  - destruct Hst as [H _]. rewrite Forall_lookup in H. rewrite (H j e Hj) in He. done.
  - destruct Hst as [H%all_complete_spec _]. rewrite Forall_lookup in H. by rewrite (H j e Hj) in He.
Qed.

Lemma entries_set (F F' : Z -> Prop) s i r b ps j e e' t u :
  slot_entry s i r b ps j e -> Forall (entry_dyn F t b) (rq_remote_reads r) ->
  (forall rk, rk <> scr_rank e -> F' rk <-> F rk) ->
  (forall c, Forall (fun c' => chunk_disj c c') (scr_reqs e) -> delivered t b c -> delivered (t ++ u) b c) ->
  entry_dyn F' (t ++ u) b e' ->
  Forall (entry_dyn F' (t ++ u) b) (<[j := e']> (rq_remote_reads r)).
Proof.
  intros Hsl Hall HF Hdel Hnew. apply Forall_lookup. intros k x [(<- & <- & _)|[Hne Hk]]%list_lookup_insert_Some; [done|].
  pose proof (slot_entry_rank _ _ _ _ _ _ _ _ _ Hsl Hk (not_eq_sym Hne)) as Hrk.
  pose proof (proj1 (Forall_lookup _ _) Hall k x Hk) as Hx. simpl in Hx. unfold entry_dyn in *.
  destruct (scr_status x), (scr_resp x); rewrite ?HF //. destruct Hx as [? Hx]. split; [done|].
  rewrite Forall_forall in Hx. apply Forall_forall. intros c Hc. apply Hdel; [|by apply Hx].
  apply Forall_forall. intros c' Hc'. destruct Hsl as [Hi Hb Hv Hok Hps Hj].
  destruct (slot_view_inv _ _ _ Hv) as (_ & _ & _ & _ & _ & _ & Hp).
  apply (parts_disj b ps k j (entry_part x) (entry_part e)); rewrite ?Hp ?list_lookup_fmap ?Hk ?Hj; try done.
  by rewrite -Hp.
Qed.

Context (reader_known : get_app_client (apps my_rank) app_id client_id <> None).

Lemma rm_post_eq s i r b ps j e n sz buf :
  slot_entry s i r b ps j e ->
  rm_post_chunk_read_responses (apps my_rank) (ds_rm s) app_id client_id (scr_rank e) (Z.of_nat i) n sz buf =
  LRet (rm_set_slot i (set_remote_reads (<[j := scr_set_resp n sz (Some buf) e]> (rq_remote_reads r)) r) (ds_rm s),
        UNIFYFS_SUCCESS).
Proof.
  intros Hsl. unfold rm_post_chunk_read_responses. destruct (get_app_client _ _ _); [|done].
  rewrite Nat2Z.id (sl_slot _ _ _ _ _ _ _ Hsl) /= (post_response_spec _ j e); [by apply Hsl| |done].
  intros k e' Hk Hne. by apply (slot_entry_rank s i r b ps j e k e' Hsl).
Qed.

Lemma set_remote_status es r : set_remote_reads es r = set_rq_status (rq_status r) (set_remote_reads es r).
Proof. done. Qed.

(** Every part of a request that has been started has been sent. *)
Definition slot_fine r : Prop :=
  rq_status r = READREQ_STARTED -> Forall (fun e => scr_status e <> READREQ_NULL) (rq_remote_reads r).

(** A response that was waited for is posted. *)
Lemma inv_respond s i r b ps j e n sz buf sent replies :
  inv s -> slot_entry s i r b ps j e -> in_flight s i (scr_rank e) ->
  resp_good (scr_rank e) (scr_reqs e) buf -> n = Z.of_nat (length (scr_reqs e)) -> sz = bulk_size (scr_reqs e) ->
  static_inv (views (ds_rm s)) (ds_subs s) sent replies ->
  (forall x, x ∈ flight sent replies <-> x ∈ flight (ds_sent s) (ds_replies s) /\ x <> (Z.of_nat i, scr_rank e)) ->
  exists rm', rm_post_chunk_read_responses (apps my_rank) (ds_rm s) app_id client_id (scr_rank e) (Z.of_nat i) n sz buf =
      LRet (rm', UNIFYFS_SUCCESS) /\
    (forall k r', rm_read_reqs rm' !! k = Some r' ->
      exists r, rm_read_reqs (ds_rm s) !! k = Some r /\ (slot_fine r -> slot_fine r')) /\
    inv (RdSys (ds_calls s) rm' sent replies (ds_subs s)).
Proof.
  intros Hinv Hsl Hfl Hgood -> -> Hst Hx. eexists. split; [by apply (rm_post_eq s i r b ps j e)|].
  split.
  { intros k r' [(<- & <- & _)|[_ Hk]]%list_lookup_insert_Some; [|by exists r'].
    exists r. split; [apply Hsl|]. intros Hf Hst'. specialize (Hf Hst'). apply Forall_insert; [done|]. simpl.
    rewrite Forall_lookup in Hf. apply (Hf j e). apply Hsl. }
  pose proof Hsl as [Hi Hb Hv Hok Hps Hj]. pose proof (in_dyn _ Hinv i r b ps Hi Hb Hv) as Hdyn.
  assert (scr_status e = READREQ_STARTED) as Hst_e.
  { destruct Hdyn as [He _]. pose proof (proj1 (Forall_lookup _ _) He j e Hj) as He'. unfold entry_dyn in He'.
    destruct (scr_status e), (scr_resp e); try done; by destruct He' as [? _]. }
  pose proof (waiting_started _ _ _ _ _ _ Hdyn Hj Hst_e) as Hstart.
  rewrite -{1}(app_nil_r (ds_calls s)) set_remote_status.
  apply (inv_update s i r _ b ps); try done.
  - by eapply slot_view_entry.
  - intros k rk Hne. unfold in_flight. rewrite Hx. split; [by intros [? _]|]. intros ?. split; [done|]. intros [= ? _]. lia.
  - destruct Hdyn as [He Hd]. rewrite Hstart in Hd. destruct Hd as [Hd1 Hd2]. split.
    + apply (entries_set (in_flight s i) _ s i r b ps j e); [done|done| | |].
      * intros rk Hrk. rewrite Hx. unfold in_flight. split; [by intros [? _]|]. intros ?. split; [done|]. congruence.
      * intros c _. by rewrite app_nil_r.
      * unfold entry_dyn. simpl. rewrite Hst_e. split; [|done]. rewrite Hx. by intros [_ []].
    + simpl. rewrite Hstart app_nil_r. split; [|done].
      apply (all_complete_false _ j (scr_set_resp (Z.of_nat (length (scr_reqs e))) (bulk_size (scr_reqs e)) (Some buf) e)).
      * apply list_lookup_insert_eq. by eapply lookup_lt_Some.
      * simpl. by rewrite Hst_e.
Qed.

(** ** Processing responses *)

Lemma data_calls_other m n u b :
  Forall (fun c => exists o x, c = MreadData m n o x) u -> sub_key b <> (m, n) -> calls_other b u.
Proof.
  intros Hu Hne. induction Hu as [|c u (o & x & ->) _ [IH1 IH2]]; [done|]. split; [|done].
  intros f. simpl. destruct (m =? sb_mread b) eqn:H1, (n =? sb_ndx b) eqn:H2; zbool; simpl; try apply IH1.
  destruct Hne. unfold sub_key. congruence.
Qed.

Lemma serves_data d m n base cs u :
  serves d m n base cs u -> Forall (fun c => exists o x, c = MreadData m n o x) u.
Proof. intros [Hd _ _]. eapply Forall_impl; [exact Hd|]. intros k (c & _ & o & x & -> & _). eauto. Qed.

Lemma calls_other_app b u1 u2 : calls_other b u1 -> calls_other b u2 -> calls_other b (u1 ++ u2).
Proof. intros [H1 H2] [H3 H4]. split; [intros f; by rewrite calls_buf_app H1 H3|by rewrite calls_done_app H2 H4]. Qed.

Lemma complete_calls_other m n rc b : sub_key b <> (m, n) -> calls_other b [MreadComplete m n rc].
Proof.
  intros Hne. split; [done|]. simpl. destruct (m =? sb_mread b) eqn:H1, (n =? sb_ndx b) eqn:H2; zbool; try done.
  destruct Hne. unfold sub_key. congruence.
Qed.

Lemma sub_done_data t u b :
  Forall (fun c => exists o x, c = MreadData (sb_mread b) (sb_ndx b) o x) u -> sub_done (t ++ u) b = sub_done t b.
Proof.
  intros Hu. unfold sub_done. rewrite calls_done_app. replace (calls_done _ _ u) with (@nil Z); [by rewrite app_nil_r|].
  symmetry. induction Hu as [|c u (o & x & ->) _ IH]; done.
Qed.

Lemma sub_buf_complete t b rc : sub_buf (t ++ [MreadComplete (sb_mread b) (sb_ndx b) rc]) b = sub_buf t b.
Proof. unfold sub_buf. by rewrite calls_buf_app. Qed.

Definition completed_entry e : server_chunk_reads :=
  scr_set_status READREQ_COMPLETE (scr_set_resp (scr_num_chunks e) (scr_total_sz e) None e).

(** The calls that a response leads to, and their effect. *)
Definition completion (es : list server_chunk_reads) b : list client_call :=
  if all_complete es then [MreadComplete (sb_mread b) (sb_ndx b) UNIFYFS_SUCCESS] else [].

Lemma handle_eq s i r b ps j e buf t :
  slot_entry s i r b ps j e -> scr_status e = READREQ_STARTED -> scr_resp e = Some buf ->
  resp_good (scr_rank e) (scr_reqs e) buf -> scr_num_chunks e = Z.of_nat (length (scr_reqs e)) ->
  scr_total_sz e = bulk_size (scr_reqs e) ->
  let es := <[j := completed_entry e]> (rq_remote_reads r) in
  exists u, serves (apps (scr_rank e)) (sb_mread b) (sb_ndx b) (sub_base b) (scr_reqs e) u /\
    rm_handle_chunk_read_responses t r j =
      LRet (t ++ u ++ completion es b,
            set_rq_status (if all_complete es then READREQ_COMPLETE else rq_status r) (set_remote_reads es r), UNIFYFS_SUCCESS).
Proof.
  intros Hsl Hst Hrs (Hr & Hsz & Hrd) Hnum Htot es. pose proof (slot_entry_facts _ _ _ _ _ _ _ Hsl) as [_ Hch Hex Hdj _ Hb].
  destruct Hsl as [_ _ Hv _ _ Hj]. destruct (slot_view_inv _ _ _ Hv) as (_ & _ & _ & Hm & Hn & Hext & _).
  rewrite -Hext in Hex.
  destruct (send_responses_spec (apps (scr_rank e)) t r buf (scr_reqs e) 0) as (u & Hsend & Hu); [done|done|done|lia|lia|done|].
  rewrite Hm Hn Hext in Hu. exists u. split; [done|].
  unfold rm_handle_chunk_read_responses. rewrite Hj. cbn [lift_option lbind]. rewrite Hrs. cbn [lift_option lbind].
  rewrite Hst. rewrite bool_decide_true //. cbn [negb]. rewrite (proj2 (Z.eqb_neq (scr_total_sz e) 0)); [lia|].
  rewrite Hnum Hr length_fmap Z.ltb_irrefl Nat2Z.id -(length_fmap full_resp) firstn_all Hsend. cbn [lbind].
  rewrite length_fmap -Hnum. unfold completion.
  change (scr_set_status _ _) with (completed_entry e). cbn [rq_remote_reads set_remote_reads]. fold es.
  destruct (all_complete es); cbn [mread_req_complete record_calls]; [|by rewrite app_nil_r].
  cbn [rq_client_mread rq_client_read_ndx set_rq_status set_remote_reads]. rewrite Hm Hn Z.eqb_refl. cbn [negb].
  by rewrite app_assoc.
Qed.

Lemma delivered_serves t b d cs u c :
  serves (apps d) (sb_mread b) (sb_ndx b) (sub_base b) cs u -> Forall (fun c => cr_rank c = d) cs ->
  c ∈ cs -> delivered (t ++ u) b c.
Proof.
  intros [_ Hin _] Hd Hc a Ha. rewrite Forall_forall in Hd. unfold sub_buf. rewrite calls_buf_app (Hin _ c a Hc Ha).
  by rewrite (Hd c Hc).
Qed.

Lemma delivered_disj t b d cs u c :
  serves (apps d) (sb_mread b) (sb_ndx b) (sub_base b) cs u -> Forall (chunk_disj c) cs ->
  delivered t b c -> delivered (t ++ u) b c.
Proof.
  intros [_ _ Hout] Hd Hc a Ha. unfold sub_buf. rewrite calls_buf_app Hout; [|by apply Hc].
  intros c' Hc' Ha'. rewrite Forall_forall in Hd. specialize (Hd c' Hc'). unfold chunk_disj, in_chunk in *. lia.
Qed.

Lemma completion_delivered t es b c : delivered t b c -> delivered (t ++ completion es b) b c.
Proof.
  intros Hd a Ha. unfold completion. destruct (all_complete es); [|by rewrite app_nil_r; apply Hd].
  rewrite sub_buf_complete. by apply Hd.
Qed.

Lemma completion_done t es b :
  sub_done t b = [] -> sub_done (t ++ completion es b) b = if all_complete es then [UNIFYFS_SUCCESS] else [].
Proof.
  intros Hd. unfold completion. destruct (all_complete es); [|by rewrite app_nil_r].
  unfold sub_done in *. rewrite calls_done_app Hd. simpl. by rewrite !Z.eqb_refl.
Qed.

Lemma slot_entry_chunks s i r b ps j e c : slot_entry s i r b ps j e -> c ∈ scr_reqs e -> c ∈ sb_chunks b.
Proof.
  intros Hsl Hc. pose proof (slot_entry_part _ _ _ _ _ _ _ Hsl) as Hp. rewrite -(po_all _ _ (sl_parts _ _ _ _ _ _ _ Hsl)).
  apply list_elem_of_In, in_concat. exists (scr_reqs e). split; apply list_elem_of_In; [|done].
  change (scr_reqs e) with (entry_part e).2. apply list_elem_of_fmap_2. by eapply list_elem_of_lookup_2.
Qed.

Lemma handle_calls_fine s i r b ps j e d es u :
  slot_entry s i r b ps j e -> serves d (sb_mread b) (sb_ndx b) (sub_base b) (scr_reqs e) u ->
  Forall (call_fine (ds_subs s)) (u ++ completion es b).
Proof.
  intros Hsl [Hd _ _]. apply Forall_app. split.
  - eapply Forall_impl; [exact Hd|]. intros k (c & Hc & Hk). exists b. split; [apply Hsl|]. left. exists c.
    split; [by eapply slot_entry_chunks|done].
  - unfold completion. destruct (all_complete es); constructor; [|constructor]. exists b. split; [apply Hsl|by right].
Qed.

Lemma inv_handle s i r b ps j e buf :
  inv s -> slot_entry s i r b ps j e -> scr_resp e = Some buf ->
  exists u r', rm_handle_chunk_read_responses (ds_calls s) r j = LRet (ds_calls s ++ u, r', UNIFYFS_SUCCESS) /\
    inv (RdSys (ds_calls s ++ u) (rm_set_slot i r' (ds_rm s)) (ds_sent s) (ds_replies s) (ds_subs s)) /\
    slot_view r' = slot_view r /\ rq_remote_reads r' = <[j := completed_entry e]> (rq_remote_reads r).
Proof.
  intros Hinv Hsl Hrs. pose proof Hsl as [Hi Hb Hv Hok Hps Hj].
  pose proof (in_dyn _ Hinv i r b ps Hi Hb Hv) as Hdyn. pose proof Hdyn as [He Hd].
  pose proof (proj1 (Forall_lookup _ _) He j e Hj) as Hej. simpl in Hej. unfold entry_dyn in Hej. rewrite Hrs in Hej.
  destruct (scr_status e) eqn:Hst; try done. destruct Hej as (Hnf & Hgood & Hnum & Htot).
  pose proof (waiting_started _ _ _ _ _ _ Hdyn Hj Hst) as Hstart. rewrite Hstart in Hd. destruct Hd as [_ Hdone].
  destruct (handle_eq s i r b ps j e buf (ds_calls s) Hsl Hst Hrs Hgood Hnum Htot) as (u & Hu & Heq).
  set (es := <[j := completed_entry e]> (rq_remote_reads r)) in *.
  eexists (u ++ completion es b), _. split; [exact Heq|].
  assert (slot_view (set_rq_status (if all_complete es then READREQ_COMPLETE else rq_status r) (set_remote_reads es r)) =
    slot_view r) as Hvr by (by eapply slot_view_entry).
  split_and!; [|done|done].
  pose proof (slot_entry_facts _ _ _ _ _ _ _ Hsl) as [Hrk _ _ _ _ _].
  apply (inv_update s i r _ b ps); try done; [|by eapply handle_calls_fine|by apply Hinv|].
  - intros b' Hne. apply calls_other_app; [by eapply data_calls_other; [by eapply serves_data|]|].
    unfold completion. destruct (all_complete es); [by apply complete_calls_other|apply calls_other_nil].
  - rewrite app_assoc. split.
    + change (rq_remote_reads (set_rq_status _ _)) with es. rewrite -app_assoc.
      apply (entries_set (in_flight s i) _ s i r b ps j e); [done|done|done| |].
      * intros c Hc Hdel. rewrite app_assoc. apply completion_delivered. by eapply delivered_disj.
      * unfold entry_dyn. simpl. split; [done|]. apply Forall_forall. intros c Hc. rewrite app_assoc.
        apply completion_delivered. by eapply delivered_serves.
    + assert (sub_done (ds_calls s ++ u) b = []) as Hdone' by (rewrite sub_done_data; [by eapply serves_data|done]).
      cbn [rq_status set_rq_status rq_remote_reads set_remote_reads]. rewrite completion_done //.
      destruct (all_complete es) eqn:Hall; [done|]. by rewrite Hstart.
Qed.

(** The state after calls [u] and a change of slot [i]. *)
Definition upd (s : rd_sys) u (i : nat) r : rd_sys :=
  RdSys (ds_calls s ++ u) (rm_set_slot i r (ds_rm s)) (ds_sent s) (ds_replies s) (ds_subs s).

Lemma upd_nil s i r : rm_read_reqs (ds_rm s) !! i = Some r -> upd s [] i r = s.
Proof.
  destruct s as [t [n x l] se re su]. unfold upd, rm_set_slot. simpl. intros Hi.
  by rewrite app_nil_r list_insert_id.
Qed.

Lemma upd_upd s u i r u' r' : upd (upd s u i r) u' i r' = upd s (u ++ u') i r'.
Proof. unfold upd, rm_set_slot. simpl. by rewrite app_assoc list_insert_insert_eq. Qed.

Lemma upd_lookup s u i r r0 : rm_read_reqs (ds_rm s) !! i = Some r0 -> rm_read_reqs (ds_rm (upd s u i r)) !! i = Some r.
Proof. intros Hi. simpl. apply list_lookup_insert_eq. by eapply lookup_lt_Some. Qed.

Lemma handle_responses_spec i b ps js s r ret :
  inv s -> rm_read_reqs (ds_rm s) !! i = Some r -> b ∈ ds_subs s -> slot_view r = Some (sub_view b ps) ->
  Forall (fun j => (j < length (rq_remote_reads r))%nat) js ->
  exists u r', handle_responses (ds_calls s) r js ret = LRet (ds_calls s ++ u, r', ret) /\ inv (upd s u i r') /\
    slot_view r' = slot_view r /\
    (forall j e', rq_remote_reads r' !! j = Some e' ->
      (rq_remote_reads r !! j = Some e' /\ (j ∈ js -> scr_resp e' = None)) \/
      (scr_resp e' = None /\ scr_status e' = READREQ_COMPLETE)).
Proof.
  revert s r. induction js as [|j js IH]; intros s r Hinv Hi Hb Hv Hlt.
  { exists [], r. rewrite upd_nil // app_nil_r. split_and!; [done|done|done|]. intros j e' He'. left. split; [done|].
    by intros ?%elem_of_nil. }
  apply Forall_cons in Hlt as [Hj Hlt]. apply lookup_lt_is_Some in Hj as [e He]. simpl. rewrite He. cbn [lift_option lbind].
  pose proof (slot_entry_intro s i r b ps j e Hinv Hi Hb Hv He) as Hsl.
  destruct (scr_resp e) as [buf|] eqn:Hrs.
  - destruct (inv_handle s i r b ps j e buf Hinv Hsl Hrs) as (u1 & r1 & -> & Hinv1 & Hv1 & Hes1).
    fold (upd s u1 i r1) in Hinv1. cbn [lbind]. rewrite Z.eqb_refl. cbn [negb].
    destruct (IH (upd s u1 i r1) r1) as (u2 & r2 & Hh & Hinv2 & Hv2 & Hes2).
    { done. } { by eapply upd_lookup. } { done. } { by rewrite Hv1. } { by rewrite Hes1 length_insert. }
    cbn [ds_calls upd] in Hh. exists (u1 ++ u2), r2. rewrite upd_upd in Hinv2.
    split_and!; [by rewrite app_assoc|done|by rewrite Hv2|].
    intros k e' [[Hk Hjs]|?]%Hes2; [|by right]. rewrite Hes1 in Hk.
    apply list_lookup_insert_Some in Hk as [(<- & <- & _)|[Hne Hk]]; [by right|left].
    split; [done|]. intros [->|?]%elem_of_cons; [done|by apply Hjs].
  - destruct (IH s r Hinv Hi Hb Hv Hlt) as (u & r' & Hh & Hinv' & Hv' & Hes). exists u, r'. split_and!; try done.
    intros k e' [[Hk Hjs]|?]%Hes; [left|by right]. split; [done|].
    intros [->|?]%elem_of_cons; [congruence|by apply Hjs].
Qed.

(** ** Releasing a slot *)

Lemma complete_no_msg s i b ps r :
  inv s -> rm_read_reqs (ds_rm s) !! i = Some r -> b ∈ ds_subs s -> slot_view r = Some (sub_view b ps) ->
  rq_status r = READREQ_COMPLETE -> forall d cs, (d, cs) ∈ ps -> ~ in_flight s i d.
Proof.
  intros Hinv Hi Hb Hv Hst d cs Hin. pose proof (in_dyn _ Hinv i r b ps Hi Hb Hv) as [He Hc]. rewrite Hst in Hc.
  destruct Hc as [Hall%all_complete_spec _]. destruct (slot_view_inv _ _ _ Hv) as (_ & _ & _ & _ & _ & _ & ->).
  apply list_elem_of_fmap in Hin as (e & [= -> ->] & Hin). rewrite !Forall_forall in He, Hall.
  specialize (He e Hin). unfold entry_dyn in He. rewrite (Hall e Hin) in He. destruct (scr_resp e); [done|]. by destruct He.
Qed.

Lemma complete_finished s i b ps r :
  inv s -> rm_read_reqs (ds_rm s) !! i = Some r -> b ∈ ds_subs s -> slot_view r = Some (sub_view b ps) ->
  parts_ok b ps -> rq_status r = READREQ_COMPLETE -> finished (ds_calls s) b.
Proof.
  intros Hinv Hi Hb Hv Hps Hst. pose proof (in_dyn _ Hinv i r b ps Hi Hb Hv) as [He Hc]. rewrite Hst in Hc.
  destruct Hc as [Hall%all_complete_spec Hdone]. split; [done|]. rewrite -(po_all _ _ Hps).
  destruct (slot_view_inv _ _ _ Hv) as (_ & _ & _ & _ & _ & _ & ->).
  apply Forall_forall. intros c (cs & (p & -> & (e & -> & Hin)%list_elem_of_fmap)%list_elem_of_In%list_elem_of_fmap & Hc)%list_elem_of_In%in_concat.
  rewrite !Forall_forall in He, Hall. specialize (He e Hin). unfold entry_dyn in He. rewrite (Hall e Hin) in He.
  destruct (scr_resp e); [done|]. destruct He as [_ He]. rewrite Forall_forall in He. apply He. by apply list_elem_of_In.
Qed.

Lemma static_release vs subs sent replies i :
  static_inv vs subs sent replies ->
  (forall b ps d cs, vs !! i = Some (Some (sub_view b ps)) -> (d, cs) ∈ ps -> (Z.of_nat i, d) ∉ flight sent replies) ->
  static_inv (<[i := None]> vs) subs sent replies.
Proof.
  intros [Hsub Hinj Hsubs Hkeys Hse Hre Hnd] Hno.
  assert (forall k v, <[i := None]> vs !! k = Some (Some v) -> k <> i /\ vs !! k = Some (Some v)) as Hlk.
  { intros k v [(_ & ? & _)|[? ?]]%list_lookup_insert_Some; [done|]. by split; [apply not_eq_sym|]. }
  split; try done.
  - intros k v [_ Hk]%Hlk. by apply (Hsub k).
  - intros k j b ps qs [_ Hk]%Hlk [_ Hj]%Hlk. by apply (Hinj k j b ps qs).
  - intros msg Hmsg. destruct (Hse msg Hmsg) as (k & b & ps & [H1 H2 H3 H4 H5 H6 H7]). exists k, b, ps.
    assert (k <> i) as Hne.
    { intros ->. apply (Hno b ps _ _ H1 H2). unfold flight. apply elem_of_app. left. rewrite -H3.
      by apply (list_elem_of_fmap_2 (fun m => (ci_req_id m, ci_dst m))). }
    split; try done. by rewrite list_lookup_insert_ne.
  - intros src scr Hm. destruct (Hre src scr Hm) as (k & b & ps & cs & [H1 H2 H3 H4 H5 H6 H7]). exists k, b, ps, cs.
    assert (k <> i) as Hne.
    { intros ->. apply (Hno b ps _ _ H1 H2). unfold flight. apply elem_of_app. right. rewrite -H3.
      by apply (list_elem_of_fmap_2 (fun p => (scr_rdreq_id p.2, p.1)) _ (src, scr)). }
    split; try done. by rewrite list_lookup_insert_ne.
Qed.

Lemma inv_release s i r b ps :
  inv s -> rm_read_reqs (ds_rm s) !! i = Some r -> b ∈ ds_subs s -> slot_view r = Some (sub_view b ps) ->
  parts_ok b ps -> rq_status r = READREQ_COMPLETE ->
  exists rm', release_read_req (ds_rm s) i = LRet rm' /\
    rm_read_reqs rm' = <[i := zero_read_req]> (rm_read_reqs (ds_rm s)) /\
    inv (RdSys (ds_calls s) rm' (ds_sent s) (ds_replies s) (ds_subs s)).
Proof.
  intros Hinv Hi Hb Hv Hps Hst.
  destruct (release_read_req_spec (ds_rm s) i r (in_rm _ Hinv) Hi) as (rm' & Hrel & Hrm & Hslots);
    [by eapply slot_view_in_use|].
  exists rm'. split_and!; [done|done|].
  assert (views rm' = <[i := None]> (views (ds_rm s))) as Hvs by (unfold views; by rewrite Hslots list_fmap_insert).
  pose proof (slot_view_some _ _ _ _ Hi Hv) as Hvi. pose proof (in_static _ Hinv) as Hs.
  split; cbn [ds_calls ds_rm ds_sent ds_replies ds_subs]; [done| | | |by apply Hinv|by apply Hinv].
  - rewrite Hvs. apply static_release; [done|]. intros b' qs d cs Hb' Hin.
    rewrite Hvi in Hb'. injection Hb' as _ _ _ <-. by apply (complete_no_msg s i b ps r Hinv Hi Hb Hv Hst d cs).
  - intros k q b' qs. rewrite Hslots. intros [(_ & <- & _)|[_ Hk]]%list_lookup_insert_Some Hb' Hq; [done|].
    by apply (in_dyn _ Hinv k q b' qs).
  - intros b' Hb'. destruct (in_done _ Hinv b' Hb') as [(k & qs & Hk)|?]; [|by right].
    destruct (decide (k = i)) as [->|Hne]; [right|left; exists k, qs; rewrite Hvs list_lookup_insert_ne //].
    assert (b' = b) as ->; [|by apply (complete_finished s i b ps r)].
    rewrite Hvi in Hk. injection Hk as E1 E2 E3 E4.
    apply (fmap_NoDup_inj sub_key (ds_subs s)); [apply Hs|done|done|]. unfold sub_key. congruence.
Qed.

(** ** The loop over the slots *)

Definition slot_started r : Prop := rq_status r <> READREQ_READY /\ slot_fine r.

Definition slot_settled r : Prop := rq_in_use r = true -> rq_status r = READREQ_COMPLETE.

Lemma settled_of_handled s i r b ps :
  inv s -> rm_read_reqs (ds_rm s) !! i = Some r -> b ∈ ds_subs s -> slot_view r = Some (sub_view b ps) ->
  (forall d, ~ in_flight s i d) -> rq_status r <> READREQ_READY ->
  Forall (fun e => scr_resp e = None /\ scr_status e <> READREQ_NULL) (rq_remote_reads r) ->
  rq_status r = READREQ_COMPLETE.
Proof.
  intros Hinv Hi Hb Hv Hnf Hnr Hall. pose proof (in_dyn _ Hinv i r b ps Hi Hb Hv) as [He Hst].
  destruct (rq_status r); [done|done| |done]. destruct Hst as [Hst _]. exfalso.
  assert (all_complete (rq_remote_reads r) = true) as Ht; [|congruence].
  apply all_complete_spec, Forall_forall. intros e Hin. rewrite !Forall_forall in He, Hall.
  destruct (Hall e Hin) as [Hr Hn]. specialize (He e Hin). unfold entry_dyn in He. rewrite Hr in He.
  destruct (scr_status e); [done|done| |done]. by apply Hnf in He.
Qed.

Lemma process_slot s i r ret :
  inv s -> rm_read_reqs (ds_rm s) !! i = Some r ->
  exists calls rm' r', process_read_req (ds_calls s) (ds_rm s) i ret = LRet (calls, rm', ret) /\
    inv (RdSys calls rm' (ds_sent s) (ds_replies s) (ds_subs s)) /\
    rm_read_reqs rm' = <[i := r']> (rm_read_reqs (ds_rm s)) /\ (slot_fine r -> slot_fine r') /\
    ((forall d, ~ in_flight s i d) -> slot_started r -> slot_settled r').
Proof.
  intros Hinv Hi. unfold process_read_req. rewrite Hi. cbn [lift_option lbind].
  assert (inv (RdSys (ds_calls s) (ds_rm s) (ds_sent s) (ds_replies s) (ds_subs s))) as Hid by (by destruct s).
  destruct (rq_in_use r) eqn:Hu; cbn [negb].
  2:{ exists (ds_calls s), (ds_rm s), r. rewrite list_insert_id //. split_and!; [done|done|done|done|]. intros _ _. by rewrite /slot_settled Hu. }
  destruct (slot_view r) as [v|] eqn:Hv; [|by rewrite /slot_view Hu in Hv].
  destruct (slot_of_view s i v Hinv) as (r0 & b & ps & Hi0 & Hb & -> & _ & Hok & Hps); [by eapply slot_view_some|].
  pose proof (in_dyn _ Hinv i r b ps Hi Hb Hv) as [_ Hdyn].
  destruct (rq_status r) eqn:Hst; [done| | |].
  - exists (ds_calls s), (ds_rm s), r. rewrite list_insert_id //. split_and!; [done|done|done|done|]. intros _ [Hn _]. done.
  - destruct (handle_responses_spec i b ps (seq 0 (length (rq_remote_reads r))) s r ret Hinv Hi Hb Hv)
      as (u & r' & -> & Hinv' & Hv' & Hes); [apply Forall_forall; intros j [_ Hj]%elem_of_seq; lia|].
    cbn [lbind]. eexists _, _, r'. split; [done|]. split; [exact Hinv'|]. split; [done|].
    assert (slot_fine r -> Forall (fun e => scr_status e <> READREQ_NULL) (rq_remote_reads r')) as Hfine.
    { intros Hf. specialize (Hf Hst). apply Forall_lookup. intros j e' He'. destruct (Hes j e' He') as [[Hj _]|[_ ->]]; [|done].
      rewrite Forall_lookup in Hf. by apply (Hf j). }
    split; [by intros Hf _; apply Hfine|]. intros Hnf [Hnr Hnn] _. specialize (Hfine Hnn).
    assert (rq_status r' <> READREQ_READY) as Hnr'.
    { intros Hr'. pose proof (in_dyn _ Hinv' i r' b ps) as [He' Hd']; [by eapply upd_lookup|done|by rewrite Hv'|].
      rewrite Hr' in Hd'. destruct Hd' as [Hd' _]. destruct (rq_remote_reads r') as [|e' es'] eqn:Heq.
      - destruct (slot_view_inv r' b ps) as (_ & _ & _ & _ & _ & _ & Hp); [by rewrite Hv'|]. rewrite Heq in Hp. subst ps.
        destruct Hps as [Hall _ _]. simpl in Hall. by destruct (so_some _ Hok).
      - apply Forall_cons in Hd' as [Hd' _], Hfine as [Hf _]. done. }
    apply (settled_of_handled (upd s u i r') i r' b ps); try done; [by eapply upd_lookup|by rewrite Hv'|].
    apply Forall_lookup. intros j e' He'. rewrite Forall_lookup in Hfine. split; [|by apply (Hfine j)].
    destruct (Hes j e' He') as [[Hj Hn]|[? _]]; [|done].
    apply Hn. apply elem_of_seq. pose proof (lookup_lt_Some _ _ _ Hj). lia.
  - destruct (inv_release s i r b ps Hinv Hi Hb Hv Hps Hst) as (rm' & -> & Hsl & Hinv').
    cbn [lbind]. exists (ds_calls s), rm', zero_read_req. done.
Qed.

Lemma process_slots s (slots : list nat) ret :
  inv s -> NoDup slots -> Forall (fun i => (i < length (rm_read_reqs (ds_rm s)))%nat) slots ->
  exists calls rm', process_read_reqs (ds_calls s) (ds_rm s) slots ret = LRet (calls, rm', ret) /\
    inv (RdSys calls rm' (ds_sent s) (ds_replies s) (ds_subs s)) /\
    length (rm_read_reqs rm') = length (rm_read_reqs (ds_rm s)) /\
    (forall i, i ∉ slots -> rm_read_reqs rm' !! i = rm_read_reqs (ds_rm s) !! i) /\
    (forall i r r', rm_read_reqs (ds_rm s) !! i = Some r -> rm_read_reqs rm' !! i = Some r' -> slot_fine r -> slot_fine r') /\
    (forall i r r', i ∈ slots -> rm_read_reqs (ds_rm s) !! i = Some r -> rm_read_reqs rm' !! i = Some r' ->
      (forall d, ~ in_flight s i d) -> slot_started r -> slot_settled r').
Proof.
  revert s. induction slots as [|i slots IH]; intros s Hinv Hnd Hlt.
  { exists (ds_calls s), (ds_rm s). split_and!; [done|by destruct s|done|done|by intros i r r' -> [= ->]|by intros ? ? ? ?%elem_of_nil]. }
  apply NoDup_cons in Hnd as [Hni Hnd]. apply Forall_cons in Hlt as [Hi Hlt].
  apply lookup_lt_is_Some in Hi as [r Hi]. pose proof (lookup_lt_Some _ _ _ Hi) as Hil.
  destruct (process_slot s i r ret Hinv Hi) as (c1 & rm1 & r1 & Hp & Hinv1 & Hs1 & Hf1 & Hset). cbn [process_read_reqs].
  rewrite Hp. cbn [lbind].
  destruct (IH (RdSys c1 rm1 (ds_sent s) (ds_replies s) (ds_subs s))) as (c2 & rm2 & Hp2 & Hinv2 & Hlen & Hout & Hfine & Hin);
    [done|done|cbn [ds_rm]; by rewrite Hs1 length_insert|].
  cbn [ds_calls ds_rm ds_sent ds_replies ds_subs] in *. exists c2, rm2.
  split_and!; [done|done|by rewrite Hlen Hs1 length_insert| | |].
  - intros k Hk. apply not_elem_of_cons in Hk as [Hki Hk]. rewrite Hout // Hs1 list_lookup_insert_ne //.
  - intros k q q' Hq Hq'. destruct (decide (k = i)) as [->|Hne].
    + rewrite Hi in Hq. injection Hq as <-. intros Hf. apply (Hfine i r1 q'); [|done|by apply Hf1].
      by rewrite Hs1 list_lookup_insert_eq.
    + apply (Hfine k q q'); [|done]. by rewrite Hs1 list_lookup_insert_ne.
  - intros k q q' [->|Hk]%elem_of_cons Hq Hq' Hnf Hst.
    + rewrite Hout // Hs1 list_lookup_insert_eq // in Hq'. rewrite Hi in Hq. simplify_eq. by apply Hset.
    + apply (Hin k q q'); [done| |done|done|done]. rewrite Hs1 list_lookup_insert_ne //. by intros ->.
Qed.

Lemma inv_process s :
  inv s ->
  exists calls rm', rm_process_remote_chunk_responses (ds_calls s) (ds_rm s) = LRet (calls, rm', UNIFYFS_SUCCESS) /\
    inv (RdSys calls rm' (ds_sent s) (ds_replies s) (ds_subs s)) /\
    (forall i r r', rm_read_reqs (ds_rm s) !! i = Some r -> rm_read_reqs rm' !! i = Some r' -> slot_fine r -> slot_fine r') /\
    (forall i r r', rm_read_reqs (ds_rm s) !! i = Some r -> rm_read_reqs rm' !! i = Some r' ->
      (forall d, ~ in_flight s i d) -> slot_started r -> slot_settled r').
Proof.
  intros Hinv. pose proof (ro_len _ (in_rm _ Hinv)) as Hlen.
  destruct (process_slots s (seq 0 (Z.to_nat UNIFYFS_SERVER_MAX_READS)) UNIFYFS_SUCCESS Hinv)
    as (calls & rm' & Hp & Hinv' & _ & _ & Hfine & Hin).
  - apply NoDup_seq.
  - apply Forall_forall. intros i [_ Hi]%elem_of_seq. lia.
  - exists calls, rm'. split_and!; [done|done|done|]. intros i r r' Hi. apply Hin; [|done]. apply elem_of_seq.
    pose proof (lookup_lt_Some _ _ _ Hi). lia.
Qed.

(** ** Sending out the requests *)

Definition net_msg (i : nat) r e : chunk_read_request_in :=
  ChunkReadRequestIn (scr_rank e) my_rank app_id client_id (Z.of_nat i) (chunks_size (scr_reqs e)) (scr_reqs e).

Lemma static_send s i r b ps j e :
  inv s -> slot_entry s i r b ps j e -> ~ in_flight s i (scr_rank e) -> scr_rank e <> my_rank ->
  static_inv (views (ds_rm s)) (ds_subs s) (ds_sent s ++ [net_msg i r e]) (ds_replies s).
Proof.
  intros Hinv Hsl Hnf Hne. pose proof (in_static _ Hinv) as [Hsub Hinj Hsubs Hkeys Hse Hre Hnd].
  pose proof (slot_entry_part _ _ _ _ _ _ _ Hsl) as Hp. destruct Hsl as [Hi Hb Hv Hok Hps Hj].
  split; try done.
  - intros msg [?| ->%list_elem_of_singleton]%elem_of_app; [by apply Hse|]. exists i, b, ps.
    split; simpl; try done; [by eapply slot_view_some|]. by eapply list_elem_of_lookup_2.
  - unfold flight in *. rewrite fmap_app -app_assoc. unfold in_flight, flight in Hnf. rewrite elem_of_app in Hnf.
    apply NoDup_app in Hnd as (Hn1 & Hn2 & Hn3). apply NoDup_app. split_and!; [done| |].
    + intros x Hx [->%list_elem_of_singleton|Hx']%elem_of_app; [by apply Hnf; left|by apply (Hn2 x)].
    + apply NoDup_app. split_and!; [apply NoDup_singleton|intros x ->%list_elem_of_singleton|done].
      intros Hx. apply Hnf. by right.
Qed.

Lemma null_entry F t b e :
  entry_dyn F t b e -> scr_status e = READREQ_NULL ->
  scr_resp e = None /\ ~ F (scr_rank e) /\ scr_num_chunks e = Z.of_nat (length (scr_reqs e)) /\
  scr_total_sz e = chunks_size (scr_reqs e).
Proof. unfold entry_dyn. intros He Hst. rewrite Hst in He. by destruct (scr_resp e). Qed.

(** The entry is started: its request is sent, or answered at once. *)
Lemma inv_start s i r b ps j e e' sent :
  inv s -> slot_entry s i r b ps j e -> scr_status e = READREQ_NULL -> rq_status r = READREQ_STARTED ->
  entry_part e' = entry_part e -> scr_status e' = READREQ_STARTED ->
  static_inv (views (ds_rm s)) (ds_subs s) sent (ds_replies s) ->
  (forall x, x <> (Z.of_nat i, scr_rank e) -> x ∈ flight sent (ds_replies s) <-> x ∈ flight (ds_sent s) (ds_replies s)) ->
  entry_dyn (fun rk => (Z.of_nat i, rk) ∈ flight sent (ds_replies s)) (ds_calls s) b e' ->
  inv (RdSys (ds_calls s) (rm_set_slot i (set_remote_reads (<[j := e']> (rq_remote_reads r)) r) (ds_rm s))
         sent (ds_replies s) (ds_subs s)).
Proof.
  intros Hinv Hsl Hnull Hst Hpart Hst' Hstat Hfl Hnew. pose proof Hsl as [Hi Hb Hv Hok Hps Hj].
  rewrite -{1}(app_nil_r (ds_calls s)) set_remote_status. apply (inv_update s i r _ b ps); try done.
  - by eapply slot_view_entry.
  - intros k rk Hne. apply Hfl. intros [= ? _]. lia.
  - pose proof (in_dyn _ Hinv i r b ps Hi Hb Hv) as [He Hd]. rewrite Hst in Hd. destruct Hd as [_ Hdone]. split.
    + apply (entries_set (in_flight s i) _ s i r b ps j e); [done|done| | |].
      * intros rk Hrk. apply Hfl. congruence.
      * intros c _. by rewrite app_nil_r.
      * by rewrite app_nil_r.
    + simpl. rewrite Hst app_nil_r. split; [|done]. apply (all_complete_false _ j e'); [|by rewrite Hst'].
      apply list_lookup_insert_eq. by eapply lookup_lt_Some.
Qed.

Lemma request_one s i r b ps j e m pread crs :
  inv s -> slot_entry s i r b ps j e -> scr_status e = READREQ_NULL -> rq_status r = READREQ_STARTED ->
  mem_plenty m -> pread_full (apps my_rank) pread ->
  let e1 := scr_set_status READREQ_STARTED e in
  let r1 := set_remote_reads (<[j := e1]> (rq_remote_reads r)) r in
  exists m' rm' msgs e', mem_plenty m' /\
    invoke_chunk_read_request_rpc m (apps my_rank) my_rank pread net_ok (rm_set_slot i r1 (ds_rm s)) crs (scr_rank e1) r1 e1 =
      LRet (m', rm', crs, msgs, UNIFYFS_SUCCESS) /\
    rm_read_reqs rm' = <[i := set_remote_reads (<[j := e']> (rq_remote_reads r)) r]> (rm_read_reqs (ds_rm s)) /\
    entry_part e' = entry_part e /\ scr_status e' = READREQ_STARTED /\
    inv (RdSys (ds_calls s) rm' (ds_sent s ++ msgs) (ds_replies s) (ds_subs s)).
Proof.
  intros Hinv Hsl Hnull Hst Hpl Hpr e1 r1. pose proof Hsl as [Hi Hb Hv Hok Hps Hj].
  pose proof (slot_entry_facts _ _ _ _ _ _ _ Hsl) as [Hrk Hch _ _ _ [_ Hsz]].
  pose proof (in_dyn _ Hinv i r b ps Hi Hb Hv) as [He _].
  destruct (null_entry _ _ _ e (proj1 (Forall_lookup _ _) He j e Hj) Hnull) as (Hrs & Hnf & Hnum & Htot).
  destruct (slot_view_inv _ _ _ Hv) as (_ & Ha & Hc & _).
  pose proof (ro_ndx _ (in_rm _ Hinv) i r Hi) as Hndx. rewrite (slot_view_in_use _ _ Hv) in Hndx.
  unfold invoke_chunk_read_request_rpc. cbn [scr_rank scr_num_chunks scr_reqs scr_total_sz e1 scr_set_status r1 rq_app_id
    rq_client_id rq_req_ndx set_remote_reads]. rewrite Hnum Nat2Z.id firstn_all Ha Hc Hndx Htot.
  destruct (scr_rank e =? my_rank) eqn:Hrank; zbool.
  - rewrite Hrank in Hch.
    destruct (sm_issue_spec my_rank pread m (rm_set_slot i r1 (ds_rm s)) crs my_rank app_id client_id (Z.of_nat i)
      (chunks_size (scr_reqs e)) (scr_reqs e)) as (m' & buf & Hpl' & Hgood & Heq); [done..|lia|].
    fold r1 in Heq |- *. rewrite Heq Z.eqb_refl. cbn [negb].
    assert (slot_entry (upd s [] i r1) i r1 b ps j e1) as Hsl1.
    { split; [by eapply upd_lookup|done| |done|done|apply list_lookup_insert_eq; by eapply lookup_lt_Some].
      rewrite -Hv. unfold r1. rewrite set_remote_status. by eapply slot_view_entry. }
    pose proof (rm_post_eq _ _ _ _ _ _ _ (Z.of_nat (length (scr_reqs e))) (bulk_size (scr_reqs e)) buf Hsl1) as Hpost.
    change (scr_rank e1) with (scr_rank e) in Hpost. rewrite Hrank in Hpost. cbn [ds_rm upd] in Hpost. rewrite Hpost. cbn [lbind].
    set (e2 := scr_set_resp _ _ (Some buf) e1). eexists m', _, [], e2. split; [done|]. split; [done|].
    assert (set_remote_reads (<[j := e2]> (rq_remote_reads r1)) r1 = set_remote_reads (<[j := e2]> (rq_remote_reads r)) r) as Hr2.
    { unfold r1, set_remote_reads. simpl. by rewrite list_insert_insert_eq. }
    rewrite Hr2. split_and!; [simpl; by rewrite list_insert_insert_eq|done|done|].
    replace (rm_set_slot i _ (rm_set_slot i r1 (ds_rm s))) with
      (rm_set_slot i (set_remote_reads (<[j := e2]> (rq_remote_reads r)) r) (ds_rm s))
      by (unfold rm_set_slot; simpl; by rewrite list_insert_insert_eq).
    rewrite app_nil_r. apply (inv_start s i r b ps j e e2); try done; [by apply Hinv|].
    unfold entry_dyn. simpl. rewrite Hrank. split_and!; [by rewrite Hrank in Hnf|done..].
  - eexists m, _, [net_msg i r e], e1. split; [done|]. split; [done|]. split_and!; [done|done|done|].
    apply (inv_start s i r b ps j e e1); try done; [by apply (static_send s i r b ps j e)| |].
    + intros x Hx. unfold flight. rewrite fmap_app. rewrite !elem_of_app /=. set_solver.
    + unfold entry_dyn. simpl. rewrite Hrs. unfold flight. rewrite fmap_app. set_solver.
Qed.

Lemma st_update_slot_eq m rm crs sent i r f :
  rm_read_reqs rm !! i = Some r ->
  st_update_slot i f (RmState m rm crs sent) = RmState m (rm_set_slot i (f r) rm) crs sent.
Proof. intros Hi. unfold st_update_slot. simpl. by rewrite (list_alter_insert _ _ _ _ Hi). Qed.

Lemma request_servers_spec i b ps pread js s r m crs ret :
  inv s -> rm_read_reqs (ds_rm s) !! i = Some r -> b ∈ ds_subs s -> slot_view r = Some (sub_view b ps) ->
  rq_status r = READREQ_STARTED -> mem_plenty m -> pread_full (apps my_rank) pread -> NoDup js ->
  Forall (fun j => exists e, rq_remote_reads r !! j = Some e /\ scr_status e = READREQ_NULL) js ->
  exists m' rm' sent' r',
    request_servers (apps my_rank) my_rank pread net_ok i js (RmState m (ds_rm s) crs (ds_sent s)) ret =
      LRet (RmState m' rm' crs sent', ret) /\ mem_plenty m' /\
    inv (RdSys (ds_calls s) rm' sent' (ds_replies s) (ds_subs s)) /\
    rm_read_reqs rm' = <[i := r']> (rm_read_reqs (ds_rm s)) /\ rq_status r' = READREQ_STARTED /\
    (forall j e', rq_remote_reads r' !! j = Some e' ->
      scr_status e' = READREQ_STARTED \/ (~ (j ∈ js) /\ rq_remote_reads r !! j = Some e')).
Proof.
  intros Hinv Hi Hb Hv Hst Hpl Hpr Hnd Hnull. revert s r m Hinv Hi Hb Hv Hst Hpl Hnull.
  induction js as [|j js IH]; intros s r m Hinv Hi Hb Hv Hst Hpl Hnull.
  { exists m, (ds_rm s), (ds_sent s), r. rewrite list_insert_id //.
    split_and!; [done|done|by destruct s|done|done|]. intros j e' He'. right. split; [apply not_elem_of_nil|done]. }
  apply NoDup_cons in Hnd as [Hnj Hnd]. apply Forall_cons in Hnull as [(e & He & Hen) Hnull].
  pose proof (slot_entry_intro s i r b ps j e Hinv Hi Hb Hv He) as Hsl.
  destruct (request_one s i r b ps j e m pread crs Hinv Hsl Hen Hst Hpl Hpr)
    as (m1 & rm1 & msgs & e1 & Hpl1 & Hinvk & Hsl1 & Hpart & Hst1 & Hinv1).
  cbn [request_servers]. rewrite (st_update_slot_eq _ _ _ _ _ _ _ Hi). cbn [st_rm st_mem st_chunk_reads st_sent].
  rewrite (list_alter_insert _ _ _ _ He).
  rewrite {1}/rm_set_slot; cbn [rm_read_reqs]. rewrite list_lookup_insert_eq; [by eapply lookup_lt_Some|]. cbn [lift_option lbind].
  rewrite {1}/set_remote_reads. cbn [rq_remote_reads]. rewrite list_lookup_insert_eq; [by eapply lookup_lt_Some|].
  cbn [lift_option lbind]. rewrite Hinvk. cbn [lbind]. rewrite Z.eqb_refl. cbn [negb].
  set (r1 := set_remote_reads (<[j := e1]> (rq_remote_reads r)) r) in *.
  destruct (IH Hnd (RdSys (ds_calls s) rm1 (ds_sent s ++ msgs) (ds_replies s) (ds_subs s)) r1 m1)
    as (m2 & rm2 & sent2 & r2 & Hr & Hpl2 & Hinv2 & Hsl2 & Hst2 & Hes); cbn [ds_rm ds_subs]; try done.
  - rewrite Hsl1. apply list_lookup_insert_eq. by eapply lookup_lt_Some.
  - rewrite -Hv. unfold r1. rewrite set_remote_status. by eapply slot_view_entry.
  - apply Forall_forall. intros k Hk. rewrite Forall_forall in Hnull. destruct (Hnull k Hk) as (ek & Hek & Hekn).
    exists ek. split; [|done]. unfold r1. simpl. rewrite list_lookup_insert_ne //. by intros ->.
  - cbn [ds_calls ds_rm ds_sent ds_replies ds_subs] in *. exists m2, rm2, sent2, r2.
    split_and!; [done|done|done|by rewrite Hsl2 Hsl1 list_insert_insert_eq|done|].
    intros k e' Hk. destruct (Hes k e' Hk) as [?|[Hnk Hk']]; [by left|]. unfold r1 in Hk'. simpl in Hk'.
    apply list_lookup_insert_Some in Hk' as [(<- & <- & _)|[Hne Hk']]; [by left|right].
    split; [|done]. apply not_elem_of_cons. by split; [apply not_eq_sym|].
Qed.

(** *** The loop over the slots *)

Lemma inv_ready_started s i r b ps :
  inv s -> rm_read_reqs (ds_rm s) !! i = Some r -> b ∈ ds_subs s -> slot_view r = Some (sub_view b ps) ->
  rq_status r = READREQ_READY ->
  inv (RdSys (ds_calls s) (rm_set_slot i (set_rq_status READREQ_STARTED r) (ds_rm s)) (ds_sent s) (ds_replies s) (ds_subs s)).
Proof.
  intros Hinv Hi Hb Hv Hst. rewrite -{1}(app_nil_r (ds_calls s)). apply (inv_update s i r _ b ps); try done; [by apply Hinv|].
  rewrite app_nil_r. pose proof (in_dyn _ Hinv i r b ps Hi Hb Hv) as [He Hd]. rewrite Hst in Hd. destruct Hd as [Hn Hdone].
  split; [done|]. simpl. split; [|done].
  destruct (slot_of_view s i (sub_view b ps) Hinv) as (r0 & b0 & ps0 & Hi0 & _ & Heq & _ & Hok & Hps); [by eapply slot_view_some|].
  injection Heq as _ _ _ <-. destruct (slot_view_inv _ _ _ Hv) as (_ & _ & _ & _ & _ & _ & Hp).
  destruct (rq_remote_reads r) as [|e es].
  - exfalso. subst ps. destruct Hps as [Hall _ _]. simpl in Hall. by destruct (so_some _ Hok).
  - apply (all_complete_false _ 0 e); [done|]. apply Forall_cons in Hn as [-> _]. done.
Qed.

Lemma request_slot_spec s i r m pread crs ret :
  inv s -> rm_read_reqs (ds_rm s) !! i = Some r -> mem_plenty m -> pread_full (apps my_rank) pread ->
  exists m' rm' sent' r',
    request_slot (apps my_rank) my_rank pread net_ok (RmState m (ds_rm s) crs (ds_sent s)) i ret =
      LRet (RmState m' rm' crs sent', ret) /\ mem_plenty m' /\
    inv (RdSys (ds_calls s) rm' sent' (ds_replies s) (ds_subs s)) /\
    rm_read_reqs rm' = <[i := r']> (rm_read_reqs (ds_rm s)) /\
    (slot_started r' \/ r' = r /\ rq_status r <> READREQ_READY).
Proof.
  intros Hinv Hi Hpl Hpr. unfold request_slot. cbn [st_rm]. rewrite Hi. cbn [lift_option lbind].
  assert (inv (RdSys (ds_calls s) (ds_rm s) (ds_sent s) (ds_replies s) (ds_subs s))) as Hid by (by destruct s).
  destruct (rq_in_use r) eqn:Hu; cbn [negb].
  2:{ exists m, (ds_rm s), (ds_sent s), r. rewrite list_insert_id //. split_and!; try done. right. split; [done|].
      pose proof (ro_ndx _ (in_rm _ Hinv) i r Hi) as Hr. rewrite Hu in Hr. by subst r. }
  case_bool_decide as Hst.
  2:{ exists m, (ds_rm s), (ds_sent s), r. rewrite list_insert_id //. split_and!; try done. by right. }
  destruct (slot_view r) as [v|] eqn:Hv; [|by rewrite /slot_view Hu in Hv].
  destruct (slot_of_view s i v Hinv) as (r0 & b & ps & Hi0 & Hb & -> & _ & Hok & Hps); [by eapply slot_view_some|].
  pose proof (in_dyn _ Hinv i r b ps Hi Hb Hv) as [_ Hd]. rewrite Hst in Hd. destruct Hd as [Hnull _].
  rewrite (st_update_slot_eq _ _ _ _ _ _ _ Hi). set (r1 := set_rq_status READREQ_STARTED r).
  pose proof (inv_ready_started s i r b ps Hinv Hi Hb Hv Hst) as Hinv1. fold r1 in Hinv1.
  destruct (request_servers_spec i b ps pread (seq 0 (length (rq_remote_reads r))) _ r1 m crs ret Hinv1)
    as (m' & rm' & sent' & r' & Hr & Hpl' & Hinv' & Hsl & Hst' & Hes); cbn [ds_rm ds_subs]; try done.
  - simpl. apply list_lookup_insert_eq. by eapply lookup_lt_Some.
  - apply NoDup_seq.
  - apply Forall_forall. intros j [_ Hj]%elem_of_seq. simpl in Hj. apply lookup_lt_is_Some in Hj as [e He].
    exists e. split; [done|]. rewrite Forall_lookup in Hnull. by apply (Hnull j).
  - cbn [ds_calls ds_rm ds_sent ds_replies ds_subs] in *. exists m', rm', sent', r'.
    split_and!; [exact Hr|done|done|by rewrite Hsl /= list_insert_insert_eq|left].
    split; [by rewrite Hst'|]. intros _. apply Forall_lookup. intros j e' He'.
    destruct (Hes j e' He') as [->|[Hj He]]; [done|]. destruct Hj. apply elem_of_seq.
    pose proof (lookup_lt_Some _ _ _ He) as Hlt. simpl in Hlt. lia.
Qed.

Lemma request_slots_spec pread slots s m crs ret :
  inv s -> mem_plenty m -> pread_full (apps my_rank) pread -> NoDup slots ->
  Forall (fun i => (i < length (rm_read_reqs (ds_rm s)))%nat) slots ->
  exists m' rm' sent',
    request_slots (apps my_rank) my_rank pread net_ok (RmState m (ds_rm s) crs (ds_sent s)) slots ret =
      LRet (RmState m' rm' crs sent', ret) /\ mem_plenty m' /\
    inv (RdSys (ds_calls s) rm' sent' (ds_replies s) (ds_subs s)) /\
    length (rm_read_reqs rm') = length (rm_read_reqs (ds_rm s)) /\
    (forall i r', rm_read_reqs rm' !! i = Some r' ->
      (exists r, rm_read_reqs (ds_rm s) !! i = Some r /\ (slot_started r' \/ r' = r /\ (i ∈ slots -> rq_status r <> READREQ_READY)))).
Proof.
  intros Hinv Hpl Hpr Hnd Hlt. revert s m Hinv Hpl Hlt. induction slots as [|i slots IH]; intros s m Hinv Hpl Hlt.
  { exists m, (ds_rm s), (ds_sent s). split_and!; [done|done|by destruct s|done|]. intros i r' Hi. exists r'. split; [done|].
    right. split; [done|]. by intros ?%elem_of_nil. }
  apply NoDup_cons in Hnd as [Hni Hnd]. apply Forall_cons in Hlt as [Hi Hlt]. apply lookup_lt_is_Some in Hi as [r Hi].
  destruct (request_slot_spec s i r m pread crs ret Hinv Hi Hpl Hpr) as (m1 & rm1 & sent1 & r1 & Hr & Hpl1 & Hinv1 & Hsl1 & Hst1).
  cbn [request_slots]. rewrite Hr. cbn [lbind].
  destruct (IH Hnd (RdSys (ds_calls s) rm1 sent1 (ds_replies s) (ds_subs s)) m1) as (m2 & rm2 & sent2 & Hr2 & Hpl2 & Hinv2 & Hlen & Hes);
    [done|done|cbn [ds_rm]; by rewrite Hsl1 length_insert|].
  cbn [ds_calls ds_rm ds_sent ds_replies ds_subs] in *. exists m2, rm2, sent2.
  split_and!; [done|done|done|by rewrite Hlen Hsl1 length_insert|].
  intros k r' Hk. destruct (Hes k r' Hk) as (q & Hq & Hcase). rewrite Hsl1 in Hq.
  apply list_lookup_insert_Some in Hq as [(<- & <- & _)|[Hne Hq]].
  - exists r. split; [done|]. destruct Hcase as [?|[-> _]]; [by left|]. destruct Hst1 as [?|[-> ?]]; [by left|right]. done.
  - exists q. split; [done|]. destruct Hcase as [?|[-> Hn]]; [by left|right]. split; [done|].
    intros [->|?]%elem_of_cons; [done|by apply Hn].
Qed.

Lemma inv_request s m pread :
  inv s -> mem_plenty m -> pread_full (apps my_rank) pread ->
  exists m' rm' sent',
    rm_request_remote_chunks (apps my_rank) my_rank pread net_ok (RmState m (ds_rm s) [] (ds_sent s)) =
      LRet (RmState m' rm' [] sent', UNIFYFS_SUCCESS) /\
    inv (RdSys (ds_calls s) rm' sent' (ds_replies s) (ds_subs s)) /\
    (forall i r', rm_read_reqs rm' !! i = Some r' ->
      (exists r, rm_read_reqs (ds_rm s) !! i = Some r /\ (slot_started r' \/ r' = r /\ rq_status r <> READREQ_READY))).
Proof.
  intros Hinv Hpl Hpr. pose proof (ro_len _ (in_rm _ Hinv)) as Hlen.
  destruct (request_slots_spec pread (seq 0 (Z.to_nat UNIFYFS_SERVER_MAX_READS)) s m [] UNIFYFS_SUCCESS Hinv Hpl Hpr)
    as (m' & rm' & sent' & Hr & _ & Hinv' & Hlen' & Hes).
  - apply NoDup_seq.
  - apply Forall_forall. intros i [_ Hi]%elem_of_seq. lia.
  - exists m', rm', sent'. split_and!; [done|done|]. intros i r' Hi. destruct (Hes i r' Hi) as (r & Hri & Hc).
    exists r. split; [done|]. destruct Hc as [?|[-> Hc]]; [by left|right]. split; [done|]. apply Hc, elem_of_seq.
    pose proof (lookup_lt_Some _ _ _ Hri). lia.
Qed.

(** The invariant between the steps. *)
Definition step_inv (s : rd_sys) : Prop :=
  inv s /\ (forall i r, rm_read_reqs (ds_rm s) !! i = Some r -> slot_fine r).

Lemma step_inv_init : step_inv rd_init.
Proof.
  assert (forall i r, rm_read_reqs reqmgr_init !! i = Some r -> r = zero_read_req) as Hz.
  { intros i r Hr. by apply lookup_replicate in Hr as [-> _]. }
  assert (forall i v, views reqmgr_init !! i <> Some (Some v)) as Hn.
  { intros i v Hv. unfold views in Hv. rewrite list_lookup_fmap in Hv.
    destruct (rm_read_reqs reqmgr_init !! i) as [r|] eqn:Hr; [|done]. by rewrite (Hz i r Hr) in Hv. }
  split; [|intros i r Hr; rewrite (Hz i r Hr); done].
  split; cbn [ds_calls ds_rm ds_sent ds_replies ds_subs rd_init].
  - apply reqmgr_init_ok.
  - split; try (intros; by edestruct Hn); try (intros; by edestruct (elem_of_nil)); try constructor;
      intros; exfalso; by eapply not_elem_of_nil.
  - intros i r b ps Hi _ Hv. by rewrite (Hz i r Hi) in Hv.
  - by intros b ?%elem_of_nil.
  - done.
  - constructor.
Qed.

(** *** Submitting *)

Lemma grouped_parts b gs :
  sub_ok b -> grouped (sb_chunks b) gs -> StronglySorted Z.lt (scr_rank <$> gs) -> parts_ok b (entry_part <$> gs).
Proof.
  intros Hok [Hall Hgrp _] Hs. split.
  - rewrite -Hall -list_fmap_compose. done.
  - apply Forall_fmap. eapply Forall_impl; [exact Hgrp|]. intros g [Hr _ _ Hne]. done.
  - rewrite -list_fmap_compose. change (NoDup (scr_rank <$> gs)). clear -Hs. induction Hs as [|x l _ IH Hx]; [constructor|].
    constructor; [|done]. intros Hin. rewrite Forall_forall in Hx. specialize (Hx x Hin). lia.
Qed.

Definition new_request b (i : nat) (gs : list server_chunk_reads) : server_read_req :=
  ServerReadReq READREQ_READY true (Z.of_nat i) app_id client_id (sb_mread b) (sb_ndx b)
    (scr_set_rdreq (Z.of_nat i) <$> gs) (sb_ext b).

Lemma submit_eq rm b gs :
  rm_ok rm ->
  (num_in_use (rm_read_reqs rm) = UNIFYFS_SERVER_MAX_READS /\
   rm_submit_read_request (apps my_rank) rm app_id client_id (sb_mread b) (sb_ndx b) gs (sb_ext b) = LRet (rm, None, UNIFYFS_FAILURE)) \/
  (exists rm' i, rm_submit_read_request (apps my_rank) rm app_id client_id (sb_mread b) (sb_ndx b) gs (sb_ext b) =
      LRet (rm', Some i, UNIFYFS_SUCCESS) /\ rm_ok rm' /\ rm_read_reqs rm !! i = Some zero_read_req /\
    rm_read_reqs rm' = <[i := new_request b i gs]> (rm_read_reqs rm)).
Proof.
  intros Hok. unfold rm_submit_read_request. destruct (get_app_client _ _ _); [|done].
  destruct (rm_reserve_spec rm Hok) as [[Hf ->]|(rm1 & i & Hlt & -> & Hok1 & Hi & Hsl)]; [by left|right].
  cbn [lbind]. assert (rm_read_reqs rm1 !! i = Some (rdreq_reserve (Z.of_nat i) zero_read_req)) as Hi1.
  { rewrite Hsl. apply list_lookup_insert_eq. by eapply lookup_lt_Some. }
  rewrite Hi1. cbn [lift_option lbind]. eexists _, i. split; [done|]. split_and!; [|done|].
  - by apply (rm_set_slot_ok rm1 i (rdreq_reserve (Z.of_nat i) zero_read_req)).
  - simpl. by rewrite Hsl list_insert_insert_eq.
Qed.

Lemma static_submit vs subs sent replies i b ps :
  static_inv vs subs sent replies -> vs !! i = Some None -> sub_ok b -> sub_key b ∉ sub_key <$> subs -> parts_ok b ps ->
  static_inv (<[i := Some (sub_view b ps)]> vs) (b :: subs) sent replies.
Proof.
  intros [Hsub Hinj Hsubs Hkeys Hse Hre Hnd] Hi Hok Hfr Hps.
  assert (forall k b' qs, vs !! k = Some (Some (sub_view b' qs)) -> sub_key b' <> sub_key b) as Hold.
  { intros k b' qs Hk Heq. destruct (Hsub k _ Hk) as (b0 & ps0 & Hb0 & Hv & _). injection Hv as E1 E2 E3 E4.
    apply Hfr. rewrite -Heq. replace (sub_key b') with (sub_key b0) by (unfold sub_key; congruence). by apply list_elem_of_fmap_2. }
  assert (forall k v, vs !! k = Some (Some v) -> <[i := Some (sub_view b ps)]> vs !! k = Some (Some v)) as Hk'.
  { intros k v Hk. rewrite list_lookup_insert_ne //. intros ->. congruence. }
  split; try done.
  - intros k v [(<- & [= <-] & _)|[_ Hk]]%list_lookup_insert_Some; [exists b, ps; split; [by left|done]|].
    destruct (Hsub k v Hk) as (b0 & ps0 & Hb0 & ? & ?). exists b0, ps0. split; [by right|done].
  - intros k j b' qs rs [(<- & [= E1 E2 _ _] & _)|[Hk1 Hk]]%list_lookup_insert_Some
      [(<- & [= F1 F2 _ _] & _)|[Hj1 Hj]]%list_lookup_insert_Some; [done| | |by apply (Hinj k j b' qs rs)].
    + destruct (Hold j b' rs Hj). unfold sub_key. congruence.
    + destruct (Hold k b' qs Hk). unfold sub_key. congruence.
  - by constructor.
  - rewrite fmap_cons. by constructor.
  - intros msg (k & b' & qs & [H1 H2 H3 H4 H5 H6 H7])%Hse. exists k, b', qs. split; try done. by apply Hk'.
  - intros src scr (k & b' & qs & cs & [H1 H2 H3 H4 H5 H6 H7])%Hre. exists k, b', qs, cs. split; try done. by apply Hk'.
Qed.

(** A message on its way is for a slot in use. *)
Lemma flight_slot vs subs sent replies i d :
  static_inv vs subs sent replies -> (Z.of_nat i, d) ∈ flight sent replies -> exists b ps, vs !! i = Some (Some (sub_view b ps)).
Proof.
  intros Hst [(msg & Heq & Hm)%list_elem_of_fmap|([src scr] & Heq & Hm)%list_elem_of_fmap]%elem_of_app.
  - destruct (vi_sent _ _ _ _ Hst msg Hm) as (k & b & ps & [H1 _ H3 _ _ _ _]). injection Heq as E _.
    exists b, ps. by replace i with k by lia.
  - destruct (vi_replies _ _ _ _ Hst src scr Hm) as (k & b & ps & cs & [H1 _ H3 _ _ _ _]). injection Heq as E _.
    exists b, ps. simpl in E. by replace i with k by lia.
Qed.

Lemma new_request_view b i gs : slot_view (new_request b i gs) = Some (sub_view b (entry_part <$> gs)).
Proof. unfold slot_view, new_request, sub_view. simpl. by rewrite -list_fmap_compose. Qed.

Lemma new_request_dyn (F : Z -> Prop) t b i gs :
  sub_ok b -> grouped (sb_chunks b) gs -> parts_ok b (entry_part <$> gs) ->
  (forall rk, ~ F rk) -> sub_done t b = [] -> slot_dyn F t b (new_request b i gs).
Proof.
  intros Hok [Hall Hgrp Hfr] Hps HF Hd. split; [|split; [|done]]; cbn [new_request rq_remote_reads]; apply Forall_fmap, Forall_forall.
  - intros g Hg. rewrite !Forall_forall in Hgrp, Hfr. destruct (Hgrp g Hg) as [_ Hn Hs _], (Hfr g Hg) as [H1 H2].
    simpl. unfold entry_dyn. simpl. rewrite H1 H2. split_and!; [by apply HF|done|]. rewrite Hs. apply u64_small.
    assert (part_facts b (scr_rank g) (scr_reqs g)) as [_ _ _ _ _ [_ Hb]]; [|done].
    apply (part_facts_intro b (entry_part <$> gs)); [done|done|]. by apply (list_elem_of_fmap_2 entry_part).
  - intros g Hg. rewrite Forall_forall in Hfr. simpl. by destruct (Hfr g Hg).
Qed.

Lemma inv_submit s b rm' i gs :
  inv s -> sub_ok b -> sub_key b ∉ sub_key <$> ds_subs s -> grouped (sb_chunks b) gs -> parts_ok b (entry_part <$> gs) ->
  rm_ok rm' -> rm_read_reqs (ds_rm s) !! i = Some zero_read_req ->
  rm_read_reqs rm' = <[i := new_request b i gs]> (rm_read_reqs (ds_rm s)) ->
  inv (RdSys (ds_calls s) rm' (ds_sent s) (ds_replies s) (b :: ds_subs s)).
Proof.
  intros Hinv Hok Hfr Hgr Hps Hrm Hi Hsl. pose proof (in_static _ Hinv) as Hst.
  assert (views rm' = <[i := Some (sub_view b (entry_part <$> gs))]> (views (ds_rm s))) as Hvs.
  { unfold views. by rewrite Hsl list_fmap_insert new_request_view. }
  assert (views (ds_rm s) !! i = Some None) as Hvi by (unfold views; by rewrite list_lookup_fmap Hi).
  pose proof (static_submit _ _ _ _ i b _ Hst Hvi Hok Hfr Hps) as Hst'. rewrite -Hvs in Hst'.
  split; cbn [ds_calls ds_rm ds_sent ds_replies ds_subs]; [done|done| | | |].
  - intros k r b' ps. rewrite Hsl. intros [(<- & <- & _)|[Hne Hk]]%list_lookup_insert_Some Hb' Hv.
    + rewrite new_request_view in Hv. injection Hv as E1 E2 E3 _.
      assert (b' = b) as -> by (apply (fmap_NoDup_inj sub_key (b :: ds_subs s)); [apply Hst'|done|by left|]; unfold sub_key; congruence).
      apply new_request_dyn; try done.
      * intros rk Hrk. destruct (flight_slot _ _ _ _ i rk Hst Hrk) as (b0 & ps0 & ?). congruence.
      * unfold sub_done. by apply (in_fresh _ Hinv).
    + destruct (vi_sub _ _ _ _ Hst k _ (slot_view_some _ _ _ _ Hk Hv)) as (b0 & ps0 & Hb0 & Heq & _). injection Heq as E1 E2 E3 _.
      assert (b' = b0) as -> by (apply (fmap_NoDup_inj sub_key (b :: ds_subs s)); [apply Hst'|done|by right|]; unfold sub_key; congruence).
      by apply (in_dyn _ Hinv k r b0 ps).
  - intros b' [->|Hb']%elem_of_cons.
    + left. exists i, (entry_part <$> gs). rewrite Hvs. apply list_lookup_insert_eq. by eapply lookup_lt_Some.
    + destruct (in_done _ Hinv b' Hb') as [(k & ps & Hk)|?]; [left|by right]. exists k, ps. rewrite Hvs list_lookup_insert_ne //.
      intros ->. congruence.
  - intros m n Hmn. apply (in_fresh _ Hinv). rewrite fmap_cons in Hmn. by apply not_elem_of_cons in Hmn as [_ ?].
  - eapply Forall_impl; [apply (in_calls _ Hinv)|]. intros k (b' & Hb' & Hk). exists b'. split; [by right|done].
Qed.

(** *** Serving and responding *)

Lemma elem_of_split_iff {A} (l1 l2 : list A) x y : y ∈ l1 ++ x :: l2 <-> y = x \/ y ∈ l1 ++ l2.
Proof. rewrite !elem_of_app elem_of_cons. tauto. Qed.

Lemma flight_serve l1 msg l2 replies scr :
  scr_rdreq_id scr = ci_req_id msg ->
  Permutation (flight (l1 ++ l2) (replies ++ [(ci_dst msg, scr)])) (flight (l1 ++ msg :: l2) replies).
Proof.
  intros Heq. unfold flight. rewrite !fmap_app fmap_cons /= Heq. solve_Permutation.
Qed.

Lemma inv_serve s l1 msg l2 m pread rm :
  inv s -> ds_sent s = l1 ++ msg :: l2 -> mem_plenty m -> pread_full (apps (ci_dst msg)) pread ->
  exists m' rm' scrs rc,
    sm_issue_chunk_reads m (apps (ci_dst msg)) (ci_dst msg) pread rm [] (ci_src_rank msg) (ci_app_id msg)
      (ci_client_id msg) (ci_req_id msg) (ci_total_data_size msg) (ci_reqs msg) = LRet (m', rm', scrs, rc) /\
    inv (RdSys (ds_calls s) (ds_rm s) (l1 ++ l2) (ds_replies s ++ (pair (ci_dst msg) <$> scrs)) (ds_subs s)).
Proof.
  intros Hinv Hse Hpl Hpr. pose proof (in_static _ Hinv) as Hst.
  destruct (vi_sent _ _ _ _ Hst msg) as (i & b & ps & [H1 H2 H3 H4 H5 [H6 H7] H8]); [rewrite Hse; set_solver|].
  destruct (entry_of_part s i b ps (ci_dst msg) (ci_reqs msg) Hinv H1 H2) as (r & b0 & j & e & Hsl & Hvw & Hpart).
  pose proof (slot_entry_facts _ _ _ _ _ _ _ Hsl) as [_ Hch _ _ _ [_ Hsz]]. unfold entry_part in Hpart.
  injection Hpart as Hrk Hcs. rewrite Hrk Hcs in Hch. rewrite Hcs in Hsz.
  destruct (sm_issue_spec (ci_dst msg) pread m rm [] (ci_src_rank msg) (ci_app_id msg) (ci_client_id msg) (ci_req_id msg)
    (ci_total_data_size msg) (ci_reqs msg)) as (m' & buf & _ & Hgood & Heq); [done|done|done|done|lia|].
  rewrite Heq H4 (proj2 (Z.eqb_neq my_rank (ci_dst msg))); [done|]. cbn [negb app].
  eexists _, _, _, _. split; [done|]. cbn [fmap list_fmap].
  set (scr := ServerChunkReads _ _ _ _ _ _ _ _ _).
  pose proof (flight_serve l1 msg l2 (ds_replies s) scr eq_refl) as Hperm.
  rewrite -Hse in Hperm. apply (inv_msgs s); [done| |intros x; by rewrite Hperm].
  destruct Hst as [Hsub Hinj Hsubs Hkeys Hs Hr Hnd]. split; try done.
  - intros msg' Hm. apply Hs. rewrite Hse. set_solver.
  - intros src scr' [?|[= -> ->]%list_elem_of_singleton]%elem_of_app; [by apply Hr|]. exists i, b, ps, (ci_reqs msg).
    split; try done. by exists buf.
  - by rewrite Hperm.
Qed.

Lemma inv_respond_step s l1 src scr l2 buf :
  inv s -> ds_replies s = l1 ++ (src, scr) :: l2 -> scr_resp scr = Some buf ->
  exists rm', rm_post_chunk_read_responses (apps my_rank) (ds_rm s) (scr_app_id scr) (scr_client_id scr) src
      (scr_rdreq_id scr) (scr_num_chunks scr) (scr_total_sz scr) buf = LRet (rm', UNIFYFS_SUCCESS) /\
    (forall k r', rm_read_reqs rm' !! k = Some r' ->
      exists r, rm_read_reqs (ds_rm s) !! k = Some r /\ (slot_fine r -> slot_fine r')) /\
    inv (RdSys (ds_calls s) rm' (ds_sent s) (l1 ++ l2) (ds_subs s)).
Proof.
  intros Hinv Hre Hrs. pose proof (in_static _ Hinv) as Hst.
  destruct (vi_replies _ _ _ _ Hst src scr) as (i & b & ps & cs & [H1 H2 H3 [H4 H5] H6 H7 (buf' & H8 & Hgood)]);
    [rewrite Hre; set_solver|]. assert (buf' = buf) as -> by congruence.
  destruct (entry_of_part s i b ps src cs Hinv H1 H2) as (r & b0 & j & e & Hsl & _ & Hpart). injection Hpart as <- <-.
  assert (Permutation ((Z.of_nat i, scr_rank e) :: flight (ds_sent s) (l1 ++ l2)) (flight (ds_sent s) (ds_replies s))) as Hperm.
  { rewrite Hre. unfold flight. rewrite !fmap_app fmap_cons /= H3. solve_Permutation. }
  pose proof (vi_flight _ _ _ _ Hst) as Hnd. rewrite -Hperm in Hnd. apply NoDup_cons in Hnd as [Hni Hnd].
  rewrite H3 H4 H5. apply (inv_respond s i r b0 ps j e); try done.
  - unfold in_flight. rewrite -Hperm. by left.
  - destruct Hst as [Hsub Hinj Hsubs Hkeys Hs Hr _]. split; try done. intros src' scr' Hm. apply Hr. rewrite Hre. set_solver.
  - intros x. rewrite -Hperm elem_of_cons. split; [|tauto]. intros Hx. split; [by right|]. by intros ->.
Qed.

(** ** The steps *)

Lemma step_inv_step s s' : step_inv s -> rd_step s s' -> step_inv s'.
Proof.
  intros [Hinv Hfine] Hstep. destruct Hstep as
    [s b m m' gs rm' i Hok Hfr Hpl Hgs Hsub|s m pread st rc Hpl Hpr Hreq|s l1 msg l2 m pread rm m' rm' scrs rc Hse Hpl Hpr Hiss
    |s l1 src scr l2 buf rm' rc Hre Hrs Hpost|s calls rm' rc Hproc].
  - destruct (create_remote_reads_spec m (sb_chunks b) Hpl (so_rank _ Hok)) as (m1 & gs1 & Hgs1 & _ & Hgr & Hsort).
    rewrite Hgs in Hgs1. injection Hgs1 as _ <-. pose proof (grouped_parts b gs Hok Hgr (Hsort (so_sorted _ Hok))) as Hps.
    destruct (submit_eq (ds_rm s) b gs (in_rm _ Hinv)) as [[_ Heq]|(rm1 & i1 & Heq & Hrm & Hi & Hsl)]; rewrite Hsub in Heq; [done|].
    injection Heq as <- <-. split; [by apply (inv_submit s b rm' i gs)|]. cbn [ds_rm]. rewrite Hsl.
    intros k r [(<- & <- & _)|[_ Hk]]%list_lookup_insert_Some; [done|by apply (Hfine k)].
  - destruct (inv_request s m pread Hinv Hpl Hpr) as (m1 & rm1 & sent1 & Heq & Hinv1 & Hes). rewrite Hreq in Heq.
    injection Heq as -> ->. cbn [st_rm st_sent st_chunk_reads fmap list_fmap]. rewrite app_nil_r. split; [done|].
    intros k r' Hk. destruct (Hes k r' Hk) as (r & Hr & [[_ ?]|[-> _]]); [done|by apply (Hfine k)].
  - destruct (inv_serve s l1 msg l2 m pread rm Hinv Hse Hpl Hpr) as (m1 & rm1 & scrs1 & rc1 & Heq & Hinv1).
    rewrite Hiss in Heq. injection Heq as _ _ -> _. done.
  - destruct (inv_respond_step s l1 src scr l2 buf Hinv Hre Hrs) as (rm1 & Heq & Hf & Hinv1). rewrite Hpost in Heq.
    injection Heq as -> _. split; [done|]. intros k r' Hk. destruct (Hf k r' Hk) as (r & Hr & Himp). by apply Himp, (Hfine k).
  - destruct (inv_process s Hinv) as (calls1 & rm1 & Heq & Hinv1 & Hf & _). rewrite Hproc in Heq. injection Heq as -> -> _.
    split; [done|]. intros k r' Hk. cbn [ds_rm] in Hk.
    assert (is_Some (rm_read_reqs (ds_rm s) !! k)) as [r Hr].
    { apply lookup_lt_is_Some. apply lookup_lt_Some in Hk. pose proof (ro_len _ (in_rm _ Hinv)).
      pose proof (ro_len _ (in_rm _ Hinv1)). simpl in *. lia. }
    by apply (Hf k r r'), (Hfine k).
Qed.

Lemma reach_inv s : rd_reach s -> step_inv s.
Proof.
  unfold rd_reach. intros H. remember rd_init as s0 eqn:H0. revert H0.
  assert (step_inv rd_init) as Hi by apply step_inv_init. intros ->.
  induction H as [|x y z Hxy _ IH]; [done|]. apply IH. by eapply step_inv_step.
Qed.

(** ** What the client gets *)

Lemma done_finished s b : inv s -> b ∈ ds_subs s -> sub_done (ds_calls s) b <> [] -> finished (ds_calls s) b.
Proof.
  intros Hinv Hb Hd. destruct (in_done _ Hinv b Hb) as [(i & ps & Hv)|?]; [|done].
  destruct (slot_of_view s i _ Hinv Hv) as (r & b0 & ps0 & Hi & Hb0 & Heq & Hr & Hok & Hps). injection Heq as E1 E2 E3 <-.
  assert (b0 = b) as -> by (apply (fmap_NoDup_inj sub_key (ds_subs s)); [apply Hinv|done|done|]; unfold sub_key; congruence).
  pose proof (in_dyn _ Hinv i r b ps Hi Hb Hr) as [_ Hst]. destruct (rq_status r) eqn:Hs; [done|by destruct Hst|by destruct Hst|].
  by apply (complete_finished s i b ps r).
Qed.

Lemma chunk_byte_log rank base c ctx k :
  chunk_log (apps rank) c = Some ctx -> 0 <= k < cr_nbytes c ->
  chunk_byte (apps rank) base c (cr_offset c - base + k) = Some (log_view ctx (cr_log_offset c + k)).
Proof.
  intros Hl Hk. unfold chunk_byte, chunk_data. rewrite Hl. unfold region_read.
  rewrite (list_lookup_fmap _ (seqZ _ _)) lookup_seqZ_lt; [lia|]. simpl. do 2 f_equal. lia.
Qed.

(** ** Progress *)

Definition full_pread (rank : Z) (c : chunk_read_req) : io_result :=
  match chunk_log (apps rank) c with
  | Some ctx => inl (cr_nbytes c - log_in_mem (cr_log_offset c) (cr_nbytes c) (logio_mem_size ctx))
  | None => inl 0
  end.

Lemma full_pread_full rank : pread_full (apps rank) (full_pread rank).
Proof. intros c ctx Hl. unfold full_pread. by rewrite Hl. Qed.

Lemma serve_all n s :
  step_inv s -> length (ds_sent s) = n ->
  exists s', rtc rd_step s s' /\ step_inv s' /\ ds_sent s' = [] /\ ds_subs s' = ds_subs s /\ ds_rm s' = ds_rm s.
Proof.
  revert s. induction n as [|n IH]; intros s Hinv Hn.
  { exists s. split_and!; [apply rtc_refl|done|by apply nil_length_inv|done|done]. }
  destruct (ds_sent s) as [|msg l2] eqn:Hse; [done|].
  destruct (inv_serve s [] msg l2 (Mem 0 []) (full_pread (ci_dst msg)) reqmgr_init (proj1 Hinv) Hse (mem_plenty_nil 0)
    (full_pread_full _)) as (m' & rm' & scrs & rc & Heq & _).
  assert (rd_step s (RdSys (ds_calls s) (ds_rm s) ([] ++ l2) (ds_replies s ++ (pair (ci_dst msg) <$> scrs)) (ds_subs s))) as Hstep
    by (eapply rd_serve; [exact Hse|apply (mem_plenty_nil 0)|apply full_pread_full|exact Heq]).
  destruct (IH _ (step_inv_step _ _ Hinv Hstep)) as (s' & Hr & H1 & H2 & H3 & H4); [simpl in Hn |- *; lia|].
  exists s'. split_and!; [by eapply rtc_l|done|done|done|done].
Qed.

Lemma respond_all n s :
  step_inv s -> length (ds_replies s) = n ->
  exists s', rtc rd_step s s' /\ step_inv s' /\ ds_replies s' = [] /\ ds_sent s' = ds_sent s /\ ds_subs s' = ds_subs s /\
    (forall i r', rm_read_reqs (ds_rm s') !! i = Some r' -> exists r, rm_read_reqs (ds_rm s) !! i = Some r /\
      rq_status r' = rq_status r).
Proof.
  revert s. induction n as [|n IH]; intros s Hinv Hn.
  { exists s. split_and!; [apply rtc_refl|done|by apply nil_length_inv|done|done|eauto]. }
  destruct (ds_replies s) as [|[src scr] l2] eqn:Hre; [done|].
  destruct (vi_replies _ _ _ _ (in_static _ (proj1 Hinv)) src scr) as (i & b & ps & cs & [H1 H2 H3 [H4 H5] H6 H7 (buf & Hrs & _)]);
    [rewrite Hre; by left|].
  destruct (inv_respond_step s [] src scr l2 buf (proj1 Hinv) Hre Hrs) as (rm' & Heq & _).
  assert (rd_step s (RdSys (ds_calls s) rm' (ds_sent s) ([] ++ l2) (ds_subs s))) as Hstep
    by (by eapply rd_respond).
  destruct (IH _ (step_inv_step _ _ Hinv Hstep)) as (s' & Hr & Hi' & Hr' & Hs' & Hsub & Hst); [simpl in Hn |- *; lia|].
  exists s'. split_and!; [by eapply rtc_l|done|done|done|done|].
  intros k r' Hk. destruct (Hst k r' Hk) as (r & Hk' & ->). cbn [ds_rm] in Hk'.
  destruct (entry_of_part s i b ps src cs (proj1 Hinv) H1 H2) as (r0 & b0 & j & e & Hsl & _ & Hpart). injection Hpart as <- <-.
  rewrite H3 H4 H5 (rm_post_eq s i r0 b0 ps j e _ _ _ Hsl) in Heq. injection Heq as <-.
  apply list_lookup_insert_Some in Hk' as [(<- & <- & _)|[_ Hk']]; [exists r0; split; [apply Hsl|done]|by exists r].
Qed.

Lemma settled_all_done s :
  inv s -> (forall i r, rm_read_reqs (ds_rm s) !! i = Some r -> slot_settled r) ->
  forall b, b ∈ ds_subs s -> sub_done (ds_calls s) b = [UNIFYFS_SUCCESS].
Proof.
  intros Hinv Hset b Hb. destruct (in_done _ Hinv b Hb) as [(i & ps & Hv)|[? _]]; [|done].
  destruct (slot_of_view s i _ Hinv Hv) as (r & b0 & ps0 & Hi & Hb0 & Heq & Hr & Hok & Hps). injection Heq as E1 E2 E3 <-.
  assert (b0 = b) as -> by (apply (fmap_NoDup_inj sub_key (ds_subs s)); [apply Hinv|done|done|]; unfold sub_key; congruence).
  destruct (complete_finished s i b ps r) as [? _]; try done. apply (Hset i r Hi). by eapply slot_view_in_use.
Qed.

Lemma requested s :
  step_inv s ->
  exists s', rtc rd_step s s' /\ step_inv s' /\ ds_subs s' = ds_subs s /\
    (forall i r, rm_read_reqs (ds_rm s') !! i = Some r -> rq_status r <> READREQ_READY).
Proof.
  intros Hinv.
  destruct (inv_request s (Mem 0 []) (full_pread my_rank) (proj1 Hinv) (mem_plenty_nil 0) (full_pread_full my_rank))
    as (m' & rm' & sent' & Heq & Hinv' & Hes).
  pose proof (rd_request s (Mem 0 []) (full_pread my_rank) _ _ (mem_plenty_nil 0) (full_pread_full my_rank) Heq) as Hstep.
  eexists. split; [by apply rtc_once|]. split; [by eapply step_inv_step|]. split; [done|].
  intros i r' Hi. cbn [ds_rm st_rm] in Hi. destruct (Hes i r' Hi) as (r & _ & [[? _]|[-> ?]]); done.
Qed.

Lemma can_complete s :
  step_inv s ->
  exists s', rtc rd_step s s' /\ ds_subs s' = ds_subs s /\
    forall b, b ∈ ds_subs s' -> sub_done (ds_calls s') b = [UNIFYFS_SUCCESS].
Proof.
  intros Hinv. destruct (requested s Hinv) as (s1 & Hr1 & Hinv1 & Hsub1 & Hst1).
  destruct (serve_all _ s1 Hinv1 eq_refl) as (s2 & Hr2 & Hinv2 & Hse2 & Hsub2 & Hrm2).
  destruct (respond_all _ s2 Hinv2 eq_refl) as (s3 & Hr3 & Hinv3 & Hre3 & Hse3 & Hsub3 & Hst3).
  destruct (inv_process s3 (proj1 Hinv3)) as (calls & rm' & Hp & Hinv4 & _ & Hset).
  set (s4 := RdSys calls rm' (ds_sent s3) (ds_replies s3) (ds_subs s3)) in *.
  assert (rd_step s3 s4) as Hstep by (by eapply rd_process).
  exists s4. split; [|split; [simpl; congruence|]].
  - etransitivity; [exact Hr1|]. etransitivity; [exact Hr2|]. etransitivity; [exact Hr3|]. by apply rtc_once.
  - apply (settled_all_done s4 Hinv4). intros i r' Hi.
    assert (is_Some (rm_read_reqs (ds_rm s3) !! i)) as [r Hr].
    { apply lookup_lt_is_Some. apply lookup_lt_Some in Hi. pose proof (ro_len _ (in_rm _ (proj1 Hinv3))).
      pose proof (ro_len _ (in_rm _ Hinv4)). simpl in *. lia. }
    apply (Hset i r r' Hr Hi).
    + intros d. unfold in_flight. rewrite Hre3 Hse3 Hse2. apply not_elem_of_nil.
    + split; [|by apply (proj2 Hinv3 i)]. destruct (Hst3 i r Hr) as (r2 & Hr2' & ->). rewrite Hrm2 in Hr2'. by apply (Hst1 i).
Qed.



(** The slots of the request manager: as long as one of the 2048 slots is
    free, a request that is submitted gets one, and it is one that no other
    request has; when none is free the request is refused and nothing is
    changed.  The assertion of the reservation never fails. *)
Theorem read_slot_reserved s b gs :
  rd_reach s ->
  (num_in_use (rm_read_reqs (ds_rm s)) = UNIFYFS_SERVER_MAX_READS /\
   rm_submit_read_request (apps my_rank) (ds_rm s) app_id client_id (sb_mread b) (sb_ndx b) gs (sb_ext b) =
     LRet (ds_rm s, None, UNIFYFS_FAILURE)) \/
  (exists rm' i r, rm_submit_read_request (apps my_rank) (ds_rm s) app_id client_id (sb_mread b) (sb_ndx b) gs (sb_ext b) =
      LRet (rm', Some i, UNIFYFS_SUCCESS) /\ rm_read_reqs (ds_rm s) !! i = Some r /\ rq_in_use r = false /\
    rm_read_reqs rm' = <[i := new_request b i gs]> (rm_read_reqs (ds_rm s))).
Proof.
  intros [Hinv _]%reach_inv. destruct (submit_eq (ds_rm s) b gs (in_rm _ Hinv)) as [?|(rm' & i & H1 & _ & H2 & H3)]; [by left|right].
  by exists rm', i, zero_read_req.
Qed.

End System.

(** ** A read that two servers serve *)

Definition ex_servers (_ : Z) : app_table := ex_apps.

Definition ex_sub : rd_sub :=
  RdSub 3 0 (UnifyfsExtent 100 30 5)
    [ChunkReq 5 8 100 0 7 1 0; ChunkReq 5 6 112 156 7 1 1].

Lemma ex_sub_ok : sub_ok ex_servers ex_sub.
Proof.
  split; simpl.
  - done.
  - repeat constructor; done.
  - repeat constructor; simpl; lia.
  - repeat constructor; exists (example_log 16 16 10); (split; [by vm_compute|split; by vm_compute]).
  - repeat constructor; by vm_compute.
  - repeat constructor; unfold chunk_disj; simpl; lia.
  - by vm_compute.
Qed.

Lemma ex_reader_known : get_app_client (ex_servers 0) 7 1 <> None.
Proof. by vm_compute. Qed.

Lemma ex_submitted : exists s, rd_reach 0 7 1 ex_servers s /\ ds_subs s = [ex_sub].
Proof.
  destruct (create_remote_reads_spec (Mem 0 []) (sb_chunks ex_sub) (mem_plenty_nil 0)) as (m & gs & Hgs & _);
    [repeat constructor; done|].
  destruct (submit_eq 0 7 1 ex_servers ex_reader_known reqmgr_init ex_sub gs reqmgr_init_ok)
    as [[Hf _]|(rm & i & Hs & _ & _ & _)]; [by vm_compute in Hf|].
  eexists. split; [apply rtc_once; eapply (rd_submit _ _ _ _ rd_init ex_sub);
    [apply ex_sub_ok|apply not_elem_of_nil|apply (mem_plenty_nil 0)|exact Hgs|exact Hs]|done].
Qed.



Lemma read_slot_reserved_witness :
  exists rm' i, rm_submit_read_request ex_apps reqmgr_init 7 1 3 0 [] (sb_ext ex_sub) = LRet (rm', Some i, UNIFYFS_SUCCESS).
Proof.
  destruct (read_slot_reserved 0 7 1 ex_servers ex_reader_known rd_init ex_sub []) as [[Hf _]|(rm' & i & r & H & _)];
    [apply rtc_refl|by vm_compute in Hf|]. exists rm', i. exact H.
Defined.

(** ** Responses that are not complete *)

(** A request for bytes 0..7 that one server answers in two chunks. *)
Definition ex_short_req (resps : list chunk_read_resp) : server_read_req :=
  ServerReadReq READREQ_STARTED true 0 7 1 3 0
    [ServerChunkReads 1 0 0 0 2 READREQ_STARTED 72 []
       (Some (RespBuf resps (fun a => nth (Z.to_nat a) [11; 12; 0; 0; 15; 16; 17; 18] 0) 8))] (UnifyfsExtent 0 8 5).

(** When a chunk is read short, the data of the next chunk is taken from the
    wrong place of the response: the server that read the chunks left room for
    all the bytes that were asked for. *)
Lemma short_chunk_shifts_data :
  (let! '(t, _, _) := rm_handle_chunk_read_responses [] (ex_short_req [ChunkResp 5 0 4 2; ChunkResp 5 4 4 4]) 0 in LRet t) =
  LRet [MreadData 3 0 0 [11; 12]; MreadData 3 0 4 [0; 0; 15; 16]; MreadComplete 3 0 UNIFYFS_SUCCESS].
Proof. by vm_compute. Qed.

(** When a chunk cannot be read the client is told that the request is
    complete with the error, and then once more that it is complete without
    one. *)
Lemma failed_chunk_completes_twice :
  (let! '(t, _, _) := rm_handle_chunk_read_responses [] (ex_short_req [ChunkResp 5 0 4 (- EINVAL); ChunkResp 5 4 4 4]) 0 in LRet t) =
  LRet [MreadComplete 3 0 EINVAL; MreadData 3 0 4 [11; 12; 0; 0]; MreadComplete 3 0 UNIFYFS_SUCCESS].
Proof. by vm_compute. Qed.

(** A request that could not be sent is not repeated and not reported: it
    stays started, without a message on its way, and the client is never told
    about it. *)
Definition ex_unsent : reqmgr_thrd :=
  Reqmgr 1 1 [ServerReadReq READREQ_READY true 0 7 1 3 0
                [ServerChunkReads 1 0 0 0 1 READREQ_NULL 4 [ChunkReq 5 4 0 0 7 1 1] None] (UnifyfsExtent 0 4 5)].

Lemma unsent_request_never_completes :
  (let! '(st, rc) := request_slot ex_apps 0 (fun _ => inl 0) (fun _ => (false, EINVAL)) (RmState (Mem 0 []) ex_unsent [] []) 0 0 in
   let! '(t, rm, _) := process_read_req [] (st_rm st) 0 0 in
   let! '(st', rc') := request_slot ex_apps 0 (fun _ => inl 0) (fun _ => (true, 0)) (RmState (st_mem st) rm [] []) 0 0 in
   LRet (rc, t, st_sent st', rq_status <$> rm_read_reqs (st_rm st'))) =
  LRet (EINVAL, [], [], [READREQ_STARTED]).
Proof. by vm_compute. Qed.
