(* ===== verification/ClientRead.v ===== *)
(** * Reads of a client ([client/src/client_read.c])

    A read of one or more extents is served from the extents that the client
    has itself, where they cover a whole request, or by the server: the client
    keeps the requests of the read in a list of active reads, the server passes
    the data to it with remote procedure calls (handled in
    [client/src/margo_client.c]) and says when a request is complete.

    Each request has a buffer of its own.  The calls of the server on the
    client while it waits are one step: the result of [mread_rpc]. *)

From S2P Require Import Prelude.
From S2P Require Import RbTree.
From S2P Require Import Extents.
From S2P Require Import RangeTree.
From S2P Require Import SegTree.
From S2P Require Import LogIO.
From S2P Require Import ArrayList.
From S2P Require Import Meta.
From S2P Require Import Inode.
From S2P Require Import Client.

Definition EINPROGRESS : Z := 115.
Definition ETIMEDOUT : Z := 110.
Definition UNIFYFS_CLIENT_MAX_READ_COUNT : Z := 1000.
Definition UNIFYFS_SERVER_MAX_BULK_TX_SIZE : Z := 8388608.

(** [(size_t)-1] *)
Definition SIZE_MAX : Z := ULONG_MAX.

(** ** Data *)

Record read_req := ReadReq {
  rr_gfid : Z;
  rr_offset : Z;
  rr_length : Z;
  rr_buf : Z -> Z;                (* user buffer, [rr_length] bytes *)
  rr_aiocbp : Z;                  (* which user operation this is for *)
  rr_cover_begin_offset : Z;
  rr_cover_end_offset : Z;
  rr_nread : Z;
  rr_errcode : Z;
}.

Record client_mread_status := MreadStatus {
  mr_id : Z;
  mr_reqs : list read_req;        (* n_reads entries *)
  mr_n_complete : Z;
  mr_n_error : Z;
}.

(** The part of the client that keeps track of reads. *)
Record client_reads := ClientReads {
  cr_active_mreads : arraylist_t client_mread_status;
  cr_mread_id_generator : Z;
}.

Definition rr_set_errcode (e : Z) (r : read_req) : read_req :=
  ReadReq (rr_gfid r) (rr_offset r) (rr_length r) (rr_buf r) (rr_aiocbp r) (rr_cover_begin_offset r)
    (rr_cover_end_offset r) (rr_nread r) e.
Definition rr_set_nread (n : Z) (r : read_req) : read_req :=
  ReadReq (rr_gfid r) (rr_offset r) (rr_length r) (rr_buf r) (rr_aiocbp r) (rr_cover_begin_offset r)
    (rr_cover_end_offset r) n (rr_errcode r).
Definition rr_set_buf (b : Z -> Z) (r : read_req) : read_req :=
  ReadReq (rr_gfid r) (rr_offset r) (rr_length r) b (rr_aiocbp r) (rr_cover_begin_offset r)
    (rr_cover_end_offset r) (rr_nread r) (rr_errcode r).

(** ** The list of active reads *)

Definition id_to_list_index {A} (active : arraylist_t A) (id : Z) : Z :=
  id mod u32 (arraylist_capacity (Some active)).

(** The loop that generates an id; its result is the id, the index and the
    next value of the generator. *)
Fixpoint generate_id {A} (fuel : nat) (active : arraylist_t A) (gen : Z) : lres (Z * Z * Z) :=
  match fuel with
  | O => LFault
  | S fuel =>
      let req_ndx := id_to_list_index active gen in
      let! existing := lift_option (arraylist_get (Some active) req_ndx) in
      match existing with
      | Some _ => generate_id fuel active (u32 (gen + 1))
      | None => LRet (gen, req_ndx, u32 (gen + 1))
      end
  end.

(** The id of the new read, or the null pointer. *)
Definition client_create_mread_request (m : mem) (r : client_reads) (read_reqs : list read_req)
    : lres (mem * client_reads * option Z) :=
  let active := cr_active_mreads r in
  if arraylist_size (Some active) =? arraylist_capacity (Some active) then LRet (m, r, None)
  else
    let! '(mread_id, req_ndx, gen) := generate_id (Z.to_nat (arraylist_capacity (Some active))) active (cr_mread_id_generator r) in
    let '(mread, m) := calloc m in
    match mread with
    | None => LRet (m, ClientReads active gen, None)
    | Some _ =>
        let! '(m, active, _, rc) :=
          lift_option (arraylist_insert m active req_ndx (Some (MreadStatus mread_id read_reqs 0 0))) in
        LRet (m, ClientReads active gen, if negb (rc =? 0) then None else Some mread_id)
    end.

(** [mread] is the read with id [id]. *)
Definition client_remove_mread_request (r : client_reads) (id : Z) : lres (client_reads * Z) :=
  let! '(active, item) := lift_option (arraylist_remove (cr_active_mreads r) (id_to_list_index (cr_active_mreads r) id)) in
  let r := ClientReads active (cr_mread_id_generator r) in
  LRet (r, match item with
           | Some mread => if mr_id mread =? id then UNIFYFS_SUCCESS else UNIFYFS_FAILURE
           | None => UNIFYFS_FAILURE
           end).

Definition client_get_mread_status (r : client_reads) (mread_id : Z) : lres (option client_mread_status) :=
  let! item := lift_option (arraylist_get (Some (cr_active_mreads r)) (id_to_list_index (cr_active_mreads r) mread_id)) in
  LRet (match item with
        | Some status => if negb (mr_id status =? mread_id) then None else Some status
        | None => None
        end).

(** Write to the read through the pointer to it. *)
Definition put_mread (r : client_reads) (mread : client_mread_status) : client_reads :=
  let active := cr_active_mreads r in
  let ndx := Z.to_nat (id_to_list_index active (mr_id mread)) in
  ClientReads (ArrayList (al_cap active) (al_size active) (<[ndx := Some mread]> (al_elems active)))
    (cr_mread_id_generator r).

Definition client_update_mread_request (mread : client_mread_status) (req_index : Z) (req_complete : bool) (req_error : Z)
    : client_mread_status * Z :=
  if (0 <=? req_index) && (req_index <? Z.of_nat (length (mr_reqs mread))) then
    if req_complete then
      if negb (req_error =? 0) then
        (MreadStatus (mr_id mread)
           (alter (fun r => rr_set_errcode req_error (rr_set_nread 0 r)) (Z.to_nat req_index) (mr_reqs mread))
           (u32 (mr_n_complete mread + 1)) (u32 (mr_n_error mread + 1)), UNIFYFS_SUCCESS)
      else (MreadStatus (mr_id mread) (mr_reqs mread) (u32 (mr_n_complete mread + 1)) (mr_n_error mread), UNIFYFS_SUCCESS)
    else (mread, UNIFYFS_SUCCESS)
  else (mread, EINVAL).

(** ** Coverage of a request *)

Record extent_coverage := ExtentCoverage {
  ec_req_offset : Z;
  ec_ext_offset : Z;
  ec_length : Z;
}.

(** [None] when there is no overlap; an assertion that fails is a fault. *)
Definition get_extent_coverage (req : read_req) (extent_file_offset extent_length : Z) : lres (option extent_coverage) :=
  let req_start := rr_offset req in
  let req_end := u64 (u64 (rr_offset req + rr_length req) - 1) in
  let ext_start := extent_file_offset in
  let ext_end := u64 (u64 (ext_start + extent_length) - 1) in
  if (ext_end <? req_start) || (ext_start >? req_end) then LRet None
  else
    let start := if req_start >? ext_start then req_start else ext_start in
    let end_ := if req_end <? ext_end then req_end else ext_end in
    let cover_length := u64 (u64 (end_ - start) + 1) in
    let req_byte_offset := u64 (start - req_start) in
    let ext_byte_offset := u64 (start - ext_start) in
    if u64 (req_byte_offset + cover_length) <=? rr_length req then
      LRet (Some (ExtentCoverage req_byte_offset ext_byte_offset cover_length))
    else LFault.

Definition update_read_req_coverage (req : read_req) (extent_byte_offset extent_length : Z) : read_req :=
  let end_byte_offset := u64 (u64 (extent_byte_offset + extent_length) - 1) in
  let begin_ :=
    if (rr_cover_begin_offset req =? SIZE_MAX) || (extent_byte_offset <? rr_cover_begin_offset req) then extent_byte_offset
    else rr_cover_begin_offset req in
  let further := (rr_cover_end_offset req =? SIZE_MAX) || (end_byte_offset >? rr_cover_end_offset req) in
  ReadReq (rr_gfid req) (rr_offset req) (rr_length req) (rr_buf req) (rr_aiocbp req) begin_
    (if further then end_byte_offset else rr_cover_end_offset req)
    (if further then u64 (end_byte_offset + 1) else rr_nread req) (rr_errcode req).

(** ** Calls of the server *)

(** The loop that pulls the data into the buffer in pieces; [transfer] tells
    whether the piece is transferred. *)
Fixpoint pull_pieces (fuel : nat) (transfer : nat -> bool) (data : list Z) (data_offset : Z) (i : nat) (remain : Z)
    (buf : Z -> Z) : lres ((Z -> Z) * bool) :=
  match fuel with
  | O => LFault
  | S fuel =>
      let offset := Z.of_nat i * UNIFYFS_SERVER_MAX_BULK_TX_SIZE in
      let len := if remain <? UNIFYFS_SERVER_MAX_BULK_TX_SIZE then remain else UNIFYFS_SERVER_MAX_BULK_TX_SIZE in
      if negb (transfer i) then LRet (buf, false)
      else
        let buf := region_write buf (data_offset + offset) (take (Z.to_nat len) (drop (Z.to_nat offset) data)) in
        let remain := remain - len in
        if remain >? 0 then pull_pieces fuel transfer data data_offset (S i) remain buf else LRet (buf, true)
  end.

(** [bulk_create]: whether the buffer can be registered for the transfer.  A
    write outside the buffer of the request is a fault. *)
Definition unifyfs_mread_req_data_rpc (bulk_create : bool) (transfer : nat -> bool) (r : client_reads)
    (mread_id read_index read_offset : Z) (data : list Z) : lres (client_reads * Z) :=
  let! status := client_get_mread_status r mread_id in
  match status with
  | None => LRet (r, EINVAL)
  | Some mread =>
      let data_size := Z.of_nat (length data) in
      if data_size =? 0 then LRet (r, UNIFYFS_SUCCESS)
      else if read_index <? 0 then LFault
      else
        let! rdreq := lift_option (mr_reqs mread !! Z.to_nat read_index) in
        if data_size >? (rr_length rdreq ⊟ read_offset) then LRet (r, EINVAL)
        else if rr_length rdreq <? read_offset then LFault
        else if negb bulk_create then LRet (r, UNIFYFS_ERROR_MARGO)
        else
          let! '(buf, done) := pull_pieces (S (length data)) transfer data read_offset 0 data_size (rr_buf rdreq) in
          let rdreq := rr_set_buf buf rdreq in
          let rdreq := if (done : bool) then update_read_req_coverage rdreq read_offset data_size else rdreq in
          LRet (put_mread r (MreadStatus (mr_id mread) (<[Z.to_nat read_index := rdreq]> (mr_reqs mread))
                               (mr_n_complete mread) (mr_n_error mread)),
                if done then UNIFYFS_SUCCESS else UNIFYFS_ERROR_MARGO)
  end.

Definition unifyfs_mread_req_complete_rpc (r : client_reads) (mread_id read_index read_error : Z) : lres (client_reads * Z) :=
  let! status := client_get_mread_status r mread_id in
  match status with
  | None => LRet (r, EINVAL)
  | Some mread =>
      let '(mread, ret) := client_update_mread_request mread read_index true read_error in
      LRet (put_mread r mread, ret)
  end.

Section Reads.
Context {S : Type} `{!ServerRpc S}.
Implicit Types (c : unifyfs_client) (s : S).

(** The log of another client of the node, opened when it is first used;
    [None] when it cannot be opened. *)
Context (other_log : Z -> option logio_context).
(** The result of reading from a spill-over file, by log offset and size. *)
Context (pread : Z -> Z -> io_result).

(** ** Reads from the extents of the client *)

(** The loop that looks for holes: whether there is none between extents, and
    the first byte that is not accounted for. *)
Fixpoint check_local (fuel : nat) (extents : seg_tree) (next : option seg_tree_node) (expected_start req_end : Z)
    : lres (bool * Z) :=
  match next with
  | Some n =>
      if sn_start n <? req_end then
        match fuel with
        | O => LFault
        | Datatypes.S fuel =>
            if expected_start >=? sn_start n then
              check_local fuel extents (seg_tree_iter extents (Some n)) (u64 (sn_end n + 1)) req_end
            else LRet (false, expected_start)
        end
      else LRet (true, expected_start)
  | None => LRet (true, expected_start)
  end.

(** The loop that copies the data. *)
Fixpoint copy_local (fuel : nat) c (extents : seg_tree) (next : option seg_tree_node) (req_end : Z) (req : read_req)
    : lres read_req :=
  match next with
  | Some n =>
      if sn_start n <? req_end then
        match fuel with
        | O => LFault
        | Datatypes.S fuel =>
            let ext_length := u64 (u64 (sn_end n + 1) - sn_start n) in
            let! cov := get_extent_coverage req (sn_start n) ext_length in
            let! cov := lift_option cov in
            let log_offset := u64 (sn_ptr n + ec_ext_offset cov) in
            let logio_ctx := if sn_client_id n =? cc_client_id (cl_cfg c) then Some (cl_logio c) else other_log (sn_client_id n) in
            let! req :=
              match logio_ctx with
              | None => LRet req
              | Some l =>
                  let! '(rc, nread, bytes) := unifyfs_logio_read l log_offset (ec_length cov) (pread log_offset (ec_length cov)) in
                  let req := rr_set_buf (region_write (rr_buf req) (ec_req_offset cov) bytes) req in
                  LRet (if rc =? UNIFYFS_SUCCESS then update_read_req_coverage req (ec_req_offset cov) nread
                        else rr_set_errcode rc req)
              end in
            copy_local fuel c extents (seg_tree_iter extents (Some n)) req_end req
        end
      else LRet req
  | None => LRet req
  end.

(** One request: whether it was completed, and the request. *)
Definition service_local_req c (req : read_req) : lres (unifyfs_client * bool * read_req) :=
  let fid := unifyfs_fid_from_gfid c (rr_gfid req) in
  if fid <? 0 then LRet (c, false, req)
  else
    let req_end := u64 (rr_offset req + rr_length req) in
    with_meta c fid (fun c meta =>
      match meta with
      | None => LFault
      | Some meta =>
          let extents := fm_extents meta in
          let '(m, first) := seg_tree_find_nolock (cl_mem c) extents (rr_offset req) (rr_offset req) in
          let c := cl_set_mem m c in
          let! '(have_local, expected_start) := check_local (seg_tree_fuel extents) extents first (rr_offset req) req_end in
          if negb (have_local && negb (expected_start <? req_end)) then LRet (c, false, req)
          else
            let! req := copy_local (seg_tree_fuel extents) c extents first req_end req in
            LRet (c, true, req)
      end).

(** The input array, whose completed requests are changed in place, the
    requests that were completed and those for the server. *)
Fixpoint service_local_reqs c (read_reqs : list read_req)
    : lres (unifyfs_client * list read_req * list read_req * list read_req) :=
  match read_reqs with
  | [] => LRet (c, [], [], [])
  | req :: read_reqs =>
      let! '(c, local, req) := service_local_req c req in
      let! '(c, read_reqs, local_reqs, server_reqs) := service_local_reqs c read_reqs in
      LRet (if (local : bool) then (c, req :: read_reqs, req :: local_reqs, server_reqs)
            else (c, req :: read_reqs, local_reqs, req :: server_reqs))
  end.

Definition compare_read_req (a b : read_req) : Z :=
  if negb (rr_gfid a =? rr_gfid b) then if rr_gfid a <? rr_gfid b then -1 else 1
  else if rr_offset a =? rr_offset b then 0
  else if rr_offset a <? rr_offset b then -1
  else 1.

(** [memset(buf, 0, n)] *)
Definition zero_fill (buf : Z -> Z) (off n : Z) : Z -> Z := region_write buf off (replicate (Z.to_nat n) 0).

Definition update_read_req_result c s (req : read_req) : lres (unifyfs_client * S * read_req) :=
  let req := if rr_errcode req =? EINPROGRESS then rr_set_errcode UNIFYFS_SUCCESS req else req in
  if negb (rr_errcode req =? UNIFYFS_SUCCESS) && negb (rr_errcode req =? ENODATA) then LRet (c, s, req)
  else if rr_nread req =? rr_length req then
    if negb (rr_cover_begin_offset req =? 0) then
      LRet (c, s, rr_set_errcode UNIFYFS_SUCCESS (rr_set_buf (zero_fill (rr_buf req) 0 (rr_cover_begin_offset req)) req))
    else LRet (c, s, req)
  else
    let! '(c, s, filesize_offt) := unifyfs_gfid_filesize c s (rr_gfid req) in
    if filesize_offt =? -1 then LRet (c, s, rr_set_errcode ENOENT req)
    else
      let filesize := u64 filesize_offt in
      if filesize <=? rr_offset req then LRet (c, s, rr_set_errcode UNIFYFS_SUCCESS (rr_set_nread 0 req))
      else
        let gap_start := u64 (rr_offset req + rr_nread req) in
        let req_end := u64 (rr_offset req + rr_length req) in
        if filesize >? gap_start then
          let gap_length := if req_end >? filesize then filesize ⊟ gap_start else req_end ⊟ gap_start in
          LRet (c, s, rr_set_errcode UNIFYFS_SUCCESS (rr_set_nread (u64 (rr_nread req + gap_length))
                 (rr_set_buf (zero_fill (rr_buf req) (rr_nread req) gap_length) req)))
        else LRet (c, s, req).

Fixpoint update_results c s (reqs : list read_req) : lres (unifyfs_client * S * list read_req) :=
  match reqs with
  | [] => LRet (c, s, [])
  | req :: reqs =>
      let! '(c, s, req) := update_read_req_result c s req in
      let! '(c, s, reqs) := update_results c s reqs in
      LRet (c, s, req :: reqs)
  end.

(** ** Extents of other clients of the node *)

Record client_index := ClientIndex {
  xi_file_pos : Z;
  xi_log_pos : Z;
  xi_length : Z;
  xi_gfid : Z;
  xi_log_app_id : Z;
  xi_log_client_id : Z;
}.

Definition fm_set_reads_sync (b : bool) (m : unifyfs_filemeta) : unifyfs_filemeta :=
  Filemeta (fm_fid m) (fm_storage m) (fm_pending_unlink m) (fm_needs_writes_sync m) b
    (fm_extents_sync m) (fm_extents m) (fm_attrs m).

(** The loop that selects the laminated files whose extents are not known yet;
    [cur] tells whether the list has a node for the next one. *)
Fixpoint select_laminated c s (reqs : list read_req) (cur : bool) : lres (unifyfs_client * S * list unifyfs_extent_t) :=
  match reqs with
  | [] => LRet (c, s, [])
  | req :: reqs =>
      let fid := unifyfs_fid_from_gfid c (rr_gfid req) in
      let! '(c, meta) := with_meta c fid (fun c meta => LRet (c, meta)) in
      match meta with
      | None => select_laminated c s reqs cur
      | Some meta =>
          if (fa_is_laminated (fm_attrs meta) =? 0) || negb (fm_needs_reads_sync meta) then select_laminated c s reqs cur
          else if negb cur then LFault
          else
            let! '(c, s, filesize_offt) := unifyfs_gfid_filesize c s (rr_gfid req) in
            let '(node, m) := if bool_decide (reqs = []) then (Some 0, cl_mem c) else calloc (cl_mem c) in
            match node with
            | None => LFault
            | Some _ =>
                let c := put_meta fid (fm_set_reads_sync false) (cl_set_mem m c) in
                let! '(c, s, l) := select_laminated c s reqs true in
                LRet (c, s, UnifyfsExtent 0 (u64 (filesize_offt - 1)) (rr_gfid req) :: l)
            end
      end
  end.

(** The loop that adds the extents to the trees of the files. *)
Fixpoint add_node_extents c (extents : list client_index) : lres unifyfs_client :=
  match extents with
  | [] => LRet c
  | x :: extents =>
      if xi_log_app_id x =? cc_app_id (cl_cfg c) then
        let fid := unifyfs_fid_from_gfid c (xi_gfid x) in
        let! '(c, meta) := with_meta c fid (fun c meta => LRet (c, meta)) in
        match meta with
        | None => add_node_extents c extents
        | Some meta =>
            let! '(m, t, _) :=
              lift_option (seg_tree_add (cl_mem c) (fm_extents meta) (xi_file_pos x) (u64 (xi_file_pos x + xi_length x - 1))
                             (xi_log_pos x) (xi_log_client_id x)) in
            add_node_extents (put_meta fid (fm_set_extents t) (cl_set_mem m c)) extents
        end
      else add_node_extents c extents
  end.

(** The calls of the client on the server: the lookup of the extents of the
    clients of the node, and the read, with all that the server does to the
    requests of the client until the client stops waiting. *)
Context (node_extents_rpc : S -> list unifyfs_extent_t -> Z + list client_index).
Context (mread_rpc : S -> client_reads -> Z -> list unifyfs_extent_t -> lres (S * client_reads * Z)).
Context (qsort : list read_req -> list read_req).

Definition get_node_extents c s (in_reqs : list read_req) : lres (unifyfs_client * S) :=
  let '(list, m) := calloc (cl_mem c) in
  let! '(c, s, selected) := select_laminated (cl_set_mem m c) s in_reqs (match list with Some _ => true | None => false end) in
  if bool_decide (selected = []) then LRet (c, s)
  else
    match node_extents_rpc s selected with
    | inr extents => let! c := add_node_extents c extents in LRet (c, s)
    | inl _ => LRet (c, s)
    end.

Definition req_extent (req : read_req) : unifyfs_extent_t := UnifyfsExtent (rr_offset req) (rr_length req) (rr_gfid req).

Definition fail_in_progress (req : read_req) : read_req :=
  if rr_errcode req =? EINPROGRESS then rr_set_errcode ETIMEDOUT req else req.

(** The part of [process_gfid_reads] from the sorting of the requests for the
    server to the check of their results; the client state that it stops at
    when it returns early. *)
Definition server_reads c r s (server_reqs : list read_req)
    : lres (unifyfs_client * client_reads * S * (Z + (Z * list read_req * Z))) :=
  let server_reqs := qsort server_reqs in
  let! '(m, r, mread) := client_create_mread_request (cl_mem c) r server_reqs in
  let c := cl_set_mem m c in
  match mread with
  | None => LRet (c, r, s, inl ENOMEM)
  | Some mread_id =>
      let '(buffer, m) := calloc (cl_mem c) in
      let c := cl_set_mem m c in
      match buffer with
      | None => LRet (c, r, s, inl ENOMEM)
      | Some _ =>
          let! '(s, r, read_rc) := mread_rpc s r mread_id (req_extent <$> server_reqs) in
          let! status := client_get_mread_status r mread_id in
          let! mread := lift_option status in
          let server_reqs := mr_reqs mread in
          let server_reqs :=
            if negb (read_rc =? UNIFYFS_SUCCESS) then rr_set_errcode read_rc <$> server_reqs
            else if mr_n_complete mread =? Z.of_nat (length server_reqs) then server_reqs
            else fail_in_progress <$> server_reqs in
          let ret := if negb (read_rc =? UNIFYFS_SUCCESS) && negb (read_rc =? ENODATA) then read_rc else UNIFYFS_SUCCESS in
          let! '(c, s, server_reqs) := update_results c s server_reqs in
          LRet (c, r, s, inr (mread_id, server_reqs, ret))
      end
  end.

(** The requests, with their results, and the return code. *)
Definition process_gfid_reads c r s (in_reqs : list read_req)
    : lres (unifyfs_client * client_reads * S * list read_req * Z) :=
  if bool_decide (in_reqs = []) then LRet (c, r, s, in_reqs, UNIFYFS_SUCCESS)
  else
    let in_reqs := rr_set_errcode EINPROGRESS <$> in_reqs in
    let! '(c, s) := if cc_use_node_local_extents (cl_cfg c) then get_node_extents c s in_reqs else LRet (c, s) in
    let use_local := local_extents c in
    let '(reqs, m) := if use_local then calloc (cl_mem c) else (Some 0, cl_mem c) in
    let c := cl_set_mem m c in
    match reqs with
    | None => LRet (c, r, s, in_reqs, ENOMEM)
    | Some _ =>
        let! '(c, in_reqs, local_reqs, server_reqs) :=
          if use_local then service_local_reqs c in_reqs else LRet (c, in_reqs, [], in_reqs) in
        let! '(c, s, local_reqs) := update_results c s local_reqs in
        if bool_decide (server_reqs = []) then LRet (c, r, s, local_reqs, UNIFYFS_SUCCESS)
        else if Z.of_nat (length server_reqs) >? UNIFYFS_CLIENT_MAX_READ_COUNT then LRet (c, r, s, in_reqs, ENOSPC)
        else
          let! '(c, r, s, res) := server_reads c r s server_reqs in
          match res with
          | inl ret => LRet (c, r, s, if use_local then in_reqs else qsort in_reqs, ret)
          | inr (mread_id, server_reqs, ret) =>
              let! '(r, _) := client_remove_mread_request r mread_id in
              LRet (c, r, s, local_reqs ++ server_reqs, ret)
          end
    end.

End Reads.
