(* ===== verification/ClientReadProps.v ===== *)
(** * Properties of the reads of a client

    Ids of active reads are unique and are found; the coverage of a request by
    an extent is their intersection; the calls of the servers fill the buffers
    of the requests; reads of extents that the client has itself return what
    the log holds; and the result of a request is what its data and the size of
    the file call for. *)

From S2P Require Import Prelude.
From S2P Require Import RbTree.
From S2P Require Import Extents.
From S2P Require Import RangeTree.
From S2P Require Import SegTree.
From S2P Require Import ExtentTree.
From S2P Require Import LogIO.
From S2P Require Import ArrayList.
From S2P Require Import AppTable.
From S2P Require Import Inode.
From S2P Require Import InodeProps.
From S2P Require Import Client.
From S2P Require Import ServerRead.
From S2P Require Import ServerReadProps.
From S2P Require Import ReadSystem.
From S2P Require Import ClientRead.

(** ** The list of active reads *)

Implicit Types (r : client_reads) (g : gmap nat client_mread_status) (mr : client_mread_status) (rr : read_req).

(** [g] maps the indices of the list to the active reads.  The capacity divides
    the range of the ids, so that ids go through the indices in turn. *)
Record reads_ok r g : Prop := {
  ra_repr : al_repr (cr_active_mreads r) g;
  ra_cap : al_cap (cr_active_mreads r) < 4294967296;
  ra_div : (al_cap (cr_active_mreads r) | 4294967296);
  ra_gen : 0 <= cr_mread_id_generator r < 4294967296;
  ra_id j mr : g !! j = Some mr -> 0 <= mr_id mr < 4294967296 /\ j = Z.to_nat (mr_id mr mod al_cap (cr_active_mreads r));
}.

Definition slot_of (cap id : Z) : nat := Z.to_nat (id mod cap).

Lemma id_to_list_index_eq r g id :
  reads_ok r g -> id_to_list_index (cr_active_mreads r) id = id mod al_cap (cr_active_mreads r).
Proof.
  intros [[_ Hc _ _] Hcap _ _ _]. unfold id_to_list_index. simpl. unfold u32. rewrite (Z.mod_small (al_cap _)); [lia|done].
Qed.

Lemma u32_mod cap gen : (cap | 4294967296) -> 0 < cap -> u32 (gen + 1) mod cap = (gen + 1) mod cap.
Proof.
  intros [k Hk] Hc. unfold u32. rewrite Hk (Z.mul_comm k) Z.rem_mul_r; [lia|nia|].
  rewrite (Z.mul_comm cap) Z_mod_plus_full. apply Z.mod_mod. lia.
Qed.

(** The loop meets a free index before it has gone through all of them. *)
Lemma generate_id_spec r g fuel gen free :
  reads_ok r g -> 0 <= gen < 4294967296 -> 0 <= free < al_cap (cr_active_mreads r) -> g !! Z.to_nat free = None ->
  (free - gen) mod al_cap (cr_active_mreads r) < Z.of_nat fuel ->
  exists id, generate_id fuel (cr_active_mreads r) gen =
      LRet (id, id mod al_cap (cr_active_mreads r), u32 (id + 1)) /\
    0 <= id < 4294967296 /\ g !! slot_of (al_cap (cr_active_mreads r)) id = None.
Proof.
  intros Hok Hgen Hfree Hnone. set (cap := al_cap (cr_active_mreads r)) in *.
  assert (1 <= cap) as Hcap by apply (al_repr_cap _ _ (ra_repr _ _ Hok)).
  revert gen Hgen. induction fuel as [|fuel IH]; intros gen Hgen Hlt.
  { pose proof (Z.mod_pos_bound (free - gen) cap). lia. }
  cbn [generate_id]. rewrite (id_to_list_index_eq r g) //. fold cap.
  pose proof (Z.mod_pos_bound gen cap ltac:(lia)) as Hm.
  rewrite (al_get_ok _ g _ (ra_repr _ _ Hok)); [lia|]. cbn [lift_option lbind].
  destruct (g !! Z.to_nat (gen mod cap)) as [mr|] eqn:Hg.
  2:{ exists gen. split_and!; [done|lia|lia|done]. }
  assert ((free - gen) mod cap <> 0) as Hne.
  { intros H0. replace free with (gen mod cap) in Hnone; [congruence|].
    apply Z.mod_divide in H0 as [k Hk]; [|lia]. replace gen with (free + (- k) * cap) by lia.
    rewrite Z_mod_plus_full Z.mod_small; lia. }
  apply IH; [unfold u32; apply Z.mod_pos_bound; lia|].
  assert ((free - u32 (gen + 1)) mod cap = (free - gen) mod cap - 1) as ->; [|lia].
  pose proof (Z.mod_pos_bound (free - gen) cap ltac:(lia)).
  rewrite Zminus_mod (u32_mod cap gen (ra_div _ _ Hok) ltac:(lia)) -Zminus_mod.
  replace (free - (gen + 1)) with (free - gen - 1) by lia. rewrite (Zminus_mod (free - gen)).
  destruct (decide (cap = 1)) as [->|?]; [rewrite Z.mod_1_r in Hne; done|].
  rewrite (Z.mod_small 1); [lia|]. apply Z.mod_small. lia.
Qed.

Lemma create_mread_spec m r g reqs :
  reads_ok r g -> mem_plenty m -> al_size (cr_active_mreads r) < al_cap (cr_active_mreads r) -> al_cap (cr_active_mreads r) <= INT_MAX ->
  exists m' r' id, client_create_mread_request m r reqs = LRet (m', r', Some id) /\ mem_plenty m' /\
    al_cap (cr_active_mreads r') = al_cap (cr_active_mreads r) /\
    g !! slot_of (al_cap (cr_active_mreads r)) id = None /\
    reads_ok r' (<[slot_of (al_cap (cr_active_mreads r)) id := MreadStatus id reqs 0 0]> g).
Proof.
  intros Hok Hpl Hsz Hmax. pose proof (ra_repr _ _ Hok) as Hr. pose proof Hr as [Hlen Hcap Hget [Hs H0]].
  set (cap := al_cap (cr_active_mreads r)) in *. unfold client_create_mread_request. simpl. fold cap.
  rewrite (proj2 (Z.eqb_neq _ _)); [lia|].
  destruct (generate_id_spec r g (Z.to_nat cap) (cr_mread_id_generator r) (al_size (cr_active_mreads r)) Hok (ra_gen _ _ Hok))
    as (id & Hgen & Hid & Hnone).
  { fold cap. lia. }
  { destruct (g !! _) eqn:Hg; [|done]. destruct Hs as [Hs _]. specialize (Hs (Z.to_nat (al_size (cr_active_mreads r))) ltac:(eauto)). lia. }
  { fold cap. pose proof (Z.mod_pos_bound (al_size (cr_active_mreads r) - cr_mread_id_generator r) cap). lia. }
  fold cap in Hgen, Hnone. rewrite Hgen. cbn [lbind]. destruct (calloc_plenty m Hpl) as (m1 & -> & Hpl1 & _).
  pose proof (Z.mod_pos_bound id cap ltac:(lia)) as Hm.
  destruct (arraylist_insert_ok m1 (cr_active_mreads r) g (id mod cap) (MreadStatus id reqs 0 0) Hr)
    as (m2 & arr & fr & rc & Hins & _ & Hp & Hc); [lia|fold cap; lia|].
  destruct (Hp Hpl1) as [Hpl2 ->]. destruct Hc as [[? _]|(_ & _ & Hr' & _)]; [done|]. rewrite Hins. cbn [lift_option lbind].
  assert (al_cap arr = cap) as Hcap'.
  { unfold arraylist_insert, arraylist_grow in Hins. rewrite Z.geb_leb (proj2 (Z.leb_gt _ _)) /= in Hins; [fold cap; lia|].
    destruct (al_entry _ _) as [x|]; simpl in Hins; [|done]. by injection Hins as _ <- _. }
  eexists m2, _, id. split; [done|]. split; [done|]. cbn [cr_active_mreads]. split_and!; [done|done|].
  split; cbn [cr_active_mreads cr_mread_id_generator]; rewrite ?Hcap'; [exact Hr'|apply Hok|apply Hok|unfold u32; apply Z.mod_pos_bound; lia|].
  intros j mr [[<- <-]|[Hne Hj]]%lookup_insert_Some; [done|]. by apply (ra_id _ _ Hok).
Qed.

Definition cap_of r : Z := al_cap (cr_active_mreads r).

(** The active read with a given id. *)
Definition active_read g (cap id : Z) : option client_mread_status :=
  mr ← g !! slot_of cap id; if mr_id mr =? id then Some mr else None.

Lemma get_mread_spec r g id : reads_ok r g -> client_get_mread_status r id = LRet (active_read g (cap_of r) id).
Proof.
  intros Hok. unfold client_get_mread_status, active_read, cap_of. rewrite (id_to_list_index_eq r g) //.
  pose proof (al_repr_cap _ _ (ra_repr _ _ Hok)). pose proof (Z.mod_pos_bound id (al_cap (cr_active_mreads r)) ltac:(lia)).
  rewrite (al_get_ok _ g _ (ra_repr _ _ Hok)); [lia|]. cbn [lift_option lbind]. unfold slot_of.
  destruct (g !! _) as [mr|]; simpl; [|done]. by destruct (mr_id mr =? id).
Qed.

Lemma active_read_slot g cap id mr : active_read g cap id = Some mr -> g !! slot_of cap id = Some mr /\ mr_id mr = id.
Proof.
  unfold active_read. destruct (g !! _) as [mr'|]; simpl; [|done]. destruct (mr_id mr' =? id) eqn:He; [|done].
  zbool. by intros [= <-].
Qed.

(** Writing to an active read through the pointer to it. *)
Lemma put_mread_spec r g mr mr' :
  reads_ok r g -> active_read g (cap_of r) (mr_id mr) = Some mr -> mr_id mr' = mr_id mr ->
  reads_ok (put_mread r mr') (<[slot_of (cap_of r) (mr_id mr) := mr']> g) /\ cap_of (put_mread r mr') = cap_of r.
Proof.
  intros Hok [Hg _]%active_read_slot Hid. pose proof Hok as [[Hlen Hcap Hget [[Hs HL] H0]] Hmax Hdiv Hgen Hids].
  unfold put_mread. rewrite (id_to_list_index_eq r g) // Hid. split; [|done]. fold (slot_of (cap_of r) (mr_id mr)) in *.
  change (Z.to_nat (mr_id mr mod al_cap (cr_active_mreads r))) with (slot_of (cap_of r) (mr_id mr)).
  assert (slot_of (cap_of r) (mr_id mr) < length (al_elems (cr_active_mreads r)))%nat as Hlt.
  { rewrite Hget in Hg. destruct (al_elems _ !! _) eqn:He; [|done]. by eapply lookup_lt_Some. }
  split; cbn [cr_active_mreads cr_mread_id_generator al_cap]; try done.
  - split; cbn [al_cap al_size al_elems]; [by rewrite length_insert|done| |split; [|done]].
    + intros j. destruct (decide (j = slot_of (cap_of r) (mr_id mr))) as [->|Hne].
      * by rewrite lookup_insert_eq list_lookup_insert_eq.
      * by rewrite lookup_insert_ne // list_lookup_insert_ne.
    + split.
      * intros j [<-|Hj]%lookup_insert_is_Some'; apply Hs; eauto.
      * destruct HL as [HL|HL]; [by left|right]. apply lookup_insert_is_Some'. by right.
  - intros j x [[<- <-]|[_ Hj]]%lookup_insert_Some; [rewrite Hid; split; [|done]; by apply (Hids _ _ Hg)|by apply Hids].
Qed.

Lemma remove_mread_spec r g id mr :
  reads_ok r g -> active_read g (cap_of r) id = Some mr ->
  exists r', client_remove_mread_request r id = LRet (r', UNIFYFS_SUCCESS) /\ cap_of r' = cap_of r /\
    reads_ok r' (delete (slot_of (cap_of r) id) g).
Proof.
  intros Hok [Hg Hid]%active_read_slot. unfold client_remove_mread_request. rewrite (id_to_list_index_eq r g) //.
  pose proof (al_repr_cap _ _ (ra_repr _ _ Hok)). pose proof (Z.mod_pos_bound id (al_cap (cr_active_mreads r)) ltac:(lia)).
  destruct (arraylist_remove_ok (cr_active_mreads r) g (id mod al_cap (cr_active_mreads r)) (ra_repr _ _ Hok)) as (arr & Hrem & Hr & _); [lia|].
  assert (al_cap arr = al_cap (cr_active_mreads r)) as Hcap.
  { unfold arraylist_remove in Hrem. destruct (arraylist_get _ _) as [[x|]|]; simpl in Hrem; [|by injection Hrem as <-|done].
    by injection Hrem as <- _. }
  rewrite Hrem. cbn [lift_option lbind].
  change (Z.to_nat (id mod al_cap (cr_active_mreads r))) with (slot_of (cap_of r) id) in *. rewrite Hg Hid Z.eqb_refl.
  eexists. split; [done|]. split; [done|]. split; cbn [cr_active_mreads cr_mread_id_generator]; rewrite ?Hcap; try apply Hok; [done|].
  intros j x [_ Hj]%lookup_delete_Some. by apply (ra_id _ _ Hok).
Qed.

(** ** The calls of the servers *)

Lemma pull_pieces_spec fuel data off i remain buf :
  0 <= remain -> Z.of_nat i * UNIFYFS_SERVER_MAX_BULK_TX_SIZE + remain = Z.of_nat (length data) ->
  (Z.to_nat remain < fuel)%nat ->
  exists buf', pull_pieces fuel (fun _ => true) data off i remain buf = LRet (buf', true) /\
    forall a, buf' a = region_write buf (off + Z.of_nat i * UNIFYFS_SERVER_MAX_BULK_TX_SIZE)
                         (drop (Z.to_nat (Z.of_nat i * UNIFYFS_SERVER_MAX_BULK_TX_SIZE)) data) a.
Proof.
  revert i remain buf. induction fuel as [|fuel IH]; intros i remain buf Hr Heq Hf; [lia|].
  cbn [pull_pieces negb]. set (o := Z.of_nat i * UNIFYFS_SERVER_MAX_BULK_TX_SIZE) in *.
  assert (0 < UNIFYFS_SERVER_MAX_BULK_TX_SIZE) as Hpos by done. assert (0 <= o) as Ho by (unfold o; nia).
  set (len := if remain <? _ then _ else _). assert (0 <= len <= remain /\ (remain <= len \/ len = UNIFYFS_SERVER_MAX_BULK_TX_SIZE)) as [Hl1 Hl2].
  { unfold len. zcase; lia. }
  destruct (remain - len >? 0) eqn:Hgt; zbool.
  - destruct (IH (S i) (remain - len) (region_write buf (off + o) (take (Z.to_nat len) (drop (Z.to_nat o) data)))) as (buf' & -> & Hb);
      [lia|unfold o in *; lia|lia|].
    exists buf'. split; [done|]. intros a. rewrite Hb.
    rewrite -{2}(take_drop (Z.to_nat len) (drop (Z.to_nat o) data)) region_write_app length_take length_drop drop_drop.
    replace (Z.of_nat (S i) * UNIFYFS_SERVER_MAX_BULK_TX_SIZE) with (o + len) by (unfold o; lia).
    replace (off + (o + len)) with (off + o + Z.of_nat (Nat.min (Z.to_nat len) (length data - Z.to_nat o))) by lia.
    by replace (Z.to_nat o + Z.to_nat len)%nat with (Z.to_nat (o + len)) by lia.
  - eexists. split; [done|]. intros a. rewrite take_ge; [rewrite length_drop; lia|done].
Qed.

(** A call for request [n] of a read, as a function on the request. *)
Definition req_apply (id : Z) (n : nat) rr (k : client_call) : read_req :=
  match k with
  | MreadData m n' off bs =>
      if (m =? id) && (n' =? Z.of_nat n) then
        update_read_req_coverage (rr_set_buf (region_write (rr_buf rr) off bs) rr) off (Z.of_nat (length bs))
      else rr
  | MreadComplete m n' rc =>
      if (m =? id) && (n' =? Z.of_nat n) && negb (rc =? 0) then rr_set_errcode rc (rr_set_nread 0 rr) else rr
  end.

(** Requests that are the same but for the representation of the buffer. *)
#[export] Instance rr_equiv : Equiv read_req := fun a b =>
  rr_gfid a = rr_gfid b /\ rr_offset a = rr_offset b /\ rr_length a = rr_length b /\ rr_aiocbp a = rr_aiocbp b /\
  rr_cover_begin_offset a = rr_cover_begin_offset b /\ rr_cover_end_offset a = rr_cover_end_offset b /\
  rr_nread a = rr_nread b /\ rr_errcode a = rr_errcode b /\ forall x, rr_buf a x = rr_buf b x.

#[export] Instance rr_equiv_equivalence : Equivalence (≡@{read_req}).
Proof.
  split.
  - intros a. by split_and!.
  - intros a b (? & ? & ? & ? & ? & ? & ? & ? & ?). by split_and!.
  - intros a b c (? & ? & ? & ? & ? & ? & ? & ? & Hab) (? & ? & ? & ? & ? & ? & ? & ? & Hbc).
    split_and!; try congruence.
Qed.

Lemma region_write_ext b b' off bs a : b a = b' a -> region_write b off bs a = region_write b' off bs a.
Proof. unfold region_write. by intros ->. Qed.

#[export] Instance req_apply_proper id n : Proper ((≡) ==> (=) ==> (≡)) (req_apply id n).
Proof.
  intros a b Hab k ? <-. destruct k as [m n' off bs|m n' rc]; simpl; destruct (_ && _); try done;
    destruct Hab as (? & ? & ? & ? & Hb & He & Hn & ? & Hbuf).
  - unfold update_read_req_coverage. cbn. rewrite Hb He Hn. split_and!; try done. intros x. by apply region_write_ext.
  - by split_and!.
Qed.

Lemma req_apply_length id n rr k : rr_length (req_apply id n rr k) = rr_length rr.
Proof. destruct k; simpl; by destruct (_ && _). Qed.

(** What a call does to an active read. *)
Definition completes (id : Z) (k : client_call) : Z :=
  match k with MreadComplete m _ _ => if m =? id then 1 else 0 | MreadData _ _ _ _ => 0 end.

Record mread_step (t : list client_call) mr mr' : Prop := {
  ms_id : mr_id mr' = mr_id mr;
  ms_len : length (mr_reqs mr') = length (mr_reqs mr);
  ms_req n rr : mr_reqs mr !! n = Some rr ->
    exists rr', mr_reqs mr' !! n = Some rr' /\ rr' ≡ foldl (req_apply (mr_id mr) n) rr t;
  ms_complete : u32 (mr_n_complete mr') = u32 (mr_n_complete mr + foldr (fun k z => completes (mr_id mr) k + z) 0 t);
}.

Lemma foldl_req_apply_proper id n t rr rr' : rr ≡ rr' -> foldl (req_apply id n) rr t ≡ foldl (req_apply id n) rr' t.
Proof. revert rr rr'. induction t as [|k t IH]; intros rr rr' Heq; simpl; [done|]. apply IH. by apply req_apply_proper. Qed.

Lemma foldl_req_apply_length id n t rr : rr_length (foldl (req_apply id n) rr t) = rr_length rr.
Proof. revert rr. induction t as [|k t IH]; intros rr; simpl; [done|]. by rewrite IH req_apply_length. Qed.

Lemma mread_step_refl mr : mread_step [] mr mr.
Proof. split; [done|done| |by rewrite Z.add_0_r]. intros n rr Hn. by exists rr. Qed.

Lemma mread_step_cons k t mr mr1 mr' : mread_step [k] mr mr1 -> mread_step t mr1 mr' -> mread_step (k :: t) mr mr'.
Proof.
  intros [H1 H2 H3 H4] [K1 K2 K3 K4]. split; [congruence|congruence| |].
  - intros n rr (rr1 & Hn1 & He1)%H3. destruct (K3 n rr1 Hn1) as (rr' & Hn' & He'). exists rr'. split; [done|].
    rewrite He' H1. simpl. by apply foldl_req_apply_proper.
  - rewrite K4 -u32_add_l H4 u32_add_l H1. simpl. f_equal. lia.
Qed.

(** The call is for an active read and one of its requests, within the buffer. *)
Definition call_ok g (cap : Z) (k : client_call) : Prop :=
  match k with
  | MreadData m n off bs =>
      exists mr rr, active_read g cap m = Some mr /\ 0 <= n /\ mr_reqs mr !! Z.to_nat n = Some rr /\
        bs <> [] /\ 0 <= off /\ off + Z.of_nat (length bs) <= rr_length rr /\ rr_length rr <= ULONG_MAX
  | MreadComplete m n rc => exists mr, active_read g cap m = Some mr /\ 0 <= n < Z.of_nat (length (mr_reqs mr))
  end.

Definition run_call r (k : client_call) : lres (client_reads * Z) :=
  match k with
  | MreadData m n off bs => unifyfs_mread_req_data_rpc true (fun _ => true) r m n off bs
  | MreadComplete m n rc => unifyfs_mread_req_complete_rpc r m n rc
  end.

Fixpoint run_calls r (t : list client_call) : lres (client_reads * list Z) :=
  match t with
  | [] => LRet (r, [])
  | k :: t => let! '(r, rc) := run_call r k in let! '(r, rcs) := run_calls r t in LRet (r, rc :: rcs)
  end.

Definition reads_step (t : list client_call) g g' : Prop :=
  forall j, match g !! j with
            | Some mr => exists mr', g' !! j = Some mr' /\ mread_step t mr mr'
            | None => g' !! j = None
            end.

(** A call does not change the reads with other ids. *)
Lemma mread_step_other k mr :
  match k with MreadData m _ _ _ | MreadComplete m _ _ => m <> mr_id mr end -> mread_step [k] mr mr.
Proof.
  intros Hne. split; [done|done| |].
  - intros n rr Hn. exists rr. split; [done|]. destruct k as [m n' o x|m n' rc]; simpl; by rewrite (proj2 (Z.eqb_neq _ _) Hne).
  - destruct k as [m n' o x|m n' rc]; simpl; rewrite ?(proj2 (Z.eqb_neq _ _) Hne). all: f_equal; simpl; lia.
Qed.

Lemma reads_step_put r g k mr mr' :
  reads_ok r g -> active_read g (cap_of r) (match k with MreadData m _ _ _ | MreadComplete m _ _ => m end) = Some mr ->
  mread_step [k] mr mr' ->
  reads_ok (put_mread r mr') (<[slot_of (cap_of r) (mr_id mr) := mr']> g) /\ cap_of (put_mread r mr') = cap_of r /\
  reads_step [k] g (<[slot_of (cap_of r) (mr_id mr) := mr']> g).
Proof.
  intros Hok Hact Hst. pose proof (active_read_slot _ _ _ _ Hact) as [Hg Hid].
  rewrite -Hid in Hact. destruct (put_mread_spec r g mr mr' Hok Hact (ms_id _ _ _ Hst)) as [Hok' Hcap].
  split_and!; [done|done|]. intros j. destruct (g !! j) as [x|] eqn:Hj.
  - destruct (decide (j = slot_of (cap_of r) (mr_id mr))) as [->|Hne].
    + exists mr'. rewrite lookup_insert_eq. split; [done|]. rewrite Hid Hg in Hj. by injection Hj as <-.
    + exists x. rewrite lookup_insert_ne //. split; [done|]. apply mread_step_other.
      destruct (ra_id _ _ Hok j x Hj) as [_ Hjx]. destruct k as [m n o y|m n rc]; simpl in *; intros Heq; apply Hne; rewrite Hjx;
        unfold slot_of, cap_of; congruence.
  - rewrite lookup_insert_ne //. intros <-. rewrite Hid in Hj. congruence.
Qed.

Lemma run_data_spec r g m n off bs :
  reads_ok r g -> call_ok g (cap_of r) (MreadData m n off bs) ->
  exists r' g', run_call r (MreadData m n off bs) = LRet (r', UNIFYFS_SUCCESS) /\ reads_ok r' g' /\ cap_of r' = cap_of r /\
    reads_step [MreadData m n off bs] g g'.
Proof.
  intros Hok (mr & rr & Hact & Hn & Hrr & Hbs & Hoff & Hlen & Hmax).
  assert (0 < Z.of_nat (length bs)) as Hpos by (destruct bs; [done|simpl; lia]).
  simpl. unfold unifyfs_mread_req_data_rpc. rewrite (get_mread_spec r g m Hok). cbn [lbind]. rewrite Hact.
  rewrite (proj2 (Z.eqb_neq _ _)); [lia|]. rewrite (proj2 (Z.ltb_ge n 0)); [lia|]. rewrite Hrr. cbn [lift_option lbind].
  rewrite u64_small; [unfold is_u64; lia|]. rewrite Z.gtb_ltb (proj2 (Z.ltb_ge _ _)); [lia|].
  rewrite (proj2 (Z.ltb_ge (rr_length rr) off)); [lia|]. cbn [negb].
  destruct (pull_pieces_spec (S (length bs)) bs off 0 (Z.of_nat (length bs)) (rr_buf rr)) as (buf & -> & Hbuf); [lia|lia|lia|].
  cbn [lbind]. eexists _, _. split; [done|]. apply (reads_step_put r g (MreadData m n off bs) mr _ Hok Hact).
  split; cbn [mr_id mr_reqs mr_n_complete]; [done|by rewrite length_insert| |simpl; f_equal; lia].
  intros k q Hk. destruct (active_read_slot _ _ _ _ Hact) as [_ Hid].
  destruct (decide (k = Z.to_nat n)) as [->|Hne].
  - rewrite Hrr in Hk. injection Hk as <-. eexists. rewrite list_lookup_insert_eq; [by eapply lookup_lt_Some|]. split; [done|].
    simpl. rewrite Hid Z.eqb_refl Z2Nat.id // Z.eqb_refl /=. split_and!; try done. intros x. simpl. by rewrite Hbuf Z.add_0_r drop_0.
  - exists q. rewrite list_lookup_insert_ne; [by apply not_eq_sym|]. split; [done|]. simpl. rewrite Hid Z.eqb_refl /=.
    rewrite (proj2 (Z.eqb_neq _ _)); [lia|done].
Qed.

Lemma run_complete_spec r g m n rc :
  reads_ok r g -> call_ok g (cap_of r) (MreadComplete m n rc) ->
  exists r' g', run_call r (MreadComplete m n rc) = LRet (r', UNIFYFS_SUCCESS) /\ reads_ok r' g' /\ cap_of r' = cap_of r /\
    reads_step [MreadComplete m n rc] g g'.
Proof.
  intros Hok (mr & Hact & Hn). destruct (active_read_slot _ _ _ _ Hact) as [_ Hid].
  simpl. unfold unifyfs_mread_req_complete_rpc. rewrite (get_mread_spec r g m Hok). cbn [lbind]. rewrite Hact.
  unfold client_update_mread_request. rewrite (proj2 (Z.leb_le 0 n)); [lia|]. rewrite (proj2 (Z.ltb_lt n _)); [lia|]. cbn [andb].
  assert (forall z, u32 (u32 (z + 1)) = u32 (z + 1)) as Hu by (intros z; apply Zmod_mod).
  destruct (rc =? 0) eqn:Hrc; cbn [negb]; eexists _, _; (split; [done|]);
    apply (reads_step_put r g (MreadComplete m n rc) mr _ Hok Hact); (split; cbn [mr_id mr_reqs mr_n_complete]; [done| | |]).
  - done.
  - intros k q Hk. exists q. split; [done|]. simpl. rewrite Hrc andb_false_r. done.
  - simpl. by rewrite Hid Z.eqb_refl Hu.
  - by rewrite length_alter.
  - intros k q Hk. destruct (decide (k = Z.to_nat n)) as [->|Hne].
    + rewrite list_lookup_alter_eq Hk. eexists. split; [done|]. simpl. by rewrite Hid Z.eqb_refl Z2Nat.id; [lia|]; rewrite Z.eqb_refl Hrc.
    + rewrite list_lookup_alter_ne; [by apply not_eq_sym|]. exists q. split; [done|]. simpl. rewrite Hid Z.eqb_refl /=.
      rewrite (proj2 (Z.eqb_neq n (Z.of_nat k))); [lia|done].
  - simpl. by rewrite Hid Z.eqb_refl Hu.
Qed.

Lemma active_read_step t g g' cap id mr :
  reads_step t g g' -> active_read g cap id = Some mr -> exists mr', active_read g' cap id = Some mr' /\ mread_step t mr mr'.
Proof.
  intros Hst [Hg Hid]%active_read_slot. specialize (Hst (slot_of cap id)). rewrite Hg in Hst. destruct Hst as (mr' & Hg' & Hms).
  exists mr'. split; [|done]. unfold active_read. rewrite Hg' /= (ms_id _ _ _ Hms) Hid Z.eqb_refl //.
Qed.

Lemma call_ok_step t g g' cap k : reads_step t g g' -> call_ok g cap k -> call_ok g' cap k.
Proof.
  intros Hst. destruct k as [m n off bs|m n rc]; simpl.
  - intros (mr & rr & (mr' & Hact & Hms)%(active_read_step _ _ _ _ _ _ Hst) & Hn & Hrr & Hbs & Ho & Hl & Hm).
    destruct (ms_req _ _ _ Hms _ _ Hrr) as (rr' & Hrr' & (_ & _ & Hlen & _)). rewrite foldl_req_apply_length in Hlen.
    exists mr', rr'. split_and!; try done; lia.
  - intros (mr & (mr' & Hact & Hms)%(active_read_step _ _ _ _ _ _ Hst) & Hn). exists mr'. by rewrite (ms_len _ _ _ Hms).
Qed.

Lemma reads_step_cons k t g g1 g2 : reads_step [k] g g1 -> reads_step t g1 g2 -> reads_step (k :: t) g g2.
Proof.
  intros Hk Ht j. specialize (Hk j). specialize (Ht j). destruct (g !! j) as [mr|].
  - destruct Hk as (mr1 & Hg1 & H1). rewrite Hg1 in Ht. destruct Ht as (mr2 & Hg2 & H2). exists mr2. split; [done|].
    by eapply mread_step_cons.
  - by rewrite Hk in Ht.
Qed.

(** The client accepts every call for its active reads. *)
Lemma run_calls_spec t r g :
  reads_ok r g -> Forall (call_ok g (cap_of r)) t ->
  exists r' g', run_calls r t = LRet (r', replicate (length t) UNIFYFS_SUCCESS) /\ reads_ok r' g' /\ cap_of r' = cap_of r /\
    reads_step t g g'.
Proof.
  revert r g. induction t as [|k t IH]; intros r g Hok Hcalls.
  { exists r, g. split_and!; [done|done|done|]. intros j. destruct (g !! j) as [mr|]; [|done]. exists mr.
    split; [done|apply mread_step_refl]. }
  apply Forall_cons in Hcalls as [Hk Hcalls].
  assert (exists r1 g1, run_call r k = LRet (r1, UNIFYFS_SUCCESS) /\ reads_ok r1 g1 /\ cap_of r1 = cap_of r /\ reads_step [k] g g1)
    as (r1 & g1 & Hrun & Hok1 & Hcap1 & Hst1).
  { destruct k; [by apply run_data_spec|by apply run_complete_spec]. }
  destruct (IH r1 g1 Hok1) as (r2 & g2 & Hrun2 & Hok2 & Hcap2 & Hst2).
  { rewrite Hcap1. eapply Forall_impl; [exact Hcalls|]. intros k'. by apply (call_ok_step [k]). }
  exists r2, g2. cbn [run_calls]. rewrite Hrun. cbn [lbind]. rewrite Hrun2. cbn [lbind].
  split_and!; [done|done|congruence|by eapply reads_step_cons].
Qed.

(** ** Buffers and coverage *)

(** A request before any data has come in. *)
Definition req_fresh rr : Prop :=
  rr_cover_begin_offset rr = SIZE_MAX /\ rr_cover_end_offset rr = SIZE_MAX /\ rr_nread rr = 0 /\ rr_errcode rr = EINPROGRESS.

(** The request after data has come in for the positions of [B]. *)
Record covered rr0 (B : Z -> option Z) rr : Prop := {
  cv_static : rr_gfid rr = rr_gfid rr0 /\ rr_offset rr = rr_offset rr0 /\ rr_length rr = rr_length rr0 /\
    rr_aiocbp rr = rr_aiocbp rr0 /\ rr_errcode rr = rr_errcode rr0;
  cv_buf a : rr_buf rr a = default (rr_buf rr0 a) (B a);
  cv_range a : B a <> None -> rr_cover_begin_offset rr <= a <= rr_cover_end_offset rr;
  cv_ends : (forall a, B a = None) /\ rr_cover_begin_offset rr = SIZE_MAX /\ rr_cover_end_offset rr = SIZE_MAX /\ rr_nread rr = 0 \/
    B (rr_cover_begin_offset rr) <> None /\ B (rr_cover_end_offset rr) <> None /\
    0 <= rr_cover_begin_offset rr <= rr_cover_end_offset rr /\ rr_cover_end_offset rr < rr_length rr0 /\
    rr_nread rr = rr_cover_end_offset rr + 1;
}.

(** Calls of a server that holds to the protocol. *)
Definition good_call (id : Z) (n : nat) (len : Z) (k : client_call) : Prop :=
  match k with
  | MreadData m n' off bs =>
      m = id -> n' = Z.of_nat n -> bs <> [] /\ 0 <= off /\ off + Z.of_nat (length bs) <= len
  | MreadComplete m n' rc => m = id -> n' = Z.of_nat n -> rc = 0
  end.

Lemma opt_write_in B off bs a :
  off <= a < off + Z.of_nat (length bs) -> opt_write B off bs a <> None.
Proof.
  intros Ha. unfold opt_write. rewrite (proj2 (Z.leb_le _ _)); [lia|]. rewrite (proj2 (Z.ltb_lt _ _)); [lia|]. simpl.
  destruct (lookup_lt_is_Some_2 bs (Z.to_nat (a - off))) as [x Hx]; [lia|]. by rewrite Hx.
Qed.

Lemma opt_write_out B off bs a : ~ (off <= a < off + Z.of_nat (length bs)) -> opt_write B off bs a = B a.
Proof. intros Ha. unfold opt_write. destruct (_ && _) eqn:Hb; [zbool; lia|done]. Qed.

Lemma opt_write_region B buf off bs a :
  region_write (fun x => default (buf x) (B x)) off bs a = default (buf a) (opt_write B off bs a).
Proof.
  unfold region_write, opt_write. destruct (_ && _) eqn:Hb; [|done]. zbool.
  rewrite nth_lookup. destruct (lookup_lt_is_Some_2 bs (Z.to_nat (a - off))) as [x Hx]; [lia|]. by rewrite Hx.
Qed.

Lemma covered_data rr0 B rr off bs :
  covered rr0 B rr -> rr_length rr0 <= ULONG_MAX -> bs <> [] -> 0 <= off -> off + Z.of_nat (length bs) <= rr_length rr0 ->
  covered rr0 (opt_write B off bs)
    (update_read_req_coverage (rr_set_buf (region_write (rr_buf rr) off bs) rr) off (Z.of_nat (length bs))).
Proof.
  intros [Hst Hbuf Hrange Hends] Hmax Hbs Hoff Hlen.
  assert (0 < Z.of_nat (length bs)) as Hpos by (destruct bs; [done|simpl; lia]).
  unfold update_read_req_coverage. cbn [rr_set_buf rr_gfid rr_offset rr_length rr_buf rr_aiocbp rr_cover_begin_offset
    rr_cover_end_offset rr_nread rr_errcode]. rewrite !(u64_small (off + _)); [unfold is_u64; lia|].
  rewrite (u64_small (off + Z.of_nat (length bs) - 1)); [unfold is_u64; lia|].
  rewrite (u64_small (_ - 1 + 1)); [unfold is_u64; lia|].
  split; cbn [rr_gfid rr_offset rr_length rr_buf rr_aiocbp rr_cover_begin_offset rr_cover_end_offset rr_nread rr_errcode]; [done| | |].
  - intros a. rewrite -opt_write_region. apply region_write_ext. apply Hbuf.
  - intros a Ha. destruct (decide (off <= a < off + Z.of_nat (length bs))) as [Hin|Hout].
    + rewrite Z.gtb_ltb. destruct (rr_cover_begin_offset rr =? SIZE_MAX), (Z.ltb_spec off (rr_cover_begin_offset rr)),
        (rr_cover_end_offset rr =? SIZE_MAX), (Z.ltb_spec (rr_cover_end_offset rr) (off + Z.of_nat (length bs) - 1)); simpl; lia.
    + rewrite opt_write_out // in Ha. pose proof (Hrange a Ha) as Hr.
      destruct Hends as [(HB & _)|(_ & _ & H1 & H2 & _)]; [by rewrite HB in Ha|].
      rewrite (proj2 (Z.eqb_neq (rr_cover_begin_offset rr) _)); [unfold SIZE_MAX; lia|].
      rewrite (proj2 (Z.eqb_neq (rr_cover_end_offset rr) _)); [unfold SIZE_MAX; lia|]. cbn [orb].
      repeat zcase; lia.
  - right.
    assert (forall a, B a <> None -> opt_write B off bs a <> None) as Hkeep.
    { intros a Ha. destruct (decide (off <= a < off + Z.of_nat (length bs))); [by apply opt_write_in|by rewrite opt_write_out]. }
    destruct Hends as [(HB & -> & -> & ->)|(Hb & He & H1 & H2 & ->)].
    + rewrite !Z.eqb_refl /=. split_and!; [apply opt_write_in; lia|apply opt_write_in; lia|lia..].
    + rewrite (proj2 (Z.eqb_neq (rr_cover_begin_offset rr) _)); [unfold SIZE_MAX; lia|].
      rewrite (proj2 (Z.eqb_neq (rr_cover_end_offset rr) _)); [unfold SIZE_MAX; lia|]. cbn [orb].
      destruct (off <? _) eqn:Hc1, (_ >? rr_cover_end_offset rr) eqn:Hc2; zbool; split_and!;
        try (by apply Hkeep); try (apply opt_write_in; lia); lia.
Qed.

Lemma covered_calls rr0 id n t :
  req_fresh rr0 -> rr_length rr0 <= ULONG_MAX -> Forall (good_call id n (rr_length rr0)) t ->
  covered rr0 (calls_buf id (Z.of_nat n) (fun _ => None) t) (foldl (req_apply id n) rr0 t).
Proof.
  intros (Hb & He & Hn & Her) Hmax. induction t as [|k t IH] using rev_ind; intros Hgood.
  { simpl. split; try done. left. done. }
  apply Forall_app in Hgood as [Hgood [Hk _]%Forall_cons]. specialize (IH Hgood).
  rewrite foldl_app calls_buf_app. simpl. destruct k as [m n' off bs|m n' rc]; simpl in *.
  - destruct (m =? id) eqn:E1, (n' =? Z.of_nat n) eqn:E2; zbool; try done. cbn [andb].
    destruct (Hk E1 E2) as (? & ? & ?). by apply covered_data.
  - destruct (m =? id) eqn:E1, (n' =? Z.of_nat n) eqn:E2; zbool; try done. cbn [andb].
    rewrite (Hk E1 E2). done.
Qed.

(** ** Reads that the servers serve *)

Section ServedReads.
Context (my_rank app_id client_id : Z) (apps : Z -> app_table).
Context (reader_known : get_app_client (apps my_rank) app_id client_id <> None).

(** The client has the reads that were submitted to its server. *)
Record sub_known g (cap : Z) (b : rd_sub) mr rr : Prop := {
  sk_read : active_read g cap (sb_mread b) = Some mr;
  sk_ndx : 0 <= sb_ndx b;
  sk_req : mr_reqs mr !! Z.to_nat (sb_ndx b) = Some rr;
  sk_ext : req_extent rr = sb_ext b;
  sk_fresh : req_fresh rr;
  sk_range : 0 <= rr_length rr <= ULONG_MAX;
}.

Lemma known_length g cap b mr rr : sub_known g cap b mr rr -> rr_length rr = ue_length (sb_ext b) /\ rr_offset rr = sub_base b.
Proof. intros H. unfold sub_base. by rewrite -(sk_ext _ _ _ _ _ H). Qed.

Lemma chunk_in_buffer b c o x :
  sub_ok apps b -> c ∈ sb_chunks b -> cr_offset c - sub_base b <= o -> o + x <= cr_offset c - sub_base b + cr_nbytes c ->
  0 <= o /\ o + x <= ue_length (sb_ext b).
Proof.
  intros Hok Hc H1 H2. pose proof (so_ext _ _ Hok) as He. rewrite Forall_forall in He. destruct (He c Hc) as [? _ ?].
  unfold sub_base in *. lia.
Qed.

Lemma served_calls_ok s g cap :
  inv my_rank app_id client_id apps s -> (forall b, b ∈ ds_subs s -> exists mr rr, sub_known g cap b mr rr) ->
  Forall (call_ok g cap) (ds_calls s).
Proof.
  intros Hinv Hk. eapply Forall_impl; [apply (in_calls _ _ _ _ _ Hinv)|].
  intros k (b & Hb & [(c & Hc & o & x & -> & Hx & Ho1 & Ho2)| ->]); destruct (Hk b Hb) as (mr & rr & Hs).
  - pose proof (vi_subs _ _ _ _ _ _ _ _ (in_static _ _ _ _ _ Hinv)) as Hok. rewrite Forall_forall in Hok.
    destruct (chunk_in_buffer b c o _ (Hok b Hb) Hc Ho1 Ho2) as [? ?]. destruct (known_length _ _ _ _ _ Hs) as [Hl _].
    exists mr, rr. destruct Hs. split_and!; try done; lia.
  - exists mr. destruct Hs. split_and!; [done|done|]. apply lookup_lt_Some in sk_req0. lia.
Qed.

Lemma served_good_calls s g cap b mr rr :
  inv my_rank app_id client_id apps s -> b ∈ ds_subs s -> sub_known g cap b mr rr ->
  Forall (good_call (sb_mread b) (Z.to_nat (sb_ndx b)) (rr_length rr)) (ds_calls s).
Proof.
  intros Hinv Hb Hs. pose proof (in_static _ _ _ _ _ Hinv) as Hst. pose proof (sk_ndx _ _ _ _ _ Hs) as Hn.
  eapply Forall_impl; [apply (in_calls _ _ _ _ _ Hinv)|].
  assert (forall b', b' ∈ ds_subs s -> sb_mread b' = sb_mread b -> sb_ndx b' = Z.of_nat (Z.to_nat (sb_ndx b)) -> b' = b) as Hkey.
  { intros b' Hb' H1 H2. apply (fmap_NoDup_inj sub_key (ds_subs s)); [apply Hst|done|done|]. unfold sub_key. f_equal; lia. }
  intros k (b' & Hb' & [(c & Hc & o & x & -> & Hx & Ho1 & Ho2)| ->]); simpl; [|done].
  intros H1 H2. rewrite (Hkey b' Hb' H1 H2) in Hc, Ho1, Ho2.
  pose proof (vi_subs _ _ _ _ _ _ _ _ Hst) as Hok. rewrite Forall_forall in Hok.
  destruct (chunk_in_buffer b c o _ (Hok b Hb) Hc Ho1 Ho2) as [? ?]. destruct (known_length _ _ _ _ _ Hs) as [Hl _].
  split_and!; [done|lia|lia].
Qed.

(** Data has come in for the positions of the chunks, and for no others. *)
Lemma served_positions s b a :
  inv my_rank app_id client_id apps s -> b ∈ ds_subs s -> sub_buf (ds_calls s) b a <> None ->
  exists c, c ∈ sb_chunks b /\ in_chunk (sub_base b) c a.
Proof.
  intros Hinv Hb. pose proof (in_static _ _ _ _ _ Hinv) as Hst. unfold sub_buf. pose proof (in_calls _ _ _ _ _ Hinv) as Hcalls.
  induction (ds_calls s) as [|k t IH] using rev_ind; [done|]. apply Forall_app in Hcalls as [Hcalls [Hk _]%Forall_cons].
  rewrite calls_buf_app. destruct k as [m n o x|m n rc]; simpl; [|by apply IH].
  destruct (m =? sb_mread b) eqn:E1, (n =? sb_ndx b) eqn:E2; zbool; simpl; try (by apply IH).
  destruct (decide (o <= a < o + Z.of_nat (length x))) as [Hin|Hout]; [intros _|rewrite opt_write_out //; by apply IH].
  destruct Hk as (b' & Hb' & [(c & Hc & o' & x' & [= -> -> -> ->] & Hx & Ho1 & Ho2)|[=]]).
  assert (b' = b) as -> by (apply (fmap_NoDup_inj sub_key (ds_subs s)); [apply Hst|done|done|]; unfold sub_key; congruence).
  exists c. split; [done|]. unfold in_chunk. lia.
Qed.

(** What a completed request looks like: its buffer has the data of the chunks
    and is otherwise unchanged, and its coverage goes from the first byte of
    data to the last one. *)
Record req_served (b : rd_sub) rr rr' : Prop := {
  rv_data c ctx k : c ∈ sb_chunks b -> chunk_log (apps (cr_rank c)) c = Some ctx -> 0 <= k < cr_nbytes c ->
    rr_buf rr' (cr_offset c - rr_offset rr + k) = log_view ctx (cr_log_offset c + k);
  rv_rest a : (forall c, c ∈ sb_chunks b -> ~ in_chunk (rr_offset rr) c a) -> rr_buf rr' a = rr_buf rr a;
  rv_static : rr_gfid rr' = rr_gfid rr /\ rr_offset rr' = rr_offset rr /\ rr_length rr' = rr_length rr /\ rr_errcode rr' = EINPROGRESS;
  rv_begin : (forall c, c ∈ sb_chunks b -> rr_cover_begin_offset rr' <= cr_offset c - rr_offset rr) /\
    exists c, c ∈ sb_chunks b /\ rr_cover_begin_offset rr' = cr_offset c - rr_offset rr;
  rv_end : (forall c, c ∈ sb_chunks b -> cr_offset c + cr_nbytes c - rr_offset rr <= rr_nread rr') /\
    exists c, c ∈ sb_chunks b /\ rr_nread rr' = cr_offset c + cr_nbytes c - rr_offset rr;
}.

Lemma served_request s g cap b mr rr rr' :
  inv my_rank app_id client_id apps s -> b ∈ ds_subs s -> sub_known g cap b mr rr -> sub_done (ds_calls s) b <> [] ->
  rr' ≡ foldl (req_apply (sb_mread b) (Z.to_nat (sb_ndx b))) rr (ds_calls s) -> req_served b rr rr'.
Proof.
  intros Hinv Hb Hs Hd Heq. destruct (done_finished _ _ _ _ s b Hinv Hb Hd) as [_ Hdel]. rewrite Forall_forall in Hdel.
  destruct (known_length _ _ _ _ _ Hs) as [Hl Ho].
  pose proof (vi_subs _ _ _ _ _ _ _ _ (in_static _ _ _ _ _ Hinv)) as Hoks. rewrite Forall_forall in Hoks.
  pose proof (Hoks b Hb) as Hok. pose proof (so_chunk _ _ Hok) as Hch. rewrite Forall_forall in Hch.
  pose proof (covered_calls rr (sb_mread b) (Z.to_nat (sb_ndx b)) (ds_calls s) (sk_fresh _ _ _ _ _ Hs)
    (proj2 (sk_range _ _ _ _ _ Hs)) (served_good_calls s g cap b mr rr Hinv Hb Hs)) as [Hst Hbuf Hrg Hends].
  rewrite Z2Nat.id in Hbuf, Hrg, Hends; [apply Hs|]. fold (sub_buf (ds_calls s) b) in Hbuf, Hrg, Hends.
  destruct Heq as (Q1 & Q2 & Q3 & _ & Q5 & Q6 & Q7 & Q8 & Q9). destruct Hst as (S1 & S2 & S3 & _ & S5).
  destruct (sk_fresh _ _ _ _ _ Hs) as (_ & _ & _ & Herr). rewrite -Q5 -Q6 in Hrg. rewrite -Q5 -Q6 -Q7 in Hends.
  assert (forall c, c ∈ sb_chunks b -> 0 < cr_nbytes c) as Hpos by (intros c Hc; by eapply chunk_ok_pos, Hch).
  assert (forall c a, c ∈ sb_chunks b -> in_chunk (sub_base b) c a -> sub_buf (ds_calls s) b a <> None) as Hsome.
  { intros c a Hc Ha. rewrite (Hdel c Hc a Ha). destruct (Hch c Hc) as (ctx & Hlog & _). unfold in_chunk in Ha.
    replace a with (cr_offset c - sub_base b + (a - (cr_offset c - sub_base b))) by lia.
    rewrite (chunk_byte_log apps _ _ _ ctx) //. lia. }
  destruct Hends as [(Hnone & _)|(Hbeg & Hend & H1 & H2 & Hnr)].
  { exfalso. destruct (sb_chunks b) as [|c cs] eqn:Hcs; [by destruct (so_some _ _ Hok)|].
    apply (Hsome c (cr_offset c - sub_base b)); [by left| |by apply Hnone]. pose proof (Hpos c ltac:(by left)). unfold in_chunk. lia. }
  split.
  - intros c ctx k Hc Hlog Hk. rewrite Q9 Hbuf Ho (Hdel c Hc); [unfold in_chunk; lia|]. by rewrite (chunk_byte_log apps _ _ _ ctx).
  - intros a Ha. rewrite Q9 Hbuf. destruct (sub_buf (ds_calls s) b a) eqn:Hsb; [|done]. exfalso.
    destruct (served_positions s b a Hinv Hb ltac:(congruence)) as (c & Hc & Hin). rewrite Ho in Ha. by apply (Ha c).
  - split_and!; congruence.
  - rewrite Ho. split.
    + intros c Hc. apply (Hrg (cr_offset c - sub_base b)), (Hsome c); [done|]. pose proof (Hpos c Hc). unfold in_chunk. lia.
    + destruct (served_positions s b _ Hinv Hb Hbeg) as (c & Hc & Hin). exists c. split; [done|].
      pose proof (Hrg (cr_offset c - sub_base b) ltac:(apply (Hsome c); [done|]; pose proof (Hpos c Hc); unfold in_chunk; lia)).
      unfold in_chunk in Hin. lia.
  - rewrite Ho Hnr. split.
    + intros c Hc. pose proof (Hrg (cr_offset c + cr_nbytes c - sub_base b - 1)
        ltac:(apply (Hsome c); [done|]; pose proof (Hpos c Hc); unfold in_chunk; lia)). lia.
    + destruct (served_positions s b _ Hinv Hb Hend) as (c & Hc & Hin). exists c. split; [done|].
      pose proof (Hrg (cr_offset c + cr_nbytes c - sub_base b - 1)
        ltac:(apply (Hsome c); [done|]; pose proof (Hpos c Hc); unfold in_chunk; lia)).
      unfold in_chunk in Hin. lia.
Qed.


End ServedReads.

(** ** A concrete client *)

(** No active reads, and room for 256 of them. *)
Definition ex_reads : client_reads :=
  ClientReads (default (ArrayList 0 0 []) (arraylist_create (Mem 1 []) 256).2) 3.

Lemma ex_reads_ok : reads_ok ex_reads ∅.
Proof.
  pose proof (arraylist_create_ok (A := client_mread_status) (Mem 1 []) 256 ltac:(lia)) as Hc.
  unfold ex_reads. destruct (arraylist_create (Mem 1 []) 256) as [m [arr|]] eqn:He; [|by vm_compute in He].
  destruct Hc as (_ & _ & Hr). assert (al_cap arr = 256) as Hcap by (vm_compute in He; by injection He as _ <-).
  simpl. split; simpl; rewrite ?Hcap; [by apply Hr|done|by exists 16777216|done|done].
Qed.

(** The request of the client that [ex_sub] is for. *)
Definition ex_rr : read_req := ReadReq 5 100 30 (fun _ => 255) 0 SIZE_MAX SIZE_MAX 0 EINPROGRESS.

