(* ===== verification/LocalRead.v ===== *)
(** * Reads that a client serves itself

    A request is completed from the extents of the client exactly when they
    cover all of it, and then its buffer holds the bytes of the log that the
    extents name. *)

From S2P Require Import Prelude.
From S2P Require Import RbTree.
From S2P Require Import Extents.
From S2P Require Import RangeTree.
From S2P Require Import SegTree.
From S2P Require Import LogIO.
From S2P Require Import Meta.
From S2P Require Import Inode.
From S2P Require Import Client.
From S2P Require Import ServerReadProps.
From S2P Require Import ClientRead.
From S2P Require Import ClientReadProps.

Implicit Types (n : seg_tree_node) (ns : list seg_tree_node).

(** ** Coverage *)

Lemma extent_coverage_spec req es el :
  0 <= rr_offset req -> 0 < rr_length req -> rr_offset req + rr_length req <= ULONG_MAX ->
  0 <= es -> 0 < el -> es + el <= ULONG_MAX ->
  get_extent_coverage req es el =
    let start := Z.max es (rr_offset req) in
    let stop := Z.min (es + el) (rr_offset req + rr_length req) in
    LRet (if start <? stop then Some (ExtentCoverage (start - rr_offset req) (start - es) (stop - start)) else None).
Proof.
  intros H1 H2 H3 H4 H5 H6. unfold get_extent_coverage.
  rewrite (u64_small (rr_offset req + rr_length req)); [unfold is_u64; lia|].
  rewrite (u64_small (rr_offset req + rr_length req - 1)); [unfold is_u64; lia|].
  rewrite (u64_small (es + el)); [unfold is_u64; lia|]. rewrite (u64_small (es + el - 1)); [unfold is_u64; lia|].
  set (st := if rr_offset req >? es then rr_offset req else es).
  set (en := if _ <? es + el - 1 then _ else _).
  assert (st = Z.max es (rr_offset req)) as -> by (unfold st; zcase; lia).
  assert (en = Z.min (es + el) (rr_offset req + rr_length req) - 1) as -> by (unfold en; zcase; lia).
  cbv zeta. set (st := Z.max _ _). set (en := Z.min _ _). destruct (st <? en) eqn:Hlt; zbool.
  - destruct (_ || _) eqn:Ho; [apply orb_true_iff in Ho as [?|?]; zbool; lia|].
    rewrite (u64_small (en - 1 - st)); [unfold is_u64; lia|]. rewrite (u64_small (en - 1 - st + 1)); [unfold is_u64; lia|].
    rewrite (u64_small (st - rr_offset req)); [unfold is_u64; lia|]. rewrite (u64_small (st - es)); [unfold is_u64; lia|].
    rewrite u64_small; [unfold is_u64; lia|]. rewrite (proj2 (Z.leb_le _ _)); [lia|]. do 3 f_equal. lia.
  - destruct (_ || _) eqn:Ho; [done|]. apply orb_false_iff in Ho as [? ?]. zbool. lia.
Qed.

(** ** Looking for holes *)

Fixpoint check_list ns (expected req_end : Z) : bool * Z :=
  match ns with
  | [] => (true, expected)
  | n :: ns =>
      if sn_start n <? req_end then
        if expected >=? sn_start n then check_list ns (sn_end n + 1) req_end else (false, expected)
      else (true, expected)
  end.

(** No extent ends at the very last offset. *)
Definition ends_ok ns : Prop := Forall (fun n => sn_end n < ULONG_MAX) ns.

Lemma check_local_eq m st es1 ns fuel expected req_end :
  rt_wf m st -> rt_nodes st = es1 ++ ns -> ends_ok ns -> (length ns <= fuel)%nat ->
  check_local fuel st (head ns) expected req_end = LRet (check_list ns expected req_end).
Proof.
  intros Hwf. revert es1 fuel expected. induction ns as [|n ns IH]; intros es1 fuel expected Heq He Hf; [by destruct fuel|].
  apply Forall_cons in He as [Hn He]. cbn [length] in Hf. destruct fuel as [|fuel]; [lia|]. cbn [check_local head check_list].
  destruct (sn_start n <? req_end); [|done]. destruct (expected >=? sn_start n); [|done].
  rewrite (seg_tree_iter_next m st es1 n ns (rt_wf_tree _ _ Hwf) Heq).
  assert (iv_wf n) as [Hn1 _]. { apply (rt_wf_elem m st n Hwf). rewrite Heq. apply elem_of_app. right. left. }
  simpl in Hn1. rewrite u64_small; [unfold is_u64; lia|]. apply (IH (es1 ++ [n])); [by rewrite -app_assoc|done|lia].
Qed.

(** Without holes from [expected] on, and only then. *)
Lemma check_list_spec ns expected req_end :
  iv_sorted ns -> (forall n, head ns = Some n -> expected <= sn_end n) ->
  let '(have, e) := check_list ns expected req_end in
  have && negb (e <? req_end) = true <-> forall x, expected <= x < req_end -> iv_lookup ns x <> None.
Proof.
  revert expected. induction ns as [|n ns IH]; intros expected Hs Hhd.
  { simpl. destruct (expected <? req_end) eqn:Hlt; zbool; simpl; split; try done; [|intros _ x Hx; lia].
    intros H. by specialize (H expected ltac:(lia)). }
  pose proof Hs as (Hn & Hs' & Hlt)%iv_sorted_cons. specialize (Hhd n eq_refl). destruct Hn as [Hn _]. simpl in Hn.
  assert (forall x, x < sn_start n -> iv_lookup (n :: ns) x = None) as Hbefore.
  { intros x Hx. apply iv_lookup_none. constructor; [simpl; lia|]. eapply Forall_impl; [exact Hlt|]. unfold iv_lt. simpl. lia. }
  cbn [check_list]. destruct (sn_start n <? req_end) eqn:H1; zbool.
  - destruct (expected >=? sn_start n) eqn:H2; zbool.
    + specialize (IH (sn_end n + 1) Hs'). destruct (check_list ns (sn_end n + 1) req_end) as [have e].
      rewrite IH.
      { intros n' Hn'. destruct ns as [|n2 ns]; [done|]. injection Hn' as ->. apply Forall_cons in Hlt as [Hlt _].
        apply iv_sorted_cons in Hs' as (Hw & _). destruct Hw as [Hw _]. unfold iv_lt in Hlt. simpl in *. lia. }
      split; intros H x Hx; simpl.
      * destruct (iv_covers n x) eqn:Hc; [done|]. apply iv_covers_false in Hc. simpl in Hc. apply H. lia.
      * specialize (H x ltac:(lia)). simpl in H. destruct (iv_covers n x) eqn:Hc; [apply iv_covers_true in Hc; simpl in Hc; lia|done].
    + split; [done|]. intros H. specialize (H expected ltac:(lia)). by rewrite Hbefore in H.
  - destruct (expected <? req_end) eqn:H2; zbool; simpl; split; try done; [|intros _ x Hx; lia].
    intros H. destruct (H expected ltac:(lia)). apply Hbefore. lia.
Qed.

(** ** Copying the data *)

Section Copy.
Context (other_log : Z -> option logio_context) (pread : Z -> Z -> io_result) (c : unifyfs_client).

(** The spill-over file of the client returns what it is asked for. *)
Definition pread_all : Prop :=
  forall off len, pread off len = inl (len - log_in_mem off len (logio_mem_size (cl_logio c))).

(** The extents are in the log of the client. *)
Definition node_in_log n : Prop :=
  sn_client_id n = cc_client_id (cl_cfg c) /\ log_range_ok (cl_logio c) (u64 (sn_ptr n)) (sn_end n - sn_start n + 1) /\
  sn_end n < ULONG_MAX.

Lemma log_range_sub l off len o k : log_range_ok l off len -> 0 <= o -> 0 < k -> o + k <= len -> log_range_ok l (off + o) k.
Proof. intros [H1 H2 H3 H4 H5] ? ? ?. split; [lia|lia|lia|done|]. intros ?. apply H5. lia. Qed.

Lemma logio_read_all l off len pr :
  log_range_ok l off len -> pr = inl (len - log_in_mem off len (logio_mem_size l)) ->
  unifyfs_logio_read l off len pr = LRet (UNIFYFS_SUCCESS, len, region_read (log_view l) off len).
Proof.
  intros Hr ->. pose proof (lr_len _ _ _ Hr) as Hn. pose proof (log_in_mem_bounds off len (logio_mem_size l) Hn).
  rewrite (logio_read_spec l off len _ Hr); [lia|lia|]. do 3 f_equal; lia.
Qed.

(** The byte of the log that an extent has for position [a] of a buffer that
    starts at file offset [off]. *)
Definition node_byte n (off a : Z) : Z := log_view (cl_logio c) (u64 (sn_ptr n) + (off + a - sn_start n)).

Lemma copy_node_spec rr0 B req n :
  pread_all -> node_in_log n -> iv_wf n -> covered rr0 B req ->
  0 <= rr_offset rr0 -> 0 < rr_length rr0 -> rr_offset rr0 + rr_length rr0 <= ULONG_MAX ->
  sn_start n < rr_offset rr0 + rr_length rr0 -> rr_offset rr0 <= sn_end n ->
  let lo := Z.max (sn_start n) (rr_offset rr0) - rr_offset rr0 in
  let hi := Z.min (sn_end n + 1) (rr_offset rr0 + rr_length rr0) - rr_offset rr0 in
  exists cov req' B',
    get_extent_coverage req (sn_start n) (u64 (u64 (sn_end n + 1) - sn_start n)) = LRet (Some cov) /\
    (let! '(rc, nread, bytes) := unifyfs_logio_read (cl_logio c) (u64 (sn_ptr n + ec_ext_offset cov)) (ec_length cov)
        (pread (u64 (sn_ptr n + ec_ext_offset cov)) (ec_length cov)) in
     LRet (if rc =? UNIFYFS_SUCCESS
           then update_read_req_coverage (rr_set_buf (region_write (rr_buf req) (ec_req_offset cov) bytes) req) (ec_req_offset cov) nread
           else rr_set_errcode rc (rr_set_buf (region_write (rr_buf req) (ec_req_offset cov) bytes) req))) = LRet req' /\
    covered rr0 B' req' /\
    (forall a, B' a = if (lo <=? a) && (a <? hi) then Some (node_byte n (rr_offset rr0) a) else B a).
Proof.
  intros Hpr (_ & Hlog & Hend) [Hw _] Hcov H1 H2 H3 H4 H5 lo hi. simpl in Hw.
  destruct (cv_static _ _ _ Hcov) as (_ & So & Sl & _ & _).
  rewrite (u64_small (sn_end n + 1)); [unfold is_u64; lia|]. rewrite u64_small; [unfold is_u64; lia|].
  rewrite extent_coverage_spec; [lia..|]. rewrite So Sl.
  replace (sn_start n + (sn_end n + 1 - sn_start n)) with (sn_end n + 1) by lia. cbv zeta.
  rewrite (proj2 (Z.ltb_lt _ _)); [lia|].
  set (eo := Z.max (sn_start n) (rr_offset rr0) - sn_start n).
  set (len := Z.min (sn_end n + 1) (rr_offset rr0 + rr_length rr0) - Z.max (sn_start n) (rr_offset rr0)).
  pose proof (log_range_sub _ _ _ eo len Hlog ltac:(unfold eo; lia) ltac:(unfold len; lia) ltac:(unfold eo, len; lia)) as Hsub.
  pose proof (lr_max _ _ _ Hsub). pose proof (lr_off _ _ _ Hsub).
  eexists _, _, (opt_write B lo (region_read (log_view (cl_logio c)) (u64 (sn_ptr n) + eo) len)). split; [done|].
  cbn [ec_ext_offset ec_length ec_req_offset]. fold eo len. rewrite -u64_add_l u64_small; [unfold is_u64; lia|].
  rewrite (logio_read_all _ _ _ _ Hsub); [apply Hpr|]. cbn [lbind]. rewrite Z.eqb_refl. split; [done|]. split.
  - fold lo. rewrite -{3}(Z2Nat.id len); [unfold len; lia|]. rewrite -(region_read_length (log_view (cl_logio c)) (u64 (sn_ptr n) + eo) len).
    apply covered_data; [done|lia| |unfold lo; lia|rewrite region_read_length; unfold lo, len; lia].
    intros Hnil. apply (f_equal length) in Hnil. rewrite region_read_length /= in Hnil. unfold len in Hnil. lia.
  - intros a. unfold opt_write. rewrite region_read_length Z2Nat.id; [unfold len; lia|].
    replace (lo + len) with hi by (unfold lo, hi, len; lia). destruct (_ && _) eqn:Ha; [|done]. zbool.
    unfold region_read. rewrite (list_lookup_fmap _ (seqZ _ _)) lookup_seqZ_lt; [unfold lo, hi, len in *; lia|]. simpl.
    unfold node_byte. do 2 f_equal. unfold eo, lo in *. lia.
Qed.

Lemma node_byte_loc n off a :
  node_in_log n -> sn_start n <= off + a <= sn_end n -> node_byte n off a = log_view (cl_logio c) (iv_loc n (off + a)).
Proof.
  intros (_ & [H1 H2 H3 _ _] & _) Ha. unfold node_byte. simpl.
  rewrite -(u64_add_l (sn_ptr n)) (u64_small (u64 (sn_ptr n) + _)); [unfold is_u64; lia|done].
Qed.

Lemma copy_local_spec fuel m st rr0 :
  rt_wf m st -> pread_all -> 0 <= rr_offset rr0 -> 0 < rr_length rr0 -> rr_offset rr0 + rr_length rr0 <= ULONG_MAX ->
  forall ns es1 B req, rt_nodes st = es1 ++ ns -> Forall node_in_log ns -> (length ns <= fuel)%nat -> covered rr0 B req ->
  Forall (fun n => rr_offset rr0 <= sn_end n) ns ->
  exists req' B', copy_local other_log pread fuel c st (head ns) (rr_offset rr0 + rr_length rr0) req = LRet req' /\
    covered rr0 B' req' /\
    forall a, B' a = match iv_lookup ns (rr_offset rr0 + a) with
                     | Some p => if (0 <=? a) && (a <? rr_length rr0) then Some (log_view (cl_logio c) p) else B a
                     | None => B a
                     end.
Proof.
  intros Hwf Hpr H1 H2 H3. induction fuel as [|fuel IH]; intros [|n ns] es1 B req Heq Hlog Hf Hcov Hend; simpl in Hf; try lia;
    try (exists req, B; by split_and!).
  apply Forall_cons in Hlog as [Hn Hlog], Hend as [He Hend]. cbn [copy_local head].
  assert (iv_sorted (n :: ns)) as Hs.
  { pose proof (rt_wf_sorted _ _ Hwf) as Hs. rewrite Heq in Hs. by apply iv_sorted_app in Hs as (_ & ? & _). }
  pose proof Hs as (Hw & _ & Hlt)%iv_sorted_cons.
  destruct (sn_start n <? rr_offset rr0 + rr_length rr0) eqn:Hst; zbool.
  2:{ exists req, B. split_and!; [done|done|]. intros a. destruct (iv_lookup (n :: ns) (rr_offset rr0 + a)) as [p|] eqn:Hl; [|done].
      destruct (_ && _) eqn:Ha; [|done]. zbool. exfalso. rewrite iv_lookup_none in Hl; [|done].
      constructor; [simpl; lia|]. eapply Forall_impl; [exact Hlt|]. destruct Hw as [Hw _]. unfold iv_lt. simpl in *. lia. }
  destruct (copy_node_spec rr0 B req n Hpr Hn Hw Hcov H1 H2 H3 Hst He) as (cov & req1 & B1 & -> & Hbody & Hcov1 & HB1).
  cbn [lift_option lbind]. rewrite (proj1 Hn) Z.eqb_refl Hbody. cbn [lbind].
  rewrite (seg_tree_iter_next m st es1 n ns (rt_wf_tree _ _ Hwf) Heq).
  destruct (IH ns (es1 ++ [n]) B1 req1) as (req2 & B2 & Hc2 & Hcov2 & HB2); [by rewrite -app_assoc|done|lia|done|done|].
  exists req2, B2. split_and!; [done|done|]. intros a. rewrite HB2 HB1. simpl. destruct Hw as [Hw _]. simpl in Hw.
  destruct (iv_covers n (rr_offset rr0 + a)) eqn:Hc.
  - apply iv_covers_true in Hc. simpl in Hc. rewrite iv_lookup_none; [eapply Forall_impl; [exact Hlt|]; unfold iv_lt; simpl; lia|].
    rewrite (node_byte_loc n (rr_offset rr0) a Hn Hc).
    assert ((Z.max (sn_start n) (rr_offset rr0) - rr_offset rr0 <=? a) &&
      (a <? Z.min (sn_end n + 1) (rr_offset rr0 + rr_length rr0) - rr_offset rr0) = (0 <=? a) && (a <? rr_length rr0)) as ->; [|done].
    apply eq_true_iff_eq. rewrite !andb_true_iff !Z.leb_le !Z.ltb_lt. lia.
  - apply iv_covers_false in Hc. simpl in Hc.
    assert ((Z.max (sn_start n) (rr_offset rr0) - rr_offset rr0 <=? a) &&
      (a <? Z.min (sn_end n + 1) (rr_offset rr0 + rr_length rr0) - rr_offset rr0) = false) as ->; [|done].
    apply andb_false_iff. destruct (Z.leb_spec (Z.max (sn_start n) (rr_offset rr0) - rr_offset rr0) a); [right|by left].
    apply Z.ltb_ge. lia.
Qed.


(** ** One request *)

(** A file that the client has, and that is not about to be deleted. *)
Record file_known fid meta : Prop := {
  fk_fid : 0 <= fid < cc_max_files (cl_cfg c);
  fk_meta : cl_filemetas c !! Z.to_nat fid = Some meta;
  fk_pending : (fid =? fm_fid meta) && fm_pending_unlink meta = false;
}.

Lemma with_meta_known {A} fid meta (k : unifyfs_client -> option unifyfs_filemeta -> lres A) :
  file_known fid meta -> with_meta c fid k = k c (Some meta).
Proof.
  intros [Hf Hm Hp]. unfold with_meta, unifyfs_get_meta_from_fid. cbn [get_meta].
  rewrite (proj2 (Z.leb_le _ _)) ?(proj2 (Z.ltb_lt _ _)); [lia|lia|]. cbn [andb]. rewrite Hm. cbn [lift_option lbind].
  rewrite Hp. cbn [lbind]. by rewrite Hm.
Qed.

(** A request that was completed: every byte of the buffer is that of the log
    at the place that the extents of the file give for it. *)
Record local_served (ext : seg_tree) rr0 rr : Prop := {
  ls_data a p : 0 <= a < rr_length rr0 -> rt_lookup ext (rr_offset rr0 + a) = Some p -> rr_buf rr a = log_view (cl_logio c) p;
  ls_rest a : ~ (0 <= a < rr_length rr0) -> rr_buf rr a = rr_buf rr0 a;
  ls_static : rr_gfid rr = rr_gfid rr0 /\ rr_offset rr = rr_offset rr0 /\ rr_length rr = rr_length rr0 /\
    rr_aiocbp rr = rr_aiocbp rr0 /\ rr_errcode rr = rr_errcode rr0;
  ls_cover : rr_cover_begin_offset rr = 0 /\ rr_cover_end_offset rr = rr_length rr0 - 1 /\ rr_nread rr = rr_length rr0;
}.

(** The extents from the one that has the first byte of a range on. *)
Lemma suffix_lookup es1 ns x off :
  iv_sorted (es1 ++ ns) -> Forall (fun n => sn_end n < off) es1 -> off <= x -> iv_lookup (es1 ++ ns) x = iv_lookup ns x.
Proof.
  intros Hs Hb Hx. induction es1 as [|n es1 IH]; [done|]. apply Forall_cons in Hb as [Hn Hb]. simpl.
  destruct (iv_covers n x) eqn:Hc; [apply iv_covers_true in Hc; simpl in Hc; lia|].
  apply IH; [|done]. by apply iv_sorted_cons in Hs as (_ & ? & _).
Qed.

Lemma suffix_ends es1 n ns off :
  iv_sorted (es1 ++ n :: ns) -> iv_overlaps off off n = true -> Forall (fun n => iv_overlaps off off n = false) es1 ->
  Forall (fun n => sn_end n < off) es1 /\ Forall (fun n => off <= sn_end n) (n :: ns).
Proof.
  intros Hs Hn Hes. pose proof Hs as ((Hw & _) & Hwn & Hl1 & Hl2)%iv_sorted_mid. apply Forall_app in Hw as [Hw1 Hw2].
  unfold iv_overlaps in Hn. zbool. simpl in *. split.
  - apply Forall_forall. intros y Hy. rewrite ->Forall_forall in Hes, Hl1, Hw1. specialize (Hes y Hy). specialize (Hl1 y Hy).
    destruct (Hw1 y Hy) as [Hy1 _].
    unfold iv_overlaps, iv_lt in *. simpl in *. apply andb_false_iff in Hes as [?|?]; zbool; lia.
  - constructor; [lia|]. apply Forall_forall. intros y Hy. rewrite ->Forall_forall in Hl2, Hw2. specialize (Hl2 y Hy).
    destruct (Hw2 y Hy) as [Hy1 _]. destruct Hwn as [Hwn _]. unfold iv_lt in *. simpl in *. lia.
Qed.

(** The search for the first extent, and the rest of the extents from it on. *)
Lemma find_suffix m ext off m' first :
  rt_wf m ext -> mem_plenty m -> is_u64 off -> seg_tree_find_nolock m ext off off = (m', first) ->
  (mem_plenty m' /\ mem_next m <= mem_next m') /\
  (first = None /\ rt_lookup ext off = None \/
   exists es1 n ns, first = Some n /\ rt_nodes ext = es1 ++ n :: ns /\ Forall (fun n => off <= sn_end n) (n :: ns) /\
     forall x, off <= x -> rt_lookup ext x = iv_lookup (n :: ns) x).
Proof.
  intros Hwf Hpl Hoff Hfind. pose proof (seg_tree_find_post m ext off off Hwf Hoff) as Hp. rewrite Hfind in Hp.
  destruct Hp as (Hnx & Hpl' & [-> |[_ Hc]]); [|by destruct Hc]. split; [split; [by apply Hpl'|done]|].
  destruct (List.find _ _) as [n|] eqn:Hf.
  - right. apply find_some_split in Hf as (es1 & ns & Heq & Hes & Hn). exists es1, n, ns.
    pose proof (rt_wf_sorted _ _ Hwf) as Hs. rewrite Heq in Hs. destruct (suffix_ends es1 n ns off Hs Hn Hes) as [He1 He2].
    split_and!; try done. intros x Hx. unfold rt_lookup. rewrite Heq. by apply (suffix_lookup _ _ _ off).
  - left. split; [done|]. apply iv_lookup_none. apply Forall_forall. intros y Hy.
    pose proof (List.find_none _ _ Hf y (proj1 (list_elem_of_In _ _) Hy)) as Hov. unfold iv_overlaps in Hov.
    apply andb_false_iff in Hov as [?|?]; zbool; lia.
Qed.

Lemma find_first_hole m ext off req_end m' first :
  rt_wf m ext -> mem_plenty m -> 0 <= off < req_end -> req_end <= ULONG_MAX -> Forall node_in_log (rt_nodes ext) ->
  seg_tree_find_nolock m ext off off = (m', first) ->
  exists have e, check_local (seg_tree_fuel ext) ext first off req_end = LRet (have, e) /\
    (have && negb (e <? req_end) = true <-> forall x, off <= x < req_end -> rt_lookup ext x <> None).
Proof.
  intros Hwf Hpl Ho He Hlog Hfind.
  destruct (find_suffix m ext off m' first Hwf Hpl ltac:(unfold is_u64; lia) Hfind)
    as [_ [[-> Hn]|(es1 & n & ns & -> & Heq & Hends & Hl)]].
  - exists true, off. split; [by destruct (seg_tree_fuel ext)|]. rewrite (proj2 (Z.ltb_lt _ _)); [lia|].
    split; [done|]. intros H. by destruct (H off ltac:(lia)).
  - rewrite (check_local_eq m ext es1 (n :: ns)) //.
    { rewrite Heq in Hlog. apply Forall_app in Hlog as [_ Hlog]. eapply Forall_impl; [exact Hlog|]. by intros y (_ & _ & ?). }
    { unfold seg_tree_fuel. fold (rt_nodes ext). rewrite Heq length_app. lia. }
    pose proof (rt_wf_sorted _ _ Hwf) as Hs. rewrite Heq in Hs. apply iv_sorted_app in Hs as (_ & Hs & _).
    pose proof (check_list_spec (n :: ns) off req_end Hs) as Hc. apply Forall_cons in Hends as [Hn _].
    destruct (check_list (n :: ns) off req_end) as [have e]. exists have, e. split; [done|].
    rewrite Hc; [by intros y [= <-]|]. split; intros H x Hx; specialize (H x Hx); rewrite Hl in H *; lia || done.
Qed.

Lemma covered_fresh rr : req_fresh rr -> covered rr (fun _ => None) rr.
Proof. intros (H1 & H2 & H3 & _). split; try done. by left. Qed.

Lemma copy_local_served m ext m' first rr :
  rt_wf m ext -> mem_plenty m -> pread_all -> req_fresh rr ->
  0 <= rr_offset rr -> 0 < rr_length rr -> rr_offset rr + rr_length rr <= ULONG_MAX ->
  Forall node_in_log (rt_nodes ext) -> seg_tree_find_nolock m ext (rr_offset rr) (rr_offset rr) = (m', first) ->
  (forall x, rr_offset rr <= x < rr_offset rr + rr_length rr -> rt_lookup ext x <> None) ->
  exists rr', copy_local other_log pread (seg_tree_fuel ext) c ext first (rr_offset rr + rr_length rr) rr = LRet rr' /\
    local_served ext rr rr'.
Proof.
  intros Hwf Hpl Hpr Hfresh H1 H2 H3 Hlog Hfind Hall.
  destruct (find_suffix m ext (rr_offset rr) m' first Hwf Hpl ltac:(unfold is_u64; lia) Hfind)
    as [_ [[-> Hn]|(es1 & n & ns & -> & Heq & Hends & Hl)]]; [by destruct (Hall (rr_offset rr) ltac:(lia))|].
  rewrite Heq in Hlog. apply Forall_app in Hlog as [_ Hlog].
  destruct (copy_local_spec (seg_tree_fuel ext) m ext rr Hwf Hpr H1 H2 H3 (n :: ns) es1 (fun _ => None) rr Heq Hlog) as (rr' & B & Hc & Hcov & HB);
    [|by apply covered_fresh|done|].
  { unfold seg_tree_fuel. fold (rt_nodes ext). rewrite Heq length_app. lia. }
  assert (forall a, B a <> None <-> 0 <= a < rr_length rr) as Hdom.
  { intros a. rewrite HB. destruct (iv_lookup _ _) eqn:Hx; [destruct (_ && _) eqn:Hb; [zbool; by split|]|].
    { split; [done|]. intros Ha. apply andb_false_iff in Hb as [?|?]; zbool; lia. }
    split; [done|]. intros Ha. rewrite -Hl in Hx; [lia|]. by destruct (Hall (rr_offset rr + a) ltac:(lia)). }
  exists rr'. split; [done|]. destruct Hcov as [Hst Hbuf Hrg Hends']. split.
  - intros a p Ha Hp. rewrite Hbuf HB -Hl; [lia|]. rewrite Hp. rewrite (proj2 (andb_true_iff _ _)); [|done].
    split; [apply Z.leb_le|apply Z.ltb_lt]; lia.
  - intros a Ha. rewrite Hbuf. destruct (B a) eqn:Hb; [|done]. destruct Ha. apply Hdom. congruence.
  - done.
  - destruct Hends' as [(Hnone & _)|(Hb1 & Hb2 & Hb & He & Hnr)].
    { exfalso. apply (proj2 (Hdom 0)); [lia|apply Hnone]. }
    pose proof (Hrg 0 (proj2 (Hdom 0) ltac:(lia))). pose proof (Hrg (rr_length rr - 1) (proj2 (Hdom (rr_length rr - 1)) ltac:(lia))). lia.
Qed.

(** The data is copied without the allocator. *)
Lemma copy_local_mem m fuel ext first req_end rr :
  copy_local other_log pread fuel (cl_set_mem m c) ext first req_end rr = copy_local other_log pread fuel c ext first req_end rr.
Proof.
  revert first rr. induction fuel as [|fuel IH]; intros first rr; [done|]. destruct first as [n|]; [|done]. cbn [copy_local].
  destruct (sn_start n <? _); [|done]. destruct (get_extent_coverage _ _ _) as [[cov|]| |]; cbn [lbind lift_option]; try done.
  simpl cl_cfg. simpl cl_logio. destruct (if _ =? _ then _ else _); cbn [lbind]; [|apply IH].
  destruct (unifyfs_logio_read _ _ _ _) as [[[? ?] ?]| |]; by cbn [lbind].
Qed.

(** Reads from the extents that the client has itself: when they cover the
    whole request it is completed, with the bytes of the log at the places that
    the extents give, all [length] bytes read and the coverage complete; when a
    byte of it is missing, the request is left as it is for the server. *)
Lemma local_read_spec rr fid meta :
  unifyfs_fid_from_gfid c (rr_gfid rr) = fid -> file_known fid meta -> rt_wf (cl_mem c) (fm_extents meta) -> mem_plenty (cl_mem c) ->
  Forall node_in_log (rt_nodes (fm_extents meta)) -> pread_all -> req_fresh rr ->
  0 <= rr_offset rr -> 0 < rr_length rr -> rr_offset rr + rr_length rr <= ULONG_MAX ->
  exists m, (mem_plenty m /\ mem_next (cl_mem c) <= mem_next m) /\
  ((exists rr', (forall x, rr_offset rr <= x < rr_offset rr + rr_length rr -> rt_lookup (fm_extents meta) x <> None) /\
      service_local_req other_log pread c rr = LRet (cl_set_mem m c, true, rr') /\ local_served (fm_extents meta) rr rr') \/
   ((exists x, rr_offset rr <= x < rr_offset rr + rr_length rr /\ rt_lookup (fm_extents meta) x = None) /\
      service_local_req other_log pread c rr = LRet (cl_set_mem m c, false, rr))).
Proof.
  intros Hfid Hk Hwf Hpl Hlog Hpr Hfresh H1 H2 H3. unfold service_local_req. rewrite Hfid.
  pose proof (fk_fid _ _ Hk) as Hr. rewrite (proj2 (Z.ltb_ge _ _)); [lia|]. rewrite u64_small; [unfold is_u64; lia|].
  rewrite (with_meta_known fid meta) //. destruct (seg_tree_find_nolock _ _ _ _) as [m first] eqn:Hfind.
  destruct (find_first_hole _ _ (rr_offset rr) (rr_offset rr + rr_length rr) _ _ Hwf Hpl ltac:(lia) ltac:(lia) Hlog Hfind)
    as (have & e & Hcheck & Hiff). rewrite Hcheck. cbn [lbind].
  exists m. split; [by apply (find_suffix _ _ (rr_offset rr) _ _ Hwf Hpl ltac:(unfold is_u64; lia) Hfind)|].
  destruct (have && negb (e <? _)) eqn:Hb; cbn [negb].
  - left. destruct (copy_local_served _ _ _ _ rr Hwf Hpl Hpr Hfresh H1 H2 H3 Hlog Hfind) as (rr' & Hc & Hs); [by apply Hiff|].
    exists rr'. split_and!; [by apply Hiff| |done].
    by rewrite copy_local_mem Hc.
  - right. split; [|done]. destruct (decide (Forall (fun x => rt_lookup (fm_extents meta) x <> None)
      (seqZ (rr_offset rr) (rr_length rr)))) as [Hall|Hex].
    + exfalso. enough (false = true) as [=]. apply Hiff. intros x Hx.
      rewrite Forall_forall in Hall. apply Hall. apply elem_of_seqZ. lia.
    + apply not_Forall_Exists in Hex; [|apply _]. apply Exists_exists in Hex as (x & Hx & Hn). exists x. apply elem_of_seqZ in Hx.
      split; [lia|]. simpl in Hn. destruct (rt_lookup _ x); [by destruct Hn|done].
Qed.

End Copy.
