(* ===== verification/ClientWrite.v ===== *)
(** * Writes of a client

    The files of a client as maps from bytes to data: a write appends to the
    log and makes the data the contents of the range of the file; it changes
    nothing else, and the index of writes has room for what is passed to the
    server.

    The log is in shared memory: an allocation in the spill-over file can
    return space that is in use ([LogIO.logio_alloc_overlaps]). *)

From Stdlib Require Import String.
From S2P Require Import Prelude.
From S2P Require Import RbTree.
From S2P Require Import Extents.
From S2P Require Import RangeTree.
From S2P Require Import SegTree.
From S2P Require Import SlotMap.
From S2P Require Import LogIO.
From S2P Require Import IdStack.
From S2P Require Import Meta.
From S2P Require Import Inode.
From S2P Require Import Client.
From S2P Require Import ServerReadProps.
From S2P Require Import ClientRead.
From S2P Require Import ClientReadProps.
From S2P Require Import LocalRead.

Implicit Types (l : logio_context) (bs : list Z) (t : seg_tree).

(** ** Appending to the log *)

(** A log in shared memory whose number of chunks is a multiple of 8, as the
    slot map needs to keep runs in range ([LogIO.logio_alloc_out_of_range]). *)
Record log_ok l (s : log_header) : Prop := {
  lk_mem : shmem l = Some s;
  lk_spill : spill_hdr l = None;
  lk_hdr : hdr_ok s;
  lk_mod : total_slots (chunk_map s) mod 8 = 0;
}.

(** The byte is in a chunk that is in use. *)
Definition byte_live l (p : Z) : Prop :=
  exists s, shmem l = Some s /\ 0 <= p < data_sz s /\ chunk_used (shmem l) (p / chunk_sz s) = true.

(** All of [bs] is at [off] of the log, and what was in use is still there. *)
Record appended l bs l' (off : Z) : Prop := {
  av_ok : exists s, log_ok l' s;
  av_range : 0 <= off /\ off + Z.of_nat (length bs) <= logio_mem_size l';
  av_new i : 0 <= i < Z.of_nat (length bs) -> byte_live l' (off + i);
  av_data i : 0 <= i < Z.of_nat (length bs) -> log_view l' (off + i) = nth (Z.to_nat i) bs 0;
  av_keep p : byte_live l p -> byte_live l' p /\ log_view l' p = log_view l p;
}.

Lemma log_ok_data l s : log_ok l s -> 0 <= data_sz s <= ULONG_MAX /\ logio_mem_size l = data_sz s.
Proof.
  intros [Hs _ [Hm Hc Hd Hmax _] _]. unfold logio_mem_size. rewrite Hs. split; [|done].
  apply slotmap_reach_wf in Hm as [[_ _ [Ht _] _ _ _] _]. nia.
Qed.

(** Without a spill-over file, an allocation is a run of free chunks or there
    is no space. *)
Lemma logio_alloc_mem l s nbytes :
  log_ok l s -> 0 < nbytes ->
  exists s', hdr_ok s' /\ total_slots (chunk_map s') = total_slots (chunk_map s) /\ chunk_sz s' = chunk_sz s /\
    data_sz s' = data_sz s /\ data_offset s' = data_offset s /\
  let l' := with_headers l (Some s') None in
  (unifyfs_logio_alloc l nbytes 0 = LRet (l', ENOSPC, 0) /\ keeps (Some s) (Some s') \/
   exists r, unifyfs_logio_alloc l nbytes 0 = LRet (l', UNIFYFS_SUCCESS, r * chunk_sz s) /\
     takes (Some s) (Some s') r (bytes_to_chunks nbytes (chunk_sz s)) /\
     r + bytes_to_chunks nbytes (chunk_sz s) <= total_slots (chunk_map s)).
Proof.
  intros [Hs Hsp Hok Hmod] Hn. pose proof Hok as [Hm Hc Hd Hmax Hlock].
  pose proof (bytes_to_chunks_spec nbytes (chunk_sz s) Hc ltac:(lia)) as [Hb _].
  assert (0 < bytes_to_chunks nbytes (chunk_sz s)) as Hnc by nia.
  unfold unifyfs_logio_alloc, logio_alloc_mem_part. rewrite (proj2 (Z.eqb_neq nbytes 0)); [lia|]. rewrite Hs Hsp.
  unfold logio_alloc_shmem, LOCK_LOG_HEADER. rewrite Hlock. cbn [lbind chunk_sz set_updating chunk_map].
  destruct (slotmap_reserve_cases (chunk_map s) (bytes_to_chunks nbytes (chunk_sz s)) Hm ltac:(lia))
    as [->|(cm' & r & -> & Hr & _ & Hp & Hm')]; cbn [lift_slotmap lbind].
  - cbn [Z.eqb negb lbind]. eexists. split; [|split; [|split; [|split; [|split; [|left; split; [done|done]]]]]]; done.
  - rewrite (proj2 (Z.eqb_neq r (-1)) Hr). cbn [negb lbind]. 
    rewrite (run_offset s _ cm' r Hok Hnc Hp). eexists.
    pose proof Hp as [(Hr0 & HN & _) _ Htot _ _].
    split; [|split; [|split; [|split; [|split; [|right; exists r; split; [done|]]]]]]; try done.
    + split; simpl; try done. by rewrite Htot.
    + split; [by apply reserve_post_takes|].
      apply slotmap_reach_wf in Hm as [Hwf _]. pose proof (slotmap_wf_slots _ Hwf).
      unfold usemap_slots in *. Z.div_mod_to_equations. lia.
Qed.

(** Chunks of a byte range. *)
Lemma chunk_range r n sz k : 0 < sz -> r * sz <= k < (r + n) * sz -> r <= k / sz < r + n.
Proof. intros Hs Hk. split; [apply Z.div_le_lower_bound; nia|apply Z.div_lt_upper_bound; nia]. Qed.

Lemma byte_live_eq l l' s s' p :
  shmem l = Some s -> shmem l' = Some s' -> chunk_sz s' = chunk_sz s -> data_sz s' = data_sz s ->
  (forall j, 0 <= j -> chunk_used (Some s) j = true -> chunk_used (Some s') j = true) -> hdr_ok s ->
  byte_live l p -> byte_live l' p.
Proof.
  intros Hs Hs' Hc Hd Hu Hok (s0 & Hs0 & Hr & Hl). rewrite Hs in Hs0, Hl. injection Hs0 as <-. exists s'.
  rewrite Hs' Hc Hd. split_and!; try lia; [done|]. apply Hu; [apply Z.div_pos; [lia|]; apply Hok|done].
Qed.

(** A write within the shared memory does not touch the spill-over file. *)
Lemma logio_write_mem l off bs pw :
  0 <= off -> 0 < Z.of_nat (length bs) -> off + Z.of_nat (length bs) <= logio_mem_size l -> logio_mem_size l <= ULONG_MAX ->
  unifyfs_logio_write l off bs pw = unifyfs_logio_write l off bs (inl 0).
Proof.
  intros H1 H2 H3 H4. unfold unifyfs_logio_write. rewrite (proj2 (Z.eqb_neq _ 0)); [lia|].
  rewrite get_log_sizes_eq; [lia..|]. assert (log_in_mem off (Z.of_nat (length bs)) (logio_mem_size l) = Z.of_nat (length bs)) as ->
    by (unfold log_in_mem; lia). by rewrite Z.sub_diag.
Qed.

Lemma log_view_headers l s s' :
  shmem l = Some s -> spill_hdr l = None -> data_offset s' = data_offset s -> data_sz s' = data_sz s ->
  forall a, log_view (with_headers l (Some s') None) a = log_view l a.
Proof. intros H1 H2 H3 H4 a. unfold log_view, logio_mem_size. simpl. by rewrite H1 H2 H3 H4. Qed.

Lemma logio_append l s bs pw :
  log_ok l s -> bs <> [] ->
  (exists s', log_ok (with_headers l (Some s') None) s' /\
     unifyfs_logio_alloc l (Z.of_nat (length bs)) 0 = LRet (with_headers l (Some s') None, ENOSPC, 0) /\
     forall p, byte_live l p -> byte_live (with_headers l (Some s') None) p /\ log_view (with_headers l (Some s') None) p = log_view l p) \/
  (exists l1 l2 off, unifyfs_logio_alloc l (Z.of_nat (length bs)) 0 = LRet (l1, UNIFYFS_SUCCESS, off) /\
     unifyfs_logio_write l1 off bs pw = LRet (l2, UNIFYFS_SUCCESS, Z.of_nat (length bs)) /\ appended l bs l2 off).
Proof.
  intros Hl Hbs. assert (0 < Z.of_nat (length bs)) as Hn by (destruct bs; [done|simpl; lia]).
  destruct (logio_alloc_mem l s _ Hl Hn) as (s' & Hok & Ht & Hc & Hd & Hdo & Hcase).
  destruct (log_ok_data l s Hl) as [Hdat Hms]. pose proof Hl as [Hs Hsp Hh Hmod].
  set (l1 := with_headers l (Some s') None) in *.
  assert (log_ok l1 s') as Hl1 by (split; [done|done|done|by rewrite Ht]).
  destruct Hcase as [[Ha Hk]|(r & Ha & (Hr0 & Hfree & Hu) & Hrt)].
  { left. exists s'. split_and!; [done|done|]. intros p Hp. split; [|by apply (log_view_headers l s)].
    apply (byte_live_eq l l1 s s'); try done. intros j Hj. by rewrite Hk. }
  right. pose proof (ho_chunk _ Hh) as Hcs. pose proof (ho_data _ Hh) as Hds.
  pose proof (bytes_to_chunks_spec (Z.of_nat (length bs)) (chunk_sz s) Hcs ltac:(lia)) as [Hb Hb0].
  set (n := bytes_to_chunks _ _) in *.
  assert (logio_mem_size l1 = data_sz s) as Hms1 by done.
  assert (r * chunk_sz s + Z.of_nat (length bs) <= data_sz s) as Hin by nia.
  assert (log_range_ok l1 (r * chunk_sz s) (Z.of_nat (length bs))) as Hrange.
  { split; [nia|lia|lia|lia|]. rewrite Hms1. lia. }
  destruct (logio_write_spec l1 (r * chunk_sz s) bs 0 Hrange) as (l2 & Hw & Hs2 & Hsp2 & Hv); rewrite ?Hms1.
  { unfold log_in_mem. nia. } { unfold log_in_mem. nia. }
  rewrite Hms1 in Hw, Hv. assert (log_in_mem (r * chunk_sz s) (Z.of_nat (length bs)) (data_sz s) = Z.of_nat (length bs)) as Hlm
    by (unfold log_in_mem; nia). rewrite Hlm Z.add_0_r in Hw, Hv. rewrite Nat2Z.id firstn_all in Hv.
  exists l1, l2, (r * chunk_sz s). split_and!; [done|rewrite logio_write_mem //; nia|]. split.
  - exists s'. split; rewrite ?Hs2 ?Hsp2; try done. apply Hl1.
  - split; [nia|]. unfold logio_mem_size. rewrite Hs2. simpl. lia.
  - intros i Hi. exists s'. rewrite Hs2. split_and!; [done|nia|nia|]. rewrite Hc Hu; [apply Z.div_pos; nia|].
    pose proof (chunk_range r n (chunk_sz s) (r * chunk_sz s + i) Hcs ltac:(nia)). unfold in_run.
    rewrite (proj2 (Z.leb_le _ _)) ?(proj2 (Z.ltb_lt _ _)); [lia|lia|done].
  - intros i Hi. rewrite Hv. unfold region_write. rewrite (proj2 (Z.leb_le _ _)) ?(proj2 (Z.ltb_lt _ _)); [lia|lia|].
    simpl. f_equal. lia.
  - intros p Hp. split; [apply (byte_live_eq l l2 s s'); try done|].
    { intros j Hj Huj. by rewrite Hu // Huj orb_true_r. }
    rewrite Hv region_write_outside; [|by apply (log_view_headers l s)].
    destruct Hp as (s0 & Hs0 & Hp & Hlive). rewrite Hs in Hs0, Hlive. injection Hs0 as <-.
    destruct (decide (r * chunk_sz s <= p < r * chunk_sz s + Z.of_nat (length bs))); [|lia].
    rewrite Hfree in Hlive; [apply chunk_range; [done|nia]|done].
Qed.

(** ** The files of a client *)

Implicit Types (c : unifyfs_client) (meta : unifyfs_filemeta).

(** A tree whose bytes are in the log of the client. *)
Record tree_ok c t : Prop := {
  to_wf : rt_wf (cl_mem c) t;
  to_live x p : rt_lookup t x = Some p -> byte_live (cl_logio c) p /\ x < ULONG_MAX;
  to_owner : Forall (fun n => sn_client_id n = cc_client_id (cl_cfg c)) (rt_nodes t);
}.

Record file_ok c meta : Prop := {
  fo_extents : tree_ok c (fm_extents meta);
  fo_sync : tree_ok c (fm_extents_sync meta);
  fo_count : Z.of_nat (length (rt_nodes (fm_extents_sync meta))) < cc_max_write_index_entries (cl_cfg c);
  fo_needs : rt_nodes (fm_extents_sync meta) <> [] -> fm_needs_writes_sync meta = true;
}.

Record files_ok c : Prop := {
  fs_log : exists s, log_ok (cl_logio c) s;
  fs_mem : mem_plenty (cl_mem c);
  fs_index : 3 <= cc_max_write_index_entries (cl_cfg c) <= ULONG_MAX;
  fs_files : Forall (file_ok c) (cl_filemetas c);
}.

(** The contents of file [i]: the byte at offset [x], if one was written. *)
Definition contents c (i : nat) (x : Z) : option Z :=
  meta ← cl_filemetas c !! i; p ← rt_lookup (fm_extents meta) x; Some (log_view (cl_logio c) p).

(** What says which file a slot is for. *)
Definition file_ident meta : Z * file_storage * bool * unifyfs_file_attr_t :=
  (fm_fid meta, fm_storage meta, fm_pending_unlink meta, fm_attrs meta).

(** [c'] has the files of [c] and keeps what the trees of [c] refer to. *)
Record grows c c' : Prop := {
  gr_cfg : cl_cfg c' = cl_cfg c;
  gr_names : cl_filelist c' = cl_filelist c;
  gr_ident : file_ident <$> cl_filemetas c' = file_ident <$> cl_filemetas c;
  gr_mem : mem_next (cl_mem c) <= mem_next (cl_mem c');
  gr_live p : byte_live (cl_logio c) p -> byte_live (cl_logio c') p /\ log_view (cl_logio c') p = log_view (cl_logio c) p;
}.

Lemma grows_refl c : grows c c.
Proof. split; [done|done|done|lia|done]. Qed.

Lemma grows_trans c1 c2 c3 : grows c1 c2 -> grows c2 c3 -> grows c1 c3.
Proof.
  intros [A1 A2 A3 A4 A5] [B1 B2 B3 B4 B5]. split; [congruence|congruence|congruence|lia|]. intros p Hp.
  destruct (A5 p Hp) as [Hp2 H2]. destruct (B5 p Hp2) as [Hp3 H3]. split; [done|congruence].
Qed.

Lemma tree_ok_grows c c' t : grows c c' -> tree_ok c t -> tree_ok c' t.
Proof.
  intros [Hc _ _ Hm Hl] [Hw Hb Ho]. split; [by apply (rt_wf_mono (cl_mem c))| |by rewrite Hc].
  intros x p Hx. destruct (Hb x p Hx) as [Hp ?]. split; [by apply Hl|done].
Qed.

Lemma tree_ok_same c c' t :
  cl_cfg c' = cl_cfg c -> cl_mem c' = cl_mem c -> cl_logio c' = cl_logio c -> tree_ok c t -> tree_ok c' t.
Proof. intros H1 H2 H3 [Hw Hb Ho]. split; [by rewrite H2|by rewrite H3|by rewrite H1]. Qed.

Lemma file_ok_grows c c' meta : grows c c' -> file_ok c meta -> file_ok c' meta.
Proof.
  intros Hg [H1 H2 H3 H4]. split; [by apply (tree_ok_grows c)|by apply (tree_ok_grows c)| |done].
  by rewrite (gr_cfg _ _ Hg).
Qed.

Lemma tree_ok_null c mx : tree_ok c (mk_range_tree RB_NULL 0 mx).
Proof. split; [apply rt_wf_null|done|constructor]. Qed.

Lemma contents_grows c c' i x :
  files_ok c -> grows c c' -> (fm_extents <$> cl_filemetas c' !! i) = (fm_extents <$> cl_filemetas c !! i) ->
  contents c' i x = contents c i x.
Proof.
  intros Hok Hg He. unfold contents. pose proof (fs_files _ Hok) as Hf. rewrite Forall_lookup in Hf.
  destruct (cl_filemetas c !! i) as [m|] eqn:Hm, (cl_filemetas c' !! i) as [m'|]; try done. simpl in *.
  injection He as ->. destruct (rt_lookup (fm_extents m) x) as [p|] eqn:Hp; [|done]. simpl. f_equal.
  apply (gr_live _ _ Hg). by apply (to_live _ _ (fo_extents _ _ (Hf i m Hm)) x).
Qed.

(** *** A segment added to a tree *)

Record tree_added c t (pos len log_pos : Z) (m : mem) t' : Prop := {
  ta_next : mem_next (cl_mem c) <= mem_next m;
  ta_mem : mem_plenty m;
  ta_ok : tree_ok (cl_set_mem m c) t';
  ta_lookup x : rt_lookup t' x = if (pos <=? x) && (x <? pos + len) then Some (log_pos + (x - pos)) else rt_lookup t x;
  ta_count : (length (rt_nodes t') <= 2 + length (rt_nodes t))%nat;
}.

Lemma tree_add_ok c t pos len log_pos :
  tree_ok c t -> mem_plenty (cl_mem c) -> 0 <= pos -> 0 < len -> pos + len <= ULONG_MAX -> 0 <= log_pos -> log_pos + len <= ULONG_MAX ->
  (forall i, 0 <= i < len -> byte_live (cl_logio c) (log_pos + i)) ->
  exists m t', tree_add c t pos len log_pos = LRet (cl_set_mem m c, t') /\ tree_added c t pos len log_pos m t'.
Proof.
  intros [Hw Hb Ho] Hpl H1 H2 H3 H4 H5 Hlive. unfold tree_add. rewrite u64_small; [unfold is_u64; lia|].
  assert (valid_range pos (pos + len - 1)) as Hr by (split; lia).
  destruct (seg_tree_add_post (cl_mem c) t pos (pos + len - 1) log_pos (cc_client_id (cl_cfg c)) Hw Hr) as (m & t' & rc & Hadd & Hp).
  pose proof (seg_tree_add_grows _ _ _ _ _ _ _ _ _ Hw Hr Hadd) as Hgr. rewrite Hadd. cbn [lift_option lbind].
  destruct (ap_plenty _ _ _ _ _ _ _ _ _ Hp Hpl) as [-> Hpl']. exists m, t'. split; [done|].
  assert (forall x, rt_lookup t' x = if (pos <=? x) && (x <? pos + len) then Some (log_pos + (x - pos)) else rt_lookup t x) as Hl.
  { intros x. destruct (_ && _) eqn:Hx.
    - zbool. rewrite (ap_inside _ _ _ _ _ _ _ _ _ Hp) //; [lia|]. rewrite u64_small //. unfold is_u64. lia.
    - apply (ap_outside _ _ _ _ _ _ _ _ _ Hp). apply andb_false_iff in Hx as [?|?]; zbool; lia. }
  split; [apply Hp|done| |done|done]. split; [apply Hp| |]; simpl.
  - intros x p. rewrite Hl. destruct (_ && _) eqn:Hx; [|apply Hb]. zbool. intros [= <-]. split; [apply Hlive|]; lia.
  - apply Forall_forall. intros e He. destruct (ap_owner _ _ _ _ _ _ _ _ _ Hp e He) as [?|(e' & He' & ->)]; [done|].
    rewrite Forall_forall in Ho. by apply Ho.
Qed.

(** ** Synchronisation *)

Lemma seg_tree_walk_nodes m t : rt_wf m t -> seg_tree_walk (seg_tree_fuel t) t None = Some (rt_nodes t).
Proof.
  intros Hwf. unfold seg_tree_fuel. fold (rt_nodes t). cbn [seg_tree_walk]. rewrite seg_tree_iter_first.
  destruct (rt_nodes t) as [|n es] eqn:Heq; [done|]. cbn [head].
  by rewrite (seg_tree_walk_from _ m t [] n es (rt_wf_tree _ _ Hwf) Heq); [simpl; lia|].
Qed.

(** The place in the log that a write index gives for a byte. *)
Fixpoint index_lookup (ix : list unifyfs_index) (x : Z) : option Z :=
  match ix with
  | [] => None
  | e :: ix =>
      if (ix_file_pos e <=? x) && (x <? ix_file_pos e + ix_length e) then Some (ix_log_pos e ⊞ (x - ix_file_pos e))
      else index_lookup ix x
  end.

Lemma index_lookup_nodes gfid (ns : list seg_tree_node) x :
  Forall iv_wf ns -> Forall (fun n => sn_end n < ULONG_MAX) ns -> index_lookup (index_entry gfid <$> ns) x = iv_lookup ns x.
Proof.
  intros Hw He. induction Hw as [|n ns [Hn _] Hw IH]; [done|]. apply Forall_cons in He as [Hn2 He].
  rewrite fmap_cons. cbn [index_lookup iv_lookup]. simpl in Hn. rewrite IH //. cbn [index_entry ix_file_pos ix_length ix_log_pos].
  rewrite (u64_small (sn_end n - sn_start n)); [unfold is_u64; lia|]. rewrite (u64_small (sn_end n - sn_start n + 1)); [unfold is_u64; lia|].
  destruct (iv_covers n x) eqn:Hc.
  - apply iv_covers_true in Hc. simpl in Hc. rewrite (proj2 (Z.leb_le _ _)) ?(proj2 (Z.ltb_lt _ _)); [lia|lia|done].
  - apply iv_covers_false in Hc. simpl in Hc. destruct (_ && _) eqn:Hb; [zbool; lia|done].
Qed.

Lemma node_ends m t n :
  rt_wf m t -> (forall x p, rt_lookup t x = Some p -> x < ULONG_MAX) -> n ∈ rt_nodes t -> sn_end n < ULONG_MAX.
Proof.
  intros Hwf Hl Hn. destruct (rt_wf_elem m t n Hwf Hn) as [[Hw _] _]. simpl in Hw.
  apply (Hl (sn_end n) (iv_loc n (sn_end n))). 
  apply (iv_lookup_elem (rt_nodes t) n); [by apply (rt_wf_sorted m)|done|]. simpl. lia.
Qed.

Section Server.
Context {S : Type} `{!ServerRpc S}.
Implicit Types (s : S).

(** File [fid] has [meta'] now. *)
Definition metas_set c (fid : Z) meta' c' : Prop := cl_filemetas c' = <[Z.to_nat fid := meta']> (cl_filemetas c).

Lemma ident_set c fid meta meta' c' :
  file_known c fid meta -> metas_set c fid meta' c' -> file_ident meta' = file_ident meta ->
  file_ident <$> cl_filemetas c' = file_ident <$> cl_filemetas c.
Proof.
  intros Hk -> Hi. rewrite list_fmap_insert Hi. apply list_insert_id. by rewrite list_lookup_fmap (fk_meta _ _ _ Hk).
Qed.

(** What a synchronisation leaves: no unsynced extents of the file. *)
Record sync_post c (fid : Z) meta c' meta' : Prop := {
  sy_cfg : cl_cfg c' = cl_cfg c;
  sy_mem : cl_mem c' = cl_mem c;
  sy_logio : cl_logio c' = cl_logio c;
  sy_files : cl_filelist c' = cl_filelist c;
  sy_metas : metas_set c fid meta' c';
  sy_meta : exists t b, meta' = fm_set_writes_sync b (fm_set_extents_sync t meta) /\ tree_ok c t /\ rt_nodes t = [];
}.

(** What is passed to the server: entries for the unsynced extents. *)
Record index_post c meta (ix : list unifyfs_index) : Prop := {
  xp_some : ix <> [];
  xp_room : Z.of_nat (length ix) <= cc_max_write_index_entries (cl_cfg c);
  xp_gfid : Forall (fun e => ix_gfid e = fa_gfid (fm_attrs meta)) ix;
  xp_bytes x : index_lookup ix x = rt_lookup (fm_extents_sync meta) x;
}.

Lemma sync_post_cleared c fid meta t c' :
  file_known c fid meta -> tree_ok c t -> rt_nodes t = [] ->
  cl_cfg c' = cl_cfg c -> cl_mem c' = cl_mem c -> cl_logio c' = cl_logio c -> cl_filelist c' = cl_filelist c ->
  cl_filemetas c' = alter (fm_set_writes_sync false) (Z.to_nat fid) (alter (fm_set_extents_sync t) (Z.to_nat fid) (cl_filemetas c)) ->
  sync_post c fid meta c' (fm_set_writes_sync false (fm_set_extents_sync t meta)).
Proof.
  intros Hk Ht Hn H1 H2 H3 H4 H5. pose proof (fk_meta _ _ _ Hk) as Hm. split; try done; [|by eexists _, _].
  unfold metas_set. rewrite H5 (list_alter_insert (fm_set_extents_sync t) _ _ meta) //.
  rewrite (list_alter_insert _ _ _ (fm_set_extents_sync t meta)); [by apply list_lookup_insert_eq, (lookup_lt_Some _ _ _ Hm)|].
  apply list_insert_insert_eq.
Qed.

Lemma index_post_nodes c meta :
  file_ok c meta -> rt_nodes (fm_extents_sync meta) <> [] ->
  index_post c meta (index_entry (fa_gfid (fm_attrs meta)) <$> rt_nodes (fm_extents_sync meta)).
Proof.
  intros [_ Hsync Hcount _] Hne. split.
  - by destruct (rt_nodes (fm_extents_sync meta)).
  - rewrite length_fmap. lia.
  - by apply Forall_fmap, Forall_true.
  - intros x. apply index_lookup_nodes; [apply (rt_wf_sorted (cl_mem c)), Hsync|]. apply Forall_forall. intros n Hn.
    apply (node_ends (cl_mem c) (fm_extents_sync meta)); [apply Hsync| |done]. intros y p Hy. by apply (to_live _ _ Hsync y p).
Qed.

Lemma sync_extents_spec c s fid meta :
  files_ok c -> file_known c fid meta -> fm_fid meta = fid ->
  exists c' meta' s' rc, unifyfs_fid_sync_extents c s fid = LRet (c', s', rc) /\ sync_post c fid meta c' meta' /\
    (rt_nodes (fm_extents_sync meta) = [] /\ s' = s /\ rc = UNIFYFS_SUCCESS \/
     exists ix, index_post c meta ix /\
       rpc_fsync s (cc_app_id (cl_cfg c)) (cc_client_id (cl_cfg c)) (fa_gfid (fm_attrs meta)) ix = (s', rc)).
Proof.
  intros Hok Hk Hfid. pose proof (fs_files _ Hok) as Hf. rewrite Forall_lookup in Hf.
  destruct (Hf _ _ (fk_meta _ _ _ Hk)) as [Hext Hsync Hcount Hneeds]. unfold unifyfs_fid_sync_extents.
  rewrite (with_meta_known c fid meta) // Hfid Z.eqb_refl. cbn [negb].
  destruct (fm_needs_writes_sync meta) eqn:Hn.
  2:{ assert (rt_nodes (fm_extents_sync meta) = []) as Hnil
        by (destruct (rt_nodes (fm_extents_sync meta)) eqn:Hr; [done|specialize (Hneeds ltac:(done)); done]).
      exists c, meta, s, UNIFYFS_SUCCESS. split; [done|]. split; [|by left]. split; try done.
      - unfold metas_set. by rewrite list_insert_id // (fk_meta _ _ _ Hk).
      - exists (fm_extents_sync meta), false. split_and!; [|done|done]. destruct meta; simpl in *; by subst. }
  unfold rewrite_index_from_seg_tree. rewrite (seg_tree_walk_nodes (cl_mem c)); [apply Hsync|]. cbn [lift_option lbind].
  rewrite Z.gtb_ltb (proj2 (Z.ltb_ge _ _)); [lia|]. rewrite (seg_tree_clear_spec (cl_mem c)); [apply Hsync|]. cbn [lift_option lbind].
  match goal with |- context [mk_range_tree RB_NULL 0 ?x] => set (mx := x) end. cbn [cl_index cl_set_index].
  assert (forall c', _) as Hpost by exact (fun c' => sync_post_cleared c fid meta (mk_range_tree RB_NULL 0 mx) c' Hk (tree_ok_null c mx) eq_refl).
  destruct (bool_decide _) eqn:Hb.
  - apply bool_decide_eq_true, fmap_nil_inv in Hb. eexists _, _, _, _. split; [done|]. split; [by apply Hpost|]. by left.
  - apply bool_decide_eq_false in Hb. destruct (rpc_fsync s _ _ _ _) as [s' rc] eqn:Hrpc. eexists _, _, _, _. split; [done|].
    split; [by apply Hpost|]. right. eexists. split; [|exact Hrpc]. apply index_post_nodes; [by apply (Hf _ _ (fk_meta _ _ _ Hk))|].
    intros He. apply Hb. by rewrite He.
Qed.

Lemma file_known_set c fid meta meta' c' :
  file_known c fid meta -> metas_set c fid meta' c' -> cl_cfg c' = cl_cfg c -> fm_fid meta' = fm_fid meta ->
  fm_pending_unlink meta' = fm_pending_unlink meta -> file_known c' fid meta'.
Proof.
  intros [H1 H2 H3] Hm Hc Hf Hp. split; [by rewrite Hc| |by rewrite Hf Hp].
  rewrite Hm. by apply list_lookup_insert_eq, (lookup_lt_Some _ _ _ H2).
Qed.

Lemma files_ok_set c c' fid meta meta' :
  files_ok c -> grows c c' -> file_known c fid meta -> metas_set c fid meta' c' ->
  (exists hdr, log_ok (cl_logio c') hdr) -> mem_plenty (cl_mem c') -> file_ok c' meta' -> files_ok c'.
Proof.
  intros [_ _ Hi Hf] Hg Hk Hm Hl Hpl Hok. split; [done|done|by rewrite (gr_cfg _ _ Hg)|]. rewrite Hm.
  apply Forall_insert; [|done]. eapply Forall_impl; [exact Hf|]. intros m. by apply file_ok_grows.
Qed.

Lemma sync_post_ok c fid meta c' meta' :
  files_ok c -> file_known c fid meta -> sync_post c fid meta c' meta' ->
  files_ok c' /\ grows c c' /\ file_known c' fid meta' /\ forall i x, contents c' i x = contents c i x.
Proof.
  intros Hok Hk [S1 S2 S3 S4 S5 (t & b & Hmeta & Ht & Hn)]. pose proof (fs_files _ Hok) as Hf. rewrite Forall_lookup in Hf.
  destruct (Hf _ _ (fk_meta _ _ _ Hk)) as [Hext _ _ _].
  assert (grows c c') as Hg.
  { split; [done|done| |rewrite S2; lia|by rewrite S3]. apply (ident_set c fid meta meta'); try done. by subst meta'. }
  split_and!; [|done| |].
  - apply (files_ok_set c c' fid meta meta'); try done; [rewrite S3; apply Hok|rewrite S2; apply Hok|]. subst meta'.
    split; simpl; [by apply (tree_ok_grows c)|by apply (tree_ok_grows c)| |by rewrite Hn]. rewrite Hn S1. simpl.
    pose proof (fs_index _ Hok). lia.
  - apply (file_known_set c fid meta meta'); try done; by subst meta'.
  - intros i x. apply contents_grows; [done|done|]. rewrite S5. destruct (decide (i = Z.to_nat fid)) as [->|Hne].
    + rewrite list_lookup_insert_eq; [by eapply lookup_lt_Some, (fk_meta _ _ _ Hk)|]. rewrite (fk_meta _ _ _ Hk). by subst meta'.
    + by rewrite list_lookup_insert_ne.
Qed.

(** ** A write *)

(** The contents after [bs] was written at [pos] of file [fid]. *)
Definition written (f : nat -> Z -> option Z) (fid : Z) (pos : Z) bs (i : nat) (x : Z) : option Z :=
  if bool_decide (i = Z.to_nat fid) && ((pos <=? x) && (x <? pos + Z.of_nat (length bs))) then Some (nth (Z.to_nat (x - pos)) bs 0)
  else f i x.

(** The log of [c] has [bs] at [off]; the segment is added to the extents. *)
Lemma write_extents c l off fid meta pos bs :
  files_ok c -> file_known c fid meta -> bs <> [] -> appended (cl_logio c) bs l off ->
  0 <= pos -> pos + Z.of_nat (length bs) <= ULONG_MAX ->
  exists m t, tree_add (cl_set_logio l c) (fm_extents meta) pos (Z.of_nat (length bs)) off =
      LRet (cl_set_mem m (cl_set_logio l c), t) /\
    let c' := put_meta fid (fm_set_extents t) (cl_set_mem m (cl_set_logio l c)) in
    files_ok c' /\ grows c c' /\ file_known c' fid (fm_set_extents t meta) /\
    forall i x, contents c' i x = written (contents c) fid pos bs i x.
Proof.
  intros Hok Hk Hbs Ha Hpos Hmax. pose proof Ha as [(s & Hl) [Hr1 Hr2] Hnew Hdata Hkeep].
  destruct (log_ok_data l s Hl) as [Hd Hms]. assert (0 < Z.of_nat (length bs)) as Hn by (destruct bs; [done|simpl; lia]).
  pose proof (fs_files _ Hok) as Hf. rewrite Forall_lookup in Hf. destruct (Hf _ _ (fk_meta _ _ _ Hk)) as [Hext Hsync Hcount Hneeds].
  assert (grows c (cl_set_logio l c)) as Hg1 by (split; [done|done|done|simpl; lia|done]).
  destruct (tree_add_ok (cl_set_logio l c) (fm_extents meta) pos (Z.of_nat (length bs)) off) as (m & t & Hadd & [Hnx Hpl Ht Hlk _]);
    [by apply (tree_ok_grows c)|apply Hok|lia..|done|].
  exists m, t. split; [done|]. intros c'.
  assert (metas_set c fid (fm_set_extents t meta) c') as Hset by (apply list_alter_insert, (fk_meta _ _ _ Hk)).
  assert (grows c c') as Hg by
    (split; [done|done|by apply (ident_set c fid meta (fm_set_extents t meta))|simpl; simpl in Hnx; lia|done]).
  assert (files_ok c') as Hok'.
  { apply (files_ok_set c c' fid meta (fm_set_extents t meta)); try done; [by exists s|].
    split; simpl; [|by apply (tree_ok_grows c)|done|done]. by apply (tree_ok_same (cl_set_mem m (cl_set_logio l c))). }
  split_and!; [done|done|by apply (file_known_set c fid meta)|]. intros i x. unfold written.
  destruct (bool_decide (i = Z.to_nat fid)) eqn:Hi; [apply bool_decide_eq_true in Hi as ->|apply bool_decide_eq_false in Hi].
  - unfold contents. rewrite Hset list_lookup_insert_eq; [by eapply lookup_lt_Some, (fk_meta _ _ _ Hk)|].
    rewrite (fk_meta _ _ _ Hk). simpl. rewrite Hlk. destruct (_ && _) eqn:Hx.
    + zbool. simpl. rewrite Hdata; [lia|]. done.
    + destruct (rt_lookup (fm_extents meta) x) as [p|] eqn:Hp; [|done]. simpl. f_equal. apply Hkeep.
      by apply (to_live _ _ Hext x).
  - apply contents_grows; [done|done|]. by rewrite Hset list_lookup_insert_ne.
Qed.

(** The unsynced extents are passed on when the index could overflow. *)
Lemma write_make_room c s fid meta :
  files_ok c -> file_known c fid meta -> fm_fid meta = fid ->
  exists c' meta' s',
    (if seg_tree_count (fm_extents_sync meta) >=? (cc_max_write_index_entries (cl_cfg c) ⊟ 2) then
       let! '(c, s, _) := unifyfs_fid_sync_extents c s fid in LRet (c, s)
     else LRet (c, s)) = LRet (c', s') /\
    files_ok c' /\ grows c c' /\ file_known c' fid meta' /\ fm_fid meta' = fid /\ (forall i x, contents c' i x = contents c i x) /\
    Z.of_nat (length (rt_nodes (fm_extents_sync meta'))) + 2 < cc_max_write_index_entries (cl_cfg c').
Proof.
  intros Hok Hk Hfid. pose proof (fs_index _ Hok) as Hi. rewrite u64_small; [unfold is_u64; lia|].
  pose proof (fs_files _ Hok) as Hf. rewrite Forall_lookup in Hf. destruct (Hf _ _ (fk_meta _ _ _ Hk)) as [_ Hsync Hcount _].
  unfold seg_tree_count. rewrite (rt_wf_count _ _ (to_wf _ _ Hsync)) u64_small; [unfold is_u64; lia|].
  destruct (_ >=? _) eqn:Hge; zbool.
  - destruct (sync_extents_spec c s fid meta Hok Hk Hfid) as (c' & meta' & s' & rc & -> & Hp & _).
    destruct (sync_post_ok c fid meta c' meta' Hok Hk Hp) as (Hok' & Hg & Hk' & Hc).
    destruct Hp as [Hcfg _ _ _ _ (t & b & -> & _ & Hn)]. eexists _, _, _. split; [done|]. split_and!; try done.
    simpl. rewrite Hn Hcfg. simpl. lia.
  - exists c, meta, s. split_and!; try done; lia.
Qed.

(** The segment is added to the unsynced extents, and the file needs a sync. *)
Lemma write_unsynced c fid meta pos len off :
  files_ok c -> file_known c fid meta ->
  Z.of_nat (length (rt_nodes (fm_extents_sync meta))) + 2 < cc_max_write_index_entries (cl_cfg c) ->
  0 <= pos -> 0 < len -> pos + len <= ULONG_MAX -> 0 <= off -> off + len <= ULONG_MAX ->
  (forall i, 0 <= i < len -> byte_live (cl_logio c) (off + i)) ->
  exists m t, tree_add c (fm_extents_sync meta) pos len off = LRet (cl_set_mem m c, t) /\
    let c' := put_meta fid (fm_set_writes_sync true) (put_meta fid (fm_set_extents_sync t) (cl_set_mem m c)) in
    files_ok c' /\ grows c c' /\ file_known c' fid (fm_set_writes_sync true (fm_set_extents_sync t meta)) /\
    (forall i x, contents c' i x = contents c i x) /\
    forall x, rt_lookup t x = if (pos <=? x) && (x <? pos + len) then Some (off + (x - pos)) else rt_lookup (fm_extents_sync meta) x.
Proof.
  intros Hok Hk Hcnt H1 H2 H3 H4 H5 Hlive. pose proof (fs_files _ Hok) as Hf. rewrite Forall_lookup in Hf.
  destruct (Hf _ _ (fk_meta _ _ _ Hk)) as [Hext Hsync _ _].
  destruct (tree_add_ok c (fm_extents_sync meta) pos len off Hsync (fs_mem _ Hok)) as (m & t & Hadd & [Hnx Hpl Ht Hlk Hct]); try done.
  exists m, t. split; [done|]. intros c'.
  set (meta' := fm_set_writes_sync true (fm_set_extents_sync t meta)).
  assert (metas_set c fid meta' c') as Hset.
  { unfold metas_set, c'. simpl. rewrite (list_alter_insert (fm_set_extents_sync t) _ _ meta); [apply (fk_meta _ _ _ Hk)|].
    rewrite (list_alter_insert _ _ _ (fm_set_extents_sync t meta)); [|by rewrite list_insert_insert_eq].
    by eapply list_lookup_insert_eq, lookup_lt_Some, (fk_meta _ _ _ Hk). }
  assert (grows c c') as Hg by (split; [done|done|by apply (ident_set c fid meta meta')|simpl; lia|done]).
  assert (files_ok c') as Hok'.
  { apply (files_ok_set c c' fid meta meta'); try done; [apply Hok|]. split; simpl; [by apply (tree_ok_grows c)| |lia|done].
    by apply (tree_ok_same (cl_set_mem m c)). }
  split_and!; [done|done|by apply (file_known_set c fid meta)| |done]. intros i x. apply contents_grows; [done|done|]. rewrite Hset.
  destruct (decide (i = Z.to_nat fid)) as [->|Hne]; [|by rewrite list_lookup_insert_ne].
  rewrite list_lookup_insert_eq; [by eapply lookup_lt_Some, (fk_meta _ _ _ Hk)|]. by rewrite (fk_meta _ _ _ Hk).
Qed.

(** A file that can be written. *)
Record writable c fid meta : Prop := {
  wr_known : file_known c fid meta;
  wr_fid : fm_fid meta = fid;
  wr_storage : fm_storage meta = FILE_STORAGE_LOGIO;
  wr_laminated : fa_is_laminated (fm_attrs meta) = 0;
}.

(** Recording a write that is in the log. *)
Lemma add_write_meta_spec c s l off fid meta pos bs :
  files_ok c -> file_known c fid meta -> fm_fid meta = fid -> cc_use_local_extents (cl_cfg c) = true ->
  bs <> [] -> appended (cl_logio c) bs l off -> 0 <= pos -> pos + Z.of_nat (length bs) <= ULONG_MAX ->
  exists c1 s' meta', add_write_meta_to_index (cl_set_logio l c) s fid pos off (Z.of_nat (length bs)) = LRet (c1, s', UNIFYFS_SUCCESS) /\
    let c' := put_meta fid (fm_set_writes_sync true) c1 in
    files_ok c' /\ grows c c' /\ file_known c' fid meta' /\ fm_fid meta' = fid /\
    forall i x, contents c' i x = written (contents c) fid pos bs i x.
Proof.
  intros Hok Hk Hfid Hloc Hbs Ha Hpos Hmax. unfold add_write_meta_to_index. cbn [cl_filemetas cl_set_logio].
  rewrite (fk_meta _ _ _ Hk). cbn [lift_option lbind cl_cfg cl_set_logio]. rewrite Hloc.
  destruct (write_extents c l off fid meta pos bs Hok Hk Hbs Ha Hpos Hmax) as (m1 & t1 & -> & Hok1 & Hg1 & Hk1 & Hc1).
  cbn [lbind]. set (c1 := put_meta fid _ (cl_set_mem m1 _)) in *.
  destruct (write_make_room c1 s fid (fm_set_extents t1 meta) Hok1 Hk1 Hfid)
    as (c2 & meta2 & s2 & Hroom & Hok2 & Hg2 & Hk2 & Hf2 & Hc2 & Hn2).
  rewrite Hfid. change (fm_extents_sync meta) with (fm_extents_sync (fm_set_extents t1 meta)). rewrite Hroom. cbn [lbind].
  rewrite (fk_meta _ _ _ Hk2). cbn [lift_option lbind].
  pose proof Ha as [(hdr & Hl) [Hr1 Hr2] Hnew _ _]. destruct (log_ok_data l hdr Hl) as [Hd Hms].
  assert (0 < Z.of_nat (length bs)) as Hn by (destruct bs; [done|simpl; lia]).
  destruct (write_unsynced c2 fid meta2 pos (Z.of_nat (length bs)) off Hok2 Hk2 Hn2) as (m3 & t3 & -> & Hok3 & Hg3 & Hk3 & Hc3 & _);
    [lia..| |].
  { intros i Hi. by apply (gr_live _ _ Hg2), Hnew. }
  cbn [lbind]. eexists _, _, _. split; [done|]. split_and!; [exact Hok3| |exact Hk3|exact Hf2|].
  - exact (grows_trans _ _ _ Hg1 (grows_trans _ _ _ Hg2 Hg3)).
  - intros i x. by rewrite Hc3 Hc2 Hc1.
Qed.

Lemma writable_grows c c' fid meta :
  grows c c' -> writable c fid meta -> exists meta', writable c' fid meta' /\ fm_attrs meta' = fm_attrs meta.
Proof.
  intros [Hc _ Hi _ _] [[H1 H2 H3] Hf Hs Hl]. apply (f_equal (.!! Z.to_nat fid)) in Hi.
  rewrite !list_lookup_fmap H2 in Hi. destruct (cl_filemetas c' !! Z.to_nat fid) as [meta'|] eqn:Hm; [|done].
  injection Hi as E1 E2 E3 E4. exists meta'. split; [|done]. split; try congruence. split; [by rewrite Hc|done|by rewrite E1 E3].
Qed.

Lemma append_keep c l :
  files_ok c -> (exists hdr, log_ok l hdr) ->
  (forall p, byte_live (cl_logio c) p -> byte_live l p /\ log_view l p = log_view (cl_logio c) p) ->
  files_ok (cl_set_logio l c) /\ grows c (cl_set_logio l c).
Proof.
  intros [_ Hm Hi Hf] Hl Hk. assert (grows c (cl_set_logio l c)) as Hg by (split; [done|done|done|simpl; lia|done]).
  split; [|done]. split; try done. eapply Forall_impl; [exact Hf|]. intros meta. by apply file_ok_grows.
Qed.

Lemma client_write_spec c s pw fid meta pos bs :
  files_ok c -> writable c fid meta -> cc_use_local_extents (cl_cfg c) = true ->
  bs <> [] -> 0 <= pos -> pos + Z.of_nat (length bs) <= ULONG_MAX ->
  exists c' s' rc n, unifyfs_fid_write c s pw fid pos bs = LRet (c', s', rc, n) /\ files_ok c' /\ grows c c' /\
    (rc = ENOSPC /\ n = 0 /\ (forall i x, contents c' i x = contents c i x) \/
     (rc = UNIFYFS_SUCCESS \/ cc_use_write_sync (cl_cfg c) = true) /\ n = Z.of_nat (length bs) /\
     forall i x, contents c' i x = written (contents c) fid pos bs i x).
Proof.
  intros Hok [Hk Hfid Hst Hlam] Hloc Hbs Hpos Hmax. unfold unifyfs_fid_write.
  assert (0 < Z.of_nat (length bs)) as Hn by (destruct bs; [done|simpl; lia]).
  rewrite (proj2 (Z.eqb_neq _ 0)); [lia|]. rewrite (with_meta_known c fid meta) // Hlam Hst. cbn [Z.eqb negb].
  unfold fid_logio_write. rewrite bool_decide_true //. cbn [negb]. destruct (fs_log _ Hok) as (hdr & Hl).
  destruct (logio_append (cl_logio c) hdr bs pw Hl Hbs) as [(hdr' & Hl' & -> & Hkeep)|(l1 & l2 & off & -> & Hw & Ha)]; cbn [lbind].
  { destruct (append_keep c _ Hok (ex_intro _ hdr' Hl') Hkeep) as [Hok' Hg]. eexists _, _, _, _. split; [done|].
    split_and!; [done|done|]. left. split_and!; [done|done|]. intros i x. by apply contents_grows. }
  cbn [cl_logio cl_set_logio Z.eqb negb]. change (UNIFYFS_SUCCESS =? UNIFYFS_SUCCESS) with true. cbn [negb]. rewrite Hw. cbn [lbind].
  change (UNIFYFS_SUCCESS =? UNIFYFS_SUCCESS) with true. cbn [negb].
  change (cl_set_logio l2 (cl_set_logio l1 c)) with (cl_set_logio l2 c).
  destruct (add_write_meta_spec c s l2 off fid meta pos bs Hok Hk Hfid Hloc Hbs Ha Hpos Hmax)
    as (c1 & s1 & meta1 & -> & Hok1 & Hg1 & Hk1 & Hf1 & Hc1). cbn [lbind].
  change (UNIFYFS_SUCCESS =? UNIFYFS_SUCCESS) with true. cbv iota. set (c2 := put_meta fid (fm_set_writes_sync true) c1) in *.
  destruct (cc_use_write_sync (cl_cfg c2)) eqn:Hws.
  - destruct (sync_extents_spec c2 s1 fid meta1 Hok1 Hk1 Hf1) as (c3 & meta3 & s3 & rc3 & -> & Hp & _). cbn [lbind].
    destruct (sync_post_ok c2 fid meta1 c3 meta3 Hok1 Hk1 Hp) as (Hok3 & Hg3 & _ & Hc3). eexists _, _, _, _. split; [done|].
    split_and!; [done|by eapply grows_trans|]. right. rewrite -(gr_cfg _ _ Hg1) Hws. split_and!; [by right|done|].
    intros i x. by rewrite Hc3.
  - eexists _, _, _, _. split; [done|]. split_and!; [done|done|]. right. split_and!; [by left|done|done].
Qed.

End Server.

(** ** Reading the contents *)

Lemma node_log_bytes c t n hdr k :
  log_ok (cl_logio c) hdr -> tree_ok c t -> n ∈ rt_nodes t -> 0 <= k <= sn_end n - sn_start n ->
  u64 (sn_ptr n) + k < data_sz hdr.
Proof.
  intros Hl [Hw Hb _] Hn [Hk0 Hk]. destruct (log_ok_data _ _ Hl) as [Hd _].
  assert (forall j, 0 <= j <= sn_end n - sn_start n -> u64 (sn_ptr n + j) < data_sz hdr) as Hbyte.
  { intros j Hj. destruct (Hb (sn_start n + j) (u64 (sn_ptr n + j))) as [(h & Hh & Hr & _) _].
    - unfold rt_lookup. rewrite (iv_lookup_elem _ n); [by apply (rt_wf_sorted (cl_mem c))|done|simpl; lia|]. simpl. do 2 f_equal. lia.
    - rewrite (lk_mem _ _ Hl) in Hh. injection Hh as <-. lia. }
  revert k Hk0 Hk. apply (natlike_ind (fun k => k <= sn_end n - sn_start n -> u64 (sn_ptr n) + k < data_sz hdr)).
  - intros H0. specialize (Hbyte 0 ltac:(lia)). rewrite Z.add_0_r in Hbyte. lia.
  - intros k Hk IH Hle. specialize (Hbyte (Z.succ k) ltac:(lia)). specialize (IH ltac:(lia)).
    pose proof (u64_range (sn_ptr n)). rewrite -u64_add_l u64_small in Hbyte; [unfold is_u64 in *; lia|]. lia.
Qed.

Lemma tree_nodes_in_log c t :
  (exists hdr, log_ok (cl_logio c) hdr) -> tree_ok c t -> Forall (node_in_log c) (rt_nodes t).
Proof.
  intros (hdr & Hl) Ht. apply Forall_forall. intros n Hn. destruct (log_ok_data _ _ Hl) as [Hd Hms].
  pose proof (to_owner _ _ Ht) as Ho. rewrite Forall_forall in Ho. split; [by apply Ho|].
  destruct (rt_wf_elem _ _ _ (to_wf _ _ Ht) Hn) as [[Hw _] _]. simpl in Hw. split.
  - pose proof (node_log_bytes c t n hdr (sn_end n - sn_start n) Hl Ht Hn ltac:(lia)). pose proof (u64_range (sn_ptr n)) as [? _].
    split; [lia|lia|lia|lia|]. lia.
  - apply (node_ends (cl_mem c) t); [apply Ht| |done]. intros x p Hx. by apply (to_live _ _ Ht x p).
Qed.

Section Read.
Context (other_log : Z -> option logio_context) (pread : Z -> Z -> io_result).
Implicit Types (rr : read_req).

Definition req_fid c rr : Z := unifyfs_fid_from_gfid c (rr_gfid rr).

(** A request for a file that the client has, if it has one. *)
Record req_ok c rr : Prop := {
  ro_fresh : req_fresh rr;
  ro_range : 0 <= rr_offset rr /\ 0 < rr_length rr /\ rr_offset rr + rr_length rr <= ULONG_MAX;
  ro_file : 0 <= req_fid c rr -> exists meta, file_known c (req_fid c rr) meta;
}.

(** The client has all the bytes of the request. *)
Definition has_all c rr : bool :=
  (0 <=? req_fid c rr) &&
  forallb (fun x => bool_decide (is_Some (contents c (Z.to_nat (req_fid c rr)) x))) (seqZ (rr_offset rr) (rr_length rr)).

(** The request was completed with the contents of the file. *)
Record req_done c rr rr' : Prop := {
  rd_data a : 0 <= a < rr_length rr -> Some (rr_buf rr' a) = contents c (Z.to_nat (req_fid c rr)) (rr_offset rr + a);
  rd_rest a : ~ (0 <= a < rr_length rr) -> rr_buf rr' a = rr_buf rr a;
  rd_static : rr_gfid rr' = rr_gfid rr /\ rr_offset rr' = rr_offset rr /\ rr_length rr' = rr_length rr /\
    rr_aiocbp rr' = rr_aiocbp rr /\ rr_errcode rr' = rr_errcode rr;
  rd_cover : rr_cover_begin_offset rr' = 0 /\ rr_cover_end_offset rr' = rr_length rr - 1 /\ rr_nread rr' = rr_length rr;
}.

Lemma contents_file c fid meta x :
  file_known c fid meta -> contents c (Z.to_nat fid) x = log_view (cl_logio c) <$> rt_lookup (fm_extents meta) x.
Proof. intros Hk. unfold contents. rewrite (fk_meta _ _ _ Hk). simpl. by destruct (rt_lookup _ x). Qed.

Lemma has_all_true c rr meta :
  file_known c (req_fid c rr) meta ->
  has_all c rr = true <-> forall x, rr_offset rr <= x < rr_offset rr + rr_length rr -> rt_lookup (fm_extents meta) x <> None.
Proof.
  intros Hk. unfold has_all. rewrite andb_true_iff Z.leb_le forallb_forall. pose proof (fk_fid _ _ _ Hk). split.
  - intros [_ H0] x Hx. specialize (H0 x). rewrite -list_elem_of_In elem_of_seqZ in H0. specialize (H0 Hx).
    apply bool_decide_eq_true in H0. rewrite (contents_file c _ meta) // in H0. by destruct (rt_lookup _ x), H0.
  - intros H0. split; [lia|]. intros x Hx%list_elem_of_In%elem_of_seqZ. apply bool_decide_eq_true.
    rewrite (contents_file c _ meta) //. specialize (H0 x Hx). by destruct (rt_lookup _ x).
Qed.

Lemma local_read_contents c rr :
  files_ok c -> req_ok c rr -> pread_all pread c ->
  exists m rr', mem_plenty m /\ mem_next (cl_mem c) <= mem_next m /\
    service_local_req other_log pread c rr = LRet (cl_set_mem m c, has_all c rr, rr') /\
    if has_all c rr then req_done c rr rr' else rr' = rr.
Proof.
  intros Hok [Hfr (H1 & H2 & H3) Hfile] Hpr. destruct (decide (0 <= req_fid c rr)) as [Hf|Hf].
  2:{ exists (cl_mem c), rr. assert (has_all c rr = false) as ->
        by (unfold has_all; apply andb_false_iff; left; apply Z.leb_gt; lia).
      split_and!; [apply Hok|done| |done]. unfold service_local_req. fold (req_fid c rr).
      rewrite (proj2 (Z.ltb_lt _ _)); [lia|]. by destruct c. }
  destruct (Hfile Hf) as (meta & Hk). pose proof (fs_files _ Hok) as Hfs. rewrite Forall_lookup in Hfs.
  pose proof (fo_extents _ _ (Hfs _ _ (fk_meta _ _ _ Hk))) as Ht.
  destruct (local_read_spec other_log pread c rr (req_fid c rr) meta eq_refl Hk (to_wf _ _ Ht) (fs_mem _ Hok)
    (tree_nodes_in_log c _ (fs_log _ Hok) Ht) Hpr Hfr H1 H2 H3) as (m & [Hpl Hnx] & Hcase).
  destruct Hcase as [(rr' & Hall & Hs & Hd)|((x & Hx & Hnone) & Hs)].
  - exists m, rr'. rewrite (proj2 (has_all_true c rr meta Hk) Hall). split_and!; try done. destruct Hd as [D1 D2 D3 D4].
    split; try done. intros a Ha. rewrite (contents_file c _ meta) //. specialize (Hall (rr_offset rr + a) ltac:(lia)).
    destruct (rt_lookup _ (rr_offset rr + a)) as [p|] eqn:Hp; [|done]. simpl. f_equal. by apply D1.
  - exists m, rr. assert (has_all c rr = false) as ->; [|by split_and!].
    apply not_true_iff_false. rewrite (has_all_true c rr meta Hk). intros Hall. by apply (Hall x Hx).
Qed.

Lemma files_ok_mem c m : files_ok c -> mem_plenty m -> mem_next (cl_mem c) <= mem_next m -> files_ok (cl_set_mem m c).
Proof.
  intros [Hl _ Hi Hf] Hpl Hnx. split; try done. eapply Forall_impl; [exact Hf|]. intros meta. apply file_ok_grows.
  by split.
Qed.

Lemma has_all_done c rr rr' : req_done c rr rr' -> has_all c rr' = has_all c rr.
Proof. intros [_ _ (Hg & Ho & Hl & _) _]. unfold has_all, req_fid. by rewrite Hg Ho Hl. Qed.

Definition req_outcome c rr rr' : Prop := if has_all c rr then req_done c rr rr' else rr' = rr.

Lemma local_reads_spec c reqs :
  files_ok c -> Forall (req_ok c) reqs -> pread_all pread c ->
  exists m reqs', mem_plenty m /\ mem_next (cl_mem c) <= mem_next m /\
    service_local_reqs other_log pread c reqs =
      LRet (cl_set_mem m c, reqs', List.filter (has_all c) reqs', List.filter (fun rr => negb (has_all c rr)) reqs') /\
    Forall2 (req_outcome c) reqs reqs'.
Proof.
  intros Hok Hreqs Hpr. revert c Hok Hpr Hreqs. induction reqs as [|rr reqs IH]; intros c Hok Hpr Hreqs.
  { exists (cl_mem c), []. split_and!; [apply Hok|done| |constructor]. by destruct c. }
  apply Forall_cons in Hreqs as [Hrr Hreqs]. cbn [service_local_reqs].
  destruct (local_read_contents c rr Hok Hrr Hpr) as (m & rr' & Hpl & Hnx & -> & Hout). cbn [lbind].
  destruct (IH (cl_set_mem m c) (files_ok_mem c m Hok Hpl Hnx) Hpr) as (m2 & reqs' & Hpl2 & Hnx2 & -> & Hall).
  { eapply Forall_impl; [exact Hreqs|]. intros ? [? ? Hf]. split; [done|done|]. intros (meta & [? ? ?])%Hf. exists meta. by split. }
  cbn [lbind]. change (has_all (cl_set_mem m c)) with (has_all c) in *. exists m2, (rr' :: reqs'). split_and!; [done|simpl in *; lia| |].
  - cbn [List.filter]. assert (has_all c rr' = has_all c rr) as ->.
    { destruct (has_all c rr) eqn:Hh; [rewrite -Hh; by apply has_all_done|by subst]. }
    by destruct (has_all c rr).
  - constructor; [done|]. eapply Forall2_impl; [exact Hall|]. intros x y. unfold req_outcome. change (has_all (cl_set_mem m c)) with (has_all c).
    destruct (has_all c x); [|done]. intros [? ? ? ?]. by split.
Qed.

(** Reads from the extents that the client has itself.  For any list of
    requests, exactly those are completed of which the client has every byte
    from its own writes: their buffers hold the contents of the file and all
    [length] bytes count as read.  All the others are passed on to the server
    as they are. *)
Theorem local_reads_correct c reqs :
  files_ok c -> Forall (req_ok c) reqs -> pread_all pread c ->
  exists m reqs', files_ok (cl_set_mem m c) /\
    service_local_reqs other_log pread c reqs =
      LRet (cl_set_mem m c, reqs', List.filter (has_all c) reqs', List.filter (fun rr => negb (has_all c rr)) reqs') /\
    Forall2 (req_outcome c) reqs reqs'.
Proof.
  intros Hok Hr Hp. destruct (local_reads_spec c reqs Hok Hr Hp) as (m & reqs' & Hpl & Hnx & Hs & Hf).
  exists m, reqs'. split_and!; [by apply files_ok_mem|done|done].
Qed.

End Read.

(** ** Sequences of writes *)

Section Writes.
Context {S : Type} `{!ServerRpc S}.
Implicit Types (s : S).

(** A write of a user: file, position, data and what the file system does. *)
Record user_write := UserWrite { uw_fid : Z; uw_pos : Z; uw_data : list Z; uw_pwrite : io_result }.

(** The writes in order, with the return code and the count of each. *)
Fixpoint run_writes c s (ws : list user_write) : lres (unifyfs_client * S * list (Z * Z)) :=
  match ws with
  | [] => LRet (c, s, [])
  | w :: ws =>
      let! '(c, s, rc, n) := unifyfs_fid_write c s (uw_pwrite w) (uw_fid w) (uw_pos w) (uw_data w) in
      let! '(c, s, rs) := run_writes c s ws in
      LRet (c, s, (rc, n) :: rs)
  end.

(** The contents after the writes that wrote something. *)
Fixpoint replay (f : nat -> Z -> option Z) (ws : list user_write) (rs : list (Z * Z)) : nat -> Z -> option Z :=
  match ws, rs with
  | w :: ws, (_, n) :: rs =>
      replay (if n =? 0 then f else written f (uw_fid w) (uw_pos w) (uw_data w)) ws rs
  | _, _ => f
  end.

Record write_ok c (w : user_write) : Prop := {
  wo_file : exists meta, writable c (uw_fid w) meta;
  wo_data : uw_data w <> [];
  wo_range : 0 <= uw_pos w /\ uw_pos w + Z.of_nat (length (uw_data w)) <= ULONG_MAX;
}.

(** Nothing was written, for lack of space, or all of the data. *)
Definition write_result (w : user_write) (r : Z * Z) : Prop := r = (ENOSPC, 0) \/ r.2 = Z.of_nat (length (uw_data w)).

Lemma write_ok_grows c c' w : grows c c' -> write_ok c w -> write_ok c' w.
Proof. intros Hg [(meta & Hm) H2 H3]. split; try done. destruct (writable_grows c c' _ meta Hg Hm) as (meta' & ? & _). eauto. Qed.

Lemma written_ext f g fid pos bs i x : (forall i x, f i x = g i x) -> written f fid pos bs i x = written g fid pos bs i x.
Proof. intros H0. unfold written. by rewrite H0. Qed.

Lemma replay_ext ws rs f g : (forall i x, f i x = g i x) -> forall i x, replay f ws rs i x = replay g ws rs i x.
Proof.
  revert rs f g. induction ws as [|w ws IH]; intros [|[rc n] rs] f g H0; simpl; try done. apply IH.
  destruct (n =? 0); [done|]. intros. by apply written_ext.
Qed.

Lemma run_writes_spec c s ws :
  files_ok c -> cc_use_local_extents (cl_cfg c) = true -> Forall (write_ok c) ws ->
  exists c' s' rs, run_writes c s ws = LRet (c', s', rs) /\ files_ok c' /\ grows c c' /\ Forall2 write_result ws rs /\
    forall i x, contents c' i x = replay (contents c) ws rs i x.
Proof.
  revert c s. induction ws as [|w ws IH]; intros c s Hok Hloc Hws.
  { exists c, s, []. split_and!; [done|done|apply grows_refl|constructor|done]. }
  apply Forall_cons in Hws as [[(meta & Hm) Hd [Hp1 Hp2]] Hws]. cbn [run_writes].
  destruct (client_write_spec c s (uw_pwrite w) (uw_fid w) meta (uw_pos w) (uw_data w) Hok Hm Hloc Hd Hp1 Hp2)
    as (c1 & s1 & rc & n & -> & Hok1 & Hg1 & Hcase). cbn [lbind].
  destruct (IH c1 s1 Hok1) as (c2 & s2 & rs & -> & Hok2 & Hg2 & Hrs & Hc2); [by rewrite (gr_cfg _ _ Hg1)| |].
  { eapply Forall_impl; [exact Hws|]. intros w'. by apply write_ok_grows. }
  cbn [lbind]. exists c2, s2, ((rc, n) :: rs). split_and!; [done|done|by eapply grows_trans| |].
  - constructor; [|done]. destruct Hcase as [(-> & -> & _)|(_ & -> & _)]; [by left|by right].
  - intros i x. rewrite Hc2. cbn [replay]. apply replay_ext. intros j y.
    destruct Hcase as [(_ & -> & Hc)|(_ & -> & Hc)]; [done|]. rewrite (proj2 (Z.eqb_neq _ 0)); [|done].
    destruct (uw_data w); [done|simpl; lia].
Qed.

(** The file ids of the client stay as they are. *)
Lemma scan_files_ident (test : unifyfs_file_attr_t -> bool) i names metas metas' :
  file_ident <$> metas = file_ident <$> metas' ->
  scan_files (fun _ m => test (fm_attrs m)) i names metas = scan_files (fun _ m => test (fm_attrs m)) i names metas'.
Proof.
  revert i metas metas'. induction names as [|n names IH]; intros i [|m metas] [|m' metas'] He; try done.
  rewrite !fmap_cons in He. injection He as _ _ _ Ha He. cbn [scan_files]. rewrite Ha.
  by rewrite (IH (i + 1) metas metas').
Qed.

Lemma req_fid_grows c c' rr : grows c c' -> req_fid c' rr = req_fid c rr.
Proof.
  intros [_ Hn Hi _ _]. unfold req_fid, unifyfs_fid_from_gfid. rewrite Hn.
  by apply (scan_files_ident (fun a => fa_gfid a =? rr_gfid rr)).
Qed.

Lemma file_known_grows c c' fid meta : grows c c' -> file_known c fid meta -> exists meta', file_known c' fid meta'.
Proof.
  intros [Hc _ Hi _ _] [H1 H2 H3]. apply (f_equal (.!! Z.to_nat fid)) in Hi. rewrite !list_lookup_fmap H2 in Hi.
  destruct (cl_filemetas c' !! Z.to_nat fid) as [meta'|] eqn:Hm; [|done]. injection Hi as E1 E2 E3 E4.
  exists meta'. split; [by rewrite Hc|done|by rewrite E1 E3].
Qed.

Lemma req_ok_grows c c' rr : grows c c' -> req_ok c rr -> req_ok c' rr.
Proof.
  intros Hg [H1 H2 H3]. split; [done|done|]. rewrite (req_fid_grows c c' rr Hg). intros (meta & Hm)%H3.
  by apply (file_known_grows c c' _ meta).
Qed.



(** C22. A synchronisation passes to the server, in one call, entries that give
    for every byte of the file the place in the log of the last unsynced write
    of it, and nothing for the bytes that were not written; there are no more
    entries than the index region has room for.  The client then has no
    unsynced extents of the file, and the contents of its files are as
    before. *)
Theorem sync_passes_extents c s fid meta :
  files_ok c -> file_known c fid meta -> fm_fid meta = fid ->
  exists c' meta' s' rc, unifyfs_fid_sync_extents c s fid = LRet (c', s', rc) /\
    files_ok c' /\ file_known c' fid meta' /\ rt_nodes (fm_extents_sync meta') = [] /\
    (forall i x, contents c' i x = contents c i x) /\
    ((forall x, rt_lookup (fm_extents_sync meta) x = None) /\ s' = s /\ rc = UNIFYFS_SUCCESS \/
     exists ix, index_post c meta ix /\
       rpc_fsync s (cc_app_id (cl_cfg c)) (cc_client_id (cl_cfg c)) (fa_gfid (fm_attrs meta)) ix = (s', rc)).
Proof.
  intros Hok Hk Hfid. destruct (sync_extents_spec c s fid meta Hok Hk Hfid) as (c' & meta' & s' & rc & Hs & Hp & Hcase).
  destruct (sync_post_ok c fid meta c' meta' Hok Hk Hp) as (Hok' & _ & Hk' & Hc). exists c', meta', s', rc.
  split_and!; try done.
  - destruct Hp as [_ _ _ _ _ (t & b & -> & _ & Hn)]. done.
  - destruct Hcase as [(Hn & -> & ->)|?]; [left|by right]. split_and!; [|done|done]. intros x. unfold rt_lookup. by rewrite Hn.
Qed.

End Writes.

(** ** A concrete client *)

(** A server that records the write indexes it is given. *)
#[export] Instance index_server : ServerRpc (list unifyfs_index) :=
  { rpc_metaset s _ _ := (s, 0); rpc_metaget _ _ := inl ENOENT; rpc_fsync s _ _ _ ix := (s ++ ix, 0);
    rpc_filesize _ _ := inl ENOENT; rpc_truncate s _ _ := (s, 0); rpc_unlink s _ := (s, 0) }.

Definition ex_meta (fid gfid : Z) : unifyfs_filemeta :=
  let a := unifyfs_file_attr_set_invalid in
  Filemeta fid FILE_STORAGE_LOGIO false false false seg_tree_init seg_tree_init
    (FileAttr None gfid 0 1 33188 0 0 0 (fa_atime a) (fa_mtime a) (fa_ctime a) 0).

(** Two files and an index of 4 entries. *)
Definition ex_client : unifyfs_client :=
  Client (ClientCfg 7 1 false true false false 2 4) (Mem 1 []) (UnifyfsStack 2 0 [0; 0])
    [Filename true "/a"%string; Filename true "/b"%string] [ex_meta 0 5; ex_meta 1 6]
    (LogioContext (Some (example_header 16 10)) None (fun _ => 0) (fun _ => 0) 0 (-1)) [].

Lemma ex_client_ok : files_ok ex_client.
Proof.
  split.
  - exists (example_header 16 10). split; [done|done|by apply example_header_ok; right|by vm_compute].
  - apply mem_plenty_nil.
  - by vm_compute.
  - apply Forall_cons_2; [|apply Forall_cons_2; [|constructor]]; (split; [apply tree_ok_null|apply tree_ok_null|done|done]).
Qed.

Lemma ex_writable fid meta : cl_filemetas ex_client !! Z.to_nat fid = Some meta -> 0 <= fid < 2 -> writable ex_client fid meta.
Proof.
  intros Hm Hf. assert (fid = 0 \/ fid = 1) as [-> | ->] by lia; injection Hm as <-; (split; [split|..]; done).
Qed.

Definition ex_req : read_req := ReadReq 6 2 6 (fun _ => 0) 0 SIZE_MAX SIZE_MAX 0 EINPROGRESS.

Lemma ex_req_ok : req_ok ex_client ex_req.
Proof.
  split; [done|by vm_compute|]. intros _. exists (ex_meta 1 6). by apply wr_known, ex_writable.
Qed.


(** The second write covers a part of the first one. *)
Definition ex_user_writes : list user_write :=
  [UserWrite 1 0 [1; 2; 3; 4; 5; 6] (inl 0); UserWrite 1 4 [11; 12; 13; 14; 15] (inl 0); UserWrite 0 3 [21; 22] (inl 0)].

Lemma ex_user_writes_ok : Forall (write_ok ex_client) ex_user_writes.
Proof.
  apply Forall_cons_2; [|apply Forall_cons_2; [|apply Forall_cons_2; [|constructor]]]; (split; [|done|by vm_compute]).
  1,2: exists (ex_meta 1 6); by apply ex_writable.
  exists (ex_meta 0 5). by apply ex_writable.
Qed.

(** The spill-over file returns what it is asked for. *)
Definition ex_pread (off len : Z) : io_result := inl (len - log_in_mem off len 160).


Lemma local_reads_correct_witness :
  exists m reqs', service_local_reqs (fun _ => None) ex_pread ex_client [ex_req] = LRet (cl_set_mem m ex_client, reqs', [], [ex_req]).
Proof.
  destruct (local_reads_correct (fun _ => None) ex_pread ex_client [ex_req] ex_client_ok) as (m & reqs' & _ & Hs & Hf).
  - constructor; [apply ex_req_ok|constructor].
  - done.
  - assert (reqs' = [ex_req]) as ->.
    { inversion_clear Hf as [|? y ? ys Hy Hys]. inversion_clear Hys. f_equal. exact Hy. }
    exists m, [ex_req]. exact Hs.
Defined.

Lemma sync_passes_extents_witness :
  exists c s c' s', run_writes ex_client [] ex_user_writes = LRet (c, s, [(0, 6); (0, 5); (0, 2)]) /\
    unifyfs_fid_sync_extents c s 1 = LRet (c', s', 0) /\ index_lookup s' 5 = Some 11.
Proof.
  destruct (run_writes_spec ex_client [] ex_user_writes ex_client_ok eq_refl ex_user_writes_ok) as (c & s & rs & Hrun & Hok & Hg & _ & _).
  destruct (writable_grows ex_client c 1 (ex_meta 1 6) Hg (ex_writable 1 _ eq_refl ltac:(lia))) as (meta & Hw & _).
  destruct (sync_passes_extents c s 1 meta Hok (wr_known _ _ _ Hw) (wr_fid _ _ _ Hw)) as (c' & meta' & s' & rc & Hs & _).
  assert ((let! '(c, s, rs) := run_writes ex_client [] ex_user_writes in
           let! '(_, s, rc) := unifyfs_fid_sync_extents c s 1 in LRet (rs, rc, index_lookup s 5)) =
    LRet ([(0, 6); (0, 5); (0, 2)], 0, Some 11)) as Hr by (vm_compute; reflexivity).
  rewrite Hrun in Hr. cbn [lbind] in Hr. rewrite Hs in Hr. injection Hr as -> -> Hl.
  exists c, s, c', s'. split; [exact Hrun|]. split; [exact Hs|exact Hl].
Defined.
