(* ===== verification/ReadResult.v ===== *)
(** * Results of the reads of a client

    The id under which a read is tracked; what a request returns once all its
    data has come in, given the size of the file; and reads that are served
    from the writes of the client, from the call of the user to its result. *)

From S2P Require Import Prelude.
From S2P Require Import LogIO.
From S2P Require Import ArrayList.
From S2P Require Import Meta.
From S2P Require Import Inode.
From S2P Require Import Client.
From S2P Require Import ClientRead.
From S2P Require Import ClientReadProps.
From S2P Require Import LocalRead.
From S2P Require Import ClientWrite.

(** ** Active reads *)

(** The id of a read: while the list of active reads has room, a new read
    gets an id that no active read has and is found under it; the lookups of
    all other ids return what they returned before; and when it is removed the
    list is as it was. *)
Theorem mread_tracked m r g reqs :
  reads_ok r g -> mem_plenty m -> al_size (cr_active_mreads r) < al_cap (cr_active_mreads r) -> al_cap (cr_active_mreads r) <= INT_MAX ->
  exists m' r' id r'', client_create_mread_request m r reqs = LRet (m', r', Some id) /\
    client_get_mread_status r id = LRet None /\
    client_get_mread_status r' id = LRet (Some (MreadStatus id reqs 0 0)) /\
    (forall id', id' <> id -> client_get_mread_status r' id' = client_get_mread_status r id') /\
    client_remove_mread_request r' id = LRet (r'', UNIFYFS_SUCCESS) /\ reads_ok r'' g.
Proof.
  intros Hok Hpl Hsz Hmax. destruct (create_mread_spec m r g reqs Hok Hpl Hsz Hmax) as (m' & r' & id & Hcr & _ & Hcap & Hnone & Hok').
  fold (cap_of r) (cap_of r') in *. set (g' := <[slot_of (cap_of r) id := _]> g) in *.
  assert (active_read g' (cap_of r') id = Some (MreadStatus id reqs 0 0)) as Hact.
  { unfold active_read, g'. rewrite Hcap lookup_insert_eq. simpl. by rewrite Z.eqb_refl. }
  destruct (remove_mread_spec r' g' id _ Hok' Hact) as (r'' & Hrem & _ & Hok'').
  exists m', r', id, r''. split_and!; try done.
  - rewrite (get_mread_spec r g) // /active_read Hnone //.
  - by rewrite (get_mread_spec r' g') // Hact.
  - intros id' Hne. rewrite (get_mread_spec r' g') // (get_mread_spec r g) // Hcap. unfold active_read, g'. f_equal.
    destruct (decide (slot_of (cap_of r) id' = slot_of (cap_of r) id)) as [->|Hs].
    + rewrite lookup_insert_eq Hnone. simpl. by rewrite (proj2 (Z.eqb_neq _ _)).
    + by rewrite lookup_insert_ne.
  - unfold g' in Hok''. rewrite Hcap delete_insert_id // in Hok''.
Qed.

(** ** The result of a request *)

Lemma filter_true {A} (f : A -> bool) (l : list A) : Forall (fun x => f x = true) l -> List.filter f l = l.
Proof. induction 1 as [|x l Hx _ IH]; [done|]. simpl. by rewrite Hx IH. Qed.

Lemma filter_none {A} (f : A -> bool) (l : list A) : Forall (fun x => f x = true) l -> List.filter (fun x => negb (f x)) l = [].
Proof. induction 1 as [|x l Hx _ IH]; [done|]. simpl. by rewrite Hx. Qed.

Lemma Forall2_with_l {A B} (P : A -> Prop) (R : A -> B -> Prop) l k :
  Forall P l -> Forall2 R l k -> Forall2 (fun x y => P x /\ R x y) l k.
Proof. intros Hl H. induction H as [|x y l k Hr _ IH]; [done|]. apply Forall_cons in Hl as [? ?]. constructor; auto. Qed.

Section Result.
Context {S : Type} `{!ServerRpc S}.
Implicit Types (c : unifyfs_client) (s : S) (req : read_req).

(** A request whose data has come in: its first [nread] bytes are accounted
    for and are within the file. *)
Record collected req (size : Z) : Prop := {
  cd_range : 0 <= rr_offset req /\ 0 < rr_length req /\ rr_offset req + rr_length req <= ULONG_MAX;
  cd_nread : 0 <= rr_nread req <= rr_length req;
  cd_begin : 0 <= rr_cover_begin_offset req;
  cd_size : 0 <= size <= ULONG_MAX;
  cd_inside : rr_nread req = 0 \/ rr_offset req + rr_nread req <= size;
  cd_code : rr_errcode req = EINPROGRESS \/ rr_errcode req = UNIFYFS_SUCCESS \/ rr_errcode req = ENODATA /\ rr_nread req = 0;
}.

Lemma zero_fill_spec buf off n a : zero_fill buf off n a = if (off <=? a) && (a <? off + n) then 0 else buf a.
Proof.
  unfold zero_fill. destruct (_ && _) eqn:Hb.
  - zbool. unfold region_write. rewrite length_replicate (proj2 (Z.leb_le _ _)) ?(proj2 (Z.ltb_lt _ _)); [lia|lia|]. simpl.
    apply nth_replicate || by rewrite nth_lookup lookup_replicate_2; [lia|].
  - rewrite region_write_outside // length_replicate. apply andb_false_iff in Hb as [?|?]; zbool; lia.
Qed.

Lemma no_error_code req :
  rr_errcode req = EINPROGRESS \/ rr_errcode req = UNIFYFS_SUCCESS \/ rr_errcode req = ENODATA /\ rr_nread req = 0 ->
  exists e, (if rr_errcode req =? EINPROGRESS then rr_set_errcode UNIFYFS_SUCCESS req else req) = rr_set_errcode e req /\
    (e = UNIFYFS_SUCCESS \/ e = ENODATA /\ rr_nread req = 0).
Proof.
  destruct req as [g o l b x cb ce n e]. simpl. intros [->|[->|[-> ->]]]; simpl.
  - exists UNIFYFS_SUCCESS. split; [done|by left].
  - exists UNIFYFS_SUCCESS. split; [done|by left].
  - exists ENODATA. split; [done|by right].
Qed.

(** C25. The result of a read, once its data has come in: the call succeeds and
    the number of bytes it returns is what is left of the file at the offset,
    but not more than [length], and 0 at or after the end of the file.  The
    bytes between the data and the end of the file are zeros; when the request
    was filled to its end so are the bytes before the first data; all others
    are as they were. *)
Theorem read_result_correct c s req c1 s1 size :
  collected req size -> unifyfs_gfid_filesize c s (rr_gfid req) = LRet (c1, s1, size) ->
  exists c' s' req', update_read_req_result c s req = LRet (c', s', req') /\ rr_errcode req' = UNIFYFS_SUCCESS /\
    rr_nread req' = Z.min (rr_length req) (Z.max 0 (size - rr_offset req)) /\
    forall a, rr_buf req' a =
      if (rr_nread req <=? a) && (a <? rr_nread req') then 0
      else if (rr_nread req =? rr_length req) && ((0 <=? a) && (a <? rr_cover_begin_offset req)) then 0
      else rr_buf req a.
Proof.
  intros [(R1 & R2 & R3) Hn Hb Hsz Hin Hcode] Hsize. unfold update_read_req_result.
  destruct (no_error_code req Hcode) as (e & -> & He). cbv zeta. cbn [rr_set_errcode rr_errcode rr_nread rr_length rr_gfid rr_offset].
  assert (negb (e =? UNIFYFS_SUCCESS) && negb (e =? ENODATA) = false) as -> by (by destruct He as [-> |[-> _]]).
  destruct (rr_nread req =? rr_length req) eqn:Hfull; zbool.
  { assert (e = UNIFYFS_SUCCESS) as -> by (destruct He; lia). change (rr_cover_begin_offset (rr_set_errcode _ req)) with (rr_cover_begin_offset req).
    destruct (rr_cover_begin_offset req =? 0) eqn:Hb0; zbool; cbn [negb]; (eexists _, _, _; split; [done|]; simpl; split_and!; [done|lia|]);
      intros a; rewrite ?zero_fill_spec; zcompare. }
  rewrite Hsize. cbn [lbind]. rewrite (proj2 (Z.eqb_neq size (-1))); [lia|]. rewrite (u64_small size) //.
  destruct (size <=? rr_offset req) eqn:Heof; zbool.
  { eexists _, _, _. split; [done|]. simpl. split_and!; [done|lia|]. intros a. zcompare. }
  rewrite (u64_small (rr_offset req + rr_nread req)); [unfold is_u64; lia|].
  rewrite (u64_small (rr_offset req + rr_length req)); [unfold is_u64; lia|].
  destruct (size >? rr_offset req + rr_nread req) eqn:Hgap; zbool.
  - set (gap := if _ >? size then _ else _).
    assert (gap = Z.min (rr_length req) (size - rr_offset req) - rr_nread req) as Hg.
    { unfold gap. destruct (_ >? size) eqn:Hend; zbool; rewrite u64_small; unfold is_u64; lia. }
    eexists _, _, _. split; [done|]. simpl. split_and!; [done|rewrite Hg u64_small; [unfold is_u64; lia|lia]|].
    intros a. rewrite zero_fill_spec Hg u64_small; [unfold is_u64; lia|].
    replace (rr_nread req + _) with (Z.min (rr_length req) (size - rr_offset req)) by lia. zcompare.
  - assert (e = UNIFYFS_SUCCESS) as -> by (destruct He; lia). eexists _, _, _. split; [done|]. simpl. split_and!; [done|lia|].
    intros a. zcompare.
Qed.

(** ** Reads that the client serves *)

(** A request that was completed locally needs nothing more. *)
Lemma local_result c s rr rr' :
  req_done c rr rr' -> rr_errcode rr = EINPROGRESS -> update_read_req_result c s rr' = LRet (c, s, rr_set_errcode UNIFYFS_SUCCESS rr').
Proof.
  intros [_ _ (_ & _ & Hl & _ & He) (Hb & _ & Hn)] Herr. unfold update_read_req_result. rewrite He Herr. cbv zeta.
  change (EINPROGRESS =? EINPROGRESS) with true. cbn iota. cbn [rr_set_errcode rr_errcode rr_nread rr_length rr_cover_begin_offset].
  change (negb (UNIFYFS_SUCCESS =? UNIFYFS_SUCCESS) && negb (UNIFYFS_SUCCESS =? ENODATA)) with false. cbn iota.
  by rewrite Hn Hl Z.eqb_refl Hb.
Qed.

Lemma local_results c s reqs reqs' :
  Forall2 (fun rr rr' => req_done c rr rr' /\ rr_errcode rr = EINPROGRESS) reqs reqs' ->
  update_results c s reqs' = LRet (c, s, rr_set_errcode UNIFYFS_SUCCESS <$> reqs').
Proof.
  induction 1 as [|rr rr' reqs reqs' [Hd He] _ IH]; [done|]. cbn [update_results].
  rewrite (local_result c s rr rr' Hd He). cbn [lbind]. by rewrite IH.
Qed.

Context (other_log : Z -> option logio_context) (pread : Z -> Z -> io_result).
Context (node_extents_rpc : S -> list unifyfs_extent_t -> Z + list client_index).
Context (mread_rpc : S -> client_reads -> Z -> list unifyfs_extent_t -> lres (S * client_reads * Z)).
Context (qsort : list read_req -> list read_req).

(** A read of data that the client wrote itself, from the call to the
    result: with local extents enabled, [process_gfid_reads] succeeds without a
    call of the server, in the order of the requests, and every request
    succeeds with all its bytes read and its buffer holding the contents of
    the file. *)
Theorem own_data_read c r s reqs :
  files_ok c -> cc_use_local_extents (cl_cfg c) = true -> cc_use_node_local_extents (cl_cfg c) = false ->
  reqs <> [] -> Forall (fun rr => req_ok c (rr_set_errcode EINPROGRESS rr) /\ has_all c rr = true) reqs -> pread_all pread c ->
  exists c' reqs', process_gfid_reads other_log pread node_extents_rpc mread_rpc qsort c r s reqs =
      LRet (c', r, s, reqs', UNIFYFS_SUCCESS) /\ files_ok c' /\
    Forall2 (fun rr rr' => rr_errcode rr' = UNIFYFS_SUCCESS /\ rr_nread rr' = rr_length rr /\ rr_aiocbp rr' = rr_aiocbp rr /\
      forall a, 0 <= a < rr_length rr -> Some (rr_buf rr' a) = contents c (Z.to_nat (req_fid c rr)) (rr_offset rr + a)) reqs reqs'.
Proof.
  intros Hok Hloc Hnode Hne Hreqs Hpr. unfold process_gfid_reads. rewrite bool_decide_eq_false_2 // Hnode. cbn [lbind].
  unfold local_extents. rewrite Hloc. cbn [orb].
  destruct (calloc_plenty (cl_mem c) (fs_mem _ Hok)) as (m0 & Hal & Hpl0 & Hnx0). rewrite Hal.
  assert (files_ok (cl_set_mem m0 c)) as Hok0 by (apply files_ok_mem; [done|done|lia]).
  destruct (local_reads_spec other_log pread (cl_set_mem m0 c) (rr_set_errcode EINPROGRESS <$> reqs) Hok0) as (m & reqs' & Hpl & Hnx & -> & Hout).
  { apply Forall_fmap. eapply Forall_impl; [exact Hreqs|]. intros rr [Hr _].
    apply (req_ok_grows c); [split; try done; simpl; lia|done]. }
  { exact Hpr. }
  set (c2 := cl_set_mem m (cl_set_mem m0 c)). assert (files_ok c2) as Hok2 by (by apply files_ok_mem).
  assert (Forall2 (fun rr rr' => req_done c2 rr rr' /\ rr_errcode rr = EINPROGRESS) (rr_set_errcode EINPROGRESS <$> reqs) reqs') as Hdone.
  { apply Forall2_fmap_l. rewrite Forall2_fmap_l in Hout. eapply Forall2_impl; [exact (Forall2_with_l _ _ _ _ Hreqs Hout)|].
    intros rr rr' [[_ Hh] Ho]. simpl in Ho. split; [|done]. unfold req_outcome in Ho.
    change (has_all (cl_set_mem m0 c) (rr_set_errcode EINPROGRESS rr)) with (has_all c rr) in Ho. rewrite Hh in Ho.
    destruct Ho as [? ? ? ?]. by split. }
  assert (Forall (fun rr => has_all (cl_set_mem m0 c) rr = true) reqs') as Hall.
  { apply Forall_forall. intros rr' Hin. apply list_elem_of_lookup in Hin as (i & Hi).
    destruct (Forall2_lookup_r _ _ _ _ _ Hdone Hi) as (rr & Hrr & Hd & _). rewrite list_lookup_fmap in Hrr.
    destruct (reqs !! i) as [rr0|] eqn:Hr0; [|done]. injection Hrr as <-.
    rewrite Forall_lookup in Hreqs. destruct (Hreqs i rr0 Hr0) as [_ Hh]. rewrite -Hh. exact (has_all_done c2 _ _ Hd). }
  cbn [lbind]. rewrite (filter_true _ _ Hall) (filter_none _ _ Hall). fold c2. rewrite (local_results c2 s _ _ Hdone). cbn [lbind].
  rewrite bool_decide_eq_true_2 //. exists c2. eexists. split; [done|]. split; [done|]. apply Forall2_fmap_r.
  rewrite Forall2_fmap_l in Hdone. eapply Forall2_impl; [exact Hdone|]. intros rr rr' [[D1 _ (_ & _ & _ & D3 & _) (_ & _ & D4)] _].
  split_and!; try done.
Qed.

End Result.

(** ** Concrete reads *)

Lemma mread_tracked_witness :
  exists m' r', client_create_mread_request (Mem 1 []) ex_reads [ex_rr] = LRet (m', r', Some 3) /\
    client_get_mread_status r' 3 = LRet (Some (MreadStatus 3 [ex_rr] 0 0)) /\ client_get_mread_status r' 259 = LRet None.
Proof.
  destruct (mread_tracked (Mem 1 []) ex_reads ∅ [ex_rr] ex_reads_ok (mem_plenty_nil 1)) as (m' & r' & id & r'' & Hcr & _ & Hget & Hoth & _);
    [by vm_compute|by vm_compute|].
  assert ((let! '(_, _, o) := client_create_mread_request (Mem 1 []) ex_reads [ex_rr] in LRet o) = LRet (Some 3)) as Hid
    by (vm_compute; reflexivity).
  rewrite Hcr in Hid. injection Hid as ->. exists m', r'. split; [exact Hcr|]. split; [exact Hget|].
  rewrite Hoth; [discriminate|]. vm_compute. reflexivity.
Defined.

(** A server that has files of one size. *)
#[export] Instance size_server : ServerRpc Z :=
  { rpc_metaset s _ _ := (s, 0); rpc_metaget _ _ := inl ENOENT; rpc_fsync s _ _ _ _ := (s, 0);
    rpc_filesize s _ := inr s; rpc_truncate s _ _ := (s, 0); rpc_unlink s _ := (s, 0) }.

(** 16 bytes at offset 32 of a file of 40 bytes; the first 3 bytes are read. *)
Definition ex_short : read_req := ReadReq 9 32 16 (fun _ => 7) 0 0 2 3 EINPROGRESS.

Lemma read_result_correct_witness :
  exists c' s' req', update_read_req_result ex_client 40 ex_short = LRet (c', s', req') /\ rr_nread req' = 8 /\
    rr_buf req' 2 = 7 /\ rr_buf req' 3 = 0 /\ rr_buf req' 7 = 0 /\ rr_buf req' 8 = 7.
Proof.
  destruct (read_result_correct ex_client 40 ex_short ex_client 40 40) as (c' & s' & req' & H1 & _ & H2 & H3).
  - split; simpl; unfold ULONG_MAX; try lia.
  - vm_compute. reflexivity.
  - exists c', s', req'. rewrite !H3 H2. split; [exact H1|]. split_and!; vm_compute; reflexivity.
Defined.

(** The bytes before the first data are not set to zero in a short read: here
    bytes 4..7 were read of a file of 8 bytes, and the call says that 8 bytes
    were read, the first four of which are what was in the buffer. *)
Lemma short_read_keeps_hole :
  (let! '(_, _, req) := update_read_req_result ex_client 8 (ReadReq 9 0 16 (fun _ => 7) 0 4 7 8 EINPROGRESS) in
   LRet (rr_errcode req, rr_nread req, rr_buf req 0)) = LRet (UNIFYFS_SUCCESS, 8, 7).
Proof. vm_compute. reflexivity. Qed.

Lemma own_data_read_witness :
  exists c c' s reqs', run_writes ex_client [] ex_user_writes = LRet (c, s, [(0, 6); (0, 5); (0, 2)]) /\
    process_gfid_reads (fun _ => None) ex_pread (fun _ _ => inr []) (fun s r _ _ => LRet (s, r, 0)) id c ex_reads s [ex_req] =
      LRet (c', ex_reads, s, reqs', UNIFYFS_SUCCESS) /\ Forall (fun rr => rr_nread rr = 6) reqs'.
Proof.
  destruct (run_writes_spec ex_client [] ex_user_writes ex_client_ok eq_refl ex_user_writes_ok) as (c & s & rs & Hrun & Hok & Hg & _ & _).
  assert ((let! '(c, _, rs) := run_writes ex_client [] ex_user_writes in LRet (logio_mem_size (cl_logio c), has_all c ex_req, rs)) =
    LRet (160, true, [(0, 6); (0, 5); (0, 2)])) as Hr by (vm_compute; reflexivity).
  rewrite Hrun in Hr. injection Hr as Hm Hh ->.
  destruct (own_data_read (fun _ => None) ex_pread (fun _ _ => inr []) (fun s r _ _ => LRet (s, r, 0)) id c ex_reads s [ex_req] Hok)
    as (c' & reqs' & Hp & _ & Hf).
  - by rewrite (gr_cfg _ _ Hg).
  - by rewrite (gr_cfg _ _ Hg).
  - discriminate.
  - constructor; [|constructor]. split; [exact (req_ok_grows ex_client c ex_req Hg ex_req_ok)|exact Hh].
  - intros off len. by rewrite Hm.
  - exists c, c', s, reqs'. split; [exact Hrun|]. split; [exact Hp|].
    inversion_clear Hf as [|? y ? ys (_ & Hn & _) Hys]. inversion_clear Hys. constructor; [exact Hn|constructor].
Defined.
