(* ===== verification/Rpc.v ===== *)
(** * Programs of the server threads

    The servers of a job work together: each file has an owner, the server
    [gfid % glb_pmi_size], and a server that is asked by a client to change or
    look up a file of another owner sends a remote procedure call to it
    ([server/src/unifyfs_p2p_rpc.c]), or broadcasts a change to all servers
    ([server/src/unifyfs_group_rpc.c]).  A call blocks the thread that makes
    it; meanwhile the other threads of all servers go on.

    The code of a thread is therefore a program [prog]: a tree of operations on
    the state of its own server, each of which the locks of the server make
    atomic, calls of other servers and broadcasts.  [exec_op] is the meaning of
    an operation of the server; calls and broadcasts get theirs in [Cluster].

    An array that a message carries is a list; its length fits the 32 bits of
    the count that is sent with it. *)

From stdpp Require Import functions.
From S2P Require Import Prelude.
From S2P Require Import Extents.
From S2P Require Import ExtentTree.
From S2P Require Import LogIO.
From S2P Require Import ArrayList.
From S2P Require Import Meta.
From S2P Require Import AppTable.
From S2P Require Import InodeTree.
From S2P Require Import Inode.

(** ** Requests to the service manager *)

(** The requests of [server_rpc_e] with their inputs; chunk reads, transfers,
    the end of the start-up and the listing of all files are not here. *)
Inductive svc_req :=
| RPC_EXTENTS_ADD (gfid : Z) (extents : list extent_metadata)
| RPC_EXTENTS_FIND (gfid : Z) (extents : list unifyfs_extent_t)
| RPC_FILESIZE (gfid : Z)
| RPC_LAMINATE (gfid : Z)
| RPC_METAGET (gfid : Z)
| RPC_METASET (gfid fileop : Z) (attr : unifyfs_file_attr_t)
| RPC_TRUNCATE (gfid filesize : Z)
| BCAST_RPC_EXTENTS (root gfid : Z) (extents : list extent_metadata)
| BCAST_RPC_FILEATTR (root gfid attrop : Z) (attr : unifyfs_file_attr_t)
| BCAST_RPC_LAMINATE (root gfid : Z) (attr : unifyfs_file_attr_t) (extents : list extent_metadata)
| BCAST_RPC_TRUNCATE (root gfid filesize : Z)
| BCAST_RPC_UNLINK (root gfid : Z)
| PENDING_SYNC (gfid : Z).

(** The root of the tree of a broadcast. *)
Definition bcast_root (req : svc_req) : option Z :=
  match req with
  | BCAST_RPC_EXTENTS root _ _ | BCAST_RPC_FILEATTR root _ _ _ | BCAST_RPC_LAMINATE root _ _ _
  | BCAST_RPC_TRUNCATE root _ _ | BCAST_RPC_UNLINK root _ => Some root
  | _ => None
  end.

(** The output of a call: the fields of the output structures. *)
Record rpc_out := RpcOut {
  out_ret : Z;
  out_num_locations : Z;
  out_locations : list chunk_read_req;
  out_filesize : Z;
  out_attr : unifyfs_file_attr_t;
}.

Definition ret_out (ret : Z) : rpc_out := RpcOut ret 0 [] 0 unifyfs_file_attr_set_invalid.

(** What a caller gets: a failure of the library that makes the calls, or the
    output of the callee. *)
Inductive call_res :=
| CallFailed
| CallOk (out : rpc_out).

(** [handle]: the call to respond to, if any. *)
Record server_rpc_req_t := ServerRpcReq {
  req_body : svc_req;
  req_handle : option nat;
}.

(** ** A server with its service manager *)

Record node := Node {
  nd_sv : server;
  nd_svc_reqs : option (arraylist_t server_rpc_req_t);   (* sm->svc_reqs *)
  nd_pending_metagets : option (arraylist_t Z);          (* pending_metagets *)
}.

Definition nd_set_sv (sv : server) (nd : node) : node := Node sv (nd_svc_reqs nd) (nd_pending_metagets nd).
Definition nd_set_svc_reqs (l : option (arraylist_t server_rpc_req_t)) (nd : node) : node :=
  Node (nd_sv nd) l (nd_pending_metagets nd).
Definition nd_set_metagets (l : option (arraylist_t Z)) (nd : node) : node := Node (nd_sv nd) (nd_svc_reqs nd) l.

(** The entries a loop from 0 to the size of the list reads. *)
Definition al_items {A} (arr : arraylist_t A) : list (option A) := take (Z.to_nat (al_size arr)) (al_elems arr).

(** The result of [arraylist_add] is not looked at. *)
Definition sm_submit_service_request (nd : node) (req : server_rpc_req_t) : lres (node * Z) :=
  match nd_svc_reqs nd with
  | None => LRet (nd, UNIFYFS_FAILURE)
  | Some l =>
      let! '(m, l, _, _) := lift_option (arraylist_add (sv_mem (nd_sv nd)) l (Some req)) in
      LRet (nd_set_svc_reqs (Some l) (nd_set_sv (set_mem m (nd_sv nd)) nd), UNIFYFS_SUCCESS)
  end.

(** ** Lookups of attributes that wait for an answer *)

Definition is_gfid (gfid : Z) (item : option Z) : Prop := item = Some gfid.

#[export] Instance is_gfid_dec gfid item : Decision (is_gfid gfid item).
Proof. unfold is_gfid. apply _. Defined.

Definition add_pending_metaget (nd : node) (gfid : Z) : lres (node * Z) :=
  let '(pending_gfid, m) := calloc (sv_mem (nd_sv nd)) in
  let nd := nd_set_sv (set_mem m (nd_sv nd)) nd in
  match pending_gfid with
  | None => LRet (nd, ENOMEM)
  | Some _ =>
      match nd_pending_metagets nd with
      | None => LRet (nd, UNIFYFS_FAILURE)
      | Some l =>
          match list_find (is_gfid gfid) (al_items l) with
          | Some _ => LRet (nd, EEXIST)
          | None =>
              let! '(m, l, _, rc) := lift_option (arraylist_add m l (Some gfid)) in
              LRet (nd_set_metagets (Some l) (nd_set_sv (set_mem m (nd_sv nd)) nd),
                    if rc =? -1 then UNIFYFS_FAILURE else UNIFYFS_SUCCESS)
          end
      end
  end.

Definition check_pending_metaget (nd : node) (gfid : Z) : bool :=
  match nd_pending_metagets nd with
  | None => false
  | Some l => match list_find (is_gfid gfid) (al_items l) with Some _ => true | None => false end
  end.

Definition clear_pending_metaget (nd : node) (gfid : Z) : lres (node * Z) :=
  match nd_pending_metagets nd with
  | None => LRet (nd, UNIFYFS_FAILURE)
  | Some l =>
      match list_find (is_gfid gfid) (al_items l) with
      | None => LRet (nd, UNIFYFS_FAILURE)
      | Some (i, _) =>
          let! '(l, _) := lift_option (arraylist_remove l (Z.of_nat i)) in
          LRet (nd_set_metagets (Some l) nd, UNIFYFS_SUCCESS)
      end
  end.

(** ** Operations of a server *)

Inductive op : Type -> Type :=
| OMetaget (gfid : Z) : op (option unifyfs_file_attr_t * Z)
| OMetaset (gfid attr_op : Z) (attr : unifyfs_file_attr_t) : op Z
| OCreate (gfid : Z) (attr : unifyfs_file_attr_t) : op Z
| OAddExtents (gfid : Z) (extents : list extent_metadata) : op Z
| OResolve (extents : list unifyfs_extent_t) : op (Z * Z * list chunk_read_req * bool)
| OFilesize (gfid : Z) : op (Z * Z)
| OTruncate (gfid size : Z) : op Z
| OLaminate (gfid : Z) : op Z
| OUnlink (gfid : Z) : op Z
| OGetExtents (gfid : Z) : op (Z * list extent_metadata)
| OAddPending (gfid creq : Z) (extents : list extent_metadata) : op Z
| OHasPending (gfid : Z) : op bool
| OGetPending (gfid : Z) : op (option (arraylist_t pending_extents_item) * Z)
| OAppClient (app_id client_id : Z) : op bool
| OMalloc : op bool
| OAssert (b : bool) : op unit
| OClock : op Z
| OBulk : op bool
| OAddMetaget (gfid : Z) : op Z
| OAwaitMetaget (gfid : Z) : op unit
| OClearMetaget (gfid : Z) : op Z
| OSubmit (req : svc_req) : op Z
| ORespond (creq ret : Z) : op unit.

(** What an operation gets from outside: the time, whether debug logging is
    on, and whether a transfer of bulk data succeeds. *)
Record op_input := OpInput {
  in_now : Z;
  in_dbg : bool;
  in_bulk : bool;
}.

Section Exec.
Context (qsort : list chunk_read_req -> list chunk_read_req).

(** [OAwaitMetaget] is the loop that sleeps until the lookup is not pending;
    a failed assertion ends the server.  A response to a client is observed in
    the trace of the servers ([Cluster]) and changes no state. *)
Definition exec_op {B} (inp : op_input) (nd : node) (o : op B) : lres (node * B) :=
  let sv := nd_sv nd in
  let with_sv {X} (r : lres (server * X)) : lres (node * X) :=
    let! '(sv, x) := r in LRet (nd_set_sv sv nd, x) in
  match o in op B return lres (node * B) with
  | OMetaget gfid => LRet (nd, unifyfs_inode_metaget sv gfid)
  | OMetaset gfid attr_op attr => with_sv (unifyfs_inode_metaset (in_now inp) sv gfid attr_op attr)
  | OCreate gfid attr => with_sv (unifyfs_inode_create (in_now inp) sv gfid attr)
  | OAddExtents gfid extents => with_sv (unifyfs_inode_add_extents sv gfid extents)
  | OResolve extents =>
      let! '(sv, ret, n, chunks, covered) := unifyfs_inode_resolve_extent_chunks qsort sv extents in
      LRet (nd_set_sv sv nd, (ret, n, chunks, covered))
  | OFilesize gfid => LRet (nd, unifyfs_inode_get_filesize sv gfid)
  | OTruncate gfid size => with_sv (unifyfs_inode_truncate (in_dbg inp) sv gfid size)
  | OLaminate gfid => with_sv (LRet (unifyfs_inode_laminate sv gfid))
  | OUnlink gfid => with_sv (unifyfs_inode_unlink sv gfid)
  | OGetExtents gfid =>
      let! '(sv, ret, extents) := unifyfs_inode_get_extents sv gfid in LRet (nd_set_sv sv nd, (ret, extents))
  | OAddPending gfid creq extents =>
      with_sv (unifyfs_inode_add_pending_extents sv gfid creq (Z.of_nat (length extents)) extents)
  | OHasPending gfid => LRet (nd, unifyfs_inode_has_pending_extents sv gfid)
  | OGetPending gfid =>
      let '(sv, l, rc) := unifyfs_inode_get_pending_extents sv gfid in LRet (nd_set_sv sv nd, (l, rc))
  | OAppClient app_id client_id =>
      LRet (nd, match get_app_client (sv_apps sv) app_id client_id with Some _ => true | None => false end)
  | OMalloc =>
      let '(p, m) := calloc (sv_mem sv) in
      LRet (nd_set_sv (set_mem m sv) nd, match p with Some _ => true | None => false end)
  | OAssert b => if b then LRet (nd, tt) else LFault
  | OClock => LRet (nd, in_now inp)
  | OBulk => LRet (nd, in_bulk inp)
  | OAddMetaget gfid => add_pending_metaget nd gfid
  | OAwaitMetaget gfid => if check_pending_metaget nd gfid then LBlocked else LRet (nd, tt)
  | OClearMetaget gfid => clear_pending_metaget nd gfid
  | OSubmit req => sm_submit_service_request nd (ServerRpcReq req None)
  | ORespond creq ret => LRet (nd, tt)
  end.
End Exec.

(** ** Programs *)

Inductive prog (A : Type) : Type :=
| Ret (a : A)
| Do {B : Type} (o : op B) (k : B -> prog A)
| Forward (dst : Z) (req : svc_req) (k : call_res -> prog A)
| Broadcast (req : svc_req) (k : Z -> prog A).

Arguments Ret {A}.
Arguments Do {A B}.
Arguments Forward {A}.
Arguments Broadcast {A}.

Fixpoint pbind {A C} (p : prog A) (f : A -> prog C) : prog C :=
  match p with
  | Ret a => f a
  | Do o k => Do o (fun x => pbind (k x) f)
  | Forward dst req k => Forward dst req (fun x => pbind (k x) f)
  | Broadcast req k => Broadcast req (fun x => pbind (k x) f)
  end.

Definition pdo {B} (o : op B) : prog B := Do o Ret.

Notation "'let*' p := x 'in' k" := (pbind x (fun p => k))
  (at level 10, p name, x at level 100, k at level 200) : unifyfs_scope.
Notation "'let*' ' p := x 'in' k" := (pbind x (fun y => match y with p => k end))
  (at level 10, p pattern, x at level 100, k at level 200) : unifyfs_scope.
