(* ===== verification/ServiceMgr.v ===== *)
(** * The service manager and the calls between servers

    - [server/src/unifyfs_service_manager.c]: the operations [sm_*] and the
      handlers [process_*] of the requests in the queue of the service manager
      thread;
    - [server/src/unifyfs_p2p_rpc.c]: the calls of the owner of a file and the
      handlers that put a received call into the queue;
    - [server/src/unifyfs_group_rpc.c]: the broadcasts of file operations.

    A handler is a program of its thread.  [glb_pmi_rank] is the rank of the
    server that runs it. *)

From stdpp Require Import functions.
From S2P Require Import Prelude.
From S2P Require Import Extents.
From S2P Require Import ExtentTree.
From S2P Require Import LogIO.
From S2P Require Import ArrayList.
From S2P Require Import KTree.
From S2P Require Import Meta.
From S2P Require Import AppTable.
From S2P Require Import InodeTree.
From S2P Require Import Inode.
From S2P Require Import Rpc.

Definition UNIFYFS_METADATA_CACHE_SECONDS : Z := 5.
Definition UNIFYFS_BCAST_K_ARY : Z := 2.

(** C's integers as conditions. *)
Definition c_true (x : Z) : bool := negb (x =? 0).

(** ** Broadcast trees *)

(** The loop over the children: [fwd] are the results of
    [margo_iforward_timed].  The children the request was sent to, and the
    return code. *)
Fixpoint collective_forward (fwd : list bool) (child_ranks : list Z) (ret : Z) : list Z * Z :=
  match child_ranks with
  | [] => ([], ret)
  | child :: child_ranks =>
      match fwd with
      | true :: fwd =>
          let '(sent, ret) := collective_forward fwd child_ranks ret in (child :: sent, ret)
      | false :: fwd => collective_forward fwd child_ranks UNIFYFS_ERROR_MARGO
      | [] => collective_forward [] child_ranks UNIFYFS_ERROR_MARGO
      end
  end.

(** [collective_create]: the allocation of the request, the tree, and the two
    arrays for the children if there are any; a handle that could not be
    created makes the call of its child fail later.  The tree that was built,
    or nothing. *)
Definition collective_create (m : mem) (rank size tree_root_rank : Z) : mem * option unifyfs_tree_t :=
  let '(coll_req, m) := calloc m in
  match coll_req with
  | None => (m, None)
  | Some _ =>
      let '(m, tree, rc) := unifyfs_tree_init m rank size tree_root_rank UNIFYFS_BCAST_K_ARY in
      if c_true rc then (m, None)
      else if c_true (t_child_count tree) then
        let '(child_hdls, m) := calloc m in
        let '(child_reqs, m) := calloc m in
        match child_hdls, child_reqs with
        | Some _, Some _ => (m, Some tree)
        | _, _ => (m, None)
        end
      else (m, Some tree)
  end.

(** The part that all broadcasts of the root have in common: create the
    collective, forward it to the children, and start the thread that waits
    for them; [progress] is the result of [invoke_bcast_progress_rpc]. *)
Definition start_broadcast (m : mem) (rank size : Z) (fwd : list bool) (progress : bool) : mem * list Z * Z :=
  let '(m, coll) := collective_create m rank size rank in
  match coll with
  | None => (m, [], ENOMEM)
  | Some tree =>
      let '(sent, ret) := collective_forward fwd (ktree_children tree) UNIFYFS_SUCCESS in
      (m, sent, if ret =? UNIFYFS_SUCCESS then (if progress then UNIFYFS_SUCCESS else UNIFYFS_ERROR_MARGO) else ret)
  end.

Section Server.
Context (glb_pmi_size : Z) (use_server_local_extents : bool) (glb_pmi_rank : Z).

Definition owner_rank (gfid : Z) : Z := Z.rem gfid glb_pmi_size.
Definition is_owner (gfid : Z) : bool := owner_rank gfid =? glb_pmi_rank.

(** A program whose allocation of the input structure succeeded. *)
Definition with_input (k : prog Z) : prog Z :=
  let* ok := pdo OMalloc in if ok then k else Ret ENOMEM.

(** ** Broadcasts of file operations ([unifyfs_group_rpc.c]) *)

Definition unifyfs_invoke_broadcast_extents (gfid : Z) : prog Z :=
  let* '(ret, extents) := pdo (OGetExtents gfid) in
  if negb (ret =? UNIFYFS_SUCCESS) then Ret ret
  else if bool_decide (extents = []) then Ret UNIFYFS_SUCCESS
  else
    let* bulk := pdo OBulk in
    if negb bulk then Ret UNIFYFS_ERROR_MARGO
    else with_input (Broadcast (BCAST_RPC_EXTENTS glb_pmi_rank gfid extents) Ret).

Definition unifyfs_invoke_broadcast_laminate (gfid : Z) : prog Z :=
  let* '(attrs, ret) := pdo (OMetaget gfid) in
  match attrs with
  | Some attrs =>
      if negb (c_true (fa_is_shared attrs)) then Ret UNIFYFS_SUCCESS
      else
        let* '(ret, extents) := pdo (OGetExtents gfid) in
        if negb (ret =? UNIFYFS_SUCCESS) then Ret ret
        else
          let* bulk := if bool_decide (extents = []) then Ret true else pdo OBulk in
          if negb bulk then Ret UNIFYFS_ERROR_MARGO
          else with_input (Broadcast (BCAST_RPC_LAMINATE glb_pmi_rank gfid attrs extents) Ret)
  | None => Ret ret
  end.

Definition unifyfs_invoke_broadcast_truncate (gfid filesize : Z) : prog Z :=
  with_input (Broadcast (BCAST_RPC_TRUNCATE glb_pmi_rank gfid filesize) Ret).

Definition unifyfs_invoke_broadcast_fileattr (gfid attr_op : Z) (fattr : unifyfs_file_attr_t) : prog Z :=
  with_input (Broadcast (BCAST_RPC_FILEATTR glb_pmi_rank gfid attr_op fattr) Ret).

Definition unifyfs_invoke_broadcast_unlink (gfid : Z) : prog Z :=
  with_input (Broadcast (BCAST_RPC_UNLINK glb_pmi_rank gfid) Ret).

(** ** Operations of the service manager *)

Definition sm_laminate (gfid : Z) : prog Z :=
  let* ret := pdo (OLaminate gfid) in
  if negb (ret =? UNIFYFS_SUCCESS) then Ret ret
  else if is_owner gfid then unifyfs_invoke_broadcast_laminate gfid
  else Ret ret.

Definition sm_get_fileattr (gfid : Z) : prog (option unifyfs_file_attr_t * Z) := pdo (OMetaget gfid).

(** The result of the broadcast is only logged. *)
Definition sm_set_fileattr (gfid file_op : Z) (attrs : unifyfs_file_attr_t) : prog Z :=
  let* ret := pdo (OMetaset gfid file_op attrs) in
  if negb (ret =? UNIFYFS_SUCCESS) then Ret ret
  else if is_owner gfid && (file_op =? ATTR_OP_CREATE) then
    let* _ := unifyfs_invoke_broadcast_fileattr gfid file_op attrs in Ret ret
  else Ret ret.

Definition sm_add_extents (gfid : Z) (extents : list extent_metadata) : prog Z := pdo (OAddExtents gfid extents).

(** The return code, the number of chunks, the chunks and the coverage. *)
Definition sm_find_extents (gfid : Z) (extents : list unifyfs_extent_t)
    : prog (Z * Z * list chunk_read_req * bool) :=
  let* '(_, ret) := pdo (OMetaget gfid) in
  if ret =? UNIFYFS_SUCCESS then pdo (OResolve extents) else Ret (ret, 0, [], false).

Definition sm_truncate (gfid filesize : Z) : prog Z :=
  let* '(attrs, ret) := pdo (OMetaget gfid) in
  match attrs with
  | Some attrs =>
      let old_size := fa_size attrs in
      let* ret := pdo (OTruncate gfid filesize) in
      if negb (ret =? UNIFYFS_SUCCESS) then Ret ret
      else if is_owner gfid && (filesize <? old_size) then unifyfs_invoke_broadcast_truncate gfid filesize
      else Ret ret
  | None => Ret (if negb (is_owner gfid) && (ret =? ENOENT) then UNIFYFS_SUCCESS else ret)
  end.

(** ** Calls of the owner of a file ([unifyfs_p2p_rpc.c]) *)

(** The calls whose only output is a return code. *)
Definition call_ret (r : call_res) : Z :=
  match r with CallFailed => UNIFYFS_ERROR_MARGO | CallOk out => out_ret out end.

(** The extents are registered for the transfer before the call. *)
Definition unifyfs_invoke_add_extents_rpc (gfid : Z) (extents : list extent_metadata) : prog Z :=
  if is_owner gfid then Ret UNIFYFS_SUCCESS
  else
    let* bulk := pdo OBulk in
    if negb bulk then Ret UNIFYFS_ERROR_MARGO
    else Forward (owner_rank gfid) (RPC_EXTENTS_ADD gfid extents) (fun r => Ret (call_ret r)).

(** The part of [unifyfs_invoke_find_extents_rpc] that asks the owner. *)
Definition find_extents_at_owner (gfid : Z) (extents : list unifyfs_extent_t) : prog (Z * list chunk_read_req) :=
  let* bulk := pdo OBulk in
  if negb bulk then Ret (UNIFYFS_ERROR_MARGO, [])
  else
    Forward (owner_rank gfid) (RPC_EXTENTS_FIND gfid extents) (fun r =>
      match r with
      | CallFailed => Ret (UNIFYFS_ERROR_MARGO, [])
      | CallOk out =>
          if negb (out_ret out =? UNIFYFS_SUCCESS) then Ret (out_ret out, [])
          else if out_num_locations out >? 0 then
            let* pulled := pdo OBulk in
            if pulled then Ret (UNIFYFS_SUCCESS, out_locations out) else Ret (UNIFYFS_ERROR_MARGO, [])
          else Ret (UNIFYFS_SUCCESS, [])
      end).

Definition unifyfs_invoke_find_extents_rpc (gfid : Z) (extents : list unifyfs_extent_t)
    : prog (Z * list chunk_read_req) :=
  let* '(attrs, _) := sm_get_fileattr gfid in
  match attrs with
  | Some attrs =>
      let file_laminated := c_true (fa_is_shared attrs) && c_true (fa_is_laminated attrs) in
      if is_owner gfid || use_server_local_extents || file_laminated then
        let* '(ret, _, chunks, full_coverage) := sm_find_extents gfid extents in
        if is_owner gfid || file_laminated || full_coverage then Ret (ret, chunks)
        else find_extents_at_owner gfid extents
      else find_extents_at_owner gfid extents
  | None => find_extents_at_owner gfid extents
  end.

(** The part of [unifyfs_invoke_metaget_rpc] and [unifyfs_invoke_filesize_rpc]
    that asks the owner, unless another thread already does. *)
Definition metaget_at_owner (need_local_metadata : bool) (gfid : Z) : prog (Z * option unifyfs_file_attr_t) :=
  let* rc := pdo (OAddMetaget gfid) in
  if rc =? EEXIST then
    let* _ := pdo (OAwaitMetaget gfid) in
    let* '(attrs, rc) := sm_get_fileattr gfid in Ret (rc, attrs)
  else
    let* '(ret, attrs) :=
      Forward (owner_rank gfid) (RPC_METAGET gfid) (fun r =>
        match r with
        | CallFailed => Ret (UNIFYFS_ERROR_MARGO, None)
        | CallOk out =>
            if out_ret out =? UNIFYFS_SUCCESS then
              let attrs := out_attr out in
              let* _ := sm_set_fileattr gfid (if need_local_metadata then ATTR_OP_CREATE else ATTR_OP_UTIME) attrs in
              Ret (UNIFYFS_SUCCESS, Some attrs)
            else Ret (out_ret out, None)
        end) in
    let* _ := pdo (OClearMetaget gfid) in
    Ret (ret, attrs).

Definition unifyfs_invoke_metaget_rpc (gfid : Z) : prog (Z * option unifyfs_file_attr_t) :=
  let* '(attrs, rc) := sm_get_fileattr gfid in
  if is_owner gfid then Ret (rc, attrs)
  else
    match attrs with
    | Some a =>
        if c_true (fa_is_laminated a) then Ret (UNIFYFS_SUCCESS, Some a)
        else
          let* now := pdo OClock in
          if now <=? fa_last_update a + UNIFYFS_METADATA_CACHE_SECONDS then Ret (UNIFYFS_SUCCESS, Some a)
          else metaget_at_owner false gfid
    | None => metaget_at_owner (rc =? ENOENT) gfid
    end.

(** The size of attributes that were not found is 0. *)
Definition attrs_size (attrs : option unifyfs_file_attr_t) : Z :=
  match attrs with Some a => fa_size a | None => 0 end.

Definition unifyfs_invoke_filesize_rpc (gfid : Z) : prog (Z * Z) :=
  let* '(attrs, rc) := sm_get_fileattr gfid in
  if is_owner gfid then Ret (rc, attrs_size attrs)
  else
    let laminated := match attrs with Some a => c_true (fa_is_laminated a) | None => false end in
    if laminated then Ret (UNIFYFS_SUCCESS, attrs_size attrs)
    else
      let* '(ret, attrs) := metaget_at_owner (rc =? ENOENT) gfid in Ret (ret, attrs_size attrs).

Definition unifyfs_invoke_metaset_rpc (gfid attr_op : Z) (attrs : unifyfs_file_attr_t) : prog Z :=
  let* ret := sm_set_fileattr gfid attr_op attrs in
  if negb (ret =? UNIFYFS_SUCCESS) then Ret ret
  else if is_owner gfid then Ret ret
  else Forward (owner_rank gfid) (RPC_METASET gfid attr_op attrs) (fun r => Ret (call_ret r)).

Definition unifyfs_invoke_laminate_rpc (gfid : Z) : prog Z :=
  if is_owner gfid then sm_laminate gfid
  else Forward (owner_rank gfid) (RPC_LAMINATE gfid) (fun r => Ret (call_ret r)).

Definition unifyfs_invoke_truncate_rpc (gfid filesize : Z) : prog Z :=
  if is_owner gfid then sm_truncate gfid filesize
  else Forward (owner_rank gfid) (RPC_TRUNCATE gfid filesize) (fun r => Ret (call_ret r)).

(** ** Handlers of the calls of other servers ([unifyfs_service_manager.c])

    The output that is sent to the caller. *)

Definition process_add_extents_rpc (gfid : Z) (extents : list extent_metadata) : prog rpc_out :=
  let* ret := sm_add_extents gfid extents in Ret (ret_out ret).

(** The chunks are registered for the transfer to the caller. *)
Definition process_find_extents_rpc (gfid : Z) (extents : list unifyfs_extent_t) : prog rpc_out :=
  let* '(ret, num_chunks, chunk_locs, _) := sm_find_extents gfid extents in
  let* ret :=
    if (ret =? UNIFYFS_SUCCESS) && (num_chunks >? 0) then
      let* bulk := pdo OBulk in Ret (if bulk then ret else UNIFYFS_ERROR_MARGO)
    else Ret ret in
  Ret (RpcOut ret num_chunks chunk_locs 0 unifyfs_file_attr_set_invalid).

Definition process_filesize_rpc (gfid : Z) : prog rpc_out :=
  let* '(ret, filesize) := pdo (OFilesize gfid) in
  Ret (RpcOut ret 0 [] filesize unifyfs_file_attr_set_invalid).

Definition process_laminate_rpc (gfid : Z) : prog rpc_out :=
  let* ret := sm_laminate gfid in Ret (ret_out ret).

Definition process_metaget_rpc (gfid : Z) : prog rpc_out :=
  let* '(attrs, ret) := sm_get_fileattr gfid in
  Ret (RpcOut ret 0 [] 0 (default unifyfs_file_attr_set_invalid attrs)).

Definition process_metaset_rpc (gfid attr_op : Z) (attrs : unifyfs_file_attr_t) : prog rpc_out :=
  let* ret := sm_set_fileattr gfid attr_op attrs in Ret (ret_out ret).

Definition process_truncate_rpc (gfid fsize : Z) : prog rpc_out :=
  let* ret := sm_truncate gfid fsize in Ret (ret_out ret).

(** ** Handlers of broadcasts

    The value set by [collective_set_local_retval], which goes up the tree
    with the response; the root of the broadcasts modelled here does not look
    at it. *)

Definition process_extents_bcast_rpc (gfid : Z) (extents : list extent_metadata) : prog Z :=
  sm_add_extents gfid extents.

Definition process_fileattr_bcast_rpc (gfid attr_op : Z) (attrs : unifyfs_file_attr_t) : prog Z :=
  let* ret := sm_set_fileattr gfid attr_op attrs in
  Ret (if (attr_op =? ATTR_OP_CREATE) && (ret =? EEXIST) then UNIFYFS_SUCCESS else ret).

(** The inode is created, not laminated, if there is none; a failure to create
    it is only logged. *)
Definition process_laminate_bcast_rpc (gfid : Z) (fattr : unifyfs_file_attr_t) (extents : list extent_metadata) : prog Z :=
  let* '(_, ret) := pdo (OMetaget gfid) in
  let* fattr :=
    if ret =? ENOENT then
      let* _ := pdo (OCreate gfid (attr_set_laminated 0 fattr)) in Ret (attr_set_laminated 1 fattr)
    else Ret fattr in
  let* ret1 := sm_add_extents gfid extents in
  let* ret2 := sm_set_fileattr gfid ATTR_OP_LAMINATE fattr in
  Ret (if negb (ret2 =? UNIFYFS_SUCCESS) then ret2 else ret1).

(** A server that is not the owner, the root of the tree, may not have the
    inode. *)
Definition process_truncate_bcast_rpc (root gfid fsize : Z) : prog Z :=
  let* ret := pdo (OTruncate gfid fsize) in
  Ret (if (ret =? ENOENT) && negb (root =? glb_pmi_rank) then UNIFYFS_SUCCESS else ret).

Definition process_unlink_bcast_rpc (root gfid : Z) : prog Z :=
  let* ret := pdo (OUnlink gfid) in
  Ret (if (ret =? ENOENT) && negb (root =? glb_pmi_rank) then UNIFYFS_SUCCESS else ret).

(** ** Pending synchronisations *)

(** The items of the list that are there. *)
Definition pending_items (pending_list : arraylist_t pending_extents_item) : list pending_extents_item :=
  omap id (al_items pending_list).

(** The arrays of the items, copied one after another. *)
Definition combined_extents (items : list pending_extents_item) : list extent_metadata :=
  concat ((fun pei => take (Z.to_nat (pe_num_extents pei)) (pe_extents pei)) <$> items).

(** The loop that responds to the clients. *)
Fixpoint respond_all (ret : Z) (items : list pending_extents_item) : prog unit :=
  match items with
  | [] => Ret tt
  | pei :: items => let* _ := pdo (ORespond (pe_client_req pei) ret) in respond_all ret items
  end.

(** The server sleeps for 50 milliseconds if there are pending extents. *)
Definition process_pending_sync (gfid : Z) : prog Z :=
  let* _ := pdo (OHasPending gfid) in
  let* '(pending_list, rc) := pdo (OGetPending gfid) in
  match pending_list with
  | Some pending_list =>
      let items := pending_items pending_list in
      let extents := combined_extents items in
      let* combined := pdo OMalloc in
      let* ret :=
        if negb combined then Ret ENOMEM
        else
          let* ret := pdo (OAddExtents gfid extents) in
          if (ret =? UNIFYFS_SUCCESS) && negb (is_owner gfid) then unifyfs_invoke_add_extents_rpc gfid extents
          else Ret ret in
      let* _ := respond_all ret items in
      Ret ret
  | None => Ret rc
  end.

(** ** The service manager thread

    [process_service_requests] dispatches the requests of the queue; the
    output is for the caller that waits for it. *)
Definition process_service_request (req : svc_req) : prog (option rpc_out) :=
  let responds (p : prog rpc_out) : prog (option rpc_out) := let* out := p in Ret (Some out) in
  let collective (p : prog Z) : prog (option rpc_out) := let* _ := p in Ret None in
  match req with
  | RPC_EXTENTS_ADD gfid extents => responds (process_add_extents_rpc gfid extents)
  | RPC_EXTENTS_FIND gfid extents => responds (process_find_extents_rpc gfid extents)
  | RPC_FILESIZE gfid => responds (process_filesize_rpc gfid)
  | RPC_LAMINATE gfid => responds (process_laminate_rpc gfid)
  | RPC_METAGET gfid => responds (process_metaget_rpc gfid)
  | RPC_METASET gfid fileop attr => responds (process_metaset_rpc gfid fileop attr)
  | RPC_TRUNCATE gfid filesize => responds (process_truncate_rpc gfid filesize)
  | BCAST_RPC_EXTENTS root gfid extents => collective (process_extents_bcast_rpc gfid extents)
  | BCAST_RPC_FILEATTR root gfid attrop attr => collective (process_fileattr_bcast_rpc gfid attrop attr)
  | BCAST_RPC_LAMINATE root gfid attr extents => collective (process_laminate_bcast_rpc gfid attr extents)
  | BCAST_RPC_TRUNCATE root gfid filesize => collective (process_truncate_bcast_rpc root gfid filesize)
  | BCAST_RPC_UNLINK root gfid => collective (process_unlink_bcast_rpc root gfid)
  | PENDING_SYNC gfid => collective (process_pending_sync gfid)
  end.

(** The queue is taken as a whole and replaced by an empty one, also when there
    is none, whose size is -1; a null entry of the list would be
    dereferenced. *)
Definition take_service_requests (nd : node) : lres (node * list server_rpc_req_t) :=
  if arraylist_size (nd_svc_reqs nd) =? 0 then LRet (nd, [])
  else
    let! reqs := match nd_svc_reqs nd with None => LRet [] | Some l => lift_option (mapM id (al_items l)) end in
    let '(m, l') := arraylist_create (sv_mem (nd_sv nd)) 0 in
    LRet (nd_set_svc_reqs l' (nd_set_sv (set_mem m (nd_sv nd)) nd), reqs).
End Server.
