(* ===== verification/RpcHandlers.v ===== *)
(** * Receiving calls and broadcasts

    The handlers that run when a call of another server arrives
    ([server/src/unifyfs_p2p_rpc.c]) or a broadcast
    ([server/src/unifyfs_group_rpc.c]): they unpack the input, pull the bulk
    data that belongs to it ([common/src/unifyfs_rpc_util.c]), forward a
    broadcast to the children in the tree, and queue a request for the service
    manager.  An error is reported to the caller at once. *)

From S2P Require Import Prelude.
From S2P Require Import Extents.
From S2P Require Import ExtentTree.
From S2P Require Import LogIO.
From S2P Require Import ArrayList.
From S2P Require Import KTree.
From S2P Require Import Meta.
From S2P Require Import InodeTree.
From S2P Require Import Inode.
From S2P Require Import Rpc.
From S2P Require Import ServiceMgr.

Definition UNIFYFS_SERVER_MAX_BULK_TX_SIZE : Z := 8388608.
Definition sizeof_extent_metadata : Z := 40.
Definition sizeof_unifyfs_extent : Z := 24.

(** ** Bulk transfers *)

(** The transfer loop: the pieces, as offset and length, that were
    transferred, and whether all of them were.  [tx] are the results of
    [margo_bulk_transfer]; the calls after the last result succeed. *)
Fixpoint bulk_transfer_loop (fuel : nat) (tx : list bool) (i remain : Z) : option (list (Z * Z) * bool) :=
  match fuel with
  | O => None
  | S fuel =>
      let max_bulk := UNIFYFS_SERVER_MAX_BULK_TX_SIZE in
      let offset := u64 (i * max_bulk) in
      let len := if remain <? max_bulk then remain else max_bulk in
      if default true (head tx) then
        let remain := remain ⊟ len in
        if remain >? 0 then
          '(pieces, ok) ← bulk_transfer_loop fuel (tail tx) (i + 1) remain;
          Some ((offset, len) :: pieces, ok)
        else Some ([(offset, len)], true)
      else Some ([], false)
  end.

Definition bulk_fuel (bulk_sz : Z) : nat := S (Z.to_nat (bulk_sz / UNIFYFS_SERVER_MAX_BULK_TX_SIZE)).

(** What the library reports for a received call: the unpacking of the input,
    the registration of the buffer, the pieces of the transfer and the calls
    of the children. *)
Record handler_env := HandlerEnv {
  he_input : bool;
  he_bulk_create : bool;
  he_transfer : list bool;
  he_forward : list bool;
}.

(** The pieces that were pulled into the new buffer; nothing when the null
    pointer is returned. *)
Definition pull_margo_bulk_buffer (env : handler_env) (m : mem) (bulk_sz : Z) : lres (mem * option (list (Z * Z))) :=
  if bulk_sz =? 0 then LRet (m, None)
  else
    let '(buffer, m) := calloc m in
    match buffer with
    | None => LRet (m, None)
    | Some _ =>
        if negb (he_bulk_create env) then LRet (m, None)
        else
          let! '(pieces, ok) := lift_option (bulk_transfer_loop (bulk_fuel bulk_sz) (he_transfer env) 0 bulk_sz) in
          LRet (m, if ok then Some pieces else None)
    end.

(** ** Calls *)

(** [bulk_sz]: the size of the bulk data of the call, if it has any. *)
Definition rpc_handler (env : handler_env) (nd : node) (bulk_sz : option Z) (body : svc_req) (handle : nat)
    : lres (node * option rpc_out) :=
  let '(in_, m) := calloc (sv_mem (nd_sv nd)) in
  let '(req, m) := calloc m in
  let nd := nd_set_sv (set_mem m (nd_sv nd)) nd in
  let! '(nd, ret) :=
    match in_, req with
    | Some _, Some _ =>
        if negb (he_input env) then LRet (nd, UNIFYFS_ERROR_MARGO)
        else
          match bulk_sz with
          | Some bulk_sz =>
              let! '(m, buf) := pull_margo_bulk_buffer env (sv_mem (nd_sv nd)) bulk_sz in
              let nd := nd_set_sv (set_mem m (nd_sv nd)) nd in
              match buf with
              | None => LRet (nd, UNIFYFS_ERROR_MARGO)
              | Some _ => sm_submit_service_request nd (ServerRpcReq body (Some handle))
              end
          | None => sm_submit_service_request nd (ServerRpcReq body (Some handle))
          end
    | _, _ => LRet (nd, ENOMEM)
    end in
  LRet (nd, if negb (ret =? UNIFYFS_SUCCESS) then Some (ret_out ret) else None).

Definition extents_size (extents : list extent_metadata) : Z := Z.of_nat (length extents) * sizeof_extent_metadata.

Definition add_extents_rpc (env : handler_env) (nd : node) (gfid : Z) (extents : list extent_metadata) (handle : nat) :=
  rpc_handler env nd (Some (extents_size extents)) (RPC_EXTENTS_ADD gfid extents) handle.

Definition find_extents_rpc (env : handler_env) (nd : node) (gfid : Z) (extents : list unifyfs_extent_t) (handle : nat) :=
  rpc_handler env nd (Some (Z.of_nat (length extents) * sizeof_unifyfs_extent)) (RPC_EXTENTS_FIND gfid extents) handle.

Definition metaget_rpc (env : handler_env) (nd : node) (gfid : Z) (handle : nat) :=
  rpc_handler env nd None (RPC_METAGET gfid) handle.

Definition filesize_rpc (env : handler_env) (nd : node) (gfid : Z) (handle : nat) :=
  rpc_handler env nd None (RPC_FILESIZE gfid) handle.

Definition metaset_rpc (env : handler_env) (nd : node) (gfid fileop : Z) (attr : unifyfs_file_attr_t) (handle : nat) :=
  rpc_handler env nd None (RPC_METASET gfid fileop attr) handle.

Definition laminate_rpc (env : handler_env) (nd : node) (gfid : Z) (handle : nat) :=
  rpc_handler env nd None (RPC_LAMINATE gfid) handle.

Definition truncate_rpc (env : handler_env) (nd : node) (gfid filesize : Z) (handle : nat) :=
  rpc_handler env nd None (RPC_TRUNCATE gfid filesize) handle.

(** ** Broadcasts *)

(** The node, the children the broadcast was forwarded to, and the return
    code; a code other than success is the response to the parent. *)
Definition bcast_handler (env : handler_env) (nd : node) (bulk_sz : option Z) (root : Z) (body : svc_req)
    : lres (node * list Z * Z) :=
  let rank := sv_glb_pmi_rank (nd_sv nd) in
  let size := sv_glb_pmi_size (nd_sv nd) in
  let '(req, m) := calloc (sv_mem (nd_sv nd)) in
  let '(in_, m) := calloc m in
  let '(out, m) := calloc m in
  let nd := nd_set_sv (set_mem m (nd_sv nd)) nd in
  match req, in_, out with
  | Some _, Some _, Some _ =>
      if negb (he_input env) then LRet (nd, [], UNIFYFS_ERROR_MARGO)
      else
        let! '(m, pulled) :=
          match bulk_sz with
          | Some bulk_sz =>
              let! '(m, buf) := pull_margo_bulk_buffer env (sv_mem (nd_sv nd)) bulk_sz in
              LRet (m, match buf with Some _ => true | None => false end)
          | None => LRet (sv_mem (nd_sv nd), true)
          end in
        let nd := nd_set_sv (set_mem m (nd_sv nd)) nd in
        if negb pulled then LRet (nd, [], UNIFYFS_ERROR_MARGO)
        else
          let '(m, coll) := collective_create (sv_mem (nd_sv nd)) rank size root in
          let nd := nd_set_sv (set_mem m (nd_sv nd)) nd in
          match coll with
          | None => LRet (nd, [], ENOMEM)
          | Some tree =>
              let '(sent, ret) := collective_forward (he_forward env) (ktree_children tree) UNIFYFS_SUCCESS in
              if ret =? UNIFYFS_SUCCESS then
                let! '(nd, ret) := sm_submit_service_request nd (ServerRpcReq body None) in LRet (nd, sent, ret)
              else LRet (nd, sent, ret)
          end
  | _, _, _ => LRet (nd, [], ENOMEM)
  end.

Definition extent_bcast_rpc (env : handler_env) (nd : node) (root gfid : Z) (extents : list extent_metadata) :=
  bcast_handler env nd (Some (extents_size extents)) root (BCAST_RPC_EXTENTS root gfid extents).

Definition laminate_bcast_rpc (env : handler_env) (nd : node) (root gfid : Z) (attr : unifyfs_file_attr_t)
    (extents : list extent_metadata) :=
  bcast_handler env nd (Some (extents_size extents)) root (BCAST_RPC_LAMINATE root gfid attr extents).

Definition truncate_bcast_rpc (env : handler_env) (nd : node) (root gfid filesize : Z) :=
  bcast_handler env nd None root (BCAST_RPC_TRUNCATE root gfid filesize).

Definition fileattr_bcast_rpc (env : handler_env) (nd : node) (root gfid attrop : Z) (attr : unifyfs_file_attr_t) :=
  bcast_handler env nd None root (BCAST_RPC_FILEATTR root gfid attrop attr).

Definition unlink_bcast_rpc (env : handler_env) (nd : node) (root gfid : Z) :=
  bcast_handler env nd None root (BCAST_RPC_UNLINK root gfid).

(** The handler of a message: the node, the children a broadcast goes on to,
    and the response of a call that could not be queued. *)
Definition receive (env : handler_env) (nd : node) (body : svc_req) (handle : nat)
    : lres (node * list Z * option rpc_out) :=
  let call (r : lres (node * option rpc_out)) := let! '(nd, out) := r in LRet (nd, [], out) in
  let bcast (r : lres (node * list Z * Z)) := let! '(nd, sent, _) := r in LRet (nd, sent, None) in
  match body with
  | RPC_EXTENTS_ADD gfid extents => call (add_extents_rpc env nd gfid extents handle)
  | RPC_EXTENTS_FIND gfid extents => call (find_extents_rpc env nd gfid extents handle)
  | RPC_FILESIZE gfid => call (filesize_rpc env nd gfid handle)
  | RPC_LAMINATE gfid => call (laminate_rpc env nd gfid handle)
  | RPC_METAGET gfid => call (metaget_rpc env nd gfid handle)
  | RPC_METASET gfid fileop attr => call (metaset_rpc env nd gfid fileop attr handle)
  | RPC_TRUNCATE gfid filesize => call (truncate_rpc env nd gfid filesize handle)
  | BCAST_RPC_EXTENTS root gfid extents => bcast (extent_bcast_rpc env nd root gfid extents)
  | BCAST_RPC_FILEATTR root gfid attrop attr => bcast (fileattr_bcast_rpc env nd root gfid attrop attr)
  | BCAST_RPC_LAMINATE root gfid attr extents => bcast (laminate_bcast_rpc env nd root gfid attr extents)
  | BCAST_RPC_TRUNCATE root gfid filesize => bcast (truncate_bcast_rpc env nd root gfid filesize)
  | BCAST_RPC_UNLINK root gfid => bcast (unlink_bcast_rpc env nd root gfid)
  | PENDING_SYNC _ => LFault
  end.

(** ** Properties *)

(** Consecutive pieces from [lo] to [hi], none empty or too large. *)
Fixpoint tiles (lo hi : Z) (pieces : list (Z * Z)) : Prop :=
  match pieces with
  | [] => lo = hi
  | (offset, len) :: pieces =>
      offset = lo /\ 0 < len <= UNIFYFS_SERVER_MAX_BULK_TX_SIZE /\ tiles (lo + len) hi pieces
  end.

Lemma bulk_transfer_loop_ok fuel tx i remain :
  0 <= i -> 0 < remain -> i * UNIFYFS_SERVER_MAX_BULK_TX_SIZE + remain <= ULONG_MAX ->
  remain <= Z.of_nat fuel * UNIFYFS_SERVER_MAX_BULK_TX_SIZE ->
  exists pieces ok, bulk_transfer_loop fuel tx i remain = Some (pieces, ok) /\
    (ok = true -> tiles (i * UNIFYFS_SERVER_MAX_BULK_TX_SIZE) (i * UNIFYFS_SERVER_MAX_BULK_TX_SIZE + remain) pieces) /\
    (Forall (eq true) tx -> ok = true).
Proof.
  unfold UNIFYFS_SERVER_MAX_BULK_TX_SIZE. revert tx i remain.
  induction fuel as [|fuel IH]; intros tx i remain Hi Hr Hmax Hf; [lia|]. cbn [bulk_transfer_loop]. unfold UNIFYFS_SERVER_MAX_BULK_TX_SIZE.
  rewrite (u64_small (i * 8388608)); first ulia.
  destruct (default true (head tx)) eqn:Htx.
  2:{ eexists [], false. split_and!; [done..|]. destruct tx as [|b tx]; [done|]. simpl in Htx. subst b. by inversion 1. }
  assert (Forall (eq true) tx -> Forall (eq true) (tail tx)) as Htl by (destruct tx; [done|by intros [_ ?]%Forall_cons]).
  set (len := if remain <? 8388608 then remain else 8388608).
  assert (0 < len <= 8388608 /\ len <= remain) as Hlen by (unfold len; destruct (_ <? _) eqn:?; zbool; lia).
  rewrite (u64_small (remain - len)); first ulia. destruct (remain - len >? 0) eqn:Hm; zbool.
  - assert (len = 8388608) as Hl by (unfold len in *; destruct (_ <? _) eqn:?; zbool; lia).
    destruct (IH (tail tx) (i + 1) (remain - len)) as (ps & ok & -> & Hps & Hok); [lia..|].
    simpl. eexists _, ok. split_and!; [done| |auto]. intros H. simpl. unfold UNIFYFS_SERVER_MAX_BULK_TX_SIZE. split_and!; [done|lia..|].
    specialize (Hps H). replace (i * 8388608 + len) with ((i + 1) * 8388608) by lia.
    replace (i * 8388608 + remain) with ((i + 1) * 8388608 + (remain - len)) by lia. done.
  - eexists _, true. split_and!; [done| |done]. intros _. simpl. unfold UNIFYFS_SERVER_MAX_BULK_TX_SIZE. split_and!; [done|lia..].
Qed.

(** The transfer of bulk data ends, and its pieces are exactly the buffer:
    consecutive, none empty or larger than the limit, from the first byte to
    the last, when no transfer fails; the buffer is given up at the first one
    that does. *)
Theorem bulk_transfer_pieces tx sz :
  0 < sz <= ULONG_MAX ->
  exists pieces ok, bulk_transfer_loop (bulk_fuel sz) tx 0 sz = Some (pieces, ok) /\
    (ok = true -> tiles 0 sz pieces) /\ (Forall (eq true) tx -> ok = true).
Proof.
  intros Hsz. apply (bulk_transfer_loop_ok (bulk_fuel sz) tx 0 sz); [lia..|].
  unfold bulk_fuel, UNIFYFS_SERVER_MAX_BULK_TX_SIZE. pose proof (Z.div_mod sz 8388608 ltac:(lia)).
  pose proof (Z.mod_pos_bound sz 8388608 ltac:(lia)). pose proof (Z.div_pos sz 8388608). lia.
Qed.

Lemma bulk_transfer_pieces_witness :
  exists pieces ok, bulk_transfer_loop (bulk_fuel 20000000) [] 0 20000000 = Some (pieces, ok) /\
    (ok = true -> tiles 0 20000000 pieces) /\ (Forall (eq true) [] -> ok = true).
Proof. apply (bulk_transfer_pieces [] 20000000). split; [lia|by vm_compute]. Defined.

(** A broadcast of a lamination that carries no extents is refused by every
    server that receives it: it is neither executed there nor forwarded, since
    the buffer for its extents is empty, although the sender means to broadcast
    a file without extents. *)
Theorem laminate_bcast_empty_refused env nd root gfid attr :
  exists nd' ret, laminate_bcast_rpc env nd root gfid attr [] = LRet (nd', [], ret) /\ ret <> UNIFYFS_SUCCESS /\
    nd_svc_reqs nd' = nd_svc_reqs nd /\ sv_inodes (nd_sv nd') = sv_inodes (nd_sv nd).
Proof.
  unfold laminate_bcast_rpc, bcast_handler. destruct (calloc _) as [req m1]. destruct (calloc m1) as [in_ m2].
  destruct (calloc m2) as [out m3]. destruct req, in_, out; try (eexists _, ENOMEM; split_and!; done).
  destruct (negb (he_input env)); eexists _, UNIFYFS_ERROR_MARGO; split_and!; done.
Qed.
