(* ===== verification/RequestMgr.v ===== *)
(** * Requests of clients ([server/src/unifyfs_request_manager.c])

    Each client has a request manager thread on its server, which processes
    the requests of the client in order.  [process_*_rpc] unpack a request and
    call the table of file operations ([server/src/unifyfs_fops_rpc.c]), which
    uses the calls of [ServiceMgr].  The output is sent to the client; only a
    synchronisation is answered later, by the service manager.

    The loop of [rm_process_client_requests] is the sequence of the programs
    below; attaching a client is in [AppTable], the reads that follow a lookup
    are in [ServerRead]. *)

From S2P Require Import Prelude.
From S2P Require Import Extents.
From S2P Require Import ExtentTree.
From S2P Require Import Meta.
From S2P Require Import InodeTree.
From S2P Require Import Inode.
From S2P Require Import Rpc.
From S2P Require Import ServiceMgr.

(** The requests of a client; [creq] names a synchronisation that is answered
    later. *)
Inductive client_op :=
| CFilesize (gfid : Z)
| CSync (gfid : Z) (index : list unifyfs_index)
| CLaminate (gfid : Z)
| CMetaget (gfid : Z)
| CMetaset (attr_op : Z) (attr : unifyfs_file_attr_t)
| CRead (extents : list unifyfs_extent_t)
| CTruncate (gfid filesize : Z)
| CUnlink (gfid : Z).

Record client_out := ClientOut {
  co_ret : Z;
  co_filesize : Z;
  co_attr : option unifyfs_file_attr_t;
  co_chunks : list (unifyfs_extent_t * list chunk_read_req);
}.

Definition co_of_ret (ret : Z) : client_out := ClientOut ret 0 None [].

(** One extent for each entry of the index of a client. *)
Definition extent_of_index (rank app_id client_id : Z) (meta : unifyfs_index) : extent_metadata :=
  ExtentMd (u64 (ix_file_pos meta)) (ix_file_pos meta ⊞ ix_length meta ⊟ 1) (u64 (ix_log_pos meta)) rank app_id client_id.

Section Server.
Context (glb_pmi_size : Z) (use_server_local_extents : bool) (glb_pmi_rank app_id client_id : Z).

(** ** File operations ([unifyfs_fops_rpc.c]) *)

(** The attributes of the mountpoint, whose identifier is that of the
    application, are always local. *)
Definition rpc_metaget (gfid : Z) : prog (Z * option unifyfs_file_attr_t) :=
  if gfid =? app_id then let* '(attrs, ret) := sm_get_fileattr gfid in Ret (ret, attrs)
  else unifyfs_invoke_metaget_rpc glb_pmi_size glb_pmi_rank gfid.

Definition rpc_metaset (gfid attr_op : Z) (attr : unifyfs_file_attr_t) : prog Z :=
  unifyfs_invoke_metaset_rpc glb_pmi_size glb_pmi_rank gfid attr_op attr.

(** [index]: the entries in use of the write index in the memory shared with
    the client. *)
Definition rpc_fsync (gfid client_req : Z) (index : list unifyfs_index) : prog Z :=
  let* client := pdo (OAppClient app_id client_id) in
  if negb client then Ret EINVAL
  else
    match index with
    | [] => Ret UNIFYFS_SUCCESS
    | first :: _ =>
        let* _ := pdo (OAssert (gfid =? ix_gfid first)) in
        let* svr_req := pdo OMalloc in
        let* pending_gfid := pdo OMalloc in
        let* extents := pdo OMalloc in
        if negb (svr_req && pending_gfid && extents) then Ret ENOMEM
        else
          let* ret := pdo (OAddPending gfid client_req (extent_of_index glb_pmi_rank app_id client_id <$> index)) in
          if negb (ret =? UNIFYFS_SUCCESS) then Ret ret
          else pdo (OSubmit (PENDING_SYNC gfid))
    end.

Definition rpc_filesize (gfid : Z) : prog (Z * Z) := unifyfs_invoke_filesize_rpc glb_pmi_size glb_pmi_rank gfid.

Definition rpc_truncate (gfid len : Z) : prog Z := unifyfs_invoke_truncate_rpc glb_pmi_size glb_pmi_rank gfid (u64 len).

Definition rpc_laminate (gfid : Z) : prog Z := unifyfs_invoke_laminate_rpc glb_pmi_size glb_pmi_rank gfid.

(** The result of the local call is only logged. *)
Definition rpc_unlink (gfid : Z) : prog Z :=
  let* _ := pdo (OUnlink gfid) in unifyfs_invoke_broadcast_unlink glb_pmi_rank gfid.

(** The lookups of [submit_read_request]: the chunks of each extent, up to the
    first that fails. *)
Fixpoint lookup_extents (extents : list unifyfs_extent_t) : prog (Z * list (unifyfs_extent_t * list chunk_read_req)) :=
  match extents with
  | [] => Ret (UNIFYFS_SUCCESS, [])
  | ext :: extents =>
      let* '(rc, chunks) :=
        unifyfs_invoke_find_extents_rpc glb_pmi_size use_server_local_extents glb_pmi_rank (ue_gfid ext) [ext] in
      if negb (rc =? UNIFYFS_SUCCESS) then Ret (rc, [])
      else
        let* '(rc, found) := lookup_extents extents in Ret (rc, (ext, chunks) :: found)
  end.

(** ** The request manager *)

Definition rm_process_filesize_rpc (gfid : Z) : prog client_out :=
  let* '(ret, filesize) := rpc_filesize gfid in Ret (ClientOut ret filesize None []).

(** The client is answered here only when the synchronisation could not be
    started. *)
Definition rm_process_fsync_rpc (gfid creq : Z) (index : list unifyfs_index) : prog client_out :=
  let* ret := rpc_fsync gfid creq index in
  if negb (ret =? UNIFYFS_SUCCESS) then
    let* _ := pdo (ORespond creq ret) in Ret (co_of_ret ret)
  else Ret (co_of_ret ret).

Definition rm_process_laminate_rpc (gfid : Z) : prog client_out :=
  let* ret := rpc_laminate gfid in Ret (co_of_ret ret).

Definition rm_process_metaget_rpc (gfid : Z) : prog client_out :=
  let* '(ret, fattr) := rpc_metaget gfid in Ret (ClientOut ret 0 fattr []).

(** The filename is copied. *)
Definition rm_process_metaset_rpc (attr_op : Z) (attr : unifyfs_file_attr_t) : prog client_out :=
  let* copied := match fa_filename attr with Some _ => pdo OMalloc | None => Ret true end in
  let fattr := if copied then attr else attr_set_filename None attr in
  let* ret := rpc_metaset (fa_gfid attr) attr_op fattr in Ret (co_of_ret ret).

(** The checks at the start of [submit_read_request], and the lookups. *)
Definition rm_process_read_rpc (extents : list unifyfs_extent_t) : prog client_out :=
  if bool_decide (extents = []) then Ret (co_of_ret EINVAL)
  else
    let* client := pdo (OAppClient app_id client_id) in
    if negb client then Ret (co_of_ret UNIFYFS_FAILURE)
    else let* '(ret, found) := lookup_extents extents in Ret (ClientOut ret 0 None found).

Definition rm_process_truncate_rpc (gfid filesize : Z) : prog client_out :=
  let* ret := rpc_truncate gfid filesize in Ret (co_of_ret ret).

Definition rm_process_unlink_rpc (gfid : Z) : prog client_out :=
  let* ret := rpc_unlink gfid in Ret (co_of_ret ret).

(** The dispatch of [rm_process_client_requests]. *)
Definition process_client_request (creq : Z) (o : client_op) : prog client_out :=
  match o with
  | CFilesize gfid => rm_process_filesize_rpc gfid
  | CSync gfid index => rm_process_fsync_rpc gfid creq index
  | CLaminate gfid => rm_process_laminate_rpc gfid
  | CMetaget gfid => rm_process_metaget_rpc gfid
  | CMetaset attr_op attr => rm_process_metaset_rpc attr_op attr
  | CRead extents => rm_process_read_rpc extents
  | CTruncate gfid filesize => rm_process_truncate_rpc gfid filesize
  | CUnlink gfid => rm_process_unlink_rpc gfid
  end.
End Server.
