(* ===== verification/Cluster.v ===== *)
(** * The servers of a job

    A transition system of all servers: on each server the service manager
    thread works through the requests in its queue, and the request managers
    work on the requests of clients; a call between servers is a message, whose
    handler queues a request at the callee, and a reply, for which the thread
    of the caller waits.  Messages arrive in any order; calls can fail or time
    out, and messages and replies can be lost.

    The trace records what happened: requests of clients and their results,
    calls, changes of files and responses to synchronisations.  The code does
    not see it; the properties are stated with it. *)

From stdpp Require Import functions.
From S2P Require Import Prelude.
From S2P Require Import Extents.
From S2P Require Import ExtentTree.
From S2P Require Import WriteIndex.
From S2P Require Import RangeTree.
From S2P Require Import LogIO.
From S2P Require Import ArrayList.
From S2P Require Import Meta.
From S2P Require Import AppTable.
From S2P Require Import InodeTree.
From S2P Require Import Inode.
From S2P Require Import InodeProps.
From S2P Require Import Rpc.
From S2P Require Import ServiceMgr.
From S2P Require Import RpcHandlers.
From S2P Require Import RequestMgr.

(** ** Traces *)

Inductive event :=
| EvStart (rank creq app_id client_id : Z) (o : client_op)
| EvDone (rank creq : Z) (o : client_op) (out : client_out)
| EvCall (id : nat) (dst : Z) (req : svc_req)
| EvCreate (rank gfid : Z) (laminated : bool)
| EvAdd (rank gfid : Z) (extents : list extent_metadata)
| EvTruncate (rank gfid size : Z)
| EvUnlink (rank gfid : Z)
| EvLaminate (rank gfid : Z)
| EvRespond (rank creq ret : Z).

Definition trace : Type := list event.

(** An event of an operation that returned success. *)
Definition on_success (rc : Z) (ev : event) : trace := if rc =? UNIFYFS_SUCCESS then [ev] else [].

(** A file that is created with these attributes is laminated: the attributes
    say so, or do not say that it is not. *)
Definition creates_laminated (attr : unifyfs_file_attr_t) : bool :=
  c_true (fa_is_laminated attr) || (fa_gfid attr =? INVALID_GFID).

Definition op_events {B} (r : Z) (o : op B) : B -> trace :=
  match o in op B return B -> trace with
  | OMetaset gfid attr_op attr => fun rc =>
      if attr_op =? ATTR_OP_CREATE then on_success rc (EvCreate r gfid (creates_laminated attr))
      else if attr_op =? ATTR_OP_LAMINATE then on_success rc (EvLaminate r gfid)
      else []
  | OCreate gfid attr => fun rc => on_success rc (EvCreate r gfid (creates_laminated attr))
  | OAddExtents gfid es => fun rc => on_success rc (EvAdd r gfid es)
  | OTruncate gfid size => fun rc => on_success rc (EvTruncate r gfid size)
  | OLaminate gfid => fun rc => on_success rc (EvLaminate r gfid)
  | OUnlink gfid => fun rc => on_success rc (EvUnlink r gfid)
  | ORespond creq ret => fun _ => [EvRespond r creq ret]
  | _ => fun _ => []
  end.

(** ** What a trace says about a file

    The bytes of the file [gfid] as the server [r] has them: where each byte
    is, for a file that exists. *)
Definition contents_step (r gfid : Z) (f : option (Z -> option extent_loc)) (ev : event) : option (Z -> option extent_loc) :=
  match ev with
  | EvCreate r' g _ => if (r' =? r) && (g =? gfid) then Some (fun _ => None) else f
  | EvAdd r' g es => if (r' =? r) && (g =? gfid) then (fun f b => wi_last es b (f b)) <$> f else f
  | EvTruncate r' g size =>
      if (r' =? r) && (g =? gfid) then (fun f b => if b <? size then f b else None) <$> f else f
  | EvUnlink r' g => if (r' =? r) && (g =? gfid) then None else f
  | _ => f
  end.

Definition contents (r gfid : Z) (T : trace) : option (Z -> option extent_loc) :=
  fold_left (contents_step r gfid) T None.

(** The number of extents added to the file so far. *)
Definition extents_added (r gfid : Z) (T : trace) : nat :=
  sum_list_with (fun ev => match ev with EvAdd r' g es => if (r' =? r) && (g =? gfid) then length es else 0%nat | _ => 0%nat end) T.

(** ** Threads *)

Inductive thread (A : Type) :=
| Running (p : prog A)
| Waiting (id : nat) (k : call_res -> prog A).

Arguments Running {A}.
Arguments Waiting {A}.

(** The service manager: the requests taken from the queue, and the one it
    works on. *)
Record sm_thread := SmThread {
  sm_batch : list server_rpc_req_t;
  sm_current : option (server_rpc_req_t * thread (option rpc_out));
}.

Record client_thread := ClientThread {
  ct_rank : Z;
  ct_creq : Z;
  ct_op : client_op;
  ct_thread : thread client_out;
}.

Definition ct_set (t : thread client_out) (ct : client_thread) : client_thread :=
  ClientThread (ct_rank ct) (ct_creq ct) (ct_op ct) t.

(** ** The state *)

Record message := Msg {
  msg_dst : Z;
  msg_body : svc_req;
  msg_id : option nat;        (* the call that waits for the reply *)
}.

Record net := Net {
  n_node : Z -> node;
  n_msgs : list message;
  n_replies : list (nat * rpc_out);
  n_next : nat;               (* the next call *)
  n_trace : trace;
}.

Record cluster := Cluster {
  c_net : net;
  c_sm : Z -> sm_thread;
  c_clients : list client_thread;
}.

Definition net_do (r : Z) (nd : node) (evs : trace) (w : net) : net :=
  Net (<[r := nd]> (n_node w)) (n_msgs w) (n_replies w) (n_next w) (n_trace w ++ evs).
Definition net_msgs (ms : list message) (w : net) : net :=
  Net (n_node w) ms (n_replies w) (n_next w) (n_trace w).
Definition net_replies (rs : list (nat * rpc_out)) (w : net) : net :=
  Net (n_node w) (n_msgs w) rs (n_next w) (n_trace w).
Definition net_call (dst : Z) (req : svc_req) (w : net) : net :=
  Net (n_node w) (n_msgs w ++ [Msg dst req (Some (n_next w))]) (n_replies w) (S (n_next w))
    (n_trace w ++ [EvCall (n_next w) dst req]).
Definition net_event (ev : event) (w : net) : net :=
  Net (n_node w) (n_msgs w) (n_replies w) (n_next w) (n_trace w ++ [ev]).

Definition nd_set_mem (m : mem) (nd : node) : node := nd_set_sv (set_mem m (nd_sv nd)) nd.

(** The number of the call a received message belongs to. *)
Definition msg_handle (m : message) : nat := default 0%nat (msg_id m).

(** The reply to a call, if the call waits for one. *)
Definition reply_to (id : option nat) (out : option rpc_out) : list (nat * rpc_out) :=
  match id, out with Some id, Some out => [(id, out)] | _, _ => [] end.

(** The identifiers of the requests of clients so far. *)
Definition started (T : trace) : list Z :=
  omap (fun ev => match ev with EvStart _ creq _ _ _ => Some creq | _ => None end) T.

(** ** Requests that clients make *)

Definition index_ok (ix : unifyfs_index) : Prop :=
  0 <= ix_file_pos ix /\ 0 < ix_length ix /\ ix_file_pos ix + ix_length ix <= ULONG_MAX.

Definition read_ok (e : unifyfs_extent_t) : Prop :=
  0 <= ue_offset e /\ 0 < ue_length e <= ULONG_MAX /\ ue_offset e + ue_length e - 1 <= ULONG_MAX.

Definition client_op_ok (o : client_op) : Prop :=
  match o with
  | CSync _ index => Forall index_ok index
  | CRead extents => Forall read_ok extents
  | _ => True
  end.

Section Steps.
Context (size : Z) (local_extents : bool) (qsort : list chunk_read_req -> list chunk_read_req).

(** [lossy]: calls can fail and time out. *)
Inductive thread_step {A} (lossy : bool) (r : Z) : net -> thread A -> net -> thread A -> Prop :=
| ts_do {B} inp (o : op B) k w nd x :
    exec_op qsort inp (n_node w r) o = LRet (nd, x) ->
    thread_step lossy r w (Running (Do o k)) (net_do r nd (op_events r o x) w) (Running (k x))
| ts_call dst req k w :
    thread_step lossy r w (Running (Forward dst req k)) (net_call dst req w) (Waiting (n_next w) k)
| ts_call_fails dst req k w :
    lossy = true -> thread_step lossy r w (Running (Forward dst req k)) w (Running (k CallFailed))
| ts_reply id out k w rs1 rs2 :
    n_replies w = rs1 ++ (id, out) :: rs2 ->
    thread_step lossy r w (Waiting id k) (net_replies (rs1 ++ rs2) w) (Running (k (CallOk out)))
| ts_timeout id k w :
    lossy = true -> thread_step lossy r w (Waiting id k) w (Running (k CallFailed))
| ts_broadcast req k w fwd progress m sent ret :
    start_broadcast (sv_mem (nd_sv (n_node w r))) r size fwd progress = (m, sent, ret) ->
    thread_step lossy r w (Running (Broadcast req k))
      (net_msgs (n_msgs w ++ ((fun d => Msg d req None) <$> sent)) (net_do r (nd_set_mem m (n_node w r)) [] w))
      (Running (k ret)).

Inductive cluster_step (lossy : bool) : cluster -> cluster -> Prop :=
| cs_request r creq app_id client_id o w sm cts :
    0 <= r < size -> creq ∉ started (n_trace w) -> client_op_ok o ->
    cluster_step lossy (Cluster w sm cts)
      (Cluster (net_event (EvStart r creq app_id client_id o) w) sm
        (cts ++ [ClientThread r creq o (Running (process_client_request size local_extents r app_id client_id creq o))]))
| cs_client_step w sm cts1 ct cts2 w' t' :
    thread_step lossy (ct_rank ct) w (ct_thread ct) w' t' ->
    cluster_step lossy (Cluster w sm (cts1 ++ ct :: cts2)) (Cluster w' sm (cts1 ++ ct_set t' ct :: cts2))
| cs_client_done w sm cts1 ct cts2 out :
    ct_thread ct = Running (Ret out) ->
    cluster_step lossy (Cluster w sm (cts1 ++ ct :: cts2))
      (Cluster (net_event (EvDone (ct_rank ct) (ct_creq ct) (ct_op ct) out) w) sm (cts1 ++ cts2))
| cs_sm_take r nd reqs w sm cts :
    0 <= r < size -> sm r = SmThread [] None -> take_service_requests (n_node w r) = LRet (nd, reqs) ->
    cluster_step lossy (Cluster w sm cts) (Cluster (net_do r nd [] w) (<[r := SmThread reqs None]> sm) cts)
| cs_sm_start r req reqs w sm cts :
    0 <= r < size -> sm r = SmThread (req :: reqs) None ->
    cluster_step lossy (Cluster w sm cts)
      (Cluster w (<[r := SmThread reqs (Some (req, Running (process_service_request size r (req_body req))))]> sm) cts)
| cs_sm_step r reqs req t w sm cts w' t' :
    0 <= r < size -> sm r = SmThread reqs (Some (req, t)) -> thread_step lossy r w t w' t' ->
    cluster_step lossy (Cluster w sm cts) (Cluster w' (<[r := SmThread reqs (Some (req, t'))]> sm) cts)
| cs_sm_done r reqs req out w sm cts :
    0 <= r < size -> sm r = SmThread reqs (Some (req, Running (Ret out))) ->
    cluster_step lossy (Cluster w sm cts)
      (Cluster (net_replies (n_replies w ++ reply_to (req_handle req) out) w) (<[r := SmThread reqs None]> sm) cts)
| cs_deliver env ms1 msg ms2 nd sent out w sm cts :
    n_msgs w = ms1 ++ msg :: ms2 -> 0 <= msg_dst msg < size ->
    receive env (n_node w (msg_dst msg)) (msg_body msg) (msg_handle msg) = LRet (nd, sent, out) ->
    cluster_step lossy (Cluster w sm cts)
      (Cluster
        (net_replies (n_replies w ++ reply_to (msg_id msg) out)
          (net_msgs (ms1 ++ ms2 ++ ((fun d => Msg d (msg_body msg) None) <$> sent)) (net_do (msg_dst msg) nd [] w)))
        sm cts)
| cs_lose_message ms1 msg ms2 w sm cts :
    lossy = true -> n_msgs w = ms1 ++ msg :: ms2 ->
    cluster_step lossy (Cluster w sm cts) (Cluster (net_msgs (ms1 ++ ms2) w) sm cts)
| cs_lose_reply rs1 x rs2 w sm cts :
    lossy = true -> n_replies w = rs1 ++ x :: rs2 ->
    cluster_step lossy (Cluster w sm cts) (Cluster (net_replies (rs1 ++ rs2) w) sm cts)
| cs_apps r apps w sm cts :
    cluster_step lossy (Cluster w sm cts)
      (Cluster (net_do r (nd_set_sv (set_apps apps (nd_sv (n_node w r))) (n_node w r)) [] w) sm cts).

(** Servers that have started, with memory [m r]. *)
Definition node_init (m : mem) (r : Z) (apps : app_table) : node :=
  let '(m, svc_reqs) := arraylist_create m 0 in
  let '(m, metagets) := arraylist_create m 256 in
  Node (server_init m r size apps) svc_reqs metagets.

Definition cluster_init (m : Z -> mem) (apps : Z -> app_table) : cluster :=
  Cluster (Net (fun r => node_init (m r) r (apps r)) [] [] 0 []) (fun _ => SmThread [] None) [].

(** The states that can be reached from servers with enough memory. *)
Definition cluster_reach (c : cluster) : Prop :=
  exists m apps, (forall r, mem_plenty (m r)) /\ rtc (cluster_step true) (cluster_init m apps) c.
End Steps.
