(* ===== verification/ClusterInv.v ===== *)
(** * The invariant of the servers

    Every operation of a server keeps the representation of its files equal to
    what the trace says about them, and every program of a thread keeps its
    part of the protocol.  A thread is judged by [wp]: what it may rely on
    only grows with the trace, so it is not disturbed by the other threads. *)

From stdpp Require Import functions.
From S2P Require Import Prelude.
From S2P Require Import RbTree.
From S2P Require Import Extents.
From S2P Require Import RangeTree.
From S2P Require Import ExtentTree.
From S2P Require Import WriteIndex.
From S2P Require Import LogIO.
From S2P Require Import ArrayList.
From S2P Require Import KTree.
From S2P Require Import Meta.
From S2P Require Import AppTable.
From S2P Require Import InodeTree.
From S2P Require Import Inode.
From S2P Require Import InodeProps.
From S2P Require Import Rpc.
From S2P Require Import ServiceMgr.
From S2P Require Import RpcHandlers.
From S2P Require Import RequestMgr.
From S2P Require Import Cluster.

(** ** Memory *)

Lemma file_attr_update_le now m op dst src : mem_le m (unifyfs_file_attr_update now m op dst src).1.1.
Proof.
  unfold unifyfs_file_attr_update. destruct (_ || _); [reflexivity|].
  destruct (fa_filename src) as [s|]; [destruct (fa_filename dst)|]; try reflexivity.
  unfold strdup. calloc_step. simpl. mem_chain.
Qed.

Lemma inode_alloc_le now m gfid attr : mem_le m (unifyfs_inode_alloc now m gfid attr).1.
Proof.
  unfold unifyfs_inode_alloc. calloc_step. destruct p; [|mem_chain]. calloc_step. destruct p; [|mem_chain].
  pose proof (file_attr_update_le now m1 ATTR_OP_CREATE unifyfs_file_attr_set_invalid attr) as Hu.
  destruct (unifyfs_file_attr_update _ _ _ _ _) as [[m3 a] rc]. mem_chain.
Qed.

Lemma unlink_callbacks_le ids : forall sv app gfid last, mem_le (sv_mem sv) (sv_mem (unlink_callbacks sv app gfid last ids)).
Proof.
  induction ids as [|id ids IH]; intros sv app gfid last; simpl; [reflexivity|]. destruct (id =? last); [apply IH|].
  calloc_step. etrans; [exact Hm|]. etrans; [|apply IH]. destruct p; [|reflexivity].
  unfold rm_submit_client_callback_request. simpl. by destruct (get_app_client _ _ _).
Qed.

Lemma inode_destroy_le sv ino sv' rc : unifyfs_inode_destroy sv ino = LRet (sv', rc) -> mem_le (sv_mem sv) (sv_mem sv').
Proof.
  unfold unifyfs_inode_destroy. destruct (ino_extents ino) as [tree|]; [|by intros [= <- <-]].
  calloc_step. destruct (extent_tree_walk _ _ _) as [nodes|]; [|done]. simpl.
  destruct (destroy_extents _ _ _ _ _) as [st| |]; [|done..]. simpl.
  destruct (extent_tree_destroy tree); [|done]. simpl. intros [= <- <-]. etrans; [exact Hm|].
  destruct p; [|reflexivity]. exact (unlink_callbacks_le _ (set_apps _ (set_mem m sv)) _ _ _).
Qed.

Lemma inode_create_le now sv gfid attr sv' rc :
  unifyfs_inode_create now sv gfid attr = LRet (sv', rc) -> mem_le (sv_mem sv) (sv_mem sv').
Proof.
  unfold unifyfs_inode_create. pose proof (inode_alloc_le now (sv_mem sv) gfid attr) as Ha.
  destruct (unifyfs_inode_alloc _ _ _ _) as [m [ino|]]; [|by intros [= <- <-]].
  destruct (unifyfs_inode_tree_insert _ _) as [t ret]. destruct (negb _); [|by intros [= <- <-]].
  destruct (unifyfs_inode_destroy _ _) as [[sv2 rc2]| |] eqn:Hd; [|done..]. intros [= <- <-].
  apply inode_destroy_le in Hd. mem_chain.
Qed.

Lemma inode_unlink_le sv gfid sv' rc : unifyfs_inode_unlink sv gfid = LRet (sv', rc) -> mem_le (sv_mem sv) (sv_mem sv').
Proof.
  unfold unifyfs_inode_unlink. destruct (unifyfs_inode_tree_remove _ _) as [[t ret] [ino|]]; [|by intros [= <- <-]].
  destruct (_ =? _); [|by intros [= <- <-]]. intros Hd. by apply inode_destroy_le in Hd.
Qed.

Lemma extent_tree_find_le m tree lo hi : mem_le m (extent_tree_find m tree lo hi).1.
Proof.
  unfold extent_tree_find, extent_tree_node_alloc. calloc_step. destruct p as [a|]; [|mem_chain].
  by destruct (RB_NFIND _ _) as [x|]; [destruct (_ <=? _)|].
Qed.

Lemma get_chunk_list_le m tree off len m' cl :
  extent_tree_get_chunk_list m tree off len = Some (m', cl) -> mem_le m m'.
Proof.
  unfold extent_tree_get_chunk_list. pose proof (extent_tree_find_le m tree off (off + len ⊟ 1)) as Hf.
  destruct (extent_tree_find _ _ _ _) as [m1 first]. destruct (extent_tree_count_chunks _ _ _ _ _ _ _ _ _) as [[[c g] l]|]; [|done].
  destruct (c =? 0); [by intros [= <- <-]|]. calloc_step. destruct p; [|intros [= <- <-]; mem_chain].
  destruct (extent_tree_fill_chunks _ _ _ _ _ _); [|done]. intros [= <- <-]. mem_chain.
Qed.

(** [sv'] is [sv] after some allocations. *)
Definition only_allocates (sv sv' : server) : Prop := exists m, sv' = set_mem m sv /\ mem_le (sv_mem sv) m.

Lemma only_allocates_refl sv : only_allocates sv sv.
Proof. exists (sv_mem sv). by rewrite set_mem_id. Qed.

Lemma only_allocates_trans sv1 sv2 sv3 : only_allocates sv1 sv2 -> only_allocates sv2 sv3 -> only_allocates sv1 sv3.
Proof. intros (m1 & -> & H1) (m2 & -> & H2). exists m2. split; [done|]. by etrans. Qed.

Lemma get_extent_chunks_allocates sv e sv' ret n cs cov :
  unifyfs_inode_get_extent_chunks sv e = LRet (sv', ret, n, cs, cov) ->
  only_allocates sv sv' /\ (ret = UNIFYFS_SUCCESS -> is_Some (unifyfs_inode_lookup sv (ue_gfid e))).
Proof.
  unfold unifyfs_inode_get_extent_chunks. destruct (unifyfs_inode_lookup sv (ue_gfid e)) as [ino|].
  2:{ intros [= <- <- _ _ _]. split; [apply only_allocates_refl|done]. }
  destruct (ino_extents ino) as [tree|]; [|intros [= <- <- _ _ _]; split; [apply only_allocates_refl|done]].
  destruct (extent_tree_get_chunk_list _ _ _ _) as [[m cl]|] eqn:Hc; [|done]. simpl. apply get_chunk_list_le in Hc.
  destruct (_ =? _); intros [= <- <- _ _ _]; (split; [by exists m|done]).
Qed.

Lemma resolve_loop_allocates es : forall sv n cov sv' ret tot css c,
  resolve_loop sv es n cov = LRet (sv', ret, (tot, css, c)) ->
  only_allocates sv sv' /\ (ret = UNIFYFS_SUCCESS -> Forall (fun e => is_Some (unifyfs_inode_lookup sv (ue_gfid e))) es).
Proof.
  induction es as [|e es IH]; intros sv n cov sv' ret tot css c; simpl.
  - intros [= <- <- _ _ _]. split; [apply only_allocates_refl|constructor].
  - destruct (unifyfs_inode_get_extent_chunks sv e) as [[[[[sv1 r1] n1] cs1] c1]| |] eqn:Hg; [|done..]. simpl.
    apply get_extent_chunks_allocates in Hg as [H1 Hs1]. destruct (r1 =? UNIFYFS_SUCCESS) eqn:Hr; simpl; zbool.
    2:{ intros [= <- <- _ _ _]. by split. }
    destruct (resolve_loop sv1 es _ _) as [[[sv2 r2] [[t2 css2] c2]]| |] eqn:Hl; [|done..]. simpl.
    apply IH in Hl as [H2 Hs2]. intros [= <- <- _ _ _]. split; [by eapply only_allocates_trans|].
    intros Hret. destruct H1 as (m & -> & _). constructor; [auto|]. by apply Hs2.
Qed.

Lemma resolve_allocates qsort sv es sv' ret n chunks cov :
  unifyfs_inode_resolve_extent_chunks qsort sv es = LRet (sv', ret, n, chunks, cov) ->
  only_allocates sv sv' /\ (ret = UNIFYFS_SUCCESS -> Forall (fun e => is_Some (unifyfs_inode_lookup sv (ue_gfid e))) es).
Proof.
  unfold unifyfs_inode_resolve_extent_chunks. calloc_step. destruct p as [b|].
  2:{ intros [= <- <- _ _ _]. split; [by exists m|done]. }
  destruct (resolve_loop _ es 0 true) as [[[sv2 r2] [[t2 css2] c2]]| |] eqn:Hl; [|done..]. simpl.
  apply resolve_loop_allocates in Hl as [Hal Hs].
  assert (only_allocates sv sv2) as Hal2 by (eapply only_allocates_trans; [by exists m|done]).
  destruct (r2 =? UNIFYFS_SUCCESS) eqn:Hr; simpl; zbool; [|intros [= <- <- _ _ _]; by split].
  destruct (_ >? 0); [|intros [= <- <- _ _ _]; split; [done|auto]].
  calloc_step. assert (only_allocates sv (set_mem m0 sv2)) as Hal3 by (eapply only_allocates_trans; [done|by exists m0]).
  destruct p; intros [= <- <- _ _ _]; (split; [done|]); [|done]. auto.
Qed.

Lemma al_items_elems {A} (l : arraylist_t A) x : x ∈ al_items l -> x ∈ al_elems l.
Proof. unfold al_items. intros [i Hi]%list_elem_of_lookup. apply lookup_take_Some in Hi as [Hi _]. by eapply list_elem_of_lookup_2. Qed.

(** ** What the trace says *)

Lemma contents_app r g T ev : contents r g (T ++ [ev]) = contents_step r g (contents r g T) ev.
Proof. unfold contents. by rewrite fold_left_app. Qed.

Lemma extents_added_app r g T T' : extents_added r g (T ++ T') = (extents_added r g T + extents_added r g T')%nat.
Proof. apply sum_list_with_app. Qed.

(** The events that change files of the server [r]. *)
Definition file_event (r g : Z) (ev : event) : bool :=
  match ev with
  | EvCreate r' g' _ | EvAdd r' g' _ | EvTruncate r' g' _ | EvUnlink r' g' => (r' =? r) && (g' =? g)
  | _ => false
  end.

Lemma contents_other r g T evs :
  Forall (fun ev => file_event r g ev = false) evs -> contents r g (T ++ evs) = contents r g T.
Proof.
  intros H. revert T. induction H as [|ev evs Hev _ IH]; intros T; [by rewrite app_nil_r|].
  rewrite -(app_nil_l evs) app_comm_cons app_assoc IH contents_app. destruct ev; simpl in *; try done; by rewrite Hev.
Qed.

(** The file was laminated on the server [r], or created so. *)
Definition lam_event (r g : Z) (T : trace) : Prop := EvLaminate r g ∈ T \/ EvCreate r g true ∈ T.

(** The server has the file as the trace says. *)
Definition file_rep (T : trace) (r g : Z) (o : option unifyfs_inode) : Prop :=
  match o with
  | None => contents r g T = None
  | Some ino => exists tree f, ino_extents ino = Some tree /\ contents r g T = Some f /\ (forall b, rt_lookup tree b = f b) /\
      (length (rt_nodes tree) <= 2 * extents_added r g T)%nat
  end.

(** A pending item comes from a request of a client. *)
Definition pend_ok (r g : Z) (T : trace) (it : pending_extents_item) : Prop :=
  exists app cid index, EvStart r (pe_client_req it) app cid (CSync g index) ∈ T /\ index <> [] /\
    Forall index_ok index /\ pe_extents it = extent_of_index r app cid <$> index /\
    pe_num_extents it = Z.of_nat (length (pe_extents it)).

Definition list_pend_ok (r g : Z) (T : trace) (l : option (arraylist_t pending_extents_item)) : Prop :=
  forall l' it, l = Some l' -> Some it ∈ al_elems l' -> pend_ok r g T it.

Definition req_ok (req : svc_req) : Prop :=
  match req with
  | RPC_EXTENTS_ADD _ es | BCAST_RPC_EXTENTS _ _ es | BCAST_RPC_LAMINATE _ _ _ es => Forall em_valid es
  | RPC_EXTENTS_FIND _ es => Forall read_ok es
  | RPC_TRUNCATE _ s | BCAST_RPC_TRUNCATE _ _ s => is_u64 s
  | _ => True
  end.

(** A request in a queue: it is the body of the call it responds to. *)
Definition queued_ok (r : Z) (T : trace) (req : server_rpc_req_t) : Prop :=
  req_ok (req_body req) /\ forall id, req_handle req = Some id -> EvCall id r (req_body req) ∈ T.

Record node_ok (r : Z) (nd : node) (T : trace) : Prop := {
  no_wf : sv_wf (nd_sv nd);
  no_mem : mem_plenty (sv_mem (nd_sv nd));
  no_files g : file_rep T r g (sv_map (nd_sv nd) !! g);
  no_lam g ino : sv_map (nd_sv nd) !! g = Some ino -> is_laminated ino = true -> lam_event r g T;
  no_pending g ino : sv_map (nd_sv nd) !! g = Some ino -> list_pend_ok r g T (ino_pending_extents ino);
  no_queue l req : nd_svc_reqs nd = Some l -> Some req ∈ al_elems l -> queued_ok r T req;
}.

Lemma prefix_elem {T T' : trace} {ev} : T `prefix_of` T' -> ev ∈ T -> ev ∈ T'.
Proof. intros [k ->]. set_solver. Qed.

Lemma pend_ok_mono r g T T' it : T `prefix_of` T' -> pend_ok r g T it -> pend_ok r g T' it.
Proof. intros Hp (app & cid & ix & ? & H). exists app, cid, ix. split; [by eapply prefix_elem|done]. Qed.

Lemma list_pend_ok_mono r g T T' l : T `prefix_of` T' -> list_pend_ok r g T l -> list_pend_ok r g T' l.
Proof. intros Hp H l' it Hl Hit. eapply pend_ok_mono; [done|by eapply H]. Qed.

Lemma lam_event_mono r g T T' : T `prefix_of` T' -> lam_event r g T -> lam_event r g T'.
Proof. intros Hp [H|H]; [left|right]; by eapply prefix_elem. Qed.

Lemma queued_ok_mono r T T' req : T `prefix_of` T' -> queued_ok r T req -> queued_ok r T' req.
Proof. intros Hp [H1 H2]. split; [done|]. intros id Hid. eapply prefix_elem; [done|auto]. Qed.

Lemma file_rep_same T evs r g o : contents r g (T ++ evs) = contents r g T -> file_rep T r g o -> file_rep (T ++ evs) r g o.
Proof.
  intros He. unfold file_rep. destruct o; [|congruence]. intros (tree & f & H1 & H2 & H3 & H4). exists tree, f.
  rewrite He extents_added_app. split_and!; try done. lia.
Qed.

(** Events that do not concern the files of [r]. *)
Lemma node_ok_mono r nd T evs :
  (forall g, Forall (fun ev => file_event r g ev = false) evs) -> node_ok r nd T -> node_ok r nd (T ++ evs).
Proof.
  intros He [Hw Hm Hf Hl Hp Hq]. assert (T `prefix_of` T ++ evs) as Hpre by by exists evs.
  split; try done.
  - intros g. eapply file_rep_same; [by apply contents_other|done].
  - intros g ino H1 H2. eapply lam_event_mono; [done|by eapply Hl].
  - intros g ino H1. eapply list_pend_ok_mono; [done|by eapply Hp].
  - intros l req H1 H2. eapply queued_ok_mono; [done|by eapply Hq].
Qed.

(** A change of the file [g] with its events. *)
Lemma node_ok_update r nd T sv' g o' evs :
  node_ok r nd T -> sv_wf sv' -> mem_le (sv_mem (nd_sv nd)) (sv_mem sv') ->
  sv_map sv' = partial_alter (fun _ => o') g (sv_map (nd_sv nd)) ->
  (forall g', g' <> g -> Forall (fun ev => file_event r g' ev = false) evs) ->
  file_rep (T ++ evs) r g o' ->
  (forall ino, o' = Some ino -> is_laminated ino = true -> lam_event r g (T ++ evs)) ->
  (forall ino, o' = Some ino -> list_pend_ok r g (T ++ evs) (ino_pending_extents ino)) ->
  node_ok r (nd_set_sv sv' nd) (T ++ evs).
Proof.
  intros [Hw Hm Hf Hl Hp Hq] Hwf [_ Hle] Hmap He Hrep Hlam Hpend.
  assert (T `prefix_of` T ++ evs) as Hpre by by exists evs.
  split; simpl; [done|auto| | | |].
  - intros g'. rewrite Hmap. destruct (decide (g' = g)) as [->|Hne]; [by rewrite lookup_partial_alter_eq|].
    rewrite lookup_partial_alter_ne; [congruence|]. eapply file_rep_same; [apply contents_other; by apply He|done].
  - intros g' ino. rewrite Hmap. destruct (decide (g' = g)) as [->|Hne]; [rewrite lookup_partial_alter_eq; apply Hlam|].
    rewrite lookup_partial_alter_ne; [congruence|]. intros H1 H2. eapply lam_event_mono; [done|by eapply Hl].
  - intros g' ino. rewrite Hmap. destruct (decide (g' = g)) as [->|Hne]; [rewrite lookup_partial_alter_eq; apply Hpend|].
    rewrite lookup_partial_alter_ne; [congruence|]. intros H1. eapply list_pend_ok_mono; [done|by eapply Hp].
  - intros l req H1 H2. eapply queued_ok_mono; [done|by eapply Hq].
Qed.

(** A change of the allocator only. *)
Lemma node_ok_sv r nd T sv' :
  node_ok r nd T -> sv_wf sv' -> mem_le (sv_mem (nd_sv nd)) (sv_mem sv') -> sv_map sv' = sv_map (nd_sv nd) ->
  node_ok r (nd_set_sv sv' nd) T.
Proof. intros [Hw Hm Hf Hl Hp Hq] Hwf [_ Hle] Hmap. split; simpl; rewrite ?Hmap; auto. Qed.

Lemma node_ok_allocates r nd T sv' : node_ok r nd T -> only_allocates (nd_sv nd) sv' -> node_ok r (nd_set_sv sv' nd) T.
Proof.
  intros Hok (m & -> & Hm). apply node_ok_sv; [done| |done|done]. apply sv_wf_alloc; [apply Hm|apply Hok].
Qed.

(** ** The operations *)

Section Ops.
Context (size : Z) (qsort : list chunk_read_req -> list chunk_read_req).

(** The extents of the request [creq] have been added at the owner of the
    file, after the request was made. *)
Definition synced (r creq : Z) (T : trace) : Prop :=
  forall app cid g index, EvStart r creq app cid (CSync g index) ∈ T -> index <> [] ->
  exists A B l l', T = A ++ EvAdd (owner_rank size g) g (l ++ (extent_of_index r app cid <$> index) ++ l') :: B /\
    EvStart r creq app cid (CSync g index) ∈ A.

(** The chunks are the answer of a server that has the files as the trace says
    the server [r] has. *)
Definition chunks_of (r : Z) (es : list unifyfs_extent_t) (chunks : list chunk_read_req) (T : trace) : Prop :=
  exists sv sv' n cov, sv_wf sv /\ mem_plenty (sv_mem sv) /\ (forall g, file_rep T r g (sv_map sv !! g)) /\
    unifyfs_inode_resolve_extent_chunks qsort sv es = LRet (sv', UNIFYFS_SUCCESS, n, chunks, cov).

(** What a program has to know to use an operation. *)
Definition op_pre {B} (r : Z) (o : op B) (T : trace) : Prop :=
  match o with
  | OAddExtents _ es => Forall em_valid es
  | OTruncate _ sz => is_u64 sz
  | OAddPending g creq es => pend_ok r g T (PendingItem creq (Z.of_nat (length es)) es)
  | OSubmit req => req_ok req
  | ORespond creq ret => ret = UNIFYFS_SUCCESS -> synced r creq T
  | _ => True
  end.

(** What a program learns from its result. *)
Definition op_fact {B} (r : Z) (o : op B) (T : trace) : B -> Prop :=
  match o in op B return B -> Prop with
  | OMetaget g => fun x => forall a, x.1 = Some a -> x.2 = UNIFYFS_SUCCESS /\ (c_true (fa_is_laminated a) = true -> lam_event r g T)
  | OResolve es => fun '(ret, n, chunks, _) =>
      (ret = UNIFYFS_SUCCESS -> chunks_of r es chunks T) /\ ((n >? 0) = false -> chunks = [])
  | OGetExtents g => fun x => Forall em_valid x.2
  | OGetPending g => fun x => list_pend_ok r g T x.1
  | _ => fun _ => True
  end.

Lemma created_laminated now m g attr m' ino :
  unifyfs_inode_alloc now m g attr = (m', Some ino) -> is_laminated ino = true -> creates_laminated attr = true.
Proof.
  unfold unifyfs_inode_alloc. destruct (calloc m) as [[a|] m1]; [|done]. destruct (calloc m1) as [[b|] m2]; [|done].
  unfold unifyfs_file_attr_update. destruct (_ || (fa_gfid attr =? INVALID_GFID)) eqn:Hg.
  - intros [= <- <-] _. unfold creates_laminated. simpl in Hg. by rewrite Hg orb_true_r.
  - destruct (match fa_filename attr with Some s => _ | None => _ end) as [m3 f]. intros [= <- <-].
    unfold is_laminated, creates_laminated, c_true, set_field. simpl.
    destruct (fa_is_laminated attr =? -1) eqn:Hl; simpl; [|intros Hn; apply orb_true_iff; by left]. zbool. by rewrite Hl.
Qed.

Lemma file_event_ne r g g' (evs : trace) :
  g' <> g -> (forall ev, ev ∈ evs -> forall g'', g'' <> g -> file_event r g'' ev = false) ->
  Forall (fun ev => file_event r g' ev = false) evs.
Proof. intros Hne H. apply Forall_forall. intros ev Hev. by apply H. Qed.

Lemma on_success_other r g rc ev :
  (forall g', g' <> g -> file_event r g' ev = false) ->
  forall g', g' <> g -> Forall (fun ev => file_event r g' ev = false) (on_success rc ev).
Proof. intros H g' Hne. unfold on_success. destruct (_ =? _); repeat constructor. by apply H. Qed.

Lemma event_eqb r g g' : g' <> g -> (r =? r) && (g =? g') = false.
Proof. intros Hne. rewrite Z.eqb_refl. simpl. apply Z.eqb_neq. congruence. Qed.

Lemma on_success_zero ev : on_success UNIFYFS_SUCCESS ev = [ev].
Proof. done. Qed.

Lemma on_success_ne rc ev : rc <> UNIFYFS_SUCCESS -> on_success rc ev = [].
Proof. intros H. unfold on_success. by rewrite (proj2 (Z.eqb_neq _ _) H). Qed.

Lemma event_own r g : (r =? r) && (g =? g) = true.
Proof. by rewrite !Z.eqb_refl. Qed.

Lemma create_ok r nd T now g attr sv' rc :
  node_ok r nd T -> unifyfs_inode_create now (nd_sv nd) g attr = LRet (sv', rc) ->
  node_ok r (nd_set_sv sv' nd) (T ++ on_success rc (EvCreate r g (creates_laminated attr))).
Proof.
  intros Hok Hop. pose proof (inode_create_le _ _ _ _ _ _ Hop) as Hle.
  destruct (inode_create_ok _ _ _ _ _ _ (no_wf _ _ _ Hok) Hop)
    as [Hwf [[Hrc Hmap]|(-> & Hn & ino & Hmap & _ & _ & He & Hp & m & Ha)]].
  - rewrite on_success_ne // app_nil_r. by apply node_ok_sv.
  - rewrite on_success_zero. eapply (node_ok_update r nd T sv' g (Some ino)); [done..| | | |].
    + intros g' Hne. repeat constructor. by apply event_eqb.
    + exists extent_tree_init, (fun _ => None). rewrite contents_app /= event_own. split_and!; [done..| |simpl; lia].
      intros b. by rewrite /rt_lookup.
    + intros ? [= <-] Hl. right. rewrite (created_laminated _ _ _ _ _ _ Ha Hl). set_solver.
    + intros ? [= <-] l it Hl. congruence.
Qed.

(** Only lamination changes whether a file is laminated. *)
Lemma update_attr_laminated now m aop dst src :
  aop <> ATTR_OP_CREATE -> aop <> ATTR_OP_LAMINATE ->
  fa_is_laminated (unifyfs_file_attr_update now m aop dst src).1.2 = fa_is_laminated dst.
Proof.
  intros H1 H2. unfold unifyfs_file_attr_update. destruct (_ || _); [done|].
  destruct (match fa_filename src with Some s => _ | None => _ end) as [m1 f]. simpl. apply set_field_other.
  unfold op_in. simpl. by rewrite (proj2 (Z.eqb_neq _ _) H1) (proj2 (Z.eqb_neq _ _) H2).
Qed.

Lemma update_attr_ok r nd T now g aop attr :
  node_ok r nd T -> aop <> ATTR_OP_CREATE ->
  let '(sv', rc) := unifyfs_inode_update_attr now (nd_sv nd) g aop attr in
  node_ok r (nd_set_sv sv' nd) (T ++ (if aop =? ATTR_OP_LAMINATE then on_success rc (EvLaminate r g) else [])).
Proof.
  intros Hok Hc. pose proof (inode_update_attr_ok now (nd_sv nd) g aop attr (no_wf _ _ _ Hok)) as H.
  assert (mem_le (sv_mem (nd_sv nd)) (sv_mem (unifyfs_inode_update_attr now (nd_sv nd) g aop attr).1)) as Hle.
  { unfold unifyfs_inode_update_attr. destruct (unifyfs_inode_lookup _ _) as [ino|]; [|reflexivity].
    pose proof (file_attr_update_le now (sv_mem (nd_sv nd)) aop (ino_attr ino) attr).
    by destruct (unifyfs_file_attr_update _ _ _ _ _) as [[m a] rc]. }
  destruct (unifyfs_inode_update_attr _ _ _ _ _) as [sv' rc]. destruct H as [Hwf H]. simpl in Hle.
  destruct (sv_map (nd_sv nd) !! g) as [ino|] eqn:Hg; [destruct H as [-> Hmap]|destruct H as [-> ->]].
  2:{ rewrite on_success_ne //. replace (if _ then [] else []) with (@nil event) by by destruct (_ =? _).
      rewrite app_nil_r. apply node_ok_sv; [done|apply Hok|done|done]. }
  eapply (node_ok_update r nd T sv' g); [done..| | | |].
  - intros g' Hne. destruct (_ =? _); repeat constructor.
  - eapply file_rep_same; [apply contents_other; destruct (_ =? _); repeat constructor|].
    pose proof (no_files _ _ _ Hok g) as Hf. rewrite Hg in Hf. exact Hf.
  - intros ? [= <-]. unfold is_laminated. cbn [ino_attr set_attr]. intros Hl. destruct (aop =? ATTR_OP_LAMINATE) eqn:Ha; zbool.
    + left. set_solver.
    + rewrite update_attr_laminated // in Hl. eapply lam_event_mono; [by eexists|]. by eapply (no_lam _ _ _ Hok).
  - intros ? [= <-]. eapply list_pend_ok_mono; [by eexists|]. exact (no_pending _ _ _ Hok g ino Hg).
Qed.

Lemma laminate_ok r nd T g :
  node_ok r nd T ->
  let '(sv', rc) := unifyfs_inode_laminate (nd_sv nd) g in
  node_ok r (nd_set_sv sv' nd) (T ++ on_success rc (EvLaminate r g)).
Proof.
  intros Hok. pose proof (inode_laminate_ok (nd_sv nd) g (no_wf _ _ _ Hok)) as H.
  assert (sv_mem (unifyfs_inode_laminate (nd_sv nd) g).1 = sv_mem (nd_sv nd)) as Hm.
  { unfold unifyfs_inode_laminate. by destruct (unifyfs_inode_lookup _ _). }
  destruct (unifyfs_inode_laminate _ _) as [sv' rc]. destruct H as [Hwf H]. simpl in Hm.
  assert (mem_le (sv_mem (nd_sv nd)) (sv_mem sv')) as Hle by by rewrite Hm.
  destruct (sv_map (nd_sv nd) !! g) as [ino|] eqn:Hg; [destruct H as [-> Hmap]|destruct H as [-> ->]].
  2:{ rewrite on_success_ne // app_nil_r. apply node_ok_sv; [done|apply Hok|done|done]. }
  rewrite on_success_zero. eapply (node_ok_update r nd T sv' g); [done..| | | |].
  - intros g' Hne. repeat constructor.
  - eapply file_rep_same; [apply contents_other; repeat constructor|].
    pose proof (no_files _ _ _ Hok g) as Hf. rewrite Hg in Hf. exact Hf.
  - intros ? [= <-] _. left. set_solver.
  - intros ? [= <-]. eapply list_pend_ok_mono; [by eexists|]. exact (no_pending _ _ _ Hok g ino Hg).
Qed.

Lemma unlink_ok r nd T g sv' rc :
  node_ok r nd T -> unifyfs_inode_unlink (nd_sv nd) g = LRet (sv', rc) ->
  node_ok r (nd_set_sv sv' nd) (T ++ on_success rc (EvUnlink r g)).
Proof.
  intros Hok Hop. pose proof (inode_unlink_le _ _ _ _ Hop) as Hle.
  destruct (inode_unlink_ok _ _ _ _ (no_wf _ _ _ Hok) Hop) as [[Hwf Hmap] Hrc].
  eapply (node_ok_update r nd T sv' g None); [done..| | |done|done].
  - apply on_success_other. intros g' Hne. by apply event_eqb.
  - simpl. pose proof (no_files _ _ _ Hok g) as Hf. destruct (sv_map (nd_sv nd) !! g); subst rc.
    + rewrite on_success_zero contents_app /= event_own. done.
    + rewrite on_success_ne // app_nil_r. done.
Qed.

Lemma truncate_ok r nd T dbg g sz sv' rc :
  node_ok r nd T -> is_u64 sz -> unifyfs_inode_truncate dbg (nd_sv nd) g sz = LRet (sv', rc) ->
  node_ok r (nd_set_sv sv' nd) (T ++ on_success rc (EvTruncate r g sz)).
Proof.
  intros Hok Hsz Hop. destruct (not_writable (nd_sv nd) g (no_wf _ _ _ Hok)) as [(ino & tree & Hw)|[_ Hs]].
  2:{ destruct (Hs dbg sz) as (rc' & Hrc & Heq). rewrite Heq in Hop. injection Hop as <- <-.
      rewrite on_success_ne // app_nil_r. apply node_ok_sv; [done|apply Hok|done|done]. }
  pose proof (inode_truncate_ok dbg _ g sz ino tree (no_wf _ _ _ Hok) Hsz Hw) as H. rewrite Hop in H.
  destruct H as (-> & Hwf & tree' & Hmap & _ & Hlen & Hlk). destruct Hw as (Hg & Hl & He).
  assert (mem_le (sv_mem (nd_sv nd)) (sv_mem sv')) as Hle.
  { unfold unifyfs_inode_truncate in Hop. rewrite lookup_map // in Hop; [apply Hok|]. rewrite Hg Hl He in Hop.
    destruct (lift_run _); [|done..]. by injection Hop as <-. }
  rewrite on_success_zero. eapply (node_ok_update r nd T sv' g); [done..| | | |].
  - intros g' Hne. repeat constructor. by apply event_eqb.
  - pose proof (no_files _ _ _ Hok g) as Hf. rewrite Hg in Hf. destruct Hf as (t & f & Ht & Hc & Hf & Hn).
    assert (t = tree) as -> by congruence. exists tree', (fun b => if b <? sz then f b else None).
    rewrite contents_app Hc extents_added_app /= event_own. split_and!; [done..| |lia]. intros b. by rewrite Hlk Hf.
  - intros ? [= <-]. unfold is_laminated in *. simpl. by rewrite Hl.
  - intros ? [= <-]. eapply list_pend_ok_mono; [by eexists|]. exact (no_pending _ _ _ Hok g ino Hg).
Qed.

Lemma add_extents_ok r nd T g es sv' rc :
  node_ok r nd T -> Forall em_valid es -> unifyfs_inode_add_extents (nd_sv nd) g es = LRet (sv', rc) ->
  node_ok r (nd_set_sv sv' nd) (T ++ on_success rc (EvAdd r g es)).
Proof.
  intros Hok Hes Hop. destruct (not_writable (nd_sv nd) g (no_wf _ _ _ Hok)) as [(ino & tree & Hw)|[Hs _]].
  2:{ destruct (Hs es) as (rc' & Hrc & Heq). rewrite Heq in Hop. injection Hop as <- <-.
      rewrite on_success_ne // app_nil_r. apply node_ok_sv; [done|apply Hok|done|done]. }
  destruct (inode_add_extents_ok _ g es ino tree (no_wf _ _ _ Hok) Hes Hw) as (sv2 & rc2 & m & tree' & Heq & Hwf & Hm & Hpost & Hmap).
  rewrite Heq in Hop. injection Hop as <- <-. destruct Hw as (Hg & Hl & He).
  destruct (aep_plenty _ _ _ _ _ _ Hpost (no_mem _ _ _ Hok)) as [-> Hpl].
  assert (mem_le (sv_mem (nd_sv nd)) (sv_mem sv2)) as Hle by (rewrite Hm; split; [apply Hpost|done]).
  set (ino' := if _ then _ else _) in Hmap.
  assert (ino_extents ino' = Some tree' /\ is_laminated ino' = false /\ ino_pending_extents ino' = ino_pending_extents ino)
    as (He' & Hl' & Hp') by (unfold ino'; by destruct (_ && _)).
  rewrite on_success_zero. eapply (node_ok_update r nd T sv2 g); [done..| | | |].
  - intros g' Hne. repeat constructor. by apply event_eqb.
  - pose proof (no_files _ _ _ Hok g) as Hf. rewrite Hg in Hf. destruct Hf as (t & f & Ht & Hc & Hf & Hn).
    assert (t = tree) as -> by congruence. exists tree', (fun b => wi_last es b (f b)).
    pose proof (aep_length _ _ _ _ _ _ Hpost) as Hlen.
    rewrite contents_app Hc extents_added_app /= event_own. split_and!; [done..| |lia].
    intros b. rewrite (aep_lookup _ _ _ _ _ _ Hpost) // Hf //.
  - intros ? [= <-]. by rewrite Hl'.
  - intros ? [= <-]. rewrite Hp'. eapply list_pend_ok_mono; [by eexists|]. exact (no_pending _ _ _ Hok g ino Hg).
Qed.

Lemma add_pending_extents_ok r nd T g creq es sv' rc :
  node_ok r nd T -> pend_ok r g T (PendingItem creq (Z.of_nat (length es)) es) ->
  unifyfs_inode_add_pending_extents (nd_sv nd) g creq (Z.of_nat (length es)) es = LRet (sv', rc) ->
  node_ok r (nd_set_sv sv' nd) T.
Proof.
  intros Hok Hp Hop. destruct (add_pending_ok _ _ _ _ _ _ _ (no_wf _ _ _ Hok) Hop) as (Hwf & Hle & [Hmap|(ino & l & Hg & Hl & Hmap & Hel)]).
  { by apply node_ok_sv. }
  rewrite -(app_nil_r T). eapply (node_ok_update r nd T sv' g); [done..|by constructor| | |]; rewrite ?app_nil_r.
  - pose proof (no_files _ _ _ Hok g) as Hf. rewrite Hg in Hf. exact Hf.
  - intros ? [= <-] Hl'. unfold is_laminated in *. simpl in *. congruence.
  - intros ? [= <-] l' it [= <-] Hit. destruct (Hel it Hit) as [->|(l0 & Hl0 & Hit0)]; [done|].
    exact (no_pending _ _ _ Hok g ino Hg l0 it Hl0 Hit0).
Qed.

Lemma get_pending_extents_ok r nd T g sv' l rc :
  node_ok r nd T -> unifyfs_inode_get_pending_extents (nd_sv nd) g = (sv', l, rc) ->
  node_ok r (nd_set_sv sv' nd) T /\ list_pend_ok r g T l.
Proof.
  intros Hok Hop. pose proof (get_pending_ok (nd_sv nd) g (no_wf _ _ _ Hok)) as H. rewrite Hop in H. destruct H as [Hwf H].
  assert (sv_mem sv' = sv_mem (nd_sv nd)) as Hm.
  { unfold unifyfs_inode_get_pending_extents in Hop. destruct (unifyfs_inode_lookup _ _) as [ino|]; [|by injection Hop as <- _ _].
    destruct (ino_pending_extents ino); by injection Hop as <- _ _. }
  assert (mem_le (sv_mem (nd_sv nd)) (sv_mem sv')) as Hle by by rewrite Hm.
  destruct (sv_map (nd_sv nd) !! g) as [ino|] eqn:Hg; destruct H as (_ & -> & Hmap).
  - split; [|exact (no_pending _ _ _ Hok g ino Hg)].
    rewrite -(app_nil_r T). eapply (node_ok_update r nd T sv' g); [done..|by constructor| | |]; rewrite ?app_nil_r.
    + pose proof (no_files _ _ _ Hok g) as Hf. rewrite Hg in Hf. exact Hf.
    + intros ? [= <-] Hl. by eapply (no_lam _ _ _ Hok).
    + by intros ? [= <-] l' it.
  - split; [by apply node_ok_sv|]. by intros l' it.
Qed.

Lemma resolve_empty sv es sv' ret n chunks cov :
  unifyfs_inode_resolve_extent_chunks qsort sv es = LRet (sv', ret, n, chunks, cov) -> (n >? 0) = false -> chunks = [].
Proof.
  unfold unifyfs_inode_resolve_extent_chunks. destruct (calloc _) as [[b|] m]; [|by intros [= _ _ _ <- _]].
  destruct (resolve_loop _ es 0 true) as [[[sv2 r2] [[t2 css2] c2]]| |]; [|done..]. simpl.
  destruct (negb _); [by intros [= _ _ _ <- _]|]. destruct (t2 >? 0) eqn:Ht; [|by intros [= _ _ _ <- _]].
  destruct (calloc (sv_mem sv2)) as [[c|] m2]; intros [= _ _ <- <- _]; [congruence|done].
Qed.

Lemma get_extents_ok sv g sv' ret es :
  sv_wf sv -> unifyfs_inode_get_extents sv g = LRet (sv', ret, es) -> only_allocates sv sv' /\ Forall em_valid es.
Proof.
  intros Hwf. unfold unifyfs_inode_get_extents. rewrite lookup_map //.
  destruct (sv_map sv !! g) as [ino|] eqn:Hg; [|intros [= <- _ <-]; split; [apply only_allocates_refl|constructor]].
  destruct (ino_extents ino) as [tree|] eqn:He; [|done]. cbn [lift_option lbind]. calloc_step.
  assert (only_allocates sv (set_mem m sv)) as Ha by by exists m. destruct p; [|intros [= <- _ <-]; by split].
  pose proof (ino_wf_extents _ _ (sv_wf_ino _ Hwf _ _ Hg) _ He) as Hrt.
  rewrite (extent_tree_walk_nodes _ _ Hrt). cbn [lift_option lbind]. destruct (_ >? _); [done|]. intros [= <- _ <-]. split; [done|].
  apply Forall_fmap, Forall_forall. intros n Hn. destruct (rt_wf_elem _ _ _ Hrt Hn) as [Hv _]. exact Hv.
Qed.

Lemma node_ok_metagets r nd T l : node_ok r nd T -> node_ok r (nd_set_metagets l nd) T.
Proof. by intros []. Qed.

Lemma submit_ok r nd T req nd' rc :
  node_ok r nd T -> queued_ok r T req -> sm_submit_service_request nd req = LRet (nd', rc) -> node_ok r nd' T.
Proof.
  intros Hok Hreq. unfold sm_submit_service_request. destruct (nd_svc_reqs nd) as [l|] eqn:Hl; [|by intros [= <- _]].
  destruct (arraylist_add _ _ _) as [[[[m l'] f] c]|] eqn:Ha; [|done]. simpl. intros [= <- _].
  apply arraylist_add_elems in Ha as [Hm Hel].
  assert (node_ok r (nd_set_sv (set_mem m (nd_sv nd)) nd) T) as Hok' by (apply node_ok_allocates; [done|by exists m]).
  destruct Hok' as [? ? ? ? ? Hq]. split; try done. simpl in *. intros ? q [= <-] [->|Hq']%Hel; [done|]. by eapply Hq.
Qed.

Lemma add_metaget_ok r nd T g nd' rc : node_ok r nd T -> add_pending_metaget nd g = LRet (nd', rc) -> node_ok r nd' T.
Proof.
  intros Hok. unfold add_pending_metaget. calloc_step.
  assert (node_ok r (nd_set_sv (set_mem m (nd_sv nd)) nd) T) as Hok' by (apply node_ok_allocates; [done|by exists m]).
  destruct p; [|by intros [= <- _]]. simpl. destruct (nd_pending_metagets nd) as [l|]; [|by intros [= <- _]].
  destruct (list_find _ _); [by intros [= <- _]|].
  destruct (arraylist_add _ _ _) as [[[[m2 l'] f] c]|] eqn:Ha; [|done]. simpl. intros [= <- _].
  apply arraylist_add_elems in Ha as [Hm2 _]. apply node_ok_metagets.
  apply (node_ok_allocates r (nd_set_sv (set_mem m (nd_sv nd)) nd)); [done|]. by exists m2.
Qed.

Lemma clear_metaget_ok r nd T g nd' rc : node_ok r nd T -> clear_pending_metaget nd g = LRet (nd', rc) -> node_ok r nd' T.
Proof.
  intros Hok. unfold clear_pending_metaget. destruct (nd_pending_metagets nd) as [l|]; [|by intros [= <- _]].
  destruct (list_find _ _) as [[i x]|]; [|by intros [= <- _]].
  destruct (arraylist_remove _ _) as [[l' y]|]; [|done]. intros [= <- _]. by apply node_ok_metagets.
Qed.

(** An operation keeps the server as the trace says, and its result is what
    programs rely on. *)
Lemma exec_op_ok {B} r nd T inp (o : op B) nd' x :
  node_ok r nd T -> op_pre r o T -> exec_op qsort inp nd o = LRet (nd', x) ->
  node_ok r nd' (T ++ op_events r o x) /\ op_fact r o T x.
Proof.
  intros Hok Hpre Hop. destruct o; simpl in *.
  - injection Hop as <- <-. rewrite app_nil_r. split; [done|]. intros a. unfold unifyfs_inode_metaget.
    rewrite lookup_map; [apply Hok|]. destruct (sv_map _ !! gfid) as [ino|] eqn:Hg; [|done]. intros [= <-]. split; [done|].
    intros Hl. by eapply (no_lam _ _ _ Hok).
  - split; [|done]. unfold unifyfs_inode_metaset in Hop. destruct (attr_op =? ATTR_OP_CREATE) eqn:Hc; zbool.
    + destruct (unifyfs_inode_create _ _ _ _) as [[sv rc]| |] eqn:Hcr; [|done..]. injection Hop as <- <-. by eapply create_ok.
    + pose proof (update_attr_ok r nd T (in_now inp) gfid attr_op attr Hok Hc) as H.
      destruct (unifyfs_inode_update_attr _ _ _ _ _) as [sv rc]. by injection Hop as <- <-.
  - split; [|done]. destruct (unifyfs_inode_create _ _ _ _) as [[sv rc]| |] eqn:Hcr; [|done..]. injection Hop as <- <-. by eapply create_ok.
  - split; [|done]. destruct (unifyfs_inode_add_extents _ _ _) as [[sv rc]| |] eqn:Ha; [|done..]. injection Hop as <- <-. by eapply add_extents_ok.
  - destruct (unifyfs_inode_resolve_extent_chunks _ _ _) as [[[[[sv ret] n] chunks] cov]| |] eqn:Hr; [|done..].
    injection Hop as <- <-. rewrite app_nil_r. split; [by apply node_ok_allocates, (resolve_allocates _ _ _ _ _ _ _ _ Hr)|].
    split; [|by eapply resolve_empty]. intros ->. exists (nd_sv nd), sv, n, cov. split_and!; [apply Hok..|done].
  - injection Hop as <- <-. rewrite app_nil_r. by split.
  - split; [|done]. destruct (unifyfs_inode_truncate _ _ _ _) as [[sv rc]| |] eqn:Ha; [|done..]. injection Hop as <- <-. by eapply truncate_ok.
  - split; [|done]. pose proof (laminate_ok r nd T gfid Hok) as H. destruct (unifyfs_inode_laminate _ _) as [sv rc]. by injection Hop as <- <-.
  - split; [|done]. destruct (unifyfs_inode_unlink _ _) as [[sv rc]| |] eqn:Ha; [|done..]. injection Hop as <- <-. by eapply unlink_ok.
  - destruct (unifyfs_inode_get_extents _ _) as [[[sv ret] es]| |] eqn:Hr; [|done..]. injection Hop as <- <-. rewrite app_nil_r.
    apply get_extents_ok in Hr as [Ha Hv]; [|apply Hok]. split; [by apply node_ok_allocates|done].
  - rewrite app_nil_r. split; [|done]. destruct (unifyfs_inode_add_pending_extents _ _ _ _ _) as [[sv rc]| |] eqn:Ha; [|done..].
    injection Hop as <- <-. by eapply add_pending_extents_ok.
  - injection Hop as <- <-. rewrite app_nil_r. by split.
  - destruct (unifyfs_inode_get_pending_extents _ _) as [[sv l] rc] eqn:Ha. injection Hop as <- <-. rewrite app_nil_r.
    by eapply get_pending_extents_ok.
  - injection Hop as <- <-. rewrite app_nil_r. by split.
  - destruct (calloc _) as [p m] eqn:Hc. injection Hop as <- <-. rewrite app_nil_r. split; [|done].
    apply node_ok_allocates; [done|]. exists m. split; [done|by eapply calloc_le].
  - destruct b; [|done]. injection Hop as <- <-. rewrite app_nil_r. by split.
  - injection Hop as <- <-. rewrite app_nil_r. by split.
  - injection Hop as <- <-. rewrite app_nil_r. by split.
  - rewrite app_nil_r. split; [|done]. by eapply add_metaget_ok.
  - destruct (check_pending_metaget nd gfid); [done|]. injection Hop as <- <-. rewrite app_nil_r. by split.
  - rewrite app_nil_r. split; [|done]. by eapply clear_metaget_ok.
  - rewrite app_nil_r. split; [|done]. eapply submit_ok; [done| |done]. by split.
  - injection Hop as <- <-. split; [|done]. apply node_ok_mono; [|done]. by repeat constructor.
Qed.
End Ops.
