(* ===== verification/ClusterProg.v ===== *)
(** * The programs of the threads

    [wp r p T Q]: the program [p] of a thread of the server [r], run from the
    trace [T] while other threads add to the trace, uses every operation as it
    has to, and what it returns satisfies [Q].  It is proved here for every
    request of the service managers and of the clients. *)

From stdpp Require Import functions.
From S2P Require Import Prelude.
From S2P Require Import Extents.
From S2P Require Import RangeTree.
From S2P Require Import ExtentTree.
From S2P Require Import LogIO.
From S2P Require Import ArrayList.
From S2P Require Import Meta.
From S2P Require Import InodeTree.
From S2P Require Import Inode.
From S2P Require Import InodeProps.
From S2P Require Import Rpc.
From S2P Require Import ServiceMgr.
From S2P Require Import RequestMgr.
From S2P Require Import Cluster.
From S2P Require Import ClusterInv.

(** The calls made so far. *)
Definition called (T : trace) : list nat := omap (fun ev => match ev with EvCall id _ _ => Some id | _ => None end) T.

(** Requests and calls have different numbers. *)
Record trace_ok (T : trace) : Prop := {
  tr_started : NoDup (started T);
  tr_called : NoDup (called T);
}.

Section Prog.
Context (size : Z) (local_extents : bool) (qsort : list chunk_read_req -> list chunk_read_req).

(** What a reply tells the caller, who made the call at [T]. *)
Definition reply_fact (dst : Z) (req : svc_req) (out : rpc_out) (T T' : trace) : Prop :=
  match req with
  | RPC_EXTENTS_ADD g es => out_ret out = UNIFYFS_SUCCESS -> exists A B, T' = A ++ EvAdd dst g es :: B /\ T `prefix_of` A
  | RPC_EXTENTS_FIND g es => out_ret out = UNIFYFS_SUCCESS ->
      (exists T0, T `prefix_of` T0 /\ T0 `prefix_of` T' /\ chunks_of qsort dst es (out_locations out) T0) /\
      ((out_num_locations out >? 0) = false -> out_locations out = [])
  | _ => True
  end.

Lemma reply_fact_error dst req out T T' : out_ret out <> UNIFYFS_SUCCESS -> reply_fact dst req out T T'.
Proof. intros H. destruct req; simpl; try done; by intros ?. Qed.

Lemma reply_fact_mono dst req out T T' T'' : T' `prefix_of` T'' -> reply_fact dst req out T T' -> reply_fact dst req out T T''.
Proof.
  intros Hp. destruct req; simpl; try done; intros H Hret.
  - destruct (H Hret) as (A & B & -> & HA). destruct Hp as [k ->]. exists A, (B ++ k). split; [|done]. by rewrite -app_assoc.
  - destruct (H Hret) as ((T0 & H1 & H2 & H3) & H4). split; [|done]. exists T0. split_and!; [done|by etrans|done].
Qed.

Fixpoint wp {A} (r : Z) (p : prog A) (T : trace) (Q : A -> trace -> Prop) : Prop :=
  match p with
  | Ret a => forall T', T `prefix_of` T' -> Q a T'
  | Do o k => forall T', T `prefix_of` T' -> trace_ok T' ->
      op_pre size r o T' /\ forall x, op_fact qsort r o T' x -> wp r (k x) (T' ++ op_events r o x) Q
  | Forward dst req k => req_ok req /\ forall T', T `prefix_of` T' ->
      (forall T'', T' `prefix_of` T'' -> wp r (k CallFailed) T'' Q) /\
      forall T'' out, T' `prefix_of` T'' -> reply_fact dst req out T' T'' -> wp r (k (CallOk out)) T'' Q
  | Broadcast req k => req_ok req /\ is_Some (bcast_root req) /\ forall T' x, T `prefix_of` T' -> wp r (k x) T' Q
  end.

Lemma wp_mono {A} r (p : prog A) T T' Q : T `prefix_of` T' -> wp r p T Q -> wp r p T' Q.
Proof.
  intros Hp. destruct p; simpl.
  - intros H T'' HT. apply H. by etrans.
  - intros H T'' HT. apply H. by etrans.
  - intros [Hr H]. split; [done|]. intros T'' HT. apply H. by etrans.
  - intros (Hr & Hb & H). split_and!; [done..|]. intros T'' x HT. apply H. by etrans.
Qed.

Lemma wp_bind {A C} r (p : prog A) (f : A -> prog C) T Q :
  wp r p T (fun a T' => wp r (f a) T' Q) -> wp r (pbind p f) T Q.
Proof.
  revert T. induction p as [a|B o k IH|dst req k IH|req k IH]; intros T; simpl.
  - intros H. by apply H.
  - intros H T' HT Hok. destruct (H T' HT Hok) as [Hpre Hk]. split; [done|]. intros x Hx. apply IH. by apply Hk.
  - intros [Hr H]. split; [done|]. intros T' HT. destruct (H T' HT) as [H1 H2]. split; [intros; apply IH; by apply H1|].
    intros. apply IH. by apply H2.
  - intros (Hr & Hb & H). split_and!; [done..|]. intros. apply IH. by apply H.
Qed.

Lemma wp_conseq {A} r (p : prog A) T (Q Q' : A -> trace -> Prop) :
  wp r p T Q -> (forall a T', T `prefix_of` T' -> Q a T' -> Q' a T') -> wp r p T Q'.
Proof.
  revert T. induction p as [a|B o k IH|dst req k IH|req k IH]; intros T; simpl.
  - intros H HQ T' HT. apply HQ; [done|by apply H].
  - intros H HQ T' HT Hok. destruct (H T' HT Hok) as [Hpre Hk]. split; [done|]. intros x Hx. eapply IH; [by apply Hk|].
    intros a T'' HT''. apply HQ. etrans; [exact HT|]. etrans; [|exact HT'']. by eexists.
  - intros [Hr H] HQ. split; [done|]. intros T' HT. destruct (H T' HT) as [H1 H2]. split.
    + intros T'' HT''. eapply IH; [by apply H1|]. intros a T3 HT3. apply HQ. by repeat (etrans; [eassumption|]).
    + intros T'' out HT'' Hf. eapply IH; [by apply H2|]. intros a T3 HT3. apply HQ. by repeat (etrans; [eassumption|]).
  - intros (Hr & Hb & H) HQ. split_and!; [done..|]. intros T' x HT. eapply IH; [by apply H|]. intros a T'' HT''. apply HQ. by etrans.
Qed.

Lemma wp_ret {A} r (a : A) T Q : (forall T', T `prefix_of` T' -> Q a T') -> wp r (Ret a) T Q.
Proof. done. Qed.

Lemma wp_do {A B} r (o : op B) (k : B -> prog A) T Q :
  (forall T', T `prefix_of` T' -> trace_ok T' -> op_pre size r o T') ->
  (forall T' x, T `prefix_of` T' -> trace_ok T' -> op_fact qsort r o T' x -> wp r (k x) (T' ++ op_events r o x) Q) ->
  wp r (Do o k) T Q.
Proof. intros H1 H2 T' HT Hok. split; auto. Qed.

(** A program of which only the use of the operations matters. *)
Definition wp_safe {A} (r : Z) (p : prog A) (T : trace) : Prop := wp r p T (fun _ _ => True).
End Prog.

#[global] Arguments wp : simpl never.

(** Run through a program: split its conditions, and prove what its operations
    need where that is immediate. *)
Ltac wp_case :=
  match goal with
  | |- wp _ _ _ (if ?b then _ else _) _ _ => destruct b eqn:?
  | |- wp _ _ _ (match ?x with _ => _ end) _ _ => destruct x eqn:?
  | |- wp _ _ _ (pbind (if ?b then _ else _) _) _ _ => destruct b eqn:?
  | |- wp _ _ _ (pbind (match ?x with _ => _ end) _) _ _ => destruct x eqn:?
  end.

Ltac wp_step :=
  cbn [pbind pdo];
  match goal with
  | |- wp _ _ _ (Ret _) _ _ => intros ? ?; cbv beta
  | |- wp _ _ _ (Do _ _) _ _ => apply wp_do; [intros ? ? ?; try done|intros ? ? ? ? ?]
  | |- wp _ _ _ (Forward _ _ _) _ _ => split; [try done|intros ? ?; split; [intros ? ?|intros ? ? ? ?]]
  | |- wp _ _ _ (Broadcast _ _) _ _ => split_and!; [try done|try done|intros ? ? ?]
  | _ => wp_case
  | |- wp _ _ _ (pbind (pbind _ _) _) _ _ => apply wp_bind
  end.

Ltac wp_go := repeat wp_step; try done.

Lemma prefix_app_inv {T U V : trace} : T ++ U `prefix_of` V -> T `prefix_of` V.
Proof. intros [k ->]. exists (U ++ k). by rewrite app_assoc. Qed.

Ltac pfx :=
  repeat match goal with H : _ ++ _ `prefix_of` _ |- _ => apply prefix_app_inv in H end;
  repeat first [eassumption|reflexivity|by apply prefix_app_r|etrans; [eassumption|]].

Section Service.
Context (size : Z) (local_extents : bool) (qsort : list chunk_read_req -> list chunk_read_req).

Lemma sm_laminate_safe r g T : wp_safe size qsort r (sm_laminate size r g) T.
Proof. unfold wp_safe, sm_laminate, unifyfs_invoke_broadcast_laminate, with_input. wp_go. Qed.

Lemma sm_set_fileattr_safe r g aop attr T : wp_safe size qsort r (sm_set_fileattr size r g aop attr) T.
Proof. unfold wp_safe, sm_set_fileattr, unifyfs_invoke_broadcast_fileattr, with_input. wp_go. Qed.

Lemma sm_truncate_safe r g sz T : is_u64 sz -> wp_safe size qsort r (sm_truncate size r g sz) T.
Proof. intros Hsz. unfold wp_safe, sm_truncate, unifyfs_invoke_broadcast_truncate, with_input. wp_go. Qed.

Lemma process_laminate_bcast_safe r g attr es T :
  Forall em_valid es -> wp_safe size qsort r (process_laminate_bcast_rpc size r g attr es) T.
Proof.
  intros Hes. unfold wp_safe, process_laminate_bcast_rpc, sm_add_extents, sm_set_fileattr,
    unifyfs_invoke_broadcast_fileattr, with_input. wp_go.
Qed.

Lemma invoke_metaget_safe r g T : wp_safe size qsort r (unifyfs_invoke_metaget_rpc size r g) T.
Proof.
  unfold wp_safe, unifyfs_invoke_metaget_rpc, metaget_at_owner, sm_get_fileattr, sm_set_fileattr,
    unifyfs_invoke_broadcast_fileattr, with_input. wp_go.
Qed.

Lemma invoke_filesize_safe r g T : wp_safe size qsort r (unifyfs_invoke_filesize_rpc size r g) T.
Proof.
  unfold wp_safe, unifyfs_invoke_filesize_rpc, metaget_at_owner, sm_get_fileattr, sm_set_fileattr,
    unifyfs_invoke_broadcast_fileattr, with_input. wp_go.
Qed.

(** ** Lookups *)

(** The chunks of a request: those of a server, between [T] and [T'], that is
    the owner of the file, or the server [r] itself if it may use its own
    extents. *)
Definition found (r : Z) (e : unifyfs_extent_t) (chunks : list chunk_read_req) (T T' : trace) : Prop :=
  exists T0 r', T `prefix_of` T0 /\ T0 `prefix_of` T' /\ chunks_of qsort r' [e] chunks T0 /\
    (r' = owner_rank size (ue_gfid e) \/ r' = r /\ (local_extents = true \/ lam_event r (ue_gfid e) T0)).

Lemma found_mono r e chunks T0 T1 T T' :
  T0 `prefix_of` T1 -> T `prefix_of` T' -> found r e chunks T1 T -> found r e chunks T0 T'.
Proof. intros H0 H1 (Tm & r' & Ha & Hb & Hc & Hd). exists Tm, r'. split_and!; [by etrans|by etrans|done|done]. Qed.

Lemma find_at_owner_wp r e T :
  read_ok e ->
  wp size qsort r (find_extents_at_owner size (ue_gfid e) [e]) T (fun x T' => x.1 = UNIFYFS_SUCCESS -> found r e x.2 T T').
Proof.
  intros He. unfold find_extents_at_owner. wp_go; simpl; [by apply Forall_singleton|intros Hr|..];
    [match goal with H : negb _ = true |- _ => by rewrite Hr in H end|..]; intros _;
    match goal with
    | Hret : negb (out_ret ?out =? _) = false, Hf : reply_fact _ _ _ _ _ _ |- _ =>
        apply negb_false_iff, Z.eqb_eq in Hret; destruct (Hf Hret) as ((T0 & Ha & Hb & Hc) & Hz)
    end; exists T0, (owner_rank size (ue_gfid e)).
  - split_and!; [pfx|pfx|done|by left].
  - rewrite -Hz //. split_and!; [pfx|pfx|done|by left].
Qed.

(** The server uses its own extents: it is the owner, it may, or the file is
    laminated. *)
Lemma local_found r e T T0 T' attrs chunks :
  T `prefix_of` T0 -> T0 `prefix_of` T' -> chunks_of qsort r [e] chunks T0 ->
  (c_true (fa_is_laminated attrs) = true -> lam_event r (ue_gfid e) T0) ->
  is_owner size r (ue_gfid e) || local_extents || c_true (fa_is_shared attrs) && c_true (fa_is_laminated attrs) = true ->
  found r e chunks T T'.
Proof.
  intros H1 H2 Hc Hlam Hb. exists T0, r. split_and!; [done..|].
  apply orb_true_iff in Hb as [[Ho|Hl]%orb_true_iff|[_ Hl]%andb_true_iff]; [left|right; auto..].
  unfold is_owner in Ho. by zbool.
Qed.

Lemma invoke_find_extents_wp r e T :
  read_ok e ->
  wp size qsort r (unifyfs_invoke_find_extents_rpc size local_extents r (ue_gfid e) [e]) T
    (fun x T' => x.1 = UNIFYFS_SUCCESS -> found r e x.2 T T').
Proof.
  intros He.
  assert (forall T1, T `prefix_of` T1 -> wp size qsort r (find_extents_at_owner size (ue_gfid e) [e]) T1
    (fun x T' => x.1 = UNIFYFS_SUCCESS -> found r e x.2 T T')) as Howner.
  { intros T1 HT1. eapply wp_conseq; [by apply find_at_owner_wp|]. simpl. intros x T' HT Hf Hx.
    eapply found_mono; [exact HT1|reflexivity|auto]. }
  unfold unifyfs_invoke_find_extents_rpc, sm_get_fileattr, sm_find_extents.
  wp_go; try (apply Howner; pfx); simpl; [|by intros ->].
  intros ->. match goal with H : op_fact _ _ (OResolve _) ?T0 _ |- _ => destruct H as [Hc _]; eapply (local_found r e T T0) end;
    [pfx|pfx|by apply Hc| |eassumption].
  match goal with H : op_fact _ _ (OMetaget _) _ (Some ?u, _) |- _ => destruct (H u eq_refl) as [_ Hlam] end.
  intros Hl. eapply lam_event_mono; [|by apply Hlam]. pfx.
Qed.

Lemma lookup_extents_wp r es : forall T,
  Forall read_ok es ->
  wp size qsort r (lookup_extents size local_extents r es) T
    (fun x T' => x.1 = UNIFYFS_SUCCESS -> Forall2 (fun e p => p.1 = e /\ found r e p.2 T T') es x.2).
Proof.
  induction es as [|e es IH]; intros T Hes; cbn [lookup_extents].
  { apply wp_ret. by constructor. }
  apply Forall_cons in Hes as [He Hes]. apply wp_bind. eapply wp_conseq; [by apply invoke_find_extents_wp|].
  intros [rc chunks] T1 HT1 Hf. cbv beta iota. simpl in Hf. destruct (rc =? UNIFYFS_SUCCESS) eqn:Hrc; zbool; simpl.
  2:{ intros T' _ ?. by simpl in *. }
  specialize (Hf Hrc). apply wp_bind. eapply wp_conseq; [by apply IH|]. intros [rc2 fs] T2 HT2 Hfs. cbv beta iota.
  apply wp_ret. intros T' HT' Hr. simpl in *. constructor.
  - split; [done|]. eapply found_mono; [reflexivity| |exact Hf]. by etrans.
  - eapply Forall2_impl; [by apply Hfs|]. intros e' p [H1 H2]. split; [done|]. eapply found_mono; [exact HT1|exact HT'|exact H2].
Qed.

(** ** Synchronisation *)

Lemma started_elem T r creq a c o : EvStart r creq a c o ∈ T -> creq ∈ started T.
Proof. intros H. apply list_elem_of_omap. eauto. Qed.

Lemma start_unique T r creq a c o r' a' c' o' :
  NoDup (started T) -> EvStart r creq a c o ∈ T -> EvStart r' creq a' c' o' ∈ T -> r = r' /\ a = a' /\ c = c' /\ o = o'.
Proof.
  induction T as [|ev T IH]; [by intros _ ?%elem_of_nil|]. intros Hnd H1 H2.
  apply elem_of_cons in H1 as [<-|H1], H2 as [H2|H2].
  - by injection H2.
  - simpl in Hnd. apply NoDup_cons in Hnd as [Hn _]. by apply started_elem in H2.
  - subst ev. simpl in Hnd. apply NoDup_cons in Hnd as [Hn _]. by apply started_elem in H1.
  - apply IH; [|done..]. destruct ev; simpl in Hnd; try done. by apply NoDup_cons in Hnd as [_ ?].
Qed.

Lemma extent_of_index_valid r a c ix : index_ok ix -> em_valid (extent_of_index r a c ix).
Proof.
  unfold index_ok, em_valid, valid_range. intros (H1 & H2 & H3). simpl. rewrite u64_sub_l. rewrite !u64_small; unfold is_u64; lia.
Qed.

Lemma pend_ok_valid r g T it : pend_ok r g T it -> Forall em_valid (pe_extents it).
Proof.
  intros (a & c & ix & _ & _ & Hix & -> & _). apply Forall_fmap. eapply Forall_impl; [exact Hix|].
  intros i Hi. by apply extent_of_index_valid.
Qed.

Lemma pend_ok_all r g T it :
  pend_ok r g T it -> take (Z.to_nat (pe_num_extents it)) (pe_extents it) = pe_extents it.
Proof. intros (a & c & ix & _ & _ & _ & _ & ->). by rewrite Nat2Z.id firstn_all. Qed.

Lemma combined_valid r g T items : Forall (pend_ok r g T) items -> Forall em_valid (combined_extents items).
Proof.
  intros H. apply Forall_concat, Forall_fmap. eapply Forall_impl; [exact H|]. intros it Hit. simpl.
  rewrite (pend_ok_all _ _ _ _ Hit). by eapply pend_ok_valid.
Qed.

Lemma combined_split r g T items it :
  pend_ok r g T it -> it ∈ items -> exists l l', combined_extents items = l ++ pe_extents it ++ l'.
Proof.
  intros Hok [l1 [l2 ->]]%list_elem_of_split. unfold combined_extents. rewrite fmap_app concat_app fmap_cons. simpl.
  rewrite (pend_ok_all _ _ _ _ Hok). eauto.
Qed.

(** Extents of a pending item that were added at the owner. *)
Lemma synced_intro r g T T0 items it A B :
  trace_ok T -> pend_ok r g T0 it -> it ∈ items ->
  T = A ++ EvAdd (owner_rank size g) g (combined_extents items) :: B -> T0 `prefix_of` A ->
  synced size r (pe_client_req it) T.
Proof.
  intros Hok Hp Hit -> HA app cid g' index Hst Hne. destruct (combined_split _ _ _ _ _ Hp Hit) as (l & l' & Hc).
  pose proof Hp as (a & c & ix & Hst0 & _ & _ & He & _). pose proof (prefix_elem HA Hst0) as HstA.
  destruct (start_unique _ _ _ _ _ _ _ _ _ _ (tr_started _ Hok) Hst (proj2 (elem_of_app _ _ _) (or_introl HstA))) as (_ & -> & -> & [= -> ->]).
  exists A, B, l, l'. rewrite Hc He. done.
Qed.

Lemma respond_all_wp r ret items : forall T,
  (forall it T', it ∈ items -> T `prefix_of` T' -> trace_ok T' -> ret = UNIFYFS_SUCCESS -> synced size r (pe_client_req it) T') ->
  wp size qsort r (respond_all ret items) T (fun _ _ => True).
Proof.
  induction items as [|it items IH]; intros T H; cbn [respond_all]; [by apply wp_ret|].
  cbn [pbind pdo]. apply wp_do.
  - intros T' HT Hok Hret. apply H; [by left|done..].
  - intros T' x HT _ _. apply IH. intros it' T2 Hit HT2 Hok. apply H; [by right| |done]. pfx.
Qed.

Lemma invoke_add_extents_wp r g es T :
  is_owner size r g = false -> Forall em_valid es ->
  wp size qsort r (unifyfs_invoke_add_extents_rpc size r g es) T
    (fun ret T' => ret = UNIFYFS_SUCCESS -> exists A B, T' = A ++ EvAdd (owner_rank size g) g es :: B /\ T `prefix_of` A).
Proof.
  intros Ho Hes. unfold unifyfs_invoke_add_extents_rpc. rewrite Ho. wp_go. simpl. intros Hret.
  match goal with H : reply_fact _ _ _ _ _ _ |- _ => destruct (H Hret) as (A & B & -> & HA) end.
  match goal with H : _ ++ EvAdd _ _ _ :: _ `prefix_of` _ |- _ => destruct H as [k ->] end.
  exists A, (B ++ k). split; [by rewrite -app_assoc|]. pfx.
Qed.

Lemma pending_items_ok r g T l : list_pend_ok r g T (Some l) -> Forall (pend_ok r g T) (pending_items l).
Proof.
  intros H. apply Forall_forall. intros it (o & Ho & Hit)%list_elem_of_omap. simpl in Hit. subst o.
  eapply H; [done|]. by apply al_items_elems.
Qed.

(** The extents of the pending requests are added at the owner before the
    clients are told of success. *)
Lemma process_pending_sync_safe r g T : wp_safe size qsort r (process_pending_sync size r g) T.
Proof.
  unfold wp_safe, process_pending_sync. cbn [pbind pdo]. apply wp_do; [done|]. intros T1 has _ _ _.
  apply wp_do; [done|]. intros T2 [l rc] _ _ Hl. cbv beta iota. destruct l as [l|]; [|by apply wp_ret].
  apply pending_items_ok in Hl. simpl. rewrite app_nil_r. set (items := pending_items l) in *.
  apply wp_do; [done|]. intros T3 ok HT3 _ _. cbv beta. simpl. rewrite app_nil_r.
  assert (forall ret T4, T3 `prefix_of` T4 ->
    (ret = UNIFYFS_SUCCESS -> exists A B, T4 = A ++ EvAdd (owner_rank size g) g (combined_extents items) :: B /\ T2 `prefix_of` A) ->
    wp size qsort r (let* _ := respond_all ret items in Ret ret) T4 (fun _ _ => True)) as Hresp.
  { intros ret T4 HT4 Hadd. apply wp_bind. eapply wp_conseq; [|by intros; apply wp_ret].
    apply respond_all_wp. intros it T5 Hit [k ->] Hok Hret. destruct (Hadd Hret) as (A & B & -> & HA).
    eapply (synced_intro r g _ T2 items it A (B ++ k)); [done| |done|by rewrite -app_assoc|done]. by eapply Forall_forall in Hit. }
  destruct ok; simpl; [|by apply Hresp; [reflexivity|]].
  pose proof (combined_valid _ _ _ _ Hl) as Hval. apply wp_do; [done|]. intros T4 ret HT4 _ _. cbv beta. simpl.
  destruct (ret =? UNIFYFS_SUCCESS) eqn:Hret; zbool; simpl; rewrite ?Hret ?on_success_zero.
  2:{ apply Hresp; [pfx|done]. }
  destruct (is_owner size r g) eqn:Ho; simpl.
  - apply Hresp; [pfx|]. intros _. exists T4, []. unfold is_owner in Ho. zbool. rewrite Ho. split; [done|]. pfx.
  - apply wp_bind. eapply wp_conseq; [by apply invoke_add_extents_wp|]. intros ret' T5 HT5 Hadd. apply Hresp; [pfx|].
    intros Hr. destruct (Hadd Hr) as (A & B & -> & HA). exists A, B. split; [done|]. pfx.
Qed.

(** ** The requests of the service manager *)

Lemma wp_safe_bind {A C} r (p : prog A) (f : A -> prog C) T Q :
  wp_safe size qsort r p T -> (forall a T', T `prefix_of` T' -> wp size qsort r (f a) T' Q) ->
  wp size qsort r (pbind p f) T Q.
Proof. intros Hp Hf. apply wp_bind. eapply wp_conseq; [exact Hp|]. auto. Qed.

Lemma process_add_extents_wp r g es T :
  Forall em_valid es ->
  wp size qsort r (process_add_extents_rpc g es) T (fun out T' => reply_fact qsort r (RPC_EXTENTS_ADD g es) out T T').
Proof.
  intros Hes. unfold process_add_extents_rpc, sm_add_extents. cbn [pbind pdo]. apply wp_do; [done|].
  intros T1 ret HT1 _ _. apply wp_ret. intros T2 HT2. simpl in *. intros ->. rewrite on_success_zero in HT2.
  destruct HT2 as [k ->]. exists T1, k. split; [by rewrite -app_assoc|done].
Qed.

Lemma process_find_extents_wp r g es T :
  wp size qsort r (process_find_extents_rpc g es) T (fun out T' => reply_fact qsort r (RPC_EXTENTS_FIND g es) out T T').
Proof.
  unfold process_find_extents_rpc, sm_find_extents. cbn [pbind pdo]. apply wp_do; [done|].
  intros T1 [a ret0] HT1 _ _. cbv beta iota. destruct (ret0 =? UNIFYFS_SUCCESS) eqn:H0; zbool; cbn [pbind pdo].
  2:{ rewrite (proj2 (Z.eqb_neq _ _) H0). by apply wp_ret. }
  apply wp_do; [done|]. intros T2 [[[ret n] chunks] cov] HT2 _ [Hc Hz]. cbv beta iota.
  assert (forall ret' T3, T2 `prefix_of` T3 -> (ret' = UNIFYFS_SUCCESS -> ret = UNIFYFS_SUCCESS) ->
    wp size qsort r (Ret (RpcOut ret' n chunks 0 unifyfs_file_attr_set_invalid)) T3
      (fun out T' => reply_fact qsort r (RPC_EXTENTS_FIND g es) out T T')) as Hout.
  { intros ret' T3 HT3 Hret. apply wp_ret. intros T4 HT4. simpl. intros Hr. split; [|done].
    exists T2. split_and!; [pfx|pfx|auto]. }
  destruct (_ && _) eqn:Hb; cbn [pbind pdo]; [|apply Hout; [pfx|done]].
  apply wp_do; [done|]. intros T3 bulk HT3 _ _. apply Hout; [pfx|]. by destruct bulk.
Qed.

(** Every request of a service manager is processed as its caller may expect. *)
Lemma process_service_request_wp r req T0 T :
  req_ok req -> T0 `prefix_of` T ->
  wp size qsort r (process_service_request size r req) T
    (fun out T' => forall o, out = Some o -> reply_fact qsort r req o T0 T').
Proof.
  intros Hreq HT0.
  assert (forall p : prog Z, wp_safe size qsort r p T -> wp size qsort r (let* _ := p in Ret None) T
    (fun out T' => forall o, out = Some o -> reply_fact qsort r req o T0 T')) as Hcoll.
  { intros p Hp. apply wp_safe_bind; [done|]. intros a T' _. by apply wp_ret. }
  assert (forall p : prog rpc_out, (forall o T', reply_fact qsort r req o T0 T') -> wp_safe size qsort r p T ->
    wp size qsort r (let* out := p in Ret (Some out)) T
    (fun out T' => forall o, out = Some o -> reply_fact qsort r req o T0 T')) as Hresp.
  { intros p Htriv Hp. apply wp_safe_bind; [done|]. intros a T' _. apply wp_ret. auto. }
  assert (forall p : prog Z, wp_safe size qsort r p T -> wp_safe size qsort r (let* ret := p in Ret (ret_out ret)) T) as Hret.
  { intros p Hp. apply wp_safe_bind; [done|]. intros. by apply wp_ret. }
  assert (forall p : prog rpc_out, wp size qsort r p T (fun out T' => reply_fact qsort r req out T T') ->
    wp size qsort r (let* out := p in Ret (Some out)) T
    (fun out T' => forall o, out = Some o -> reply_fact qsort r req o T0 T')) as Hfact.
  { intros p Hp. apply wp_bind. eapply wp_conseq; [exact Hp|]. intros o T1 HT1 Ho. apply wp_ret. intros T2 HT2 ? [= <-].
    eapply reply_fact_mono; [exact HT2|]. destruct req; try done; simpl in *; intros H0.
    - destruct (Ho H0) as (A & B & -> & ?). exists A, B. split; [done|by etrans].
    - destruct (Ho H0) as ((T3 & ? & ? & ?) & ?). split; [|done]. exists T3. split_and!; [by etrans|done..]. }
  unfold process_service_request. destruct req; simpl in Hreq.
  - by apply Hfact, process_add_extents_wp.
  - by apply Hfact, process_find_extents_wp.
  - apply Hresp; [done|]. unfold wp_safe, process_filesize_rpc. wp_go.
  - apply Hresp; [done|]. apply Hret, sm_laminate_safe.
  - apply Hresp; [done|]. unfold wp_safe, process_metaget_rpc, sm_get_fileattr. wp_go.
  - apply Hresp; [done|]. apply Hret, sm_set_fileattr_safe.
  - apply Hresp; [done|]. by apply Hret, sm_truncate_safe.
  - apply Hcoll. unfold wp_safe, process_extents_bcast_rpc, sm_add_extents. wp_go.
  - apply Hcoll. apply wp_safe_bind; [apply sm_set_fileattr_safe|]. intros. by apply wp_ret.
  - by apply Hcoll, process_laminate_bcast_safe.
  - apply Hcoll. unfold wp_safe, process_truncate_bcast_rpc. wp_go.
  - apply Hcoll. unfold wp_safe, process_unlink_bcast_rpc. wp_go.
  - apply Hcoll, process_pending_sync_safe.
Qed.

(** ** The requests of clients *)

(** What the result of a request tells the client, who made it at [T]. *)
Definition client_post (r : Z) (o : client_op) (out : client_out) (T T' : trace) : Prop :=
  match o with
  | CRead es => co_ret out = UNIFYFS_SUCCESS -> Forall2 (fun e p => p.1 = e /\ found r e p.2 T T') es (co_chunks out)
  | _ => True
  end.

Lemma client_post_mono r o out T0 T1 T T' :
  T0 `prefix_of` T1 -> T `prefix_of` T' -> client_post r o out T1 T -> client_post r o out T0 T'.
Proof.
  intros H0 H1. destruct o; try done. simpl. intros H Hret. eapply Forall2_impl; [by apply H|].
  intros e p [? Hf]. split; [done|]. by eapply found_mono.
Qed.

Lemma rpc_fsync_safe r app cid g creq index T :
  EvStart r creq app cid (CSync g index) ∈ T -> Forall index_ok index ->
  wp_safe size qsort r (rm_process_fsync_rpc r app cid g creq index) T.
Proof.
  intros Hst Hix. unfold wp_safe, rm_process_fsync_rpc, rpc_fsync. wp_go; simpl.
  - exists app, cid. eexists. split; [eapply prefix_elem; [|exact Hst]; pfx|by split_and!].
  - intros ->. by match goal with H : negb (UNIFYFS_SUCCESS =? _) = true |- _ => vm_compute in H end.
  - intros ->. by match goal with H : negb (UNIFYFS_SUCCESS =? _) = true |- _ => vm_compute in H end.
Qed.

Lemma process_client_request_wp r app cid creq o T :
  EvStart r creq app cid o ∈ T -> client_op_ok o ->
  wp size qsort r (process_client_request size local_extents r app cid creq o) T (fun out T' => client_post r o out T T').
Proof.
  intros Hst Hop.
  assert (forall C (p : prog C) (f : C -> client_out), (forall out T', client_post r o out T T') ->
    wp_safe size qsort r p T -> wp size qsort r (let* x := p in Ret (f x)) T (fun out T' => client_post r o out T T')) as Hret.
  { intros C p f Htriv Hp. apply wp_safe_bind; [done|]. intros. apply wp_ret. auto. }
  destruct o; simpl in *.
  - unfold rm_process_filesize_rpc. apply wp_safe_bind; [apply invoke_filesize_safe|]. intros [? ?] ? ?. by apply wp_ret.
  - by apply rpc_fsync_safe.
  - apply Hret; [done|]. unfold wp_safe, rpc_laminate, unifyfs_invoke_laminate_rpc.
    destruct (is_owner size r gfid); [apply sm_laminate_safe|]. wp_go.
  - unfold rm_process_metaget_rpc, rpc_metaget. apply wp_safe_bind; [|intros [? ?] ? ?; by apply wp_ret].
    destruct (gfid =? app); [unfold wp_safe, sm_get_fileattr; wp_go|apply invoke_metaget_safe].
  - unfold rm_process_metaset_rpc, rpc_metaset, unifyfs_invoke_metaset_rpc. apply wp_safe_bind; [unfold wp_safe; wp_go|].
    intros copied T1 _. apply wp_safe_bind; [|intros; by apply wp_ret]. apply wp_safe_bind; [apply sm_set_fileattr_safe|].
    intros ret T2 _. unfold wp_safe. wp_go.
  - unfold rm_process_read_rpc. destruct (bool_decide (extents = [])); [apply wp_ret; by intros ? ? ?|]. cbn [pbind pdo].
    apply wp_do; [done|]. intros T1 [] HT1 _ _; simpl; [|apply wp_ret; by intros ? ? ?]. apply wp_bind. eapply wp_conseq; [by apply lookup_extents_wp|].
    intros [ret fs] T2 HT2 Hf. cbv beta iota. apply wp_ret. intros T3 HT3. simpl in *. intros Hr.
    eapply Forall2_impl; [by apply Hf|]. intros e p [? Hfound]. split; [done|]. eapply found_mono; [|exact HT3|exact Hfound]. pfx.
  - apply Hret; [done|]. unfold rpc_truncate, unifyfs_invoke_truncate_rpc.
    destruct (is_owner size r gfid); [apply sm_truncate_safe, u64_range|]. unfold wp_safe. wp_go. apply u64_range.
  - apply Hret; [done|]. unfold wp_safe, rpc_unlink, unifyfs_invoke_broadcast_unlink, with_input. wp_go.
Qed.
End Service.
