(* ===== verification/ClusterProps.v ===== *)
(** * Properties of the servers of a job

    The invariant of [ClusterInv] and [ClusterProg] holds in every state the
    servers can reach, however their threads and messages interleave and
    whatever calls fail.  From it:

    - every server has each file as its operations left it;
    - a synchronisation that is acknowledged to the client has been applied at
      the owner of the file;
    - a lookup that starts later sees it.

    Two service managers can wait for each other: see
    [crossed_syncs_block]. *)

From stdpp Require Import functions.
From S2P Require Import Prelude.
From S2P Require Import Extents.
From S2P Require Import RangeTree.
From S2P Require Import ExtentTree.
From S2P Require Import WriteIndex.
From S2P Require Import LogIO.
From S2P Require Import ArrayList.
From S2P Require Import KTree.
From S2P Require Import Meta.
From S2P Require Import AppTable.
From S2P Require Import InodeTree.
From S2P Require Import Inode.
From S2P Require Import InodeProps.
From S2P Require Import Rpc.
From S2P Require Import ServiceMgr.
From S2P Require Import RpcHandlers.
From S2P Require Import RequestMgr.
From S2P Require Import Cluster.
From S2P Require Import ClusterInv.
From S2P Require Import ClusterProg.

(** ** Received messages *)

Lemma tree_init_le m rank ranks root k : mem_le m (unifyfs_tree_init m rank ranks root k).1.1.
Proof.
  unfold unifyfs_tree_init. destruct (k >? 0).
  - calloc_step. destruct p; [|mem_chain]. destruct (_ <? ranks); mem_chain.
  - destruct (_ <? ranks); reflexivity.
Qed.

Lemma collective_create_le m rank size root : mem_le m (collective_create m rank size root).1.
Proof.
  unfold collective_create. calloc_step. destruct p; [|mem_chain].
  pose proof (tree_init_le m0 rank size root UNIFYFS_BCAST_K_ARY) as Ht. destruct (unifyfs_tree_init _ _ _ _ _) as [[m1 tree] rc].
  destruct (c_true rc); [mem_chain|]. destruct (c_true _); [|mem_chain]. do 2 calloc_step. destruct p, p0; mem_chain.
Qed.

Lemma start_broadcast_le m rank size fwd progress m' sent ret :
  start_broadcast m rank size fwd progress = (m', sent, ret) -> mem_le m m'.
Proof.
  unfold start_broadcast. pose proof (collective_create_le m rank size rank) as H.
  destruct (collective_create _ _ _ _) as [m1 [tree|]]; [|by intros [= <- _ _]].
  destruct (collective_forward _ _ _) as [s r]. by intros [= <- _ _].
Qed.

Lemma pull_le env m sz m' buf : pull_margo_bulk_buffer env m sz = LRet (m', buf) -> mem_le m m'.
Proof.
  unfold pull_margo_bulk_buffer. destruct (sz =? 0); [by intros [= <- _]|]. calloc_step.
  destruct p; [|by intros [= <- _]]. destruct (negb _); [by intros [= <- _]|].
  destruct (bulk_transfer_loop _ _ _ _) as [[ps ok]|]; [|done]. by intros [= <- _].
Qed.

Lemma node_ok_mem r nd T m : node_ok r nd T -> mem_le (sv_mem (nd_sv nd)) m -> node_ok r (nd_set_sv (set_mem m (nd_sv nd)) nd) T.
Proof. intros Hok Hm. apply node_ok_allocates; [done|]. by exists m. Qed.

Lemma rpc_handler_ok r nd T env sz body h nd' out :
  node_ok r nd T -> queued_ok r T (ServerRpcReq body (Some h)) -> rpc_handler env nd sz body h = LRet (nd', out) ->
  node_ok r nd' T /\ forall o, out = Some o -> out_ret o <> UNIFYFS_SUCCESS.
Proof.
  intros Hok Hq. unfold rpc_handler. do 2 calloc_step. pose proof (node_ok_mem r nd T m0 Hok (transitivity Hm Hm0)) as Hok0.
  set (nd0 := nd_set_sv _ nd) in *.
  assert (forall nd1 ret, node_ok r nd1 T ->
    LRet (nd1, if negb (ret =? UNIFYFS_SUCCESS) then Some (ret_out ret) else None) = LRet (nd', out) ->
    node_ok r nd' T /\ forall o, out = Some o -> out_ret o <> UNIFYFS_SUCCESS) as Hfin.
  { intros nd1 ret Hn [= <- <-]. split; [done|]. intros o. destruct (ret =? UNIFYFS_SUCCESS) eqn:Hr; [done|]. zbool. by intros [= <-]. }
  destruct p; [|by apply Hfin]. destruct p0; [|by apply Hfin]. destruct (negb (he_input env)); [by apply Hfin|].
  assert (forall nd1, node_ok r nd1 T ->
    (let! '(nd2, ret) := sm_submit_service_request nd1 (ServerRpcReq body (Some h)) in
     LRet (nd2, if negb (ret =? UNIFYFS_SUCCESS) then Some (ret_out ret) else None)) = LRet (nd', out) ->
    node_ok r nd' T /\ forall o, out = Some o -> out_ret o <> UNIFYFS_SUCCESS) as Hsub.
  { intros nd1 Hn. destruct (sm_submit_service_request nd1 _) as [[nd2 ret]| |] eqn:Hs; [|done..]. simpl. apply Hfin. by eapply submit_ok. }
  destruct sz as [sz|]; [|by apply Hsub].
  destruct (pull_margo_bulk_buffer env (sv_mem (nd_sv nd0)) sz) as [[m1 buf]| |] eqn:Hp; [|done..]. cbn [lbind].
  apply pull_le in Hp. pose proof (node_ok_mem r nd0 T m1 Hok0 Hp). destruct buf; [by apply Hsub|by apply Hfin].
Qed.

Lemma bcast_handler_ok r nd T env sz root body nd' sent ret :
  node_ok r nd T -> req_ok body -> bcast_handler env nd sz root body = LRet (nd', sent, ret) -> node_ok r nd' T.
Proof.
  intros Hok Hq. unfold bcast_handler. do 3 calloc_step.
  pose proof (node_ok_mem r nd T m1 Hok (transitivity Hm (transitivity Hm0 Hm1))) as Hok0.
  set (nd0 := nd_set_sv _ nd) in *. clearbody nd0. destruct p, p0, p1; try by intros [= <- _ _].
  destruct (negb (he_input env)); [by intros [= <- _ _]|].
  set (pull := match sz with Some _ => _ | None => _ end).
  assert (forall m2 ok, pull = LRet (m2, ok) -> mem_le (sv_mem (nd_sv nd0)) m2) as Hpull.
  { intros m2 ok. unfold pull. destruct sz; [|by intros [= <- _]].
    destruct (pull_margo_bulk_buffer _ _ _) as [[m3 buf]| |] eqn:Hp; [|done..]. apply pull_le in Hp. by intros [= <- _]. }
  destruct pull as [[m2 pulled]| |]; [|done..]. cbn [lbind]. pose proof (node_ok_mem r nd0 T m2 Hok0 (Hpull m2 pulled eq_refl)) as Hok1.
  set (nd1 := nd_set_sv _ nd0) in *. clearbody nd1. destruct (negb pulled); [by intros [= <- _ _]|].
  pose proof (collective_create_le (sv_mem (nd_sv nd1)) (sv_glb_pmi_rank (nd_sv nd)) (sv_glb_pmi_size (nd_sv nd)) root) as Hc.
  destruct (collective_create _ _ _ _) as [m3 coll]. pose proof (node_ok_mem r nd1 T m3 Hok1 Hc) as Hok2.
  set (nd2 := nd_set_sv _ nd1) in *. clearbody nd2. destruct coll as [tree|]; [|by intros [= <- _ _]].
  destruct (collective_forward _ _ _) as [s rc]. destruct (rc =? _); [|by intros [= <- _ _]].
  destruct (sm_submit_service_request nd2 _) as [[nd3 rc2]| |] eqn:Hs; [|done..]. intros [= <- _ _]. eapply submit_ok; [exact Hok2| |exact Hs]. by split.
Qed.

Lemma receive_ok r nd T env body h nd' sent out :
  node_ok r nd T -> req_ok body -> (bcast_root body = None -> EvCall h r body ∈ T) ->
  receive env nd body h = LRet (nd', sent, out) ->
  node_ok r nd' T /\ (forall o, out = Some o -> out_ret o <> UNIFYFS_SUCCESS) /\ (sent <> [] -> is_Some (bcast_root body)).
Proof.
  intros Hok Hreq Hcall.
  assert (forall sz, bcast_root body = None ->
    (let! '(nd, out) := rpc_handler env nd sz body h in LRet (nd, [], out)) = LRet (nd', sent, out) ->
    node_ok r nd' T /\ (forall o, out = Some o -> out_ret o <> UNIFYFS_SUCCESS) /\ (sent <> [] -> is_Some (bcast_root body))) as Hc.
  { intros sz Hb. destruct (rpc_handler env nd sz body h) as [[nd1 o1]| |] eqn:Hh; [|done..]. intros [= <- <- <-].
    eapply rpc_handler_ok in Hh as [? ?]; [by split_and!|done|]. split; [done|]. intros ? [= <-]. auto. }
  assert (forall sz root, is_Some (bcast_root body) ->
    (let! '(nd, s, _) := bcast_handler env nd sz root body in LRet (nd, s, None)) = LRet (nd', sent, out) ->
    node_ok r nd' T /\ (forall o, out = Some o -> out_ret o <> UNIFYFS_SUCCESS) /\ (sent <> [] -> is_Some (bcast_root body))) as Hb.
  { intros sz root Hb. destruct (bcast_handler env nd sz root body) as [[[nd1 s1] o1]| |] eqn:Hh; [|done..]. intros [= <- <- <-].
    split_and!; [by eapply bcast_handler_ok|done..]. }
  destruct body; simpl; try done; first [by apply Hc|by apply Hb; eauto].
Qed.

(** ** The invariant *)

Lemma app_snoc_split {A} (l : list A) x l1 y l2 :
  l ++ [x] = l1 ++ y :: l2 -> (l2 = [] /\ y = x /\ l1 = l) \/ exists l3, l2 = l3 ++ [x] /\ l = l1 ++ y :: l3.
Proof.
  destruct l2 as [|z l2 _] using rev_ind.
  - intros [-> [= ->]]%app_inj_tail. by left.
  - rewrite app_comm_cons app_assoc. intros [-> ->]%app_inj_tail. right. by exists l2.
Qed.

Section Inv.
Context (size : Z) (local_extents : bool) (qsort : list chunk_read_req -> list chunk_read_req).

(** Acknowledged synchronisations have been applied. *)
Definition resp_ok (T : trace) : Prop :=
  forall T1 r creq T2, T = T1 ++ EvRespond r creq UNIFYFS_SUCCESS :: T2 -> synced size r creq T1.

(** The results of requests are right. *)
Definition done_ok (T : trace) : Prop :=
  forall T1 r creq o out T2, T = T1 ++ EvDone r creq o out :: T2 ->
  exists T0 app cid, T0 ++ [EvStart r creq app cid o] `prefix_of` T1 /\
    client_post size local_extents qsort r o out (T0 ++ [EvStart r creq app cid o]) T1.

(** Clients make well-formed requests. *)
Definition starts_ok (T : trace) : Prop :=
  forall r creq app cid o, EvStart r creq app cid o ∈ T -> client_op_ok o.

Record trace_inv (next : nat) (T : trace) : Prop := {
  ti_ok : trace_ok T;
  ti_next : Forall (fun id => (id < next)%nat) (called T);
  ti_resp : resp_ok T;
  ti_done : done_ok T;
  ti_starts : starts_ok T;
}.

Definition msg_ok (T : trace) (m : message) : Prop :=
  req_ok (msg_body m) /\
  match msg_id m with
  | Some id => EvCall id (msg_dst m) (msg_body m) ∈ T
  | None => is_Some (bcast_root (msg_body m))
  end.

Definition reply_ok (T : trace) (x : nat * rpc_out) : Prop :=
  exists T1 dst req T2, T = T1 ++ EvCall x.1 dst req :: T2 /\ reply_fact qsort dst req x.2 T1 T.

Record net_ok (w : net) : Prop := {
  nk_trace : trace_inv (n_next w) (n_trace w);
  nk_nodes r : node_ok r (n_node w r) (n_trace w);
  nk_msgs : Forall (msg_ok (n_trace w)) (n_msgs w);
  nk_replies : Forall (reply_ok (n_trace w)) (n_replies w);
}.

Definition thread_ok {A} (r : Z) (t : thread A) (T : trace) (Q : A -> trace -> Prop) : Prop :=
  match t with
  | Running p => wp size qsort r p T Q
  | Waiting id k => exists T1 dst req T2, T = T1 ++ EvCall id dst req :: T2 /\
      (forall T', T1 `prefix_of` T' -> wp size qsort r (k CallFailed) T' Q) /\
      forall T' out, T1 `prefix_of` T' -> reply_fact qsort dst req out T1 T' -> wp size qsort r (k (CallOk out)) T' Q
  end.

Definition sm_ok (r : Z) (sm : sm_thread) (T : trace) : Prop :=
  Forall (queued_ok r T) (sm_batch sm) /\
  forall req t, sm_current sm = Some (req, t) ->
  exists T1, T1 `prefix_of` T /\ (forall id, req_handle req = Some id -> exists T2, T = T1 ++ EvCall id r (req_body req) :: T2) /\
    thread_ok r t T (fun out T' => forall o, out = Some o -> reply_fact qsort r (req_body req) o T1 T').

Definition client_ok (ct : client_thread) (T : trace) : Prop :=
  exists T0 app cid, T0 ++ [EvStart (ct_rank ct) (ct_creq ct) app cid (ct_op ct)] `prefix_of` T /\
    thread_ok (ct_rank ct) (ct_thread ct) T
      (fun out T' => client_post size local_extents qsort (ct_rank ct) (ct_op ct) out
        (T0 ++ [EvStart (ct_rank ct) (ct_creq ct) app cid (ct_op ct)]) T').

Record cluster_ok (c : cluster) : Prop := {
  ck_net : net_ok (c_net c);
  ck_sm r : sm_ok r (c_sm c r) (n_trace (c_net c));
  ck_clients : Forall (fun ct => client_ok ct (n_trace (c_net c))) (c_clients c);
}.

(** ** Growing traces *)

Lemma msg_ok_mono T T' m : T `prefix_of` T' -> msg_ok T m -> msg_ok T' m.
Proof. intros Hp [H1 H2]. split; [done|]. destruct (msg_id m); [by eapply prefix_elem|done]. Qed.

Lemma reply_ok_mono T T' x : T `prefix_of` T' -> reply_ok T x -> reply_ok T' x.
Proof.
  intros Hp (T1 & dst & req & T2 & -> & Hf). pose proof Hp as [k ->]. exists T1, dst, req, (T2 ++ k).
  split; [by rewrite -app_assoc|]. by eapply reply_fact_mono.
Qed.

Lemma thread_ok_mono {A} r (t : thread A) T T' Q : T `prefix_of` T' -> thread_ok r t T Q -> thread_ok r t T' Q.
Proof.
  intros Hp. destruct t as [p|id k]; simpl; [by apply wp_mono|].
  intros (T1 & dst & req & T2 & -> & H). destruct Hp as [u ->]. exists T1, dst, req, (T2 ++ u). split; [by rewrite -app_assoc|done].
Qed.

Lemma sm_ok_mono r sm T T' : T `prefix_of` T' -> sm_ok r sm T -> sm_ok r sm T'.
Proof.
  intros Hp [Hb Hc]. split; [eapply Forall_impl; [exact Hb|]; intros q; by apply queued_ok_mono|].
  intros req t Ht. destruct (Hc req t Ht) as (T1 & H1 & H2 & H3). exists T1. split_and!; [by etrans| |by eapply thread_ok_mono].
  intros id Hid. destruct (H2 id Hid) as [T2 ->]. destruct Hp as [u ->]. exists (T2 ++ u). by rewrite -app_assoc.
Qed.

Lemma client_ok_mono ct T T' : T `prefix_of` T' -> client_ok ct T -> client_ok ct T'.
Proof.
  intros Hp (T0 & app & cid & H1 & H2). exists T0, app, cid. split; [by etrans|]. by eapply thread_ok_mono.
Qed.

Lemma called_app T U : called (T ++ U) = called T ++ called U.
Proof. apply omap_app. Qed.

Lemma started_app T U : started (T ++ U) = started T ++ started U.
Proof. apply omap_app. Qed.

(** An event that is neither a request nor a call nor a response. *)
Lemma trace_inv_snoc next T ev :
  trace_inv next T ->
  NoDup (started (T ++ [ev])) -> NoDup (called (T ++ [ev])) -> Forall (fun id => (id < next)%nat) (called (T ++ [ev])) ->
  (forall r creq, ev = EvRespond r creq UNIFYFS_SUCCESS -> synced size r creq T) ->
  (forall r creq o out, ev = EvDone r creq o out -> exists T0 app cid, T0 ++ [EvStart r creq app cid o] `prefix_of` T /\
    client_post size local_extents qsort r o out (T0 ++ [EvStart r creq app cid o]) T) ->
  (forall r creq app cid o, ev = EvStart r creq app cid o -> client_op_ok o) ->
  trace_inv next (T ++ [ev]).
Proof.
  intros [Hok Hn Hr Hd Hs] H1 H2 H3 Hresp Hdone Hst. split; [by split|done| | |].
  - intros T1 r creq T2 [(-> & He & ->)|(T3 & -> & ->)]%app_snoc_split; [by apply Hresp|by eapply Hr].
  - intros T1 r creq o out T2 [(-> & He & ->)|(T3 & -> & ->)]%app_snoc_split; [by eapply Hdone|by eapply Hd].
  - intros r creq app cid o [?|He%list_elem_of_singleton]%elem_of_app; [by eapply Hs|by eapply Hst].
Qed.

(** The events of the operations of the server [r]. *)
Definition local_event (r : Z) (ev : event) : Prop :=
  match ev with
  | EvStart _ _ _ _ _ | EvDone _ _ _ _ | EvCall _ _ _ => False
  | EvCreate r' _ _ | EvAdd r' _ _ | EvTruncate r' _ _ | EvUnlink r' _ | EvLaminate r' _ | EvRespond r' _ _ => r' = r
  end.

Lemma op_events_local {B} r (o : op B) x : op_events r o x = [] \/ exists ev, op_events r o x = [ev] /\ local_event r ev.
Proof.
  assert (forall rc ev, local_event r ev -> on_success rc ev = [] \/ exists ev', on_success rc ev = [ev'] /\ local_event r ev') as H.
  { intros rc ev Hev. unfold on_success. destruct (_ =? _); [right; by exists ev|by left]. }
  destruct o; simpl; try (by left); try (by apply H).
  - destruct (_ =? _); [by apply H|]. destruct (_ =? _); [by apply H|by left].
  - right. by eexists.
Qed.

Lemma respond_event {B} r (o : op B) x creq T :
  op_pre size r o T -> op_events r o x = [EvRespond r creq UNIFYFS_SUCCESS] -> synced size r creq T.
Proof.
  destruct o; simpl; unfold on_success; intros Hpre; repeat destruct (_ =? _); try done. intros [= <- Hret]. by apply Hpre.
Qed.

Lemma net_ok_silent w r nd : net_ok w -> node_ok r nd (n_trace w) -> net_ok (net_do r nd [] w).
Proof.
  intros [Ht Hn Hm Hr] Hnd. split; simpl; rewrite ?app_nil_r; try done.
  intros r'. destruct (decide (r' = r)) as [->|Hne]; [by rewrite fn_lookup_insert|]. by rewrite fn_lookup_insert_ne.
Qed.

Lemma local_event_other r r' ev g : local_event r ev -> r' <> r -> file_event r' g ev = false.
Proof. intros Hl Hne. destruct ev; simpl in *; try done; subst; apply andb_false_iff; left; by apply Z.eqb_neq. Qed.

Lemma net_ok_event w r nd ev :
  net_ok w -> node_ok r nd (n_trace w ++ [ev]) -> local_event r ev ->
  (forall creq, ev = EvRespond r creq UNIFYFS_SUCCESS -> synced size r creq (n_trace w)) ->
  net_ok (net_do r nd [ev] w).
Proof.
  intros [Ht Hn Hm Hr] Hnd Hl Hresp. assert (n_trace w `prefix_of` n_trace w ++ [ev]) as Hp by by eexists.
  assert (started [ev] = [] /\ called [ev] = []) as [Hs Hc] by by destruct ev.
  split; simpl.
  - pose proof Ht as [[H1 H2] H3 _ _ _]. apply trace_inv_snoc; [done|..]; rewrite ?started_app ?called_app ?Hs ?Hc ?app_nil_r //.
    + intros r' creq ->. simpl in Hl. subst r'. by apply Hresp.
    + intros r' creq o out ->. done.
    + intros r' creq app cid o ->. done.
  - intros r'. destruct (decide (r' = r)) as [->|Hne]; [by rewrite fn_lookup_insert|]. rewrite fn_lookup_insert_ne //.
    apply node_ok_mono; [|done]. intros g. repeat constructor. by eapply local_event_other.
  - eapply Forall_impl; [exact Hm|]. intros. by eapply msg_ok_mono.
  - eapply Forall_impl; [exact Hr|]. intros. by eapply reply_ok_mono.
Qed.

(** An event of a request or a call, which changes no server. *)
Lemma net_ok_quiet w next ev nodes msgs replies :
  net_ok w -> trace_inv next (n_trace w ++ [ev]) -> (forall r g, file_event r g ev = false) ->
  nodes = n_node w -> replies = n_replies w -> Forall (msg_ok (n_trace w ++ [ev])) msgs ->
  net_ok (Net nodes msgs replies next (n_trace w ++ [ev])).
Proof.
  intros [Ht Hn Hm Hr] Hti Hfe -> -> Hms. assert (n_trace w `prefix_of` n_trace w ++ [ev]) as Hp by by eexists.
  split; simpl; [done| |done|].
  - intros r. apply node_ok_mono; [|done]. intros g. by repeat constructor.
  - eapply Forall_impl; [exact Hr|]. intros. by eapply reply_ok_mono.
Qed.

Lemma net_ok_call w dst req : net_ok w -> req_ok req -> net_ok (net_call dst req w).
Proof.
  intros Hok Hreq. pose proof Hok as [[[H1 H2] H3 H4 H5 H6] Hn Hm Hr].
  set (ev := EvCall (n_next w) dst req). assert (n_trace w `prefix_of` n_trace w ++ [ev]) as Hp by by eexists.
  assert (Forall (fun id => (id < S (n_next w))%nat) (called (n_trace w))) as H3' by (eapply Forall_impl; [exact H3|]; simpl; lia).
  apply net_ok_quiet with (w := w); try done.
  - apply trace_inv_snoc; rewrite ?started_app ?called_app /= ?app_nil_r //.
    + apply NoDup_app. split_and!; [done| |apply NoDup_singleton]. intros id Hid Hin.
      apply list_elem_of_singleton in Hin as ->. rewrite Forall_forall in H3. apply H3 in Hid. lia.
    + apply Forall_app. split; [done|]. repeat constructor.
  - apply Forall_app. split; [eapply Forall_impl; [exact Hm|]; intros; by eapply msg_ok_mono|].
    repeat constructor; simpl; [done|]. set_solver.
Qed.

(** A call is made once. *)
Lemma call_unique T T1 T2 T1' T2' id dst req dst' req' :
  NoDup (called T) -> T = T1 ++ EvCall id dst req :: T2 -> T = T1' ++ EvCall id dst' req' :: T2' ->
  T1 = T1' /\ dst = dst' /\ req = req'.
Proof.
  intros Hnd -> Heq. revert T1' Heq Hnd. induction T1 as [|e T1 IH]; intros [|e' T1'] Heq Hnd; simplify_eq/=.
  - done.
  - rewrite called_app /= in Hnd. apply NoDup_cons in Hnd as [Hnd _]. set_solver.
  - rewrite called_app /= in Hnd. apply NoDup_cons in Hnd as [Hnd _]. set_solver.
  - destruct (IH T1') as (-> & -> & ->); [done| |done]. destruct e'; simpl in Hnd; try done. by apply NoDup_cons in Hnd as [_ ?].
Qed.

Lemma net_ok_replies w rs : net_ok w -> Forall (reply_ok (n_trace w)) rs -> net_ok (net_replies rs w).
Proof. by intros [] ?. Qed.

Lemma net_ok_msgs w ms : net_ok w -> Forall (msg_ok (n_trace w)) ms -> net_ok (net_msgs ms w).
Proof. by intros [] ?. Qed.

Lemma thread_step_ok {A} lossy r w (t : thread A) w' t' Q :
  thread_step size qsort lossy r w t w' t' -> net_ok w -> thread_ok r t (n_trace w) Q ->
  net_ok w' /\ thread_ok r t' (n_trace w') Q /\ n_trace w `prefix_of` n_trace w'.
Proof.
  destruct 1 as [B inp o k w nd x Hop|dst req k w|dst req k w _|id out k w rs1 rs2 Hrs|id k w _|req k w fwd progress m sent ret Hb];
    intros Hok Hth; cbn [thread_ok] in Hth; pose proof Hok as [Htr Hn Hm Hr].
  - destruct (Hth (n_trace w)) as [Hpre Hk]; [done|apply Htr|].
    pose proof (exec_op_ok size qsort r _ _ _ _ _ _ (Hn r) Hpre Hop) as [Hnd Hfact].
    split_and!; [|by apply Hk|by eexists]. destruct (op_events_local r o x) as [He|(ev & He & Hl)]; rewrite He in Hnd *.
    + apply net_ok_silent; [done|]. by rewrite app_nil_r in Hnd.
    + apply net_ok_event; try done. intros creq ->. by eapply respond_event.
  - destruct Hth as [Hreq Hk]. split_and!; [by apply net_ok_call| |by eexists].
    destruct (Hk (n_trace w)) as [H1 H2]; [done|]. exists (n_trace w), dst, req, []. by split_and!.
  - destruct Hth as [Hreq Hk]. split_and!; [done| |done]. by apply (Hk (n_trace w)).
  - rewrite Hrs in Hr. apply Forall_app in Hr as [Hr1 Hr2]. inversion Hr2 as [|? ? Hx Hr3]; subst.
    split_and!; [apply net_ok_replies; [done|by apply Forall_app]| |done].
    destruct Hth as (T1 & dst & req & T2 & HT & _ & Hk). destruct Hx as (T1' & dst' & req' & T2' & HT' & Hf). simpl in *.
    destruct (call_unique _ _ _ _ _ _ _ _ _ _ (tr_called _ (ti_ok _ _ Htr)) HT HT') as (-> & -> & ->).
    apply Hk; [|done]. rewrite HT. by eexists.
  - destruct Hth as (T1 & dst & req & T2 & HT & Hf & _). split_and!; [done| |done]. apply Hf. rewrite HT. by eexists.
  - destruct Hth as (Hreq & Hroot & Hk). simpl. rewrite app_nil_r. split_and!; [|by apply Hk|done].
    apply net_ok_msgs.
    + apply net_ok_silent; [done|]. apply node_ok_mem; [done|]. by eapply start_broadcast_le.
    + simpl. rewrite app_nil_r. apply Forall_app. split; [done|]. apply Forall_fmap, Forall_true. intros d. by split.
Qed.

(** ** Steps of the servers *)

Lemma take_requests_ok r nd T nd' reqs :
  node_ok r nd T -> take_service_requests nd = LRet (nd', reqs) -> node_ok r nd' T /\ Forall (queued_ok r T) reqs.
Proof.
  intros Hok. unfold take_service_requests. destruct (_ =? 0); [by intros [= <- <-]|].
  pose proof (arraylist_create_le (A := server_rpc_req_t) (sv_mem (nd_sv nd)) 0) as Hm.
  pose proof (arraylist_create_elems (sv_mem (nd_sv nd)) 0 (A := server_rpc_req_t)) as He.
  set (queue := match nd_svc_reqs nd with None => _ | Some _ => _ end).
  assert (forall reqs', queue = LRet reqs' -> Forall (queued_ok r T) reqs') as Hq.
  { intros reqs'. unfold queue. destruct (nd_svc_reqs nd) as [l|] eqn:Hl; [|by intros [= <-]].
    destruct (mapM id (al_items l)) as [rs|] eqn:Hmap; [|done]. intros [= <-]. apply mapM_Some_1 in Hmap.
    apply Forall_forall. intros q Hq. apply list_elem_of_lookup in Hq as [i Hi].
    destruct (Forall2_lookup_r _ _ _ _ _ Hmap Hi) as (oq & Hoq & Heq). unfold id in Heq. subst oq.
    apply (no_queue _ _ _ Hok l); [done|]. apply list_elem_of_lookup_2 in Hoq. unfold al_items in Hoq.
    apply elem_of_take in Hoq as (j & Hj & _). by eapply list_elem_of_lookup_2. }
  destruct queue as [rs| |]; [|done..]. specialize (Hq rs eq_refl). simpl.
  destruct (arraylist_create _ 0) as [m l']. intros [= <- <-]. split; [|done]. simpl in *.
  destruct (node_ok_mem r nd T m Hok Hm). split; try done. simpl. intros l q -> Hin. by apply He in Hin.
Qed.

(** A step of a net whose trace grows keeps what is known of the threads. *)
Lemma cluster_ok_upd w sm cts w' sm' cts' :
  cluster_ok (Cluster w sm cts) -> net_ok w' -> n_trace w `prefix_of` n_trace w' ->
  (forall r, sm' r = sm r \/ sm_ok r (sm' r) (n_trace w')) ->
  (Forall (fun ct => ct ∈ cts \/ client_ok ct (n_trace w')) cts') ->
  cluster_ok (Cluster w' sm' cts').
Proof.
  intros [_ Hs Hc] Hw Hp Hsm Hcts. split; simpl in *; [done| |].
  - intros r. destruct (Hsm r) as [->|?]; [|done]. by eapply sm_ok_mono.
  - eapply Forall_impl; [exact Hcts|]. intros ct [Hin|?]; [|done]. rewrite Forall_forall in Hc. eapply client_ok_mono; [done|by apply Hc].
Qed.

Lemma all_in (cts : list client_thread) (P : client_thread -> Prop) cts' : cts' ⊆ cts -> Forall (fun ct => ct ∈ cts \/ P ct) cts'.
Proof. intros H. apply Forall_forall. intros ct Hct. left. by apply H. Qed.

Lemma sm_upd (sm : Z -> sm_thread) r x (P : Z -> sm_thread -> Prop) :
  P r x -> forall r', <[r := x]> sm r' = sm r' \/ P r' (<[r := x]> sm r').
Proof.
  intros H r'. destruct (decide (r' = r)) as [->|Hne]; [right; by rewrite fn_lookup_insert|left; by rewrite fn_lookup_insert_ne].
Qed.

Lemma start_ok w r creq app cid o :
  net_ok w -> creq ∉ started (n_trace w) -> client_op_ok o -> net_ok (net_event (EvStart r creq app cid o) w).
Proof.
  intros Hok Hfresh Hop. pose proof Hok as [[[H1 H2] H3 H4 H5 H6] Hn Hm Hr].
  assert (n_trace w `prefix_of` n_trace w ++ [EvStart r creq app cid o]) as Hp by by eexists.
  apply net_ok_quiet with (w := w); try done.
  - apply trace_inv_snoc; rewrite ?started_app ?called_app /= ?app_nil_r //.
    + apply NoDup_app. split_and!; [done|set_solver|apply NoDup_singleton].
    + by intros ? ? ? ? ? [= _ _ _ _ <-].
  - eapply Forall_impl; [exact Hm|]. intros. by eapply msg_ok_mono.
Qed.

Lemma done_event_ok w ct out :
  net_ok w -> client_ok ct (n_trace w) -> ct_thread ct = Running (Ret out) ->
  net_ok (net_event (EvDone (ct_rank ct) (ct_creq ct) (ct_op ct) out) w).
Proof.
  intros Hok Hct Hth. pose proof Hok as [[[H1 H2] H3 H4 H5 H6] Hn Hm Hr].
  assert (n_trace w `prefix_of` n_trace w ++ [EvDone (ct_rank ct) (ct_creq ct) (ct_op ct) out]) as Hp by by eexists.
  apply net_ok_quiet with (w := w); try done.
  - apply trace_inv_snoc; rewrite ?started_app ?called_app /= ?app_nil_r //.
    intros r creq o out' [= <- <- <- <-]. destruct Hct as (T0 & app & cid & HT & Hpost). exists T0, app, cid. split; [done|].
    rewrite Hth in Hpost. by apply Hpost.
  - eapply Forall_impl; [exact Hm|]. intros. by eapply msg_ok_mono.
Qed.

Lemma request_start_ok r req w :
  queued_ok r (n_trace w) req ->
  sm_ok r (SmThread [] (Some (req, Running (process_service_request size r (req_body req))))) (n_trace w).
Proof.
  intros [Hreq Hh]. split; [done|]. simpl. intros ? ? [= <- <-].
  destruct (req_handle req) as [id|] eqn:Hid.
  - destruct (list_elem_of_split _ _ (Hh id eq_refl)) as (T1 & T2 & HT). exists T1. split_and!.
    + rewrite HT. by eexists.
    + intros ? [= <-]. by exists T2.
    + apply process_service_request_wp; [done|]. rewrite HT. by eexists.
  - exists []. split_and!; [apply prefix_nil|done|]. apply process_service_request_wp; [done|apply prefix_nil].
Qed.

Lemma sm_ok_batch r reqs c T : Forall (queued_ok r T) reqs -> sm_ok r (SmThread [] c) T -> sm_ok r (SmThread reqs c) T.
Proof. intros H [_ Hc]. by split. Qed.

Lemma replies_add w rs : net_ok w -> Forall (reply_ok (n_trace w)) rs -> net_ok (net_replies (n_replies w ++ rs) w).
Proof. intros Hok Hrs. apply net_ok_replies; [done|]. apply Forall_app. split; [apply Hok|done]. Qed.

Lemma sm_reply_ok r reqs req out w :
  sm_ok r (SmThread reqs (Some (req, Running (Ret out)))) (n_trace w) ->
  Forall (reply_ok (n_trace w)) (reply_to (req_handle req) out).
Proof.
  intros [_ Hc]. destruct (Hc req _ eq_refl) as (T1 & HT1 & Hid & Hth). simpl in Hth.
  destruct (req_handle req) as [id|]; [|constructor]. destruct out as [o|]; [|constructor]. repeat constructor.
  destruct (Hid id eq_refl) as [T2 HT]. exists T1, r, (req_body req), T2. split; [done|]. by apply (Hth (n_trace w)).
Qed.

Lemma error_reply_ok w m out :
  msg_ok (n_trace w) m -> (forall o, out = Some o -> out_ret o <> UNIFYFS_SUCCESS) ->
  Forall (reply_ok (n_trace w)) (reply_to (msg_id m) out).
Proof.
  intros [_ Hm] Herr. destruct (msg_id m) as [id|]; [|constructor]. destruct out as [o|]; [|constructor]. repeat constructor.
  destruct (list_elem_of_split _ _ Hm) as (T1 & T2 & HT). exists T1, (msg_dst m), (msg_body m), T2. split; [done|].
  apply reply_fact_error. by apply Herr.
Qed.

Lemma deliver_ok w ms1 msg ms2 env nd sent out :
  net_ok w -> n_msgs w = ms1 ++ msg :: ms2 ->
  receive env (n_node w (msg_dst msg)) (msg_body msg) (msg_handle msg) = LRet (nd, sent, out) ->
  net_ok (net_replies (n_replies w ++ reply_to (msg_id msg) out)
    (net_msgs (ms1 ++ ms2 ++ ((fun d => Msg d (msg_body msg) None) <$> sent)) (net_do (msg_dst msg) nd [] w))).
Proof.
  intros Hok Hms Hrec. pose proof (nk_msgs _ Hok) as Hm. rewrite Hms in Hm. apply Forall_app in Hm as [Hm1 Hm2].
  inversion Hm2 as [|? ? Hmsg Hm3]; subst. pose proof Hmsg as [Hreq Hid].
  eapply receive_ok in Hrec as (Hnd & Herr & Hsent); [| |exact Hreq|]; [|apply Hok|].
  2:{ intros Hb. unfold msg_handle. destruct (msg_id msg); [done|]. rewrite Hb in Hid. by destruct Hid. }
  set (w1 := net_do _ _ _ _). assert (net_ok w1) as Hok1 by by apply net_ok_silent.
  assert (n_trace w1 = n_trace w) as HT by apply app_nil_r.
  set (w2 := net_msgs _ w1). assert (net_ok w2) as Hok2.
  { apply net_ok_msgs; [done|]. rewrite HT !Forall_app. split_and!; [done..|]. apply Forall_fmap, Forall_forall.
    intros d Hd. split; [done|]. apply Hsent. by intros ->; apply not_elem_of_nil in Hd. }
  apply (replies_add w2); [done|]. rewrite /= app_nil_r. by apply error_reply_ok.
Qed.

Lemma client_step_ok lossy w ct w' t' :
  thread_step size qsort lossy (ct_rank ct) w (ct_thread ct) w' t' -> net_ok w -> client_ok ct (n_trace w) ->
  net_ok w' /\ n_trace w `prefix_of` n_trace w' /\ client_ok (ct_set t' ct) (n_trace w').
Proof.
  intros Hst Hw (T0 & app & cid & HT & Hth). eapply thread_step_ok in Hst as (? & ? & ?); [|done|exact Hth].
  split_and!; [done..|]. exists T0, app, cid. split; [by etrans|done].
Qed.

Lemma sm_step_ok lossy r w reqs req t w' t' :
  thread_step size qsort lossy r w t w' t' -> net_ok w -> sm_ok r (SmThread reqs (Some (req, t))) (n_trace w) ->
  net_ok w' /\ n_trace w `prefix_of` n_trace w' /\ sm_ok r (SmThread reqs (Some (req, t'))) (n_trace w').
Proof.
  intros Hst Hw Hsm. pose proof Hsm as [Hb Hc]. destruct (Hc req t eq_refl) as (T1 & HT1 & Hid & Hth).
  eapply thread_step_ok in Hst as (? & ? & Hp); [|done|exact Hth]. split_and!; [done..|].
  split; [by apply (sm_ok_mono _ _ _ _ Hp Hsm)|]. intros ? ? [= <- <-]. exists T1. split_and!; [by etrans| |done].
  intros id Hh. destruct (Hid id Hh) as [T2 HT]. destruct Hp as [u ->]. exists (T2 ++ u). by rewrite HT -app_assoc.
Qed.

Lemma cluster_step_ok lossy c c' : cluster_step size local_extents qsort lossy c c' -> cluster_ok c -> cluster_ok c'.
Proof.
  destruct 1 as [r creq app cid o w sm cts Hr Hfr Hop|w sm cts1 ct cts2 w' t' Hst|w sm cts1 ct cts2 out Hth
    |r nd reqs w sm cts Hr Hsm Htk|r req reqs w sm cts Hr Hsm|r reqs req t w sm cts w' t' Hr Hsm Hst|r reqs req out w sm cts Hr Hsm
    |env ms1 msg ms2 nd sent out w sm cts Hms Hd Hrec|ms1 msg ms2 w sm cts _ Hms|rs1 x rs2 w sm cts _ Hrs|r apps w sm cts];
    intros Hok; pose proof Hok as [Hw Hs Hc]; simpl in Hw, Hs, Hc; apply (cluster_ok_upd _ _ _ _ _ _ Hok);
    try (by left); try (by apply all_in); try (simpl; by rewrite ?app_nil_r).
  - by apply start_ok.
  - by eexists.
  - apply Forall_app. split; [apply all_in; done|]. apply Forall_singleton. right. exists (n_trace w), app, cid. split; [done|].
    simpl. apply process_client_request_wp; [set_solver|done].
  - apply Forall_app in Hc as [_ [Hct _]%Forall_cons]. by eapply client_step_ok in Hst as (? & _).
  - apply Forall_app in Hc as [_ [Hct _]%Forall_cons]. by eapply client_step_ok in Hst as (_ & ? & _).
  - apply Forall_app in Hc as [_ [Hct _]%Forall_cons]. eapply client_step_ok in Hst as (_ & _ & ?); [|done..].
    rewrite Forall_app Forall_cons. split_and!; [apply all_in; set_solver|by right|apply all_in; set_solver].
  - apply Forall_app in Hc as [_ [Hct _]%Forall_cons]. by apply done_event_ok.
  - by eexists.
  - apply all_in. set_solver.
  - eapply take_requests_ok in Htk as [? _]; [by apply net_ok_silent|apply Hw].
  - eapply take_requests_ok in Htk as [_ Hq]; [|apply Hw]. simpl. rewrite app_nil_r.
    apply (sm_upd _ _ _ (fun r x => sm_ok r x (n_trace w))). by split.
  - pose proof (Hs r) as Hr'. rewrite Hsm in Hr'. destruct Hr' as [Hb _]. apply Forall_cons in Hb as [Hq Hb].
    apply (sm_upd _ _ _ (fun r x => sm_ok r x (n_trace w))). apply sm_ok_batch; [done|]. by apply request_start_ok.
  - specialize (Hs r). rewrite Hsm in Hs. by eapply sm_step_ok in Hst as (? & _).
  - specialize (Hs r). rewrite Hsm in Hs. by eapply sm_step_ok in Hst as (_ & ? & _).
  - specialize (Hs r). rewrite Hsm in Hs. eapply sm_step_ok in Hst as (_ & _ & ?); [|done..].
    by apply (sm_upd _ _ _ (fun r x => sm_ok r x (n_trace w'))).
  - specialize (Hs r). rewrite Hsm in Hs. apply replies_add; [done|]. by eapply sm_reply_ok.
  - specialize (Hs r). rewrite Hsm in Hs. apply (sm_upd _ _ _ (fun r x => sm_ok r x (n_trace w))). destruct Hs. by split.
  - by eapply deliver_ok.
  - apply net_ok_msgs; [done|]. pose proof (nk_msgs _ Hw) as Hm. rewrite Hms Forall_app Forall_cons in Hm. apply Forall_app. tauto.
  - apply net_ok_replies; [done|]. pose proof (nk_replies _ Hw) as Hr. rewrite Hrs Forall_app Forall_cons in Hr. apply Forall_app. tauto.
  - apply net_ok_silent; [done|]. apply node_ok_sv; [apply Hw| |done|done].
    pose proof (no_wf _ _ _ (nk_nodes _ Hw r)) as Hwf. by destruct Hwf.
Qed.

Lemma node_init_ok m r apps : mem_plenty m -> node_ok r (node_init size m r apps) [].
Proof.
  intros Hm. unfold node_init. pose proof (arraylist_create_le (A := server_rpc_req_t) m 0) as Hm1.
  pose proof (arraylist_create_elems m 0 (A := server_rpc_req_t)) as He.
  destruct (arraylist_create m 0) as [m1 reqs]. pose proof (arraylist_create_le (A := Z) m1 256) as Hm2.
  destruct (arraylist_create m1 256) as [m2 mgets]. simpl in *. split; simpl.
  - apply server_init_wf.
  - apply (transitivity Hm1 Hm2), Hm.
  - intros g. by rewrite /sv_map /it_map lookup_empty.
  - intros g ino. by rewrite /sv_map /it_map lookup_empty.
  - intros g ino. by rewrite /sv_map /it_map lookup_empty.
  - intros l q -> Hin. by apply He in Hin.
Qed.

Lemma cluster_init_ok m apps : (forall r, mem_plenty (m r)) -> cluster_ok (cluster_init size m apps).
Proof.
  intros Hm. split; simpl; [|done|constructor]. split; simpl; [|intros r; by apply node_init_ok|constructor..].
  split; [split; constructor|constructor| | |]; [by intros []..|]. by intros ? ? ? ? ? ?%not_elem_of_nil.
Qed.

Lemma cluster_reach_ok c : cluster_reach size local_extents qsort c -> cluster_ok c.
Proof.
  intros (m & apps & Hm & Hs). apply cluster_init_ok with (apps := apps) in Hm. revert Hm.
  induction Hs as [|c1 c2 c3 Hst _ IH]; intros Hok; [done|]. apply IH. by eapply cluster_step_ok.
Qed.
End Inv.
