(* ===== verification/ClusterRun.v ===== *)
(** * Runs of the servers

    A scheduler for the transition system of [Cluster] that can be evaluated:
    a schedule says which request, thread or message is next, and [run_schedule] makes
    the step if it is possible.  Calls succeed, and each operation gets the
    same time and settings.  Every schedule is a run of the system, so that
    states of examples are reachable by evaluation. *)

From stdpp Require Import functions.
From S2P Require Import Prelude.
From S2P Require Import ExtentTree.
From S2P Require Import LogIO.
From S2P Require Import ArrayList.
From S2P Require Import Meta.
From S2P Require Import AppTable.
From S2P Require Import Inode.
From S2P Require Import Rpc.
From S2P Require Import ServiceMgr.
From S2P Require Import RpcHandlers.
From S2P Require Import RequestMgr.
From S2P Require Import Cluster.

#[export] Instance index_ok_dec ix : Decision (index_ok ix).
Proof. unfold index_ok. apply _. Defined.

#[export] Instance read_ok_dec e : Decision (read_ok e).
Proof. unfold read_ok. apply _. Defined.

#[export] Instance client_op_ok_dec o : Decision (client_op_ok o).
Proof. destruct o; simpl; apply _. Defined.

(** What the next step is about. *)
Inductive sched :=
| SRequest (r creq app_id client_id : Z) (o : client_op)
| SClient (i : nat)       (* a step of the i-th request in progress *)
| SServer (r : Z)         (* a step of the service manager of r *)
| SDeliver (i : nat)      (* the arrival of the i-th message *)
| SApps (r : Z) (apps : app_table).

Definition run_input : op_input := OpInput 0 false true.
Definition run_env : handler_env := HandlerEnv true true [] (replicate 8 true).

Section Run.
Context (size : Z) (local_extents : bool) (qsort : list chunk_read_req -> list chunk_read_req).

(** A reply, with the others. *)
Fixpoint take_reply (id : nat) (rs : list (nat * rpc_out)) : option (rpc_out * list (nat * rpc_out)) :=
  match rs with
  | [] => None
  | (id', out) :: rs =>
      if bool_decide (id' = id) then Some (out, rs)
      else '(o, rs') ← take_reply id rs; Some (o, (id', out) :: rs')
  end.

Definition run_thread {A} (r : Z) (w : net) (t : thread A) : option (net * thread A) :=
  match t with
  | Running (Ret _) => None
  | Running (Do o k) =>
      match exec_op qsort run_input (n_node w r) o with
      | LRet (nd, x) => Some (net_do r nd (op_events r o x) w, Running (k x))
      | _ => None
      end
  | Running (Forward dst req k) => Some (net_call dst req w, Waiting (n_next w) k)
  | Running (Broadcast req k) =>
      let '(m, sent, ret) := start_broadcast (sv_mem (nd_sv (n_node w r))) r size (replicate 8 true) true in
      Some (net_msgs (n_msgs w ++ ((fun d => Msg d req None) <$> sent)) (net_do r (nd_set_mem m (n_node w r)) [] w),
        Running (k ret))
  | Waiting id k => '(out, rs) ← take_reply id (n_replies w); Some (net_replies rs w, Running (k (CallOk out)))
  end.

Definition run_client (i : nat) (c : cluster) : option cluster :=
  ct ← c_clients c !! i;
  let before := take i (c_clients c) in
  let after := drop (S i) (c_clients c) in
  match ct_thread ct with
  | Running (Ret out) =>
      Some (Cluster (net_event (EvDone (ct_rank ct) (ct_creq ct) (ct_op ct) out) (c_net c)) (c_sm c) (before ++ after))
  | t => '(w, t') ← run_thread (ct_rank ct) (c_net c) t; Some (Cluster w (c_sm c) (before ++ ct_set t' ct :: after))
  end.

Definition run_server (r : Z) (c : cluster) : option cluster :=
  let w := c_net c in
  match c_sm c r with
  | SmThread [] None =>
      match take_service_requests (n_node w r) with
      | LRet (nd, reqs) => Some (Cluster (net_do r nd [] w) (<[r := SmThread reqs None]> (c_sm c)) (c_clients c))
      | _ => None
      end
  | SmThread (req :: reqs) None =>
      Some (Cluster w (<[r := SmThread reqs (Some (req, Running (process_service_request size r (req_body req))))]> (c_sm c))
        (c_clients c))
  | SmThread reqs (Some (req, Running (Ret out))) =>
      Some (Cluster (net_replies (n_replies w ++ reply_to (req_handle req) out) w) (<[r := SmThread reqs None]> (c_sm c)) (c_clients c))
  | SmThread reqs (Some (req, t)) =>
      '(w, t') ← run_thread r w t; Some (Cluster w (<[r := SmThread reqs (Some (req, t'))]> (c_sm c)) (c_clients c))
  end.

Definition run_deliver (i : nat) (c : cluster) : option cluster :=
  let w := c_net c in
  msg ← n_msgs w !! i;
  match receive run_env (n_node w (msg_dst msg)) (msg_body msg) (msg_handle msg) with
  | LRet (nd, sent, out) =>
      Some (Cluster
        (net_replies (n_replies w ++ reply_to (msg_id msg) out)
          (net_msgs (take i (n_msgs w) ++ drop (S i) (n_msgs w) ++ ((fun d => Msg d (msg_body msg) None) <$> sent))
            (net_do (msg_dst msg) nd [] w)))
        (c_sm c) (c_clients c))
  | _ => None
  end.

Definition run_step (s : sched) (c : cluster) : option cluster :=
  let w := c_net c in
  match s with
  | SRequest r creq app_id client_id o =>
      if bool_decide (0 <= r < size /\ (creq ∉ started (n_trace w)) /\ client_op_ok o) then
        Some (Cluster (net_event (EvStart r creq app_id client_id o) w) (c_sm c)
          (c_clients c ++ [ClientThread r creq o (Running (process_client_request size local_extents r app_id client_id creq o))]))
      else None
  | SClient i => run_client i c
  | SServer r => if bool_decide (0 <= r < size) then run_server r c else None
  | SDeliver i =>
      msg ← n_msgs w !! i; if bool_decide (0 <= msg_dst msg < size) then run_deliver i c else None
  | SApps r apps =>
      Some (Cluster (net_do r (nd_set_sv (set_apps apps (nd_sv (n_node w r))) (n_node w r)) [] w) (c_sm c) (c_clients c))
  end.

Definition run_schedule (ss : list sched) (c : cluster) : cluster :=
  fold_left (fun c s => default c (run_step s c)) ss c.

(** ** Soundness *)

Lemma take_reply_split id rs out rs' :
  take_reply id rs = Some (out, rs') -> exists rs1 rs2, rs = rs1 ++ (id, out) :: rs2 /\ rs' = rs1 ++ rs2.
Proof.
  revert rs'. induction rs as [|[id' o] rs IH]; intros rs'; simpl; [done|]. case_bool_decide as Hid; [subst id'|].
  - intros [= <- <-]. by exists [], rs.
  - destruct (take_reply id rs) as [[o2 rs2]|]; [|done]. intros [= <- <-]. destruct (IH _ eq_refl) as (rs1 & rs3 & -> & ->).
    by exists ((id', o) :: rs1), rs3.
Qed.

Lemma run_thread_sound {A} lossy r w (t : thread A) w' t' :
  run_thread r w t = Some (w', t') -> thread_step size qsort lossy r w t w' t'.
Proof.
  destruct t as [[a|B o k|dst req k|req k]|id k]; simpl.
  - done.
  - destruct (exec_op _ _ _ _) as [[nd x]| |] eqn:He; [|done..]. intros [= <- <-]. by econstructor.
  - intros [= <- <-]. constructor.
  - destruct (start_broadcast _ _ _ _ _) as [[m sent] ret] eqn:Hb. intros [= <- <-]. by econstructor.
  - destruct (take_reply _ _) as [[out rs]|] eqn:Ht; [|done]. intros [= <- <-].
    apply take_reply_split in Ht as (rs1 & rs2 & Hrs & ->). by econstructor.
Qed.

Lemma run_client_sound lossy i c c' : run_client i c = Some c' -> cluster_step size local_extents qsort lossy c c'.
Proof.
  unfold run_client. destruct c as [w sm cts]. simpl. destruct (cts !! i) as [ct|] eqn:Hi; [|done]. simpl.
  pose proof (take_drop_middle _ _ _ Hi) as Hcts.
  assert (match run_thread (ct_rank ct) w (ct_thread ct) with Some (w, t') => Some (Cluster w sm (take i cts ++ ct_set t' ct :: drop (S i) cts)) | None => None end
    = Some c' -> cluster_step size local_extents qsort lossy (Cluster w sm cts) c') as Hstep.
  { destruct (run_thread _ _ _) as [[w' t']|] eqn:Ht; [|done]. intros [= <-]. rewrite -{1}Hcts.
    eapply cs_client_step. by apply run_thread_sound. }
  destruct (ct_thread ct) as [[a|B o k|dst req k|req k]|id k] eqn:Hth; try (rewrite ?Hth in Hstep; exact Hstep).
  intros [= <-]. rewrite -{1}Hcts. by eapply cs_client_done.
Qed.

Lemma run_server_sound lossy r c c' :
  0 <= r < size -> run_server r c = Some c' -> cluster_step size local_extents qsort lossy c c'.
Proof.
  intros Hr. unfold run_server. destruct c as [w sm cts]. simpl. destruct (sm r) as [reqs [[req t]|]] eqn:Hsm.
  - assert (match run_thread r w t with Some (w, t') => Some (Cluster w (<[r := SmThread reqs (Some (req, t'))]> sm) cts) | None => None end
      = Some c' -> cluster_step size local_extents qsort lossy (Cluster w sm cts) c') as Hstep.
    { destruct (run_thread _ _ _) as [[w' t']|] eqn:Ht; [|done]. intros [= <-].
      eapply cs_sm_step; [done|done|]. by apply run_thread_sound. }
    destruct reqs, t as [[a|B o k|dst rq k|rq k]|id k]; try exact Hstep; intros [= <-]; by eapply cs_sm_done.
  - destruct reqs as [|req reqs].
    + destruct (take_service_requests _) as [[nd reqs]| |] eqn:Ht; [|done..]. intros [= <-]. by econstructor.
    + intros [= <-]. by econstructor.
Qed.

Lemma run_step_sound lossy s c c' : run_step s c = Some c' -> cluster_step size local_extents qsort lossy c c'.
Proof.
  destruct c as [w sm cts], s as [r creq app cid o|i|r|i|r apps]; simpl.
  - case_bool_decide as Hd; [|done]. destruct Hd as (Hr & Hf & Ho). intros [= <-]. by constructor.
  - apply run_client_sound.
  - case_bool_decide; [|done]. by apply run_server_sound.
  - destruct (n_msgs w !! i) as [msg|] eqn:Hi; [|done]. simpl. case_bool_decide as Hd; [|done].
    unfold run_deliver. simpl. rewrite Hi /=. destruct (receive _ _ _ _) as [[[nd sent] out]| |] eqn:Hrec; [|done..].
    intros [= <-]. eapply cs_deliver; [|done|exact Hrec]. symmetry. by apply take_drop_middle.
  - intros [= <-]. constructor.
Qed.

Lemma run_sound lossy ss c : rtc (cluster_step size local_extents qsort lossy) c (run_schedule ss c).
Proof.
  revert c. induction ss as [|s ss IH]; intros c; simpl; [reflexivity|].
  destruct (run_step s c) as [c'|] eqn:Hs; simpl; [|apply IH]. eapply rtc_l; [by eapply run_step_sound|apply IH].
Qed.

(** Started servers with plenty of memory. *)
Definition run_init (apps : app_table) : cluster := cluster_init size (fun _ => Mem 1 []) (fun _ => apps).

Lemma run_reach apps ss : cluster_reach size local_extents qsort (run_schedule ss (run_init apps)).
Proof. exists (fun _ => Mem 1 []), (fun _ => apps). split; [intros r; constructor|apply run_sound]. Qed.
End Run.
