(* ===== verification/Consistency.v ===== *)
(** * What clients observe of files

    Corollaries of the invariant of the servers of a job ([ClusterProps]),
    about requests of clients and their results: synchronisations reach the
    owner of the file before they are acknowledged, lookups show the file as
    the owner has it at a moment between their start and their end, and
    together a client reads what another one has synchronised. *)

From stdpp Require Import functions sorting.
From S2P Require Import Prelude.
From S2P Require Import Extents.
From S2P Require Import RangeTree.
From S2P Require Import ExtentTree.
From S2P Require Import WriteIndex.
From S2P Require Import Meta.
From S2P Require Import InodeTree.
From S2P Require Import Inode.
From S2P Require Import InodeProps.
From S2P Require Import Rpc.
From S2P Require Import ServiceMgr.
From S2P Require Import RequestMgr.
From S2P Require Import Cluster.
From S2P Require Import ClusterInv.
From S2P Require Import ClusterProg.
From S2P Require Import ClusterProps.
From S2P Require Import ClusterRun.

(** ** Chunks *)

Lemma iv_lookup_perm (cs cs' : list chunk_read_req) b :
  Permutation cs' cs -> iv_sorted cs -> iv_lookup cs' b = iv_lookup cs b.
Proof.
  intros Hp Hs. destruct (iv_lookup cs' b) as [v|] eqn:H'.
  - apply iv_lookup_some in H' as (c & Hc & Hb & ->). symmetry. apply iv_lookup_elem; [done| |done]. by rewrite -Hp.
  - symmetry. apply iv_lookup_none, Forall_forall. intros c Hc Hb. rewrite -Hp in Hc.
    apply list_elem_of_split in Hc as (l1 & l2 & ->). rewrite iv_lookup_app /= in H'.
    rewrite (proj2 (iv_covers_true c b) Hb) in H'. by destruct (iv_lookup l1 b).
Qed.

(** The chunks tell where the bytes of the extent are on the server [r]. *)
Definition shows (r : Z) (e : unifyfs_extent_t) (chunks : list chunk_read_req) (T : trace) : Prop :=
  exists f, contents r (ue_gfid e) T = Some f /\
    (Z.of_nat (2 * extents_added r (ue_gfid e) T) < 4294967296 ->
     forall b, ue_offset e <= b < ue_offset e + ue_length e -> iv_lookup chunks b = f b).

Section Shows.
Context (qsort : list chunk_read_req -> list chunk_read_req).
Hypothesis qsort_permutes : forall l, Permutation (qsort l) l.
Hypothesis qsort_sorts : forall l, Sorted chunk_order (qsort l).

Lemma chunks_of_shows r e chunks T : read_ok e -> chunks_of qsort r [e] chunks T -> shows r e chunks T.
Proof.
  intros (He1 & He2 & He3) (sv & sv' & n & cov & Hwf & Hpl & Hrep & Hop).
  destruct (resolve_allocates _ _ _ _ _ _ _ _ Hop) as [_ Hex]. specialize (Hex eq_refl).
  apply Forall_singleton in Hex as [ino Hino]. rewrite lookup_map // in Hino.
  specialize (Hrep (ue_gfid e)). rewrite Hino in Hrep. destruct Hrep as (tree & f & Htree & Hc & Hf & Hn).
  assert (file_tree sv (ue_gfid e) = Some tree) as Hft by (unfold file_tree; by rewrite Hino).
  exists f. split; [done|]. intros Hsmall b Hb.
  destruct (resolve_extent_chunks_ok qsort qsort_permutes qsort_sorts sv [e] Hwf Hpl)
    as (sv2 & css & chunks2 & cov2 & Hop2 & _ & Hperm & _ & Hres & _).
  - apply Forall_singleton. by repeat (split; [done|]).
  - unfold total_nodes, file_nodes. simpl. rewrite Hft. lia.
  - rewrite Hop2 in Hop. injection Hop as _ _ -> _. inversion Hres as [|? cs ? ? Hcs Hnil]; subst. inversion Hnil; subst.
    rewrite /= app_nil_r in Hperm. rewrite (iv_lookup_perm cs) //; [apply Hcs|]. rewrite (re_lookup _ _ _ Hcs tree b Hft Hb). apply Hf.
Qed.
End Shows.

(** ** Bytes that later events keep *)

(** The event leaves the byte [b] of the file where it is, or maps it to
    [loc]. *)
Definition keeps (r gfid b : Z) (loc : extent_loc) (ev : event) : Prop :=
  match ev with
  | EvAdd r' g es => r' = r -> g = gfid -> Forall (fun e => em_start e <= b <= em_end e -> extent_byte_loc e b = loc) es
  | EvTruncate r' g size => r' = r -> g = gfid -> b < size
  | EvCreate r' g _ | EvUnlink r' g => ~ (r' = r /\ g = gfid)
  | _ => True
  end.

Lemma wi_last_keeps (es : list extent_metadata) b loc old :
  Forall (fun e => em_start e <= b <= em_end e -> extent_byte_loc e b = loc) es ->
  old = Some loc -> wi_last es b old = Some loc.
Proof.
  intros Hes. revert old. induction Hes as [|e es He _ IH]; intros old ->; [done|]. simpl. apply IH.
  destruct (_ && _) eqn:Hb; [|done]. zbool. rewrite He; [lia|done].
Qed.

Lemma wi_last_covered (es : list extent_metadata) b loc old :
  Forall (fun e => em_start e <= b <= em_end e -> extent_byte_loc e b = loc) es ->
  Exists (fun e => em_start e <= b <= em_end e) es -> wi_last es b old = Some loc.
Proof.
  intros Hes Hex. revert old. induction Hex as [e es Hb|e es _ IH]; intros old; apply Forall_cons in Hes as [He Hes]; simpl; [|by apply IH].
  apply wi_last_keeps; [done|]. rewrite (proj2 (andb_true_iff _ _)); [split; apply Z.leb_le; lia|]. f_equal. by apply He.
Qed.

Lemma contents_unborn r g b loc T U : contents r g T = None -> Forall (keeps r g b loc) U -> contents r g (T ++ U) = None.
Proof.
  intros Hc. induction U as [|ev U IH] using rev_ind; intros HU; [by rewrite app_nil_r|].
  rewrite Forall_app Forall_singleton in HU. destruct HU as [HU Hev]. rewrite app_assoc contents_app (IH HU).
  destruct ev; simpl in *; try done; destruct (_ && _) eqn:He; zbool; try done. by destruct Hev.
Qed.

Lemma contents_keeps r g b loc T U f0 f :
  contents r g T = Some f0 -> f0 b = Some loc -> Forall (keeps r g b loc) U -> contents r g (T ++ U) = Some f -> f b = Some loc.
Proof.
  intros Hc Hb. revert f. induction U as [|ev U IH] using rev_ind; intros f HU HT.
  { rewrite app_nil_r in HT. congruence. }
  rewrite Forall_app Forall_singleton in HU. destruct HU as [HU Hev]. rewrite app_assoc contents_app in HT.
  destruct (contents r g (T ++ U)) as [f1|] eqn:H1.
  - specialize (IH f1 HU eq_refl). destruct ev; simpl in *; try congruence; destruct (_ && _) eqn:He; zbool; simplify_eq/=; try done.
    + by destruct Hev.
    + apply wi_last_keeps; [by apply Hev|done].
    + by rewrite (proj2 (Z.ltb_lt _ _) (Hev eq_refl eq_refl)).
  - exfalso. destruct ev; simpl in *; try congruence; destruct (_ && _) eqn:He; zbool; simplify_eq/=; try done. by destruct Hev.
Qed.

Lemma Forall2_with {A B} (P : A -> Prop) (Q : A -> B -> Prop) l k :
  Forall P l -> Forall2 Q l k -> Forall2 (fun x y => P x /\ Q x y) l k.
Proof. intros HP HQ. induction HQ; [constructor|]. apply Forall_cons in HP as [? ?]. constructor; auto. Qed.

(** ** Properties *)

Section Reach.
Context (size : Z) (local_extents : bool) (qsort : list chunk_read_req -> list chunk_read_req).
Hypothesis qsort_permutes : forall l, Permutation (qsort l) l.
Hypothesis qsort_sorts : forall l, Sorted chunk_order (qsort l).

(** The server whose copy of the file a lookup of the server [r] may show: the
    owner, or the server itself if it is told to use its own extents or the
    file is laminated. *)
Definition answers (r gfid r' : Z) (T : trace) : Prop :=
  r' = owner_rank size gfid \/ r' = r /\ (local_extents = true \/ lam_event r gfid T).

Lemma lookup_shows c T1 T2 r creq es out :
  cluster_reach size local_extents qsort c ->
  n_trace (c_net c) = T1 ++ EvDone r creq (CRead es) out :: T2 -> co_ret out = UNIFYFS_SUCCESS ->
  exists T0 app cid, T0 ++ [EvStart r creq app cid (CRead es)] `prefix_of` T1 /\
    Forall2 (fun e p => p.1 = e /\ exists T r', T0 ++ [EvStart r creq app cid (CRead es)] `prefix_of` T /\ T `prefix_of` T1 /\
      answers r (ue_gfid e) r' T /\ shows r' e p.2 T) es (co_chunks out).
Proof.
  intros Hreach HT Hret. pose proof (ck_net _ _ _ _ (cluster_reach_ok _ _ _ _ Hreach)) as [[Hok Hn Hr Hd Hs] _ _ _].
  destruct (Hd _ _ _ _ _ _ HT) as (T0 & app & cid & Hp & Hpost). exists T0, app, cid. split; [done|].
  assert (Forall read_ok es) as Hes.
  { apply (Hs r creq app cid (CRead es)). rewrite HT. apply elem_of_app. left. eapply prefix_elem; [exact Hp|]. set_solver. }
  eapply Forall2_impl; [exact (Forall2_with _ _ _ _ Hes (Hpost Hret))|]. simpl.
  intros e p (He & Hpe & Tm & r' & Ha & Hb & Hc & Hw). split; [done|]. exists Tm, r'. split_and!; [done..|]. by apply chunks_of_shows with qsort.
Qed.

(** C10. Every server has every file as the operations it executed left it:
    whatever calls and messages of the servers interleave, fail or get lost, a
    file exists exactly when it was created and not unlinked since, and each of
    its bytes is where the last extent added over it says, unless the file was
    truncated below it. *)
Theorem servers_hold_contents c r g :
  cluster_reach size local_extents qsort c ->
  file_rep (n_trace (c_net c)) r g (sv_map (nd_sv (n_node (c_net c) r)) !! g).
Proof. intros Hreach. apply (nk_nodes _ _ _ _ (ck_net _ _ _ _ (cluster_reach_ok _ _ _ _ Hreach))). Qed.

(** C5. A synchronisation is acknowledged only after the owner of the file has
    all its extents: before a success response to the request of a client, and
    after the request was made, the owner has added extents that contain those
    of the client's index, in the order of the index. *)
Theorem acknowledged_sync_applied c A B r creq app cid g index :
  cluster_reach size local_extents qsort c -> n_trace (c_net c) = A ++ EvRespond r creq UNIFYFS_SUCCESS :: B ->
  EvStart r creq app cid (CSync g index) ∈ A -> index <> [] ->
  exists A1 A2 l l', A = A1 ++ EvAdd (owner_rank size g) g (l ++ (extent_of_index r app cid <$> index) ++ l') :: A2 /\
    EvStart r creq app cid (CSync g index) ∈ A1.
Proof.
  intros Hreach HT. pose proof (ck_net _ _ _ _ (cluster_reach_ok _ _ _ _ Hreach)) as [[_ _ Hr _ _] _ _ _].
  intros Hst Hne. exact (Hr _ _ _ _ HT app cid g index Hst Hne).
Qed.

(** C15. A lookup of a client that succeeds tells for each byte of its extents
    where the data is, or that there is none, as a server that may answer it
    had the file at some moment between the start and the end of the
    lookup. *)
Theorem lookup_linearizes c T1 T2 r creq es out :
  cluster_reach size local_extents qsort c ->
  n_trace (c_net c) = T1 ++ EvDone r creq (CRead es) out :: T2 -> co_ret out = UNIFYFS_SUCCESS ->
  exists T0 app cid, T0 ++ [EvStart r creq app cid (CRead es)] `prefix_of` T1 /\
    Forall2 (fun e p => p.1 = e /\ exists T r', T0 ++ [EvStart r creq app cid (CRead es)] `prefix_of` T /\ T `prefix_of` T1 /\
      answers r (ue_gfid e) r' T /\ shows r' e p.2 T) es (co_chunks out).
Proof. apply lookup_shows. Qed.
End Reach.

(** The same request, with everything before it. *)
Lemma start_prefix T0 T1 X r creq app cid o r' app' cid' o' :
  NoDup (started (T1 ++ EvStart r creq app cid o :: X)) ->
  T0 ++ [EvStart r' creq app' cid' o'] `prefix_of` T1 ++ EvStart r creq app cid o :: X -> T0 = T1.
Proof.
  intros Hnd [k Hk]. rewrite -app_assoc /= in Hk. revert T0 Hk Hnd. induction T1 as [|e T1 IH]; intros [|e' T0] Hk Hnd; simplify_eq/=.
  - done.
  - apply NoDup_cons in Hnd as [Hnd _]. exfalso. apply Hnd. eapply started_elem, elem_of_app. right. left.
  - apply NoDup_cons in Hnd as [Hnd _]. exfalso. apply Hnd. eapply started_elem, elem_of_app. right. left.
  - f_equal. apply IH; [done|]. destruct e'; simpl in Hnd; try done. by apply NoDup_cons in Hnd as [_ ?].
Qed.

Lemma extents_added_prefix r g T T' : T `prefix_of` T' -> (extents_added r g T <= extents_added r g T')%nat.
Proof. intros [k ->]. rewrite extents_added_app. lia. Qed.

Lemma shows_keeps r e chunks A es U b loc :
  shows r e chunks (A ++ EvAdd r (ue_gfid e) es :: U) ->
  Z.of_nat (2 * extents_added r (ue_gfid e) (A ++ EvAdd r (ue_gfid e) es :: U)) < 4294967296 ->
  ue_offset e <= b < ue_offset e + ue_length e ->
  Forall (keeps r (ue_gfid e) b loc) (EvAdd r (ue_gfid e) es :: U) -> Exists (fun x => em_start x <= b <= em_end x) es ->
  iv_lookup chunks b = Some loc.
Proof.
  intros (f & Hc & Hl) Hsmall Hb HU Hex. rewrite Hl //. rewrite Forall_cons in HU. destruct HU as [Hadd HU].
  specialize (Hadd eq_refl eq_refl). rewrite cons_middle app_assoc in Hc.
  destruct (contents r (ue_gfid e) (A ++ [EvAdd r (ue_gfid e) es])) as [f1|] eqn:H1.
  - eapply contents_keeps; [exact H1| |exact HU|exact Hc]. rewrite contents_app /= event_own in H1.
    destruct (contents r (ue_gfid e) A) as [f0|]; [|done]. injection H1 as <-. by apply wi_last_covered.
  - by rewrite (contents_unborn _ _ b loc _ _ H1 HU) in Hc.
Qed.

Lemma extent_of_index_covers r app cid ix b :
  index_ok ix -> ix_file_pos ix <= b < ix_file_pos ix + ix_length ix ->
  em_start (extent_of_index r app cid ix) <= b <= em_end (extent_of_index r app cid ix).
Proof. intros (H1 & H2 & H3) Hb. simpl. rewrite !u64_small; unfold is_u64; ulia. Qed.

Section ReadAfterSync.
Context (size : Z) (qsort : list chunk_read_req -> list chunk_read_req).
Hypothesis qsort_permutes : forall l, Permutation (qsort l) l.
Hypothesis qsort_sorts : forall l, Sorted chunk_order (qsort l).

(** The extents are added between the request and the response. *)
Lemma sync_between le c S1 S2 X r creq app cid g index :
  cluster_reach size le qsort c -> index <> [] ->
  n_trace (c_net c) = (S1 ++ EvStart r creq app cid (CSync g index) :: S2) ++ EvRespond r creq UNIFYFS_SUCCESS :: X ->
  exists S3 S4 l l', S2 = S3 ++ EvAdd (owner_rank size g) g (l ++ (extent_of_index r app cid <$> index) ++ l') :: S4.
Proof.
  intros Hreach Hne HT. pose proof (ck_net _ _ _ _ (cluster_reach_ok _ _ _ _ Hreach)) as [[[Hst _] _ Hr _ _] _ _ _].
  destruct (Hr _ _ _ _ HT app cid g index) as (A1 & A2 & l & l' & HA & Hin); [set_solver|done|].
  rewrite HT started_app in Hst. apply NoDup_app in Hst as (Hst & _ & _).
  apply list_elem_of_split in Hin as (P & Q & ->).
  assert (P = S1) as ->. { eapply start_prefix; [exact Hst|]. rewrite HA. exists (Q ++ EvAdd (owner_rank size g) g (l ++ (extent_of_index r app cid <$> index) ++ l') :: A2). by simplify_list_eq. }
  simplify_list_eq. eauto.
Qed.

(** C1. A client reads what another client has synchronised.  A synchronisation
    is acknowledged, and after that a client of any server looks up extents of
    the file successfully: a byte the synchronisation covers is found in the
    log of the client that wrote it, at the position its index gives, unless
    since the synchronisation started the byte was overwritten or truncated or
    the file was unlinked or created at its owner, or the file is laminated at
    the server of the reader. *)
Theorem read_after_sync c S1 S2 B C D r creq app cid g index r2 creq2 app2 cid2 es out e chunks ix b :
  let T := S1 ++ EvStart r creq app cid (CSync g index) :: S2 ++ EvRespond r creq UNIFYFS_SUCCESS ::
    B ++ EvStart r2 creq2 app2 cid2 (CRead es) :: C in
  let loc := extent_byte_loc (extent_of_index r app cid ix) b in
  cluster_reach size false qsort c -> n_trace (c_net c) = T ++ EvDone r2 creq2 (CRead es) out :: D ->
  co_ret out = UNIFYFS_SUCCESS -> (e, chunks) ∈ co_chunks out -> ue_gfid e = g ->
  ix ∈ index -> ix_file_pos ix <= b < ix_file_pos ix + ix_length ix -> ue_offset e <= b < ue_offset e + ue_length e ->
  Forall (keeps (owner_rank size g) g b loc) (S2 ++ B ++ C) -> ~ lam_event r2 g T ->
  Z.of_nat (2 * extents_added (owner_rank size g) g T) < 4294967296 ->
  iv_lookup chunks b = Some loc.
Proof.
  intros T loc Hreach HT Hret Hch <- Hix Hbix Hbe Hkeep Hlam Hsmall. set (g := ue_gfid e) in *.
  pose proof (ck_net _ _ _ _ (cluster_reach_ok _ _ _ _ Hreach)) as [[[Hst _] _ _ _ Hs] _ _ _].
  assert (index_ok ix) as Hixok.
  { pose proof (Hs r creq app cid (CSync g index)) as Hi. rewrite HT in Hi. eapply Forall_forall in Hi; [exact Hi|set_solver|done]. }
  destruct (sync_between false c S1 S2 (B ++ EvStart r2 creq2 app2 cid2 (CRead es) :: C ++ EvDone r2 creq2 (CRead es) out :: D) r creq app cid g index)
    as (S3 & S4 & l & l' & ->); [done|by intros ->; apply not_elem_of_nil in Hix|rewrite HT /T; by simplify_list_eq|].
  destruct (lookup_shows size false qsort qsort_permutes qsort_sorts c _ _ _ _ _ _ Hreach HT Hret) as (T0 & app' & cid' & Hp & Hall).
  apply list_elem_of_lookup in Hch as [i Hi]. destruct (Forall2_lookup_r _ _ _ _ _ Hall Hi) as (? & _ & <- & Tm & r' & HTm & HTm' & Hans & Hsh).
  simpl in Hsh. assert (r' = owner_rank size g) as ->.
  { destruct Hans as [?|[-> [?|Hl]]]; [done..|]. destruct Hlam. by eapply lam_event_mono. }
  rewrite HT started_app in Hst. apply NoDup_app in Hst as (Hst & _ & _).
  (* the lookup starts after the extents were added *)
  set (add := EvAdd _ _ _) in *. set (U1 := EvRespond r creq UNIFYFS_SUCCESS :: B). set (rd := EvStart r2 creq2 app2 cid2 (CRead es)) in *.
  assert (T = ((S1 ++ EvStart r creq app cid (CSync g index) :: S3) ++ add :: S4 ++ U1) ++ rd :: C) as HT' by (unfold T, U1; by simplify_list_eq).
  rewrite HT' in Hp Hst HTm'. apply start_prefix in Hp as ->; [|done]. destruct HTm as [k ->], HTm' as [k' Hk'].
  simplify_list_eq. eapply (shows_keeps _ e chunks (S1 ++ EvStart r creq app cid (CSync g index) :: S3)
    (l ++ (extent_of_index r app cid <$> index) ++ l') (S4 ++ U1 ++ EvStart r2 creq2 app' cid' (CRead es) :: k)).
  - eapply eq_ind; [exact Hsh|]. unfold U1. by simplify_list_eq.
  - eapply Z.le_lt_trans; [|exact Hsmall]. apply inj_le, (Nat.mul_le_mono_l _ _ 2), extents_added_prefix. exists k'.
    unfold U1. by simplify_list_eq.
  - done.
  - revert Hkeep. unfold U1. rewrite !(Forall_app, Forall_cons). naive_solver.
  - rewrite !Exists_app. right. left. apply Exists_exists. exists (extent_of_index r app cid ix).
    split; [by apply list_elem_of_fmap_2|by apply extent_of_index_covers].
Qed.
End ReadAfterSync.

(** ** A run of two servers

    A client of the server 1 creates the file 100, which the server 0 owns,
    synchronises 20 bytes, and looks them up. *)

Definition ex_create : unifyfs_file_attr_t :=
  FileAttr None 100 0 1 33188 0 0 0 (Timespec 1 0) (Timespec 1 0) (Timespec 1 0) 1.
Definition ex_index : unifyfs_index := UnifyfsIndex 40 0 20 100.
Definition ex_read : list unifyfs_extent_t := [UnifyfsExtent 0 100 100].

Definition ex_schedule : list sched :=
  [SRequest 1 10 7 1 (CMetaset ATTR_OP_CREATE ex_create)] ++ replicate 4 (SClient 0) ++ [SDeliver 0] ++
    replicate 8 (SServer 0) ++ replicate 4 (SClient 0) ++
  [SRequest 1 11 7 1 (CSync 100 [ex_index])] ++ replicate 9 (SClient 0) ++ replicate 9 (SServer 1) ++ [SDeliver 1] ++
    replicate 5 (SServer 0) ++ replicate 5 (SServer 1) ++
  [SRequest 1 12 7 1 (CRead ex_read)] ++ replicate 9 (SClient 0) ++ [SDeliver 1] ++ replicate 7 (SServer 0) ++ replicate 5 (SClient 0).

Definition ex_cluster : cluster := run_schedule 2 false (merge_sort chunk_order) ex_schedule (run_init 2 ex_apps).

Lemma ex_cluster_reach : cluster_reach 2 false (merge_sort chunk_order) ex_cluster.
Proof. apply run_reach. Qed.

Definition ex_trace : trace := Eval vm_compute in n_trace (c_net ex_cluster).

Lemma ex_trace_eq : n_trace (c_net ex_cluster) = ex_trace.
Proof. by vm_compute. Qed.

Definition ex_out : client_out :=
  ClientOut UNIFYFS_SUCCESS 0 None [(UnifyfsExtent 0 100 100, [ChunkReq 100 20 40 0 7 1 1])].

Lemma servers_hold_contents_witness :
  (exists tree f, ino_extents (default (inode_example 0 0) (sv_map (nd_sv (n_node (c_net ex_cluster) 0)) !! 100)) = Some tree /\
    contents 0 100 ex_trace = Some f /\ rt_lookup tree 45 = f 45) /\
  sv_map (nd_sv (n_node (c_net ex_cluster) 0)) !! 101 = None.
Proof.
  split.
  - pose proof (servers_hold_contents 2 false (merge_sort chunk_order) ex_cluster 0 100 ex_cluster_reach) as H.
    rewrite ex_trace_eq in H. destruct (sv_map _ !! 100) as [ino|] eqn:Hg; [|by vm_compute in Hg].
    destruct H as (tree & f & H1 & H2 & H3 & _). exists tree, f. split_and!; [exact H1|exact H2|apply H3].
  - pose proof (servers_hold_contents 2 false (merge_sort chunk_order) ex_cluster 0 101 ex_cluster_reach) as H.
    rewrite ex_trace_eq in H. destruct (sv_map _ !! 101) as [ino|]; [|reflexivity].
    destruct H as (tree & f & _ & H2 & _). by vm_compute in H2.
Defined.

Lemma acknowledged_sync_applied_witness :
  exists A1 A2 l l', take 10 ex_trace = A1 ++ EvAdd 0 100 (l ++ [ExtentMd 40 59 0 1 7 1] ++ l') :: A2 /\
    EvStart 1 11 7 1 (CSync 100 [ex_index]) ∈ A1.
Proof.
  apply (acknowledged_sync_applied 2 false (merge_sort chunk_order) ex_cluster (take 10 ex_trace) (drop 11 ex_trace) 1 11 7 1 100 [ex_index]).
  - apply ex_cluster_reach.
  - rewrite ex_trace_eq. reflexivity.
  - by apply (list_elem_of_lookup_2 _ 5).
  - discriminate.
Defined.

Lemma lookup_linearizes_witness :
  exists T r', take 11 ex_trace `prefix_of` T /\ T `prefix_of` take 13 ex_trace /\ answers 2 false 1 100 r' T /\
    shows r' (UnifyfsExtent 0 100 100) [ChunkReq 100 20 40 0 7 1 1] T.
Proof.
  destruct (lookup_linearizes 2 false (merge_sort chunk_order) (merge_sort_Permutation chunk_order)
    (fun l => Sorted_merge_sort chunk_order l) ex_cluster (take 13 ex_trace) [] 1 12 ex_read ex_out)
    as (T0 & app & cid & Hp & Hall).
  - apply ex_cluster_reach.
  - rewrite ex_trace_eq. reflexivity.
  - reflexivity.
  - inversion Hall as [|? ? ? ? [_ (T & r' & H1 & H2 & H3 & H4)] _]; subst. simpl in H3, H4.
    assert (T0 = take 11 ex_trace) as ->.
    { assert (take 13 ex_trace = take 11 ex_trace ++ EvStart 1 12 7 1 (CRead ex_read) :: drop 12 (take 13 ex_trace)) as Heq by reflexivity.
      rewrite Heq in Hp. eapply start_prefix in Hp; [exact Hp|]. apply (bool_decide_unpack (NoDup _)). by vm_compute. }
    exists T, r'. split_and!; [|exact H2|exact H3|exact H4].
    etrans; [|exact H1]. by eexists.
Defined.

Lemma read_after_sync_witness : iv_lookup [ChunkReq 100 20 40 0 7 1 1] 45 = Some (ExtentLoc 1 7 1 5).
Proof.
  apply (read_after_sync 2 (merge_sort chunk_order) (merge_sort_Permutation chunk_order)
    (fun l => Sorted_merge_sort chunk_order l) ex_cluster (take 5 ex_trace) (drop 6 (take 10 ex_trace)) [] (drop 12 (take 13 ex_trace)) []
    1 11 7 1 100 [ex_index] 1 12 7 1 ex_read ex_out (UnifyfsExtent 0 100 100) [ChunkReq 100 20 40 0 7 1 1] ex_index 45).
  - apply ex_cluster_reach.
  - rewrite ex_trace_eq. reflexivity.
  - reflexivity.
  - left.
  - reflexivity.
  - left.
  - simpl. lia.
  - simpl. lia.
  - unfold ex_trace. cbn [take drop app]. repeat (apply Forall_cons_2; [try exact I|]); [intros Hr; vm_compute in Hr; discriminate Hr| |constructor].
    intros _ _. apply Forall_singleton. intros _. vm_compute. reflexivity.
  - intros [H|H]; apply list_elem_of_lookup in H as [i H]; do 13 (destruct i as [|i]; [discriminate H|]); discriminate H.
  - by vm_compute.
Defined.
