(* ===== verification/Blocking.v ===== *)
(** * Service managers that wait for each other

    The one service manager thread of a server executes both the pending
    synchronisations of its own clients, for which it calls the owner of the
    file and waits, and the calls of other servers.  Two servers that
    synchronise a file of each other at the same time wait for each other: only
    the timeouts of the calls end this. *)

From stdpp Require Import functions.
From S2P Require Import Prelude.
From S2P Require Import ExtentTree.
From S2P Require Import LogIO.
From S2P Require Import Meta.
From S2P Require Import AppTable.
From S2P Require Import Inode.
From S2P Require Import InodeProps.
From S2P Require Import Rpc.
From S2P Require Import ServiceMgr.
From S2P Require Import RpcHandlers.
From S2P Require Import RequestMgr.
From S2P Require Import Cluster.
From S2P Require Import ClusterRun.

Section Blocking.
Context (local_extents : bool) (qsort : list chunk_read_req -> list chunk_read_req).

(** The call [id] has been made, and neither its message nor a reply to it is
    on the way. *)
Record unanswered (id : nat) (w : net) : Prop := {
  ua_next : (id < n_next w)%nat;
  ua_msgs : Forall (fun m => msg_id m <> Some id) (n_msgs w);
  ua_replies : Forall (fun x => x.1 <> id) (n_replies w);
}.

(** The service manager [r] waits for the call [id]. *)
Definition sm_waits (r : Z) (id : nat) (c : cluster) : Prop :=
  exists reqs req k, c_sm c r = SmThread reqs (Some (req, Waiting id k)).

Lemma unanswered_thread {A} size lossy r id w (t : thread A) w' t' :
  thread_step size qsort lossy r w t w' t' -> unanswered id w -> unanswered id w'.
Proof.
  destruct 1 as [B inp o k w nd x _|dst req k w|dst req k w _|id' out k w rs1 rs2 Hrs|id' k w _|req k w fwd pr m sent ret _];
    intros [H1 H2 H3]; split; simpl; try done; try lia.
  - apply Forall_app. split; [done|]. apply Forall_singleton. simpl. intros [= Hid]. lia.
  - rewrite Hrs Forall_app Forall_cons in H3. apply Forall_app. tauto.
  - apply Forall_app. split; [done|]. by apply Forall_fmap, Forall_true.
Qed.

Lemma reply_to_other (id : nat) m out : m <> Some id -> Forall (fun x : nat * rpc_out => x.1 <> id) (reply_to m out).
Proof. intros Hm. destruct m as [id'|], out; repeat constructor. simpl. congruence. Qed.

(** The two servers of a job, each waiting for a call the other one has not
    executed. *)
Definition both_wait (id0 id1 : nat) (c : cluster) : Prop :=
  sm_waits 0 id0 c /\ sm_waits 1 id1 c /\ unanswered id0 (c_net c) /\ unanswered id1 (c_net c).

Lemma waits_stuck {A} size r id w (k : call_res -> prog A) w' t' :
  unanswered id w -> thread_step size qsort false r w (Waiting id k) w' t' -> False.
Proof.
  intros [_ _ Hr] Hst. inversion Hst; subst; [|done]. match goal with H : n_replies w = _ |- _ => rewrite H in Hr end.
  apply Forall_app in Hr as [_ [Hne _]%Forall_cons]. done.
Qed.

(** The net of the next state, if the service managers do not move. *)
Lemma both_wait_net id0 id1 w sm cts w' cts' :
  both_wait id0 id1 (Cluster w sm cts) -> (forall id, unanswered id w -> unanswered id w') ->
  both_wait id0 id1 (Cluster w' sm cts').
Proof. intros (H0 & H1 & Hu0 & Hu1) Hu. split_and!; [done..|by apply Hu|by apply Hu]. Qed.

Lemma both_wait_sm id0 id1 c r :
  both_wait id0 id1 c -> 0 <= r < 2 -> exists id, unanswered id (c_net c) /\ sm_waits r id c.
Proof.
  intros (H0 & H1 & Hu0 & Hu1) Hr. assert (r = 0 \/ r = 1) as [-> | ->] by lia; eauto.
Qed.

Lemma both_wait_step id0 id1 c c' :
  cluster_step 2 local_extents qsort false c c' -> both_wait id0 id1 c -> both_wait id0 id1 c' /\ c_sm c' = c_sm c.
Proof.
  destruct 1 as [r creq app cid o w sm cts Hr Hfr Hop|w sm cts1 ct cts2 w' t' Hst|w sm cts1 ct cts2 out Hth
    |r nd reqs w sm cts Hr Hsm Htk|r req reqs w sm cts Hr Hsm|r reqs req t w sm cts w' t' Hr Hsm Hst|r reqs req out w sm cts Hr Hsm
    |env ms1 msg ms2 nd sent out w sm cts Hms Hd Hrec|ms1 msg ms2 w sm cts Hl Hms|rs1 x rs2 w sm cts Hl Hrs|r apps w sm cts]; intros Hb;
    try (destruct (both_wait_sm _ _ _ _ Hb Hr) as (id & Hu & reqs' & req' & k & Hw); simpl in Hw; congruence);
    try (destruct (both_wait_sm _ _ _ _ Hb Hr) as (id & Hu & reqs' & req' & k & Hw); simpl in Hw; rewrite Hw in Hsm; simplify_eq;
         by eapply waits_stuck in Hst);
    try done; (split; [|done]); eapply both_wait_net; try exact Hb; intros id [H1 H2 H3].
  - by split.
  - by eapply unanswered_thread.
  - by split.
  - rewrite Hms Forall_app Forall_cons in H2. destruct H2 as (? & ? & ?). split; simpl; [done| |].
    + rewrite !Forall_app. split_and!; [done..|]. by apply Forall_fmap, Forall_true.
    + apply Forall_app. split; [done|by apply reply_to_other].
  - by split.
Qed.

(** ** A run that blocks

    Of the files 2 and 3 the servers 0 and 1 are the owners.  A client of each
    server synchronises the file of the other server; both service managers
    start the synchronisation and make their calls, and the calls arrive. *)
Definition crossed_attr (gfid : Z) : unifyfs_file_attr_t :=
  FileAttr None gfid 0 1 33188 0 0 0 (Timespec 1 0) (Timespec 1 0) (Timespec 1 0) 1.

Definition crossed_schedule : list sched :=
  [SRequest 1 1 7 1 (CMetaset ATTR_OP_CREATE (crossed_attr 2))] ++ replicate 4 (SClient 0) ++ [SDeliver 0] ++
    replicate 8 (SServer 0) ++ replicate 4 (SClient 0) ++
  [SRequest 0 2 7 1 (CMetaset ATTR_OP_CREATE (crossed_attr 3))] ++ replicate 4 (SClient 0) ++ [SDeliver 1] ++
    replicate 8 (SServer 1) ++ replicate 4 (SClient 0) ++
  [SRequest 1 11 7 1 (CSync 2 [UnifyfsIndex 0 0 20 2]); SRequest 0 12 7 1 (CSync 3 [UnifyfsIndex 0 0 20 3])] ++
    replicate 16 (SClient 0) ++ replicate 9 (SServer 0) ++ replicate 9 (SServer 1) ++ replicate 4 (SDeliver 0).

Definition crossed : cluster := run_schedule 2 local_extents qsort crossed_schedule (run_init 2 ex_apps).

Lemma crossed_waits : both_wait 2 3 crossed.
Proof.
  split_and!; try (unfold sm_waits; do 3 eexists; by vm_compute); split; vm_compute; try constructor; lia.
Qed.

Lemma both_wait_steps id0 id1 c c' :
  rtc (cluster_step 2 local_extents qsort false) c c' -> both_wait id0 id1 c -> c_sm c' = c_sm c.
Proof.
  induction 1 as [|c1 c2 c3 Hst _ IH]; intros Hb; [done|].
  apply (both_wait_step id0 id1) in Hst as [Hb2 <-]; [by apply IH|done].
Qed.

(** C26. Two servers can block each other: without any failure they reach a
    state in which the service manager of each waits for a call of the other
    one, which is queued there, and as long as no call times out neither moves
    again, whatever else happens. *)
Theorem crossed_syncs_block :
  rtc (cluster_step 2 local_extents qsort false) (run_init 2 ex_apps) crossed /\
  sm_waits 0 2 crossed /\ sm_waits 1 3 crossed /\
  forall c, rtc (cluster_step 2 local_extents qsort false) crossed c -> c_sm c = c_sm crossed.
Proof.
  destruct crossed_waits as (H0 & H1 & Hu). split_and!; [apply run_sound|done|done|].
  intros c Hs. eapply both_wait_steps; [exact Hs|apply crossed_waits].
Qed.
End Blocking.
