(* ===== verification/PosixClient.v ===== *)
(** * The POSIX client ([client/src/posix_client.c], [posix_client.h])

    The client library stands in for the POSIX calls of an application: it
    keeps file descriptors, streams and directory streams of its own, in arrays
    of [UNIFYFS_CLIENT_MAX_FILES] entries with a stack of free indices each, and
    maps the paths below the mount point and the descriptors above the limit of
    the system to them.

    The layer below, the files of the client with their local ids, is seen
    through the interface [FidLayer]; [client_files] is its implementation by
    the operations of [client/src/unifyfs_fid.c] and [client_read.c].

    A call that is not for a file of UnifyFS is handed to the C library as it
    is: [System]. *)

From Stdlib Require Import String Ascii.
From S2P Require Import Prelude.
From S2P Require Import LogIO.
From S2P Require Import IdStack.
From S2P Require Import Meta.
From S2P Require Import Inode.
From S2P Require Import Client.
From S2P Require Import ClientRead.

(** ** Constants *)

Definition UNIFYFS_CLIENT_MAX_FILES : Z := 128.
Definition UNIFYFS_CLIENT_STREAM_BUFSIZE : Z := 1048576.

Definition ENXIO : Z := 6.
Definition EBADF : Z := 9.
Definition EACCES : Z := 13.
Definition EBUSY : Z := 16.
Definition EXDEV : Z := 18.
Definition ENODEV : Z := 19.
Definition ENFILE : Z := 23.
Definition EFBIG : Z := 27.
Definition ERANGE : Z := 34.
Definition ENOSYS : Z := 38.
Definition ENOTEMPTY : Z := 39.
Definition EOVERFLOW : Z := 75.
Definition ENOTSUP : Z := 95.

Definition UNIFYFS_INVALID_RC : Z := -2.
Definition UNIFYFS_BEGIN_ERRORS : Z := 1000.
Definition UNIFYFS_END_ERRORS : Z := 1010.

Definition O_RDONLY : Z := 0.
Definition SEEK_SET : Z := 0.
Definition SEEK_CUR : Z := 1.
Definition SEEK_END : Z := 2.
Definition SEEK_DATA : Z := 3.
Definition SEEK_HOLE : Z := 4.
Definition _IOFBF : Z := 0.
Definition _IOLBF : Z := 1.
Definition _IONBF : Z := 2.

(** The error number of a return code. *)
Definition unifyfs_rc_errno (rc : Z) : Z :=
  if rc =? UNIFYFS_SUCCESS then 0
  else if rc =? UNIFYFS_INVALID_RC then EINVAL
  else if (rc =? UNIFYFS_FAILURE) || ((rc >? UNIFYFS_BEGIN_ERRORS) && (rc <? UNIFYFS_END_ERRORS)) then EIO
  else rc.

(** ** Overflow of file positions *)

Definition unifyfs_max_offt : Z := 2 ^ 63 - 1.
Definition unifyfs_min_offt : Z := - 2 ^ 63.

Definition unifyfs_would_overflow_offt (a b : Z) : bool :=
  if (a >? 0) && (b >? 0) then negb (unifyfs_max_offt - a >=? b)
  else if (a <? 0) && (b <? 0) then negb (unifyfs_min_offt - a <=? b)
  else false.

(** [long] and [off_t] have the same width. *)
Definition unifyfs_would_overflow_long (a b : Z) : bool :=
  if (a >? 0) && (b >? 0) then negb (unifyfs_max_offt - a >=? b)
  else if (a <? 0) && (b <? 0) then negb (unifyfs_min_offt - a <=? b)
  else false.

(** ** State *)

Record unifyfs_fd_t := FileDesc {
  fd_pos : Z;            (* current file pointer *)
  fd_read : bool;
  fd_write : bool;
  fd_append : bool;
  fd_fid : Z;            (* local file id, -1 when the descriptor is free *)
  fd_use_count : Z;      (* how many exposed descriptors refer to this *)
}.

Definition fd_set_pos (pos : Z) (d : unifyfs_fd_t) : unifyfs_fd_t :=
  FileDesc pos (fd_read d) (fd_write d) (fd_append d) (fd_fid d) (fd_use_count d).
Definition fd_set_use_count (n : Z) (d : unifyfs_fd_t) : unifyfs_fd_t :=
  FileDesc (fd_pos d) (fd_read d) (fd_write d) (fd_append d) (fd_fid d) n.

(** The buffer of a stream; its memory, when it has one. *)
Record stream_buf := StreamBuf {
  sb_buf : option (Z -> Z);
  sb_buffree : bool;
  sb_buftype : Z;
  sb_bufsize : Z;
  sb_bufpos : Z;
  sb_buflen : Z;
  sb_bufdirty : bool;
}.

(** The bytes that were pushed back; they are stored from the end. *)
Record unget_buf := UngetBuf {
  ub_ubuf : option (Z -> Z);
  ub_ubufsize : Z;
  ub_ubuflen : Z;
}.

(** The pointer [_p]: null, into [ubuf] or into [buf]. *)
Inductive stream_ptr := P_NULL | P_UBUF (off : Z) | P_BUF (off : Z).

Record unifyfs_stream_t := Stream {
  s_sid : Z;
  s_err : bool;
  s_eof : bool;
  s_fd : Z;
  s_append : bool;
  s_orient : Z;
  s_b : stream_buf;
  s_u : unget_buf;
  s_p : stream_ptr;
  s_r : Z;
}.

Definition s_set_err (e : bool) (s : unifyfs_stream_t) : unifyfs_stream_t :=
  Stream (s_sid s) e (s_eof s) (s_fd s) (s_append s) (s_orient s) (s_b s) (s_u s) (s_p s) (s_r s).
Definition s_set_eof (e : bool) (s : unifyfs_stream_t) : unifyfs_stream_t :=
  Stream (s_sid s) (s_err s) e (s_fd s) (s_append s) (s_orient s) (s_b s) (s_u s) (s_p s) (s_r s).
Definition s_set_fd (fd : Z) (s : unifyfs_stream_t) : unifyfs_stream_t :=
  Stream (s_sid s) (s_err s) (s_eof s) fd (s_append s) (s_orient s) (s_b s) (s_u s) (s_p s) (s_r s).
Definition s_set_b (b : stream_buf) (s : unifyfs_stream_t) : unifyfs_stream_t :=
  Stream (s_sid s) (s_err s) (s_eof s) (s_fd s) (s_append s) (s_orient s) b (s_u s) (s_p s) (s_r s).
Definition s_set_u (u : unget_buf) (s : unifyfs_stream_t) : unifyfs_stream_t :=
  Stream (s_sid s) (s_err s) (s_eof s) (s_fd s) (s_append s) (s_orient s) (s_b s) u (s_p s) (s_r s).
Definition s_set_ptr (p : stream_ptr) (r : Z) (s : unifyfs_stream_t) : unifyfs_stream_t :=
  Stream (s_sid s) (s_err s) (s_eof s) (s_fd s) (s_append s) (s_orient s) (s_b s) (s_u s) p r.

Record unifyfs_dirstream_t := DirStream {
  ds_dirid : Z;
  ds_fid : Z;
  ds_fd : Z;
  ds_pos : Z;
}.

(** What is fixed once the library is set up, and the contents that fresh
    memory happens to have. *)
Record posix_cfg := PosixCfg {
  pc_initialized : bool;
  pc_mount_prefix : string;
  pc_fd_limit : Z;
  pc_fpos_enabled : bool;
  pc_use_fsync_persist : bool;
  pc_junk : Z -> Z;
}.

Record posix (F : Type) := Posix {
  px_cfg : posix_cfg;
  px_files : F;
  px_mem : mem;
  px_errno : Z;
  px_cwd : option string;
  px_fds : list unifyfs_fd_t;
  px_dup_fds : list Z;
  px_fd_stack : unifyfs_stack;
  px_streams : list unifyfs_stream_t;
  px_stream_stack : unifyfs_stack;
  px_dirstreams : list unifyfs_dirstream_t;
  px_dirstream_stack : unifyfs_stack;
}.

Arguments Posix {F}.
Arguments px_cfg {F}.
Arguments px_files {F}.
Arguments px_mem {F}.
Arguments px_errno {F}.
Arguments px_cwd {F}.
Arguments px_fds {F}.
Arguments px_dup_fds {F}.
Arguments px_fd_stack {F}.
Arguments px_streams {F}.
Arguments px_stream_stack {F}.
Arguments px_dirstreams {F}.
Arguments px_dirstream_stack {F}.

(** A call of the application: handled by the library, or handed on. *)
Inductive call (A : Type) := Ours (r : lres A) | System.

Arguments Ours {A}.
Arguments System {A}.

(** ** The files below *)

(** [fl_open]: return code, file id and position; [fl_write]: return code and
    bytes written; [fl_reads]: the requests with their results, and the return
    code of [process_gfid_reads]. *)
Class FidLayer (F : Type) := {
  fl_open : F -> string -> Z -> Z -> lres (F * (Z * Z * Z));
  fl_close : F -> Z -> lres (F * Z);
  fl_is_dir : F -> Z -> lres (F * bool);
  fl_has_meta : F -> Z -> lres (F * bool);
  fl_gfid : F -> Z -> lres (F * Z);
  fl_path : F -> Z -> lres (option string);
  fl_logical_size : F -> Z -> lres (F * Z);
  fl_sync_extents : F -> Z -> lres (F * Z);
  fl_sync_data : F -> Z -> lres (F * Z);
  fl_truncate : F -> Z -> Z -> lres (F * Z);
  fl_write : F -> Z -> Z -> list Z -> lres (F * Z * Z);
  fl_reads : F -> list read_req -> lres (F * list read_req * Z);
}.

Section Posix.
Context {F : Type}.
Implicit Types (px : posix F).

Definition px_set_files (f : F) px : posix F :=
  Posix (px_cfg px) f (px_mem px) (px_errno px) (px_cwd px) (px_fds px) (px_dup_fds px) (px_fd_stack px) (px_streams px)
    (px_stream_stack px) (px_dirstreams px) (px_dirstream_stack px).
Definition px_set_mem (m : mem) px : posix F :=
  Posix (px_cfg px) (px_files px) m (px_errno px) (px_cwd px) (px_fds px) (px_dup_fds px) (px_fd_stack px) (px_streams px)
    (px_stream_stack px) (px_dirstreams px) (px_dirstream_stack px).
Definition px_set_errno (e : Z) px : posix F :=
  Posix (px_cfg px) (px_files px) (px_mem px) e (px_cwd px) (px_fds px) (px_dup_fds px) (px_fd_stack px) (px_streams px)
    (px_stream_stack px) (px_dirstreams px) (px_dirstream_stack px).
Definition px_set_cwd (w : option string) px : posix F :=
  Posix (px_cfg px) (px_files px) (px_mem px) (px_errno px) w (px_fds px) (px_dup_fds px) (px_fd_stack px) (px_streams px)
    (px_stream_stack px) (px_dirstreams px) (px_dirstream_stack px).
Definition px_set_fds (l : list unifyfs_fd_t) px : posix F :=
  Posix (px_cfg px) (px_files px) (px_mem px) (px_errno px) (px_cwd px) l (px_dup_fds px) (px_fd_stack px) (px_streams px)
    (px_stream_stack px) (px_dirstreams px) (px_dirstream_stack px).
Definition px_set_dup_fds (l : list Z) px : posix F :=
  Posix (px_cfg px) (px_files px) (px_mem px) (px_errno px) (px_cwd px) (px_fds px) l (px_fd_stack px) (px_streams px)
    (px_stream_stack px) (px_dirstreams px) (px_dirstream_stack px).
Definition px_set_fd_stack (k : unifyfs_stack) px : posix F :=
  Posix (px_cfg px) (px_files px) (px_mem px) (px_errno px) (px_cwd px) (px_fds px) (px_dup_fds px) k (px_streams px)
    (px_stream_stack px) (px_dirstreams px) (px_dirstream_stack px).
Definition px_set_streams (l : list unifyfs_stream_t) px : posix F :=
  Posix (px_cfg px) (px_files px) (px_mem px) (px_errno px) (px_cwd px) (px_fds px) (px_dup_fds px) (px_fd_stack px) l
    (px_stream_stack px) (px_dirstreams px) (px_dirstream_stack px).
Definition px_set_stream_stack (k : unifyfs_stack) px : posix F :=
  Posix (px_cfg px) (px_files px) (px_mem px) (px_errno px) (px_cwd px) (px_fds px) (px_dup_fds px) (px_fd_stack px)
    (px_streams px) k (px_dirstreams px) (px_dirstream_stack px).
Definition px_set_dirstreams (l : list unifyfs_dirstream_t) px : posix F :=
  Posix (px_cfg px) (px_files px) (px_mem px) (px_errno px) (px_cwd px) (px_fds px) (px_dup_fds px) (px_fd_stack px)
    (px_streams px) (px_stream_stack px) l (px_dirstream_stack px).
Definition px_set_dirstream_stack (k : unifyfs_stack) px : posix F :=
  Posix (px_cfg px) (px_files px) (px_mem px) (px_errno px) (px_cwd px) (px_fds px) (px_dup_fds px) (px_fd_stack px)
    (px_streams px) (px_stream_stack px) (px_dirstreams px) k.

(** [errno = e; return r;] *)
Definition ret_errno {A} px (e : Z) (r : A) : lres (posix F * A) := LRet (px_set_errno e px, r).

(** ** File descriptors *)

Definition free_fd (append : bool) : unifyfs_fd_t := FileDesc (-1) false false append (-1) 0.

(** Write to the descriptor or the stream through a pointer to it. *)
Definition put_fd (fd : Z) (f : unifyfs_fd_t -> unifyfs_fd_t) px : posix F := px_set_fds (alter f (Z.to_nat fd) (px_fds px)) px.
Definition put_stream (sid : Z) (s : unifyfs_stream_t) px : posix F :=
  px_set_streams (<[Z.to_nat sid := s]> (px_streams px)) px.

(** The structure is reset except for its field [append]. *)
Definition unifyfs_fd_init px (fd : Z) : posix F := put_fd fd (fun d => free_fd (fd_append d)) px.

Definition unifyfs_dup_fd_init px (fd : Z) : posix F := px_set_dup_fds (<[Z.to_nat fd := -1]> (px_dup_fds px)) px.

Definition unifyfs_stream_init px (sid : Z) : posix F :=
  px_set_streams (alter (fun s => Stream sid (s_err s) (s_eof s) (-1) (s_append s) (s_orient s) (s_b s) (s_u s) (s_p s) (s_r s))
    (Z.to_nat sid) (px_streams px)) px.

Definition unifyfs_dirstream_init px (dirid : Z) : posix F :=
  px_set_dirstreams (<[Z.to_nat dirid := DirStream dirid (-1) 0 0]> (px_dirstreams px)) px.

(** The descriptor, [None] for the null pointer. *)
Definition unifyfs_get_filedesc_from_fd px (fd : Z) : option unifyfs_fd_t :=
  if (fd >=? 0) && (fd <? UNIFYFS_CLIENT_MAX_FILES) then px_fds px !! Z.to_nat fd else None.

Definition unifyfs_get_fid_from_fd px (fd : Z) : Z :=
  match unifyfs_get_filedesc_from_fd px fd with Some d => fd_fid d | None => -1 end.

(** The internal descriptor of an exposed one, when it is ours. *)
Definition unifyfs_intercept_fd px (fd : Z) : option Z :=
  if negb (pc_initialized (px_cfg px)) then None
  else if fd <? 0 then None
  else if fd <? pc_fd_limit (px_cfg px) then
    if fd <? UNIFYFS_CLIENT_MAX_FILES then
      match px_dup_fds px !! Z.to_nat fd with
      | Some newfd => if newfd =? -1 then None else Some newfd
      | None => None
      end
    else None
  else Some (fd - pc_fd_limit (px_cfg px)).

(** A stream of the application: an index into the array, or another pointer. *)
Inductive file_ptr := StreamPtr (sid : Z) | OtherFile.

Definition unifyfs_intercept_stream px (stream : file_ptr) : option Z :=
  if negb (pc_initialized (px_cfg px)) then None
  else match stream with
    | StreamPtr sid => if (0 <=? sid) && (sid <? UNIFYFS_CLIENT_MAX_FILES) then Some sid else None
    | OtherFile => None
    end.

Definition unifyfs_intercept_dirstream px (dirp : file_ptr) : option Z :=
  if negb (pc_initialized (px_cfg px)) then None
  else match dirp with
    | StreamPtr dirid => if (0 <=? dirid) && (dirid <? UNIFYFS_CLIENT_MAX_FILES) then Some dirid else None
    | OtherFile => None
    end.

(** ** Paths *)

(** [snprintf(buf, UNIFYFS_MAX_FILENAME, ...)] *)
Definition clip (s : string) : string := String.substring 0 (Z.to_nat (UNIFYFS_MAX_FILENAME - 1)) s.

Definition slash : ascii := "/"%char.

(** [spath_reduce]: what the library spath, when the client is built with it,
    does to a path; the identity otherwise. *)
Definition unifyfs_normalize_path (spath_reduce : string -> string) px (path : string) : string :=
  let relative := negb (bool_decide (String.get 0 path = Some slash)) in
  let normalized :=
    match px_cwd px with
    | Some cwd => if relative then clip (cwd ++ String slash path)%string else clip path
    | None => clip path
    end in
  clip (spath_reduce normalized).

(** The path starts with the mount point, and goes on with a slash or ends
    there. *)
Definition within_mount (mount path : string) : bool :=
  String.prefix mount path &&
  negb ((String.length mount <? String.length path)%nat && negb (bool_decide (String.get (String.length mount) path = Some slash))).

(** The normalised path, when it is below the mount point. *)
Definition unifyfs_intercept_path (spath_reduce : string -> string) px (path : string) : option string :=
  if negb (pc_initialized (px_cfg px)) then None
  else
    let target := unifyfs_normalize_path spath_reduce px path in
    if within_mount (pc_mount_prefix (px_cfg px)) target then Some target else None.

End Posix.

(** ** Initialisation *)

(** The arrays are static, so that they are zero before. *)
Definition zero_stream : unifyfs_stream_t :=
  Stream 0 false false 0 false 0 (StreamBuf None false 0 0 0 0 false) (UngetBuf None 0 0) P_NULL 0.

Definition init_fds : list unifyfs_fd_t := replicate (Z.to_nat UNIFYFS_CLIENT_MAX_FILES) (free_fd false).

Definition init_streams : list unifyfs_stream_t :=
  (fun sid => Stream sid false false (-1) false 0 (s_b zero_stream) (s_u zero_stream) P_NULL 0) <$>
    seqZ 0 UNIFYFS_CLIENT_MAX_FILES.

Definition init_dirstreams : list unifyfs_dirstream_t :=
  (fun dirid => DirStream dirid (-1) 0 0) <$> seqZ 0 UNIFYFS_CLIENT_MAX_FILES.

(** The state after [posix_client_init]; [f] are the files that
    [unifyfs_initialize] sets up. *)
Definition posix_client_init {F} (f : F) (m : mem) (mount : string) (cwd : option string) (fd_limit : Z)
    (fpos_enabled use_fsync_persist : bool) (junk : Z -> Z) : posix F :=
  Posix (PosixCfg true mount fd_limit fpos_enabled use_fsync_persist junk) f m 0 cwd
    init_fds (replicate (Z.to_nat UNIFYFS_CLIENT_MAX_FILES) (-1)) (unifyfs_stack_init UNIFYFS_CLIENT_MAX_FILES)
    init_streams (unifyfs_stack_init UNIFYFS_CLIENT_MAX_FILES)
    init_dirstreams (unifyfs_stack_init UNIFYFS_CLIENT_MAX_FILES).

(** ** The files of the client *)

(** The client, its active reads and the server. *)
Record client_files (S : Type) := ClientFiles {
  cf_client : unifyfs_client;
  cf_reads : client_reads;
  cf_server : S;
}.

Arguments ClientFiles {S}.
Arguments cf_client {S}.
Arguments cf_reads {S}.
Arguments cf_server {S}.

Section Files.
Context {S : Type} `{!ServerRpc S} (env : client_env).
(** The file system, for the spill-over file: the results of writes, reads and
    of [fsync]. *)
Context (pwrite : Z -> list Z -> io_result) (pread : Z -> Z -> io_result) (fsync_err : option Z).
(** The logs of the other clients of the node, and the calls of a read. *)
Context (other_log : Z -> option logio_context).
Context (node_extents_rpc : S -> list unifyfs_extent_t -> Z + list client_index).
Context (mread_rpc : S -> client_reads -> Z -> list unifyfs_extent_t -> lres (S * client_reads * Z)).
Context (qsort : list read_req -> list read_req).

Definition with_client {A} (f : client_files S) (x : lres (unifyfs_client * A)) : lres (client_files S * A) :=
  let! '(c, a) := x in LRet (ClientFiles c (cf_reads f) (cf_server f), a).

Definition with_server {A} (f : client_files S) (x : lres (unifyfs_client * S * A)) : lres (client_files S * A) :=
  let! '(c, s, a) := x in LRet (ClientFiles c (cf_reads f) s, a).

(** [unifyfs_fid_close] has nothing to do. *)
Definition unifyfs_fid_close (f : client_files S) (fid : Z) : lres (client_files S * Z) := LRet (f, UNIFYFS_SUCCESS).

Instance client_fid_layer : FidLayer (client_files S) := {
  fl_open f path flags mode := with_server f (unifyfs_fid_open env (cf_client f) (cf_server f) path flags mode);
  fl_close := unifyfs_fid_close;
  fl_is_dir f fid := with_client f (unifyfs_fid_is_dir (cf_client f) fid);
  fl_has_meta f fid := with_client f (unifyfs_get_meta_from_fid (cf_client f) fid);
  fl_gfid f fid := with_client f (unifyfs_gfid_from_fid (cf_client f) fid);
  fl_path f fid := unifyfs_path_from_fid (cf_client f) fid;
  fl_logical_size f fid := with_server f (unifyfs_fid_logical_size (cf_client f) (cf_server f) fid);
  fl_sync_extents f fid := with_server f (unifyfs_fid_sync_extents (cf_client f) (cf_server f) fid);
  fl_sync_data f fid := with_client f (unifyfs_fid_sync_data (cf_client f) fsync_err fid);
  fl_truncate f fid length := with_server f (unifyfs_fid_truncate (cf_client f) (cf_server f) fid length);
  fl_write f fid pos buf :=
    let! '(c, s, rc, n) := unifyfs_fid_write (cf_client f) (cf_server f) (pwrite pos buf) fid pos buf in
    LRet (ClientFiles c (cf_reads f) s, rc, n);
  fl_reads f reqs :=
    let! '(c, r, s, reqs, rc) :=
      process_gfid_reads other_log pread node_extents_rpc mread_rpc qsort (cf_client f) (cf_reads f) (cf_server f) reqs in
    LRet (ClientFiles c r s, reqs, rc);
}.

End Files.
