(* ===== verification/SysIO.v ===== *)
(** * System calls on file descriptors ([client/src/unifyfs-sysio.c])

    The wrappers of the calls of an application that take a file descriptor, or
    that return one.  Each of them first maps the descriptor of the application
    to the index of a structure of the library; the descriptors of [dup] share
    the structure, and with it the file position, of the original.

    A buffer of the caller is the contents of its memory, from its first byte
    on. *)

From Stdlib Require Import String.
From S2P Require Import Prelude.
From S2P Require Import LogIO.
From S2P Require Import IdStack.
From S2P Require Import Meta.
From S2P Require Import Inode.
From S2P Require Import Client.
From S2P Require Import ClientRead.
From S2P Require Import PosixClient.

Definition O_LARGEFILE : Z := 32768.

(** The control block of an asynchronous operation; the last two fields are
    what [aio_error] and [aio_return] return. *)
Inductive lio_opcode := LIO_READ | LIO_WRITE | LIO_NOP.

Record aiocb := Aiocb {
  aio_fildes : Z;
  aio_lio_opcode : lio_opcode;
  aio_nbytes : Z;
  aio_offset : Z;
  aio_buf : Z -> Z;
  aio_error_code : Z;
  aio_return_val : Z;
}.

Definition cb_set_error (e : Z) (cb : aiocb) : aiocb :=
  Aiocb (aio_fildes cb) (aio_lio_opcode cb) (aio_nbytes cb) (aio_offset cb) (aio_buf cb) e (aio_return_val cb).
Definition cb_set_return (r : Z) (cb : aiocb) : aiocb :=
  Aiocb (aio_fildes cb) (aio_lio_opcode cb) (aio_nbytes cb) (aio_offset cb) (aio_buf cb) (aio_error_code cb) r.
Definition cb_set_buf (buf : Z -> Z) (cb : aiocb) : aiocb :=
  Aiocb (aio_fildes cb) (aio_lio_opcode cb) (aio_nbytes cb) (aio_offset cb) buf (aio_error_code cb) (aio_return_val cb).

Section SysIO.
Context {F : Type} `{!FidLayer F} (spath_reduce : string -> string).
Implicit Types (px : posix F).

(** A call with a descriptor or with a path. *)
Definition on_fd {A} px (fd : Z) (k : Z -> lres A) : call A :=
  match unifyfs_intercept_fd px fd with Some fd => Ours (k fd) | None => System end.

Definition on_path {A} px (path : string) (k : string -> lres A) : call A :=
  match unifyfs_intercept_path spath_reduce px path with Some upath => Ours (k upath) | None => System end.

(** ** Reading and writing *)

(** A request for one range of a file. *)
Definition new_req (gfid offset length : Z) (buf : Z -> Z) : read_req :=
  ReadReq gfid offset length buf 0 SIZE_MAX SIZE_MAX 0 0.

(** The synchronisation before a read, whose return code is not looked at, and
    the read of one request. *)
Definition read_one (f : F) (fid offset length : Z) (buf : Z -> Z) : lres (F * read_req * Z) :=
  let! '(f, _) := fl_sync_extents f fid in
  let! '(f, gfid) := fl_gfid f fid in
  let! '(f, reqs, ret) := fl_reads f [new_req gfid offset length buf] in
  let! req := lift_option (head reqs) in
  LRet (f, req, ret).

(** The return code, the bytes read and the buffer. *)
Definition unifyfs_fd_read px (fd pos : Z) (buf : Z -> Z) (count : Z) : lres (posix F * (Z * Z * (Z -> Z))) :=
  let fid := unifyfs_get_fid_from_fd px fd in
  if fid <? 0 then LRet (px, (EBADF, 0, buf))
  else
    let! '(f, dir) := fl_is_dir (px_files px) fid in
    let px := px_set_files f px in
    if dir then LRet (px, (EISDIR, 0, buf))
    else
      let! filedesc := lift_option (unifyfs_get_filedesc_from_fd px fd) in
      if negb (fd_read filedesc) then LRet (px, (EBADF, 0, buf))
      else if unifyfs_would_overflow_offt pos (off_t_of count) then LRet (px, (EOVERFLOW, 0, buf))
      else if count =? 0 then LRet (px, (UNIFYFS_SUCCESS, 0, buf))
      else
        let! '(f, req, ret) := read_one (px_files px) fid (u64 pos) count buf in
        let px := px_set_files f px in
        if negb (ret =? UNIFYFS_SUCCESS) then LRet (px, (ret, 0, rr_buf req))
        else if negb (rr_errcode req =? UNIFYFS_SUCCESS) && negb (rr_errcode req =? ENODATA)
        then LRet (px, (rr_errcode req, 0, rr_buf req))
        else LRet (px, (UNIFYFS_SUCCESS, rr_nread req, rr_buf req)).

(** The return code and the bytes written. *)
Definition unifyfs_fd_write px (fd pos : Z) (buf : list Z) : lres (posix F * (Z * Z)) :=
  let fid := unifyfs_get_fid_from_fd px fd in
  if fid <? 0 then LRet (px, (EBADF, 0))
  else
    let! '(f, dir) := fl_is_dir (px_files px) fid in
    let px := px_set_files f px in
    if dir then LRet (px, (EINVAL, 0))
    else
      let! filedesc := lift_option (unifyfs_get_filedesc_from_fd px fd) in
      if negb (fd_write filedesc) then LRet (px, (EBADF, 0))
      else if unifyfs_would_overflow_offt pos (off_t_of (Z.of_nat (length buf))) then LRet (px, (EOVERFLOW, 0))
      else
        let! '(f, rc, nwritten) := fl_write (px_files px) fid pos buf in
        LRet (px_set_files f px, (rc, nwritten)).

Definition read px (fd : Z) (buf : Z -> Z) (count : Z) : call (posix F * (Z * (Z -> Z))) :=
  on_fd px fd (fun fd =>
    if unifyfs_get_fid_from_fd px fd <? 0 then ret_errno px EBADF (-1, buf)
    else
      match unifyfs_get_filedesc_from_fd px fd with
      | None => ret_errno px EBADF (-1, buf)
      | Some filedesc =>
          let! '(px, (read_rc, bytes, buf)) := unifyfs_fd_read px fd (fd_pos filedesc) buf count in
          if negb (read_rc =? UNIFYFS_SUCCESS) then ret_errno px (unifyfs_rc_errno read_rc) (-1, buf)
          else ret_errno (put_fd fd (fun d => fd_set_pos (fd_pos d + off_t_of bytes) d) px) 0 (bytes, buf)
      end).

Definition write px (fd : Z) (buf : list Z) : call (posix F * Z) :=
  on_fd px fd (fun fd =>
    match unifyfs_get_filedesc_from_fd px fd with
    | None => ret_errno px EBADF (-1)
    | Some filedesc =>
        let! '(f, pos) :=
          if fd_append filedesc then fl_logical_size (px_files px) (unifyfs_get_fid_from_fd px fd)
          else LRet (px_files px, fd_pos filedesc) in
        let! '(px, (write_rc, bytes)) := unifyfs_fd_write (px_set_files f px) fd pos buf in
        if negb (write_rc =? UNIFYFS_SUCCESS) then ret_errno px (unifyfs_rc_errno write_rc) (-1)
        else ret_errno (put_fd fd (fd_set_pos (pos + bytes)) px) 0 bytes
    end).

(** [errno] is set to 0 on all paths that reach the end. *)
Definition pread px (fd : Z) (buf : Z -> Z) (count offset : Z) : call (posix F * (Z * (Z -> Z))) :=
  on_fd px fd (fun fd =>
    let fid := unifyfs_get_fid_from_fd px fd in
    if fid <? 0 then ret_errno px EBADF (-1, buf)
    else
      let! '(f, req, ret) := read_one (px_files px) fid (u64 offset) count buf in
      let px := px_set_files f px in
      let retcount :=
        if negb (ret =? UNIFYFS_SUCCESS) then -1
        else if negb (rr_errcode req =? UNIFYFS_SUCCESS) then -1
        else rr_nread req in
      ret_errno px 0 (retcount, rr_buf req)).

Definition pread64 px (fd : Z) (buf : Z -> Z) (count offset : Z) : call (posix F * (Z * (Z -> Z))) :=
  match unifyfs_intercept_fd px fd with Some _ => pread px fd buf count offset | None => System end.

Definition pwrite px (fd : Z) (buf : list Z) (offset : Z) : call (posix F * Z) :=
  on_fd px fd (fun fd =>
    match unifyfs_get_filedesc_from_fd px fd with
    | None => ret_errno px EBADF (-1)
    | Some _ =>
        let! '(px, (write_rc, bytes)) := unifyfs_fd_write px fd offset buf in
        if negb (write_rc =? UNIFYFS_SUCCESS) then ret_errno px (unifyfs_rc_errno write_rc) (-1)
        else ret_errno px 0 bytes
    end).

Definition pwrite64 px (fd : Z) (buf : list Z) (offset : Z) : call (posix F * Z) :=
  match unifyfs_intercept_fd px fd with Some _ => pwrite px fd buf offset | None => System end.

(** The loop of [readv] over the buffers and their lengths. *)
Fixpoint readv_loop px (fd : Z) (iov : list ((Z -> Z) * Z)) (ret : Z) : call (posix F * (Z * list (Z -> Z))) :=
  match iov with
  | [] => Ours (ret_errno px 0 (ret, []))
  | (buf, len) :: iov =>
      match read px fd buf len with
      | System => System
      | Ours r =>
          match r with
          | LRet (px, (rret, buf)) =>
              if rret =? -1 then Ours (LRet (px, (-1, buf :: iov.*1)))
              else if rret =? 0 then Ours (LRet (px, (ret, buf :: iov.*1)))
              else
                match readv_loop px fd iov (ret + rret) with
                | Ours r => Ours (let! '(px, (ret, bufs)) := r in LRet (px, (ret, buf :: bufs)))
                | System => System
                end
          | LBlocked => Ours LBlocked
          | LFault => Ours LFault
          end
      end
  end.

Definition readv px (fd : Z) (iov : list ((Z -> Z) * Z)) : call (posix F * (Z * list (Z -> Z))) :=
  match unifyfs_intercept_fd px fd with Some _ => readv_loop px fd iov 0 | None => System end.

Fixpoint writev_loop px (fd : Z) (iov : list (list Z)) (ret : Z) : call (posix F * Z) :=
  match iov with
  | [] => Ours (ret_errno px 0 ret)
  | buf :: iov =>
      match write px fd buf with
      | System => System
      | Ours (LRet (px, wret)) =>
          if wret =? -1 then Ours (LRet (px, -1))
          else if negb (u64 wret =? Z.of_nat (length buf)) then Ours (LRet (px, ret + wret))
          else writev_loop px fd iov (ret + wret)
      | Ours LBlocked => Ours LBlocked
      | Ours LFault => Ours LFault
      end
  end.

Definition writev px (fd : Z) (iov : list (list Z)) : call (posix F * Z) :=
  match unifyfs_intercept_fd px fd with Some _ => writev_loop px fd iov 0 | None => System end.

(** ** The file position *)

Definition lseek px (fd offset whence : Z) : call (posix F * Z) :=
  on_fd px fd (fun fd =>
    let fid := unifyfs_get_fid_from_fd px fd in
    if fid <? 0 then ret_errno px EBADF (-1)
    else
      let! '(f, meta) := fl_has_meta (px_files px) fid in
      let px := px_set_files f px in
      if negb meta then ret_errno px EBADF (-1)
      else
        let! filedesc := lift_option (unifyfs_get_filedesc_from_fd px fd) in
        let current_pos := fd_pos filedesc in
        let seek_to px pos := ret_errno (put_fd fd (fd_set_pos pos) px) 0 pos in
        let with_eof k := let! '(f, logical_eof) := fl_logical_size (px_files px) fid in k (px_set_files f px) logical_eof in
        if whence =? SEEK_SET then
          if offset <? 0 then ret_errno px EINVAL (-1) else seek_to px offset
        else if whence =? SEEK_CUR then
          if current_pos + offset <? 0 then ret_errno px EINVAL (-1) else seek_to px (current_pos + offset)
        else if whence =? SEEK_END then
          with_eof (fun px logical_eof =>
            if logical_eof + offset <? 0 then ret_errno px EINVAL (-1) else seek_to px (logical_eof + offset))
        else if whence =? SEEK_DATA then
          with_eof (fun px logical_eof =>
            if (offset <? 0) || (offset >? logical_eof) then ret_errno px ENXIO (-1) else seek_to px offset)
        else if whence =? SEEK_HOLE then
          with_eof (fun px logical_eof =>
            if (offset <? 0) || (offset >? logical_eof) then ret_errno px ENXIO (-1) else seek_to px logical_eof)
        else ret_errno px EINVAL (-1)).

(** [off_t] and [off64_t] have the same size. *)
Definition lseek64 px (fd offset whence : Z) : call (posix F * Z) :=
  match unifyfs_intercept_fd px fd with Some _ => lseek px fd offset whence | None => System end.

(** ** Opening and closing *)

(** The structure of a new descriptor is filled in, and its number shifted
    above the descriptors of the system. *)
Definition expose px (fd : Z) (desc : unifyfs_fd_t -> unifyfs_fd_t) : lres (posix F * Z) :=
  let! _ := lift_option (unifyfs_get_filedesc_from_fd px fd) in
  ret_errno (put_fd fd desc px) 0 (fd + pc_fd_limit (px_cfg px)).

Definition pop_fd px : lres (posix F * Z) :=
  let! '(st, fd) := lift_option (unifyfs_stack_pop (px_fd_stack px)) in
  LRet (px_set_fd_stack st px, fd).

Definition push_fd px (fd : Z) : lres (posix F) :=
  let! st := lift_option (unifyfs_stack_push (px_fd_stack px) fd) in
  LRet (px_set_fd_stack st px).

Definition open px (path : string) (flags mode : Z) : call (posix F * Z) :=
  let mode := if bits flags O_CREAT then mode else 0 in
  on_path px path (fun upath =>
    let! '(f, (rc, fid, pos)) := fl_open (px_files px) upath flags mode in
    let px := px_set_files f px in
    if negb (rc =? UNIFYFS_SUCCESS) then ret_errno px (unifyfs_rc_errno rc) (-1)
    else
      let! '(px, fd) := pop_fd px in
      if fd <? 0 then ret_errno px EMFILE (-1)
      else
        expose px fd (fun d => FileDesc pos
          ((Z.land flags O_RDONLY =? O_RDONLY) || (Z.land flags O_RDWR =? O_RDWR))
          ((Z.land flags O_WRONLY =? O_WRONLY) || (Z.land flags O_RDWR =? O_RDWR))
          (bits flags O_APPEND) fid 1)).

Definition open64 px (path : string) (flags mode : Z) : call (posix F * Z) :=
  match unifyfs_intercept_path spath_reduce px path with
  | Some _ => open px path (Z.lor flags O_LARGEFILE) mode
  | None => System
  end.

Definition __open_2 px (path : string) (flags mode : Z) : call (posix F * Z) :=
  match unifyfs_intercept_path spath_reduce px path with Some _ => open px path flags mode | None => System end.

(** The field [append] of the structure is not written. *)
Definition posix_create px (upath : string) (mode : Z) : lres (posix F * Z) :=
  let! '(f, (rc, fid, pos)) := fl_open (px_files px) upath (Z.lor O_WRONLY (Z.lor O_CREAT O_TRUNC)) mode in
  let px := px_set_files f px in
  if negb (rc =? UNIFYFS_SUCCESS) then ret_errno px (unifyfs_rc_errno rc) (-1)
  else
    let! '(px, fd) := pop_fd px in
    if fd <? 0 then ret_errno px EMFILE (-1)
    else expose px fd (fun d => FileDesc pos false true (fd_append d) fid 1).

Definition creat px (path : string) (mode : Z) : call (posix F * Z) := on_path px path (fun upath => posix_create px upath mode).

Definition creat64 px (path : string) (mode : Z) : call (posix F * Z) := on_path px path (fun upath => posix_create px upath mode).

(** The slot of an exposed descriptor in [unifyfs_dup_fds]; the array is not
    checked for its bounds. *)
Definition dup_slot px (newfd : Z) : lres Z :=
  if newfd <? 0 then LFault else lift_option (px_dup_fds px !! Z.to_nat newfd).

(** [sock]: the descriptor that [socket] returned, or its error number. *)
Definition dup px (sock : Z + Z) (fd : Z) : call (posix F * Z) :=
  on_fd px fd (fun fd =>
    match unifyfs_get_filedesc_from_fd px fd with
    | None => ret_errno px EBADF (-1)
    | Some _ =>
        match sock with
        | inl newfd =>
            let! duped_fd := dup_slot px newfd in
            if duped_fd =? -1 then
              let px := px_set_dup_fds (<[Z.to_nat newfd := fd]> (px_dup_fds px)) px in
              ret_errno (put_fd fd (fun d => fd_set_use_count (fd_use_count d + 1) d) px) 0 newfd
            else ret_errno px EMFILE (-1)
        | inr err => ret_errno px err (-1)
        end
    end).

(** [close_err]: the error number of closing [desired_fd]. *)
Definition dup2 px (close_err : Z) (fd desired_fd : Z) : call (posix F * Z) :=
  if fd =? desired_fd then Ours (ret_errno px 0 desired_fd)
  else
    on_fd px fd (fun fd =>
      match unifyfs_get_filedesc_from_fd px fd with
      | None => ret_errno px EBADF (-1)
      | Some _ =>
          if negb (close_err =? 0) && negb (close_err =? EBADF) then ret_errno px EIO (-1)
          else
            let! duped_fd := dup_slot px desired_fd in
            if duped_fd =? -1 then
              let px := px_set_dup_fds (<[Z.to_nat desired_fd := fd]> (px_dup_fds px)) px in
              ret_errno (put_fd fd (fun d => fd_set_use_count (fd_use_count d + 1) d) px) 0 desired_fd
            else ret_errno px EMFILE (-1)
      end).

(** The descriptor of a socket that [dup] created is closed as well, which
    changes nothing here. *)
Definition clear_dup px (oldfd fd : Z) : posix F :=
  if (oldfd <? UNIFYFS_CLIENT_MAX_FILES) && bool_decide (px_dup_fds px !! Z.to_nat oldfd = Some fd)
  then unifyfs_dup_fd_init px oldfd else px.

Definition close px (oldfd : Z) : call (posix F * Z) :=
  on_fd px oldfd (fun fd =>
    match unifyfs_get_filedesc_from_fd px fd with
    | None => ret_errno px EBADF (-1)
    | Some fdesc =>
        let use_count := fd_use_count fdesc - 1 in
        let px := put_fd fd (fd_set_use_count use_count) px in
        let px := clear_dup px oldfd fd in
        let fid := fd_fid fdesc in
        if fid <? 0 then ret_errno px EBADF (-1)
        else
          let! '(f, sync_rc) :=
            if fd_write fdesc then fl_sync_extents (px_files px) fid else LRet (px_files px, UNIFYFS_SUCCESS) in
          let px := px_set_files f px in
          if negb (sync_rc =? UNIFYFS_SUCCESS) then ret_errno px (unifyfs_rc_errno sync_rc) (-1)
          else if use_count =? 0 then
            let! '(f, close_rc) := fl_close (px_files px) fid in
            let px := px_set_files f px in
            if negb (close_rc =? UNIFYFS_SUCCESS) then ret_errno px (unifyfs_rc_errno close_rc) (-1)
            else
              let! px := push_fd (unifyfs_fd_init px fd) fd in
              ret_errno px 0 0
          else ret_errno px 0 0
    end).

(** ** Other calls *)

Definition ftruncate px (fd length : Z) : call (posix F * Z) :=
  on_fd px fd (fun fd =>
    let fid := unifyfs_get_fid_from_fd px fd in
    if fid <? 0 then ret_errno px EBADF (-1)
    else
      let! filedesc := lift_option (unifyfs_get_filedesc_from_fd px fd) in
      if negb (fd_write filedesc) then ret_errno px EBADF (-1)
      else
        let! '(f, rc) := fl_truncate (px_files px) fid length in
        let px := px_set_files f px in
        if negb (rc =? UNIFYFS_SUCCESS) then ret_errno px (unifyfs_rc_errno rc) (-1) else ret_errno px 0 0).

Definition fsync px (fd : Z) : call (posix F * Z) :=
  on_fd px fd (fun fd =>
    let fid := unifyfs_get_fid_from_fd px fd in
    if fid <? 0 then ret_errno px EBADF (-1)
    else
      let! '(f, rc) := fl_sync_extents (px_files px) fid in
      let px := px_set_files f px in
      if negb (rc =? UNIFYFS_SUCCESS) then ret_errno px (unifyfs_rc_errno rc) (-1)
      else if pc_use_fsync_persist (px_cfg px) then
        let! '(f, rc) := fl_sync_data (px_files px) fid in
        let px := px_set_files f px in
        if negb (rc =? UNIFYFS_SUCCESS) then ret_errno px (unifyfs_rc_errno rc) (-1) else ret_errno px 0 0
      else ret_errno px 0 0).

Definition fdatasync px (fd : Z) : call (posix F * Z) := on_fd px fd (fun _ => ret_errno px ENOTSUP (-1)).

Definition flock px (fd operation : Z) : call (posix F * Z) := on_fd px fd (fun _ => ret_errno px 0 0).

(** [None] for [MAP_FAILED]. *)
Definition mmap px (fd : Z) : call (posix F * option Z) := on_fd px fd (fun _ => ret_errno px ENODEV None).

Definition mmap64 px (fd : Z) : call (posix F * option Z) :=
  match unifyfs_intercept_fd px fd with Some _ => mmap px fd | None => System end.

(** [advice]: one of the six pieces of advice, 0 to 5. *)
Definition posix_fadvise px (fd advice : Z) : call (posix F * Z) :=
  on_fd px fd (fun fd =>
    if unifyfs_get_fid_from_fd px fd <? 0 then ret_errno px EBADF EBADF
    else if (0 <=? advice) && (advice <=? 5) then ret_errno px ENOTSUP ENOTSUP
    else ret_errno px EINVAL EINVAL).

(** The intercepted branch; the file may have lost its name. *)
Definition fchdir px (fd : Z) : call (posix F * Z) :=
  on_fd px fd (fun fd =>
    let fid := unifyfs_get_fid_from_fd px fd in
    if fid <? 0 then ret_errno px EBADF (-1)
    else
      let! path := fl_path (px_files px) fid in
      let! path := lift_option path in
      ret_errno (px_set_cwd (Some path) px) 0 0).

(** ** Lists of operations *)

(** The result [ret] of a call with [errno]. *)
Definition cb_result (ret err : Z) (cb : aiocb) : aiocb :=
  if ret =? -1 then cb_set_error err cb else cb_set_return ret (cb_set_error 0 cb).

(** The loop over the control blocks, from index [i] on: writes are done at
    once, reads of our files become requests.  [real i]: what the system
    returns for the operation of a file that is not ours, [errno], and the
    buffer then. *)
Fixpoint lio_submit px (real : Z -> Z * Z * (Z -> Z)) (i : Z) (cbs : list aiocb) (reqs : list read_req)
    : lres (posix F * list aiocb * list read_req) :=
  match cbs with
  | [] => LRet (px, [], reqs)
  | cb :: cbs =>
      let '(real_ret, real_err, real_buf) := real i in
      let! '(px, cb, reqs) :=
        match aio_lio_opcode cb with
        | LIO_WRITE =>
            match pwrite px (aio_fildes cb) (region_read (aio_buf cb) 0 (aio_nbytes cb)) (aio_offset cb) with
            | Ours r => let! '(px, wret) := r in LRet (px, cb_result wret (px_errno px) cb, reqs)
            | System => LRet (px, cb_result real_ret real_err cb, reqs)
            end
        | LIO_READ =>
            match unifyfs_intercept_fd px (aio_fildes cb) with
            | Some fd =>
                let fid := unifyfs_get_fid_from_fd px fd in
                if fid <? 0 then LRet (px, cb_set_error EINVAL cb, reqs)
                else
                  let! '(f, _) := fl_sync_extents (px_files px) fid in
                  let! '(f, gfid) := fl_gfid f fid in
                  LRet (px_set_files f px, cb,
                        reqs ++ [ReadReq gfid (u64 (aio_offset cb)) (aio_nbytes cb) (aio_buf cb) i SIZE_MAX SIZE_MAX 0 0])
            | None => LRet (px, cb_result real_ret real_err (cb_set_buf real_buf cb), reqs)
            end
        | LIO_NOP => LRet (px, cb, reqs)
        end in
      let! '(px, cbs, reqs) := lio_submit px real (i + 1) cbs reqs in
      LRet (px, cb :: cbs, reqs)
  end.

(** A completed request goes to its control block; on success the number of
    bytes is the length of the request. *)
Definition lio_complete (cbs : list aiocb) (req : read_req) : list aiocb :=
  alter (fun cb =>
    let cb := cb_set_error (unifyfs_rc_errno (rr_errcode req)) (cb_set_buf (rr_buf req) cb) in
    if rr_errcode req =? 0 then cb_set_return (rr_length req) cb else cb) (Z.to_nat (rr_aiocbp req)) cbs.

Definition lio_listio px (real : Z -> Z * Z * (Z -> Z)) (cbs : list aiocb) : lres (posix F * (list aiocb * Z)) :=
  let '(p, m) := calloc (px_mem px) in
  let px := px_set_mem m px in
  match p with
  | None => ret_errno px ENOMEM (cbs, -1)
  | Some _ =>
      let! '(px, cbs, reqs) := lio_submit px real 0 cbs [] in
      let! '(px, cbs, ret) :=
        if bool_decide (reqs = []) then LRet (px, cbs, 0)
        else
          let! '(f, reqs, rc) := fl_reads (px_files px) reqs in
          LRet (px_set_files f px, foldl lio_complete cbs reqs, if negb (rc =? UNIFYFS_SUCCESS) then rc else 0) in
      if negb (ret =? 0) then ret_errno px (unifyfs_rc_errno ret) (cbs, -1) else ret_errno px 0 (cbs, 0)
  end.

End SysIO.
