(* ===== verification/StdIO.v ===== *)
(** * Streams ([client/src/unifyfs-stdio.c])

    A stream of the C library on top of a file descriptor: a buffer that holds
    a range of the file, read from it or still to be written to it, and a
    buffer of bytes that were pushed back.  The file position is that of the
    descriptor.

    Streams are named by their index in the array of streams.  The memory of a
    buffer belongs to the stream alone; an application does not touch a buffer
    that it handed over.  Fresh memory has the contents [pc_junk]. *)

From Stdlib Require Import String Ascii.
From S2P Require Import Prelude.
From S2P Require Import LogIO.
From S2P Require Import IdStack.
From S2P Require Import Inode.
From S2P Require Import Client.
From S2P Require Import PosixClient.
From S2P Require Import SysIO.

Definition EOF : Z := -1.
Definition BUFSIZ : Z := 8192.
Definition newline : Z := 10.

(** [memcpy(dst + doff, src + soff, n)] *)
Definition memcpy (dst : Z -> Z) (doff : Z) (src : Z -> Z) (soff n : Z) : Z -> Z :=
  region_write dst doff (region_read src soff n).

(** ** Modes *)

Record fopen_mode := FopenMode {
  md_read : bool;
  md_write : bool;
  md_append : bool;
  md_plus : bool;
}.

(** [None]: [EINVAL]. *)
Definition unifyfs_fopen_parse_mode (mode : option string) : option fopen_mode :=
  mode ← mode;
  let len := String.length mode in
  if (len =? 0)%nat || (3 <? len)%nat then None
  else
    first ← String.get 0 mode;
    m ← (if bool_decide (first = "r"%char) then Some (FopenMode true false false false)
         else if bool_decide (first = "w"%char) then Some (FopenMode false true false false)
         else if bool_decide (first = "a"%char) then Some (FopenMode false false true false)
         else None);
    let plus := FopenMode (md_read m) (md_write m) (md_append m) true in
    if (1 <? len)%nat then
      second ← String.get 1 mode;
      if bool_decide (second = "+"%char) then
        if (2 <? len)%nat then
          third ← String.get 2 mode;
          if negb (bool_decide (third = "b"%char)) then None else Some plus
        else Some plus
      else if bool_decide (second = "b"%char) then
        if (2 <? len)%nat then
          third ← String.get 2 mode;
          if bool_decide (third = "+"%char) then Some plus else None
        else Some m
      else None
    else Some m.

(** The flags that the mode opens the file with. *)
Definition fopen_flags (m : fopen_mode) (large_file_flag : Z) : Z :=
  if md_read m then if md_plus m then O_RDWR else O_RDONLY
  else if md_write m then
    Z.lor (if md_plus m then O_RDWR else O_WRONLY) (Z.lor O_CREAT (Z.lor O_TRUNC large_file_flag))
  else if md_plus m then Z.lor O_RDWR (Z.lor O_CREAT large_file_flag)
  else Z.lor O_WRONLY (Z.lor O_CREAT (Z.lor O_APPEND large_file_flag)).

Section StdIO.
Context {F : Type} `{!FidLayer F} (spath_reduce : string -> string).
Implicit Types (px : posix F) (s : unifyfs_stream_t).

Definition get_stream px (sid : Z) : lres unifyfs_stream_t := lift_option (px_streams px !! Z.to_nat sid).

(** [s->err = 1; errno = e; return r;] *)
Definition stream_error {A} px (sid : Z) s (e : Z) (r : A) : lres (posix F * A) :=
  LRet (px_set_errno e (put_stream sid (s_set_err true s) px), r).

(** ** Opening *)

(** The fields [append] and [use_count] of the descriptor are not written. *)
Definition stream_desc (m : fopen_mode) (fid pos : Z) (d : unifyfs_fd_t) : unifyfs_fd_t :=
  FileDesc pos (md_read m || md_plus m) (md_write m || md_plus m || md_append m) (fd_append d) fid (fd_use_count d).

Definition new_stream (m : fopen_mode) (sid fd : Z) : unifyfs_stream_t :=
  Stream sid false false fd (md_append m) 0 (StreamBuf None false _IOFBF 0 0 0 false) (UngetBuf None 0 0) P_NULL 0.

(** [perms]: the permissions that [unifyfs_getmode] returns. *)
Definition unifyfs_fopen px (path : string) (mode : option string) (from_fopen64 : bool) (perms : Z)
    : lres (posix F * (Z * option Z)) :=
  match unifyfs_fopen_parse_mode mode with
  | None => LRet (px, (EINVAL, None))
  | Some m =>
      let! '(f, (open_rc, fid, pos)) :=
        fl_open (px_files px) path (fopen_flags m (if from_fopen64 then O_LARGEFILE else 0)) perms in
      let px := px_set_files f px in
      if negb (open_rc =? UNIFYFS_SUCCESS) then LRet (px, (open_rc, None))
      else
        let! '(st, sid) := lift_option (unifyfs_stack_pop (px_stream_stack px)) in
        let px := px_set_stream_stack st px in
        if sid <? 0 then LRet (px, (ENFILE, None))
        else
          let! '(px, fd) := pop_fd px in
          if fd <? 0 then
            let! st := lift_option (unifyfs_stack_push (px_stream_stack px) sid) in
            LRet (px_set_stream_stack st px, (ENFILE, None))
          else
            let! _ := lift_option (unifyfs_get_filedesc_from_fd px fd) in
            let! _ := get_stream px sid in
            LRet (put_stream sid (new_stream m sid fd) (put_fd fd (stream_desc m fid pos) px), (UNIFYFS_SUCCESS, Some sid))
  end.

Definition fopen_wrap px (path : string) (mode : option string) (from_fopen64 : bool) (perms : Z)
    : call (posix F * option Z) :=
  on_path spath_reduce px path (fun upath =>
    let! '(px, (rc, stream)) := unifyfs_fopen px upath mode from_fopen64 perms in
    if negb (rc =? UNIFYFS_SUCCESS) then ret_errno px (unifyfs_rc_errno rc) None else ret_errno px 0 stream).

Definition fopen px (path : string) (mode : option string) (perms : Z) : call (posix F * option Z) :=
  fopen_wrap px path mode false perms.

Definition fopen64 px (path : string) (mode : option string) (perms : Z) : call (posix F * option Z) :=
  fopen_wrap px path mode true perms.

(** A call with a stream. *)
Definition on_stream {A} px (stream : file_ptr) (k : Z -> lres A) : call A :=
  match unifyfs_intercept_stream px stream with Some sid => Ours (k sid) | None => System end.

(** ** Buffers *)

(** [buf]: the buffer of the caller, when there is one. *)
Definition unifyfs_setvbuf px (sid : Z) (buf : option (Z -> Z)) (type size : Z) : lres (posix F * Z) :=
  let! s := get_stream px sid in
  match sb_buf (s_b s) with
  | Some _ => LRet (px, EBADF)
  | None =>
      if negb (type =? _IOFBF) && negb (type =? _IOLBF) && negb (type =? _IONBF) then LRet (px, EINVAL)
      else if size <=? 0 then LRet (px, EINVAL)
      else
        match buf with
        | None =>
            let '(p, m) := calloc (px_mem px) in
            let px := px_set_mem m px in
            match p with
            | None => LRet (px, ENOMEM)
            | Some _ =>
                LRet (put_stream sid (s_set_b (StreamBuf (Some (pc_junk (px_cfg px))) true type size 0 0 false) s) px,
                      UNIFYFS_SUCCESS)
            end
        | Some mem => LRet (put_stream sid (s_set_b (StreamBuf (Some mem) false type size 0 0 false) s) px, UNIFYFS_SUCCESS)
        end
  end.

Definition setvbuf px (stream : file_ptr) (buf : option (Z -> Z)) (type size : Z) : call (posix F * Z) :=
  on_stream px stream (fun sid =>
    let! '(px, rc) := unifyfs_setvbuf px sid buf type size in
    if negb (rc =? UNIFYFS_SUCCESS) then ret_errno px (unifyfs_rc_errno rc) 1 else ret_errno px 0 0).

Definition setbuf px (stream : file_ptr) (buf : option (Z -> Z)) : call (posix F) :=
  on_stream px stream (fun sid =>
    let! '(px, _) := unifyfs_setvbuf px sid buf (match buf with Some _ => _IOFBF | None => _IONBF end) BUFSIZ in
    LRet px).

Definition sb_set_dirty (d : bool) (b : stream_buf) : stream_buf :=
  StreamBuf (sb_buf b) (sb_buffree b) (sb_buftype b) (sb_bufsize b) (sb_bufpos b) (sb_buflen b) d.
Definition sb_set_data (buf : Z -> Z) (pos len : Z) (d : bool) (b : stream_buf) : stream_buf :=
  StreamBuf (Some buf) (sb_buffree b) (sb_buftype b) (sb_bufsize b) pos len d.
Definition ub_set_len (n : Z) (u : unget_buf) : unget_buf := UngetBuf (ub_ubuf u) (ub_ubufsize u) n.

Definition unifyfs_stream_flush px (sid : Z) : lres (posix F * Z) :=
  let! s := get_stream px sid in
  match sb_buf (s_b s) with
  | Some buf =>
      if sb_bufdirty (s_b s) then
        let! '(px, (write_rc, _)) :=
          unifyfs_fd_write px (s_fd s) (sb_bufpos (s_b s)) (region_read buf 0 (sb_buflen (s_b s))) in
        if negb (write_rc =? UNIFYFS_SUCCESS) then stream_error px sid s (unifyfs_rc_errno write_rc) write_rc
        else
          let fid := unifyfs_get_fid_from_fd px (s_fd s) in
          if fid <? 0 then stream_error px sid s EBADF EBADF
          else
            let! '(f, ret) := fl_sync_extents (px_files px) fid in
            let px := px_set_files f px in
            if negb (ret =? UNIFYFS_SUCCESS) then stream_error px sid s (unifyfs_rc_errno ret) ret
            else LRet (put_stream sid (s_set_b (sb_set_dirty false (s_b s)) s) px, UNIFYFS_SUCCESS)
      else LRet (px, UNIFYFS_SUCCESS)
  | None => LRet (px, UNIFYFS_SUCCESS)
  end.

(** The buffer is allocated when the stream has none; [inl]: the return code of
    an early return. *)
Definition ensure_buf px (sid : Z) : lres (posix F * (Z + unit)) :=
  let! s := get_stream px sid in
  match sb_buf (s_b s) with
  | Some _ => LRet (px, inr ())
  | None =>
      let! '(px, setvbuf_rc) := unifyfs_setvbuf px sid None (sb_buftype (s_b s)) UNIFYFS_CLIENT_STREAM_BUFSIZE in
      if negb (setvbuf_rc =? UNIFYFS_SUCCESS) then
        let! s := get_stream px sid in
        stream_error px sid s (unifyfs_rc_errno setvbuf_rc) (inl setvbuf_rc)
      else LRet (px, inr ())
  end.

(** ** Reading *)

(** The bytes taken from the push-back buffer: how many, and the buffer of the
    caller. *)
Definition take_ungot (u : unget_buf) (buf : Z -> Z) (remaining : Z) : lres (unget_buf * (Z -> Z) * Z) :=
  let ubuflen := ub_ubuflen u in
  if ubuflen >? 0 then
    let ubuf_chars := if remaining <? ubuflen then remaining else ubuflen in
    let! ubuf := lift_option (ub_ubuf u) in
    LRet (ub_set_len (ubuflen - ubuf_chars) u, memcpy buf 0 ubuf (ub_ubufsize u - ubuflen) ubuf_chars, ubuf_chars)
  else LRet (u, buf, 0).

(** One round of the loop when the position is outside the buffer: what the
    buffer held is flushed, and it is filled from the position on.  The result
    tells whether the read was short. *)
Definition refill_buf px (sid current : Z) : lres (posix F * (Z + bool)) :=
  let! '(px, flush_rc) := unifyfs_stream_flush px sid in
  if negb (flush_rc =? UNIFYFS_SUCCESS) then LRet (px, inl flush_rc)
  else
    let! s := get_stream px sid in
    let! sbuf := lift_option (sb_buf (s_b s)) in
    let! '(px, (read_rc, nread, sbuf)) := unifyfs_fd_read px (s_fd s) current sbuf (sb_bufsize (s_b s)) in
    if negb (read_rc =? UNIFYFS_SUCCESS) then
      let s := s_set_b (sb_set_data sbuf (sb_bufpos (s_b s)) (sb_buflen (s_b s)) (sb_bufdirty (s_b s)) (s_b s)) s in
      stream_error px sid s (unifyfs_rc_errno read_rc) (inl EIO)
    else
      let s := s_set_b (sb_set_data sbuf current nread (sb_bufdirty (s_b s)) (s_b s)) s in
      LRet (put_stream sid s px, inr (nread <? sb_bufsize (s_b s))).

(** The loop over the buffer; [inl]: an early return, otherwise what remains to
    be read and the buffer of the caller.  Without fuel it does not return. *)
Fixpoint read_loop (fuel : nat) px (sid current remaining count : Z) (buf : Z -> Z) (eof : bool)
    : lres (posix F * (Z + Z) * (Z -> Z)) :=
  if (remaining >? 0) && negb eof then
    match fuel with
    | O => LBlocked
    | S fuel =>
        let! s := get_stream px sid in
        let start := sb_bufpos (s_b s) in
        let length := sb_buflen (s_b s) in
        let! '(px, r) :=
          if (current <? start) || (current >=? start + length) then refill_buf px sid current else LRet (px, inr false) in
        match r with
        | inl rc => LRet (px, inl rc, buf)
        | inr short =>
            let! s := get_stream px sid in
            let stream_offset := u64 (current - sb_bufpos (s_b s)) in
            let stream_remaining := sb_buflen (s_b s) ⊟ stream_offset in
            let bytes := if stream_remaining >? remaining then remaining else stream_remaining in
            let! sbuf := lift_option (sb_buf (s_b s)) in
            let buf := if bytes >? 0 then memcpy buf (count - remaining) sbuf stream_offset bytes else buf in
            read_loop fuel px sid (current + bytes) (remaining - bytes) count buf short
        end
    end
  else LRet (px, inr remaining, buf).

(** The return code, the number of bytes read (set on success only) and the
    buffer of the caller. *)
Definition unifyfs_stream_read px (sid : Z) (buf : Z -> Z) (count : Z) : lres (posix F * (Z * Z * (Z -> Z))) :=
  let! s := get_stream px sid in
  let s := s_set_ptr P_NULL 0 s in
  let px := put_stream sid s px in
  match unifyfs_get_filedesc_from_fd px (s_fd s) with
  | None => stream_error px sid s EBADF (EBADF, 0, buf)
  | Some filedesc =>
      if negb (fd_read filedesc) then stream_error px sid s EBADF (EBADF, 0, buf)
      else
        let! '(px, r) := ensure_buf px sid in
        match r with
        | inl rc => LRet (px, (rc, 0, buf))
        | inr _ =>
            let! s := get_stream px sid in
            if s_eof s then LRet (px, (UNIFYFS_FAILURE, 0, buf))
            else
              let current := fd_pos filedesc in
              if unifyfs_would_overflow_offt current (off_t_of count) then stream_error px sid s EOVERFLOW (EOVERFLOW, 0, buf)
              else
                let! '(u, buf, ubuf_chars) := take_ungot (s_u s) buf count in
                let px := put_stream sid (s_set_u u s) px in
                let! '(px, r, buf) :=
                  read_loop (S (Z.to_nat (count - ubuf_chars))) px sid (current + ubuf_chars) (count - ubuf_chars) count buf false in
                match r with
                | inl rc => LRet (px, (rc, 0, buf))
                | inr remaining =>
                    let retcount := count - remaining in
                    let px := put_fd (s_fd s) (fun d => fd_set_pos (fd_pos d + retcount) d) px in
                    if retcount <? count then
                      let! s := get_stream px sid in
                      LRet (put_stream sid (s_set_eof true s) px, (UNIFYFS_SUCCESS, retcount, buf))
                    else LRet (px, (UNIFYFS_SUCCESS, retcount, buf))
                end
        end
  end.

(** ** Writing *)

(** The bytes up to the first newline, with it, or all of them. *)
Fixpoint scan_line (l : list Z) : Z * bool :=
  match l with
  | [] => (0, false)
  | c :: l => if c =? newline then (1, true) else let '(n, found) := scan_line l in (n + 1, found)
  end.

(** How many bytes of [data] a round copies to the buffer, whether the buffer is
    flushed then, and whether a line does not fit. *)
Definition write_amount (b : stream_buf) (data : list Z) : Z * bool * bool :=
  let remaining := Z.of_nat (length data) in
  let stream_remaining := sb_bufsize b ⊟ sb_buflen b in
  if sb_buftype b =? _IOLBF then
    let '(bytes, found) := scan_line data in
    (bytes, found, (bytes >? stream_remaining) || ((bytes =? stream_remaining) && negb found))
  else if remaining >=? stream_remaining then (stream_remaining, true, false)
  else (remaining, false, false).

(** The loop over the rest [data] of the data of the caller; the return code
    and the position. *)
Fixpoint write_loop (fuel : nat) px (sid current : Z) (data : list Z) : lres (posix F * (Z + Z)) :=
  let remaining := Z.of_nat (length data) in
  if remaining >? 0 then
    match fuel with
    | O => LBlocked
    | S fuel =>
        let! s := get_stream px sid in
        let! sbuf := lift_option (sb_buf (s_b s)) in
        let s :=
          if negb (sb_bufdirty (s_b s)) then s_set_b (sb_set_data sbuf current 0 false (s_b s)) s else s in
        let px := put_stream sid s px in
        let stream_offset := sb_buflen (s_b s) in
        let '(bytes, need_flush, overrun) := write_amount (s_b s) data in
        if overrun then stream_error px sid s ENOMEM (inl ENOMEM)
        else
          let px :=
            if bytes >? 0 then
              put_stream sid (s_set_b (sb_set_data (region_write sbuf stream_offset (take (Z.to_nat bytes) data))
                (sb_bufpos (s_b s)) (stream_offset + bytes) true (s_b s)) s) px
            else px in
          let! '(px, flush_rc) := if need_flush then unifyfs_stream_flush px sid else LRet (px, UNIFYFS_SUCCESS) in
          if negb (flush_rc =? UNIFYFS_SUCCESS) then LRet (px, inl flush_rc)
          else write_loop fuel px sid (current + bytes) (drop (Z.to_nat bytes) data)
    end
  else LRet (px, inr current).

(** The push-back bytes that a write of [count] bytes leaves. *)
Definition drop_ungot (count : Z) (u : unget_buf) : unget_buf :=
  if ub_ubuflen u >? 0 then
    if count >=? ub_ubuflen u then ub_set_len 0 u else ub_set_len (ub_ubuflen u - count) u
  else u.

(** The position of the write; [inl]: an early return. *)
Definition write_position px (sid : Z) s (filedesc : unifyfs_fd_t) (count : Z) : lres (posix F * (Z + Z)) :=
  if s_append s then
    let fid := unifyfs_get_fid_from_fd px (s_fd s) in
    if fid <? 0 then stream_error px sid s EBADF (inl EBADF)
    else
      let! '(f, current) := fl_logical_size (px_files px) fid in
      LRet (put_stream sid (s_set_u (ub_set_len 0 (s_u s)) s) (px_set_files f px), inr current)
  else LRet (put_stream sid (s_set_u (drop_ungot count (s_u s)) s) px, inr (fd_pos filedesc)).

Definition unifyfs_stream_write px (sid : Z) (buf : list Z) : lres (posix F * Z) :=
  let count := Z.of_nat (length buf) in
  let! s := get_stream px sid in
  let s := s_set_ptr P_NULL 0 s in
  let px := put_stream sid s px in
  match unifyfs_get_filedesc_from_fd px (s_fd s) with
  | None => stream_error px sid s EBADF EBADF
  | Some filedesc =>
      if negb (fd_write filedesc) then stream_error px sid s EBADF EBADF
      else
        let! '(px, r) := write_position px sid s filedesc count in
        match r with
        | inl rc => LRet (px, rc)
        | inr current =>
            let! s := get_stream px sid in
            if unifyfs_would_overflow_offt current (off_t_of count) then stream_error px sid s EFBIG EFBIG
            else
              let! '(px, r) := ensure_buf px sid in
              match r with
              | inl rc => LRet (px, rc)
              | inr _ =>
                  let! s := get_stream px sid in
                  if sb_buftype (s_b s) =? _IONBF then
                    let! '(px, (write_rc, nwritten)) := unifyfs_fd_write px (s_fd s) current buf in
                    if negb (write_rc =? UNIFYFS_SUCCESS) then stream_error px sid s (unifyfs_rc_errno write_rc) write_rc
                    else LRet (put_fd (s_fd s) (fd_set_pos (current + nwritten)) px, UNIFYFS_SUCCESS)
                  else
                    let! '(px, r) := write_loop (S (length buf)) px sid current buf in
                    match r with
                    | inl rc => LRet (px, rc)
                    | inr current => LRet (put_fd (s_fd s) (fd_set_pos current) px, UNIFYFS_SUCCESS)
                    end
              end
        end
  end.

(** ** The file position *)

(** The new position by [whence]; then the push-back buffer is discarded, the
    position saved and the end-of-file indicator cleared. *)
Definition fseek_switch px (sid : Z) s (fid current_pos offset whence : Z) : lres (posix F * Z) :=
  let seek_to px pos :=
    let u := match ub_ubuf (s_u s) with Some _ => ub_set_len 0 (s_u s) | None => s_u s end in
    let px := put_fd (s_fd s) (fd_set_pos pos) (put_stream sid (s_set_eof false (s_set_u u s)) px) in
    ret_errno px 0 0 in
  if whence =? SEEK_SET then
    if offset <? 0 then ret_errno px EINVAL (-1) else seek_to px offset
  else if whence =? SEEK_CUR then
    if unifyfs_would_overflow_offt current_pos offset then stream_error px sid s EOVERFLOW (-1)
    else if current_pos + offset <? 0 then ret_errno px EINVAL (-1)
    else seek_to px (current_pos + offset)
  else if whence =? SEEK_END then
    let! '(f, filesize) := fl_logical_size (px_files px) fid in
    let px := px_set_files f px in
    if unifyfs_would_overflow_offt filesize offset then stream_error px sid s EOVERFLOW (-1)
    else if filesize + offset <? 0 then ret_errno px EINVAL (-1)
    else seek_to px (filesize + offset)
  else stream_error px sid s EINVAL (-1).

Definition unifyfs_fseek px (sid offset whence : Z) : lres (posix F * Z) :=
  let! s := get_stream px sid in
  let s := s_set_ptr P_NULL 0 s in
  let px := put_stream sid s px in
  match unifyfs_get_filedesc_from_fd px (s_fd s) with
  | None => stream_error px sid s EBADF (-1)
  | Some filedesc =>
      let! '(px, flush_rc) := unifyfs_stream_flush px sid in
      if negb (flush_rc =? UNIFYFS_SUCCESS) then LRet (px, -1)
      else
        let! s := get_stream px sid in
        let fid := unifyfs_get_fid_from_fd px (s_fd s) in
        if fid <? 0 then stream_error px sid s EBADF (-1)
        else fseek_switch px sid s fid (fd_pos filedesc) offset whence
  end.

Definition fseek px (stream : file_ptr) (offset whence : Z) : call (posix F * Z) :=
  on_stream px stream (fun sid => unifyfs_fseek px sid offset whence).

Definition fseeko px (stream : file_ptr) (offset whence : Z) : call (posix F * Z) :=
  on_stream px stream (fun sid => unifyfs_fseek px sid offset whence).

Definition stream_tell px (sid : Z) : lres (posix F * Z) :=
  let! s := get_stream px sid in
  match unifyfs_get_filedesc_from_fd px (s_fd s) with
  | None => stream_error px sid s EBADF (-1)
  | Some filedesc => ret_errno px 0 (fd_pos filedesc)
  end.

Definition ftell px (stream : file_ptr) : call (posix F * Z) := on_stream px stream (stream_tell px).

Definition ftello px (stream : file_ptr) : call (posix F * Z) := on_stream px stream (stream_tell px).

Definition rewind px (stream : file_ptr) : call (posix F) :=
  on_stream px stream (fun sid =>
    let! s := get_stream px sid in
    if s_fd s <? 0 then LRet (px_set_errno EBADF px)
    else
      let! '(px, rc) := unifyfs_fseek px sid 0 SEEK_SET in
      let! s := get_stream px sid in
      let px := if rc =? 0 then put_stream sid (s_set_err false s) px else px in
      LRet (px_set_errno (unifyfs_rc_errno rc) px)).

(** The positions that [fgetpos] allocated, by address. *)
Definition fpos_heap : Type := gmap Z Z.

Definition fgetpos px (h : fpos_heap) (stream : file_ptr) : call (posix F * fpos_heap * (Z * option Z)) :=
  on_stream px stream (fun sid =>
    if negb (pc_fpos_enabled (px_cfg px)) then LRet (px_set_errno EOVERFLOW px, h, (1, None))
    else
      let! s := get_stream px sid in
      match unifyfs_get_filedesc_from_fd px (s_fd s) with
      | None => LRet (px_set_errno EBADF px, h, (1, None))
      | Some filedesc =>
          let '(p, m) := calloc (px_mem px) in
          let px := px_set_mem m px in
          match p with
          | None => LRet (px_set_errno ENOMEM px, h, (1, None))
          | Some state => LRet (px_set_errno 0 px, <[state := fd_pos filedesc]> h, (0, Some state))
          end
      end).

(** [state]: the pointer that [pos] holds; memory that is not allocated is not
    to be read. *)
Definition fsetpos px (h : fpos_heap) (stream : file_ptr) (state : Z) : call (posix F * fpos_heap * Z) :=
  on_stream px stream (fun sid =>
    if negb (pc_fpos_enabled (px_cfg px)) then
      let! s := get_stream px sid in
      LRet (px_set_errno EOVERFLOW (put_stream sid (s_set_err true s) px), h, -1)
    else
      let! pos := lift_option (h !! state) in
      let! '(px, seek_rc) := unifyfs_fseek px sid pos SEEK_SET in
      if negb (seek_rc =? 0) then LRet (px, h, seek_rc) else LRet (px, delete state h, 0)).

(** ** Characters, lines and blocks *)

(** The size of the push-back buffer that makes room for one more byte. *)
Definition grow_ubuf px (u : unget_buf) : posix F * option unget_buf :=
  if ub_ubufsize u - ub_ubuflen u =? 0 then
    let newsize := if ub_ubufsize u >? 0 then ub_ubufsize u * 2 else 1 in
    if newsize >? 1024 then (px, None)
    else
      let '(p, m) := calloc (px_mem px) in
      let px := px_set_mem m px in
      match p with
      | None => (px, None)
      | Some _ =>
          let len := ub_ubuflen u in
          let newbuf := pc_junk (px_cfg px) in
          let newbuf :=
            match ub_ubuf u with
            | Some oldbuf => if len >? 0 then memcpy newbuf (newsize - len) oldbuf (ub_ubufsize u - len) len else newbuf
            | None => newbuf
            end in
          (px, Some (UngetBuf (Some newbuf) newsize len))
      end
  else (px, Some u).

Definition stream_ungetc px (sid c : Z) : lres (posix F * Z) :=
  if c =? EOF then LRet (px, EOF)
  else
    let uc := c mod 256 in
    let! s := get_stream px sid in
    match unifyfs_get_filedesc_from_fd px (s_fd s) with
    | None => LRet (px, EOF)
    | Some filedesc =>
        if fd_pos filedesc <=? 0 then LRet (px, EOF)
        else
          let '(px, u) := grow_ubuf px (s_u s) in
          match u with
          | None => LRet (px, EOF)
          | Some u =>
              let! ubuf := lift_option (ub_ubuf u) in
              let len := ub_ubuflen u + 1 in
              let pos := ub_ubufsize u - len in
              let s := s_set_u (UngetBuf (Some (region_write ubuf pos [uc])) (ub_ubufsize u) len) s in
              let s := s_set_eof false (s_set_ptr (P_UBUF pos) len s) in
              LRet (put_fd (s_fd s) (fun d => fd_set_pos (fd_pos d - 1) d) (put_stream sid s px), uc)
          end
    end.

Definition ungetc px (c : Z) (stream : file_ptr) : call (posix F * Z) := on_stream px stream (fun sid => stream_ungetc px sid c).

Definition stream_getc px (sid : Z) : lres (posix F * Z) :=
  let! '(px, (read_rc, retcount, buf)) := unifyfs_stream_read px sid (pc_junk (px_cfg px)) 1 in
  if negb (read_rc =? UNIFYFS_SUCCESS) || (retcount =? 0) then LRet (px, EOF) else LRet (px, buf 0).

(** [getc] sets [errno] to 0 when it returns a byte, [fgetc] does not. *)
Definition fgetc px (stream : file_ptr) : call (posix F * Z) := on_stream px stream (stream_getc px).

Definition getc px (stream : file_ptr) : call (posix F * Z) :=
  on_stream px stream (fun sid =>
    let! '(px, (read_rc, retcount, buf)) := unifyfs_stream_read px sid (pc_junk (px_cfg px)) 1 in
    if negb (read_rc =? UNIFYFS_SUCCESS) || (retcount =? 0) then LRet (px, EOF) else ret_errno px 0 (buf 0)).

Definition stream_putc px (sid c : Z) : lres (posix F * Z) :=
  let charbuf := c mod 256 in
  let! '(px, write_rc) := unifyfs_stream_write px sid [charbuf] in
  if negb (write_rc =? UNIFYFS_SUCCESS) then LRet (px, EOF) else ret_errno px 0 charbuf.

Definition fputc px (c : Z) (stream : file_ptr) : call (posix F * Z) := on_stream px stream (fun sid => stream_putc px sid c).

Definition putc px (c : Z) (stream : file_ptr) : call (posix F * Z) := on_stream px stream (fun sid => stream_putc px sid c).

(** The loop of [fgets]: [limit] bytes of the buffer [dst] of the caller are
    filled; the number of bytes that a read returned is not looked at, the byte
    [charbuf] then has what the stack had.  [None]: the null pointer. *)
Fixpoint fgets_loop (rest : nat) px (sid : Z) (dst : Z -> Z) (limit : Z) : lres (posix F * (bool * (Z -> Z))) :=
  match rest with
  | O => ret_errno px 0 (true, region_write dst limit [0])
  | S rest =>
      let! '(px, (read_rc, _, charbuf)) := unifyfs_stream_read px sid (pc_junk (px_cfg px)) 1 in
      if negb (read_rc =? UNIFYFS_SUCCESS) then
        let! s := get_stream px sid in
        LRet (px, (false, if negb (s_err s) then region_write dst limit [0] else dst))
      else
        let dst := region_write dst limit [charbuf 0] in
        if charbuf 0 =? newline then ret_errno px 0 (true, region_write dst (limit + 1) [0])
        else fgets_loop rest px sid dst (limit + 1)
  end.

(** Whether the pointer to the buffer is returned, and the buffer. *)
Definition fgets px (dst : Z -> Z) (n : Z) (stream : file_ptr) : call (posix F * (bool * (Z -> Z))) :=
  on_stream px stream (fun sid =>
    if n <=? 0 then
      let! s := get_stream px sid in stream_error px sid s ENOMEM (false, dst)
    else fgets_loop (Z.to_nat (n - 1)) px sid dst 0).

(** [str]: the bytes before the terminating zero. *)
Definition fputs px (str : list Z) (stream : file_ptr) : call (posix F * Z) :=
  on_stream px stream (fun sid =>
    let! '(px, write_rc) := unifyfs_stream_write px sid str in
    if negb (write_rc =? UNIFYFS_SUCCESS) then LRet (px, EOF) else ret_errno px 0 0).

Definition fread px (ptr : Z -> Z) (size nitems : Z) (stream : file_ptr) : call (posix F * (Z * (Z -> Z))) :=
  on_stream px stream (fun sid =>
    if (size =? 0) || (nitems =? 0) then LRet (px, (0, ptr))
    else
      let count := u64 (size * nitems) in
      let! '(px, (read_rc, retcount, ptr)) := unifyfs_stream_read px sid ptr count in
      if negb (read_rc =? UNIFYFS_SUCCESS) then LRet (px, (0, ptr))
      else ret_errno px 0 (if retcount <? count then retcount / size else nitems, ptr)).

(** [ptr]: the memory of the caller, [size * nitems] bytes of which are
    written. *)
Definition fwrite px (ptr : Z -> Z) (size nitems : Z) (stream : file_ptr) : call (posix F * Z) :=
  on_stream px stream (fun sid =>
    if (size =? 0) || (nitems =? 0) then LRet (px, 0)
    else
      let! '(px, write_rc) := unifyfs_stream_write px sid (region_read ptr 0 (u64 (size * nitems))) in
      if negb (write_rc =? UNIFYFS_SUCCESS) then LRet (px, 0) else ret_errno px 0 nitems).

(** [text]: the formatted text. *)
Definition vfprintf px (text : list Z) (stream : file_ptr) : call (posix F * Z) :=
  on_stream px stream (fun sid =>
    let '(str, m) := calloc (px_mem px) in
    let px := px_set_mem m px in
    match str with
    | None => let! s := get_stream px sid in stream_error px sid s ENOMEM (-1)
    | Some _ =>
        let! '(px, write_rc) := unifyfs_stream_write px sid text in
        if negb (write_rc =? UNIFYFS_SUCCESS) then LRet (px, -1) else ret_errno px 0 (Z.of_nat (length text))
    end).

Definition fprintf px (text : list Z) (stream : file_ptr) : call (posix F * Z) :=
  match unifyfs_intercept_stream px stream with Some _ => vfprintf px text stream | None => System end.

(** ** State of a stream *)

(** The loop of [fflush(NULL)] over the streams. *)
Fixpoint flush_all px (sids : list Z) (ret : Z) : lres (posix F * Z) :=
  match sids with
  | [] => LRet (px, ret)
  | sid :: sids =>
      let! s := get_stream px sid in
      if s_fd s >=? 0 then
        let! '(px, flush_rc) := unifyfs_stream_flush px sid in
        flush_all px sids (if negb (flush_rc =? UNIFYFS_SUCCESS) then EOF else ret)
      else flush_all px sids ret
  end.

(** [real]: what the C library returns for its own streams, and [errno]. *)
Definition fflush px (real : Z * Z) (stream : option file_ptr) : call (posix F * Z) :=
  match stream with
  | None =>
      Ours (let! '(px, ret) := flush_all (px_set_errno (snd real) px) (seqZ 0 UNIFYFS_CLIENT_MAX_FILES) (fst real) in
            LRet (if ret =? 0 then px_set_errno 0 px else px, ret))
  | Some stream =>
      on_stream px stream (fun sid =>
        let! '(px, rc) := unifyfs_stream_flush px sid in
        if negb (rc =? UNIFYFS_SUCCESS) then LRet (px, EOF) else ret_errno px 0 0)
  end.

Definition feof px (stream : file_ptr) : call (posix F * bool) :=
  on_stream px stream (fun sid => let! s := get_stream px sid in LRet (px, s_eof s)).

Definition ferror px (stream : file_ptr) : call (posix F * bool) :=
  on_stream px stream (fun sid => let! s := get_stream px sid in LRet (px, s_err s)).

Definition clearerr px (stream : file_ptr) : call (posix F) :=
  on_stream px stream (fun sid =>
    let! s := get_stream px sid in LRet (put_stream sid (s_set_eof false (s_set_err false s)) px)).

Definition fileno px (stream : file_ptr) : call (posix F * Z) :=
  on_stream px stream (fun sid =>
    let! s := get_stream px sid in
    if s_fd s <? 0 then ret_errno px EBADF (-1) else ret_errno px 0 (s_fd s + pc_fd_limit (px_cfg px))).

Definition freopen px (stream : file_ptr) : call (posix F * option Z) :=
  on_stream px stream (fun sid => let! s := get_stream px sid in stream_error px sid s EIO None).

(** The buffers are freed: an own buffer, and the push-back buffer. *)
Definition free_bufs s : unifyfs_stream_t :=
  let b := s_b s in
  let s := if sb_buffree b then
      s_set_b (StreamBuf None false (sb_buftype b) (sb_bufsize b) (sb_bufpos b) (sb_buflen b) (sb_bufdirty b)) s
    else s in
  s_set_u (UngetBuf None (ub_ubufsize (s_u s)) (ub_ubuflen (s_u s))) s.

Definition stream_close px (sid : Z) : lres (posix F * Z) :=
  let! s := get_stream px sid in
  let fid := unifyfs_get_fid_from_fd px (s_fd s) in
  if fid <? 0 then ret_errno px EBADF EOF
  else
    let! '(px, flush_rc) := unifyfs_stream_flush px sid in
    if negb (flush_rc =? UNIFYFS_SUCCESS) then LRet (px, EOF)
    else
      let! s := get_stream px sid in
      let px := put_stream sid (free_bufs s) px in
      let! '(f, close_rc) := fl_close (px_files px) fid in
      let px := px_set_files f px in
      if negb (close_rc =? UNIFYFS_SUCCESS) then ret_errno px (unifyfs_rc_errno close_rc) EOF
      else
        let! px := push_fd (unifyfs_fd_init px (s_fd s)) (s_fd s) in
        let px := unifyfs_stream_init px (s_sid s) in
        let! st := lift_option (unifyfs_stack_push (px_stream_stack px) (s_sid s)) in
        ret_errno (px_set_stream_stack st px) 0 0.

Definition fclose px (stream : file_ptr) : call (posix F * Z) := on_stream px stream (stream_close px).

(** ** Wide characters *)

Definition WEOF : Z := 4294967295.

(** The error indicator is set and the call fails. *)
Definition unsupported_stream {A} px (stream : file_ptr) (r : A) : call (posix F * A) :=
  on_stream px stream (fun sid => let! s := get_stream px sid in stream_error px sid s EIO r).

Definition fwprintf px (stream : file_ptr) : call (posix F * Z) := unsupported_stream px stream (-1).
Definition fwscanf px (stream : file_ptr) : call (posix F * Z) := unsupported_stream px stream EOF.
Definition vfwprintf px (stream : file_ptr) : call (posix F * Z) := unsupported_stream px stream (-1).
Definition vfwscanf px (stream : file_ptr) : call (posix F * Z) := unsupported_stream px stream EOF.
Definition fgetwc px (stream : file_ptr) : call (posix F * Z) := unsupported_stream px stream WEOF.
Definition fgetws px (stream : file_ptr) : call (posix F * option Z) := unsupported_stream px stream None.
Definition fputwc px (stream : file_ptr) : call (posix F * Z) := unsupported_stream px stream WEOF.
Definition fputws px (stream : file_ptr) : call (posix F * Z) := unsupported_stream px stream (-1).
Definition fwide px (stream : file_ptr) : call (posix F * Z) := unsupported_stream px stream 0.
Definition getwc px (stream : file_ptr) : call (posix F * Z) := unsupported_stream px stream WEOF.
Definition putwc px (stream : file_ptr) : call (posix F * Z) := unsupported_stream px stream WEOF.
Definition ungetwc px (stream : file_ptr) : call (posix F * Z) := unsupported_stream px stream WEOF.

(** ** Pointers into the buffer *)

Definition unifyfs_stream_set_pointers px (sid : Z) : lres (posix F * Z) :=
  let! s := get_stream px sid in
  match unifyfs_get_filedesc_from_fd px (s_fd s) with
  | None => stream_error px sid s EBADF EBADF
  | Some filedesc =>
      let u := s_u s in
      if ub_ubuflen u >? 0 then
        LRet (put_stream sid (s_set_ptr (P_UBUF (ub_ubufsize u - ub_ubuflen u)) (ub_ubuflen u) s) px, UNIFYFS_SUCCESS)
      else
        let current := fd_pos filedesc in
        let start := sb_bufpos (s_b s) in
        if (current <? start) || (current >=? start + sb_buflen (s_b s)) then
          LRet (put_stream sid (s_set_ptr P_NULL 0 s) px, UNIFYFS_SUCCESS)
        else
          let stream_offset := u64 (current - start) in
          LRet (put_stream sid (s_set_ptr (P_BUF stream_offset) (sb_buflen (s_b s) ⊟ stream_offset) s) px, UNIFYFS_SUCCESS)
  end.

(** What [fscanf] calls when it has used up the bytes at [_p]; 0 when there are
    more. *)
Definition __srefill px (sid : Z) : lres (posix F * Z) :=
  let! s := get_stream px sid in
  match unifyfs_get_filedesc_from_fd px (s_fd s) with
  | None => stream_error px sid s EBADF 1
  | Some filedesc =>
      if negb (fd_read filedesc) then stream_error px sid s EBADF 1
      else
        let! '(px, r) := ensure_buf px sid in
        match r with
        | inl _ => LRet (px, 1)
        | inr _ =>
            let! s := get_stream px sid in
            let u := s_u s in
            if ub_ubuflen u >? 0 then
              LRet (put_stream sid (s_set_ptr (P_UBUF (ub_ubufsize u - ub_ubuflen u)) (ub_ubuflen u) s) px, 1)
            else
              let current := fd_pos filedesc in
              let start := sb_bufpos (s_b s) in
              let! '(px, ok) :=
                if (current <? start) || (current >=? start + sb_buflen (s_b s)) then
                  let! '(px, flush_rc) := unifyfs_stream_flush px sid in
                  if negb (flush_rc =? UNIFYFS_SUCCESS) then LRet (px, false)
                  else
                    let! s := get_stream px sid in
                    let! sbuf := lift_option (sb_buf (s_b s)) in
                    let! '(px, (read_rc, nread, sbuf)) := unifyfs_fd_read px (s_fd s) current sbuf (sb_bufsize (s_b s)) in
                    let b := s_b s in
                    if negb (read_rc =? UNIFYFS_SUCCESS) then
                      stream_error px sid (s_set_b (sb_set_data sbuf (sb_bufpos b) (sb_buflen b) (sb_bufdirty b) b) s)
                        (unifyfs_rc_errno read_rc) false
                    else
                      let px := put_fd (s_fd s) (fd_set_pos (current + nread)) px in
                      LRet (put_stream sid (s_set_b (sb_set_data sbuf current nread (sb_bufdirty b) b) s) px, true)
                else LRet (px, true) in
              if negb ok then LRet (px, 1)
              else
                let! s := get_stream px sid in
                let stream_offset := u64 (current - sb_bufpos (s_b s)) in
                let stream_remaining := sb_buflen (s_b s) ⊟ stream_offset in
                LRet (put_stream sid (s_set_ptr (P_BUF stream_offset) stream_remaining s) px,
                      if stream_remaining =? 0 then 1 else 0)
        end
  end.

End StdIO.
