(* ===== verification/FileSpec.v ===== *)
(** * Files as sequences of bytes

    The contract between the files of the client and the calls of the POSIX
    interface: a file is a sequence of bytes, a write replaces a range of it and
    fills the gap before the range with zeros, a read returns what is there.
    The theorems on descriptors and streams are proved against this contract;
    [byte_files] is the simplest implementation of it. *)

From Stdlib Require Import String.
From S2P Require Import Prelude.
From S2P Require Import LogIO.
From S2P Require Import Inode.
From S2P Require Import Client.
From S2P Require Import ClientRead.
From S2P Require Import PosixClient.
From S2P Require Import SysIO.

(** ** Sequences of bytes *)

Abbreviation zlen l := (Z.of_nat (length l)).

(** The byte at a position, 0 beyond the end. *)
Definition byte (bs : list Z) (x : Z) : Z := if x <? 0 then 0 else default 0 (bs !! Z.to_nat x).

(** The contents after the write of [data] at [pos]. *)
Definition splice (bs : list Z) (pos : Z) (data : list Z) : list Z :=
  if bool_decide (data = []) then bs
  else (fun x => if (pos <=? x) && (x <? pos + zlen data) then byte data (x - pos) else byte bs x) <$>
    seqZ 0 (Z.max (zlen bs) (pos + zlen data)).

(** How many of [count] bytes from [pos] on there are. *)
Definition avail (bs : list Z) (pos count : Z) : Z := Z.max 0 (Z.min count (zlen bs - pos)).

(** The bytes that a read of [count] bytes at [pos] returns. *)
Definition slice (bs : list Z) (pos count : Z) : list Z := byte bs <$> seqZ pos (avail bs pos count).

Lemma byte_beyond bs x : zlen bs <= x -> byte bs x = 0.
Proof. intros H. unfold byte. destruct (x <? 0); [done|]. rewrite lookup_ge_None_2 //. lia. Qed.

Lemma byte_ext bs bs' : length bs = length bs' -> (forall x, 0 <= x < zlen bs -> byte bs x = byte bs' x) -> bs = bs'.
Proof.
  intros Hl Hb. apply list_eq_same_length with (length bs); [done|done|]. intros i x y Hi Hx Hy.
  specialize (Hb (Z.of_nat i) ltac:(lia)). unfold byte in Hb. rewrite (proj2 (Z.ltb_ge _ _)) in Hb; [lia|].
  by rewrite Nat2Z.id Hx Hy in Hb.
Qed.

Lemma byte_fmap_seqZ (g : Z -> Z) n x : byte (g <$> seqZ 0 n) x = if (0 <=? x) && (x <? n) then g x else 0.
Proof.
  unfold byte. destruct (x <? 0) eqn:Hx; zbool; [by rewrite (proj2 (Z.leb_gt 0 x))|]. rewrite (proj2 (Z.leb_le 0 x)) //=.
  rewrite list_lookup_fmap. destruct (x <? n) eqn:Hn; zbool.
  - rewrite lookup_seqZ_lt; [lia|]. simpl. f_equal. lia.
  - rewrite lookup_seqZ_ge //. lia.
Qed.

Lemma splice_nil bs pos : splice bs pos [] = bs.
Proof. done. Qed.

Lemma splice_length bs pos data : data <> [] -> 0 <= pos -> zlen (splice bs pos data) = Z.max (zlen bs) (pos + zlen data).
Proof. intros Hd Hp. unfold splice. rewrite bool_decide_false // length_fmap length_seqZ. lia. Qed.

Lemma splice_byte bs pos data x :
  0 <= pos -> byte (splice bs pos data) x = if (pos <=? x) && (x <? pos + zlen data) then byte data (x - pos) else byte bs x.
Proof.
  intros Hp. unfold splice. destruct (bool_decide_reflect (data = [])) as [->|Hd].
  - simpl. destruct (_ && _) eqn:Hb; [zbool; lia|done].
  - rewrite byte_fmap_seqZ. destruct (_ && (x <? Z.max _ _)) eqn:Hb; [done|].
    destruct (_ && (x <? pos + _)) eqn:Hb2.
    + zbool. apply andb_false_iff in Hb as [?|?]; zbool; lia.
    + apply andb_false_iff in Hb as [?|?]; zbool.
      * unfold byte. by rewrite (proj2 (Z.ltb_lt x 0)).
      * rewrite byte_beyond //. lia.
Qed.

(** Two writes, one after the other. *)
Lemma splice_app bs pos d1 d2 : 0 <= pos -> splice (splice bs pos d1) (pos + zlen d1) d2 = splice bs pos (d1 ++ d2).
Proof.
  intros Hp. destruct (decide (d1 = [])) as [->|H1]; [simpl; by rewrite Z.add_0_r|].
  destruct (decide (d2 = [])) as [->|H2]; [by rewrite app_nil_r|].
  assert (d1 ++ d2 <> []) as H12 by (destruct d1; done). assert (zlen (d1 ++ d2) = zlen d1 + zlen d2) as Hl by (rewrite length_app; lia).
  apply byte_ext.
  - apply Nat2Z.inj. rewrite !splice_length // ?Hl; lia.
  - intros x _. rewrite !splice_byte; try lia. rewrite Hl.
    repeat match goal with |- context [if ?b then _ else _] => destruct b eqn:? end; zbool;
      repeat match goal with H : (_ && _) = false |- _ => apply andb_false_iff in H as [?|?]; zbool end; try lia; try done.
    + unfold byte. rewrite !(proj2 (Z.ltb_ge _ _)); try lia. rewrite lookup_app_r; [lia|]. do 2 f_equal. lia.
    + unfold byte. rewrite !(proj2 (Z.ltb_ge _ _)); try lia. by rewrite lookup_app_l; [lia|].
Qed.

(** Writing what is there already. *)
Lemma splice_idem bs pos data : 0 <= pos -> splice (splice bs pos data) pos data = splice bs pos data.
Proof.
  intros Hp. destruct (decide (data = [])) as [->|Hd]; [done|]. apply byte_ext.
  - apply Nat2Z.inj. rewrite !splice_length //. lia.
  - intros x _. rewrite !splice_byte //. by destruct (_ && _).
Qed.

Lemma byte_region r n x : 0 <= x < n -> byte (region_read r 0 n) x = r x.
Proof. intros Hx. unfold region_read. rewrite byte_fmap_seqZ (proj2 (Z.leb_le _ _)) ?(proj2 (Z.ltb_lt _ _)) //; lia. Qed.

Lemma avail_bounds bs pos count : 0 <= count -> 0 <= avail bs pos count <= count /\ (0 < avail bs pos count -> pos + avail bs pos count <= zlen bs).
Proof. unfold avail. lia. Qed.

Lemma slice_length bs pos count : zlen (slice bs pos count) = avail bs pos count.
Proof. unfold slice. rewrite length_fmap length_seqZ. unfold avail. lia. Qed.

(** ** The contract *)

(** A read of a range: all the bytes that there are. *)
Record read_result_ok (bs : list Z) (off len : Z) (req : read_req) : Prop := {
  rres_nread : rr_nread req = avail bs off len;
  rres_data k : 0 <= k < avail bs off len -> rr_buf req k = byte bs (off + k);
}.

Definition read_failed (req : read_req) (ret : Z) : Prop :=
  ret <> UNIFYFS_SUCCESS \/ rr_errcode req <> UNIFYFS_SUCCESS /\ rr_errcode req <> ENODATA.

(** [fs_inv]: what the operations keep; [fs_file]: the contents of a regular
    file; [fs_good f n]: no operation fails until [n] more bytes were
    written. *)
Class FileModel (F : Type) := {
  fs_inv : F -> Prop;
  fs_file : F -> Z -> option (list Z);
  fs_good : F -> Z -> Prop;
}.

(** An operation that changes no contents. *)
Record keeps {F} `{!FileModel F} (f f' : F) : Prop := {
  kp_inv : fs_inv f';
  kp_files i : fs_file f' i = fs_file f i;
  kp_good n : fs_good f n -> fs_good f' n;
}.

Class FileSpec (F : Type) `{!FidLayer F, !FileModel F} := {
  fs_is_dir f fid bs : fs_inv f -> fs_file f fid = Some bs -> exists f', fl_is_dir f fid = LRet (f', false) /\ keeps f f';
  fs_has_meta f fid bs : fs_inv f -> fs_file f fid = Some bs -> exists f', fl_has_meta f fid = LRet (f', true) /\ keeps f f';
  fs_sync f fid bs :
    fs_inv f -> fs_file f fid = Some bs ->
    exists f' rc, fl_sync_extents f fid = LRet (f', rc) /\ keeps f f' /\ forall n, fs_good f n -> rc = UNIFYFS_SUCCESS;
  fs_size f fid bs :
    fs_inv f -> fs_file f fid = Some bs -> exists f', fl_logical_size f fid = LRet (f', zlen bs) /\ keeps f f';
  fs_close f fid bs :
    fs_inv f -> fs_file f fid = Some bs ->
    exists f' rc, fl_close f fid = LRet (f', rc) /\ keeps f f' /\ forall n, fs_good f n -> rc = UNIFYFS_SUCCESS;
  fs_write f fid bs pos data :
    fs_inv f -> fs_file f fid = Some bs -> 0 <= pos -> pos + zlen data <= unifyfs_max_offt ->
    exists f' rc n, fl_write f fid pos data = LRet (f', rc, n) /\ fs_inv f' /\
      (forall i, i <> fid -> fs_file f' i = fs_file f i) /\
      (rc = UNIFYFS_SUCCESS /\ n = zlen data /\ fs_file f' fid = Some (splice bs pos data) \/
       rc <> UNIFYFS_SUCCESS /\ (fs_file f' fid = Some bs \/ fs_file f' fid = Some (splice bs pos data))) /\
      (forall k, 0 <= k -> fs_good f (k + zlen data) -> rc = UNIFYFS_SUCCESS /\ fs_good f' k);
  fs_read f fid bs off len buf :
    fs_inv f -> fs_file f fid = Some bs -> 0 <= off -> 0 < len -> off + len <= unifyfs_max_offt ->
    exists f' req ret, read_one f fid off len buf = LRet (f', req, ret) /\ keeps f f' /\
      (read_failed req ret \/ read_result_ok bs off len req) /\ (forall n, fs_good f n -> ~ read_failed req ret);
  fs_good_le f n k : n <= k -> fs_good f k -> fs_good f n;
}.

(** ** Files in memory *)

(** The files by their id; a write fails once [bf_room] bytes were written. *)
Record byte_files := ByteFiles {
  bf_files : gmap Z (list Z);
  bf_paths : list (string * Z);
  bf_room : Z;
}.

Definition bf_read_req (b : byte_files) (req : read_req) : read_req :=
  match bf_files b !! rr_gfid req with
  | Some bs =>
      rr_set_errcode UNIFYFS_SUCCESS (rr_set_nread (avail bs (rr_offset req) (rr_length req))
        (rr_set_buf (fun k => if (0 <=? k) && (k <? avail bs (rr_offset req) (rr_length req)) then byte bs (rr_offset req + k)
                              else rr_buf req k) req))
  | None => rr_set_errcode ENOENT req
  end.

(** The files that a path names exist from the beginning; opening with
    [O_TRUNC] empties one. *)
#[export] Instance byte_fid_layer : FidLayer byte_files := {
  fl_open b path flags _ :=
    match List.find (fun e => bool_decide (fst e = path)) (bf_paths b) with
    | Some (_, fid) =>
        let b := if bits flags O_TRUNC then ByteFiles (<[fid := []]> (bf_files b)) (bf_paths b) (bf_room b) else b in
        LRet (b, (UNIFYFS_SUCCESS, fid, if bits flags O_APPEND then zlen (default [] (bf_files b !! fid)) else 0))
    | None => LRet (b, (ENOENT, 0, 0))
    end;
  fl_close b _ := LRet (b, UNIFYFS_SUCCESS);
  fl_is_dir b _ := LRet (b, false);
  fl_has_meta b fid := LRet (b, bool_decide (is_Some (bf_files b !! fid)));
  fl_gfid b fid := LRet (b, fid);
  fl_path b fid := LRet (fst <$> List.find (fun e => snd e =? fid) (bf_paths b));
  fl_logical_size b fid := LRet (b, match bf_files b !! fid with Some bs => zlen bs | None => -1 end);
  fl_sync_extents b _ := LRet (b, UNIFYFS_SUCCESS);
  fl_sync_data b _ := LRet (b, UNIFYFS_SUCCESS);
  fl_truncate b fid n :=
    LRet (ByteFiles (alter (fun bs => byte bs <$> seqZ 0 n) fid (bf_files b)) (bf_paths b) (bf_room b), UNIFYFS_SUCCESS);
  fl_write b fid pos data :=
    if zlen data <=? bf_room b then
      LRet (ByteFiles (alter (fun bs => splice bs pos data) fid (bf_files b)) (bf_paths b) (bf_room b - zlen data),
            UNIFYFS_SUCCESS, zlen data)
    else LRet (b, ENOSPC, 0);
  fl_reads b reqs := LRet (b, bf_read_req b <$> reqs, UNIFYFS_SUCCESS);
}.

#[export] Instance byte_file_model : FileModel byte_files := {
  fs_inv _ := True;
  fs_file b fid := bf_files b !! fid;
  fs_good b n := n <= bf_room b;
}.

Lemma byte_keeps (b : byte_files) : keeps b b.
Proof. done. Qed.

#[export] Program Instance byte_file_spec : FileSpec byte_files.
Next Obligation. intros. by eexists. Qed.
Next Obligation. intros b fid bs _ H. exists b. split; [|done]. simpl in *. by rewrite H. Qed.
Next Obligation. intros. by eexists _, _. Qed.
Next Obligation. intros b fid bs _ H. exists b. split; [|done]. simpl in *. by rewrite H. Qed.
Next Obligation. intros. by eexists _, _. Qed.
Next Obligation.
  intros b fid bs pos data _ H _ _. simpl in *. destruct (zlen data <=? bf_room b) eqn:Hr; zbool.
  - eexists _, _, _. split; [done|]. split_and!; [done| | |].
    + intros i Hi. simpl. by rewrite lookup_alter_ne.
    + left. split_and!; [done|done|]. simpl. by rewrite lookup_alter_eq H.
    + intros k Hk ?. simpl. split; [done|lia].
  - eexists _, _, _. split; [done|]. split_and!; [done|done| |lia]. right. split; [done|]. by left.
Qed.
Next Obligation.
  intros b fid bs off len buf _ H Ho Hl _. unfold read_one. cbn in *. unfold bf_read_req. cbn. rewrite H. cbn.
  eexists _, _, _. split; [done|]. split; [done|]. split.
  - right. split; [done|]. intros k Hk. cbn. by rewrite (proj2 (Z.leb_le 0 k)) ?(proj2 (Z.ltb_lt k _)); [lia|lia|].
  - intros n _ [?|[? _]]; done.
Qed.
Next Obligation. cbn. lia. Qed.
