(* ===== verification/FdProps.v ===== *)
(** * Correctness of the calls on file descriptors

    Reads, writes, seeks and synchronisation of one descriptor, against the
    contract of the files. *)

From Stdlib Require Import String.
From S2P Require Import Prelude.
From S2P Require Import LogIO.
From S2P Require Import IdStack.
From S2P Require Import Inode.
From S2P Require Import Client.
From S2P Require Import ClientRead.
From S2P Require Import PosixClient.
From S2P Require Import SysIO.
From S2P Require Import FileSpec.

Lemma would_overflow_false a b :
  0 <= a -> 0 <= b -> a + b <= unifyfs_max_offt -> unifyfs_would_overflow_offt a b = false.
Proof.
  intros Ha Hb Hm. unfold unifyfs_would_overflow_offt. destruct (_ && _) eqn:E; zbool.
  - apply negb_false_iff. rewrite Z.geb_leb. apply Z.leb_le. lia.
  - rewrite (proj2 (Z.ltb_ge a 0)) //.
Qed.

(** The test is exact. *)
Lemma would_overflow_spec a b :
  unifyfs_min_offt <= a <= unifyfs_max_offt -> unifyfs_min_offt <= b <= unifyfs_max_offt ->
  unifyfs_would_overflow_offt a b = false <-> unifyfs_min_offt <= a + b <= unifyfs_max_offt.
Proof.
  unfold unifyfs_would_overflow_offt, unifyfs_min_offt, unifyfs_max_offt. intros Ha Hb.
  destruct (_ && _) eqn:E1; [|destruct ((a <? 0) && (b <? 0)) eqn:E2].
  - zbool. rewrite negb_false_iff Z.geb_leb Z.leb_le. lia.
  - zbool. rewrite negb_false_iff Z.leb_le. lia.
  - split; [|done]. intros _. apply andb_false_iff in E1 as [?|?], E2 as [?|?]; zbool; lia.
Qed.

Lemma no_overflow_sum a b :
  0 <= a <= unifyfs_max_offt -> 0 <= b <= unifyfs_max_offt -> unifyfs_would_overflow_offt a b = false -> a + b <= unifyfs_max_offt.
Proof. intros Ha Hb Hov. apply would_overflow_spec in Hov; unfold unifyfs_min_offt in *; lia. Qed.

Lemma off_t_of_small x : 0 <= x <= unifyfs_max_offt -> off_t_of x = x.
Proof. unfold off_t_of, unifyfs_max_offt. intros. rewrite (proj2 (Z.ltb_lt _ _)) //. lia. Qed.

Section Fd.
Context {F : Type} `{!FidLayer F, !FileModel F, !FileSpec F}.
Implicit Types (px : posix F) (d : unifyfs_fd_t).

(** An open descriptor of a regular file with contents [bs]. *)
Record fd_ok px (fd : Z) d (bs : list Z) : Prop := {
  fo_range : 0 <= fd < UNIFYFS_CLIENT_MAX_FILES;
  fo_desc : px_fds px !! Z.to_nat fd = Some d;
  fo_fid : 0 <= fd_fid d;
  fo_inv : fs_inv (px_files px);
  fo_file : fs_file (px_files px) (fd_fid d) = Some bs;
}.

Lemma get_filedesc_ok px fd d :
  0 <= fd < UNIFYFS_CLIENT_MAX_FILES -> px_fds px !! Z.to_nat fd = Some d -> unifyfs_get_filedesc_from_fd px fd = Some d.
Proof.
  intros [H1 H2] Hd. unfold unifyfs_get_filedesc_from_fd. rewrite Z.geb_leb (proj2 (Z.leb_le _ _)) // (proj2 (Z.ltb_lt _ _)) //.
Qed.

Lemma get_fid_ok px fd d :
  0 <= fd < UNIFYFS_CLIENT_MAX_FILES -> px_fds px !! Z.to_nat fd = Some d -> unifyfs_get_fid_from_fd px fd = fd_fid d.
Proof. intros H1 Hd. unfold unifyfs_get_fid_from_fd. by rewrite (get_filedesc_ok _ _ d). Qed.

Lemma fd_write_spec px fd d bs pos data :
  fd_ok px fd d bs -> fd_write d = true -> 0 <= pos -> pos + zlen data <= unifyfs_max_offt ->
  exists f' rc n, unifyfs_fd_write px fd pos data = LRet (px_set_files f' px, (rc, n)) /\ fs_inv f' /\
    (forall i, i <> fd_fid d -> fs_file f' i = fs_file (px_files px) i) /\
    (rc = UNIFYFS_SUCCESS /\ n = zlen data /\ fs_file f' (fd_fid d) = Some (splice bs pos data) \/
     rc <> UNIFYFS_SUCCESS /\ (fs_file f' (fd_fid d) = Some bs \/ fs_file f' (fd_fid d) = Some (splice bs pos data))) /\
    (forall k, 0 <= k -> fs_good (px_files px) (k + zlen data) -> rc = UNIFYFS_SUCCESS /\ fs_good f' k).
Proof.
  intros [Hr Hd Hfid Hi Hf] Hw Hp Hm. unfold unifyfs_fd_write. rewrite (get_fid_ok _ _ d) //.
  rewrite (proj2 (Z.ltb_ge _ _)) //. destruct (fs_is_dir _ _ _ Hi Hf) as (f1 & -> & [Hi1 Hs1 Hg1]). cbn [lbind].
  rewrite (get_filedesc_ok _ _ d) //. cbn [lift_option lbind]. rewrite Hw. cbn [negb].
  rewrite off_t_of_small; [lia|]. rewrite would_overflow_false; [lia|lia|lia|]. cbn [px_files px_set_files].
  rewrite -Hs1 in Hf. destruct (fs_write f1 _ bs pos data Hi1 Hf Hp Hm) as (f2 & rc & n & -> & Hi2 & Ho & Hc & Hg). cbn [lbind].
  eexists f2, rc, n. split; [done|]. split_and!; [done| |done|auto]. intros i Hne. by rewrite Ho // Hs1.
Qed.

(** What a read of the descriptor returns. *)
Record fd_read_ok (bs : list Z) (pos count n : Z) (buf' : Z -> Z) : Prop := {
  fr_count : n = avail bs pos count;
  fr_data k : 0 <= k < n -> buf' k = byte bs (pos + k);
}.

Lemma fd_read_spec px fd d bs pos buf count :
  fd_ok px fd d bs -> fd_read d = true -> 0 <= pos <= unifyfs_max_offt -> 0 <= count <= unifyfs_max_offt ->
  exists f' rc n buf', unifyfs_fd_read px fd pos buf count = LRet (px_set_files f' px, (rc, n, buf')) /\ keeps (px_files px) f' /\
    (rc = UNIFYFS_SUCCESS -> fd_read_ok bs pos count n buf') /\
    (forall k, fs_good (px_files px) k -> pos + count <= unifyfs_max_offt -> rc = UNIFYFS_SUCCESS).
Proof.
  intros [Hr Hd Hfid Hi Hf] Hw Hp Hm. unfold unifyfs_fd_read. rewrite (get_fid_ok _ _ d) //.
  rewrite (proj2 (Z.ltb_ge _ _)) //. destruct (fs_is_dir _ _ _ Hi Hf) as (f1 & -> & [Hi1 Hs1 Hg1]). cbn [lbind].
  rewrite (get_filedesc_ok _ _ d) //. cbn [lift_option lbind]. rewrite Hw. cbn [negb].
  rewrite off_t_of_small; [lia|]. destruct (unifyfs_would_overflow_offt pos count) eqn:Hov.
  { eexists f1, _, _, _. split; [done|]. split_and!; [done|done|]. intros k _ Hle. rewrite would_overflow_false in Hov; [lia..|done]. }
  destruct (count =? 0) eqn:Hz; zbool.
  { subst. eexists f1, _, _, _. split; [done|]. split_and!; [done| |done]. intros _. split; unfold avail; intros; lia. }
  pose proof (no_overflow_sum pos count Hp Hm Hov) as Hsum.
  cbn [px_files px_set_files]. rewrite u64_small; [unfold is_u64, ULONG_MAX, unifyfs_max_offt in *; lia|]. rewrite -Hs1 in Hf.
  destruct (fs_read f1 _ bs pos count buf Hi1 Hf (proj1 Hp) ltac:(lia) Hsum) as (f2 & req & ret & -> & [Hi2 Hs2 Hg2] & Hres & Hgood).
  cbn [lbind]. assert (keeps (px_files px) f2) as Hk by (split; [done|intros i; by rewrite Hs2 Hs1|auto]).
  destruct (ret =? UNIFYFS_SUCCESS) eqn:Hret; cbn [negb]; zbool.
  2:{ eexists f2, _, _, _. split; [done|]. split_and!; [done|done|]. intros k Hk'%Hg1 _. destruct (Hgood k Hk'). by left. }
  destruct (negb _ && negb _) eqn:He; cbn [negb]; eexists f2, _, _, _; (split; [done|]; split_and!; [done| |]).
  - intros Heq. by rewrite Heq in He.
  - intros k Hk'%Hg1 _. destruct (Hgood k Hk'). right. apply andb_true_iff in He as [H1%negb_true_iff H2%negb_true_iff]. by zbool.
  - intros _. destruct Hres as [[?|[H1 H2]]|[H1 H2]].
    + done.
    + apply andb_false_iff in He as [H3%negb_false_iff%Z.eqb_eq|H3%negb_false_iff%Z.eqb_eq]; done.
    + split; [done|]. intros k Hk'. apply H2. lia.
  - done.
Qed.

End Fd.
