(* ===== verification/FdSession.v ===== *)
(** * Sessions on a descriptor

    The calls on an open file, through its descriptor and through duplicates of
    it in any order, return what they return on a plain sequence of bytes with
    one position. *)

From Stdlib Require Import String.
From S2P Require Import Prelude.
From S2P Require Import LogIO.
From S2P Require Import IdStack.
From S2P Require Import Inode.
From S2P Require Import Client.
From S2P Require Import ClientRead.
From S2P Require Import PosixClient.
From S2P Require Import SysIO.
From S2P Require Import FileSpec.
From S2P Require Import FdProps.

(** ** The specification *)

Inductive fd_op :=
| FdRead (count : Z)
| FdWrite (data : list Z)
| FdPwrite (data : list Z) (offset : Z)
| FdSeek (offset whence : Z)
| FdSync.

(** The file and the position that all the descriptors share. *)
Record fd_view := FdView {
  fdv_bytes : list Z;
  fdv_pos : Z;
}.

(** What the call returns, [errno], and the bytes that it read. *)
Definition fd_result : Type := Z * Z * list Z.

(** The new position, or the error. *)
Definition lseek_target (bs : list Z) (pos offset whence : Z) : Z + Z :=
  let from base := if base + offset <? 0 then inr EINVAL else inl (base + offset) in
  let inside target := if (offset <? 0) || (zlen bs <? offset) then inr ENXIO else inl target in
  if whence =? SEEK_SET then from 0
  else if whence =? SEEK_CUR then from pos
  else if whence =? SEEK_END then from (zlen bs)
  else if whence =? SEEK_DATA then inside offset
  else if whence =? SEEK_HOLE then inside (zlen bs)
  else inr EINVAL.

(** The mode of the descriptor. *)
Record fd_mode := FdMode {
  fm_read : bool;
  fm_write : bool;
  fm_append : bool;
}.

Definition fd_spec_op (m : fd_mode) (v : fd_view) (op : fd_op) : fd_view * fd_result :=
  let '(FdView bs pos) := v in
  let refused := (v, (-1, EBADF, [])) in
  match op with
  | FdRead count =>
      if fm_read m then (FdView bs (pos + avail bs pos count), (avail bs pos count, 0, slice bs pos count)) else refused
  | FdWrite data =>
      let at_pos := if fm_append m then zlen bs else pos in
      if fm_write m then (FdView (splice bs at_pos data) (at_pos + zlen data), (zlen data, 0, [])) else refused
  | FdPwrite data offset => if fm_write m then (FdView (splice bs offset data) pos, (zlen data, 0, [])) else refused
  | FdSeek offset whence =>
      match lseek_target bs pos offset whence with
      | inl target => (FdView bs target, (target, 0, []))
      | inr e => (v, (-1, e, []))
      end
  | FdSync => (v, (0, 0, []))
  end.

(** The arguments are in the range of a file offset, and so are the sums of
    them. *)
Definition fd_op_ok (m : fd_mode) (v : fd_view) (op : fd_op) : bool :=
  let '(FdView bs pos) := v in
  match op with
  | FdRead count => (0 <=? count) && (pos + count <=? unifyfs_max_offt)
  | FdWrite data => (if fm_append m then zlen bs else pos) + zlen data <=? unifyfs_max_offt
  | FdPwrite data offset => (0 <=? offset) && (offset + zlen data <=? unifyfs_max_offt)
  | FdSeek offset whence =>
      (unifyfs_min_offt <=? offset) && (Z.max 0 (Z.max pos (zlen bs)) + offset <=? unifyfs_max_offt)
  | FdSync => true
  end.

(** Each call with the descriptor that it uses. *)
Fixpoint fd_spec_ops (m : fd_mode) (v : fd_view) (ops : list (Z * fd_op)) : option (fd_view * list fd_result) :=
  match ops with
  | [] => Some (v, [])
  | (_, op) :: ops =>
      if fd_op_ok m v op then
        let '(v, r) := fd_spec_op m v op in
        '(v, rs) ← fd_spec_ops m v ops; Some (v, r :: rs)
      else None
  end.

Definition fd_op_written (op : fd_op) : Z := match op with FdWrite data | FdPwrite data _ => zlen data | _ => 0 end.
Definition fd_ops_written (ops : list (Z * fd_op)) : Z := foldr (fun op n => n + fd_op_written (snd op)) 0 ops.

(** ** The calls *)

Section Session.
Context {F : Type} `{!FidLayer F, !FileModel F, !FileSpec F}.
Implicit Types (px : posix F) (d : unifyfs_fd_t) (bs : list Z).

(** What a call that was not handed to the C library returns, with [errno]. *)
Definition fd_returned {A} (data : A -> Z * list Z) (c : call (posix F * A)) : option (posix F * fd_result) :=
  match c with Ours (LRet (px, a)) => Some (px, (fst (data a), px_errno px, snd (data a))) | _ => None end.

Definition ret_only (r : Z) : Z * list Z := (r, []).

Definition run_fd_op px (fd : Z) (op : fd_op) : option (posix F * fd_result) :=
  match op with
  | FdRead count => fd_returned (fun '(n, buf) => (n, region_read buf 0 n)) (read px fd (fun _ => 0) count)
  | FdWrite data => fd_returned ret_only (write px fd data)
  | FdPwrite data offset => fd_returned ret_only (pwrite px fd data offset)
  | FdSeek offset whence => fd_returned ret_only (lseek px fd offset whence)
  | FdSync => fd_returned ret_only (fsync px fd)
  end.

Fixpoint run_fd_ops px (ops : list (Z * fd_op)) : option (posix F * list fd_result) :=
  match ops with
  | [] => Some (px, [])
  | (fd, op) :: ops => '(px, r) ← run_fd_op px fd op; '(px, rs) ← run_fd_ops px ops; Some (px, r :: rs)
  end.

(** ** One call *)

(** The calls leave all other descriptors and files as they are. *)
Record fd_step (fd fid : Z) px px' : Prop := {
  fst_cfg : px_cfg px' = px_cfg px;
  fst_dup : px_dup_fds px' = px_dup_fds px;
  fst_stack : px_fd_stack px' = px_fd_stack px;
  fst_fds i : i <> Z.to_nat fd -> px_fds px' !! i = px_fds px !! i;
  fst_streams : px_streams px' = px_streams px;
  fst_others i : i <> fid -> fs_file (px_files px') i = fs_file (px_files px) i;
}.

Lemma fd_step_trans fd fid px1 px2 px3 : fd_step fd fid px1 px2 -> fd_step fd fid px2 px3 -> fd_step fd fid px1 px3.
Proof.
  intros [? ? ? F1 ? O1] [? ? ? F2 ? O2]. split; try congruence; intros i Hi; [by rewrite F2 // F1|by rewrite O2 // O1].
Qed.

(** An open descriptor: its mode, what its users see, and that [n] more bytes
    can be written. *)
Record fd_session px (fd fid : Z) (m : fd_mode) (v : fd_view) (n : Z) : Prop := {
  fds_desc : exists d, fd_ok px fd d (fdv_bytes v) /\ fd_fid d = fid /\ fd_pos d = fdv_pos v /\
    m = FdMode (fd_read d) (fd_write d) (fd_append d);
  fds_pos : 0 <= fdv_pos v <= unifyfs_max_offt;
  fds_size : zlen (fdv_bytes v) <= unifyfs_max_offt;
  fds_good : fs_good (px_files px) n;
  fds_persist : pc_use_fsync_persist (px_cfg px) = false;
}.

Definition fd_op_correct px (e fd fid : Z) (m : fd_mode) (v : fd_view) (n : Z) (op : fd_op) : Prop :=
  exists px', run_fd_op px e op = Some (px', snd (fd_spec_op m v op)) /\ fd_step fd fid px px' /\
    fd_session px' fd fid m (fst (fd_spec_op m v op)) n.

(** The state after a call: other files, another position, another [errno]. *)
Lemma fd_next px fd fid m v n f g err v' n' d :
  fd_session px fd fid m v n -> fd_ok px fd d (fdv_bytes v) -> g d = fd_set_pos (fdv_pos v') d ->
  fs_inv f -> fs_file f fid = Some (fdv_bytes v') -> (forall i, i <> fid -> fs_file f i = fs_file (px_files px) i) -> fs_good f n' ->
  0 <= fdv_pos v' <= unifyfs_max_offt -> zlen (fdv_bytes v') <= unifyfs_max_offt ->
  let px' := px_set_errno err (put_fd fd g (px_set_files f px)) in
  fd_step fd fid px px' /\ fd_session px' fd fid m v' n'.
Proof.
  intros [(d0 & [? Hd0 ? ? ?] & <- & Hp & Hm) _ _ _ Hpe] [Hr Hd Hfid _ _] Hg Hi Hf Ho Hgood Hpos Hsz px'.
  rewrite Hd in Hd0. injection Hd0 as <-. split.
  - split; try done. intros i Hne. cbn. by rewrite list_lookup_alter_ne.
  - split; try done. exists (fd_set_pos (fdv_pos v') d). split_and!; try done. split; try done. cbn.
    by rewrite list_lookup_alter_eq Hd /= Hg.
Qed.

Lemma put_fd_same px fd d : px_fds px !! Z.to_nat fd = Some d -> put_fd fd (fd_set_pos (fd_pos d)) px = px.
Proof.
  intros Hd. unfold put_fd. destruct px as [cfg f mm err cwd fds dups st ss sst ds dst]. cbn in *. unfold px_set_fds. cbn. f_equal.
  apply list_eq. intros i. destruct (decide (i = Z.to_nat fd)) as [->|Hne]; [|by rewrite list_lookup_alter_ne].
  rewrite list_lookup_alter_eq Hd /=. by destruct d.
Qed.

(** The position stays. *)
Lemma fd_next_same px fd fid m v n f err bs' n' :
  fd_session px fd fid m v n -> fs_inv f -> fs_file f fid = Some bs' ->
  (forall i, i <> fid -> fs_file f i = fs_file (px_files px) i) -> fs_good f n' -> zlen bs' <= unifyfs_max_offt ->
  let px' := px_set_errno err (px_set_files f px) in
  fd_step fd fid px px' /\ fd_session px' fd fid m (FdView bs' (fdv_pos v)) n'.
Proof.
  intros Hs Hi Hf Ho Hgood Hsz px'. pose proof Hs as [(d & Hok & Hfid & Hp & _) Hpos _ _ _].
  pose proof (fd_next px fd fid m v n f (fd_set_pos (fd_pos d)) err (FdView bs' (fdv_pos v)) n' d Hs Hok) as Hn. cbn in Hn.
  rewrite put_fd_same in Hn; [apply Hok|]. apply Hn; try done. by rewrite Hp.
Qed.

(** A call that the mode of the descriptor does not allow. *)
Lemma fd_read_denied px fd d bs pos (buf : Z -> Z) count :
  fd_ok px fd d bs -> fd_read d = false ->
  exists f, unifyfs_fd_read px fd pos buf count = LRet (px_set_files f px, (EBADF, 0, buf)) /\ keeps (px_files px) f.
Proof.
  intros [Hr Hd Hfid Hi Hf] Hw. unfold unifyfs_fd_read. rewrite (get_fid_ok _ _ d) // (proj2 (Z.ltb_ge _ _)) //.
  destruct (fs_is_dir _ _ _ Hi Hf) as (f1 & -> & Hk). cbn [lbind]. rewrite (get_filedesc_ok _ _ d) //. cbn. rewrite Hw. by exists f1.
Qed.

Lemma fd_write_denied px fd d bs pos data :
  fd_ok px fd d bs -> fd_write d = false ->
  exists f, unifyfs_fd_write px fd pos data = LRet (px_set_files f px, (EBADF, 0)) /\ keeps (px_files px) f.
Proof.
  intros [Hr Hd Hfid Hi Hf] Hw. unfold unifyfs_fd_write. rewrite (get_fid_ok _ _ d) // (proj2 (Z.ltb_ge _ _)) //.
  destruct (fs_is_dir _ _ _ Hi Hf) as (f1 & -> & Hk). cbn [lbind]. rewrite (get_filedesc_ok _ _ d) //. cbn. rewrite Hw. by exists f1.
Qed.

(** Nothing but [errno] and what the files keep hidden changes. *)
Lemma fd_next_keeps px fd fid m v n f err :
  fd_session px fd fid m v n -> keeps (px_files px) f ->
  let px' := px_set_errno err (px_set_files f px) in fd_step fd fid px px' /\ fd_session px' fd fid m v n.
Proof.
  intros Hs [Hi Hk Hg]. pose proof Hs as [(d & [? ? ? ? Hf] & <- & _) _ Hsz Hgood _]. destruct v as [bs pos].
  apply (fd_next_same px fd (fd_fid d) m (FdView bs pos) n f err bs n); try done; [by rewrite Hk|auto].
Qed.

Lemma slice_read (buf : Z -> Z) bs pos count n : fd_read_ok bs pos count n buf -> region_read buf 0 n = slice bs pos count.
Proof.
  intros [-> H]. unfold region_read, slice. rewrite -{2}(Z.add_0_r pos) -fmap_add_seqZ -list_fmap_compose.
  apply list_fmap_ext. intros i x Hx%lookup_seqZ. destruct Hx as [-> Hi]. apply H. lia.
Qed.

Lemma fd_read_correct px e fd fid m v n count :
  unifyfs_intercept_fd px e = Some fd -> fd_session px fd fid m v n -> fd_op_ok m v (FdRead count) = true ->
  fd_op_correct px e fd fid m v n (FdRead count).
Proof.
  intros He Hs Hok. pose proof Hs as [(d & Hd & Hfid & Hp & ->) Hpos Hsz Hgood _]. destruct v as [bs pos]. cbn [fdv_bytes fdv_pos fd_op_ok] in *. zbool.
  unfold fd_op_correct, run_fd_op, read, on_fd, fd_spec_op. rewrite He (get_fid_ok _ _ d); [apply Hd|apply Hd|].
  rewrite (proj2 (Z.ltb_ge _ _)); [apply Hd|]. rewrite (get_filedesc_ok _ _ d); [apply Hd|apply Hd|]. rewrite Hp. cbn [fm_read].
  destruct (fd_read d) eqn:Hrd.
  - destruct (fd_read_spec px fd d bs pos (fun _ => 0) count Hd Hrd Hpos ltac:(lia)) as (f & rc & k & buf & -> & Hk & Hres & Hok).
    cbn [lbind]. rewrite (Hok n Hgood); [done|]. specialize (Hres (Hok n Hgood ltac:(done))). cbn [negb Z.eqb UNIFYFS_SUCCESS].
    pose proof (fr_count _ _ _ _ _ Hres). subst k. eexists. split.
    { cbn. by rewrite (slice_read _ _ _ _ _ Hres). }
    pose proof (avail_bounds bs pos count ltac:(lia)) as [Ha Hb]. destruct Hk as [Hi Hk Hg].
    eapply fd_next; try done; cbn; try lia.
    + rewrite Hp off_t_of_small //. lia.
    + rewrite Hk -Hfid. apply Hd.
    + by apply Hg.
  - destruct (fd_read_denied px fd d bs pos (fun _ => 0) count Hd Hrd) as (f & -> & Hk). cbn. eexists. split; [done|]. by apply fd_next_keeps.
Qed.

(** What is common to writes at the position and at an offset. *)
Lemma fd_write_good px fd fid m bs pos n wpos data d :
  0 <= n -> fd_session px fd fid m (FdView bs pos) (n + zlen data) -> fd_ok px fd d bs -> fd_fid d = fid -> fd_write d = true ->
  0 <= wpos -> wpos + zlen data <= unifyfs_max_offt ->
  exists f, unifyfs_fd_write px fd wpos data = LRet (px_set_files f px, (UNIFYFS_SUCCESS, zlen data)) /\ fs_inv f /\
    fs_file f fid = Some (splice bs wpos data) /\ (forall i, i <> fid -> fs_file f i = fs_file (px_files px) i) /\ fs_good f n /\
    zlen (splice bs wpos data) <= unifyfs_max_offt.
Proof.
  intros Hn Hs Hd <- Hw Hp Hmax. pose proof Hs as [_ _ Hsz Hgood _]. cbn in Hsz.
  destruct (fd_write_spec px fd d bs wpos data Hd Hw Hp Hmax) as (f & rc & k & -> & Hi & Ho & Hc & Hg).
  destruct (Hg n Hn Hgood) as [-> Hgn]. destruct Hc as [(_ & -> & Hf)|[? _]]; [|done]. exists f. split_and!; try done.
  destruct (decide (data = [])) as [->|Hne]; [done|]. rewrite splice_length //. lia.
Qed.

Lemma session_logical_size px fd fid m v n :
  fd_session px fd fid m v n -> exists f, fl_logical_size (px_files px) fid = LRet (f, zlen (fdv_bytes v)) /\ keeps (px_files px) f.
Proof. intros [(d & [? ? ? Hi Hf] & <- & _) _ _ _ _]. apply (fs_size _ _ _ Hi Hf). Qed.

Lemma fd_ok_keeps px fd d bs f : fd_ok px fd d bs -> keeps (px_files px) f -> fd_ok (px_set_files f px) fd d bs.
Proof. intros [? ? ? ? ?] [? Hk ?]. split; try done. cbn. by rewrite Hk. Qed.

Lemma fd_session_keeps px fd fid m v n f : fd_session px fd fid m v n -> keeps (px_files px) f -> fd_session (px_set_files f px) fd fid m v n.
Proof.
  intros [(d & Hd & Hr) ? ? Hg ?] Hk. split; try done; [exists d; split; [by apply fd_ok_keeps|done]|]. by apply (kp_good _ _ Hk).
Qed.

Lemma fd_write_correct px e fd fid m v n data :
  0 <= n -> unifyfs_intercept_fd px e = Some fd -> fd_session px fd fid m v (n + zlen data) -> fd_op_ok m v (FdWrite data) = true ->
  fd_op_correct px e fd fid m v n (FdWrite data).
Proof.
  intros Hn He Hs Hok. pose proof Hs as [(d & Hd & Hfid & Hp & ->) Hpos Hsz Hgood _]. destruct v as [bs pos]. cbn [fdv_bytes fdv_pos fd_op_ok fm_append] in *. zbool.
  unfold fd_op_correct, run_fd_op, write, on_fd, fd_spec_op. rewrite He (get_filedesc_ok _ _ d); [apply Hd|apply Hd|].
  rewrite (get_fid_ok _ _ d); [apply Hd|apply Hd|]. rewrite Hp Hfid. cbn [fm_write fm_append].
  set (wpos := if fd_append d then zlen bs else pos) in *.
  assert (exists f0, (if fd_append d then fl_logical_size (px_files px) fid else LRet (px_files px, pos)) = LRet (f0, wpos) /\
    keeps (px_files px) f0) as (f0 & -> & Hk0).
  { unfold wpos. destruct (fd_append d); [by apply (session_logical_size _ _ _ _ _ _ Hs)|]. exists (px_files px). split; [done|].
    split; [apply Hd|done|done]. }
  cbn [lbind]. pose proof (fd_ok_keeps _ _ _ _ _ Hd Hk0) as Hd1. pose proof (fd_session_keeps _ _ _ _ _ _ _ Hs Hk0) as Hs1.
  destruct (fd_write d) eqn:Hw.
  - destruct (fd_write_good _ _ _ _ _ _ _ wpos data d Hn Hs1 Hd1 Hfid Hw) as (f & -> & Hi & Hf & Ho & Hg & Hsz').
    { unfold wpos. destruct (fd_append d); lia. } { done. }
    cbn. eexists. split; [done|]. eapply (fd_next px); cbn; try done.
    + intros i Hi'. by rewrite Ho // (kp_files _ _ Hk0).
    + unfold wpos in *. destruct (fd_append d); lia.
  - destruct (fd_write_denied _ fd d bs wpos data Hd1 Hw) as (f & -> & Hk). cbn. eexists. split; [done|].
    apply (fd_next_keeps px fd fid _ (FdView bs pos) n f EBADF).
    + destruct Hs as [? ? ? _ ?]. split; try done. eapply fs_good_le, Hgood. lia.
    + destruct Hk as [? Hk1 ?], Hk0 as [? Hk2 ?]. split; [done| |auto]. intros i. by rewrite Hk1 Hk2.
Qed.

Lemma fd_pwrite_correct px e fd fid m v n data offset :
  0 <= n -> unifyfs_intercept_fd px e = Some fd -> fd_session px fd fid m v (n + zlen data) ->
  fd_op_ok m v (FdPwrite data offset) = true -> fd_op_correct px e fd fid m v n (FdPwrite data offset).
Proof.
  intros Hn He Hs Hok. pose proof Hs as [(d & Hd & Hfid & Hp & ->) Hpos Hsz Hgood _]. destruct v as [bs pos]. cbn [fdv_bytes fdv_pos fd_op_ok] in *. zbool.
  unfold fd_op_correct, run_fd_op, pwrite, on_fd, fd_spec_op. rewrite He (get_filedesc_ok _ _ d); [apply Hd|apply Hd|].
  cbn [fm_write]. destruct (fd_write d) eqn:Hw.
  - destruct (fd_write_good _ _ _ _ _ _ _ offset data d Hn Hs Hd Hfid Hw) as (f & -> & Hi & Hf & Ho & Hg & Hsz'); [done|done|].
    cbn. eexists. split; [done|]. by apply (fd_next_same px fd fid _ (FdView bs pos) _ f 0 _ n Hs).
  - destruct (fd_write_denied _ fd d bs offset data Hd Hw) as (f & -> & Hk). cbn. eexists. split; [done|].
    apply (fd_next_keeps px fd fid _ (FdView bs pos) n f EBADF); [|done]. destruct Hs as [? ? ? _ ?]. split; try done.
    eapply fs_good_le, Hgood. lia.
Qed.

Lemma fd_sync_correct px e fd fid m v n :
  unifyfs_intercept_fd px e = Some fd -> fd_session px fd fid m v n -> fd_op_correct px e fd fid m v n FdSync.
Proof.
  intros He Hs. pose proof Hs as [(d & Hd & Hfid & Hp & ->) Hpos Hsz Hgood Hpe]. destruct v as [bs pos]. cbn [fdv_bytes fdv_pos] in *.
  unfold fd_op_correct, run_fd_op, fsync, on_fd, fd_spec_op. rewrite He (get_fid_ok _ _ d); [apply Hd|apply Hd|].
  rewrite (proj2 (Z.ltb_ge _ _)); [apply Hd|]. pose proof Hd as [_ _ _ Hi Hf].
  destruct (fs_sync _ _ _ Hi Hf) as (f & rc & -> & Hk & Hok). rewrite (Hok n Hgood). cbn. rewrite Hpe. eexists. split; [done|].
  by apply fd_next_keeps.
Qed.

(** A seek has found its target, or refuses. *)
Lemma fd_seek_to px fd fid m bs pos n f d (target : Z) :
  fd_session px fd fid m (FdView bs pos) n -> fd_ok px fd d bs -> keeps (px_files px) f -> 0 <= target <= unifyfs_max_offt ->
  let px' := px_set_errno 0 (put_fd fd (fd_set_pos target) (px_set_files f px)) in
  fd_step fd fid px px' /\ fd_session px' fd fid m (FdView bs target) n.
Proof.
  intros Hs Hd [Hi Hk Hg] Ht px'. pose proof Hs as [(d' & [? Hd' ? ? Hf] & <- & _) _ Hsz Hgood _].
  eapply (fd_next px fd _ m (FdView bs pos) n f (fd_set_pos target) 0 (FdView bs target) n d); try done; cbn; [by rewrite Hk|auto].
Qed.

Lemma keeps_trans (f1 f2 f3 : F) : keeps f1 f2 -> keeps f2 f3 -> keeps f1 f3.
Proof. intros [_ K1 G1] [I2 K2 G2]. split; [done| |auto]. intros i. by rewrite K2 K1. Qed.

Lemma fd_seek_correct px e fd fid m v n offset whence :
  unifyfs_intercept_fd px e = Some fd -> fd_session px fd fid m v n -> fd_op_ok m v (FdSeek offset whence) = true ->
  fd_op_correct px e fd fid m v n (FdSeek offset whence).
Proof.
  intros He Hs Hok. pose proof Hs as [(d & Hd & Hfid & Hp & _) Hpos Hsz Hgood _]. destruct v as [bs pos]. cbn [fdv_bytes fdv_pos fd_op_ok] in *. zbool.
  unfold fd_op_correct, run_fd_op, lseek, on_fd, fd_spec_op, lseek_target. rewrite He (get_fid_ok _ _ d); [apply Hd|apply Hd|].
  rewrite (proj2 (Z.ltb_ge _ _)); [apply Hd|]. pose proof Hd as [Hr Hl _ Hi Hf].
  destruct (fs_has_meta _ _ _ Hi Hf) as (f1 & -> & Hk1). cbn [lbind negb]. rewrite (get_filedesc_ok _ _ d) //. cbn [lift_option lbind].
  pose proof (kp_inv _ _ Hk1) as Hi1. assert (fs_file f1 (fd_fid d) = Some bs) as Hf1 by (by rewrite (kp_files _ _ Hk1)).
  destruct (fs_size _ _ _ Hi1 Hf1) as (f2 & Hz & Hk2). cbn [px_files px_set_files]. rewrite Hz Hp. cbn [lbind].
  pose proof (keeps_trans _ _ _ Hk1 Hk2) as Hk12. rewrite Z.gtb_ltb Z.add_0_l.
  assert (0 <= zlen bs) as Hz0 by lia.
  repeat match goal with
  | |- context [if (whence =? ?w) then _ else _] => destruct (whence =? w)
  | |- context [if (?x <? 0) then _ else _] => destruct (x <? 0) eqn:?
  | |- context [if (?x || ?y) then _ else _] => destruct (x || y) eqn:?
  end; eexists; (split; [reflexivity|]); cbn [fst];
  first [by apply (fd_next_keeps px fd fid m (FdView bs pos) n f1) | by apply (fd_next_keeps px fd fid m (FdView bs pos) n f2)
        |apply (fd_seek_to px fd fid m bs pos n f1 d _ Hs Hd Hk1) | apply (fd_seek_to px fd fid m bs pos n f2 d _ Hs Hd Hk12)];
  zbool; lia.
Qed.

Lemma run_fd_op_correct px e fd fid m v n op :
  0 <= n -> unifyfs_intercept_fd px e = Some fd -> fd_session px fd fid m v (n + fd_op_written op) -> fd_op_ok m v op = true ->
  fd_op_correct px e fd fid m v n op.
Proof.
  intros Hn He Hs Hok. destruct op; cbn [fd_op_written] in Hs; rewrite ?Z.add_0_r in Hs.
  - by apply fd_read_correct.
  - by apply fd_write_correct.
  - by apply fd_pwrite_correct.
  - by apply fd_seek_correct.
  - by apply fd_sync_correct.
Qed.

(** ** Any number of calls *)

Lemma fd_ops_written_nonneg ops : 0 <= fd_ops_written ops.
Proof. unfold fd_ops_written. induction ops as [|[e op] ops IH]; [done|]. destruct op; cbn in *; lia. Qed.

Lemma intercept_step px px' fd fid e : fd_step fd fid px px' -> unifyfs_intercept_fd px' e = unifyfs_intercept_fd px e.
Proof. intros [Hc Hd _ _ _ _]. unfold unifyfs_intercept_fd. by rewrite Hc Hd. Qed.

Lemma run_fd_ops_correct ops px fd fid m v v' rs n :
  0 <= n -> fd_session px fd fid m v (n + fd_ops_written ops) -> Forall (fun eo => unifyfs_intercept_fd px eo.1 = Some fd) ops ->
  fd_spec_ops m v ops = Some (v', rs) ->
  exists px', run_fd_ops px ops = Some (px', rs) /\ fd_step fd fid px px' /\ fd_session px' fd fid m v' n.
Proof.
  intros Hn. revert px v rs. induction ops as [|[e op] ops IH]; intros px v rs Hs Hall Hspec; cbn in *.
  - injection Hspec as <- <-. exists px. rewrite Z.add_0_r in Hs. by split_and!.
  - destruct (fd_op_ok m v op) eqn:Hok; [|done]. rewrite Z.add_assoc in Hs. apply Forall_cons in Hall as [He Hall].
    destruct (run_fd_op_correct px e fd fid m v (n + fd_ops_written ops) op) as (px1 & -> & Hc1 & Hs1); try done.
    { pose proof (fd_ops_written_nonneg ops). lia. }
    destruct (fd_spec_op m v op) as [v1 r]. cbn in *. destruct (fd_spec_ops m v1 ops) as [[v2 rs2]|] eqn:Hrest; [|done].
    injection Hspec as <- <-. destruct (IH px1 v1 rs2 Hs1) as (px2 & -> & Hc2 & Hs2); [|done|].
    { eapply Forall_impl; [done|]. intros eo. by rewrite (intercept_step _ _ _ _ _ Hc1). }
    exists px2. split; [done|]. split; [by eapply fd_step_trans|done].
Qed.


End Session.

(** A file in append mode, through its descriptor 1024 and the duplicate 5. *)
Definition fd_session_start : posix byte_files :=
  let px := posix_client_init (ByteFiles {[ 7 := [65; 66; 67] ]} [("/unifyfs/a"%string, 7)] 100) (Mem 1 []) "/unifyfs" None 1024 true
    false (fun _ => 0) in
  put_fd 0 (fun _ => FileDesc 0 true true true 7 2) (px_set_dup_fds (<[5%nat := 0]> (px_dup_fds px)) px).

Definition fd_session_ops : list (Z * fd_op) :=
  [(1024, FdRead 2); (5, FdRead 2); (1024, FdWrite [68; 69]); (5, FdSeek (-3) SEEK_END); (1024, FdRead 9); (5, FdSeek (-1) SEEK_SET);
   (5, FdPwrite [90] 0); (1024, FdSync)].

