(* ===== verification/StreamProps.v ===== *)
(** * Correctness of streams

    A stream with its buffer behaves as the file without one: what is written to
    the stream, flushed or not, is what is read from it, at the position that
    the calls before left, and closing the stream leaves the file with all that
    was written. *)

From Stdlib Require Import String.
From S2P Require Import Prelude.
From S2P Require Import LogIO.
From S2P Require Import IdStack.
From S2P Require Import Inode.
From S2P Require Import Client.
From S2P Require Import ClientRead.
From S2P Require Import PosixClient.
From S2P Require Import SysIO.
From S2P Require Import StdIO.
From S2P Require Import FileSpec.
From S2P Require Import FdProps.

Lemma memcpy_in dst doff src soff n k : 0 <= k < n -> memcpy dst doff src soff n (doff + k) = src (soff + k).
Proof.
  intros Hk. unfold memcpy, region_write. rewrite region_read_length Z2Nat.id; [lia|].
  rewrite (proj2 (Z.leb_le _ _)) ?(proj2 (Z.ltb_lt _ _)); [lia|lia|]. simpl. unfold region_read.
  rewrite nth_lookup list_lookup_fmap lookup_seqZ_lt; [lia|]. simpl. f_equal. lia.
Qed.

Lemma memcpy_out dst doff src soff n k : 0 <= n -> (k < doff \/ doff + n <= k) -> memcpy dst doff src soff n k = dst k.
Proof. intros Hn Hk. unfold memcpy. apply region_write_outside. rewrite region_read_length. lia. Qed.

Section Streams.
Context {F : Type} `{!FidLayer F, !FileModel F, !FileSpec F}.
Implicit Types (px : posix F) (s : unifyfs_stream_t) (d : unifyfs_fd_t) (b : stream_buf) (file bs : list Z).

(** ** What the operations leave alone *)

Record same_but (sid : Z) px px' : Prop := {
  sbt_cfg : px_cfg px' = px_cfg px;
  sbt_cwd : px_cwd px' = px_cwd px;
  sbt_fds : px_fds px' = px_fds px;
  sbt_dup : px_dup_fds px' = px_dup_fds px;
  sbt_fd_stack : px_fd_stack px' = px_fd_stack px;
  sbt_streams : exists s', px_streams px' = <[Z.to_nat sid := s']> (px_streams px);
  sbt_stream_stack : px_stream_stack px' = px_stream_stack px;
  sbt_dirstreams : px_dirstreams px' = px_dirstreams px;
  sbt_dirstream_stack : px_dirstream_stack px' = px_dirstream_stack px;
}.

Lemma same_but_refl sid px s : px_streams px !! Z.to_nat sid = Some s -> same_but sid px px.
Proof. intros H. split; try done. exists s. by rewrite list_insert_id. Qed.

Lemma same_but_trans sid px1 px2 px3 : same_but sid px1 px2 -> same_but sid px2 px3 -> same_but sid px1 px3.
Proof.
  intros [? ? ? ? ? (s1 & H1) ? ? ?] [? ? ? ? ? (s2 & H2) ? ? ?]. split; try congruence.
  exists s2. by rewrite H2 H1 list_insert_insert_eq.
Qed.

(** An open stream and its file. *)
Record stream_at px (sid : Z) s d file : Prop := {
  sa_sid : 0 <= sid;
  sa_stream : px_streams px !! Z.to_nat sid = Some s;
  sa_fd : fd_ok px (s_fd s) d file;
}.

Lemma stream_at_get px sid s d file : stream_at px sid s d file -> get_stream px sid = LRet s.
Proof. intros [_ H _]. unfold get_stream. by rewrite H. Qed.

Lemma stream_at_put px sid s d file s' f' e m file' :
  stream_at px sid s d file -> s_fd s' = s_fd s -> fs_inv f' -> fs_file f' (fd_fid d) = Some file' ->
  stream_at (px_set_errno e (px_set_mem m (put_stream sid s' (px_set_files f' px)))) sid s' d file'.
Proof.
  intros [H1 H2 [? ? ? ? ?]] Hfd Hi Hf. split; [done| |rewrite Hfd; by split]. simpl.
  apply list_lookup_insert_eq. by apply lookup_lt_Some in H2.
Qed.

Lemma same_but_put px sid s s' f' e m :
  px_streams px !! Z.to_nat sid = Some s -> same_but sid px (px_set_errno e (px_set_mem m (put_stream sid s' (px_set_files f' px)))).
Proof. intros H. split; try done. by exists s'. Qed.

(** ** The buffer *)

(** The buffer holds a range of [bs], the contents that the stream shows; what
    is dirty is not in the file yet. *)
Record buf_data b (buf : Z -> Z) file bs : Prop := {
  bd_buf : sb_buf b = Some buf;
  bd_size : 0 < sb_bufsize b <= unifyfs_max_offt;
  bd_len : 0 <= sb_buflen b <= sb_bufsize b;
  bd_pos : 0 <= sb_bufpos b;
  bd_end : 0 < sb_buflen b -> sb_bufpos b + sb_buflen b <= zlen bs;
  bd_bytes k : 0 <= k < sb_buflen b -> buf k = byte bs (sb_bufpos b + k);
  bd_dirty : sb_bufdirty b = true -> 0 < sb_buflen b;
  bd_file : bs = if sb_bufdirty b then splice file (sb_bufpos b) (region_read buf 0 (sb_buflen b)) else file;
}.

(** Between calls, at file position [cur]: a dirty buffer ends there and is not
    full. *)
Definition buf_rep b file bs (cur : Z) : Prop :=
  (sb_buftype b = _IOFBF \/ sb_buftype b = _IOLBF) /\
  match sb_buf b with
  | None => sb_bufdirty b = false /\ sb_buflen b = 0 /\ bs = file
  | Some buf => buf_data b buf file bs /\ (sb_bufdirty b = true -> cur = sb_bufpos b + sb_buflen b /\ 0 < sb_buflen b < sb_bufsize b)
  end.

(** The bytes that are still to be written, and the size of the buffer, once
    there is one. *)
Definition pending s : Z := if sb_bufdirty (s_b s) then sb_buflen (s_b s) else 0.
Definition bsize s : Z := match sb_buf (s_b s) with Some _ => sb_bufsize (s_b s) | None => UNIFYFS_CLIENT_STREAM_BUFSIZE end.

(** Nothing fails until [n] more bytes were written to the files. *)
Definition fine px (n : Z) : Prop := fs_good (px_files px) n /\ mem_plenty (px_mem px).

(** ** Flushing *)

(** The outcome of a flush; the contents that the stream shows stay, whatever
    happens. *)
Record flushed px (sid : Z) s d bs px' (rc : Z) s' file' : Prop := {
  fl_at : stream_at px' sid s' d file';
  fl_same : same_but sid px px';
  fl_others i : i <> fd_fid d -> fs_file (px_files px') i = fs_file (px_files px) i;
  fl_ok : rc = UNIFYFS_SUCCESS -> file' = bs /\ s' = s_set_b (sb_set_dirty false (s_b s)) s;
  fl_err : rc <> UNIFYFS_SUCCESS -> s' = s_set_err true s /\ bs = splice file' (sb_bufpos (s_b s))
    (region_read (default (fun _ => 0) (sb_buf (s_b s))) 0 (sb_buflen (s_b s)));
  fl_fine n : 0 <= n -> fine px (n + pending s) -> rc = UNIFYFS_SUCCESS /\ fine px' n;
}.

Lemma clean_same b : sb_bufdirty b = false -> sb_set_dirty false b = b.
Proof. destruct b. simpl. by intros ->. Qed.

Lemma s_set_b_same s : s_set_b (s_b s) s = s.
Proof. by destruct s. Qed.

Lemma flush_spec px sid s d file bs buf :
  stream_at px sid s d file -> buf_data (s_b s) buf file bs -> zlen bs <= unifyfs_max_offt ->
  (sb_bufdirty (s_b s) = true -> fd_write d = true) ->
  exists px' rc s' file', unifyfs_stream_flush px sid = LRet (px', rc) /\ flushed px sid s d bs px' rc s' file'.
Proof.
  intros Hat Hb Hmax Hw. unfold unifyfs_stream_flush. rewrite (stream_at_get _ _ _ _ _ Hat). cbn [lbind].
  rewrite (bd_buf _ _ _ _ Hb). destruct (sb_bufdirty (s_b s)) eqn:Hd.
  2:{ exists px, UNIFYFS_SUCCESS, s, file. split; [done|]. split; try done.
      - eapply same_but_refl, Hat.
      - intros _. rewrite clean_same // s_set_b_same. split; [|done]. pose proof (bd_file _ _ _ _ Hb) as Hf. by rewrite Hd in Hf.
      - intros n Hn. unfold pending. by rewrite Hd Z.add_0_r. }
  pose proof Hb as [Hbuf Hsz Hlen Hpos Hend Hbytes Hdirty Hfile]. rewrite Hd in Hfile. specialize (Hdirty Hd).
  set (data := region_read buf 0 (sb_buflen (s_b s))) in *.
  assert (zlen data = sb_buflen (s_b s)) as Hl by (unfold data; rewrite region_read_length; lia).
  destruct (fd_write_spec px (s_fd s) d file (sb_bufpos (s_b s)) data (sa_fd _ _ _ _ _ Hat) (Hw eq_refl) Hpos ltac:(lia))
    as (f1 & rc1 & n & -> & Hi1 & Ho1 & Hc1 & Hg1). cbn [lbind].
  assert (pending s = zlen data) as Hpend by (unfold pending; by rewrite Hd).
  destruct (rc1 =? UNIFYFS_SUCCESS) eqn:Hrc1; zbool; cbn [negb].
  2:{ assert (exists file', fs_file f1 (fd_fid d) = Some file' /\ bs = splice file' (sb_bufpos (s_b s)) data) as (file' & Hf1 & Hbs).
      { destruct Hc1 as [[? _]|[_ [?|?]]]; [done|by exists file|]. eexists. split; [done|]. by rewrite splice_idem. }
      eexists _, _, (s_set_err true s), file'. split; [done|]. split; [|by eapply same_but_put, Hat|done|done| |].
      - apply (stream_at_put px sid s d file (s_set_err true s) f1 _ (px_mem px) file'); done.
      - intros _. by rewrite Hbuf.
      - intros k Hk [Hg _]. rewrite Hpend in Hg. by destruct (Hg1 k Hk Hg). }
  destruct Hc1 as [(_ & _ & Hf1)|[? _]]; [|done]. rewrite -Hfile in Hf1.
  rewrite (get_fid_ok _ _ d); [apply Hat|apply Hat|]. rewrite (proj2 (Z.ltb_ge _ _)); [apply Hat|].
  destruct (fs_sync f1 _ bs Hi1 Hf1) as (f2 & rc2 & Hs2 & [Hi2 Ho2 Hk2] & Hg2). cbn [px_files px_set_files]. rewrite Hs2. cbn [lbind].
  assert (fs_file f2 (fd_fid d) = Some bs) as Hf2 by (by rewrite Ho2).
  assert (forall i, i <> fd_fid d -> fs_file f2 i = fs_file (px_files px) i) as Ho by (intros i Hne; by rewrite Ho2 Ho1).
  assert (forall k, 0 <= k -> fine px (k + pending s) -> rc2 = UNIFYFS_SUCCESS /\ fs_good f2 k /\ mem_plenty (px_mem px)) as Hfine.
  { intros k Hk [Hg Hm]. rewrite Hpend in Hg. destruct (Hg1 k Hk Hg) as [_ Hg']. split_and!; [by eapply Hg2|by apply Hk2|done]. }
  destruct (rc2 =? UNIFYFS_SUCCESS) eqn:Hrc2; zbool; cbn [negb].
  - eexists _, _, (s_set_b (sb_set_dirty false (s_b s)) s), bs. split; [done|]. split; [| |done|done|done|].
    3:{ intros k Hk Hf. split; [done|]. by destruct (Hfine k Hk Hf) as (_ & ? & ?). }
    + apply (stream_at_put px sid s d file _ f2 (px_errno px) (px_mem px) bs); done.
    + apply (same_but_put px sid s _ f2 (px_errno px) (px_mem px)), Hat.
  - eexists _, _, (s_set_err true s), bs. split; [done|]. split; [|apply (same_but_put px sid s _ f2 _ (px_mem px)), Hat|done|done| |].
    3:{ intros k Hk Hf. by destruct (Hfine k Hk Hf). }
    + apply (stream_at_put px sid s d file _ f2 _ (px_mem px) bs); done.
    + intros _. rewrite Hbuf. split; [done|]. simpl. fold data. by rewrite Hfile splice_idem.
Qed.

(** ** The state between calls *)

Record stream_rep px (sid : Z) s d file bs (cur : Z) : Prop := {
  sr_at : stream_at px sid s d file;
  sr_buf : buf_rep (s_b s) file bs cur;
  sr_size : zlen bs <= unifyfs_max_offt;
  sr_append : s_append s = false;
  sr_ungot : ub_ubuflen (s_u s) = 0;
  sr_write : sb_bufdirty (s_b s) = true -> fd_write d = true;
  sr_cur : 0 <= cur <= unifyfs_max_offt;
}.

(** The stream apart from its buffer, its error indicator and its pointers. *)
Definition stream_id s : Z * bool * Z * bool * Z * unget_buf := (s_sid s, s_eof s, s_fd s, s_append s, s_orient s, s_u s).

(** The error indicator is set. *)
Definition stream_failed px (sid : Z) : Prop := exists s, px_streams px !! Z.to_nat sid = Some s /\ s_err s = true.

(** The step from one state to the next, for one stream: all other files and
    all other structures are as before. *)
Record stream_step (sid fid : Z) px px' : Prop := {
  ss_same : same_but sid px px';
  ss_others i : i <> fid -> fs_file (px_files px') i = fs_file (px_files px) i;
}.

Lemma stream_step_trans sid fid px1 px2 px3 : stream_step sid fid px1 px2 -> stream_step sid fid px2 px3 -> stream_step sid fid px1 px3.
Proof. intros [H1 H2] [H3 H4]. split; [by eapply same_but_trans|]. intros i Hi. by rewrite H4 // H2. Qed.

Lemma stream_step_refl sid fid px s : px_streams px !! Z.to_nat sid = Some s -> stream_step sid fid px px.
Proof. intros H. split; [by eapply same_but_refl|done]. Qed.

(** A change of the stream alone. *)
Lemma rep_put px sid s d file bs cur s' e m :
  stream_rep px sid s d file bs cur -> s_b s' = s_b s -> s_append s' = s_append s -> ub_ubuflen (s_u s') = 0 -> s_fd s' = s_fd s ->
  stream_rep (px_set_errno e (px_set_mem m (put_stream sid s' px))) sid s' d file bs cur.
Proof.
  intros [H1 H2 H3 H4 H5 H6 H7] Hb Ha Hu Hfd. split; rewrite ?Hb ?Ha; try done.
  apply (stream_at_put px sid s d file s' (px_files px) e m file); try done; apply (sa_fd _ _ _ _ _ H1).
Qed.

Lemma failed_put px sid s s' e : px_streams px !! Z.to_nat sid = Some s -> s_err s' = true -> stream_failed (px_set_errno e (put_stream sid s' px)) sid.
Proof. intros H He. exists s'. split; [|done]. simpl. apply list_lookup_insert_eq. by apply lookup_lt_Some in H. Qed.

Lemma ensure_buf_spec px sid s d file bs cur :
  stream_rep px sid s d file bs cur ->
  exists px' r, ensure_buf px sid = LRet (px', r) /\ stream_step sid (fd_fid d) px px' /\
    match r with
    | inl rc => rc <> UNIFYFS_SUCCESS /\ stream_failed px' sid /\ forall n, ~ fine px n
    | inr _ => exists s' buf, stream_rep px' sid s' d file bs cur /\ sb_buf (s_b s') = Some buf /\ stream_id s' = stream_id s /\
        s_err s' = s_err s /\ pending s' = pending s /\ bsize s' = bsize s /\ sb_buftype (s_b s') = sb_buftype (s_b s) /\
        forall n, fine px n -> fine px' n
    end.
Proof.
  intros Hr. pose proof Hr as [Hat [Hty Hb] Hmax Happ Hu Hw Hc]. unfold ensure_buf. rewrite (stream_at_get _ _ _ _ _ Hat). cbn [lbind].
  destruct (sb_buf (s_b s)) as [buf|] eqn:Hbuf.
  { exists px, (inr ()). split; [done|]. split; [by eapply stream_step_refl, Hat|]. by exists s, buf. }
  unfold unifyfs_setvbuf. rewrite (stream_at_get _ _ _ _ _ Hat). cbn [lbind]. rewrite Hbuf.
  assert (negb (sb_buftype (s_b s) =? _IOFBF) && negb (sb_buftype (s_b s) =? _IOLBF) && negb (sb_buftype (s_b s) =? _IONBF) = false) as ->
    by (by destruct Hty as [-> | ->]).
  change (UNIFYFS_CLIENT_STREAM_BUFSIZE <=? 0) with false. cbv iota.
  destruct (calloc (px_mem px)) as [[p|] m] eqn:Hm; cbn [lbind].
  - change (UNIFYFS_SUCCESS =? UNIFYFS_SUCCESS) with true. cbn [negb].
    set (s' := s_set_b _ s). exists (px_set_errno (px_errno px) (px_set_mem m (put_stream sid s' (px_set_files (px_files px) px)))), (inr ()).
    split; [done|]. destruct Hb as (Hd & Hl & ->). split; [split; [eapply same_but_put, Hat|done]|].
    exists s'. eexists. split_and!; [|done|done|done|unfold pending; by rewrite Hd|unfold bsize; by rewrite Hbuf|done|].
    2:{ intros n [Hg Hp]. split; [done|]. destruct (calloc_plenty _ Hp) as (m' & Hm' & ? & _). by rewrite Hm in Hm'; injection Hm' as _ ->. }
    split; try done.
    + apply (stream_at_put px sid s d file s' (px_files px) (px_errno px) m file); try done; apply (sa_fd _ _ _ _ _ Hat).
    + split; [done|]. simpl. split; [|done]. split; simpl; try done; try lia.
  - change (negb (ENOMEM =? UNIFYFS_SUCCESS)) with true. cbv iota. unfold get_stream. cbn [px_streams px_set_mem].
    rewrite (sa_stream _ _ _ _ _ Hat). cbn [lift_option lbind].
    eexists _, (inl ENOMEM). split; [done|]. split; [split; [|done]|split; [done|split]].
    + apply (same_but_put px sid s _ (px_files px) _ m), Hat.
    + by eapply failed_put, eq_refl; apply Hat.
    + intros n [_ Hp]. destruct (calloc_plenty _ Hp) as (m' & Hm' & _). by rewrite Hm in Hm'.
Qed.

(** ** Reading *)

(** The buffer was filled from [cur] on. *)
Record refilled px (sid : Z) s d bs (cur : Z) (short : bool) s' file' : Prop := {
  rf_rep : stream_rep px sid s' d file' bs cur;
  rf_some : is_Some (sb_buf (s_b s'));
  rf_clean : sb_bufdirty (s_b s') = false;
  rf_pos : sb_bufpos (s_b s') = cur;
  rf_len : sb_buflen (s_b s') = avail bs cur (sb_bufsize (s_b s'));
  rf_short : short = (sb_buflen (s_b s') <? sb_bufsize (s_b s'));
  rf_id : stream_id s' = stream_id s;
  rf_err : s_err s' = s_err s;
  rf_bsize : bsize s' = bsize s;
  rf_type : sb_buftype (s_b s') = sb_buftype (s_b s);
}.

Lemma refill_spec px sid s d file bs cur :
  stream_rep px sid s d file bs cur -> is_Some (sb_buf (s_b s)) -> fd_read d = true ->
  exists px' r, refill_buf px sid cur = LRet (px', r) /\ stream_step sid (fd_fid d) px px' /\
    match r with
    | inl rc => rc <> UNIFYFS_SUCCESS /\ stream_failed px' sid /\
        forall n, 0 <= n -> fine px (n + pending s) -> unifyfs_max_offt < cur + bsize s
    | inr short => (exists s' file', refilled px' sid s d bs cur short s' file') /\
        forall n, 0 <= n -> fine px (n + pending s) -> fine px' n
    end.
Proof.
  intros [Hat [Hty Hb] Hmax Happ Hu Hw Hc] [buf Hbuf] Hrd. rewrite Hbuf in Hb. destruct Hb as [Hb _]. unfold refill_buf.
  destruct (flush_spec px sid s d file bs buf Hat Hb Hmax Hw) as (px1 & rc & s1 & file1 & -> & [Hat1 Hsame Ho1 Hok Herr Hfine]). cbn [lbind].
  destruct (rc =? UNIFYFS_SUCCESS) eqn:Hrc; zbool; cbn [negb].
  2:{ exists px1, (inl rc). split; [done|]. split; [done|]. split; [done|]. destruct (Herr Hrc) as [-> _].
      split; [eexists; split; [apply Hat1|done]|]. intros n Hn Hf. by destruct (Hfine n Hn Hf). }
  destruct (Hok Hrc) as [-> ->]. clear Hok Herr. rewrite (stream_at_get _ _ _ _ _ Hat1). cbn [lbind]. cbn [s_b s_set_b sb_buf sb_set_dirty].
  rewrite Hbuf. cbn [lift_option lbind]. cbn [s_fd s_set_b s_b sb_bufsize sb_set_dirty].
  pose proof Hb as [_ Hsz _ _ _ _ _ _]. set (s1 := s_set_b (sb_set_dirty false (s_b s)) s) in *.
  destruct (fd_read_spec px1 (s_fd s) d bs cur buf (sb_bufsize (s_b s)) (sa_fd _ _ _ _ _ Hat1) Hrd Hc ltac:(lia))
    as (f2 & rc2 & n & buf2 & -> & [Hi2 Ho2 Hk2] & Hres & Hgood). cbn [lbind].
  assert (fs_file f2 (fd_fid d) = Some bs) as Hf2 by (rewrite Ho2; apply (sa_fd _ _ _ _ _ Hat1)).
  assert (forall s' e m, same_but sid px (px_set_errno e (px_set_mem m (put_stream sid s' (px_set_files f2 px1))))) as Hsame2.
  { intros s' e m. eapply same_but_trans; [exact Hsame|]. eapply same_but_put, Hat1. }
  assert (forall i, i <> fd_fid d -> fs_file f2 i = fs_file (px_files px) i) as Ho by (intros i Hi; by rewrite Ho2 Ho1).
  destruct (rc2 =? UNIFYFS_SUCCESS) eqn:Hrc2; zbool; cbn [negb].
  2:{ eexists _, (inl EIO). split; [done|]. split; [split; [apply (Hsame2 _ _ (px_mem px1))|done]|]. split; [done|].
      split; [eapply failed_put, eq_refl; apply Hat1|]. intros k Hk Hf. destruct (Hfine k Hk Hf) as [_ [Hg _]].
      unfold bsize. rewrite Hbuf. apply Z.nle_gt. intros Hle. by apply Hrc2, (Hgood k). }
  destruct (Hres Hrc2) as [-> Hd2]. set (n := avail bs cur (sb_bufsize (s_b s))) in *.
  eexists _, (inr _). split; [done|]. split; [split; [apply (Hsame2 _ (px_errno px1) (px_mem px1))|done]|].
  split; [|intros k Hk Hf; destruct (Hfine k Hk Hf) as [_ [Hg Hm]]; split; [by apply Hk2|done]].
  exists (s_set_b (sb_set_data buf2 cur n (sb_bufdirty (s_b s1)) (s_b s1)) s1), bs.
  split; [|by eexists|done|done|done|done|done|done|unfold bsize; by rewrite Hbuf|done].
  destruct (avail_bounds bs cur (sb_bufsize (s_b s)) ltac:(lia)) as [Hn1 Hn2]. fold n in Hn1, Hn2. split; try done.
  - apply (stream_at_put px1 sid s1 d bs _ f2 (px_errno px1) (px_mem px1) bs); done.
  - split; [done|]. cbn. split; [|done]. split; cbn; try done; lia.
Qed.

(** What the loop has read so far, from position [pos] on. *)
Definition read_so_far bs (pos count remaining : Z) (buf : Z -> Z) : Prop :=
  0 <= remaining <= count /\ (0 < count - remaining -> pos + (count - remaining) <= zlen bs) /\
  forall k, 0 <= k < count - remaining -> buf k = byte bs (pos + k).

Lemma read_copy bs pos count remaining buf b sbuf file (off bytes : Z) :
  buf_data b sbuf file bs -> read_so_far bs pos count remaining buf -> 0 <= off -> 0 <= bytes <= remaining ->
  sb_bufpos b + off = pos + (count - remaining) -> off + bytes <= sb_buflen b ->
  read_so_far bs pos count (remaining - bytes) (if bytes >? 0 then memcpy buf (count - remaining) sbuf off bytes else buf).
Proof.
  intros Hb (Hr & Hend & Hk) Hoff Hby Hpos Hfit. split_and!; [lia|lia| |].
  { intros Hlt. destruct (decide (0 < bytes)); [|replace bytes with 0 by lia; rewrite Z.sub_0_r; apply Hend; lia].
    pose proof (bd_end _ _ _ _ Hb ltac:(lia)). lia. }
  intros k Hlt. destruct (bytes >? 0) eqn:Hz; zbool.
  - destruct (decide (k < count - remaining)) as [Hlo|Hhi].
    + rewrite memcpy_out; [lia|lia|]. apply Hk. lia.
    + replace k with ((count - remaining) + (k - (count - remaining))) at 1 by lia. rewrite memcpy_in; [lia|].
      rewrite (bd_bytes _ _ _ _ Hb); [lia|]. f_equal. lia.
  - apply Hk. lia.
Qed.

(** The stream after the loop, at the position it reached. *)
Record read_done px (sid : Z) s d bs (pos count remaining : Z) (buf : Z -> Z) s' file' : Prop := {
  rdn_rep : stream_rep px sid s' d file' bs (pos + (count - remaining));
  rdn_id : stream_id s' = stream_id s;
  rdn_err : s_err s' = s_err s;
  rdn_some : is_Some (sb_buf (s_b s'));
  rdn_bsize : bsize s' = bsize s;
  rdn_type : sb_buftype (s_b s') = sb_buftype (s_b s);
  rdn_data : read_so_far bs pos count remaining buf;
}.

(** One round: the buffer is made to hold the current position. *)
Lemma read_round px sid s d file bs cur :
  stream_rep px sid s d file bs cur -> is_Some (sb_buf (s_b s)) -> fd_read d = true ->
  exists px' r,
    (if (cur <? sb_bufpos (s_b s)) || (cur >=? sb_bufpos (s_b s) + sb_buflen (s_b s)) then refill_buf px sid cur
     else LRet (px, inr false)) = LRet (px', r) /\ stream_step sid (fd_fid d) px px' /\
    match r with
    | inl rc => rc <> UNIFYFS_SUCCESS /\ stream_failed px' sid /\
        forall n, 0 <= n -> fine px (n + pending s) -> unifyfs_max_offt < cur + bsize s
    | inr short => exists s' file', stream_rep px' sid s' d file' bs cur /\ is_Some (sb_buf (s_b s')) /\
        sb_bufdirty (s_b s') = false /\ stream_id s' = stream_id s /\ s_err s' = s_err s /\ sb_bufpos (s_b s') <= cur /\
        (short = false -> cur < sb_bufpos (s_b s') + sb_buflen (s_b s')) /\ cur <= sb_bufpos (s_b s') + sb_buflen (s_b s') /\
        (short = true -> zlen bs <= sb_bufpos (s_b s') + sb_buflen (s_b s')) /\ bsize s' = bsize s /\
        sb_buftype (s_b s') = sb_buftype (s_b s) /\ forall n, 0 <= n -> fine px (n + pending s) -> fine px' n
    end.
Proof.
  intros Hr Hs Hrd. destruct (_ || _) eqn:Hb.
  - destruct (refill_spec px sid s d file bs cur Hr Hs Hrd) as (px' & r & -> & Hst & Hres). exists px', r. split; [done|].
    split; [done|]. destruct r as [rc|short]; [done|]. destruct Hres as [(s' & file' & [R1 R2 R3 R4 R5 R6 R7 R8 R9 R10]) Hfine]. exists s', file'.
    destruct R2 as [b Eb]. pose proof (sr_buf _ _ _ _ _ _ _ R1) as [_ H0]. rewrite Eb in H0. destruct H0 as [H0 _].
    pose proof (bd_size _ _ _ _ H0). unfold avail in R5. split_and!; try done; try lia.
    + intros ->. symmetry in R6. zbool. lia.
    + intros ->. symmetry in R6. zbool. lia.
  - apply orb_false_iff in Hb as [H1 H2]. zbool. exists px, (inr false). split; [done|].
    assert (sb_bufdirty (s_b s) = false) as Hcl.
    { destruct Hs as [b Eb]. pose proof (sr_buf _ _ _ _ _ _ _ Hr) as [_ H0]. rewrite Eb in H0. destruct H0 as [_ H0].
      destruct (sb_bufdirty (s_b s)); [|done]. destruct (H0 eq_refl). lia. }
    split; [by eapply stream_step_refl, Hr|]. exists s, file. split_and!; try done; try lia.
    intros n Hn. unfold pending. by rewrite Hcl Z.add_0_r.
Qed.

Lemma read_loop_stop fuel px sid cur remaining count buf eof :
  (remaining >? 0) && negb eof = false -> read_loop fuel px sid cur remaining count buf eof = LRet (px, inr remaining, buf).
Proof. intros H. destruct fuel; cbn [read_loop]; by rewrite H. Qed.

(** What the loop returns. *)
Definition read_outcome px (sid : Z) s d bs (pos count : Z) px' (r : Z + Z) (buf' : Z -> Z) : Prop :=
  stream_step sid (fd_fid d) px px' /\
  match r with
  | inl rc => rc <> UNIFYFS_SUCCESS /\ stream_failed px' sid /\
      forall n, 0 <= n -> fine px (n + pending s) -> unifyfs_max_offt < Z.max pos (zlen bs) + bsize s
  | inr remaining' => count - remaining' = avail bs pos count /\
      exists s' file', read_done px' sid s d bs pos count remaining' buf' s' file' /\
        forall n, 0 <= n -> fine px (n + pending s) -> fine px' (n + pending s')
  end.

Lemma read_loop_end fuel px sid s d file bs pos count remaining buf eof :
  stream_rep px sid s d file bs (pos + (count - remaining)) -> is_Some (sb_buf (s_b s)) -> read_so_far bs pos count remaining buf ->
  (eof = true -> 0 < remaining -> count - remaining = avail bs pos count) -> (remaining >? 0) && negb eof = false ->
  exists px' r buf', read_loop fuel px sid (pos + (count - remaining)) remaining count buf eof = LRet (px', r, buf') /\
    read_outcome px sid s d bs pos count px' r buf'.
Proof.
  intros Hr Hs Hd Heof Hcond. pose proof Hd as (Hrem & Hend & _). rewrite read_loop_stop //. exists px, (inr remaining), buf.
  split; [done|]. split; [by eapply stream_step_refl, Hr|]. split; [|exists s, file; split; [by split|done]].
  assert (remaining = 0 -> count - remaining = avail bs pos count) as H0.
  { intros ->. unfold avail. destruct (decide (0 < count)); [specialize (Hend ltac:(lia))|]; lia. }
  apply andb_false_iff in Hcond as [Hz|Hz%negb_false_iff]; zbool; [apply H0; lia|].
  destruct (decide (0 < remaining)); [by apply Heof|]. apply H0. lia.
Qed.

Lemma read_loop_spec fuel px sid s d file bs pos count remaining buf eof :
  stream_rep px sid s d file bs (pos + (count - remaining)) -> is_Some (sb_buf (s_b s)) -> fd_read d = true ->
  0 <= pos -> count <= unifyfs_max_offt -> read_so_far bs pos count remaining buf ->
  (eof = true -> 0 < remaining -> count - remaining = avail bs pos count) -> (eof = false -> (Z.to_nat remaining < fuel)%nat) ->
  exists px' r buf', read_loop fuel px sid (pos + (count - remaining)) remaining count buf eof = LRet (px', r, buf') /\
    read_outcome px sid s d bs pos count px' r buf'.
Proof.
  revert px s file remaining buf eof. induction fuel as [|fuel IH]; intros px s file remaining buf eof Hr Hs Hrd Hpos Hcm Hd Heof Hfuel;
    destruct ((remaining >? 0) && negb eof) eqn:Hcond; try (by eapply read_loop_end);
    apply andb_true_iff in Hcond as [Hpos' Heof'%negb_true_iff]; zbool; subst eof; specialize (Hfuel eq_refl); [lia|].
  pose proof Hd as (Hrem & Hend & _). cbn [read_loop]. rewrite Z.gtb_ltb (proj2 (Z.ltb_lt _ _)) //. cbn [andb negb].
  rewrite (stream_at_get _ _ _ _ _ (sr_at _ _ _ _ _ _ _ Hr)). cbn [lbind].
  destruct (read_round px sid s d file bs _ Hr Hs Hrd) as (px1 & r & -> & Hst1 & Hres). cbn [lbind].
  destruct r as [rc|short].
  { exists px1, (inl rc), buf. split; [done|]. split; [done|]. destruct Hres as (? & ? & Hb). split_and!; try done. intros n Hn Hf.
    specialize (Hb n Hn Hf). destruct (decide (0 < count - remaining)); lia. }
  destruct Hres as (s1 & file1 & Hr1 & [sbuf Hs1] & Hcl & Hid1 & He1 & Hlo & Hin & Hle & Hsh & Hbs1 & Hty1 & Hfine1).
  rewrite (stream_at_get _ _ _ _ _ (sr_at _ _ _ _ _ _ _ Hr1)). cbn [lbind]. rewrite Hs1. cbn [lift_option lbind].
  pose proof (sr_buf _ _ _ _ _ _ _ Hr1) as [Hty Hb1]. rewrite Hs1 in Hb1. destruct Hb1 as [Hb1 _].
  pose proof Hb1 as [_ Hsz Hlen Hbp _ _ _ _]. set (cur := pos + (count - remaining)) in *.
  assert (forall z, 0 <= z <= unifyfs_max_offt -> u64 z = z) as Hu.
  { intros z Hz. apply u64_small. unfold is_u64, ULONG_MAX, unifyfs_max_offt in *. lia. }
  rewrite (Hu (cur - _)); [lia|]. rewrite (Hu (sb_buflen (s_b s1) - _)); [lia|].
  set (off := cur - sb_bufpos (s_b s1)) in *. set (avl := sb_buflen (s_b s1) - off) in *.
  set (bytes := if avl >? remaining then remaining else avl).
  assert (0 <= bytes <= remaining /\ bytes <= avl /\ (bytes = remaining \/ bytes = avl)) as (Hb0 & Hb2 & Hb3).
  { unfold bytes. destruct (avl >? remaining) eqn:E; zbool; lia. }
  pose proof (read_copy bs pos count remaining buf (s_b s1) sbuf file1 off bytes Hb1 Hd ltac:(lia) Hb0 ltac:(lia) ltac:(lia)) as Hd'.
  assert (cur + bytes = pos + (count - (remaining - bytes))) as Hcur by lia. rewrite Hcur.
  assert (stream_rep px1 sid s1 d file1 bs (pos + (count - (remaining - bytes)))) as Hr1'.
  { pose proof (bd_end _ _ _ _ Hb1). destruct Hr1 as [A1 [A2 A3] A4 A5 A6 A7 A8]. split; try done; [|destruct (decide (0 < bytes)); lia]. split; [done|]. rewrite Hs1. split; [done|]. by rewrite Hcl. }
  destruct (IH px1 s1 file1 (remaining - bytes) _ short Hr1' ltac:(by eexists) Hrd Hpos Hcm Hd') as (px2 & r & buf2 & -> & Hst2 & Hres2).
  - intros -> Hlt. specialize (Hsh eq_refl). pose proof (bd_end _ _ _ _ Hb1). unfold avail.
    destruct (decide (0 < sb_buflen (s_b s1))); [|destruct (decide (0 < count - remaining))]; lia.
  - intros ->. specialize (Hin eq_refl). lia.
  - exists px2, r, buf2. split; [done|]. split; [by eapply stream_step_trans|]. assert (pending s1 = 0) as Hp1 by (unfold pending; by rewrite Hcl).
    assert (forall n, 0 <= n -> fine px (n + pending s) -> fine px1 (n + pending s1)) as Hf1 by (intros n Hn Hf; rewrite Hp1 Z.add_0_r; by apply Hfine1).
    destruct r as [rc|rem'].
    + destruct Hres2 as (? & ? & Hb). split_and!; try done. intros n Hn Hf. rewrite -Hbs1. by apply (Hb n), Hf1.
    + destruct Hres2 as (Hav & s2 & file2 & [B1 B2 B3 B4 B5 B6 B7] & Hf2). split; [done|]. exists s2, file2.
      split; [split; try done; congruence|]. intros n Hn Hf. by apply Hf2, Hf1.
Qed.

(** ** Calls *)

(** A call on stream [sid] leaves all other streams, descriptors and files as
    they are. *)
Record call_step (sid fd fid : Z) px px' : Prop := {
  cs_cfg : px_cfg px' = px_cfg px;
  cs_cwd : px_cwd px' = px_cwd px;
  cs_fds i : i <> Z.to_nat fd -> px_fds px' !! i = px_fds px !! i;
  cs_dup : px_dup_fds px' = px_dup_fds px;
  cs_fd_stack : px_fd_stack px' = px_fd_stack px;
  cs_streams i : i <> Z.to_nat sid -> px_streams px' !! i = px_streams px !! i;
  cs_stream_stack : px_stream_stack px' = px_stream_stack px;
  cs_others i : i <> fid -> fs_file (px_files px') i = fs_file (px_files px) i;
}.

Lemma call_step_trans sid fd fid px1 px2 px3 : call_step sid fd fid px1 px2 -> call_step sid fd fid px2 px3 -> call_step sid fd fid px1 px3.
Proof.
  intros [? ? F1 ? ? S1 ? O1] [? ? F2 ? ? S2 ? O2]. split; try congruence; intros i Hi.
  - by rewrite F2 // F1.
  - by rewrite S2 // S1.
  - by rewrite O2 // O1.
Qed.

Lemma call_of_step sid fd fid px px' : stream_step sid fid px px' -> call_step sid fd fid px px'.
Proof.
  intros [[? ? Hf ? ? (s' & Hs) ? ? ?] ?]. split; try done; intros i Hi; [by rewrite Hf|].
  by rewrite Hs list_lookup_insert_ne.
Qed.

Lemma call_put_fd sid fd fid px f : call_step sid fd fid px (put_fd fd f px).
Proof. split; try done. intros i Hi. simpl. by rewrite list_lookup_alter_ne. Qed.

Lemma call_put_stream sid fd fid px s e : call_step sid fd fid px (px_set_errno e (put_stream sid s px)).
Proof. split; try done. intros i Hi. simpl. by rewrite list_lookup_insert_ne. Qed.

(** The descriptor of the stream at another position. *)
Lemma rep_put_fd px sid s d file bs cur pos f :
  stream_rep px sid s d file bs cur -> f d = fd_set_pos pos d ->
  stream_rep (put_fd (s_fd s) f px) sid s (fd_set_pos pos d) file bs cur.
Proof.
  intros [[A1 A2 [B1 B2 B3 B4 B5]] H2 H3 H4 H5 H6 H7] Hf. split; try done. split; [done|done|]. split; try done. simpl.
  by rewrite list_lookup_alter_eq B2 /= Hf.
Qed.

(** An open stream as its user sees it: the mode, the contents of the file, the
    position and the end-of-file indicator. *)
Definition stream_state px (sid fd fid : Z) (rd wr : bool) bs (pos : Z) (eof : bool) : Prop :=
  exists s d file, stream_rep px sid s d file bs pos /\ fd_pos d = pos /\ s_fd s = fd /\ fd_fid d = fid /\
    fd_read d = rd /\ fd_write d = wr /\ s_eof s = eof /\ s_sid s = sid.

(** The kind and the size of its buffer; nothing fails until [n] more bytes were
    written. *)
Definition stream_env px (sid n type size : Z) : Prop :=
  exists s, px_streams px !! Z.to_nat sid = Some s /\ fine px (n + pending s) /\ sb_buftype (s_b s) = type /\ bsize s = size.

Definition env_kept (sid : Z) px px' : Prop := forall n type size, 0 <= n -> stream_env px sid n type size -> stream_env px' sid n type size.

Lemma env_kept_of px sid s px' s' :
  px_streams px !! Z.to_nat sid = Some s -> px_streams px' !! Z.to_nat sid = Some s' ->
  sb_buftype (s_b s') = sb_buftype (s_b s) -> bsize s' = bsize s ->
  (forall n, 0 <= n -> fine px (n + pending s) -> fine px' (n + pending s')) -> env_kept sid px px'.
Proof.
  intros Hs Hs' Hty Hsz Hf n type size Hn (s0 & Hs0 & Hfine & <- & <-). rewrite Hs in Hs0. injection Hs0 as <-.
  exists s'. split_and!; [done|by apply Hf|done|done].
Qed.

Lemma env_kept_trans sid px1 px2 px3 : env_kept sid px1 px2 -> env_kept sid px2 px3 -> env_kept sid px1 px3.
Proof. intros H1 H2 n type size Hn H. by apply H2, H1. Qed.

Lemma env_kept_refl sid px : env_kept sid px px.
Proof. by intros n type size _ H. Qed.

Lemma env_kept_errno sid px e : env_kept sid px (px_set_errno e px).
Proof. by intros n type size _ H. Qed.

(** A change of the stream that leaves its buffer. *)
Lemma env_put px sid s s' e m :
  px_streams px !! Z.to_nat sid = Some s -> s_b s' = s_b s -> (mem_plenty (px_mem px) -> mem_plenty m) ->
  env_kept sid px (px_set_errno e (px_set_mem m (put_stream sid s' px))).
Proof.
  intros Hs Hb Hm. eapply (env_kept_of _ _ s _ s'); try done.
  - simpl. apply list_lookup_insert_eq. by apply lookup_lt_Some in Hs.
  - by rewrite Hb.
  - unfold bsize. by rewrite Hb.
  - intros n Hn [H1 H2]. split; [|by apply Hm]. unfold pending. by rewrite Hb.
Qed.

Lemma rep_ptr px sid s d file bs cur :
  stream_rep px sid s d file bs cur -> stream_rep (put_stream sid (s_set_ptr P_NULL 0 s) px) sid (s_set_ptr P_NULL 0 s) d file bs cur.
Proof.
  intros Hr. apply (rep_put px sid s d file bs cur (s_set_ptr P_NULL 0 s) (px_errno px) (px_mem px)); try done. apply Hr.
Qed.

(** Every call starts by clearing the pointers of the stream. *)
Record call_begun px (sid : Z) s d file bs (pos : Z) px0 s0 : Prop := {
  cb_get : get_stream px sid = LRet s;
  cb_rep : stream_rep px0 sid s0 d file bs pos;
  cb_step : call_step sid (s_fd s) (fd_fid d) px px0;
  cb_env : env_kept sid px px0;
  cb_desc : unifyfs_get_filedesc_from_fd px0 (s_fd s) = Some d;
}.

Lemma stream_begin px sid s d file bs pos :
  stream_rep px sid s d file bs pos ->
  call_begun px sid s d file bs pos (put_stream sid (s_set_ptr P_NULL 0 s) px) (s_set_ptr P_NULL 0 s).
Proof.
  intros Hr. pose proof (rep_ptr _ _ _ _ _ _ _ Hr) as Hr0. pose proof (sa_fd _ _ _ _ _ (sr_at _ _ _ _ _ _ _ Hr0)) as Hfd. split; [|done|..].
  - eapply stream_at_get, Hr.
  - apply (call_put_stream _ _ _ px (s_set_ptr P_NULL 0 s) (px_errno px)).
  - apply (env_put px sid s (s_set_ptr P_NULL 0 s) (px_errno px) (px_mem px)); try done. apply Hr.
  - apply get_filedesc_ok; apply Hfd.
Qed.

(** The stream has a buffer, or there is no memory for one. *)
Lemma stream_buffered px sid s d file bs pos :
  stream_rep px sid s d file bs pos ->
  exists px' r, ensure_buf px sid = LRet (px', r) /\ call_step sid (s_fd s) (fd_fid d) px px' /\
    match r with
    | inl rc => rc <> UNIFYFS_SUCCESS /\ stream_failed px' sid /\ forall n type size, ~ stream_env px sid n type size
    | inr _ => exists s', stream_rep px' sid s' d file bs pos /\ is_Some (sb_buf (s_b s')) /\ stream_id s' = stream_id s /\
        env_kept sid px px' /\ get_stream px' sid = LRet s' /\ (sb_buftype (s_b s') =? _IONBF) = false
    end.
Proof.
  intros Hr. destruct (ensure_buf_spec _ _ _ _ _ _ _ Hr) as (px1 & r & -> & Hst1 & Hres). exists px1, r. split; [done|].
  split; [by apply call_of_step|]. destruct r as [rc|[]].
  - destruct Hres as (? & ? & Hnf). split_and!; try done. intros n type size (s' & _ & Hf & _). by destruct (Hnf _ Hf).
  - destruct Hres as (s1 & sb & Hr1 & Hsb & Hid & Herr & Hp1 & Hb1 & Ht1 & Hf1). exists s1. split_and!; try done.
    + eapply (env_kept_of _ _ s _ s1); [apply Hr|apply Hr1|done|done|]. intros n Hn. rewrite Hp1. apply Hf1.
    + eapply stream_at_get, Hr1.
    + destruct (sr_buf _ _ _ _ _ _ _ Hr1) as [[-> | ->] _]; done.
Qed.

(** The end of a read: the position moves on, and a short read sets the
    indicator. *)
Lemma read_finish px sid s d file bs pos count n (buf : Z -> Z) :
  stream_rep px sid s d file bs (pos + n) -> fd_pos d = pos -> s_eof s = false -> s_sid s = sid -> 0 <= n <= count ->
  exists px',
    (let px := put_fd (s_fd s) (fun d => fd_set_pos (fd_pos d + n) d) px in
     if n <? count then let! s := get_stream px sid in LRet (put_stream sid (s_set_eof true s) px, (UNIFYFS_SUCCESS, n, buf))
     else LRet (px, (UNIFYFS_SUCCESS, n, buf))) = LRet (px', (UNIFYFS_SUCCESS, n, buf)) /\
    call_step sid (s_fd s) (fd_fid d) px px' /\ env_kept sid px px' /\
    stream_state px' sid (s_fd s) (fd_fid d) (fd_read d) (fd_write d) bs (pos + n) (n <? count).
Proof.
  intros Hr Hpos Heof Hsid Hn. cbv zeta. pose proof (rep_put_fd px sid s d file bs (pos + n) (pos + n)
    (fun d => fd_set_pos (fd_pos d + n) d) Hr ltac:(simpl; by rewrite Hpos)) as Hr2.
  set (px2 := put_fd _ _ px) in *. assert (call_step sid (s_fd s) (fd_fid d) px px2) as Hc by apply call_put_fd.
  assert (env_kept sid px px2) as Hek by (intros ? ? ? _ H; exact H). destruct (n <? count).
  - rewrite (stream_at_get _ _ _ _ _ (sr_at _ _ _ _ _ _ _ Hr2)). cbn [lbind]. eexists. split; [done|]. split_and!.
    2:{ apply (env_kept_trans _ _ px2); [done|]. apply (env_put px2 sid s (s_set_eof true s) (px_errno px2) (px_mem px2)); try done. apply Hr2. }
    + eapply call_step_trans; [exact Hc|]. apply (call_put_stream _ _ _ px2 (s_set_eof true s) (px_errno px2)).
    + exists (s_set_eof true s), (fd_set_pos (pos + n) d), file. split_and!; try done.
      apply (rep_put px2 sid s _ file bs (pos + n) (s_set_eof true s) (px_errno px2) (px_mem px2)); try done. apply Hr.
  - exists px2. split; [done|]. split; [done|]. split; [done|]. by exists s, (fd_set_pos (pos + n) d), file.
Qed.

(** The loop, started from the position of the descriptor. *)
Lemma read_all_spec px sid s d file bs pos buf count :
  stream_rep px sid s d file bs pos -> fd_pos d = pos -> fd_read d = true -> is_Some (sb_buf (s_b s)) -> 0 <= count <= unifyfs_max_offt ->
  exists px' r buf', read_loop (S (Z.to_nat count)) (put_stream sid s px) sid pos count count buf false = LRet (px', r, buf') /\
    call_step sid (s_fd s) (fd_fid d) px px' /\
    match r with
    | inl rc => rc <> UNIFYFS_SUCCESS /\ stream_failed px' sid /\
        forall n, 0 <= n -> fine px (n + pending s) -> unifyfs_max_offt < Z.max pos (zlen bs) + bsize s
    | inr rem => count - rem = avail bs pos count /\ (forall k, 0 <= k < count - rem -> buf' k = byte bs (pos + k)) /\
        env_kept sid px px' /\
        exists s' file', stream_rep px' sid s' d file' bs (pos + (count - rem)) /\ stream_id s' = stream_id s
    end.
Proof.
  intros Hr Hpos Hrd Hs Hcount.
  pose proof (rep_put px sid s d file bs pos s (px_errno px) (px_mem px) Hr eq_refl eq_refl (sr_ungot _ _ _ _ _ _ _ Hr) eq_refl) as Hr'.
  change (px_set_errno _ (px_set_mem _ (put_stream sid s px))) with (put_stream sid s px) in Hr'.
  assert (read_so_far bs pos count count buf) as Hd0 by (split_and!; [lia|lia|lia|intros; lia]).
  assert (pos = pos + (count - count)) as Hpc by lia. rewrite {1}Hpc in Hr'.
  destruct (read_loop_spec (S (Z.to_nat count)) _ sid s d file bs pos count count buf false Hr' Hs Hrd
    (proj1 (sr_cur _ _ _ _ _ _ _ Hr)) ltac:(lia) Hd0 ltac:(done) ltac:(lia)) as (px2 & r & buf2 & Hloop & Hst2 & Hres2).
  rewrite -Hpc in Hloop. exists px2, r, buf2. split; [done|]. split.
  { eapply call_step_trans; [apply (call_put_stream _ _ _ px s (px_errno px))|]. by apply call_of_step. }
  destruct r as [rc|rem]; [done|]. destruct Hres2 as (Hav & s2 & file2 & [Hr2 Hid2 Herr2 _ Hbs2 Hty2 (_ & _ & Hdata)] & Hf2).
  split_and!; try done; [|by exists s2, file2]. by apply (env_kept_of px sid s px2 s2); [apply Hr|apply Hr2|..].
Qed.

(** A read of a stream that is open for reading: unless the end-of-file
    indicator is set or an error occurs, it returns the bytes at the position,
    all of them up to the end of the file. *)
Lemma stream_read_spec px sid fd fid wr bs pos eof buf count :
  stream_state px sid fd fid true wr bs pos eof -> 0 <= count <= unifyfs_max_offt ->
  exists px' rc n buf', unifyfs_stream_read px sid buf count = LRet (px', (rc, n, buf')) /\ call_step sid fd fid px px' /\
    (eof = false /\ rc = UNIFYFS_SUCCESS /\ n = avail bs pos count /\ (forall k, 0 <= k < n -> buf' k = byte bs (pos + k)) /\
       stream_state px' sid fd fid true wr bs (pos + n) (n <? count) /\ env_kept sid px px' \/
     eof = true /\ rc = UNIFYFS_FAILURE /\ n = 0 /\ stream_state px' sid fd fid true wr bs pos true /\ env_kept sid px px' \/
     rc <> UNIFYFS_SUCCESS /\ stream_failed px' sid /\
       forall n type size, 0 <= n -> stream_env px sid n type size -> unifyfs_max_offt < Z.max (pos + count) (Z.max pos (zlen bs) + size)).
Proof.
  intros (s & d & file & Hr & Hpos & <- & <- & Hrd & Hwr & <- & Hsid) Hcount. unfold unifyfs_stream_read.
  destruct (stream_begin _ _ _ _ _ _ _ Hr) as [-> Hr0 Hc0 He0 Hd0]. cbn [lbind]. set (s0 := s_set_ptr P_NULL 0 s) in *.
  set (px0 := put_stream sid s0 px) in *. change (s_fd s0) with (s_fd s). rewrite Hd0 Hrd. cbn [negb].
  destruct (stream_buffered _ _ _ _ _ _ _ Hr0) as (px1 & r & -> & Hc1 & Hres). cbn [lbind]. change (s_fd s0) with (s_fd s) in Hc1.
  pose proof (call_step_trans _ _ _ _ _ _ Hc0 Hc1) as Hc01. clear Hc1. rename Hc01 into Hc1.
  destruct r as [rc|[]].
  { exists px1, rc, 0, buf. split; [done|]. split; [done|]. right; right. destruct Hres as (? & ? & Hnf). split_and!; try done.
    intros n type size Hn Henv%He0; [|done]. by destruct (Hnf _ _ _ Henv). }
  destruct Hres as (s1 & Hr1 & Hsb & Hid & He01 & -> & _). pose proof (env_kept_trans _ _ _ _ He0 He01) as He1. cbn [lbind].
  injection Hid as Hsid1 Heof Hfd1 _ _ _. rewrite Heof. destruct (s_eof s) eqn:Hse.
  { exists px1, UNIFYFS_FAILURE, 0, buf. split; [done|]. split; [done|]. right; left. split_and!; try done.
    exists s1, d, file. split_and!; try done; congruence. }
  rewrite Hpos off_t_of_small //. destruct (unifyfs_would_overflow_offt pos count) eqn:Hov.
  { eexists _, _, _, _. split; [done|]. split; [by eapply call_step_trans, call_put_stream|]. right; right. split; [done|].
    split; [by eapply failed_put, eq_refl; apply Hr1|]. intros n type size _ _. apply Z.max_lt_iff. left. apply Z.nle_gt. intros Hle.
    rewrite would_overflow_false in Hov; [apply Hr|lia|done|done]. }
  unfold take_ungot. rewrite (sr_ungot _ _ _ _ _ _ _ Hr1). cbn [Z.gtb Z.compare lbind]. rewrite Z.sub_0_r Z.add_0_r.
  assert (s_set_u (s_u s1) s1 = s1) as -> by (by destruct s1).
  destruct (read_all_spec px1 sid s1 d file bs pos buf count Hr1 Hpos Hrd Hsb Hcount) as (px2 & r & buf2 & -> & Hc2 & Hres2).
  cbn [lbind]. rewrite Hfd1 in Hc2 |- *. pose proof (call_step_trans _ _ _ _ _ _ Hc1 Hc2) as Hc.
  destruct r as [rc|rem].
  { exists px2, rc, 0, buf2. split; [done|]. split; [done|]. right; right. destruct Hres2 as (? & ? & Hnf). split_and!; try done.
    intros n type size Hn (s' & Hs' & Hf & _ & <-)%He1; [|done]. rewrite (sa_stream _ _ _ _ _ (sr_at _ _ _ _ _ _ _ Hr1)) in Hs'.
    injection Hs' as <-. specialize (Hnf n Hn Hf). lia. }
  destruct Hres2 as (Hav & Hdata & He2 & s2 & file2 & Hr2 & Hid2). injection Hid2 as Hsid2 Heof2 Hfd2 _ _ _.
  rewrite Hav in Hr2 Hdata |- *. rewrite Hfd1 in Hfd2. rewrite -Hfd2.
  destruct (read_finish px2 sid s2 d file2 bs pos count (avail bs pos count) buf2 Hr2 Hpos ltac:(congruence)
    ltac:(congruence) (proj1 (avail_bounds bs pos count (proj1 Hcount)))) as (px3 & Heq & Hc3 & He3 & Hst3).
  eexists _, _, _, _. split; [exact Heq|]. split; [eapply call_step_trans; [|exact Hc3]; by rewrite Hfd2|]. left. rewrite -Hrd -Hwr.
  split_and!; try done. eapply env_kept_trans; [exact He1|]. by eapply env_kept_trans.
Qed.

(** ** Writing *)

Lemma scan_line_bounds (data : list Z) : data <> [] -> 0 < fst (scan_line data) <= zlen data.
Proof.
  induction data as [|c data IH]; [done|]. intros _. simpl. destruct (c =? newline); [simpl; lia|].
  destruct data as [|c' data]; [simpl; lia|]. specialize (IH ltac:(done)). destruct (scan_line (c' :: data)) as [n found]. simpl in *. lia.
Qed.

Lemma region_read_append (r : Z -> Z) n (data : list Z) :
  0 <= n -> region_read (region_write r n data) 0 (n + zlen data) = region_read r 0 n ++ data.
Proof.
  intros Hn. rewrite region_read_app; [lia|lia|]. f_equal; [|apply region_read_write].
  apply region_read_ext. intros i Hi. apply region_write_outside. lia.
Qed.

(** A buffer whose bytes end at the position [cur] of the next write. *)
Record buf_open b (sbuf : Z -> Z) file bs (cur : Z) : Prop := {
  bo_data : buf_data b sbuf file bs;
  bo_end : cur = sb_bufpos b + sb_buflen b;
  bo_room : sb_buflen b < sb_bufsize b;
  bo_file : bs = splice file (sb_bufpos b) (region_read sbuf 0 (sb_buflen b));
}.

(** The first step of a round: a clean buffer is restarted at [cur]. *)
Lemma buf_restart b sbuf file bs cur :
  buf_rep b file bs cur -> sb_buf b = Some sbuf -> 0 <= cur ->
  buf_open (if negb (sb_bufdirty b) then sb_set_data sbuf cur 0 false b else b) sbuf file bs cur.
Proof.
  intros [_ Hb] Hs Hc. rewrite Hs in Hb. destruct Hb as [Hb Hd]. pose proof Hb as [H1 H2 H3 H4 H5 H6 H7 H8].
  destruct (sb_bufdirty b); cbn [negb].
  - destruct (Hd eq_refl). split; [done|lia|lia|done].
  - subst bs. split; simpl; [split; simpl; try done; lia|lia|lia|done].
Qed.

(** The second step: bytes are copied to the end of the buffer. *)
Lemma buf_fill b sbuf file bs cur (data : list Z) :
  buf_open b sbuf file bs cur -> data <> [] -> zlen data <= sb_bufsize b - sb_buflen b ->
  buf_data (sb_set_data (region_write sbuf (sb_buflen b) data) (sb_bufpos b) (sb_buflen b + zlen data) true b)
    (region_write sbuf (sb_buflen b) data) file (splice bs cur data).
Proof.
  intros [[H1 H2 H3 H4 H5 H6 H7 H8] -> Hroom Hfile] Hdata Hfit. assert (0 < zlen data) as Hpos by (destruct data; [done|simpl; lia]).
  split; cbn [sb_buf sb_bufsize sb_buflen sb_bufpos sb_bufdirty sb_set_data]; try done; try lia.
  - intros _. rewrite splice_length //; [lia|]. lia.
  - intros k Hk. rewrite splice_byte; [lia|]. destruct (decide (k < sb_buflen b)).
    + rewrite region_write_outside; [lia|]. rewrite (proj2 (Z.leb_gt _ _)); [lia|]. simpl. apply H6. lia.
    + rewrite (proj2 (Z.leb_le _ _)) ?(proj2 (Z.ltb_lt _ _)); [lia|lia|]. simpl. unfold region_write.
      rewrite (proj2 (Z.leb_le _ _)) ?(proj2 (Z.ltb_lt _ _)); [lia|lia|]. simpl. unfold byte. rewrite (proj2 (Z.ltb_ge _ _)); [lia|].
      rewrite nth_lookup. do 3 f_equal. lia.
  - rewrite region_read_append; [lia|]. rewrite {1}Hfile.
    assert (sb_buflen b = zlen (region_read sbuf 0 (sb_buflen b))) as Hl by (rewrite region_read_length; lia).
    rewrite {2}Hl. by rewrite splice_app.
Qed.

Lemma write_amount_spec b sbuf file bs cur (data : list Z) bytes need_flush :
  buf_open b sbuf file bs cur -> data <> [] -> write_amount b data = (bytes, need_flush, false) ->
  0 < bytes <= zlen data /\ bytes <= sb_bufsize b - sb_buflen b /\ (need_flush = false -> bytes < sb_bufsize b - sb_buflen b).
Proof.
  intros [[_ Hsz Hlen _ _ _ _ _] _ Hroom _] Hd. assert (0 < zlen data) by (destruct data; [done|simpl; lia]). unfold write_amount.
  rewrite u64_small; [unfold is_u64, ULONG_MAX, unifyfs_max_offt in *; lia|]. destruct (sb_buftype b =? _IOLBF).
  - pose proof (scan_line_bounds data Hd) as Hb. destruct (scan_line data) as [n found]. simpl in Hb. intros [= <- <- Hov].
    apply orb_false_iff in Hov as [H1 H2]. zbool. split_and!; [lia|lia|lia|]. intros ->. cbn [negb] in H2. rewrite andb_true_r in H2. zbool. lia.
  - destruct (_ >=? _) eqn:Hge; zbool; intros [= <- <-]; split_and!; try lia; done.
Qed.

(** The end of a round: the buffer is flushed when it is full or a line is
    complete. *)
Lemma write_flush px sid s d file bs cur (need : bool) buf :
  stream_at px sid s d file -> buf_data (s_b s) buf file bs -> sb_bufdirty (s_b s) = true -> fd_write d = true ->
  zlen bs <= unifyfs_max_offt -> s_append s = false -> ub_ubuflen (s_u s) = 0 ->
  (sb_buftype (s_b s) = _IOFBF \/ sb_buftype (s_b s) = _IOLBF) ->
  cur = sb_bufpos (s_b s) + sb_buflen (s_b s) -> (need = false -> sb_buflen (s_b s) < sb_bufsize (s_b s)) ->
  exists px' rc, (if need then unifyfs_stream_flush px sid else LRet (px, UNIFYFS_SUCCESS)) = LRet (px', rc) /\
    stream_step sid (fd_fid d) px px' /\
    (rc <> UNIFYFS_SUCCESS /\ stream_failed px' sid /\ (forall n, 0 <= n -> ~ fine px (n + pending s)) \/
     rc = UNIFYFS_SUCCESS /\ exists s' file', stream_rep px' sid s' d file' bs cur /\ is_Some (sb_buf (s_b s')) /\
       stream_id s' = stream_id s /\ s_err s' = s_err s /\ bsize s' = bsize s /\ sb_buftype (s_b s') = sb_buftype (s_b s) /\
       forall n, 0 <= n -> fine px (n + pending s) -> fine px' (n + pending s')).
Proof.
  intros Hat Hb Hd Hw Hmax Happ Hu Hty Hcur Hneed. pose proof Hb as [H1 H2 H3 H4 H5 H6 H7 H8].
  specialize (H7 Hd). specialize (H5 H7). destruct need.
  - destruct (flush_spec px sid s d file bs buf Hat Hb Hmax ltac:(done)) as (px' & rc & s' & file' & -> & [Hat' Hsame Ho Hok Herr Hfine]).
    exists px', rc. split; [done|]. split; [done|]. destruct (decide (rc = UNIFYFS_SUCCESS)) as [Hrc|Hrc].
    + right. split; [done|]. destruct (Hok Hrc) as [-> ->]. eexists _, _. split; [split; [exact Hat'|..]|split; [by eexists|split_and!]]; try done.
      3:{ intros n Hn Hf. change (pending (s_set_b (sb_set_dirty false (s_b s)) s)) with 0. rewrite Z.add_0_r. by apply Hfine. }
      * split; [done|]. cbn. rewrite H1. split; [|done]. split; cbn; done.
      * lia.
    + left. split; [done|]. destruct (Herr Hrc) as [-> _]. split; [eexists; split; [apply Hat'|done]|].
      intros n Hn Hf. by destruct (Hfine n Hn Hf).
  - exists px, UNIFYFS_SUCCESS. split; [done|]. split; [by eapply stream_step_refl, Hat|]. right. split; [done|].
    exists s, file. split; [split; try done|split; [by eexists|done]].
    + split; [done|]. rewrite H1. split; [done|]. intros _. split; [done|]. specialize (Hneed eq_refl). lia.
    + lia.
Qed.

Lemma splice_take_drop bs cur (data : list Z) n :
  0 <= cur -> 0 <= n <= zlen data ->
  splice (splice bs cur (take (Z.to_nat n) data)) (cur + n) (drop (Z.to_nat n) data) = splice bs cur data.
Proof.
  intros Hc Hn. rewrite -{3}(take_drop (Z.to_nat n) data) -splice_app //. do 2 f_equal. rewrite length_take. lia.
Qed.

Lemma splice_max bs cur (data : list Z) :
  0 <= cur -> zlen bs <= unifyfs_max_offt -> cur + zlen data <= unifyfs_max_offt -> zlen (splice bs cur data) <= unifyfs_max_offt.
Proof. intros Hc Hb Hd. destruct (decide (data = [])) as [->|Hne]; [done|]. rewrite splice_length //. lia. Qed.

(** The stream with the buffer restarted at the position of the write. *)
Definition restart s (sbuf : Z -> Z) (cur : Z) : unifyfs_stream_t :=
  if negb (sb_bufdirty (s_b s)) then s_set_b (sb_set_data sbuf cur 0 false (s_b s)) s else s.

Lemma restart_b s sbuf cur :
  s_b (restart s sbuf cur) = if negb (sb_bufdirty (s_b s)) then sb_set_data sbuf cur 0 false (s_b s) else s_b s.
Proof. unfold restart. by destruct (negb _). Qed.

Lemma restart_id s sbuf cur : stream_id (restart s sbuf cur) = stream_id s /\ s_err (restart s sbuf cur) = s_err s.
Proof. unfold restart. by destruct (negb _). Qed.

Lemma restart_pending s sbuf cur : sb_buflen (s_b (restart s sbuf cur)) = pending s.
Proof. unfold restart, pending. by destruct (sb_bufdirty (s_b s)). Qed.

Lemma restart_size s sbuf cur :
  sb_bufsize (s_b (restart s sbuf cur)) = sb_bufsize (s_b s) /\ sb_buftype (s_b (restart s sbuf cur)) = sb_buftype (s_b s).
Proof. unfold restart. by destruct (negb _). Qed.

Lemma write_loop_spec fuel px sid s d file bs cur (data : list Z) :
  stream_rep px sid s d file bs cur -> is_Some (sb_buf (s_b s)) -> fd_write d = true -> cur + zlen data <= unifyfs_max_offt ->
  (length data < fuel)%nat ->
  exists px' r, write_loop fuel px sid cur data = LRet (px', r) /\ stream_step sid (fd_fid d) px px' /\
    match r with
    | inl rc => rc <> UNIFYFS_SUCCESS /\ stream_failed px' sid /\
        forall n, 0 <= n -> fine px (n + zlen data + pending s) -> sb_buftype (s_b s) = _IOLBF
    | inr cur' => cur' = cur + zlen data /\
        exists s' file', stream_rep px' sid s' d file' (splice bs cur data) cur' /\ stream_id s' = stream_id s /\ s_err s' = s_err s /\
          bsize s' = bsize s /\ sb_buftype (s_b s') = sb_buftype (s_b s) /\
          forall n, 0 <= n -> fine px (n + zlen data + pending s) -> fine px' (n + pending s')
    end.
Proof.
  revert px s file bs cur data. induction fuel as [|fuel IH]; intros px s file bs cur data Hr [sbuf Hs] Hw Hmax Hfuel; [lia|].
  cbn [write_loop]. destruct (zlen data >? 0) eqn:Hz; zbool.
  2:{ destruct data; [|simpl in Hz; lia]. exists px, (inr cur). split; [done|]. split; [by eapply stream_step_refl, Hr|]. simpl.
      split; [lia|]. exists s, file. split_and!; try done. intros n Hn. by rewrite Z.add_0_r. }
  assert (data <> []) as Hd by (intros ->; simpl in *; lia). pose proof Hr as [Hat Hb Hsz Happ Hu _ Hc].
  rewrite (stream_at_get _ _ _ _ _ Hat). cbn [lbind]. rewrite Hs. cbn [lift_option lbind]. fold (restart s sbuf cur).
  pose proof (buf_restart _ sbuf _ _ _ Hb Hs (proj1 Hc)) as Hbo. rewrite -restart_b in Hbo. set (s1 := restart s sbuf cur) in *.
  destruct (restart_id s sbuf cur) as [Hid1 He1]. fold s1 in Hid1, He1. pose proof Hid1 as Hid1'. injection Hid1' as _ _ Hfd1 Happ1 _ Hu1.
  destruct (restart_size s sbuf cur) as [Hbs1 Hty1]. fold s1 in Hbs1, Hty1.
  destruct (write_amount (s_b s1) data) as [[bytes need] over] eqn:Ham. destruct over.
  { eexists _, (inl ENOMEM). split; [done|]. split; [split; [|done]|split; [done|split]].
    3:{ intros _ _ _. rewrite -Hty1. unfold write_amount in Ham. destruct (sb_buftype (s_b s1) =? _IOLBF) eqn:E; zbool; [done|].
        by destruct (_ >=? _). }
    - apply (same_but_trans sid px (put_stream sid s1 px)); [apply (same_but_put px sid s s1 (px_files px) (px_errno px) (px_mem px)), Hat|].
      eapply (same_but_put (put_stream sid s1 px) sid s1 _ (px_files px) _ (px_mem px)). simpl. apply list_lookup_insert_eq.
      eapply lookup_lt_Some, Hat.
    - eapply (failed_put _ sid s1); [|done]. simpl. apply list_lookup_insert_eq. eapply lookup_lt_Some, Hat. }
  destruct (write_amount_spec _ _ _ _ _ _ _ _ Hbo Hd Ham) as (Hby & Hfit & Hneed). rewrite Z.gtb_ltb (proj2 (Z.ltb_lt 0 bytes)); [lia|].
  set (d1 := take (Z.to_nat bytes) data). assert (zlen d1 = bytes) as Hl1 by (unfold d1; rewrite length_take; lia).
  assert (d1 <> []) as Hd1 by (intros E; rewrite E in Hl1; simpl in Hl1; lia).
  pose proof (buf_fill _ _ _ _ _ d1 Hbo Hd1 ltac:(lia)) as Hbd. rewrite Hl1 in Hbd. set (b2 := sb_set_data _ _ _ true _) in Hbd |- *.
  set (s2 := s_set_b b2 s1). set (px2 := put_stream sid s2 (put_stream sid s1 px)).
  assert (px2 = put_stream sid s2 px) as Hpx2 by (unfold px2, put_stream; simpl; by rewrite list_insert_insert_eq).
  rewrite Hpx2. assert (stream_at (put_stream sid s2 px) sid s2 d file) as Hat2.
  { apply (stream_at_put px sid s d file s2 (px_files px) (px_errno px) (px_mem px) file); try done; apply (sa_fd _ _ _ _ _ Hat). }
  destruct (write_flush _ sid s2 d file _ (cur + bytes) need _ Hat2 Hbd eq_refl Hw) as (px3 & rc & -> & Hst3 & Hres).
  { apply splice_max; [lia|done|lia]. } { simpl. congruence. } { simpl. congruence. } { simpl. rewrite Hty1. apply Hb. }
  { simpl. pose proof (bo_end _ _ _ _ _ Hbo). lia. } { intros Hn. simpl. specialize (Hneed Hn). lia. }
  cbn [lbind]. assert (stream_step sid (fd_fid d) px px3) as Hst.
  { eapply stream_step_trans; [|exact Hst3]. split; [|done]. apply (same_but_put px sid s s2 (px_files px) (px_errno px) (px_mem px)), Hat. }
  assert (pending s2 = pending s + bytes) as Hp2 by (unfold pending at 1; simpl; unfold s1; by rewrite restart_pending).
  assert (forall n, n + (zlen data - bytes) + pending s2 = n + zlen data + pending s) as Hsum by (intros; lia).
  destruct Hres as [(Hrc & Hf & Hnf)|(-> & s3 & file3 & Hr3 & Hs3 & Hid3 & He3 & Hbs3 & Hty3 & Hf3)].
  { rewrite (proj2 (Z.eqb_neq _ _)) //. cbn [negb]. exists px3, (inl rc). split; [done|]. split; [done|]. split_and!; try done.
    intros n Hn Hfn. rewrite -Hsum in Hfn. by destruct (Hnf (n + (zlen data - bytes)) ltac:(lia)). }
  change (UNIFYFS_SUCCESS =? UNIFYFS_SUCCESS) with true. cbn [negb].
  destruct (IH px3 s3 file3 _ _ (drop (Z.to_nat bytes) data) Hr3 Hs3 Hw) as (px4 & r & -> & Hst4 & Hres4).
  { rewrite length_drop. lia. } { rewrite length_drop. lia. }
  exists px4, r. split; [done|]. split; [by eapply stream_step_trans|]. rewrite length_drop in Hres4.
  replace (Z.of_nat (length data - Z.to_nat bytes)) with (zlen data - bytes) in Hres4 by lia.
  assert (forall n, 0 <= n -> fine px (n + zlen data + pending s) -> fine px3 (n + (zlen data - bytes) + pending s3)) as Hf13.
  { intros n Hn. rewrite -Hsum. apply Hf3. lia. }
  destruct r as [rc|cur'].
  { destruct Hres4 as (? & ? & Hnf). split_and!; try done. intros n Hn Hfn. rewrite -Hty1 -Hty3. by apply (Hnf n), Hf13. }
  destruct Hres4 as (-> & s4 & file4 & Hr4 & Hid4 & He4 & Hbs4 & Hty4 & Hf4). rewrite splice_take_drop in Hr4; [lia|lia|].
  split; [lia|]. exists s4, file4. split_and!; [done| | | |by rewrite Hty4 Hty3 -Hty1|auto]; try (unfold stream_id in *; simpl in *; congruence).
  rewrite Hbs4 Hbs3. unfold bsize. simpl. by rewrite Hs Hbs1.
Qed.

(** A write to a stream that is open for writing, through a full or line
    buffer: unless an error occurs, the data is in the contents that the stream
    shows, and the position is behind it. *)
Lemma stream_write_spec px sid fd fid rd bs pos eof (data : list Z) :
  stream_state px sid fd fid rd true bs pos eof -> zlen data <= unifyfs_max_offt ->
  exists px' rc, unifyfs_stream_write px sid data = LRet (px', rc) /\ call_step sid fd fid px px' /\
    (rc = UNIFYFS_SUCCESS /\ pos + zlen data <= unifyfs_max_offt /\
       stream_state px' sid fd fid rd true (splice bs pos data) (pos + zlen data) eof /\
       (forall n type size, 0 <= n -> stream_env px sid (n + zlen data) type size -> stream_env px' sid n type size) \/
     rc <> UNIFYFS_SUCCESS /\ stream_failed px' sid /\
       forall n type size, 0 <= n -> stream_env px sid (n + zlen data) type size -> type = _IOLBF \/ unifyfs_max_offt < pos + zlen data).
Proof.
  intros (s & d & file & Hr & Hpos & <- & <- & Hrd & Hwr & <- & Hsid) Hcount. unfold unifyfs_stream_write.
  destruct (stream_begin _ _ _ _ _ _ _ Hr) as [-> Hr0 Hc0 He0 Hd0]. cbn [lbind]. set (s0 := s_set_ptr P_NULL 0 s) in *.
  set (px0 := put_stream sid s0 px) in *. change (s_fd s0) with (s_fd s). rewrite Hd0 Hwr. cbn [negb].
  unfold write_position. rewrite (sr_append _ _ _ _ _ _ _ Hr0). cbn [lbind]. unfold drop_ungot. rewrite (sr_ungot _ _ _ _ _ _ _ Hr0).
  cbn [Z.gtb Z.compare]. assert (s_set_u (s_u s0) s0 = s0) as -> by (by destruct s).
  assert (put_stream sid s0 px0 = px0) as -> by (unfold px0, put_stream; simpl; by rewrite list_insert_insert_eq).
  rewrite (stream_at_get _ _ _ _ _ (sr_at _ _ _ _ _ _ _ Hr0)). cbn [lbind]. rewrite Hpos off_t_of_small; [lia|].
  destruct (unifyfs_would_overflow_offt pos (zlen data)) eqn:Hov.
  { eexists _, _. split; [done|]. split; [eapply call_step_trans, call_put_stream; exact Hc0|]. right. split; [done|].
    split; [by eapply failed_put, eq_refl; apply Hr0|]. intros n type size _ _. right. apply Z.nle_gt. intros Hle.
    rewrite would_overflow_false in Hov; [apply Hr|lia|done|done]. }
  pose proof (no_overflow_sum pos (zlen data) (sr_cur _ _ _ _ _ _ _ Hr) ltac:(lia) Hov) as Hmax.
  destruct (stream_buffered _ _ _ _ _ _ _ Hr0) as (px1 & r & -> & Hc1 & Hres). cbn [lbind]. change (s_fd s0) with (s_fd s) in Hc1.
  pose proof (call_step_trans _ _ _ _ _ _ Hc0 Hc1) as Hc01. clear Hc1. rename Hc01 into Hc1.
  destruct r as [rc|[]].
  { exists px1, rc. split; [done|]. split; [done|]. right. destruct Hres as (? & ? & Hnf). split_and!; try done.
    intros n type size Hn Henv%He0; [|lia]. by destruct (Hnf _ _ _ Henv). }
  destruct Hres as (s1 & Hr1 & Hsb & Hid & He01 & -> & Hty). pose proof (env_kept_trans _ _ _ _ He0 He01) as He1. cbn [lbind].
  injection Hid as Hsid1 Heof Hfd1 _ _ _. change (s_fd s0) with (s_fd s) in Hfd1. rewrite Hty.
  destruct (write_loop_spec (S (length data)) px1 sid s1 d file bs pos data Hr1 Hsb Hwr Hmax ltac:(lia))
    as (px2 & r & -> & Hst2 & Hres2). cbn [lbind].
  pose proof (call_step_trans _ _ _ _ _ _ Hc1 (call_of_step _ (s_fd s) _ _ _ Hst2)) as Hc2.
  destruct r as [rc|cur'].
  { exists px2, rc. split; [done|]. split; [done|]. right. destruct Hres2 as (? & ? & Hnf). split_and!; try done.
    intros n type size Hn He%He1; [|lia]. destruct He as (s' & Hs' & Hf & <- & _).
    rewrite (sa_stream _ _ _ _ _ (sr_at _ _ _ _ _ _ _ Hr1)) in Hs'. injection Hs' as <-. left. by apply (Hnf n). }
  destruct Hres2 as (-> & s2 & file2 & Hr2 & Hid2 & He2 & Hb2 & Ht2 & Hf2). injection Hid2 as Hsid2 Heof2 Hfd2 _ _ _. rewrite Hfd1 -Hfd1 -Hfd2.
  eexists _, _. split; [done|]. split; [rewrite Hfd2 Hfd1; eapply call_step_trans; [exact Hc2|apply call_put_fd]|]. left.
  split; [done|]. split; [done|]. split.
  - exists s2, (fd_set_pos (pos + zlen data) d), file2. split_and!; try done; try congruence. by apply rep_put_fd.
  - intros n type size Hn He%He1; [|lia]. destruct He as (s' & Hs' & Hf & <- & <-).
    rewrite (sa_stream _ _ _ _ _ (sr_at _ _ _ _ _ _ _ Hr1)) in Hs'. injection Hs' as <-. exists s2.
    split_and!; [apply Hr2|by apply Hf2|done|done].
Qed.

(** ** Flushing, seeking and closing *)

Lemma rep_flushed px px' sid s d bs cur s' file' file buf :
  stream_rep px sid s d file bs cur -> sb_buf (s_b s) = Some buf -> flushed px sid s d bs px' UNIFYFS_SUCCESS s' file' ->
  file' = bs /\ stream_id s' = stream_id s /\ s_err s' = s_err s /\ stream_rep px' sid s' d bs bs cur.
Proof.
  intros [Hat [Hty Hb] Hmax Happ Hu Hw Hc] Hbuf [Hat' _ _ Hok _]. destruct (Hok eq_refl) as [-> ->]. split_and!; try done.
  rewrite Hbuf in Hb. destruct Hb as [[H1 H2 H3 H4 H5 H6 H7 H8] _]. split; try done. split; [done|]. cbn. rewrite Hbuf.
  split; [|done]. by split.
Qed.

(** A stream with nothing left to write: the file has all its contents. *)
Definition stream_clean px (sid fd fid : Z) (rd wr : bool) bs (pos : Z) (eof : bool) : Prop :=
  exists s d, stream_rep px sid s d bs bs pos /\ fd_pos d = pos /\ s_fd s = fd /\ fd_fid d = fid /\
    fd_read d = rd /\ fd_write d = wr /\ s_eof s = eof /\ s_sid s = sid /\ sb_bufdirty (s_b s) = false.

Lemma stream_clean_state px sid fd fid rd wr bs pos eof :
  stream_clean px sid fd fid rd wr bs pos eof ->
  stream_state px sid fd fid rd wr bs pos eof /\ fs_file (px_files px) fid = Some bs.
Proof.
  intros (s & d & Hr & H1 & H2 & <- & H4 & H5 & H6 & H7 & _). split; [by exists s, d, bs|].
  apply (sa_fd _ _ _ _ _ (sr_at _ _ _ _ _ _ _ Hr)).
Qed.

Lemma stream_flush_spec px sid fd fid rd wr bs pos eof :
  stream_state px sid fd fid rd wr bs pos eof ->
  exists px' rc, unifyfs_stream_flush px sid = LRet (px', rc) /\ call_step sid fd fid px px' /\
    (rc = UNIFYFS_SUCCESS /\ stream_clean px' sid fd fid rd wr bs pos eof /\ env_kept sid px px' \/
     rc <> UNIFYFS_SUCCESS /\ stream_failed px' sid /\ forall n type size, 0 <= n -> ~ stream_env px sid n type size).
Proof.
  intros (s & d & file & Hr & Hpos & <- & <- & Hrd & Hwr & <- & Hsid). pose proof Hr as [Hat [Hty Hb] Hmax Happ Hu Hw Hc].
  destruct (sb_buf (s_b s)) as [buf|] eqn:Hbuf.
  - destruct Hb as [Hb _]. destruct (flush_spec px sid s d file bs buf Hat Hb Hmax Hw) as (px' & rc & s' & file' & -> & Hfl).
    exists px', rc. split; [done|]. split; [apply call_of_step; split; apply Hfl|].
    destruct (decide (rc = UNIFYFS_SUCCESS)) as [->|Hrc].
    + left. split; [done|]. destruct (rep_flushed _ _ _ _ _ _ _ _ _ _ _ Hr Hbuf Hfl) as (-> & Hid & He & Hr').
      injection Hid as Hsid' Heof' Hfd' _ _ _. destruct (fl_ok _ _ _ _ _ _ _ _ _ Hfl eq_refl) as [_ Hs'].
      split; [exists s', d; split_and!; try done; try congruence; by rewrite Hs'|].
      eapply (env_kept_of _ _ s _ s'); [apply Hat|apply Hr'|by rewrite Hs'|unfold bsize; by rewrite Hs'|].
      intros n Hn Hf. destruct (fl_fine _ _ _ _ _ _ _ _ _ Hfl n Hn Hf) as [_ Hf']. rewrite Hs'.
      change (pending _) with 0. by rewrite Z.add_0_r.
    + right. split; [done|]. destruct (fl_err _ _ _ _ _ _ _ _ _ Hfl Hrc) as [-> _]. split; [eexists; split; [apply Hfl|done]|].
      intros n type size Hn (s0 & Hs0 & Hf & _). rewrite (sa_stream _ _ _ _ _ Hat) in Hs0. injection Hs0 as <-.
      by destruct (fl_fine _ _ _ _ _ _ _ _ _ Hfl n Hn Hf).
  - destruct Hb as (Hd & Hl & ->). unfold unifyfs_stream_flush. rewrite (stream_at_get _ _ _ _ _ Hat). cbn [lbind]. rewrite Hbuf.
    exists px, UNIFYFS_SUCCESS. split; [done|]. split; [apply call_of_step; by eapply stream_step_refl, Hat|]. left.
    split; [done|]. split; [by exists s, d|apply env_kept_refl].
Qed.

(** Where a seek leads. *)
Definition target_from (base offset : Z) : option Z :=
  if (0 <=? base + offset) && (base + offset <=? unifyfs_max_offt) then Some (base + offset) else None.

Lemma target_from_some base offset : 0 <= base + offset <= unifyfs_max_offt -> target_from base offset = Some (base + offset).
Proof. intros H. unfold target_from. rewrite !(proj2 (Z.leb_le _ _)) //; lia. Qed.

Lemma target_from_none base offset : ~ (0 <= base + offset <= unifyfs_max_offt) -> target_from base offset = None.
Proof. intros H. unfold target_from. destruct (_ && _) eqn:E; [|done]. zbool. by destruct H. Qed.

Definition seek_target bs (pos offset whence : Z) : option Z :=
  if whence =? SEEK_SET then target_from 0 offset
  else if whence =? SEEK_CUR then target_from pos offset
  else if whence =? SEEK_END then target_from (zlen bs) offset
  else None.

(** The last part of a seek. *)
Lemma seek_finish px sid s d file bs pos target :
  stream_rep px sid s d file bs pos -> s_sid s = sid -> sb_bufdirty (s_b s) = false -> 0 <= target <= unifyfs_max_offt ->
  let u := match ub_ubuf (s_u s) with Some _ => ub_set_len 0 (s_u s) | None => s_u s end in
  let px' := px_set_errno 0 (put_fd (s_fd s) (fd_set_pos target) (put_stream sid (s_set_eof false (s_set_u u s)) px)) in
  call_step sid (s_fd s) (fd_fid d) px px' /\ env_kept sid px px' /\
  stream_state px' sid (s_fd s) (fd_fid d) (fd_read d) (fd_write d) bs target false.
Proof.
  intros Hr Hsid Hcl Ht u px'. set (s' := s_set_eof false (s_set_u u s)) in *. split_and!.
  2:{ apply (env_put px sid s s' 0 (px_mem px)); try done. apply Hr. }
  - apply (call_step_trans _ _ _ px (put_stream sid s' px)); [apply (call_put_stream _ _ _ px s' (px_errno px))|].
    apply (call_step_trans _ _ _ _ (put_fd (s_fd s) (fd_set_pos target) (put_stream sid s' px))); [apply call_put_fd|done].
  - exists s', (fd_set_pos target d), file. split_and!; try done.
    assert (stream_rep (put_stream sid s' px) sid s' d file bs pos) as Hr'.
    { apply (rep_put px sid s d file bs pos s' (px_errno px) (px_mem px)); try done. simpl. unfold u.
      destruct (ub_ubuf (s_u s)); [done|apply Hr]. }
    pose proof (rep_put_fd _ _ _ _ _ _ _ target (fd_set_pos target) Hr' eq_refl) as [[A1 A2 [? ? ? ? ?]] [B1 B2] H3 H4 H5 H6 H7].
    split; try done. split; [done|]. destruct (sb_buf (s_b s')); [|done]. split; [apply B2|].
    change (sb_bufdirty (s_b s')) with (sb_bufdirty (s_b s)). by rewrite Hcl.
Qed.

(** The outcome of a seek. *)
Definition seek_outcome px (sid fd fid : Z) (rd wr : bool) bs (pos : Z) (eof : bool) (target : option Z) px' (rc : Z) : Prop :=
  call_step sid fd fid px px' /\
  (rc = 0 /\ (exists p, target = Some p /\ stream_state px' sid fd fid rd wr bs p false) /\ fs_file (px_files px') fid = Some bs /\
     env_kept sid px px' \/
   rc = -1 /\ (stream_failed px' sid /\ (forall n type size, 0 <= n -> stream_env px sid n type size -> target = None) \/
     target = None /\ stream_state px' sid fd fid rd wr bs pos eof /\ env_kept sid px px')).

Lemma seek_to_outcome px sid s d bs pos target :
  stream_rep px sid s d bs bs pos -> s_sid s = sid -> sb_bufdirty (s_b s) = false -> fd_pos d = pos ->
  0 <= target <= unifyfs_max_offt ->
  let u := match ub_ubuf (s_u s) with Some _ => ub_set_len 0 (s_u s) | None => s_u s end in
  seek_outcome px sid (s_fd s) (fd_fid d) (fd_read d) (fd_write d) bs pos (s_eof s) (Some target)
    (px_set_errno 0 (put_fd (s_fd s) (fd_set_pos target) (put_stream sid (s_set_eof false (s_set_u u s)) px))) 0.
Proof.
  intros Hr Hsid Hcl Hpos Ht u. destruct (seek_finish px sid s d bs bs pos target Hr Hsid Hcl Ht) as (Hc & He & Hst). split; [done|].
  left. split; [done|]. split; [by exists target|]. split; [|done]. apply (sa_fd _ _ _ _ _ (sr_at _ _ _ _ _ _ _ Hr)).
Qed.

Lemma seek_error_outcome px sid s d bs pos e rd wr eof :
  stream_rep px sid s d bs bs pos ->
  seek_outcome px sid (s_fd s) (fd_fid d) rd wr bs pos eof None (px_set_errno e (put_stream sid (s_set_err true s) px)) (-1).
Proof.
  intros Hr. split; [apply call_put_stream|]. right. split; [done|]. left. split; [|done]. by eapply failed_put, eq_refl; apply Hr.
Qed.

Lemma rep_files px sid s d file bs cur f e :
  stream_rep px sid s d file bs cur -> fs_inv f -> (forall i, fs_file f i = fs_file (px_files px) i) ->
  stream_rep (px_set_errno e (px_set_files f px)) sid s d file bs cur.
Proof. intros [[A1 A2 [B1 B2 B3 B4 B5]] H2 H3 H4 H5 H6 H7] Hi Hf. split; try done. split; [done|done|]. split; try done. simpl. by rewrite Hf. Qed.

(** An invalid target: the stream stays where it is. *)
Lemma seek_invalid_outcome px sid s d bs pos e :
  stream_rep px sid s d bs bs pos -> s_sid s = sid -> fd_pos d = pos ->
  seek_outcome px sid (s_fd s) (fd_fid d) (fd_read d) (fd_write d) bs pos (s_eof s) None (px_set_errno e px) (-1).
Proof.
  intros Hr Hsid Hpos. split; [done|]. right. split; [done|]. right. split; [done|]. split; [|apply env_kept_errno]. exists s, d, bs. split_and!; try done.
  destruct Hr as [[A1 A2 [B1 B2 B3 B4 B5]] H2 H3 H4 H5 H6 H7]. by split.
Qed.

(** A seek relative to [base]. *)
Lemma seek_relative px sid s d bs pos base offset :
  stream_rep px sid s d bs bs pos -> s_sid s = sid -> sb_bufdirty (s_b s) = false -> fd_pos d = pos ->
  unifyfs_min_offt <= offset <= unifyfs_max_offt -> 0 <= base <= unifyfs_max_offt ->
  exists px' rc,
    (if unifyfs_would_overflow_offt base offset then stream_error px sid s EOVERFLOW (-1)
     else if base + offset <? 0 then ret_errno px EINVAL (-1)
     else
       let u := match ub_ubuf (s_u s) with Some _ => ub_set_len 0 (s_u s) | None => s_u s end in
       ret_errno (put_fd (s_fd s) (fd_set_pos (base + offset)) (put_stream sid (s_set_eof false (s_set_u u s)) px)) 0 0)
      = LRet (px', rc) /\
    seek_outcome px sid (s_fd s) (fd_fid d) (fd_read d) (fd_write d) bs pos (s_eof s) (target_from base offset) px' rc.
Proof.
  intros Hr Hsid Hcl Hpos Hoff Hbase. destruct (unifyfs_would_overflow_offt base offset) eqn:Hov.
  { eexists _, _. split; [done|]. rewrite target_from_none; [|by apply seek_error_outcome]. intros Hle.
    pose proof (proj2 (would_overflow_spec base offset ltac:(unfold unifyfs_min_offt in *; lia) Hoff)) as Hno.
    rewrite Hno in Hov; [unfold unifyfs_min_offt in *; lia|done]. }
  apply would_overflow_spec in Hov; [|unfold unifyfs_min_offt in *; lia|done].
  destruct (base + offset <? 0) eqn:Hneg; zbool.
  - eexists _, _. split; [done|]. rewrite target_from_none; [lia|]. by apply seek_invalid_outcome.
  - eexists _, _. split; [done|]. rewrite target_from_some; [lia|]. apply seek_to_outcome; try done. lia.
Qed.

Lemma env_kept_files sid px f : keeps (px_files px) f -> env_kept sid px (px_set_files f px).
Proof. intros Hk n type size _ (s & Hs & [Hg Hm] & ?). exists s. split; [done|]. split; [|done]. split; [by apply Hk|done]. Qed.

(** A seek after other steps of the stream. *)
Lemma seek_outcome_step px px1 sid fd fid rd wr bs pos eof target px' rc :
  call_step sid fd fid px px1 -> env_kept sid px px1 -> seek_outcome px1 sid fd fid rd wr bs pos eof target px' rc ->
  seek_outcome px sid fd fid rd wr bs pos eof target px' rc.
Proof.
  intros Hc Hek [Hc' Hres]. split; [by eapply call_step_trans|].
  destruct Hres as [(-> & Hp & Hf & He)|(-> & [[Hf He]|(Ht & Hst & He)])].
  - left. split_and!; try done. by eapply env_kept_trans.
  - right. split; [done|]. left. split; [done|]. intros n type size Hn Henv. by eapply He, Hek.
  - right. split; [done|]. right. split_and!; try done. by eapply env_kept_trans.
Qed.

Lemma call_step_files sid fd fid px f : keeps (px_files px) f -> call_step sid fd fid px (px_set_files f px).
Proof. intros Hk. split; try done. intros i _. apply Hk. Qed.

Lemma seek_switch_spec px sid s d bs pos offset whence :
  stream_rep px sid s d bs bs pos -> s_sid s = sid -> sb_bufdirty (s_b s) = false -> fd_pos d = pos ->
  unifyfs_min_offt <= offset <= unifyfs_max_offt ->
  exists px' rc, fseek_switch px sid s (fd_fid d) pos offset whence = LRet (px', rc) /\
    seek_outcome px sid (s_fd s) (fd_fid d) (fd_read d) (fd_write d) bs pos (s_eof s) (seek_target bs pos offset whence) px' rc.
Proof.
  intros Hr Hsid Hcl Hpos Hoff. unfold fseek_switch, seek_target.
  destruct (whence =? SEEK_SET).
  - destruct (offset <? 0) eqn:Hneg; zbool.
    + eexists _, _. split; [done|]. rewrite target_from_none; [lia|]. by apply seek_invalid_outcome.
    + eexists _, _. split; [done|]. rewrite target_from_some; [lia|]. rewrite Z.add_0_l. apply seek_to_outcome; try done; lia.
  - destruct (whence =? SEEK_CUR); [|destruct (whence =? SEEK_END)].
    + apply seek_relative; try done. apply Hr.
    + destruct (sa_fd _ _ _ _ _ (sr_at _ _ _ _ _ _ _ Hr)) as [_ _ _ Hi Hf].
      destruct (fs_size _ _ _ Hi Hf) as (f' & -> & Hk). cbn [lbind].
      pose proof (rep_files px sid s d bs bs pos f' (px_errno px) Hr (kp_inv _ _ Hk) (kp_files _ _ Hk)) as Hr'.
      change (px_set_errno _ (px_set_files f' px)) with (px_set_files f' px) in Hr'.
      destruct (seek_relative _ sid s d bs pos (zlen bs) offset Hr' Hsid Hcl Hpos Hoff) as (px' & rc & Heq & Hout).
      { split; [lia|apply Hr]. }
      exists px', rc. split; [exact Heq|]. eapply seek_outcome_step; [by apply call_step_files|by apply env_kept_files|done].
    + eexists _, _. split; [done|]. by apply seek_error_outcome.
Qed.

(** A seek: to its target when there is one; the end-of-file indicator is then
    cleared, and what was written is in the file. *)
Lemma stream_seek_spec px sid fd fid rd wr bs pos eof offset whence :
  stream_state px sid fd fid rd wr bs pos eof -> unifyfs_min_offt <= offset <= unifyfs_max_offt ->
  exists px' rc, unifyfs_fseek px sid offset whence = LRet (px', rc) /\
    seek_outcome px sid fd fid rd wr bs pos eof (seek_target bs pos offset whence) px' rc.
Proof.
  intros (s & d & file & Hr & Hpos & <- & <- & Hrd & Hwr & <- & Hsid) Hoff. unfold unifyfs_fseek.
  destruct (stream_begin _ _ _ _ _ _ _ Hr) as [-> Hr0 Hc0 He0 Hd0]. cbn [lbind]. set (s0 := s_set_ptr P_NULL 0 s) in *.
  set (px0 := put_stream sid s0 px) in *. change (s_fd s0) with (s_fd s). rewrite Hd0.
  destruct (stream_flush_spec px0 sid (s_fd s) (fd_fid d) rd wr bs pos (s_eof s)) as (px1 & rc & -> & Hc1 & Hres).
  { exists s0, d, file. split_and!; done. }
  cbn [lbind]. pose proof (call_step_trans _ _ _ _ _ _ Hc0 Hc1) as Hc.
  destruct Hres as [(-> & Hcl & He1)|(Hrc & Hf & Hnf)].
  2:{ rewrite (proj2 (Z.eqb_neq _ _)) //. cbn [negb]. exists px1, (-1). split; [done|]. split; [done|]. right. split; [done|].
      left. split; [done|]. intros n type size Hn Henv%He0; [|done]. by destruct (Hnf n type size Hn). }
  change (UNIFYFS_SUCCESS =? UNIFYFS_SUCCESS) with true. cbn [negb].
  destruct Hcl as (s1 & d1 & Hr1 & Hpos1 & Hfd1 & Hfid1 & Hrd1 & Hwr1 & Heof1 & Hsid1 & Hcl).
  rewrite (stream_at_get _ _ _ _ _ (sr_at _ _ _ _ _ _ _ Hr1)). cbn [lbind].
  pose proof (sa_fd _ _ _ _ _ (sr_at _ _ _ _ _ _ _ Hr1)) as Hfdk. rewrite (get_fid_ok _ _ d1); [apply Hfdk|apply Hfdk|].
  rewrite (proj2 (Z.ltb_ge _ _)); [apply Hfdk|]. rewrite Hpos.
  destruct (seek_switch_spec px1 sid s1 d1 bs pos offset whence Hr1 Hsid1 Hcl Hpos1 Hoff) as (px2 & rc & -> & Hout).
  exists px2, rc. split; [done|]. rewrite Hfd1 Hfid1 Hrd1 Hwr1 Heof1 in Hout. eapply seek_outcome_step; [exact Hc| |exact Hout].
  by eapply env_kept_trans.
Qed.

End Streams.
