(* ===== verification/StreamSession.v ===== *)
(** * Sessions on a stream

    A stream from [fopen] to [fclose]: the calls between return what they would
    return on a file that is a plain sequence of bytes with a position, and
    after the close the file has exactly these bytes. *)

From Stdlib Require Import String.
From S2P Require Import Prelude.
From S2P Require Import LogIO.
From S2P Require Import IdStack.
From S2P Require Import Inode.
From S2P Require Import Client.
From S2P Require Import ClientRead.
From S2P Require Import PosixClient.
From S2P Require Import SysIO.
From S2P Require Import StdIO.
From S2P Require Import FileSpec.
From S2P Require Import FdProps.
From S2P Require Import StreamProps.

(** ** The specification *)

Inductive stream_op :=
| OpWrite (data : list Z)
| OpRead (count : Z)
| OpSeek (offset whence : Z)
| OpFlush
| OpTell
| OpEof.

(** A file without a buffer: its bytes, the position and the end-of-file
    indicator. *)
Record file_view := FileView {
  fv_bytes : list Z;
  fv_pos : Z;
  fv_eof : bool;
}.

(** What a call returns, and the bytes that it read. *)
Definition op_result : Type := Z * list Z.

Definition spec_op (v : file_view) (op : stream_op) : file_view * op_result :=
  let '(FileView bs pos eof) := v in
  match op with
  | OpWrite data => (FileView (splice bs pos data) (pos + zlen data) eof, (zlen data, []))
  | OpRead count =>
      if eof || (count =? 0) then (v, (0, []))
      else
        let n := avail bs pos count in
        (FileView bs (pos + n) (n <? count), (n, slice bs pos count))
  | OpSeek offset whence =>
      match seek_target bs pos offset whence with
      | Some p => (FileView bs p false, (0, []))
      | None => (v, (-1, []))
      end
  | OpFlush => (v, (0, []))
  | OpTell => (v, (pos, []))
  | OpEof => (v, (Z.b2z eof, []))
  end.

(** The calls that the mode allows, within the range of a file offset;
    [size]: the size of the buffer. *)
Definition op_ok (rd wr : bool) (size : Z) (v : file_view) (op : stream_op) : bool :=
  let '(FileView bs pos eof) := v in
  match op with
  | OpWrite data => wr && (pos + zlen data <=? unifyfs_max_offt)
  | OpRead count =>
      rd && (0 <=? count) && (Z.max (pos + count) (Z.max pos (zlen bs) + size) <=? unifyfs_max_offt)
  | OpSeek offset whence =>
      (unifyfs_min_offt <=? offset) && (offset <=? unifyfs_max_offt) && bool_decide (is_Some (seek_target bs pos offset whence))
  | _ => true
  end.

Fixpoint spec_ops (rd wr : bool) (size : Z) (v : file_view) (ops : list stream_op) : option (file_view * list op_result) :=
  match ops with
  | [] => Some (v, [])
  | op :: ops =>
      if op_ok rd wr size v op then
        let '(v, r) := spec_op v op in
        '(v, rs) ← spec_ops rd wr size v ops; Some (v, r :: rs)
      else None
  end.

Definition op_written (op : stream_op) : Z := match op with OpWrite data => zlen data | _ => 0 end.
Definition ops_written (ops : list stream_op) : Z := foldr (fun op n => n + op_written op) 0 ops.

(** ** The calls *)

(** The result of a call that was not handed to the C library. *)
Definition returned {A B} (f : A -> B) (c : call A) : option B := match c with Ours (LRet a) => Some (f a) | _ => None end.

Section Session.
Context {F : Type} `{!FidLayer F, !FileModel F, !FileSpec F}.
Implicit Types (px : posix F) (s : unifyfs_stream_t) (d : unifyfs_fd_t) (file bs : list Z).

Definition no_data {A} : A * Z -> A * op_result := fun '(px, r) => (px, (r, [])).

Definition run_op px (sid : Z) (op : stream_op) : option (posix F * op_result) :=
  let stream := StreamPtr sid in
  match op with
  | OpWrite data => returned no_data (fwrite px (byte data) 1 (zlen data) stream)
  | OpRead count => returned (fun '(px, (n, buf)) => (px, (n, region_read buf 0 n))) (fread px (fun _ => 0) 1 count stream)
  | OpSeek offset whence => returned no_data (fseek px stream offset whence)
  | OpFlush => returned no_data (fflush px (0, 0) (Some stream))
  | OpTell => returned no_data (ftell px stream)
  | OpEof => returned (fun '(px, b) => (px, (Z.b2z b, []))) (feof px stream)
  end.

Fixpoint run_ops px (sid : Z) (ops : list stream_op) : option (posix F * list op_result) :=
  match ops with
  | [] => Some (px, [])
  | op :: ops => '(px, r) ← run_op px sid op; '(px, rs) ← run_ops px sid ops; Some (px, r :: rs)
  end.

Lemma region_read_byte bs : region_read (byte bs) 0 (zlen bs) = bs.
Proof.
  unfold region_read. apply byte_ext; [rewrite length_fmap length_seqZ; lia|]. intros x Hx.
  rewrite length_fmap length_seqZ in Hx. rewrite byte_fmap_seqZ (proj2 (Z.leb_le _ _)) ?(proj2 (Z.ltb_lt _ _)) //; lia.
Qed.

Lemma region_read_slice (buf : Z -> Z) bs pos count :
  (forall k, 0 <= k < avail bs pos count -> buf k = byte bs (pos + k)) -> region_read buf 0 (avail bs pos count) = slice bs pos count.
Proof.
  intros H. unfold region_read, slice. rewrite -{2}(Z.add_0_r pos) -fmap_add_seqZ -list_fmap_compose.
  apply list_fmap_ext. intros i x Hx%lookup_seqZ. destruct Hx as [-> Hi]. apply H. lia.
Qed.

(** Setting [errno] changes nothing else. *)
Lemma state_errno px sid fd fid rd wr bs pos eof e :
  stream_state px sid fd fid rd wr bs pos eof -> stream_state (px_set_errno e px) sid fd fid rd wr bs pos eof.
Proof.
  intros (s & d & file & [[? ? []] ? ? ? ? ? ?] & Hs). exists s, d, file. split; [|done]. split; try done.
Qed.

Lemma call_errno sid fd fid px px' e : call_step sid fd fid px px' -> call_step sid fd fid px (px_set_errno e px').
Proof. by intros []. Qed.

(** A stream in use: what its user sees, and that [n] more bytes can be
    written. *)
Record session px (sid fd fid : Z) (rd wr : bool) (size : Z) (v : file_view) (n : Z) : Prop := {
  ss_init : pc_initialized (px_cfg px) = true;
  ss_range : 0 <= sid < UNIFYFS_CLIENT_MAX_FILES;
  ss_size : 0 <= size;
  ss_state : stream_state px sid fd fid rd wr (fv_bytes v) (fv_pos v) (fv_eof v);
  ss_env : stream_env px sid n _IOFBF size;
}.

Lemma session_intercept px sid fd fid rd wr size v n :
  session px sid fd fid rd wr size v n -> unifyfs_intercept_stream px (StreamPtr sid) = Some sid.
Proof.
  intros [Hi [H1 H2] _ _ _]. unfold unifyfs_intercept_stream. by rewrite Hi /= (proj2 (Z.leb_le _ _)) // (proj2 (Z.ltb_lt _ _)).
Qed.

Lemma session_next px px' sid fd fid rd wr size v v' n n' e :
  session px sid fd fid rd wr size v n -> call_step sid fd fid px px' ->
  stream_state px' sid fd fid rd wr (fv_bytes v') (fv_pos v') (fv_eof v') -> stream_env px' sid n' _IOFBF size ->
  session (px_set_errno e px') sid fd fid rd wr size v' n'.
Proof. intros [Hi ? ? ? ?] [Hc _ _ _ _ _ _ _] Hs He. split; try done; [by rewrite /= Hc|by apply state_errno]. Qed.

(** ** One call *)

(** The outcome of a call that the specification allows. *)
Definition op_correct px (sid fd fid : Z) (rd wr : bool) (size : Z) (v : file_view) (n : Z) (op : stream_op) : Prop :=
  exists px', run_op px sid op = Some (px', snd (spec_op v op)) /\ call_step sid fd fid px px' /\
    session px' sid fd fid rd wr size (fst (spec_op v op)) n.

Lemma write_op_correct px sid fd fid rd size v n (data : list Z) :
  0 <= n -> session px sid fd fid rd true size v (n + zlen data) -> fv_pos v + zlen data <= unifyfs_max_offt ->
  op_correct px sid fd fid rd true size v n (OpWrite data).
Proof.
  intros Hn Hss Hmax. pose proof (session_intercept _ _ _ _ _ _ _ _ _ Hss) as Hin. pose proof Hss as [_ _ _ Hst Henv].
  destruct v as [bs pos eof]. cbn [fv_bytes fv_pos fv_eof] in *. unfold op_correct, run_op, fwrite, on_stream. rewrite Hin. cbn [Z.eqb orb].
  assert (0 <= pos) as Hpos by (by destruct Hst as (? & ? & ? & [_ _ _ _ _ _ [? _]] & _)).
  destruct (zlen data =? 0) eqn:Hz; zbool.
  - assert (data = []) as -> by (by apply nil_length_inv; lia). exists px. split; [done|]. split; [done|]. cbn. rewrite !Z.add_0_r in Henv |- *.
    by destruct Hss.
  - rewrite Z.mul_1_l u64_small; [unfold is_u64, ULONG_MAX, unifyfs_max_offt in *; lia|]. rewrite region_read_byte.
    destruct (stream_write_spec px sid fd fid rd bs pos eof data Hst ltac:(lia)) as (px' & rc & -> & Hc & Hres). cbn [lbind].
    destruct Hres as [(-> & _ & Hst' & Henv')|(_ & _ & Hno)].
    + eexists. split; [done|]. split; [by apply call_errno|]. eapply session_next; [done..|]. by apply Henv'.
    + exfalso. destruct (Hno n _IOFBF size Hn Henv) as [?|?]; [done|lia].
Qed.

Lemma read_op_correct px sid fd fid wr size v n count :
  0 <= n -> session px sid fd fid true wr size v n -> 0 <= count ->
  Z.max (fv_pos v + count) (Z.max (fv_pos v) (zlen (fv_bytes v)) + size) <= unifyfs_max_offt ->
  op_correct px sid fd fid true wr size v n (OpRead count).
Proof.
  intros Hn Hss Hcount Hmax. pose proof (session_intercept _ _ _ _ _ _ _ _ _ Hss) as Hin. pose proof Hss as [_ _ _ Hst Henv].
  destruct v as [bs pos eof]. cbn [fv_bytes fv_pos fv_eof] in *. unfold op_correct, run_op, fread, on_stream. rewrite Hin. cbn [Z.eqb orb].
  assert (0 <= pos) as Hpos by (by destruct Hst as (? & ? & ? & [_ _ _ _ _ _ [? _]] & _)).
  destruct (count =? 0) eqn:Hz; zbool.
  { exists px. subst count. unfold spec_op. rewrite orb_true_r. by split_and!. }
  rewrite Z.mul_1_l u64_small; [unfold is_u64, ULONG_MAX, unifyfs_max_offt in *; lia|]. unfold spec_op.
  rewrite (proj2 (Z.eqb_neq _ _)) // orb_false_r.
  destruct (stream_read_spec px sid fd fid wr bs pos eof (fun _ => 0) count Hst ltac:(lia)) as (px' & rc & m & buf & -> & Hc & Hres).
  cbn [lbind]. destruct Hres as [(-> & -> & -> & Hdata & Hst' & Henv')|[(-> & -> & -> & Hst' & Henv')|(_ & _ & Hno)]].
  - eexists. split.
    { cbn. f_equal. f_equal. pose proof (avail_bounds bs pos count Hcount) as [Hb _]. rewrite Z.div_1_r.
      assert ((if avail bs pos count <? count then avail bs pos count else count) = avail bs pos count) as ->.
      { destruct (_ <? _) eqn:E; zbool; [done|lia]. }
      by rewrite (region_read_slice _ _ _ _ Hdata). }
    split; [by apply call_errno|]. eapply session_next; [done..|]. by apply Henv'.
  - exists px'. split; [done|]. split; [done|]. destruct Hc as [Hcfg _ _ _ _ _ _ _]. destruct Hss as [Hi ? ? _ _].
    split; try done; [by rewrite Hcfg|]. by apply Henv'.
  - exfalso. pose proof (Hno n _IOFBF size Hn Henv). lia.
Qed.

Lemma seek_op_correct px sid fd fid rd wr size v n offset whence :
  0 <= n -> session px sid fd fid rd wr size v n -> unifyfs_min_offt <= offset <= unifyfs_max_offt ->
  is_Some (seek_target (fv_bytes v) (fv_pos v) offset whence) -> op_correct px sid fd fid rd wr size v n (OpSeek offset whence).
Proof.
  intros Hn Hss Hoff [p Hp]. pose proof (session_intercept _ _ _ _ _ _ _ _ _ Hss) as Hin. pose proof Hss as [Hi Hsid Hsz Hst Henv].
  destruct v as [bs pos eof]. cbn [fv_bytes fv_pos fv_eof] in *. unfold op_correct, run_op, fseek, on_stream, spec_op. rewrite Hin Hp.
  destruct (stream_seek_spec px sid fd fid rd wr bs pos eof offset whence Hst Hoff) as (px' & rc & -> & Hc & Hres). rewrite Hp in Hres.
  destruct Hres as [(-> & (p' & [= <-] & Hst') & _ & Henv')|(_ & [[_ Hno]|[? _]])]; [|by pose proof (Hno n _IOFBF size Hn Henv)|done].
  exists px'. split; [done|]. split; [done|]. destruct Hc as [Hcfg _ _ _ _ _ _ _]. split; try done; [by rewrite Hcfg|]. by apply Henv'.
Qed.

Lemma flush_op_correct px sid fd fid rd wr size v n :
  0 <= n -> session px sid fd fid rd wr size v n -> op_correct px sid fd fid rd wr size v n OpFlush.
Proof.
  intros Hn Hss. pose proof (session_intercept _ _ _ _ _ _ _ _ _ Hss) as Hin. pose proof Hss as [_ _ _ Hst Henv].
  destruct v as [bs pos eof]. cbn [fv_bytes fv_pos fv_eof] in *. unfold op_correct, run_op, fflush, on_stream, spec_op. rewrite Hin.
  destruct (stream_flush_spec px sid fd fid rd wr bs pos eof Hst) as (px' & rc & -> & Hc & Hres). cbn [lbind].
  destruct Hres as [(-> & [Hst' _]%stream_clean_state & Henv')|(_ & _ & Hno)]; [|by destruct (Hno n _IOFBF size Hn)].
  eexists. split; [done|]. split; [by apply call_errno|]. eapply session_next; [done..|]. by apply Henv'.
Qed.

Lemma tell_op_correct px sid fd fid rd wr size v n :
  session px sid fd fid rd wr size v n -> op_correct px sid fd fid rd wr size v n OpTell.
Proof.
  intros Hss. pose proof (session_intercept _ _ _ _ _ _ _ _ _ Hss) as Hin. pose proof Hss as [_ _ _ Hst Henv].
  destruct v as [bs pos eof]. cbn [fv_bytes fv_pos fv_eof] in *. unfold op_correct, run_op, ftell, on_stream, stream_tell, spec_op. rewrite Hin.
  pose proof Hst as (s & d & file & [Hat _ _ _ _ _ _] & Hpos & _). rewrite (stream_at_get _ _ _ _ _ Hat). cbn [lbind].
  rewrite (get_filedesc_ok _ _ d); [apply Hat|apply Hat|]. rewrite Hpos. eexists. split; [done|]. split; [done|].
  by eapply (session_next px px).
Qed.

Lemma eof_op_correct px sid fd fid rd wr size v n :
  session px sid fd fid rd wr size v n -> op_correct px sid fd fid rd wr size v n OpEof.
Proof.
  intros Hss. pose proof (session_intercept _ _ _ _ _ _ _ _ _ Hss) as Hin. pose proof Hss as [_ _ _ Hst Henv].
  destruct v as [bs pos eof]. cbn [fv_bytes fv_pos fv_eof] in *. unfold op_correct, run_op, feof, on_stream, spec_op. rewrite Hin.
  pose proof Hst as (s & d & file & [Hat _ _ _ _ _ _] & _ & _ & _ & _ & _ & Heof & _). rewrite (stream_at_get _ _ _ _ _ Hat). cbn [lbind].
  rewrite Heof. by exists px.
Qed.

Lemma run_op_correct px sid fd fid rd wr size v n op :
  0 <= n -> session px sid fd fid rd wr size v (n + op_written op) -> op_ok rd wr size v op = true ->
  op_correct px sid fd fid rd wr size v n op.
Proof.
  intros Hn Hss Hok. destruct v as [bs pos eof]. destruct op; cbn [op_written op_ok] in *; rewrite ?Z.add_0_r in Hss; zbool.
  - destruct wr; [|done]. apply write_op_correct; try done.
  - destruct rd; [|done]. by apply read_op_correct.
  - apply seek_op_correct; try done. by eapply bool_decide_eq_true.
  - by apply flush_op_correct.
  - by apply tell_op_correct.
  - by apply eof_op_correct.
Qed.

(** ** A sequence of calls *)

Lemma ops_written_nonneg ops : 0 <= ops_written ops.
Proof. unfold ops_written in *. induction ops as [|op ops IH]; [done|]. destruct op; cbn in *; lia. Qed.

Lemma run_ops_correct ops px sid fd fid rd wr size v v' rs n :
  0 <= n -> session px sid fd fid rd wr size v (n + ops_written ops) -> spec_ops rd wr size v ops = Some (v', rs) ->
  exists px', run_ops px sid ops = Some (px', rs) /\ call_step sid fd fid px px' /\ session px' sid fd fid rd wr size v' n.
Proof.
  intros Hn. revert px v rs. induction ops as [|op ops IH]; intros px v rs Hss Hspec; cbn in *.
  - injection Hspec as <- <-. exists px. rewrite Z.add_0_r in Hss. by split_and!.
  - destruct (op_ok rd wr size v op) eqn:Hok; [|done]. rewrite Z.add_assoc in Hss.
    destruct (run_op_correct px sid fd fid rd wr size v (n + ops_written ops) op) as (px1 & -> & Hc1 & Hss1); try done.
    { pose proof (ops_written_nonneg ops). lia. }
    destruct (spec_op v op) as [v1 r]. cbn in *. destruct (spec_ops rd wr size v1 ops) as [[v2 rs2]|] eqn:Hrest; [|done].
    injection Hspec as <- <-. destruct (IH px1 v1 rs2 Hss1 Hrest) as (px2 & -> & Hc2 & Hss2). exists px2.
    split; [done|]. split; [by eapply call_step_trans|done].
Qed.

(** ** Closing *)

(** After the close the file has all that the stream showed. *)
Record closed px (sid fd fid : Z) bs st1 st2 px' : Prop := {
  cl_file : fs_file (px_files px') fid = Some bs;
  cl_others i : i <> fid -> fs_file (px_files px') i = fs_file (px_files px) i;
  cl_fd : exists a, px_fds px' !! Z.to_nat fd = Some (free_fd a);
  cl_fds i : i <> Z.to_nat fd -> px_fds px' !! i = px_fds px !! i;
  cl_stream : exists s, px_streams px' !! Z.to_nat sid = Some s /\ s_fd s = -1;
  cl_streams i : i <> Z.to_nat sid -> px_streams px' !! i = px_streams px !! i;
  cl_fd_stack : px_fd_stack px' = st1;
  cl_stream_stack : px_stream_stack px' = st2;
}.

Lemma close_correct px sid fd fid rd wr size v n st1 st2 :
  0 <= n -> session px sid fd fid rd wr size v n ->
  unifyfs_stack_push (px_fd_stack px) fd = Some st1 -> unifyfs_stack_push (px_stream_stack px) sid = Some st2 ->
  exists px', fclose px (StreamPtr sid) = Ours (LRet (px', 0)) /\ closed px sid fd fid (fv_bytes v) st1 st2 px'.
Proof.
  intros Hn Hss Hp1 Hp2. pose proof (session_intercept _ _ _ _ _ _ _ _ _ Hss) as Hin. pose proof Hss as [_ Hsid _ Hst Henv].
  destruct v as [bs pos eof]. cbn [fv_bytes fv_pos fv_eof] in *. unfold fclose, on_stream, stream_close. rewrite Hin.
  pose proof Hst as (s & d & file & [Hat _ _ _ _ _ _] & _ & Hfd & Hfid & _). rewrite (stream_at_get _ _ _ _ _ Hat). cbn [lbind].
  rewrite (get_fid_ok _ _ d); [apply Hat|apply Hat|]. rewrite (proj2 (Z.ltb_ge _ _)); [apply Hat|].
  destruct (stream_flush_spec px sid fd fid rd wr bs pos eof Hst) as (px1 & rc & -> & Hc & Hres). cbn [lbind].
  destruct Hres as [(-> & Hcl & Henv')|(_ & _ & Hno)]; [|by destruct (Hno n _IOFBF size Hn)].
  destruct Hcl as (s1 & d1 & [Hat1 _ _ _ _ _ _] & _ & Hfd1 & Hfid1 & _ & _ & _ & Hsid1 & _). rewrite (stream_at_get _ _ _ _ _ Hat1). cbn [lbind negb Z.eqb UNIFYFS_SUCCESS].
  destruct (Henv' n _IOFBF size Hn Henv) as (s0 & Hs0 & [Hg _] & _). pose proof Hat1 as [_ Hs1 [Hr1 Hd1 _ Hi1 Hf1]].
  cbn [px_files put_stream px_set_streams]. rewrite Hfid. rewrite Hfid1 in Hf1.
  destruct (fs_close _ _ _ Hi1 Hf1) as (f2 & rc & -> & [_ Hk _] & Hok). rewrite (Hok _ Hg). cbn [lbind negb Z.eqb UNIFYFS_SUCCESS].
  destruct Hc as [_ _ Hfds _ Hst1 Hstr Hst2 Hoth]. unfold push_fd. cbn. rewrite Hst1 Hfd1 Hp1. cbn. rewrite Hst2 Hsid1 Hp2. cbn.
  eexists. split; [done|]. split; cbn; try done.
  - by rewrite Hk.
  - intros i Hi. by rewrite Hk Hoth.
  - rewrite Hfd1 in Hd1. rewrite list_lookup_alter_eq Hd1 /=. by eexists.
  - intros i Hi. by rewrite list_lookup_alter_ne // Hfds.
  - rewrite list_lookup_alter_eq list_lookup_insert_eq; [by eapply lookup_lt_Some|]. by eexists.
  - intros i Hi. by rewrite list_lookup_alter_ne // list_lookup_insert_ne // Hstr.
Qed.

(** ** From [fopen] to [fclose] *)

(** There is a free descriptor and a free stream. *)
Record free_slots px (sid fd : Z) : Prop := {
  fsl_fd_stack : exists st, unifyfs_stack_pop (px_fd_stack px) = Some (st, fd);
  fsl_fd_last : st_last (px_fd_stack px) <= st_size (px_fd_stack px);
  fsl_fd : 0 <= fd < UNIFYFS_CLIENT_MAX_FILES /\ is_Some (px_fds px !! Z.to_nat fd);
  fsl_stream_stack : exists st, unifyfs_stack_pop (px_stream_stack px) = Some (st, sid);
  fsl_stream_last : st_last (px_stream_stack px) <= st_size (px_stream_stack px);
  fsl_stream : 0 <= sid < UNIFYFS_CLIENT_MAX_FILES /\ is_Some (px_streams px !! Z.to_nat sid);
}.

(** The file that [fopen] finds, or creates, and that nothing fails until [n]
    bytes were written. *)
Record opens px (upath : string) (m : fopen_mode) (perms : Z) f (fid pos : Z) bs (n : Z) : Prop := {
  op_init : pc_initialized (px_cfg px) = true;
  op_open : fl_open (px_files px) upath (fopen_flags m 0) perms = LRet (f, (UNIFYFS_SUCCESS, fid, pos));
  op_fid : 0 <= fid;
  op_pos : 0 <= pos <= unifyfs_max_offt;
  op_inv : fs_inv f;
  op_file : fs_file f fid = Some bs;
  op_size : zlen bs <= unifyfs_max_offt;
  op_good : fs_good f n;
  op_mem : mem_plenty (px_mem px);
}.

Definition mode_rd (m : fopen_mode) : bool := md_read m || md_plus m.
Definition mode_wr (m : fopen_mode) : bool := md_write m || md_plus m || md_append m.

Lemma fopen_correct spath_reduce px path upath mode m perms f fid pos bs n sid fd :
  unifyfs_intercept_path spath_reduce px path = Some upath -> unifyfs_fopen_parse_mode (Some mode) = Some m -> md_append m = false ->
  opens px upath m perms f fid pos bs n -> free_slots px sid fd ->
  exists px', fopen spath_reduce px path (Some mode) perms = Ours (LRet (px', Some sid)) /\ px_files px' = f /\
    session px' sid fd fid (mode_rd m) (mode_wr m) UNIFYFS_CLIENT_STREAM_BUFSIZE (FileView bs pos false) n /\
    unifyfs_stack_push (px_fd_stack px') fd = Some (px_fd_stack px) /\
    unifyfs_stack_push (px_stream_stack px') sid = Some (px_stream_stack px).
Proof.
  intros Hpath Hm Happ [Hi Ho Hfid Hpos Hinv Hf Hsz Hg Hmem] [[st1 Hp1] Hl1 [Hr1 [d Hd]] [st2 Hp2] Hl2 [Hr2 [s Hs]]].
  unfold fopen, fopen_wrap, on_path, unifyfs_fopen. rewrite Hpath Hm Ho. cbn. rewrite Hp2. cbn. rewrite (proj2 (Z.ltb_ge _ _)); [lia|].
  unfold pop_fd. cbn. rewrite Hp1. cbn. rewrite (proj2 (Z.ltb_ge _ _)); [lia|]. rewrite (get_filedesc_ok _ _ d) //. cbn.
  unfold get_stream. cbn. rewrite Hs. cbn. eexists. split; [done|]. split; [done|].
  split; [|split; cbn; eapply stack_pop_push; (done || lia)].
  assert (<[Z.to_nat sid:=new_stream m sid fd]> (px_streams px) !! Z.to_nat sid = Some (new_stream m sid fd)) as Hs'.
  { apply list_lookup_insert_eq. by eapply lookup_lt_Some. }
  split; cbn; try done.
  - exists (new_stream m sid fd), (stream_desc m fid pos d), bs. split_and!; try done. split; try done; [|by split; [left|]].
    split; [lia|done|]. split; try done. cbn. by rewrite list_lookup_alter_eq Hd.
  - exists (new_stream m sid fd). split_and!; try done. cbn. by rewrite Z.add_0_r.
Qed.


End Session.

(** A session on an existing file: a read, a seek back, a write over the end,
    a seek to the start and a read of everything. *)
Definition session_files : byte_files := ByteFiles {[ 7 := [65; 66; 67] ]} [("/unifyfs/a"%string, 7)] 100.
Definition session_start : posix byte_files :=
  posix_client_init session_files (Mem 1 []) "/unifyfs" None 1024 true false (fun _ => 0).
Definition session_ops : list stream_op :=
  [OpRead 2; OpSeek (-1) SEEK_CUR; OpWrite [90; 91; 92]; OpSeek 0 SEEK_SET; OpRead 10; OpEof; OpTell; OpFlush].

