(* ===== verification/FdTable.v ===== *)
(** * The tables of descriptors and streams

    Which descriptors and streams are free: the stacks of free indices agree
    with the structures, whatever calls the application makes, in whatever
    order, and whether they succeed or not. *)

From Stdlib Require Import String.
From S2P Require Import Prelude.
From S2P Require Import LogIO.
From S2P Require Import IdStack.
From S2P Require Import Inode.
From S2P Require Import Client.
From S2P Require Import ClientRead.
From S2P Require Import PosixClient.
From S2P Require Import SysIO.
From S2P Require Import StdIO.
From S2P Require Import FileSpec.

(** ** One table *)

(** The free indices of a table, and a list that has -1 at the free indices and
    a number with [P] at the others. *)
Definition table_ok (P : Z -> Prop) (st : unifyfs_stack) (xs : list Z) : Prop :=
  exists used, stack_ok UNIFYFS_CLIENT_MAX_FILES st used /\ Z.of_nat (length xs) = UNIFYFS_CLIENT_MAX_FILES /\
    forall i x, xs !! i = Some x -> (Z.of_nat i ∈ used /\ P x) \/ ((Z.of_nat i ∉ used) /\ x = -1).

Lemma stack_used_nodup size st used : stack_ok size st used -> NoDup used.
Proof.
  intros Hok. pose proof (NoDup_seqZ 0 size) as Hn. rewrite -(stack_ok_ids _ _ _ Hok) in Hn. by apply NoDup_app in Hn as (_ & _ & ?).
Qed.

Lemma table_pop P st xs :
  table_ok P st xs ->
  (unifyfs_stack_pop st = Some (st, -1) /\ stack_free st = []) \/
  exists st' v, unifyfs_stack_pop st = Some (st', v) /\ 0 <= v < UNIFYFS_CLIENT_MAX_FILES /\ xs !! Z.to_nat v = Some (-1) /\
    forall y, P y -> table_ok P st' (<[Z.to_nat v := y]> xs).
Proof.
  intros (used & Hok & Hlen & Hx). pose proof (stack_used_length _ _ _ Hok) as Hul.
  destruct (stack_pop_ok _ _ _ Hok) as [[H0 Hpop]|(st' & v & Hpop & H0 & Hf & Hv & Hok')].
  - left. split; [done|]. unfold stack_free. by rewrite H0.
  - right. exists st', v. split_and!; try done; [lia|lia| |].
    + pose proof (stack_used_nodup _ _ _ Hok') as [Hv' _]%NoDup_cons. destruct (lookup_lt_is_Some_2 xs (Z.to_nat v)) as [x Hi]; [lia|].
      rewrite Hi. destruct (Hx _ _ Hi) as [[Hin _]|[_ ->]]; [|done]. rewrite Z2Nat.id in Hin; [lia|done].
    + intros y Hy. exists (v :: used). split_and!; [done|by rewrite length_insert|]. intros i x Hi.
      destruct (decide (i = Z.to_nat v)) as [->|Hne].
      * rewrite list_lookup_insert_eq in Hi; [lia|]. injection Hi as <-. left. rewrite Z2Nat.id; [lia|]. split; [set_solver|done].
      * rewrite list_lookup_insert_ne // in Hi. destruct (Hx i x Hi) as [[? ?]|[? ?]]; [left; set_solver|right].
        split; [|done]. apply not_elem_of_cons. split; [lia|done].
Qed.

Lemma table_push P st xs (v x : Z) :
  table_ok P st xs -> 0 <= v -> xs !! Z.to_nat v = Some x -> 0 <= x ->
  exists st', unifyfs_stack_push st v = Some st' /\ table_ok P st' (<[Z.to_nat v := -1]> xs).
Proof.
  intros (used & Hok & Hlen & Hx) Hv Hi H0. destruct (Hx _ _ Hi) as [[Hin _]|[_ ?]]; [|lia]. rewrite Z2Nat.id // in Hin.
  apply list_elem_of_split in Hin as (u1 & u2 & ->). destruct (stack_push_ok _ _ _ _ _ Hok) as (st' & Hpush & _ & Hok').
  exists st'. split; [done|]. exists (u1 ++ u2). split_and!; [done|by rewrite length_insert|]. intros i y Hi'.
  pose proof (stack_used_nodup _ _ _ Hok) as Hnd. rewrite -Permutation_middle in Hnd. apply NoDup_cons in Hnd as [Hnv _].
  destruct (decide (i = Z.to_nat v)) as [->|Hne].
  - rewrite list_lookup_insert_eq in Hi'; [by eapply lookup_lt_Some|]. injection Hi' as <-. right. by rewrite Z2Nat.id.
  - rewrite list_lookup_insert_ne // in Hi'. destruct (Hx i y Hi') as [[Hin ?]|[Hnot ?]]; [left|right; split; [set_solver|done]].
    split; [|done]. rewrite elem_of_app elem_of_cons in Hin. rewrite elem_of_app. destruct Hin as [?|[?|?]]; [by left|lia|by right].
Qed.

Lemma table_init P (xs : list Z) :
  Z.of_nat (length xs) = UNIFYFS_CLIENT_MAX_FILES -> Forall (eq (-1)) xs -> table_ok P (unifyfs_stack_init UNIFYFS_CLIENT_MAX_FILES) xs.
Proof.
  intros Hlen Hall. exists []. split_and!; [by apply stack_uses_ok, stack_uses_init|done|]. intros i x Hi.
  rewrite Forall_lookup in Hall. rewrite -(Hall i x Hi). right. set_solver.
Qed.

(** ** The tables of the client *)

Definition fd_table {F} (px : posix F) : list Z := fd_fid <$> px_fds px.
Definition stream_key (s : unifyfs_stream_t) : Z * Z := (s_sid s, s_fd s).
Definition stream_keys {F} (px : posix F) : list (Z * Z) := stream_key <$> px_streams px.

Record tables_ok {F} (px : posix F) : Prop := {
  to_fds : table_ok (fun _ => True) (px_fd_stack px) (fd_table px);
  to_streams : table_ok (Z.le 0) (px_stream_stack px) (snd <$> stream_keys px);
  to_sids i k : stream_keys px !! i = Some k -> fst k = Z.of_nat i;
}.

(** A call that opens and closes nothing. *)
Record tables_same {F} (px px' : posix F) : Prop := {
  ts_fds : fd_table px' = fd_table px;
  ts_keys : stream_keys px' = stream_keys px;
  ts_fd_stack : px_fd_stack px' = px_fd_stack px;
  ts_stream_stack : px_stream_stack px' = px_stream_stack px;
}.

Lemma tables_same_ok {F} (px px' : posix F) : tables_same px px' -> tables_ok px -> tables_ok px'.
Proof. intros [H1 H2 H3 H4] [? ? ?]. by split; rewrite ?H1 ?H2 ?H3 ?H4. Qed.

Create HintDb tables discriminated.

(** ** Calls that open and close nothing *)

Section Frame.
Context {F : Type} `{!FidLayer F} (px0 : posix F).
Implicit Types (px : posix F) (s : unifyfs_stream_t).

Local Abbreviation same := (tables_same px0).

(** The result of the call, when it returns. *)
Definition stays {B} (state : B -> posix F) (x : lres B) : Prop :=
  match x with LRet b => same (state b) | _ => True end.

Lemma stays_bind {A B} (st : A -> posix F) (st' : B -> posix F) (m : lres A) (k : A -> lres B) :
  stays st m -> (forall a, same (st a) -> stays st' (k a)) -> stays st' (lbind m k).
Proof. destruct m; cbn; auto. Qed.

Lemma stays_any {A B} (st' : B -> posix F) (m : lres A) (k : A -> lres B) : (forall a, stays st' (k a)) -> stays st' (lbind m k).
Proof. destruct m; cbn; auto. Qed.

Definition key_ok (sid : Z) s : Prop := stream_keys px0 !! Z.to_nat sid = Some (stream_key s).

Lemma stays_get {B} (st' : B -> posix F) px sid (k : unifyfs_stream_t -> lres B) :
  same px -> (forall s, key_ok sid s -> stays st' (k s)) -> stays st' (lbind (get_stream px sid) k).
Proof.
  intros [_ Hk _ _] H. unfold get_stream. destruct (px_streams px !! Z.to_nat sid) as [s|] eqn:Hs; [|done]. cbn. apply H.
  unfold key_ok. rewrite -Hk. unfold stream_keys. by rewrite list_lookup_fmap Hs.
Qed.

Lemma same_put_stream px sid s : same px -> key_ok sid s -> same (put_stream sid s px).
Proof.
  intros [H1 H2 H3 H4] Hk. split; try done. rewrite -H2. unfold stream_keys. cbn. rewrite list_fmap_insert. apply list_insert_id.
  by rewrite /key_ok -H2 in Hk.
Qed.

Lemma same_put_fd px fd (f : unifyfs_fd_t -> unifyfs_fd_t) : same px -> (forall d, fd_fid (f d) = fd_fid d) -> same (put_fd fd f px).
Proof.
  intros [H1 H2 H3 H4] Hf. split; try done. rewrite -H1. unfold fd_table. cbn. apply list_eq. intros i. rewrite !list_lookup_fmap.
  destruct (decide (i = Z.to_nat fd)) as [->|Hne]; [|by rewrite list_lookup_alter_ne].
  rewrite list_lookup_alter_eq. destruct (px_fds px !! _); [|done]. cbn. by rewrite Hf.
Qed.

Lemma same_refl : same px0.
Proof. done. Qed.

Lemma same_files px f : same px -> same (px_set_files f px).
Proof. by intros []. Qed.
Lemma same_errno px e : same px -> same (px_set_errno e px).
Proof. by intros []. Qed.
Lemma same_mem px m : same px -> same (px_set_mem m px).
Proof. by intros []. Qed.
Lemma same_dup px l : same px -> same (px_set_dup_fds l px).
Proof. by intros []. Qed.

End Frame.

#[export] Hint Resolve same_refl same_files same_errno same_mem same_dup same_put_stream same_put_fd : tables.
#[export] Hint Extern 3 (key_ok _ _ _) => match goal with H : key_ok _ _ _ |- _ => exact H end : tables.
#[export] Hint Extern 1 (forall d, fd_fid _ = fd_fid d) => intros ?; reflexivity : tables.

(** One step through a call: the next operation, the next branch, or the
    result. *)
Ltac stays_pair :=
  repeat match goal with
  | H : tables_same _ (_ ?a) |- _ => is_var a; destruct a; cbn [fst snd] in *
  | |- stays _ _ (match ?a with (_, _) => _ end) => is_var a; destruct a; cbn [fst snd] in *
  end.

Ltac stays_step :=
  match goal with
  | |- stays _ _ (let x := _ in _) => cbv zeta
  | |- stays _ _ (lbind (get_stream _ _) _) => apply stays_get; [solve [auto with tables]|intros ? ?]
  | |- stays _ _ (lbind (LRet _) _) => cbn [lbind]
  | |- stays _ _ (lbind (if _ then _ else _) _) => eapply (stays_bind _ fst); [|intros ? ?; stays_pair]
  | |- stays _ _ (lbind _ _) =>
      first [eapply (stays_bind _ fst); [solve [auto 6 with tables]|intros ? ?; stays_pair]
            |eapply (stays_bind _ (fun r => fst (fst r))); [solve [auto 6 with tables]|intros ? ?; stays_pair]
            |apply stays_any; intros ?; stays_pair]
  | |- stays _ _ (stream_error _ _ _ _ _) => unfold stream_error
  | |- stays _ _ (ret_errno _ _ _) => unfold ret_errno
  | |- stays _ _ (LRet _) => cbn [stays fst snd]; solve [auto 8 with tables]
  | |- stays _ _ LBlocked => exact I
  | |- stays _ _ LFault => exact I
  | |- stays _ _ (match ?x with _ => _ end) => destruct x
  | |- stays _ _ _ => solve [auto 6 with tables]
  end.
Ltac stays := repeat stays_step.

Section Calls.
Context {F : Type} `{!FidLayer F} (px0 : posix F).
Implicit Types (px : posix F) (s : unifyfs_stream_t).

Local Abbreviation same := (tables_same px0).
Local Abbreviation stays1 := (stays px0 fst).

Lemma stays_fd_read px fd pos buf count : same px -> stays1 (unifyfs_fd_read px fd pos buf count).
Proof. intros H. unfold unifyfs_fd_read, read_one. stays. Qed.

Lemma stays_fd_write px fd pos buf : same px -> stays1 (unifyfs_fd_write px fd pos buf).
Proof. intros H. unfold unifyfs_fd_write. stays. Qed.
Hint Resolve stays_fd_read stays_fd_write : tables.

Lemma stays_flush px sid : same px -> stays1 (unifyfs_stream_flush px sid).
Proof. intros H. unfold unifyfs_stream_flush. stays. Qed.

Lemma stays_setvbuf px sid buf type size : same px -> stays1 (unifyfs_setvbuf px sid buf type size).
Proof. intros H. unfold unifyfs_setvbuf. stays. Qed.
Hint Resolve stays_flush stays_setvbuf : tables.

Lemma stays_ensure_buf px sid : same px -> stays1 (ensure_buf px sid).
Proof. intros H. unfold ensure_buf. stays. Qed.

Lemma stays_refill px sid current : same px -> stays1 (refill_buf px sid current).
Proof. intros H. unfold refill_buf. stays. Qed.
Hint Resolve stays_ensure_buf stays_refill : tables.

Lemma stays_read_loop fuel px sid current remaining count buf eof :
  same px -> stays px0 (fun r => fst (fst r)) (read_loop fuel px sid current remaining count buf eof).
Proof.
  revert px current remaining buf eof. induction fuel as [|fuel IH]; intros px current remaining buf eof H; cbn [read_loop]; stays.
Qed.
Hint Resolve stays_read_loop : tables.

Lemma stays_stream_read px sid buf count : same px -> stays1 (unifyfs_stream_read px sid buf count).
Proof. intros H. unfold unifyfs_stream_read. stays. Qed.

Lemma stays_write_loop fuel px sid current data : same px -> stays1 (write_loop fuel px sid current data).
Proof.
  revert px current data. induction fuel as [|fuel IH]; intros px current data H; cbn [write_loop]; [by stays|].
  destruct (_ >? 0); [|by stays]. apply stays_get; [done|intros s Hs]. apply stays_any. intros sbuf. cbv zeta.
  set (s' := if negb (sb_bufdirty (s_b s)) then _ else _).
  assert (key_ok px0 sid s') as Hs' by (unfold s'; by destruct (negb _)). clearbody s'.
  destruct (write_amount (s_b s') data) as [[bytes need] overrun]. destruct overrun; [by stays|].
  destruct (bytes >? 0); stays.
Qed.

Lemma stays_write_position px sid s d count : same px -> key_ok px0 sid s -> stays1 (write_position px sid s d count).
Proof. intros H Hs. unfold write_position. stays. Qed.
Hint Resolve stays_stream_read stays_write_loop stays_write_position : tables.

Lemma stays_stream_write px sid buf : same px -> stays1 (unifyfs_stream_write px sid buf).
Proof. intros H. unfold unifyfs_stream_write. stays. Qed.

Lemma stays_fseek_switch px sid s fid pos offset whence : same px -> key_ok px0 sid s -> stays1 (fseek_switch px sid s fid pos offset whence).
Proof. intros H Hs. unfold fseek_switch. stays. Qed.
Hint Resolve stays_stream_write stays_fseek_switch : tables.

Lemma stays_fseek px sid offset whence : same px -> stays1 (unifyfs_fseek px sid offset whence).
Proof. intros H. unfold unifyfs_fseek. stays. Qed.

Lemma same_grow_ubuf px u : same px -> same (fst (grow_ubuf px u)).
Proof. intros H. unfold grow_ubuf. repeat case_match; simplify_eq/=; auto with tables. Qed.

Lemma stays_ungetc px sid c : same px -> stays1 (stream_ungetc px sid c).
Proof.
  intros H. unfold stream_ungetc. destruct (c =? EOF); [by stays|]. apply stays_get; [done|intros s Hs]. cbv zeta.
  destruct (unifyfs_get_filedesc_from_fd px (s_fd s)); [|by stays]. destruct (_ <=? 0); [by stays|].
  pose proof (same_grow_ubuf px (s_u s) H) as Hg. destruct (grow_ubuf px (s_u s)) as [px' u']. cbn in Hg. stays.
Qed.

Lemma stays_fgets_loop rest px sid dst limit : same px -> stays1 (fgets_loop rest px sid dst limit).
Proof. revert px dst limit. induction rest as [|rest IH]; intros px dst limit H; cbn [fgets_loop]; stays. Qed.
Hint Resolve stays_fseek stays_ungetc stays_fgets_loop : tables.

Lemma stays_flush_all sids px ret : same px -> stays1 (flush_all px sids ret).
Proof. revert px ret. induction sids as [|sid sids IH]; intros px ret H; cbn [flush_all]; stays. Qed.
Hint Resolve stays_flush_all : tables.

End Calls.

#[export] Hint Resolve stays_fd_read stays_fd_write stays_flush stays_setvbuf stays_stream_read stays_stream_write stays_fseek
  stays_ungetc stays_fgets_loop stays_flush_all : tables.

(** ** The calls of the application *)

(** The calls with their arguments and what the system answered. *)
Inductive posix_call :=
| CallOpen (path : string) (flags mode : Z)
| CallCreat (path : string) (mode : Z)
| CallDup (sock : Z + Z) (fd : Z)
| CallDup2 (close_err fd desired : Z)
| CallClose (fd : Z)
| CallRead (fd : Z) (buf : Z -> Z) (count : Z)
| CallWrite (fd : Z) (data : list Z)
| CallPread (fd : Z) (buf : Z -> Z) (count offset : Z)
| CallPwrite (fd : Z) (data : list Z) (offset : Z)
| CallLseek (fd offset whence : Z)
| CallFtruncate (fd length : Z)
| CallFsync (fd : Z)
| CallFopen (path : string) (mode : option string) (perms : Z)
| CallFclose (stream : file_ptr)
| CallSetvbuf (stream : file_ptr) (buf : option (Z -> Z)) (type size : Z)
| CallFread (stream : file_ptr) (buf : Z -> Z) (size nitems : Z)
| CallFwrite (stream : file_ptr) (buf : Z -> Z) (size nitems : Z)
| CallFgets (stream : file_ptr) (dst : Z -> Z) (n : Z)
| CallFputc (stream : file_ptr) (c : Z)
| CallUngetc (stream : file_ptr) (c : Z)
| CallFseek (stream : file_ptr) (offset whence : Z)
| CallFflush (real : Z * Z) (stream : option file_ptr).

Section Table.
Context {F : Type} `{!FidLayer F} (spath_reduce : string -> string).
Implicit Types (px : posix F).

(** The state after a call; a call that the C library handles changes nothing
    here, and [None] is a call that does not return. *)
Definition after {A} px (c : call (posix F * A)) : option (posix F) :=
  match c with Ours (LRet (px', _)) => Some px' | Ours _ => None | System => Some px end.

Definition posix_step px (c : posix_call) : option (posix F) :=
  match c with
  | CallOpen path flags mode => after px (open spath_reduce px path flags mode)
  | CallCreat path mode => after px (creat spath_reduce px path mode)
  | CallDup sock fd => after px (dup px sock fd)
  | CallDup2 close_err fd desired => after px (dup2 px close_err fd desired)
  | CallClose fd => after px (close px fd)
  | CallRead fd buf count => after px (read px fd buf count)
  | CallWrite fd data => after px (write px fd data)
  | CallPread fd buf count offset => after px (pread px fd buf count offset)
  | CallPwrite fd data offset => after px (pwrite px fd data offset)
  | CallLseek fd offset whence => after px (lseek px fd offset whence)
  | CallFtruncate fd length => after px (ftruncate px fd length)
  | CallFsync fd => after px (fsync px fd)
  | CallFopen path mode perms => after px (fopen spath_reduce px path mode perms)
  | CallFclose stream => after px (fclose px stream)
  | CallSetvbuf stream buf type size => after px (setvbuf px stream buf type size)
  | CallFread stream buf size nitems => after px (fread px buf size nitems stream)
  | CallFwrite stream buf size nitems => after px (fwrite px buf size nitems stream)
  | CallFgets stream dst n => after px (fgets px dst n stream)
  | CallFputc stream c => after px (fputc px c stream)
  | CallUngetc stream c => after px (ungetc px c stream)
  | CallFseek stream offset whence => after px (fseek px stream offset whence)
  | CallFflush real stream => after px (fflush px real stream)
  end.

Fixpoint posix_run px (cs : list posix_call) : option (posix F) :=
  match cs with [] => Some px | c :: cs => px ← posix_step px c; posix_run px cs end.

Lemma after_stays {A} px (c : call (posix F * A)) px' :
  (forall r, c = Ours r -> stays px fst r) -> after px c = Some px' -> tables_same px px'.
Proof. destruct c as [r|]; [|by intros _ [= <-]]. intros H. specialize (H _ eq_refl). destruct r as [[px1 a]| |]; [|done..]. by intros [= <-]. Qed.

(** The result of a call that may open or close. *)
Definition keeps_ok {A} (r : lres (posix F * A)) : Prop := match r with LRet (px, _) => tables_ok px | _ => True end.

Lemma after_ok {A} px (c : call (posix F * A)) px' :
  tables_ok px -> (forall r, c = Ours r -> keeps_ok r) -> after px c = Some px' -> tables_ok px'.
Proof. intros Hok. destruct c as [r|]; [|by intros _ [= <-]]. intros H. specialize (H _ eq_refl). destruct r as [[px1 a]| |]; [|done..]. by intros [= <-]. Qed.

(** ** Opening *)

Lemma fd_table_put px fd g d fid :
  px_fds px !! Z.to_nat fd = Some d -> fd_fid (g d) = fid -> fd_table (put_fd fd g px) = <[Z.to_nat fd := fid]> (fd_table px).
Proof.
  intros Hd Hg. unfold fd_table. cbn. apply list_eq. intros i. rewrite list_lookup_fmap. destruct (decide (i = Z.to_nat fd)) as [->|Hne].
  - rewrite list_lookup_alter_eq Hd /= Hg list_lookup_insert_eq //. rewrite length_fmap. by eapply lookup_lt_Some.
  - by rewrite list_lookup_alter_ne // list_lookup_insert_ne // list_lookup_fmap.
Qed.

(** A descriptor for a file that was opened. *)
Lemma pop_fd_ok px :
  tables_ok px ->
  (pop_fd px = LRet (px_set_fd_stack (px_fd_stack px) px, -1) /\ stack_free (px_fd_stack px) = []) \/
  exists st fd d, pop_fd px = LRet (px_set_fd_stack st px, fd) /\ 0 <= fd < UNIFYFS_CLIENT_MAX_FILES /\
    px_fds px !! Z.to_nat fd = Some d /\ fd_fid d = -1 /\
    forall g, tables_ok (put_fd fd g (px_set_fd_stack st px)).
Proof.
  intros [Hf Hs Hk]. unfold pop_fd. destruct (table_pop _ _ _ Hf) as [[-> Hall]|(st & fd & -> & Hr & Hx & Hok)]; [by left|].
  right. unfold fd_table in Hx. rewrite list_lookup_fmap in Hx. destruct (px_fds px !! Z.to_nat fd) as [d|] eqn:Hd; [|done].
  injection Hx as Hx. exists st, fd, d. split_and!; try done; [lia|lia|]. intros g. split; [|done|done].
  rewrite (fd_table_put _ _ _ d (fd_fid (g d))) //. by apply Hok.
Qed.

Lemma tables_ok_files px f : tables_ok px -> tables_ok (px_set_files f px).
Proof. intros []. by split. Qed.
Lemma tables_ok_errno px e : tables_ok px -> tables_ok (px_set_errno e px).
Proof. intros []. by split. Qed.
Lemma tables_ok_fd_stack px : tables_ok px -> tables_ok (px_set_fd_stack (px_fd_stack px) px).
Proof. intros []. by split. Qed.
Hint Resolve tables_ok_files tables_ok_errno tables_ok_fd_stack : tables.

(** What [open] and [creat] have in common. *)
Lemma expose_ok px (g : unifyfs_fd_t -> unifyfs_fd_t) :
  tables_ok px ->
  exists px' e,
    (let! '(px, fd) := pop_fd px in if fd <? 0 then ret_errno px EMFILE (-1) else expose px fd g) = LRet (px', e) /\
    tables_ok px' /\ px_files px' = px_files px /\ px_cfg px' = px_cfg px /\
    (e = -1 /\ px_errno px' = EMFILE /\ stack_free (px_fd_stack px) = [] /\ px_fds px' = px_fds px \/
     exists fd d, e = fd + pc_fd_limit (px_cfg px) /\ 0 <= fd < UNIFYFS_CLIENT_MAX_FILES /\ px_fds px !! Z.to_nat fd = Some d /\
       fd_fid d = -1 /\ px_errno px' = 0 /\ px_fds px' = <[Z.to_nat fd := g d]> (px_fds px)).
Proof.
  intros Hok. destruct (pop_fd_ok px Hok) as [[-> Hall]|(st & fd & d & -> & Hr & Hd & Hf & Hput)]; cbn.
  - eexists _, _. split; [done|]. split_and!; [auto with tables|done|done|]. by left.
  - rewrite (proj2 (Z.ltb_ge _ _)); [lia|]. unfold expose, unifyfs_get_filedesc_from_fd.
    rewrite Z.geb_leb (proj2 (Z.leb_le _ _)) ?(proj2 (Z.ltb_lt _ _)); [lia|lia|]. cbn. rewrite Hd. cbn. eexists _, _. split; [done|].
    split_and!; [by eapply tables_ok_errno, Hput|done|done|]. right. exists fd, d. split_and!; try done; try lia. cbn.
    apply list_eq. intros i. destruct (decide (i = Z.to_nat fd)) as [->|Hne].
    + rewrite list_lookup_alter_eq Hd list_lookup_insert_eq //. by eapply lookup_lt_Some.
    + by rewrite list_lookup_alter_ne // list_lookup_insert_ne.
Qed.

Lemma open_ok px path flags mode r : tables_ok px -> open spath_reduce px path flags mode = Ours r -> keeps_ok r.
Proof.
  intros Hok. unfold open, on_path. destruct (unifyfs_intercept_path _ _ _) as [upath|]; [|done]. intros [= <-].
  destruct (fl_open _ _ _ _) as [[f [[rc fid] pos]]| |] eqn:Ho; [|done|done]. cbn [lbind].
  destruct (rc =? UNIFYFS_SUCCESS) eqn:Hrc; cbn [negb]; [|cbn; auto with tables]. zbool. subst rc.
  edestruct (expose_ok (px_set_files f px)) as (px' & e & -> & H & _); [auto with tables|done].
Qed.

Lemma creat_ok px path mode r : tables_ok px -> creat spath_reduce px path mode = Ours r -> keeps_ok r.
Proof.
  intros Hok. unfold creat, on_path, posix_create. destruct (unifyfs_intercept_path _ _ _) as [upath|]; [|done]. intros [= <-].
  destruct (fl_open _ _ _ _) as [[f [[rc fid] pos]]| |] eqn:Ho; [|done|done]. cbn [lbind].
  destruct (rc =? UNIFYFS_SUCCESS) eqn:Hrc; cbn [negb]; [|cbn; auto with tables]. zbool. subst rc.
  edestruct (expose_ok (px_set_files f px)) as (px' & e & -> & H & _); [auto with tables|done].
Qed.

(** ** Closing *)

Lemma tables_same_put_fd px fd f : (forall d, fd_fid (f d) = fd_fid d) -> tables_same px (put_fd fd f px).
Proof. intros. by apply same_put_fd. Qed.

(** A descriptor in use is freed. *)
Lemma push_fd_ok px fd d :
  tables_ok px -> 0 <= fd -> px_fds px !! Z.to_nat fd = Some d -> 0 <= fd_fid d ->
  exists px', push_fd (unifyfs_fd_init px fd) fd = LRet px' /\ tables_ok px' /\ px_fds px' = px_fds (unifyfs_fd_init px fd) /\
    px_streams px' = px_streams px /\ px_stream_stack px' = px_stream_stack px.
Proof.
  intros [Hf Hs Hk] Hr Hd Hfid. destruct (table_push _ _ _ fd (fd_fid d) Hf Hr) as (st & Hp & Hok); [|done|].
  { unfold fd_table. by rewrite list_lookup_fmap Hd. }
  unfold push_fd, unifyfs_fd_init. cbn. rewrite Hp. cbn. eexists. split; [done|]. split; [|done]. split; [|done|done].
  by rewrite -(fd_table_put px fd (fun d => free_fd (fd_append d)) d) in Hok.
Qed.

Lemma close_ok px oldfd r : tables_ok px -> close px oldfd = Ours r -> keeps_ok r.
Proof.
  intros Hok. unfold close, on_fd. destruct (unifyfs_intercept_fd px oldfd) as [fd|]; [|done]. intros [= <-].
  destruct (unifyfs_get_filedesc_from_fd px fd) as [d|] eqn:Hd; [|cbn; auto with tables]. cbv zeta.
  unfold unifyfs_get_filedesc_from_fd in Hd. destruct (_ && _) eqn:Hr; [|done]. zbool.
  set (px1 := clear_dup _ _ _). assert (tables_same px px1) as Hs1.
  { unfold px1, clear_dup, unifyfs_dup_fd_init. destruct (_ && _); auto with tables. }
  assert (px_fds px1 !! Z.to_nat fd = Some (fd_set_use_count (fd_use_count d - 1) d)) as Hd1.
  { unfold px1, clear_dup. destruct (_ && _); cbn; by rewrite list_lookup_alter_eq Hd. }
  pose proof (tables_same_ok _ _ Hs1 Hok) as Hok1. clearbody px1.
  destruct (fd_fid d <? 0) eqn:Hfid; [cbn; auto with tables|]. zbool.
  destruct (if fd_write d then _ else _) as [[f sync_rc]| |]; [|done|done]. cbn [lbind].
  destruct (negb _); [cbn; auto with tables|]. destruct (_ =? 0); [|cbn; auto with tables]. cbn [px_files px_set_files].
  destruct (fl_close _ _) as [[f' close_rc]| |]; [|done|done]. cbn [lbind]. destruct (negb _); [cbn; auto with tables|].
  destruct (push_fd_ok (px_set_files f' (px_set_files f px1)) fd _ ltac:(auto with tables) ltac:(lia) Hd1) as (px2 & -> & Hok2 & _); [done|].
  cbn. auto with tables.
Qed.

(** ** Streams *)

Lemma keys_put px sid s0 s :
  px_streams px !! Z.to_nat sid = Some s0 -> stream_keys (put_stream sid s px) = <[Z.to_nat sid := stream_key s]> (stream_keys px).
Proof. intros _. unfold stream_keys. cbn. by rewrite list_fmap_insert. Qed.

Lemma unifyfs_fopen_ok px path mode large perms : tables_ok px -> keeps_ok (unifyfs_fopen px path mode large perms).
Proof.
  intros Hok. unfold unifyfs_fopen. destruct (unifyfs_fopen_parse_mode mode) as [m|]; [|done].
  destruct (fl_open _ _ _ _) as [[f [[rc fid] pos]]| |] eqn:Ho; [|done|done]. cbn [lbind].
  destruct (rc =? UNIFYFS_SUCCESS) eqn:Hrc; cbn [negb]; [|cbn; auto with tables]. zbool. subst rc.
  pose proof (tables_ok_files px f Hok) as [Hf Hs Hk]. set (px1 := px_set_files f px) in *.
  destruct (table_pop _ _ _ Hs) as [[-> _]|(st & sid & Hpop & Hr & Hx & Hins)]; [by split|]. rewrite Hpop. cbn.
  rewrite (proj2 (Z.ltb_ge _ _)); [lia|]. unfold stream_keys in Hx. rewrite !list_lookup_fmap in Hx.
  destruct (px_streams px1 !! Z.to_nat sid) as [s0|] eqn:Hs0; [|done]. set (px2 := px_set_stream_stack st px1).
  unfold pop_fd. destruct (table_pop _ _ _ Hf) as [[Hp _]|(st2 & fd & Hp & Hr2 & Hx2 & Hins2)].
  - cbn. rewrite Hp. cbn. rewrite (stack_pop_push _ _ _ Hpop); [lia| |].
    { destruct Hs as (used & [-> ? _ _] & _). lia. }
    cbn. by split.
  - cbn. rewrite Hp. cbn. rewrite (proj2 (Z.ltb_ge _ _)); [lia|]. unfold unifyfs_get_filedesc_from_fd.
    rewrite Z.geb_leb (proj2 (Z.leb_le _ _)) ?(proj2 (Z.ltb_lt _ _)); [lia|lia|]. cbn.
    unfold fd_table in Hx2. rewrite list_lookup_fmap in Hx2. destruct (px_fds px !! Z.to_nat fd) as [d|] eqn:Hd; [|by cbn in Hx2; rewrite Hd in Hx2].
    cbn. unfold get_stream. cbn. change (px_streams px1) with (px_streams px) in Hs0. rewrite Hs0. cbn.
    set (px3 := put_fd fd (stream_desc m fid pos) (px_set_fd_stack st2 px2)). split.
    + change (fd_table (put_stream _ _ px3)) with (fd_table px3). unfold px3. rewrite (fd_table_put _ _ _ d fid) //. by apply Hins2.
    + rewrite (keys_put px3 sid s0) // list_fmap_insert. apply Hins. cbn. lia.
    + intros i k. rewrite (keys_put px3 sid s0) //. destruct (decide (i = Z.to_nat sid)) as [->|Hne].
      * rewrite list_lookup_insert_eq; [unfold stream_keys; rewrite length_fmap; by eapply lookup_lt_Some|]. intros [= <-]. cbn. lia.
      * rewrite list_lookup_insert_ne //. apply Hk.
Qed.

Lemma fopen_ok px path mode perms r : tables_ok px -> fopen spath_reduce px path mode perms = Ours r -> keeps_ok r.
Proof.
  intros Hok. unfold fopen, fopen_wrap, on_path. destruct (unifyfs_intercept_path _ _ _) as [upath|]; [|done]. intros [= <-].
  pose proof (unifyfs_fopen_ok px upath mode false perms Hok) as H. destruct (unifyfs_fopen _ _ _ _ _) as [[px' [rc st]]| |]; [|done|done].
  cbn [lbind]. destruct (negb _); cbn; by apply tables_ok_errno.
Qed.

(** A stream in use is freed, with its descriptor. *)
Lemma free_stream_ok px sid s d :
  tables_ok px -> 0 <= sid -> px_streams px !! Z.to_nat sid = Some s -> 0 <= s_fd s -> px_fds px !! Z.to_nat (s_fd s) = Some d ->
  0 <= fd_fid d ->
  keeps_ok (let! px := push_fd (unifyfs_fd_init px (s_fd s)) (s_fd s) in
            let px := unifyfs_stream_init px (s_sid s) in
            let! st := lift_option (unifyfs_stack_push (px_stream_stack px) (s_sid s)) in
            ret_errno (px_set_stream_stack st px) 0 0).
Proof.
  intros Hok Hsid Hs H0 Hd Hfid. destruct (push_fd_ok px (s_fd s) d Hok H0 Hd Hfid) as (px1 & -> & [Hf Hst Hk] & _ & Hs1 & Hss). cbn [lbind].
  rewrite -Hs1 in Hs. assert (stream_keys px1 !! Z.to_nat sid = Some (stream_key s)) as Hkey by (unfold stream_keys; by rewrite list_lookup_fmap Hs).
  pose proof (Hk _ _ Hkey) as Hsid'. cbn in Hsid'. rewrite Z2Nat.id // in Hsid'. rewrite Hsid'. cbv zeta. cbn [px_stream_stack unifyfs_stream_init px_set_streams].
  destruct (table_push _ _ _ sid (s_fd s) Hst Hsid) as (st & -> & Hst'); [by rewrite list_lookup_fmap Hkey|done|]. cbn.
  assert (stream_keys (unifyfs_stream_init px1 sid) = <[Z.to_nat sid := (sid, -1)]> (stream_keys px1)) as Hkeys.
  { unfold stream_keys. cbn. apply list_eq. intros i. rewrite list_lookup_fmap. destruct (decide (i = Z.to_nat sid)) as [->|Hne].
    - rewrite list_lookup_alter_eq Hs /= list_lookup_insert_eq //. rewrite length_fmap. by eapply lookup_lt_Some.
    - by rewrite list_lookup_alter_ne // list_lookup_insert_ne // list_lookup_fmap. }
  apply tables_ok_errno. split; [done| |].
  - change (stream_keys _) with (stream_keys (unifyfs_stream_init px1 sid)). rewrite Hkeys list_fmap_insert. done.
  - intros i k. change (stream_keys _) with (stream_keys (unifyfs_stream_init px1 sid)). rewrite Hkeys.
    destruct (decide (i = Z.to_nat sid)) as [->|Hne]; [|rewrite list_lookup_insert_ne //; apply Hk].
    rewrite list_lookup_insert_eq; [by eapply lookup_lt_Some|]. intros [= <-]. cbn. lia.
Qed.

Lemma get_stream_key px px' sid s : tables_same px px' -> px_streams px !! Z.to_nat sid = Some s ->
  exists s', px_streams px' !! Z.to_nat sid = Some s' /\ stream_key s' = stream_key s.
Proof.
  intros [_ Hk _ _] Hs. assert (stream_keys px' !! Z.to_nat sid = Some (stream_key s)) as H.
  { rewrite Hk. unfold stream_keys. by rewrite list_lookup_fmap Hs. }
  unfold stream_keys in H. rewrite list_lookup_fmap in H. destruct (px_streams px' !! Z.to_nat sid) as [s'|]; [|done]. exists s'. cbn in H. split; congruence.
Qed.

Lemma get_fid_same px px' fd : tables_same px px' -> 0 <= unifyfs_get_fid_from_fd px fd ->
  exists d, px_fds px' !! Z.to_nat fd = Some d /\ 0 <= fd_fid d /\ 0 <= fd.
Proof.
  intros [Hf _ _ _]. unfold unifyfs_get_fid_from_fd, unifyfs_get_filedesc_from_fd. destruct (_ && _) eqn:E; [|done]. zbool.
  destruct (px_fds px !! Z.to_nat fd) as [d|] eqn:Hd; [|done]. intros Hfid.
  assert (fd_table px' !! Z.to_nat fd = Some (fd_fid d)) as Hin. { rewrite Hf. unfold fd_table. by rewrite list_lookup_fmap Hd. }
  unfold fd_table in Hin. rewrite list_lookup_fmap in Hin. destruct (px_fds px' !! Z.to_nat fd) as [d'|]; [|done]. cbn in Hin. injection Hin as Hin.
  exists d'. split_and!; [done|lia|lia].
Qed.

Lemma free_bufs_key s : stream_key (free_bufs s) = stream_key s.
Proof. unfold free_bufs. by destruct (sb_buffree (s_b s)). Qed.

Lemma fclose_ok px stream r : tables_ok px -> fclose px stream = Ours r -> keeps_ok r.
Proof.
  intros Hok. unfold fclose, on_stream, stream_close. destruct (unifyfs_intercept_stream px stream) as [sid|] eqn:Hin; [|done]. intros [= <-].
  assert (0 <= sid) as Hsid.
  { unfold unifyfs_intercept_stream in Hin. destruct (negb _), stream as [i|]; try done. destruct (_ && _) eqn:E; [|done]. zbool. congruence. }
  unfold get_stream. destruct (px_streams px !! Z.to_nat sid) as [s|] eqn:Hs; [|done]. cbn [lbind lift_option].
  destruct (unifyfs_get_fid_from_fd px (s_fd s) <? 0) eqn:Hfid; [cbn; auto with tables|]. zbool.
  pose proof (stays_flush px px sid ltac:(done)) as Hfl. destruct (unifyfs_stream_flush px sid) as [[px1 rc]| |]; [|done|done].
  cbn [lbind]. cbn in Hfl. destruct (negb _); [by eapply tables_same_ok|].
  destruct (get_stream_key _ _ _ _ Hfl Hs) as (s1 & Hs1 & Hk1). rewrite Hs1. cbn [lbind lift_option px_files put_stream px_set_streams].
  destruct (fl_close _ _) as [[f2 rc2]| |]; [|done|done]. cbn [lbind]. set (px2 := px_set_files f2 (put_stream sid (free_bufs s1) px1)).
  change (px_set_files f2 _) with px2. assert (tables_same px px2) as Hsame2.
  { apply same_files, same_put_stream; [done|]. unfold key_ok, stream_keys. by rewrite list_lookup_fmap Hs /= free_bufs_key Hk1. }
  pose proof (tables_same_ok _ _ Hsame2 Hok) as Hok2. destruct (negb _); [cbn; auto with tables|].
  destruct (get_fid_same px px2 (s_fd s) Hsame2 Hfid) as (d & Hd & Hfd & H0). injection Hk1 as Hk1 Hk2. rewrite -Hk2 in Hd H0.
  assert (px_streams px2 !! Z.to_nat sid = Some (free_bufs s1)) as Hs2.
  { cbn. apply list_lookup_insert_eq. by eapply lookup_lt_Some. }
  pose proof (free_bufs_key s1) as [= Hb1 Hb2]. pose proof (free_stream_ok px2 sid (free_bufs s1) d Hok2 Hsid Hs2) as H. rewrite Hb1 Hb2 in H.
  by apply H.
Qed.

(** ** All calls *)

Lemma dup_same px sock fd r : dup px sock fd = Ours r -> stays px fst r.
Proof. unfold dup, on_fd. destruct (unifyfs_intercept_fd px fd); [|done]. intros [= <-]. stays. Qed.

Lemma dup2_same px close_err fd desired r : dup2 px close_err fd desired = Ours r -> stays px fst r.
Proof.
  unfold dup2, on_fd. destruct (fd =? desired); [intros [= <-]; stays|]. destruct (unifyfs_intercept_fd px fd); [|done]. intros [= <-]. stays.
Qed.

Lemma Ours_inj {A} (r r' : lres A) : Ours r = Ours r' -> r = r'.
Proof. by intros [=]. Qed.

Lemma fflush_same px real stream r : fflush px real stream = Ours r -> stays px fst r.
Proof.
  unfold fflush, on_stream. destruct stream as [stream|].
  - destruct (unifyfs_intercept_stream px stream); [|done]. intros [= <-]. stays.
  - intros <-%Ours_inj. eapply (stays_bind px fst); [auto with tables|]. intros [px' ret] H. cbn in H |- *.
    destruct (ret =? 0); auto with tables.
Qed.

Lemma fd_calls_same px c px' :
  match c with
  | CallRead _ _ _ | CallWrite _ _ | CallPread _ _ _ _ | CallPwrite _ _ _ | CallLseek _ _ _ | CallFtruncate _ _ | CallFsync _ => True
  | _ => False
  end -> posix_step px c = Some px' -> tables_same px px'.
Proof.
  destruct c; try done; intros _; cbn; apply after_stays; intros r;
    unfold read, write, pread, pwrite, lseek, ftruncate, fsync, read_one, on_fd; (destruct (unifyfs_intercept_fd px fd); [|done]);
    intros [= <-]; stays.
Qed.

Lemma stream_calls_same px c px' :
  match c with
  | CallSetvbuf _ _ _ _ | CallFread _ _ _ _ | CallFwrite _ _ _ _ | CallFgets _ _ _ | CallFputc _ _ | CallUngetc _ _ | CallFseek _ _ _ => True
  | _ => False
  end -> posix_step px c = Some px' -> tables_same px px'.
Proof.
  destruct c; try done; intros _; cbn; apply after_stays; intros r;
    unfold setvbuf, fread, fwrite, fgets, fputc, stream_putc, ungetc, fseek, on_stream;
    (destruct (unifyfs_intercept_stream px stream); [|done]); intros <-%Ours_inj; stays.
Qed.

Lemma posix_step_ok px c px' : tables_ok px -> posix_step px c = Some px' -> tables_ok px'.
Proof.
  intros Hok Hstep.
  destruct c; try (by eapply tables_same_ok; [by eapply fd_calls_same, Hstep|]);
    try (by eapply tables_same_ok; [by eapply stream_calls_same, Hstep|]); cbn in Hstep.
  - by eapply after_ok, Hstep; [|intros r Hr; eapply open_ok].
  - by eapply after_ok, Hstep; [|intros r Hr; eapply creat_ok].
  - eapply tables_same_ok, Hok. eapply after_stays, Hstep. apply dup_same.
  - eapply tables_same_ok, Hok. eapply after_stays, Hstep. apply dup2_same.
  - by eapply after_ok, Hstep; [|intros r Hr; eapply close_ok].
  - by eapply after_ok, Hstep; [|intros r Hr; eapply fopen_ok].
  - by eapply after_ok, Hstep; [|intros r Hr; eapply fclose_ok].
  - eapply tables_same_ok, Hok. eapply after_stays, Hstep. apply fflush_same.
Qed.

Lemma init_tables_ok (f : F) m mount cwd limit fpos persist junk :
  tables_ok (posix_client_init f m mount cwd limit fpos persist junk).
Proof.
  split; cbn [px_fd_stack px_stream_stack posix_client_init].
  - apply table_init; [reflexivity|]. unfold fd_table. cbn [px_fds posix_client_init]. unfold init_fds. rewrite fmap_replicate.
    apply Forall_replicate. done.
  - apply table_init; [reflexivity|]. unfold stream_keys. cbn [px_streams posix_client_init]. unfold init_streams.
    rewrite -!list_fmap_compose. apply Forall_fmap, Forall_forall. done.
  - intros i k. unfold stream_keys. cbn [px_streams posix_client_init]. unfold init_streams. rewrite -list_fmap_compose list_lookup_fmap.
    destruct (seqZ 0 _ !! i) as [x|] eqn:Hx; [|done]. apply lookup_seqZ in Hx as [-> _]. intros [= <-]. cbn. lia.
Qed.

Lemma posix_run_ok cs px px' : tables_ok px -> posix_run px cs = Some px' -> tables_ok px'.
Proof.
  revert px. induction cs as [|c cs IH]; intros px Hok; cbn; [by intros [= <-]|].
  destruct (posix_step px c) as [px1|] eqn:Hs; [|done]. cbn. apply IH. by eapply posix_step_ok.
Qed.

(** The indices on a stack have -1 in the table; when all indices that are in
    use have another number, they are exactly these. *)
Lemma table_free P st xs : table_ok P st xs -> NoDup (stack_free st) /\
  forall i, 0 <= i < UNIFYFS_CLIENT_MAX_FILES ->
    exists x, xs !! Z.to_nat i = Some x /\ (i ∈ stack_free st -> x = -1) /\ ((i ∉ stack_free st) -> P x).
Proof.
  intros (used & Hok & Hlen & Hx). pose proof (NoDup_seqZ 0 UNIFYFS_CLIENT_MAX_FILES) as Hnd. rewrite -(stack_ok_ids _ _ _ Hok) in Hnd.
  apply NoDup_app in Hnd as (Hnd & Hdis & _). split; [done|]. intros i Hi.
  destruct (lookup_lt_is_Some_2 xs (Z.to_nat i)) as [x Hxi]; [lia|]. exists x. split; [done|].
  pose proof (Hx _ _ Hxi) as Hc. rewrite Z2Nat.id in Hc; [lia|].
  assert (i ∈ seqZ 0 UNIFYFS_CLIENT_MAX_FILES) as Hin by (apply elem_of_seqZ; lia). rewrite -(stack_ok_ids _ _ _ Hok) elem_of_app in Hin.
  split; intros H.
  - destruct Hc as [[Hu _]|[_ ->]]; [|done]. by destruct (Hdis i H).
  - destruct Hc as [[_ ?]|[Hn _]]; [done|]. by destruct Hin.
Qed.

(** C30. The tables of descriptors and streams: after any sequence of calls from
    the initial state (opening, duplicating and closing descriptors and
    streams, reading, writing, seeking, truncating, syncing, flushing, pushing
    back), successful or not, the stacks hold no index twice, a descriptor on
    the stack of free descriptors has no file, so that a descriptor of an open
    file is not given out again, and the stack of free streams holds exactly
    the streams that have no descriptor. *)
Theorem tables_invariant (f : F) m mount cwd limit fpos persist junk cs px :
  posix_run (posix_client_init f m mount cwd limit fpos persist junk) cs = Some px ->
  NoDup (stack_free (px_fd_stack px)) /\ NoDup (stack_free (px_stream_stack px)) /\
  forall i, 0 <= i < UNIFYFS_CLIENT_MAX_FILES ->
    (exists d, px_fds px !! Z.to_nat i = Some d /\ (i ∈ stack_free (px_fd_stack px) -> fd_fid d = -1)) /\
    (exists s, px_streams px !! Z.to_nat i = Some s /\ s_sid s = i /\ (i ∈ stack_free (px_stream_stack px) <-> s_fd s = -1)).
Proof.
  intros Hrun. assert (tables_ok px) as [Hf Hs Hk] by (eapply posix_run_ok, Hrun; apply init_tables_ok).
  destruct (table_free _ _ _ Hf) as [Hn1 Hf1], (table_free _ _ _ Hs) as [Hn2 Hs1]. split_and!; [done|done|]. intros i Hi.
  specialize (Hf1 i Hi) as (x & Hx & Hx1 & _). specialize (Hs1 i Hi) as (y & Hy & Hy1 & Hy2).
  unfold fd_table, stream_keys in *. rewrite !list_lookup_fmap in Hx Hy. split.
  - destruct (px_fds px !! Z.to_nat i) as [d|]; [|done]. exists d. injection Hx as ->. done.
  - specialize (Hk (Z.to_nat i)). rewrite list_lookup_fmap in Hk. destruct (px_streams px !! Z.to_nat i) as [s|]; [|done]. exists s.
    injection Hy as <-. specialize (Hk _ eq_refl). cbn in Hk, Hy1, Hy2. split; [done|]. split; [lia|]. split; [done|]. intros Heq.
    destruct (decide (i ∈ stack_free (px_stream_stack px))) as [?|Hn]; [done|]. specialize (Hy2 Hn). lia.
Qed.

(** [open] gives out a free descriptor: after any sequence of calls, when
    the file system opens the file, [open] returns.  Either no descriptor is
    free, it fails with [EMFILE] and changes none of them, or it returns a
    descriptor that had no file and that the following calls find; its
    structure has the file and the position, and the others stay as they are. *)
Theorem open_free_descriptor (f : F) m mount cwd limit fpos persist junk cs px path upath flags mode f' fid pos :
  posix_run (posix_client_init f m mount cwd limit fpos persist junk) cs = Some px ->
  unifyfs_intercept_path spath_reduce px path = Some upath -> 0 <= pc_fd_limit (px_cfg px) ->
  fl_open (px_files px) upath flags (if bits flags O_CREAT then mode else 0) = LRet (f', (UNIFYFS_SUCCESS, fid, pos)) ->
  exists px' e, open spath_reduce px path flags mode = Ours (LRet (px', e)) /\ px_files px' = f' /\
    (e = -1 /\ px_errno px' = EMFILE /\ stack_free (px_fd_stack px) = [] /\ px_fds px' = px_fds px \/
     exists fd old d, 0 <= fd < UNIFYFS_CLIENT_MAX_FILES /\ px_fds px !! Z.to_nat fd = Some old /\ fd_fid old = -1 /\
       px_errno px' = 0 /\ unifyfs_intercept_fd px' e = Some fd /\ fd_fid d = fid /\ fd_pos d = pos /\ fd_use_count d = 1 /\
       px_fds px' = <[Z.to_nat fd := d]> (px_fds px)).
Proof.
  intros Hrun Hpath Hlim Ho. assert (tables_ok px) as Hok by (eapply posix_run_ok, Hrun; apply init_tables_ok).
  unfold open, on_path. rewrite Hpath Ho. cbn [lbind]. change (negb (UNIFYFS_SUCCESS =? UNIFYFS_SUCCESS)) with false. cbn iota.
  edestruct (expose_ok (px_set_files f' px)) as (px' & e & -> & Hok' & Hf' & Hc & Hres); [by apply tables_ok_files|].
  exists px', e. split; [done|]. split; [done|].
  destruct Hres as [(-> & He & Hall & Hfds)|(fd & d & -> & Hr & Hd & Hfree & He & Hfds)]; [by left|].
  right. eexists fd, d, _. split_and!; [lia|lia|done|done|done| | | | |exact Hfds]; try done.
  unfold unifyfs_intercept_path in Hpath. destruct (negb _) eqn:Hinit; [done|]. unfold unifyfs_intercept_fd. rewrite Hc. cbn.
  rewrite Hinit (proj2 (Z.ltb_ge (fd + _) 0)); [lia|]. rewrite (proj2 (Z.ltb_ge _ _)); [lia|]. f_equal. lia.
Qed.

End Table.

(** Two files, opened and duplicated, read and closed. *)
Definition table_files : byte_files :=
  ByteFiles {[ 7 := [65; 66; 67]; 8 := [] ]} [("/unifyfs/a"%string, 7); ("/unifyfs/b"%string, 8)] 100.
Definition table_start : posix byte_files := posix_client_init table_files (Mem 1 []) "/unifyfs" None 1024 true false (fun _ => 0).
Definition table_calls : list posix_call :=
  [CallOpen "/unifyfs/a" O_RDWR 0; CallOpen "/unifyfs/b" O_RDWR 0; CallDup (inl 5) 1024; CallClose 1024; CallRead 5 (fun _ => 0) 2;
   CallFopen "/unifyfs/b" (Some "w"%string) 0; CallFputc (StreamPtr 0) 90; CallFclose (StreamPtr 0); CallClose 5; CallClose 77].
Definition table_end : posix byte_files := default table_start (posix_run (fun p => p) table_start table_calls).

Lemma tables_invariant_witness :
  NoDup (stack_free (px_fd_stack table_end)) /\ stack_free (px_fd_stack table_end) <> [] /\
  (exists d, px_fds table_end !! 0%nat = Some d /\ fd_fid d = -1) /\ (exists d, px_fds table_end !! 1%nat = Some d /\ fd_fid d = 8).
Proof.
  destruct (tables_invariant (fun p => p) table_files (Mem 1 []) "/unifyfs" None 1024 true false (fun _ => 0) table_calls table_end)
    as (H & _ & Ht).
  - vm_compute. reflexivity.
  - split; [exact H|]. split; [vm_compute; discriminate|]. split; [|eexists; vm_compute; split; reflexivity].
    destruct (Ht 0) as [(d & Hd & Hf) _]; [vm_compute; intuition congruence|]. exists d. split; [exact Hd|]. apply Hf.
    apply (list_elem_of_lookup_2 _ 126). vm_compute. reflexivity.
Defined.

Lemma open_free_descriptor_witness :
  exists px' e, open (fun p => p) table_end "/unifyfs/a" O_RDWR 0 = Ours (LRet (px', e)) /\ px_files px' = px_files table_end.
Proof.
  destruct (open_free_descriptor (fun p => p) table_files (Mem 1 []) "/unifyfs" None 1024 true false (fun _ => 0) table_calls table_end
    "/unifyfs/a" "/unifyfs/a" O_RDWR 0 (px_files table_end) 7 0) as (px' & e & H & Hf & _).
  - vm_compute. reflexivity.
  - vm_compute. reflexivity.
  - vm_compute. intuition congruence.
  - vm_compute. reflexivity.
  - exists px', e. split; [exact H|exact Hf].
Defined.
