(* ===== verification/PathOps.v ===== *)
(** * Calls on paths, attributes and directory streams

    The calls of client/src/unifyfs-sysio.c that take a path or change the
    attributes of a file, and those of client/src/unifyfs-dirops.c, over the
    files of the client of Client.v. *)

From Stdlib Require Import String.
From S2P Require Import Prelude.
From S2P Require Import LogIO.
From S2P Require Import IdStack.
From S2P Require Import Meta.
From S2P Require Import Inode.
From S2P Require Import Client.
From S2P Require Import ClientRead.
From S2P Require Import PosixClient.
From S2P Require Import SysIO.

Definition EFAULT : Z := 14.
Definition PATH_MAX : Z := 4096.
Definition TMPFS_MAGIC : Z := 16914836.
Definition UNIFYFS_SUPER_MAGIC : Z := 6155973629504279329.
Definition UNIFYFS_LOGIO_CHUNK_SIZE : Z := 4194304.
Definition STAT_VER : Z := 3.
Definition UTIME_NOW : Z := 1073741823.
Definition UTIME_OMIT : Z := 1073741822.

Definition S_ISREG (mode : Z) : bool := Z.land mode S_IFMT =? S_IFREG.

(** The fields of [struct statfs] that are set. *)
Record statfs_t := Statfs {
  f_type : Z;
  f_bsize : Z;
  f_files : Z;
  f_namelen : Z;
}.

Section PathOps.
Context {S : Type} `{!ServerRpc S} (env : client_env) (spath_reduce : string -> string).
(** The call that laminates a file. *)
Context (rpc_laminate : S -> Z -> S * Z).
Implicit Types (px : posix (client_files S)).

Definition px_client px : unifyfs_client := cf_client (px_files px).
Definition px_server px : S := cf_server (px_files px).

(** The client, and the server, after an operation. *)
Definition px_set_client (c : unifyfs_client) px : posix (client_files S) :=
  px_set_files (ClientFiles c (cf_reads (px_files px)) (px_server px)) px.
Definition px_set_server (s : S) px : posix (client_files S) :=
  px_set_files (ClientFiles (px_client px) (cf_reads (px_files px)) s) px.

(** [errno = unifyfs_rc_errno(rc); return -1;] or [errno = 0; return 0;] *)
Definition ret_rc px (rc : Z) : lres (posix (client_files S) * Z) :=
  if negb (rc =? UNIFYFS_SUCCESS) then ret_errno px (unifyfs_rc_errno rc) (-1) else ret_errno px 0 0.

(** ** Names *)

Definition access px (path : string) : call (posix (client_files S) * Z) :=
  on_path spath_reduce px path (fun upath =>
    if unifyfs_fid_from_path (px_client px) upath <? 0 then ret_errno px ENOENT (-1) else ret_errno px 0 0).

Definition mkdir px (path : string) : call (posix (client_files S) * Z) :=
  on_path spath_reduce px path (fun upath =>
    if unifyfs_fid_from_path (px_client px) upath >=? 0 then ret_errno px EEXIST (-1)
    else
      let! '(c, s, ret) := unifyfs_fid_create_directory env (px_client px) (px_server px) upath in
      ret_rc (px_set_server s (px_set_client c px)) ret).

(** The error number; [mask]: what the file has to be. *)
Definition _unifyfs_remove px (upath : string) (mask : Z) : lres (posix (client_files S) * Z) :=
  if bool_decide (upath = pc_mount_prefix (px_cfg px)) then LRet (px, EBUSY)
  else
    let fid := unifyfs_fid_from_path (px_client px) upath in
    if fid >=? 0 then
      let! '(c, is_dir) := unifyfs_fid_is_dir (px_client px) fid in
      let px := px_set_client c px in
      if is_dir && bits mask S_IFREG then LRet (px, EISDIR)
      else if is_dir && negb (unifyfs_fid_is_dir_empty (px_client px) upath) then LRet (px, ENOTEMPTY)
      else if negb is_dir && bits mask S_IFDIR then LRet (px, ENOTDIR)
      else
        let! '(c, s, ret) := unifyfs_fid_unlink (px_client px) (px_server px) fid in
        LRet (px_set_server s (px_set_client c px), if negb (ret =? UNIFYFS_SUCCESS) then unifyfs_rc_errno ret else 0)
    else
      let gfid := gfid_of_path env upath in
      match rpc_metaget (px_server px) gfid with
      | inl _ => LRet (px, ENOENT)
      | inr attr =>
          let is_dir := bits (fa_mode attr) S_IFDIR in
          if is_dir && bits mask S_IFREG then LRet (px, EISDIR)
          else if negb is_dir && bits mask S_IFDIR then LRet (px, ENOTDIR)
          else
            let '(s, ret) := rpc_unlink (px_server px) gfid in
            LRet (px_set_server s px, if negb (ret =? UNIFYFS_SUCCESS) then unifyfs_rc_errno ret else 0)
      end.

Definition remove_mask px (path : string) (mask : Z) : call (posix (client_files S) * Z) :=
  on_path spath_reduce px path (fun upath =>
    let! '(px, ret) := _unifyfs_remove px upath mask in
    if negb (ret =? 0) then ret_errno px ret (-1) else ret_errno px 0 0).

Definition rmdir px (path : string) : call (posix (client_files S) * Z) := remove_mask px path S_IFDIR.
Definition unlink px (path : string) : call (posix (client_files S) * Z) := remove_mask px path S_IFREG.
Definition remove px (path : string) : call (posix (client_files S) * Z) := remove_mask px path 0.

(** [strcpy] to the name of file [fid]. *)
Definition set_filename (fid : Z) (name : string) (c : unifyfs_client) : unifyfs_client :=
  cl_set_filelist (alter (fun n => Filename (fn_in_use n) name) (Z.to_nat fid) (cl_filelist c)) c.

(** Both paths are looked at, whether or not the first one is ours. *)
Definition rename px (oldpath newpath : string) : call (posix (client_files S) * Z) :=
  match unifyfs_intercept_path spath_reduce px oldpath, unifyfs_intercept_path spath_reduce px newpath with
  | Some old_upath, Some new_upath =>
      Ours
        (let fid := unifyfs_fid_from_path (px_client px) old_upath in
         if fid <? 0 then ret_errno px ENOENT (-1)
         else if pathlen new_upath >? UNIFYFS_MAX_FILENAME then ret_errno px ENAMETOOLONG (-1)
         else
           let! '(px, ret) :=
             if unifyfs_fid_from_path (px_client px) new_upath >=? 0 then
               match unlink px newpath with Ours r => r | System => LFault end
             else LRet (px, 0) in
           if ret =? -1 then ret_errno px EBUSY (-1)
           else ret_errno (px_set_client (set_filename fid new_upath (px_client px)) px) 0 0)
  | Some _, None | None, Some _ => Ours (ret_errno px EXDEV (-1))
  | None, None => System
  end.

Definition truncate px (path : string) (length : Z) : call (posix (client_files S) * Z) :=
  on_path spath_reduce px path (fun upath =>
    let fid := unifyfs_fid_from_path (px_client px) upath in
    if fid >=? 0 then
      let! '(c, s, rc) := unifyfs_fid_truncate (px_client px) (px_server px) fid length in
      ret_rc (px_set_server s (px_set_client c px)) rc
    else
      let '(s, rc) := rpc_truncate (px_server px) (gfid_of_path env upath) length in
      ret_rc (px_set_server s px) rc).

(** ** The working directory *)

(** [real]: what the real [chdir] returned, and the directory that the real
    [getcwd] found then. *)
Definition chdir px (real : Z * string) (path : string) : lres (posix (client_files S) * Z) :=
  match unifyfs_intercept_path spath_reduce px path with
  | Some upath =>
      let '(copy, m) := calloc (px_mem px) in
      let px := px_set_mem m px in
      match copy with
      | None => ret_errno px ENOMEM (-1)
      | Some _ => ret_errno (px_set_cwd (Some upath) px) 0 0
      end
  | None =>
      let '(ret, cwd) := real in
      if pc_initialized (px_cfg px) && (ret =? 0) then LRet (px_set_cwd (Some cwd) px, ret) else LRet (px, ret)
  end.

(** [path]: whether the caller has a buffer.  The result is the string in the
    buffer that is returned. *)
Definition _getcwd_impl px (path : bool) (size : Z) (cwd : string) : lres (posix (client_files S) * option string) :=
  if (size =? 0) && path then ret_errno px EINVAL None
  else
    let len := pathlen cwd in
    if negb path then
      if (size >? 0) && negb (len <=? size) then ret_errno px ERANGE None
      else
        let '(buf, m) := calloc (px_mem px) in
        let px := px_set_mem m px in
        match buf with Some _ => ret_errno px 0 (Some cwd) | None => ret_errno px ENOMEM None end
    else if len <=? size then ret_errno px 0 (Some cwd)
    else ret_errno px ERANGE None.

(** A call for the working directory: ours when it is below the mount point. *)
Definition on_cwd px (k : string -> lres (posix (client_files S) * option string)) : call (posix (client_files S) * option string) :=
  if pc_initialized (px_cfg px) then
    match px_cwd px with
    | None => Ours (ret_errno px EACCES None)
    | Some cwd => match unifyfs_intercept_path spath_reduce px cwd with Some _ => Ours (k cwd) | None => System end
    end
  else System.

Definition getcwd px (path : bool) (size : Z) : call (posix (client_files S) * option string) := on_cwd px (_getcwd_impl px path size).

Definition __getcwd_chk px (path : bool) (size buflen : Z) : call (posix (client_files S) * option string) :=
  on_cwd px (_getcwd_impl px path size).

Definition getwd px (path : bool) : call (posix (client_files S) * option string) :=
  on_cwd px (fun cwd =>
    if negb path then ret_errno px EINVAL None
    else if pathlen cwd <=? PATH_MAX then ret_errno px 0 (Some cwd)
    else ret_errno px ENAMETOOLONG None).

Definition get_current_dir_name px : call (posix (client_files S) * option string) :=
  on_cwd px (fun cwd =>
    let '(ret, m) := calloc (px_mem px) in
    let px := px_set_mem m px in
    match ret with Some _ => ret_errno px 0 (Some cwd) | None => ret_errno px ENOMEM None end).

(** ** Attributes *)

(** The attributes of the server, with the size of a regular file that is not
    laminated. *)
Definition unifyfs_get_meta_with_size (s : S) (gfid : Z) : Z + unifyfs_file_attr_t :=
  match rpc_metaget s gfid with
  | inl ret => inl ret
  | inr a =>
      if S_ISREG (fa_mode a) && (fa_is_laminated a =? 0) then
        match rpc_filesize s gfid with
        | inl ret => inl ret
        | inr filesize =>
            inr (FileAttr (fa_filename a) (fa_gfid a) (fa_is_laminated a) (fa_is_shared a) (fa_mode a) (fa_uid a) (fa_gid a)
              filesize (fa_atime a) (fa_mtime a) (fa_ctime a) (fa_last_update a))
        end
      else inr a
  end.

(** [buf]: whether the caller has a buffer. *)
Definition __stat px (path : string) (buf : bool) : lres (posix (client_files S) * (Z * option stat)) :=
  if negb buf then ret_errno px EINVAL (-1, None)
  else
    let fid := unifyfs_fid_from_path (px_client px) path in
    let found := negb (fid =? -1) in
    let! '(c, s, sync_rc) :=
      if found then unifyfs_fid_sync_extents (px_client px) (px_server px) fid else LRet (px_client px, px_server px, UNIFYFS_SUCCESS) in
    let px := px_set_server s (px_set_client c px) in
    if negb (sync_rc =? UNIFYFS_SUCCESS) then ret_errno px (unifyfs_rc_errno sync_rc) (-1, None)
    else
      match unifyfs_get_meta_with_size s (gfid_of_path env path) with
      | inl ret => ret_errno px (unifyfs_rc_errno ret) (-1, None)
      | inr fattr =>
          let! '(c, _) := if found then unifyfs_fid_update_file_meta (px_client px) fid fattr else LRet (px_client px, 0) in
          ret_errno (px_set_client c px) 0 (0, Some (unifyfs_file_attr_to_stat fattr))
      end.

Definition stat_path px (path : string) (buf : bool) : call (posix (client_files S) * (Z * option stat)) :=
  on_path spath_reduce px path (fun upath => __stat px upath buf).

(** [struct stat64] has the same fields. *)
Definition stat64_path px (path : string) (buf : bool) : call (posix (client_files S) * (Z * option stat)) :=
  on_path spath_reduce px path (fun upath => __stat px upath buf).

(** The path of an open file; a file that lost its name has none, and the null
    pointer is followed. *)
Definition stat_fid px (fid : Z) (buf : bool) : lres (posix (client_files S) * (Z * option stat)) :=
  let! path := unifyfs_path_from_fid (px_client px) fid in
  let! path := lift_option path in
  __stat px path buf.

Definition fstat px (fd : Z) (buf : bool) : call (posix (client_files S) * (Z * option stat)) :=
  on_fd px fd (fun fd =>
    let fid := unifyfs_get_fid_from_fd px fd in
    if fid =? -1 then ret_errno px EBADF (-1, None) else stat_fid px fid buf).

Definition fstat64 px (fd : Z) (buf : bool) : call (posix (client_files S) * (Z * option stat)) :=
  on_fd px fd (fun fd =>
    let fid := unifyfs_get_fid_from_fd px fd in
    if fid =? -1 then ret_errno px EBADF (-1, None) else stat_fid px fid buf).

(** [__xstat], [__lxstat] and their variants for large files. *)
Definition __xstat px (vers : Z) (path : string) (buf : bool) : call (posix (client_files S) * (Z * option stat)) :=
  on_path spath_reduce px path (fun upath =>
    if negb (vers =? STAT_VER) then ret_errno px EINVAL (-1, None) else __stat px upath buf).

Definition __fxstat px (vers fd : Z) (buf : bool) : call (posix (client_files S) * (Z * option stat)) :=
  on_fd px fd (fun fd =>
    if negb (vers =? STAT_VER) then ret_errno px EINVAL (-1, None)
    else
      let fid := unifyfs_get_fid_from_fd px fd in
      if fid =? -1 then ret_errno px EBADF (-1, None) else stat_fid px fid buf).

(** Without the check that the descriptor is open. *)
Definition __fxstat64 px (vers fd : Z) (buf : bool) : call (posix (client_files S) * (Z * option stat)) :=
  on_fd px fd (fun fd =>
    if negb (vers =? STAT_VER) then ret_errno px EINVAL (-1, None)
    else stat_fid px (unifyfs_get_fid_from_fd px fd) buf).

Definition unifyfs_statfs px (use_unifyfs_magic fsbuf : bool) : Z + statfs_t :=
  if fsbuf then
    inr (Statfs (if use_unifyfs_magic then UNIFYFS_SUPER_MAGIC else TMPFS_MAGIC) UNIFYFS_LOGIO_CHUNK_SIZE
      (cc_max_files (cl_cfg (px_client px))) UNIFYFS_MAX_FILENAME)
  else inl EFAULT.

Definition ret_statfs px (r : Z + statfs_t) : lres (posix (client_files S) * (Z * option statfs_t)) :=
  match r with inl err => ret_errno px err (-1, None) | inr st => ret_errno px 0 (0, Some st) end.

Definition statfs px (path : string) (use_unifyfs_magic fsbuf : bool) : call (posix (client_files S) * (Z * option statfs_t)) :=
  on_path spath_reduce px path (fun _ => ret_statfs px (unifyfs_statfs px use_unifyfs_magic fsbuf)).

Definition fstatfs px (fd : Z) (use_unifyfs_magic fsbuf : bool) : call (posix (client_files S) * (Z * option statfs_t)) :=
  on_fd px fd (fun _ => ret_statfs px (unifyfs_statfs px use_unifyfs_magic fsbuf)).

Definition fa_set_mode (mode : Z) (a : unifyfs_file_attr_t) : unifyfs_file_attr_t :=
  FileAttr (fa_filename a) (fa_gfid a) (fa_is_laminated a) (fa_is_shared a) mode (fa_uid a) (fa_gid a) (fa_size a) (fa_atime a)
    (fa_mtime a) (fa_ctime a) (fa_last_update a).

(** Clearing all the write bits laminates the file. *)
Definition laminates (old mode : Z) : bool := bits old 146 && (Z.land (Z.land old 146) mode =? 0).        (* 0222 *)

Definition __chmod px (fid mode : Z) : lres (posix (client_files S) * Z) :=
  let! _ := unifyfs_path_from_fid (px_client px) fid in
  with_meta (px_client px) fid (fun c meta =>
    let px := px_set_client c px in
    match meta with
    | None => ret_errno px ENOENT (-1)
    | Some meta =>
        if negb (fa_is_laminated (fm_attrs meta) =? 0) then ret_errno px EROFS (-1)
        else
          let! '(c, gfid) := unifyfs_gfid_from_fid (px_client px) fid in
          let px := px_set_client c px in
          let old := fa_mode (fm_attrs meta) in
          let '(s, ret) := if laminates old mode then rpc_laminate (px_server px) gfid else (px_server px, 0) in
          let px := px_set_server s px in
          if negb (ret =? 0) then ret_errno px (unifyfs_rc_errno ret) (-1)
          else
            let c := put_meta fid (fun m => fm_set_attrs (fa_set_mode (Z.lor (Z.land old (Z.lnot 511)) mode) (fm_attrs m)) m) (px_client px) in
            let! '(c, s, ret) := unifyfs_set_global_file_meta_from_fid env c (px_server px) fid ATTR_OP_CHMOD in
            let px := px_set_server s (px_set_client c px) in
            if negb (ret =? 0) then ret_errno px (unifyfs_rc_errno ret) (-1)
            else
              match rpc_metaget (px_server px) gfid with
              | inl ret => ret_errno px (unifyfs_rc_errno ret) (-1)
              | inr attr =>
                  let! '(c, _) := unifyfs_fid_update_file_meta (px_client px) fid attr in
                  ret_errno (px_set_client c px) 0 0
              end
    end).

Definition fchmod px (fd mode : Z) : call (posix (client_files S) * Z) :=
  on_fd px fd (fun fd =>
    let fid := unifyfs_get_fid_from_fd px fd in
    if fid <? 0 then ret_errno px EBADF (-1) else __chmod px fid mode).

Definition chmod px (path : string) (mode : Z) : call (posix (client_files S) * Z) :=
  on_path spath_reduce px path (fun upath =>
    let fid := unifyfs_fid_from_path (px_client px) upath in
    if fid <? 0 then ret_errno px ENOENT (-1) else __chmod px fid mode).

(** [pathname]: [None] for the null pointer. *)
Definition utimensat px (dirfd : Z) (pathname : option string) : call (posix (client_files S) * Z) :=
  match pathname with
  | None =>
      on_fd px dirfd (fun fd =>
        if unifyfs_get_fid_from_fd px fd <? 0 then ret_errno px EBADF (-1) else ret_errno px ENOSYS (-1))
  | Some path =>
      on_path spath_reduce px path (fun upath =>
        if unifyfs_fid_from_path (px_client px) upath <? 0 then ret_errno px ENOENT (-1) else ret_errno px ENOSYS (-1))
  end.

(** The new time; [now]: the clock. *)
Definition utime_value (now old new : timespec) : timespec :=
  if tv_nsec new =? UTIME_OMIT then old else if tv_nsec new =? UTIME_NOW then now else new.

(** [errno] is not set on success. *)
Definition futimens px (now : timespec) (fd : Z) (atime mtime : timespec) : call (posix (client_files S) * Z) :=
  on_fd px fd (fun fd =>
    let fid := unifyfs_get_fid_from_fd px fd in
    if fid <? 0 then ret_errno px EBADF (-1)
    else
      with_meta (px_client px) fid (fun c meta =>
        let px := px_set_client c px in
        match meta with
        | None => ret_errno px EBADF (-1)
        | Some _ =>
            let set_times m :=
              let a := fm_attrs m in
              fm_set_attrs (FileAttr (fa_filename a) (fa_gfid a) (fa_is_laminated a) (fa_is_shared a) (fa_mode a) (fa_uid a) (fa_gid a)
                (fa_size a) (utime_value now (fa_atime a) atime) (utime_value now (fa_mtime a) mtime) (fa_ctime a) (fa_last_update a)) m in
            let! '(c, s, ret) := unifyfs_set_global_file_meta_from_fid env (put_meta fid set_times (px_client px)) (px_server px) fid ATTR_OP_UTIME in
            let px := px_set_server s (px_set_client c px) in
            if negb (ret =? 0) then ret_errno px (unifyfs_rc_errno ret) (-1) else LRet (px, 0)
        end)).

(** ** Directory streams *)

(** The descriptor keeps its fields [append] and [use_count].  The result is
    the index of the directory stream. *)
Definition unifyfs_dirstream_alloc px (fid : Z) : lres (posix (client_files S) * option Z) :=
  let! '(px, fd) := pop_fd px in
  if fd <? 0 then ret_errno px EMFILE None
  else
    let! '(st, dirid) := lift_option (unifyfs_stack_pop (px_dirstream_stack px)) in
    let px := px_set_dirstream_stack st px in
    if dirid <? 0 then
      let! px := push_fd px fd in ret_errno px EMFILE None
    else
      let! _ := lift_option (unifyfs_get_filedesc_from_fd px fd) in
      let px := put_fd fd (fun d => FileDesc 0 false false (fd_append d) fid (fd_use_count d)) px in
      let! _ := lift_option (px_dirstreams px !! Z.to_nat dirid) in
      LRet (px_set_dirstreams (<[Z.to_nat dirid := DirStream dirid fid fd 0]> (px_dirstreams px)) px, Some dirid).

Definition unifyfs_dirstream_free px (d : unifyfs_dirstream_t) : lres (posix (client_files S) * Z) :=
  let! px := push_fd (unifyfs_fd_init px (ds_fd d)) (ds_fd d) in
  let px := unifyfs_dirstream_init px (ds_dirid d) in
  let! st := lift_option (unifyfs_stack_push (px_dirstream_stack px) (ds_dirid d)) in
  LRet (px_set_dirstream_stack st px, UNIFYFS_SUCCESS).

(** A failed assertion is a fault. *)
Definition opendir px (name : string) : call (posix (client_files S) * option Z) :=
  on_path spath_reduce px name (fun upath =>
    let fid := unifyfs_fid_from_path (px_client px) upath in
    match rpc_metaget (px_server px) (gfid_of_path env upath) with
    | inl _ => ret_errno px ENOENT None
    | inr gfattr =>
        let sb := unifyfs_file_attr_to_stat gfattr in
        if negb (S_ISDIR (st_mode sb)) then ret_errno px ENOTDIR None
        else
          let set_size fid c :=
            put_meta fid (fun m =>
              let a := fm_attrs m in
              fm_set_attrs (FileAttr (fa_filename a) (fa_gfid a) (fa_is_laminated a) (fa_is_shared a) (fa_mode a) (fa_uid a) (fa_gid a)
                (st_size sb) (fa_atime a) (fa_mtime a) (fa_ctime a) (fa_last_update a)) m) c in
          if fid >=? 0 then
            let! '(c, found) := unifyfs_get_meta_from_fid (px_client px) fid in
            if negb found then LFault
            else
              let! '(c, is_dir) := unifyfs_fid_is_dir c fid in
              if negb is_dir then ret_errno (px_set_client c px) ENOTDIR None
              else unifyfs_dirstream_alloc (px_set_client (set_size fid c) px) fid
          else
            let! '(c, fid) := unifyfs_fid_create_file env (px_client px) upath false in
            if fid <? 0 then ret_errno (px_set_client c px) (unifyfs_rc_errno (- fid)) None
            else
              let! '(c, found) := unifyfs_get_meta_from_fid c fid in
              if negb found then LFault
              else unifyfs_dirstream_alloc (px_set_client (set_size fid (put_meta fid set_dir_mode c)) px) fid
    end).

Definition on_dir {A} px (dirp : file_ptr) (k : unifyfs_dirstream_t -> lres A) : call A :=
  match unifyfs_intercept_dirstream px dirp with
  | Some dirid => Ours (let! d := lift_option (px_dirstreams px !! Z.to_nat dirid) in k d)
  | None => System
  end.

Definition fdopendir px (fd : Z) : call (posix (client_files S) * option Z) := on_fd px fd (fun _ => ret_errno px ENOSYS None).

Definition closedir px (dirp : file_ptr) : call (posix (client_files S) * Z) :=
  on_dir px dirp (fun d => let! '(px, _) := unifyfs_dirstream_free px d in LRet (px, 0)).

Definition readdir px (dirp : file_ptr) : call (posix (client_files S) * option Z) := on_dir px dirp (fun _ => ret_errno px ENOSYS None).

Definition rewinddir px (dirp : file_ptr) : call (posix (client_files S)) :=
  on_dir px dirp (fun d =>
    LRet (px_set_dirstreams (<[Z.to_nat (ds_dirid d) := DirStream (ds_dirid d) (ds_fid d) (ds_fd d) 0]> (px_dirstreams px)) px)).

(** The internal descriptor, without the shift above those of the system. *)
Definition dirfd px (dirp : file_ptr) : call (posix (client_files S) * Z) := on_dir px dirp (fun d => LRet (px, ds_fd d)).

Definition telldir px (dirp : file_ptr) : call (posix (client_files S) * Z) := on_dir px dirp (fun d => LRet (px, ds_pos d)).

Definition scandir px (path : string) : call (posix (client_files S) * Z) :=
  on_path spath_reduce px path (fun _ => ret_errno px ENOSYS (-1)).

Definition seekdir px (dirp : file_ptr) : call (posix (client_files S)) :=
  on_dir px dirp (fun _ => LRet (px_set_errno ENOSYS px)).

End PathOps.
