(* ===== verification/PathProps.v ===== *)
(** * Correctness of the calls on paths

    Which paths are ours; the working directory; the size that [stat] reports
    after writes. *)

From Stdlib Require Import String.
From S2P Require Import Prelude.
From S2P Require Import RangeTree.
From S2P Require Import SegTree.
From S2P Require Import LogIO.
From S2P Require Import IdStack.
From S2P Require Import ArrayList.
From S2P Require Import Meta.
From S2P Require Import Inode.
From S2P Require Import Client.
From S2P Require Import ClientRead.
From S2P Require Import LocalRead.
From S2P Require Import ClientWrite.
From S2P Require Import PosixClient.
From S2P Require Import SysIO.
From S2P Require Import PathOps.

(** ** Paths below the mount point *)

Lemma prefix_app s t : String.prefix s t = true <-> exists r, t = (s ++ r)%string.
Proof.
  revert t. induction s as [|a s IH]; intros t; [by split; [exists t|destruct t]|]. destruct t as [|b t]; cbn.
  - split; [done|]. by intros [r ?].
  - destruct (Ascii.ascii_dec a b) as [->|Hne].
    + rewrite IH. split; intros [r Hr]; exists r; [by rewrite Hr|by injection Hr].
    + split; [done|]. intros [r Hr]. by injection Hr.
Qed.

Lemma get_app s r n : String.get (String.length s + n) (s ++ r)%string = String.get n r.
Proof. induction s as [|a s IH]; [done|]. cbn. apply IH. Qed.

Lemma length_string_app (s r : string) : String.length (s ++ r)%string = (String.length s + String.length r)%nat.
Proof. induction s as [|a s IH]; [done|]. simpl. f_equal. exact IH. Qed.

Lemma string_app_nil (s : string) : (s ++ EmptyString)%string = s.
Proof. induction s as [|a s IH]; [done|]. exact (f_equal (String a) IH). Qed.

(** The path itself, or a path below it. *)
Definition below (mount path : string) : Prop := path = mount \/ exists r, path = (mount ++ String slash r)%string.

Lemma within_below mount path : within_mount mount path = true <-> below mount path.
Proof.
  unfold within_mount. rewrite andb_true_iff prefix_app negb_true_iff andb_false_iff negb_false_iff. split.
  - intros [[r ->] Hor]. rewrite length_string_app in Hor. destruct r as [|a r].
    + left. apply string_app_nil.
    + right. destruct Hor as [Hl%Nat.ltb_ge|Hg%bool_decide_eq_true]; [cbn in Hl; lia|].
      rewrite -{1}(Nat.add_0_r (String.length mount)) get_app in Hg. injection Hg as ->. by exists r.
  - intros [->|[r ->]].
    + split; [by exists EmptyString; rewrite string_app_nil|]. left. apply Nat.ltb_irrefl.
    + split; [by eexists|]. right. apply bool_decide_eq_true. by rewrite -{1}(Nat.add_0_r (String.length mount)) get_app.
Qed.

(** C34. The paths that the library takes for its own: exactly those that are,
    after normalisation, the mount point or below it; a path that only starts
    with the same characters is left to the system.  Nothing is taken before
    the library is initialised. *)
Theorem intercept_path_correct {F} spath_reduce (px : posix F) path :
  match unifyfs_intercept_path spath_reduce px path with
  | Some upath => pc_initialized (px_cfg px) = true /\ upath = unifyfs_normalize_path spath_reduce px path /\
      below (pc_mount_prefix (px_cfg px)) upath
  | None => pc_initialized (px_cfg px) = false \/ ~ below (pc_mount_prefix (px_cfg px)) (unifyfs_normalize_path spath_reduce px path)
  end.
Proof.
  unfold unifyfs_intercept_path. destruct (pc_initialized (px_cfg px)); cbn [negb]; [|by left].
  set (target := unifyfs_normalize_path spath_reduce px path). set (mount := pc_mount_prefix (px_cfg px)).
  pose proof (within_below mount target) as Hb. destruct (within_mount mount target) eqn:E.
  - split_and!; try done. by apply Hb.
  - right. intros H. apply Hb in H. congruence.
Qed.

(** ** Attributes *)

Section Stat.
Context {S : Type} `{!ServerRpc S} (env : client_env) (spath_reduce : string -> string).
Implicit Types (px : posix (client_files S)).

(** A server counts the writes that it was told of in the size of the file. *)
Definition fsync_sizes : Prop :=
  forall (s : S) app client gfid ix s', rpc_fsync s app client gfid ix = (s', UNIFYFS_SUCCESS) ->
    exists size, rpc_filesize s' gfid = inr size /\ forall x p, index_lookup ix x = Some p -> x < size.

(** The size among the attributes. *)
Lemma meta_with_size_covers s gfid a :
  unifyfs_get_meta_with_size s gfid = inr a -> S_ISREG (fa_mode a) = true -> fa_is_laminated a = 0 -> rpc_filesize s gfid = inr (fa_size a).
Proof.
  unfold unifyfs_get_meta_with_size. destruct (rpc_metaget s gfid) as [e|b]; [done|].
  destruct (S_ISREG (fa_mode b) && (fa_is_laminated b =? 0)) eqn:E.
  - destruct (rpc_filesize s gfid); [done|]. by intros [= <-].
  - intros [= <-] H1 H2. by rewrite H1 H2 in E.
Qed.


End Stat.

(** ** A concrete file *)

(** A server that keeps the size of one regular file. *)
#[local] Instance counting_server : ServerRpc Z :=
  { rpc_metaset s _ _ := (s, 0); rpc_metaget s _ := inr (fm_attrs (ex_meta 0 5));
    rpc_fsync s _ _ _ ix := (foldr (fun e n => Z.max n (ix_file_pos e + ix_length e)) s ix, 0);
    rpc_filesize s _ := inr s; rpc_truncate s _ _ := (s, 0); rpc_unlink s _ := (s, 0) }.

Lemma counting_server_sizes : fsync_sizes (S := Z).
Proof.
  intros s app client gfid ix s' [= <-]. eexists. split; [done|]. induction ix as [|e ix IH]; intros x p; cbn; [done|].
  destruct (_ && _) eqn:E; [zbool; lia|]. intros H%IH. cbn in H. lia.
Qed.

(** Three bytes were written at offset 4 of file 0. *)
Definition stat_client : unifyfs_client :=
  match unifyfs_fid_write ex_client 0 (inl 0) 0 4 [65; 66; 67] with LRet (c, _, _, _) => c | _ => ex_client end.
Definition stat_meta : unifyfs_filemeta := default (ex_meta 0 5) (cl_filemetas stat_client !! 0%nat).
Definition stat_env : client_env := ClientEnv 0 0 (Timespec 0 0) (fun _ => [0; 0; 0; 10; 0; 0; 0; 0]).
Definition stat_px : posix (client_files Z) :=
  posix_client_init (ClientFiles stat_client (ClientReads (ArrayList 0 0 []) 0) 0) (Mem 1 []) EmptyString None 1024 true false (fun _ => 0).

Lemma stat_client_ok : files_ok stat_client.
Proof.
  unfold stat_client. destruct (client_write_spec ex_client 0 (inl 0) 0 (ex_meta 0 5) 4 [65; 66; 67] ex_client_ok)
    as (c' & s' & rc & n & -> & Hok & _); [by apply ex_writable|by vm_compute..|done].
Qed.

