(* ===== verification/Transfer.v ===== *)
(** * Copying files between file systems

    The copy of a file between UnifyFS and another file system by one process
    or by all of them ([unifyfs_transfer_file] of client/src/posix_client.c):
    the loops, the ranges of the processes, and what is in the destination in
    the end. *)

From Stdlib Require Import String.
From S2P Require Import Prelude.
From S2P Require Import LogIO.
From S2P Require Import Meta.
From S2P Require Import Inode.
From S2P Require Import Client.
From S2P Require Import ClientRead.
From S2P Require Import PosixClient.
From S2P Require Import SysIO.
From S2P Require Import PathOps.
From S2P Require Import FileSpec.
From S2P Require Import FdProps.

Definition EAGAIN : Z := 11.
Definition UNIFYFS_TRANSFER_BUF_SIZE : Z := 8388608.
Definition UNIFYFS_TRANSFER_SERIAL : Z := 0.
Definition UNIFYFS_TRANSFER_PARALLEL : Z := 1.

(** The wrapped calls: what they return, and [errno]. *)
Class WrapOps (W : Type) := {
  w_malloc : W -> W * bool;
  w_intercept : W -> string -> option string;
  w_open : W -> string -> Z -> Z -> lres (W * (Z * Z));
  w_close : W -> Z -> lres (W * (Z * Z));
  w_lseek : W -> Z -> Z -> Z -> lres (W * (Z * Z));
  w_read : W -> Z -> (Z -> Z) -> Z -> lres (W * (Z * Z * (Z -> Z)));
  w_write : W -> Z -> list Z -> lres (W * (Z * Z));
  w_fsync : W -> Z -> lres (W * (Z * Z));
  w_stat : W -> string -> lres (W * (Z * Z * stat));
  w_chmod : W -> string -> Z -> lres (W * (Z * Z));
}.

Section Transfer.
Context {W : Type} `{!WrapOps W}.
(** The contents of fresh memory; the directory part of a path is removed by
    [basename]. *)
Context (junk : Z -> Z) (basename : string -> string).
Implicit Types (w : W).

(** ** One range *)

(** The inner loop: the bytes that were read are written; [inl]: an error. *)
Fixpoint write_back (fuel : nat) w (fd_dst : Z) (buf : Z -> Z) (n_read n_processed : Z) : lres (W * (Z + Z)) :=
  match fuel with
  | O => LBlocked
  | S fuel =>
      let! '(w, (n_written, err)) := w_write w fd_dst (region_read buf 0 n_read) in
      if n_written <? 0 then LRet (w, inl err)
      else if (n_written =? 0) && negb (err =? 0) && negb (err =? EAGAIN) then LRet (w, inl err)
      else
        let n_read := n_read - n_written in
        let n_processed := n_processed + n_written in
        if n_read >? 0 then write_back fuel w fd_dst buf n_read n_processed else LRet (w, inr n_processed)
  end.

(** The outer loop; the return code. *)
Fixpoint copy_loop (fuel : nat) w (fd_src fd_dst count len n_processed : Z) (buf : Z -> Z) : lres (W * Z) :=
  if count >? n_processed then
    match fuel with
    | O => LBlocked
    | S fuel =>
        let len := if len >? count then count else len in
        let! '(w, (n_read, err, buf)) := w_read w fd_src buf len in
        if n_read =? 0 then LRet (w, UNIFYFS_SUCCESS)
        else if n_read <? 0 then LRet (w, err)
        else
          let! '(w, r) := write_back fuel w fd_dst buf n_read n_processed in
          match r with
          | inl err => LRet (w, err)
          | inr n_processed => copy_loop fuel w fd_src fd_dst count len n_processed buf
          end
    end
  else LRet (w, UNIFYFS_SUCCESS).

Definition do_transfer_data (fuel : nat) w (fd_src fd_dst offset count : Z) : lres (W * Z) :=
  let '(w, ok) := w_malloc w in
  if negb ok then LRet (w, ENOMEM)
  else
    let! '(w, (pos, err)) := w_lseek w fd_src offset SEEK_SET in
    if pos =? -1 then LRet (w, err)
    else
      let! '(w, (pos, err)) := w_lseek w fd_dst offset SEEK_SET in
      if pos =? -1 then LRet (w, err)
      else copy_loop fuel w fd_src fd_dst count UNIFYFS_TRANSFER_BUF_SIZE 0 junk.

(** ** A file *)

(** Both files are opened and closed around the copy [k]. *)
Definition with_files w (src dst : string) (k : W -> Z -> Z -> lres (W * Z)) : lres (W * Z) :=
  let! '(w, (fd_src, err)) := w_open w src O_RDONLY 0 in
  if fd_src <? 0 then LRet (w, err)
  else
    let! '(w, (fd_dst, err)) := w_open w dst O_WRONLY 0 in
    if fd_dst <? 0 then
      let! '(w, _) := w_close w fd_src in LRet (w, err)
    else
      let! '(w, ret) := k w fd_src fd_dst in
      let! '(w, _) := w_close w fd_dst in
      let! '(w, _) := w_close w fd_src in
      LRet (w, ret).

Definition transfer_file_serial (fuel : nat) w (src dst : string) (sb_src : stat) : lres (W * Z) :=
  with_files w src dst (fun w fd_src fd_dst =>
    let! '(w, ret) := do_transfer_data fuel w fd_src fd_dst 0 (u64 (st_size sb_src)) in
    if negb (ret =? UNIFYFS_SUCCESS) then LRet (w, ret)
    else let! '(w, _) := w_fsync w fd_dst in LRet (w, ret)).

(** The division of [size] bytes among the processes. *)
Record chunking := Chunking {
  ck_total : Z;        (* [total_chunks] *)
  ck_per_rank : Z;     (* [n_chunks_per_rank] *)
  ck_remainder : Z;    (* [n_chunks_remainder] *)
  ck_last : Z;         (* [last_chunk_size] *)
}.

Definition chunking_of (size ranks : Z) : chunking :=
  let total := size / UNIFYFS_TRANSFER_BUF_SIZE in
  let last := size mod UNIFYFS_TRANSFER_BUF_SIZE in
  let total := if negb (last =? 0) then total ⊞ 1 else total in
  Chunking total (total / ranks) (total mod ranks) last.

(** Offset and length of the two ranges of process [rank]. *)
Definition main_range (c : chunking) (rank : Z) : Z * Z :=
  (u64 (u64 (ck_per_rank c * rank) * UNIFYFS_TRANSFER_BUF_SIZE), u64 (ck_per_rank c * UNIFYFS_TRANSFER_BUF_SIZE)).

Definition remainder_range (c : chunking) (rank : Z) : Z * Z :=
  let len := if negb (ck_last c =? 0) && (rank =? ck_remainder c - 1) then ck_last c else UNIFYFS_TRANSFER_BUF_SIZE in
  (u64 ((ck_total c ⊟ ck_remainder c ⊞ rank) * UNIFYFS_TRANSFER_BUF_SIZE), len).

(** The copies of one process, once the files are open. *)
Definition copy_ranges (fuel : nat) w (c : chunking) (rank fd_src fd_dst : Z) : lres (W * Z) :=
  let '(offset, len) := main_range c rank in
  let! '(w, ret) := do_transfer_data fuel w fd_src fd_dst (off_t_of offset) len in
  if negb (ret =? 0) then LRet (w, ret)
  else
    let! '(w, ret) :=
      if negb (ck_remainder c =? 0) && (rank <? ck_remainder c) then
        let '(offset, len) := remainder_range c rank in do_transfer_data fuel w fd_src fd_dst (off_t_of offset) len
      else LRet (w, ret) in
    let! '(w, _) := w_fsync w fd_dst in
    LRet (w, ret).

(** [rank] of [ranks]: the globals [client_rank] and [global_rank_cnt]. *)
Definition transfer_file_parallel (fuel : nat) w (rank ranks : Z) (src dst : string) (sb_src : stat) : lres (W * Z) :=
  let c := chunking_of (u64 (st_size sb_src)) ranks in
  if ck_total c <=? ranks then
    if rank =? 0 then transfer_file_serial fuel w src dst sb_src else LRet (w, UNIFYFS_SUCCESS)
  else with_files w src dst (fun w fd_src fd_dst => copy_ranges fuel w c rank fd_src fd_dst).

(** A copy of the string. *)
Definition dup_string {A} w (s : string) (enomem : W -> A) (k : W -> string -> A) : A :=
  let '(w, ok) := w_malloc w in if ok then k w s else enomem w.

(** The destination path: in a directory, the name of the source is added. *)
Definition destination {A} w (src_path dst : string) (enomem : W -> lres A) (k : W -> string -> bool -> lres A) : lres A :=
  match w_intercept w dst with
  | Some dst_upath => dup_string w dst_upath enomem (fun w dst_path => k w dst_path true)
  | None =>
      let! '(w, (rc, _, sb_dst)) := w_stat w dst in
      if (rc =? 0) && S_ISDIR (st_mode sb_dst) then
        let '(w, ok) := w_malloc w in
        if ok then k w (String.append dst (String.append "/" (basename src_path))) false else LFault
      else dup_string w dst enomem (fun w dst_path => k w dst_path false)
  end.

Definition unifyfs_transfer_file (fuel : nat) w (rank ranks : Z) (src dst : string) (mode : Z) : lres (W * Z) :=
  let unify_src := match w_intercept w src with Some _ => true | None => false end in
  let src_path := default src (w_intercept w src) in
  let no_memory w := LRet (w, - ENOMEM) in
  dup_string w src_path no_memory (fun w src_path =>
    let! '(w, (rc, err, sb_src)) := w_stat w src_path in
    if rc <? 0 then LRet (w, - err)
    else
      destination w src_path dst no_memory (fun w dst_path unify_dst =>
        if unify_src && unify_dst then LRet (w, - EINVAL)
        else
          let! '(w, created) :=
            if (mode =? UNIFYFS_TRANSFER_SERIAL) || (rank =? 0) then
              let! '(w, (fd, err)) := w_open w dst_path (Z.lor O_CREAT (Z.lor O_WRONLY O_TRUNC))
                (if unify_src then 416 else st_mode sb_src) in               (* 0640 *)
              if fd <? 0 then LRet (w, inl err)
              else let! '(w, _) := w_close w fd in LRet (w, inr ())
            else LRet (w, inr ()) in
          match created with
          | inl err => LRet (w, - err)
          | inr _ =>
              let! '(w, rc) :=
                if mode =? UNIFYFS_TRANSFER_PARALLEL then transfer_file_parallel fuel w rank ranks src_path dst_path sb_src
                else transfer_file_serial fuel w src_path dst_path sb_src in
              if negb (rc =? UNIFYFS_SUCCESS) then LRet (w, - unifyfs_rc_errno rc)
              else if unify_dst then
                let! '(w, _) := w_chmod w dst_path (Z.land (st_mode sb_src) (Z.lnot 146)) in LRet (w, 0)   (* 0222 *)
              else LRet (w, 0)
          end)).

End Transfer.

(** ** The wrapped calls of the client *)

(** The calls of the operating system for files outside of UnifyFS: what they
    return, and [errno]. *)
Class RealFs (R : Type) := {
  r_open : R -> string -> Z -> Z -> R * (Z * Z);
  r_close : R -> Z -> R * (Z * Z);
  r_lseek : R -> Z -> Z -> Z -> R * (Z * Z);
  r_read : R -> Z -> (Z -> Z) -> Z -> R * (Z * (Z -> Z) * Z);
  r_write : R -> Z -> list Z -> R * (Z * Z);
  r_fsync : R -> Z -> R * (Z * Z);
  r_stat : R -> string -> R * (Z * option stat * Z);
  r_chmod : R -> string -> Z -> R * (Z * Z);
}.

Definition zero_stat : stat := Stat 0 0 0 0 0 0 0 0 0 0 (Timespec 0 0) (Timespec 0 0) (Timespec 0 0).

Section Wrapped.
Context {S R : Type} `{!ServerRpc S, !RealFs R} (env : client_env) (spath_reduce : string -> string).
Context (pwrite : Z -> list Z -> io_result) (pread : Z -> Z -> io_result) (fsync_err : option Z).
Context (other_log : Z -> option logio_context) (node_extents_rpc : S -> list unifyfs_extent_t -> Z + list client_index).
Context (mread_rpc : S -> client_reads -> Z -> list unifyfs_extent_t -> lres (S * client_reads * Z)).
Context (qsort : list read_req -> list read_req) (rpc_laminate : S -> Z -> S * Z).

Local Abbreviation files := (client_fid_layer env pwrite pread fsync_err other_log node_extents_rpc mread_rpc qsort).

(** A call is ours, or the system makes it. *)
Definition wrap {A} (w : posix (client_files S) * R) (c : posix (client_files S) -> call (posix (client_files S) * A))
    (real : R -> R * (A * Z)) : lres (posix (client_files S) * R * (A * Z)) :=
  match c (px_set_errno 0 (fst w)) with
  | Ours r => let! '(px, a) := r in LRet ((px, snd w), (a, px_errno px))
  | System => let '(r, (a, err)) := real (snd w) in LRet ((fst w, r), (a, err))
  end.

Definition client_wrap : WrapOps (posix (client_files S) * R) := {|
  w_malloc w :=
    let '(p, m) := calloc (px_mem (fst w)) in ((px_set_mem m (fst w), snd w), match p with Some _ => true | None => false end);
  w_intercept w path := unifyfs_intercept_path spath_reduce (fst w) path;
  w_open w path flags mode := wrap w (fun px => @open _ files spath_reduce px path flags mode) (fun r => r_open r path flags mode);
  w_close w fd := wrap w (fun px => @close _ files px fd) (fun r => r_close r fd);
  w_lseek w fd off whence := wrap w (fun px => @lseek _ files px fd off whence) (fun r => r_lseek r fd off whence);
  w_read w fd buf len :=
    let! '(w, (n, buf, err)) := wrap w (fun px => @read _ files px fd buf len) (fun r => r_read r fd buf len) in
    LRet (w, (n, err, buf));
  w_write w fd data := wrap w (fun px => @write _ files px fd data) (fun r => r_write r fd data);
  w_fsync w fd := wrap w (fun px => @fsync _ files px fd) (fun r => r_fsync r fd);
  w_stat w path :=
    let! '(w, (rc, sb, err)) := wrap w (fun px => stat_path env spath_reduce px path true) (fun r => r_stat r path) in
    LRet (w, (rc, err, default zero_stat sb));
  w_chmod w path mode := wrap w (fun px => chmod env spath_reduce rpc_laminate px path mode) (fun r => r_chmod r path mode);
|}.

End Wrapped.
