(* ===== verification/TransferProps.v ===== *)
(** * Correctness of the copy of a file

    A range is copied whatever the sizes of the reads are, as long as a write
    is not short; the ranges of the processes cover the file, so that the
    destination is the source once all of them succeeded, in any order. *)

From Stdlib Require Import String.
From S2P Require Import Prelude.
From S2P Require Import LogIO.
From S2P Require Import Meta.
From S2P Require Import Inode.
From S2P Require Import Client.
From S2P Require Import ClientRead.
From S2P Require Import PosixClient.
From S2P Require Import SysIO.
From S2P Require Import PathOps.
From S2P Require Import FileSpec.
From S2P Require Import FdProps.
From S2P Require Import Transfer.

(** ** The contract of the calls *)

(** [pair_ok w fd_src fd_dst src ps dst pd]: two open files, of which the first
    has the contents [src] and the position [ps], and the second [dst] and
    [pd].  A read returns some of the bytes at the position, and none only at
    the end; a write writes all its bytes or fails. *)
Class WrapSpec (W : Type) `{!WrapOps W} := {
  pair_ok : W -> Z -> Z -> list Z -> Z -> list Z -> Z -> Prop;
  ws_malloc w fs fd src ps dst pd : pair_ok w fs fd src ps dst pd -> pair_ok (fst (w_malloc w)) fs fd src ps dst pd;
  ws_seek_src w fs fd src ps dst pd off :
    pair_ok w fs fd src ps dst pd -> 0 <= off <= unifyfs_max_offt ->
    exists w' r err, w_lseek w fs off SEEK_SET = LRet (w', (r, err)) /\
      (r = -1 /\ err <> 0 /\ pair_ok w' fs fd src ps dst pd \/ r = off /\ pair_ok w' fs fd src off dst pd);
  ws_seek_dst w fs fd src ps dst pd off :
    pair_ok w fs fd src ps dst pd -> 0 <= off <= unifyfs_max_offt ->
    exists w' r err, w_lseek w fd off SEEK_SET = LRet (w', (r, err)) /\
      (r = -1 /\ err <> 0 /\ pair_ok w' fs fd src ps dst pd \/ r = off /\ pair_ok w' fs fd src ps dst off);
  ws_read w fs fd src ps dst pd buf len :
    pair_ok w fs fd src ps dst pd -> 0 < len ->
    exists w' n err buf', w_read w fs buf len = LRet (w', (n, err, buf')) /\
      (n < 0 /\ err <> 0 /\ pair_ok w' fs fd src ps dst pd \/
       0 <= n <= avail src ps len /\ (n = 0 -> avail src ps len = 0) /\ (forall k, 0 <= k < n -> buf' k = byte src (ps + k)) /\
       pair_ok w' fs fd src (ps + n) dst pd);
  ws_write w fs fd src ps dst pd data :
    pair_ok w fs fd src ps dst pd -> data <> [] ->
    exists w' n err, w_write w fd data = LRet (w', (n, err)) /\
      (n < 0 /\ err <> 0 /\ pair_ok w' fs fd src ps dst pd \/
       n = zlen data /\ pair_ok w' fs fd src ps (splice dst pd data) (pd + zlen data));
  ws_fsync w fs fd src ps dst pd :
    pair_ok w fs fd src ps dst pd -> exists w' r, w_fsync w fd = LRet (w', r) /\ pair_ok w' fs fd src ps dst pd;
}.

(** The destination after [m] bytes from [off] on were copied. *)
Definition copied (src dst : list Z) (off m : Z) : list Z := splice dst off (slice src off m).

(** The bytes of the source behind [off]. *)
Definition rest (src : list Z) (off : Z) : Z := Z.max 0 (zlen src - off).

Lemma slice_plus src off p n : 0 <= p -> 0 <= n -> p + n <= rest src off -> slice src off (p + n) = slice src off p ++ slice src (off + p) n.
Proof.
  intros Hp Hn Hr. unfold slice. assert (avail src off (p + n) = p + n) as -> by (unfold avail, rest in *; lia).
  assert (avail src off p = p) as -> by (unfold avail, rest in *; lia).
  assert (avail src (off + p) n = n) as -> by (unfold avail, rest in *; lia). rewrite -fmap_app -seqZ_app //.
Qed.

Lemma slice_zlen src off m : 0 <= m <= rest src off -> zlen (slice src off m) = m.
Proof. intros Hm. rewrite slice_length. unfold avail, rest in *. lia. Qed.

(** One more piece of the copy. *)
Lemma copied_plus src dst off p n :
  0 <= off -> 0 <= p -> 0 <= n -> p + n <= rest src off ->
  splice (copied src dst off p) (off + p) (slice src (off + p) n) = copied src dst off (p + n).
Proof.
  intros Ho Hp Hn Hr. unfold copied. rewrite slice_plus // -splice_app //. by rewrite slice_zlen; [unfold rest in *; lia|].
Qed.

Section Copy.
Context {W : Type} `{!WrapOps W, !WrapSpec W} (junk : Z -> Z).
Implicit Types (w : W) (src dst : list Z).

(** ** One range *)

(** The outcome of a copy: some bytes arrived, and all of them when it
    succeeded. *)
Definition copy_outcome w (fs fd : Z) src dst (off count ret : Z) : Prop :=
  exists m ps pd, 0 <= m <= rest src off /\ pair_ok w fs fd src ps (copied src dst off m) pd /\
    (ret = UNIFYFS_SUCCESS -> Z.min count (rest src off) <= m).

Lemma read_bytes (buf : Z -> Z) src p n :
  0 <= n <= rest src p -> (forall k, 0 <= k < n -> buf k = byte src (p + k)) -> region_read buf 0 n = slice src p n.
Proof.
  intros Hn H. unfold region_read, slice. assert (avail src p n = n) as -> by (unfold avail, rest in *; lia).
  rewrite -{1}(Z.add_0_r p) -fmap_add_seqZ -list_fmap_compose. apply list_fmap_ext. intros i x Hx%lookup_seqZ. destruct Hx as [-> Hi].
  apply H. lia.
Qed.

(** The bytes that were read are written at once. *)
Lemma write_back_spec fuel w fs fd src dst off p n (buf : Z -> Z) :
  pair_ok w fs fd src (off + p + n) (copied src dst off p) (off + p) -> 0 <= off -> 0 <= p -> 0 < n -> p + n <= rest src off ->
  region_read buf 0 n = slice src (off + p) n ->
  exists w' r, write_back (S fuel) w fd buf n p = LRet (w', r) /\
    match r with
    | inl err => err <> UNIFYFS_SUCCESS /\ pair_ok w' fs fd src (off + p + n) (copied src dst off p) (off + p)
    | inr p' => p' = p + n /\ pair_ok w' fs fd src (off + p') (copied src dst off p') (off + p')
    end.
Proof.
  intros Hw Ho Hp Hn Hr Hbuf. cbn [write_back]. rewrite Hbuf.
  assert (zlen (slice src (off + p) n) = n) as Hl by (apply slice_zlen; unfold rest in *; lia).
  destruct (ws_write _ _ _ _ _ _ _ (slice src (off + p) n) Hw) as (w' & k & err & -> & Hres).
  { intros Heq. rewrite Heq in Hl. cbn in Hl. lia. }
  cbn [lbind]. destruct Hres as [(Hk & He & Hw')|(-> & Hw')].
  - rewrite (proj2 (Z.ltb_lt _ _)) //. by exists w', (inl err).
  - rewrite Hl in Hw' |- *. rewrite (proj2 (Z.ltb_ge _ _)); [lia|]. rewrite (proj2 (Z.eqb_neq n 0)); [lia|]. cbn [andb]. rewrite Z.sub_diag.
    cbn. exists w', (inr (p + n)). split; [done|]. split; [done|]. rewrite copied_plus // in Hw'; [lia|]. by rewrite !Z.add_assoc.
Qed.

Lemma copy_loop_spec fuel w fs fd src dst off count len p (buf : Z -> Z) :
  pair_ok w fs fd src (off + p) (copied src dst off p) (off + p) -> 0 <= off -> 0 <= p <= rest src off -> 0 < len ->
  (Z.to_nat (count - p) + 1 < fuel)%nat ->
  exists w' ret, copy_loop fuel w fs fd count len p buf = LRet (w', ret) /\ copy_outcome w' fs fd src dst off count ret.
Proof.
  revert w p len buf. induction fuel as [|fuel IH]; intros w p len buf Hw Ho Hp Hlen Hfuel; [lia|]. cbn [copy_loop].
  destruct (count >? p) eqn:Hc.
  2:{ eexists _, _. split; [done|]. exists p, (off + p), (off + p). split_and!; try done; try lia. }
  apply Z.gtb_lt in Hc. cbv zeta. set (len' := if len >? count then count else len).
  assert (0 < len') as Hlen' by (unfold len'; destruct (len >? count) eqn:E; [lia|done]).
  destruct (ws_read _ _ _ _ _ _ _ buf len' Hw Hlen') as (w1 & n & err & buf1 & -> & Hres). cbn [lbind].
  destruct Hres as [(Hn & He & Hw1)|(Hn & Hz & Hdata & Hw1)].
  { rewrite (proj2 (Z.eqb_neq n 0)); [lia|]. rewrite (proj2 (Z.ltb_lt n 0)) //. eexists _, _. split; [done|].
    exists p, (off + p), (off + p). split_and!; try done; lia. }
  destruct (n =? 0) eqn:Hn0; zbool.
  { eexists _, _. split; [done|]. exists p, (off + p + n), (off + p). split_and!; try done; try lia. intros _.
    specialize (Hz Hn0). unfold avail, rest in *. lia. }
  rewrite (proj2 (Z.ltb_ge n 0)); [lia|]. destruct fuel as [|fuel]; [lia|].
  assert (p + n <= rest src off) as Hpn by (unfold avail, rest in *; lia).
  destruct (write_back_spec fuel w1 fs fd src dst off p n buf1) as (w2 & r & -> & Hr); [done|done|lia|lia|done| |].
  { apply read_bytes; [unfold rest in *; lia|done]. }
  cbn [lbind]. destruct r as [err2|p'].
  - destruct Hr as [He2 Hw2]. eexists _, _. split; [done|]. exists p, (off + p + n), (off + p). split_and!; try done; lia.
  - destruct Hr as [-> Hw2]. apply IH; try done; lia.
Qed.

(** A range is copied: when a write is not short, the copy of [count] bytes
    from [offset] on returns, however many bytes a single read returns. *)
Lemma do_transfer_data_spec fuel w fs fd src dst ps pd offset count :
  pair_ok w fs fd src ps dst pd -> 0 <= offset <= unifyfs_max_offt -> 0 <= count -> (Z.to_nat count + 1 < fuel)%nat ->
  exists w' ret, do_transfer_data junk fuel w fs fd offset count = LRet (w', ret) /\ copy_outcome w' fs fd src dst offset count ret.
Proof.
  intros Hw Ho Hc Hfuel. unfold do_transfer_data. pose proof (ws_malloc _ _ _ _ _ _ _ Hw) as Hw0. destruct (w_malloc w) as [w0 ok].
  cbn in Hw0. assert (forall w' ps pd ret, ret <> UNIFYFS_SUCCESS -> pair_ok w' fs fd src ps dst pd -> copy_outcome w' fs fd src dst offset count ret) as Hfail.
  { intros w' ps' pd' ret Hret Hw'. exists 0, ps', pd'. split; [unfold rest; lia|]. split; [|done]. unfold copied, slice.
    assert (avail src offset 0 = 0) as -> by (unfold avail; lia). done. }
  destruct ok; cbn [negb]; [|by eexists _, _; split; [done|eapply Hfail]].
  destruct (ws_seek_src _ _ _ _ _ _ _ offset Hw0 Ho) as (w1 & r1 & e1 & -> & Hres1). cbn [lbind].
  destruct Hres1 as [(-> & He1 & Hw1)|(-> & Hw1)]; [by eexists _, _; split; [done|eapply Hfail]|].
  rewrite (proj2 (Z.eqb_neq offset (-1))); [lia|].
  destruct (ws_seek_dst _ _ _ _ _ _ _ offset Hw1 Ho) as (w2 & r2 & e2 & -> & Hres2). cbn [lbind].
  destruct Hres2 as [(-> & He2 & Hw2)|(-> & Hw2)]; [by eexists _, _; split; [done|eapply Hfail]|].
  rewrite (proj2 (Z.eqb_neq offset (-1))); [lia|]. apply copy_loop_spec; try done; try lia.
  - unfold copied, slice. assert (avail src offset 0 = 0) as -> by (unfold avail; lia). cbn. by rewrite Z.add_0_r.
  - unfold rest. lia.
Qed.

End Copy.

(** ** The ranges of the processes *)

(** The ranges of a process, as [transfer_file_parallel] copies them when
    there are more pieces than processes. *)
Definition rank_ranges (size ranks rank : Z) : list (Z * Z) :=
  let c := chunking_of size ranks in
  main_range c rank :: (if negb (ck_remainder c =? 0) && (rank <? ck_remainder c) then [remainder_range c rank] else []).

Lemma chunking_bounds size ranks :
  0 <= size <= unifyfs_max_offt -> 0 < ranks ->
  let c := chunking_of size ranks in
  ck_total c = ck_per_rank c * ranks + ck_remainder c /\ 0 <= ck_remainder c < ranks /\ 0 <= ck_per_rank c /\
  ck_last c = size mod UNIFYFS_TRANSFER_BUF_SIZE /\
  (ck_total c * UNIFYFS_TRANSFER_BUF_SIZE = size /\ ck_last c = 0 \/
   (ck_total c - 1) * UNIFYFS_TRANSFER_BUF_SIZE + ck_last c = size /\ 0 < ck_last c < UNIFYFS_TRANSFER_BUF_SIZE).
Proof.
  intros Hs Hr c. subst c. unfold chunking_of. cbn [ck_total ck_per_rank ck_remainder ck_last].
  pose proof (Z.div_mod size UNIFYFS_TRANSFER_BUF_SIZE ltac:(done)) as Hd. pose proof (Z.mod_pos_bound size UNIFYFS_TRANSFER_BUF_SIZE ltac:(done)) as Hm.
  assert (0 <= size / UNIFYFS_TRANSFER_BUF_SIZE <= size) as Hq.
  { split; [apply Z.div_pos; [lia|done]|]. apply Z.div_le_upper_bound; [done|]. unfold UNIFYFS_TRANSFER_BUF_SIZE. lia. }
  set (total := if negb _ then _ else _). assert (0 <= total) as Ht.
  { unfold total. destruct (negb _); [|lia]. rewrite u64_small; unfold is_u64, ULONG_MAX, unifyfs_max_offt in *; lia. }
  pose proof (Z.div_mod total ranks ltac:(lia)). pose proof (Z.mod_pos_bound total ranks ltac:(lia)).
  pose proof (Z.div_pos total ranks Ht ltac:(lia)). split_and!; try lia. unfold total.
  destruct (size mod UNIFYFS_TRANSFER_BUF_SIZE =? 0) eqn:E; cbn [negb]; zbool; [left; lia|right].
  rewrite u64_small; unfold is_u64, ULONG_MAX, unifyfs_max_offt in *; lia.
Qed.

Lemma rank_main size ranks rank :
  0 <= size <= unifyfs_max_offt -> 0 < ranks -> 0 <= rank < ranks ->
  let c := chunking_of size ranks in
  main_range c rank = (ck_per_rank c * rank * UNIFYFS_TRANSFER_BUF_SIZE, ck_per_rank c * UNIFYFS_TRANSFER_BUF_SIZE).
Proof.
  intros Hs Hr Hk c. destruct (chunking_bounds size ranks Hs Hr) as (H1 & H2 & H3 & _ & H4). fold c in H1, H2, H3, H4. unfold main_range.
  assert (0 < UNIFYFS_TRANSFER_BUF_SIZE) as HB by done.
  assert (ck_total c * UNIFYFS_TRANSFER_BUF_SIZE < size + UNIFYFS_TRANSFER_BUF_SIZE) as Hb by (destruct H4 as [[? _]|[? ?]]; lia).
  assert (ck_per_rank c * rank <= ck_total c) as Hq by nia. assert (ck_per_rank c <= ck_total c) as Hq2 by nia.
  assert (0 <= ck_per_rank c * rank) by nia.
  rewrite !u64_small; try done; unfold is_u64, ULONG_MAX, unifyfs_max_offt, UNIFYFS_TRANSFER_BUF_SIZE in *; lia.
Qed.

Lemma rank_remainder size ranks rank :
  0 <= size <= unifyfs_max_offt -> 0 < ranks -> 0 <= rank < ck_remainder (chunking_of size ranks) ->
  let c := chunking_of size ranks in
  fst (remainder_range c rank) = (ck_per_rank c * ranks + rank) * UNIFYFS_TRANSFER_BUF_SIZE /\
  Z.min UNIFYFS_TRANSFER_BUF_SIZE (size - (ck_per_rank c * ranks + rank) * UNIFYFS_TRANSFER_BUF_SIZE) <= snd (remainder_range c rank).
Proof.
  intros Hs Hr Hk c. destruct (chunking_bounds size ranks Hs Hr) as (H1 & H2 & H3 & H4 & H5). fold c in Hk, H1, H2, H3, H4, H5.
  unfold remainder_range. cbn [fst snd].
  assert (0 < UNIFYFS_TRANSFER_BUF_SIZE) as HB by done.
  assert (ck_total c * UNIFYFS_TRANSFER_BUF_SIZE < size + UNIFYFS_TRANSFER_BUF_SIZE) as Hb by (destruct H5 as [[? _]|[? ?]]; lia).
  set (t := ck_per_rank c * ranks) in *. assert (0 <= t) as Ht by (unfold t; nia).
  assert (ck_total c <= size + 1) as Htot by nia.
  assert (ck_total c ⊟ ck_remainder c ⊞ rank = t + rank) as ->.
  { rewrite (u64_small (_ - _)); [unfold is_u64, ULONG_MAX, unifyfs_max_offt in *; lia|].
    rewrite u64_small; [unfold is_u64, ULONG_MAX, unifyfs_max_offt in *; lia|lia]. }
  assert ((t + rank) * UNIFYFS_TRANSFER_BUF_SIZE <= size) as Hlast by nia.
  split; [rewrite u64_small; [unfold is_u64, ULONG_MAX, unifyfs_max_offt in *; nia|done]|].
  destruct (negb _ && _) eqn:E; [|lia]. apply andb_true_iff in E as [E0%negb_true_iff E]. zbool.
  destruct H5 as [[_ ?]|[? ?]]; [done|]. replace (t + rank) with (ck_total c - 1); lia.
Qed.

(** Every byte is in one of the ranges. *)
Lemma ranges_cover size ranks x :
  0 <= size <= unifyfs_max_offt -> 0 < ranks -> 0 <= x < size ->
  exists rank off len, 0 <= rank < ranks /\ (off, len) ∈ rank_ranges size ranks rank /\ 0 <= off <= x /\ x < off + Z.min len (size - off).
Proof.
  intros Hs Hr Hx. set (c := chunking_of size ranks). destruct (chunking_bounds size ranks Hs Hr) as (H1 & H2 & H3 & H4 & H5).
  fold c in H1, H2, H3, H4, H5. set (B := UNIFYFS_TRANSFER_BUF_SIZE) in *. assert (0 < B) as HB by done. set (q := x / B).
  pose proof (Z.div_mod x B ltac:(lia)) as Hdm. pose proof (Z.mod_pos_bound x B HB) as Hmb. fold q in Hdm.
  assert (0 <= q) as Hq0 by (apply Z.div_pos; lia).
  assert (q < ck_total c) as Hq by (destruct H5 as [[? ?]|[? ?]]; nia).
  destruct (decide (q < ck_per_rank c * ranks)) as [Hlt|Hge].
  - assert (0 < ck_per_rank c) as Hpr by nia. set (rank := q / ck_per_rank c).
    pose proof (Z.div_mod q (ck_per_rank c) ltac:(lia)) as Hdm2. pose proof (Z.mod_pos_bound q (ck_per_rank c) Hpr) as Hmb2. fold rank in Hdm2.
    assert (0 <= rank) by (apply Z.div_pos; lia). assert (rank < ranks) by nia.
    exists rank, (ck_per_rank c * rank * B), (ck_per_rank c * B). split; [lia|]. split; [|nia].
    unfold rank_ranges. fold c. unfold c at 1. rewrite (rank_main size ranks rank) //. left.
  - assert (0 <= q - ck_per_rank c * ranks < ck_remainder c) as Hk by lia.
    destruct (rank_remainder size ranks (q - ck_per_rank c * ranks) Hs Hr Hk) as [Ho Hl]. fold c B in Ho, Hl.
    exists (q - ck_per_rank c * ranks), (fst (remainder_range c (q - ck_per_rank c * ranks))), (snd (remainder_range c (q - ck_per_rank c * ranks))).
    split; [lia|]. split; [|rewrite Ho; nia]. unfold rank_ranges. fold c. rewrite (proj2 (Z.eqb_neq _ 0)); [lia|].
    rewrite (proj2 (Z.ltb_lt _ _)); [lia|]. cbn [negb andb]. destruct (remainder_range c _) as [o l]. right. left.
Qed.

Lemma ranges_nonneg size ranks rank off len :
  0 <= size <= unifyfs_max_offt -> 0 < ranks -> 0 <= rank < ranks -> (off, len) ∈ rank_ranges size ranks rank ->
  0 <= off <= size /\ 0 <= len < size + UNIFYFS_TRANSFER_BUF_SIZE.
Proof.
  intros Hs Hr Hk. destruct (chunking_bounds size ranks Hs Hr) as (H1 & H2 & H3 & H4 & H5). unfold rank_ranges. rewrite rank_main //.
  set (B := UNIFYFS_TRANSFER_BUF_SIZE) in *. assert (0 < B) as HB by done. pose proof (rank_remainder size ranks rank Hs Hr) as Hrem.
  set (c := chunking_of size ranks) in *. fold B in Hrem.
  assert ((ck_total c - 1) * B <= size /\ ck_total c * B < size + B) as [Ht1 Ht2] by (destruct H5 as [[? ?]|[? ?]]; lia).
  intros [Heq|Hin]%elem_of_cons.
  { apply pair_equal_spec in Heq as [-> ->]. assert (ck_per_rank c * rank <= ck_total c - ck_per_rank c) as Hp by nia.
    destruct (decide (ck_per_rank c = 0)) as [Hz|]; [rewrite Hz; lia|]. nia. }
  destruct (negb _ && _) eqn:E; [|by apply not_elem_of_nil in Hin]. apply list_elem_of_singleton in Hin.
  apply andb_true_iff in E as [_ E]. zbool. destruct (Hrem ltac:(lia)) as [Ho _]. rewrite -Hin in Ho. cbn [fst] in Ho. split.
  - rewrite Ho. assert (ck_per_rank c * ranks + rank <= ck_total c - 1) by lia. assert (0 <= ck_per_rank c * ranks) by nia. nia.
  - unfold remainder_range in Hin. apply pair_equal_spec in Hin as [_ ->]. fold B. destruct (negb _ && _); [|nia].
    rewrite H4. pose proof (Z.mod_pos_bound size B HB). lia.
Qed.

(** ** The file *)

(** What one process did: the ranges that it copied, with the number of bytes
    of each. *)
Definition rank_done (src : list Z) (ranges : list (Z * Z)) (rs : list (Z * Z)) : Prop :=
  Forall2 (fun '(off, len) '(off', m) => off' = off /\ Z.min len (rest src off) <= m <= rest src off) ranges rs.

Definition copy_all (src dst : list Z) (rs : list (Z * Z)) : list Z := foldl (fun dst '(off, m) => copied src dst off m) dst rs.

Lemma copied_byte src dst off m x :
  0 <= off -> 0 <= m <= rest src off ->
  byte (copied src dst off m) x = if (off <=? x) && (x <? off + m) then byte src x else byte dst x.
Proof.
  intros Ho Hm. unfold copied. rewrite splice_byte // slice_zlen //. destruct (_ && _) eqn:E; [|done]. zbool.
  unfold slice. assert (avail src off m = m) as -> by (unfold avail, rest in *; lia). unfold byte at 1.
  rewrite (proj2 (Z.ltb_ge _ _)); [lia|]. rewrite list_lookup_fmap lookup_seqZ_lt; [lia|]. cbn. f_equal. lia.
Qed.

Lemma copied_zlen src dst off m :
  0 <= off -> 0 <= m <= rest src off -> zlen dst <= zlen (copied src dst off m) <= Z.max (zlen dst) (zlen src) /\
  (0 < m -> off + m <= zlen (copied src dst off m)).
Proof.
  intros Ho Hm. unfold copied. destruct (decide (slice src off m = [])) as [He|Hne].
  - rewrite He. pose proof (slice_zlen src off m Hm) as Hl. rewrite He in Hl. cbn in *. lia.
  - assert (m <> 0) as Hm0.
    { intros ->. apply Hne. unfold slice. by assert (avail src off 0 = 0) as -> by (unfold avail; lia). }
    rewrite splice_length // slice_zlen //. unfold rest in *. lia.
Qed.

(** Copies never undo one another. *)
Lemma copy_all_spec src rs dst :
  Forall (fun '(off, m) => 0 <= off /\ 0 <= m <= rest src off) rs -> zlen dst <= zlen src ->
  zlen dst <= zlen (copy_all src dst rs) <= zlen src /\
  forall x, (x < zlen (copy_all src dst rs) -> (byte (copy_all src dst rs) x = byte src x \/ byte (copy_all src dst rs) x = byte dst x)) /\
    ((exists off m, (off, m) ∈ rs /\ off <= x < off + m) -> x < zlen (copy_all src dst rs) /\ byte (copy_all src dst rs) x = byte src x) /\
    (byte dst x = byte src x -> byte (copy_all src dst rs) x = byte src x).
Proof.
  revert dst. induction rs as [|[off m] rs IH]; intros dst Hall Hdst; cbn [copy_all foldl].
  { split; [lia|]. intros x. split_and!; [by right| |done]. intros (? & ? & []%not_elem_of_nil & _). }
  apply Forall_cons in Hall as [[Ho Hm] Hall]. destruct (copied_zlen src dst off m Ho Hm) as [Hz1 Hz2].
  destruct (IH (copied src dst off m) Hall ltac:(lia)) as [Hlen Hx]. fold (copy_all src (copied src dst off m) rs). split; [lia|].
  intros x. destruct (Hx x) as (Ha & Hb & Hc). pose proof (copied_byte src dst off m x Ho Hm) as Hcb. split_and!.
  - intros Hlt. destruct (Ha Hlt) as [?|He]; [by left|]. rewrite He Hcb. destruct (_ && _); [by left|by right].
  - intros (off' & m' & Hin & Hr). apply elem_of_cons in Hin as [[= -> ->]|Hin]; [|apply Hb; by exists off', m'].
    split; [lia|]. apply Hc. rewrite Hcb. by rewrite (proj2 (Z.leb_le _ _)) ?(proj2 (Z.ltb_lt _ _)); [lia|lia|].
  - intros He. apply Hc. rewrite Hcb. by destruct (_ && _).
Qed.

(** C32. All processes together copy the whole file: when every process copied
    its ranges, in whatever order the copies happened, and the destination was
    empty or at least not longer than the source, the destination is the source
    in the end.  The ranges are those that [transfer_file_parallel] computes
    from the size of the file and the number of processes. *)
Theorem parallel_transfer_complete (src dst : list Z) (ranks : Z) (done_by : Z -> list (Z * Z)) (rs : list (Z * Z)) :
  zlen src <= unifyfs_max_offt -> 0 < ranks -> zlen dst <= zlen src ->
  (forall rank, 0 <= rank < ranks -> rank_done src (rank_ranges (zlen src) ranks rank) (done_by rank)) ->
  Permutation rs (seqZ 0 ranks ≫= done_by) ->
  copy_all src dst rs = src.
Proof.
  intros Hsrc Hr Hdst Hdone Hrs. assert (0 <= zlen src <= unifyfs_max_offt) as Hsize by lia.
  assert (Forall (fun '(off, m) => 0 <= off /\ 0 <= m <= rest src off) rs) as Hall.
  { rewrite Hrs. apply Forall_forall. intros [off m] (rank & Hin & Hk%elem_of_seqZ)%list_elem_of_bind.
    pose proof (Hdone rank ltac:(lia)) as Hd. apply list_elem_of_lookup in Hin as [i Hi].
    destruct (Forall2_lookup_r _ _ _ _ _ Hd Hi) as ([off' len] & Hi' & -> & Hm & Hm2).
    destruct (ranges_nonneg (zlen src) ranks rank off' len Hsize Hr ltac:(lia)) as [? ?]; [by eapply list_elem_of_lookup_2|].
    unfold rest in *. lia. }
  destruct (copy_all_spec src rs dst Hall Hdst) as [Hlen Hx].
  assert (forall x, 0 <= x < zlen src -> x < zlen (copy_all src dst rs) /\ byte (copy_all src dst rs) x = byte src x) as Hcov.
  { intros x Hx0. apply Hx. destruct (ranges_cover (zlen src) ranks x Hsize Hr Hx0) as (rank & off & len & Hk & Hin & Ho & Hl).
    pose proof (Hdone rank Hk) as Hd. apply list_elem_of_lookup in Hin as [i Hi].
    destruct (Forall2_lookup_l _ _ _ _ _ Hd Hi) as ([off' m] & Hi' & -> & Hm & Hm2). exists off, m. split; [|unfold rest in *; lia].
    rewrite Hrs. apply list_elem_of_bind. exists rank. split; [by eapply list_elem_of_lookup_2|]. apply elem_of_seqZ. lia. }
  apply byte_ext.
  - destruct (decide (zlen src = 0)) as [Hz|Hz]; [lia|]. destruct (Hcov (zlen src - 1) ltac:(lia)) as [? _]. lia.
  - intros x Hx0. apply Hcov. lia.
Qed.

(** ** One process *)

Section Process.
Context {W : Type} `{!WrapOps W, !WrapSpec W} (junk : Z -> Z).
Implicit Types (w : W) (src dst : list Z).

(** One of the ranges, with the conversion of its offset. *)
Lemma range_spec fuel w fs fd src dst ps pd ranks rank off len :
  pair_ok w fs fd src ps dst pd -> zlen src <= unifyfs_max_offt -> 0 < ranks -> 0 <= rank < ranks ->
  (off, len) ∈ rank_ranges (zlen src) ranks rank -> zlen src + UNIFYFS_TRANSFER_BUF_SIZE + 1 < Z.of_nat fuel ->
  exists w' ret, do_transfer_data junk fuel w fs fd (off_t_of off) len = LRet (w', ret) /\ copy_outcome w' fs fd src dst off len ret.
Proof.
  intros Hw Hsrc Hr Hk Hin Hfuel. destruct (ranges_nonneg (zlen src) ranks rank off len ltac:(lia) Hr Hk Hin) as [Ho Hl].
  rewrite off_t_of_small; [lia|]. eapply do_transfer_data_spec; [done|lia|lia|lia].
Qed.

(** C31. The part of one process in a parallel transfer: when a write is not
    short, its copies return, however many bytes a single read returns.  The
    destination has then got bytes of the source from the starts of its ranges
    on, each at its place, and is as before elsewhere; when the process reports
    success, they are all bytes of its ranges. *)
Theorem transfer_rank_correct fuel w fs fd src dst ps pd ranks rank :
  pair_ok w fs fd src ps dst pd -> zlen src <= unifyfs_max_offt -> 0 < ranks -> 0 <= rank < ranks ->
  zlen src + UNIFYFS_TRANSFER_BUF_SIZE + 1 < Z.of_nat fuel ->
  exists w' ret rs ps' pd', copy_ranges junk fuel w (chunking_of (zlen src) ranks) rank fs fd = LRet (w', ret) /\
    pair_ok w' fs fd src ps' (copy_all src dst rs) pd' /\
    Forall (fun '(off, m) => off ∈ (rank_ranges (zlen src) ranks rank).*1 /\ 0 <= m <= rest src off) rs /\
    (ret = UNIFYFS_SUCCESS -> rank_done src (rank_ranges (zlen src) ranks rank) rs).
Proof.
  intros Hw Hsrc Hr Hk Hfuel. unfold copy_ranges. pose proof (fun w off len dst ps pd Hw => range_spec fuel w fs fd src dst ps pd ranks rank off len Hw Hsrc Hr Hk) as Hspec.
  unfold rank_ranges in *. set (c := chunking_of (zlen src) ranks) in *. set (more := negb _ && _) in *.
  destruct (main_range c rank) as [o1 l1].
  destruct (Hspec w o1 l1 dst ps pd Hw ltac:(left) Hfuel) as (w1 & r1 & -> & m1 & ps1 & pd1 & Hm1 & Hw1 & Hs1). cbn [lbind].
  destruct (r1 =? 0) eqn:E1; zbool; cbn [negb]; swap 1 2.
  { eexists _, _, [(o1, m1)], _, _. split; [done|]. split; [done|]. split; [|done]. constructor; [|done]. split; [left|lia]. }
  destruct more; cbn [lbind].
  - destruct (remainder_range c rank) as [o2 l2].
    destruct (Hspec w1 o2 l2 _ ps1 pd1 Hw1 ltac:(right; left) Hfuel) as (w2 & r2 & -> & m2 & ps2 & pd2 & Hm2 & Hw2 & Hs2). cbn [lbind].
    destruct (ws_fsync _ _ _ _ _ _ _ Hw2) as (w3 & r3 & -> & Hw3). cbn [lbind].
    eexists _, _, [(o1, m1); (o2, m2)], _, _. split; [done|]. split; [done|]. split.
    + constructor; [split; [left|lia]|]. constructor; [|done]. split; [right; left|lia].
    + intros Hret. specialize (Hs1 E1). specialize (Hs2 Hret). constructor; [lia|]. constructor; [lia|done].
  - destruct (ws_fsync _ _ _ _ _ _ _ Hw1) as (w2 & r2 & -> & Hw2). cbn [lbind].
    eexists _, _, [(o1, m1)], _, _. split; [done|]. split; [done|]. specialize (Hs1 E1). split.
    + constructor; [|done]. split; [left|lia].
    + intros _. constructor; [lia|done].
Qed.

End Process.

(** ** Processes that do not wait for one another *)

(** A small file is copied by process 0 alone.  The other processes laminate the
    destination without waiting for it: the only calls that they make are those
    that look at the source and the one that changes the mode. *)
Lemma small_file_laminated_early {W} `{!WrapOps W} junk basename fuel (w w1 w2 w3 : W) rank ranks src dst upath rc err sb :
  w_intercept w src = None -> w_malloc w = (w1, true) -> w_stat w1 src = LRet (w2, (rc, err, sb)) -> 0 <= rc ->
  w_intercept w2 dst = Some upath -> w_malloc w2 = (w3, true) -> rank <> 0 ->
  ck_total (chunking_of (u64 (st_size sb)) ranks) <= ranks ->
  unifyfs_transfer_file junk basename fuel w rank ranks src dst UNIFYFS_TRANSFER_PARALLEL =
    let! '(w, _) := w_chmod w3 upath (Z.land (st_mode sb) (Z.lnot 146)) in LRet (w, 0).
Proof.
  intros Hsrc Hm1 Hstat Hrc Hdst Hm2 Hrank Hsmall. unfold unifyfs_transfer_file, dup_string, destination. rewrite Hsrc Hm1. cbn [default].
  rewrite Hstat. cbn [lbind]. rewrite (proj2 (Z.ltb_ge _ _)) // Hdst. unfold dup_string. rewrite Hm2. cbn [andb].
  rewrite (proj2 (Z.eqb_neq rank 0)) //. cbn. unfold transfer_file_parallel. rewrite (proj2 (Z.leb_le _ _)) //.
  by rewrite (proj2 (Z.eqb_neq rank 0)).
Qed.

(** ** Two files in memory *)

(** The files with their positions; how many bytes a read and a write move at
    most. *)
Record pair_world := PairWorld {
  pw_src : list Z;
  pw_ps : Z;
  pw_dst : list Z;
  pw_pd : Z;
  pw_read_max : Z;
  pw_write_max : option Z;
}.

Definition no_stat : stat := unifyfs_file_attr_to_stat unifyfs_file_attr_set_invalid.

#[export] Instance pair_ops : WrapOps pair_world := {
  w_malloc w := (w, true);
  w_intercept _ _ := None;
  w_open w path _ _ := LRet (w, (if bool_decide (path = "src"%string) then 3 else 4, 0));
  w_close w _ := LRet (w, (0, 0));
  w_lseek w fd off _ :=
    LRet (if fd =? 3 then PairWorld (pw_src w) off (pw_dst w) (pw_pd w) (pw_read_max w) (pw_write_max w)
          else PairWorld (pw_src w) (pw_ps w) (pw_dst w) off (pw_read_max w) (pw_write_max w), (off, 0));
  w_read w _ buf len :=
    let n := Z.max 0 (Z.min (avail (pw_src w) (pw_ps w) len) (pw_read_max w)) in
    LRet (PairWorld (pw_src w) (pw_ps w + n) (pw_dst w) (pw_pd w) (pw_read_max w) (pw_write_max w),
          (n, 0, fun k => if (0 <=? k) && (k <? n) then byte (pw_src w) (pw_ps w + k) else buf k));
  w_write w _ data :=
    let data := match pw_write_max w with Some n => take (Z.to_nat n) data | None => data end in
    LRet (PairWorld (pw_src w) (pw_ps w) (splice (pw_dst w) (pw_pd w) data) (pw_pd w + zlen data) (pw_read_max w) (pw_write_max w),
          (zlen data, 0));
  w_fsync w _ := LRet (w, (0, 0));
  w_stat w _ := LRet (w, (0, 0, no_stat));
  w_chmod w _ _ := LRet (w, (0, 0));
}.

#[export] Program Instance pair_spec : WrapSpec pair_world := {
  pair_ok w fs fd src ps dst pd :=
    fs = 3 /\ fd = 4 /\ pw_src w = src /\ pw_ps w = ps /\ pw_dst w = dst /\ pw_pd w = pd /\ 0 < pw_read_max w /\ pw_write_max w = None;
}.
Next Obligation. intros. exact H. Qed.
Next Obligation. intros w fs fd src ps dst pd off (-> & -> & <- & <- & <- & <- & ? & ?) _. eexists _, _, _. split; [done|]. by right. Qed.
Next Obligation. intros w fs fd src ps dst pd off (-> & -> & <- & <- & <- & <- & ? & ?) _. eexists _, _, _. split; [done|]. by right. Qed.
Next Obligation.
  intros w fs fd src ps dst pd buf len (-> & -> & <- & <- & <- & <- & Hm & ?) Hl. eexists _, _, _, _. split; [done|]. right.
  pose proof (avail_bounds (pw_src w) (pw_ps w) len ltac:(lia)) as [Ha _]. split_and!; try done; try lia. intros k Hk. cbn.
  rewrite (proj2 (Z.leb_le 0 k)) ?(proj2 (Z.ltb_lt k _)) //; lia.
Qed.
Next Obligation.
  intros w fs fd src ps dst pd data (-> & -> & <- & <- & <- & <- & Hm & Hn) Hd. cbn. rewrite Hn. eexists _, _, _. split; [done|]. by right.
Qed.

Next Obligation. intros w fs fd src ps dst pd H. by eexists _, _. Qed.

(** The first of two processes copies a file of three bytes. *)
Lemma transfer_rank_correct_witness :
  exists w' ret rs ps' pd',
    copy_ranges (fun _ => 0) (Z.to_nat 9000000) (PairWorld [65; 66; 67] 0 [] 0 2 None) (chunking_of 3 2) 0 3 4 = LRet (w', ret) /\
    pair_ok w' 3 4 [65; 66; 67] ps' (copy_all [65; 66; 67] [] rs) pd' /\
    Forall (fun '(off, m) => off ∈ (rank_ranges 3 2 0).*1 /\ 0 <= m <= rest [65; 66; 67] off) rs /\
    (ret = UNIFYFS_SUCCESS -> rank_done [65; 66; 67] (rank_ranges 3 2 0) rs).
Proof.
  apply (transfer_rank_correct (fun _ => 0) (Z.to_nat 9000000) (PairWorld [65; 66; 67] 0 [] 0 2 None) 3 4 [65; 66; 67] [] 0 0 2 0).
  - vm_compute. intuition congruence.
  - vm_compute. intuition congruence.
  - reflexivity.
  - vm_compute. intuition congruence.
  - rewrite Z2Nat.id; [lia|]. reflexivity.
Defined.

(** Two processes and a file of three bytes, of which each process has at most
    one piece. *)
Lemma parallel_transfer_complete_witness :
  copy_all [65; 66; 67] [] [(0, 0); (0, 3); (0, 0)] = [65; 66; 67].
Proof.
  apply (parallel_transfer_complete [65; 66; 67] [] 2 (fun r => if r =? 0 then [(0, 0); (0, 3)] else [(0, 0)])).
  - vm_compute. intuition congruence.
  - reflexivity.
  - vm_compute. intuition congruence.
  - intros rank Hr. assert (rank = 0 \/ rank = 1) as [-> | ->] by lia; repeat constructor; vm_compute; intuition congruence.
  - vm_compute. repeat (apply Permutation_refl || constructor).
Defined.

(** A short write is followed by a write of the wrong bytes. *)
Lemma short_write_corrupts :
  exists w, do_transfer_data (fun _ => 0) 10 (PairWorld [65; 66; 67; 68] 0 [] 0 4 (Some 3)) 3 4 0 4 = LRet (w, UNIFYFS_SUCCESS) /\
    pw_dst w = [65; 66; 67; 65].
Proof. eexists. vm_compute. split; reflexivity. Qed.
