(* ===== verification/PosixEdge.v ===== *)
(** * Calls at the edges

    Runs of the calls on concrete files, in situations in which they do not do
    what POSIX and the C standard ask for, or what the comments of the source
    say. *)

From Stdlib Require Import String.
From S2P Require Import Prelude.
From S2P Require Import LogIO.
From S2P Require Import IdStack.
From S2P Require Import ArrayList.
From S2P Require Import SegTree.
From S2P Require Import Meta.
From S2P Require Import Inode.
From S2P Require Import Client.
From S2P Require Import ClientRead.
From S2P Require Import ClientWrite.
From S2P Require Import PosixClient.
From S2P Require Import SysIO.
From S2P Require Import StdIO.
From S2P Require Import FileSpec.
From S2P Require Import FdTable.
From S2P Require Import PathOps.
From S2P Require Import PathProps.

(** The contents of the files after the calls, in the client of [table_start];
    uninitialised memory holds 88. *)
Definition edge_start : posix byte_files :=
  posix_client_init table_files (Mem 1 []) "/unifyfs" None 1024 true false (fun _ => 88).
Definition edge_run (cs : list posix_call) : posix byte_files := default edge_start (posix_run (fun p => p) edge_start cs).
Definition edge_file (cs : list posix_call) (fid : Z) : option (list Z) := bf_files (px_files (edge_run cs)) !! fid.
Definition result {A} (c : call (posix byte_files * A)) : option A := match c with Ours (LRet (_, a)) => Some a | _ => None end.

(** The file has the bytes 65 66 67 and no newline: [fgets] takes a byte that
    was not read for the fourth one, and returns the null pointer. *)
Lemma fgets_last_line :
  let px := edge_run [CallFopen "/unifyfs/a" (Some "r"%string) 0] in
  (fun '(ok, dst) => (ok, region_read dst 0 5)) <$> result (fgets px (fun _ => 0) 10 (StreamPtr 0)) = Some (false, [65; 66; 67; 88; 0]).
Proof. vm_compute. reflexivity. Qed.

(** A stream without buffering: a read after a write at the same place returns
    the byte from before. *)
Lemma unbuffered_stale_read :
  let px := edge_run [CallFopen "/unifyfs/a" (Some "r+"%string) 0; CallSetvbuf (StreamPtr 0) None _IONBF 8;
    CallFread (StreamPtr 0) (fun _ => 0) 1 2; CallFseek (StreamPtr 0) 0 SEEK_SET; CallFwrite (StreamPtr 0) (fun _ => 90) 1 1;
    CallFseek (StreamPtr 0) 0 SEEK_SET] in
  bf_files (px_files px) !! 7 = Some [90; 66; 67] /\
  (fun '(n, buf) => region_read buf 0 n) <$> result (fread px (fun _ => 0) 1 3 (StreamPtr 0)) = Some [65; 66; 67].
Proof. vm_compute. split; reflexivity. Qed.

(** A descriptor that was opened with [O_APPEND] before: the file that [creat]
    makes is written at its end, whatever the position. *)
Lemma creat_appends :
  edge_file [CallOpen "/unifyfs/a" (Z.lor O_RDWR O_APPEND) 0; CallClose 1024; CallCreat "/unifyfs/b" 0; CallWrite 1024 [65; 66];
    CallLseek 1024 0 SEEK_SET; CallWrite 1024 [90]] 8 = Some [65; 66; 90].
Proof. vm_compute. reflexivity. Qed.

(** A file that was opened for writing only is read. *)
Lemma write_only_read :
  let px := edge_run [CallOpen "/unifyfs/a" O_WRONLY 0] in
  (fun '(n, buf) => region_read buf 0 n) <$> result (read px 1024 (fun _ => 0) 3) = Some [65; 66; 67].
Proof. vm_compute. reflexivity. Qed.

(** Closing a duplicate of the descriptor of a stream takes the file away from
    the stream: what was in the buffer is lost. *)
Lemma close_duplicate_of_stream :
  let px := edge_run [CallFopen "/unifyfs/b" (Some "w"%string) 0; CallFputc (StreamPtr 0) 65; CallDup (inl 5) 1024; CallClose 5] in
  result (fclose px (StreamPtr 0)) = Some EOF /\ bf_files (px_files px) !! 8 = Some [].
Proof. vm_compute. split; reflexivity. Qed.

(** A descriptor that is closed twice takes the file away from its
    duplicate. *)
Lemma close_twice :
  let px := edge_run [CallOpen "/unifyfs/a" O_RDWR 0; CallDup (inl 5) 1024; CallClose 1024] in
  fst <$> result (read px 5 (fun _ => 0) 1) = Some 1 /\ result (close px 1024) = Some 0 /\
  fst <$> result (read (edge_run [CallOpen "/unifyfs/a" O_RDWR 0; CallDup (inl 5) 1024; CallClose 1024; CallClose 1024]) 5 (fun _ => 0) 1)
    = Some (-1).
Proof. vm_compute. split_and!; reflexivity. Qed.

(** The position of a stream in append mode: with bytes in the buffer, [ftell]
    after a second write is not the end of the file. *)
Lemma append_position :
  let px := edge_run [CallFopen "/unifyfs/a" (Some "a"%string) 0; CallFputc (StreamPtr 0) 68; CallFputc (StreamPtr 0) 69] in
  result (ftell px (StreamPtr 0)) = Some 4 /\ bf_files (px_files (edge_run [CallFopen "/unifyfs/a" (Some "a"%string) 0;
    CallFputc (StreamPtr 0) 68; CallFputc (StreamPtr 0) 69; CallFclose (StreamPtr 0)])) !! 7 = Some [65; 66; 67; 68; 69].
Proof. vm_compute. split; reflexivity. Qed.

(** A line that is longer than the buffer of a line-buffered stream: the write
    fails, but the line before is in the file, and the position is still the
    one before the call. *)
Lemma long_line_fails :
  let calls := [CallFopen "/unifyfs/b" (Some "w"%string) 0; CallSetvbuf (StreamPtr 0) None _IOLBF 4] in
  let line := [65; 10; 66; 66; 66; 66; 10] in
  result (fwrite (edge_run calls) (byte line) 1 7 (StreamPtr 0)) = Some 0 /\
  edge_file (calls ++ [CallFwrite (StreamPtr 0) (byte line) 1 7]) 8 = Some [65; 10] /\
  result (ftell (edge_run (calls ++ [CallFwrite (StreamPtr 0) (byte line) 1 7])) (StreamPtr 0)) = Some 0.
Proof. vm_compute. split_and!; reflexivity. Qed.

(** [fread] of 2^32 items of 2^32 bytes reads nothing and returns all the
    items. *)
Lemma fread_product_wraps :
  let px := edge_run [CallFopen "/unifyfs/a" (Some "r"%string) 0] in
  fst <$> result (fread px (fun _ => 0) (2 ^ 32) (2 ^ 32) (StreamPtr 0)) = Some (2 ^ 32).
Proof. vm_compute. reflexivity. Qed.

(** [fsetpos] frees the position, so that it cannot be used again. *)
Lemma fsetpos_twice :
  let px := edge_run [CallFopen "/unifyfs/a" (Some "r"%string) 0] in
  match fgetpos px ∅ (StreamPtr 0) with
  | Ours (LRet (px, h, (0, Some state))) =>
      match fsetpos px h (StreamPtr 0) state with
      | Ours (LRet (px, h, 0)) => fsetpos px h (StreamPtr 0) state = Ours LFault
      | _ => False
      end
  | _ => False
  end.
Proof. vm_compute. reflexivity. Qed.

(** ** A file that is to be unlinked *)

(** A server that has the attributes of one file. *)
#[local] Instance attr_server : ServerRpc unifyfs_file_attr_t :=
  { rpc_metaset s _ _ := (s, 0); rpc_metaget s _ := inr s; rpc_fsync s _ _ _ _ := (s, 0); rpc_filesize s _ := inr (fa_size s);
    rpc_truncate s _ _ := (s, 0); rpc_unlink s _ := (s, 0) }.

(** The client was told that file 0 was unlinked, and the server has it
    again. *)
Definition unlinked_client : unifyfs_client := put_meta 0 (fm_set_pending true) ex_client.

(** [unifyfs_fid_open] succeeds and returns the file id -1. *)
Lemma open_unlinked env :
  exists c, unifyfs_fid_open env unlinked_client (fm_attrs (ex_meta 0 5)) "/a" O_RDONLY 0 =
    LRet (c, fm_attrs (ex_meta 0 5), (UNIFYFS_SUCCESS, -1, 0)).
Proof. eexists. vm_compute. reflexivity. Qed.

(** ** Names *)

Definition names_px : posix (client_files (list unifyfs_index)) :=
  posix_client_init (ClientFiles ex_client (ClientReads (ArrayList 0 0 []) 0) []) (Mem 1 []) EmptyString None 1024 true false (fun _ => 0).

(** A file that is renamed to its own name is deleted, and the call returns
    0. *)
Lemma rename_to_itself :
  unifyfs_fid_from_path (px_client names_px) "/a" = 0 /\
  match rename stat_env (fun p => p) names_px "/a" "/a" with
  | Ours (LRet (px, ret)) => ret = 0 /\ unifyfs_fid_from_path (px_client px) "/a" = -1
  | _ => False
  end.
Proof. vm_compute. split_and!; reflexivity. Qed.

(** A new name is known to this client only: the server is not told. *)
Lemma rename_local :
  match rename stat_env (fun p => p) names_px "/a" "/c" with
  | Ours (LRet (px, ret)) => ret = 0 /\ unifyfs_fid_from_path (px_client px) "/c" = 0 /\ px_server px = px_server names_px /\
      (fa_gfid (fm_attrs (default (ex_meta 0 0) (cl_filemetas (px_client px) !! 0%nat))) = 5)
  | _ => False
  end.
Proof. vm_compute. split_and!; reflexivity. Qed.

(** [__fxstat64] of a descriptor that is not open reads outside of the list of
    files; [__fxstat] fails with [EBADF]. *)
Lemma fxstat64_closed :
  __fxstat64 stat_env names_px STAT_VER 1024 true = Ours LFault /\
  match __fxstat stat_env names_px STAT_VER 1024 true with
  | Ours (LRet (px, (ret, _))) => ret = -1 /\ px_errno px = EBADF
  | _ => False
  end.
Proof. vm_compute. split_and!; reflexivity. Qed.

(** The descriptor that [dirfd] returns is not one that the calls take for
    ours. *)
Lemma dirfd_not_exposed :
  match unifyfs_dirstream_alloc names_px 0 with
  | LRet (px, Some dirid) =>
      match dirfd px (StreamPtr dirid) with
      | Ours (LRet (px, fd)) => unifyfs_intercept_fd px fd = None /\ unifyfs_get_fid_from_fd px fd = 0
      | _ => False
      end
  | _ => False
  end.
Proof. vm_compute. split; reflexivity. Qed.

(** ** Lists of operations *)

(** A read of ten bytes of a file that has three: ten bytes are reported. *)
Lemma listio_short_read :
  match lio_listio (edge_run [CallOpen "/unifyfs/a" O_RDWR 0]) (fun _ => (0, 0, fun _ => 0)) [Aiocb 1024 LIO_READ 10 0 (fun _ => 0) 0 0] with
  | LRet (_, ([cb], ret)) => ret = 0 /\ region_read (aio_buf cb) 0 4 = [65; 66; 67; 0] /\ aio_error_code cb = 0 /\ aio_return_val cb = 10
  | _ => False
  end.
Proof. vm_compute. split_and!; reflexivity. Qed.
