(* ===== verification/LibApi.v ===== *)
(** * The library interface: files and batches of operations

    [client/src/unifyfs_api_file.c] and [client/src/unifyfs_api_io.c].  An
    application passes an array of requests; all reads of the array are done
    first, then its writes, its truncations and its synchronisations.  The
    operations on the files below are those of the class [FidLayer], with the
    lookup of a file by its global id. *)

From Stdlib Require Import String.
From S2P Require Import Prelude.
From S2P Require Import LogIO.
From S2P Require Import Meta.
From S2P Require Import Inode.
From S2P Require Import Client.
From S2P Require Import ClientRead.
From S2P Require Import PosixClient.

Definition UNIFYFS_INVALID_GFID : Z := 0.

(** ** Requests *)

Inductive unifyfs_req_state :=
  UNIFYFS_REQ_STATE_INVALID | UNIFYFS_REQ_STATE_IN_PROGRESS | UNIFYFS_REQ_STATE_CANCELED | UNIFYFS_REQ_STATE_COMPLETED.

(** [IOREQ_OTHER]: a number that is none of the operations. *)
Inductive unifyfs_ioreq_op :=
  | UNIFYFS_IOREQ_NOP
  | UNIFYFS_IOREQ_OP_READ
  | UNIFYFS_IOREQ_OP_WRITE
  | UNIFYFS_IOREQ_OP_SYNC_DATA
  | UNIFYFS_IOREQ_OP_SYNC_META
  | UNIFYFS_IOREQ_OP_TRUNC
  | UNIFYFS_IOREQ_OP_ZERO
  | IOREQ_OTHER (op : Z).

#[export] Instance req_state_eq_dec : EqDecision unifyfs_req_state.
Proof. solve_decision. Defined.
#[export] Instance ioreq_op_eq_dec : EqDecision unifyfs_ioreq_op.
Proof. solve_decision. Defined.

Record unifyfs_ioreq_result := IoResult {
  ir_error : Z;
  ir_rc : Z;
  ir_count : Z;
}.

(** [io_user_buf]: the memory from the address of the buffer on, or the null
    pointer. *)
Record unifyfs_io_request := IoRequest {
  io_user_buf : option (Z -> Z);
  io_nbytes : Z;
  io_offset : Z;
  io_gfid : Z;
  io_op : unifyfs_ioreq_op;
  io_state : unifyfs_req_state;
  io_result : unifyfs_ioreq_result;
}.

Definition io_set_buf (buf : option (Z -> Z)) (r : unifyfs_io_request) : unifyfs_io_request :=
  IoRequest buf (io_nbytes r) (io_offset r) (io_gfid r) (io_op r) (io_state r) (io_result r).
Definition io_set_state (st : unifyfs_req_state) (r : unifyfs_io_request) : unifyfs_io_request :=
  IoRequest (io_user_buf r) (io_nbytes r) (io_offset r) (io_gfid r) (io_op r) st (io_result r).
Definition io_set_result (res : unifyfs_ioreq_result) (r : unifyfs_io_request) : unifyfs_io_request :=
  IoRequest (io_user_buf r) (io_nbytes r) (io_offset r) (io_gfid r) (io_op r) (io_state r) res.
Definition io_set_error (e : Z) (r : unifyfs_io_request) : unifyfs_io_request :=
  io_set_result (IoResult e (ir_rc (io_result r)) (ir_count (io_result r))) r.
Definition io_set_count (n : Z) (r : unifyfs_io_request) : unifyfs_io_request :=
  io_set_result (IoResult (ir_error (io_result r)) (ir_rc (io_result r)) n) r.

(** [req->result.error = rc;] when there is an error. *)
Definition io_report (rc : Z) (r : unifyfs_io_request) : unifyfs_io_request :=
  if negb (rc =? UNIFYFS_SUCCESS) then io_set_error rc r else r.

Definition io_completed (r : unifyfs_io_request) : unifyfs_io_request := io_set_state UNIFYFS_REQ_STATE_COMPLETED r.

Definition is_op (ops : list unifyfs_ioreq_op) (r : unifyfs_io_request) : bool := bool_decide (io_op r ∈ ops).

Abbreviation read_ops := [UNIFYFS_IOREQ_OP_READ].
Abbreviation write_ops := [UNIFYFS_IOREQ_OP_WRITE; UNIFYFS_IOREQ_OP_ZERO].
Abbreviation trunc_ops := [UNIFYFS_IOREQ_OP_TRUNC].
Abbreviation sync_ops := [UNIFYFS_IOREQ_OP_SYNC_DATA; UNIFYFS_IOREQ_OP_SYNC_META].

(** The files by their global id, [-1] when the client does not have the file,
    and the synchronisation of the log. *)
Class GfidLayer (F : Type) := {
  gl_fid : F -> Z -> Z;
  gl_logio_sync : F -> lres (F * Z);
}.

Section Io.
Context {F : Type} `{!FidLayer F, !GfidLayer F}.
Implicit Types (f : F) (m : mem) (reqs : list unifyfs_io_request).

(** The bytes of the buffer; a null pointer is not followed when there are
    none. *)
Definition user_bytes (r : unifyfs_io_request) : lres (list Z) :=
  match io_user_buf r with
  | Some buf => LRet (region_read buf 0 (io_nbytes r))
  | None => if io_nbytes r =? 0 then LRet [] else LFault
  end.

(** One pass of the loop over the writes: an operation that zeroes a range
    allocates its buffer.  The last component is [ENOMEM] when that fails. *)
Definition process_write f m (req : unifyfs_io_request) : lres (F * mem * unifyfs_io_request * Z) :=
  let fid := gl_fid f (io_gfid req) in
  if fid =? -1 then LRet (f, m, io_set_error EINVAL (io_completed req), UNIFYFS_SUCCESS)
  else
    let zero := bool_decide (io_op req = UNIFYFS_IOREQ_OP_ZERO) in
    let '(p, m) := if zero then calloc m else (Some 0, m) in
    match p with
    | None => LRet (f, m, io_set_buf None req, ENOMEM)
    | Some _ =>
        let req := if zero then io_set_buf (Some (fun _ => 0)) req else req in
        let! data := user_bytes req in
        let! '(f, rc, count) := fl_write f fid (io_offset req) data in
        let req := io_completed (io_report rc (io_set_count count req)) in
        LRet (f, m, if zero then io_set_buf None req else req, UNIFYFS_SUCCESS)
    end.

Fixpoint process_gfid_writes f m reqs : lres (F * mem * list unifyfs_io_request * Z) :=
  match reqs with
  | [] => LRet (f, m, [], UNIFYFS_SUCCESS)
  | req :: reqs =>
      let! '(f, m, req, err) := process_write f m req in
      let! '(f, m, reqs, ret) := process_gfid_writes f m reqs in
      LRet (f, m, req :: reqs, if ret =? UNIFYFS_SUCCESS then err else ret)
  end.

(** A request for an unknown file gets its error, and is tried all the same. *)
Definition process_trunc f (req : unifyfs_io_request) : lres (F * unifyfs_io_request) :=
  let fid := gl_fid f (io_gfid req) in
  let req := if fid =? -1 then io_set_error EINVAL (io_completed req) else req in
  let! '(f, rc) := fl_truncate f fid (io_offset req) in
  LRet (f, io_completed (io_report rc req)).

Fixpoint process_gfid_truncates f reqs : lres (F * list unifyfs_io_request * Z) :=
  match reqs with
  | [] => LRet (f, [], UNIFYFS_SUCCESS)
  | req :: reqs =>
      let! '(f, req) := process_trunc f req in
      let! '(f, reqs, ret) := process_gfid_truncates f reqs in
      LRet (f, req :: reqs, ret)
  end.

(** [synced]: the log was synchronised for an earlier request. *)
Definition process_sync f (synced : bool) (req : unifyfs_io_request) : lres (F * bool * unifyfs_io_request) :=
  match io_op req with
  | UNIFYFS_IOREQ_OP_SYNC_META =>
      let fid := gl_fid f (io_gfid req) in
      let req := if fid =? -1 then io_set_error EINVAL (io_completed req) else req in
      let! '(f, rc) := fl_sync_extents f fid in
      LRet (f, synced, io_completed (io_report rc req))
  | UNIFYFS_IOREQ_OP_SYNC_DATA =>
      if synced then LRet (f, synced, io_completed req)
      else
        let! '(f, rc) := gl_logio_sync f in
        LRet (f, rc =? UNIFYFS_SUCCESS, io_completed (io_report rc req))
  | _ => LRet (f, synced, req)
  end.

Fixpoint process_gfid_syncs f (synced : bool) reqs : lres (F * list unifyfs_io_request * Z) :=
  match reqs with
  | [] => LRet (f, [], UNIFYFS_SUCCESS)
  | req :: reqs =>
      let! '(f, synced, req) := process_sync f synced req in
      let! '(f, reqs, ret) := process_gfid_syncs f synced reqs in
      LRet (f, req :: reqs, ret)
  end.

(** ** A batch *)

(** The loop that counts the operations: the requests, and whether all of them
    are known; the loop stops at one that is not. *)
Fixpoint init_requests reqs : list unifyfs_io_request * bool :=
  match reqs with
  | [] => ([], true)
  | req :: reqs =>
      let req := io_set_result (IoResult UNIFYFS_SUCCESS 0 0) (io_set_state UNIFYFS_REQ_STATE_INVALID req) in
      match io_op req with
      | IOREQ_OTHER _ => (io_set_error EINVAL req :: reqs, false)
      | _ => let '(reqs, ok) := init_requests reqs in (req :: reqs, ok)
      end
  end.

(** An array for each kind of operation that occurs. *)
Fixpoint alloc_arrays m (needed : list bool) : mem * bool :=
  match needed with
  | [] => (m, true)
  | false :: needed => alloc_arrays m needed
  | true :: needed => let '(p, m) := calloc m in match p with Some _ => alloc_arrays m needed | None => (m, false) end
  end.

(** The request for the reads, of the operation at index [i].  The index stands
    for the address of the buffer, which the request takes with it. *)
Fixpoint read_requests (i : Z) reqs : lres (list read_req) :=
  match reqs with
  | [] => LRet []
  | req :: reqs =>
      let! rest := read_requests (i + 1) reqs in
      if is_op read_ops req then
        let! buf := match io_user_buf req with Some buf => LRet buf | None => if io_nbytes req =? 0 then LRet (fun _ => 0) else LFault end in
        LRet (ReadReq (io_gfid req) (u64 (io_offset req)) (io_nbytes req) buf i SIZE_MAX SIZE_MAX 0 0 :: rest)
      else LRet rest
  end.

(** The contents of the buffer of the request at index [i]. *)
Definition read_buffer (i : Z) (rd_reqs : list read_req) (buf : option (Z -> Z)) : option (Z -> Z) :=
  match buf with
  | None => None
  | Some buf => Some (default buf (rr_buf <$> List.find (fun r => rr_aiocbp r =? i) rd_reqs))
  end.

(** The last loop: the results of each kind of operation are taken in the order
    in which the arrays have them now. *)
Fixpoint update_requests (all_rds : list read_req) (i : Z) reqs (rds : list read_req) (wrs trs ss : list unifyfs_io_request)
    : lres (list unifyfs_io_request) :=
  match reqs with
  | [] => LRet []
  | req :: reqs =>
      let req := io_completed req in
      match io_op req with
      | UNIFYFS_IOREQ_OP_READ =>
          let! rd := lift_option (head rds) in
          let! reqs := update_requests all_rds (i + 1) reqs (tail rds) wrs trs ss in
          LRet (io_set_buf (read_buffer i all_rds (io_user_buf req)) (io_set_error (rr_errcode rd) (io_set_count (rr_nread rd) req)) :: reqs)
      | UNIFYFS_IOREQ_OP_WRITE | UNIFYFS_IOREQ_OP_ZERO =>
          let! wr := lift_option (head wrs) in
          let! reqs := update_requests all_rds (i + 1) reqs rds (tail wrs) trs ss in
          LRet (wr :: reqs)
      | UNIFYFS_IOREQ_OP_SYNC_DATA | UNIFYFS_IOREQ_OP_SYNC_META =>
          let! s := lift_option (head ss) in
          let! reqs := update_requests all_rds (i + 1) reqs rds wrs trs (tail ss) in
          LRet (s :: reqs)
      | UNIFYFS_IOREQ_OP_TRUNC =>
          let! tr := lift_option (head trs) in
          let! reqs := update_requests all_rds (i + 1) reqs rds wrs (tail trs) ss in
          LRet (tr :: reqs)
      | UNIFYFS_IOREQ_NOP | IOREQ_OTHER _ =>
          let! reqs := update_requests all_rds (i + 1) reqs rds wrs trs ss in
          LRet (req :: reqs)
      end
  end.

(** The requests in progress: reads, writes, truncations and synchronisations,
    in this order. *)
Definition process_batch f m reqs : lres (F * mem * list unifyfs_io_request * Z) :=
  let! rds := read_requests 0 reqs in
  let! '(f, rds, rc) := fl_reads f rds in
  let rds := if negb (rc =? UNIFYFS_SUCCESS) then rr_set_errcode rc <$> rds else rds in
  let! '(f, m, wrs, rc) := process_gfid_writes f m (List.filter (is_op write_ops) reqs) in
  let wrs := if negb (rc =? UNIFYFS_SUCCESS) then io_set_error rc <$> wrs else wrs in
  let! '(f, trs, _) := process_gfid_truncates f (List.filter (is_op trunc_ops) reqs) in
  let! '(f, ss, _) := process_gfid_syncs f false (List.filter (is_op sync_ops) reqs) in
  let! reqs := update_requests rds 0 reqs rds wrs trs ss in
  LRet (f, m, reqs, UNIFYFS_SUCCESS).

(** The handle and the pointer to the requests are valid. *)
Definition unifyfs_dispatch_io f m reqs : lres (F * mem * list unifyfs_io_request * Z) :=
  if bool_decide (reqs = []) then LRet (f, m, reqs, UNIFYFS_SUCCESS)
  else
    let '(reqs, ok) := init_requests reqs in
    if negb ok then LRet (f, m, reqs, EINVAL)
    else
      let '(m, ok) := alloc_arrays m ((fun ops => existsb (is_op ops) reqs) <$> [read_ops; write_ops; trunc_ops; sync_ops]) in
      if negb ok then LRet (f, m, reqs, ENOMEM)
      else process_batch f m (io_set_state UNIFYFS_REQ_STATE_IN_PROGRESS <$> reqs).

End Io.

Definition unifyfs_cancel_io (reqs : list unifyfs_io_request) : Z :=
  if bool_decide (reqs = []) then UNIFYFS_SUCCESS else UNIFYFS_ERROR_NYI.

Definition io_done (r : unifyfs_io_request) : bool :=
  bool_decide (io_state r = UNIFYFS_REQ_STATE_CANCELED) || bool_decide (io_state r = UNIFYFS_REQ_STATE_COMPLETED).

(** Nothing changes the requests while the loop waits: it ends in its first
    pass or never. *)
Definition unifyfs_wait_io (reqs : list unifyfs_io_request) (waitall : bool) : lres Z :=
  if bool_decide (reqs = []) then LRet UNIFYFS_SUCCESS
  else
    let n_done := Z.of_nat (length (List.filter io_done reqs)) in
    if waitall then (if n_done =? Z.of_nat (length reqs) then LRet UNIFYFS_SUCCESS else LBlocked)
    else if negb (n_done =? 0) then LRet UNIFYFS_SUCCESS else LBlocked.

(** ** Files *)

(** The calls to the server that only this interface makes. *)
Class ApiRpc (S : Type) := {
  rpc_laminate : S -> Z -> S * Z;
  rpc_get_gfids : S -> Z + list Z;
}.

Record unifyfs_file_status := FileStatus {
  fst_laminated : Z;
  fst_mode : Z;
  fst_local_file_size : Z;
  fst_global_file_size : Z;
  fst_local_write_nbytes : Z;
}.

(** What [unifyfs_get_server_file_meta] copies. *)
Record unifyfs_server_file_meta := ServerFileMeta {
  sfm_filename : option string;
  sfm_gfid : Z;
  sfm_is_laminated : Z;
  sfm_is_shared : Z;
  sfm_mode : Z;
  sfm_uid : Z;
  sfm_gid : Z;
  sfm_size : Z;
  sfm_atime : timespec;
  sfm_mtime : timespec;
  sfm_ctime : timespec;
}.

Section Api.
Context {S : Type} `{!ServerRpc S, !ApiRpc S} (env : client_env).
(** The mount point of the handle. *)
Context (mount_prefix : string).
Implicit Types (f : client_files S).

#[export] Instance client_gfid_layer (fsync_err : option Z) : GfidLayer (client_files S) := {
  gl_fid f gfid := unifyfs_fid_from_gfid (cf_client f) gfid;
  gl_logio_sync f := LRet (f, unifyfs_logio_sync (cl_logio (cf_client f)) fsync_err);
}.

(** Paths are taken as they are. *)
Definition is_unifyfs_path (filepath : string) : bool := within_mount mount_prefix filepath.

Definition set_server f (s : S) : client_files S := ClientFiles (cf_client f) (cf_reads f) s.

(** The return code and the global id; flags other than those for the access
    are refused. *)
Definition unifyfs_open f (flags : Z) (filepath : string) : lres (client_files S * (Z * Z)) :=
  if negb (is_unifyfs_path filepath) then LRet (f, (EINVAL, UNIFYFS_INVALID_GFID))
  else if negb (Z.land flags (Z.lnot (Z.lor O_RDONLY (Z.lor O_RDWR O_WRONLY))) =? 0) then LRet (f, (EINVAL, UNIFYFS_INVALID_GFID))
  else
    let! '(f, rc) := with_server f (unifyfs_fid_fetch env (cf_client f) (cf_server f) filepath) in
    LRet (f, (rc, if rc =? UNIFYFS_SUCCESS then gfid_of_path env filepath else UNIFYFS_INVALID_GFID)).

Definition unifyfs_create f (flags : Z) (filepath : string) : lres (client_files S * (Z * Z)) :=
  if negb (is_unifyfs_path filepath) then LRet (f, (EINVAL, UNIFYFS_INVALID_GFID))
  else
    let private := bits flags O_EXCL && cc_use_excl_private (cl_cfg (cf_client f)) in
    let '(s, ret) := unifyfs_gfid_create env (cf_server f) filepath true private UNIFYFS_STAT_DEFAULT_FILE_MODE in
    let f := set_server f s in
    if negb (ret =? UNIFYFS_SUCCESS) then LRet (f, (ret, UNIFYFS_INVALID_GFID))
    else unifyfs_open f flags filepath.

Definition unifyfs_sync f (gfid : Z) : lres (client_files S * Z) :=
  if gfid =? UNIFYFS_INVALID_GFID then LRet (f, EINVAL)
  else
    let fid := unifyfs_fid_from_gfid (cf_client f) gfid in
    if fid =? -1 then LRet (f, EINVAL) else with_server f (unifyfs_fid_sync_extents (cf_client f) (cf_server f) fid).

(** The local attributes, updated from the server if that answers. *)
Definition unifyfs_stat f (gfid : Z) : lres (client_files S * (Z * option unifyfs_file_status)) :=
  if gfid =? UNIFYFS_INVALID_GFID then LRet (f, (EINVAL, None))
  else
    let fid := unifyfs_fid_from_gfid (cf_client f) gfid in
    if fid =? -1 then LRet (f, (EINVAL, None))
    else
      let! '(f, found) := with_client f (unifyfs_get_meta_from_fid (cf_client f) fid) in
      if negb found then LRet (f, (UNIFYFS_FAILURE, None))
      else
        let! '(f, _) :=
          match rpc_metaget (cf_server f) gfid with
          | inl rc => LRet (f, rc)
          | inr attr => with_client f (unifyfs_fid_update_file_meta (cf_client f) fid attr)
          end in
        let! meta := lift_option (cl_filemetas (cf_client f) !! Z.to_nat fid) in
        let a := fm_attrs meta in
        LRet (f, (UNIFYFS_SUCCESS, Some (FileStatus (fa_is_laminated a) (fa_mode a) (fa_size a) (fa_size a) 0))).

Definition unifyfs_laminate f (filepath : string) : lres (client_files S * Z) :=
  if negb (is_unifyfs_path filepath) then LRet (f, EINVAL)
  else
    let gfid := gfid_of_path env filepath in
    let '(s, rc) := rpc_laminate (cf_server f) gfid in
    let f := set_server f s in
    let fid := unifyfs_fid_from_gfid (cf_client f) gfid in
    if negb (rc =? UNIFYFS_SUCCESS) || (fid =? -1) then LRet (f, rc)
    else
      match rpc_metaget (cf_server f) gfid with
      | inl rc => LRet (f, rc)
      | inr attr =>
          let! '(f, _) := with_client f (unifyfs_fid_update_file_meta (cf_client f) fid attr) in
          LRet (f, UNIFYFS_SUCCESS)
      end.

(** Both steps are tried; the last error is returned. *)
Definition unifyfs_remove f (filepath : string) : lres (client_files S * Z) :=
  if negb (is_unifyfs_path filepath) then LRet (f, EINVAL)
  else
    let gfid := gfid_of_path env filepath in
    let fid := unifyfs_fid_from_gfid (cf_client f) gfid in
    let! '(f, ret) :=
      if negb (fid =? -1) then with_client f (unifyfs_fid_delete (cf_client f) fid) else LRet (f, UNIFYFS_SUCCESS) in
    let '(s, rc) := rpc_unlink (cf_server f) gfid in
    LRet (set_server f s, if negb (rc =? UNIFYFS_SUCCESS) then rc else ret).

Definition unifyfs_get_gfid_list f : Z + list Z := rpc_get_gfids (cf_server f).

Definition unifyfs_get_server_file_meta f (gfid : Z) : Z + unifyfs_server_file_meta :=
  match rpc_metaget (cf_server f) gfid with
  | inl rc => inl rc
  | inr a =>
      inr (ServerFileMeta (fa_filename a) (fa_gfid a) (fa_is_laminated a) (fa_is_shared a) (fa_mode a) (fa_uid a) (fa_gid a)
        (fa_size a) (fa_atime a) (fa_mtime a) (fa_ctime a))
  end.

(** [unifyfs_finalize], as far as it concerns files: the unsynced writes of a
    mounted client are passed to the server before it unmounts. *)
Definition unifyfs_finalize_files f (rpc_unmount : S -> S * Z) : lres (client_files S * Z) :=
  let! '(f, ret) := with_server f (unifyfs_sync_files (cf_client f) (cf_server f)) in
  let '(s, rc) := rpc_unmount (cf_server f) in
  LRet (set_server f s, if negb (rc =? UNIFYFS_SUCCESS) then rc else ret).

End Api.
