(* ===== verification/LibApiProps.v ===== *)
(** * Correctness of batches of operations

    A batch that the library interface dispatches: reads see the files as they
    were before the batch; the files are changed by the writes, in their order,
    and then by the truncations; each request gets its own result. *)

From Stdlib Require Import String.
From S2P Require Import Prelude.
From S2P Require Import LogIO.
From S2P Require Import Meta.
From S2P Require Import Inode.
From S2P Require Import Client.
From S2P Require Import ClientRead.
From S2P Require Import PosixClient.
From S2P Require Import SysIO.
From S2P Require Import FileSpec.
From S2P Require Import LibApi.

(** The contents after a truncation. *)
Definition resize (bs : list Z) (n : Z) : list Z := byte bs <$> seqZ 0 n.

(** ** The contract of the files by their global id *)

(** The result of one read request of a list, of a file with contents [bs]. *)
Record served (bs : list Z) (req req' : read_req) : Prop := {
  sv_id : rr_aiocbp req' = rr_aiocbp req;
  sv_err : rr_errcode req' = UNIFYFS_SUCCESS \/ rr_errcode req' = ENODATA;
  sv_result : read_result_ok bs (rr_offset req) (rr_length req) req';
}.

(** [gs_visible]: the contents that reads of a global id return.  The results of
    a list of reads may come in another order. *)
Class GfidSpec (F : Type) `{!FidLayer F, !FileModel F, !FileSpec F, !GfidLayer F} := {
  gs_visible : F -> Z -> option (list Z);
  gs_fid_write f fid pos data f' rc n g : fs_inv f -> fl_write f fid pos data = LRet (f', rc, n) -> gl_fid f' g = gl_fid f g;
  gs_fid_truncate f fid n f' rc g : fs_inv f -> fl_truncate f fid n = LRet (f', rc) -> gl_fid f' g = gl_fid f g;
  gs_fid_sync f fid f' rc g : fs_inv f -> fl_sync_extents f fid = LRet (f', rc) -> gl_fid f' g = gl_fid f g;
  gs_truncate f fid bs n k :
    fs_inv f -> fs_file f fid = Some bs -> 0 <= n -> fs_good f k ->
    exists f', fl_truncate f fid n = LRet (f', UNIFYFS_SUCCESS) /\ fs_inv f' /\ fs_good f' k /\
      fs_file f' fid = Some (resize bs n) /\ forall i, i <> fid -> fs_file f' i = fs_file f i;
  gs_logio_sync f k :
    fs_inv f -> fs_good f k ->
    exists f', gl_logio_sync f = LRet (f', UNIFYFS_SUCCESS) /\ keeps f f' /\ forall g, gl_fid f' g = gl_fid f g;
  gs_reads f reqs k :
    fs_inv f -> fs_good f k ->
    Forall (fun r => is_Some (gs_visible f (rr_gfid r)) /\ 0 <= rr_offset r /\ 0 < rr_length r /\ rr_offset r + rr_length r <= unifyfs_max_offt) reqs ->
    exists f' reqs' reqs'', fl_reads f reqs = LRet (f', reqs', UNIFYFS_SUCCESS) /\ keeps f f' /\ (forall g, gl_fid f' g = gl_fid f g) /\
      Permutation reqs' reqs'' /\ Forall2 (fun r r' => exists bs, gs_visible f (rr_gfid r) = Some bs /\ served bs r r') reqs reqs'';
}.

(** Decisions on the operations of requests are evaluated. *)
Ltac eval_decide :=
  repeat match goal with
  | H : context [bool_decide ?P] |- _ => let v := eval vm_compute in (bool_decide P) in change (bool_decide P) with v in H
  end.

Section Batch.
Context {F : Type} `{!FidLayer F, !FileModel F, !FileSpec F, !GfidLayer F, !GfidSpec F}.
Implicit Types (f : F) (m : mem) (req : unifyfs_io_request) (reqs : list unifyfs_io_request) (files : Z -> option (list Z)).

(** ** What a batch means *)

(** The data of a write. *)
Definition io_data req : list Z :=
  match io_op req, io_user_buf req with
  | UNIFYFS_IOREQ_OP_ZERO, _ => region_read (fun _ => 0) 0 (io_nbytes req)
  | _, Some buf => region_read buf 0 (io_nbytes req)
  | _, None => []
  end.

Definition on_file (fid : Z) (g : list Z -> list Z) files : Z -> option (list Z) :=
  fun i => if i =? fid then g <$> files i else files i.

Definition apply_write (lookup : Z -> Z) files req : Z -> option (list Z) :=
  if lookup (io_gfid req) =? -1 then files
  else on_file (lookup (io_gfid req)) (fun bs => splice bs (io_offset req) (io_data req)) files.
Definition apply_trunc (lookup : Z -> Z) files req : Z -> option (list Z) :=
  on_file (lookup (io_gfid req)) (fun bs => resize bs (io_offset req)) files.

(** First the writes, then the truncations. *)
Definition batch_files (lookup : Z -> Z) reqs files : Z -> option (list Z) :=
  foldl (apply_trunc lookup) (foldl (apply_write lookup) files (List.filter (is_op write_ops) reqs)) (List.filter (is_op trunc_ops) reqs).

Definition batch_bytes reqs : Z := foldr (fun r n => Z.max 0 (io_nbytes r) + n) 0 (List.filter (is_op write_ops) reqs).

(** The requests of the theorem.  A write may be for a file that the client does
    not have. *)
Definition known f req : Prop := gl_fid f (io_gfid req) <> -1 /\ is_Some (fs_file f (gl_fid f (io_gfid req))).

Definition io_range req : Prop := 0 <= io_offset req /\ 0 <= io_nbytes req /\ io_offset req + io_nbytes req <= unifyfs_max_offt.

Definition req_ok f req : Prop :=
  match io_op req with
  | UNIFYFS_IOREQ_NOP | UNIFYFS_IOREQ_OP_SYNC_DATA => True
  | UNIFYFS_IOREQ_OP_READ => is_Some (io_user_buf req) /\ is_Some (gs_visible f (io_gfid req)) /\ io_range req /\ 0 < io_nbytes req
  | UNIFYFS_IOREQ_OP_WRITE => (gl_fid f (io_gfid req) = -1 \/ known f req) /\ is_Some (io_user_buf req) /\ io_range req
  | UNIFYFS_IOREQ_OP_ZERO => (gl_fid f (io_gfid req) = -1 \/ known f req) /\ io_range req
  | UNIFYFS_IOREQ_OP_TRUNC => known f req /\ 0 <= io_offset req
  | UNIFYFS_IOREQ_OP_SYNC_META => known f req
  | IOREQ_OTHER _ => False
  end.

(** The results of the requests other than reads. *)
Definition write_done (lookup : Z -> Z) req req' : Prop :=
  io_state req' = UNIFYFS_REQ_STATE_COMPLETED /\
  if lookup (io_gfid req) =? -1 then ir_error (io_result req') = EINVAL
  else ir_error (io_result req') = UNIFYFS_SUCCESS /\ ir_count (io_result req') = io_nbytes req.

Definition other_done req' : Prop :=
  io_state req' = UNIFYFS_REQ_STATE_COMPLETED /\ ir_error (io_result req') = UNIFYFS_SUCCESS.

(** A request that was just reset. *)
Definition fresh req : Prop := io_result req = IoResult UNIFYFS_SUCCESS 0 0.

(** What the steps of a batch keep. *)
Record stable f f' : Prop := {
  st_inv : fs_inv f';
  st_lookup g : gl_fid f' g = gl_fid f g;
  st_files i : is_Some (fs_file f i) -> is_Some (fs_file f' i);
}.

Lemma stable_known f f' req : stable f f' -> known f req -> known f' req.
Proof. intros [_ Hl Hf] [H1 H2]. split; rewrite Hl; eauto. Qed.

Lemma stable_trans f1 f2 f3 : stable f1 f2 -> stable f2 f3 -> stable f1 f3.
Proof. intros [? H1 H2] [? H3 H4]. split; [done|intros; by rewrite H3|eauto]. Qed.

Lemma stable_keeps f f' : keeps f f' -> (forall g, gl_fid f' g = gl_fid f g) -> stable f f'.
Proof. intros [? Hf _] Hl. split; [done|done|]. intros i. by rewrite Hf. Qed.

(** Files that agree at every id. *)
Lemma foldl_files {A} (g g' : (Z -> option (list Z)) -> A -> Z -> option (list Z)) (l : list A) : forall files files',
  (forall files files' a, (forall i, files i = files' i) -> forall i, g files a i = g' files' a i) ->
  (forall i, files i = files' i) -> forall i, foldl g files l i = foldl g' files' l i.
Proof. induction l as [|a l IH]; intros files files' Hg Hf i; [apply Hf|]. cbn. apply IH; [done|]. by apply Hg. Qed.

(** ** Writes *)

Definition write_req_ok f req : Prop :=
  is_op write_ops req = true /\ (gl_fid f (io_gfid req) = -1 \/ known f req) /\ io_range req /\
  (io_op req = UNIFYFS_IOREQ_OP_WRITE -> is_Some (io_user_buf req)).

Lemma is_write req : is_op write_ops req = true -> io_op req = UNIFYFS_IOREQ_OP_WRITE \/ io_op req = UNIFYFS_IOREQ_OP_ZERO.
Proof. intros H%bool_decide_eq_true. rewrite elem_of_cons list_elem_of_singleton in H. done. Qed.

Lemma io_data_length req : io_range req -> (io_op req = UNIFYFS_IOREQ_OP_WRITE -> is_Some (io_user_buf req)) -> is_op write_ops req = true ->
  zlen (io_data req) = io_nbytes req.
Proof.
  intros (_ & Hn & _) Hb Hop. unfold io_data.
  assert (forall r, zlen (region_read r 0 (io_nbytes req)) = io_nbytes req) as Hl.
  { intros r. unfold region_read. rewrite length_fmap length_seqZ. lia. }
  destruct (is_write _ Hop) as [E|E]; rewrite E; [|apply Hl]. destruct (Hb E) as [b ->]. apply Hl.
Qed.

Lemma write_ok_stable f f' req : stable f f' -> write_req_ok f req -> write_req_ok f' req.
Proof.
  intros Hst (? & Hkn & ? & ?). split_and!; try done. rewrite (st_lookup _ _ Hst). destruct Hkn; [by left|right]. by eapply stable_known.
Qed.

Lemma write_ok f req : is_op write_ops req = true -> req_ok f req -> write_req_ok f req.
Proof.
  intros Hop Hr. unfold req_ok in Hr. split; [done|]. destruct (is_write _ Hop) as [E|E]; rewrite E in Hr |- *.
  - destruct Hr as (? & ? & ?). by split_and!.
  - destruct Hr as [? ?]. by split_and!.
Qed.

Lemma process_write_spec f m req k :
  fs_inv f -> mem_plenty m -> 0 <= k -> fs_good f (k + io_nbytes req) -> fresh req -> write_req_ok f req ->
  exists f' m' req', process_write f m req = LRet (f', m', req', UNIFYFS_SUCCESS) /\ mem_plenty m' /\ stable f f' /\ fs_good f' k /\
    write_done (gl_fid f) req req' /\ forall i, fs_file f' i = apply_write (gl_fid f) (fs_file f) req i.
Proof.
  intros Hinv Hm Hk Hg Hfr (Hop & Hkn & Hr & Hb). pose proof (io_data_length req Hr Hb Hop) as Hlen.
  unfold process_write, write_done, apply_write. destruct (gl_fid f (io_gfid req) =? -1) eqn:Hfid; zbool.
  { exists f, m, (io_set_error EINVAL (io_completed req)). split_and!; try done.
    eapply fs_good_le; [|exact Hg]. destruct Hr as (_ & ? & _). lia. }
  destruct Hkn as [?|[_ [bs Hbs]]]; [done|].
  set (zero := bool_decide _). assert (exists p m', (if zero then calloc m else (Some 0, m)) = (Some p, m') /\ mem_plenty m') as (p & m' & -> & Hm').
  { destruct zero; [|by eexists _, _]. destruct (calloc_plenty m Hm) as (m' & -> & ? & _). by eexists _, _. }
  assert (user_bytes (if zero then io_set_buf (Some (fun _ => 0)) req else req) = LRet (io_data req)) as ->.
  { unfold user_bytes, io_data, zero. destruct (is_write _ Hop) as [E|E]; rewrite E; [|done]. rewrite bool_decide_false //. by destruct (Hb E) as [b ->]. }
  cbn [lbind]. assert (io_offset (if zero then io_set_buf (Some (fun _ => 0)) req else req) = io_offset req) as -> by by destruct zero.
  destruct Hr as (Ho & Hn & Hmax).
  destruct (fs_write f _ bs (io_offset req) (io_data req) Hinv Hbs Ho ltac:(lia)) as (f' & rc & n & Hw & Hinv' & Hoth & Hcase & Hgood).
  rewrite Hw. cbn [lbind]. rewrite -Hlen in Hg. destruct (Hgood k Hk Hg) as [-> Hg'].
  destruct Hcase as [(_ & -> & Hbs')|(? & _)]; [|done].
  eexists f', m', _. split; [done|]. split; [done|]. split; [split; [done| |]|split; [done|split]].
  - intros g. by eapply gs_fid_write.
  - intros i Hi. destruct (decide (i = gl_fid f (io_gfid req))) as [->|Hne]; [by rewrite Hbs'|by rewrite Hoth].
  - rewrite Hlen. unfold fresh in Hfr. unfold io_report. cbn. destruct zero; cbn; by rewrite Hfr.
  - intros i. unfold on_file. destruct (i =? _) eqn:Hi; zbool; [subst; by rewrite Hbs Hbs'|by rewrite Hoth].
Qed.

Lemma writes_spec reqs : forall f m k,
  fs_inv f -> mem_plenty m -> 0 <= k -> fs_good f (k + foldr (fun r n => Z.max 0 (io_nbytes r) + n) 0 reqs) ->
  Forall fresh reqs -> Forall (write_req_ok f) reqs ->
  exists f' m' reqs', process_gfid_writes f m reqs = LRet (f', m', reqs', UNIFYFS_SUCCESS) /\ mem_plenty m' /\ stable f f' /\ fs_good f' k /\
    Forall2 (write_done (gl_fid f)) reqs reqs' /\ forall i, fs_file f' i = foldl (apply_write (gl_fid f)) (fs_file f) reqs i.
Proof.
  induction reqs as [|req reqs IH]; intros f m k Hinv Hm Hk Hg Hfr Hok; cbn [process_gfid_writes foldr foldl] in *.
  { exists f, m, []. rewrite Z.add_0_r in Hg. by split_and!. }
  apply Forall_cons in Hfr as [Hf1 Hfr], Hok as [Ho1 Hok]. pose proof Ho1 as (_ & _ & (_ & Hn & _) & _).
  set (rest := foldr _ 0 reqs) in *. assert (0 <= rest) as Hrest by (unfold rest; clear; induction reqs; cbn; lia).
  destruct (process_write_spec f m req (k + rest) Hinv Hm ltac:(lia)) as (f1 & m1 & req1 & -> & Hm1 & Hst & Hg1 & Hd1 & Hfile1); [|done|done|].
  { eapply fs_good_le; [|exact Hg]. lia. }
  cbn [lbind]. destruct (IH f1 m1 k (st_inv _ _ Hst) Hm1 Hk Hg1 Hfr) as (f2 & m2 & reqs2 & -> & Hm2 & Hst2 & Hg2 & Hd2 & Hfile2).
  { eapply Forall_impl; [exact Hok|]. intros r. by apply write_ok_stable. }
  cbn [lbind]. exists f2, m2, (req1 :: reqs2). split; [done|]. split; [done|]. split; [by eapply stable_trans|]. split; [done|].
  assert (forall g, gl_fid f1 g = gl_fid f g) as Hl by apply Hst. split.
  - constructor; [done|]. eapply Forall2_impl; [exact Hd2|]. unfold write_done. intros r r'. by rewrite Hl.
  - intros i. rewrite Hfile2. apply foldl_files; [|exact Hfile1]. intros files files' r Hff j. unfold apply_write, on_file. rewrite Hl.
    by destruct (_ =? -1); [|rewrite Hff].
Qed.

(** ** Truncations and synchronisations *)

Lemma truncates_spec reqs : forall f k,
  fs_inv f -> fs_good f k -> Forall fresh reqs -> Forall (fun r => known f r /\ 0 <= io_offset r) reqs ->
  exists f' reqs', process_gfid_truncates f reqs = LRet (f', reqs', UNIFYFS_SUCCESS) /\ stable f f' /\ fs_good f' k /\
    Forall2 (fun _ => other_done) reqs reqs' /\ forall i, fs_file f' i = foldl (apply_trunc (gl_fid f)) (fs_file f) reqs i.
Proof.
  induction reqs as [|req reqs IH]; intros f k Hinv Hg Hfr Hok; cbn [process_gfid_truncates foldl].
  { exists f, []. by split_and!. }
  apply Forall_cons in Hfr as [Hf1 Hfr], Hok as [[[Hne [bs Hbs]] Ho] Hok]. unfold process_trunc. rewrite (proj2 (Z.eqb_neq _ _)) //.
  destruct (gs_truncate f _ bs (io_offset req) k Hinv Hbs Ho Hg) as (f1 & Ht & Hinv1 & Hg1 & Hbs1 & Hoth1). rewrite Ht. cbn [lbind].
  assert (stable f f1) as Hst.
  { split; [done|intros g; by eapply gs_fid_truncate|]. intros i Hi.
    destruct (decide (i = gl_fid f (io_gfid req))) as [->|?]; [by rewrite Hbs1|by rewrite Hoth1]. }
  destruct (IH f1 k Hinv1 Hg1 Hfr) as (f2 & reqs2 & -> & Hst2 & Hg2 & Hd2 & Hfile2).
  { eapply Forall_impl; [exact Hok|]. intros r [? ?]. split; [by eapply stable_known|done]. }
  cbn [lbind]. eexists f2, _. split; [done|]. split; [by eapply stable_trans|]. split; [done|]. split.
  - constructor; [|done]. unfold fresh in Hf1. split; cbn; [done|by rewrite Hf1].
  - intros i. rewrite Hfile2. apply foldl_files.
    + intros files files' r Hff j. unfold apply_trunc, on_file. by rewrite (st_lookup _ _ Hst) Hff.
    + intros j. unfold apply_trunc, on_file. destruct (j =? _) eqn:Hj; zbool; [subst; by rewrite Hbs Hbs1|by rewrite Hoth1].
Qed.

Lemma syncs_spec reqs : forall f k synced,
  fs_inv f -> fs_good f k -> Forall fresh reqs ->
  Forall (fun r => io_op r = UNIFYFS_IOREQ_OP_SYNC_DATA \/ io_op r = UNIFYFS_IOREQ_OP_SYNC_META /\ known f r) reqs ->
  exists f' reqs', process_gfid_syncs f synced reqs = LRet (f', reqs', UNIFYFS_SUCCESS) /\ fs_inv f' /\
    Forall2 (fun _ => other_done) reqs reqs' /\ forall i, fs_file f' i = fs_file f i.
Proof.
  induction reqs as [|req reqs IH]; intros f k synced Hinv Hg Hfr Hok; cbn [process_gfid_syncs].
  { exists f, []. by split_and!. }
  apply Forall_cons in Hfr as [Hf1 Hfr], Hok as [Hop Hok].
  assert (exists f1 synced1 req1, process_sync f synced req = LRet (f1, synced1, req1) /\ keeps f f1 /\ (forall g, gl_fid f1 g = gl_fid f g) /\
    other_done req1) as (f1 & synced1 & req1 & -> & Hkp & Hl & Hd).
  { unfold process_sync, other_done. unfold fresh in Hf1. destruct Hop as [-> | [-> [Hne [bs Hbs]]]].
    - destruct synced.
      + eexists _, _, _. split_and!; try done. cbn. by rewrite Hf1.
      + destruct (gs_logio_sync f k Hinv Hg) as (f1 & -> & Hkp & Hl). eexists _, _, _. split_and!; try done. cbn. by rewrite Hf1.
    - rewrite (proj2 (Z.eqb_neq _ _)) //. destruct (fs_sync f _ bs Hinv Hbs) as (f1 & rc & Hs & Hkp & Hrc). rewrite Hs (Hrc k Hg).
      eexists _, _, _. split_and!; try done; [|cbn; by rewrite Hf1]. intros g. by eapply gs_fid_sync. }
  cbn [lbind]. pose proof (stable_keeps _ _ Hkp Hl) as Hst.
  destruct (IH f1 k synced1 (kp_inv _ _ Hkp) (kp_good _ _ Hkp k Hg) Hfr) as (f2 & reqs2 & -> & Hinv2 & Hd2 & Hfile2).
  { eapply Forall_impl; [exact Hok|]. intros r [?|[? ?]]; [by left|right]. split; [done|by eapply stable_known]. }
  cbn [lbind]. eexists f2, _. split; [done|]. split; [done|]. split; [by constructor|]. intros i. by rewrite Hfile2 (kp_files _ _ Hkp).
Qed.

(** ** The results *)

(** The result of the request at index [i]: of a read, the buffer, and the
    counts of one of the reads. *)
Definition request_done (lookup : Z -> Z) (all_rds rds : list read_req) (i : Z) req req' : Prop :=
  io_state req' = UNIFYFS_REQ_STATE_COMPLETED /\
  match io_op req with
  | UNIFYFS_IOREQ_OP_READ =>
      io_user_buf req' = read_buffer i all_rds (io_user_buf req) /\
      exists rd, rd ∈ rds /\ ir_error (io_result req') = rr_errcode rd /\ ir_count (io_result req') = rr_nread rd
  | UNIFYFS_IOREQ_OP_WRITE | UNIFYFS_IOREQ_OP_ZERO => write_done lookup req req'
  | UNIFYFS_IOREQ_NOP => True
  | _ => ir_error (io_result req') = UNIFYFS_SUCCESS
  end.

Lemma update_requests_spec lookup all_rds reqs : forall i rds wrs trs ss,
  length rds = length (List.filter (is_op read_ops) reqs) ->
  Forall2 (write_done lookup) (List.filter (is_op write_ops) reqs) wrs ->
  Forall2 (fun _ => other_done) (List.filter (is_op trunc_ops) reqs) trs ->
  Forall2 (fun _ => other_done) (List.filter (is_op sync_ops) reqs) ss ->
  Forall (fun r => match io_op r with IOREQ_OTHER _ => False | _ => True end) reqs ->
  exists reqs', update_requests all_rds i reqs rds wrs trs ss = LRet reqs' /\ length reqs' = length reqs /\
    forall j req, reqs !! j = Some req -> exists req', reqs' !! j = Some req' /\ request_done lookup all_rds rds (i + Z.of_nat j) req req'.
Proof.
  induction reqs as [|req reqs IH]; intros i rds wrs trs ss Hr Hw Ht Hs Hop; cbn [update_requests].
  { exists []. split_and!; try done. }
  apply Forall_cons in Hop as [Hop1 Hop].
  assert (forall rds0 wrs0 trs0 ss0 req1, rds0 ⊆ rds ->
    (exists reqs', update_requests all_rds (i + 1) reqs rds0 wrs0 trs0 ss0 = LRet reqs' /\ length reqs' = length reqs /\
      forall j req, reqs !! j = Some req -> exists req', reqs' !! j = Some req' /\ request_done lookup all_rds rds0 (i + 1 + Z.of_nat j) req req') ->
    request_done lookup all_rds rds i req req1 ->
    exists reqs', lbind (update_requests all_rds (i + 1) reqs rds0 wrs0 trs0 ss0) (fun reqs => LRet (req1 :: reqs)) = LRet reqs' /\
      length reqs' = S (length reqs) /\
      forall j r, (req :: reqs) !! j = Some r -> exists req', reqs' !! j = Some req' /\ request_done lookup all_rds rds (i + Z.of_nat j) r req') as Hnext.
  { intros rds0 wrs0 trs0 ss0 req1 Hsub (reqs' & -> & Hl & Hj) Hd. exists (req1 :: reqs'). split; [done|]. split; [cbn; lia|].
    intros [|j] r Hlook; cbn in Hlook; [injection Hlook as <-; exists req1; by rewrite Z.add_0_r|].
    destruct (Hj j r Hlook) as (req' & ? & Hdone). exists req'. split; [done|]. replace (i + Z.of_nat (S j)) with (i + 1 + Z.of_nat j) by lia.
    unfold request_done in *. destruct Hdone as [? Hdone]. split; [done|]. destruct (io_op r); try done.
    destruct Hdone as (? & rd & ? & ?). split; [done|]. exists rd. set_solver. }
  change (io_op (io_completed req)) with (io_op req). cbn [List.filter] in Hr, Hw, Ht, Hs.
  assert (forall ops, is_op ops req = bool_decide (io_op req ∈ ops)) as Hi by done.
  rewrite Hi in Hr. rewrite Hi in Hw. rewrite Hi in Ht. rewrite Hi in Hs. clear Hi.
  destruct (io_op req) eqn:E; eval_decide; try done.
  - apply Hnext; [done|by apply IH|]. by rewrite /request_done E.
  - destruct rds as [|rd rds]; [done|]. cbn [head lift_option lbind tail]. apply Hnext; [set_solver|apply IH; try done; cbn in *; lia|].
    rewrite /request_done E. split_and!; try done. exists rd. split; [left|done].
  - inversion Hw as [|? wr ? wrs' Hd Hw']; subst. cbn [head lift_option lbind tail]. apply Hnext; [done|by apply IH|].
    rewrite /request_done E. by split; [apply Hd|].
  - inversion Hs as [|? s ? ss' Hd Hs']; subst. cbn [head lift_option lbind tail]. apply Hnext; [done|by apply IH|].
    rewrite /request_done E. apply Hd.
  - inversion Hs as [|? s ? ss' Hd Hs']; subst. cbn [head lift_option lbind tail]. apply Hnext; [done|by apply IH|].
    rewrite /request_done E. apply Hd.
  - inversion Ht as [|? tr ? trs' Hd Ht']; subst. cbn [head lift_option lbind tail]. apply Hnext; [done|by apply IH|].
    rewrite /request_done E. apply Hd.
  - inversion Hw as [|? wr ? wrs' Hd Hw']; subst. cbn [head lift_option lbind tail]. apply Hnext; [done|by apply IH|].
    rewrite /request_done E. by split; [apply Hd|].
Qed.

(** ** Reads *)

Definition read_req_of (i : Z) req (buf : Z -> Z) : read_req :=
  ReadReq (io_gfid req) (u64 (io_offset req)) (io_nbytes req) buf i SIZE_MAX SIZE_MAX 0 0.

(** The requests for the reads have the indices of their operations. *)
Lemma read_requests_spec reqs : forall i,
  (forall j req, reqs !! j = Some req -> io_op req = UNIFYFS_IOREQ_OP_READ -> is_Some (io_user_buf req)) ->
  exists rds, read_requests i reqs = LRet rds /\ length rds = length (List.filter (is_op read_ops) reqs) /\
    NoDup (rr_aiocbp <$> rds) /\ (forall rd, rd ∈ rds -> exists j req buf, reqs !! j = Some req /\ io_op req = UNIFYFS_IOREQ_OP_READ /\
      io_user_buf req = Some buf /\ rd = read_req_of (i + Z.of_nat j) req buf) /\
    (forall j req buf, reqs !! j = Some req -> io_op req = UNIFYFS_IOREQ_OP_READ -> io_user_buf req = Some buf ->
      read_req_of (i + Z.of_nat j) req buf ∈ rds).
Proof.
  induction reqs as [|req reqs IH]; intros i Hbuf; cbn [read_requests List.filter].
  { exists []. split_and!; try done; [constructor|]. by intros ? ?%not_elem_of_nil. }
  destruct (IH (i + 1)) as (rds & -> & Hl & Hnd & Hin & Hcov); [intros j r Hj; by apply (Hbuf (S j))|]. cbn [lbind].
  assert (forall rd, rd ∈ rds -> exists j r buf, (req :: reqs) !! j = Some r /\ io_op r = UNIFYFS_IOREQ_OP_READ /\ io_user_buf r = Some buf /\
    rd = read_req_of (i + Z.of_nat j) r buf /\ (j <> 0)%nat) as Hin'.
  { intros rd (j & r & buf & Hj & Ho & Hb & ->)%Hin. exists (S j), r, buf. split_and!; try done. f_equal. lia. }
  destruct (is_op read_ops req) eqn:E.
  - assert (io_op req = UNIFYFS_IOREQ_OP_READ) as Hop by (apply bool_decide_eq_true in E; by apply list_elem_of_singleton in E).
    destruct (Hbuf 0%nat req eq_refl Hop) as [buf Hb]. rewrite Hb. cbn [lbind]. eexists. split; [done|]. split; [cbn; lia|]. split_and!.
    + cbn. constructor; [|done]. intros (rd & -> & Hrd)%list_elem_of_fmap. destruct (Hin' rd Hrd) as (j & r & b & _ & _ & _ & Heq & Hj).
      apply (f_equal rr_aiocbp) in Heq. cbn in Heq. lia.
    + intros rd [->|Hrd]%elem_of_cons; [|destruct (Hin' rd Hrd) as (j & r & b & ? & ? & ? & ? & _); by exists j, r, b].
      exists 0%nat, req, buf. split_and!; try done. by rewrite Z.add_0_r.
    + intros [|j] r b Hj Ho Hbu; cbn in Hj.
      * injection Hj as <-. rewrite Hb in Hbu. injection Hbu as <-. rewrite Z.add_0_r. left.
      * right. replace (i + Z.of_nat (S j)) with (i + 1 + Z.of_nat j) by lia. by apply Hcov.
  - eexists. split; [done|]. split_and!; try done.
    + intros rd Hrd. destruct (Hin' rd Hrd) as (j & r & b & ? & ? & ? & ? & _). by exists j, r, b.
    + intros [|j] r b Hj Ho Hbu; cbn in Hj.
      * injection Hj as <-. apply bool_decide_eq_false in E. destruct E. rewrite Ho. left.
      * replace (i + Z.of_nat (S j)) with (i + 1 + Z.of_nat j) by lia. by apply Hcov.
Qed.

(** The result of a read is found by its index, in whatever order the results
    are. *)
Lemma find_served (R : read_req -> read_req -> Prop) rds rds' rds'' rd :
  Permutation rds' rds'' -> Forall2 R rds rds'' -> (forall r r', R r r' -> rr_aiocbp r' = rr_aiocbp r) -> NoDup (rr_aiocbp <$> rds) -> rd ∈ rds ->
  exists rd', List.find (fun r => rr_aiocbp r =? rr_aiocbp rd) rds' = Some rd' /\ R rd rd'.
Proof.
  intros Hp HR Hid Hnd Hin.
  assert (rr_aiocbp <$> rds'' = rr_aiocbp <$> rds) as Hids by (clear -HR Hid; induction HR; cbn; [done|]; f_equal; auto).
  assert (NoDup (rr_aiocbp <$> rds')) as Hnd' by (by rewrite Hp Hids).
  apply list_elem_of_lookup in Hin as [n Hn]. destruct (Forall2_lookup_l _ _ _ _ _ HR Hn) as (rd' & Hn' & Hr).
  assert (rd' ∈ rds') as Hin' by (rewrite Hp; by eapply list_elem_of_lookup_2).
  exists rd'. split; [|done]. clear -Hnd' Hin' Hid Hr. specialize (Hid _ _ Hr). induction rds' as [|x l IH]; [by apply not_elem_of_nil in Hin'|].
  cbn in *. apply NoDup_cons in Hnd' as [Hx Hnd']. apply elem_of_cons in Hin' as [->|Hin'].
  - by rewrite Hid Z.eqb_refl.
  - rewrite (proj2 (Z.eqb_neq _ _)); [|by apply IH]. intros Heq. apply Hx. rewrite Heq -Hid. by apply list_elem_of_fmap_2.
Qed.

(** ** The batch *)

Definition reset_request req : unifyfs_io_request :=
  io_set_result (IoResult UNIFYFS_SUCCESS 0 0) (io_set_state UNIFYFS_REQ_STATE_INVALID req).

Lemma init_requests_ok f reqs : Forall (req_ok f) reqs -> init_requests reqs = (reset_request <$> reqs, true).
Proof.
  induction 1 as [|req reqs Hr Hok IH]; [done|]. cbn [init_requests]. change (io_op (io_set_result _ _)) with (io_op req). rewrite IH.
  unfold req_ok in Hr. by destruct (io_op req).
Qed.

Lemma alloc_arrays_plenty needed : forall m, mem_plenty m -> exists m', alloc_arrays m needed = (m', true) /\ mem_plenty m'.
Proof.
  induction needed as [|[] needed IH]; intros m Hm; cbn [alloc_arrays]; [by exists m| |by apply IH].
  destruct (calloc_plenty m Hm) as (m' & -> & Hm' & _). by apply IH.
Qed.

Lemma filter_op_fmap ops (g : unifyfs_io_request -> unifyfs_io_request) reqs :
  (forall r, io_op (g r) = io_op r) -> List.filter (is_op ops) (g <$> reqs) = g <$> List.filter (is_op ops) reqs.
Proof.
  intros Hg. induction reqs as [|r reqs IH]; [done|]. cbn. assert (is_op ops (g r) = is_op ops r) as -> by (unfold is_op; by rewrite Hg).
  destruct (is_op ops r); cbn; by rewrite IH.
Qed.

Lemma filter_op_ok f ops (P : unifyfs_io_request -> Prop) reqs :
  Forall (req_ok f) reqs -> (forall r, io_op r ∈ ops -> req_ok f r -> P r) -> Forall P (List.filter (is_op ops) reqs).
Proof.
  intros Hok HP. apply Forall_forall. intros r Hr. apply list_elem_of_In, List.filter_In in Hr as [Hin%list_elem_of_In Hop%bool_decide_eq_true].
  rewrite Forall_forall in Hok. by apply HP; [|apply Hok].
Qed.

(** What a request says at the end. *)
Definition io_outcome f reqs req req' : Prop :=
  io_state req' = UNIFYFS_REQ_STATE_COMPLETED /\
  match io_op req with
  | UNIFYFS_IOREQ_OP_READ =>
      exists bs buf, gs_visible f (io_gfid req) = Some bs /\ io_user_buf req' = Some buf /\
        (forall k, 0 <= k < avail bs (io_offset req) (io_nbytes req) -> buf k = byte bs (io_offset req + k)) /\
        (length (List.filter (is_op read_ops) reqs) = 1%nat ->
          ir_count (io_result req') = avail bs (io_offset req) (io_nbytes req) /\
          (ir_error (io_result req') = UNIFYFS_SUCCESS \/ ir_error (io_result req') = ENODATA))
  | UNIFYFS_IOREQ_OP_WRITE | UNIFYFS_IOREQ_OP_ZERO => write_done (gl_fid f) req req'
  | UNIFYFS_IOREQ_NOP => True
  | _ => ir_error (io_result req') = UNIFYFS_SUCCESS
  end.

(** The reads: each of them gets the contents of its file, and is found by its
    index. *)
Lemma reads_spec f reqs k :
  fs_inv f -> fs_good f k -> Forall (req_ok f) reqs ->
  exists rds f1 rds1, read_requests 0 reqs = LRet rds /\ fl_reads f rds = LRet (f1, rds1, UNIFYFS_SUCCESS) /\ keeps f f1 /\
    (forall g, gl_fid f1 g = gl_fid f g) /\ length rds1 = length (List.filter (is_op read_ops) reqs) /\
    forall j req, reqs !! j = Some req -> io_op req = UNIFYFS_IOREQ_OP_READ ->
      exists bs rd buf, gs_visible f (io_gfid req) = Some bs /\ io_user_buf req = Some buf /\ io_range req /\
        List.find (fun r => rr_aiocbp r =? Z.of_nat j) rds1 = Some rd /\ served bs (read_req_of (Z.of_nat j) req buf) rd.
Proof.
  intros Hinv Hg Hok.
  assert (forall j req, reqs !! j = Some req -> req_ok f req) as Hokj by (intros j req Hj; by eapply Forall_lookup_1).
  destruct (read_requests_spec reqs 0) as (rds & Hrds & Hlrd & Hnd & Hin & Hcov).
  { intros j req Hj Hop. specialize (Hokj j req Hj). unfold req_ok in Hokj. rewrite Hop in Hokj. by apply Hokj. }
  destruct (gs_reads f rds k Hinv Hg) as (f1 & rds1 & rds2 & Hfl & Hkp & Hl1 & Hperm & Hserved).
  { apply Forall_forall. intros rd (j & req & buf & Hj & Hop & Hb & ->)%Hin. specialize (Hokj j req Hj). unfold req_ok in Hokj. rewrite Hop in Hokj.
    destruct Hokj as (_ & Hv & (Ho & Hn & Hmax) & Hpos). cbn. rewrite u64_small; [unfold is_u64, ULONG_MAX, unifyfs_max_offt in *; lia|]. split_and!; done || lia. }
  exists rds, f1, rds1. split_and!; try done; [rewrite Hperm -Hlrd; symmetry; by eapply Forall2_length|].
  intros j req Hj Hop. pose proof (Hokj j req Hj) as Hr. unfold req_ok in Hr. rewrite Hop in Hr. destruct Hr as ([buf Hb] & [bs Hv] & Hrange & _).
  pose proof (Hcov j req buf Hj Hop Hb) as Hmem. rewrite Z.add_0_l in Hmem.
  destruct (find_served _ rds rds1 rds2 (read_req_of (Z.of_nat j) req buf) Hperm
    Hserved) as (rd & Hfind & bs' & Hv' & Hsv); [by intros ? ? (? & _ & [])|done|done|].
  cbn in Hv'. rewrite Hv in Hv'. injection Hv' as <-. by exists bs, rd, buf.
Qed.

Lemma request_outcome f reqs rds1 j req req' :
  length rds1 = length (List.filter (is_op read_ops) reqs) ->
  (io_op req = UNIFYFS_IOREQ_OP_READ ->
    exists bs rd buf, gs_visible f (io_gfid req) = Some bs /\ io_user_buf req = Some buf /\ io_range req /\
      List.find (fun r => rr_aiocbp r =? Z.of_nat j) rds1 = Some rd /\ served bs (read_req_of (Z.of_nat j) req buf) rd) ->
  request_done (gl_fid f) rds1 rds1 (Z.of_nat j) req req' -> io_outcome f reqs req req'.
Proof.
  intros Hlen Hrd [Hst Hd]. split; [done|]. destruct (io_op req); try done.
  destruct Hd as (Hbuf & rd' & Hin & He & Hc). destruct (Hrd eq_refl) as (bs & rd & buf & Hv & Hb & (Ho & Hn & Hmax) & Hfind & [Hid Herr [Hnr Hdata]]).
  rewrite Hb in Hbuf. unfold read_buffer in Hbuf. rewrite Hfind in Hbuf. cbn in Hbuf, Hnr, Hdata.
  rewrite u64_small in Hnr, Hdata; try (unfold is_u64, ULONG_MAX, unifyfs_max_offt in *; lia).
  exists bs, (rr_buf rd). split_and!; try done. rewrite -Hlen. destruct rds1 as [|x [|]]; intros [=]. 
  apply list_elem_of_singleton in Hin as ->. cbn in Hfind. destruct (_ =? _); [|done]. injection Hfind as ->. by rewrite Hc He.
Qed.

Lemma process_batch_spec f m reqs :
  fs_inv f -> mem_plenty m -> fs_good f (batch_bytes reqs) -> Forall fresh reqs -> Forall (req_ok f) reqs ->
  exists f' m' reqs', process_batch f m reqs = LRet (f', m', reqs', UNIFYFS_SUCCESS) /\ fs_inv f' /\
    (forall i, fs_file f' i = batch_files (gl_fid f) reqs (fs_file f) i) /\ length reqs' = length reqs /\
    forall j req, reqs !! j = Some req -> exists req', reqs' !! j = Some req' /\ io_outcome f reqs req req'.
Proof.
  intros Hinv Hm Hg Hfr Hok. unfold process_batch.
  assert (forall ops, Forall fresh (List.filter (is_op ops) reqs)) as Hfrf.
  { intros ops. apply Forall_forall. intros r Hr. apply list_elem_of_In, List.filter_In in Hr as [Hin%list_elem_of_In _].
    rewrite Forall_forall in Hfr. by apply Hfr. }
  destruct (reads_spec f reqs _ Hinv Hg Hok) as (rds & f1 & rds1 & -> & Hfl & Hkp & Hl1 & Hlrd & Hread). cbn [lbind]. rewrite Hfl.
  cbn [lbind]. pose proof (stable_keeps _ _ Hkp Hl1) as Hst1. change (negb (UNIFYFS_SUCCESS =? UNIFYFS_SUCCESS)) with false. cbn iota.
  destruct (writes_spec (List.filter (is_op write_ops) reqs) f1 m 0 (kp_inv _ _ Hkp) Hm ltac:(lia)) as (f2 & m2 & wrs & -> & Hm2 & Hst2 & Hg2 & Hdw & Hfile2).
  { apply Hkp. by rewrite Z.add_0_l. }
  { apply Hfrf. }
  { eapply filter_op_ok; [exact Hok|]. intros r Hop Hr. eapply write_ok_stable, write_ok; [done|by apply bool_decide_eq_true|done]. }
  cbn [lbind]. change (negb (UNIFYFS_SUCCESS =? UNIFYFS_SUCCESS)) with false. cbn iota. pose proof (stable_trans _ _ _ Hst1 Hst2) as Hst12.
  destruct (truncates_spec (List.filter (is_op trunc_ops) reqs) f2 0 (st_inv _ _ Hst2) Hg2 (Hfrf _)) as (f3 & trs & -> & Hst3 & Hg3 & Hdt & Hfile3).
  { eapply filter_op_ok; [exact Hok|]. intros r Hop Hr. unfold req_ok in Hr. apply list_elem_of_singleton in Hop as E. rewrite E in Hr.
    split; [by eapply stable_known; [|apply Hr]|apply Hr]. }
  cbn [lbind]. pose proof (stable_trans _ _ _ Hst12 Hst3) as Hst13.
  destruct (syncs_spec (List.filter (is_op sync_ops) reqs) f3 0 false (st_inv _ _ Hst3) Hg3 (Hfrf _)) as (f4 & ss & -> & Hinv4 & Hds & Hfile4).
  { eapply filter_op_ok; [exact Hok|]. intros r Hop Hr. unfold req_ok in Hr.
    apply elem_of_cons in Hop as [E|E%list_elem_of_singleton]; [by left|right]. rewrite E in Hr. split; [done|by eapply stable_known]. }
  cbn [lbind]. destruct (update_requests_spec (gl_fid f) rds1 reqs 0 rds1 wrs trs ss) as (reqs' & -> & Hlen & Hres); try done.
  { eapply Forall2_impl; [exact Hdw|]. unfold write_done. intros r r'. by rewrite Hl1. }
  { eapply Forall_impl; [exact Hok|]. intros r Hr. unfold req_ok in Hr. by destruct (io_op r). }
  cbn [lbind]. eexists _, _, _. split; [done|]. split; [done|]. split; [|split; [done|]].
  - intros i. rewrite Hfile4 Hfile3. unfold batch_files. apply foldl_files; [|intros j; rewrite Hfile2; apply foldl_files].
    + intros files files' r Hff j. unfold apply_trunc, on_file. by rewrite (st_lookup _ _ Hst12) Hff.
    + intros files files' r Hff j'. unfold apply_write, on_file. rewrite Hl1. by destruct (_ =? -1); [|rewrite Hff].
    + apply Hkp.
  - intros j req Hj. destruct (Hres j req Hj) as (req' & Hj' & Hd). exists req'. split; [done|]. rewrite Z.add_0_l in Hd.
    eapply request_outcome; [exact Hlrd| |exact Hd]. intros Hop. by apply (Hread j).
Qed.

(** Requests that differ only in their state and result. *)
Lemma batch_reset (g : unifyfs_io_request -> unifyfs_io_request) reqs :
  (forall r, io_op (g r) = io_op r /\ io_user_buf (g r) = io_user_buf r /\ io_nbytes (g r) = io_nbytes r /\ io_offset (g r) = io_offset r /\
    io_gfid (g r) = io_gfid r) ->
  batch_bytes (g <$> reqs) = batch_bytes reqs /\ (forall f, Forall (req_ok f) reqs -> Forall (req_ok f) (g <$> reqs)) /\
  (forall lookup files, batch_files lookup (g <$> reqs) files = batch_files lookup reqs files) /\
  (forall f r r', io_outcome f (g <$> reqs) (g r) r' -> io_outcome f reqs r r').
Proof.
  intros Hg. assert (forall ops, List.filter (is_op ops) (g <$> reqs) = g <$> List.filter (is_op ops) reqs) as Hfil.
  { intros ops. apply filter_op_fmap. intros r. apply Hg. }
  split_and!.
  - unfold batch_bytes. rewrite Hfil. induction (List.filter _ reqs) as [|r l IH]; [done|]. cbn. destruct (Hg r) as (_ & _ & -> & _). by rewrite IH.
  - intros f. rewrite Forall_fmap. intros Hok. eapply Forall_impl; [exact Hok|]. intros r. cbn. unfold req_ok, known, io_range.
    by destruct (Hg r) as (-> & -> & -> & -> & ->).
  - intros lookup files. unfold batch_files. rewrite !Hfil. generalize (List.filter (is_op trunc_ops) reqs). intros l2.
    assert (forall files r, apply_write lookup files (g r) = apply_write lookup files r) as Hw.
    { intros fs r. unfold apply_write, io_data. by destruct (Hg r) as (-> & -> & -> & -> & ->). }
    assert (forall l files, foldl (apply_write lookup) files (g <$> l) = foldl (apply_write lookup) files l) as ->.
    { induction l as [|r l IH]; intros fs; [done|]. cbn. by rewrite Hw IH. }
    generalize (foldl (apply_write lookup) files (List.filter (is_op write_ops) reqs)). induction l2 as [|r l IH]; intros fs; [done|]. cbn.
    unfold apply_trunc at 2 4. destruct (Hg r) as (_ & _ & _ & -> & ->). apply IH.
  - intros f r r' [Hst H]. split; [done|]. revert H. rewrite Hfil length_fmap. unfold write_done. by destruct (Hg r) as (-> & _ & -> & -> & ->).
Qed.


End Batch.

(** ** Files in memory *)

#[export] Instance byte_gfid_layer : GfidLayer byte_files := {
  gl_fid b gfid := if bool_decide (is_Some (bf_files b !! gfid)) then gfid else -1;
  gl_logio_sync b := LRet (b, UNIFYFS_SUCCESS);
}.

Lemma byte_fid_alter (b : byte_files) g fid h paths room :
  gl_fid (ByteFiles (alter h fid (bf_files b)) paths room) g = gl_fid b g.
Proof.
  cbn. destruct (decide (g = fid)) as [->|Hne]; [|by rewrite lookup_alter_ne]. rewrite lookup_alter_eq.
  by destruct (bf_files b !! fid).
Qed.

#[export] Program Instance byte_gfid_spec : GfidSpec byte_files := { gs_visible b gfid := bf_files b !! gfid }.
Next Obligation.
  intros b fid pos data b' rc n g _ Hw. unfold fl_write in Hw. cbn in Hw. destruct (_ <=? _); injection Hw as <- _ _; [|done]. apply byte_fid_alter.
Qed.
Next Obligation. intros b fid n b' rc g _ Ht. injection Ht as <- _. apply byte_fid_alter. Qed.
Next Obligation. intros b fid b' rc g _ Hs. by injection Hs as <- _. Qed.
Next Obligation.
  intros b fid bs n k _ Hbs _ Hg. eexists. split; [done|]. cbn in *. split_and!; try done.
  - by rewrite lookup_alter_eq Hbs.
  - intros i Hi. by rewrite lookup_alter_ne.
Qed.
Next Obligation. intros b k _ _. exists b. by split_and!. Qed.
Next Obligation.
  intros b reqs k _ _ Hall. eexists _, _, _. split; [done|]. split; [done|]. split; [done|]. split; [done|].
  induction Hall as [|r reqs ([bs Hbs] & Ho & Hl & _) Hall IH]; cbn; [constructor|]. constructor; [|done]. exists bs. split; [done|].
  unfold bf_read_req. cbn in Hbs. rewrite Hbs. split; [done|by left|]. split; [done|]. intros x Hx. cbn.
  rewrite (proj2 (Z.leb_le 0 x)) ?(proj2 (Z.ltb_lt x _)) //; lia.
Qed.

(** A truncation before a write and a read after both of them, in the order of
    the array. *)
Definition batch_example : list unifyfs_io_request :=
  let req buf n off gfid op := IoRequest buf n off gfid op UNIFYFS_REQ_STATE_INVALID (IoResult 0 0 0) in
  [req None 0 4 7 UNIFYFS_IOREQ_OP_TRUNC; req (Some (fun k => 90 - k)) 3 2 7 UNIFYFS_IOREQ_OP_WRITE;
   req (Some (fun _ => 1)) 2 0 9 UNIFYFS_IOREQ_OP_WRITE; req (Some (fun _ => 0)) 8 0 7 UNIFYFS_IOREQ_OP_READ;
   req None 0 0 7 UNIFYFS_IOREQ_OP_SYNC_META].

Definition batch_start : byte_files := ByteFiles {[ 7 := [65; 66; 67] ]} [] 100.


(** The file at the end, and the results. *)
Lemma batch_example_run :
  match unifyfs_dispatch_io batch_start (Mem 1 []) batch_example with
  | LRet (f, _, reqs, rc) =>
      rc = UNIFYFS_SUCCESS /\ bf_files f !! 7 = Some [65; 66; 90; 89] /\
      (fun r => (ir_error (io_result r), ir_count (io_result r))) <$> reqs = [(0, 0); (0, 3); (EINVAL, 0); (0, 3); (0, 0)]
  | _ => False
  end.
Proof. vm_compute. split_and!; reflexivity. Qed.
