(* ===== verification/LibApiEdge.v ===== *)
(** * Unexpected behaviour of the library interface

    Runs of [unifyfs_api_file.c] and [unifyfs_api_io.c] on concrete clients,
    with results that a caller does not expect. *)

From Stdlib Require Import String.
From S2P Require Import Prelude.
From S2P Require Import LogIO.
From S2P Require Import IdStack.
From S2P Require Import ArrayList.
From S2P Require Import Meta.
From S2P Require Import Inode.
From S2P Require Import SegTree.
From S2P Require Import Client.
From S2P Require Import ClientRead.
From S2P Require Import ClientWrite.
From S2P Require Import PosixClient.
From S2P Require Import FileSpec.
From S2P Require Import LibApi.
From S2P Require Import LibApiProps.

Definition api_req (buf : option (Z -> Z)) (n off gfid : Z) (op : unifyfs_ioreq_op) : unifyfs_io_request :=
  IoRequest buf n off gfid op UNIFYFS_REQ_STATE_INVALID (IoResult 0 0 0).

(** ** Results of reads *)

(** A server that has every byte of every file: the reads of a request are
    completed with 7 everywhere. *)
Definition all_sevens (s : list unifyfs_index) (r : client_reads) (id : Z) (_ : list unifyfs_extent_t)
    : lres (list unifyfs_index * client_reads * Z) :=
  let! st := client_get_mread_status r id in
  let! st := lift_option st in
  let fill q := ReadReq (rr_gfid q) (rr_offset q) (rr_length q) (fun _ => 7) (rr_aiocbp q) 0 (rr_length q) (rr_length q) UNIFYFS_SUCCESS in
  LRet (s, put_mread r (MreadStatus (mr_id st) (fill <$> mr_reqs st) (Z.of_nat (length (mr_reqs st))) 0), UNIFYFS_SUCCESS).

#[local] Instance edge_layer : FidLayer (client_files (list unifyfs_index)) :=
  client_fid_layer (ClientEnv 0 0 (Timespec 0 0) (fun _ => [])) (fun _ d => inr (Z.of_nat (length d))) (fun _ _ => inl 5) None
    (fun _ => None) (fun _ _ => inl 2) all_sevens (fun l => l).
#[local] Instance edge_gfids : GfidLayer (client_files (list unifyfs_index)) := client_gfid_layer None.

Definition edge_files : client_files (list unifyfs_index) := ClientFiles ex_client (ClientReads (ArrayList 4 0 (replicate 4 None)) 0) [].

(** File 5 has three bytes in the log of the client, file 6 is read from the
    server.  Two reads of one batch: both buffers are right, but the counts are
    those of the other request. *)
Lemma read_counts_swapped :
  match unifyfs_dispatch_io edge_files (Mem 1 []) [api_req (Some (fun k => 65 + k)) 3 0 5 UNIFYFS_IOREQ_OP_WRITE] with
  | LRet (f, m, _, _) =>
      match unifyfs_dispatch_io f m [api_req (Some (fun _ => 0)) 5 0 6 UNIFYFS_IOREQ_OP_READ; api_req (Some (fun _ => 0)) 3 0 5 UNIFYFS_IOREQ_OP_READ] with
      | LRet (_, _, reqs, rc) =>
          rc = UNIFYFS_SUCCESS /\ ((fun r => region_read (default (fun _ => 0) (io_user_buf r)) 0 (io_nbytes r)) <$> reqs) = [[7; 7; 7; 7; 7]; [65; 66; 67]] /\
          ((fun r => ir_count (io_result r)) <$> reqs) = [3; 5]
      | _ => False
      end
  | _ => False
  end.
Proof. vm_compute. split_and!; reflexivity. Qed.

(** ** Unknown files *)

(** A truncation of a file that the client does not have fails an assertion. *)
Lemma truncate_unknown_aborts : unifyfs_dispatch_io edge_files (Mem 1 []) [api_req None 0 0 9 UNIFYFS_IOREQ_OP_TRUNC] = LFault.
Proof. vm_compute. reflexivity. Qed.

(** ** Memory *)

(** Without memory for the zeroes of the second request, this request stays in
    progress, so that waiting for it never ends, and the first one reports an
    error although its data was written. *)
Lemma zero_without_memory :
  match unifyfs_dispatch_io batch_start (Mem 1 [false; true])
    [api_req (Some (fun _ => 88)) 2 0 7 UNIFYFS_IOREQ_OP_WRITE; api_req None 4 0 7 UNIFYFS_IOREQ_OP_ZERO] with
  | LRet (f, _, reqs, rc) =>
      rc = UNIFYFS_SUCCESS /\ bf_files f !! 7 = Some [88; 88; 67] /\
      ((fun r => (io_state r, ir_error (io_result r), ir_count (io_result r))) <$> reqs) =
        [(UNIFYFS_REQ_STATE_COMPLETED, ENOMEM, 2); (UNIFYFS_REQ_STATE_IN_PROGRESS, ENOMEM, 0)] /\
      unifyfs_wait_io reqs true = LBlocked
  | _ => False
  end.
Proof. vm_compute. split_and!; reflexivity. Qed.

(** ** Files *)

Section Edge.
Context {S : Type} `{!ServerRpc S, !ApiRpc S} (env : client_env) (mount : string).
Implicit Types (f : client_files S).

(** A file that is to be private is created on the server, and then not opened:
    the call fails. *)
Lemma create_exclusive_fails f path :
  is_unifyfs_path mount path = true -> pathlen path <= UNIFYFS_MAX_FILENAME ->
  exists s rc, unifyfs_set_global_file_meta (cf_server f) (gfid_of_path env path) ATTR_OP_CREATE
      (new_attrs env path UNIFYFS_STAT_DEFAULT_FILE_MODE (cc_use_excl_private (cl_cfg (cf_client f)))) = (s, rc) /\
    unifyfs_create env mount f O_EXCL path =
      LRet (set_server f s, (if rc =? UNIFYFS_SUCCESS then EINVAL else rc, UNIFYFS_INVALID_GFID)).
Proof.
  intros Hp Hl. unfold unifyfs_create. rewrite Hp. cbn [negb]. unfold unifyfs_gfid_create. rewrite Z.gtb_ltb (proj2 (Z.ltb_ge _ _)) //.
  change (bits O_EXCL O_EXCL) with true. cbn [andb].
  destruct (unifyfs_set_global_file_meta _ _ _ _) as [s rc]. exists s, rc. split; [done|]. rewrite andb_false_r.
  destruct (rc =? UNIFYFS_SUCCESS) eqn:E; cbn [negb]; [|done]. unfold unifyfs_open. rewrite Hp. done.
Qed.

(** When the server does not answer, [unifyfs_stat] reports success and what the
    client knew. *)
Lemma stat_hides_failure f gfid fid meta rc :
  gfid <> UNIFYFS_INVALID_GFID -> unifyfs_fid_from_gfid (cf_client f) gfid = fid -> fid <> -1 ->
  unifyfs_get_meta_from_fid (cf_client f) fid = LRet (cf_client f, true) -> cl_filemetas (cf_client f) !! Z.to_nat fid = Some meta ->
  rpc_metaget (cf_server f) gfid = inl rc ->
  exists f' st, unifyfs_stat f gfid = LRet (f', (UNIFYFS_SUCCESS, Some st)) /\ fst_global_file_size st = fa_size (fm_attrs meta).
Proof.
  intros Hg Hfid Hne Hget Hmeta Hrc. unfold unifyfs_stat. rewrite (proj2 (Z.eqb_neq _ _)) // Hfid (proj2 (Z.eqb_neq _ _)) //.
  rewrite Hget. cbn [with_client lbind negb cf_server cf_client cf_reads]. rewrite Hrc. cbn [lbind cf_client]. rewrite Hmeta. cbn [lift_option lbind].
  by eexists _, _.
Qed.

End Edge.
