(* ===== verification/LibTransfer.v ===== *)
(** * The library interface: transfers of files

    [client/src/client_transfer.c] and [client/src/unifyfs_api_transfer.c].  A
    transfer out of the file system is done by the servers; the client keeps a
    list of the active ones, in which the id of a transfer, modulo the capacity,
    is its index.  A transfer points to the request of the application, which
    the call of the server that completes it changes. *)

From Stdlib Require Import String.
From S2P Require Import Prelude.
From S2P Require Import LogIO.
From S2P Require Import ArrayList.
From S2P Require Import Meta.
From S2P Require Import Inode.
From S2P Require Import Client.
From S2P Require Import ClientRead.
From S2P Require Import PosixClient.
From S2P Require Import LibApi.

(** ** Data *)

Inductive unifyfs_transfer_mode := UNIFYFS_TRANSFER_MODE_INVALID | UNIFYFS_TRANSFER_MODE_COPY | UNIFYFS_TRANSFER_MODE_MOVE.

#[export] Instance transfer_mode_eq_dec : EqDecision unifyfs_transfer_mode.
Proof. solve_decision. Defined.

(** The time is a number of ticks. *)
Record unifyfs_transfer_result := TransferResult {
  tr_error : Z;
  tr_rc : Z;
  tr_file_size_bytes : Z;
  tr_transfer_time : Z;
}.

Record unifyfs_transfer_request := TransferRequest {
  tq_src_path : string;
  tq_dst_path : string;
  tq_mode : unifyfs_transfer_mode;
  tq_use_parallel : Z;
  tq_state : unifyfs_req_state;
  tq_result : unifyfs_transfer_result;
  tq_reqid : Z;
}.

Definition tq_set_state (st : unifyfs_req_state) (q : unifyfs_transfer_request) : unifyfs_transfer_request :=
  TransferRequest (tq_src_path q) (tq_dst_path q) (tq_mode q) (tq_use_parallel q) st (tq_result q) (tq_reqid q).
Definition tq_set_reqid (id : Z) (q : unifyfs_transfer_request) : unifyfs_transfer_request :=
  TransferRequest (tq_src_path q) (tq_dst_path q) (tq_mode q) (tq_use_parallel q) (tq_state q) (tq_result q) id.
Definition tq_set_result (r : unifyfs_transfer_result) (q : unifyfs_transfer_request) : unifyfs_transfer_request :=
  TransferRequest (tq_src_path q) (tq_dst_path q) (tq_mode q) (tq_use_parallel q) (tq_state q) r (tq_reqid q).

(** [ts_req]: the index of the request among those of the application. *)
Record client_transfer_status := TransferStatus {
  ts_req : nat;
  ts_complete : bool;
  ts_src_in_unify : bool;
}.

(** The requests of the application, the active transfers and the generator of
    ids. *)
Record transfers := Transfers {
  tf_reqs : list unifyfs_transfer_request;
  tf_active : arraylist_t client_transfer_status;
  tf_id_generator : Z;
}.

Definition tf_set_active (a : arraylist_t client_transfer_status) (t : transfers) : transfers :=
  Transfers (tf_reqs t) a (tf_id_generator t).
(** A write to a request through a pointer to it. *)
Definition put_req (i : nat) (g : unifyfs_transfer_request -> unifyfs_transfer_request) (t : transfers) : transfers :=
  Transfers (alter g i (tf_reqs t)) (tf_active t) (tf_id_generator t).

(** ** The list of active transfers *)

(** The return code; on success the request has the id of the transfer. *)
Definition client_create_transfer (m : mem) (t : transfers) (req : nat) (src_in_unify : bool) : lres (mem * transfers * Z) :=
  let active := tf_active t in
  if arraylist_size (Some active) =? arraylist_capacity (Some active) then LRet (m, t, UNIFYFS_FAILURE)
  else
    let! '(transfer_id, req_ndx, gen) := generate_id (Z.to_nat (arraylist_capacity (Some active))) active (tf_id_generator t) in
    let '(p, m) := calloc m in
    match p with
    | None => LRet (m, Transfers (tf_reqs t) active gen, ENOMEM)
    | Some _ =>
        let! '(m, active, _, rc) := lift_option (arraylist_insert m active req_ndx (Some (TransferStatus req false src_in_unify))) in
        let t := Transfers (tf_reqs t) active gen in
        if negb (rc =? 0) then LRet (m, t, rc) else LRet (m, put_req req (tq_set_reqid transfer_id) t, UNIFYFS_SUCCESS)
    end.

(** The transfer at the index of the id. *)
Definition client_get_transfer (t : transfers) (transfer_id : Z) : lres (option client_transfer_status) :=
  lift_option (arraylist_get (Some (tf_active t)) (id_to_list_index (tf_active t) transfer_id)).

Definition client_check_transfer_complete (t : transfers) (transfer : client_transfer_status) : lres bool :=
  let! req := lift_option (tf_reqs t !! ts_req transfer) in
  LRet (match tq_state req with
        | UNIFYFS_REQ_STATE_IN_PROGRESS => ts_complete transfer
        | UNIFYFS_REQ_STATE_CANCELED | UNIFYFS_REQ_STATE_COMPLETED => true
        | UNIFYFS_REQ_STATE_INVALID => false
        end).

(** The call of the server at the end of a transfer. *)
Definition client_complete_transfer (t : transfers) (transfer_id error_code transfer_size transfer_time : Z) : lres (transfers * Z) :=
  let! transfer := client_get_transfer t transfer_id in
  match transfer with
  | None => LRet (t, EINVAL)
  | Some st =>
      let! req := lift_option (tf_reqs t !! ts_req st) in
      let res := TransferResult error_code (tr_rc (tq_result req)) transfer_size transfer_time in
      let ndx := Z.to_nat (id_to_list_index (tf_active t) transfer_id) in
      let active := ArrayList (al_cap (tf_active t)) (al_size (tf_active t))
        (<[ndx := Some (TransferStatus (ts_req st) true (ts_src_in_unify st))]> (al_elems (tf_active t))) in
      LRet (put_req (ts_req st) (fun q => tq_set_state UNIFYFS_REQ_STATE_COMPLETED (tq_set_result res q)) (tf_set_active active t), UNIFYFS_SUCCESS)
  end.

(** ** Submission, waiting and cleaning up *)

Section Transfers.
Context {S : Type} `{!ServerRpc S, !ApiRpc S} (env : client_env) (mount_prefix : string).
(** The call to the server that starts a transfer: the id, the file, whether it
    is parallel, and the destination. *)
Context (rpc_transfer : S -> Z -> Z -> Z -> string -> S * Z).
Implicit Types (f : client_files S) (t : transfers).

(** A request that fails. *)
Definition tq_failed (rc : Z) (q : unifyfs_transfer_request) : unifyfs_transfer_request :=
  tq_set_state UNIFYFS_REQ_STATE_COMPLETED (tq_set_result (TransferResult rc UNIFYFS_FAILURE 0 0) q).

(** One pass of the loop, for the request [i]: the last component is whether
    the return code of the loop becomes an error. *)
Definition submit_transfer f m t (i : nat) (req : unifyfs_transfer_request) : lres (client_files S * mem * transfers * bool) :=
  match tq_mode req with
  | UNIFYFS_TRANSFER_MODE_INVALID => LRet (f, m, put_req i (tq_failed EINVAL) t, false)
  | _ =>
      let src_in_unify := is_unifyfs_path mount_prefix (tq_src_path req) in
      let dst_in_unify := is_unifyfs_path mount_prefix (tq_dst_path req) in
      let! '(f, m, t, rc) :=
        if eqb src_in_unify dst_in_unify then LRet (f, m, t, EINVAL)
        else
          let t := put_req i (tq_set_state UNIFYFS_REQ_STATE_IN_PROGRESS) t in
          let! '(m, t, rc) := client_create_transfer m t i src_in_unify in
          if rc =? UNIFYFS_SUCCESS then
            if src_in_unify then
              let! q := lift_option (tf_reqs t !! i) in
              let '(s, rc) := rpc_transfer (cf_server f) (tq_reqid q) (gfid_of_path env (tq_src_path req)) (tq_use_parallel req) (tq_dst_path req) in
              LRet (set_server f s, m, t, rc)
            else LRet (f, m, t, UNIFYFS_ERROR_NYI)
          else LRet (f, m, t, rc) in
      if negb (rc =? UNIFYFS_SUCCESS) then LRet (f, m, put_req i (tq_failed rc) t, true) else LRet (f, m, t, false)
  end.

Fixpoint client_submit_transfers f m t (i n : nat) : lres (client_files S * mem * transfers * Z) :=
  match n with
  | O => LRet (f, m, t, UNIFYFS_SUCCESS)
  | Datatypes.S n =>
      let! req := lift_option (tf_reqs t !! i) in
      let! '(f, m, t, failed) := submit_transfer f m t i req in
      let! '(f, m, t, ret) := client_submit_transfers f m t (Datatypes.S i) n in
      LRet (f, m, t, if failed then UNIFYFS_FAILURE else ret)
  end.

(** All requests of the application are passed. *)
Definition unifyfs_dispatch_transfer f m t : lres (client_files S * mem * transfers * Z) :=
  client_submit_transfers f m t 0 (length (tf_reqs t)).

(** The source of a completed move is removed. *)
Definition client_cleanup_transfer f t (transfer : client_transfer_status) : lres (client_files S * transfers * Z) :=
  let! req := lift_option (tf_reqs t !! ts_req transfer) in
  let! f :=
    if bool_decide (tq_state req = UNIFYFS_REQ_STATE_COMPLETED) && bool_decide (tq_mode req = UNIFYFS_TRANSFER_MODE_MOVE) &&
       ts_src_in_unify transfer
    then let! '(f, _) := unifyfs_remove env mount_prefix f (tq_src_path req) in LRet f
    else LRet f in
  let! '(active, item) := lift_option (arraylist_remove (tf_active t) (id_to_list_index (tf_active t) (tq_reqid req))) in
  LRet (f, tf_set_active active t,
        match item with Some st => if bool_decide (ts_req st = ts_req transfer) then UNIFYFS_SUCCESS else UNIFYFS_FAILURE | None => UNIFYFS_FAILURE end).

(** [unifyfs_cancel_transfer]: the transfers go on. *)
Definition unifyfs_cancel_transfer t : transfers * Z :=
  if bool_decide (tf_reqs t = []) then (t, UNIFYFS_SUCCESS)
  else
    (Transfers ((fun q => if bool_decide (tq_state q = UNIFYFS_REQ_STATE_COMPLETED) then q else tq_set_state UNIFYFS_REQ_STATE_CANCELED q) <$> tf_reqs t)
       (tf_active t) (tf_id_generator t), UNIFYFS_ERROR_NYI).

Definition tq_done (q : unifyfs_transfer_request) : bool :=
  bool_decide (tq_state q = UNIFYFS_REQ_STATE_CANCELED) || bool_decide (tq_state q = UNIFYFS_REQ_STATE_COMPLETED).

(** One request in a pass of the loop; whether it is done. *)
Definition check_request f t (i : nat) : lres (client_files S * transfers * bool) :=
  let! req := lift_option (tf_reqs t !! i) in
  let! transfer := client_get_transfer t (tq_reqid req) in
  let! complete := match transfer with Some st => client_check_transfer_complete t st | None => LRet false end in
  match transfer, complete with
  | Some st, true => let! '(f, t, _) := client_cleanup_transfer f t st in LRet (f, t, true)
  | _, _ => LRet (f, t, tq_done req)
  end.

Fixpoint check_requests f t (i n : nat) (n_done : Z) : lres (client_files S * transfers * Z) :=
  match n with
  | O => LRet (f, t, n_done)
  | Datatypes.S n =>
      let! '(f, t, done) := check_request f t i in
      check_requests f t (Datatypes.S i) n (if done then n_done + 1 else n_done)
  end.

(** A call of a server: id, error, size and time. *)
Definition completion : Type := Z * Z * Z * Z.

Fixpoint complete_all t (cs : list completion) : lres transfers :=
  match cs with
  | [] => LRet t
  | (id, err, size, time) :: cs => let! '(t, _) := client_complete_transfer t id err size time in complete_all t cs
  end.

Definition max_loop : nat := Z.to_nat 6000.

(** [events i]: the calls of the servers while the loop sleeps for the [i]-th
    time. *)
Fixpoint wait_loop (fuel : nat) f t (waitall : bool) (events : nat -> list completion) (loop_cnt : nat) : lres (client_files S * transfers * Z) :=
  match fuel with
  | O => LRet (f, t, ETIMEDOUT)
  | Datatypes.S fuel =>
      let nreqs := length (tf_reqs t) in
      let! '(f, t, n_done) := check_requests f t 0 nreqs 0 in
      if (if waitall then n_done =? Z.of_nat nreqs else negb (n_done =? 0)) then LRet (f, t, UNIFYFS_SUCCESS)
      else
        let! t := complete_all t (events loop_cnt) in
        wait_loop fuel f t waitall events (Datatypes.S loop_cnt)
  end.

Definition unifyfs_wait_transfer f t (waitall : bool) (events : nat -> list completion) : lres (client_files S * transfers * Z) :=
  if bool_decide (tf_reqs t = []) then LRet (f, t, UNIFYFS_SUCCESS) else wait_loop max_loop f t waitall events 0.

End Transfers.
