(* ===== verification/LibTransferProps.v ===== *)
(** * Correctness of the transfers of the library interface

    Transfers that are dispatched together have different ids; a wait for them
    returns when the servers have completed all of them, in whatever order, and
    each request then has its own result. *)

From Stdlib Require Import String.
From S2P Require Import Prelude.
From S2P Require Import LogIO.
From S2P Require Import ArrayList.
From S2P Require Import Meta.
From S2P Require Import Inode.
From S2P Require Import Client.
From S2P Require Import ClientRead.
From S2P Require Import ClientReadProps.
From S2P Require Import PosixClient.
From S2P Require Import LibApi.
From S2P Require Import LibTransfer.

Implicit Types (t : transfers) (g : gmap nat client_transfer_status) (q : unifyfs_transfer_request).

Abbreviation tcap t := (al_cap (tf_active t)).

(** ** The invariant *)

(** The transfer of a request: in progress, or completed and perhaps not yet
    removed from the list. *)
Definition transfer_state t g (i : nat) q : Prop :=
  let st := g !! slot_of (tcap t) (tq_reqid q) in
  tq_state q = UNIFYFS_REQ_STATE_IN_PROGRESS /\ (exists b, st = Some (TransferStatus i false b)) \/
  tq_state q = UNIFYFS_REQ_STATE_COMPLETED /\ (st = None \/ exists c b, st = Some (TransferStatus i c b)).

Record waiting t g : Prop := {
  wt_repr : al_repr (tf_active t) g;
  wt_cap : tcap t < 4294967296;
  wt_req i q : tf_reqs t !! i = Some q -> tq_mode q = UNIFYFS_TRANSFER_MODE_COPY /\ transfer_state t g i q;
  wt_slot i j q q' : tf_reqs t !! i = Some q -> tf_reqs t !! j = Some q' -> slot_of (tcap t) (tq_reqid q) = slot_of (tcap t) (tq_reqid q') -> i = j;
  wt_only j st : g !! j = Some st -> exists q, tf_reqs t !! ts_req st = Some q /\ slot_of (tcap t) (tq_reqid q) = j;
}.

Lemma list_index_eq t g id : al_repr (tf_active t) g -> tcap t < 4294967296 -> id_to_list_index (tf_active t) id = id mod tcap t.
Proof. intros [_ Hc _ _] Hcap. unfold id_to_list_index. simpl. unfold u32. rewrite (Z.mod_small (al_cap _)); [lia|done]. Qed.

Lemma get_transfer_spec t g id : al_repr (tf_active t) g -> tcap t < 4294967296 -> client_get_transfer t id = LRet (g !! slot_of (tcap t) id).
Proof.
  intros Hr Hcap. unfold client_get_transfer. rewrite (list_index_eq t g) //. pose proof (al_repr_cap _ _ Hr).
  pose proof (Z.mod_pos_bound id (tcap t) ltac:(lia)). by rewrite (al_get_ok _ g _ Hr); [lia|].
Qed.

Lemma arraylist_remove_cap {A} (arr arr' : arraylist_t A) pos x : arraylist_remove arr pos = Some (arr', x) -> al_cap arr' = al_cap arr.
Proof. unfold arraylist_remove. destruct (arraylist_get _ _) as [[]|]; cbn; [|by intros [= <-]|done]. by intros [= <-]. Qed.

(** ** One pass of the wait *)

Section Wait.
Context {S : Type} `{!ServerRpc S, !ApiRpc S} (env : client_env) (mount : string).
Implicit Types (f : client_files S).

(** The transfer of a request that is done leaves the list; the requests stay as
    they are. *)
Lemma check_request_spec f t g i q :
  waiting t g -> tf_reqs t !! i = Some q ->
  exists t' g', check_request env mount f t i = LRet (f, t', tq_done q) /\ waiting t' g' /\ tf_reqs t' = tf_reqs t /\ tcap t' = tcap t /\
    (tq_done q = true -> g' !! slot_of (tcap t) (tq_reqid q) = None) /\ (forall j, g !! j = None -> g' !! j = None).
Proof.
  intros Hw Hq. pose proof Hw as [Hr Hcap Hreq Hslot Honly]. destruct (Hreq i q Hq) as [Hmode Hst]. unfold check_request. rewrite Hq. cbn [lift_option lbind].
  rewrite (get_transfer_spec t g) //. cbn [lbind]. unfold transfer_state in Hst. unfold tq_done.
  destruct Hst as [[Hs [b Hg]]|[Hs [Hg|(c & b & Hg)]]]; rewrite Hg Hs.
  - unfold client_check_transfer_complete. cbn [ts_req]. rewrite Hq. cbn [lift_option lbind]. rewrite Hs. cbn. by exists t, g.
  - cbn [lbind]. exists t, g. split_and!; done.
  - unfold client_check_transfer_complete. cbn [ts_req]. rewrite Hq. cbn [lift_option lbind]. rewrite Hs. cbn [lbind].
    unfold client_cleanup_transfer. cbn [ts_req]. rewrite Hq. cbn [lift_option lbind]. rewrite Hmode (bool_decide_false (_ = UNIFYFS_TRANSFER_MODE_MOVE)) // andb_false_r.
    cbn [lbind]. rewrite (list_index_eq t g) //. pose proof (al_repr_cap _ _ Hr). pose proof (Z.mod_pos_bound (tq_reqid q) (tcap t) ltac:(lia)).
    destruct (arraylist_remove_ok (tf_active t) g (tq_reqid q mod tcap t) Hr ltac:(lia)) as (arr & Hrm & Hr' & _).
    pose proof (arraylist_remove_cap _ _ _ _ Hrm) as Hc. rewrite Hrm. cbn [lift_option lbind].
    exists (tf_set_active arr t), (delete (slot_of (tcap t) (tq_reqid q)) g). split; [done|]. split; [|split_and!; try done].
    + split; cbn [tf_active tf_reqs tf_set_active]; rewrite ?Hc; try done; try lia.
      * intros j q' Hj. destruct (Hreq j q' Hj) as [Hm' Hst']. split; [done|]. unfold transfer_state in *. cbn [tf_active tf_set_active]. rewrite Hc.
        destruct (decide (i = j)) as [<-|Hne].
        { rewrite Hq in Hj. injection Hj as <-. right. split; [done|]. left. apply lookup_delete_eq. }
        rewrite lookup_delete_ne //. intros Heq. apply Hne. by apply (Hslot i j q q').
      * intros j st [Hne Hj]%lookup_delete_Some. by apply Honly.
    + intros _. apply lookup_delete_eq.
    + intros j Hj. by apply lookup_delete_None; right.
Qed.

(** How many of the requests are done. *)
Definition n_done (qs : list unifyfs_transfer_request) : Z := Z.of_nat (length (List.filter tq_done qs)).

Lemma check_requests_spec n : forall f t g i k,
  waiting t g -> (i + n)%nat = length (tf_reqs t) ->
  exists t' g', check_requests env mount f t i n k = LRet (f, t', k + n_done (drop i (tf_reqs t))) /\ waiting t' g' /\ tf_reqs t' = tf_reqs t /\
    tcap t' = tcap t /\ (forall j, g !! j = None -> g' !! j = None) /\
    forall j q, (i <= j)%nat -> tf_reqs t !! j = Some q -> tq_done q = true -> g' !! slot_of (tcap t) (tq_reqid q) = None.
Proof.
  induction n as [|n IH]; intros f t g i k Hw Hi; cbn [check_requests].
  { exists t, g. rewrite drop_ge; [lia|]. split_and!; try done; [by rewrite Z.add_0_r|]. intros j q Hj Hq. apply lookup_lt_Some in Hq. lia. }
  destruct (lookup_lt_is_Some_2 (tf_reqs t) i) as [q Hq]; [lia|].
  destruct (check_request_spec f t g i q Hw Hq) as (t1 & g1 & -> & Hw1 & Hreqs1 & Hc1 & Hfree1 & Hsub1). cbn [lbind].
  destruct (IH f t1 g1 (Datatypes.S i) (if tq_done q then k + 1 else k) Hw1) as (t2 & g2 & -> & Hw2 & Hreqs2 & Hc2 & Hsub2 & Hfree2); [rewrite Hreqs1; lia|].
  exists t2, g2. rewrite Hreqs1 in Hreqs2, Hfree2 |- *. rewrite Hc1 in Hc2, Hfree2. split.
  { rewrite (drop_S _ q i Hq). unfold n_done. cbn. do 2 f_equal. destruct (tq_done q); cbn; lia. }
  split_and!; try done; [eauto|]. intros j q' Hj Hq' Hd. destruct (decide (i = j)) as [<-|Hne]; [|apply (Hfree2 j); [lia|done|done]].
  rewrite Hq in Hq'. injection Hq' as <-. eauto.
Qed.

(** ** Calls of the servers *)

Definition completed_with q (err size time : Z) : unifyfs_transfer_request :=
  tq_set_state UNIFYFS_REQ_STATE_COMPLETED (tq_set_result (TransferResult err (tr_rc (tq_result q)) size time) q).

Lemma al_repr_update {A} (arr : arraylist_t A) (g : gmap nat A) j old x :
  al_repr arr g -> g !! j = Some old -> al_repr (ArrayList (al_cap arr) (al_size arr) (<[j := Some x]> (al_elems arr))) (<[j := x]> g).
Proof.
  intros [Hl Hc Hg [[Hs HL] H0]] Hj. assert (j < length (al_elems arr))%nat as Hlt.
  { rewrite Hg in Hj. destruct (al_elems arr !! j) eqn:E; [|done]. by eapply lookup_lt_Some. }
  split; cbn; [by rewrite length_insert|done| |split; [|done]; split].
  - intros i. destruct (decide (i = j)) as [->|Hne]; [by rewrite lookup_insert_eq list_lookup_insert_eq|by rewrite lookup_insert_ne // list_lookup_insert_ne].
  - intros i [->|Hi]%lookup_insert_is_Some'; [apply Hs; eauto|by apply Hs].
  - destruct HL as [?|HL]; [by left|right]. apply lookup_insert_is_Some'. by right.
Qed.

Lemma complete_transfer_spec t g i q err size time :
  waiting t g -> tf_reqs t !! i = Some q -> tq_state q = UNIFYFS_REQ_STATE_IN_PROGRESS ->
  exists t' g', client_complete_transfer t (tq_reqid q) err size time = LRet (t', UNIFYFS_SUCCESS) /\ waiting t' g' /\ tcap t' = tcap t /\
    tf_reqs t' = <[i := completed_with q err size time]> (tf_reqs t).
Proof.
  intros Hw Hq Hst. pose proof Hw as [Hr Hcap Hreq Hslot Honly]. unfold client_complete_transfer. rewrite (get_transfer_spec t g) //. cbn [lbind].
  destruct (Hreq i q Hq) as [Hmode [[_ [b Hg]]|[? _]]]; [|congruence]. rewrite Hg. cbn [ts_req ts_src_in_unify]. rewrite Hq. cbn [lift_option lbind].
  rewrite (list_index_eq t g) //. fold (slot_of (tcap t) (tq_reqid q)). set (j := slot_of _ _) in *.
  assert (alter (fun q0 => tq_set_state UNIFYFS_REQ_STATE_COMPLETED (tq_set_result (TransferResult err (tr_rc (tq_result q)) size time) q0)) i (tf_reqs t) =
    <[i := completed_with q err size time]> (tf_reqs t)) as Halt.
  { apply list_eq. intros k. destruct (decide (k = i)) as [->|Hne].
    - rewrite list_lookup_alter_eq Hq list_lookup_insert_eq //. by eapply lookup_lt_Some.
    - by rewrite list_lookup_alter_ne // list_lookup_insert_ne. }
  eexists _, (<[j := TransferStatus i true b]> g). split; [done|]. split; [|by split].
  split; cbn [tf_active tf_reqs tf_set_active put_req al_cap].
  - by eapply al_repr_update.
  - done.
  - rewrite Halt. intros k q' [(<- & <- & _)|[Hne Hk]]%list_lookup_insert_Some.
    { split; [done|]. unfold transfer_state. cbn [tq_reqid completed_with tq_set_state tq_set_result tf_active al_cap]. fold j. right. split; [done|]. right.
      exists true, b. by rewrite lookup_insert_eq. }
    destruct (Hreq k q' Hk) as [Hm' Hst']. split; [done|]. unfold transfer_state in *. cbn [tf_active al_cap]. rewrite lookup_insert_ne //.
    intros Heq. apply Hne. by apply (Hslot i k q q').
  - rewrite Halt. intros k1 k2 q1 q2 H1 H2. apply list_lookup_insert_Some in H1 as [(<- & <- & _)|[_ H1]], H2 as [(<- & <- & _)|[_ H2]]; try done; eauto.
  - rewrite Halt. intros k st [[<- <-]|[Hne Hk]]%lookup_insert_Some.
    + exists (completed_with q err size time). split; [|done]. rewrite list_lookup_insert_eq //. by eapply lookup_lt_Some.
    + destruct (Honly k st Hk) as (q' & Hq' & <-). destruct (decide (ts_req st = i)) as [Hi|Hi].
      * rewrite Hi Hq in Hq'. injection Hq' as <-. done.
      * exists q'. by rewrite list_lookup_insert_ne.
Qed.

(** The request is completed by one of the calls, or was complete before. *)
Definition completed_by (cs : list completion) q q' : Prop :=
  tq_state q = UNIFYFS_REQ_STATE_COMPLETED /\ q' = q \/
  tq_state q = UNIFYFS_REQ_STATE_IN_PROGRESS /\ exists err size time, (tq_reqid q, err, size, time) ∈ cs /\ q' = completed_with q err size time.

Definition comp_id (c : completion) : Z := let '(id, _, _, _) := c in id.

(** The calls are for requests in progress, at most one for each. *)
Definition calls_ok t (cs : list completion) : Prop :=
  NoDup (comp_id <$> cs) /\ forall c, c ∈ cs -> exists i q, tf_reqs t !! i = Some q /\ tq_state q = UNIFYFS_REQ_STATE_IN_PROGRESS /\ tq_reqid q = comp_id c.

Lemma complete_all_spec cs : forall t g rest,
  waiting t g -> calls_ok t (cs ++ rest) ->
  exists t' g', complete_all t cs = LRet t' /\ waiting t' g' /\ tcap t' = tcap t /\ length (tf_reqs t') = length (tf_reqs t) /\ calls_ok t' rest /\
    forall i q, tf_reqs t !! i = Some q -> exists q', tf_reqs t' !! i = Some q' /\
      (completed_by cs q q' \/ q' = q /\ tq_state q = UNIFYFS_REQ_STATE_IN_PROGRESS /\ tq_reqid q ∉ comp_id <$> cs).
Proof.
  induction cs as [|[[[id err] size] time] cs IH]; intros t g rest Hw Hok; cbn [complete_all].
  { exists t, g. split_and!; try done. intros i q Hq. exists q. split; [done|]. destruct (wt_req _ _ Hw i q Hq) as [_ [[? _]|[? _]]].
    - right. split_and!; try done. apply not_elem_of_nil.
    - left. by left. }
  destruct Hok as [Hnd Hcs]. cbn in Hnd. apply NoDup_cons in Hnd as [Hid Hnd].
  destruct (Hcs (id, err, size, time)) as (i & q & Hq & Hst & Hqid); [left|]. cbn in Hqid. subst id.
  destruct (complete_transfer_spec t g i q err size time Hw Hq Hst) as (t1 & g1 & -> & Hw1 & Hc1 & Hreqs1). cbn [lbind].
  destruct (IH t1 g1 rest Hw1) as (t2 & g2 & -> & Hw2 & Hc2 & Hl2 & Hok2 & Hres2).
  { split; [done|]. intros c Hc. destruct (Hcs c) as (j & q' & Hj & Hs' & Hid'); [by right|]. exists j, q'. split_and!; try done. rewrite Hreqs1.
    rewrite list_lookup_insert_ne //. intros ->. apply Hid. rewrite Hq in Hj. injection Hj as <-. rewrite Hid'. by apply list_elem_of_fmap_2. }
  exists t2, g2. rewrite Hc1 in Hc2. rewrite Hreqs1 length_insert in Hl2. split_and!; try done. intros j q' Hj.
  destruct (decide (i = j)) as [<-|Hne].
  - rewrite Hq in Hj. injection Hj as <-. destruct (Hres2 i (completed_with q err size time)) as (q2 & Hq2 & Hcase).
    { rewrite Hreqs1 list_lookup_insert_eq //. by eapply lookup_lt_Some. }
    exists q2. split; [done|]. left. right. split; [done|]. exists err, size, time. split; [left|].
    destruct Hcase as [[[_ ->]|[? _]]|(_ & ? & _)]; done.
  - destruct (Hres2 j q') as (q2 & Hq2 & Hcase); [by rewrite Hreqs1 list_lookup_insert_ne|]. exists q2. split; [done|].
    destruct Hcase as [[[? ->]|(? & e & s & tm & Hin & ->)]|(-> & ? & Hnin)].
    + left. by left.
    + left. right. split; [done|]. exists e, s, tm. split; [by right|done].
    + right. split_and!; try done. cbn. rewrite not_elem_of_cons. split; [|done]. intros Heq. apply Hne.
      apply (wt_slot _ _ Hw i j q q' Hq Hj). by rewrite Heq.
Qed.

(** ** The wait *)

Lemma all_done_empty t g :
  waiting t g -> (forall i q, tf_reqs t !! i = Some q -> g !! slot_of (tcap t) (tq_reqid q) = None) -> g = ∅.
Proof.
  intros Hw Hall. apply map_eq. intros j. rewrite lookup_empty. destruct (g !! j) as [st|] eqn:Hj; [|done].
  destruct (wt_only _ _ Hw j st Hj) as (q & Hq & <-). by rewrite (Hall _ _ Hq) in Hj.
Qed.

Lemma n_done_all qs : n_done qs = Z.of_nat (length qs) <-> Forall (fun q => tq_done q = true) qs.
Proof.
  unfold n_done. split.
  - induction qs as [|q qs IH]; [done|]. cbn. pose proof (List.filter_length_le tq_done qs) as Hle. destruct (tq_done q) eqn:E; cbn; [|lia]. intros H. constructor; [done|].
    apply IH. lia.
  - induction 1 as [|q qs Hq _ IH]; [done|]. cbn. rewrite Hq. cbn. lia.
Qed.

Lemma wait_loop_spec k : forall fuel f t g (events : nat -> list completion) loop_cnt,
  waiting t g -> (k < fuel)%nat -> calls_ok t (seq loop_cnt k ≫= events) ->
  (forall i q, tf_reqs t !! i = Some q -> tq_state q = UNIFYFS_REQ_STATE_IN_PROGRESS -> tq_reqid q ∈ comp_id <$> (seq loop_cnt k ≫= events)) ->
  exists t', wait_loop env mount fuel f t true events loop_cnt = LRet (f, t', UNIFYFS_SUCCESS) /\ al_repr (tf_active t') ∅ /\
    forall i q, tf_reqs t !! i = Some q -> exists q', tf_reqs t' !! i = Some q' /\ completed_by (seq loop_cnt k ≫= events) q q'.
Proof.
  induction k as [|k IH]; intros [|fuel] f t g events loop_cnt Hw Hfuel Hok Hall; try lia; cbn [wait_loop];
    destruct (check_requests_spec (length (tf_reqs t)) f t g 0 0 Hw eq_refl) as (t1 & g1 & -> & Hw1 & Hreqs1 & Hc1 & _ & Hfree1); cbn [lbind];
    rewrite drop_0 Z.add_0_l.
  - assert (Forall (fun q => tq_state q = UNIFYFS_REQ_STATE_COMPLETED) (tf_reqs t)) as Hst.
    { apply Forall_forall. intros q [i Hq]%list_elem_of_lookup. destruct (wt_req _ _ Hw i q Hq) as [_ [[Hs _]|[? _]]]; [|done].
      specialize (Hall i q Hq Hs). by apply not_elem_of_nil in Hall. }
    assert (Forall (fun q => tq_done q = true) (tf_reqs t)) as Hdone.
    { eapply Forall_impl; [exact Hst|]. intros q Hs. unfold tq_done. by rewrite Hs. }
    rewrite (proj2 (Z.eqb_eq _ _)); [by apply n_done_all|]. exists t1. split; [done|]. split.
    + rewrite -(all_done_empty t1 g1 Hw1); [|apply Hw1]. intros i q Hq. rewrite Hreqs1 in Hq. rewrite Hc1. apply (Hfree1 i); [lia|done|].
      rewrite Forall_lookup in Hdone. by eapply Hdone.
    + intros i q Hq. exists q. rewrite Hreqs1. split; [done|]. left. split; [|done]. rewrite Forall_lookup in Hst. by eapply Hst.
  - cbn [seq] in *. rewrite bind_cons in Hok, Hall |- *. destruct (n_done (tf_reqs t) =? _) eqn:E; zbool.
    + apply n_done_all in E. rewrite Forall_lookup in E. exists t1. split; [done|]. split.
      * rewrite -(all_done_empty t1 g1 Hw1); [|apply Hw1]. intros i q Hq. rewrite Hreqs1 in Hq. rewrite Hc1. apply (Hfree1 i); [lia|done|by eapply E].
      * intros i q Hq. exists q. rewrite Hreqs1. split; [done|]. left. split; [|done]. specialize (E i q Hq). unfold tq_done in E.
        destruct (wt_req _ _ Hw i q Hq) as [_ [[Hs _]|[? _]]]; [|done]. by rewrite Hs in E.
    + destruct (complete_all_spec (events loop_cnt) t1 g1 (seq (Datatypes.S loop_cnt) k ≫= events) Hw1) as (t2 & g2 & -> & Hw2 & Hc2 & Hl2 & Hok2 & Hres2).
      { destruct Hok as [Hnd Hcs]. split; [done|]. by rewrite Hreqs1. }
      cbn [lbind]. destruct (IH fuel f t2 g2 events (Datatypes.S loop_cnt) Hw2 ltac:(lia) Hok2) as (t3 & -> & Hr3 & Hres3).
      { intros i q2 Hq2 Hs2. destruct (lookup_lt_is_Some_2 (tf_reqs t1) i) as [q Hq]; [rewrite -Hl2; by eapply lookup_lt_Some|].
        destruct (Hres2 i q Hq) as (q2' & Hq2' & Hcase). rewrite Hq2 in Hq2'. injection Hq2' as <-.
        destruct Hcase as [[[? ->]|(? & ? & ? & ? & _ & ->)]|(-> & Hs & Hnin)]; [congruence|done|].
        rewrite Hreqs1 in Hq. specialize (Hall i q Hq Hs). rewrite fmap_app elem_of_app in Hall. tauto. }
      exists t3. split; [done|]. split; [done|]. intros i q Hq. rewrite -Hreqs1 in Hq. destruct (Hres2 i q Hq) as (q2 & Hq2 & Hcase).
      destruct (Hres3 i q2 Hq2) as (q3 & Hq3 & Hby). exists q3. split; [done|].
      destruct Hcase as [[[Hs ->]|(Hs & e & s & tm & Hin & ->)]|(-> & Hs & Hnin)].
      * destruct Hby as [[_ ->]|[? _]]; [by left|congruence].
      * destruct Hby as [[_ ->]|[? _]]; [|done]. right. split; [done|]. exists e, s, tm. split; [|done]. apply elem_of_app. by left.
      * destruct Hby as [[? _]|(_ & e & s & tm & Hin & ->)]; [congruence|]. right. split; [done|]. exists e, s, tm. split; [|done]. apply elem_of_app. by right.
Qed.

(** ** The dispatch *)

Context (rpc_transfer : S -> Z -> Z -> Z -> string -> S * Z).

(** A copy out of the file system. *)
Definition copy_out q : Prop :=
  tq_mode q = UNIFYFS_TRANSFER_MODE_COPY /\ is_unifyfs_path mount (tq_src_path q) = true /\ is_unifyfs_path mount (tq_dst_path q) = false.

Definition submitted_req (gen : Z) (i : nat) q : unifyfs_transfer_request :=
  tq_set_reqid (u32 (gen + Z.of_nat i)) (tq_set_state UNIFYFS_REQ_STATE_IN_PROGRESS q).

(** The first [i] of the requests [qs] were submitted, from id [gen] on. *)
Record submitted (qs : list unifyfs_transfer_request) (gen cap : Z) t g (i : nat) : Prop := {
  sb_repr : al_repr (tf_active t) g;
  sb_cap : tcap t = cap;
  sb_gen : tf_id_generator t = u32 (gen + Z.of_nat i);
  sb_len : length (tf_reqs t) = length qs;
  sb_req j q : qs !! j = Some q -> tf_reqs t !! j = Some (if (j <? i)%nat then submitted_req gen j q else q);
  sb_map j : g !! j = (if (Z.to_nat (gen mod cap) <=? j)%nat && (j <? Z.to_nat (gen mod cap) + i)%nat
    then Some (TransferStatus (j - Z.to_nat (gen mod cap)) false true) else None);
}.

Lemma slot_of_id gen cap (i : nat) :
  (cap | 4294967296) -> 0 < cap -> gen mod cap + Z.of_nat i < cap -> slot_of cap (u32 (gen + Z.of_nat i)) = (Z.to_nat (gen mod cap) + i)%nat.
Proof.
  intros [k Hk] Hc Hlt. unfold slot_of. assert (u32 (gen + Z.of_nat i) mod cap = gen mod cap + Z.of_nat i) as ->.
  - unfold u32. rewrite Hk (Z.mul_comm k) Z.rem_mul_r; [lia|nia|]. rewrite (Z.mul_comm cap) Z_mod_plus_full Z.mod_mod; [lia|].
    pose proof (Z.mod_pos_bound gen cap Hc). rewrite Z.add_mod; [lia|]. rewrite (Z.mod_small (Z.of_nat i)); [lia|]. apply Z.mod_small. lia.
  - pose proof (Z.mod_pos_bound gen cap Hc). lia.
Qed.

Lemma create_transfer_spec qs gen cap m t g i q :
  submitted qs gen cap t g i -> mem_plenty m -> (cap | 4294967296) -> cap <= INT_MAX -> gen mod cap + Z.of_nat (length qs) <= cap -> qs !! i = Some q ->
  exists m' t' g', client_create_transfer m (put_req i (tq_set_state UNIFYFS_REQ_STATE_IN_PROGRESS) t) i true = LRet (m', t', UNIFYFS_SUCCESS) /\
    mem_plenty m' /\ submitted qs gen cap t' g' (Datatypes.S i).
Proof.
  intros [Hr Hcap Hgen Hlen Hreq Hmap] Hm Hdiv Hmax Hroom Hq. pose proof (lookup_lt_Some _ _ _ Hq) as Hi.
  pose proof (al_repr_cap _ _ Hr) as Hc1. assert (0 < cap) as Hc0 by lia. pose proof (Z.mod_pos_bound gen cap Hc0) as Hb.
  set (b := Z.to_nat (gen mod cap)) in *. pose proof (slot_of_id gen cap i Hdiv Hc0 ltac:(lia)) as Hslot. fold b in Hslot.
  unfold client_create_transfer. cbn [put_req tf_active tf_id_generator tf_reqs arraylist_size arraylist_capacity].
  assert (al_size (tf_active t) <= Z.of_nat (b + i)) as Hsz.
  { destruct (al_repr_size _ _ Hr) as [[_ [Hs|[x Hs]]] H0]; [lia|]. rewrite Hmap in Hs.
    destruct (_ && _) eqn:E; [|done]. apply andb_true_iff in E as [_ E%Nat.ltb_lt]. lia. }
  rewrite (proj2 (Z.eqb_neq _ _)); [rewrite Hcap; lia|].
  assert (exists fuel, Z.to_nat (al_cap (tf_active t)) = Datatypes.S fuel) as [fuel ->] by (exists (Nat.pred (Z.to_nat (al_cap (tf_active t)))); lia).
  cbn [generate_id]. rewrite (list_index_eq t g _ Hr) ?Hcap; [unfold INT_MAX in *; lia|]. rewrite Hgen.
  set (id := u32 (gen + Z.of_nat i)) in *. pose proof (Z.mod_pos_bound id cap Hc0) as Hmod. rewrite (al_get_ok _ g _ Hr); [lia|].
  fold (slot_of cap id). assert (g !! slot_of cap id = None) as Hnone.
  { rewrite Hmap Hslot. rewrite (proj2 (Nat.ltb_ge _ _)); [lia|]. by rewrite andb_false_r. }
  rewrite Hnone. cbn [lift_option lbind]. destruct (calloc_plenty m Hm) as (m1 & -> & Hm1 & _).
  destruct (arraylist_insert_ok m1 (tf_active t) g (id mod cap) (TransferStatus i false true) Hr) as (m2 & arr & fr & rc & Hins & _ & Hp & Hcase); [lia|lia|].
  destruct (Hp Hm1) as [Hm2 ->]. destruct Hcase as [[? _]|(_ & _ & Hr' & _)]; [done|]. rewrite Hins. cbn [lift_option lbind].
  assert (al_cap arr = cap) as Hcap'.
  { unfold arraylist_insert, arraylist_grow in Hins. rewrite Hcap Z.geb_leb (proj2 (Z.leb_gt _ _)) /= in Hins; [lia|].
    destruct (al_entry _ _) as [x|]; simpl in Hins; [|done]. injection Hins as _ <- _. done. }
  eexists m2, _, _. split; [done|]. split; [done|]. split; cbn [tf_active tf_reqs tf_id_generator put_req].
  - exact Hr'.
  - done.
  - unfold id, u32. rewrite Zplus_mod_idemp_l. f_equal. lia.
  - by rewrite !length_alter.
  - intros j q' Hj. specialize (Hreq j q' Hj). destruct (decide (j = i)) as [->|Hne].
    + rewrite Hq in Hj. injection Hj as <-. rewrite !list_lookup_alter_eq Hreq Nat.ltb_irrefl (proj2 (Nat.ltb_lt _ _)) //. lia.
    + rewrite !list_lookup_alter_ne // Hreq. do 2 f_equal. destruct (j <? i)%nat eqn:E; [apply Nat.ltb_lt in E|apply Nat.ltb_ge in E].
      * rewrite (proj2 (Nat.ltb_lt _ _)) //. lia.
      * rewrite (proj2 (Nat.ltb_ge _ _)) //. lia.
  - intros j. fold b. cbn [fst spec_insert]. fold (slot_of cap id). rewrite Hslot. destruct (decide (j = (b + i)%nat)) as [->|Hne].
    + rewrite lookup_insert_eq (proj2 (Nat.leb_le _ _)) ?(proj2 (Nat.ltb_lt _ _)) /=; [lia|lia|]. do 2 f_equal. lia.
    + rewrite lookup_insert_ne // Hmap. destruct (b <=? j)%nat eqn:E1; [|done]. cbn [andb]. destruct (j <? b + i)%nat eqn:E2.
      * apply Nat.ltb_lt in E2. by rewrite (proj2 (Nat.ltb_lt _ _)); [lia|].
      * apply Nat.ltb_ge in E2. by rewrite (proj2 (Nat.ltb_ge _ _)); [lia|].
Qed.

Lemma submit_all n : forall qs gen cap f m t g i,
  (forall s id gfid p d, exists s', rpc_transfer s id gfid p d = (s', UNIFYFS_SUCCESS)) -> Forall copy_out qs ->
  submitted qs gen cap t g i -> mem_plenty m -> (cap | 4294967296) -> cap <= INT_MAX -> gen mod cap + Z.of_nat (length qs) <= cap ->
  (i + n)%nat = length qs ->
  exists f' m' t' g', client_submit_transfers env mount rpc_transfer f m t i n = LRet (f', m', t', UNIFYFS_SUCCESS) /\
    submitted qs gen cap t' g' (length qs).
Proof.
  induction n as [|n IH]; intros qs gen cap f m t g i Hrpc Hall Hsub Hm Hdiv Hmax Hroom Hi; cbn [client_submit_transfers].
  { exists f, m, t, g. split; [done|]. by replace (length qs) with i by lia. }
  destruct (lookup_lt_is_Some_2 qs i) as [q Hq]; [lia|]. rewrite (sb_req _ _ _ _ _ _ Hsub i q Hq) Nat.ltb_irrefl. cbn [lift_option lbind].
  rewrite Forall_lookup in Hall. destruct (Hall i q Hq) as (Hmode & Hsrc & Hdst). unfold submit_transfer. rewrite Hmode Hsrc Hdst. cbn [eqb].
  destruct (create_transfer_spec qs gen cap m t g i q Hsub Hm Hdiv Hmax Hroom Hq) as (m1 & t1 & g1 & -> & Hm1 & Hsub1). cbn [lbind].
  change (UNIFYFS_SUCCESS =? UNIFYFS_SUCCESS) with true. cbn iota.
  rewrite (sb_req _ _ _ _ _ _ Hsub1 i q Hq). cbn [lift_option lbind].
  destruct (Hrpc (cf_server f) (tq_reqid (if (i <? Datatypes.S i)%nat then submitted_req gen i q else q)) (gfid_of_path env (tq_src_path q))
    (tq_use_parallel q) (tq_dst_path q)) as [s' ->]. cbn [lbind]. change (negb (UNIFYFS_SUCCESS =? UNIFYFS_SUCCESS)) with false. cbn [lbind].
  destruct (IH qs gen cap (set_server f s') m1 t1 g1 (Datatypes.S i)) as (f2 & m2 & t2 & g2 & -> & Hsub2); try done; [by apply Forall_lookup|lia|].
  cbn [lbind]. by exists f2, m2, t2, g2.
Qed.

(** Everything submitted: the wait can begin. *)
Lemma submitted_waiting qs gen cap t g :
  submitted qs gen cap t g (length qs) -> Forall copy_out qs -> (cap | 4294967296) -> cap <= INT_MAX -> gen mod cap + Z.of_nat (length qs) <= cap ->
  waiting t g.
Proof.
  intros [Hr Hcap Hgen Hlen Hreq Hmap] Hall Hdiv Hmax Hroom. pose proof (al_repr_cap _ _ Hr) as Hc1. assert (0 < cap) as Hc0 by lia.
  pose proof (Z.mod_pos_bound gen cap Hc0) as Hb. rewrite Forall_lookup in Hall.
  assert (forall i q, tf_reqs t !! i = Some q -> exists q0, qs !! i = Some q0 /\ q = submitted_req gen i q0 /\
    slot_of cap (tq_reqid q) = (Z.to_nat (gen mod cap) + i)%nat) as Hq.
  { intros i q Hi. destruct (lookup_lt_is_Some_2 qs i) as [q0 Hq0]; [rewrite -Hlen; by eapply lookup_lt_Some|]. exists q0. split; [done|].
    pose proof (lookup_lt_Some _ _ _ Hq0). specialize (Hreq i q0 Hq0). rewrite (proj2 (Nat.ltb_lt _ _)) // Hi in Hreq. injection Hreq as ->.
    split; [done|]. apply slot_of_id; [done|done|lia]. }
  split.
  - done.
  - unfold INT_MAX in *. lia.
  - intros i q Hi. destruct (Hq i q Hi) as (q0 & Hq0 & -> & Hs). pose proof (lookup_lt_Some _ _ _ Hq0). destruct (Hall i q0 Hq0) as [Hm _].
    split; [done|]. left. split; [done|]. exists true. rewrite Hcap Hs Hmap (proj2 (Nat.leb_le _ _)) ?(proj2 (Nat.ltb_lt _ _)) /=; [lia|lia|].
    do 2 f_equal. lia.
  - intros i j q q' Hi Hj. rewrite Hcap. destruct (Hq i q Hi) as (_ & _ & _ & ->), (Hq j q' Hj) as (_ & _ & _ & ->). lia.
  - intros j st Hj. rewrite Hmap in Hj. destruct (_ && _) eqn:E; [|done]. apply andb_true_iff in E as [E1%Nat.leb_le E2%Nat.ltb_lt].
    injection Hj as <-. cbn [ts_req]. destruct (lookup_lt_is_Some_2 (tf_reqs t) (j - Z.to_nat (gen mod cap))) as [q Hi]; [lia|].
    exists q. split; [done|]. rewrite Hcap. destruct (Hq _ _ Hi) as (_ & _ & _ & ->). lia.
Qed.

(** C33. Copies out of the file system, from dispatch to the end of the wait: when the
    list of transfers is empty and has room, the servers take all of them, and
    call the client once for each before the wait gives up, in whatever order
    and at whatever times, then the dispatch succeeds, the wait for all of them
    succeeds, each request has the result of its own call, and the list is empty
    again. *)
Theorem transfers_complete f m t (events : nat -> list completion) (k : nat) :
  al_repr (tf_active t) ∅ -> (tcap t | 4294967296) -> tcap t <= INT_MAX -> 0 <= tf_id_generator t < 4294967296 ->
  tf_id_generator t mod tcap t + Z.of_nat (length (tf_reqs t)) <= tcap t -> mem_plenty m -> Forall copy_out (tf_reqs t) ->
  (forall s id gfid p d, exists s', rpc_transfer s id gfid p d = (s', UNIFYFS_SUCCESS)) -> (k < max_loop)%nat ->
  Permutation (comp_id <$> (seq 0 k ≫= events)) ((fun i => u32 (tf_id_generator t + i)) <$> seqZ 0 (Z.of_nat (length (tf_reqs t)))) ->
  exists f1 m1 t1 t2, unifyfs_dispatch_transfer env mount rpc_transfer f m t = LRet (f1, m1, t1, UNIFYFS_SUCCESS) /\
    unifyfs_wait_transfer env mount f1 t1 true events = LRet (f1, t2, UNIFYFS_SUCCESS) /\ al_repr (tf_active t2) ∅ /\
    forall i q, tf_reqs t !! i = Some q -> exists q' err size time, tf_reqs t2 !! i = Some q' /\
      (u32 (tf_id_generator t + Z.of_nat i), err, size, time) ∈ (seq 0 k ≫= events) /\ tq_state q' = UNIFYFS_REQ_STATE_COMPLETED /\
      tr_error (tq_result q') = err /\ tr_file_size_bytes (tq_result q') = size /\ tr_transfer_time (tq_result q') = time.
Proof.
  intros Hr Hdiv Hmax Hgen Hroom Hm Hall Hrpc Hk Hperm. set (qs := tf_reqs t) in *. set (gen := tf_id_generator t) in *. set (cap := tcap t) in *.
  set (cs := seq 0 k ≫= events) in *. pose proof (al_repr_cap _ _ Hr) as Hc1. fold cap in Hc1. pose proof (Z.mod_pos_bound gen cap ltac:(lia)) as Hb.
  assert (submitted qs gen cap t ∅ 0) as Hsub.
  { split; try done.
    - fold gen. rewrite Z.add_0_r. unfold u32. by rewrite Z.mod_small.
    - intros j. rewrite lookup_empty. destruct (_ <=? j)%nat eqn:E; [|done]. apply Nat.leb_le in E. rewrite (proj2 (Nat.ltb_ge _ _)) //. lia. }
  destruct (submit_all (length qs) qs gen cap f m t ∅ 0 Hrpc Hall Hsub Hm Hdiv Hmax Hroom eq_refl) as (f1 & m1 & t1 & g1 & Hd & Hsub1).
  pose proof (submitted_waiting qs gen cap t1 g1 Hsub1 Hall Hdiv Hmax Hroom) as Hw.
  assert (NoDup ((fun i => u32 (gen + i)) <$> seqZ 0 (Z.of_nat (length qs)))) as Hnd.
  { apply NoDup_fmap_2_strong; [|apply NoDup_seqZ]. intros x y Hx%elem_of_seqZ Hy%elem_of_seqZ Heq.
    pose proof (slot_of_id gen cap (Z.to_nat x) Hdiv ltac:(lia) ltac:(lia)) as Hsx. pose proof (slot_of_id gen cap (Z.to_nat y) Hdiv ltac:(lia) ltac:(lia)) as Hsy.
    rewrite Z2Nat.id in Hsx; [lia|]. rewrite Z2Nat.id in Hsy; [lia|]. rewrite Heq Hsy in Hsx. lia. }
  assert (forall i q, qs !! i = Some q -> tf_reqs t1 !! i = Some (submitted_req gen i q)) as Hreq1.
  { intros i q Hq. rewrite (sb_req _ _ _ _ _ _ Hsub1 i q Hq). by rewrite (proj2 (Nat.ltb_lt _ _)); [by eapply lookup_lt_Some|]. }
  assert (exists t2, wait_loop env mount max_loop f1 t1 true events 0 = LRet (f1, t2, UNIFYFS_SUCCESS) /\ al_repr (tf_active t2) ∅ /\
    forall i q, tf_reqs t1 !! i = Some q -> exists q', tf_reqs t2 !! i = Some q' /\ completed_by cs q q') as (t2 & Hwait & Hr2 & Hres).
  { apply (wait_loop_spec k max_loop f1 t1 g1 events 0 Hw Hk).
    - split; [by rewrite Hperm|]. intros c Hc. apply (list_elem_of_fmap_2 comp_id) in Hc. fold cs in Hc. rewrite Hperm in Hc.
      apply list_elem_of_fmap in Hc as (i & Hid & Hi%elem_of_seqZ). destruct (lookup_lt_is_Some_2 qs (Z.to_nat i)) as [q Hq]; [lia|].
      exists (Z.to_nat i), (submitted_req gen (Z.to_nat i) q). split_and!; [by apply Hreq1|done|]. cbn. rewrite Z2Nat.id //. lia.
    - intros i q Hq _. fold cs. rewrite Hperm. destruct (lookup_lt_is_Some_2 qs i) as [q0 Hq0]; [rewrite -(sb_len _ _ _ _ _ _ Hsub1); by eapply lookup_lt_Some|].
      rewrite (Hreq1 i q0 Hq0) in Hq. injection Hq as <-. apply list_elem_of_fmap. exists (Z.of_nat i). split; [done|]. apply elem_of_seqZ.
      apply lookup_lt_Some in Hq0. lia. }
  exists f1, m1, t1, (if bool_decide (tf_reqs t1 = []) then t1 else t2). split; [done|]. unfold unifyfs_wait_transfer. case_bool_decide as Hnil.
  - assert (qs = []) as Hqs by (apply nil_length_inv; rewrite -(sb_len _ _ _ _ _ _ Hsub1) Hnil //). split; [done|]. split.
    + rewrite -(all_done_empty t1 g1 Hw); [|apply Hw]. intros i q Hq. by rewrite Hnil in Hq.
    + intros i q Hq. by rewrite Hqs in Hq.
  - split; [done|]. split; [done|]. intros i q Hq. destruct (Hres i _ (Hreq1 i q Hq)) as (q' & Hq' & Hby).
    destruct Hby as [[? _]|(_ & err & size & time & Hin & ->)]; [done|]. by eexists _, err, size, time.
Qed.

End Wait.

(** ** A concrete client *)

(** A server that records the files that it is told to unlink. *)
#[local] Instance unlink_server : ServerRpc (list Z) :=
  { rpc_metaset s _ _ := (s, 0); rpc_metaget _ _ := inl ENOENT; rpc_fsync s _ _ _ _ := (s, 0);
    rpc_filesize _ _ := inl ENOENT; rpc_truncate s _ _ := (s, 0); rpc_unlink s gfid := (s ++ [gfid], 0) }.
#[local] Instance unlink_api : ApiRpc (list Z) := { rpc_laminate s _ := (s, 0); rpc_get_gfids _ := inr [] }.

Definition tr_env : client_env := ClientEnv 0 0 (Timespec 0 0) (fun _ => replicate 16 1).

Definition tr_files : client_files (list Z) :=
  ClientFiles (Client (ClientCfg 7 1 false false false false 0 4) (Mem 1 []) (IdStack.UnifyfsStack 0 0 []) [] []
    (LogioContext None None (fun _ => 0) (fun _ => 0) 0 (-1)) []) (ClientReads (ArrayList 4 0 (replicate 4 None)) 0) [].

Definition tr_req (src : string) (mode : unifyfs_transfer_mode) : unifyfs_transfer_request :=
  TransferRequest src "/tmp/out" mode 0 UNIFYFS_REQ_STATE_INVALID (TransferResult 0 0 0 0) 0.

Definition tr_start (qs : list unifyfs_transfer_request) (gen : Z) : transfers := Transfers qs (ArrayList 4 0 (replicate 4 None)) gen.

Definition tr_server (s : list Z) (_ _ _ : Z) (_ : string) : list Z * Z := (s, UNIFYFS_SUCCESS).

(** The second transfer is completed first. *)
Definition tr_events (i : nat) : list completion :=
  match i with 2%nat => [(1, 0, 10, 3)] | 5%nat => [(0, 28, 0, 1)] | _ => [] end.

Lemma transfers_complete_witness :
  let t := tr_start [tr_req "/unifyfs/a" UNIFYFS_TRANSFER_MODE_COPY; tr_req "/unifyfs/b" UNIFYFS_TRANSFER_MODE_COPY] 0 in
  exists f1 m1 t1 t2, unifyfs_dispatch_transfer tr_env "/unifyfs" tr_server tr_files (Mem 1 []) t = LRet (f1, m1, t1, UNIFYFS_SUCCESS) /\
    unifyfs_wait_transfer tr_env "/unifyfs" f1 t1 true tr_events = LRet (f1, t2, UNIFYFS_SUCCESS) /\ al_repr (tf_active t2) ∅ /\
    forall i q, tf_reqs t !! i = Some q -> exists q' err size time, tf_reqs t2 !! i = Some q' /\
      (u32 (tf_id_generator t + Z.of_nat i), err, size, time) ∈ (seq 0 6 ≫= tr_events) /\ tq_state q' = UNIFYFS_REQ_STATE_COMPLETED /\
      tr_error (tq_result q') = err /\ tr_file_size_bytes (tq_result q') = size /\ tr_transfer_time (tq_result q') = time.
Proof.
  intros t. apply (transfers_complete tr_env "/unifyfs" tr_server tr_files (Mem 1 []) t tr_events 6).
  - split; [done|done| |split; [split|done]].
    + intros j. rewrite lookup_empty. cbn. by do 4 (destruct j as [|j]; [done|]).
    + intros j [? Hj]. by rewrite lookup_empty in Hj.
    + by left.
  - exists 1073741824. done.
  - done.
  - done.
  - done.
  - apply mem_plenty_nil.
  - by repeat constructor.
  - intros s id gfid p d. by exists s.
  - unfold max_loop. lia.
  - vm_compute. apply perm_swap.
Defined.

(** ** Unexpected behaviour *)

(** A move whose copy fails: the servers report an error, and the wait deletes
    the source all the same. *)
Lemma failed_move_removes_source :
  match unifyfs_dispatch_transfer tr_env "/unifyfs" tr_server tr_files (Mem 1 []) (tr_start [tr_req "/unifyfs/a" UNIFYFS_TRANSFER_MODE_MOVE] 0) with
  | LRet (f, _, t, rc) =>
      rc = UNIFYFS_SUCCESS /\
      match unifyfs_wait_transfer tr_env "/unifyfs" f t true (fun _ => [(0, ENOSPC, 0, 1)]) with
      | LRet (f, t, rc) =>
          rc = UNIFYFS_SUCCESS /\ (fun q => tr_error (tq_result q)) <$> tf_reqs t = [ENOSPC] /\ cf_server f = [gfid_of_path tr_env "/unifyfs/a"]
      | _ => False
      end
  | _ => False
  end.
Proof. vm_compute. split_and!; reflexivity. Qed.

(** The list has four places.  A transfer takes the last of them, and the next
    one finds the list full. *)
Lemma list_full_too_early :
  match unifyfs_dispatch_transfer tr_env "/unifyfs" tr_server tr_files (Mem 1 [])
    (tr_start [tr_req "/unifyfs/a" UNIFYFS_TRANSFER_MODE_COPY; tr_req "/unifyfs/b" UNIFYFS_TRANSFER_MODE_COPY] 3) with
  | LRet (_, _, t, rc) =>
      rc = UNIFYFS_FAILURE /\ (fun q => tr_error (tq_result q)) <$> tf_reqs t = [0; UNIFYFS_FAILURE] /\ length (omap id (al_elems (tf_active t))) = 1%nat
  | _ => False
  end.
Proof. vm_compute. split_and!; reflexivity. Qed.

(** The call for a transfer that was cancelled and forgotten completes the
    transfer that took its place. *)
Lemma late_call_completes_other :
  match unifyfs_dispatch_transfer tr_env "/unifyfs" tr_server tr_files (Mem 1 []) (tr_start [tr_req "/unifyfs/a" UNIFYFS_TRANSFER_MODE_COPY] 4) with
  | LRet (_, _, t, rc) =>
      rc = UNIFYFS_SUCCESS /\ (fun q => tq_reqid q) <$> tf_reqs t = [4] /\
      match client_complete_transfer t 0 0 10 1 with
      | LRet (t, rc) => rc = UNIFYFS_SUCCESS /\ (fun q => tq_state q) <$> tf_reqs t = [UNIFYFS_REQ_STATE_COMPLETED]
      | _ => False
      end
  | _ => False
  end.
Proof. vm_compute. split_and!; reflexivity. Qed.
