(* ===== verification/Collective.v ===== *)
(** * Responses of a broadcast ([server/src/unifyfs_group_rpc.c])

    A server that received a broadcast forwards it to its children in the tree
    ([RpcHandlers]), carries it out, and then waits for the responses of the
    children, which it combines with its own result and sends to its parent.
    For most operations a response is a return code.  The listing of all files
    also sends the attributes of files: an array of structures, in which the
    pointer to the name holds an offset into a string of all names, and that
    string.  The root asks for it with
    [unifyfs_invoke_broadcast_metaget_all].

    The number of files of a response fits the 32 bits it is sent with, and a
    string ends where its C string does. *)

From Stdlib Require Import String.
From S2P Require Import Prelude.
From S2P Require Import LogIO.
From S2P Require Import KTree.
From S2P Require Import Meta.
From S2P Require Import InodeTree.
From S2P Require Import Inode.
From S2P Require Import ServiceMgr.

Definition UNIFYFS_ERROR_TIMEOUT : Z := 1009.

(** ** State of a collective *)

(** The broadcasts of [server_rpc_e], and any other code. *)
Inductive server_rpc_e :=
| UNIFYFS_SERVER_BCAST_RPC_BOOTSTRAP
| UNIFYFS_SERVER_BCAST_RPC_EXTENTS
| UNIFYFS_SERVER_BCAST_RPC_FILEATTR
| UNIFYFS_SERVER_BCAST_RPC_LAMINATE
| UNIFYFS_SERVER_BCAST_RPC_METAGET
| UNIFYFS_SERVER_BCAST_RPC_TRANSFER
| UNIFYFS_SERVER_BCAST_RPC_TRUNCATE
| UNIFYFS_SERVER_BCAST_RPC_UNLINK
| SERVER_RPC_OTHER (code : Z).

#[export] Instance server_rpc_e_eq_dec : EqDecision server_rpc_e.
Proof. solve_decision. Defined.

(** An entry of the array of attributes: the name is an offset. *)
Record sent_attr := SentAttr {
  sa_offset : Z;
  sa_attr : unifyfs_file_attr_t;
}.

(** The output structures; only the listing of files has more than [ret].  The
    bulk data is the array that the handle exposes, [None] for the null
    handle. *)
Record coll_out := CollOut {
  co_ret : Z;
  co_num_files : Z;
  co_file_meta : option (list sent_attr);
  co_filenames : option string;
}.

(** The result of [calloc]. *)
Definition empty_out : coll_out := CollOut 0 0 None None.

Definition co_set_ret (ret : Z) (o : coll_out) : coll_out := CollOut ret (co_num_files o) (co_file_meta o) (co_filenames o).
Definition co_set_filenames (s : option string) (o : coll_out) : coll_out := CollOut (co_ret o) (co_num_files o) (co_file_meta o) s.
Definition co_set_files (n : Z) (meta : option (list sent_attr)) (o : coll_out) : coll_out := CollOut (co_ret o) n meta (co_filenames o).

(** [child_reqs]: which calls of children are not completed; [resp_hdl]: there
    is a parent to respond to. *)
Record coll_request := CollRequest {
  cr_req_type : server_rpc_e;
  cr_resp_hdl : bool;
  cr_output : option coll_out;
  cr_child_reqs : list bool;
  cr_auto_cleanup : bool;
  cr_app_id : Z;
  cr_client_id : Z;
  cr_client_req_id : Z;
}.

Definition cr_set_output (o : option coll_out) (c : coll_request) : coll_request :=
  CollRequest (cr_req_type c) (cr_resp_hdl c) o (cr_child_reqs c) (cr_auto_cleanup c) (cr_app_id c) (cr_client_id c) (cr_client_req_id c).
Definition cr_set_child_reqs (l : list bool) (c : coll_request) : coll_request :=
  CollRequest (cr_req_type c) (cr_resp_hdl c) (cr_output c) l (cr_auto_cleanup c) (cr_app_id c) (cr_client_id c) (cr_client_req_id c).
Definition cr_set_auto_cleanup (b : bool) (c : coll_request) : coll_request :=
  CollRequest (cr_req_type c) (cr_resp_hdl c) (cr_output c) (cr_child_reqs c) b (cr_app_id c) (cr_client_id c) (cr_client_req_id c).
Definition cr_set_client (app client id : Z) (c : coll_request) : coll_request :=
  CollRequest (cr_req_type c) (cr_resp_hdl c) (cr_output c) (cr_child_reqs c) (cr_auto_cleanup c) app client id.

(** The request that [collective_create] makes for a tree that has been built;
    all children have been called ([collective_forward]). *)
Definition new_collective (req_type : server_rpc_e) (resp_hdl : bool) (output : option coll_out) (tree : unifyfs_tree_t) : coll_request :=
  CollRequest req_type resp_hdl output (replicate (Z.to_nat (t_child_count tree)) true) true (-1) (-1) (-1).

(** ** Merging the files of a child *)

(** Whether the registrations of buffers and the transfers of the merge
    succeed. *)
Record merge_env := MergeEnv {
  me_child_create : bool;
  me_child_pull : bool;
  me_parent_create : bool;
  me_parent_pull : bool;
  me_new_create : bool;
}.

Definition merge_fine : merge_env := MergeEnv true true true true true.

(** [margo_bulk_transfer] of [n] entries: it fails when the handle is null or
    does not have that many. *)
Definition bulk_pull (ok : bool) (meta : option (list sent_attr)) (n : Z) : option (list sent_attr) :=
  match meta with
  | Some l => if ok && (n <=? Z.of_nat (length l)) then Some (take (Z.to_nat n) l) else None
  | None => None
  end.

(** The attributes of one side of the merge, which are nothing without files:
    the return code, and the array. *)
Definition pull_attrs (create pull : bool) (out : coll_out) : Z + list sent_attr :=
  if co_num_files out =? 0 then inr []
  else if negb create then inl UNIFYFS_ERROR_MARGO
  else match bulk_pull pull (co_file_meta out) (co_num_files out) with Some l => inr l | None => inl UNIFYFS_ERROR_MARGO end.

Definition filenames_len (out : coll_out) : Z := Z.of_nat (String.length (default EmptyString (co_filenames out))).

(** The loop that moves the offsets of the child. *)
Definition shift_offsets (len : Z) (l : list sent_attr) : list sent_attr :=
  (fun a => SentAttr (sa_offset a ⊞ len) (sa_attr a)) <$> l.

(** The last part: the names, and the bulk data of both. *)
Definition merge_lists (env : merge_env) (p_out c_out : coll_out) (parent_attr_list child_attr_list : list sent_attr) : coll_out * Z :=
  let new_filenames := String.append (default EmptyString (co_filenames p_out)) (default EmptyString (co_filenames c_out)) in
  let merged := parent_attr_list ++ shift_offsets (filenames_len p_out) child_attr_list in
  let p_out := co_set_filenames (Some new_filenames) p_out in
  if negb (me_new_create env) then (p_out, UNIFYFS_ERROR_MARGO)
  else (co_set_files (co_num_files p_out + co_num_files c_out) (Some merged) p_out, UNIFYFS_SUCCESS).

Definition merge_metaget_all_bcast_outputs (env : merge_env) (m : mem) (p_out c_out : coll_out) : mem * coll_out * Z :=
  if (co_num_files p_out =? 0) && (co_num_files c_out =? 0) then (m, p_out, UNIFYFS_SUCCESS)
  else
    let '(child_list, m) := if co_num_files c_out =? 0 then (Some 0, m) else calloc m in
    match child_list with
    | None => (m, p_out, ENOMEM)
    | Some _ =>
        match pull_attrs (me_child_create env) (me_child_pull env) c_out with
        | inl rc => (m, p_out, rc)
        | inr child_attr_list =>
            let '(parent_list, m) := if co_num_files p_out + co_num_files c_out >? 0 then calloc m else (Some 0, m) in
            match parent_list with
            | None => (m, p_out, ENOMEM)
            | Some _ =>
                match pull_attrs (me_parent_create env) (me_parent_pull env) p_out with
                | inl rc => (m, p_out, rc)
                | inr parent_attr_list =>
                    let '(new_filenames, m) := calloc m in
                    match new_filenames with
                    | None => (m, p_out, ENOMEM)
                    | Some _ => let '(p_out, rc) := merge_lists env p_out c_out parent_attr_list child_attr_list in (m, p_out, rc)
                    end
                end
            end
        end
    end.

(** ** Responses of the children *)

(** Whether the type of a request is one that has responses. *)
Definition valid_coll (t : server_rpc_e) : bool := match t with SERVER_RPC_OTHER _ => false | _ => true end.

(** [out]: the result of [margo_get_output].  A listing of files without an
    output structure would write through a null pointer.  The result of the
    merge is not looked at. *)
Definition get_child_response (env : merge_env) (m : mem) (coll : coll_request) (out : option coll_out) : lres (mem * coll_request * Z) :=
  let '(p, m) := calloc m in
  match p with
  | None => LRet (m, coll, ENOMEM)
  | Some _ =>
      match out with
      | None => LRet (m, coll, UNIFYFS_ERROR_MARGO)
      | Some c_out =>
          if negb (valid_coll (cr_req_type coll)) then LRet (m, coll, UNIFYFS_FAILURE)
          else
            let child_ret := co_ret c_out in
            let output := if negb (child_ret =? UNIFYFS_SUCCESS) then co_set_ret child_ret <$> cr_output coll else cr_output coll in
            if bool_decide (cr_req_type coll = UNIFYFS_SERVER_BCAST_RPC_METAGET) then
              match output with
              | None => LFault
              | Some p_out =>
                  let '(m, p_out, _) := merge_metaget_all_bcast_outputs env m p_out c_out in
                  LRet (m, cr_set_output (Some p_out) coll, child_ret)
              end
            else LRet (m, cr_set_output output coll, child_ret)
      end
  end.

(** What [margo_wait_any] returns: the index of a call that is completed, with
    what [margo_get_output] and the merge will find, or an error, which is also
    how a call ends that timed out. *)
Inductive wait_result :=
| WaitDone (complete_ndx : nat) (out : option coll_out) (env : merge_env)
| WaitFailed.

(** The loop: [ret] is [None] while calls are outstanding and no more results
    have come.  After an error all remaining handles are given up. *)
Fixpoint wait_children (m : mem) (coll : coll_request) (n_children n_complete ret : Z) (events : list wait_result)
    : lres (mem * coll_request * option Z) :=
  match events with
  | [] => LRet (m, coll, None)
  | WaitFailed :: _ => LRet (m, cr_set_child_reqs (replicate (length (cr_child_reqs coll)) false) coll, Some UNIFYFS_ERROR_MARGO)
  | WaitDone ndx out env :: events =>
      let! '(m, coll, child_ret) := get_child_response env m coll out in
      let ret := if negb (child_ret =? UNIFYFS_SUCCESS) then child_ret else ret in
      let coll := cr_set_child_reqs (<[ndx := false]> (cr_child_reqs coll)) coll in
      let n_complete := n_complete + 1 in
      if n_complete <? n_children then wait_children m coll n_children n_complete ret events else LRet (m, coll, Some ret)
  end.

(** The array of calls is there when there are children. *)
Definition wait_for_all_child_requests (m : mem) (coll : coll_request) (events : list wait_result) : lres (mem * coll_request * option Z) :=
  let n_children := Z.of_nat (length (cr_child_reqs coll)) in
  if n_children =? 0 then LRet (m, coll, Some UNIFYFS_SUCCESS) else wait_children m coll n_children 0 UNIFYFS_SUCCESS events.

(** [margo_respond] is given the output of a server that has a parent. *)
Definition collective_response (coll : coll_request) : option coll_out := if cr_resp_hdl coll then cr_output coll else None.

(** The response, and the return code: both [None] while it waits. *)
Definition collective_finish (m : mem) (coll : coll_request) (events : list wait_result)
    : lres (mem * coll_request * option coll_out * option Z) :=
  let! '(m, coll, ret) := wait_for_all_child_requests m coll events in
  LRet (m, coll, match ret with Some _ => collective_response coll | None => None end, ret).

(** The case of the listing of files falls through to the message about an
    invalid type. *)
Definition collective_set_local_retval (coll : coll_request) (val : Z) : coll_request :=
  if valid_coll (cr_req_type coll) then cr_set_output (co_set_ret val <$> cr_output coll) coll else coll.

(** The handler of the local call that makes progress: [input] is whether the
    arguments could be read.  The response to the parent, the return code and
    whether the collective is freed. *)
Definition bcast_progress_rpc (input : bool) (m : mem) (coll : coll_request) (events : list wait_result)
    : lres (mem * coll_request * option coll_out * option Z * bool) :=
  if negb input then LRet (m, coll, None, Some UNIFYFS_ERROR_MARGO, false)
  else
    let! '(m, coll', resp, ret) := collective_finish m coll events in
    LRet (m, coll', resp, ret, match ret with Some _ => cr_auto_cleanup coll | None => false end).

(** The local call: [addr], [create] and [forward] are the results of the
    library. *)
Definition invoke_bcast_progress_rpc (addr create forward : bool) : Z :=
  if negb addr then UNIFYFS_ERROR_MARGO
  else if negb create then UNIFYFS_ERROR_MARGO
  else if negb forward then UNIFYFS_ERROR_MARGO
  else UNIFYFS_SUCCESS.

(** ** Handlers without bulk data *)

(** What a handler of a broadcast sends when it could not start it: a structure
    on the stack of which only the return code is set.  The listing of files
    would send a pointer that was never set. *)
Definition refusal (t : server_rpc_e) (ret : Z) : lres coll_out :=
  if bool_decide (t = UNIFYFS_SERVER_BCAST_RPC_METAGET) then LFault else LRet (co_set_ret ret empty_out).

(** The common code of the handlers: [input] is whether the arguments could be
    read, [fwd] the calls of the children, [queue] the result of
    [sm_submit_service_request].  The collective that is queued for the service
    manager, or the response to the parent; and the children that were
    called. *)
Definition start_collective (t : server_rpc_e) (input : bool) (fwd : list bool) (queue : Z) (m : mem) (rank size root : Z)
    : mem * (coll_request + lres coll_out) * list Z :=
  let '(req, m) := calloc m in
  let '(in_, m) := calloc m in
  let '(out, m) := calloc m in
  match req, in_, out with
  | Some _, Some _, Some _ =>
      if negb input then (m, inr (refusal t UNIFYFS_ERROR_MARGO), [])
      else
        let '(m, tree) := collective_create m rank size root in
        match tree with
        | None => (m, inr (refusal t ENOMEM), [])
        | Some tree =>
            let '(sent, ret) := collective_forward fwd (ktree_children tree) UNIFYFS_SUCCESS in
            if negb (ret =? UNIFYFS_SUCCESS) then (m, inr (refusal t ret), sent)
            else if negb (queue =? UNIFYFS_SUCCESS) then (m, inr (refusal t queue), sent)
            else (m, inl (new_collective t true (Some empty_out) tree), sent)
        end
  | _, _, _ => (m, inr (refusal t ENOMEM), [])
  end.

Definition bootstrap_complete_bcast_rpc := start_collective UNIFYFS_SERVER_BCAST_RPC_BOOTSTRAP.
Definition transfer_bcast_rpc := start_collective UNIFYFS_SERVER_BCAST_RPC_TRANSFER.
Definition metaget_all_bcast_rpc := start_collective UNIFYFS_SERVER_BCAST_RPC_METAGET.

(** The broadcast at the end of the start-up: [events] are the results of the
    children within 5 seconds.  The root has no output structure, so that the
    return codes of the others are never looked at. *)
Definition unifyfs_invoke_broadcast_bootstrap_complete (fwd : list bool) (progress : Z) (events : list wait_result) (m : mem) (rank size : Z)
    : lres (mem * list Z * Z) :=
  let '(in_, m) := calloc m in
  match in_ with
  | None => LRet (m, [], ENOMEM)
  | Some _ =>
      let '(m, tree) := collective_create m rank size rank in
      match tree with
      | None => LRet (m, [], ENOMEM)
      | Some tree =>
          let '(sent, ret) := collective_forward fwd (ktree_children tree) UNIFYFS_SUCCESS in
          if negb (ret =? UNIFYFS_SUCCESS) then LRet (m, sent, ret)
          else if negb (progress =? UNIFYFS_SUCCESS) then LRet (m, sent, progress)
          else
            let coll := cr_set_auto_cleanup false (new_collective UNIFYFS_SERVER_BCAST_RPC_BOOTSTRAP false None tree) in
            let! '(m, coll, _, finished) := collective_finish m coll events in
            LRet (m, sent, match finished with
                           | None => UNIFYFS_ERROR_TIMEOUT
                           | Some _ => match cr_output coll with Some out => co_ret out | None => UNIFYFS_SUCCESS end
                           end)
      end
  end.

(** ** The files of one server *)

(** The loop over the owned files: the offsets, and the names one after
    another. *)
Fixpoint concat_names (total_name_len : Z) (attrs : list unifyfs_file_attr_t) : lres (list sent_attr * string) :=
  match attrs with
  | [] => LRet ([], EmptyString)
  | a :: attrs =>
      let! name := lift_option (fa_filename a) in
      let! '(l, names) := concat_names (total_name_len ⊞ Z.of_nat (String.length name)) attrs in
      LRet (SentAttr total_name_len (attr_set_filename None a) :: l, String.append name names)
  end.

(** [bulk]: the registration of the array; [progress]: the result of
    [invoke_bcast_progress_rpc].  The return code; only with success is
    the collective finished by another thread, so that there is no response
    otherwise. *)
Definition process_metaget_bcast_rpc (bulk : bool) (progress : Z) (sv : server) (coll : coll_request) : lres (server * coll_request * Z) :=
  let! '(sv, ret, attr_list) := unifyfs_get_owned_files sv in
  if negb (ret =? UNIFYFS_SUCCESS) then LRet (sv, coll, ret)
  else
    let '(concatenated_names, m) := calloc (sv_mem sv) in
    let sv := set_mem m sv in
    match concatenated_names with
    | None => LRet (sv, coll, ENOMEM)
    | Some _ =>
        let! '(l, names) := concat_names 0 attr_list in
        if negb (bool_decide (cr_req_type coll = UNIFYFS_SERVER_BCAST_RPC_METAGET)) then LRet (sv, coll, UNIFYFS_ERROR_MARGO)
        else if negb (bool_decide (attr_list = [])) && negb bulk then
          LRet (sv, collective_set_local_retval coll UNIFYFS_ERROR_MARGO, UNIFYFS_ERROR_MARGO)
        else
          let! out := lift_option (cr_output coll) in
          let out :=
            if bool_decide (attr_list = []) then co_set_filenames None (co_set_files 0 None out)
            else co_set_filenames (Some names) (co_set_files (Z.of_nat (length attr_list)) (Some l) out) in
          LRet (sv, collective_set_local_retval (cr_set_output (Some out) coll) UNIFYFS_SUCCESS, progress)
    end.

(** ** Listing the files of all servers *)

(** The loop that sets the names: a name ends where the next one starts, the
    last one with the string.  An offset outside the string is a fault;
    [strndup] may fail. *)
Fixpoint assign_names (m : mem) (filenames : string) (l : list sent_attr) : lres (mem * option (list unifyfs_file_attr_t)) :=
  match l with
  | [] => LRet (m, Some [])
  | a :: l =>
      let start_offset := sa_offset a in
      if Z.of_nat (String.length filenames) <? start_offset then LFault
      else
        let rest := String.substring (Z.to_nat start_offset) (String.length filenames) filenames in
        let name_len := match l with next :: _ => sa_offset next ⊟ start_offset | [] => Z.of_nat (String.length rest) end in
        let '(m, name) := strdup m (String.substring 0 (Z.to_nat (Z.min name_len (Z.of_nat (String.length rest)))) rest) in
        match name with
        | None => LRet (m, None)
        | Some name =>
            let! '(m, attrs) := assign_names m filenames l in
            LRet (m, (cons (attr_set_filename (Some name) (sa_attr a))) <$> attrs)
        end
  end.

(** What the library and the other servers do while the root waits. *)
Record metaget_all_env := MetagetAllEnv {
  ma_forward : list bool;          (* margo_iforward_timed for each child *)
  ma_progress : Z;                 (* invoke_bcast_progress_rpc *)
  ma_events : list wait_result;    (* the results within 10 seconds *)
  ma_bulk_create : bool;
  ma_bulk_pull : bool;
}.

(** The files of the other servers, from the output of the collective. *)
Definition remote_files (env : metaget_all_env) (m : mem) (results : coll_out) : lres (mem * (Z + list unifyfs_file_attr_t)) :=
  if co_num_files results =? 0 then LRet (m, inr [])
  else
    let '(attr_list, m) := calloc m in
    match attr_list with
    | None => LRet (m, inl ENOMEM)
    | Some _ =>
        match pull_attrs (ma_bulk_create env) (ma_bulk_pull env) results with
        | inl rc => LRet (m, inl rc)
        | inr l =>
            let! filenames := lift_option (co_filenames results) in
            let! '(m, attrs) := assign_names m filenames l in
            LRet (m, match attrs with Some attrs => inr attrs | None => inl ENOMEM end)
        end
    end.

(** The return code, and the files if it is success.  The time-out, when the
    responses did not come within 10 seconds, is only returned at the end; the
    return codes of the children are not looked at. *)
Definition unifyfs_invoke_broadcast_metaget_all (env : metaget_all_env) (sv : server) : lres (server * Z * list unifyfs_file_attr_t) :=
  let '(in_, m) := calloc (sv_mem sv) in
  let '(out, m) := calloc m in
  let fail (m : mem) (sv : server) (rc : Z) := LRet (set_mem m sv, rc, []) in
  match in_, out with
  | Some _, Some _ =>
      let rank := sv_glb_pmi_rank sv in
      let '(m, coll) := collective_create m rank (sv_glb_pmi_size sv) rank in
      match coll with
      | None => fail m sv ENOMEM
      | Some tree =>
          let '(_, ret) := collective_forward (ma_forward env) (ktree_children tree) UNIFYFS_SUCCESS in
          if negb (ret =? UNIFYFS_SUCCESS) then fail m sv ret
          else
            let coll := cr_set_auto_cleanup false (new_collective UNIFYFS_SERVER_BCAST_RPC_METAGET false (Some empty_out) tree) in
            if negb (ma_progress env =? UNIFYFS_SUCCESS) then fail m sv (ma_progress env)
            else
              let! '(sv, ret, local) := unifyfs_get_owned_files (set_mem m sv) in
              if negb (ret =? UNIFYFS_SUCCESS) then fail (sv_mem sv) sv ret
              else
                let! '(m, coll, _, done) := collective_finish (sv_mem sv) coll (ma_events env) in
                let ret := match done with Some _ => UNIFYFS_SUCCESS | None => UNIFYFS_ERROR_TIMEOUT end in
                let! results := lift_option (cr_output coll) in
                let! '(m, remote) := remote_files env m results in
                match remote with
                | inl rc => fail m sv rc
                | inr remote =>
                    let '(merged, m) := if bool_decide (local = []) then (Some 0, m) else calloc m in
                    match merged with
                    | None => fail m sv ENOMEM
                    | Some _ => if ret =? UNIFYFS_SUCCESS then LRet (set_mem m sv, UNIFYFS_SUCCESS, remote ++ local) else fail m sv ret
                    end
                end
      end
  | _, _ => fail m sv ENOMEM
  end.

(** The request of a client for all file ids ([unifyfs_request_manager.c]):
    the response, if there is one, and the return code.  The allocation of the
    list is not checked. *)
Definition process_get_gfids (env : metaget_all_env) (bulk : bool) (sv : server) : lres (server * option (list Z) * Z) :=
  let! '(sv, ret, attrs) := unifyfs_invoke_broadcast_metaget_all env sv in
  if negb (ret =? UNIFYFS_SUCCESS) then LRet (sv, None, ret)
  else
    let '(new_gfid_list, m) := calloc (sv_mem sv) in
    let sv := set_mem m sv in
    match new_gfid_list, attrs with
    | None, _ :: _ => LFault
    | _, _ => if negb bulk then LRet (sv, None, UNIFYFS_ERROR_MARGO) else LRet (sv, Some (fa_gfid <$> attrs), UNIFYFS_SUCCESS)
    end.

(** ** The servers of a tree *)

(** What happens at a server while it waits: a child has answered, and whether
    its answer could be read, or a call fails. *)
Inductive net_event :=
| NetDone (child : nat) (received : bool) (env : merge_env)
| NetFailed.

Section Tree.
Context (req_type : server_rpc_e) (ranks root : Z).
(** The output of each server after it carried out the operation, or nothing
    if it does not respond; its memory, and what happens while it waits. *)
Context (local : Z -> option coll_out) (mems : Z -> mem) (net : Z -> list net_event).

Definition tree_at (rank : Z) : unifyfs_tree_t := ktree_of rank ranks root UNIFYFS_BCAST_K_ARY.

Definition wait_result_of (resps : list (option coll_out)) (e : net_event) : wait_result :=
  match e with
  | NetDone i received env =>
      match resps !! i with
      | Some (Some out) => WaitDone i (if received then Some out else None) env
      | _ => WaitFailed
      end
  | NetFailed => WaitFailed
  end.

Fixpoint lmap {A B} (f : A -> lres B) (l : list A) : lres (list B) :=
  match l with
  | [] => LRet []
  | x :: l => let! y := f x in let! l := lmap f l in LRet (y :: l)
  end.

(** The response of a server, from the responses of its children. *)
Fixpoint tree_response (fuel : nat) (rank : Z) : lres (option coll_out) :=
  match fuel with
  | O => LBlocked
  | S fuel =>
      let! resps := lmap (tree_response fuel) (ktree_children (tree_at rank)) in
      match local rank with
      | None => LRet None
      | Some out =>
          let! '(_, _, resp, _) := collective_finish (mems rank) (new_collective req_type true (Some out) (tree_at rank))
            (wait_result_of resps <$> net rank) in
          LRet resp
      end
  end.

(** What the root gets: the results of its children, within the 10 seconds that
    it waits. *)
Definition root_events (fuel : nat) : lres (list wait_result) :=
  let! resps := lmap (tree_response fuel) (ktree_children (tree_at root)) in
  LRet (wait_result_of resps <$> net root).
End Tree.

(** The output of a server below the root for the listing of files. *)
Definition metaget_output (ranks root : Z) (sv : server) : option coll_out :=
  match process_metaget_bcast_rpc true UNIFYFS_SUCCESS sv
    (new_collective UNIFYFS_SERVER_BCAST_RPC_METAGET true (Some empty_out) (tree_at ranks root (sv_glb_pmi_rank sv))) with
  | LRet (_, coll, rc) => if rc =? UNIFYFS_SUCCESS then cr_output coll else None
  | _ => None
  end.
