(* ===== verification/CollectiveProps.v ===== *)
(** * Correctness of the responses of a broadcast

    The array of attributes and the string of names that servers send each
    other encode a list of files; merging the responses of the children in any
    order, over all servers of the tree, gives the root the files of all of
    them.  A return code other than success of any server reaches the root as
    long as no call between the servers is lost. *)

From Stdlib Require Import String.
From S2P Require Import Prelude.
From S2P Require Import RbTree.
From S2P Require Import LogIO.
From S2P Require Import KTree.
From S2P Require Import Meta.
From S2P Require Import InodeTree.
From S2P Require Import Inode.
From S2P Require Import InodeProps.
From S2P Require Import ServiceMgr.
From S2P Require Import Collective.

Implicit Types (a : unifyfs_file_attr_t) (attrs : list unifyfs_file_attr_t) (o p c : coll_out).

(** ** Strings *)

Lemma string_app_cons x (s t : string) : String.append (String x s) t = String x (String.append s t).
Proof. done. Qed.

Lemma append_empty_r (s : string) : String.append s EmptyString = s.
Proof. induction s as [|x s IH]; [done|]. by rewrite string_app_cons IH. Qed.

Lemma string_app_assoc (s t u : string) : String.append (String.append s t) u = String.append s (String.append t u).
Proof. induction s as [|x s IH]; [done|]. by rewrite !string_app_cons IH. Qed.

Lemma string_app_length (s t : string) : String.length (String.append s t) = (String.length s + String.length t)%nat.
Proof. induction s as [|x s IH]; [done|]. rewrite string_app_cons. simpl. by rewrite IH. Qed.

Lemma substring_all (s : string) : forall n, (String.length s <= n)%nat -> String.substring 0 n s = s.
Proof. induction s as [|x s IH]; intros [|n] Hn; simpl in *; try done; [lia|]. rewrite IH //. lia. Qed.

Lemma substring_after (s t : string) : forall n, (String.length t <= n)%nat -> String.substring (String.length s) n (String.append s t) = t.
Proof. intros n Hn. induction s as [|x s IH]; [by apply substring_all|done]. Qed.

Lemma substring_before (s t : string) : String.substring 0 (String.length s) (String.append s t) = s.
Proof. induction s as [|x s IH]; [by destruct t|]. rewrite string_app_cons. simpl. by rewrite IH. Qed.

(** ** The encoding of a list of files *)

Definition name_of a : string := default EmptyString (fa_filename a).
Definition name_len a : Z := Z.of_nat (String.length (name_of a)).

Fixpoint names_of attrs : string :=
  match attrs with [] => EmptyString | a :: attrs => String.append (name_of a) (names_of attrs) end.

Definition names_len attrs : Z := Z.of_nat (String.length (names_of attrs)).

Fixpoint sent_of (off : Z) attrs : list sent_attr :=
  match attrs with [] => [] | a :: attrs => SentAttr off (attr_set_filename None a) :: sent_of (off + name_len a) attrs end.

Definition named attrs : Prop := Forall (fun a => is_Some (fa_filename a)) attrs.

Lemma names_len_cons a attrs : names_len (a :: attrs) = name_len a + names_len attrs.
Proof. unfold names_len, name_len. simpl. rewrite string_app_length. lia. Qed.

Lemma names_of_app attrs1 attrs2 : names_of (attrs1 ++ attrs2) = String.append (names_of attrs1) (names_of attrs2).
Proof. induction attrs1 as [|a attrs1 IH]; [done|]. simpl. by rewrite IH string_app_assoc. Qed.

Lemma names_len_app attrs1 attrs2 : names_len (attrs1 ++ attrs2) = names_len attrs1 + names_len attrs2.
Proof. unfold names_len. rewrite names_of_app string_app_length. lia. Qed.

Lemma names_len_nonneg attrs : 0 <= names_len attrs.
Proof. unfold names_len. lia. Qed.

Lemma sent_of_app attrs1 : forall off attrs2, sent_of off (attrs1 ++ attrs2) = sent_of off attrs1 ++ sent_of (off + names_len attrs1) attrs2.
Proof.
  induction attrs1 as [|a attrs1 IH]; intros off attrs2; simpl.
  - by rewrite Z.add_0_r.
  - rewrite IH names_len_cons. do 3 f_equal. lia.
Qed.

Lemma sent_of_length attrs : forall off, length (sent_of off attrs) = length attrs.
Proof. induction attrs as [|a attrs IH]; intros off; simpl; [done|by rewrite IH]. Qed.

Lemma shift_sent_of attrs : forall off len,
  0 <= off -> 0 <= len -> off + names_len attrs + len <= ULONG_MAX -> shift_offsets len (sent_of off attrs) = sent_of (off + len) attrs.
Proof.
  induction attrs as [|a attrs IH]; intros off len Ho Hl Hb; [done|]. rewrite names_len_cons in Hb.
  pose proof (names_len_nonneg attrs). assert (0 <= name_len a) by (unfold name_len; lia).
  unfold shift_offsets in *. cbn [sent_of]. rewrite fmap_cons. cbn [sa_offset sa_attr]. rewrite IH; [lia..|]. f_equal.
  - f_equal. rewrite u64_small //. unfold is_u64. lia.
  - f_equal. lia.
Qed.

Lemma concat_names_eq attrs : forall off,
  named attrs -> 0 <= off -> off + names_len attrs <= ULONG_MAX -> concat_names off attrs = LRet (sent_of off attrs, names_of attrs).
Proof.
  induction attrs as [|a attrs IH]; intros off Hn Ho Hb; [done|]. apply Forall_cons in Hn as [[name Ha] Hn]. rewrite names_len_cons in Hb.
  pose proof (names_len_nonneg attrs). assert (0 <= name_len a) by (unfold name_len; lia). cbn [concat_names sent_of names_of].
  assert (name_len a = Z.of_nat (String.length name)) as Hlen by (unfold name_len, name_of; by rewrite Ha).
  rewrite Ha. cbn [lift_option lbind]. rewrite -Hlen u64_small; [unfold is_u64; lia|].
  rewrite IH //; [lia..|]. cbn [lbind]. unfold name_of. by rewrite Ha.
Qed.

(** The output of a server encodes a list of files. *)
Record encodes o attrs : Prop := {
  en_named : named attrs;
  en_len : names_len attrs <= ULONG_MAX;
  en_num : co_num_files o = Z.of_nat (length attrs);
  en_names : default EmptyString (co_filenames o) = names_of attrs;
  en_meta : attrs <> [] -> co_file_meta o = Some (sent_of 0 attrs) /\ co_filenames o = Some (names_of attrs);
}.

Lemma encodes_ret o attrs ret : encodes o attrs -> encodes (co_set_ret ret o) attrs.
Proof. by intros [? ? ? ? ?]. Qed.

Lemma encodes_empty : encodes empty_out [].
Proof. by split; [constructor|..]. Qed.

Lemma pull_encoded o attrs : encodes o attrs -> pull_attrs true true o = inr (sent_of 0 attrs).
Proof.
  intros [_ _ Hnum _ Hmeta]. unfold pull_attrs. rewrite Hnum. destruct attrs as [|a attrs]; [done|].
  destruct Hmeta as [-> _]; [done|]. rewrite (proj2 (Z.eqb_neq _ _)) /=; [simpl; lia|].
  rewrite (proj2 (Z.leb_le _ _)); [simpl; rewrite sent_of_length; simpl; lia|].
  rewrite Nat2Z.id. do 2 f_equal. apply take_ge. simpl. by rewrite sent_of_length.
Qed.

(** Merging the files of a child. *)
Lemma merge_spec m p c ps cs :
  mem_plenty m -> encodes p ps -> encodes c cs -> names_len (ps ++ cs) <= ULONG_MAX ->
  exists m' p', merge_metaget_all_bcast_outputs merge_fine m p c = (m', p', UNIFYFS_SUCCESS) /\ mem_plenty m' /\
    encodes p' (ps ++ cs) /\ co_ret p' = co_ret p.
Proof.
  intros Hm Hp Hc Hb. unfold merge_metaget_all_bcast_outputs.
  destruct (_ && _) eqn:Hz.
  { apply andb_true_iff in Hz as [Hzp%Z.eqb_eq Hzc%Z.eqb_eq]. exists m, p. split_and!; [done..| |done].
    rewrite (en_num _ _ Hp) in Hzp. rewrite (en_num _ _ Hc) in Hzc. destruct ps; [|simpl in Hzp; lia]. by destruct cs; [|simpl in Hzc; lia]. }
  assert (forall b : bool, exists m1, (if b then (Some 0, m) else calloc m) = (Some (if b then 0 else mem_next m), m1) /\ mem_plenty m1) as Hif.
  { intros []; [by eexists|]. destruct (calloc_plenty m Hm) as (m1 & -> & ? & _). by eexists. }
  destruct (Hif (co_num_files c =? 0)) as (m1 & -> & Hm1). rewrite (pull_encoded _ _ Hc).
  assert ((co_num_files p + co_num_files c >? 0) = true) as ->.
  { apply andb_false_iff in Hz. pose proof (en_num _ _ Hp). pose proof (en_num _ _ Hc). rewrite !Z.eqb_neq in Hz. lia. }
  destruct (calloc_plenty m1 Hm1) as (m2 & -> & Hm2 & _). rewrite (pull_encoded _ _ Hp).
  destruct (calloc_plenty m2 Hm2) as (m3 & -> & Hm3 & _). unfold merge_lists. cbn [negb me_new_create merge_fine].
  eexists m3, _. split; [done|]. split; [done|]. split; [|done].
  assert (filenames_len p = names_len ps) as Hlen by (unfold filenames_len; by rewrite (en_names _ _ Hp)).
  assert (ps ++ cs <> []) as Hne.
  { intros [-> ->]%app_eq_nil. pose proof (en_num _ _ Hp). pose proof (en_num _ _ Hc). apply andb_false_iff in Hz. rewrite !Z.eqb_neq in Hz. simpl in *. lia. }
  pose proof (names_len_nonneg ps). pose proof (names_len_nonneg cs). pose proof (names_len_app ps cs).
  split; cbn [co_set_files co_num_files co_filenames co_set_filenames co_file_meta].
  - apply Forall_app. split; [apply Hp|apply Hc].
  - done.
  - rewrite (en_num _ _ Hp) (en_num _ _ Hc) length_app. lia.
  - rewrite names_of_app. by rewrite -(en_names _ _ Hp) -(en_names _ _ Hc).
  - intros _. rewrite Hlen shift_sent_of; [lia..|]. rewrite -sent_of_app names_of_app. split; [done|].
    by rewrite -(en_names _ _ Hp) -(en_names _ _ Hc).
Qed.

Lemma merge_mem env m p c m' p' rc :
  merge_metaget_all_bcast_outputs env m p c = (m', p', rc) -> mem_plenty m -> mem_plenty m' /\ co_ret p' = co_ret p.
Proof.
  intros Hmerge Hm. assert (forall m, mem_plenty m -> exists x m', calloc m = (x, m') /\ mem_plenty m') as Hc.
  { intros m0 H0. destruct (calloc_plenty m0 H0) as (m1 & -> & ? & _). by eexists _, _. }
  revert Hmerge. unfold merge_metaget_all_bcast_outputs. destruct (_ && _); [by intros [= <- <- _]|].
  assert (exists x m1, (if co_num_files c =? 0 then (Some 0, m) else calloc m) = (x, m1) /\ mem_plenty m1) as (x & m1 & -> & Hm1).
  { destruct (_ =? _); [by eexists _, _|by apply Hc]. }
  destruct x; [|by intros [= <- <- _]]. destruct (pull_attrs _ _ _); [by intros [= <- <- _]|].
  assert (exists y m2, (if co_num_files p + co_num_files c >? 0 then calloc m1 else (Some 0, m1)) = (y, m2) /\ mem_plenty m2) as (y & m2 & -> & Hm2).
  { destruct (_ >? _); [by apply Hc|by eexists _, _]. }
  destruct y; [|by intros [= <- <- _]]. destruct (pull_attrs _ _ _); [by intros [= <- <- _]|].
  destruct (Hc m2 Hm2) as (w & m3 & -> & Hm3). destruct w; [|by intros [= <- <- _]].
  unfold merge_lists. destruct (me_new_create env); cbn [negb]; by intros [= <- <- _].
Qed.

(** ** Waiting for the children *)

(** The return code after responses with the given codes. *)
Definition last_failure (ret r : Z) : Z := if negb (r =? UNIFYFS_SUCCESS) then r else ret.
Definition combine_rets (ret : Z) (rets : list Z) : Z := foldl last_failure ret rets.

Lemma combine_rets_success rets : forall ret, combine_rets ret rets = UNIFYFS_SUCCESS <-> ret = UNIFYFS_SUCCESS /\ Forall (eq UNIFYFS_SUCCESS) rets.
Proof.
  induction rets as [|r rets IH]; intros ret; simpl; [by split; [|by intros [? _]]|]. rewrite IH Forall_cons. unfold last_failure.
  destruct (r =? UNIFYFS_SUCCESS) eqn:E; zbool; simpl; naive_solver.
Qed.

Lemma combine_rets_in rets : forall ret, combine_rets ret rets = ret \/ combine_rets ret rets ∈ rets.
Proof.
  induction rets as [|r rets IH]; intros ret; [by left|]. simpl. destruct (IH (last_failure ret r)) as [H|H]; [|set_solver].
  unfold combine_rets in *. rewrite H. unfold last_failure. destruct (negb _); [right; set_solver|by left].
Qed.

(** What the output of a collective says about files, if it is about files. *)
Definition carries (t : server_rpc_e) o attrs : Prop := t = UNIFYFS_SERVER_BCAST_RPC_METAGET -> encodes o attrs.

Lemma get_child_response_spec env m coll p c :
  mem_plenty m -> valid_coll (cr_req_type coll) = true -> cr_output coll = Some p ->
  exists m' p', get_child_response env m coll (Some c) = LRet (m', cr_set_output (Some p') coll, co_ret c) /\ mem_plenty m' /\
    co_ret p' = last_failure (co_ret p) (co_ret c) /\
    forall ps cs, env = merge_fine -> carries (cr_req_type coll) p ps -> carries (cr_req_type coll) c cs -> names_len (ps ++ cs) <= ULONG_MAX ->
      carries (cr_req_type coll) p' (ps ++ cs).
Proof.
  intros Hm Hv Hp. unfold get_child_response. destruct (calloc_plenty m Hm) as (m1 & -> & Hm1 & _). rewrite Hv Hp. cbn [negb].
  set (p1 := if negb (co_ret c =? UNIFYFS_SUCCESS) then co_set_ret (co_ret c) p else p).
  assert ((if negb (co_ret c =? UNIFYFS_SUCCESS) then co_set_ret (co_ret c) <$> Some p else Some p) = Some p1) as -> by (subst p1; by destruct (negb _)).
  assert (co_ret p1 = last_failure (co_ret p) (co_ret c)) as Hr by (subst p1; unfold last_failure; by destruct (negb _)).
  case_bool_decide as Ht.
  - destruct (merge_metaget_all_bcast_outputs env m1 p1 c) as [[m2 p2] rc] eqn:Hmerge. destruct (merge_mem _ _ _ _ _ _ _ Hmerge Hm1) as [Hm2 Hr2].
    exists m2, p2. rewrite Hr2. split_and!; [done..|]. intros ps cs -> Hps Hcs Hb Ht'.
    destruct (merge_spec m1 p1 c ps cs) as (m3 & p3 & Hmerge' & _ & ? & _); [done| |by apply Hcs|done|congruence].
    subst p1. destruct (negb _); [apply encodes_ret|]; by apply Hps.
  - exists m1, p1. by split_and!.
Qed.

Definition event_of (r : nat * coll_out * merge_env) : wait_result := WaitDone r.1.1 (Some r.1.2) r.2.

Lemma wait_children_spec (rs : list (nat * coll_out * merge_env)) : forall m coll n k ret p,
  mem_plenty m -> valid_coll (cr_req_type coll) = true -> cr_output coll = Some p -> rs <> [] -> n = k + Z.of_nat (length rs) ->
  exists m' coll' p', wait_children m coll n k ret (event_of <$> rs) = LRet (m', coll', Some (combine_rets ret ((fun r => co_ret r.1.2) <$> rs))) /\
    mem_plenty m' /\ cr_output coll' = Some p' /\ cr_resp_hdl coll' = cr_resp_hdl coll /\
    co_ret p' = combine_rets (co_ret p) ((fun r => co_ret r.1.2) <$> rs) /\
    forall ps css, Forall (fun r => r.2 = merge_fine) rs -> carries (cr_req_type coll) p ps -> Forall2 (fun r cs => carries (cr_req_type coll) r.1.2 cs) rs css ->
      names_len (ps ++ concat css) <= ULONG_MAX -> carries (cr_req_type coll) p' (ps ++ concat css).
Proof.
  induction rs as [|[[ndx c] env] rs IH]; intros m coll n k ret p Hm Hv Hp Hne Hn; [done|].
  rewrite !fmap_cons. cbn [event_of fst snd wait_children].
  destruct (get_child_response_spec env m coll p c Hm Hv Hp) as (m1 & p1 & -> & Hm1 & Hr1 & Hf1). cbn [lbind].
  change (if negb (co_ret c =? UNIFYFS_SUCCESS) then co_ret c else ret) with (last_failure ret (co_ret c)).
  set (coll1 := cr_set_child_reqs _ _). destruct rs as [|r rs].
  - rewrite (proj2 (Z.ltb_ge _ _)); [simpl in Hn; lia|]. exists m1, coll1, p1. split_and!; [done..|].
    intros ps css [He _]%Forall_cons Hps Hcss Hb. apply Forall2_cons_inv_l in Hcss as (cs & css' & Hcs & ->%Forall2_nil_inv_l & ->).
    cbn [concat] in *. rewrite app_nil_r in Hb |- *. by apply Hf1.
  - rewrite (proj2 (Z.ltb_lt _ _)); [simpl in Hn |- *; lia|].
    destruct (IH m1 coll1 n (k + 1) (last_failure ret (co_ret c)) p1) as (m' & coll' & p' & Hw & Hm' & Ho & Hh & Hr & Hf); [done..|simpl in *; lia|].
    exists m', coll', p'. split_and!; [done..|by rewrite Hr Hr1|].
    intros ps css [He Hes]%Forall_cons Hps Hcss Hb. apply Forall2_cons_inv_l in Hcss as (cs & css' & Hcs & Hcss & ->).
    cbn [concat] in Hb |- *. rewrite app_assoc in Hb |- *. apply Hf; [done| |done|done].
    apply Hf1; [done..|]. rewrite names_len_app in Hb. pose proof (names_len_nonneg (concat css')). lia.
Qed.

(** The root of most broadcasts has no output structure. *)
Lemma wait_children_null (rs : list (nat * coll_out * merge_env)) : forall m coll n k ret,
  mem_plenty m -> valid_coll (cr_req_type coll) = true -> cr_req_type coll <> UNIFYFS_SERVER_BCAST_RPC_METAGET -> cr_output coll = None ->
  rs <> [] -> n = k + Z.of_nat (length rs) ->
  exists m' coll', wait_children m coll n k ret (event_of <$> rs) = LRet (m', coll', Some (combine_rets ret ((fun r => co_ret r.1.2) <$> rs))) /\
    cr_resp_hdl coll' = cr_resp_hdl coll.
Proof.
  induction rs as [|[[ndx c] env] rs IH]; intros m coll n k ret Hm Hv Ht Ho Hne Hn; [done|].
  rewrite !fmap_cons. cbn [event_of fst snd wait_children]. unfold get_child_response at 1.
  destruct (calloc_plenty m Hm) as (m1 & -> & Hm1 & _). rewrite Hv Ho bool_decide_eq_false_2 //. cbn [negb fmap option_fmap option_map].
  rewrite (_ : (if negb (co_ret c =? UNIFYFS_SUCCESS) then None else None) = None :> option coll_out); [by destruct (negb _)|]. cbn [lbind].
  change (if negb (co_ret c =? UNIFYFS_SUCCESS) then co_ret c else ret) with (last_failure ret (co_ret c)).
  set (coll1 := cr_set_child_reqs _ _). destruct rs as [|r rs].
  - rewrite (proj2 (Z.ltb_ge _ _)); [simpl in Hn; lia|]. by exists m1, coll1.
  - rewrite (proj2 (Z.ltb_lt _ _)); [simpl in Hn |- *; lia|].
    apply (IH m1 coll1 n (k + 1) (last_failure ret (co_ret c))); [done..|simpl in *; lia].
Qed.

(** ** The servers of a tree *)

Lemma nth_seq {A} (l : list A) d : (fun i => nth i l d) <$> seq 0 (length l) = l.
Proof.
  apply list_eq. intros i. rewrite list_lookup_fmap. destruct (decide (i < length l)%nat) as [Hi|Hi].
  - rewrite lookup_seq_lt //. cbn [fmap option_fmap option_map]. destruct (lookup_lt_is_Some_2 l i Hi) as [x Hx]. rewrite Hx. f_equal. by apply nth_lookup_Some with (d := d) in Hx.
  - rewrite lookup_seq_ge; [lia|]. symmetry. apply lookup_ge_None. lia.
Qed.

Lemma nth_perm {A} (l : list A) d (js : list nat) : Permutation js (seq 0 (length l)) -> Permutation ((fun i => nth i l d) <$> js) l.
Proof. intros Hp. rewrite -{2}(nth_seq l d). by apply Permutation_map. Qed.

Lemma names_len_perm attrs1 attrs2 : Permutation attrs1 attrs2 -> names_len attrs1 = names_len attrs2.
Proof. induction 1; rewrite ?names_len_cons; lia. Qed.

(** Every child has answered, and its answer was read. *)
Definition all_received (n : nat) (evs : list net_event) : Prop :=
  exists l : list (nat * merge_env), evs = (fun x => NetDone x.1 true x.2) <$> l /\ Permutation l.*1 (seq 0 n).

(** No merge fails. *)
Definition merges_fine (evs : list net_event) : Prop := forall i b env, NetDone i b env ∈ evs -> env = merge_fine.

(** The results of a server whose children answered with [outs]. *)
Lemma received_events n evs (outs : list coll_out) :
  all_received n evs -> length outs = n ->
  exists l, wait_result_of (Some <$> outs) <$> evs = event_of <$> ((fun x => (x.1, nth x.1 outs empty_out, x.2)) <$> l) /\
    Permutation l.*1 (seq 0 n) /\ (merges_fine evs -> Forall (fun x => x.2 = merge_fine) l) /\
    Permutation ((fun r : nat * coll_out * merge_env => co_ret r.1.2) <$> ((fun x => (x.1, nth x.1 outs empty_out, x.2)) <$> l)) (co_ret <$> outs).
Proof.
  intros (l & -> & Hp) Hlen. exists l. split_and!; [|done| |].
  - rewrite -!list_fmap_compose. apply list_fmap_ext. intros j [i env] Hx. unfold compose. cbn [fst snd wait_result_of].
    assert (i < length outs)%nat as Hi.
    { apply list_elem_of_lookup_2, (list_elem_of_fmap_2 fst) in Hx. rewrite Hp in Hx. apply elem_of_seq in Hx. simpl in Hx. lia. }
    rewrite list_lookup_fmap. destruct (lookup_lt_is_Some_2 outs i Hi) as [o Ho]. rewrite Ho. cbn. unfold event_of. cbn.
    by rewrite (nth_lookup_Some outs i empty_out o Ho).
  - intros Hf. apply Forall_forall. intros [i env] Hx. apply (Hf i true). apply list_elem_of_fmap. by exists (i, env).
  - rewrite -list_fmap_compose. unfold compose. cbn [fst snd].
    rewrite (list_fmap_compose (fun x : nat * merge_env => nth x.1 outs empty_out) co_ret l). apply Permutation_map.
    rewrite (list_fmap_compose fst (fun i => nth i outs empty_out) l). apply nth_perm. by rewrite Hp Hlen.
Qed.

Section Tree.
#[local] Set Default Proof Using "Type".
Context (t : server_rpc_e) (ranks root : Z) (local : Z -> option coll_out) (mems : Z -> mem) (net : Z -> list net_event).
Context (Hv : valid_coll t = true) (Hroot : 0 <= root < ranks).
Context (Hmem : forall r, 0 <= r < ranks -> mem_plenty (mems r)).
Context (Hlocal : forall r, 0 <= r < ranks -> r <> root -> is_Some (local r)).
Context (Hnet : forall r, 0 <= r < ranks -> all_received (length (ktree_children (tree_at ranks root r))) (net r)).

Definition local_ret (r : Z) : Z := co_ret (default empty_out (local r)).

Abbreviation subtree fuel rank := (ktree_broadcast fuel ranks root UNIFYFS_BCAST_K_ARY rank).
Abbreviation pos := (rank_pos ranks root).

(** The response [o] of a server sums up those of the servers below it. *)
Record sums_up (below : list Z) o : Prop := {
  su_ret : co_ret o = UNIFYFS_SUCCESS <-> forall r, r ∈ below -> local_ret r = UNIFYFS_SUCCESS;
  su_in : co_ret o <> UNIFYFS_SUCCESS -> exists r, r ∈ below /\ local_ret r = co_ret o;
  su_files (files : Z -> list unifyfs_file_attr_t) :
    (forall r, 0 <= r < ranks -> merges_fine (net r)) -> (forall r o, 0 <= r < ranks -> local r = Some o -> carries t o (files r)) ->
    names_len (below ≫= files) <= ULONG_MAX -> exists attrs, carries t o attrs /\ Permutation attrs (below ≫= files);
}.

(** The children of a server are below it in the tree. *)
Lemma child_pos rank child :
  0 <= rank < ranks -> child ∈ ktree_children (tree_at ranks root rank) -> 0 <= child < ranks /\ pos rank < pos child /\ child <> root.
Proof using Hroot.
  intros Hr Hc. assert (1 <= UNIFYFS_BCAST_K_ARY) as Hk by (unfold UNIFYFS_BCAST_K_ARY; lia). unfold tree_at in Hc.
  rewrite (proj2 (ktree_of_spec ranks root _ Hroot Hk rank Hr)) in Hc. apply list_elem_of_fmap in Hc as (q & -> & Hq).
  apply (elem_of_pos_children ranks root _ Hroot Hk) in Hq as [Hq Hpar]; [|by apply (rank_pos_ok ranks root UNIFYFS_BCAST_K_ARY)].
  assert (pos (ktree_rotate root ranks q) = q) as Hpos by by apply (rank_pos_rotate ranks root UNIFYFS_BCAST_K_ARY).
  assert (0 < q) as Hq0.
  { unfold pos_parent in Hpar. pose proof (rank_pos_ok ranks root UNIFYFS_BCAST_K_ARY Hroot Hk rank Hr) as [? _].
    destruct (q >? 0) eqn:E; zbool; [lia|]. unfold pos_ok in *. lia. }
  pose proof (pos_parent_lt ranks root _ Hroot Hk q Hq0) as Hlt. split; [|split].
  - exact (rotate_pos ranks root _ Hroot Hk q Hq).
  - rewrite Hpos. lia.
  - intros Heq. rewrite Heq in Hpos. unfold rank_pos in Hpos. rewrite Z.sub_diag in Hpos. simpl in Hpos. lia.
Qed.

Lemma children_files fuel chs outs (files : Z -> list unifyfs_file_attr_t) :
  Forall2 (fun child o => sums_up (subtree fuel child) o) chs outs ->
  (forall r, 0 <= r < ranks -> merges_fine (net r)) -> (forall r o, 0 <= r < ranks -> local r = Some o -> carries t o (files r)) ->
  let below := flat_map (ktree_broadcast fuel ranks root UNIFYFS_BCAST_K_ARY) chs in
  names_len (below ≫= files) <= ULONG_MAX -> exists css, Forall2 (carries t) outs css /\ Permutation (concat css) (below ≫= files).
Proof.
  intros HF Hfine Hfiles. induction HF as [|child o chs outs [_ _ Hc] _ IH]; intros below Hb; [by exists []|]. subst below.
  cbn [flat_map] in Hb |- *. rewrite bind_app names_len_app in Hb. set (here := subtree fuel child ≫= files) in *.
  set (rest := flat_map _ chs ≫= files) in *. pose proof (names_len_nonneg here). pose proof (names_len_nonneg rest).
  destruct (Hc files Hfine Hfiles) as (attrs & Ha & Hp); [fold here; lia|]. destruct IH as (css & Hcss & Hpp); [fold rest; lia|].
  exists (attrs :: css). split; [by constructor|]. rewrite bind_app. cbn. by rewrite Hp Hpp.
Qed.

Lemma concat_perm {A} (l1 l2 : list (list A)) : Permutation l1 l2 -> Permutation (concat l1) (concat l2).
Proof. induction 1; cbn; [done|by f_equiv|by rewrite !app_assoc (Permutation_app_comm y x)|by etrans]. Qed.

(** The responses of the children of [rank], and what they sum up to when they
    are merged into [p]. *)
Lemma children_sum fuel rank (outs : list coll_out) :
  0 <= rank < ranks -> Forall2 (fun child o => sums_up (subtree fuel child) o) (ktree_children (tree_at ranks root rank)) outs ->
  forall m resp p, mem_plenty m ->
  exists m' coll p' ret, collective_finish m (new_collective t resp (Some p) (tree_at ranks root rank)) (wait_result_of (Some <$> outs) <$> net rank) =
      LRet (m', coll, if resp then Some p' else None, Some ret) /\ mem_plenty m' /\ cr_output coll = Some p' /\
    (exists rets, co_ret p' = combine_rets (co_ret p) rets /\ ret = combine_rets UNIFYFS_SUCCESS rets /\ Permutation rets (co_ret <$> outs)) /\
    forall ps (files : Z -> list unifyfs_file_attr_t), (forall r, 0 <= r < ranks -> merges_fine (net r)) -> (forall r o, 0 <= r < ranks -> local r = Some o -> carries t o (files r)) ->
      carries t p ps -> let below := flat_map (ktree_broadcast fuel ranks root UNIFYFS_BCAST_K_ARY) (ktree_children (tree_at ranks root rank)) in
      names_len (ps ++ (below ≫= files)) <= ULONG_MAX -> exists attrs, carries t p' attrs /\ Permutation attrs (ps ++ (below ≫= files)).
Proof using Hv Hroot Hnet.
  intros Hr Houts m resp p Hm. assert (1 <= UNIFYFS_BCAST_K_ARY) as Hk by (unfold UNIFYFS_BCAST_K_ARY; lia).
  pose proof (Forall2_length _ _ _ Houts) as Hlen. destruct (received_events _ _ outs (Hnet rank Hr) (eq_sym Hlen)) as (l & -> & Hl & Hfine & Hrets).
  set (chs := ktree_children (tree_at ranks root rank)) in *. unfold collective_finish, wait_for_all_child_requests.
  cbn [new_collective cr_child_reqs]. rewrite length_replicate (ktree_count_spec ranks root _ Hroot Hk rank Hr).
  fold (tree_at ranks root rank). fold chs. assert (length l = length chs) as Hll by (rewrite -(length_fmap fst l) Hl length_seq //).
  destruct l as [|x l].
  { cbn in Hll. rewrite -Hll /=. assert (outs = []) as -> by (apply nil_length_inv; lia). assert (chs = []) as -> by (by apply nil_length_inv).
    eexists m, _, p, _. split; [by destruct resp|]. split; [done|]. split; [done|]. split; [by exists []|].
    intros ps files _ _ Hp _. exists ps. cbn. by rewrite app_nil_r. }
  rewrite (proj2 (Z.eqb_neq _ 0)); [rewrite -Hll; cbn; lia|].
  set (rs := _ <$> x :: l). destruct (wait_children_spec rs m (new_collective t resp (Some p) (tree_at ranks root rank)) (Z.of_nat (length chs)) 0
    UNIFYFS_SUCCESS p Hm Hv eq_refl ltac:(done)) as (m' & coll & p' & Hw & Hm' & Ho & Hh & Hret & Hf).
  { subst rs. by rewrite length_fmap Hll. }
  exists m', coll, p', (combine_rets UNIFYFS_SUCCESS ((fun r => co_ret r.1.2) <$> rs)). rewrite Hw. cbn [lbind]. split.
  { unfold collective_response. rewrite Hh Ho. by destruct resp. }
  split; [done|]. split; [done|]. split.
  { eexists. split; [done|]. split; [done|]. exact Hrets. }
  intros ps files Hmf Hfiles Hp Hb. rewrite names_len_app in Hb. pose proof (names_len_nonneg ps).
  destruct (children_files fuel chs outs files Houts Hmf Hfiles) as (css & Hcss & Hpc); [lia|].
  pose proof (Forall2_length _ _ _ Hcss) as Hlc. set (css' := (fun x : nat * merge_env => nth x.1 css []) <$> x :: l).
  assert (Permutation (concat css') (concat css)) as Hpp.
  { apply concat_perm. subst css'. rewrite (list_fmap_compose fst (fun i => nth i css []) (x :: l)). apply nth_perm. by rewrite Hl Hlen Hlc. }
  exists (ps ++ concat css'). split; [|by rewrite Hpp Hpc]. apply Hf; [|done| |].
  - subst rs. apply Forall_fmap. exact (Hfine (Hmf rank Hr)).
  - subst rs css'. apply Forall2_fmap, Forall_Forall2_diag, Forall_forall. intros y Hy. cbn [fst snd].
    apply (list_elem_of_fmap_2 fst) in Hy. rewrite Hl in Hy. apply elem_of_seq in Hy as [_ Hy].
    destruct (lookup_lt_is_Some_2 outs y.1) as [o Hy1]; [lia|]. destruct (lookup_lt_is_Some_2 css y.1) as [cs Hy2]; [lia|].
    rewrite (nth_lookup_Some outs _ _ _ Hy1) (nth_lookup_Some css _ _ _ Hy2). exact (Forall2_lookup_lr _ _ _ _ _ _ Hcss Hy1 Hy2).
  - rewrite names_len_app (names_len_perm _ _ Hpp) (names_len_perm _ _ Hpc). lia.
Qed.

Lemma rets_below fuel chs outs rets ret0 :
  Forall2 (fun child o => sums_up (subtree fuel child) o) chs outs -> Permutation rets (co_ret <$> outs) ->
  let below := flat_map (ktree_broadcast fuel ranks root UNIFYFS_BCAST_K_ARY) chs in let ret := combine_rets ret0 rets in
  (ret = UNIFYFS_SUCCESS <-> ret0 = UNIFYFS_SUCCESS /\ forall r, r ∈ below -> local_ret r = UNIFYFS_SUCCESS) /\
  (ret <> UNIFYFS_SUCCESS -> ret = ret0 \/ exists r, r ∈ below /\ local_ret r = ret).
Proof.
  intros HF Hp below ret. assert (forall r, r ∈ below <-> exists child, child ∈ chs /\ r ∈ subtree fuel child) as Hbelow.
  { intros r. subst below. rewrite list_elem_of_In in_flat_map. setoid_rewrite <- list_elem_of_In. done. }
  assert (Forall (eq UNIFYFS_SUCCESS) rets <-> forall r, r ∈ below -> local_ret r = UNIFYFS_SUCCESS) as Hall.
  { rewrite Hp Forall_fmap Forall_forall. split.
    - intros H r (child & Hc & Hr)%Hbelow. apply list_elem_of_lookup in Hc as [i Hi].
      destruct (Forall2_lookup_l _ _ _ _ _ HF Hi) as (o & Ho & Hs). apply (su_ret _ _ Hs); [|done]. symmetry. eapply H, list_elem_of_lookup_2, Ho.
    - intros H o [i Ho]%list_elem_of_lookup. destruct (Forall2_lookup_r _ _ _ _ _ HF Ho) as (child & Hi & Hs). symmetry. apply (su_ret _ _ Hs).
      intros r Hr. apply H, Hbelow. exists child. split; [by eapply list_elem_of_lookup_2|done]. }
  split; [by rewrite combine_rets_success Hall|]. intros Hne. destruct (combine_rets_in rets ret0) as [H|H]; [by left|right].
  fold ret in H. rewrite Hp in H. apply list_elem_of_fmap in H as (o & Ho & [i Hi]%list_elem_of_lookup).
  destruct (Forall2_lookup_r _ _ _ _ _ HF Hi) as (child & Hc & Hs). rewrite Ho in Hne |- *. destruct (su_in _ _ Hs Hne) as (r & Hr & <-).
  exists r. split; [|done]. apply Hbelow. exists child. split; [by eapply list_elem_of_lookup_2|done].
Qed.

Lemma responses_list fuel chs :
  (forall child, child ∈ chs -> exists o, tree_response t ranks root local mems net fuel child = LRet (Some o) /\ sums_up (subtree fuel child) o) ->
  exists outs, lmap (tree_response t ranks root local mems net fuel) chs = LRet (Some <$> outs) /\
    Forall2 (fun child o => sums_up (subtree fuel child) o) chs outs.
Proof.
  induction chs as [|child chs IH]; intros H; [by exists []|]. destruct (H child) as (o & Ho & Hs); [apply elem_of_cons; by left|].
  destruct IH as (outs & Houts & HF); [intros c' Hc; apply H, elem_of_cons; by right|]. exists (o :: outs). cbn. rewrite Ho /= Houts. split; [done|by constructor].
Qed.

(** Every server responds. *)
Lemma tree_response_spec fuel : forall rank, 0 <= rank < ranks -> rank <> root -> ranks - pos rank <= Z.of_nat fuel ->
  exists o, tree_response t ranks root local mems net fuel rank = LRet (Some o) /\ sums_up (subtree fuel rank) o.
Proof using Hv Hroot Hnet Hmem Hlocal.
  induction fuel as [|fuel IH]; intros rank Hr Hne Hfuel.
  { assert (1 <= UNIFYFS_BCAST_K_ARY) as Hk by done. pose proof (rank_pos_ok ranks root UNIFYFS_BCAST_K_ARY Hroot Hk rank Hr). unfold pos_ok in *. lia. }
  cbn [tree_response ktree_broadcast]. set (chs := ktree_children (tree_at ranks root rank)).
  destruct (responses_list fuel chs) as (outs & Hys & Houts).
  { intros child Hc. destruct (child_pos rank child Hr Hc) as (Hc1 & Hc2 & Hc3). apply IH; [done..|lia]. }
  rewrite Hys. cbn [lbind]. destruct (Hlocal rank Hr Hne) as [out Hout]. rewrite Hout.
  destruct (children_sum fuel rank outs Hr Houts (mems rank) true out (Hmem rank Hr)) as (m' & coll & p' & ret & -> & _ & _ & (rets & Hret & _ & Hp) & Hf).
  cbn [lbind]. exists p'. split; [done|]. destruct (rets_below fuel chs outs rets (co_ret out) Houts Hp) as [Hs Hi].
  assert (local_ret rank = co_ret out) as Hlr by (unfold local_ret; by rewrite Hout).
  fold (tree_at ranks root rank). fold chs. split; rewrite ?Hret.
  - rewrite Hs. setoid_rewrite elem_of_cons. rewrite -Hlr. naive_solver.
  - intros Hn. destruct (Hi Hn) as [Heq|(r & Hr' & Heq)]; [exists rank|exists r]; (split; [set_solver|congruence]).
  - intros files Hmf Hfiles Hb. destruct (Hf (files rank) files Hmf Hfiles (Hfiles rank out Hr Hout) Hb) as (attrs & ? & ?). by exists attrs.
Qed.

(** The results of the children of the root. *)
Lemma root_events_spec fuel : ranks - 1 <= Z.of_nat fuel ->
  exists outs, root_events t ranks root local mems net fuel = LRet (wait_result_of (Some <$> outs) <$> net root) /\
    Forall2 (fun child o => sums_up (subtree fuel child) o) (ktree_children (tree_at ranks root root)) outs.
Proof using Hv Hroot Hnet Hmem Hlocal.
  intros Hfuel. unfold root_events. destruct (responses_list fuel (ktree_children (tree_at ranks root root))) as (outs & Hys & Houts).
  { intros child Hc. destruct (child_pos root child Hroot Hc) as (Hc1 & Hc2 & Hc3).
    assert (pos root = 0) as H0 by (unfold rank_pos; by rewrite Z.sub_diag). apply tree_response_spec; [done..|lia]. }
  exists outs. by rewrite Hys.
Qed.

(** The root without an output structure. *)
Lemma root_finish_null fuel outs m :
  Forall2 (fun child o => sums_up (subtree fuel child) o) (ktree_children (tree_at ranks root root)) outs ->
  mem_plenty m -> t <> UNIFYFS_SERVER_BCAST_RPC_METAGET ->
  exists m' coll rets, collective_finish m (new_collective t false None (tree_at ranks root root)) (wait_result_of (Some <$> outs) <$> net root) =
      LRet (m', coll, None, Some (combine_rets UNIFYFS_SUCCESS rets)) /\ Permutation rets (co_ret <$> outs).
Proof using Hv Hroot Hnet.
  intros Houts Hm Ht. pose proof (Forall2_length _ _ _ Houts) as Hlen.
  destruct (received_events _ _ outs (Hnet root Hroot) (eq_sym Hlen)) as (l & -> & Hl & _ & Hrets). unfold collective_finish, wait_for_all_child_requests.
  cbn [new_collective cr_child_reqs]. assert (1 <= UNIFYFS_BCAST_K_ARY) as Hk by done.
  rewrite length_replicate (ktree_count_spec ranks root _ Hroot Hk root Hroot). fold (tree_at ranks root root).
  set (chs := ktree_children (tree_at ranks root root)) in *.
  assert (length l = length chs) as Hll by (rewrite -(length_fmap fst l) Hl length_seq //). destruct l as [|x l].
  { cbn in Hll. rewrite -Hll /=. exists m. eexists _, []. split; [done|]. by assert (outs = []) as -> by (apply nil_length_inv; lia). }
  rewrite (proj2 (Z.eqb_neq _ 0)); [rewrite -Hll; cbn; lia|]. set (rs := _ <$> x :: l).
  destruct (wait_children_null rs m (new_collective t false None (tree_at ranks root root)) (Z.of_nat (length chs)) 0 UNIFYFS_SUCCESS Hm Hv Ht eq_refl
    ltac:(done)) as (m' & coll & -> & Hh); [subst rs; by rewrite length_fmap Hll|].
  exists m', coll, ((fun r => co_ret r.1.2) <$> rs). cbn [lbind]. split; [|exact Hrets]. unfold collective_response. by rewrite Hh.
Qed.

(** The servers below the root are all others. *)
Lemma below_root fuel : Z.of_nat fuel = ranks - 1 ->
  Permutation (root :: flat_map (ktree_broadcast fuel ranks root UNIFYFS_BCAST_K_ARY) (ktree_children (tree_at ranks root root))) (seqZ 0 ranks).
Proof using Hroot.
  intros Hfuel. rewrite -(ktree_broadcast_once ranks root UNIFYFS_BCAST_K_ARY); [done|done|].
  replace (Z.to_nat ranks) with (S fuel) by lia. done.
Qed.
End Tree.

Lemma elem_of_below ranks root fuel r : 0 <= root < ranks -> Z.of_nat fuel = ranks - 1 ->
  r ∈ flat_map (ktree_broadcast fuel ranks root UNIFYFS_BCAST_K_ARY) (ktree_children (tree_at ranks root root)) <-> 0 <= r < ranks /\ r <> root.
Proof.
  intros Hroot Hfuel. pose proof (below_root ranks root Hroot fuel Hfuel) as Hp. set (below := flat_map _ _) in *.
  assert (NoDup (root :: below)) as [Hn _]%NoDup_cons by (rewrite Hp; apply NoDup_seqZ).
  assert (r ∈ root :: below <-> r ∈ seqZ 0 ranks) as Hin by (by rewrite Hp). rewrite elem_of_cons elem_of_seqZ in Hin. split.
  - intros Hr. split; [|by intros ->]. assert (0 <= r < 0 + ranks) by (apply Hin; by right). lia.
  - intros [Hr Hne]. destruct (proj2 Hin ltac:(lia)); done.
Qed.

(** C12. Errors of a broadcast.  Whatever the order in which servers respond, when
    every call between them is answered and the answers can be read, the root
    waits until all have responded; its return code is success if and only if
    every other server carried out the operation with success, and otherwise it
    is the code of a server that did not. *)
Theorem broadcast_failure_reported t ranks root (local : Z -> option coll_out) (mems : Z -> mem) (net : Z -> list net_event) m out :
  valid_coll t = true -> 0 <= root < ranks -> (forall r, 0 <= r < ranks -> mem_plenty (mems r)) ->
  (forall r, 0 <= r < ranks -> r <> root -> is_Some (local r)) ->
  (forall r, 0 <= r < ranks -> all_received (length (ktree_children (tree_at ranks root r))) (net r)) ->
  mem_plenty m -> (t = UNIFYFS_SERVER_BCAST_RPC_METAGET -> is_Some out) ->
  exists events m' coll ret, root_events t ranks root local mems net (Z.to_nat (ranks - 1)) = LRet events /\
    collective_finish m (new_collective t false out (tree_at ranks root root)) events = LRet (m', coll, None, Some ret) /\
    (ret = UNIFYFS_SUCCESS <-> forall r, 0 <= r < ranks -> r <> root -> local_ret local r = UNIFYFS_SUCCESS) /\
    (ret <> UNIFYFS_SUCCESS -> exists r, 0 <= r < ranks /\ r <> root /\ local_ret local r = ret).
Proof.
  intros Hv Hroot Hmem Hlocal Hnet Hm Hout. set (fuel := Z.to_nat (ranks - 1)). assert (Z.of_nat fuel = ranks - 1) as Hfuel by lia.
  destruct (root_events_spec t ranks root local mems net Hv Hroot Hmem Hlocal Hnet fuel) as (outs & Hev & Houts); [lia|].
  assert (exists m' coll rets, collective_finish m (new_collective t false out (tree_at ranks root root)) (wait_result_of (Some <$> outs) <$> net root) =
      LRet (m', coll, None, Some (combine_rets UNIFYFS_SUCCESS rets)) /\ Permutation rets (co_ret <$> outs)) as (m' & coll & rets & Hfin & Hp).
  { destruct out as [p|].
    - destruct (children_sum t ranks root local net Hv Hroot Hnet fuel root outs Hroot Houts m false p Hm) as (m' & coll & p' & ret & Hfin & _ & _ & (rets & _ & -> & Hp) & _).
      by exists m', coll, rets.
    - apply (root_finish_null t ranks root local net Hv Hroot Hnet fuel outs m Houts Hm). intros Ht. by destruct (Hout Ht). }
  destruct (rets_below t ranks root local net fuel _ outs rets UNIFYFS_SUCCESS Houts Hp) as [Hs Hi].
  eexists _, m', coll, _. split; [exact Hev|]. split; [exact Hfin|]. split.
  - rewrite Hs. setoid_rewrite (fun r => elem_of_below ranks root fuel r Hroot Hfuel). naive_solver.
  - intros Hne. destruct (Hi Hne) as [?|(r & Hr & Heq)]; [done|]. apply (elem_of_below ranks root fuel r Hroot Hfuel) in Hr as [? ?]. by exists r.
Qed.

(** ** Listing the files of all servers *)

Definition owned_files (sv : server) : list unifyfs_file_attr_t := filter (owned_here sv) (ino_attr <$> rb_elems (sv_inodes sv)).

Definition files_named (sv : server) : Prop := forall g ino, sv_map sv !! g = Some ino -> is_Some (fa_filename (ino_attr ino)).

Lemma owned_loop_mem nodes : forall sv sz acc sv' r, mem_plenty (sv_mem sv) -> owned_loop sv sz acc nodes = LRet (sv', r) -> mem_plenty (sv_mem sv').
Proof.
  induction nodes as [|x nodes IH]; intros sv sz acc sv' r Hm; cbn [owned_loop]; [by intros [= <- _]|].
  assert (exists m1 sz1, (if Z.of_nat (length acc) =? sz then let '(p, m) := calloc (sv_mem sv) in
    (match p with Some _ => true | None => false end, m, sz * 2) else (true, sv_mem sv, sz)) = (true, m1, sz1) /\ mem_plenty m1) as (m1 & sz1 & -> & Hm1).
  { destruct (_ =? _); [|by eexists _, _]. destruct (calloc_plenty _ Hm) as (m1 & -> & ? & _). by eexists _, _. }
  cbn [negb]. destruct (_ =? _); [|by apply IH]. destruct (fa_filename (ino_attr x)) as [name|]; [|done]. cbn [lift_option lbind].
  destruct (strdup_plenty m1 name Hm1) as (m2 & Hs & Hm2). cbn [sv_mem set_mem]. rewrite Hs. by apply IH.
Qed.

Lemma get_owned_spec sv m :
  server_reach (fun _ _ => True) True sv -> mem_plenty m -> files_named sv ->
  exists m', unifyfs_get_owned_files (set_mem m sv) = LRet (set_mem m' sv, UNIFYFS_SUCCESS, owned_files sv) /\ mem_plenty m' /\ named (owned_files sv).
Proof.
  intros Hwf%server_reach_wf Hm Hnamed. pose proof (sv_wf_tree _ Hwf) as Ht. unfold unifyfs_get_owned_files. cbn [sv_mem set_mem sv_inodes].
  destruct (calloc_plenty _ Hm) as (m1 & -> & Hm1 & _). rewrite (inode_walk_all _ _ Ht). cbn [lift_option lbind].
  assert (Forall (fun ino => is_Some (fa_filename (ino_attr ino))) (rb_elems (sv_inodes sv))) as Hn.
  { apply Forall_forall. intros ino Hin. apply (Hnamed (ino_gfid ino)). by apply (it_map_some (sv_mem sv)). }
  destruct (owned_loop_ok (rb_elems (sv_inodes sv)) (set_mem m1 (set_mem m sv)) 64 [] Hm1 Hn) as [m2 Hl].
  pose proof (owned_loop_mem _ (set_mem m1 (set_mem m sv)) _ _ _ _ Hm1 Hl) as Hm2. rewrite Hl. cbn [lbind]. exists m2. split; [done|]. split; [done|].
  apply Forall_forall. intros a [_ (ino & -> & Hin)%list_elem_of_fmap]%list_elem_of_filter. exact (proj1 (Forall_forall _ _) Hn ino Hin).
Qed.

Lemma metaget_output_spec ranks root sv :
  server_reach (fun _ _ => True) True sv -> mem_plenty (sv_mem sv) -> files_named sv -> names_len (owned_files sv) <= ULONG_MAX ->
  exists o, metaget_output ranks root sv = Some o /\ encodes o (owned_files sv).
Proof.
  intros Hr Hm Hn Hb. unfold metaget_output, process_metaget_bcast_rpc.
  destruct (get_owned_spec sv (sv_mem sv) Hr Hm Hn) as (m1 & Ho & Hm1 & Hnamed). rewrite set_mem_id in Ho. rewrite Ho. cbn [lbind sv_mem set_mem].
  destruct (calloc_plenty m1 Hm1) as (m2 & -> & _ & _). rewrite (concat_names_eq _ 0) //. cbn [lbind].
  change (negb (UNIFYFS_SUCCESS =? UNIFYFS_SUCCESS)) with false. cbv iota. rewrite bool_decide_eq_true_2 //. cbn [negb]. rewrite andb_false_r.
  cbn [new_collective cr_output lift_option lbind]. eexists. split; [done|]. case_bool_decide as Hnil; split; rewrite ?Hnil; try done; by rewrite -?Hnil.
Qed.

Lemma assign_names_spec attrs : forall m (pre : string),
  mem_plenty m -> named attrs -> Z.of_nat (String.length pre) + names_len attrs <= ULONG_MAX ->
  exists m', assign_names m (String.append pre (names_of attrs)) (sent_of (Z.of_nat (String.length pre)) attrs) = LRet (m', Some attrs) /\ mem_plenty m'.
Proof.
  induction attrs as [|a attrs IH]; intros m pre Hm Hn Hb; [by exists m|]. apply Forall_cons in Hn as [[name Ha] Hn].
  pose proof (names_len_nonneg attrs). rewrite names_len_cons in Hb.
  assert (name_of a = name) as Hname by (unfold name_of; by rewrite Ha). assert (name_len a = Z.of_nat (String.length name)) as Hlen by (by rewrite -Hname).
  cbn [sent_of assign_names sa_offset sa_attr names_of]. rewrite Hname.
  rewrite (proj2 (Z.ltb_ge _ _)); [rewrite string_app_length; lia|]. rewrite Nat2Z.id substring_after; [rewrite !string_app_length; lia|].
  set (n := match sent_of _ _ with [] => _ | _ => _ end). assert (n = name_len a) as ->.
  { subst n. destruct attrs as [|b attrs]; cbn [sent_of names_of sa_offset].
    - by rewrite append_empty_r.
    - rewrite u64_small; [unfold is_u64; lia|]. lia. }
  rewrite Z.min_l; [rewrite string_app_length; lia|]. rewrite Hlen Nat2Z.id substring_before.
  destruct (strdup_plenty m name Hm) as (m1 & -> & Hm1). rewrite -string_app_assoc.
  destruct (IH m1 (String.append pre name) Hm1 Hn) as (m2 & Hop & Hm2); [rewrite string_app_length; lia|].
  rewrite string_app_length Nat2Z.inj_add in Hop. rewrite Hop. cbn [lbind]. exists m2. split; [|done]. do 2 f_equal. cbn. f_equal. f_equal.
  destruct a; cbn in Ha |- *. by rewrite Ha.
Qed.

Lemma forward_all (chs : list Z) : collective_forward (replicate (length chs) true) chs UNIFYFS_SUCCESS = (chs, UNIFYFS_SUCCESS).
Proof. induction chs as [|child chs IH]; [done|]. cbn. by rewrite IH. Qed.

Lemma tree_init_plenty m rank ranks root k : 1 <= k -> mem_plenty m ->
  exists m', unifyfs_tree_init m rank ranks root k = (m', ktree_of rank ranks root k, 0) /\ mem_plenty m'.
Proof.
  intros Hk Hm. unfold ktree_of, unifyfs_tree_init. destruct (calloc_plenty m Hm) as (m1 & -> & Hm1 & _).
  rewrite (proj2 (Z.gtb_lt k 0)); [lia|]. change (calloc (Mem 1 [])) with (Some 1, Mem 2 []). cbv beta iota.
  exists m1. split; [|done]. by destruct (if _ <? ranks then _ else _).
Qed.

Lemma create_plenty m rank ranks root : mem_plenty m ->
  exists m', collective_create m rank ranks root = (m', Some (tree_at ranks root rank)) /\ mem_plenty m'.
Proof.
  intros Hm. unfold collective_create. destruct (calloc_plenty m Hm) as (m1 & -> & Hm1 & _).
  destruct (tree_init_plenty m1 rank ranks root UNIFYFS_BCAST_K_ARY ltac:(done) Hm1) as (m2 & -> & Hm2). change (c_true 0) with false. cbv iota.
  fold (tree_at ranks root rank). destruct (c_true _); [|by exists m2].
  destruct (calloc_plenty m2 Hm2) as (m3 & -> & Hm3 & _). destruct (calloc_plenty m3 Hm3) as (m4 & -> & Hm4 & _). by exists m4.
Qed.

Lemma remote_files_spec env m o attrs :
  ma_bulk_create env = true -> ma_bulk_pull env = true -> mem_plenty m -> encodes o attrs ->
  exists m', remote_files env m o = LRet (m', inr attrs) /\ mem_plenty m'.
Proof.
  intros Hc Hp Hm Henc. unfold remote_files. pose proof (en_num _ _ Henc) as Hnum. rewrite Hnum. destruct attrs as [|a attrs]; [by exists m|].
  rewrite (proj2 (Z.eqb_neq _ 0)); [simpl; lia|]. destruct (calloc_plenty m Hm) as (m1 & -> & Hm1 & _). rewrite Hc Hp (pull_encoded _ _ Henc).
  destruct (en_meta _ _ Henc ltac:(done)) as [_ ->]. cbn [lift_option lbind].
  destruct (assign_names_spec (a :: attrs) m1 EmptyString Hm1) as (m2 & Hop & Hm2); [apply Henc|exact (en_len _ _ Henc)|].
  exists m2. change (sent_of (Z.of_nat (String.length "")) (a :: attrs)) with (sent_of 0 (a :: attrs)) in Hop.
  change (String.append "" (names_of (a :: attrs))) with (names_of (a :: attrs)) in Hop. by rewrite Hop.
Qed.

(** The library and the servers do nothing wrong, and the servers answer in
    time. *)
Definition fine_env (ranks root : Z) (events : list wait_result) : metaget_all_env :=
  MetagetAllEnv (replicate (length (ktree_children (tree_at ranks root root))) true) UNIFYFS_SUCCESS events true true.

Record listing_server (ranks r : Z) (sv : server) : Prop := {
  ls_reach : server_reach (fun _ _ => True) True sv;
  ls_mem : mem_plenty (sv_mem sv);
  ls_rank : sv_glb_pmi_rank sv = r;
  ls_size : sv_glb_pmi_size sv = ranks;
  ls_named : files_named sv;
}.

(** Who frees the collective does not matter for the responses. *)
Lemma child_response_cleanup b env m coll out :
  get_child_response env m (cr_set_auto_cleanup b coll) out = let! '(m, coll, rc) := get_child_response env m coll out in LRet (m, cr_set_auto_cleanup b coll, rc).
Proof.
  unfold get_child_response. destruct (calloc m) as [[]]; [|done]. destruct out as [c|]; [|done]. cbn [cr_set_auto_cleanup cr_req_type cr_output].
  destruct (valid_coll _); [|done]. cbn [negb]. destruct (bool_decide _); [|done]. destruct (if negb (co_ret c =? _) then _ else _) as [p|]; [|done].
  by destruct (merge_metaget_all_bcast_outputs _ _ _ _) as [[? ?] ?].
Qed.

Lemma wait_children_cleanup b events : forall m coll n k ret,
  wait_children m (cr_set_auto_cleanup b coll) n k ret events =
  let! '(m, coll, rc) := wait_children m coll n k ret events in LRet (m, cr_set_auto_cleanup b coll, rc).
Proof.
  induction events as [|[ndx out env|] events IH]; intros m coll n k ret; [done| |done]. cbn [wait_children]. rewrite child_response_cleanup.
  destruct (get_child_response env m coll out) as [[[m1 coll1] rc]| |]; [|done..]. cbn [lbind].
  change (cr_set_child_reqs (<[ndx:=false]> (cr_child_reqs (cr_set_auto_cleanup b coll1))) (cr_set_auto_cleanup b coll1))
    with (cr_set_auto_cleanup b (cr_set_child_reqs (<[ndx:=false]> (cr_child_reqs coll1)) coll1)).
  destruct (_ <? _); [apply IH|done].
Qed.

Lemma finish_cleanup b m coll events :
  collective_finish m (cr_set_auto_cleanup b coll) events =
  let! '(m, coll, resp, rc) := collective_finish m coll events in LRet (m, cr_set_auto_cleanup b coll, resp, rc).
Proof.
  unfold collective_finish, wait_for_all_child_requests. cbn [cr_set_auto_cleanup cr_child_reqs]. destruct (_ =? _); [done|].
  change (CollRequest _ _ _ _ b _ _ _) with (cr_set_auto_cleanup b coll). rewrite wait_children_cleanup.
  by destruct (wait_children m coll _ _ _ _) as [[[? ?] ?]| |].
Qed.

(** The root, once the results of its children are known. *)
Lemma metaget_all_root ranks root sv events (P : list unifyfs_file_attr_t -> Prop) :
  listing_server ranks root sv ->
  (forall m, mem_plenty m -> exists m' coll p ret attrs, collective_finish m (new_collective UNIFYFS_SERVER_BCAST_RPC_METAGET false (Some empty_out) (tree_at ranks root root)) events =
     LRet (m', coll, None, Some ret) /\ mem_plenty m' /\ cr_output coll = Some p /\ encodes p attrs /\ P attrs) ->
  exists sv' attrs, unifyfs_invoke_broadcast_metaget_all (fine_env ranks root events) sv = LRet (sv', UNIFYFS_SUCCESS, attrs ++ owned_files sv) /\
    mem_plenty (sv_mem sv') /\ P attrs.
Proof.
  intros [Hr Hm Hrank Hsize Hn] Hfin. unfold unifyfs_invoke_broadcast_metaget_all. rewrite Hrank Hsize.
  destruct (calloc_plenty _ Hm) as (m1 & -> & Hm1 & _). destruct (calloc_plenty _ Hm1) as (m2 & -> & Hm2 & _).
  destruct (create_plenty m2 root ranks root Hm2) as (m3 & -> & Hm3). cbn [fine_env ma_forward ma_progress ma_events]. rewrite forward_all.
  change (negb (UNIFYFS_SUCCESS =? UNIFYFS_SUCCESS)) with false. cbv iota.
  destruct (get_owned_spec sv m3 Hr Hm3 Hn) as (m4 & -> & Hm4 & _). cbn [lbind sv_mem set_mem].
  change (negb (UNIFYFS_SUCCESS =? UNIFYFS_SUCCESS)) with false. cbv iota.
  destruct (Hfin m4 Hm4) as (m5 & coll & p & ret & attrs & Hf & Hm5 & Hp & Henc & HP).
  rewrite finish_cleanup Hf. cbn [lbind cr_output cr_set_auto_cleanup]. rewrite Hp. cbn [lift_option lbind].
  destruct (remote_files_spec (fine_env ranks root events) m5 p attrs eq_refl eq_refl Hm5 Henc) as (m6 & -> & Hm6). cbn [lbind].
  case_bool_decide; [by eexists _, _|]. destruct (calloc_plenty m6 Hm6) as (m7 & -> & Hm7 & _). by eexists _, _.
Qed.

(** C11. The listing of all files.  When every server answers in time, in whatever
    order, and nothing fails, the root gets the attributes of the files that
    each server of the job owns, its own included, each with its name and each
    once; and the client that asked for the ids of all files gets those of these
    files. *)
Theorem metaget_all_complete ranks root (svs : Z -> server) (mems : Z -> mem) (net : Z -> list net_event) :
  0 <= root < ranks -> (forall r, 0 <= r < ranks -> listing_server ranks r (svs r)) -> (forall r, 0 <= r < ranks -> mem_plenty (mems r)) ->
  (forall r, 0 <= r < ranks -> all_received (length (ktree_children (tree_at ranks root r))) (net r) /\ merges_fine (net r)) ->
  let all := seqZ 0 ranks ≫= fun r => owned_files (svs r) in names_len all <= ULONG_MAX ->
  exists events attrs sv' sv'', let env := fine_env ranks root events in
    root_events UNIFYFS_SERVER_BCAST_RPC_METAGET ranks root (fun r => metaget_output ranks root (svs r)) mems net (Z.to_nat (ranks - 1)) = LRet events /\
    unifyfs_invoke_broadcast_metaget_all env (svs root) = LRet (sv', UNIFYFS_SUCCESS, attrs) /\ Permutation attrs all /\
    process_get_gfids env true (svs root) = LRet (sv'', Some (fa_gfid <$> attrs), UNIFYFS_SUCCESS).
Proof.
  intros Hroot Hsv Hmem Hnet all Hb. set (t := UNIFYFS_SERVER_BCAST_RPC_METAGET). set (local := fun r => metaget_output ranks root (svs r)).
  set (fuel := Z.to_nat (ranks - 1)). assert (Z.of_nat fuel = ranks - 1) as Hfuel by lia.
  assert (forall r, 0 <= r < ranks -> names_len (owned_files (svs r)) <= ULONG_MAX) as Hbr.
  { intros r Hr. assert (r ∈ seqZ 0 ranks) as Hin by (apply elem_of_seqZ; lia). apply list_elem_of_split in Hin as (l1 & l2 & Hs).
    subst all. rewrite Hs bind_app bind_cons !names_len_app in Hb. pose proof (names_len_nonneg (l1 ≫= fun r => owned_files (svs r))).
    pose proof (names_len_nonneg (l2 ≫= fun r => owned_files (svs r))). lia. }
  assert (forall r, 0 <= r < ranks -> exists o, local r = Some o /\ encodes o (owned_files (svs r))) as Hlocal.
  { intros r Hr. destruct (Hsv r Hr). by apply metaget_output_spec; [..|apply Hbr]. }
  assert (forall r, 0 <= r < ranks -> all_received (length (ktree_children (tree_at ranks root r))) (net r)) as Hrec by (intros r Hr; by apply Hnet).
  destruct (root_events_spec t ranks root local mems net eq_refl Hroot Hmem) with (fuel := fuel) as (outs & Hev & Houts); [|done|lia|].
  { intros r Hr _. destruct (Hlocal r Hr) as (o & -> & _). done. }
  set (below := flat_map (ktree_broadcast fuel ranks root UNIFYFS_BCAST_K_ARY) (ktree_children (tree_at ranks root root)) ≫= fun r => owned_files (svs r)).
  assert (Permutation all (owned_files (svs root) ++ below)) as Hall by (subst all; by rewrite -(below_root ranks root Hroot fuel Hfuel)).
  assert (names_len below <= ULONG_MAX) as Hbb.
  { rewrite (names_len_perm _ _ Hall) names_len_app in Hb. pose proof (names_len_nonneg (owned_files (svs root))). lia. }
  set (events := wait_result_of (Some <$> outs) <$> net root) in *.
  destruct (metaget_all_root ranks root (svs root) events (fun attrs => Permutation attrs below)) as (sv' & attrs & Hop & Hm' & Hp); [by apply Hsv| |].
  { intros m Hm. destruct (children_sum t ranks root local net eq_refl Hroot Hrec fuel root outs Hroot Houts m false empty_out Hm)
      as (m' & coll & p & ret & Hf & Hm' & Ho & _ & Hfiles).
    destruct (Hfiles [] (fun r => owned_files (svs r))) as (attrs & Ha & Hp); [intros r Hr; by apply Hnet| |intros _; exact encodes_empty|done|].
    { intros r o Hr Ho' _. destruct (Hlocal r Hr) as (o' & Ho2 & ?). congruence. }
    exists m', coll, p, ret, attrs. split_and!; [done..|by apply Ha|done]. }
  destruct (calloc_plenty _ Hm') as (m'' & Hc & _ & _).
  exists events, (attrs ++ owned_files (svs root)), sv', (set_mem m'' sv'). split; [exact Hev|]. split; [exact Hop|]. split.
  - by rewrite Hp Hall Permutation_app_comm.
  - unfold process_get_gfids. rewrite Hop. cbn [lbind]. by rewrite Hc.
Qed.

(** ** A concrete job *)

(** Three servers with one file each. *)
Definition job_attr (gfid : Z) (name : string) : unifyfs_file_attr_t :=
  FileAttr (Some name) gfid 0 1 33188 0 0 0 (Timespec 1 0) (Timespec 1 0) (Timespec 1 0) 5.
Definition job_server (rank gfid : Z) (name : string) : server :=
  let sv := server_init (Mem 1 []) rank 3 ex_apps in state_of sv (unifyfs_inode_metaset 5 sv gfid ATTR_OP_CREATE (job_attr gfid name)).
Definition job_server0 : server := Eval vm_compute in job_server 0 99 "/unifyfs/a"%string.
Definition job_server1 : server := Eval vm_compute in job_server 1 100 "/unifyfs/file"%string.
Definition job_server2 : server := Eval vm_compute in job_server 2 101 "/unifyfs/x.dat"%string.
Definition job_servers (r : Z) : server := if r =? 0 then job_server0 else if r =? 1 then job_server1 else job_server2.

(** The children answer in the order opposite to that of the calls. *)
Definition job_net (ranks root r : Z) : list net_event :=
  (fun i => NetDone i true merge_fine) <$> reverse (seq 0 (length (ktree_children (tree_at ranks root r)))).

Lemma job_received ranks root r : all_received (length (ktree_children (tree_at ranks root r))) (job_net ranks root r) /\ merges_fine (job_net ranks root r).
Proof.
  split.
  - exists ((fun i => (i, merge_fine)) <$> reverse (seq 0 (length (ktree_children (tree_at ranks root r))))).
    rewrite -!list_fmap_compose. split; [done|]. rewrite list_fmap_id. apply reverse_Permutation.
  - intros i b env Hin. by apply list_elem_of_fmap in Hin as (j & [= _ _ ->] & _).
Qed.

Lemma job_listing rank gfid name sv :
  sv = job_server rank gfid name -> (exists ino, rb_elems (sv_inodes sv) = [ino] /\ is_Some (fa_filename (ino_attr ino))) ->
  unifyfs_inode_metaset 5 (server_init (Mem 1 []) rank 3 ex_apps) gfid ATTR_OP_CREATE (job_attr gfid name) = LRet (sv, UNIFYFS_SUCCESS) ->
  mem_plenty (sv_mem sv) -> sv_glb_pmi_rank sv = rank -> sv_glb_pmi_size sv = 3 -> listing_server 3 rank sv.
Proof.
  intros Hsv (ino & Hel & Hn) Hop Hm Hr Hs. assert (server_reach (fun _ _ => True) True sv) as Hreach.
  { exists (Mem 1 []), rank, 3, ex_apps. eapply rtc_l; [|apply rtc_refl].
    by apply (step_metaset _ _ _ 5 gfid ATTR_OP_CREATE (job_attr gfid name) _ _ UNIFYFS_SUCCESS). }
  split; [done..|]. intros g ino' Hg. apply (it_map_some (sv_mem sv)) in Hg as [Hin _]; [|exact (sv_wf_tree _ (server_reach_wf _ _ _ Hreach))].
  rewrite Hel in Hin. by apply list_elem_of_singleton in Hin as ->.
Qed.

Lemma job_servers_listing r : 0 <= r < 3 -> listing_server 3 r (job_servers r).
Proof.
  intros Hr. assert (r = 0 \/ r = 1 \/ r = 2) as [->|[->| ->]] by lia.
  - apply (job_listing 0 99 "/unifyfs/a"%string); [by vm_compute| |by vm_compute|constructor|done|done]. eexists. split; [by vm_compute|by eexists].
  - apply (job_listing 1 100 "/unifyfs/file"%string); [by vm_compute| |by vm_compute|constructor|done|done]. eexists. split; [by vm_compute|by eexists].
  - apply (job_listing 2 101 "/unifyfs/x.dat"%string); [by vm_compute| |by vm_compute|constructor|done|done]. eexists. split; [by vm_compute|by eexists].
Qed.

Lemma metaget_all_complete_witness :
  exists env sv'' gfids, process_get_gfids env true job_server1 = LRet (sv'', Some gfids, UNIFYFS_SUCCESS) /\ Permutation gfids [99; 100; 101].
Proof.
  destruct (metaget_all_complete 3 1 job_servers (fun _ => Mem 1 []) (job_net 3 1)) as (events & attrs & sv' & sv'' & _ & _ & Hp & Hop);
    [lia|exact job_servers_listing|intros r _; constructor|by intros r _; apply job_received|by vm_compute|].
  exists (fine_env 3 1 events), sv'', (fa_gfid <$> attrs). split; [exact Hop|]. apply (Permutation_map fa_gfid) in Hp. etrans; [exact Hp|].
  by vm_compute.
Defined.

(** A truncation that fails on one of five servers. *)
Lemma broadcast_failure_reported_witness :
  exists events m' coll, collective_finish (Mem 1 []) (new_collective UNIFYFS_SERVER_BCAST_RPC_TRUNCATE false None (tree_at 5 1 1)) events =
    LRet (m', coll, None, Some ENOMEM).
Proof.
  set (local := fun r : Z => Some (co_set_ret (if r =? 3 then ENOMEM else UNIFYFS_SUCCESS) empty_out)).
  destruct (broadcast_failure_reported UNIFYFS_SERVER_BCAST_RPC_TRUNCATE 5 1 local (fun _ => Mem 1 []) (job_net 5 1) (Mem 1 []) None)
    as (events & m' & coll & ret & _ & Hop & Hs & Hf); [done|lia|intros r _; constructor|by intros r _ _; eexists|intros r _; apply job_received|constructor|done|].
  exists events, m', coll. destruct (Z.eq_dec ret UNIFYFS_SUCCESS) as [Heq|Hne].
  - pose proof (proj1 Hs Heq 3 ltac:(lia) ltac:(lia)) as H. by vm_compute in H.
  - destruct (Hf Hne) as (r & _ & _ & Hr). unfold local_ret, local in Hr. simpl in Hr. destruct (r =? 3); [|congruence]. by rewrite Hr Hop.
Defined.

(** ** Where errors are lost *)

(** A response that cannot be read is an error for the server that waits, but
    its own response to its parent is success. *)
Lemma unread_response_hidden :
  exists m' coll, collective_finish (Mem 1 []) (CollRequest UNIFYFS_SERVER_BCAST_RPC_TRUNCATE true (Some empty_out) [true; true] true (-1) (-1) (-1))
    [WaitDone 0 None merge_fine; WaitDone 1 (Some empty_out) merge_fine] = LRet (m', coll, Some empty_out, Some UNIFYFS_ERROR_MARGO).
Proof. by eexists _, _. Qed.

(** When the call of one child times out the other children are not waited for:
    the failure of the second one does not go up the tree. *)
Lemma timeout_hides_failure :
  exists m' coll, collective_finish (Mem 1 []) (CollRequest UNIFYFS_SERVER_BCAST_RPC_TRUNCATE true (Some empty_out) [true; true] true (-1) (-1) (-1))
    [WaitFailed; WaitDone 1 (Some (co_set_ret ENOMEM empty_out)) merge_fine] = LRet (m', coll, Some empty_out, Some UNIFYFS_ERROR_MARGO).
Proof. by eexists _, _. Qed.

(** The result of the merge is ignored: when the files of a child cannot be
    transferred the listing lacks them, without an error. *)
Lemma failed_merge_loses_files :
  exists c m' coll, metaget_output 3 1 job_server2 = Some c /\ co_num_files c = 1 /\
    collective_finish (Mem 1 []) (CollRequest UNIFYFS_SERVER_BCAST_RPC_METAGET true (Some empty_out) [true] true (-1) (-1) (-1))
      [WaitDone 0 (Some c) (MergeEnv true false true true true)] = LRet (m', coll, Some empty_out, Some UNIFYFS_SUCCESS).
Proof. eexists _, _, _. split; [by vm_compute|]. split; by vm_compute. Qed.

(** The root of a listing does not look at the codes of the servers: one that
    failed is left out. *)
Lemma listing_ignores_failure :
  exists sv', unifyfs_invoke_broadcast_metaget_all (MetagetAllEnv [true; true] UNIFYFS_SUCCESS
      [WaitDone 0 (Some (co_set_ret ENOMEM empty_out)) merge_fine; WaitDone 1 (metaget_output 3 1 job_server0) merge_fine] true true) job_server1 =
    LRet (sv', UNIFYFS_SUCCESS, [job_attr 99 "/unifyfs/a"; job_attr 100 "/unifyfs/file"]%string).
Proof. eexists. by vm_compute. Qed.

(** A server without memory does not respond to a request for its files. *)
Lemma listing_without_memory : metaget_output 3 1 (set_mem (Mem 1 [true]) job_server2) = None.
Proof. by vm_compute. Qed.
