(* ===== verification/ServerTransfer.v ===== *)
(** * Transfers of a file by the servers ([server/src/unifyfs_transfer.c])

    A client asks its server to copy a file out of the file system.  The server
    broadcasts the request; on every server the service manager starts a thread
    ([transfer_helper_thread]) that reads the data of the file that is in the
    logs of its own clients, and writes it to the destination, at its offset in
    the file.  At the end the threads finish the broadcast, and the service
    manager of the first server calls the client.

    The copy buffer is a region of memory, and a thread is described by the
    calls of [pwrite] that it makes: the offset and the bytes written.  The
    results of these calls are an argument: the number of bytes that the system
    writes, which is at most what is asked for, or an error number. *)

From Stdlib Require Import String.
From S2P Require Import Prelude.
From S2P Require Import Extents.
From S2P Require Import ExtentTree.
From S2P Require Import LogIO.
From S2P Require Import ArrayList.
From S2P Require Import KTree.
From S2P Require Import Meta.
From S2P Require Import AppTable.
From S2P Require Import InodeTree.
From S2P Require Import Inode.
From S2P Require Import Rpc.
From S2P Require Import ServiceMgr.
From S2P Require Import Collective.
From S2P Require Import LibTransfer.

Definition EINTR : Z := 4.
Definition EAGAIN : Z := 11.
Definition UNIFYFS_ERROR_THREAD : Z := 1008.
Definition UNIFYFS_TRANSFER_MAX_WRITE : Z := 16 * 1048576.
Definition UNIFYFS_TRANSFER_MAX_BUFFER : Z := 512 * 1048576.

(** ** Data of a transfer *)

(** [tc_data]: the offset of the data in the copy buffer. *)
Record transfer_chunk := TransferChunk {
  tc_data : Z;
  tc_sz : Z;
  tc_file_offset : Z;
}.

(** [local_extents] is [None] for the null pointer; the fields for the start
    time and the thread are not needed, and the times of the model are
    integers. *)
Record transfer_thread_args := TransferArgs {
  ta_dst_file : option string;
  ta_gfid : Z;
  ta_client_server : Z;
  ta_client_app : Z;
  ta_client_id : Z;
  ta_transfer_id : Z;
  ta_local_extents : option (list extent_metadata);
  ta_n_extents : Z;
  ta_local_data_sz : Z;
  ta_file_sz : Z;
  ta_bcast_coll : option coll_request;
  ta_status : Z;
}.

Definition ta_set_local (l : option (list extent_metadata)) (n sz : Z) (t : transfer_thread_args) : transfer_thread_args :=
  TransferArgs (ta_dst_file t) (ta_gfid t) (ta_client_server t) (ta_client_app t) (ta_client_id t) (ta_transfer_id t) l n sz (ta_file_sz t) (ta_bcast_coll t) (ta_status t).
Definition ta_set_status (st : Z) (t : transfer_thread_args) : transfer_thread_args :=
  TransferArgs (ta_dst_file t) (ta_gfid t) (ta_client_server t) (ta_client_app t) (ta_client_id t) (ta_transfer_id t) (ta_local_extents t) (ta_n_extents t) (ta_local_data_sz t) (ta_file_sz t) (ta_bcast_coll t) st.
Definition ta_set_client (app client id : Z) (t : transfer_thread_args) : transfer_thread_args :=
  TransferArgs (ta_dst_file t) (ta_gfid t) (ta_client_server t) app client id (ta_local_extents t) (ta_n_extents t) (ta_local_data_sz t) (ta_file_sz t) (ta_bcast_coll t) (ta_status t).

(** A call of [pwrite] that wrote something: offset and bytes. *)
Definition pwrite_call : Type := Z * list Z.

(** ** Writing and reading chunks *)

(** The loop over the pieces of a chunk.  The results of the calls that are
    left are passed on; without a result the thread waits. *)
Fixpoint write_pieces (pws : list io_result) (buf : Z -> Z) (chk : transfer_chunk) (n_write n_remain : Z)
    : lres (list pwrite_call * list io_result * Z) :=
  match pws with
  | [] => LBlocked
  | pw :: pws =>
      let n_bytes := if n_remain >? UNIFYFS_TRANSFER_MAX_WRITE then UNIFYFS_TRANSFER_MAX_WRITE else n_remain in
      match pw with
      | inr err =>
          if negb (err =? EINTR) && negb (err =? EAGAIN) then LRet ([], pws, err)
          else if n_remain =? 0 then LRet ([], pws, UNIFYFS_SUCCESS) else write_pieces pws buf chk n_write n_remain
      | inl szrc =>
          let szrc := Z.max 0 (Z.min szrc n_bytes) in
          let call := (tc_file_offset chk + n_write, region_read buf (tc_data chk + n_write) szrc) in
          let n_write := n_write ⊞ szrc in
          let n_remain := n_remain ⊟ szrc in
          if n_remain =? 0 then LRet ([call], pws, UNIFYFS_SUCCESS)
          else
            let! '(calls, pws, rc) := write_pieces pws buf chk n_write n_remain in
            LRet (call :: calls, pws, rc)
      end
  end.

Definition write_transfer_chunk (pws : list io_result) (buf : Z -> Z) (chk : transfer_chunk) : lres (list pwrite_call * list io_result * Z) :=
  write_pieces pws buf chk 0 (tc_sz chk).

(** The chunk of an extent whose data goes to [pos] in the buffer; the number
    of bytes read is not looked at. *)
Definition read_local_extent (apps : app_table) (pread : extent_metadata -> io_result) (ext : extent_metadata) (buf : Z -> Z) (pos : Z)
    : lres ((Z -> Z) * transfer_chunk * Z) :=
  let chk := TransferChunk pos (extent_length ext) (em_start ext) in
  match get_app_client apps (em_app_id ext) (em_cli_id ext) with
  | None => LRet (buf, chk, EINVAL)
  | Some app_clnt =>
      match ac_logio_ctx app_clnt with
      | None => LRet (buf, chk, EINVAL)
      | Some logio_ctx =>
          let! '(rc, _, bytes) := unifyfs_logio_read logio_ctx (em_log_pos ext) (tc_sz chk) (pread ext) in
          LRet (region_write buf pos bytes, chk, rc)
      end
  end.

(** ** The local extents *)

Definition is_local (rank : Z) (ext : extent_metadata) : bool := rank =? em_svr_rank ext.

(** The sum is one of the type [size_t]. *)
Definition data_size (exts : list extent_metadata) : Z := foldl (fun sz e => sz ⊞ extent_length e) 0 exts.

(** When the array cannot be allocated the number and the size of the local
    extents are set all the same. *)
Definition create_local_transfers (sv : server) (gfid : Z) (tta : transfer_thread_args) : lres (server * transfer_thread_args * Z) :=
  let! '(sv, rc, extents) := unifyfs_inode_get_extents sv gfid in
  if negb (rc =? UNIFYFS_SUCCESS) then LRet (sv, ta_set_local (ta_local_extents tta) 0 0 tta, rc)
  else
    let local := List.filter (is_local (sv_glb_pmi_rank sv)) extents in
    let n := Z.of_nat (length local) in
    if n =? 0 then LRet (sv, ta_set_local (ta_local_extents tta) 0 0 tta, UNIFYFS_SUCCESS)
    else
      let '(p, m) := calloc (sv_mem sv) in
      let sv := set_mem m sv in
      match p with
      | None => LRet (sv, ta_set_local None n (data_size local) tta, ENOMEM)
      | Some _ => LRet (sv, ta_set_local (Some local) n (data_size local) tta, UNIFYFS_SUCCESS)
      end.

(** ** The transfer thread *)

(** One pass of the loop that fills the buffer from [copy_sz] on: the chunks,
    and the extents that do not fit. *)
Fixpoint fill_buffer (apps : app_table) (pread : extent_metadata -> io_result) (exts : list extent_metadata) (buf : Z -> Z) (buf_sz copy_sz : Z)
    : lres ((Z -> Z) * list transfer_chunk * list extent_metadata * Z) :=
  match exts with
  | [] => LRet (buf, [], [], UNIFYFS_SUCCESS)
  | ext :: rest =>
      if (copy_sz ⊞ extent_length ext) <=? buf_sz then
        let! '(buf, chk, rc) := read_local_extent apps pread ext buf copy_sz in
        if negb (rc =? UNIFYFS_SUCCESS) then LRet (buf, [], rest, rc)
        else
          let! '(buf, chunks, rest, rc) := fill_buffer apps pread rest buf buf_sz (copy_sz ⊞ extent_length ext) in
          LRet (buf, chk :: chunks, rest, rc)
      else LRet (buf, [], exts, UNIFYFS_SUCCESS)
  end.

Fixpoint write_chunks (pws : list io_result) (buf : Z -> Z) (chunks : list transfer_chunk) : lres (list pwrite_call * list io_result * Z) :=
  match chunks with
  | [] => LRet ([], pws, UNIFYFS_SUCCESS)
  | chk :: chunks =>
      let! '(calls, pws, rc) := write_transfer_chunk pws buf chk in
      if negb (rc =? UNIFYFS_SUCCESS) then LRet (calls, pws, rc)
      else
        let! '(calls', pws, rc) := write_chunks pws buf chunks in
        LRet (calls ++ calls', pws, rc)
  end.

(** The loop over the extents: each pass copies at least one of them, when the
    buffer has room for the longest. *)
Fixpoint copy_extents (fuel : nat) (apps : app_table) (pread : extent_metadata -> io_result) (exts : list extent_metadata) (buf : Z -> Z) (buf_sz : Z)
    (pws : list io_result) : lres (list pwrite_call * Z) :=
  match fuel with
  | O => LBlocked
  | S fuel =>
      let! '(buf, chunks, rest, rc) := fill_buffer apps pread exts buf buf_sz 0 in
      if negb (rc =? UNIFYFS_SUCCESS) then LRet ([], rc)
      else
        let! '(calls, pws, rc) := write_chunks pws buf chunks in
        if negb (rc =? UNIFYFS_SUCCESS) then LRet (calls, rc)
        else if bool_decide (rest = []) then LRet (calls, UNIFYFS_SUCCESS)
        else
          let! '(calls', rc) := copy_extents fuel apps pread rest buf buf_sz pws in
          LRet (calls ++ calls', rc)
  end.

Definition copy_buffer_size (total : Z) (exts : list extent_metadata) : Z :=
  if total <=? UNIFYFS_TRANSFER_MAX_BUFFER then total
  else foldl (fun sz e => if extent_length e >? sz then extent_length e else sz) UNIFYFS_TRANSFER_MAX_BUFFER exts.

(** What a thread gets from outside: the result of [open], its memory, what the
    new buffer holds, the results of [pread] and [pwrite], and the responses of
    the children in the tree of the broadcast. *)
Record thread_env := ThreadEnv {
  te_open : io_result;
  te_mem : mem;
  te_garbage : Z -> Z;
  te_pread : extent_metadata -> io_result;
  te_pwrites : list io_result;
  te_events : list wait_result;
}.

(** The calls of [pwrite], and the return code, or [None] if the thread ends at
    once because the destination cannot be opened. *)
Definition transfer_data (env : thread_env) (apps : app_table) (tta : transfer_thread_args) : lres (list pwrite_call * option Z * Z) :=
  if ta_local_data_sz tta =? 0 then LRet ([], Some UNIFYFS_SUCCESS, ta_status tta)
  else
    match te_open env with
    | inr err => LRet ([], None, err)
    | inl _ =>
        let '(chunks, m) := calloc (te_mem env) in
        match chunks with
        | None => LRet ([], Some ENOMEM, ENOMEM)
        | Some _ =>
            let! _ := if ta_local_data_sz tta <=? UNIFYFS_TRANSFER_MAX_BUFFER then LRet [] else lift_option (ta_local_extents tta) in
            let '(data_copy_buf, m) := calloc m in
            match data_copy_buf with
            | None => LRet ([], Some ENOMEM, ENOMEM)
            | Some _ =>
                let! exts := lift_option (ta_local_extents tta) in
                let! '(calls, ret) := copy_extents (S (length exts)) apps (te_pread env) exts (te_garbage env)
                  (copy_buffer_size (ta_local_data_sz tta) exts) (te_pwrites env) in
                LRet (calls, Some ret, ret)
            end
        end
    end.

(** The whole thread: its calls of [pwrite], its arguments at the end, the
    response to the parent in the tree, and whether it tells the service manager
    that it is done.  The result of the broadcast is not looked at. *)
Definition transfer_helper_thread (env : thread_env) (apps : app_table) (tta : transfer_thread_args)
    : lres (list pwrite_call * transfer_thread_args * option coll_out * bool) :=
  let tta := match ta_bcast_coll tta with
             | Some coll => ta_set_client (cr_app_id coll) (cr_client_id coll) (cr_client_req_id coll) tta
             | None => tta
             end in
  let! '(calls, ret, status) := transfer_data env apps tta in
  match ret with
  | None => LRet (calls, ta_set_status status tta, None, false)
  | Some ret =>
      let tta := ta_set_status ret tta in
      match ta_bcast_coll tta with
      | None => LRet (calls, tta, None, true)
      | Some coll =>
          let! '(_, _, resp, rc) := collective_finish (te_mem env) (collective_set_local_retval coll ret) (te_events env) in
          match rc with
          | None => LBlocked
          | Some _ => LRet (calls, tta, resp, true)
          end
      end
  end.

(** ** The service manager *)

(** The lists of transfers to start and of transfers that are done. *)
Record transfer_lists := TransferLists {
  tl_local : option (arraylist_t transfer_thread_args);
  tl_completed : option (arraylist_t transfer_thread_args);
}.

(** The result of [arraylist_add] is not looked at. *)
Definition list_add (m : mem) (l : option (arraylist_t transfer_thread_args)) (tta : transfer_thread_args)
    : lres (mem * option (arraylist_t transfer_thread_args) * Z) :=
  match l with
  | None => LRet (m, None, UNIFYFS_FAILURE)
  | Some l => let! '(m, l, _, _) := lift_option (arraylist_add m l (Some tta)) in LRet (m, Some l, UNIFYFS_SUCCESS)
  end.

Definition sm_submit_transfer_request (m : mem) (tl : transfer_lists) (tta : transfer_thread_args) : lres (mem * transfer_lists * Z) :=
  let! '(m, l, rc) := list_add m (tl_local tl) tta in LRet (m, TransferLists l (tl_completed tl), rc).

Definition sm_complete_transfer_request (m : mem) (tl : transfer_lists) (tta : transfer_thread_args) : lres (mem * transfer_lists * Z) :=
  let! '(m, l, rc) := list_add m (tl_completed tl) tta in LRet (m, TransferLists (tl_local tl) l, rc).

Definition SERVER_TRANSFER_MODE_OWNER : Z := 0.
Definition SERVER_TRANSFER_MODE_LOCAL : Z := 1.

(** [file_size]: the result of the call for the attributes of the file, which
    the server of the client makes.  A failure to find the local extents is only
    logged. *)
Definition sm_transfer (file_size : option Z) (sv : server) (tl : transfer_lists) (client_server client_app client_id transfer_id gfid transfer_mode : Z)
    (dest_file : string) (bcast_coll : option coll_request) : lres (server * transfer_lists * Z) :=
  let '(tta, m) := calloc (sv_mem sv) in
  match tta with
  | None => LRet (set_mem m sv, tl, ENOMEM)
  | Some _ =>
      let '(m, dst_file) := strdup m dest_file in
      let sv := set_mem m sv in
      let file_sz := if sv_glb_pmi_rank sv =? client_server then default 0 file_size else 0 in
      let tta := TransferArgs dst_file gfid client_server client_app client_id transfer_id None 0 0 file_sz bcast_coll 0 in
      if transfer_mode =? SERVER_TRANSFER_MODE_LOCAL then
        let! '(sv, tta, _) := create_local_transfers sv gfid tta in
        let! '(m, tl, rc) := sm_submit_transfer_request (sv_mem sv) tl tta in
        LRet (set_mem m sv, tl, rc)
      else if (hash_gfid_to_server sv gfid =? sv_glb_pmi_rank sv) && (transfer_mode =? SERVER_TRANSFER_MODE_OWNER)
      then LRet (sv, tl, UNIFYFS_ERROR_NYI)
      else LRet (sv, tl, UNIFYFS_SUCCESS)
  end.

(** The handler of the broadcast: on an error the collective is finished at
    once, with the error as the result; otherwise the thread will finish it. *)
Definition process_transfer_bcast_rpc (file_size : option Z) (sv : server) (tl : transfer_lists) (root gfid mode : Z) (dest_file : string) (coll : coll_request)
    : lres (server * transfer_lists * option coll_request * Z) :=
  let! '(sv, tl, ret) := sm_transfer file_size sv tl root (-1) (-1) (-1) gfid mode dest_file (Some coll) in
  LRet (sv, tl, if negb (ret =? UNIFYFS_SUCCESS) then Some (collective_set_local_retval coll ret) else None, ret).

(** A list is taken as a whole and replaced by an empty one. *)
Definition take_transfers (m : mem) (l : option (arraylist_t transfer_thread_args)) : lres (mem * option (arraylist_t transfer_thread_args) * list transfer_thread_args) :=
  if arraylist_size l =? 0 then LRet (m, l, [])
  else
    let! ttas := match l with None => LRet [] | Some l => lift_option (mapM id (al_items l)) end in
    let '(m, l') := arraylist_create m 0 in
    LRet (m, l', ttas).

(** [spawn]: the results of [pthread_create].  The transfers whose thread is
    started, and the return code. *)
Definition spawn_local_transfers (spawn : list bool) (m : mem) (tl : transfer_lists) : lres (mem * transfer_lists * list transfer_thread_args * Z) :=
  let! '(m, l, ttas) := take_transfers m (tl_local tl) in
  let started := zip_with (fun tta (ok : bool) => (tta, ok)) ttas (spawn ++ replicate (length ttas) true) in
  LRet (m, TransferLists l (tl_completed tl), (List.filter snd started).*1,
        if forallb snd started then UNIFYFS_SUCCESS else UNIFYFS_ERROR_THREAD).

(** The calls of the clients whose transfers are done: the client, and what
    [client_complete_transfer] gets.  [time]: the time since the start. *)
Definition complete_local_transfers (rank : Z) (time : transfer_thread_args -> Z) (m : mem) (tl : transfer_lists)
    : lres (mem * transfer_lists * list (Z * Z * completion)) :=
  let! '(m, l, ttas) := take_transfers m (tl_completed tl) in
  LRet (m, TransferLists (tl_local tl) l,
        (fun tta => (ta_client_app tta, ta_client_id tta, (ta_transfer_id tta, ta_status tta, ta_file_sz tta, time tta)))
          <$> List.filter (fun tta => rank =? ta_client_server tta) ttas).

(** ** Starting a transfer *)

(** [unifyfs_invoke_broadcast_transfer]: the request that is queued on this
    server, if any, the children the request went to, and the return code, which
    does not include a failure of the forwarding. *)
Definition unifyfs_invoke_broadcast_transfer (fwd : list bool) (queue : Z) (m : mem) (rank size client_app client_id transfer_id : Z)
    : mem * option coll_request * list Z * Z :=
  let '(in_, m) := calloc m in
  let '(req, m) := calloc m in
  match in_, req with
  | Some _, Some _ =>
      let '(_, m) := calloc m in
      let '(m, tree) := collective_create m rank size rank in
      match tree with
      | None => (m, None, [], ENOMEM)
      | Some tree =>
          let '(sent, rc) := collective_forward fwd (ktree_children tree) UNIFYFS_SUCCESS in
          if rc =? UNIFYFS_SUCCESS then
            let coll := cr_set_client client_app client_id transfer_id (new_collective UNIFYFS_SERVER_BCAST_RPC_TRANSFER false None tree) in
            (m, if queue =? UNIFYFS_SUCCESS then Some coll else None, sent, queue)
          else (m, None, sent, UNIFYFS_SUCCESS)
      end
  | _, _ => (m, None, [], ENOMEM)
  end.
