(* ===== verification/ServerTransferProps.v ===== *)
(** * Correctness of the transfers of a file by the servers

    The threads of all servers together write every byte of a file that some
    client has written to its place in the destination, whatever the order in
    which their calls of [pwrite] happen and however short or interrupted these
    are, and write nothing else. *)

From Stdlib Require Import String.
From S2P Require Import Prelude.
From S2P Require Import Extents.
From S2P Require Import ExtentTree.
From S2P Require Import LogIO.
From S2P Require Import ArrayList.
From S2P Require Import KTree.
From S2P Require Import Meta.
From S2P Require Import AppTable.
From S2P Require Import InodeTree.
From S2P Require Import Inode.
From S2P Require Import InodeProps.
From S2P Require Import ServiceMgr.
From S2P Require Import Collective.
From S2P Require Import CollectiveProps.
From S2P Require Import LibTransfer.
From S2P Require Import ServerTransfer.

Implicit Types (e : extent_metadata) (exts : list extent_metadata) (pws : list io_result) (f : Z -> Z).

(** ** Calls of pwrite *)

Definition apply_pwrites (dst : Z -> Z) (calls : list pwrite_call) : Z -> Z := foldl (fun d c => region_write d c.1 c.2) dst calls.

Definition covers (c : pwrite_call) (a : Z) : Prop := c.1 <= a < c.1 + Z.of_nat (length c.2).

(** The bytes written are those of [f]. *)
Definition agrees f (c : pwrite_call) : Prop := c.2 = region_read f c.1 (Z.of_nat (length c.2)).

Lemma region_write_agrees f dst c a : agrees f c -> region_write dst c.1 c.2 a = if bool_decide (covers c a) then f a else dst a.
Proof.
  intros Ha. unfold covers. case_bool_decide as Hc; [|by rewrite region_write_outside].
  rewrite Ha. set (n := Z.of_nat (length c.2)) in *. unfold region_write. rewrite region_read_length.
  rewrite (proj2 (Z.leb_le _ _)) ?(proj2 (Z.ltb_lt _ _)) /=; [lia..|].
  apply nth_lookup_Some. unfold region_read. rewrite list_lookup_fmap lookup_seqZ_lt; [lia|]. cbn. do 2 f_equal. lia.
Qed.

(** Calls that agree with [f] leave [f] where one of them writes, in whatever
    order they are made. *)
Lemma apply_pwrites_agree f calls : forall dst, Forall (agrees f) calls -> forall a,
  ((exists c, c ∈ calls /\ covers c a) -> apply_pwrites dst calls a = f a) /\
  ((forall c, c ∈ calls -> ~ covers c a) -> apply_pwrites dst calls a = dst a).
Proof.
  induction calls as [|c calls IH]; intros dst Hall a.
  - split; [by intros (c & ?%elem_of_nil & _)|done].
  - apply Forall_cons in Hall as [Hc Hall]. cbn [apply_pwrites foldl]. fold (apply_pwrites (region_write dst c.1 c.2) calls).
    destruct (IH (region_write dst c.1 c.2) Hall a) as [IH1 IH2].
    destruct (decide (Exists (fun c => covers c a) calls)) as [Hex|Hex].
    + apply Exists_exists in Hex. split; [by intros _; apply IH1|]. intros Hno. destruct Hex as (c' & Hin & Hcov).
      destruct (Hno c'); [by apply elem_of_cons; right|done].
    + assert (forall c', c' ∈ calls -> ~ covers c' a) as Hno by (intros c' Hin Hcov; apply Hex, Exists_exists; by exists c').
      rewrite (IH2 Hno) (region_write_agrees f dst c a Hc). split.
      * intros (c' & [->|Hin]%elem_of_cons & Hcov); [by rewrite bool_decide_eq_true_2|by destruct (Hno c')].
      * intros Hn. rewrite bool_decide_eq_false_2 //. by apply Hn, elem_of_cons; left.
Qed.

Lemma region_read_shift (r1 r2 : Z -> Z) o1 o2 n : (forall i, 0 <= i < n -> r1 (o1 + i) = r2 (o2 + i)) -> region_read r1 o1 n = region_read r2 o2 n.
Proof.
  intros H. unfold region_read. apply list_eq. intros i. rewrite list_lookup_fmap (list_lookup_fmap r2). destruct (decide (Z.of_nat i < n)) as [Hi|Hi].
  - rewrite lookup_seqZ_lt; [lia|]. rewrite lookup_seqZ_lt; [lia|]. cbn. f_equal. apply H. lia.
  - rewrite lookup_seqZ_ge; [lia|]. by rewrite lookup_seqZ_ge; [lia|].
Qed.

(** ** Writing a chunk *)

(** The system writes at least one byte in each call, unless it is
    interrupted. *)
Definition pw_ok (r : io_result) : Prop := match r with inl k => 1 <= k | inr err => err = EINTR \/ err = EAGAIN end.
Definition is_write (r : io_result) : bool := match r with inl _ => true | inr _ => false end.
Definition n_writes pws : Z := Z.of_nat (length (List.filter is_write pws)).

(** The calls write exactly the bytes of [f] in a range. *)
Definition writes_range f (lo n : Z) (calls : list pwrite_call) : Prop :=
  Forall (agrees f) calls /\ forall a, (exists c, c ∈ calls /\ covers c a) <-> lo <= a < lo + n.

Lemma writes_range_cons f lo n k calls :
  0 <= k <= n -> writes_range f (lo + k) (n - k) calls -> writes_range f lo n ((lo, region_read f lo k) :: calls).
Proof.
  intros Hk [Ha Hc]. assert (Z.of_nat (length (region_read f lo k)) = k) as Hlen by (rewrite region_read_length; lia). split.
  - constructor; [|done]. unfold agrees. cbn [fst snd]. by rewrite Hlen.
  - intros a. assert (covers (lo, region_read f lo k) a <-> lo <= a < lo + k) as Hcov by (unfold covers; cbn [fst snd]; by rewrite Hlen).
    specialize (Hc a). split.
    + intros (c & [->|Hin]%elem_of_cons & Hx); [apply Hcov in Hx; lia|]. assert (lo + k <= a < lo + k + (n - k)) by (apply Hc; by exists c). lia.
    + intros Hr. destruct (decide (a < lo + k)) as [Hlt|Hge].
      * eexists. split; [by apply elem_of_cons; left|]. apply Hcov. lia.
      * destruct (proj2 Hc ltac:(lia)) as (c & Hin & Hx). exists c. split; [by apply elem_of_cons; right|done].
Qed.

Lemma write_pieces_spec f buf chk pws : forall n_write n_remain,
  Forall pw_ok pws -> 0 <= n_write -> 1 <= n_remain -> n_write + n_remain <= ULONG_MAX -> n_remain <= n_writes pws ->
  (forall i, n_write <= i < n_write + n_remain -> buf (tc_data chk + i) = f (tc_file_offset chk + i)) ->
  exists calls pws', write_pieces pws buf chk n_write n_remain = LRet (calls, pws', UNIFYFS_SUCCESS) /\ Forall pw_ok pws' /\
    n_writes pws <= n_writes pws' + n_remain /\ writes_range f (tc_file_offset chk + n_write) n_remain calls.
Proof.
  induction pws as [|pw pws IH]; intros n_write n_remain Hok Hw Hr Hmax Hn Hbuf; [unfold n_writes in Hn; cbn in Hn; lia|].
  apply Forall_cons in Hok as [Hpw Hok]. cbn [write_pieces]. destruct pw as [k|err].
  - assert (n_writes (inl k :: pws) = n_writes pws + 1) as Hcount by (unfold n_writes; cbn; lia). rewrite Hcount in Hn |- *.
    set (n_bytes := if n_remain >? _ then _ else _). set (k' := Z.max 0 (Z.min k n_bytes)). cbn in Hpw.
    assert (1 <= k' <= n_remain) as Hk. { subst k' n_bytes. unfold UNIFYFS_TRANSFER_MAX_WRITE. destruct (_ >? _) eqn:E; zbool; lia. }
    rewrite (u64_small (n_write + k')); [unfold is_u64; lia|]. rewrite (u64_small (n_remain - k')); [unfold is_u64; lia|].
    assert (region_read buf (tc_data chk + n_write) k' = region_read f (tc_file_offset chk + n_write) k') as ->.
    { apply region_read_shift. intros i Hi. rewrite -!Z.add_assoc. apply Hbuf. lia. }
    destruct (n_remain - k' =? 0) eqn:E; zbool.
    + eexists _, pws. split; [done|]. split; [done|]. split; [lia|]. apply writes_range_cons; [lia|]. split; [constructor|].
      intros a. split; [by intros (c & ?%elem_of_nil & _)|lia].
    + destruct (IH (n_write + k') (n_remain - k') Hok) as (calls & pws' & Hop & Hok' & Hn' & Hc); [lia..| |].
      { intros i Hi. apply Hbuf. lia. }
      rewrite Hop. cbn [lbind]. eexists _, pws'. split; [done|]. split; [done|]. split; [lia|]. apply writes_range_cons; [lia|].
      by rewrite -Z.add_assoc.
  - assert (negb (err =? EINTR) && negb (err =? EAGAIN) = false) as -> by (cbn in Hpw; destruct Hpw as [-> | ->]; done).
    rewrite (proj2 (Z.eqb_neq n_remain 0)); [lia|]. by apply IH.
Qed.

(** ** The extents of a server *)

(** A range of a file, whose length fits 64 bits. *)
Definition ext_valid e : Prop := 0 <= em_start e <= em_end e /\ em_end e < ULONG_MAX.

Definition in_ext e (a : Z) : Prop := em_start e <= a <= em_end e.

(** The byte of the log that holds the byte [a] of the file. *)
Definition ext_byte (apps : app_table) e (a : Z) : Z :=
  match client_log apps (em_app_id e) (em_cli_id e) with
  | Some ctx => log_view ctx (em_log_pos e + (a - em_start e))
  | None => 0
  end.

(** The extent is in the log of a client of the server, and can be read in
    full. *)
Record ext_readable (apps : app_table) (pread : extent_metadata -> io_result) e : Prop := {
  er_valid : ext_valid e;
  er_log : exists ctx, client_log apps (em_app_id e) (em_cli_id e) = Some ctx /\ log_range_ok ctx (em_log_pos e) (extent_length e) /\
    pread e = inl (extent_length e - log_in_mem (em_log_pos e) (extent_length e) (logio_mem_size ctx));
}.

Lemma extent_length_eq e : ext_valid e -> extent_length e = em_end e - em_start e + 1.
Proof. intros [? ?]. unfold extent_length. rewrite u64_small; [unfold is_u64 in *; lia|lia]. Qed.

Fixpoint total exts : Z := match exts with [] => 0 | e :: exts => extent_length e + total exts end.

Lemma total_nonneg exts : Forall ext_valid exts -> 0 <= total exts.
Proof. induction 1 as [|e exts He _ IH]; simpl; [done|]. rewrite (extent_length_eq e He). destruct He. lia. Qed.

Lemma total_app exts1 exts2 : total (exts1 ++ exts2) = total exts1 + total exts2.
Proof. induction exts1; simpl; lia. Qed.

Lemma data_size_eq exts : Forall ext_valid exts -> total exts <= ULONG_MAX -> data_size exts = total exts.
Proof.
  intros Hv Hb. unfold data_size. assert (forall acc, 0 <= acc -> acc + total exts <= ULONG_MAX ->
    foldl (fun sz e => sz ⊞ extent_length e) acc exts = acc + total exts) as H; [|by apply (H 0)].
  clear Hb. induction Hv as [|e exts He Hv IH]; intros acc Ha Hb; simpl in *; [lia|]. pose proof (total_nonneg exts Hv).
  pose proof (extent_length_eq e He). destruct He. rewrite u64_small; [unfold is_u64; lia|]. rewrite IH; lia.
Qed.

Section Copy.
Context (apps : app_table) (pread : extent_metadata -> io_result) (f : Z -> Z).

(** The extent is readable and [f] is its contents. *)
Definition source_ok e : Prop := ext_readable apps pread e /\ forall a, in_ext e a -> f a = ext_byte apps e a.

(** The data of the extent is in the buffer. *)
Definition loaded (buf : Z -> Z) (chk : transfer_chunk) e : Prop :=
  tc_sz chk = extent_length e /\ tc_file_offset chk = em_start e /\ forall i, 0 <= i < extent_length e -> buf (tc_data chk + i) = f (em_start e + i).

Lemma read_local_spec e buf pos : source_ok e ->
  exists buf', read_local_extent apps pread e buf pos = LRet (buf', TransferChunk pos (extent_length e) (em_start e), UNIFYFS_SUCCESS) /\
    loaded buf' (TransferChunk pos (extent_length e) (em_start e)) e /\ forall a, a < pos -> buf' a = buf a.
Proof.
  intros [[Hv (ctx & Hl & Hr & Hp)] Hf]. pose proof Hr as [_ Hn _ _ _]. unfold read_local_extent. pose proof Hl as Hl'. unfold client_log in Hl'.
  destruct (get_app_client apps _ _) as [cl|]; [|done]. cbn in Hl'. rewrite Hl' Hp.
  pose proof (log_in_mem_bounds (em_log_pos e) (extent_length e) (logio_mem_size ctx) Hn) as Hb. cbn [tc_sz].
  rewrite (logio_read_spec ctx _ _ _ Hr); [lia|lia|]. cbn [lbind]. rewrite Zplus_minus. eexists. split; [done|].
  assert (Z.of_nat (length (region_read (log_view ctx) (em_log_pos e) (extent_length e))) = extent_length e) as Hlen by (rewrite region_read_length; lia).
  pose proof (extent_length_eq e Hv) as Hle. split.
  - split_and!; [done..|]. cbn [tc_data]. intros i Hi. rewrite Hf; [unfold in_ext; lia|]. unfold ext_byte. rewrite Hl.
    unfold region_write. rewrite Hlen (proj2 (Z.leb_le _ _)) ?(proj2 (Z.ltb_lt _ _)) /=; [lia..|]. apply nth_lookup_Some.
    unfold region_read. rewrite list_lookup_fmap lookup_seqZ_lt; [lia|]. cbn. do 2 f_equal. lia.
  - intros a Ha. apply region_write_outside. lia.
Qed.

Lemma loaded_ext buf buf' chk e : (forall a, a < tc_data chk + extent_length e -> buf' a = buf a) -> loaded buf chk e -> loaded buf' chk e.
Proof. intros Hb (? & ? & Hl). split_and!; [done..|]. intros i Hi. rewrite Hb; [lia|]. by apply Hl. Qed.

Lemma fill_buffer_spec exts : forall buf buf_sz copy_sz,
  Forall source_ok exts -> 0 <= copy_sz -> copy_sz + total exts <= ULONG_MAX ->
  exists buf' chunks copied rest, fill_buffer apps pread exts buf buf_sz copy_sz = LRet (buf', chunks, rest, UNIFYFS_SUCCESS) /\
    exts = copied ++ rest /\ Forall2 (loaded buf') chunks copied /\ (forall a, a < copy_sz -> buf' a = buf a) /\
    (forall e exts', exts = e :: exts' -> copy_sz + extent_length e <= buf_sz -> copied <> []).
Proof.
  induction exts as [|e exts IH]; intros buf buf_sz copy_sz Hall Hc Hb; [by exists buf, [], [], []|].
  apply Forall_cons in Hall as [He Hall]. pose proof He as [[Hv _] _]. pose proof (extent_length_eq e Hv) as Hle. cbn [total] in Hb.
  assert (0 <= total exts) as Ht by (apply total_nonneg; eapply Forall_impl; [exact Hall|]; by intros ? [[? _] _]).
  cbn [fill_buffer]. destruct Hv. rewrite u64_small; [unfold is_u64; lia|]. destruct (_ <=? buf_sz) eqn:E; zbool.
  - destruct (read_local_spec e buf copy_sz He) as (buf1 & -> & Hl & Hk). cbn [lbind]. change (negb (UNIFYFS_SUCCESS =? UNIFYFS_SUCCESS)) with false. cbv iota.
    destruct (IH buf1 buf_sz (copy_sz + extent_length e) Hall) as (buf' & chunks & copied & rest & -> & -> & HF & Hk' & _); [lia..|].
    cbn [lbind]. exists buf'. eexists _, (e :: copied), rest. split; [done|]. split; [done|]. split.
    { constructor; [|done]. eapply loaded_ext; [|exact Hl]. exact Hk'. }
    split; [|done]. intros a Ha. rewrite Hk'; [lia|]. by apply Hk.
  - exists buf, [], [], (e :: exts). split_and!; [done..|]. intros e' exts' [= <- _]. lia.
Qed.

(** The calls write exactly the extents. *)
Definition writes_exts exts (calls : list pwrite_call) : Prop :=
  Forall (agrees f) calls /\ forall a, (exists c, c ∈ calls /\ covers c a) <-> exists e, e ∈ exts /\ in_ext e a.

Lemma writes_exts_app exts1 exts2 calls1 calls2 :
  writes_exts exts1 calls1 -> writes_exts exts2 calls2 -> writes_exts (exts1 ++ exts2) (calls1 ++ calls2).
Proof.
  intros [Ha1 Hc1] [Ha2 Hc2]. split; [by apply Forall_app|]. intros a. specialize (Hc1 a). specialize (Hc2 a).
  setoid_rewrite elem_of_app. naive_solver.
Qed.

Lemma write_chunks_spec buf chunks exts : Forall2 (loaded buf) chunks exts -> forall pws,
  Forall source_ok exts -> total exts <= ULONG_MAX -> Forall pw_ok pws -> total exts <= n_writes pws ->
  exists calls pws', write_chunks pws buf chunks = LRet (calls, pws', UNIFYFS_SUCCESS) /\ Forall pw_ok pws' /\
    n_writes pws <= n_writes pws' + total exts /\ writes_exts exts calls.
Proof.
  induction 1 as [|chk e chunks exts (Hsz & Hoff & Hl) HF IH]; intros pws Hall Hb Hok Hn.
  { exists [], pws. split_and!; [done..|cbn; lia|]. split; [constructor|]. intros a. set_solver. }
  apply Forall_cons in Hall as [He Hall]. pose proof He as [[Hv _] _]. pose proof (extent_length_eq e Hv) as Hle. cbn [total] in Hb, Hn |- *. destruct Hv as [? ?].
  assert (0 <= total exts) as Ht by (apply total_nonneg; eapply Forall_impl; [exact Hall|]; by intros ? [[? _] _]).
  cbn [write_chunks]. unfold write_transfer_chunk. rewrite Hsz.
  destruct (write_pieces_spec f buf chk pws 0 (extent_length e) Hok) as (calls & pws1 & -> & Hok1 & Hn1 & Ha & Hc); [lia..| |].
  { intros i Hi. rewrite Hl; [lia|]. by rewrite Hoff. }
  cbn [lbind]. change (negb (UNIFYFS_SUCCESS =? UNIFYFS_SUCCESS)) with false. cbv iota.
  destruct (IH pws1 Hall ltac:(lia) Hok1 ltac:(lia)) as (calls' & pws2 & -> & Hok2 & Hn2 & Hw). cbn [lbind].
  exists (calls ++ calls'), pws2. split_and!; [done..|lia|]. apply (writes_exts_app [e]); [|done]. split; [done|].
  intros a. rewrite Hc Hoff Hle Z.add_0_r. setoid_rewrite list_elem_of_singleton. unfold in_ext. split; [intros ?; exists e; split; [done|lia]|].
  intros (e' & -> & ?). lia.
Qed.

(** The fuel is enough: each pass copies an extent. *)
Lemma copy_extents_spec fuel : forall exts buf buf_sz pws,
  (length exts < fuel)%nat -> Forall source_ok exts -> total exts <= ULONG_MAX -> Forall (fun e => extent_length e <= buf_sz) exts ->
  Forall pw_ok pws -> total exts <= n_writes pws ->
  exists calls, copy_extents fuel apps pread exts buf buf_sz pws = LRet (calls, UNIFYFS_SUCCESS) /\ writes_exts exts calls.
Proof.
  induction fuel as [|fuel IH]; intros exts buf buf_sz pws Hfuel Hall Hb Hsz Hok Hn; [lia|]. cbn [copy_extents].
  destruct (fill_buffer_spec exts buf buf_sz 0 Hall ltac:(lia) Hb) as (buf' & chunks & copied & rest & -> & -> & HF & _ & Hne).
  cbn [lbind]. change (negb (UNIFYFS_SUCCESS =? UNIFYFS_SUCCESS)) with false. cbv iota.
  apply Forall_app in Hall as [Hall1 Hall2]. rewrite total_app in Hb, Hn. apply Forall_app in Hsz as [_ Hsz].
  assert (forall l, Forall source_ok l -> 0 <= total l) as Hnn by (intros l Hl; apply total_nonneg; eapply Forall_impl; [exact Hl|]; by intros ? [[? _] _]).
  pose proof (Hnn _ Hall1). pose proof (Hnn _ Hall2).
  destruct (write_chunks_spec buf' chunks copied HF pws Hall1 ltac:(lia) Hok ltac:(lia)) as (calls & pws' & -> & Hok' & Hn' & Hw).
  cbn [lbind]. change (negb (UNIFYFS_SUCCESS =? UNIFYFS_SUCCESS)) with false. cbv iota. case_bool_decide as Hrest.
  - exists calls. rewrite Hrest app_nil_r. done.
  - assert (copied <> []) as Hcop.
    { intros ->. destruct rest as [|e rest]; [done|]. apply Forall_cons in Hsz as [Hsz _]. by apply (Hne e rest eq_refl). }
    assert (length rest < fuel)%nat as Hf by (rewrite length_app in Hfuel; destruct copied; [done|cbn in *; lia]).
    destruct (IH rest buf' buf_sz pws' Hf Hall2 ltac:(lia) Hsz Hok' ltac:(lia)) as (calls' & -> & Hw'). cbn [lbind].
    exists (calls ++ calls'). split; [done|]. by apply writes_exts_app.
Qed.
End Copy.

Definition longest (acc : Z) exts : Z := foldl (fun sz e => if extent_length e >? sz then extent_length e else sz) acc exts.

Lemma longest_ge exts : forall acc, acc <= longest acc exts /\ Forall (fun e => extent_length e <= longest acc exts) exts.
Proof.
  induction exts as [|e exts IH]; intros acc; [split; [cbn; lia|constructor]|].
  destruct (IH (if extent_length e >? acc then extent_length e else acc)) as [H1 H2].
  assert (extent_length e <= longest acc (e :: exts) /\ acc <= longest acc (e :: exts)) as [H3 H4].
  { unfold longest in *. cbn. split; (etrans; [|exact H1]); destruct (_ >? _) eqn:E; zbool; lia. }
  split; [done|]. by constructor.
Qed.

Lemma copy_buffer_room exts : Forall ext_valid exts -> Forall (fun e => extent_length e <= copy_buffer_size (total exts) exts) exts.
Proof.
  intros Hv. unfold copy_buffer_size. destruct (_ <=? _) eqn:E; [|apply longest_ge].
  clear E. induction Hv as [|e exts He Hv IH]; [constructor|]. cbn [total]. pose proof (total_nonneg exts Hv).
  assert (0 <= extent_length e) by (rewrite (extent_length_eq e He); destruct He; lia). constructor; [lia|].
  eapply Forall_impl; [exact IH|]. cbn. lia.
Qed.

(** ** All servers *)

(** What a thread needs: the destination can be opened, the data can be read,
    [pwrite] makes progress, and the children in the tree respond. *)
Record thread_ok (env : thread_env) exts (coll : coll_request) : Prop := {
  to_open : exists fd, te_open env = inl fd;
  to_mem : mem_plenty (te_mem env);
  to_pwrites : Forall pw_ok (te_pwrites env) /\ total exts <= n_writes (te_pwrites env);
  to_children : forall ret, exists m coll' resp rc, collective_finish (te_mem env) (collective_set_local_retval coll ret) (te_events env) =
    LRet (m, coll', resp, Some rc);
}.

Lemma transfer_data_spec env apps tta local coll f :
  ta_local_data_sz tta = total local -> (local <> [] -> ta_local_extents tta = Some local) ->
  Forall (source_ok apps (te_pread env) f) local -> total local <= ULONG_MAX -> thread_ok env local coll ->
  exists calls st, transfer_data env apps tta = LRet (calls, Some UNIFYFS_SUCCESS, st) /\ writes_exts f local calls.
Proof.
  intros Hsz Hl Hall Hb [(fd & Hopen) Hmem [Hok Hn] _]. unfold transfer_data. rewrite Hsz.
  assert (Forall ext_valid local) as Hv by (eapply Forall_impl; [exact Hall|]; by intros ? [[? _] _]). destruct local as [|e rest].
  - change (total [] =? 0) with true. cbv iota. eexists [], _. split; [done|]. split; [constructor|]. intros a. set_solver.
  - rewrite Hl //. set (exts := e :: rest) in *. assert (1 <= total exts) as Ht.
    { subst exts. cbn [total]. apply Forall_cons in Hv as [He Hv]. pose proof (total_nonneg rest Hv). rewrite (extent_length_eq e He). destruct He. lia. }
    rewrite (proj2 (Z.eqb_neq _ 0)); [lia|]. rewrite Hopen. destruct (calloc_plenty _ Hmem) as (m1 & -> & Hm1 & _).
    rewrite (_ : (if total exts <=? UNIFYFS_TRANSFER_MAX_BUFFER then LRet [] else lift_option (Some exts)) =
      LRet (if total exts <=? UNIFYFS_TRANSFER_MAX_BUFFER then [] else exts)); [by destruct (_ <=? _)|]. cbn [lbind].
    destruct (calloc_plenty _ Hm1) as (m2 & -> & _ & _). cbn [lift_option lbind].
    destruct (copy_extents_spec apps (te_pread env) f (S (length exts)) exts (te_garbage env) (copy_buffer_size (total exts) exts) (te_pwrites env))
      as (calls & -> & Hw); [lia|done|done|by apply copy_buffer_room|done|done|]. cbn [lbind]. by exists calls, UNIFYFS_SUCCESS.
Qed.

(** The thread of one server, from the search for its extents on. *)
Lemma transfer_thread_spec sv m gfid exts tta coll env f :
  unifyfs_inode_get_extents sv gfid = LRet (set_mem m sv, UNIFYFS_SUCCESS, exts) -> mem_plenty m ->
  ta_bcast_coll tta = Some coll ->
  let local := List.filter (is_local (sv_glb_pmi_rank sv)) exts in
  Forall (source_ok (sv_apps sv) (te_pread env) f) local -> total local <= ULONG_MAX -> thread_ok env local coll ->
  exists sv' tta1 calls tta2 resp, create_local_transfers sv gfid tta = LRet (sv', tta1, UNIFYFS_SUCCESS) /\
    transfer_helper_thread env (sv_apps sv) tta1 = LRet (calls, tta2, resp, true) /\
    ta_status tta2 = UNIFYFS_SUCCESS /\ writes_exts f local calls.
Proof.
  intros Hget Hm Hcoll local Hall Hb Hth.
  assert (exists sv' l n, create_local_transfers sv gfid tta = LRet (sv', ta_set_local l n (total local) tta, UNIFYFS_SUCCESS) /\ (local <> [] -> l = Some local))
    as (sv' & l & n & Hcr & Hl).
  { unfold create_local_transfers. rewrite Hget. cbn [lbind]. change (negb (UNIFYFS_SUCCESS =? UNIFYFS_SUCCESS)) with false. cbv iota.
    cbn [sv_glb_pmi_rank set_mem sv_mem]. fold local. rewrite data_size_eq //; [eapply Forall_impl; [exact Hall|]; by intros ? [[? _] _]|].
    destruct (decide (local = [])) as [Hnil|Hne]; [rewrite Hnil; by eexists _, _, _|].
    rewrite (proj2 (Z.eqb_neq _ 0)); [by destruct local; [|cbn; lia]|]. destruct (calloc_plenty m Hm) as (m2 & -> & _ & _). by eexists _, _, _. }
  set (tta1 := ta_set_local l n (total local) tta) in *. set (tta1' := ta_set_client (cr_app_id coll) (cr_client_id coll) (cr_client_req_id coll) tta1).
  destruct (transfer_data_spec env (sv_apps sv) tta1' local coll f eq_refl Hl Hall Hb Hth) as (calls & st & Hd & Hw).
  destruct (to_children _ _ _ Hth UNIFYFS_SUCCESS) as (m' & coll' & resp & rc & Hfin).
  exists sv', tta1, calls, (ta_set_status UNIFYFS_SUCCESS tta1'), resp. split; [done|]. split; [|done]. unfold transfer_helper_thread.
  change (ta_bcast_coll tta1) with (ta_bcast_coll tta). rewrite Hcoll. cbv iota. fold tta1'. rewrite Hd. cbn [lbind].
  change (ta_bcast_coll (ta_set_status UNIFYFS_SUCCESS tta1')) with (ta_bcast_coll tta). rewrite Hcoll. by rewrite Hfin.
Qed.

(** The contents of a file, from the logs of the servers that have its
    extents. *)
Definition file_content (apps : Z -> app_table) exts (a : Z) : Z :=
  match List.find (fun e => bool_decide (in_ext e a)) exts with
  | Some e => ext_byte (apps (em_svr_rank e)) e a
  | None => 0
  end.

(** Extents in the order of a tree. *)
Definition ext_before e1 e2 : Prop := em_end e1 < em_start e2.

Lemma in_ext_unique exts e1 e2 a : StronglySorted ext_before exts -> e1 ∈ exts -> e2 ∈ exts -> in_ext e1 a -> in_ext e2 a -> e1 = e2.
Proof.
  induction 1 as [|e exts _ IH Hb]; intros H1 H2 Ha1 Ha2; [by apply elem_of_nil in H1|]. rewrite Forall_forall in Hb.
  apply elem_of_cons in H1 as [->|H1], H2 as [->|H2]; [done| | |by apply IH].
  - specialize (Hb e2 H2). unfold ext_before, in_ext in *. lia.
  - specialize (Hb e1 H1). unfold ext_before, in_ext in *. lia.
Qed.

Lemma file_content_eq apps exts e a : StronglySorted ext_before exts -> e ∈ exts -> in_ext e a -> file_content apps exts a = ext_byte (apps (em_svr_rank e)) e a.
Proof.
  intros Hs He Ha. unfold file_content. destruct (List.find _ exts) as [e'|] eqn:Hf.
  - apply find_some in Hf as [Hin Hx%bool_decide_eq_true]. apply list_elem_of_In in Hin. by rewrite (in_ext_unique exts e' e a).
  - apply list_elem_of_In in He. pose proof (find_none _ _ Hf e He) as H. by rewrite bool_decide_eq_true_2 in H.
Qed.

(** What the transfer on one server does, from the search for its extents to
    the end of the thread: the calls of [pwrite], its status, and whether the
    service manager is told that it is done. *)
Definition run_transfer (env : thread_env) (sv : server) (gfid : Z) (tta : transfer_thread_args) : option (list pwrite_call * Z * bool) :=
  match create_local_transfers sv gfid tta with
  | LRet (_, tta, _) =>
      match transfer_helper_thread env (sv_apps sv) tta with LRet (calls, tta, _, told) => Some (calls, ta_status tta, told) | _ => None end
  | _ => None
  end.

Definition calls_of (r : option (list pwrite_call * Z * bool)) : list pwrite_call := match r with Some (calls, _, _) => calls | None => [] end.

(** A server that knows the extents of the file and can read its own. *)
Record transfer_server exts (gfid r : Z) (sv : server) (env : thread_env) (tta : transfer_thread_args) : Prop := {
  ts_rank : sv_glb_pmi_rank sv = r;
  ts_extents : exists m, unifyfs_inode_get_extents sv gfid = LRet (set_mem m sv, UNIFYFS_SUCCESS, exts) /\ mem_plenty m;
  ts_read : Forall (ext_readable (sv_apps sv) (te_pread env)) (List.filter (is_local r) exts);
  ts_thread : exists coll, ta_bcast_coll tta = Some coll /\ thread_ok env (List.filter (is_local r) exts) coll;
}.

Lemma total_filter (P : extent_metadata -> bool) exts : Forall ext_valid (List.filter (fun e => negb (P e)) exts) -> total (List.filter P exts) <= total exts.
Proof.
  induction exts as [|e exts IH]; cbn; [lia|]. destruct (P e); cbn [negb total].
  - intros H. specialize (IH H). lia.
  - intros [He H]%Forall_cons. specialize (IH H). rewrite (extent_length_eq e He). destruct He. lia.
Qed.


(** ** A concrete transfer *)

(** The file of two extents of [InodeProps], and a second server without data. *)
Definition tx_servers (r : Z) : server :=
  if r =? 0 then ex_server2 else Server (sv_mem ex_server2) 1 2 (sv_apps ex_server2) (sv_inodes ex_server2) [].
Definition tx_exts : list extent_metadata := [ExtentMd 0 49 0 0 7 1; ExtentMd 50 149 100 0 7 1].
Definition tx_pread (e : extent_metadata) : io_result :=
  inl (extent_length e - log_in_mem (em_log_pos e) (extent_length e) (logio_mem_size (example_log 16 16 10))).

(** Writes that are interrupted and short, and a child that responds. *)
Definition tx_env (r : Z) : thread_env :=
  ThreadEnv (inl 3) (Mem 1 []) (fun _ => 0) tx_pread (inr EINTR :: inl 7 :: replicate 200 (inl 40))
    (if r =? 0 then [WaitDone 0 (Some empty_out) merge_fine] else []).
Definition tx_coll (r : Z) : coll_request :=
  if r =? 0 then cr_set_client 7 1 5 (new_collective UNIFYFS_SERVER_BCAST_RPC_TRANSFER false None (tree_at 2 0 0))
  else new_collective UNIFYFS_SERVER_BCAST_RPC_TRANSFER true (Some empty_out) (tree_at 2 0 1).
Definition tx_args (r : Z) : transfer_thread_args := TransferArgs (Some "/out"%string) 100 0 (-1) (-1) (-1) None 0 0 150 (Some (tx_coll r)) 0.

Lemma tx_readable : Forall (ext_readable (sv_apps ex_server2) tx_pread) tx_exts.
Proof.
  assert (client_log (sv_apps ex_server2) 7 1 = Some (example_log 16 16 10)) as Hl by (by vm_compute).
  repeat constructor; cbn; try lia; (exists (example_log 16 16 10); split; [exact Hl|]; split; [|done]; split; [lia|by vm_compute|by vm_compute|split; by vm_compute|]);
    intros _; done.
Qed.

Lemma tx_server r : 0 <= r < 2 -> transfer_server tx_exts 100 r (tx_servers r) (tx_env r) (tx_args r).
Proof.
  intros Hr. assert (Forall pw_ok (te_pwrites (tx_env r))) as Hpw.
  { unfold tx_env. cbn [te_pwrites]. constructor; [by left|]. constructor; [cbn; lia|]. apply Forall_replicate. cbn. lia. }
  assert (r = 0 \/ r = 1) as [->| ->] by lia; split; [done| | | |done| | |].
  - eexists. split; [by vm_compute|constructor].
  - exact tx_readable.
  - eexists. split; [done|]. split; [by eexists|constructor|split; [exact Hpw|by vm_compute]|]. intros ret. by eexists _, _, _, _.
  - eexists. split; [by vm_compute|constructor].
  - constructor.
  - eexists. split; [done|]. split; [by eexists|constructor|split; [exact Hpw|by vm_compute]|]. intros ret. by eexists _, _, _, _.
Qed.


(** ** Where errors are lost *)

(** A thread that cannot open the destination ends without telling anybody: the
    broadcast is not finished and the client gets no call. *)
Lemma unopened_destination_untold :
  run_transfer (ThreadEnv (inr EINVAL) (Mem 1 []) (fun _ => 0) tx_pread [] []) ex_server2 100 (tx_args 0) = Some ([], EINVAL, false).
Proof. by vm_compute. Qed.

(** The status that the client gets is that of its own server: here the other
    server has failed. *)
Lemma remote_failure_hidden :
  exists calls, run_transfer (ThreadEnv (inl 3) (Mem 1 []) (fun _ => 0) tx_pread (replicate 2 (inl 100)) [WaitDone 0 (Some (co_set_ret ENOMEM empty_out)) merge_fine])
    ex_server2 100 (tx_args 0) = Some (calls, UNIFYFS_SUCCESS, true).
Proof. eexists. by vm_compute. Qed.

(** Without memory for the list of extents the thread follows a null pointer. *)
Lemma transfer_without_memory :
  match create_local_transfers (set_mem (Mem 1 [false; true]) ex_server2) 100 (tx_args 0) with
  | LRet (_, tta, rc) => rc = ENOMEM /\ transfer_helper_thread (tx_env 0) (sv_apps ex_server2) tta = LFault
  | _ => False
  end.
Proof. by vm_compute. Qed.

(** A failure to forward the request is not returned, and the transfer is not
    started: the client waits for a call that never comes. *)
Lemma forward_failure_hidden :
  exists m, unifyfs_invoke_broadcast_transfer [false] UNIFYFS_SUCCESS (Mem 1 []) 0 2 7 1 5 = (m, None, [], UNIFYFS_SUCCESS).
Proof. eexists. by vm_compute. Qed.

(** When the spill-over file returns fewer bytes than asked for, what the buffer
    held before is written to the destination. *)
Lemma short_read_writes_garbage :
  exists calls, run_transfer (ThreadEnv (inl 3) (Mem 1 []) (fun _ => 99) (fun e => inl 0) (replicate 2 (inl 100)) [WaitDone 0 (Some empty_out) merge_fine])
    ex_server2 100 (tx_args 0) = Some (calls, UNIFYFS_SUCCESS, true) /\ apply_pwrites (fun _ => 0) calls 149 = 99.
Proof. eexists. split; by vm_compute. Qed.
