(* ===== verification/Bootstrap.v ===== *)
(** * Start-up of the servers ([server/src/unifyfs_server_pid.c])

    Every server reports its process id to the server of rank 0 with a call
    ([unifyfs_p2p_rpc.c]); when all have reported, that server broadcasts the
    end of the start-up and writes the ids to a file, and the others go on when
    the broadcast reaches them.  Only then clients may connect.  Each server
    gives up after a time.

    The functions of the source are functions here; the servers of a job are a
    transition system, in which calls and their answers can be lost and a wait
    can time out at any moment. *)

From stdpp Require Import functions.
From S2P Require Import Prelude.
From S2P Require Import LogIO.
From S2P Require Import Inode.
From S2P Require Import Collective.

(** ** State of a server *)

Record boot := Boot {
  bt_mutex : bool;              (* server_bootstrap_mutex exists *)
  bt_cond : bool;               (* server_bootstrap_cond exists *)
  bt_n_reported : Z;            (* n_servers_reported *)
  bt_completed : bool;          (* bootstrap_completed *)
  bt_pids : option (list Z);    (* server_pids *)
}.

Definition boot_new : boot := Boot false false 0 false None.

(** Whether the mutex and the condition variable can be created. *)
Record boot_env := BootEnv {
  be_mutex : bool;
  be_cond : bool;
}.

Definition free_bootstrap_state (bt : boot) : boot :=
  Boot false (if bt_mutex bt then false else bt_cond bt) (bt_n_reported bt) (bt_completed bt) None.

Section Bootstrap.
(** The number of servers, and the result of reading the time-out from the
    configuration. *)
Context (glb_pmi_size : Z) (set_bootstrap_timeout : Z).

Definition initialize_bootstrap_state (env : boot_env) (m : mem) (glb_pmi_rank : Z) (bt : boot) : mem * boot * Z :=
  if negb (bt_mutex bt) && negb (be_mutex env) then (m, bt, UNIFYFS_ERROR_MARGO)
  else
    let cond := bt_cond bt || be_cond env in
    let ret := if cond then UNIFYFS_SUCCESS else UNIFYFS_ERROR_MARGO in
    let ret := if ret =? UNIFYFS_SUCCESS then set_bootstrap_timeout else ret in
    let '(pids, m, ret) :=
      if (ret =? UNIFYFS_SUCCESS) && (glb_pmi_rank =? 0) then
        match bt_pids bt with
        | Some l => (Some l, m, ret)
        | None =>
            let '(p, m) := calloc m in
            match p with
            | Some _ => (Some (replicate (Z.to_nat glb_pmi_size) 0), m, ret)
            | None => (None, m, ENOMEM)
            end
        end
      else (bt_pids bt, m, ret) in
    let bt := Boot true cond (bt_n_reported bt) (bt_completed bt) pids in
    (m, if negb (ret =? UNIFYFS_SUCCESS) then free_bootstrap_state bt else bt, ret).

(** The store into the array, and the count. *)
Definition record_pid (bt : boot) (rank pid : Z) : lres boot :=
  let! pids := lift_option (bt_pids bt) in
  if (rank <? 0) || (Z.of_nat (length pids) <=? rank) then LFault
  else LRet (Boot (bt_mutex bt) (bt_cond bt) (bt_n_reported bt + 1) (bt_completed bt) (Some (<[Z.to_nat rank := pid]> pids))).

Definition unifyfs_report_server_pid (env : boot_env) (m : mem) (glb_pmi_rank : Z) (bt : boot) (rank pid : Z) : lres (mem * boot * Z) :=
  if negb (glb_pmi_rank =? 0) || negb (rank <? glb_pmi_size) then LFault
  else
    let '(m, bt, rc) := initialize_bootstrap_state env m glb_pmi_rank bt in
    if negb (rc =? UNIFYFS_SUCCESS) then LRet (m, bt, rc)
    else let! bt := record_pid bt rank pid in LRet (m, bt, UNIFYFS_SUCCESS).

(** ** The report as a call ([unifyfs_p2p_rpc.c]) *)

(** What the network does: the results of finding the server, of sending and of
    the wait, and whether the answer can be read. *)
Record pid_env := PidEnv {
  pe_init : Z;
  pe_forward : Z;
  pe_wait : Z;
  pe_output : bool;
}.

Definition unifyfs_invoke_server_pid_rpc (env : pid_env) (out_ret : Z) : Z :=
  if negb (pe_init env =? UNIFYFS_SUCCESS) then pe_init env
  else if negb (pe_forward env =? UNIFYFS_SUCCESS) then pe_forward env
  else if negb (pe_wait env =? UNIFYFS_SUCCESS) then pe_wait env
  else if negb (pe_output env) then UNIFYFS_ERROR_MARGO
  else out_ret.

(** The request is sent. *)
Definition pid_sent (env : pid_env) : bool := (pe_init env =? UNIFYFS_SUCCESS) && (pe_forward env =? UNIFYFS_SUCCESS).

(** [input]: the request can be read. *)
Definition server_pid_rpc (input : bool) (env : boot_env) (m : mem) (glb_pmi_rank : Z) (bt : boot) (rank pid : Z) : lres (mem * boot * Z) :=
  if negb input then LRet (m, bt, UNIFYFS_ERROR_MARGO)
  else unifyfs_report_server_pid env m glb_pmi_rank bt rank pid.

Definition set_completed (bt : boot) : boot := Boot (bt_mutex bt) (bt_cond bt) (bt_n_reported bt) true (bt_pids bt).

Definition unifyfs_signal_bootstrap_complete (glb_pmi_rank : Z) (bt : boot) : lres (boot * Z) :=
  if glb_pmi_rank =? 0 then LFault else LRet (set_completed bt, UNIFYFS_SUCCESS).

(** The lines of the file, or the error number of [fopen]. *)
Definition create_server_pid_file (fopen : option Z) (bt : boot) : Z + list (Z * Z) :=
  match bt_pids bt with
  | None => inl EINVAL
  | Some pids => match fopen with Some err => inl err | None => inr (zip (seqZ 0 glb_pmi_size) pids) end
  end.

(** ** The steps of [unifyfs_complete_bootstrap] *)

(** Where a server is: before the call, before its report, waiting, in the
    broadcast (rank 0), or returned. *)
Inductive phase := PStart | PReport | PWaiting | PBroadcast | PEnded (ret : Z).

(** Up to the report, or to the first wait of rank 0.  An error of the
    initialisation is returned as another one. *)
Definition begin_bootstrap (env : boot_env) (m : mem) (glb_pmi_rank server_pid : Z) (bt : boot) : lres (mem * boot * phase) :=
  let '(m, bt, rc) := initialize_bootstrap_state env m glb_pmi_rank bt in
  if negb (rc =? UNIFYFS_SUCCESS) then LRet (m, bt, PEnded UNIFYFS_ERROR_MARGO)
  else if glb_pmi_rank >? 0 then LRet (m, bt, PReport)
  else let! bt := record_pid bt 0 server_pid in LRet (m, bt, PWaiting).

(** The state is freed when the function returns. *)
Definition end_bootstrap (bt : boot) (ret : Z) : boot * phase := (free_bootstrap_state bt, PEnded ret).

(** The call of rank 0 has returned [ret]. *)
Definition after_report (bt : boot) (ret : Z) : boot * phase :=
  if negb (ret =? UNIFYFS_SUCCESS) then end_bootstrap bt ret else (bt, PWaiting).

(** The result of [wait_for_bootstrap_condition]. *)
Inductive cond_result := CondSignalled | CondTimedOut | CondError.

Definition wait_for_bootstrap_condition (w : cond_result) : Z :=
  match w with
  | CondSignalled => UNIFYFS_SUCCESS
  | CondTimedOut => UNIFYFS_ERROR_TIMEOUT
  | CondError => UNIFYFS_ERROR_MARGO
  end.

(** The condition of the loop, at first or after a wait with the result [ret]
    (success at first), and what follows the loop. *)
Definition after_wait (glb_pmi_rank : Z) (ret : Z) (bt : boot) : boot * phase :=
  if glb_pmi_rank >? 0 then
    if bt_completed bt || (ret =? UNIFYFS_ERROR_TIMEOUT) then end_bootstrap bt ret else (bt, PWaiting)
  else
    if (bt_n_reported bt <? glb_pmi_size) && negb (ret =? UNIFYFS_ERROR_TIMEOUT) then (bt, PWaiting)
    else if bt_n_reported bt =? glb_pmi_size then (set_completed bt, PBroadcast)
    else end_bootstrap bt ret.

(** The broadcast of rank 0 has returned [ret]: the file, if it is written. *)
Definition after_broadcast (fopen : option Z) (ret : Z) (bt : boot) : option (list (Z * Z)) * (boot * phase) :=
  if negb (ret =? UNIFYFS_SUCCESS) then (None, end_bootstrap bt ret)
  else
    match create_server_pid_file fopen bt with
    | inl err => (None, end_bootstrap bt err)
    | inr lines => (Some lines, end_bootstrap bt UNIFYFS_SUCCESS)
    end.

(** ** The servers of a job *)

(** [jb_reported]: the report of the server has been recorded. *)
Record job := Job {
  jb_boot : Z -> boot;
  jb_phase : Z -> phase;
  jb_mem : Z -> mem;
  jb_reported : Z -> bool;
  jb_file : option (list (Z * Z));
}.

Context (pid : Z -> Z).

Definition set_server_at (r : Z) (m : mem) (bt : boot) (ph : phase) (j : job) : job :=
  Job (<[r := bt]> (jb_boot j)) (<[r := ph]> (jb_phase j)) (<[r := m]> (jb_mem j)) (jb_reported j) (jb_file j).
Definition set_reported (r : Z) (j : job) : job :=
  Job (jb_boot j) (jb_phase j) (jb_mem j) (<[r := true]> (jb_reported j)) (jb_file j).

Definition set_file (file : option (list (Z * Z))) (j : job) : job :=
  Job (jb_boot j) (jb_phase j) (jb_mem j) (jb_reported j) file.

(** A server starts, its report is recorded by rank 0 (its answer may be lost),
    its report does not arrive, it is woken or its wait ends, the broadcast
    reaches it; the broadcast of rank 0 ends. *)
Inductive boot_step (j : job) : job -> Prop :=
| step_begin r env m bt ph :
    0 <= r < glb_pmi_size -> jb_phase j r = PStart ->
    begin_bootstrap env (jb_mem j r) r (pid r) (jb_boot j r) = LRet (m, bt, ph) ->
    boot_step j (set_server_at r m bt ph (if ph is PWaiting then set_reported r j else j))
| step_report r net input env m bt rc bt' ph :
    0 < r < glb_pmi_size -> jb_phase j r = PReport -> pid_sent net = true ->
    server_pid_rpc input env (jb_mem j 0) 0 (jb_boot j 0) r (pid r) = LRet (m, bt, rc) ->
    after_report (jb_boot j r) (unifyfs_invoke_server_pid_rpc net rc) = (bt', ph) ->
    boot_step j (set_server_at r (jb_mem j r) bt' ph
      (set_server_at 0 m bt (jb_phase j 0) (if rc =? UNIFYFS_SUCCESS then set_reported r j else j)))
| step_lost r net rc bt' ph :
    0 < r < glb_pmi_size -> jb_phase j r = PReport -> pid_sent net = false \/ pe_wait net <> UNIFYFS_SUCCESS ->
    after_report (jb_boot j r) (unifyfs_invoke_server_pid_rpc net rc) = (bt', ph) -> boot_step j (set_server_at r (jb_mem j r) bt' ph j)
| step_wait r w bt' ph :
    0 <= r < glb_pmi_size -> jb_phase j r = PWaiting ->
    after_wait r (wait_for_bootstrap_condition w) (jb_boot j r) = (bt', ph) -> boot_step j (set_server_at r (jb_mem j r) bt' ph j)
| step_signal r bt rc :
    0 < r < glb_pmi_size -> bt_completed (jb_boot j 0) = true ->
    unifyfs_signal_bootstrap_complete r (jb_boot j r) = LRet (bt, rc) -> boot_step j (set_server_at r (jb_mem j r) bt (jb_phase j r) j)
| step_broadcast fopen ret file bt' ph :
    jb_phase j 0 = PBroadcast ->
    after_broadcast fopen ret (jb_boot j 0) = (file, (bt', ph)) -> boot_step j (set_file file (set_server_at 0 (jb_mem j 0) bt' ph j)).

Definition job_init (mems : Z -> mem) : job := Job (fun _ => boot_new) (fun _ => PStart) mems (fun _ => false) None.

Definition job_reach (j : job) : Prop := exists mems, rtc boot_step (job_init mems) j.
End Bootstrap.
