(* ===== verification/BootstrapProps.v ===== *)
(** * The start-up of the servers: no server goes on alone

    An invariant of the transition system of [Bootstrap], by induction on its
    runs: a server that has returned successfully, or has been told that the
    start-up is complete, knows that every server has reported; the file holds
    the process id of every server.  The converse, that a start-up without
    losses completes, is a run of the system. *)

From stdpp Require Import functions.
From S2P Require Import Prelude.
From S2P Require Import LogIO.
From S2P Require Import Inode.
From S2P Require Import Collective.
From S2P Require Import Bootstrap.

(** ** Counting the reports *)

Definition count_true (f : Z -> bool) (l : list Z) : Z := Z.of_nat (length (filter (fun r => f r = true) l)).

Lemma count_true_le f l : count_true f l <= Z.of_nat (length l).
Proof. unfold count_true. pose proof (length_filter (fun r => f r = true) l). lia. Qed.

Lemma count_true_all f l : count_true f l = Z.of_nat (length l) -> forall r, r ∈ l -> f r = true.
Proof.
  unfold count_true. induction l as [|x l IH]; [by intros _ r ?%not_elem_of_nil|].
  rewrite filter_cons. pose proof (length_filter (fun r => f r = true) l).
  case_decide as E; simpl; [|lia].
  intros Hc r [->|Hr]%elem_of_cons; [done|]. apply IH; [lia|done].
Qed.

Lemma count_true_full f l : (forall r, r ∈ l -> f r = true) -> count_true f l = Z.of_nat (length l).
Proof.
  unfold count_true. induction l as [|x l IH]; intros H; [done|].
  rewrite filter_cons_True; [apply H; set_solver|]. simpl. rewrite !Nat2Z.inj_succ IH; [set_solver|done].
Qed.

Lemma count_true_insert_ne f r l : r ∉ l -> count_true (<[r := true]> f) l = count_true f l.
Proof.
  unfold count_true. induction l as [|x l IH]; [done|]. intros [Hx Hr]%not_elem_of_cons.
  specialize (IH Hr). rewrite !filter_cons. rewrite (decide_ext _ (f x = true)); [by rewrite fn_lookup_insert_ne|].
  case_decide; simpl; lia.
Qed.

Lemma count_true_insert f r l :
  NoDup l -> r ∈ l -> f r = false -> count_true (<[r := true]> f) l = count_true f l + 1.
Proof.
  induction l as [|x l IH]; [by intros _ ?%not_elem_of_nil|].
  intros [Hx Hl]%NoDup_cons [->|Hr]%elem_of_cons Hf.
  - pose proof (count_true_insert_ne f x l Hx) as E. unfold count_true in *.
    rewrite !filter_cons. rewrite decide_True; [by rewrite fn_lookup_insert|]. rewrite decide_False; [congruence|]. simpl. lia.
  - pose proof (IH Hl Hr Hf) as E. unfold count_true in *. rewrite !filter_cons.
    assert (x <> r) by (intros ->; done).
    rewrite (decide_ext _ (f x = true)); [by rewrite fn_lookup_insert_ne|]. case_decide; simpl; lia.
Qed.

(** ** The invariant *)

Section Safety.
Context (size timeout : Z) (pid : Z -> Z) (Hsize : 0 < size).

Let all : list Z := seqZ 0 size.

(** The array of rank 0 exists with the mutex and the condition variable. *)
Definition pids_ok (bt : boot) : Prop :=
  forall l, bt_pids bt = Some l -> bt_mutex bt = true /\ bt_cond bt = true /\ timeout = UNIFYFS_SUCCESS /\ Z.of_nat (length l) = size.

Definition pids_hold (reported : Z -> bool) (bt : boot) : Prop :=
  forall r, reported r = true -> exists l, bt_pids bt = Some l /\ l !! Z.to_nat r = Some (pid r).

Definition all_reported (j : job) : Prop := forall r, 0 <= r < size -> jb_reported j r = true.

Definition ended (ph : phase) : bool := if ph is PEnded _ then true else false.

(** [skip]: a server whose report has just been recorded. *)
Record boot_inv (skip : option Z) (j : job) : Prop := {
  bi_range : forall r, jb_reported j r = true -> 0 <= r < size;
  bi_count : bt_n_reported (jb_boot j 0) = count_true (jb_reported j) all;
  bi_not_yet : forall r, Some r <> skip -> jb_phase j r = PStart \/ jb_phase j r = PReport -> jb_reported j r = false;
  bi_pids : pids_ok (jb_boot j 0);
  bi_hold : ended (jb_phase j 0) = false -> pids_hold (jb_reported j) (jb_boot j 0);
  bi_completed : forall r, bt_completed (jb_boot j r) = true -> all_reported j;
  bi_broadcast : jb_phase j 0 = PBroadcast -> bt_completed (jb_boot j 0) = true;
  bi_ended : forall r, jb_phase j r = PEnded UNIFYFS_SUCCESS -> all_reported j;
  bi_file : forall lines, jb_file j = Some lines -> lines = (fun r => (r, pid r)) <$> all;
}.

Lemma boot_inv_init mems : boot_inv None (job_init mems).
Proof using Hsize.
  split; simpl; try done; try (intros; discriminate).
  - unfold count_true. induction all as [|x l IH]; [done|]. by rewrite filter_cons_False.
Qed.

(** *** The operations *)

Lemma initialize_frame env m rank bt m' bt' rc :
  initialize_bootstrap_state size timeout env m rank bt = (m', bt', rc) ->
  bt_n_reported bt' = bt_n_reported bt /\ bt_completed bt' = bt_completed bt.
Proof.
  unfold initialize_bootstrap_state. intros H. repeat (case_match; simplify_eq/=; try done).
Qed.

Lemma initialize_pids env m bt m' bt' rc :
  initialize_bootstrap_state size timeout env m 0 bt = (m', bt', rc) -> pids_ok bt ->
  pids_ok bt' /\ (rc = UNIFYFS_SUCCESS -> exists l, bt_pids bt' = Some l) /\ (forall l, bt_pids bt = Some l -> bt_pids bt' = Some l).
Proof using Hsize.
  intros H Hok. destruct (bt_pids bt) as [l|] eqn:El.
  - destruct (Hok l El) as (Hm & Hc & Ht & Hl). revert H.
    unfold initialize_bootstrap_state. rewrite Hm Hc El Ht. simpl. intros [= <- <- <-].
    split_and!; [|by eexists|by intros ? [= <-]]. intros l' [= <-]. done.
  - revert H. unfold initialize_bootstrap_state. rewrite El.
    destruct (_ && _); [intros [= <- <- <-]; split_and!; [done|done|done]|].
    destruct (bt_cond bt || be_cond env) eqn:Ec; simpl.
    + destruct (Z.eqb_spec timeout UNIFYFS_SUCCESS) as [->|Ht]; simpl.
      * destruct (calloc m) as [[p|] m1]; simpl; intros [= <- <- <-]; (split_and!; [|try done; by eexists|done]).
        -- intros l [= <-]. simpl. rewrite length_replicate. split_and!; try done. lia.
        -- intros l [=].
      * destruct (Z.eqb_spec timeout UNIFYFS_SUCCESS); [done|]. simpl. intros [= <- <- <-].
        split_and!; [intros l [=]|done|done].
    + intros [= <- <- <-]. split_and!; [intros l [=]|done|done].
Qed.

Lemma record_pid_outcome bt rank p bt' :
  record_pid bt rank p = LRet bt' ->
  exists l, bt_pids bt = Some l /\ 0 <= rank < Z.of_nat (length l) /\
            bt' = Boot (bt_mutex bt) (bt_cond bt) (bt_n_reported bt + 1) (bt_completed bt) (Some (<[Z.to_nat rank := p]> l)).
Proof.
  unfold record_pid. destruct (bt_pids bt) as [l|]; [|done]. simpl.
  destruct (_ || _) eqn:E; [done|]. intros [= <-]. apply orb_false_iff in E as [].
  exists l. split_and!; [done| | |done]; lia.
Qed.

Lemma boot_inv_weaken skip j : boot_inv None j -> boot_inv skip j.
Proof using. intros []. split; auto. Qed.

Lemma boot_inv_close r j :
  boot_inv (Some r) j -> jb_phase j r <> PStart -> jb_phase j r <> PReport -> boot_inv None j.
Proof using.
  intros [] Hs Hr. split; try done. intros r' _ Hph. destruct (decide (r' = r)) as [->|Hne]; [naive_solver|].
  apply bi_not_yet0; [congruence|done].
Qed.

(** A server moves on without a report; what it does to the array matters if it
    is rank 0. *)
Lemma boot_inv_set r m bt ph j :
  boot_inv (Some r) j ->
  (r = 0 -> bt_n_reported bt = bt_n_reported (jb_boot j 0) /\ pids_ok bt /\
            (ended ph = false -> pids_hold (jb_reported j) bt) /\ (ph = PBroadcast -> bt_completed bt = true)) ->
  (ph = PStart \/ ph = PReport -> jb_reported j r = false) ->
  (bt_completed bt = true -> all_reported j) -> (ph = PEnded UNIFYFS_SUCCESS -> all_reported j) ->
  boot_inv None (set_server_at r m bt ph j).
Proof using.
  intros [Hra Hco Hny Hpi Hho Hcp Hbr Hen Hfi] H0 Hph Hc He. split; simpl; try done.
  - destruct (decide (r = 0)) as [->|Hne]; [rewrite fn_lookup_insert; destruct (H0 eq_refl) as [-> _]; done|].
    by rewrite fn_lookup_insert_ne.
  - intros r' _. destruct (decide (r' = r)) as [->|Hne]; [by rewrite fn_lookup_insert|].
    rewrite fn_lookup_insert_ne; [done|]. apply Hny. congruence.
  - destruct (decide (r = 0)) as [->|Hne]; [rewrite fn_lookup_insert; by apply H0|]. by rewrite fn_lookup_insert_ne.
  - destruct (decide (r = 0)) as [->|Hne]; [rewrite !fn_lookup_insert; by apply H0|]. by rewrite !fn_lookup_insert_ne.
  - intros r'. destruct (decide (r' = r)) as [->|Hne]; [by rewrite fn_lookup_insert|].
    rewrite fn_lookup_insert_ne; [done|]. apply Hcp.
  - destruct (decide (r = 0)) as [->|Hne]; [rewrite !fn_lookup_insert; by apply H0|]. by rewrite !fn_lookup_insert_ne.
  - intros r'. destruct (decide (r' = r)) as [->|Hne]; [by rewrite fn_lookup_insert|].
    rewrite fn_lookup_insert_ne; [done|]. apply Hen.
Qed.

(** What the record of a report does to the state of rank 0. *)
Lemma record_report rep env m bt m1 bt1 r bt' :
  initialize_bootstrap_state size timeout env m 0 bt = (m1, bt1, UNIFYFS_SUCCESS) -> record_pid bt1 r (pid r) = LRet bt' ->
  0 <= r < size -> pids_ok bt -> rep r = false -> bt_n_reported bt = count_true rep all -> (forall x, rep x = true -> 0 <= x < size) ->
  pids_ok bt' /\ bt_n_reported bt' = count_true (<[r := true]> rep) all /\ bt_completed bt' = bt_completed bt /\
  (pids_hold rep bt -> pids_hold (<[r := true]> rep) bt').
Proof using Hsize.
  intros Hi Hr Hrg Hok Hf Hn Hra. destruct (initialize_frame _ _ _ _ _ _ _ Hi) as [Hn1 Hc1].
  destruct (initialize_pids _ _ _ _ _ _ Hi Hok) as (Hok1 & _ & Hp1).
  apply record_pid_outcome in Hr as (l & El & Hl & ->). simpl.
  destruct (Hok1 l El) as (Hm & Hcd & Ht & Hlen). split_and!.
  - intros l' [= <-]. by rewrite length_insert.
  - rewrite Hn1 Hn count_true_insert; [apply NoDup_seqZ|by apply elem_of_seqZ|done|lia].
  - done.
  - intros Hh x Hx. eexists. split; [done|]. destruct (decide (x = r)) as [->|Hne].
    + apply list_lookup_insert_eq. lia.
    + rewrite fn_lookup_insert_ne in Hx; [done|]. destruct (Hh x Hx) as (l' & El' & Hl').
      rewrite (Hp1 _ El') in El. injection El as ->. pose proof (Hra x Hx).
      rewrite list_lookup_insert_ne; [lia|done].
Qed.

Lemma boot_inv_report r m bt ph j :
  boot_inv None j -> 0 <= r < size -> pids_ok bt -> bt_n_reported bt = count_true (<[r := true]> (jb_reported j)) all ->
  bt_completed bt = bt_completed (jb_boot j 0) -> (pids_hold (jb_reported j) (jb_boot j 0) -> pids_hold (<[r := true]> (jb_reported j)) bt) ->
  ph = jb_phase j 0 \/ (r = 0 /\ ph = PWaiting /\ jb_phase j 0 = PStart) ->
  boot_inv (Some r) (set_server_at 0 m bt ph (set_reported r j)).
Proof using Hsize.
  intros [Hra Hco Hny Hpi Hho Hcp Hbr Hen Hfi] Hr Hok Hn Hc Hh Hph.
  assert (Hall : all_reported j -> all_reported (set_reported r j)).
  { intros H x Hx. simpl. destruct (decide (x = r)) as [->|]; [by rewrite fn_lookup_insert|]. rewrite fn_lookup_insert_ne; [done|]. by apply H. }
  split; simpl.
  - intros x. destruct (decide (x = r)) as [->|]; [done|]. rewrite fn_lookup_insert_ne; [done|]. apply Hra.
  - by rewrite fn_lookup_insert.
  - intros x Hx Hp. rewrite fn_lookup_insert_ne; [congruence|]. apply Hny; [done|].
    destruct (decide (x = 0)) as [->|]; [|by rewrite fn_lookup_insert_ne in Hp].
    rewrite fn_lookup_insert in Hp. destruct Hph as [<-|(-> & _ & _)]; done.
  - by rewrite fn_lookup_insert.
  - rewrite !fn_lookup_insert. intros He. apply Hh, Hho. destruct Hph as [<-|(_ & _ & ->)]; done.
  - intros x Hx. apply Hall. destruct (decide (x = 0)) as [->|].
    + rewrite fn_lookup_insert Hc in Hx. by apply (Hcp 0).
    + rewrite fn_lookup_insert_ne in Hx; [done|]. by apply (Hcp x).
  - rewrite !fn_lookup_insert Hc. destruct Hph as [->|(_ & -> & _)]; [done|by intros].
  - intros x Hx. apply Hall. destruct (decide (x = 0)) as [->|].
    + rewrite fn_lookup_insert in Hx. destruct Hph as [->|(_ & -> & _)]; [by apply (Hen 0)|done].
    + rewrite fn_lookup_insert_ne in Hx; [done|]. by apply (Hen x).
  - done.
Qed.

(** *** The steps *)

Lemma free_pids_ok bt : pids_ok (free_bootstrap_state bt).
Proof using. intros l [=]. Qed.

Lemma inv_begin j r env m bt ph :
  boot_inv None j -> 0 <= r < size -> jb_phase j r = PStart ->
  begin_bootstrap size timeout env (jb_mem j r) r (pid r) (jb_boot j r) = LRet (m, bt, ph) ->
  boot_inv None (set_server_at r m bt ph (if ph is PWaiting then set_reported r j else j)).
Proof using Hsize.
  intros Hinv Hr Hp. pose proof (bi_not_yet _ _ Hinv r ltac:(done) (or_introl Hp)) as Hf.
  unfold begin_bootstrap. destruct (initialize_bootstrap_state _ _ _ _ _ _) as [[m1 bt1] rc] eqn:Ei.
  pose proof (initialize_frame _ _ _ _ _ _ _ Ei) as [Hn Hc].
  assert (Hc' : bt_completed bt1 = true -> all_reported j) by (rewrite Hc; apply (bi_completed _ _ Hinv r)).
  destruct (Z.eqb_spec rc UNIFYFS_SUCCESS) as [->|Hrc]; cbn [negb].
  - destruct (Z.gtb_spec r 0) as [Hpos|Hz].
    + intros [= -> -> <-]. apply boot_inv_set; [by apply boot_inv_weaken|lia|done|done|done].
    + assert (r = 0) as -> by lia. destruct (record_pid _ _ _) as [bt2| |] eqn:Er; [|done|done].
      intros [= -> -> <-]. eapply record_report in Ei as (H1 & H2 & H3 & H4); [|done|done|apply Hinv|done|apply Hinv|apply Hinv].
      apply (boot_inv_close 0); [|by rewrite /= fn_lookup_insert|by rewrite /= fn_lookup_insert].
      apply boot_inv_report; try done. right. done.
  - intros [= -> -> <-]. apply boot_inv_set; [by apply boot_inv_weaken| |naive_solver|done|done].
    intros ->. pose proof (initialize_pids _ _ _ _ _ _ Ei (bi_pids _ _ Hinv)) as [? _]. done.
Qed.

Lemma after_report_outcome bt ret bt' ph :
  after_report bt ret = (bt', ph) -> bt_completed bt' = bt_completed bt /\ ph <> PStart /\ ph <> PReport /\ ph <> PEnded UNIFYFS_SUCCESS.
Proof using.
  unfold after_report, end_bootstrap. destruct (Z.eqb_spec ret UNIFYFS_SUCCESS); simpl; intros [= <- <-]; split_and!; (done || congruence).
Qed.

(** What a server does after its report has been recorded, or lost. *)
Lemma inv_after_report j r m ret bt' ph :
  boot_inv (Some r) j -> 0 < r < size -> after_report (jb_boot j r) ret = (bt', ph) ->
  boot_inv None (set_server_at r m bt' ph j).
Proof using.
  intros Hinv Hr (Hc & H1 & H2 & H3)%after_report_outcome.
  apply boot_inv_set; [done|lia|naive_solver| |done]. rewrite Hc. apply (bi_completed _ _ Hinv r).
Qed.

Lemma inv_recorded j r input env m bt rc :
  boot_inv None j -> 0 < r < size -> jb_phase j r = PReport ->
  server_pid_rpc size timeout input env (jb_mem j 0) 0 (jb_boot j 0) r (pid r) = LRet (m, bt, rc) ->
  boot_inv (Some r) (set_server_at 0 m bt (jb_phase j 0) (if rc =? UNIFYFS_SUCCESS then set_reported r j else j)).
Proof using Hsize.
  intros Hinv Hr Hp. pose proof (bi_not_yet _ _ Hinv r ltac:(done) (or_intror Hp)) as Hf.
  assert (Hkeep : forall m bt, bt_n_reported bt = bt_n_reported (jb_boot j 0) -> bt_completed bt = bt_completed (jb_boot j 0) -> pids_ok bt ->
    (forall l, bt_pids (jb_boot j 0) = Some l -> bt_pids bt = Some l) -> boot_inv (Some r) (set_server_at 0 m bt (jb_phase j 0) j)).
  { intros m0 bt0 Hn0 Hc0 Hok0 Hp0. apply boot_inv_weaken, boot_inv_set; [by apply boot_inv_weaken| | | |].
    - intros _. split_and!; try done.
      + intros He x Hx. destruct (bi_hold _ _ Hinv He x Hx) as (l & Hl & ?). exists l. auto.
      + intros Hb. rewrite Hc0. by apply (bi_broadcast _ _ Hinv).
    - apply (bi_not_yet _ _ Hinv). done.
    - rewrite Hc0. apply (bi_completed _ _ Hinv 0).
    - apply (bi_ended _ _ Hinv). }
  unfold server_pid_rpc. destruct input; cbn [negb].
  - unfold unifyfs_report_server_pid. destruct (_ || _); [done|].
    destruct (initialize_bootstrap_state _ _ _ _ _ _) as [[m1 bt1] rc1] eqn:Ei.
    pose proof (initialize_frame _ _ _ _ _ _ _ Ei) as [Hn Hc].
    pose proof (initialize_pids _ _ _ _ _ _ Ei (bi_pids _ _ Hinv)) as (Hok & _ & Hpp).
    destruct (Z.eqb_spec rc1 UNIFYFS_SUCCESS) as [->|Hrc]; cbn [negb].
    + destruct (record_pid _ _ _) as [bt2| |] eqn:Er; [|done|done]. intros [= -> -> <-].
      eapply record_report in Ei as (H1 & H2 & H3 & H4); [|done|lia|apply Hinv|done|apply Hinv|apply Hinv].
      apply boot_inv_report; try done; [lia|by left].
    + intros [= -> -> ->]. rewrite (proj2 (Z.eqb_neq rc _)); [done|]. by apply Hkeep.
  - intros [= <- <- <-]. apply Hkeep; try done. apply Hinv.
Qed.

Lemma inv_wait j r w bt' ph :
  boot_inv None j -> 0 <= r < size -> jb_phase j r = PWaiting ->
  after_wait size r (wait_for_bootstrap_condition w) (jb_boot j r) = (bt', ph) -> boot_inv None (set_server_at r (jb_mem j r) bt' ph j).
Proof using Hsize.
  intros Hinv Hr Hp. unfold after_wait, end_bootstrap.
  pose proof (bi_completed _ _ Hinv r) as Hc.
  destruct (Z.gtb_spec r 0) as [Hpos|Hz].
  - destruct (bt_completed _) eqn:Ec; simpl.
    + intros [= <- <-]. apply boot_inv_set; [by apply boot_inv_weaken|lia|naive_solver| |]; intros _; by apply Hc.
    + destruct w; intros [= <- <-]; (apply boot_inv_set; [by apply boot_inv_weaken|lia|naive_solver|simpl; congruence|done]).
  - assert (r = 0) as -> by lia. pose proof (bi_hold _ _ Hinv) as Hh. rewrite Hp in Hh. specialize (Hh eq_refl).
    pose proof (count_true_le (jb_reported j) all) as Hle. rewrite -(bi_count _ _ Hinv) in Hle.
    assert (Hlen : Z.of_nat (length all) = size) by (unfold all; rewrite length_seqZ; lia).
    destruct (_ && _) eqn:Eb.
    + intros [= <- <-]. apply boot_inv_set; [by apply boot_inv_weaken| |naive_solver|done|done].
      intros _. split_and!; try done. apply Hinv.
    + destruct (Z.eqb_spec (bt_n_reported (jb_boot j 0)) size) as [En|Hne]; intros [= <- <-].
      * assert (Ha : all_reported j).
        { intros x Hx. apply (count_true_all _ all); [rewrite -(bi_count _ _ Hinv); lia|by apply elem_of_seqZ]. }
        apply boot_inv_set; [by apply boot_inv_weaken| |naive_solver|done|done].
        intros _. split_and!; try done. apply Hinv.
      * apply boot_inv_set; [by apply boot_inv_weaken| |naive_solver|done|].
        -- intros _. split_and!; [done|apply free_pids_ok|done|done].
        -- apply andb_false_iff in Eb. destruct w; intros [=]; destruct Eb as [Eb|[=]]; lia.
Qed.

Lemma inv_signal j r bt rc :
  boot_inv None j -> 0 < r < size -> bt_completed (jb_boot j 0) = true ->
  unifyfs_signal_bootstrap_complete r (jb_boot j r) = LRet (bt, rc) -> boot_inv None (set_server_at r (jb_mem j r) bt (jb_phase j r) j).
Proof using Hsize.
  intros Hinv Hr Hc. unfold unifyfs_signal_bootstrap_complete. destruct (r =? 0); [done|]. intros [= <- <-].
  pose proof (bi_completed _ _ Hinv 0 Hc) as Ha.
  apply boot_inv_set; [by apply boot_inv_weaken|lia| |done|done]. by apply (bi_not_yet _ _ Hinv).
Qed.

Lemma pid_lines rep l :
  (forall r, 0 <= r < size -> rep r = true) -> Z.of_nat (length l) = size -> (forall r, rep r = true -> l !! Z.to_nat r = Some (pid r)) ->
  zip all l = (fun r => (r, pid r)) <$> all.
Proof using Hsize.
  intros Ha Hl Hh. apply list_eq. intros i. unfold all. rewrite list_lookup_fmap lookup_zip_with.
  destruct (decide (Z.of_nat i < size)) as [Hi|Hi].
  - rewrite lookup_seqZ_lt; [lia|]. simpl. assert (0 <= Z.of_nat i < size) as Hir by lia.
    pose proof (Hh _ (Ha _ Hir)) as E. rewrite Nat2Z.id in E. by rewrite E Z.add_0_l.
  - rewrite lookup_seqZ_ge; [lia|]. done.
Qed.

Lemma inv_broadcast j fopen ret file bt' ph :
  boot_inv None j -> jb_phase j 0 = PBroadcast -> after_broadcast size fopen ret (jb_boot j 0) = (file, (bt', ph)) ->
  boot_inv None (set_file file (set_server_at 0 (jb_mem j 0) bt' ph j)).
Proof using Hsize.
  intros Hinv Hp Hb. pose proof (bi_broadcast _ _ Hinv Hp) as Hc. pose proof (bi_completed _ _ Hinv 0 Hc) as Ha.
  pose proof (bi_hold _ _ Hinv) as Hh. rewrite Hp in Hh. specialize (Hh eq_refl).
  assert (bt' = free_bootstrap_state (jb_boot j 0) /\ (exists e, ph = PEnded e) /\
    forall lines, file = Some lines -> lines = (fun r => (r, pid r)) <$> all) as (-> & [e ->] & Hl).
  { revert Hb. unfold after_broadcast, end_bootstrap, create_server_pid_file.
    destruct (negb _); [intros [= <- <- <-]; naive_solver|]. destruct (bt_pids _) as [l|] eqn:El; [|intros [= <- <- <-]; naive_solver].
    destruct fopen as [err|]; intros [= <- <- <-]; (split_and!; [done|by eexists|]); [done|]. intros lines [= <-].
    destruct (bi_pids _ _ Hinv l El) as (_ & _ & _ & Hlen). eapply pid_lines; [done|done|]. intros r Hr.
    destruct (Hh r Hr) as (l' & El' & ?). congruence. }
  assert (boot_inv None (set_server_at 0 (jb_mem j 0) (free_bootstrap_state (jb_boot j 0)) (PEnded e) j)) as [].
  { apply boot_inv_set; [by apply boot_inv_weaken| |naive_solver|done|done].
    intros _. split_and!; [done|apply free_pids_ok|done|done]. }
  split; done.
Qed.

Lemma boot_inv_step j j' : boot_inv None j -> boot_step size timeout pid j j' -> boot_inv None j'.
Proof using Hsize.
  intros Hinv []; eauto using inv_begin, inv_wait, inv_signal, inv_broadcast.
  - eapply inv_after_report; [by eapply inv_recorded|done|]. simpl. rewrite fn_lookup_insert_ne; [lia|].
    case_match; done.
  - eapply inv_after_report; [by apply boot_inv_weaken|done|done].
Qed.

Lemma boot_inv_reach j : job_reach size timeout pid j -> boot_inv None j.
Proof using Hsize.
  intros [mems H]. pose proof (boot_inv_init mems) as Hi. revert Hi. induction H; eauto using boot_inv_step.
Qed.
End Safety.

(** ** A start-up that completes *)

Section Completes.
Context (size : Z) (pid : Z -> Z) (Hsize : 0 < size) (mems : Z -> mem) (Hmem : mem_fail (mems 0) = []).

Let reach := rtc (boot_step size UNIFYFS_SUCCESS pid) (job_init mems).

Lemma reach_step j j' : reach j -> boot_step size UNIFYFS_SUCCESS pid j j' -> reach j'.
Proof using. intros. by eapply rtc_r. Qed.

Lemma completes_inv j : reach j -> boot_inv size UNIFYFS_SUCCESS pid None j.
Proof using Hsize. intros H. apply boot_inv_reach; [done|]. by exists mems. Qed.

(** The servers below [k] wait, the others have not started. *)
Definition reported_to (k : Z) (j : job) : Prop :=
  reach j /\ (forall r, 0 <= r < k -> jb_phase j r = PWaiting /\ jb_reported j r = true) /\
  (forall r, k <= r -> jb_phase j r = PStart /\ jb_boot j r = boot_new).

Lemma first_reports : exists j, reported_to 1 j.
Proof using Hsize Hmem.
  eexists. split_and!.
  - eapply reach_step; [apply rtc_refl|]. eapply (step_begin _ _ _ _ 0 (BootEnv true true)); [lia|done|].
    unfold begin_bootstrap, initialize_bootstrap_state. simpl. unfold calloc. rewrite Hmem. simpl.
    unfold record_pid. simpl. rewrite length_replicate. rewrite (proj2 (Z.leb_gt _ _)); [lia|]. done.
  - intros r Hr. assert (r = 0) as -> by lia. simpl. by rewrite !fn_lookup_insert.
  - intros r Hr. simpl. rewrite !fn_lookup_insert_ne; [lia|lia|done].
Qed.

(** Rank 0 can record a report once it waits. *)
Lemma waiting_records j r env :
  reach j -> jb_phase j 0 = PWaiting -> jb_reported j 0 = true -> 0 < r < size ->
  exists bt, server_pid_rpc size UNIFYFS_SUCCESS true env (jb_mem j 0) 0 (jb_boot j 0) r (pid r) = LRet (jb_mem j 0, bt, UNIFYFS_SUCCESS).
Proof using Hsize.
  intros Hj%completes_inv Hp Hr0 Hr. destruct (bi_hold _ _ _ _ _ Hj) with 0 as (l & El & _); [by rewrite Hp|done|].
  destruct (bi_pids _ _ _ _ _ Hj l El) as (Hm & Hc & _ & Hl).
  unfold server_pid_rpc, unifyfs_report_server_pid, initialize_bootstrap_state. rewrite Hm Hc El. simpl.
  rewrite (proj2 (Z.ltb_lt _ _)); [lia|]. simpl. unfold record_pid. simpl.
  rewrite (proj2 (Z.ltb_ge _ _)); [lia|]. rewrite (proj2 (Z.leb_gt _ _)); [lia|]. simpl. by eexists.
Qed.

Lemma next_reports k j : 0 < k < size -> reported_to k j -> exists j', reported_to (k + 1) j'.
Proof using Hsize.
  intros Hk (Hj & Hw & Hs). destruct (Hs k) as [Hp Hb]; [lia|]. destruct (Hw 0) as [Hp0 Hr0]; [lia|].
  set (env := BootEnv true true). set (bt1 := Boot true true 0 false None).
  assert (reach (set_server_at k (jb_mem j k) bt1 PReport j)) as Hj1.
  { eapply reach_step; [done|]. apply (step_begin _ _ _ _ k env _ _ PReport); [lia|done|].
    unfold begin_bootstrap, initialize_bootstrap_state. rewrite Hb. simpl.
    rewrite (proj2 (Z.eqb_neq k 0)); [lia|]. simpl. rewrite Z.gtb_ltb (proj2 (Z.ltb_lt 0 k)); [lia|]. done. }
  destruct (waiting_records _ k env Hj1) as [bt2 E]; [|done|lia|].
  { simpl. rewrite fn_lookup_insert_ne; [lia|done]. }
  eexists. split_and!.
  - eapply reach_step; [apply Hj1|]. eapply (step_report _ _ _ _ k (PidEnv 0 0 0 true) true env _ bt2 UNIFYFS_SUCCESS bt1 PWaiting).
    + lia.
    + simpl. by rewrite fn_lookup_insert.
    + done.
    + apply E.
    + simpl. by rewrite fn_lookup_insert.
  - intros r Hr. simpl. destruct (decide (r = k)) as [->|]; [by rewrite !fn_lookup_insert|].
    destruct (Hw r) as [Hpr Hrr]; [lia|]. split; [|rewrite fn_lookup_insert_ne; [done|done]].
    rewrite fn_lookup_insert_ne; [done|]. destruct (decide (r = 0)) as [->|]; [rewrite fn_lookup_insert|];
      rewrite !fn_lookup_insert_ne; done.
  - intros r Hr. simpl. rewrite !fn_lookup_insert_ne; try lia. apply Hs. lia.
Qed.

Lemma all_report : exists j, reported_to size j.
Proof using Hsize Hmem.
  assert (forall n, 1 + Z.of_nat n <= size -> exists j, reported_to (1 + Z.of_nat n) j) as H.
  { induction n as [|n IH]; intros Hn; [apply first_reports|]. destruct IH as [j Hj]; [lia|].
    destruct (next_reports (1 + Z.of_nat n) j) as [j' Hj']; [lia|done|]. exists j'. by replace (1 + Z.of_nat (S n)) with (1 + Z.of_nat n + 1) by lia. }
  specialize (H (Z.to_nat (size - 1))). replace (1 + Z.of_nat (Z.to_nat (size - 1))) with size in H by lia. apply H. lia.
Qed.

(** Rank 0 broadcasts, the servers below [k] have returned. *)
Definition told_to (k : Z) (j : job) : Prop :=
  reach j /\ jb_phase j 0 = PBroadcast /\ (forall r, 0 < r < k -> jb_phase j r = PEnded UNIFYFS_SUCCESS) /\
  (forall r, k <= r < size -> jb_phase j r = PWaiting).

Lemma broadcast_starts : exists j, told_to 1 j.
Proof using Hsize Hmem.
  destruct all_report as (j & Hj & Hw & _). pose proof (completes_inv j Hj) as Hi.
  assert (bt_n_reported (jb_boot j 0) = size) as Hn.
  { rewrite (bi_count _ _ _ _ _ Hi) count_true_full; [|rewrite length_seqZ; lia].
    intros r Hr%elem_of_seqZ. apply Hw. lia. }
  eexists. split_and!.
  - eapply reach_step; [apply Hj|]. apply (step_wait _ _ _ _ 0 CondSignalled (set_completed (jb_boot j 0)) PBroadcast).
    + lia.
    + apply Hw. lia.
    + unfold after_wait. simpl. rewrite Hn Z.ltb_irrefl Z.eqb_refl. done.
  - simpl. by rewrite fn_lookup_insert.
  - lia.
  - intros r Hr. simpl. rewrite fn_lookup_insert_ne; [lia|]. apply Hw. lia.
Qed.

Lemma next_told k j : 0 < k < size -> told_to k j -> exists j', told_to (k + 1) j'.
Proof using Hsize.
  intros Hk (Hj & Hp0 & He & Hw). pose proof (bi_broadcast _ _ _ _ _ (completes_inv j Hj) Hp0) as Hc.
  assert (reach (set_server_at k (jb_mem j k) (set_completed (jb_boot j k)) (jb_phase j k) j)) as Hj1.
  { eapply reach_step; [done|]. apply (step_signal _ _ _ _ k _ UNIFYFS_SUCCESS); [lia|done|].
    unfold unifyfs_signal_bootstrap_complete. by rewrite (proj2 (Z.eqb_neq k 0)); [lia|]. }
  eexists. split_and!.
  - eapply reach_step; [apply Hj1|]. eapply (step_wait _ _ _ _ k CondSignalled _ (PEnded UNIFYFS_SUCCESS)).
    + lia.
    + simpl. rewrite fn_lookup_insert. apply Hw. lia.
    + simpl. rewrite fn_lookup_insert. unfold after_wait. rewrite Z.gtb_ltb (proj2 (Z.ltb_lt 0 k)); [lia|]. done.
  - simpl. rewrite !fn_lookup_insert_ne; [lia|lia|done].
  - intros r Hr. simpl. destruct (decide (r = k)) as [->|]; [by rewrite fn_lookup_insert|].
    rewrite !fn_lookup_insert_ne; [done|done|]. apply He. lia.
  - intros r Hr. simpl. rewrite !fn_lookup_insert_ne; [lia|lia|]. apply Hw. lia.
Qed.

Lemma all_told : exists j, told_to size j.
Proof using Hsize Hmem.
  assert (forall n, 1 + Z.of_nat n <= size -> exists j, told_to (1 + Z.of_nat n) j) as H.
  { induction n as [|n IH]; intros Hn; [apply broadcast_starts|]. destruct IH as [j Hj]; [lia|].
    destruct (next_told (1 + Z.of_nat n) j) as [j' Hj']; [lia|done|]. exists j'. by replace (1 + Z.of_nat (S n)) with (1 + Z.of_nat n + 1) by lia. }
  specialize (H (Z.to_nat (size - 1))). replace (1 + Z.of_nat (Z.to_nat (size - 1))) with size in H by lia. apply H. lia.
Qed.

(** The start-up can complete for any number of servers: every server returns
    with success and the file is written. *)
Lemma bootstrap_completes :
  exists j, rtc (boot_step size UNIFYFS_SUCCESS pid) (job_init mems) j /\
    (forall r, 0 <= r < size -> jb_phase j r = PEnded UNIFYFS_SUCCESS) /\ is_Some (jb_file j).
Proof using Hsize Hmem.
  destruct all_told as (j & Hj & Hp0 & He & _). pose proof (completes_inv j Hj) as Hi.
  assert (exists l, bt_pids (jb_boot j 0) = Some l) as [l El].
  { destruct (bi_hold _ _ _ _ _ Hi) with 0 as (l & El & _); [by rewrite Hp0| |by exists l].
    apply (bi_completed _ _ _ _ _ Hi 0); [by apply Hi|lia]. }
  eexists. split_and!.
  - eapply reach_step; [apply Hj|]. eapply (step_broadcast _ _ _ _ None UNIFYFS_SUCCESS); [done|].
    unfold after_broadcast, create_server_pid_file. rewrite El. done.
  - intros r Hr. simpl. destruct (decide (r = 0)) as [->|]; [by rewrite fn_lookup_insert|].
    rewrite fn_lookup_insert_ne; [done|]. apply He. lia.
  - simpl. by eexists.
Qed.
End Completes.

(** C28. In every run of the start-up, with requests and answers lost, waits that
    time out and calls that fail in any order: once some server has the flag
    that the start-up is complete, or has returned with success, every server's
    report has been recorded by rank 0; and when the file of the process ids
    has been written, it lists the process id of every server of the job. *)
Theorem bootstrap_safe size timeout pid j :
  0 < size -> job_reach size timeout pid j ->
  (forall r, bt_completed (jb_boot j r) = true \/ jb_phase j r = PEnded UNIFYFS_SUCCESS -> forall r', 0 <= r' < size -> jb_reported j r' = true) /\
  (forall lines, jb_file j = Some lines -> lines = (fun r => (r, pid r)) <$> seqZ 0 size).
Proof.
  intros Hs Hr. destruct (boot_inv_reach size timeout pid Hs j Hr) as [_ _ _ _ _ Hc _ He Hf].
  split; [|done]. intros r [H|H]; [by apply (Hc r)|by apply (He r)].
Qed.

Lemma bootstrap_safe_witness :
  exists j, job_reach 3 UNIFYFS_SUCCESS (fun r => 100 + r) j /\ jb_reported j 2 = true /\ jb_file j = Some [(0, 100); (1, 101); (2, 102)].
Proof.
  destruct (bootstrap_completes 3 (fun r => 100 + r) ltac:(lia) (fun _ => Mem 1 []) eq_refl) as (j & Hj & He & [lines Hf]).
  assert (job_reach 3 UNIFYFS_SUCCESS (fun r => 100 + r) j) as Hr by (eexists; exact Hj).
  destruct (bootstrap_safe 3 UNIFYFS_SUCCESS (fun r => 100 + r) j ltac:(lia) Hr) as [H1 H2].
  exists j. split_and!; [done| |].
  - apply (H1 0); [right; apply He; lia|lia].
  - rewrite Hf (H2 lines Hf). reflexivity.
Defined.

(** ** Edges *)

(** Reports are counted, not the servers that made them: with a report that
    comes twice, rank 0
    leaves the loop before the last server has reported, the broadcast and the
    file go out with a process id of zero. *)
Example duplicate_report_counted :
  let env := BootEnv true true in
  exists m1 bt1 m2 bt2 m3 bt3,
    begin_bootstrap 3 0 env (Mem 1 []) 0 100 boot_new = LRet (m1, bt1, PWaiting) /\
    unifyfs_report_server_pid 3 0 env m1 0 bt1 1 101 = LRet (m2, bt2, UNIFYFS_SUCCESS) /\
    unifyfs_report_server_pid 3 0 env m2 0 bt2 1 101 = LRet (m3, bt3, UNIFYFS_SUCCESS) /\
    after_wait 3 0 UNIFYFS_SUCCESS bt3 = (set_completed bt3, PBroadcast) /\
    create_server_pid_file 3 None bt3 = inr [(0, 100); (1, 101); (2, 0)].
Proof. by do 6 eexists. Qed.

(** With one more report than servers, rank 0 returns with success but neither
    broadcasts nor writes the file, and the others wait until they time out. *)
Example surplus_report_ends_alone bt :
  after_wait 3 0 UNIFYFS_SUCCESS (Boot true true 4 false bt) = (Boot false false 4 false None, PEnded UNIFYFS_SUCCESS).
Proof. done. Qed.

(** A server that is told while its wait times out returns the time-out,
    although the start-up is complete. *)
Example told_but_timed_out :
  after_wait 3 1 UNIFYFS_ERROR_TIMEOUT (Boot true true 0 true None) = (Boot false false 0 true None, PEnded UNIFYFS_ERROR_TIMEOUT).
Proof. done. Qed.

(** An error of the initialisation is always reported as an error of Margo,
    lack of memory too. *)
Example initialisation_error_renamed :
  begin_bootstrap 3 0 (BootEnv true true) (Mem 1 [true]) 0 100 boot_new = LRet (Mem 1 [], boot_new, PEnded UNIFYFS_ERROR_MARGO).
Proof. done. Qed.
