(* ===== verification/ClientCalls.v ===== *)
(** * The calls of a client on its server

    Both ends of the remote procedure calls of clients
    ([client/src/margo_client.c], [server/src/unifyfs_client_rpc.c]) and the
    queue between the handlers and the thread of the request manager
    ([server/src/unifyfs_request_manager.c]).  A handler reads the input of a
    call, makes a request of it and queues it for the request manager of the
    client, which answers the call when it has processed the request; when the
    request cannot be queued the handler answers itself, with an error.

    What the network does is an argument: whether a call gets through, whether
    its input, its bulk data and its answer can be read.  An array that is sent
    as bulk data is a list. *)

From Stdlib Require Import String.
From S2P Require Import Prelude.
From S2P Require Import LogIO.
From S2P Require Import Extents.
From S2P Require Import ExtentTree.
From S2P Require Import ArrayList.
From S2P Require Import Meta.
From S2P Require Import AppTable.
From S2P Require Import InodeTree.
From S2P Require Import Inode.
From S2P Require Import ClientRead.
From S2P Require Import Rpc.
From S2P Require Import ServiceMgr.

Definition UNIFYFS_STAT_DEFAULT_DIR_MODE : Z := 16877.   (* S_IFDIR | 0755 *)
Definition UNIFYFS_CLIENT_MAX_ACTIVE_REQUESTS : Z := 256.
Definition UNIFYFS_CLIENT_MAX_FILES : Z := 128.

(** The conversion to [int32_t]. *)
Definition i32 (z : Z) : Z := (z + 2147483648) mod 4294967296 - 2147483648.

(** ** Inputs and outputs ([unifyfs_client_rpcs.h]) *)

Inductive client_rpc_e :=
| UNIFYFS_CLIENT_RPC_ATTACH
| UNIFYFS_CLIENT_RPC_FILESIZE
| UNIFYFS_CLIENT_RPC_GET_GFIDS
| UNIFYFS_CLIENT_RPC_LAMINATE
| UNIFYFS_CLIENT_RPC_METAGET
| UNIFYFS_CLIENT_RPC_METASET
| UNIFYFS_CLIENT_RPC_READ
| UNIFYFS_CLIENT_RPC_SYNC
| UNIFYFS_CLIENT_RPC_TRANSFER
| UNIFYFS_CLIENT_RPC_TRUNCATE
| UNIFYFS_CLIENT_RPC_UNLINK
| UNIFYFS_CLIENT_RPC_NODE_LOCAL_EXTENTS_GET.

#[export] Instance client_rpc_e_eq_dec : EqDecision client_rpc_e.
Proof. solve_decision. Defined.

Record attach_in := AttachIn {
  ai_shmem_super_size : Z;
  ai_meta_offset : Z;
  ai_meta_size : Z;
  ai_logio_mem_size : Z;
  ai_logio_spill_size : Z;
  ai_logio_spill_dir : option string;
}.

(** The fields of the input structures other than the ids of the client. *)
Inductive client_in :=
| InAttach (a : attach_in)
| InFilesize (gfid : Z)
| InGetGfids
| InLaminate (gfid : Z)
| InMetaget (gfid : Z)
| InMetaset (attr_op : Z) (attr : unifyfs_file_attr_t)
| InRead (mread_id read_count : Z) (bulk_extents : list unifyfs_extent_t)
| InSync (gfid : Z)
| InTransfer (transfer_id gfid mode : Z) (dst_file : string)
| InTruncate (gfid filesize : Z)
| InUnlink (gfid : Z)
| InExtentsGet (num_req : Z) (bulk_data : list unifyfs_extent_t).

Record client_call := ClientCall {
  ca_app_id : Z;
  ca_client_id : Z;
  ca_in : client_in;
}.

(** The fields of the output structures. *)
Record client_resp := ClientResp {
  rp_ret : Z;
  rp_attr : unifyfs_file_attr_t;
  rp_filesize : Z;
  rp_gfids : list Z;
  rp_extents : list client_index;
}.

(** The fields a response does not set are zero; those of the listing are not
    set at all, but no caller reads them after an error. *)
Definition resp_of_ret (ret : Z) : client_resp := ClientResp (i32 ret) (FileAttr None 0 0 0 0 0 0 0 (Timespec 0 0) (Timespec 0 0) (Timespec 0 0) 0) 0 [] [].

(** ** The client ([margo_client.c]) *)

(** The ids of the client. *)
Record client_ids := ClientIds {
  id_app : Z;
  id_client : Z;
}.

(** Whether there is a context, a call gets to the server and back within its
    time, its output can be read, and bulk data can be made available and be
    pulled. *)
Record rpc_net := RpcNet {
  rn_context : bool;
  rn_forward : bool;
  rn_output : bool;
  rn_bulk : bool;
  rn_pull : bool;
}.

Definition forward_to_server (net : rpc_net) : Z := if rn_forward net then UNIFYFS_SUCCESS else UNIFYFS_ERROR_MARGO.

(** The part that all calls share: [ok] is what a successful response sets,
    [old] what was there. *)
Definition invoke_rpc {A} (net : rpc_net) (out : client_resp) (ok : client_resp -> A) (old : A) : Z * A :=
  if negb (rn_context net) then (UNIFYFS_FAILURE, old)
  else
    let rc := forward_to_server net in
    if negb (rc =? UNIFYFS_SUCCESS) then (rc, old)
    else if negb (rn_output net) then (UNIFYFS_ERROR_MARGO, old)
    else (rp_ret out, if rp_ret out =? UNIFYFS_SUCCESS then ok out else old).

Definition make_call (cl : client_ids) (i : client_in) : client_call := ClientCall (i32 (id_app cl)) (i32 (id_client cl)) i.

Section Invoke.
(** [server]: the response of the server to a call. *)
Context (net : rpc_net) (cl : client_ids) (server : client_call -> client_resp).

Definition invoke_ret (i : client_in) : Z := (invoke_rpc net (server (make_call cl i)) (fun _ => tt) tt).1.

(** [shm_super_size], [index_offset] and [index_size]: the superblock and the
    write index of the client. *)
Definition fill_client_attach_info (shm_super_size index_offset index_size : Z) (mem_size : option Z) (spill_size : Z) (spill_dir : string) : attach_in :=
  AttachIn shm_super_size index_offset index_size (default 0 mem_size) spill_size (if spill_size =? 0 then None else Some spill_dir).

Definition invoke_client_attach_rpc (a : attach_in) : Z := invoke_ret (InAttach a).
Definition invoke_client_metaset_rpc (attr_op : Z) (f_meta : unifyfs_file_attr_t) : Z := invoke_ret (InMetaset (i32 attr_op) f_meta).
Definition invoke_client_transfer_rpc (transfer_id gfid parallel_transfer : Z) (dest_file : string) : Z :=
  invoke_ret (InTransfer (i32 transfer_id) (i32 gfid) (i32 parallel_transfer) dest_file).
Definition invoke_client_truncate_rpc (gfid filesize : Z) : Z := invoke_ret (InTruncate (i32 gfid) filesize).
Definition invoke_client_unlink_rpc (gfid : Z) : Z := invoke_ret (InUnlink (i32 gfid)).
Definition invoke_client_laminate_rpc (gfid : Z) : Z := invoke_ret (InLaminate (i32 gfid)).
Definition invoke_client_sync_rpc (gfid : Z) : Z := invoke_ret (InSync (i32 gfid)).

(** The filename is copied; without memory it is null. *)
Definition invoke_client_metaget_rpc (m : mem) (gfid : Z) (file_meta : unifyfs_file_attr_t) : mem * (Z * unifyfs_file_attr_t) :=
  let out := server (make_call cl (InMetaget (i32 gfid))) in
  let '(ret, (m, meta)) :=
    invoke_rpc net out (fun out =>
      match fa_filename (rp_attr out) with
      | None => (m, rp_attr out)
      | Some _ => let '(p, m) := calloc m in (m, match p with Some _ => rp_attr out | None => attr_set_filename None (rp_attr out) end)
      end) (m, file_meta) in
  (m, (ret, meta)).

Definition invoke_client_filesize_rpc (gfid outsize : Z) : Z * Z :=
  invoke_rpc net (server (make_call cl (InFilesize (i32 gfid)))) rp_filesize outsize.

Definition invoke_client_mread_rpc (reqid read_count : Z) (extents : list unifyfs_extent_t) : Z :=
  if negb (rn_context net) then UNIFYFS_FAILURE
  else if negb (rn_bulk net) then UNIFYFS_ERROR_MARGO
  else invoke_ret (InRead (i32 reqid) (i32 read_count) extents).

(** The array of requests is made of the list [read_req], which has at least
    [num_req] entries; the array that is pulled is null when that fails, with a
    count that is not zero. *)
Definition invoke_client_node_local_extents_get_rpc (m : mem) (num_req : Z) (read_req : list client_index) (extent_count : Z) (extents : option (list client_index))
    : mem * (Z * (Z * option (list client_index))) :=
  if negb (rn_context net) then (m, (UNIFYFS_FAILURE, (extent_count, extents)))
  else
    let '(buffer, m) := calloc m in
    match buffer with
    | None => (m, (ENOMEM, (extent_count, extents)))
    | Some _ =>
        if negb (rn_bulk net) then (m, (UNIFYFS_ERROR_MARGO, (extent_count, extents)))
        else
          let reqs := (fun r => UnifyfsExtent (xi_file_pos r) (xi_length r) (xi_gfid r)) <$> take (Z.to_nat num_req) read_req in
          (m, invoke_rpc net (server (make_call cl (InExtentsGet num_req reqs)))
                (fun out => (Z.of_nat (length (rp_extents out)), if rn_pull net then Some (rp_extents out) else None)) (extent_count, extents))
    end.

(** The count is set before the list is pulled. *)
Definition invoke_client_get_gfids_rpc (num_gfids : Z) (gfid_list : option (list Z)) : Z * (Z * option (list Z)) :=
  let '(ret, n) := invoke_rpc net (server (make_call cl InGetGfids)) (fun out => Some (rp_gfids out)) None in
  match n with
  | None => (ret, (num_gfids, gfid_list))
  | Some l =>
      if negb (rn_bulk net && rn_pull net) then (UNIFYFS_ERROR_MARGO, (Z.of_nat (length l), gfid_list))
      else (UNIFYFS_SUCCESS, (Z.of_nat (length l), Some l))
  end.
End Invoke.

(** ** The queue of the request manager *)

(** [handle]: the call to respond to; the server itself queues a request
    without one. *)
Record client_rpc_req_t := ClientReq {
  crq_type : client_rpc_e;
  crq_handle : option nat;
  crq_input : option client_in;
  crq_bulk : option (list unifyfs_extent_t);
}.

(** The request managers by application and client; the list of a request
    manager is null after an allocation that failed. *)
Record rm_state := RmState {
  rs_mem : mem;
  rs_apps : app_table;
  rs_reqs : gmap (Z * Z) (option (arraylist_t client_rpc_req_t));
}.

Definition rs_set_mem (m : mem) (st : rm_state) : rm_state := RmState m (rs_apps st) (rs_reqs st).
Definition rs_set_apps (apps : app_table) (st : rm_state) : rm_state := RmState (rs_mem st) apps (rs_reqs st).
Definition rs_set_queue (key : Z * Z) (l : option (arraylist_t client_rpc_req_t)) (st : rm_state) : rm_state :=
  RmState (rs_mem st) (rs_apps st) (<[key := l]> (rs_reqs st)).

(** A client without a request manager fails an assertion.  The result of
    [arraylist_add] is not looked at. *)
Definition rm_submit_client_rpc_request (st : rm_state) (app_id client_id : Z) (req : client_rpc_req_t) : lres (rm_state * Z) :=
  match get_app_client (rs_apps st) app_id client_id with
  | None => LRet (st, EINVAL)
  | Some _ =>
      match rs_reqs st !! (app_id, client_id) with
      | None => LFault
      | Some None => LRet (st, UNIFYFS_SUCCESS)
      | Some (Some l) =>
          let! '(m, l, _, _) := lift_option (arraylist_add (rs_mem st) l (Some req)) in
          LRet (rs_set_queue (app_id, client_id) (Some l) (rs_set_mem m st), UNIFYFS_SUCCESS)
      end
  end.

(** ** The handlers ([unifyfs_client_rpc.c]) *)

(** Whether the input can be read, and the bulk data be pulled. *)
Record call_env := CallEnv {
  ce_input : bool;
  ce_pull : bool;
}.

(** The part that the handlers share, for a request of type [t]: [input] is
    what the request keeps of the input, [bulk] the array to pull, if any.  The
    result is the response, when the handler responds itself. *)
Definition queue_request (t : client_rpc_e) (env : call_env) (st : rm_state) (handle : nat) (app_id client_id : Z) (input : option client_in)
    (bulk : option (list unifyfs_extent_t)) : lres (rm_state * option client_resp) :=
  let '(in_, m) := calloc (rs_mem st) in
  let st := rs_set_mem m st in
  match in_ with
  | None => LRet (st, Some (resp_of_ret ENOMEM))
  | Some _ =>
      if negb (ce_input env) then LRet (st, Some (resp_of_ret UNIFYFS_ERROR_MARGO))
      else if (if bulk is Some _ then negb (ce_pull env) else false) then LRet (st, Some (resp_of_ret UNIFYFS_ERROR_MARGO))
      else
        let '(req, m) := calloc (rs_mem st) in
        let st := rs_set_mem m st in
        match req with
        | None => LRet (st, Some (resp_of_ret ENOMEM))
        | Some _ =>
            let! '(st, ret) := rm_submit_client_rpc_request st app_id client_id (ClientReq t (Some handle) input bulk) in
            LRet (st, if negb (ret =? UNIFYFS_SUCCESS) then Some (resp_of_ret ret) else None)
        end
  end.

(** A handler of a call without bulk data. *)
Definition queue_call (t : client_rpc_e) (env : call_env) (st : rm_state) (handle : nat) (c : client_call) : lres (rm_state * option client_resp) :=
  queue_request t env st handle (ca_app_id c) (ca_client_id c) (Some (ca_in c)) None.

Definition unifyfs_attach_rpc := queue_call UNIFYFS_CLIENT_RPC_ATTACH.
Definition unifyfs_metaget_rpc := queue_call UNIFYFS_CLIENT_RPC_METAGET.
Definition unifyfs_metaset_rpc := queue_call UNIFYFS_CLIENT_RPC_METASET.
Definition unifyfs_fsync_rpc := queue_call UNIFYFS_CLIENT_RPC_SYNC.
Definition unifyfs_filesize_rpc := queue_call UNIFYFS_CLIENT_RPC_FILESIZE.
Definition unifyfs_transfer_rpc := queue_call UNIFYFS_CLIENT_RPC_TRANSFER.
Definition unifyfs_truncate_rpc := queue_call UNIFYFS_CLIENT_RPC_TRUNCATE.
Definition unifyfs_unlink_rpc := queue_call UNIFYFS_CLIENT_RPC_UNLINK.
Definition unifyfs_laminate_rpc := queue_call UNIFYFS_CLIENT_RPC_LAMINATE.

Definition unifyfs_mread_rpc (env : call_env) (st : rm_state) (handle : nat) (c : client_call) (bulk_extents : list unifyfs_extent_t) :=
  queue_request UNIFYFS_CLIENT_RPC_READ env st handle (ca_app_id c) (ca_client_id c) (Some (ca_in c)) (Some bulk_extents).

(** The request keeps nothing of the input. *)
Definition unifyfs_get_gfids_rpc (env : call_env) (st : rm_state) (handle : nat) (c : client_call) :=
  queue_request UNIFYFS_CLIENT_RPC_GET_GFIDS env st handle (ca_app_id c) (ca_client_id c) None None.

Definition unifyfs_node_local_extents_get_rpc (env : call_env) (st : rm_state) (handle : nat) (c : client_call) (bulk_data : list unifyfs_extent_t) :=
  queue_request UNIFYFS_CLIENT_RPC_NODE_LOCAL_EXTENTS_GET env st handle (ca_app_id c) (ca_client_id c) (Some (ca_in c)) (Some bulk_data).

(** Which handler a call reaches, by the names that client and server register. *)
Definition serve_call (env : call_env) (st : rm_state) (handle : nat) (c : client_call) : lres (rm_state * option client_resp) :=
  match ca_in c with
  | InAttach _ => unifyfs_attach_rpc env st handle c
  | InFilesize _ => unifyfs_filesize_rpc env st handle c
  | InGetGfids => unifyfs_get_gfids_rpc env st handle c
  | InLaminate _ => unifyfs_laminate_rpc env st handle c
  | InMetaget _ => unifyfs_metaget_rpc env st handle c
  | InMetaset _ _ => unifyfs_metaset_rpc env st handle c
  | InRead _ _ bulk => unifyfs_mread_rpc env st handle c bulk
  | InSync _ => unifyfs_fsync_rpc env st handle c
  | InTransfer _ _ _ _ => unifyfs_transfer_rpc env st handle c
  | InTruncate _ _ => unifyfs_truncate_rpc env st handle c
  | InUnlink _ => unifyfs_unlink_rpc env st handle c
  | InExtentsGet _ bulk => unifyfs_node_local_extents_get_rpc env st handle c bulk
  end.

(** ** The loop of the request manager *)

(** The requests that are dispatched, in order; a synchronisation is taken out
    of the list, since the service manager frees it. *)
Fixpoint dispatch_requests (n : nat) (i : Z) (l : arraylist_t client_rpc_req_t) : lres (arraylist_t client_rpc_req_t * list client_rpc_req_t) :=
  match n with
  | O => LRet (l, [])
  | S n =>
      let! item := lift_option (arraylist_get (Some l) i) in
      let! req := lift_option item in
      let! l :=
        if bool_decide (crq_type req = UNIFYFS_CLIENT_RPC_SYNC) then let! '(l, _) := lift_option (arraylist_remove l i) in LRet l
        else LRet l in
      let! '(l, reqs) := dispatch_requests n (i + 1) l in LRet (l, req :: reqs)
  end.

(** The requests that are dispatched, and those that are freed with the list. *)
Definition rm_process_client_requests (st : rm_state) (key : Z * Z) : lres (rm_state * list client_rpc_req_t * list client_rpc_req_t) :=
  let! queue := lift_option (rs_reqs st !! key) in
  let num_client_reqs := arraylist_size queue in
  if num_client_reqs =? 0 then LRet (st, [], [])
  else
    let '(m, new) := arraylist_create (rs_mem st) UNIFYFS_CLIENT_MAX_ACTIVE_REQUESTS in
    let st := rs_set_queue key new (rs_set_mem m st) in
    match queue with
    | None => LRet (st, [], [])
    | Some l =>
        let! '(l, reqs) := dispatch_requests (Z.to_nat num_client_reqs) 0 l in
        LRet (st, reqs, (arraylist_free (Some l)).1)
    end.

(** ** Mounting and unmounting *)

(** Whether the input can be read, the address of the client be looked up, the
    mutex and the condition variable of its request manager be made and its
    thread be started; the time and the ids of the user. *)
Record mount_env := MountEnv {
  mo_input : bool;
  mo_addr : bool;
  mo_mutex : bool;
  mo_cond : bool;
  mo_thread : bool;
  mo_now : timespec;
  mo_uid : Z;
  mo_gid : Z;
}.

(** The list of requests of the new request manager; its list of callbacks is
    allocated too. *)
Definition unifyfs_rm_thrd_create (env : mount_env) (m : mem) : mem * option (arraylist_t client_rpc_req_t) :=
  let '(thrd_ctrl, m) := calloc m in
  match thrd_ctrl with
  | None => (m, None)
  | Some _ =>
      if negb (mo_mutex env && mo_cond env) then (m, None)
      else
        let '(m, reqs) := arraylist_create m UNIFYFS_CLIENT_MAX_ACTIVE_REQUESTS in
        match reqs with
        | None => (m, None)
        | Some l =>
            let '(m, callbacks) := arraylist_create (A := Z) m UNIFYFS_CLIENT_MAX_FILES in
            match callbacks with
            | None => (m, None)
            | Some _ => (m, if mo_thread env then Some l else None)
            end
        end
  end.

(** [new_app_client] with its request manager, which is created whether or not
    the address is known. *)
Definition new_client (env : mount_env) (st : rm_state) (i : nat) : rm_state * option app_client :=
  let '(p, m) := calloc (rs_mem st) in
  let '(m, reqs) := unifyfs_rm_thrd_create env m in
  let '(m', table, client) := new_app_client (rs_mem st) (mo_addr env) (bool_decide (is_Some reqs)) (rs_apps st) i in
  match client with
  | Some c => (rs_set_queue (ac_app_id c, ac_client_id c) reqs (RmState m table (rs_reqs st)), client)
  | None =>
      let room := match app_at (rs_apps st) i with Some app => negb (num_clients app =? clients_sz app) | None => false end in
      (RmState (if room && bool_decide (is_Some p) then m else m') table (rs_reqs st), None)
  end.

(** The directory of the mount point is created by a request without a call. *)
Definition create_mountpoint_dir (env : mount_env) (st : rm_state) (app_id client_id : Z) (mountpoint : string) : lres rm_state :=
  let '(name, m) := calloc (rs_mem st) in
  let '(req, m) := calloc m in
  let '(in_, m) := calloc m in
  let fattr := FileAttr (if name is Some _ then Some mountpoint else None) app_id 0 1 UNIFYFS_STAT_DEFAULT_DIR_MODE (mo_uid env) (mo_gid env) 0
    (mo_now env) (mo_now env) (mo_now env) (tv_sec (mo_now env)) in
  let st := rs_set_mem m st in
  match req, in_ with
  | Some _, Some _ =>
      let! '(st, _) := rm_submit_client_rpc_request st app_id client_id
        (ClientReq UNIFYFS_CLIENT_RPC_METASET None (Some (InMetaset ATTR_OP_CREATE fattr)) None) in LRet st
  | _, _ => LRet st
  end.

(** The result has the ids of the application and of the client, or -1. *)
Definition unifyfs_mount_rpc (env : mount_env) (md5 : string -> list Z) (clients_per_app : Z) (st : rm_state) (mount_prefix : string)
    : lres (rm_state * (Z * Z * Z)) :=
  if negb (mo_input env) then LRet (st, (-1, -1, UNIFYFS_ERROR_MARGO))
  else
    let app_id := unifyfs_generate_gfid md5 mount_prefix in
    let '(m, table, app_cfg, create_mountpoint) :=
      match get_application (rs_apps st) app_id with
      | Some i => (rs_mem st, rs_apps st, Some i, false)
      | None => new_application (rs_mem st) clients_per_app (rs_apps st) app_id
      end in
    let st := RmState m table (rs_reqs st) in
    match app_cfg with
    | None => LRet (st, (app_id, -1, UNIFYFS_FAILURE))
    | Some i =>
        let '(st, client) := new_client env st i in
        match client with
        | None => LRet (st, (app_id, -1, UNIFYFS_FAILURE))
        | Some c =>
            let! st := if create_mountpoint : bool then create_mountpoint_dir env st app_id (ac_client_id c) mount_prefix else LRet st in
            LRet (st, (app_id, ac_client_id c, UNIFYFS_SUCCESS))
        end
    end.

Definition unifyfs_unmount_rpc (input : bool) (st : rm_state) (app_id client_id : Z) : rm_state * Z :=
  if negb input then (st, UNIFYFS_ERROR_MARGO)
  else
    match get_app_client (rs_apps st) app_id client_id with
    | None => (st, EINVAL)
    | Some clnt =>
        let '(clnt, ret) := disconnect_app_client clnt in
        (rs_set_apps (set_app_client (rs_apps st) app_id client_id (Some clnt)) st, ret)
    end.

(** [logio] and [shmem_ok] as in [attach_app_client]; the response, and whether
    the request manager is attached now. *)
Definition process_attach_rpc (logio : option logio_context) (shmem_ok : bool) (st : rm_state) (app_id client_id : Z) : rm_state * client_resp * bool :=
  match get_app_client (rs_apps st) app_id client_id with
  | None => (st, resp_of_ret UNIFYFS_FAILURE, false)
  | Some client =>
      let '(client, ret) := attach_app_client logio shmem_ok client in
      (rs_set_apps (set_app_client (rs_apps st) app_id client_id (Some client)) st, resp_of_ret ret, ret =? UNIFYFS_SUCCESS)
  end.

(** ** The extents of a file on the node *)

(** The linked list that is built: the values of its cells in order.  The first
    cell is on the stack, and [None] until it is set; the others are zero at
    first. *)
Definition ext_cells : Type := list (option client_index).

Definition zero_index : client_index := ClientIndex 0 0 0 0 0 0.

(** A new cell at the end of the list. *)
Definition new_cell (cells : ext_cells) (m : mem) : lres (mem * ext_cells) :=
  let '(p, m) := calloc m in
  let! _ := lift_option p in LRet (m, cells ++ [Some zero_index]).

(** The chunks of request [i], whose number is [n_chunks]: the loop moves on to
    a new cell when [i] is less than [n_chunks - 1], and takes the file id from
    the request with the index [j] of the chunk. *)
Fixpoint add_chunks (in_extents : list unifyfs_extent_t) (i n_chunks : Z) (j : nat) (chunks : list chunk_read_req) (cells : ext_cells) (m : mem) : lres (mem * ext_cells) :=
  match chunks with
  | [] => LRet (m, cells)
  | c :: chunks =>
      let! req := lift_option (in_extents !! j) in
      let value := ClientIndex (cr_offset c) (cr_log_offset c) (cr_nbytes c) (ue_gfid req) (cr_log_app_id c) (cr_log_client_id c) in
      let cells := <[pred (length cells) := Some value]> cells in
      let! '(m, cells) := if i <? u32 (n_chunks - 1) then new_cell cells m else LRet (m, cells) in
      add_chunks in_extents i n_chunks (S j) chunks cells m
  end.

(** The loop over the requests, from index [i], with the results of the lookups;
    a lookup that fails is left out. *)
Fixpoint add_lookups (in_extents : list unifyfs_extent_t) (i : Z) (found : list (Z * list chunk_read_req)) (add_node : bool) (total : Z) (cells : ext_cells) (m : mem)
    : lres (mem * ext_cells * Z) :=
  match found with
  | [] => LRet (m, cells, total)
  | (rc, chunks) :: found =>
      if negb (rc =? UNIFYFS_SUCCESS) then add_lookups in_extents (i + 1) found add_node total cells m
      else
        let! '(m, cells) := if add_node then new_cell cells m else LRet (m, cells) in
        let n_chunks := Z.of_nat (length chunks) in
        let! '(m, cells) := add_chunks in_extents i n_chunks 0 chunks cells m in
        add_lookups in_extents (i + 1) found true (total + n_chunks) cells m
  end.

(** The first [total] cells are copied; a cell that is not there, or was never
    set, is read. *)
Definition extents_of_lookups (in_extents : list unifyfs_extent_t) (found : list (Z * list chunk_read_req)) (m : mem) : lres (mem * list client_index) :=
  let! '(m, cells, total) := add_lookups in_extents 0 found false 0 [None] m in
  let '(buffer, m) := calloc m in
  if total =? 0 then LRet (m, [])
  else
    let! _ := lift_option buffer in
    if Z.of_nat (length cells) <? total then LFault
    else let! values := lift_option (mapM id (take (Z.to_nat total) cells)) in LRet (m, values).

Section Extents.
Context (glb_pmi_size : Z) (use_server_local_extents : bool) (glb_pmi_rank : Z).

Fixpoint find_each (extents : list unifyfs_extent_t) : prog (list (Z * list chunk_read_req)) :=
  match extents with
  | [] => Ret []
  | ext :: extents =>
      let* found := unifyfs_invoke_find_extents_rpc glb_pmi_size use_server_local_extents glb_pmi_rank (ue_gfid ext) [ext] in
      let* rest := find_each extents in Ret (found :: rest)
  end.

(** The response, which always reports success. *)
Definition process_node_local_extents_get_rpc (m : mem) (num_req : Z) (in_extents : list unifyfs_extent_t) : prog (lres (mem * client_resp)) :=
  let* found := find_each (take (Z.to_nat num_req) in_extents) in
  Ret (let! '(m, extents) := extents_of_lookups in_extents found m in
       LRet (m, ClientResp UNIFYFS_SUCCESS (rp_attr (resp_of_ret 0)) 0 [] extents)).
End Extents.

(** ** Sequences of calls and passes *)

(** A call arrives at the server, or the request manager of a client makes a
    pass. *)
Inductive call_event :=
| EvCall (env : call_env) (handle : nat) (c : client_call)
| EvPass (key : Z * Z).

(** What has happened: the calls that a handler answered, the requests that were
    dispatched and those that were freed, each with its client. *)
Record call_log := CallLog {
  lg_answered : list (nat * client_resp);
  lg_dispatched : list (Z * Z * client_rpc_req_t);
  lg_freed : list (Z * Z * client_rpc_req_t);
}.

Definition call_step (st : rm_state) (lg : call_log) (e : call_event) : lres (rm_state * call_log) :=
  match e with
  | EvCall env handle c =>
      let! '(st, resp) := serve_call env st handle c in
      LRet (st, CallLog (lg_answered lg ++ from_option (fun r => [(handle, r)]) [] resp) (lg_dispatched lg) (lg_freed lg))
  | EvPass key =>
      let! '(st, reqs, freed) := rm_process_client_requests st key in
      LRet (st, CallLog (lg_answered lg) (lg_dispatched lg ++ (pair key <$> reqs)) (lg_freed lg ++ (pair key <$> freed)))
  end.

Fixpoint run_calls (st : rm_state) (lg : call_log) (evs : list call_event) : lres (rm_state * call_log) :=
  match evs with
  | [] => LRet (st, lg)
  | e :: evs => let! '(st, lg) := call_step st lg e in run_calls st lg evs
  end.
