(* ===== verification/ClientCallsProps.v ===== *)
(** * Every call of a client is served once

    Whatever the order in which calls arrive and request managers run: a call is
    either answered at once with an error, or dispatched exactly once to the
    request manager of its client, in the order of arrival, with the input the
    client sent; a request is freed once, and not before it is dispatched.
    Besides, the extents of a file on the node, and examples of calls that get
    no answer. *)

From Stdlib Require Import String.
From S2P Require Import Prelude.
From S2P Require Import LogIO.
From S2P Require Import Extents.
From S2P Require Import ExtentTree.
From S2P Require Import ArrayList.
From S2P Require Import Meta.
From S2P Require Import AppTable.
From S2P Require Import InodeTree.
From S2P Require Import Inode.
From S2P Require Import ClientRead.
From S2P Require Import Rpc.
From S2P Require Import ServiceMgr.
From S2P Require Import ClientCalls.

(** ** The list of requests as a queue *)

Definition al_queue {A} (l : arraylist_t A) (q : list A) : Prop :=
  (exists k, al_elems l = (Some <$> q) ++ replicate k None) /\ al_cap l = Z.of_nat (length (al_elems l)) /\
  al_size l = Z.of_nat (length q) /\ 1 <= al_cap l.

Lemma queue_create {A} m cap :
  0 <= cap -> mem_plenty m -> exists m' l, arraylist_create (A := A) m cap = (m', Some l) /\ al_queue l [] /\ mem_plenty m'.
Proof.
  intros Hc Hm. unfold arraylist_create. destruct (calloc_plenty m Hm) as (m1 & -> & Hm1 & _).
  set (c := if negb _ then _ else _). assert (1 <= c) by (subst c; unfold ARRAYLIST_CAPACITY; destruct (Z.eqb_spec cap 0); simpl; lia).
  rewrite (proj2 (Z.ltb_ge c 0)); [lia|].
  destruct (calloc_plenty m1 Hm1) as (m2 & -> & Hm2 & _). eexists _, _. split_and!; [done| |done].
  split_and!; simpl; [by eexists|rewrite length_replicate; lia|done|lia].
Qed.

Lemma queue_grow {A} m (l : arraylist_t A) q :
  al_queue l q -> 2 * Z.of_nat (length q) <= INT_MAX -> mem_plenty m ->
  exists m' l' k, arraylist_grow m l (al_size l) = Some (m', Some l') /\ mem_plenty m' /\ al_elems l' = (Some <$> q) ++ replicate (S k) None /\
    al_cap l' = Z.of_nat (length (al_elems l')) /\ al_size l' = al_size l.
Proof.
  intros ([k El] & Hcap & Hs & H1) Hmax Hm. unfold arraylist_grow. rewrite Hs Z.geb_leb.
  rewrite El length_app length_fmap length_replicate in Hcap.
  destruct (Z.leb_spec (al_cap l) (Z.of_nat (length q))) as [Hle|Hgt].
  - rewrite Z.gtb_ltb (proj2 (Z.ltb_ge _ _)); [lia|]. destruct (calloc_plenty m Hm) as (m1 & -> & Hm1 & _).
    assert (k = 0%nat) as -> by lia. rewrite app_nil_r in El. rewrite El.
    exists m1. eexists. exists (pred (length q)). split_and!; [done|done| | |done]; cbn [al_elems al_cap].
    + do 2 f_equal. lia.
    + rewrite length_app length_fmap length_replicate. lia.
  - destruct k as [|k]; [lia|]. exists m, l, k. split_and!; try done. rewrite El length_app length_fmap length_replicate. lia.
Qed.

Lemma queue_add {A} m (l : arraylist_t A) q e :
  al_queue l q -> 2 * Z.of_nat (length q) <= INT_MAX -> mem_plenty m ->
  exists m' l' freed rc, arraylist_add m l (Some e) = Some (m', l', freed, rc) /\ al_queue l' (q ++ [e]) /\ mem_plenty m'.
Proof.
  intros Hq Hmax Hm. destruct (queue_grow m l q Hq Hmax Hm) as (m' & l' & k & Hg & Hm' & El & Hc & Hs').
  destruct Hq as (_ & _ & Hs & _). unfold arraylist_add, arraylist_insert. rewrite Hg. simpl. rewrite Hs.
  unfold al_entry. rewrite (proj2 (Z.ltb_ge _ 0)); [lia|]. rewrite El Nat2Z.id.
  assert (((Some <$> q) ++ replicate (S k) None) !! length q = Some None) as ->.
  { rewrite lookup_app_r length_fmap; [lia|]. by rewrite Nat.sub_diag. }
  simpl. eexists _, _, _, _. split_and!; [done| |done].
  assert (<[length q := Some e]> ((Some <$> q) ++ None :: replicate k None) = (Some <$> (q ++ [e])) ++ replicate k None) as E.
  { rewrite fmap_app. rewrite insert_app_r_alt length_fmap; [lia|]. rewrite Nat.sub_diag. simpl. by rewrite -app_assoc. }
  rewrite El in Hc. split_and!; cbn [al_elems al_cap al_size].
  - exists k. exact E.
  - rewrite length_insert. exact Hc.
  - rewrite Hs' Hs Z.gtb_ltb (proj2 (Z.ltb_lt _ _)); [lia|]. rewrite length_app. simpl. lia.
  - rewrite Hc length_app. simpl. lia.
Qed.

(** ** A pass of the request manager *)

Definition is_sync (req : client_rpc_req_t) : bool := bool_decide (crq_type req = UNIFYFS_CLIENT_RPC_SYNC).

(** What stays in the list of a request that has been dispatched. *)
Definition kept (req : client_rpc_req_t) : option client_rpc_req_t := if is_sync req then None else Some req.

Lemma dispatch_queue q : forall i (l : arraylist_t client_rpc_req_t) pre post,
  al_elems l = pre ++ (Some <$> q) ++ post -> i = Z.of_nat (length pre) -> (q <> [] -> al_size l = i + Z.of_nat (length q)) ->
  exists l', dispatch_requests (length q) i l = LRet (l', q) /\ al_elems l' = pre ++ (kept <$> q) ++ post /\ al_cap l' = al_cap l.
Proof.
  induction q as [|req q IH]; intros i l pre post El -> Hs; [by exists l|]. specialize (Hs ltac:(done)). simpl in Hs.
  assert (al_elems l !! length pre = Some (Some req)) as Hget.
  { rewrite El lookup_app_r; [lia|]. by rewrite Nat.sub_diag. }
  assert (arraylist_get (Some l) (Z.of_nat (length pre)) = Some (Some req)) as Hg.
  { simpl. rewrite Z.geb_leb (proj2 (Z.leb_gt _ _)); [lia|]. unfold al_entry. rewrite (proj2 (Z.ltb_ge _ 0)); [lia|]. by rewrite Nat2Z.id. }
  simpl dispatch_requests. simpl in Hg. rewrite Hg. simpl.
  assert (exists l1, (if bool_decide (crq_type req = UNIFYFS_CLIENT_RPC_SYNC)
    then let! '(l, _) := lift_option (arraylist_remove l (Z.of_nat (length pre))) in LRet l else LRet l) = LRet l1 /\
    al_elems l1 = (pre ++ [kept req]) ++ (Some <$> q) ++ post /\ al_cap l1 = al_cap l /\ (q <> [] -> al_size l1 = al_size l)) as (l1 & -> & El1 & Hc1 & Hs1).
  { unfold kept, is_sync. destruct (bool_decide _).
    - unfold arraylist_remove. simpl. rewrite Hg. simpl. eexists. split; [done|]. cbn [al_elems al_cap al_size]. split_and!; [|done|].
      + rewrite El Nat2Z.id insert_app_r_alt; [lia|]. rewrite Nat.sub_diag -app_assoc. done.
      + intros Hq. rewrite (proj2 (Z.eqb_neq _ _)); [|done]. destruct q; [done|]. simpl in Hs. lia.
    - exists l. split_and!; try done. by rewrite El -app_assoc. }
  simpl. destruct (IH (Z.of_nat (length pre) + 1) l1 (pre ++ [kept req]) post El1) as (l' & -> & El' & Hc').
  - rewrite length_app. simpl. lia.
  - intros Hq. rewrite Hs1 // Hs. lia.
  - simpl. exists l'. split_and!; [done| |congruence]. by rewrite El' -app_assoc.
Qed.

Lemma omap_kept q : omap id (kept <$> q) = List.filter (fun r => negb (is_sync r)) q.
Proof. induction q as [|r q IH]; [done|]. cbn in *. unfold kept at 1. destruct (is_sync r); simpl; by rewrite IH. Qed.

(** ** What a call becomes *)

Definition type_of (i : client_in) : client_rpc_e :=
  match i with
  | InAttach _ => UNIFYFS_CLIENT_RPC_ATTACH
  | InFilesize _ => UNIFYFS_CLIENT_RPC_FILESIZE
  | InGetGfids => UNIFYFS_CLIENT_RPC_GET_GFIDS
  | InLaminate _ => UNIFYFS_CLIENT_RPC_LAMINATE
  | InMetaget _ => UNIFYFS_CLIENT_RPC_METAGET
  | InMetaset _ _ => UNIFYFS_CLIENT_RPC_METASET
  | InRead _ _ _ => UNIFYFS_CLIENT_RPC_READ
  | InSync _ => UNIFYFS_CLIENT_RPC_SYNC
  | InTransfer _ _ _ _ => UNIFYFS_CLIENT_RPC_TRANSFER
  | InTruncate _ _ => UNIFYFS_CLIENT_RPC_TRUNCATE
  | InUnlink _ => UNIFYFS_CLIENT_RPC_UNLINK
  | InExtentsGet _ _ => UNIFYFS_CLIENT_RPC_NODE_LOCAL_EXTENTS_GET
  end.

Definition bulk_of (i : client_in) : option (list unifyfs_extent_t) :=
  match i with InRead _ _ bulk | InExtentsGet _ bulk => Some bulk | _ => None end.

(** The request of a call: its type, and all of its input (a listing has none). *)
Definition request_of (handle : nat) (i : client_in) : client_rpc_req_t :=
  ClientReq (type_of i) (Some handle) (if i is InGetGfids then None else Some i) (bulk_of i).

Definition key_of (c : client_call) : Z * Z := (ca_app_id c, ca_client_id c).

Definition is_client (apps : app_table) (key : Z * Z) : Prop := is_Some (get_app_client apps key.1 key.2).

(** The error a call is answered with at once, if any. *)
Definition refusal_of (apps : app_table) (env : call_env) (c : client_call) : option Z :=
  if negb (ce_input env) then Some UNIFYFS_ERROR_MARGO
  else if (if bulk_of (ca_in c) is Some _ then negb (ce_pull env) else false) then Some UNIFYFS_ERROR_MARGO
  else if get_app_client apps (ca_app_id c) (ca_client_id c) is Some _ then None else Some EINVAL.

Lemma serve_call_queue env st handle c :
  serve_call env st handle c =
  queue_request (type_of (ca_in c)) env st handle (ca_app_id c) (ca_client_id c) (crq_input (request_of handle (ca_in c))) (bulk_of (ca_in c)).
Proof. destruct c as [app client []]; reflexivity. Qed.

(** *** One step *)

(** The clients of the table have a queue each. *)
Definition queues (st : rm_state) (qs : Z * Z -> list client_rpc_req_t) : Prop :=
  mem_plenty (rs_mem st) /\ forall key, is_client (rs_apps st) key -> exists l, rs_reqs st !! key = Some (Some l) /\ al_queue l (qs key).

Lemma submit_request_ok st qs app client req :
  queues st qs -> is_client (rs_apps st) (app, client) -> 2 * Z.of_nat (length (qs (app, client))) <= INT_MAX ->
  exists st', rm_submit_client_rpc_request st app client req = LRet (st', UNIFYFS_SUCCESS) /\ rs_apps st' = rs_apps st /\
    queues st' (fun key => if bool_decide (key = (app, client)) then qs key ++ [req] else qs key).
Proof.
  intros [Hm Hq] [c Hc] Hmax. simpl in Hc. unfold rm_submit_client_rpc_request. rewrite Hc.
  destruct (Hq (app, client)) as (l & El & Hl); [by exists c|]. rewrite El.
  destruct (queue_add (rs_mem st) l (qs (app, client)) req Hl Hmax Hm) as (m' & l' & f & rc & -> & Hl' & Hm'). simpl.
  eexists. split_and!; [done|done|]. split; [done|]. intros key Hk. simpl in *. case_bool_decide as Hne; [subst key|].
  - rewrite lookup_insert_eq. by exists l'.
  - rewrite lookup_insert_ne; [done|]. by apply Hq.
Qed.

Lemma serve_call_ok st qs env handle c :
  queues st qs -> 2 * Z.of_nat (length (qs (key_of c))) <= INT_MAX ->
  exists st', serve_call env st handle c = LRet (st', resp_of_ret <$> refusal_of (rs_apps st) env c) /\ rs_apps st' = rs_apps st /\
    queues st' (fun key => if refusal_of (rs_apps st) env c is Some _ then qs key
                           else if bool_decide (key = key_of c) then qs key ++ [request_of handle (ca_in c)] else qs key).
Proof.
  intros [Hm Hq] Hmax. rewrite serve_call_queue. unfold queue_request, refusal_of.
  destruct (calloc_plenty _ Hm) as (m1 & -> & Hm1 & _).
  destruct (negb (ce_input env)); [by eexists|]. destruct (if bulk_of (ca_in c) is Some _ then _ else _); [by eexists|].
  destruct (calloc_plenty _ Hm1) as (m2 & E2 & Hm2 & _). simpl. rewrite E2.
  destruct (get_app_client (rs_apps st) (ca_app_id c) (ca_client_id c)) as [cl|] eqn:Ec.
  - destruct (submit_request_ok (rs_set_mem m2 (rs_set_mem m1 st)) qs (ca_app_id c) (ca_client_id c) (request_of handle (ca_in c)))
      as (st' & E & Ha & Hq'); [done|by exists cl|done|].
    unfold request_of in E. simpl in *. rewrite E. simpl. by exists st'.
  - unfold rm_submit_client_rpc_request. simpl. rewrite Ec. simpl. eexists. split_and!; [done|done|]. split; [done|]. intros key Hk. by apply Hq.
Qed.

Lemma pass_ok st qs key :
  queues st qs -> is_client (rs_apps st) key ->
  exists st', rm_process_client_requests st key = LRet (st', qs key, List.filter (fun r => negb (is_sync r)) (qs key)) /\ rs_apps st' = rs_apps st /\
    queues st' (fun key' => if bool_decide (key' = key) then [] else qs key').
Proof.
  intros [Hm Hq] Hk. destruct (Hq key Hk) as (l & El & Hl). unfold rm_process_client_requests. rewrite El. simpl.
  destruct Hl as ([k Eq] & Hc & Hs & H1). rewrite Hs. destruct (Z.eqb_spec (Z.of_nat (length (qs key))) 0) as [E0|Hne].
  - destruct (qs key) eqn:Ek; [|done]. exists st. split_and!; [done|done|]. split; [done|].
    intros key' Hk'. case_bool_decide; [subst key'|by apply Hq]. exists l. split; [done|]. split_and!; try done. by exists k.
  - destruct (queue_create (A := client_rpc_req_t) (rs_mem st) UNIFYFS_CLIENT_MAX_ACTIVE_REQUESTS) as (m' & l' & -> & Hl' & Hm'); [done|done|].
    rewrite Nat2Z.id. destruct (dispatch_queue (qs key) 0 l [] (replicate k None)) as (l2 & -> & El2 & Hc2); [done|done|lia|].
    simpl. eexists. split_and!.
    + do 2 f_equal. rewrite take_ge; [rewrite Hc2 Hc El2 Eq !length_app !length_fmap; simpl; lia|].
      rewrite El2 app_nil_l omap_app omap_kept.
      assert (omap id (replicate k (@None client_rpc_req_t)) = []) as -> by (clear; by induction k). by rewrite app_nil_r.
    + done.
    + split; [done|]. intros key' Hk'. simpl in *. case_bool_decide as Hne'; [subst key'|].
      * rewrite lookup_insert_eq. by exists l'.
      * rewrite lookup_insert_ne; [done|]. by apply Hq.
Qed.

(** *** Sequences *)

(** The calls that are answered at once, and the requests made of the calls of a
    client that are not. *)
Definition answered_of (apps : app_table) (e : call_event) : option (nat * client_resp) :=
  match e with
  | EvCall env handle c => (fun ret => (handle, resp_of_ret ret)) <$> refusal_of apps env c
  | EvPass _ => None
  end.

Definition accepted_of (apps : app_table) (key : Z * Z) (e : call_event) : option client_rpc_req_t :=
  match e with
  | EvCall env handle c =>
      if refusal_of apps env c is Some _ then None else if bool_decide (key = key_of c) then Some (request_of handle (ca_in c)) else None
  | EvPass _ => None
  end.

(** Only clients of the server have a request manager that makes passes. *)
Definition event_ok (apps : app_table) (e : call_event) : Prop := if e is EvPass key then is_client apps key else True.

(** The part of a log that belongs to a client. *)
Definition of_client (key : Z * Z) (l : list (Z * Z * client_rpc_req_t)) : list client_rpc_req_t :=
  omap (fun '(k, r) => if bool_decide (k = key) then Some r else None) l.

Lemma of_client_app key l l' : of_client key (l ++ l') = of_client key l ++ of_client key l'.
Proof. apply omap_app. Qed.

Lemma of_client_pairs key k l : of_client key (pair k <$> l) = if bool_decide (k = key) then l else [].
Proof.
  unfold of_client. induction l as [|r l IH]; [by destruct (bool_decide _)|]. cbn in *.
  destruct (bool_decide (k = key)); cbn; by rewrite IH.
Qed.

(** [qs0]: the queues at the start. *)
Section Runs.
Context (qs0 : Z * Z -> list client_rpc_req_t).

Record log_inv (apps : app_table) (qs : Z * Z -> list client_rpc_req_t) (past : list call_event) (lg : call_log) : Prop := {
  li_answered : lg_answered lg = omap (answered_of apps) past;
  li_dispatched : forall key, is_client apps key -> of_client key (lg_dispatched lg) ++ qs key = qs0 key ++ omap (accepted_of apps key) past;
  li_freed : forall key, of_client key (lg_freed lg) = List.filter (fun r => negb (is_sync r)) (of_client key (lg_dispatched lg));
  li_passed : forall key past', past = past' ++ [EvPass key] -> qs key = [];
}.

Lemma log_inv_call apps qs past lg env handle c :
  log_inv apps qs past lg ->
  log_inv apps (fun key => if refusal_of apps env c is Some _ then qs key
                           else if bool_decide (key = key_of c) then qs key ++ [request_of handle (ca_in c)] else qs key)
    (past ++ [EvCall env handle c])
    (CallLog (lg_answered lg ++ from_option (fun r => [(handle, r)]) [] (resp_of_ret <$> refusal_of apps env c)) (lg_dispatched lg) (lg_freed lg)).
Proof.
  intros [Ha Hd Hf _]. split; simpl.
  - rewrite omap_app Ha. f_equal. cbn. by destruct (refusal_of apps env c).
  - intros key Hk. rewrite omap_app app_assoc -Hd //. cbn. destruct (refusal_of apps env c); [by rewrite app_nil_r|].
    case_bool_decide; [by rewrite app_assoc|by rewrite app_nil_r].
  - done.
  - intros key past' [_ [=]]%app_inj_tail.
Qed.

Lemma log_inv_pass apps qs past lg key :
  log_inv apps qs past lg -> is_client apps key ->
  log_inv apps (fun key' => if bool_decide (key' = key) then [] else qs key') (past ++ [EvPass key])
    (CallLog (lg_answered lg) (lg_dispatched lg ++ (pair key <$> qs key)) (lg_freed lg ++ (pair key <$> List.filter (fun r => negb (is_sync r)) (qs key)))).
Proof.
  intros [Ha Hd Hf _] Hk. split; simpl.
  - by rewrite omap_app Ha app_nil_r.
  - intros key' Hk'. rewrite omap_app app_nil_r -Hd // of_client_app of_client_pairs -app_assoc. f_equal.
    destruct (decide (key' = key)) as [->|Hne]; [rewrite !bool_decide_true //; by rewrite app_nil_r|]. by rewrite !bool_decide_false.
  - intros key'. rewrite !of_client_app !of_client_pairs Hf List.filter_app. f_equal. by destruct (bool_decide _).
  - intros key' past' [_ [= <-]]%app_inj_tail. by rewrite bool_decide_true.
Qed.

Lemma run_calls_ok evs : forall st qs past lg,
  queues st qs -> Forall (event_ok (rs_apps st)) evs -> (forall key, 2 * (Z.of_nat (length (qs key)) + Z.of_nat (length evs)) <= INT_MAX) ->
  log_inv (rs_apps st) qs past lg ->
  exists st' qs' lg', run_calls st lg evs = LRet (st', lg') /\ rs_apps st' = rs_apps st /\ queues st' qs' /\ log_inv (rs_apps st) qs' (past ++ evs) lg'.
Proof.
  induction evs as [|e evs IH]; intros st qs past lg Hq Hev Hmax Hlg; [exists st, qs, lg; by rewrite app_nil_r|].
  apply Forall_cons in Hev as [He Hev]. simpl in Hmax.
  assert (exists st1 qs1 lg1, call_step st lg e = LRet (st1, lg1) /\ rs_apps st1 = rs_apps st /\ queues st1 qs1 /\
    log_inv (rs_apps st) qs1 (past ++ [e]) lg1 /\ forall key, (length (qs1 key) <= S (length (qs key)))%nat) as (st1 & qs1 & lg1 & E & Ha & Hq1 & Hlg1 & Hl).
  { destruct e as [env handle c|key]; simpl.
    - destruct (serve_call_ok st qs env handle c Hq) as (st1 & -> & Ha & Hq1); [specialize (Hmax (key_of c)); lia|]. simpl.
      eexists st1, _, _. split_and!; [done|done|done|by apply log_inv_call|]. intros key. simpl.
      destruct (refusal_of _ _ _); [lia|]. case_bool_decide; [rewrite length_app; simpl|]; lia.
    - destruct (pass_ok st qs key Hq He) as (st1 & -> & Ha & Hq1). simpl.
      eexists st1, _, _. split_and!; [done|done|done|by apply log_inv_pass|]. intros key'. simpl. case_bool_decide; simpl; lia. }
  simpl. rewrite E. simpl. destruct (IH st1 qs1 (past ++ [e]) lg1) as (st' & qs' & lg' & E' & Ha' & Hq' & Hlg').
  - done.
  - by rewrite Ha.
  - intros key. specialize (Hmax key). specialize (Hl key). lia.
  - by rewrite Ha.
  - exists st', qs', lg'. rewrite Ha in Hlg' Ha'. by rewrite -app_assoc in Hlg'.
Qed.

End Runs.


(** ** Mounting *)

Lemma get_app_client_at table ids j app cid c :
  table_wf table ids -> table !! j = Some (Some app) -> 0 < cid <= clients_sz app -> clients app !! Z.to_nat (cid - 1) = Some (Some c) ->
  get_app_client table (app_id app) cid = Some c.
Proof.
  intros Hwf Hj Hb Hcl. unfold get_app_client, app_at. rewrite (get_application_unique _ _ _ _ Hwf Hj) /= Hj /=.
  rewrite (proj2 (Z.leb_gt _ _)); [lia|]. rewrite Z.gtb_ltb (proj2 (Z.ltb_ge _ _)); [lia|]. by rewrite /= Hcl.
Qed.

(** A new application has no clients. *)
Lemma is_client_new_application m cpa table ids id m' table' r created key :
  0 <= cpa -> table_wf table ids -> new_application m cpa table id = (m', table', r, created) -> is_client table' key <-> is_client table key.
Proof.
  intros Hcpa Hwf Hnew. pose proof (new_application_wf _ _ _ _ _ _ _ _ _ Hcpa Hwf Hnew) as (Hwf' & _ & Hnone).
  apply new_application_cases in Hnew as [(-> & -> & _)|(-> & i & -> & Hs & Hi & ->)]; [done|]. specialize (Hnone eq_refl).
  assert (forall j x, <[i := Some (AppConfig id 0 cpa (replicate (Z.to_nat cpa) None))]> table !! j = Some (Some x) ->
    j = i /\ x = AppConfig id 0 cpa (replicate (Z.to_nat cpa) None) \/ j <> i /\ table !! j = Some (Some x)) as Hset.
  { intros j x. rewrite list_lookup_insert_Some. naive_solver. }
  split; intros [c Hc].
  - destruct (get_app_client_some _ _ _ _ _ Hwf' Hc) as (j & app & Hg & Hj & Hid & Hb & Hcl & _).
    destruct (Hset _ _ Hj) as [[-> ->]|[Hne Hj']]; [simpl in Hcl; by apply lookup_replicate in Hcl as [? _]|].
    exists c. rewrite -Hid. by eapply get_app_client_at.
  - destruct (get_app_client_some _ _ _ _ _ Hwf Hc) as (j & app & Hg & Hj & Hid & Hb & Hcl & _).
    assert (j <> i) by (intros ->; congruence).
    assert (<[i := Some (AppConfig id 0 cpa (replicate (Z.to_nat cpa) None))]> table !! j = Some (Some app)) as Hj'
      by (by rewrite list_lookup_insert_ne).
    exists c. rewrite -Hid. by eapply get_app_client_at.
Qed.

Lemma is_client_new_client m a r table ids i m' table' c key :
  table_wf table ids -> new_app_client m a r table i = (m', table', Some c) ->
  is_client table' key <-> key = (ac_app_id c, ac_client_id c) \/ is_client table key.
Proof.
  intros Hwf Hnew. destruct (new_app_client_wf _ _ _ _ _ _ _ _ _ Hwf Hnew) as (Hwf' & Hfresh & Hget). revert Hnew.
  unfold new_app_client, app_at. destruct (table !! i) as [[app|]|] eqn:Hi; [simpl|done|done].
  destruct (num_clients app =? clients_sz app); [done|]. destruct (calloc m) as [[p|] m1]; [|done]. destruct (negb (a && r)); [done|].
  intros [= <- <- <-]. simpl in *. set (app' := AppConfig _ _ _ _) in *.
  destruct (table_wf_app _ _ Hwf i app Hi) as [Hn Hlen _ Hids _].
  split.
  - intros [x Hx]. destruct (get_app_client_some _ _ _ _ _ Hwf' Hx) as (j & y & Hg & Hj & Hid & Hb & Hcl & Ha & Hc & Hin).
    apply elem_of_cons in Hin as [E|Hin]; [left; by destruct key|right].
    apply (table_lookup_set table i app app') in Hj as [[-> ->]|[Hne Hj]]; [|exists x; rewrite -Hid; by eapply get_app_client_at|done].
    exists x. rewrite -Hid. simpl in *. eapply (get_app_client_at table ids i app); [done|done|done|].
    rewrite list_lookup_insert_ne in Hcl; [|done]. rewrite -Hid Hids in Hin. lia.
  - intros [->|[x Hx]]; [by eexists|].
    destruct (get_app_client_some _ _ _ _ _ Hwf Hx) as (j & y & Hg & Hj & Hid & Hb & Hcl & Ha & Hc & Hin).
    exists x. destruct (decide (j = i)) as [->|Hne].
    + assert (y = app) as -> by congruence. rewrite -Hid. eapply (get_app_client_at _ _ i app' _ _ Hwf'); [|done|].
      * apply (table_lookup_set table i app app'); [done|by left].
      * simpl. rewrite list_lookup_insert_ne; [|done]. rewrite -Hid Hids in Hin. lia.
    + rewrite -Hid. eapply (get_app_client_at _ _ j y _ _ Hwf'); [|done|done]. apply (table_lookup_set table i app app'); [done|by right].
Qed.

Lemma rm_thrd_create_queue env m m' l :
  mem_plenty m -> unifyfs_rm_thrd_create env m = (m', l) -> mem_plenty m' /\ forall q, l = Some q -> al_queue q [].
Proof.
  intros Hm. unfold unifyfs_rm_thrd_create. destruct (calloc_plenty m Hm) as (m1 & -> & Hm1 & _).
  destruct (negb _); [by intros [= <- <-]|].
  destruct (queue_create (A := client_rpc_req_t) m1 UNIFYFS_CLIENT_MAX_ACTIVE_REQUESTS) as (m2 & l2 & -> & Hl2 & Hm2); [done|done|].
  destruct (queue_create (A := Z) m2 UNIFYFS_CLIENT_MAX_FILES) as (m3 & l3 & -> & _ & Hm3); [done|done|].
  destruct (mo_thread env); intros [= <- <-]; (split; [done|]); [by intros ? [= <-]|done].
Qed.

Lemma new_app_client_none m a r table i m' table' :
  new_app_client m a r table i = (m', table', None) -> table' = table /\ (mem_plenty m -> mem_plenty m').
Proof.
  unfold new_app_client. destruct (app_at table i) as [app|]; [|by intros [= <- <-]].
  destruct (num_clients app =? clients_sz app); [by intros [= <- <-]|]. destruct (calloc m) as [[p|] m1] eqn:E.
  - destruct (negb _); intros [= <- <-]. split; [done|]. by apply (calloc_le m _ _ E).
  - intros [= <- <-]. split; [done|]. by apply (calloc_le m _ _ E).
Qed.

Lemma new_app_client_reqmgr m a r table i m' table' c :
  new_app_client m a r table i = (m', table', Some c) -> r = true /\ exists app, app_at table i = Some app /\ ac_app_id c = app_id app.
Proof.
  unfold new_app_client. destruct (app_at table i) as [app|]; [|done].
  destruct (num_clients app =? clients_sz app); [done|]. destruct (calloc m) as [[p|] m1]; [|done].
  destruct a, r; simpl; try done. intros [= <- <- <-]. split; [done|]. by exists app.
Qed.

Lemma new_client_ready env st qs ids i st' r :
  queues st qs -> table_wf (rs_apps st) ids -> new_client env st i = (st', r) ->
  match r with
  | None => rs_apps st' = rs_apps st /\ queues st' qs
  | Some c => exists app, app_at (rs_apps st) i = Some app /\ ac_app_id c = app_id app /\
      ((ac_app_id c, ac_client_id c) ∉ ids) /\ table_wf (rs_apps st') ((ac_app_id c, ac_client_id c) :: ids) /\
      (forall key, is_client (rs_apps st') key <-> key = (ac_app_id c, ac_client_id c) \/ is_client (rs_apps st) key) /\
      queues st' (fun key => if bool_decide (key = (ac_app_id c, ac_client_id c)) then [] else qs key)
  end.
Proof.
  intros [Hm Hq] Hwf. unfold new_client. destruct (calloc_plenty _ Hm) as (m1 & -> & Hm1 & _).
  destruct (unifyfs_rm_thrd_create env m1) as [m2 reqs] eqn:Erm. destruct (rm_thrd_create_queue _ _ _ _ Hm1 Erm) as [Hm2 Hl].
  destruct (new_app_client _ _ _ _ _) as [[m' table'] [c|]] eqn:En; intros [= <- <-].
  - destruct (new_app_client_reqmgr _ _ _ _ _ _ _ _ En) as [[l ->]%bool_decide_eq_true (app & Happ & Hid)].
    destruct (new_app_client_wf _ _ _ _ _ _ _ _ _ Hwf En) as (Hwf' & Hf & _).
    pose proof (fun key => is_client_new_client _ _ _ _ _ _ _ _ _ key Hwf En) as Hk.
    exists app. split_and!; try done. split; [done|]. simpl. intros key Hkey. destruct (decide (key = (ac_app_id c, ac_client_id c))) as [->|Hne].
    + rewrite bool_decide_true // lookup_insert_eq. eexists. split; [done|]. by apply Hl.
    + rewrite bool_decide_false // lookup_insert_ne; [done|]. apply Hq. by apply Hk in Hkey as [?|?].
  - apply new_app_client_none in En as [-> Hmm]. split; [done|]. split; [|done]. simpl.
    destruct (_ && _); [done|auto].
Qed.

(** The application of a mount point, found or created. *)
Lemma application_ready cpa st qs ids app :
  0 <= cpa -> queues st qs -> table_wf (rs_apps st) ids ->
  exists m table r created, (match get_application (rs_apps st) app with
      | Some i => (rs_mem st, rs_apps st, Some i, false) | None => new_application (rs_mem st) cpa (rs_apps st) app end) = (m, table, r, created) /\
    table_wf table ids /\ (forall i, r = Some i -> get_application table app = Some i) /\
    (forall key, is_client table key <-> is_client (rs_apps st) key) /\ queues (RmState m table (rs_reqs st)) qs.
Proof.
  intros Hcpa [Hm Hq] Hwf. destruct (get_application (rs_apps st) app) as [i|] eqn:Eg.
  { by do 4 eexists; split_and!; [done|done|intros ? [= <-]| |]. }
  destruct (new_application _ _ _ _) as [[[m table] r] created] eqn:En.
  pose proof (new_application_wf _ _ _ _ _ _ _ _ _ Hcpa Hwf En) as (Hwf1 & Hr & _).
  assert (forall key, is_client table key <-> is_client (rs_apps st) key) as Hk by (intros key; by eapply is_client_new_application).
  exists m, table, r, created. split_and!; try done. split; [simpl|intros key ?%Hk; by apply Hq].
  revert En. unfold new_application. destruct (calloc_plenty _ Hm) as (m1 & -> & Hm1 & _).
  destruct (app_slot _ _) as [j|]; [|by intros [= <- _ _ _]]. destruct (rs_apps st !! j) as [[x|]|]; try by intros [= <- _ _ _].
  all: destruct (calloc_plenty _ Hm1) as (m2 & -> & Hm2 & _); by intros [= <- _ _ _].
Qed.

(** The request for the directory is the first of a new client. *)
Lemma mountpoint_queued env st qs app cl prefix :
  queues st qs -> is_client (rs_apps st) (app, cl) -> qs (app, cl) = [] ->
  exists st' qs', create_mountpoint_dir env st app cl prefix = LRet st' /\ rs_apps st' = rs_apps st /\ queues st' qs' /\
    (forall key, key <> (app, cl) -> qs' key = qs key) /\ (length (qs' (app, cl)) <= 1)%nat.
Proof.
  intros [Hm Hq] Hk H0. unfold create_mountpoint_dir. destruct (calloc_plenty _ Hm) as (m1 & -> & Hm1 & _).
  destruct (calloc_plenty _ Hm1) as (m2 & -> & Hm2 & _). destruct (calloc_plenty _ Hm2) as (m3 & -> & Hm3 & _). cbv zeta.
  set (req := ClientReq _ _ _ _). destruct (submit_request_ok (rs_set_mem m3 st) qs app cl req) as (st' & -> & Ha & Hq'); [done|done|by rewrite H0|].
  simpl. eexists st', _. split_and!; [done|done|done| |]; simpl.
  - intros key Hne. by rewrite bool_decide_false.
  - by rewrite bool_decide_true // H0.
Qed.

(** The result of a mount: the clients there were keep their queues, and after a
    success there is a client with new ids, whose queue holds at most the request
    for the directory of the mount point. *)
Lemma mount_ready env md5 cpa st qs ids prefix :
  0 <= cpa -> queues st qs -> table_wf (rs_apps st) ids ->
  exists st' app cl ret qs' ids', unifyfs_mount_rpc env md5 cpa st prefix = LRet (st', (app, cl, ret)) /\
    queues st' qs' /\ table_wf (rs_apps st') ids' /\
    (forall key, is_client (rs_apps st) key -> is_client (rs_apps st') key /\ qs' key = qs key) /\
    (ret = UNIFYFS_SUCCESS -> is_client (rs_apps st') (app, cl) /\ ((app, cl) ∉ ids) /\ (length (qs' (app, cl)) <= 1)%nat).
Proof.
  intros Hcpa Hq Hwf. unfold unifyfs_mount_rpc. destruct (mo_input env); cbn [negb]; [|exists st, (-1), (-1), UNIFYFS_ERROR_MARGO, qs, ids; done].
  cbv zeta. generalize (unifyfs_generate_gfid md5 prefix). intros app.
  destruct (application_ready cpa st qs ids app Hcpa Hq Hwf) as (m & table & r & created & -> & Hwf1 & Hr & Hk1 & Hq1).
  destruct r as [i|].
  2:{ exists (RmState m table (rs_reqs st)), app, (-1), UNIFYFS_FAILURE, qs, ids. split_and!; [done|done|done|by intros key ?%Hk1|done]. }
  destruct (new_client _ _ _) as [st2 [c|]] eqn:En; pose proof (new_client_ready _ _ _ _ _ _ _ Hq1 Hwf1 En) as H2.
  2:{ destruct H2 as [Ha H2]. exists st2, app, (-1), UNIFYFS_FAILURE, qs, ids. rewrite Ha. split_and!; [done|done|done|by intros key ?%Hk1|done]. }
  destruct H2 as (cfg & Hcfg & Hid & Hf & Hwf2 & Hk2 & Hq2). cbn [rs_apps] in *.
  assert (ac_app_id c = app) as Hca.
  { destruct (get_application_some _ _ _ (Hr i eq_refl)) as (x & Hx & <-). unfold app_at in Hcfg. rewrite Hx in Hcfg. simpl in Hcfg. congruence. }
  rewrite Hca in Hf Hwf2 Hk2 Hq2. generalize dependent (ac_client_id c). intros cl Hf Hwf2 Hk2 Hq2.
  assert (is_client (rs_apps st2) (app, cl)) as Hcl by (apply Hk2; by left).
  assert (exists st3 qs3, (if created then create_mountpoint_dir env st2 app cl prefix else LRet st2) = LRet st3 /\ rs_apps st3 = rs_apps st2 /\ queues st3 qs3 /\
    (forall key, key <> (app, cl) -> qs3 key = qs key) /\ (length (qs3 (app, cl)) <= 1)%nat) as (st3 & qs3 & -> & Ha3 & Hq3 & Hne3 & Hl3).
  { destruct created.
    - destruct (mountpoint_queued env st2 _ app cl prefix Hq2 Hcl) as (st3 & qs3 & -> & Ha3 & Hq3 & Hne3 & Hl3); [by rewrite bool_decide_true|].
      exists st3, qs3. split_and!; try done. intros key Hne. rewrite Hne3 //. by rewrite bool_decide_false.
    - eexists st2, _. split_and!; [done|done|done| |]; simpl; [intros key Hne; by rewrite bool_decide_false|rewrite bool_decide_true //; simpl; lia]. }
  exists st3, app, cl, UNIFYFS_SUCCESS, qs3, ((app, cl) :: ids). rewrite Ha3. split_and!; try done.
  intros key Hk. split; [apply Hk2; right; by apply Hk1|]. apply Hne3. intros ->. destruct Hk as [x Hx].
  destruct (get_app_client_some _ _ _ _ _ Hwf Hx) as (? & ? & _ & _ & _ & _ & _ & _ & _ & Hin). done.
Qed.

(** ** The extents of a file on the node *)

Definition index_of (gfid : Z) (c : chunk_read_req) : client_index :=
  ClientIndex (cr_offset c) (cr_log_offset c) (cr_nbytes c) gfid (cr_log_app_id c) (cr_log_client_id c).

Definition found_chunks (found : list (Z * list chunk_read_req)) : list chunk_read_req :=
  mjoin ((fun f : Z * list chunk_read_req => if f.1 =? UNIFYFS_SUCCESS then f.2 else []) <$> found).

Definition single (f : Z * list chunk_read_req) : Prop := f.1 = UNIFYFS_SUCCESS -> exists c, f.2 = [c].

(** The cells of the list when [vals] have been stored. *)
Definition cells_of (vals : list client_index) : ext_cells := if vals is [] then [None] else Some <$> vals.

Definition nonempty (vals : list client_index) : bool := if vals is [] then false else true.

(** The cell for the next chunk: the first, or a new one. *)
Lemma next_cell vals m :
  mem_plenty m -> exists m', (if nonempty vals then new_cell (cells_of vals) m else LRet (m, cells_of vals)) =
    LRet (m', (Some <$> vals) ++ [if nonempty vals then Some zero_index else None]) /\ mem_plenty m'.
Proof.
  intros Hm. destruct vals as [|v vals]; [by exists m|]. unfold new_cell. destruct (calloc_plenty m Hm) as (m1 & -> & Hm1 & _). by exists m1.
Qed.

Lemma add_one_chunk e0 es i c (vals : list client_index) x m :
  0 <= i -> add_chunks (e0 :: es) i 1 0 [c] ((Some <$> vals) ++ [x]) m = LRet (m, cells_of (vals ++ [index_of (ue_gfid e0) c])).
Proof.
  intros Hi. simpl. change (u32 (1 - 1)) with 0. rewrite (proj2 (Z.ltb_ge i 0)); [lia|]. simpl. do 2 f_equal.
  rewrite length_app length_fmap Nat.add_1_r. simpl. rewrite insert_app_r_alt length_fmap; [lia|]. rewrite Nat.sub_diag. simpl.
  transitivity (Some <$> (vals ++ [index_of (ue_gfid e0) c])); [by rewrite fmap_app|]. by destruct vals.
Qed.

Lemma add_lookups_single gfid in_extents found : forall i vals m,
  Forall (fun e => ue_gfid e = gfid) in_extents -> (found <> [] -> in_extents <> []) -> 0 <= i -> Forall single found -> mem_plenty m ->
  let all := vals ++ (index_of gfid <$> found_chunks found) in
  exists m', add_lookups in_extents i found (nonempty vals) (Z.of_nat (length vals)) (cells_of vals) m =
    LRet (m', cells_of all, Z.of_nat (length all)) /\ mem_plenty m'.
Proof.
  induction found as [|[rc chunks] found IH]; intros i vals m Hg Hne Hi Hone Hm; cbv zeta.
  { simpl. rewrite app_nil_r. by exists m. }
  apply Forall_cons in Hone as [Hc Hone]. unfold found_chunks. simpl. destruct (Z.eqb_spec rc UNIFYFS_SUCCESS) as [->|Hrc]; cbn [negb].
  2:{ apply (IH (i + 1) vals m); try done; [|lia]. intros _. by apply Hne. }
  destruct (Hc eq_refl) as [c Hch]. simpl in Hch. subst chunks. destruct in_extents as [|e0 es]; [by destruct (Hne ltac:(done))|].
  pose proof Hg as [He0 _]%Forall_cons. subst gfid.
  destruct (next_cell vals m Hm) as (m1 & -> & Hm1). cbn [lbind].
  change (Z.of_nat (length [c])) with 1. rewrite add_one_chunk; [done|]. cbn [lbind].
  destruct (IH (i + 1) (vals ++ [index_of (ue_gfid e0) c]) m1) as (m' & E' & Hm'); try done; [lia|].
  exists m'. split; [|done]. rewrite -app_assoc length_app Nat2Z.inj_add in E'. rewrite -E'. by destruct vals.
Qed.

(** The answer is right when every lookup that succeeds finds one chunk and all
    requests are for the same file. *)
Lemma node_local_extents_single gfid in_extents found m :
  Forall (fun e => ue_gfid e = gfid) in_extents -> length found = length in_extents -> Forall single found -> mem_plenty m ->
  exists m', extents_of_lookups in_extents found m = LRet (m', index_of gfid <$> found_chunks found).
Proof.
  intros Hg Hlen Hone Hm. unfold extents_of_lookups.
  destruct (add_lookups_single gfid in_extents found 0 [] m) as (m' & E & Hm'); try done; [by destruct found, in_extents|].
  simpl in E. rewrite E. cbn [lbind]. clear E. set (all := index_of gfid <$> _).
  destruct (calloc_plenty m' Hm') as (m2 & -> & _). exists m2.
  destruct (Z.eqb_spec (Z.of_nat (length all)) 0) as [E0|Hne]; [by destruct all|].
  assert (cells_of all = Some <$> all) as -> by (by destruct all). simpl. rewrite length_fmap Z.ltb_irrefl Nat2Z.id take_ge; [by rewrite length_fmap|].
  assert (mapM id (Some <$> all) = Some all) as ->; [|done]. clear. induction all as [|x l IH]; [done|]. simpl. by rewrite IH.
Qed.

(** ** Edges *)

(** A client library asks for a range that is in two chunks: the file id of the
    second is read behind the end of the array of requests. *)
Example node_local_extents_overrun :
  extents_of_lookups [UnifyfsExtent 0 8 5] [(UNIFYFS_SUCCESS, [ChunkReq 5 4 0 100 1 1 0; ChunkReq 5 4 4 200 1 1 0])] (Mem 1 []) = LFault.
Proof. done. Qed.

(** Two requests for different files: both answers have the file id of the
    first. *)
Example node_local_extents_wrong_file :
  exists m, extents_of_lookups [UnifyfsExtent 0 4 5; UnifyfsExtent 0 4 6] [(UNIFYFS_SUCCESS, [ChunkReq 5 4 0 100 1 1 0]); (UNIFYFS_SUCCESS, [ChunkReq 6 4 0 300 1 2 0])] (Mem 1 []) =
    LRet (m, [ClientIndex 0 100 4 5 1 1; ClientIndex 0 300 4 5 1 2]).
Proof. by eexists. Qed.

(** Two requests, the second in two chunks: the second chunk overwrites the
    first, and the list ends before the number of chunks is reached. *)
Example node_local_extents_lost_chunk :
  extents_of_lookups [UnifyfsExtent 0 4 5; UnifyfsExtent 8 8 5]
    [(UNIFYFS_SUCCESS, [ChunkReq 5 4 0 100 1 1 0]); (UNIFYFS_SUCCESS, [ChunkReq 5 4 8 200 1 1 0; ChunkReq 5 4 12 300 1 1 0])] (Mem 1 []) = LFault.
Proof. done. Qed.

(** A failed lookup is reported as success, with fewer extents. *)
Example node_local_extents_failure_hidden :
  exists m, extents_of_lookups [UnifyfsExtent 0 4 5] [(UNIFYFS_ERROR_MARGO, [])] (Mem 1 []) = LRet (m, []).
Proof. by eexists. Qed.

(** A request that does not fit in the list and cannot be added for lack of
    memory is dropped, and its call gets no answer from the handler either. *)
Example request_lost_without_memory :
  let queued := ClientReq UNIFYFS_CLIENT_RPC_METAGET (Some 1%nat) (Some (InMetaget 5)) None in
  let st := RmState (Mem 9 [false; false; true]) app_example {[(7, 1) := Some (ArrayList 1 1 [Some queued])]} in
  match serve_call (CallEnv true true) st 2 (ClientCall 7 1 (InUnlink 5)) with
  | LRet (st', resp) => resp = None /\ rs_reqs st' = rs_reqs st
  | _ => False
  end.
Proof. by vm_compute. Qed.

(** ** Witness *)

Definition example_st : rm_state := RmState (Mem 9 []) app_example {[(7, 1) := Some (ArrayList 1 0 [None])]}.

Definition example_evs : list call_event :=
  let env := CallEnv true true in
  [EvCall env 1 (ClientCall 7 1 (InSync 5)); EvCall env 2 (ClientCall 7 9 (InUnlink 5)); EvCall env 3 (ClientCall 7 1 (InMetaget 6)); EvPass (7, 1)].

Lemma example_queues : queues example_st (fun _ => []).
Proof.
  split; [constructor|]. intros [app cl] [c Hc].
  destruct (get_app_client_some _ _ _ _ _ (app_reach_wf 4 _ _ ltac:(lia) app_example_reach) Hc) as (? & ? & _ & _ & _ & _ & _ & _ & _ & Hin).
  apply list_elem_of_singleton in Hin. injection Hin as -> ->. eexists. split; [done|]. split_and!; [by exists 1%nat|done|done|done].
Qed.

