(* ===== verification/Callbacks.v ===== *)
(** * Calls of a server on its clients: unlinked files, heartbeats, failed clients

    When a file is unlinked the server queues a callback for each client that
    has data of it ([unifyfs_inode.c], in [Inode]); the request manager of the
    client makes the calls ([rm_process_client_callbacks] in
    [unifyfs_request_manager.c]), each one once, although the same callback may
    have been queued several times.  A request manager also checks from time to
    time that its client still answers, and reports it as failed otherwise; the
    main thread then removes the client ([unifyfs_server.c]). *)

From S2P Require Import Prelude.
From S2P Require Import LogIO.
From S2P Require Import ArrayList.
From S2P Require Import AppTable.
From S2P Require Import InodeTree.
From S2P Require Import Inode.
From S2P Require Import ClientCalls.
From S2P Require Import ClientCallsProps.

(** ** Callbacks *)

(** [client_callback_e] *)
Definition UNIFYFS_CLIENT_CALLBACK_INVALID : Z := 0.
Definition UNIFYFS_CLIENT_CALLBACK_LAMINATE : Z := 1.
Definition UNIFYFS_CLIENT_CALLBACK_TRUNCATE : Z := 2.
Definition UNIFYFS_CLIENT_CALLBACK_UNLINK : Z := 3.

Record callback_req := CallbackReq {
  cbr_type : Z;
  cbr_app_id : Z;
  cbr_client_id : Z;
  cbr_gfid : Z;
}.

#[export] Instance callback_req_eq_dec : EqDecision callback_req.
Proof. solve_decision. Defined.

(** The comparison for [qsort]; null pointers go to the end. *)
Definition cb_arraylist_compare (elema elemb : option callback_req) : Z :=
  match elema, elemb with
  | None, None => 0
  | None, Some _ => 1
  | Some _, None => -1
  | Some reqa, Some reqb =>
      if cbr_type reqa <? cbr_type reqb then -1
      else if cbr_type reqa >? cbr_type reqb then 1
      else if cbr_app_id reqa <? cbr_app_id reqb then -1
      else if cbr_app_id reqa >? cbr_app_id reqb then 1
      else if cbr_client_id reqa <? cbr_client_id reqb then -1
      else if cbr_client_id reqa >? cbr_client_id reqb then 1
      else if cbr_gfid reqa <? cbr_gfid reqb then -1
      else if cbr_gfid reqa >? cbr_gfid reqb then 1
      else 0
  end.

(** What is done for a callback: a call of the client for an unlinked file,
    whose result is [invoke]; the others are not implemented. *)
Definition callback_result (invoke : callback_req -> Z) (req : callback_req) : Z :=
  if cbr_type req =? UNIFYFS_CLIENT_CALLBACK_UNLINK then invoke req else UNIFYFS_ERROR_NYI.

(** The loop from index [i]: the calls that are made, and the return code.
    [last]: the last callback that was handled, with -1 in all fields at first. *)
Fixpoint callback_loop (invoke : callback_req -> Z) (n : nat) (i : Z) (cbs : option (arraylist_t callback_req)) (last : callback_req) (ret : Z)
    : lres (list callback_req * Z) :=
  match n with
  | O => LRet ([], ret)
  | S n =>
      let! item := lift_option (arraylist_get cbs i) in
      match item with
      | None => callback_loop invoke n (i + 1) cbs last ret
      | Some req =>
          if bool_decide (last = req) then callback_loop invoke n (i + 1) cbs last ret
          else
            let rret := callback_result invoke req in
            let ret := if negb (rret =? UNIFYFS_SUCCESS) then rret else ret in
            let! '(calls, ret) := callback_loop invoke n (i + 1) cbs req ret in
            LRet (if cbr_type req =? UNIFYFS_CLIENT_CALLBACK_UNLINK then req :: calls else calls, ret)
      end
  end.

Section Process.
(** The sorting function of the C library, and the results of the calls. *)
Context (qsort : list (option callback_req) -> list (option callback_req)) (invoke : callback_req -> Z).

(** The new list of the request manager, the calls that were made, and the
    return code. *)
Definition rm_process_client_callbacks (m : mem) (client_callbacks : option (arraylist_t callback_req))
    : lres (mem * option (arraylist_t callback_req) * list callback_req * Z) :=
  let num_client_cbs := arraylist_size client_callbacks in
  if num_client_cbs =? 0 then LRet (m, client_callbacks, [], UNIFYFS_SUCCESS)
  else
    let '(m, new) := arraylist_create m UNIFYFS_CLIENT_MAX_FILES in
    let sorted := (fun l => (arraylist_sort qsort l).1) <$> client_callbacks in
    let! '(calls, ret) := callback_loop invoke (Z.to_nat num_client_cbs) 0 sorted (CallbackReq (-1) (-1) (-1) (-1)) UNIFYFS_SUCCESS in
    LRet (m, new, calls, ret).
End Process.

(** ** Heartbeats *)

Definition check_interval : Z := 30.

(** Whether a call reaches the client and is answered in time, and the answer
    can be read. *)
Record heartbeat_env := HeartbeatEnv {
  hb_forward : bool;
  hb_output : bool;
  hb_ret : Z;
}.

(** An unknown client has no handle, and the call fails. *)
Definition invoke_client_heartbeat_rpc (env : heartbeat_env) (apps : app_table) (app_id client_id : Z) : Z :=
  match get_app_client apps app_id client_id with
  | None => UNIFYFS_ERROR_MARGO
  | Some _ =>
      if negb (hb_forward env) then UNIFYFS_ERROR_MARGO
      else if negb (hb_output env) then UNIFYFS_ERROR_MARGO
      else hb_ret env
  end.

(** The list of failed clients: an entry points to a client of the table. *)
Definition add_failed_client (apps : app_table) (m : mem) (failed : option (arraylist_t app_client)) (app_id client_id : Z)
    : lres (mem * option (arraylist_t app_client) * Z) :=
  match get_app_client apps app_id client_id with
  | None => LRet (m, failed, EINVAL)
  | Some client =>
      match failed with
      | None => LRet (m, None, UNIFYFS_FAILURE)
      | Some l =>
          let! '(m, l, _, rc) := lift_option (arraylist_add m l (Some client)) in
          LRet (m, Some l, if rc =? -1 then UNIFYFS_FAILURE else UNIFYFS_SUCCESS)
      end
  end.

(** The time of the last check is a static variable of the function, and so
    shared by the request managers of all clients.  The result has whether the
    client was asked; an error makes the thread exit. *)
Definition rm_heartbeat (env : heartbeat_env) (apps : app_table) (m : mem) (failed : option (arraylist_t app_client)) (last_check now : Z) (attached : bool)
    (app_id client_id : Z) : lres (mem * option (arraylist_t app_client) * Z * bool * Z) :=
  if negb attached then LRet (m, failed, last_check, false, UNIFYFS_SUCCESS)
  else
    let last_check := if last_check =? 0 then now else last_check in
    let elapsed := now - last_check in
    if elapsed >=? check_interval then
      let rc := invoke_client_heartbeat_rpc env apps app_id client_id in
      if negb (rc =? UNIFYFS_SUCCESS) then
        let! '(m, failed, _) := add_failed_client apps m failed app_id client_id in LRet (m, failed, now, true, rc)
      else LRet (m, failed, now, true, UNIFYFS_SUCCESS)
    else LRet (m, failed, last_check, false, UNIFYFS_SUCCESS).

(** The loop over the failed clients. *)
Fixpoint cleanup_failures (n : nat) (i : Z) (failures : arraylist_t app_client) (apps : app_table) : lres app_table :=
  match n with
  | O => LRet apps
  | S n =>
      let! '(failures, client) := lift_option (arraylist_remove failures i) in
      cleanup_failures n (i + 1) failures
        (match client with
         | Some c => if get_application apps (ac_app_id c) is Some _ then (cleanup_app_client 0 apps c).1 else apps
         | None => apps
         end)
  end.

Definition process_client_failures (m : mem) (failed : option (arraylist_t app_client)) (apps : app_table)
    : lres (mem * option (arraylist_t app_client) * app_table) :=
  match failed with
  | None => LRet (m, None, apps)
  | Some l =>
      if al_size l =? 0 then LRet (m, failed, apps)
      else
        let '(m, new) := arraylist_create m 0 in
        let! apps := cleanup_failures (Z.to_nat (al_size l)) 0 l apps in LRet (m, new, apps)
  end.

(** ** Theorems *)

(** *** The order *)

Definition cb_le (a b : option callback_req) : Prop := cb_arraylist_compare a b <= 0.

(** The comparison is lexicographic. *)
Definition cb_lt (a b : callback_req) : Prop :=
  cbr_type a < cbr_type b \/ cbr_type a = cbr_type b /\
  (cbr_app_id a < cbr_app_id b \/ cbr_app_id a = cbr_app_id b /\
  (cbr_client_id a < cbr_client_id b \/ cbr_client_id a = cbr_client_id b /\ cbr_gfid a < cbr_gfid b)).

Lemma cb_compare_spec a b :
  cb_arraylist_compare (Some a) (Some b) = -1 /\ cb_lt a b \/ cb_arraylist_compare (Some a) (Some b) = 0 /\ a = b \/
  cb_arraylist_compare (Some a) (Some b) = 1 /\ cb_lt b a.
Proof.
  unfold cb_arraylist_compare, cb_lt. rewrite !Z.gtb_ltb.
  repeat (match goal with |- context [?x <? ?y] => destruct (Z.ltb_spec x y) end; [lia|]).
  right. left. split; [done|]. destruct a, b. simpl in *. f_equal; lia.
Qed.

Lemma cb_lt_trans a b c : cb_lt a b -> cb_lt b c -> cb_lt a c.
Proof. unfold cb_lt. lia. Qed.

(** [qsort] needs a total order. *)
Lemma cb_compare_antisym a b : cb_arraylist_compare a b = - cb_arraylist_compare b a.
Proof.
  destruct a as [a|], b as [b|]; try done.
  destruct (cb_compare_spec a b) as [[-> H]|[[-> H]|[-> H]]], (cb_compare_spec b a) as [[-> H']|[[-> H']|[-> H']]]; try done;
    unfold cb_lt in *; subst; exfalso; lia.
Qed.

Lemma cb_lt_irrefl a : ~ cb_lt a a.
Proof. unfold cb_lt. lia. Qed.

Lemma cb_le_some a b : cb_le (Some a) (Some b) <-> cb_lt a b \/ a = b.
Proof.
  unfold cb_le. destruct (cb_compare_spec a b) as [[-> H]|[[-> H]|[-> H]]]; split; auto; try lia.
  intros [H'|<-]; exfalso; [unfold cb_lt in *; lia|by eapply cb_lt_irrefl].
Qed.

Lemma cb_le_trans a b c : cb_le a b -> cb_le b c -> cb_le a c.
Proof.
  destruct a as [a|], b as [b|], c as [c|]; try done. rewrite !cb_le_some. intros [H|<-] [H'|<-]; eauto using cb_lt_trans.
Qed.

(** A sorted array has its null pointers at the end. *)
Lemma sorted_nulls_last l :
  StronglySorted cb_le l -> exists q k, l = (Some <$> q) ++ replicate k None /\ StronglySorted (fun a b => cb_le (Some a) (Some b)) q.
Proof.
  induction 1 as [|x l Hs (q & k & -> & Hq) Hx]; [exists [], 0%nat; by repeat constructor|]. destruct x as [x|].
  - exists (x :: q), k. split; [done|]. constructor; [done|]. rewrite Forall_app in Hx. destruct Hx as [Hx _]. by rewrite Forall_fmap in Hx.
  - destruct q as [|y q]; [by exists [], (S k); repeat constructor|]. by apply Forall_cons in Hx as [[] _].
Qed.

(** *** The loop *)

(** The callbacks that are handled in a sorted list after [last]. *)
Fixpoint handled (last : callback_req) (q : list callback_req) : list callback_req :=
  match q with
  | [] => []
  | req :: q => if bool_decide (last = req) then handled last q else req :: handled req q
  end.

Definition is_unlink (req : callback_req) : bool := cbr_type req =? UNIFYFS_CLIENT_CALLBACK_UNLINK.

(** The code of the last one that failed. *)
Definition last_error (invoke : callback_req -> Z) (ret : Z) (l : list callback_req) : Z :=
  foldl (fun ret req => let rret := callback_result invoke req in if negb (rret =? UNIFYFS_SUCCESS) then rret else ret) ret l.

Lemma callback_loop_handled invoke (arr : arraylist_t callback_req) q : forall pre post last ret,
  al_elems arr = pre ++ (Some <$> q) ++ post -> Z.of_nat (length pre + length q) <= al_size arr ->
  callback_loop invoke (length q) (Z.of_nat (length pre)) (Some arr) last ret =
    LRet (List.filter is_unlink (handled last q), last_error invoke ret (handled last q)).
Proof.
  induction q as [|req q IH]; intros pre post last ret El Hs; [done|]. simpl in Hs.
  simpl. rewrite Z.geb_leb (proj2 (Z.leb_gt _ _)); [lia|]. unfold al_entry. rewrite (proj2 (Z.ltb_ge _ 0)); [lia|].
  rewrite Nat2Z.id El lookup_app_r; [lia|]. rewrite Nat.sub_diag. simpl.
  assert (al_elems arr = (pre ++ [Some req]) ++ (Some <$> q) ++ post) as El' by (by rewrite El -app_assoc).
  replace (Z.of_nat (length pre) + 1) with (Z.of_nat (length (pre ++ [Some req]))) by (rewrite length_app; simpl; lia).
  destruct (bool_decide (last = req)); [eapply IH; [done|rewrite length_app; simpl; lia]|].
  rewrite (IH _ _ _ _ El'); [rewrite length_app; simpl; lia|]. done.
Qed.

(** In a sorted list equal callbacks are next to each other. *)
Lemma handled_once q : forall last,
  StronglySorted (fun a b => cb_le (Some a) (Some b)) q -> Forall (fun b => cb_le (Some last) (Some b)) q ->
  NoDup (handled last q) /\ forall c, c ∈ handled last q <-> c ∈ q /\ c <> last.
Proof.
  induction q as [|req q IH]; intros last Hs Hl; [split; [constructor|set_solver]|].
  apply StronglySorted_inv in Hs as [Hs Hreq]. apply Forall_cons in Hl as [Hlr Hl]. simpl.
  case_bool_decide as E.
  - subst req. destruct (IH last Hs Hl) as [Hn Hin]. split; [done|]. intros c. rewrite Hin elem_of_cons. naive_solver.
  - destruct (IH req Hs Hreq) as [Hn Hin]. split.
    + constructor; [|done]. rewrite Hin. naive_solver.
    + intros c. rewrite !elem_of_cons Hin. split.
      * intros [->|[Hc Hne]]; [split; [by left|congruence]|]. split; [by right|]. intros ->.
        rewrite Forall_forall in Hreq. specialize (Hreq _ Hc). rewrite !cb_le_some in Hreq Hlr.
        destruct Hreq as [Hreq|Heq], Hlr as [Hlr|Heq']; try congruence. by eapply cb_lt_irrefl, cb_lt_trans.
      * intros [[->|Hc] Hne]; [by left|]. destruct (decide (c = req)); [by left|by right].
Qed.

(** The list after sorting. *)
Lemma last_used_pos_queue (q : list callback_req) : forall k i last,
  last_used_pos ((Some <$> q) ++ replicate k None) i last = if q is [] then last else i + Z.of_nat (length q) - 1.
Proof.
  induction q as [|x q IH]; intros k i last; simpl.
  - revert i. induction k as [|k IH]; intros i; [done|]. simpl. apply IH.
  - rewrite IH. destruct q; simpl; lia.
Qed.

Lemma last_error_success invoke l : forall ret,
  last_error invoke ret l = UNIFYFS_SUCCESS <-> ret = UNIFYFS_SUCCESS /\ forall c, c ∈ l -> callback_result invoke c = UNIFYFS_SUCCESS.
Proof.
  induction l as [|x l IH]; intros ret; [set_solver|]. unfold last_error. simpl. fold (last_error invoke).
  rewrite IH. destruct (Z.eqb_spec (callback_result invoke x) UNIFYFS_SUCCESS) as [E|E]; simpl; setoid_rewrite elem_of_cons; naive_solver.
Qed.

(** C29. Callbacks of unlinked files.  A pass over the callbacks of a client
    returns with an empty queue, and has called the client exactly once for each
    unlinked file that was queued, however often and in whatever order; its
    result is a success if and only if all calls succeeded and no other kind of
    callback was queued. *)
Theorem callbacks_once qsort invoke m l q :
  (forall a, qsort a ≡ₚ a) -> (forall a, StronglySorted cb_le (qsort a)) ->
  al_queue l q -> Forall (fun c => 0 <= cbr_type c) q -> mem_plenty m ->
  exists m' l' calls ret, rm_process_client_callbacks qsort invoke m (Some l) = LRet (m', Some l', calls, ret) /\ al_queue l' [] /\
    NoDup calls /\ (forall c, c ∈ calls <-> c ∈ q /\ cbr_type c = UNIFYFS_CLIENT_CALLBACK_UNLINK) /\
    (ret = UNIFYFS_SUCCESS <-> forall c, c ∈ q -> callback_result invoke c = UNIFYFS_SUCCESS).
Proof.
  intros Hperm Hsort Hq Hty Hm. unfold rm_process_client_callbacks. pose proof Hq as ([k El] & Hcap & Hs & H1). simpl. rewrite Hs.
  destruct (Z.eqb_spec (Z.of_nat (length q)) 0) as [E0|Hne].
  { destruct q; [|done]. exists m, l, [], UNIFYFS_SUCCESS. split_and!; try done; [constructor|set_solver|set_solver]. }
  destruct (queue_create (A := callback_req) m UNIFYFS_CLIENT_MAX_FILES) as (m' & l' & -> & Hl' & Hm'); [done|done|].
  destruct (sorted_nulls_last _ (Hsort (al_elems l))) as (q' & k' & Es & Hq').
  assert (q' ≡ₚ q) as Hqq.
  { pose proof (Hperm (al_elems l)) as Hp. rewrite Es El in Hp. apply (omap_Permutation id) in Hp. revert Hp.
    assert (forall (x : list callback_req) n, omap id ((Some <$> x) ++ replicate n None) = x) as Ho; [|by rewrite !Ho].
    clear. intros x n. rewrite omap_app. induction x as [|y x IH]; [by induction n|]. simpl. f_equal. done. }
  assert (length q' = length q) as Hlen by (by rewrite Hqq).
  simpl fmap. set (arr := (arraylist_sort qsort l).1).
  assert (al_elems arr = [] ++ (Some <$> q') ++ replicate k' None) as Ea by (by rewrite /arr /= Es).
  assert (al_size arr = Z.of_nat (length q')) as Hsz by (rewrite /arr /= Es last_used_pos_queue; destruct q'; simpl; lia).
  rewrite Nat2Z.id -Hlen. change 0 with (Z.of_nat (length (@nil (option callback_req)))).
  rewrite (callback_loop_handled invoke arr q' [] _ _ _ Ea); [by rewrite Hsz|]. cbn [lbind].
  set (first := CallbackReq (-1) (-1) (-1) (-1)). rewrite -Hqq in Hty. rewrite Forall_forall in Hty.
  assert (Forall (fun b => cb_le (Some first) (Some b)) q') as Hfirst.
  { apply Forall_forall. intros b Hb%Hty. apply cb_le_some. left. unfold cb_lt, first. simpl. lia. }
  destruct (handled_once q' first Hq' Hfirst) as [Hn Hin].
  assert (forall c, c ∈ handled first q' <-> c ∈ q) as Hin'.
  { intros c. rewrite Hin -Hqq. split; [by intros []|]. intros Hc. split; [done|]. intros ->. by apply Hty in Hc. }
  eexists m', l', _, _. split_and!; [done|done|by apply NoDup_ListNoDup, List.NoDup_filter, NoDup_ListNoDup| |].
  - intros c. rewrite list_elem_of_In List.filter_In -list_elem_of_In Hin'. unfold is_unlink. by rewrite Z.eqb_eq.
  - rewrite last_error_success. split; [|intros H; split; [done|]; intros c ?%Hin'; by apply H].
    intros [_ H] c ?%Hin'. by apply H.
Qed.

(** *** Failed clients *)

(** The clients that are cleaned up leave the table, the others stay. *)
Lemma cleanup_failures_ok cs : forall ids (l : arraylist_t app_client) pre post apps,
  table_wf apps ids -> al_elems l = pre ++ (Some <$> cs) ++ post -> (cs <> [] -> al_size l = Z.of_nat (length pre + length cs)) ->
  NoDup cs -> Forall (fun c => get_app_client apps (ac_app_id c) (ac_client_id c) = Some c) cs ->
  exists apps', cleanup_failures (length cs) (Z.of_nat (length pre)) l apps = LRet apps' /\ table_wf apps' ids /\
    forall id cid, get_app_client apps' id cid = if bool_decide (Exists (fun c => ac_app_id c = id /\ ac_client_id c = cid) cs) then None else get_app_client apps id cid.
Proof.
  induction cs as [|c cs IH]; intros ids l pre post apps Hwf El Hs Hn Hc; [by exists apps|].
  apply NoDup_cons in Hn as [Hnc Hn]. apply Forall_cons in Hc as [Hcl Hc]. specialize (Hs ltac:(done)). cbn [length] in Hs.
  assert (arraylist_get (Some l) (Z.of_nat (length pre)) = Some (Some c)) as Hg.
  { simpl. rewrite Z.geb_leb (proj2 (Z.leb_gt _ _)); [lia|]. unfold al_entry. rewrite (proj2 (Z.ltb_ge _ 0)); [lia|].
    rewrite Nat2Z.id El lookup_app_r; [lia|]. by rewrite Nat.sub_diag. }
  cbn [length cleanup_failures]. unfold arraylist_remove. rewrite Hg. cbn [mbind option_bind lift_option lbind]. set (l1 := ArrayList _ _ _).
  destruct (get_app_client_some _ _ _ _ _ Hwf Hcl) as (i & app & Hga & _). rewrite Hga. unfold cleanup_app_client. cbn [fst].
  pose proof (set_app_client_wf _ _ _ _ _ None Hwf Hcl ltac:(done)) as Hwf'.
  pose proof (fun id cid => get_put_app_client _ _ _ _ _ None id cid Hwf Hcl) as Hget. set (apps1 := set_app_client _ _ _ _) in *.
  replace (Z.of_nat (length pre) + 1) with (Z.of_nat (length (pre ++ [None : option app_client]))) by (rewrite length_app; simpl; lia).
  destruct (IH ids l1 (pre ++ [None]) post apps1 Hwf') as (apps' & E & Hwf2 & H2).
  - subst l1. cbn [al_elems]. rewrite El Nat2Z.id insert_app_r_alt; [lia|]. rewrite Nat.sub_diag -app_assoc. done.
  - intros Hne. subst l1. cbn [al_size]. rewrite (proj2 (Z.eqb_neq _ _)); [destruct cs; [done|]; simpl in *; lia|]. rewrite Hs length_app. simpl. lia.
  - done.
  - apply Forall_forall. intros x Hx. rewrite Forall_forall in Hc. specialize (Hc x Hx). rewrite Hget bool_decide_false; [|done].
    intros [H1 H2]. rewrite H1 H2 in Hc. congruence.
  - exists apps'. split_and!; [done|done|]. intros id cid. rewrite H2 Hget. repeat case_bool_decide; try done.
    all: rewrite ->?Exists_cons in *; naive_solver.
Qed.

(** All clients that were reported as failed leave the table of the server, and
    no others. *)
Lemma failed_clients_removed m l cs apps ids :
  table_wf apps ids -> al_queue l cs -> NoDup cs -> Forall (fun c => get_app_client apps (ac_app_id c) (ac_client_id c) = Some c) cs -> mem_plenty m ->
  exists m' l' apps', process_client_failures m (Some l) apps = LRet (m', Some l', apps') /\ al_queue l' [] /\
    forall id cid, get_app_client apps' id cid = if bool_decide (Exists (fun c => ac_app_id c = id /\ ac_client_id c = cid) cs) then None else get_app_client apps id cid.
Proof.
  intros Hwf Hq Hn Hc Hm. unfold process_client_failures. pose proof Hq as ([k El] & _ & Hs & _). rewrite Hs.
  destruct (Z.eqb_spec (Z.of_nat (length cs)) 0) as [E0|Hne]; [destruct cs; [|done]; by exists m, l, apps|].
  destruct (cleanup_failures_ok cs ids l [] (replicate k None) apps Hwf El) as (apps' & E & _ & H); [by rewrite Hs|done|done|].
  destruct (queue_create (A := app_client) m 0) as (m' & l' & -> & Hl' & _); [done|done|].
  rewrite Nat2Z.id. simpl in E. rewrite E. by exists m', l', apps'.
Qed.

(** ** Witness and edges *)

#[export] Instance cb_le_dec : RelDecision cb_le.
Proof. intros a b. unfold cb_le. apply _. Defined.

#[export] Instance cb_le_transitive : Transitive cb_le.
Proof. intros a b c. apply cb_le_trans. Qed.

#[export] Instance cb_le_total : Total cb_le.
Proof. intros a b. unfold cb_le. rewrite (cb_compare_antisym b a). lia. Qed.

Lemma callbacks_once_witness :
  let u gfid := CallbackReq UNIFYFS_CLIENT_CALLBACK_UNLINK 7 1 gfid in
  let l := ArrayList 4 4 [Some (u 9); Some (u 5); Some (u 9); Some (u 5)] in
  exists m' l' calls ret, rm_process_client_callbacks (merge_sort cb_le) (fun _ => UNIFYFS_SUCCESS) (Mem 1 []) (Some l) = LRet (m', Some l', calls, ret) /\
    NoDup calls /\ u 5 ∈ calls /\ ret = UNIFYFS_SUCCESS.
Proof.
  intros u l.
  destruct (callbacks_once (merge_sort cb_le) (fun _ => UNIFYFS_SUCCESS) (Mem 1 []) l [u 9; u 5; u 9; u 5]) as (m' & l' & calls & ret & E & _ & Hn & Hin & Hr).
  - intros a. apply merge_sort_Permutation.
  - intros a. apply (StronglySorted_merge_sort cb_le).
  - split_and!; [by exists 0%nat|done|done|done].
  - repeat constructor; done.
  - constructor.
  - exists m', l', calls, ret. split_and!; [exact E|exact Hn|apply Hin; split; [set_solver|done]|apply Hr].
    intros c Hc. repeat (apply elem_of_cons in Hc as [->|Hc]; [done|]). by apply elem_of_nil in Hc.
Defined.

(** The request managers of all clients share the time of the last check: once
    one of them has sent its heartbeat, the others do not, although theirs is
    due, and a client that is gone is not noticed. *)
Example heartbeat_shared apps m failed :
  is_Some (get_app_client apps 7 1) ->
  let alive := HeartbeatEnv true true UNIFYFS_SUCCESS in
  let gone := HeartbeatEnv false true UNIFYFS_SUCCESS in
  rm_heartbeat alive apps m failed 100 130 true 7 1 = LRet (m, failed, 130, true, UNIFYFS_SUCCESS) /\
  rm_heartbeat gone apps m failed 130 130 true 7 2 = LRet (m, failed, 130, false, UNIFYFS_SUCCESS).
Proof. intros [c Hc]. unfold rm_heartbeat, invoke_client_heartbeat_rpc. simpl. by rewrite Hc. Qed.
