(* ===== verification/Ini.v ===== *)
(** * The parser of configuration files (common/src/ini.c)

    The parser reads a stream line by line into a buffer of [INI_MAX_LINE]
    bytes and calls a handler for each [name = value] pair.  A line is the
    list of the characters in the buffer; the pointers [start], [end], [name]
    and [value] of the code are the strings they point to, and [start > line]
    is the number of characters skipped.  The handler may fail with [None],
    which stands for a crash of the process.

    The theorems: the parser returns on every stream that can be read to its
    end ([ini_parse_total]); a handler that simulates another one leads to
    simulating results ([ini_parse_sim]); the calls of the handler do not
    depend on what a handler that accepts everything does ([ini_parse_calls]);
    and the lines a program would write, sections and pairs, are read back as
    written ([ini_section_line], [ini_pair_line]). *)
From stdpp Require Import strings.
From Stdlib Require Import Ascii String.
From S2P Require Import Prelude.

(** A C string, without its terminator. *)
Abbreviation cstring := (list ascii).

(** A string literal of the code. *)
Definition cs (s : string) : cstring := list_ascii_of_string s.

Definition NUL : ascii := "000"%char.
Definition newline : ascii := "010"%char.

(** The characters up to the terminator: what string functions see of a
    buffer. *)
Fixpoint cstr (s : list ascii) : cstring :=
  match s with
  | [] => []
  | c :: s => if bool_decide (c = NUL) then [] else c :: cstr s
  end.

(** [isspace] of the C locale. *)
Definition isspace (c : ascii) : bool :=
  let n := nat_of_ascii c in (n =? 32)%nat || ((9 <=? n) && (n <=? 13))%nat.

(** [strchr (chars, c) != NULL] for a character that is not the terminator. *)
Definition in_chars (chars : cstring) (c : ascii) : bool := bool_decide (c ∈ chars).

Definition MAX_SECTION : nat := 50.
Definition MAX_NAME : nat := 50.
Definition INI_MAX_LINE : nat := 200.
Definition INI_START_COMMENT_PREFIXES : cstring := cs ";#".
Definition INI_INLINE_COMMENT_PREFIXES : cstring := cs ";".

(** ** Strings *)

Fixpoint drop_space (s : cstring) : cstring :=
  match s with
  | c :: s' => if isspace c then drop_space s' else s
  | [] => []
  end.

(** [rstrip]: the loop runs from the end of the string to its start. *)
Definition rstrip (s : cstring) : cstring := reverse (drop_space (reverse s)).

(** [lskip], the string from the first character that is not a space. *)
Definition lskip (s : cstring) : cstring := drop_space s.

(** [find_chars_or_comment]: the string up to the character found and the rest
    that starts there, which is empty when there is none. *)
Fixpoint find_chars_or_comment_from (was_space : bool) (s : cstring) (chars : option cstring)
    : cstring * cstring :=
  match s with
  | [] => ([], [])
  | c :: s' =>
      if negb (match chars with Some cl => in_chars cl c | None => false end)
         && negb (was_space && in_chars INI_INLINE_COMMENT_PREFIXES c)
      then let '(l, r) := find_chars_or_comment_from (isspace c) s' chars in (c :: l, r)
      else ([], s)
  end.
Definition find_chars_or_comment (s : cstring) (chars : option cstring) : cstring * cstring :=
  find_chars_or_comment_from false s chars.

(** [strncpy0]: at most [size - 1] characters. *)
Definition strncpy0 (src : cstring) (size : nat) : cstring := take (size - 1) src.

(** ** Readers *)

(** The loop of [ini_reader_string] with room for [num] more characters; the
    line read and what is left of the stream. *)
Fixpoint read_line (num : nat) (s : list ascii) : list ascii * list ascii :=
  match num, s with
  | S num, c :: s' =>
      if bool_decide (c = newline) then ([c], s')
      else let '(l, r) := read_line num s' in (c :: l, r)
  | _, _ => ([], s)
  end.

Definition ini_reader_string (num : nat) (ctx : list ascii) : option (list ascii * list ascii) :=
  if (length ctx =? 0)%nat || (num <? 2)%nat then None else Some (read_line (num - 1) ctx).

(** [fgets] reads the same characters of a file. *)
Definition fgets (num : nat) (file : list ascii) : option (list ascii * list ascii) :=
  if (length file =? 0)%nat || (num <? 2)%nat then None else Some (read_line (num - 1) file).

(** ** The parser *)

(** The local variables of [ini_parse_stream] and the data of the handler. *)
Record ini_state (U : Type) := IniState {
  in_section : cstring;
  in_prev_name : cstring;
  in_lineno : Z;
  in_error : Z;
  in_user : U;
}.
Arguments IniState {U} _ _ _ _ _.
Arguments in_section {U} _.
Arguments in_prev_name {U} _.
Arguments in_lineno {U} _.
Arguments in_error {U} _.
Arguments in_user {U} _.

(** A handler: the data, the section, the name and the value; the data after
    the call and its result, zero for an error. *)
Definition ini_handler (U : Type) : Type := U -> cstring -> cstring -> cstring -> option (U * Z).

Section parse.
Context {U : Type} (handler : ini_handler U).

(** [error = lineno] unless there was an error before. *)
Definition note_error (st : ini_state U) : ini_state U :=
  if bool_decide (in_error st = 0)
  then IniState (in_section st) (in_prev_name st) (in_lineno st) (in_lineno st) (in_user st)
  else st.

(** [if (!HANDLER(user, section, name, value) && !error) error = lineno]. *)
Definition call_handler (st : ini_state U) (name value : cstring) : option (ini_state U) :=
  '(u, ok) ← handler (in_user st) (in_section st) name value;
  let st := IniState (in_section st) (in_prev_name st) (in_lineno st) (in_error st) u in
  Some (if bool_decide (ok = 0) then note_error st else st).

(** The byte order mark at the start of the first line. *)
Definition skip_bom (lineno : Z) (line : list ascii) : nat :=
  match line with
  | a :: b :: c :: _ =>
      if bool_decide (lineno = 1) && (nat_of_ascii a =? 239)%nat && (nat_of_ascii b =? 187)%nat
         && (nat_of_ascii c =? 191)%nat
      then 3%nat else 0%nat
  | _ => 0%nat
  end.

(** A line [[section]]; [start] is the string behind the bracket. *)
Definition parse_section (st : ini_state U) (start : cstring) : ini_state U :=
  match find_chars_or_comment start (Some (cs "]")) with
  | (name, c :: _) =>
      if bool_decide (c = "]"%char)
      then IniState (strncpy0 name MAX_SECTION) [] (in_lineno st) (in_error st) (in_user st)
      else note_error st
  | (_, []) => note_error st
  end.

(** A line [name = value] or [name : value]. *)
Definition parse_pair (st : ini_state U) (start : cstring) : option (ini_state U) :=
  match find_chars_or_comment start (Some (cs "=:")) with
  | (name, c :: value) =>
      if in_chars (cs "=:") c then
        let name := rstrip name in
        let value := fst (find_chars_or_comment value None) in
        let value := rstrip (lskip value) in
        call_handler
          (IniState (in_section st) (strncpy0 name MAX_NAME) (in_lineno st) (in_error st) (in_user st))
          name value
      else Some (note_error st)
  | (_, []) => Some (note_error st)
  end.

(** The body of the loop over the lines. *)
Definition parse_line (st : ini_state U) (line : list ascii) : option (ini_state U) :=
  let st := IniState (in_section st) (in_prev_name st) (in_lineno st + 1) (in_error st) (in_user st) in
  let bom := skip_bom (in_lineno st) line in
  let text := rstrip (cstr (drop bom line)) in
  let start := lskip text in
  let skipped := (bom + (length text - length start))%nat in
  match start with
  | [] => Some st
  | c :: rest =>
      if in_chars INI_START_COMMENT_PREFIXES c then Some st
      else if negb (length (in_prev_name st) =? 0)%nat && (0 <? skipped)%nat
      then call_handler st (in_prev_name st) start
      else if bool_decide (c = "["%char) then Some (parse_section st rest)
      else parse_pair st start
  end.

(** The loop; [None] when the fuel does not suffice or the handler crashes. *)
Fixpoint parse_loop {S : Type} (reader : nat -> S -> option (list ascii * S)) (fuel : nat) (stream : S)
    (st : ini_state U) : option (ini_state U) :=
  match fuel with
  | O => None
  | Datatypes.S fuel =>
      match reader INI_MAX_LINE stream with
      | None => Some st
      | Some (line, stream) => st ← parse_line st line; parse_loop reader fuel stream st
      end
  end.

Definition ini_parse_stream {S : Type} (reader : nat -> S -> option (list ascii * S)) (fuel : nat)
    (stream : S) (user : U) : option (U * Z) :=
  st ← parse_loop reader fuel stream (IniState [] [] 0 0 user);
  Some (in_user st, in_error st).

Definition ini_parse_file (file : list ascii) (user : U) : option (U * Z) :=
  ini_parse_stream fgets (S (length file)) file user.

(** [fopen filename] gives the contents of the file, [None] on failure. *)
Definition ini_parse (fopen : cstring -> option (list ascii)) (filename : cstring) (user : U)
    : option (U * Z) :=
  match fopen filename with
  | None => Some (user, -1)
  | Some file => ini_parse_file file user
  end.

Definition ini_parse_string (string : list ascii) (user : U) : option (U * Z) :=
  ini_parse_stream ini_reader_string (S (length (cstr string))) (cstr string) user.
End parse.

(** ** Termination *)

Lemma read_line_length num s :
  (length (read_line num s).2 <= length s)%nat /\
  ((0 < num)%nat -> s <> [] -> (length (read_line num s).2 < length s)%nat).
Proof.
  revert num; induction s as [|c s IH]; intros [|num]; simpl; try (split; [lia|done || lia]).
  case_bool_decide; simpl; [split; lia|].
  destruct (IH num) as [IH1 _]. destruct (read_line num s); simpl in *. split; lia.
Qed.

Lemma fgets_shorter s line s' : fgets INI_MAX_LINE s = Some (line, s') -> (length s' < length s)%nat.
Proof.
  unfold fgets. destruct s as [|c s]; [done|]. intros [= H].
  destruct (read_line_length (INI_MAX_LINE - 1) (c :: s)) as [_ Hl].
  change (read_line 199 (c :: s) = (line, s')) in H.
  change (INI_MAX_LINE - 1)%nat with 199%nat in Hl. rewrite H in Hl. apply Hl; [lia|done].
Qed.

Section loop.
Context {U S : Type} (handler : ini_handler U) (reader : nat -> S -> option (list ascii * S)).
Context (size : S -> nat).
Hypothesis Hreader : forall s line s', reader INI_MAX_LINE s = Some (line, s') -> (size s' < size s)%nat.

(** Any fuel beyond the size of the stream gives the same result. *)
Lemma parse_loop_fuel f1 f2 s st :
  (size s < f1)%nat -> (size s < f2)%nat ->
  parse_loop handler reader f1 s st = parse_loop handler reader f2 s st.
Proof using Hreader.
  revert f2 s st; induction f1 as [|f1 IH]; intros [|f2] s st H1 H2; [lia..|]. simpl.
  destruct (reader INI_MAX_LINE s) as [[line s']|] eqn:Hr; [|done]. apply Hreader in Hr.
  destruct (parse_line handler st line); [|done]. simpl. apply IH; lia.
Qed.

Hypothesis Hhandler : forall u a b c, is_Some (handler u a b c).

Lemma parse_line_total st line : is_Some (parse_line handler st line).
Proof using Hhandler.
  clear Hreader. unfold parse_line. destruct (lskip _); [by eexists|].
  assert (Hc : forall st n v, is_Some (call_handler handler st n v)).
  { intros st' n v. unfold call_handler. destruct (Hhandler (in_user st') (in_section st') n v) as [[u ok] ->].
    by eexists. }
  repeat case_match; try (by eexists); try apply Hc.
  unfold parse_pair. repeat case_match; try (by eexists); apply Hc.
Qed.

(** The loop returns: a handler that returns and a stream that ends lead to a
    result. *)
Lemma parse_loop_total f s st : (size s < f)%nat -> is_Some (parse_loop handler reader f s st).
Proof using Hreader Hhandler.
  revert s st; induction f as [|f IH]; intros s st Hf; [lia|]. simpl.
  destruct (reader INI_MAX_LINE s) as [[line s']|] eqn:Hr; [|by eexists]. apply Hreader in Hr.
  destruct (parse_line_total st line) as [st' ->]. apply IH. lia.
Qed.
End loop.

(** Parsing a file returns whenever the handler does. *)
Lemma ini_parse_total {U} (handler : ini_handler U) file u :
  (forall u a b c, is_Some (handler u a b c)) -> is_Some (ini_parse_file handler file u).
Proof.
  intros Hh. unfold ini_parse_file, ini_parse_stream.
  destruct (parse_loop_total handler fgets length fgets_shorter Hh (S (length file)) file (IniState [] [] 0 0 u))
    as [st ->]; [lia|by eexists].
Qed.

(** Parsing a string without terminator inside is parsing a file with the same
    characters. *)
Lemma ini_parse_string_file {U} (handler : ini_handler U) s u :
  ini_parse_string handler s u = ini_parse_file handler (cstr s) u.
Proof. done. Qed.

(** ** Simulation of handlers *)

Section sim.
Context {U V : Type} (h1 : ini_handler U) (h2 : ini_handler V) (R : U -> V -> Prop).

(** The second handler returns, with the same result and related data. *)
Definition handler_sim : Prop := forall u v a b c u' ok,
  R u v -> h2 v a b c = Some (u', ok) -> exists w, h1 u a b c = Some (w, ok) /\ R w u'.
Hypothesis Hsim : handler_sim.

Definition state_sim (s1 : ini_state U) (s2 : ini_state V) : Prop :=
  in_section s1 = in_section s2 /\ in_prev_name s1 = in_prev_name s2 /\ in_lineno s1 = in_lineno s2 /\
  in_error s1 = in_error s2 /\ R (in_user s1) (in_user s2).

Lemma note_error_sim s1 s2 : state_sim s1 s2 -> state_sim (note_error s1) (note_error s2).
Proof using. intros (? & ? & ? & He & ?). unfold note_error. rewrite He. by case_bool_decide. Qed.

Lemma call_handler_sim s1 s2 n v s2' :
  state_sim s1 s2 -> call_handler h2 s2 n v = Some s2' ->
  exists s1', call_handler h1 s1 n v = Some s1' /\ state_sim s1' s2'.
Proof using Hsim.
  intros (Hs & Hp & Hl & He & Hr). unfold call_handler.
  destruct (h2 (in_user s2) (in_section s2) n v) as [[w ok]|] eqn:E; [|done]. intros [= <-].
  destruct (Hsim _ _ _ _ _ _ _ Hr E) as (w' & E' & Hr'). rewrite Hs E' /=.
  eexists; split; [done|]. case_bool_decide; [apply note_error_sim|]; by split_and!.
Qed.

Lemma parse_line_sim s1 s2 line s2' :
  state_sim s1 s2 -> parse_line h2 s2 line = Some s2' ->
  exists s1', parse_line h1 s1 line = Some s1' /\ state_sim s1' s2'.
Proof using Hsim.
  intros (Hs & Hp & Hl & He & Hr). unfold parse_line. simpl. rewrite Hs Hp Hl He.
  set (t1 := IniState _ _ _ _ (in_user s1)). set (t2 := IniState _ _ _ _ (in_user s2)).
  assert (Ht : state_sim t1 t2) by by split_and!.
  destruct (lskip _) as [|c rest]; [intros [= <-]; eauto|].
  case_match; [intros [= <-]; eauto|]. case_match; [by apply call_handler_sim|]. case_match.
  - intros [= <-]. eexists; split; [done|]. unfold parse_section.
    repeat case_match; try (by apply note_error_sim). by split_and!.
  - unfold parse_pair. repeat case_match; try (intros [= <-]; eexists; split; [done|by apply note_error_sim]).
    apply call_handler_sim. by split_and!.
Qed.

Lemma parse_loop_sim {S} (reader : nat -> S -> option (list ascii * S)) f s s1 s2 s2' :
  state_sim s1 s2 -> parse_loop h2 reader f s s2 = Some s2' ->
  exists s1', parse_loop h1 reader f s s1 = Some s1' /\ state_sim s1' s2'.
Proof using Hsim.
  revert s s1 s2; induction f as [|f IH]; intros s s1 s2 Hs; [done|]. simpl.
  destruct (reader _ s) as [[line s']|]; [|intros [= <-]; eauto].
  destruct (parse_line h2 s2 line) as [t2|] eqn:E; [|done]. simpl.
  destruct (parse_line_sim _ _ _ _ Hs E) as (t1 & -> & Ht). by apply IH.
Qed.

Lemma ini_parse_sim file u v v' rc :
  R u v -> ini_parse_file h2 file v = Some (v', rc) ->
  exists u', ini_parse_file h1 file u = Some (u', rc) /\ R u' v'.
Proof using Hsim.
  intros Hr. unfold ini_parse_file, ini_parse_stream.
  destruct (parse_loop h2 _ _ file _) as [s2|] eqn:E; [|done]. intros [= <- <-].
  assert (Hi : state_sim (IniState [] [] 0 0 u) (IniState [] [] 0 0 v)) by by split_and!.
  destruct (parse_loop_sim _ _ _ _ _ _ Hi E) as (s1 & -> & Hs).
  destruct Hs as (? & ? & ? & He & ?). simpl. rewrite He. eauto.
Qed.
End sim.

(** ** The calls of the handler *)

(** A handler that records its calls. *)
Definition log_handler : ini_handler (list (cstring * cstring * cstring)) :=
  fun calls s n v => Some (calls ++ [(s, n, v)], 1).

(** The pairs a file contains, with their sections, in order, and the line of
    the first error. *)
Definition ini_calls (file : list ascii) : list (cstring * cstring * cstring) * Z :=
  match ini_parse_file log_handler file [] with
  | Some r => r
  | None => ([], 0)
  end.

Lemma ini_calls_eq file : ini_parse_file log_handler file [] = Some (ini_calls file).
Proof.
  unfold ini_calls. destruct (ini_parse_total log_handler file []) as [r ->]; [intros u a b c; exact (mk_is_Some _ _ eq_refl)|done].
Qed.

(** A handler that accepts every pair is called with the pairs of the file. *)
Lemma ini_parse_calls {U} (f : U -> cstring * cstring * cstring -> U) (handler : ini_handler U)
    (P : U -> Prop) file u :
  (forall u s n v, P u -> handler u s n v = Some (f u (s, n, v), 1) /\ P (f u (s, n, v))) -> P u ->
  ini_parse_file handler file u = Some (foldl f u (ini_calls file).1, (ini_calls file).2) /\
  P (foldl f u (ini_calls file).1).
Proof.
  intros Hh Hu.
  set (R := fun (w : U) calls => w = foldl f u calls /\ P w).
  destruct (ini_parse_sim handler log_handler R) with (file := file) (u := u) (v := @nil (cstring * cstring * cstring))
    (v' := (ini_calls file).1) (rc := (ini_calls file).2) as (u' & E & -> & Hp).
  - intros w calls a b c calls' ok [-> Hp] [= <- <-].
    destruct (Hh (foldl f u calls) a b c Hp) as [Hc Hp'].
    exists (f (foldl f u calls) (a, b, c)). by rewrite /R foldl_app.
  - done.
  - rewrite ini_calls_eq. by destruct (ini_calls file).
  - done.
Qed.

(** ** Reading back what was written *)

Lemma rstrip_snoc s c : rstrip (s ++ [c]) = if isspace c then rstrip s else s ++ [c].
Proof.
  unfold rstrip. rewrite reverse_app /=. destruct (isspace c); [done|].
  by rewrite reverse_cons reverse_involutive.
Qed.

Lemma drop_space_length s : (length (drop_space s) <= length s)%nat.
Proof. induction s as [|c s IH]; simpl; [lia|]. destruct (isspace c); simpl; lia. Qed.

Lemma rstrip_app s v : rstrip v = v -> v <> [] -> rstrip (s ++ v) = s ++ v.
Proof.
  intros Hv Hn. destruct v as [|c v' _] using rev_ind; [done|].
  rewrite app_assoc rstrip_snoc. rewrite rstrip_snoc in Hv. destruct (isspace c); [|done].
  apply (f_equal length) in Hv. unfold rstrip in Hv. rewrite length_reverse length_app in Hv.
  pose proof (drop_space_length (reverse v')) as Hl. rewrite length_reverse in Hl. simpl in Hv. lia.
Qed.

Lemma cstr_id s : NUL ∉ s -> cstr s = s.
Proof.
  induction s as [|c s IH]; [done|]. intros [? ?]%not_elem_of_cons. simpl.
  rewrite bool_decide_eq_false_2; [congruence|]. by rewrite IH.
Qed.

(** A word: neither spaces nor terminators nor any of the given characters. *)
Definition word (avoid : cstring) (s : cstring) : bool :=
  forallb (fun c => negb (isspace c) && negb (in_chars (NUL :: avoid) c)) s.

Lemma word_cons avoid c s :
  word avoid (c :: s) = true -> isspace c = false /\ c <> NUL /\ in_chars avoid c = false /\ word avoid s = true.
Proof.
  unfold word, in_chars. simpl. rewrite !andb_true_iff !negb_true_iff bool_decide_eq_false not_elem_of_cons.
  intros [[? [? ?]] ?]. by rewrite bool_decide_eq_false.
Qed.

Lemma word_no_nul avoid s : word avoid s = true -> NUL ∉ s.
Proof.
  induction s as [|c s IH]; [by intros _ ?%elem_of_nil|].
  intros (_ & ? & _ & ?)%word_cons. apply not_elem_of_cons. split; [congruence|auto].
Qed.

Lemma word_no_newline avoid s : word avoid s = true -> newline ∉ s.
Proof.
  induction s as [|c s IH]; [by intros _ ?%elem_of_nil|].
  intros (Hs & _ & _ & ?)%word_cons. apply not_elem_of_cons. split; [by intros <-|auto].
Qed.

Lemma word_rstrip avoid s : word avoid s = true -> rstrip s = s.
Proof.
  destruct s as [|c s _] using rev_ind; [done|]. unfold word. rewrite forallb_app /=.
  intros [_ [[Hc _]%andb_true_iff _]%andb_true_iff]%andb_true_iff.
  apply negb_true_iff in Hc. by rewrite rstrip_snoc Hc.
Qed.

(** The search passes a word without the characters it looks for. *)
Lemma find_word chars s r w :
  word chars s = true -> w = false ->
  find_chars_or_comment_from w (s ++ r) (Some chars) =
    let '(l, r') := find_chars_or_comment_from false r (Some chars) in (s ++ l, r').
Proof.
  revert w; induction s as [|c s IH]; intros w Hs ->; simpl; [by destruct find_chars_or_comment_from|].
  apply word_cons in Hs as (Hsp & _ & Hc & Hs). rewrite Hc /= Hsp (IH false Hs eq_refl).
  by destruct find_chars_or_comment_from.
Qed.

Lemma find_stop chars c r w :
  in_chars chars c = true -> find_chars_or_comment_from w (c :: r) (Some chars) = ([], c :: r).
Proof. intros Hc. simpl. by rewrite Hc. Qed.

Lemma find_eq r :
  find_chars_or_comment_from false (cs " =" ++ r) (Some (cs "=:")) = ([" "%char], "="%char :: r).
Proof. done. Qed.

(** Sections, names and values that are read back as they are. *)
Definition ini_section_ok (s : cstring) : bool := word (cs "]") s && (length s <? MAX_SECTION)%nat.

Definition ini_name_ok (s : cstring) : bool :=
  match s with
  | [] => false
  | c :: _ => negb (in_chars (cs ";#[") c) && negb (nat_of_ascii c =? 239)%nat && word (cs "=:") s
  end.

Definition ini_value_ok (v : cstring) : bool :=
  bool_decide (NUL ∉ v) && bool_decide (newline ∉ v) && bool_decide (rstrip v = v) && bool_decide (lskip v = v)
  && bool_decide (find_chars_or_comment (" "%char :: v) None = (" "%char :: v, [])).

Section lines.
Context {U : Type} (handler : ini_handler U).

Lemma ini_blank_line st :
  parse_line handler st [newline] =
    Some (IniState (in_section st) (in_prev_name st) (in_lineno st + 1) (in_error st) (in_user st)).
Proof. done. Qed.

Lemma skip_bom_first n c s : nat_of_ascii c <> 239%nat -> skip_bom n (c :: s) = 0%nat.
Proof.
  intros Hc. unfold skip_bom. destruct s as [|? [|? ?]]; [done..|].
  by rewrite (proj2 (Nat.eqb_neq _ _) Hc) andb_false_r.
Qed.

(** The state with the next line number. *)
Definition next_line (st : ini_state U) : ini_state U :=
  IniState (in_section st) (in_prev_name st) (in_lineno st + 1) (in_error st) (in_user st).

(** A line that starts at its first column and is no comment. *)
Lemma parse_line_start st t c rest :
  NUL ∉ t -> rstrip t = c :: rest -> isspace c = false -> nat_of_ascii c <> 239%nat ->
  in_chars INI_START_COMMENT_PREFIXES c = false -> t !! 0%nat = Some c ->
  parse_line handler st (t ++ [newline]) =
    if bool_decide (c = "["%char) then Some (parse_section (next_line st) rest)
    else parse_pair handler (next_line st) (c :: rest).
Proof.
  intros Hn Ht Hc Hb Hm H0. destruct t as [|? t]; [done|]. injection H0 as ->.
  unfold parse_line. cbn [in_lineno in_section in_prev_name in_error in_user].
  rewrite -app_comm_cons (skip_bom_first _ _ _ Hb) drop_0 app_comm_cons.
  rewrite cstr_id; [by intros [?| ?%list_elem_of_singleton]%elem_of_app|].
  rewrite rstrip_snoc /= Ht /= Hc Hm Nat.sub_diag andb_false_r. done.
Qed.

Lemma ini_section_line st sec :
  ini_section_ok sec = true ->
  parse_line handler st (("["%char :: sec ++ cs "]") ++ [newline]) =
    Some (IniState sec [] (in_lineno st + 1) (in_error st) (in_user st)).
Proof.
  intros [Hw Hl%Nat.ltb_lt]%andb_true_iff.
  rewrite (parse_line_start st _ "["%char (sec ++ cs "]")); try done.
  - pose proof (word_no_nul _ _ Hw). rewrite not_elem_of_cons not_elem_of_app. split_and!; try done.
    by intros ?%list_elem_of_singleton.
  - by apply (rstrip_app ("["%char :: sec) (cs "]")).
  - rewrite bool_decide_eq_true_2; [done|]. unfold parse_section, find_chars_or_comment.
    rewrite (find_word _ _ _ _ Hw eq_refl) find_stop; [done|]. simpl. f_equal.
    rewrite /strncpy0 app_nil_r take_ge; [lia|done].
Qed.

Lemma parse_pair_eq st k r :
  word (cs "=:") k = true ->
  parse_pair handler st (k ++ cs " =" ++ r) =
    call_handler handler
      (IniState (in_section st) (strncpy0 k MAX_NAME) (in_lineno st) (in_error st) (in_user st))
      k (rstrip (lskip (fst (find_chars_or_comment r None)))).
Proof.
  intros Hw. unfold parse_pair, find_chars_or_comment at 1. rewrite (find_word _ _ _ _ Hw eq_refl) find_eq.
  by rewrite /= rstrip_snoc /= (word_rstrip _ _ Hw).
Qed.

Lemma ini_pair_line st key v :
  ini_name_ok key = true -> ini_value_ok v = true ->
  parse_line handler st ((key ++ cs " = " ++ v) ++ [newline]) =
    call_handler handler
      (IniState (in_section st) (strncpy0 key MAX_NAME) (in_lineno st + 1) (in_error st) (in_user st)) key v.
Proof.
  unfold ini_name_ok, ini_value_ok. destruct key as [|c key]; [done|].
  intros [[Hc%negb_true_iff Hb%negb_true_iff%Nat.eqb_neq]%andb_true_iff Hw]%andb_true_iff.
  rewrite !andb_true_iff !bool_decide_eq_true. intros [[[[Hn Hnl] Hr] Hl] Hf].
  set (k := c :: key) in *.
  assert (Hs : rstrip (k ++ cs " = " ++ v) = k ++ cs " =" ++ match v with [] => [] | _ => " "%char :: v end).
  { destruct v as [|c' v]; [|by rewrite app_assoc rstrip_app // -app_assoc].
    change (cs " = " ++ []) with (cs " =" ++ [" "%char]). rewrite app_assoc rstrip_snoc /=.
    by apply (rstrip_app k (cs " =")). }
  pose proof (word_cons _ _ _ Hw) as (Hsp & _ & _ & _).
  unfold in_chars in Hc. rewrite bool_decide_eq_false in Hc.
  rewrite (parse_line_start st _ c (key ++ cs " =" ++ match v with [] => [] | _ => " "%char :: v end)); try done.
  - pose proof (word_no_nul _ _ Hw). rewrite !not_elem_of_app. split_and!; [done| |done]. by apply (bool_decide_unpack (NUL ∉ cs " = ")).
  - unfold in_chars. apply bool_decide_eq_false. contradict Hc. revert Hc. clear. set_solver.
  - rewrite bool_decide_eq_false_2; [intros ->; apply Hc; set_solver|].
    rewrite app_comm_cons. fold k. rewrite (parse_pair_eq _ _ _ Hw).
    destruct v as [|c' v]; [done|]. rewrite Hf. cbn [fst]. by rewrite /lskip /= in Hl |- *; rewrite Hl Hr.
Qed.
End lines.

(** ** Files of lines *)

Definition ini_text (lines : list cstring) : list ascii := lines ≫= (fun l => l ++ [newline]).

Definition line_ok (l : cstring) : bool := bool_decide (newline ∉ l) && (length l <? 199)%nat.

Lemma read_line_text num l r :
  newline ∉ l -> (length l < num)%nat -> read_line num (l ++ newline :: r) = (l ++ [newline], r).
Proof.
  revert num; induction l as [|c l IH]; intros [|num] Hn Hl; simpl in *; try lia; [done|].
  apply not_elem_of_cons in Hn as [? ?]. rewrite bool_decide_eq_false_2; [congruence|].
  rewrite IH; [done|lia|done].
Qed.

Lemma fgets_text l r : line_ok l = true -> fgets INI_MAX_LINE (l ++ newline :: r) = Some (l ++ [newline], r).
Proof.
  intros [Hn%bool_decide_eq_true Hl%Nat.ltb_lt]%andb_true_iff. unfold fgets.
  assert (H0 : length (l ++ newline :: r) <> 0%nat) by (rewrite length_app /=; lia).
  rewrite (proj2 (Nat.eqb_neq _ _) H0). cbn [orb]. change (INI_MAX_LINE <? 2)%nat with false. f_equal.
  change (INI_MAX_LINE - 1)%nat with 199%nat. by apply read_line_text.
Qed.

Section text.
Context {U : Type} (handler : ini_handler U).

Fixpoint parse_lines (st : ini_state U) (lines : list cstring) : option (ini_state U) :=
  match lines with
  | [] => Some st
  | l :: lines => st ← parse_line handler st (l ++ [newline]); parse_lines st lines
  end.

Lemma parse_lines_app st l1 l2 :
  parse_lines st (l1 ++ l2) = (st ← parse_lines st l1; parse_lines st l2).
Proof.
  revert st; induction l1 as [|l l1 IH]; intros st; [done|]. simpl.
  destruct (parse_line handler st (l ++ [newline])); [apply IH|done].
Qed.

Lemma parse_loop_text f lines st :
  forallb line_ok lines = true -> (length (ini_text lines) < f)%nat ->
  parse_loop handler fgets f (ini_text lines) st = parse_lines st lines.
Proof.
  revert f st; induction lines as [|l lines IH]; intros [|f] st Hok Hf; try lia; [done|].
  simpl in Hok. apply andb_true_iff in Hok as [Hl Hok].
  change (ini_text (l :: lines)) with ((l ++ [newline]) ++ ini_text lines) in *.
  rewrite !length_app /= in Hf. rewrite -app_assoc. cbn [parse_loop app]. rewrite (fgets_text _ _ Hl).
  destruct (parse_line handler st (l ++ [newline])) eqn:E; simpl; rewrite E; [|done].
  apply IH; [done|lia].
Qed.

(** A file of lines that fit the buffer is parsed line by line. *)
Lemma ini_parse_text lines u :
  forallb line_ok lines = true ->
  ini_parse_file handler (ini_text lines) u =
    (st ← parse_lines (IniState [] [] 0 0 u) lines; Some (in_user st, in_error st)).
Proof.
  intros Hok. unfold ini_parse_file, ini_parse_stream.
  rewrite (parse_loop_text _ _ _ Hok); [lia|done].
Qed.
End text.
