(* ===== verification/Config.v ===== *)
(** * Configuration (common/src/unifyfs_configurator.c, unifyfs_configurator.h)

    The settings of clients and servers.  The macro [UNIFYFS_CONFIGS] is the
    list of settings of that name, and what the code generates from it for
    each setting is a fold over the list.  A configuration is a map from the
    fields of the structure to addresses, and the strings at these addresses
    are the blocks of a heap, so that sharing and double frees are visible:
    an operation that frees or reads a block that is not allocated has the
    result [None].  The structure itself is the caller's and never null.

    What the code asks of its surroundings is a record of operations
    ([platform]): the environment, [getopt_long], the files, [stat], [mkdir],
    the evaluation of expressions by [te_interp], and the type of the
    floating-point numbers with the functions of the C library that read,
    print and convert them. *)
From stdpp Require Import strings.
From Stdlib Require Import Ascii String.
From S2P Require Import Prelude Ini.

Definition UNIFYFS_ERROR_BADCONFIG : Z := 1001.
Definition UNIFYFS_CFG_MAX_MSG : nat := 1024.
Definition LONG_MAX : Z := 9223372036854775807.
Definition LONG_MIN : Z := -9223372036854775808.

(** ** The settings *)

Inductive cfg_type := BOOL | INT | FLOAT | STRING.

(** The validation functions that the list of settings names. *)
Inductive cfg_vfn := NO_CHECK | FILE_CHECK | DIRECTORY_CHECK.

(** An entry of [UNIFYFS_CONFIGS]; [cf_cli] is the option letter and the usage
    text of [UNIFYFS_CFG_CLI], and the default is the text of the macro
    argument after expansion. *)
Record cfg_setting := CFG {
  cf_sec : string;
  cf_key : string;
  cf_typ : cfg_type;
  cf_dv : string;
  cf_vfn : cfg_vfn;
  cf_cli : option (ascii * string);
}.

#[export] Instance cfg_type_eq_dec : EqDecision cfg_type.
Proof. solve_decision. Defined.
#[export] Instance cfg_vfn_eq_dec : EqDecision cfg_vfn.
Proof. solve_decision. Defined.
#[export] Instance cfg_setting_eq_dec : EqDecision cfg_setting.
Proof. solve_decision. Defined.

Definition UNIFYFS_CFG sec key typ dv vfn : cfg_setting := CFG sec key typ dv vfn None.
Definition UNIFYFS_CFG_CLI sec key typ dv vfn opt use : cfg_setting := CFG sec key typ dv vfn (Some (opt, use)).

Open Scope string_scope.
Definition UNIFYFS_CONFIGS : list cfg_setting := [
  UNIFYFS_CFG_CLI "unifyfs" "cleanup" BOOL "off" NO_CHECK "C" "on|off";
  UNIFYFS_CFG_CLI "unifyfs" "configfile" STRING "/etc/unifyfs.conf" FILE_CHECK "f" "specify full path to config file";
  UNIFYFS_CFG_CLI "unifyfs" "daemonize" BOOL "off" NO_CHECK "D" "on|off";
  UNIFYFS_CFG_CLI "unifyfs" "mountpoint" STRING "/unifyfs" NO_CHECK "m" "specify full path to desired mountpoint";
  UNIFYFS_CFG "client" "cwd" STRING "NULLSTRING" NO_CHECK;
  UNIFYFS_CFG "client" "excl_private" BOOL "on" NO_CHECK;
  UNIFYFS_CFG "client" "fsync_persist" BOOL "on" NO_CHECK;
  UNIFYFS_CFG "client" "local_extents" BOOL "off" NO_CHECK;
  UNIFYFS_CFG "client" "node_local_extents" BOOL "off" NO_CHECK;
  UNIFYFS_CFG "client" "max_files" INT "128" NO_CHECK;
  UNIFYFS_CFG "client" "super_magic" BOOL "on" NO_CHECK;
  UNIFYFS_CFG "client" "unlink_usecs" INT "0" NO_CHECK;
  UNIFYFS_CFG "client" "write_index_size" INT "(20 * 1048576)" NO_CHECK;
  UNIFYFS_CFG "client" "write_sync" BOOL "off" NO_CHECK;
  UNIFYFS_CFG_CLI "log" "verbosity" INT "0" NO_CHECK "v" "specify logging verbosity level";
  UNIFYFS_CFG_CLI "log" "file" STRING "unifyfsd.log" NO_CHECK "l" "specify log file name";
  UNIFYFS_CFG_CLI "log" "dir" STRING "/tmp" DIRECTORY_CHECK "L" "specify full path to directory to contain log file";
  UNIFYFS_CFG "log" "on_error" BOOL "off" NO_CHECK;
  UNIFYFS_CFG "logio" "chunk_size" INT "(4 * 1048576)" NO_CHECK;
  UNIFYFS_CFG "logio" "shmem_size" INT "(256 * 1048576)" NO_CHECK;
  UNIFYFS_CFG "logio" "spill_size" INT "(4 * 1073741824)" NO_CHECK;
  UNIFYFS_CFG "logio" "spill_dir" STRING "NULLSTRING" DIRECTORY_CHECK;
  UNIFYFS_CFG "margo" "client_pool_size" INT "4" NO_CHECK;
  UNIFYFS_CFG "margo" "client_timeout" INT "5000" NO_CHECK;
  UNIFYFS_CFG "margo" "lazy_connect" BOOL "on" NO_CHECK;
  UNIFYFS_CFG "margo" "server_pool_size" INT "4" NO_CHECK;
  UNIFYFS_CFG "margo" "server_timeout" INT "15000" NO_CHECK;
  UNIFYFS_CFG "margo" "tcp" BOOL "on" NO_CHECK;
  UNIFYFS_CFG "meta" "range_size" INT "1048576" NO_CHECK;
  UNIFYFS_CFG_CLI "runstate" "dir" STRING "/var/tmp" DIRECTORY_CHECK "R"
    "specify full path to directory to contain server-local state";
  UNIFYFS_CFG_CLI "server" "hostfile" STRING "NULLSTRING" NO_CHECK "H" "specify full path to server hostfile";
  UNIFYFS_CFG_CLI "server" "init_timeout" INT "120" NO_CHECK "t"
    "timeout in seconds to wait for servers to be ready for clients";
  UNIFYFS_CFG "server" "local_extents" BOOL "off" NO_CHECK;
  UNIFYFS_CFG "server" "max_app_clients" INT "256" NO_CHECK;
  UNIFYFS_CFG_CLI "sharedfs" "dir" STRING "NULLSTRING" DIRECTORY_CHECK "S"
    "specify full path to directory to contain server shared files" ].
Close Scope string_scope.

(** The field [sec##_##key] of the structure. *)
Definition cf_field (s : cfg_setting) : string := (cf_sec s +:+ "_" +:+ cf_key s)%string.

(** The setting of a section and a key: the first branch of the chains of
    comparisons whose condition holds. *)
Definition find_setting (section kee : cstring) : option cfg_setting :=
  find (fun s => bool_decide (section = cs (cf_sec s)) && bool_decide (kee = cs (cf_key s))) UNIFYFS_CONFIGS.

Definition type_name (t : cfg_type) : string :=
  match t with BOOL => "BOOL" | INT => "INT" | FLOAT => "FLOAT" | STRING => "STRING" end.

(** ** The heap and the structure *)

Record heap := Heap {
  hp_mem : mem;
  hp_blocks : gmap Z cstring;
}.

(** A new block with the given string, or null. *)
Definition strdup (h : heap) (s : cstring) : option Z * heap :=
  match calloc (hp_mem h) with
  | (Some p, m) => (Some p, Heap m (<[p := s]> (hp_blocks h)))
  | (None, m) => (None, Heap m (hp_blocks h))
  end.

Definition free (h : heap) (p : Z) : option heap :=
  match hp_blocks h !! p with
  | Some _ => Some (Heap (hp_mem h) (delete p (hp_blocks h)))
  | None => None
  end.

(** The structure [unifyfs_cfg_t]: the fields that are not null. *)
Record unifyfs_cfg_t := Cfg {
  c_heap : heap;
  c_fields : gmap string Z;
}.

Definition put_field (c : unifyfs_cfg_t) (f : string) (p : option Z) (h : heap) : unifyfs_cfg_t :=
  Cfg h (match p with Some p => <[f := p]> (c_fields c) | None => delete f (c_fields c) end).

(** The string a field points to; the field may be null. *)
Definition get_field (c : unifyfs_cfg_t) (f : string) : option (option cstring) :=
  match c_fields c !! f with
  | None => Some None
  | Some p => v ← hp_blocks (c_heap c) !! p; Some (Some v)
  end.

(** [cfg->f = strdup(v)]. *)
Definition dup_field (c : unifyfs_cfg_t) (f : string) (v : cstring) : unifyfs_cfg_t :=
  let '(p, h) := strdup (c_heap c) v in put_field c f p h.

(** [if (cfg->f != NULL) { free(cfg->f); cfg->f = NULL; }]. *)
Definition free_field (c : unifyfs_cfg_t) (f : string) : option unifyfs_cfg_t :=
  match c_fields c !! f with
  | None => Some c
  | Some p => h ← free (c_heap c) p; Some (Cfg h (delete f (c_fields c)))
  end.

(** [if (cfg->f != NULL) free(cfg->f); cfg->f = strdup(v)]. *)
Definition set_field (c : unifyfs_cfg_t) (f : string) (v : cstring) : option unifyfs_cfg_t :=
  c ← free_field c f; Some (dup_field c f v).

(** ** The surroundings *)

(** An entry of [struct option] and a result of [getopt_long]. *)
Inductive has_arg := required_argument | optional_argument.
Record getopt_ret := GetoptRet {
  go_c : ascii;
  go_optarg : option cstring;
}.

(** [D] is the type [double].  [pl_stat] gives an error number or the mode;
    [pl_mkdir] zero or an error number; [pl_getopt_long] all results before -1;
    [pl_te_interp] [None] on an error; [pl_strtod] the value, the rest of the
    string ([None] when nothing was read) and whether it is out of range. *)
Record platform (OS D : Type) := Platform {
  pl_getenv : cstring -> option cstring;
  pl_fopen : OS -> cstring -> option (list ascii);
  pl_stat : OS -> cstring -> Z + Z;
  pl_mkdir : OS -> cstring -> Z -> OS * Z;
  pl_getopt_long : list cstring -> cstring -> list (cstring * has_arg * ascii) -> list getopt_ret;
  pl_te_interp : cstring -> option D;
  pl_strtod : cstring -> D * option cstring * bool;
  pl_long : D -> Z;
  pl_6le : D -> cstring;
}.
Arguments pl_getenv {OS D} _ _.
Arguments pl_fopen {OS D} _ _ _.
Arguments pl_stat {OS D} _ _ _.
Arguments pl_mkdir {OS D} _ _ _ _.
Arguments pl_getopt_long {OS D} _ _ _ _.
Arguments pl_te_interp {OS D} _ _.
Arguments pl_strtod {OS D} _ _.
Arguments pl_long {OS D} _ _.
Arguments pl_6le {OS D} _ _.

(** ** Numbers as text *)

(** The value of a digit of a base up to 36. *)
Definition digit_val (c : ascii) : option Z :=
  let n := Z.of_nat (nat_of_ascii c) in
  if (48 <=? n) && (n <=? 57) then Some (n - 48)
  else if (65 <=? n) && (n <=? 90) then Some (n - 55)
  else if (97 <=? n) && (n <=? 122) then Some (n - 87)
  else None.

Definition is_digit (base : Z) (c : ascii) : option Z :=
  d ← digit_val c; if d <? base then Some d else None.

(** The digits of a number and the rest of the string. *)
Fixpoint strtol_digits (base : Z) (acc : Z) (s : cstring) : Z * cstring :=
  match s with
  | [] => (acc, [])
  | c :: s' =>
      match is_digit base c with
      | Some d => strtol_digits base (acc * base + d) s'
      | None => (acc, s)
      end
  end.

(** The base that the prefix of a number selects, and the number without it;
    the prefix 0x counts only before a digit. *)
Definition strtol_base (s : cstring) : Z * cstring :=
  match s with
  | "0"%char :: x :: c :: s' =>
      if in_chars (cs "xX") x && bool_decide (is_Some (is_digit 16 c)) then (16, c :: s') else (8, s)
  | "0"%char :: _ => (8, s)
  | _ => (10, s)
  end.

(** [strtol (s, &end, 0)]: the value, the string at [end] ([None] when it is
    the start, as no digits were found) and whether the value is out of range. *)
Definition strtol (s : cstring) : Z * option cstring * bool :=
  let t := drop_space s in
  let '(neg, t) := match t with
                   | "-"%char :: t => (true, t)
                   | "+"%char :: t => (false, t)
                   | _ => (false, t)
                   end in
  let '(base, t) := strtol_base t in
  match t with
  | c :: _ =>
      match is_digit base c with
      | Some _ =>
          let '(v, rest) := strtol_digits base 0 t in
          let v := if neg then - v else v in
          if v >? LONG_MAX then (LONG_MAX, Some rest, true)
          else if v <? LONG_MIN then (LONG_MIN, Some rest, true)
          else (v, Some rest, false)
      | None => (0, None, false)
      end
  | [] => (0, None, false)
  end.

Definition digit (d : Z) : ascii := ascii_of_nat (Z.to_nat (48 + d)).

Fixpoint dec_digits (fuel : nat) (n : Z) : cstring :=
  match fuel with
  | O => []
  | S fuel => if n <? 10 then [digit n] else dec_digits fuel (n / 10) ++ [digit (n mod 10)]
  end.

(** [%ld]; a [long] has at most 19 digits. *)
Definition dec (z : Z) : cstring := if z <? 0 then "-"%char :: dec_digits 19 (- z) else dec_digits 19 z.

(** [snprintf (buf, len, ...)]: what fits, with its terminator. *)
Definition snprintf (len : nat) (s : cstring) : cstring := take (len - 1) s.

(** ** Checks of values *)

(** The position of the first occurrence of a character. *)
Fixpoint strchr (s : cstring) (c : ascii) : option nat :=
  match s with
  | [] => None
  | x :: s => if bool_decide (x = c) then Some O else S <$> strchr s c
  end.

Definition expr_chars : cstring := cs "()+-*/%^".

(** The loop over the characters of expressions. *)
Fixpoint contains_expression_loop (chars : cstring) (val : cstring) : bool :=
  match chars with
  | [] => false
  | c :: chars =>
      match strchr val c with
      | None => contains_expression_loop chars val
      | Some match_ =>
          if in_chars (cs "+-") c && (0 <? match_)%nat
          then match val !! (match_ - 1)%nat with
               | Some c => negb (in_chars (cs "eE") c)
               | None => true
               end
          else true
      end
  end.
Definition contains_expression (val : cstring) : bool := contains_expression_loop expr_chars val.

(** The return code, and the value when it is zero. *)
Definition configurator_bool_val (val : option cstring) : Z * option bool :=
  match val with
  | None => (EINVAL, None)
  | Some [c] =>
      if in_chars (cs "0fnFN") c then (0, Some false)
      else if in_chars (cs "1tyTY") c then (0, Some true)
      else (1, None)
  | Some val =>
      if bool_decide (val ∈ [cs "no"; cs "off"; cs "false"]) then (0, Some false)
      else if bool_decide (val ∈ [cs "yes"; cs "on"; cs "true"]) then (0, Some true)
      else (EINVAL, None)
  end.

Definition configurator_bool_check (val : option cstring) : Z :=
  match val with
  | None => 0
  | Some _ => (configurator_bool_val val).1
  end.

Section checks.
Context {OS D : Type} (pl : platform OS D).

Definition configurator_int_val (val : option cstring) : Z * option Z :=
  match val with
  | None => (EINVAL, None)
  | Some val =>
      if contains_expression val then
        match pl_te_interp pl val with
        | Some teval => (0, Some (pl_long pl teval))
        | None => (EINVAL, None)
        end
      else
        match strtol val with
        | (_, _, true) => (EINVAL, None)
        | (_, None, _) => (EINVAL, None)
        | (check, Some [], _) => (0, Some check)
        | (check, Some (c :: _), _) => if in_chars (cs "luLU") c then (0, Some check) else (EINVAL, None)
        end
  end.

(** The return code and the address of the new value, if there is one. *)
Definition configurator_int_check (h : heap) (val : option cstring) : Z * option Z * heap :=
  match val with
  | None => (0, None, h)
  | Some v =>
      match configurator_int_val val with
      | (rc, Some l) =>
          if bool_decide (rc = 0) && contains_expression v then
            let '(newval, h) := strdup h (snprintf (length v + 1) (dec l)) in (rc, newval, h)
          else (rc, None, h)
      | (rc, None) => (rc, None, h)
      end
  end.

Definition configurator_float_val (val : option cstring) : Z * option D :=
  match val with
  | None => (EINVAL, None)
  | Some val =>
      if contains_expression val then
        match pl_te_interp pl val with
        | Some teval => (0, Some teval)
        | None => (EINVAL, None)
        end
      else
        match pl_strtod pl val with
        | (_, _, true) => (EINVAL, None)
        | (_, None, _) => (EINVAL, None)
        | (check, Some [], _) => (0, Some check)
        | (check, Some (c :: _), _) => if in_chars (cs "flFL") c then (0, Some check) else (EINVAL, None)
        end
  end.

Definition configurator_float_check (h : heap) (val : option cstring) : Z * option Z * heap :=
  match val with
  | None => (0, None, h)
  | Some v =>
      match configurator_float_val val with
      | (rc, Some d) =>
          if bool_decide (rc = 0) && contains_expression v then
            let '(newval, h) := strdup h (snprintf (length v + 1) (pl_6le pl d)) in (rc, newval, h)
          else (rc, None, h)
      | (rc, None) => (rc, None, h)
      end
  end.

Definition S_IFREG : Z := 32768.
Definition S_IFDIR : Z := 16384.
Definition ENOTDIR : Z := 20.

Definition configurator_file_check (os : OS) (val : option cstring) : Z :=
  match val with
  | None => 0
  | Some val =>
      match pl_stat pl os val with
      | inr st_mode => if bool_decide (Z.land st_mode S_IFREG = 0) then ENOENT else 0
      | inl errno => errno
      end
  end.

Definition configurator_directory_check (os : OS) (val : option cstring) : OS * Z :=
  match val with
  | None => (os, 0)
  | Some val =>
      match pl_stat pl os val with
      | inr st_mode => (os, if bool_decide (Z.land st_mode S_IFDIR = 0) then ENOTDIR else 0)
      | inl _ => pl_mkdir pl os val 504
      end
  end.

(** The return code, the new value and the heap. *)
Definition validate_value (os : OS) (h : heap) (val : option cstring) (typ : cfg_type) (vfn : cfg_vfn)
    : OS * (Z * option Z * heap) :=
  match vfn with
  | FILE_CHECK => (os, (configurator_file_check os val, None, h))
  | DIRECTORY_CHECK => let '(os, rc) := configurator_directory_check os val in (os, (rc, None, h))
  | NO_CHECK =>
      match typ with
      | BOOL => (os, (configurator_bool_check val, None, h))
      | INT => (os, configurator_int_check h val)
      | FLOAT => (os, configurator_float_check h val)
      | STRING => (os, (0, None, h))
      end
  end.

(** One setting of [unifyfs_config_validate]; the return code is that of the
    last setting that is not valid. *)
Definition validate_setting (st : OS * unifyfs_cfg_t * Z) (s : cfg_setting) : option (OS * unifyfs_cfg_t * Z) :=
  let '(os, c, rc) := st in
  val ← get_field c (cf_field s);
  let '(os, (vrc, new_val, h)) := validate_value os (c_heap c) val (cf_typ s) (cf_vfn s) in
  let c := Cfg h (c_fields c) in
  if negb (bool_decide (vrc = 0)) then Some (os, c, vrc)
  else match new_val with
       | Some p => c ← free_field c (cf_field s); Some (os, put_field c (cf_field s) (Some p) (c_heap c), rc)
       | None => Some (os, c, rc)
       end.

(** A step for each setting of a list. *)
Fixpoint each {A S : Type} (f : S -> A -> option S) (st : S) (l : list A) : option S :=
  match l with
  | [] => Some st
  | x :: l => st ← f st x; each f st l
  end.

Definition unifyfs_config_validate (os : OS) (c : unifyfs_cfg_t) : option (OS * unifyfs_cfg_t * Z) :=
  each validate_setting (os, c, UNIFYFS_SUCCESS) UNIFYFS_CONFIGS.
End checks.

(** ** Defaults and the environment *)

(** [cfg->f = strdup(val)] for each setting that has a default. *)
Definition set_default (c : unifyfs_cfg_t) (s : cfg_setting) : unifyfs_cfg_t :=
  if bool_decide (cf_dv s = "NULLSTRING"%string) then c else dup_field c (cf_field s) (cs (cf_dv s)).

Definition unifyfs_config_set_defaults (c : unifyfs_cfg_t) : unifyfs_cfg_t :=
  foldl set_default c UNIFYFS_CONFIGS.

Definition unifyfs_config_fini (c : unifyfs_cfg_t) : option (unifyfs_cfg_t * Z) :=
  c ← each free_field c (cf_field <$> UNIFYFS_CONFIGS); Some (c, UNIFYFS_SUCCESS).

Definition toupper (c : ascii) : ascii :=
  let n := nat_of_ascii c in if (97 <=? n)%nat && (n <=? 122)%nat then ascii_of_nat (n - 32) else c.

(** The name of the environment variable of a setting. *)
Definition env_name (section key : cstring) (mentry : Z) : cstring :=
  cs "UNIFYFS_"
  ++ (if bool_decide (section = cs "unifyfs") then [] else (toupper <$> section) ++ cs "_")
  ++ (toupper <$> key)
  ++ (if bool_decide (mentry = 0) then [] else cs "_" ++ dec mentry).

(** [UNIFYFS_CFG_CLI] settings have an option letter and a long option. *)
Definition cli_settings : list (cfg_setting * (ascii * string)) :=
  omap (fun s => cli ← cf_cli s; Some (s, cli)) UNIFYFS_CONFIGS.

(** [short_opts], built from the settings. *)
Definition short_opts : cstring :=
  ":"%char :: (cli_settings ≫= fun '(s, (opt, _)) =>
    match cf_typ s with
    | BOOL => [opt; ":"%char; ":"%char]
    | _ => [opt; ":"%char]
    end).

(** [cli_options], with the arguments the code sets. *)
Definition cli_options : list (cstring * has_arg * ascii) :=
  (fun '(s, (opt, _)) =>
     (cs (cf_sec s) ++ cs "-" ++ cs (cf_key s),
      match cf_typ s with BOOL => optional_argument | _ => required_argument end,
      opt)) <$> cli_settings.

(** The [switch] on a result of [getopt_long]: the configuration and whether
    there is a usage error. *)
Definition cli_result (c : unifyfs_cfg_t) (r : getopt_ret) : option (unifyfs_cfg_t * bool) :=
  match find (fun s => bool_decide (fst <$> cf_cli s = Some (go_c r))) UNIFYFS_CONFIGS with
  | Some s =>
      match go_optarg r with
      | Some optarg => c ← set_field c (cf_field s) optarg; Some (c, false)
      | None =>
          match cf_typ s with
          | BOOL => c ← set_field c (cf_field s) (cs "on"); Some (c, false)
          | _ => Some (c, false)
          end
      end
  | None => Some (c, in_chars (cs ":?") (go_c r))
  end.

(** The loop over the results, which an error ends. *)
Fixpoint cli_loop (c : unifyfs_cfg_t) (rs : list getopt_ret) : option (unifyfs_cfg_t * bool) :=
  match rs with
  | [] => Some (c, false)
  | r :: rs =>
      '(c, usage_err) ← cli_result c r;
      if usage_err : bool then Some (c, true) else cli_loop c rs
  end.

(** ** Options and files *)

(** One option of [unifyfs_config_process_option]; [name_copy] is a block of
    the heap that is freed before the return. *)
Definition unifyfs_config_process_option (c : unifyfs_cfg_t) (opt_name opt_val : option cstring)
    : option (unifyfs_cfg_t * Z) :=
  match opt_name, opt_val with
  | Some opt_name, Some opt_val =>
      let '(name_copy, h) := strdup (c_heap c) opt_name in
      name_copy ← name_copy;
      let c := Cfg h (c_fields c) in
      '(c, rc) ←
        match strchr opt_name "."%char with
        | None => Some (c, EINVAL)
        | Some period =>
            let section := take period opt_name in
            let kee := drop (S period) opt_name in
            if (length section =? 0)%nat || (length kee =? 0)%nat then Some (c, EINVAL)
            else match find_setting section kee with
                 | None => Some (c, UNIFYFS_SUCCESS)
                 | Some s => c ← set_field c (cf_field s) opt_val; Some (c, UNIFYFS_SUCCESS)
                 end
        end;
      h ← free (c_heap c) name_copy;
      Some (Cfg h (c_fields c), rc)
  | _, _ => Some (c, EINVAL)
  end.

(** The loop over [nopt] options; an entry behind the end of the array cannot
    be read. *)
Fixpoint process_options_loop (c : unifyfs_cfg_t) (nopt : nat) (options : list (option cstring * option cstring))
    : option (unifyfs_cfg_t * Z) :=
  match nopt with
  | O => Some (c, UNIFYFS_SUCCESS)
  | S nopt =>
      match options with
      | [] => None
      | opt :: options =>
          '(c, rc) ← unifyfs_config_process_option c opt.1 opt.2;
          if bool_decide (rc = 0) then process_options_loop c nopt options else Some (c, rc)
      end
  end.

Definition unifyfs_config_process_options (c : unifyfs_cfg_t) (nopt : Z)
    (options : option (list (option cstring * option cstring))) : option (unifyfs_cfg_t * Z) :=
  if nopt >? 0 then
    match options with
    | None => Some (c, EINVAL)
    | Some options => process_options_loop c (Z.to_nat nopt) options
    end
  else Some (c, UNIFYFS_SUCCESS).

(** The handler of the parser: a value from a file replaces a field that is
    null or has its default. *)
Definition inih_config_handler : ini_handler unifyfs_cfg_t := fun c section kee val =>
  match find_setting section kee with
  | None => Some (c, 1)
  | Some s =>
      curval ← get_field c (cf_field s);
      match curval with
      | None => Some (dup_field c (cf_field s) val, 1)
      | Some curval =>
          if bool_decide (cs (cf_dv s) = curval)
          then c ← set_field c (cf_field s) val; Some (c, 1)
          else Some (c, 1)
      end
  end.

Section sources.
Context {OS D : Type} (pl : platform OS D).

Definition getenv_helper (section key : cstring) (mentry : Z) : option cstring :=
  pl_getenv pl (env_name section key mentry).

Definition environ_setting (c : unifyfs_cfg_t) (s : cfg_setting) : option unifyfs_cfg_t :=
  match getenv_helper (cs (cf_sec s)) (cs (cf_key s)) 0 with
  | Some envval => set_field c (cf_field s) envval
  | None => Some c
  end.

Definition unifyfs_config_process_environ (c : unifyfs_cfg_t) : option (unifyfs_cfg_t * Z) :=
  c ← each environ_setting c UNIFYFS_CONFIGS; Some (c, UNIFYFS_SUCCESS).

Definition unifyfs_config_process_cli_args (c : unifyfs_cfg_t) (argv : list cstring)
    : option (unifyfs_cfg_t * Z) :=
  '(c, usage_err) ← cli_loop c (pl_getopt_long pl argv short_opts cli_options);
  Some (c, if usage_err : bool then UNIFYFS_FAILURE else UNIFYFS_SUCCESS).

Definition unifyfs_config_process_ini_file (os : OS) (c : unifyfs_cfg_t) (file : option cstring)
    : option (unifyfs_cfg_t * Z) :=
  match file with
  | None => Some (c, EINVAL)
  | Some file =>
      '(c, inih_rc) ← ini_parse inih_config_handler (pl_fopen pl os) file c;
      Some (c, if bool_decide (inih_rc = 0) then UNIFYFS_SUCCESS
               else if bool_decide (inih_rc = -1) then ENOENT
               else if bool_decide (inih_rc = -2) then ENOMEM
               else UNIFYFS_ERROR_BADCONFIG)
  end.

(** ** Initialisation *)

Definition config_file_field : string := "unifyfs_configfile".

(** [if (rc) return rc;] between two steps. *)
Definition or_return (r : option (unifyfs_cfg_t * Z)) (k : unifyfs_cfg_t -> option (unifyfs_cfg_t * Z))
    : option (unifyfs_cfg_t * Z) :=
  '(c, rc) ← r; if bool_decide (rc = 0) then k c else Some (c, rc).

(** The system configuration file: it is read if it is a regular file, and its
    name, which [syscfg] points to, is freed. *)
Definition process_system_file (os : OS) (c : unifyfs_cfg_t) : option (unifyfs_cfg_t * Z) :=
  let syscfg := c_fields c !! config_file_field in
  name ← get_field c config_file_field;
  or_return
    (if bool_decide (configurator_file_check pl os name = 0)
     then unifyfs_config_process_ini_file os c name
     else Some (c, UNIFYFS_SUCCESS))
    (fun c =>
       h ← match syscfg with Some p => free (c_heap c) p | None => Some (c_heap c) end;
       Some (Cfg h (delete config_file_field (c_fields c)), UNIFYFS_SUCCESS)).

(** The custom configuration file, when one is set. *)
Definition process_custom_file (os : OS) (c : unifyfs_cfg_t) : option (unifyfs_cfg_t * Z) :=
  file ← get_field c config_file_field;
  match file with
  | None => Some (c, UNIFYFS_SUCCESS)
  | Some _ => unifyfs_config_process_ini_file os c file
  end.

(** [unifyfs_config_init] up to the validation. *)
Definition config_gather (os : OS) (h : heap) (argv : list cstring) (nopt : Z)
    (options : option (list (option cstring * option cstring))) : option (unifyfs_cfg_t * Z) :=
  let c := unifyfs_config_set_defaults (Cfg h ∅) in
  or_return (process_system_file os c) (fun c =>
  or_return (unifyfs_config_process_environ c) (fun c =>
  or_return (unifyfs_config_process_options c nopt options) (fun c =>
  or_return (unifyfs_config_process_cli_args c argv) (process_custom_file os)))).

Definition unifyfs_config_init (os : OS) (h : heap) (argv : list cstring) (nopt : Z)
    (options : option (list (option cstring * option cstring))) : option (OS * unifyfs_cfg_t * Z) :=
  '(c, rc) ← config_gather os h argv nopt options;
  if bool_decide (rc = 0) then unifyfs_config_validate pl os c else Some (os, c, rc).
End sources.

(** ** Output *)

(** The text that [unifyfs_config_print] writes. *)
Definition print_setting (c : unifyfs_cfg_t) (s : cfg_setting) : option (list ascii) :=
  val ← get_field c (cf_field s);
  match val with
  | None => Some []
  | Some val =>
      Some (snprintf UNIFYFS_CFG_MAX_MSG
              (cs "UNIFYFS CONFIG: " ++ cs (cf_sec s) ++ cs "." ++ cs (cf_key s) ++ cs " = " ++ val)
            ++ [newline])
  end.

Definition unifyfs_config_print (c : unifyfs_cfg_t) : option (list ascii) :=
  each (fun out s => txt ← print_setting c s; Some (out ++ txt)) [] UNIFYFS_CONFIGS.

(** [unifyfs_config_print_ini]: the text so far and [last_sec]. *)
Definition print_ini_setting (c : unifyfs_cfg_t) (st : list ascii * option string) (s : cfg_setting)
    : option (list ascii * option string) :=
  let '(out, last_sec) := st in
  val ← get_field c (cf_field s);
  match val with
  | None => Some (out, last_sec)
  | Some val =>
      let curr_sec := cf_sec s in
      let out :=
        if bool_decide (last_sec = Some curr_sec) then out
        else out ++ [newline] ++ cs "[" ++ cs curr_sec ++ cs "]" ++ [newline] in
      Some (out ++ cs (cf_key s) ++ cs " = " ++ val ++ [newline], Some curr_sec)
  end.

Definition unifyfs_config_print_ini (c : unifyfs_cfg_t) : option (list ascii) :=
  '(out, _) ← each (print_ini_setting c) ([], None) UNIFYFS_CONFIGS; Some out.

(** The text of the usage message. *)
Definition usage_setting (s : cfg_setting) : list ascii :=
  match cf_cli s with
  | None => []
  | Some (opt, use) =>
      cs "    -" ++ [opt] ++ cs ",--" ++ cs (cf_sec s) ++ cs "-" ++ cs (cf_key s) ++ cs " <"
      ++ cs (type_name (cf_typ s)) ++ cs ">" ++ ["009"%char] ++ cs use ++ cs " (default value: "
      ++ cs (cf_dv s) ++ cs ")" ++ [newline]
  end.

Definition unifyfs_config_cli_usage (arg0 : cstring) : list ascii :=
  cs "USAGE: " ++ arg0 ++ cs " [options]" ++ [newline] ++ (UNIFYFS_CONFIGS ≫= usage_setting).

Definition unifyfs_config_cli_usage_error (arg0 : cstring) (err_msg : option cstring) : list ascii :=
  match err_msg with
  | Some m => cs "USAGE ERROR: " ++ arg0 ++ cs " : " ++ m ++ [newline; newline]
  | None => []
  end ++ unifyfs_config_cli_usage arg0.

(** ** The settings as options *)

(** The second pass of [unifyfs_config_get_options]: the name and the value of
    each field that is set, as new strings of the heap. *)
Definition get_option (st : unifyfs_cfg_t * list (option Z * option Z)) (s : cfg_setting)
    : option (unifyfs_cfg_t * list (option Z * option Z)) :=
  let '(c, opts) := st in
  val ← get_field c (cf_field s);
  match val with
  | None => Some (c, opts)
  | Some val =>
      let '(name, h) := strdup (c_heap c) (snprintf 256 (cs (cf_sec s) ++ cs "." ++ cs (cf_key s))) in
      let '(value, h) := strdup h val in
      Some (Cfg h (c_fields c), opts ++ [(name, value)])
  end.

(** The first pass. *)
Definition num_set (c : unifyfs_cfg_t) : nat :=
  length (filter (fun s => is_Some (c_fields c !! cf_field s)) UNIFYFS_CONFIGS).

(** The array itself is one more allocation. *)
Definition unifyfs_config_get_options (c : unifyfs_cfg_t)
    : option (unifyfs_cfg_t * Z * (Z * list (option Z * option Z))) :=
  match calloc (hp_mem (c_heap c)) with
  | (None, m) => Some (Cfg (Heap m (hp_blocks (c_heap c))) (c_fields c), ENOMEM, (0, []))
  | (Some _, m) =>
      '(c', opts) ← each get_option (Cfg (Heap m (hp_blocks (c_heap c))) (c_fields c), []) UNIFYFS_CONFIGS;
      Some (c', UNIFYFS_SUCCESS, (Z.of_nat (num_set c), opts))
  end.
