(* ===== verification/ConfigProps.v ===== *)
(** * Properties of the configuration

    A configuration that owns its strings ([cfg_ok]) is abstracted to the map
    from its fields to their values ([view]).  Each operation neither frees
    nor reads a block that is not allocated, keeps the ownership and does on
    the map what its specification says. *)
From stdpp Require Import strings.
From Stdlib Require Import Ascii String.
From S2P Require Import Prelude Ini Config.

(** ** Facts on the list of settings *)

Lemma cs_inj s t : cs s = cs t -> s = t.
Proof. intros H. by rewrite -(string_of_list_ascii_of_string s) -(string_of_list_ascii_of_string t) -/(cs s) H. Qed.

Definition field_names : list string := cf_field <$> UNIFYFS_CONFIGS.

Lemma field_names_nodup : NoDup field_names.
Proof. apply (bool_decide_unpack _). vm_compute. exact I. Qed.

Lemma field_inj s t : s ∈ UNIFYFS_CONFIGS -> t ∈ UNIFYFS_CONFIGS -> cf_field s = cf_field t -> s = t.
Proof.
  intros [i Hi]%list_elem_of_lookup [j Hj]%list_elem_of_lookup Hf.
  assert (i = j) as ->; [|congruence].
  apply (NoDup_lookup field_names i j (cf_field s)); [apply field_names_nodup| |];
    unfold field_names; rewrite list_lookup_fmap; [rewrite Hi|rewrite Hj Hf]; done.
Qed.

Lemma field_in s : s ∈ UNIFYFS_CONFIGS -> cf_field s ∈ field_names.
Proof. apply list_elem_of_fmap_2. Qed.

Lemma find_setting_some a b s :
  find_setting a b = Some s -> s ∈ UNIFYFS_CONFIGS /\ a = cs (cf_sec s) /\ b = cs (cf_key s).
Proof.
  unfold find_setting. intros [Hs [Ha%bool_decide_eq_true Hb%bool_decide_eq_true]%andb_true_iff]%find_some.
  by rewrite list_elem_of_In.
Qed.

Lemma find_setting_own s : s ∈ UNIFYFS_CONFIGS -> find_setting (cs (cf_sec s)) (cs (cf_key s)) = Some s.
Proof.
  assert (H : Forall (fun s => cf_field <$> find_setting (cs (cf_sec s)) (cs (cf_key s)) = Some (cf_field s))
                UNIFYFS_CONFIGS) by (apply (bool_decide_unpack _); vm_compute; exact I).
  rewrite Forall_forall in H. intros Hs. specialize (H s Hs).
  destruct (find_setting _ _) as [t|] eqn:E; [|done]. injection H as H.
  apply find_setting_some in E as [Ht _]. f_equal. by apply field_inj.
Qed.

(** The defaults of all settings. *)
Definition default_spec (m : gmap string cstring) (s : cfg_setting) : gmap string cstring :=
  if bool_decide (cf_dv s = "NULLSTRING"%string) then m else <[cf_field s := cs (cf_dv s)]> m.

Definition defaults : gmap string cstring := foldl default_spec ∅ UNIFYFS_CONFIGS.

Lemma defaults_config_file : defaults !! config_file_field = Some (cs "/etc/unifyfs.conf").
Proof. vm_compute. done. Qed.

Lemma config_file_in : config_file_field ∈ field_names.
Proof. apply (bool_decide_unpack _). vm_compute. exact I. Qed.

#[local] Opaque UNIFYFS_CONFIGS field_names.
#[local] Typeclasses Opaque UNIFYFS_CONFIGS field_names.

(** ** Ownership *)

Abbreviation blocks c := (hp_blocks (c_heap c)).

(** The values of the fields. *)
Definition view (c : unifyfs_cfg_t) : gmap string cstring := omap (fun p => blocks c !! p) (c_fields c).

(** Every field points to a block of its own, and all blocks belong to fields
    but those in [extra], which are the caller's. *)
Record cfg_ok (extra : gset Z) (c : unifyfs_cfg_t) : Prop := CfgOk {
  ok_names : forall f p, c_fields c !! f = Some p -> f ∈ field_names;
  ok_extra : forall f p, c_fields c !! f = Some p -> p ∉ extra;
  ok_inj : forall f g p, c_fields c !! f = Some p -> c_fields c !! g = Some p -> f = g;
  ok_live : forall p, is_Some (blocks c !! p) <-> (exists f, c_fields c !! f = Some p) \/ p ∈ extra;
  ok_fresh : forall p, is_Some (blocks c !! p) -> p < mem_next (hp_mem (c_heap c));
  ok_plenty : mem_plenty (hp_mem (c_heap c));
}.

(** An operation that leads from [c] to [c'], which has the values [m], and
    leaves the other blocks alone. *)
Definition becomes (extra : gset Z) (c c' : unifyfs_cfg_t) (m : gmap string cstring) : Prop :=
  cfg_ok extra c' /\ view c' = m /\ forall p, p ∈ extra -> blocks c' !! p = blocks c !! p.

Lemma becomes_refl extra c : cfg_ok extra c -> becomes extra c c (view c).
Proof. done. Qed.

Lemma becomes_trans extra c1 c2 c3 m2 m3 :
  becomes extra c1 c2 m2 -> becomes extra c2 c3 m3 -> becomes extra c1 c3 m3.
Proof.
  intros (_ & _ & H1) (? & ? & H2). split_and!; [done..|]. intros p Hp. by rewrite H2 // H1.
Qed.

Section ownership.
Context (extra : gset Z).
Implicit Types c : unifyfs_cfg_t.

Lemma view_lookup c f p : cfg_ok extra c -> c_fields c !! f = Some p -> view c !! f = blocks c !! p.
Proof. intros _ Hf. by rewrite /view lookup_omap Hf. Qed.

Lemma get_field_ok c f : cfg_ok extra c -> get_field c f = Some (view c !! f).
Proof.
  intros Hc. unfold get_field. destruct (c_fields c !! f) as [p|] eqn:Hf.
  - rewrite (view_lookup _ _ _ Hc Hf).
    destruct (proj2 (ok_live _ _ Hc p) ltac:(eauto)) as [v Hv]. by rewrite Hv.
  - by rewrite /view lookup_omap Hf.
Qed.

Lemma view_none c f : cfg_ok extra c -> (view c !! f = None <-> c_fields c !! f = None).
Proof.
  intros Hc. rewrite /view lookup_omap. destruct (c_fields c !! f) as [p|] eqn:Hf; [|done]. simpl.
  destruct (proj2 (ok_live _ _ Hc p) ltac:(eauto)) as [v Hv]. rewrite Hv. by split.
Qed.

(** A new string is the caller's at first. *)
Lemma strdup_ok c v :
  cfg_ok extra c -> exists p h, strdup (c_heap c) v = (Some p, h) /\ (p ∉ extra) /\ hp_blocks h !! p = Some v /\
    cfg_ok ({[p]} ∪ extra) (Cfg h (c_fields c)) /\ view (Cfg h (c_fields c)) = view c /\
    (forall q, q ∈ extra -> hp_blocks h !! q = blocks c !! q).
Proof.
  intros Hc. unfold strdup. destruct (calloc_plenty _ (ok_plenty _ _ Hc)) as (m & -> & Hm & Hn).
  set (p := mem_next (hp_mem (c_heap c))) in *. eexists p, _. split; [done|].
  assert (Hp : blocks c !! p = None).
  { apply eq_None_not_Some. intros Hp%(ok_fresh _ _ Hc). unfold p in Hp. lia. }
  assert (Hne : forall f q, c_fields c !! f = Some q -> q <> p).
  { intros f q Hf ->. assert (is_Some (blocks c !! p)) as [? ?]; [apply (ok_live _ _ Hc); eauto|congruence]. }
  assert (He : p ∉ extra).
  { intros He. assert (is_Some (blocks c !! p)) as [? ?]; [apply (ok_live _ _ Hc); eauto|congruence]. }
  split_and!; simpl; [done|by rewrite lookup_insert_eq| | |].
  - split; simpl.
    + apply (ok_names _ _ Hc).
    + intros f q Hf. pose proof (ok_extra _ _ Hc f q Hf). pose proof (Hne f q Hf). set_solver.
    + apply (ok_inj _ _ Hc).
    + intros q. destruct (decide (q = p)) as [->|Hq].
      * rewrite lookup_insert_eq. split; [set_solver|eauto].
      * rewrite lookup_insert_ne; [done|]. rewrite (ok_live _ _ Hc). set_solver.
    + intros q. destruct (decide (q = p)) as [->|Hq]; [intros _; unfold p; lia|].
      rewrite lookup_insert_ne; [done|]. intros Hl%(ok_fresh _ _ Hc). lia.
    + done.
  - apply map_eq. intros f. rewrite /view !lookup_omap /=.
    destruct (c_fields c !! f) as [q|] eqn:Hf; [|done]. simpl.
    rewrite lookup_insert_ne; [intros ->; by eapply Hne|done].
  - intros q Hq. rewrite lookup_insert_ne; [by intros ->|done].
Qed.

(** A field takes a string over from the caller. *)
Lemma adopt_ok c f p v :
  cfg_ok ({[p]} ∪ extra) c -> p ∉ extra -> c_fields c !! f = None -> blocks c !! p = Some v -> f ∈ field_names ->
  cfg_ok extra (put_field c f (Some p) (c_heap c)) /\
  view (put_field c f (Some p) (c_heap c)) = <[f := v]> (view c).
Proof.
  intros Hc Hp Hf Hv Hin. unfold put_field. split.
  - split; simpl; [..|apply (ok_fresh _ _ Hc)|apply (ok_plenty _ _ Hc)].
    + intros g q [[-> _]|[_ Hg]]%lookup_insert_Some; [done|by eapply (ok_names _ _ Hc)].
    + intros g q [[-> ->]|[_ Hg]]%lookup_insert_Some; [done|].
      pose proof (ok_extra _ _ Hc g q Hg). set_solver.
    + intros g1 g2 q [[<- <-]|[Hn1 Hg1]]%lookup_insert_Some [[<- Hq]|[Hn2 Hg2]]%lookup_insert_Some; try done.
      * pose proof (ok_extra _ _ Hc g2 p Hg2). set_solver.
      * subst q. pose proof (ok_extra _ _ Hc g1 p Hg1). set_solver.
      * by eapply (ok_inj _ _ Hc).
    + intros q. rewrite (ok_live _ _ Hc q). split.
      * intros [[g Hg]|Hq]; [left; exists g; rewrite lookup_insert_ne //; congruence|].
        apply elem_of_union in Hq as [->%elem_of_singleton|?]; [left; exists f; by rewrite lookup_insert_eq|by right].
      * intros [[g [[-> ->]|[_ Hg]]%lookup_insert_Some]|Hq]; [set_solver|eauto|set_solver].
  - apply map_eq. intros g. rewrite /view lookup_omap /=.
    destruct (decide (g = f)) as [->|Hg]; [by rewrite !lookup_insert_eq|].
    by rewrite !lookup_insert_ne // lookup_omap.
Qed.

Lemma free_extra_ok c p :
  cfg_ok ({[p]} ∪ extra) c -> p ∉ extra -> exists h, free (c_heap c) p = Some h /\
    cfg_ok extra (Cfg h (c_fields c)) /\ view (Cfg h (c_fields c)) = view c /\
    (forall q, q ∈ extra -> hp_blocks h !! q = blocks c !! q).
Proof.
  intros Hc Hp. unfold free.
  destruct (proj2 (ok_live _ _ Hc p) ltac:(set_solver)) as [v Hv]. rewrite Hv. eexists; split; [done|].
  assert (Hne : forall f q, c_fields c !! f = Some q -> q <> p).
  { intros f q Hf ->. pose proof (ok_extra _ _ Hc f p Hf). set_solver. }
  split_and!; simpl.
  - split; simpl; [apply (ok_names _ _ Hc)| |apply (ok_inj _ _ Hc)| | |apply (ok_plenty _ _ Hc)].
    + intros f q Hf. pose proof (ok_extra _ _ Hc f q Hf). set_solver.
    + intros q. destruct (decide (q = p)) as [->|Hq].
      * rewrite lookup_delete_eq. split; [by intros []|]. intros [[f Hf]|?]; [by destruct (Hne f p)|done].
      * rewrite lookup_delete_ne; [done|]. rewrite (ok_live _ _ Hc). set_solver.
    + intros q [? [_ Hq]%lookup_delete_Some]. apply (ok_fresh _ _ Hc). eauto.
  - apply map_eq. intros f. rewrite /view !lookup_omap /=.
    destruct (c_fields c !! f) as [q|] eqn:Hf; [|done]. simpl.
    rewrite lookup_delete_ne; [intros ->; by eapply Hne|done].
  - intros q Hq. rewrite lookup_delete_ne; [by intros ->|done].
Qed.

(** A field gives its string up to the caller. *)
Lemma disown_ok c f p :
  cfg_ok extra c -> c_fields c !! f = Some p ->
  (p ∉ extra) /\ cfg_ok ({[p]} ∪ extra) (Cfg (c_heap c) (delete f (c_fields c))) /\
  view (Cfg (c_heap c) (delete f (c_fields c))) = delete f (view c).
Proof.
  intros Hc Hf. split; [by eapply (ok_extra _ _ Hc)|]. split.
  - split; simpl; [..|apply (ok_fresh _ _ Hc)|apply (ok_plenty _ _ Hc)].
    + intros g q [_ Hg]%lookup_delete_Some. by eapply (ok_names _ _ Hc).
    + intros g q [Hn Hg]%lookup_delete_Some. pose proof (ok_extra _ _ Hc g q Hg).
      assert (q <> p); [|set_solver]. intros ->. apply Hn. by eapply (ok_inj _ _ Hc).
    + intros g1 g2 q [_ H1]%lookup_delete_Some [_ H2]%lookup_delete_Some. by eapply (ok_inj _ _ Hc).
    + intros q. rewrite (ok_live _ _ Hc q). split.
      * intros [[g Hg]|?]; [|set_solver]. destruct (decide (g = f)) as [->|Hgf]; [right; set_solver by congruence|].
        left. exists g. by rewrite lookup_delete_ne.
      * intros [[g [_ Hg]%lookup_delete_Some]|[->%elem_of_singleton|?]%elem_of_union]; eauto.
  - apply map_eq. intros g. rewrite /view lookup_omap /=.
    destruct (decide (g = f)) as [->|Hg]; [by rewrite !lookup_delete_eq|].
    by rewrite !lookup_delete_ne // lookup_omap.
Qed.
End ownership.

(** ** Operations on a field *)

Section fields.
Context (extra : gset Z).
Implicit Types c : unifyfs_cfg_t.

Lemma dup_field_ok c f v :
  cfg_ok extra c -> view c !! f = None -> f ∈ field_names -> becomes extra c (dup_field c f v) (<[f := v]> (view c)).
Proof.
  intros Hc Hf%(view_none _ _ _ Hc) Hin. unfold dup_field.
  destruct (strdup_ok extra c v Hc) as (p & h & -> & Hp & Hv & Hc' & Hview & Hfr).
  destruct (adopt_ok extra _ f p v Hc' Hp Hf Hv Hin) as [Hok Hvw]. rewrite Hview in Hvw.
  by split_and!.
Qed.

Lemma free_field_ok c f :
  cfg_ok extra c -> exists c', free_field c f = Some c' /\ becomes extra c c' (delete f (view c)).
Proof.
  intros Hc. unfold free_field. destruct (c_fields c !! f) as [p|] eqn:Hf.
  - destruct (disown_ok extra c f p Hc Hf) as (Hp & Hc' & Hv).
    destruct (free_extra_ok extra _ p Hc' Hp) as (h & Hfree & Hok & Hvw & Hfr). simpl in *. rewrite Hfree /=.
    eexists; split; [done|]. split_and!; [done|congruence|done].
  - exists c. split; [done|]. rewrite delete_id; [by apply (view_none _ _ _ Hc)|done].
Qed.

Lemma set_field_ok c f v :
  cfg_ok extra c -> f ∈ field_names -> exists c', set_field c f v = Some c' /\ becomes extra c c' (<[f := v]> (view c)).
Proof.
  intros Hc Hin. unfold set_field. destruct (free_field_ok c f Hc) as (c1 & -> & Hb). simpl.
  eexists; split; [done|]. destruct (Hb) as (Hc1 & Hv & _).
  eapply becomes_trans; [exact Hb|]. rewrite -insert_delete_eq -Hv.
  apply dup_field_ok; [done| |done]. by rewrite Hv lookup_delete_eq.
Qed.

(** A list of steps does on the values what their specifications do. *)
Lemma each_ok {A} (f : unifyfs_cfg_t -> A -> option unifyfs_cfg_t) (g : gmap string cstring -> A -> gmap string cstring)
    (l : list A) c :
  (forall c x, x ∈ l -> cfg_ok extra c -> exists c', f c x = Some c' /\ becomes extra c c' (g (view c) x)) ->
  cfg_ok extra c -> exists c', each f c l = Some c' /\ becomes extra c c' (foldl g (view c) l).
Proof.
  revert c; induction l as [|x l IH]; intros c Hf Hc; [by exists c|]. simpl.
  destruct (Hf c x ltac:(left) Hc) as (c1 & -> & Hb1). simpl.
  destruct (IH c1) as (c2 & -> & Hb2); [intros ? ? ?; apply Hf; by right|apply Hb1|].
  exists c2. split; [done|]. destruct (Hb1) as (_ & <- & _). by eapply becomes_trans.
Qed.
End fields.

(** ** Specifications on the values *)

Abbreviation values := (gmap string cstring).

(** A value from a file replaces what is unset or has its default. *)
Definition pick (dv : cstring) (cur : option cstring) (v : cstring) : option cstring :=
  if bool_decide (cur = None \/ cur = Some dv) then Some v else cur.

Definition handler_spec (m : values) (call : cstring * cstring * cstring) : values :=
  let '(a, b, v) := call in
  match find_setting a b with
  | None => m
  | Some s => partial_alter (fun cur => pick (cs (cf_dv s)) cur v) (cf_field s) m
  end.

(** The map and the return code of a step. *)
Definition or_return_spec (r : values * Z) (k : values -> values * Z) : values * Z :=
  if bool_decide (r.2 = 0) then k r.1 else r.

Definition option_spec (m : values) (opt : option cstring * option cstring) : values * Z :=
  match opt with
  | (Some name, Some val) =>
      match strchr name "."%char with
      | None => (m, EINVAL)
      | Some period =>
          let section := take period name in
          let kee := drop (S period) name in
          if (length section =? 0)%nat || (length kee =? 0)%nat then (m, EINVAL)
          else match find_setting section kee with
               | None => (m, 0)
               | Some s => (<[cf_field s := val]> m, 0)
               end
      end
  | _ => (m, EINVAL)
  end.

Fixpoint options_spec (m : values) (opts : list (option cstring * option cstring)) : values * Z :=
  match opts with
  | [] => (m, 0)
  | opt :: opts => or_return_spec (option_spec m opt) (fun m => options_spec m opts)
  end.

(** The value that a result of [getopt_long] gives to a setting. *)
Definition cli_value (s : cfg_setting) (r : getopt_ret) : option cstring :=
  match go_optarg r, cf_typ s with
  | Some v, _ => Some v
  | None, BOOL => Some (cs "on")
  | None, _ => None
  end.

Definition find_cli (c : ascii) : option cfg_setting :=
  find (fun s => bool_decide (fst <$> cf_cli s = Some c)) UNIFYFS_CONFIGS.

Fixpoint cli_spec (m : values) (rs : list getopt_ret) : values * Z :=
  match rs with
  | [] => (m, 0)
  | r :: rs =>
      match find_cli (go_c r) with
      | Some s => cli_spec (match cli_value s r with Some v => <[cf_field s := v]> m | None => m end) rs
      | None => if in_chars (cs ":?") (go_c r) then (m, UNIFYFS_FAILURE) else cli_spec m rs
      end
  end.

Definition ini_code (rc : Z) : Z :=
  if bool_decide (rc = 0) then UNIFYFS_SUCCESS
  else if bool_decide (rc = -1) then ENOENT
  else if bool_decide (rc = -2) then ENOMEM
  else UNIFYFS_ERROR_BADCONFIG.

(** A file with the given contents. *)
Definition file_spec (m : values) (file : option (list ascii)) : values * Z :=
  match file with
  | None => (m, ENOENT)
  | Some t => (foldl handler_spec m (ini_calls t).1, ini_code (ini_calls t).2)
  end.

Section spec.
Context {OS D : Type} (pl : platform OS D).

Definition environ_spec (m : values) (s : cfg_setting) : values :=
  match getenv_helper pl (cs (cf_sec s)) (cs (cf_key s)) 0 with
  | Some v => <[cf_field s := v]> m
  | None => m
  end.

(** The contents of the system configuration file, if it is a regular file. *)
Definition system_file (os : OS) : option (option (list ascii)) :=
  if bool_decide (configurator_file_check pl os (Some (cs "/etc/unifyfs.conf")) = 0)
  then Some (pl_fopen pl os (cs "/etc/unifyfs.conf")) else None.

Definition system_spec (os : OS) (m : values) : values * Z :=
  or_return_spec (match system_file os with Some file => file_spec m file | None => (m, 0) end)
    (fun m => (delete config_file_field m, 0)).

Definition custom_spec (os : OS) (m : values) : values * Z :=
  match m !! config_file_field with
  | None => (m, 0)
  | Some name => file_spec m (pl_fopen pl os name)
  end.

(** What [config_gather] does: each source overrides the ones before, but for
    the custom file. *)
Definition gather_spec (os : OS) (argv : list cstring) (opts : list (option cstring * option cstring)) : values * Z :=
  or_return_spec (system_spec os defaults) (fun m =>
  or_return_spec (options_spec (foldl environ_spec m UNIFYFS_CONFIGS) opts) (fun m =>
  or_return_spec (cli_spec m (pl_getopt_long pl argv short_opts cli_options)) (custom_spec os))).
End spec.
