(* ===== verification/ConfigInit.v ===== *)
(** * The configuration implements its specification

    Each source of settings (defaults, the system file, the environment, the
    options of the caller, the command line, the custom file) does on the
    values of the fields what its specification in ConfigProps.v says, and so
    does their composition. *)
From stdpp Require Import strings.
From Stdlib Require Import Ascii String.
From S2P Require Import Prelude Ini Config ConfigProps.

#[local] Opaque UNIFYFS_CONFIGS field_names.
#[local] Typeclasses Opaque UNIFYFS_CONFIGS field_names.

(** An operation with a return code implements a specification. *)
Definition refines (extra : gset Z) (c : unifyfs_cfg_t) (r : option (unifyfs_cfg_t * Z)) (s : values * Z) : Prop :=
  exists c', r = Some (c', s.2) /\ becomes extra c c' s.1.

Section refinement.
Context (extra : gset Z).
Implicit Types c : unifyfs_cfg_t.

Lemma refines_ret c rc : cfg_ok extra c -> refines extra c (Some (c, rc)) (view c, rc).
Proof. intros Hc. by exists c. Qed.

Lemma refines_trans c c1 m1 r s : becomes extra c c1 m1 -> refines extra c1 r s -> refines extra c r s.
Proof. intros Hb (c2 & -> & Hb2). exists c2. split; [done|]. by eapply becomes_trans. Qed.

Lemma or_return_ok c r s k ks :
  refines extra c r s -> (forall c1, cfg_ok extra c1 -> refines extra c1 (k c1) (ks (view c1))) ->
  refines extra c (or_return r k) (or_return_spec s ks).
Proof.
  intros (c1 & -> & Hb) Hk. unfold or_return, or_return_spec. simpl. case_bool_decide; [|by exists c1].
  destruct (Hb) as (Hc1 & <- & _). eapply refines_trans; [exact Hb|auto].
Qed.

Lemma set_field_refines c s v :
  cfg_ok extra c -> s ∈ UNIFYFS_CONFIGS ->
  refines extra c (c ← set_field c (cf_field s) v; Some (c, 0)) (<[cf_field s := v]> (view c), 0).
Proof.
  intros Hc Hs. destruct (set_field_ok extra c (cf_field s) v Hc (field_in s Hs)) as (c' & -> & Hb). by exists c'.
Qed.

(** ** Defaults *)

Lemma set_defaults_ok l c :
  NoDup (cf_field <$> l) -> l ⊆ UNIFYFS_CONFIGS -> cfg_ok extra c ->
  (forall s, s ∈ l -> view c !! cf_field s = None) ->
  becomes extra c (foldl set_default c l) (foldl default_spec (view c) l).
Proof.
  revert c; induction l as [|s l IH]; intros c Hnd Hsub Hc Hnone; [done|]. simpl.
  apply NoDup_cons in Hnd as [Hs Hnd].
  assert (Hb : becomes extra c (set_default c s) (default_spec (view c) s)).
  { unfold set_default, default_spec. case_bool_decide; [by apply becomes_refl|].
    apply dup_field_ok; [done|apply Hnone; left|apply field_in, Hsub; left]. }
  destruct (Hb) as (Hc1 & Hv1 & _). eapply becomes_trans; [exact Hb|]. rewrite -Hv1.
  apply IH; [done| |done|].
  - intros t Ht. apply Hsub. by right.
  - intros t Ht. rewrite Hv1. unfold default_spec. case_bool_decide; [apply Hnone; by right|].
    rewrite lookup_insert_ne; [|apply Hnone; by right]. intros Heq. apply Hs. rewrite Heq. by apply list_elem_of_fmap_2.
Qed.

(** ** Files *)

Definition spec_handler : ini_handler values := fun m a b v => Some (handler_spec m (a, b, v), 1).

Lemma inih_config_handler_ok c a b v :
  cfg_ok extra c ->
  exists c', inih_config_handler c a b v = Some (c', 1) /\ becomes extra c c' (handler_spec (view c) (a, b, v)).
Proof.
  intros Hc. unfold inih_config_handler, handler_spec.
  destruct (find_setting a b) as [s|] eqn:Hs; [|by exists c].
  apply find_setting_some in Hs as [Hs _]. rewrite (get_field_ok _ _ _ Hc) /=.
  pose proof (field_in s Hs) as Hin.
  assert (Hpa : partial_alter (fun cur => pick (cs (cf_dv s)) cur v) (cf_field s) (view c)
                = match pick (cs (cf_dv s)) (view c !! cf_field s) v with
                  | Some w => <[cf_field s := w]> (view c) | None => delete (cf_field s) (view c) end).
  { apply map_eq. intros g. destruct (decide (g = cf_field s)) as [->|Hg].
    - rewrite lookup_partial_alter_eq. destruct (pick _ _ _); [by rewrite lookup_insert_eq|by rewrite lookup_delete_eq].
    - rewrite lookup_partial_alter_ne; [done|].
      destruct (pick _ _ _); [by rewrite lookup_insert_ne|by rewrite lookup_delete_ne]. }
  rewrite Hpa. unfold pick. destruct (view c !! cf_field s) as [cur|] eqn:Hcur.
  - case_bool_decide as Hd.
    + destruct (set_field_ok extra c (cf_field s) v Hc Hin) as (c' & -> & Hb). exists c'. split; [done|].
      rewrite bool_decide_eq_true_2; [|done]. right. by rewrite Hd.
    + exists c. split; [done|]. rewrite bool_decide_eq_false_2; [intros [|[=]]; congruence|].
      rewrite insert_id; [done|]. by apply becomes_refl.
  - eexists; split; [done|]. rewrite bool_decide_eq_true_2; [by left|]. by apply dup_field_ok.
Qed.

Lemma ini_parse_file_ok c file :
  cfg_ok extra c ->
  refines extra c (ini_parse_file inih_config_handler file c)
    (foldl handler_spec (view c) (ini_calls file).1, (ini_calls file).2).
Proof.
  intros Hc.
  destruct (ini_parse_calls handler_spec spec_handler (fun _ => True) file (view c)) as [Hs _]; [done..|].
  destruct (ini_parse_sim inih_config_handler spec_handler (fun c' m => becomes extra c c' m))
    with (file := file) (u := c) (v := view c)
         (v' := foldl handler_spec (view c) (ini_calls file).1) (rc := (ini_calls file).2) as (c' & Hp & Hb).
  - intros c1 m a b w m' ok Hb [= <- <-]. destruct (Hb) as (Hc1 & <- & _).
    destruct (inih_config_handler_ok c1 a b w Hc1) as (c2 & Hh & Hb2). exists c2. split; [done|].
    by eapply becomes_trans.
  - by apply becomes_refl.
  - done.
  - by exists c'.
Qed.

Section sources.
Context {OS D : Type} (pl : platform OS D).

Lemma process_ini_file_ok os c name :
  cfg_ok extra c ->
  refines extra c (unifyfs_config_process_ini_file pl os c (Some name)) (file_spec (view c) (pl_fopen pl os name)).
Proof.
  intros Hc. unfold unifyfs_config_process_ini_file, ini_parse, file_spec.
  destruct (pl_fopen pl os name) as [t|]; [|by exists c].
  destruct (ini_parse_file_ok c t Hc) as (c' & -> & Hb). by exists c'.
Qed.

Lemma process_environ_ok c :
  cfg_ok extra c ->
  refines extra c (unifyfs_config_process_environ pl c) (foldl (environ_spec pl) (view c) UNIFYFS_CONFIGS, 0).
Proof.
  intros Hc. unfold unifyfs_config_process_environ.
  destruct (each_ok extra (environ_setting pl) (environ_spec pl) UNIFYFS_CONFIGS c) as (c' & -> & Hb); [|done|by exists c'].
  intros c1 s Hs Hc1. unfold environ_setting, environ_spec.
  destruct (getenv_helper pl _ _ 0); [|by exists c1]. apply set_field_ok; [done|by apply field_in].
Qed.

Lemma process_custom_file_ok os c :
  cfg_ok extra c -> refines extra c (process_custom_file pl os c) (custom_spec pl os (view c)).
Proof.
  intros Hc. unfold process_custom_file, custom_spec. rewrite (get_field_ok _ _ _ Hc) /=.
  destruct (view c !! config_file_field); [by apply process_ini_file_ok|by exists c].
Qed.
End sources.
End refinement.

(** ** Options of the caller *)

Section options.
Context (extra : gset Z).
Implicit Types c : unifyfs_cfg_t.

Lemma process_option_ok c opt :
  cfg_ok extra c -> refines extra c (unifyfs_config_process_option c opt.1 opt.2) (option_spec (view c) opt).
Proof.
  intros Hc. destruct opt as [[name|] [val|]]; try (by exists c).
  unfold unifyfs_config_process_option. simpl.
  destruct (strdup_ok extra c name Hc) as (p & h & -> & Hp & _ & Hc1 & Hv1 & Hfr1). simpl.
  set (c1 := Cfg h (c_fields c)) in *.
  assert (Hr : refines ({[p]} ∪ extra) c1
    (match strchr name "."%char with
     | None => Some (c1, EINVAL)
     | Some period =>
         if (length (take period name) =? 0)%nat || (length (drop (S period) name) =? 0)%nat then Some (c1, EINVAL)
         else match find_setting (take period name) (drop (S period) name) with
              | None => Some (c1, UNIFYFS_SUCCESS)
              | Some s => c ← set_field c1 (cf_field s) val; Some (c, UNIFYFS_SUCCESS)
              end
     end) (option_spec (view c1) (Some name, Some val))).
  { unfold option_spec. destruct (strchr name _); [|by exists c1]. destruct (_ || _); [by exists c1|].
    destruct (find_setting _ _) as [s|] eqn:Hs; [|by exists c1].
    apply find_setting_some in Hs as [Hs _]. by apply set_field_refines. }
  rewrite Hv1 in Hr. destruct Hr as (c2 & -> & Hc2 & Hv2 & Hfr2). simpl.
  destruct (free_extra_ok extra c2 p Hc2 Hp) as (h' & -> & Hc3 & Hv3 & Hfr3). simpl.
  eexists; split; [done|]. split_and!; [done|by rewrite Hv3 Hv2|].
  intros q Hq. simpl. rewrite Hfr3 // Hfr2; [set_solver|]. by apply Hfr1.
Qed.

Lemma process_options_ok c nopt opts :
  cfg_ok extra c -> (nopt <= length opts)%nat ->
  refines extra c (process_options_loop c nopt opts) (options_spec (view c) (take nopt opts)).
Proof.
  revert nopt c; induction opts as [|opt opts IH]; intros [|nopt] c Hc Hn; simpl in *; try lia; try by exists c.
  apply (or_return_ok extra c _ _ _ (fun m => options_spec m (take nopt opts))); [by apply process_option_ok|].
  intros c1 Hc1. apply IH; [done|lia].
Qed.

(** ** The command line *)

Lemma cli_loop_ok c rs :
  cfg_ok extra c ->
  refines extra c ('(c, usage_err) ← cli_loop c rs; Some (c, if usage_err : bool then UNIFYFS_FAILURE else UNIFYFS_SUCCESS))
    (cli_spec (view c) rs).
Proof.
  revert c; induction rs as [|r rs IH]; intros c Hc; [by exists c|]. simpl.
  unfold cli_result. fold (find_cli (go_c r)). destruct (find_cli (go_c r)) as [s|] eqn:Hs; simpl.
  - apply find_some in Hs as [Hs%list_elem_of_In _]. pose proof (field_in s Hs) as Hin. unfold cli_value.
    assert (Hstep : forall v, exists c', set_field c (cf_field s) v = Some c' /\
      becomes extra c c' (<[cf_field s := v]> (view c))) by (intros; by apply set_field_ok).
    assert (Hset : forall v, refines extra c
      ('(c, usage_err) ← ('(c, usage_err) ← (c ← set_field c (cf_field s) v; Some (c, false));
                          if usage_err : bool then Some (c, true) else cli_loop c rs);
       Some (c, if usage_err : bool then UNIFYFS_FAILURE else UNIFYFS_SUCCESS))
      (cli_spec (<[cf_field s := v]> (view c)) rs)).
    { intros v. destruct (Hstep v) as (c' & -> & Hb). simpl. destruct (Hb) as (Hc' & Hv & _). rewrite -Hv.
      eapply refines_trans; eauto. }
    destruct (go_optarg r) as [v|]; [apply Hset|]. destruct (cf_typ s); [apply Hset|exact (IH c Hc)..].
  - destruct (in_chars _ (go_c r)); [by exists c|]. by apply IH.
Qed.
End options.

(** ** The system file *)

(** A pair of a file that sets the name of the configuration file. *)
Definition sets_config_file (call : cstring * cstring * cstring) : Prop :=
  let '(a, b, _) := call in cf_field <$> find_setting a b = Some config_file_field.

#[export] Instance sets_config_file_dec call : Decision (sets_config_file call).
Proof. unfold sets_config_file. destruct call as [[? ?] ?]. apply _. Defined.

Section system.
Context (extra : gset Z).
Implicit Types c : unifyfs_cfg_t.

Lemma set_field_keeps c c' f g v : set_field c f v = Some c' -> f <> g -> c_fields c' !! g = c_fields c !! g.
Proof.
  unfold set_field, free_field, dup_field, put_field. intros H Hne.
  destruct (c_fields c !! f); simpl in H; [destruct (free (c_heap c) _); [|done]|];
    injection H as <-; destruct (strdup _ v) as [[?|] ?]; simpl;
    rewrite ?lookup_insert_ne ?lookup_delete_ne //.
Qed.

(** A pair for another setting leaves the address of the name alone. *)
Lemma handler_other c c' a b v :
  inih_config_handler c a b v = Some (c', 1) -> ~ sets_config_file (a, b, v) ->
  c_fields c' !! config_file_field = c_fields c !! config_file_field.
Proof.
  unfold inih_config_handler, sets_config_file. destruct (find_setting a b) as [s|]; [|congruence].
  simpl. intros H Hn. assert (cf_field s <> config_file_field) as Hne by congruence.
  destruct (get_field c (cf_field s)) as [[cur|]|]; simpl in H; [| |done].
  - case_bool_decide; [|congruence]. destruct (set_field c _ v) as [c1|] eqn:E; [|done].
    injection H as <-. by eapply set_field_keeps.
  - injection H as <-. unfold dup_field, put_field. destruct (strdup _ v) as [[?|] ?]; simpl;
      rewrite ?lookup_insert_ne ?lookup_delete_ne //.
Qed.

Lemma ini_parse_file_keeps c file c' rc :
  cfg_ok extra c -> ini_parse_file inih_config_handler file c = Some (c', rc) ->
  Forall (fun call => ~ sets_config_file call) (ini_calls file).1 ->
  c_fields c' !! config_file_field = c_fields c !! config_file_field.
Proof.
  intros Hc Hp Hcalls.
  set (R := fun c' calls => becomes extra c c' (foldl handler_spec (view c) calls) /\
    (Forall (fun call => ~ sets_config_file call) calls ->
     c_fields c' !! config_file_field = c_fields c !! config_file_field)).
  destruct (ini_parse_sim inih_config_handler log_handler R) with (file := file) (u := c)
    (v := @nil (cstring * cstring * cstring)) (v' := (ini_calls file).1) (rc := (ini_calls file).2)
    as (c2 & Hp2 & _ & Hk).
  - intros c1 calls a b w calls' ok [Hb Hk] [= <- <-]. destruct (Hb) as (Hc1 & Hv & _).
    destruct (inih_config_handler_ok extra c1 a b w Hc1) as (c2 & Hh & Hb2). exists c2. split; [done|]. split.
    + rewrite foldl_app -Hv. by eapply becomes_trans.
    + intros [Hf [Hn _]%Forall_cons]%Forall_app. by rewrite (handler_other _ _ _ _ _ Hh Hn) Hk.
  - by split; [apply becomes_refl|].
  - rewrite ini_calls_eq. by destruct (ini_calls file).
  - rewrite Hp in Hp2. injection Hp2 as -> _. by apply Hk.
Qed.

Context {OS D : Type} (pl : platform OS D).

(** The system file, if it can be read, does not set the name of the
    configuration file. *)
Definition system_file_ok (os : OS) : Prop :=
  forall file, system_file pl os = Some (Some file) -> Forall (fun call => ~ sets_config_file call) (ini_calls file).1.

Lemma process_system_file_ok os c :
  cfg_ok extra c -> view c = defaults -> system_file_ok os ->
  refines extra c (process_system_file pl os c) (system_spec pl os (view c)).
Proof.
  intros Hc Hv Hsys. unfold process_system_file, system_spec, system_file_ok in *.
  rewrite (get_field_ok _ _ _ Hc) Hv defaults_config_file -Hv. cbn [mbind option_bind].
  assert (Hr : exists c1, (if bool_decide (configurator_file_check pl os (Some (cs "/etc/unifyfs.conf")) = 0)
       then unifyfs_config_process_ini_file pl os c (Some (cs "/etc/unifyfs.conf"))
       else Some (c, UNIFYFS_SUCCESS)) =
       Some (c1, (match system_file pl os with Some file => file_spec (view c) file | None => (view c, 0) end).2) /\
     becomes extra c c1 (match system_file pl os with Some file => file_spec (view c) file | None => (view c, 0) end).1 /\
     c_fields c1 !! config_file_field = c_fields c !! config_file_field).
  { unfold system_file in *. case_bool_decide; [|by exists c].
    destruct (process_ini_file_ok extra pl os c (cs "/etc/unifyfs.conf") Hc) as (c1 & Hp & Hb).
    exists c1. split_and!; [done..|]. unfold unifyfs_config_process_ini_file, ini_parse in Hp.
    destruct (pl_fopen pl os _) as [t|] eqn:Ht; [|by injection Hp as ->].
    destruct (ini_parse_file _ t c) as [[c2 rc2]|] eqn:Hi; [|done]. injection Hp as ->.
    eapply ini_parse_file_keeps; eauto. }
  destruct Hr as (c1 & -> & Hb & Hf). set (s1 := match system_file pl os with Some _ => _ | None => _ end) in *.
  clearbody s1. unfold or_return, or_return_spec. simpl. case_bool_decide; [|by exists c1].
  destruct (Hb) as (Hc1 & Hv1 & _).
  destruct (c_fields c !! config_file_field) as [p|] eqn:Hp.
  - destruct (disown_ok extra c1 _ p Hc1 Hf) as (Hpe & Hc2 & Hv2).
    destruct (free_extra_ok extra _ p Hc2 Hpe) as (h & Hfree & Hc3 & Hv3 & Hfr3). simpl in *. rewrite Hfree /=.
    eexists; split; [done|]. eapply becomes_trans; [exact Hb|]. split_and!; [done|by rewrite Hv3 Hv2 Hv1|done].
  - apply (view_none extra c _ Hc) in Hp. by rewrite Hv defaults_config_file in Hp.
Qed.

(** ** The whole *)

(** The options the caller passes: an array of at least [nopt] entries. *)
Definition options_ok (nopt : Z) (options : option (list (option cstring * option cstring))) : Prop :=
  match options with
  | Some opts => nopt <= Z.of_nat (length opts)
  | None => nopt <= 0
  end.

Definition given_options (nopt : Z) (options : option (list (option cstring * option cstring)))
    : list (option cstring * option cstring) := take (Z.to_nat nopt) (default [] options).

Lemma config_process_options_ok c nopt options :
  cfg_ok extra c -> options_ok nopt options ->
  refines extra c (unifyfs_config_process_options c nopt options)
    (options_spec (view c) (given_options nopt options)).
Proof.
  intros Hc Ho. unfold unifyfs_config_process_options, options_ok, given_options in *.
  destruct (Z.gtb_spec nopt 0).
  - destruct options as [opts|]; [|lia]. simpl in *. apply process_options_ok; [done|lia].
  - assert (Z.to_nat nopt = 0%nat) as -> by lia. by exists c.
Qed.

(** An empty structure. *)
Lemma cfg_ok_empty h :
  (forall p, is_Some (hp_blocks h !! p) <-> p ∈ extra) ->
  (forall p, is_Some (hp_blocks h !! p) -> p < mem_next (hp_mem h)) -> mem_plenty (hp_mem h) ->
  cfg_ok extra (Cfg h ∅) /\ view (Cfg h ∅) = ∅.
Proof.
  intros Hl Hn Hm. split; [split; simpl; try done|by rewrite /view omap_empty].
  intros p. rewrite Hl. split; [by right|]. by intros [[? ?]|?].
Qed.

Lemma config_gather_refines os h argv nopt options :
  cfg_ok extra (Cfg h ∅) -> system_file_ok os -> options_ok nopt options ->
  refines extra (Cfg h ∅) (config_gather pl os h argv nopt options)
    (gather_spec pl os argv (given_options nopt options)).
Proof.
  intros Hc Hsys Ho. unfold config_gather, gather_spec.
  assert (Hv0 : view (Cfg h ∅) = ∅) by by rewrite /view omap_empty.
  assert (Hd : becomes extra (Cfg h ∅) (unifyfs_config_set_defaults (Cfg h ∅)) defaults).
  { unfold unifyfs_config_set_defaults, defaults. rewrite -Hv0. apply set_defaults_ok; [apply field_names_nodup|done..|].
    intros s _. by rewrite Hv0 lookup_empty. }
  destruct (Hd) as (Hc1 & Hv1 & _). eapply refines_trans; [exact Hd|].
  apply (or_return_ok extra _ _ _ _ (fun m =>
    or_return_spec (options_spec (foldl (environ_spec pl) m UNIFYFS_CONFIGS) (given_options nopt options)) (fun m =>
    or_return_spec (cli_spec m (pl_getopt_long pl argv short_opts cli_options)) (custom_spec pl os)))).
  { rewrite -Hv1. by apply process_system_file_ok. }
  intros c2 Hc2. destruct (process_environ_ok extra pl c2 Hc2) as (c3 & -> & Hb3). unfold or_return at 1. simpl.
  eapply refines_trans; [exact Hb3|]. destruct (Hb3) as (Hc3 & Hv3 & _). simpl in Hv3. rewrite -Hv3.
  apply (or_return_ok extra _ _ _ _ (fun m =>
    or_return_spec (cli_spec m (pl_getopt_long pl argv short_opts cli_options)) (custom_spec pl os))).
  { by apply config_process_options_ok. }
  intros c4 Hc4. apply or_return_ok; [by apply cli_loop_ok|]. intros. by apply process_custom_file_ok.
Qed.
End system.
