(* ===== verification/ConfigValues.v ===== *)
(** * Which value a setting has

    The sources of settings in order of precedence, the round trips of the
    options and of the printed configuration, and the life of the strings of a
    configuration from its initialisation to its end. *)
From stdpp Require Import strings.
From Stdlib Require Import Ascii String.
From S2P Require Import Prelude Ini Config ConfigProps ConfigInit.

(** ** Further facts on the list of settings *)

Lemma find_cli_own s opt use : s ∈ UNIFYFS_CONFIGS -> cf_cli s = Some (opt, use) -> find_cli opt = Some s.
Proof.
  assert (H : Forall (fun s => match cf_cli s with
      | Some (opt, _) => cf_field <$> find_cli opt = Some (cf_field s) | None => True end) UNIFYFS_CONFIGS).
  { repeat (constructor; [vm_compute; done|]). constructor. }
  rewrite Forall_forall in H. intros Hs Hc. specialize (H s Hs). rewrite Hc in H.
  destruct (find_cli opt) as [t|] eqn:E; [|done]. injection H as H.
  apply find_some in E as [Ht%list_elem_of_In _]. f_equal. by apply field_inj.
Qed.

Lemma find_cli_some c s : find_cli c = Some s -> s ∈ UNIFYFS_CONFIGS /\ fst <$> cf_cli s = Some c.
Proof. intros [Hs%list_elem_of_In Hc%bool_decide_eq_true]%find_some. done. Qed.

(** Sections contain no period; sections and keys can be written to a file. *)
Lemma settings_printable s :
  s ∈ UNIFYFS_CONFIGS ->
  ("."%char ∉ cs (cf_sec s)) /\ ini_section_ok (cs (cf_sec s)) = true /\ ini_name_ok (cs (cf_key s)) = true /\
  (0 < length (cs (cf_sec s)) /\ 0 < length (cs (cf_key s)) /\
   length (cs (cf_sec s)) + length (cs (cf_key s)) < 40)%nat.
Proof.
  assert (H : Forall (fun s => ("."%char ∉ cs (cf_sec s)) /\ ini_section_ok (cs (cf_sec s)) = true /\
    ini_name_ok (cs (cf_key s)) = true /\ (0 < length (cs (cf_sec s)) /\ 0 < length (cs (cf_key s)) /\
     length (cs (cf_sec s)) + length (cs (cf_key s)) < 40)%nat) UNIFYFS_CONFIGS)
    by (apply (bool_decide_unpack _); vm_compute; exact I).
  rewrite Forall_forall in H. apply H.
Qed.

(** The names of the environment variables are distinct and fit the buffer of
    [getenv_helper]. *)
Lemma env_names_ok :
  let names := (fun s => env_name (cs (cf_sec s)) (cs (cf_key s)) 0) <$> UNIFYFS_CONFIGS in
  NoDup names /\ Forall (fun n => (length n < 256)%nat) names.
Proof. split; apply (bool_decide_unpack _); vm_compute; exact I. Qed.

(** The option string fits its buffer. *)
Lemma short_opts_ok : (length short_opts < 256)%nat.
Proof. apply (bool_decide_unpack _). vm_compute. exact I. Qed.

#[local] Opaque UNIFYFS_CONFIGS field_names.
#[local] Typeclasses Opaque UNIFYFS_CONFIGS field_names.

(** A step for each setting that changes only its field. *)
Lemma foldl_field (g : values -> cfg_setting -> values) (upd : cfg_setting -> option cstring -> option cstring) m s :
  (forall m s f, g m s !! f = if bool_decide (f = cf_field s) then upd s (m !! f) else m !! f) ->
  s ∈ UNIFYFS_CONFIGS -> foldl g m UNIFYFS_CONFIGS !! cf_field s = upd s (m !! cf_field s).
Proof.
  intros Hg Hs.
  assert (Hl : forall l m, NoDup (cf_field <$> l) -> l ⊆ UNIFYFS_CONFIGS ->
    foldl g m l !! cf_field s = if bool_decide (s ∈ l) then upd s (m !! cf_field s) else m !! cf_field s).
  { clear m. induction l as [|t l IH]; intros m Hnd Hsub; [done|]. cbn [foldl].
    apply NoDup_cons in Hnd as [Ht Hnd]. rewrite (IH _ Hnd); [set_solver|]. rewrite Hg.
    destruct (decide (s = t)) as [->|Hst].
    - rewrite (bool_decide_eq_true_2 (cf_field t = cf_field t)); [done|].
      rewrite (bool_decide_eq_true_2 (t ∈ t :: l)); [left|].
      rewrite bool_decide_eq_false_2; [|done]. intros Hin. apply Ht. by apply list_elem_of_fmap_2.
    - rewrite (bool_decide_eq_false_2 (cf_field s = cf_field t)).
      { intros Heq%field_inj; [done|done|apply Hsub; left]. }
      rewrite (bool_decide_ext (s ∈ t :: l) (s ∈ l)); [set_solver|done]. }
  rewrite Hl; [apply field_names_nodup|done|]. by rewrite bool_decide_eq_true_2.
Qed.

(** ** The value of each source *)

(** The default of a setting. *)
Definition default_value (s : cfg_setting) : option cstring :=
  if bool_decide (cf_dv s = "NULLSTRING"%string) then None else Some (cs (cf_dv s)).

Lemma defaults_lookup s : s ∈ UNIFYFS_CONFIGS -> defaults !! cf_field s = default_value s.
Proof.
  intros Hs. unfold defaults.
  rewrite (foldl_field _ (fun s cur => match default_value s with Some v => Some v | None => cur end)).
  - intros m t f. unfold default_spec, default_value. repeat case_bool_decide; try done; subst.
    + by rewrite lookup_insert_eq.
    + by rewrite lookup_insert_ne.
  - done.
  - rewrite lookup_empty. by destruct (default_value s).
Qed.

(** The last of the values of a source, if there are any, overrides. *)
Definition override (cur : option cstring) (vals : list cstring) : option cstring :=
  match last vals with Some v => Some v | None => cur end.

Lemma override_cons cur v vals : override cur (v :: vals) = override (Some v) vals.
Proof. unfold override. rewrite last_cons. by destruct (last vals). Qed.

(** The values that the pairs of a file give to a setting. *)
Definition file_values (s : cfg_setting) (calls : list (cstring * cstring * cstring)) : list cstring :=
  omap (fun '(a, b, v) => if bool_decide (a = cs (cf_sec s)) && bool_decide (b = cs (cf_key s)) then Some v else None)
    calls.

Lemma handler_spec_lookup m calls s :
  s ∈ UNIFYFS_CONFIGS ->
  foldl handler_spec m calls !! cf_field s = foldl (pick (cs (cf_dv s))) (m !! cf_field s) (file_values s calls).
Proof.
  intros Hs. revert m; induction calls as [|[[a b] v] calls IH]; intros m; [done|].
  cbn [foldl]. rewrite IH. unfold file_values. cbn [omap list_omap]. unfold handler_spec at 1.
  destruct (decide (a = cs (cf_sec s) /\ b = cs (cf_key s))) as [[-> ->]|Hne].
  - rewrite (find_setting_own s Hs). rewrite !bool_decide_eq_true_2; [done..|].
    by rewrite lookup_partial_alter_eq.
  - assert (bool_decide (a = cs (cf_sec s)) && bool_decide (b = cs (cf_key s)) = false) as ->.
    { apply not_true_iff_false. by rewrite andb_true_iff !bool_decide_eq_true. }
    destruct (find_setting a b) as [t|] eqn:Ht; [|done].
    apply find_setting_some in Ht as (Ht & -> & ->).
    rewrite lookup_partial_alter_ne; [|done]. intros ->%field_inj; [by destruct Hne|done..].
Qed.

(** The values that options give to a setting. *)
Definition option_value (s : cfg_setting) (o : option cstring * option cstring) : option cstring :=
  match o with
  | (Some n, Some v) => if bool_decide (n = cs (cf_sec s) ++ "."%char :: cs (cf_key s)) then Some v else None
  | _ => None
  end.
Definition option_values (s : cfg_setting) (opts : list (option cstring * option cstring)) : list cstring :=
  omap (option_value s) opts.

Lemma strchr_some n c i : strchr n c = Some i <-> n = take i n ++ c :: drop (S i) n /\ (c ∉ take i n).
Proof.
  revert i; induction n as [|x n IH]; intros i; simpl.
  { split; [done|]. intros [H _]. by destruct i. }
  case_bool_decide as Hx.
  - split; [intros [= <-]; subst; split; [done|apply not_elem_of_nil]|]. intros [_ Hn].
    destruct i as [|i]; [done|]. simpl in Hn. apply not_elem_of_cons in Hn as [Hn _]. congruence.
  - split.
    + destruct (strchr n c) as [j|] eqn:E; [|done]. intros [= <-].
      destruct (proj1 (IH j) eq_refl) as [H1 H2]. simpl. split; [by f_equal|].
      apply not_elem_of_cons. split; [congruence|done].
    + destruct i as [|i]; [intros [[= Hc] _]; congruence|]. simpl.
      intros [[= H1] [_ H2]%not_elem_of_cons]. by rewrite (proj2 (IH i)).
Qed.

Lemma strchr_app a b c : c ∉ a -> strchr (a ++ c :: b) c = Some (length a).
Proof.
  intros Hc. apply strchr_some. rewrite take_app_length drop_app_ge; [lia|].
  by replace (S (length a) - length a)%nat with 1%nat by lia.
Qed.

(** A well-formed option for a setting: its name is the section, a period and
    the key. *)
Lemma option_spec_own m s v :
  s ∈ UNIFYFS_CONFIGS ->
  option_spec m (Some (cs (cf_sec s) ++ "."%char :: cs (cf_key s)), Some v) = (<[cf_field s := v]> m, 0).
Proof.
  intros Hs. destruct (settings_printable s Hs) as (Hp & _ & _ & Hl1 & Hl2 & _). unfold option_spec.
  rewrite (strchr_app _ _ _ Hp) take_app_length drop_app_ge; [lia|].
  replace (S (length (cs (cf_sec s))) - length (cs (cf_sec s)))%nat with 1%nat by lia. cbn [drop]. rewrite drop_0.
  rewrite (proj2 (Nat.eqb_neq _ _)); [lia|]. rewrite (proj2 (Nat.eqb_neq _ _)); [lia|]. simpl.
  by rewrite (find_setting_own s Hs).
Qed.

Lemma option_spec_lookup m m' opt s :
  s ∈ UNIFYFS_CONFIGS -> option_spec m opt = (m', 0) ->
  m' !! cf_field s = override (m !! cf_field s) (option_values s [opt]).
Proof.
  intros Hs. destruct opt as [[n|] [v|]]; try done. unfold option_values, option_value. cbn [omap list_omap].
  case_bool_decide as Hn.
  - rewrite Hn (option_spec_own _ _ _ Hs). intros [= <-]. by rewrite lookup_insert_eq.
  - unfold option_spec. destruct (strchr n "."%char) as [i|] eqn:Hi; [|done]. destruct (_ || _); [done|].
    destruct (find_setting _ _) as [t|] eqn:Ht; [|by intros [= <-]]. intros [= <-].
    apply find_setting_some in Ht as (Ht & Ha & Hb). apply strchr_some in Hi as [Hi _].
    rewrite lookup_insert_ne; [|done]. intros ->%field_inj; [|done..]. apply Hn. by rewrite {1}Hi Ha Hb.
Qed.

Lemma options_spec_lookup m m' opts s :
  s ∈ UNIFYFS_CONFIGS -> options_spec m opts = (m', 0) ->
  m' !! cf_field s = override (m !! cf_field s) (option_values s opts).
Proof.
  intros Hs. revert m; induction opts as [|o opts IH]; intros m; simpl; [by intros [= <-]|].
  unfold or_return_spec. destruct (option_spec m o) as [m1 rc] eqn:Ho. simpl. case_bool_decide as Hrc; [|congruence].
  subst rc. intros ->%IH. rewrite (option_spec_lookup _ _ _ _ Hs Ho). unfold option_values. simpl.
  destruct (option_value s o); [|done]. by rewrite !override_cons.
Qed.

(** The values that the command line gives to a setting. *)
Definition cli_values (s : cfg_setting) (rs : list getopt_ret) : list cstring :=
  omap (fun r => if bool_decide (fst <$> cf_cli s = Some (go_c r)) then cli_value s r else None) rs.

Lemma cli_spec_lookup m m' rs s :
  s ∈ UNIFYFS_CONFIGS -> cli_spec m rs = (m', 0) ->
  m' !! cf_field s = override (m !! cf_field s) (cli_values s rs).
Proof.
  intros Hs. revert m; induction rs as [|r rs IH]; intros m; simpl; [by intros [= <-]|].
  destruct (find_cli (go_c r)) as [t|] eqn:Ht.
  - intros ->%IH. apply find_cli_some in Ht as Ht'. destruct Ht' as [Htin Htc]. unfold cli_values. simpl.
    case_bool_decide as Hc.
    + assert (s = t) as <-.
      { destruct (cf_cli s) as [[opt use]|] eqn:E; [|done]. simpl in Hc.
        pose proof (find_cli_own s opt use Hs E). congruence. }
      destruct (cli_value s r); [|done]. by rewrite lookup_insert_eq override_cons.
    + assert (cf_field s <> cf_field t) by (intros ->%field_inj; done).
      destruct (cli_value t r); [|done]. by rewrite lookup_insert_ne.
  - destruct (in_chars _ _); [done|]. intros ->%IH. unfold cli_values. simpl.
    rewrite bool_decide_eq_false_2; [|done]. intros Hc. destruct (cf_cli s) as [[opt use]|] eqn:E; [|done].
    simpl in Hc. pose proof (find_cli_own s opt use Hs E). congruence.
Qed.

(** ** Precedence *)

Definition config_file_setting : cfg_setting :=
  UNIFYFS_CFG_CLI "unifyfs" "configfile" STRING "/etc/unifyfs.conf" FILE_CHECK "f" "specify full path to config file".

Lemma config_file_setting_in : config_file_setting ∈ UNIFYFS_CONFIGS.
Proof. apply (bool_decide_unpack _). vm_compute. exact I. Qed.

Section precedence.
Context {OS D : Type} (pl : platform OS D) (os : OS) (argv : list cstring).
Context (opts : list (option cstring * option cstring)).

(** The pairs of a file that may not exist. *)
Definition calls_of (file : option (list ascii)) : list (cstring * cstring * cstring) :=
  match file with Some t => (ini_calls t).1 | None => [] end.

(** The default, which the system file may replace; the name of the
    configuration file is forgotten afterwards. *)
Definition system_value (s : cfg_setting) : option cstring :=
  if bool_decide (cf_field s = config_file_field) then None
  else foldl (pick (cs (cf_dv s))) (default_value s) (file_values s (calls_of (mjoin (system_file pl os)))).

(** The environment, the options and the command line override in this
    order. *)
Definition override_value (s : cfg_setting) : option cstring :=
  let v := system_value s in
  let v := match getenv_helper pl (cs (cf_sec s)) (cs (cf_key s)) 0 with Some e => Some e | None => v end in
  let v := override v (option_values s opts) in
  override v (cli_values s (pl_getopt_long pl argv short_opts cli_options)).

(** The custom file replaces what is still unset or has its default. *)
Definition custom_file : option (list ascii) :=
  name ← override_value config_file_setting; pl_fopen pl os name.

Definition setting_value (s : cfg_setting) : option cstring :=
  foldl (pick (cs (cf_dv s))) (override_value s) (file_values s (calls_of custom_file)).

Lemma or_return_spec_zero r k m : or_return_spec r k = (m, 0) -> r.2 = 0 /\ k r.1 = (m, 0).
Proof. unfold or_return_spec. case_bool_decide; [done|]. intros ->. done. Qed.

Lemma file_spec_zero m file m' : file_spec m file = (m', 0) -> m' = foldl handler_spec m (calls_of file).
Proof. destruct file; [by intros [= <-]|done]. Qed.

Lemma system_spec_lookup m s :
  s ∈ UNIFYFS_CONFIGS -> system_spec pl os defaults = (m, 0) -> m !! cf_field s = system_value s.
Proof.
  intros Hs [Hrc [= <-]]%or_return_spec_zero. unfold system_value. case_bool_decide as Hf.
  { by rewrite Hf lookup_delete_eq. }
  rewrite lookup_delete_ne; [done|]. destruct (system_file pl os) as [file|] eqn:Hsys; simpl in *.
  - destruct (file_spec defaults file) as [m1 rc] eqn:Hfs. simpl in *. subst rc.
    apply file_spec_zero in Hfs as ->. by rewrite (handler_spec_lookup _ _ _ Hs) (defaults_lookup _ Hs).
  - by rewrite (defaults_lookup _ Hs).
Qed.

Lemma environ_spec_lookup m s :
  s ∈ UNIFYFS_CONFIGS -> foldl (environ_spec pl) m UNIFYFS_CONFIGS !! cf_field s =
    match getenv_helper pl (cs (cf_sec s)) (cs (cf_key s)) 0 with Some e => Some e | None => m !! cf_field s end.
Proof.
  intros Hs. rewrite (foldl_field _ (fun s cur =>
    match getenv_helper pl (cs (cf_sec s)) (cs (cf_key s)) 0 with Some e => Some e | None => cur end)); [|done|done].
  clear. intros m s f. unfold environ_spec. destruct (getenv_helper pl _ _ 0); case_bool_decide as Hf; try done.
  - by rewrite Hf lookup_insert_eq.
  - by rewrite lookup_insert_ne.
Qed.

(** When no source has an error each setting has the value of its sources. *)
Lemma gather_spec_value m s :
  s ∈ UNIFYFS_CONFIGS -> gather_spec pl os argv opts = (m, 0) -> m !! cf_field s = setting_value s.
Proof.
  intros Hs. unfold gather_spec.
  destruct (system_spec pl os defaults) as [m1 rc1] eqn:H1. intros [Hrc1 H]%or_return_spec_zero. simpl in *. subst rc1.
  destruct (options_spec _ opts) as [m2 rc2] eqn:H2. apply or_return_spec_zero in H as [Hrc2 H]. simpl in *. subst rc2.
  destruct (cli_spec m2 _) as [m3 rc3] eqn:H3. apply or_return_spec_zero in H as [Hrc3 H]. simpl in *. subst rc3.
  assert (Ho : forall t, t ∈ UNIFYFS_CONFIGS -> m3 !! cf_field t = override_value t).
  { intros t Ht. rewrite (cli_spec_lookup _ _ _ _ Ht H3) (options_spec_lookup _ _ _ _ Ht H2).
    by rewrite (environ_spec_lookup _ _ Ht) (system_spec_lookup _ _ Ht H1). }
  unfold setting_value, custom_file. rewrite -(Ho s Hs) -(Ho _ config_file_setting_in).
  change (cf_field config_file_setting) with config_file_field. unfold custom_spec in H.
  destruct (m3 !! config_file_field) as [name|]; simpl; [|by injection H as <-].
  apply file_spec_zero in H as ->. by apply handler_spec_lookup.
Qed.
End precedence.

(** ** Validation *)

Section validation.
Context (extra : gset Z) {OS D : Type} (pl : platform OS D).
Implicit Types c : unifyfs_cfg_t.

(** The value after the validation: an expression is replaced by what fits of
    its value. *)
Definition settle (s : cfg_setting) (v : option cstring) : option cstring :=
  match v, cf_vfn s, cf_typ s with
  | Some val, NO_CHECK, INT =>
      if contains_expression val
      then match pl_te_interp pl val with Some d => Some (take (length val) (dec (pl_long pl d))) | None => v end
      else v
  | Some val, NO_CHECK, FLOAT =>
      if contains_expression val
      then match pl_te_interp pl val with Some d => Some (take (length val) (pl_6le pl d)) | None => v end
      else v
  | _, _, _ => v
  end.

Definition settle_spec (m : values) (s : cfg_setting) : values := partial_alter (settle s) (cf_field s) m.

(** The result of a check of [v] with the value [w] afterwards: either no new
    value, or the new value as a block of the caller. *)
Definition validated c (v w : option cstring) (r : Z * option Z * heap) : Prop :=
  let '(vrc, new_val, h) := r in
  (new_val = None /\ h = c_heap c /\ w = v) \/
  (exists p x, new_val = Some p /\ vrc = 0 /\ (p ∉ extra) /\ hp_blocks h !! p = Some x /\ w = Some x /\
     cfg_ok ({[p]} ∪ extra) (Cfg h (c_fields c)) /\ view (Cfg h (c_fields c)) = view c /\
     (forall q, q ∈ extra -> hp_blocks h !! q = blocks c !! q)).

Lemma validated_none c v rc : validated c v v (rc, None, c_heap c).
Proof. by left. Qed.

Lemma validated_new c v x :
  cfg_ok extra c -> validated c v (Some x) (let '(newval, h) := strdup (c_heap c) x in (0, newval, h)).
Proof.
  intros Hc. destruct (strdup_ok extra c x Hc) as (p & h & -> & ? & ? & ? & ? & ?). right.
  exists p, x. by split_and!.
Qed.

Lemma snprintf_length (v : cstring) t : snprintf (length v + 1) t = take (length v) t.
Proof. unfold snprintf. f_equal. lia. Qed.

Lemma validate_value_ok os c s v :
  cfg_ok extra c -> validated c v (settle s v) (validate_value pl os (c_heap c) v (cf_typ s) (cf_vfn s)).2.
Proof.
  intros Hc. unfold validate_value, settle.
  destruct (cf_vfn s); [|by destruct v; apply validated_none|].
  2: { destruct (configurator_directory_check pl os v). by destruct v; apply validated_none. }
  destruct v as [val|]; [|destruct (cf_typ s); apply validated_none].
  destruct (cf_typ s); [by apply validated_none| | |by apply validated_none].
  - unfold configurator_int_check, configurator_int_val. simpl. destruct (contains_expression val).
    + destruct (pl_te_interp pl val); [|by apply validated_none]. simpl. rewrite snprintf_length.
      by apply validated_new.
    + destruct (strtol val) as [[l [[|e rest]|]] []]; try by apply validated_none.
      destruct (in_chars _ e); by apply validated_none.
  - unfold configurator_float_check, configurator_float_val. simpl. destruct (contains_expression val).
    + destruct (pl_te_interp pl val); [|by apply validated_none]. simpl. rewrite snprintf_length.
      by apply validated_new.
    + destruct (pl_strtod pl val) as [[l [[|e rest]|]] []]; try by apply validated_none.
      destruct (in_chars _ e); by apply validated_none.
Qed.

Lemma validate_setting_ok os c rc s :
  cfg_ok extra c -> s ∈ UNIFYFS_CONFIGS ->
  exists os' c' rc', validate_setting pl (os, c, rc) s = Some (os', c', rc') /\
    becomes extra c c' (settle_spec (view c) s).
Proof.
  intros Hc Hs. unfold validate_setting. rewrite (get_field_ok _ _ _ Hc). cbn [mbind option_bind].
  pose proof (validate_value_ok os c s (view c !! cf_field s) Hc) as Hv.
  destruct (validate_value _ _ _ _ _ _) as [os' [[vrc new_val] h]]. simpl in Hv.
  assert (Hset : forall w, settle s (view c !! cf_field s) = Some w -> settle_spec (view c) s = <[cf_field s := w]> (view c)).
  { intros w Hw. apply map_eq. intros f. unfold settle_spec. destruct (decide (f = cf_field s)) as [->|Hf].
    - by rewrite lookup_partial_alter_eq lookup_insert_eq Hw.
    - by rewrite lookup_partial_alter_ne // lookup_insert_ne. }
  destruct Hv as [(-> & -> & Hw)|(p & x & -> & -> & Hp & Hx & Hw & Hc1 & Hv1 & Hfr)].
  - assert (settle_spec (view c) s = view c) as Heq.
    { destruct (view c !! cf_field s) as [w|] eqn:E; [by rewrite (Hset w Hw) insert_id|].
      apply map_eq. intros f. unfold settle_spec. destruct (decide (f = cf_field s)) as [->|Hf].
      - by rewrite lookup_partial_alter_eq E Hw.
      - by rewrite lookup_partial_alter_ne. }
    rewrite Heq. destruct c as [hc fc]. case_match; do 3 eexists; (split; [done|]); by apply becomes_refl.
  - rewrite (bool_decide_eq_true_2 (0 = 0)); [done|]. cbn [negb].
    destruct (free_field_ok ({[p]} ∪ extra) _ (cf_field s) Hc1) as (c2 & Hfree & Hc2 & Hv2 & Hfr2).
    rewrite Hfree. cbn [mbind option_bind]. do 3 eexists. split; [done|].
    assert (Hx2 : blocks c2 !! p = Some x) by (rewrite Hfr2; [set_solver|done]).
    assert (Hn2 : c_fields c2 !! cf_field s = None).
    { apply (view_none _ _ _ Hc2). by rewrite Hv2 lookup_delete_eq. }
    destruct (adopt_ok extra c2 _ p x Hc2 Hp Hn2 Hx2 (field_in s Hs)) as [Hc3 Hv3].
    split_and!; [done|by rewrite Hv3 Hv2 Hv1 insert_delete_eq (Hset x Hw)|].
    intros q Hq. simpl. rewrite Hfr2; [set_solver|]. by apply Hfr.
Qed.

Lemma config_validate_ok os c :
  cfg_ok extra c -> exists os' c' rc, unifyfs_config_validate pl os c = Some (os', c', rc) /\
    becomes extra c c' (foldl settle_spec (view c) UNIFYFS_CONFIGS).
Proof.
  unfold unifyfs_config_validate.
  assert (Hl : forall l os c rc, l ⊆ UNIFYFS_CONFIGS -> cfg_ok extra c ->
    exists os' c' rc', each (validate_setting pl) (os, c, rc) l = Some (os', c', rc') /\
      becomes extra c c' (foldl settle_spec (view c) l)); [|intros; by apply Hl].
  clear os c. induction l as [|s l IH]; intros os c rc Hsub Hc; [by exists os, c, rc|]. cbn [each foldl].
  destruct (validate_setting_ok os c rc s Hc) as (os1 & c1 & rc1 & -> & Hb1); [apply Hsub; left|].
  cbn [mbind option_bind]. destruct (Hb1) as (Hc1 & Hv1 & _).
  destruct (IH os1 c1 rc1) as (os2 & c2 & rc2 & -> & Hb2); [set_solver|done|].
  do 3 eexists. split; [done|]. rewrite -Hv1. by eapply becomes_trans.
Qed.

Lemma settle_lookup m s :
  s ∈ UNIFYFS_CONFIGS -> foldl settle_spec m UNIFYFS_CONFIGS !! cf_field s = settle s (m !! cf_field s).
Proof.
  intros Hs. apply (foldl_field settle_spec settle); [|done]. clear. intros m s f. unfold settle_spec.
  case_bool_decide as Hf; [by rewrite Hf lookup_partial_alter_eq|by rewrite lookup_partial_alter_ne].
Qed.
End validation.

(** ** The end of a configuration *)

Lemma config_fini_ok extra c :
  cfg_ok extra c -> exists c', unifyfs_config_fini c = Some (c', 0) /\ cfg_ok extra c' /\ c_fields c' = ∅ /\
    (forall p, is_Some (blocks c' !! p) <-> p ∈ extra).
Proof.
  intros Hc. unfold unifyfs_config_fini. change (cf_field <$> UNIFYFS_CONFIGS) with field_names.
  destruct (each_ok extra free_field (fun m f => delete f m) field_names c) as (c' & -> & Hc' & Hv & _); [|done|].
  { intros c1 f _ Hc1. by apply free_field_ok. }
  exists c'. split; [done|]. split; [done|].
  assert (Hd : forall l (m : values) f, f ∈ l -> foldl (fun m f => delete f m) m l !! f = None).
  { assert (Hk : forall l (m : values) f, m !! f = None -> foldl (fun m f => delete f m) m l !! f = None).
    { induction l as [|g l IH]; intros m f Hm; [done|]. apply IH. by apply lookup_delete_None; right. }
    induction l as [|g l IH]; intros m f; [by intros ?%elem_of_nil|].
    intros [->|Hf]%elem_of_cons; [|by apply IH]. apply (Hk l (delete g m) g). apply lookup_delete_eq. }
  assert (He : c_fields c' = ∅).
  { apply map_eq. intros f. rewrite lookup_empty. destruct (c_fields c' !! f) as [p|] eqn:Hf; [|done].
    pose proof (ok_names _ _ Hc' f p Hf) as Hin. apply (Hd _ (view c)) in Hin. rewrite -Hv in Hin.
    apply (view_none _ _ _ Hc') in Hin. congruence. }
  split; [done|]. intros p. rewrite (ok_live _ _ Hc') He. split; [|by right].
  intros [[f Hf]|?]; [|done]. by rewrite lookup_empty in Hf.
Qed.
