(* ===== verification/ConfigRound.v ===== *)
(** * Round trips of the configuration

    A configuration that is printed as a file and read again, a configuration
    that is listed as options and set again, and an integer that is evaluated
    from an expression, printed and read again. *)
From stdpp Require Import strings.
From Stdlib Require Import Ascii String.
From S2P Require Import Prelude Ini Config ConfigProps ConfigInit ConfigValues.

(** ** Decimal numbers *)

Definition is_dec (c : ascii) : Prop := (48 <= nat_of_ascii c <= 57)%nat.

(** What holds of each digit is checked for the ten of them. *)
Lemma digit_ind (P : Z -> Prop) d :
  0 <= d < 10 -> P 0 -> P 1 -> P 2 -> P 3 -> P 4 -> P 5 -> P 6 -> P 7 -> P 8 -> P 9 -> P d.
Proof.
  intros Hd ? ? ? ? ? ? ? ? ? ?.
  assert (d = 0 \/ d = 1 \/ d = 2 \/ d = 3 \/ d = 4 \/ d = 5 \/ d = 6 \/ d = 7 \/ d = 8 \/ d = 9) as H' by lia.
  by destruct H' as [->|[->|[->|[->|[->|[->|[->|[->|[->| ->]]]]]]]]].
Qed.

Lemma digit_dec d : 0 <= d < 10 -> is_digit 10 (digit d) = Some d /\ is_dec (digit d).
Proof.
  intros Hd. apply (digit_ind (fun d => is_digit 10 (digit d) = Some d /\ is_dec (digit d)) d Hd);
    (split; [reflexivity|unfold is_dec; vm_compute; lia]).
Qed.

Lemma dec_digits_dec f n : 0 <= n -> Forall is_dec (dec_digits f n).
Proof.
  revert n; induction f as [|f IH]; intros n Hn; simpl; [constructor|].
  destruct (Z.ltb_spec n 10).
  - constructor; [|constructor]. apply digit_dec. lia.
  - apply Forall_app. split; [apply IH, Z.div_pos; lia|]. constructor; [|constructor].
    apply digit_dec, Z.mod_pos_bound. lia.
Qed.

Lemma strtol_digits_app s t acc v :
  strtol_digits 10 acc s = (v, []) -> strtol_digits 10 acc (s ++ t) = strtol_digits 10 v t.
Proof.
  revert acc; induction s as [|c s IH]; intros acc; simpl; [by intros [= ->]|].
  destruct (is_digit 10 c); [apply IH|done].
Qed.

Lemma div_lt_pow n f : n < 10 ^ Z.of_nat (S f) -> n / 10 < 10 ^ Z.of_nat f.
Proof.
  rewrite Nat2Z.inj_succ Z.pow_succ_r; [lia|]. intros Hn. apply Z.div_lt_upper_bound; lia.
Qed.

(** A prefix of a decimal number is the number without its last digits. *)
Lemma dec_prefix f n k acc :
  0 <= n < 10 ^ Z.of_nat f -> (0 < k <= length (dec_digits f n))%nat ->
  strtol_digits 10 acc (take k (dec_digits f n)) =
    (acc * 10 ^ Z.of_nat k + n / 10 ^ Z.of_nat (length (dec_digits f n) - k), []).
Proof.
  revert n k acc; induction f as [|f IH]; intros n k acc Hn Hk; simpl in Hk; [lia|]. cbn [dec_digits].
  destruct (Z.ltb_spec n 10) as [Hs|Hs]; simpl in Hk.
  - assert (k = 1%nat) as -> by lia. simpl. destruct (digit_dec n) as [-> _]; [lia|]. by rewrite Z.div_1_r.
  - set (d := dec_digits f (n / 10)) in *. rewrite length_app /= in Hk.
    assert (Hq : 0 <= n / 10 < 10 ^ Z.of_nat f).
    { split; [apply Z.div_pos; lia|]. apply div_lt_pow. lia. }
    assert (Hd : (0 < length d)%nat).
    { destruct f; [change (10 ^ Z.of_nat 0) with 1 in Hq; pose proof (Z.div_le_lower_bound n 10 1); lia|].
      unfold d. simpl. destruct (_ <? _); simpl; [lia|]. rewrite length_app /=. lia. }
    rewrite length_app /=. destruct (decide (k <= length d)%nat) as [Hle|Hgt].
    + rewrite take_app_le; [lia|]. rewrite IH; [done|fold d; lia|]. fold d. f_equal. f_equal.
      replace (length d + 1 - k)%nat with (S (length d - k)) by lia.
      rewrite Nat2Z.inj_succ Z.pow_succ_r; [lia|]. rewrite Z.div_div; [lia..|done].
    + assert (k = length d + 1)%nat as -> by lia.
      rewrite take_ge; [rewrite length_app /=; lia|].
      pose proof (IH (n / 10) (length d) acc Hq ltac:(fold d; lia)) as Hf. fold d in Hf.
      rewrite take_ge in Hf; [lia|]. rewrite Nat.sub_diag Z.div_1_r in Hf.
      rewrite (strtol_digits_app _ _ _ _ Hf). simpl.
      destruct (digit_dec (n mod 10)) as [-> _]; [apply Z.mod_pos_bound; lia|]. f_equal.
      rewrite Nat.sub_diag Z.div_1_r Nat2Z.inj_add Z.pow_add_r; [lia..|].
      pose proof (Z.div_mod n 10). change (10 ^ Z.of_nat 1) with 10. lia.
Qed.

(** The first digit of a positive number is not zero. *)
Lemma dec_head f n : 0 < n < 10 ^ Z.of_nat f -> exists d r, dec_digits f n = digit d :: r /\ 1 <= d < 10.
Proof.
  revert n; induction f as [|f IH]; intros n Hn; [change (10 ^ Z.of_nat 0) with 1 in Hn; lia|]. simpl.
  destruct (Z.ltb_spec n 10); [exists n, []; split; [done|lia]|].
  destruct (IH (n / 10)) as (d & r & -> & Hd).
  { split; [apply Z.div_str_pos; lia|]. apply div_lt_pow. lia. }
  by exists d, (r ++ [digit (n mod 10)]).
Qed.

(** The length of a number is at least one. *)
Lemma dec_digits_length f n : (0 < f)%nat -> (0 < length (dec_digits f n))%nat.
Proof. destruct f; simpl; [lia|]. intros _. destruct (n <? 10); simpl; [lia|]. rewrite length_app /=. lia. Qed.

(** A number that starts with a digit other than zero is read in base ten. *)
Lemma strtol_decimal d r v :
  1 <= d < 10 -> strtol_digits 10 0 (digit d :: r) = (v, []) -> 0 <= v <= LONG_MAX ->
  strtol (digit d :: r) = (v, Some [], false).
Proof.
  intros Hd Hv Hr.
  assert (Hs : drop_space (digit d :: r) = digit d :: r /\ strtol_base (digit d :: r) = (10, digit d :: r) /\
    digit d <> "-"%char /\ digit d <> "+"%char).
  { assert (0 <= d < 10) as Hd' by lia. revert Hd. apply (digit_ind (fun d => 1 <= d < 10 -> drop_space (digit d :: r) = _ /\ _) d Hd');
      intros; try lia; by split_and!. }
  destruct Hs as (Hs & Hb & Hm & Hp). unfold strtol. rewrite Hs.
  assert (match digit d :: r with
          | "-"%char :: t => (true, t) | "+"%char :: t => (false, t) | _ => (false, digit d :: r) end
          = (false, digit d :: r)) as ->.
  { assert (0 <= d < 10) as Hd' by lia.
    apply (digit_ind (fun d => match digit d :: r with
      | "-"%char :: t => (true, t) | "+"%char :: t => (false, t) | _ => (false, digit d :: r) end
      = (false, digit d :: r)) d Hd'); done. }
  rewrite Hb. destruct (digit_dec d) as [-> _]; [lia|]. rewrite Hv.
  destruct (Z.gtb_spec v LONG_MAX); [lia|]. destruct (Z.ltb_spec v LONG_MIN); [unfold LONG_MIN in *; lia|done].
Qed.

(** Digits are no expression. *)
Lemma strchr_none s c : c ∉ s -> strchr s c = None.
Proof.
  induction s as [|x s IH]; [done|]. intros [Hx Hs]%not_elem_of_cons. simpl.
  rewrite bool_decide_eq_false_2; [congruence|]. by rewrite IH.
Qed.

Lemma dec_no_expression s : Forall is_dec s -> contains_expression s = false.
Proof.
  intros Hs. unfold contains_expression.
  assert (Hc : forall c, c ∈ expr_chars -> strchr s c = None).
  { intros c Hc. apply strchr_none. intros Hin. rewrite Forall_forall in Hs. specialize (Hs c Hin).
    unfold is_dec in Hs. revert Hs. clear - Hc. repeat (apply elem_of_cons in Hc as [->|Hc]; [vm_compute; lia|]).
    by apply elem_of_nil in Hc. }
  revert Hc. generalize expr_chars as l. induction l as [|c l IH]; [done|]. intros Hc. simpl.
  rewrite Hc; [left|]. apply IH. intros; apply Hc. by right.
Qed.

(** What the code reads of the first [k] digits of a number. *)
Lemma int_val_prefix {OS D} (pl : platform OS D) l k :
  0 <= l <= LONG_MAX -> (0 < k)%nat ->
  configurator_int_val pl (Some (take k (dec l))) = (0, Some (l / 10 ^ Z.of_nat (length (dec l) - k))).
Proof.
  intros Hl Hk. unfold configurator_int_val, dec in *. destruct (Z.ltb_spec l 0); [lia|].
  assert (Hr : 0 <= l < 10 ^ Z.of_nat 19) by (change (10 ^ Z.of_nat 19) with 10000000000000000000; unfold LONG_MAX in *; lia).
  rewrite dec_no_expression; [by apply Forall_take, dec_digits_dec|].
  destruct (decide (l = 0)) as [->|Hn].
  { assert (take k (dec_digits 19 0) = cs "0") as -> by (destruct k as [|[|]]; [lia|done|done]). by rewrite Z.div_0_l; [lia|]. }
  assert (Hpre : strtol_digits 10 0 (take k (dec_digits 19 l)) =
    (l / 10 ^ Z.of_nat (length (dec_digits 19 l) - k), [])).
  { destruct (decide (k <= length (dec_digits 19 l))%nat).
    - rewrite (dec_prefix 19 l k 0 Hr); [lia|done].
    - pose proof (dec_digits_length 19 l ltac:(lia)).
      pose proof (dec_prefix 19 l (length (dec_digits 19 l)) 0 Hr ltac:(lia)) as Hf.
      rewrite take_ge in Hf; [lia|]. rewrite take_ge; [lia|]. rewrite Hf.
      by replace (length (dec_digits 19 l) - k)%nat with (length (dec_digits 19 l) - length (dec_digits 19 l))%nat by lia. }
  destruct (dec_head 19 l) as (d & r & Hdr & Hd); [lia|].
  assert (Hv : 0 <= l / 10 ^ Z.of_nat (length (dec_digits 19 l) - k) <= LONG_MAX).
  { split; [apply Z.div_pos; lia|]. etrans; [apply Z.div_le_upper_bound|apply Hl]; [lia|].
    assert (1 <= 10 ^ Z.of_nat (length (dec_digits 19 l) - k)); [|nia]. pose proof (Z.pow_pos_nonneg 10 (Z.of_nat (length (dec_digits 19 l) - k))). lia. }
  rewrite Hdr in Hpre Hv |- *. destruct k as [|k]; [lia|]. cbn [take] in *.
  by rewrite (strtol_decimal d _ _ Hd Hpre Hv).
Qed.

Lemma expression_nonempty v : contains_expression v = true -> (0 < length v)%nat.
Proof. destruct v; [done|simpl; lia]. Qed.

(** A proper prefix of a number has another value. *)
Lemma prefix_smaller l j : 0 < l -> (0 < j)%nat -> l / 10 ^ Z.of_nat j < l.
Proof.
  intros Hl Hj. apply Z.div_lt; [done|].
  assert (10 ^ 1 <= 10 ^ Z.of_nat j) by (apply Z.pow_le_mono_r; lia). lia.
Qed.

(** C38. The value of an integer setting that is an expression is replaced by
    the number it evaluates to, cut to the length of the expression: reading
    the setting afterwards gives the number without its last digits, which is
    the number itself exactly if its digits are no more than the characters of
    the expression. *)
Theorem int_setting_readback {OS D} (pl : platform OS D) h val d :
  mem_plenty (hp_mem h) -> contains_expression val = true -> pl_te_interp pl val = Some d ->
  0 <= pl_long pl d <= LONG_MAX ->
  let l := pl_long pl d in
  exists p h' w, configurator_int_check pl h (Some val) = (0, Some p, h') /\ hp_blocks h' !! p = Some w /\
    configurator_int_val pl (Some w) = (0, Some (l / 10 ^ Z.of_nat (length (dec l) - length val))) /\
    (configurator_int_val pl (Some w) = (0, Some l) <-> (length (dec l) <= length val)%nat).
Proof.
  intros Hm He Ht Hl l. pose proof (expression_nonempty _ He) as Hn.
  unfold configurator_int_check, configurator_int_val at 1. rewrite He Ht. cbn [bool_decide].
  rewrite (bool_decide_eq_true_2 (0 = 0)); [done|]. cbn [andb]. unfold strdup.
  destruct (calloc_plenty _ Hm) as (m & -> & _ & _). do 3 eexists. split_and!; [done|simpl; by rewrite lookup_insert_eq|..];
    rewrite snprintf_length (int_val_prefix pl _ _ Hl Hn); [done|]. fold l. fold l in Hl. split.
  - intros [= Heq]. destruct (decide (length (dec l) <= length val)%nat) as [|Hgt]; [done|].
    destruct (decide (l = 0)) as [->|Hz]; [change (length (dec 0)) with 1%nat in *; lia|].
    pose proof (prefix_smaller l (length (dec l) - length val)). lia.
  - intros Hle. replace (length (dec l) - length val)%nat with 0%nat by lia. by rewrite Z.div_1_r.
Qed.

(** ** Printing and reading a configuration *)

#[local] Opaque UNIFYFS_CONFIGS field_names.
#[local] Typeclasses Opaque UNIFYFS_CONFIGS field_names.

(** Values that a file can hold: no blanks at either end, no line ends, no
    comment signs after a blank, and short enough for the buffer of the parser. *)
Definition printable (m : values) : Prop :=
  forall s v, s ∈ UNIFYFS_CONFIGS -> m !! cf_field s = Some v ->
    ini_value_ok v = true /\ (length (cs (cf_key s)) + length v < 196)%nat.

(** The lines of the settings of a list after those of section [last]. *)
Fixpoint ini_lines (m : values) (last : option string) (l : list cfg_setting) : list cstring :=
  match l with
  | [] => []
  | s :: l =>
      match m !! cf_field s with
      | None => ini_lines m last l
      | Some v =>
          (if bool_decide (last = Some (cf_sec s)) then [] else [[]; "["%char :: cs (cf_sec s) ++ cs "]"])
          ++ (cs (cf_key s) ++ cs " = " ++ v) :: ini_lines m (Some (cf_sec s)) l
      end
  end.

(** The pairs these lines contain. *)
Definition setting_calls (m : values) (l : list cfg_setting) : list (cstring * cstring * cstring) :=
  omap (fun s => v ← m !! cf_field s; Some (cs (cf_sec s), cs (cf_key s), v)) l.

Lemma ini_text_app l1 l2 : ini_text (l1 ++ l2) = ini_text l1 ++ ini_text l2.
Proof. apply bind_app. Qed.

Lemma print_ini_setting_ok extra c out last s :
  cfg_ok extra c -> print_ini_setting c (out, last) s =
    Some (match view c !! cf_field s with
          | None => (out, last)
          | Some v => (out ++ ini_text ((if bool_decide (last = Some (cf_sec s)) then []
                                         else [[]; "["%char :: cs (cf_sec s) ++ cs "]"])
                                        ++ [cs (cf_key s) ++ cs " = " ++ v]), Some (cf_sec s))
          end).
Proof.
  intros Hc. unfold print_ini_setting. rewrite (get_field_ok _ _ _ Hc). cbn [mbind option_bind].
  destruct (view c !! cf_field s) as [v|]; [|done]. do 2 f_equal.
  case_bool_decide; unfold ini_text; simpl; rewrite -!app_assoc; simpl; by rewrite -?app_assoc.
Qed.

Lemma print_ini_lines extra c l out last :
  cfg_ok extra c -> exists last', each (print_ini_setting c) (out, last) l =
    Some (out ++ ini_text (ini_lines (view c) last l), last').
Proof.
  intros Hc. revert out last; induction l as [|s l IH]; intros out last.
  { exists last. simpl. by rewrite app_nil_r. }
  cbn [each ini_lines]. rewrite (print_ini_setting_ok _ _ _ _ _ Hc). cbn [mbind option_bind].
  destruct (view c !! cf_field s) as [v|]; [|apply IH].
  destruct (IH (out ++ ini_text ((if bool_decide (last = Some (cf_sec s)) then []
      else [[]; "["%char :: cs (cf_sec s) ++ cs "]"]) ++ [cs (cf_key s) ++ cs " = " ++ v])) (Some (cf_sec s))) as [last' ->].
  exists last'. by rewrite -app_assoc -ini_text_app -app_assoc.
Qed.

Lemma log_pair_line st key v :
  ini_name_ok key = true -> ini_value_ok v = true ->
  parse_line log_handler st ((key ++ cs " = " ++ v) ++ [newline]) =
    Some (IniState (in_section st) (strncpy0 key MAX_NAME) (in_lineno st + 1) (in_error st)
            (in_user st ++ [(in_section st, key, v)])).
Proof. intros Hk Hv. by rewrite (ini_pair_line log_handler st key v Hk Hv). Qed.

(** The lines are read back: the pairs are those of the settings. *)
Lemma parse_ini_lines m l last st :
  printable m -> l ⊆ UNIFYFS_CONFIGS -> (forall sec, last = Some sec -> in_section st = cs sec) -> in_error st = 0 ->
  exists st', parse_lines log_handler st (ini_lines m last l) = Some st' /\ in_error st' = 0 /\
    in_user st' = in_user st ++ setting_calls m l.
Proof.
  intros Hp. revert last st; induction l as [|s l IH]; intros last st Hsub Hsec Herr.
  { exists st. simpl. by rewrite app_nil_r. }
  assert (Hs : s ∈ UNIFYFS_CONFIGS) by (apply Hsub; left).
  assert (Hsub' : l ⊆ UNIFYFS_CONFIGS) by (intros t Ht; apply Hsub; by right).
  cbn [ini_lines]. unfold setting_calls. cbn [omap list_omap].
  destruct (m !! cf_field s) as [v|] eqn:Hv; [|by apply IH]. cbn [mbind option_bind].
  destruct (Hp s v Hs Hv) as [Hval _]. destruct (settings_printable s Hs) as (_ & Hso & Hno & _).
  assert (Hhd : exists st1, parse_lines log_handler st (if bool_decide (last = Some (cf_sec s)) then []
      else [[]; "["%char :: cs (cf_sec s) ++ cs "]"]) = Some st1 /\ in_section st1 = cs (cf_sec s) /\
      in_error st1 = 0 /\ in_user st1 = in_user st).
  { case_bool_decide as Hl; [exists st; by split_and!; [|apply Hsec|..]|]. cbn [parse_lines].
    rewrite (ini_blank_line log_handler st : parse_line log_handler st ([] ++ [newline]) = _). cbn [mbind option_bind].
    rewrite (ini_section_line log_handler _ _ Hso). cbn [mbind option_bind]. by eexists. }
  destruct Hhd as (st1 & Hst1 & Hsec1 & Herr1 & Hu1). rewrite parse_lines_app Hst1. cbn [mbind option_bind parse_lines].
  rewrite (log_pair_line _ _ _ Hno Hval). cbn [mbind option_bind].
  set (st2 := IniState _ _ _ _ _).
  destruct (IH (Some (cf_sec s)) st2) as (st' & Hst' & Herr' & Hu'); [done|by intros sec [= <-]|done|].
  exists st'. split; [done|]. split; [done|]. rewrite Hu' /st2 /= Hu1 Hsec1 -app_assoc. done.
Qed.

Lemma line_ok_intro l : newline ∉ l -> (length l < 199)%nat -> line_ok l = true.
Proof. intros Hn Hl. apply andb_true_iff. by rewrite bool_decide_eq_true Nat.ltb_lt. Qed.

Lemma ini_lines_ok m l last : printable m -> l ⊆ UNIFYFS_CONFIGS -> forallb line_ok (ini_lines m last l) = true.
Proof.
  intros Hp. revert last; induction l as [|s l IH]; intros last Hsub; [done|].
  assert (Hs : s ∈ UNIFYFS_CONFIGS) by (apply Hsub; left). cbn [ini_lines].
  destruct (m !! cf_field s) as [v|] eqn:Hv; [|apply IH; set_solver].
  destruct (Hp s v Hs Hv) as [Hval Hlen].
  destruct (settings_printable s Hs) as (_ & [Hsw _]%andb_true_iff & Hno & Hl).
  rewrite forallb_app. cbn [forallb]. rewrite (IH (Some (cf_sec s))); [set_solver|].
  assert (Hk : word (cs "=:") (cs (cf_key s)) = true).
  { unfold ini_name_ok in Hno. destruct (cs (cf_key s)); [done|]. by apply andb_true_iff in Hno as [_ ?]. }
  assert (Hvn : newline ∉ v).
  { unfold ini_value_ok in Hval. rewrite !andb_true_iff !bool_decide_eq_true in Hval. tauto. }
  rewrite (line_ok_intro (cs (cf_key s) ++ cs " = " ++ v)).
  { rewrite !not_elem_of_app. split_and!; [by eapply word_no_newline| |done].
    by apply (bool_decide_unpack (newline ∉ cs " = ")). }
  { rewrite !length_app. simpl length. lia. }
  rewrite andb_true_r. case_bool_decide; [done|]. cbn [forallb]. rewrite (line_ok_intro ("["%char :: _)); [| |done].
  - rewrite not_elem_of_cons not_elem_of_app. split_and!; [done|by eapply word_no_newline|].
    by intros ?%list_elem_of_singleton.
  - cbn [length]. rewrite length_app. simpl length. lia.
Qed.

(** The pairs of a printed configuration are its settings. *)
Lemma print_ini_calls m :
  printable m -> ini_calls (ini_text (ini_lines m None UNIFYFS_CONFIGS)) = (setting_calls m UNIFYFS_CONFIGS, 0).
Proof.
  intros Hp. unfold ini_calls. rewrite ini_parse_text; [by apply ini_lines_ok|].
  destruct (parse_ini_lines m UNIFYFS_CONFIGS None (IniState [] [] 0 0 [])) as (st & -> & He & Hu); [done..|].
  cbn [mbind option_bind]. by rewrite He Hu.
Qed.

(** What the pairs of a configuration do to each setting. *)
Lemma setting_calls_lookup m m0 s :
  s ∈ UNIFYFS_CONFIGS ->
  foldl handler_spec m0 (setting_calls m UNIFYFS_CONFIGS) !! cf_field s =
    match m !! cf_field s with Some v => pick (cs (cf_dv s)) (m0 !! cf_field s) v | None => m0 !! cf_field s end.
Proof.
  intros Hs. rewrite (handler_spec_lookup _ _ _ Hs).
  assert (Hl : forall l, NoDup (cf_field <$> l) -> l ⊆ UNIFYFS_CONFIGS -> file_values s (setting_calls m l) =
    if bool_decide (s ∈ l) then match m !! cf_field s with Some v => [v] | None => [] end else []).
  { unfold setting_calls, file_values. induction l as [|t l IH]; intros Hnd Hsub; [done|]. rewrite fmap_cons in Hnd.
    apply NoDup_cons in Hnd as [Ht Hnd]. specialize (IH Hnd ltac:(set_solver)). cbn [omap list_omap].
    assert (Htin : t ∈ UNIFYFS_CONFIGS) by (apply Hsub; left).
    destruct (decide (s = t)) as [<-|Hst].
    - rewrite (bool_decide_eq_true_2 (s ∈ s :: l)); [left|].
      rewrite bool_decide_eq_false_2 in IH; [intros Hin; apply Ht; by apply list_elem_of_fmap_2|].
      destruct (m !! cf_field s); cbn [mbind option_bind omap list_omap]; [|done].
      by rewrite !bool_decide_eq_true_2 // IH.
    - rewrite (bool_decide_ext (s ∈ t :: l) (s ∈ l)); [set_solver|]. rewrite -IH.
      destruct (m !! cf_field t); cbn [mbind option_bind omap list_omap]; [|done].
      assert (bool_decide (cs (cf_sec t) = cs (cf_sec s)) && bool_decide (cs (cf_key t) = cs (cf_key s)) = false) as ->; [|done].
      apply not_true_iff_false. rewrite andb_true_iff !bool_decide_eq_true. intros [Ha Hb].
      pose proof (find_setting_own s Hs) as H1. pose proof (find_setting_own t Htin) as H2.
      rewrite Ha Hb in H2. congruence. }
  rewrite Hl; [apply field_names_nodup|done|]. rewrite bool_decide_eq_true_2; [done|]. by destruct (m !! cf_field s).
Qed.


(** A structure without settings and one with the defaults, to read into. *)
Definition empty_heap : heap := Heap (Mem 1 []) ∅.
Definition default_config : unifyfs_cfg_t := unifyfs_config_set_defaults (Cfg empty_heap ∅).
Definition verbose_config : unifyfs_cfg_t := dup_field (Cfg empty_heap ∅) "log_verbosity" (cs "5").

Lemma empty_config_ok : cfg_ok ∅ (Cfg empty_heap ∅) /\ view (Cfg empty_heap ∅) = ∅.
Proof.
  apply cfg_ok_empty; simpl; [|by intros p [? ?]|constructor].
  intros p. rewrite lookup_empty. split; [by intros [? ?]|set_solver].
Qed.

Lemma default_config_ok : cfg_ok ∅ default_config /\ view default_config = defaults.
Proof.
  destruct empty_config_ok as [Hc Hv].
  destruct (set_defaults_ok ∅ UNIFYFS_CONFIGS (Cfg empty_heap ∅)) as (Hc' & Hv' & _).
  - apply field_names_nodup.
  - done.
  - done.
  - intros s _. by rewrite Hv lookup_empty.
  - split; [done|]. by rewrite Hv in Hv'.
Qed.

Lemma verbose_config_ok : cfg_ok ∅ verbose_config /\ view verbose_config = {["log_verbosity"%string := cs "5"]}.
Proof.
  destruct empty_config_ok as [Hc Hv].
  destruct (dup_field_ok ∅ (Cfg empty_heap ∅) "log_verbosity" (cs "5")) as (Hc' & Hv' & _).
  - done.
  - by rewrite Hv lookup_empty.
  - apply (bool_decide_unpack _). vm_compute. exact I.
  - split; [done|]. by rewrite Hv in Hv'.
Qed.


(** ** Listing the settings as options *)

(** The strings of an option. *)
Definition read_opt (h : heap) (o : option Z * option Z) : option cstring * option cstring :=
  (p ← o.1; hp_blocks h !! p, p ← o.2; hp_blocks h !! p).

Definition option_texts (m : values) (l : list cfg_setting) : list (option cstring * option cstring) :=
  omap (fun s => v ← m !! cf_field s; Some (Some (cs (cf_sec s) ++ "."%char :: cs (cf_key s)), Some v)) l.

(** The options so far are blocks of the caller. *)
Definition opts_in (extra : gset Z) (opts : list (option Z * option Z)) : Prop :=
  Forall (fun o => exists p q, o = (Some p, Some q) /\ p ∈ extra /\ q ∈ extra) opts.

Lemma read_opts_frame extra h h' opts :
  opts_in extra opts -> (forall p, p ∈ extra -> hp_blocks h' !! p = hp_blocks h !! p) ->
  read_opt h' <$> opts = read_opt h <$> opts.
Proof.
  intros Ho Hf. apply list_fmap_ext. intros i o Hi. unfold opts_in in Ho. rewrite Forall_lookup in Ho.
  destruct (Ho i o Hi) as (p & q & -> & Hp & Hq). unfold read_opt. simpl. by rewrite !Hf.
Qed.

Lemma get_option_ok extra c opts s :
  cfg_ok extra c -> opts_in extra opts -> s ∈ UNIFYFS_CONFIGS ->
  exists extra' c' opts', get_option (c, opts) s = Some (c', opts') /\ cfg_ok extra' c' /\ view c' = view c /\
    opts_in extra' opts' /\
    read_opt (c_heap c') <$> opts' = (read_opt (c_heap c) <$> opts) ++ option_texts (view c) [s] /\
    c_fields c' = c_fields c.
Proof.
  intros Hc Ho Hs. unfold get_option. rewrite (get_field_ok _ _ _ Hc). cbn [mbind option_bind].
  unfold option_texts. cbn [omap list_omap]. destruct (view c !! cf_field s) as [v|]; cbn [mbind option_bind].
  2: { exists extra, c, opts. rewrite app_nil_r. by split_and!. }
  set (name := snprintf 256 _).
  assert (Hname : name = cs (cf_sec s) ++ "."%char :: cs (cf_key s)).
  { unfold name, snprintf. apply take_ge. destruct (settings_printable s Hs) as (_ & _ & _ & Hl).
    rewrite !length_app. simpl length. lia. }
  clearbody name. subst name.
  destruct (strdup_ok extra c (cs (cf_sec s) ++ "."%char :: cs (cf_key s)) Hc)
    as (p & h1 & -> & Hp & Hb1 & Hc1 & Hv1 & Hf1).
  destruct (strdup_ok ({[p]} ∪ extra) _ v Hc1) as (q & h2 & Hd & Hq & Hb2 & Hc2 & Hv2 & Hf2). simpl in Hd.
  rewrite Hd. simpl in Hc2, Hv2, Hf2. do 3 eexists. split; [done|].
  assert (Hp2 : hp_blocks h2 !! p = Some (cs (cf_sec s) ++ "."%char :: cs (cf_key s))) by (rewrite Hf2; [set_solver|done]).
  split_and!; [exact Hc2|by rewrite Hv2|..|done].
  - apply Forall_app. split.
    + eapply Forall_impl; [exact Ho|]. intros o (a & b & -> & Ha & Hb). exists a, b. set_solver.
    + constructor; [|constructor]. exists p, q. set_solver.
  - rewrite fmap_app. f_equal.
    + simpl. apply (read_opts_frame extra); [done|]. intros a Ha. rewrite Hf2; [set_solver|]. by apply Hf1.
    + unfold read_opt. simpl. by rewrite Hp2 Hb2.
Qed.

Lemma get_options_loop extra c opts l :
  cfg_ok extra c -> opts_in extra opts -> l ⊆ UNIFYFS_CONFIGS ->
  exists extra' c' opts', each get_option (c, opts) l = Some (c', opts') /\ cfg_ok extra' c' /\ view c' = view c /\
    read_opt (c_heap c') <$> opts' = (read_opt (c_heap c) <$> opts) ++ option_texts (view c) l.
Proof.
  revert extra c opts; induction l as [|s l IH]; intros extra c opts Hc Ho Hsub.
  { exists extra, c, opts. simpl. by rewrite app_nil_r. }
  cbn [each]. destruct (get_option_ok extra c opts s Hc Ho) as (e1 & c1 & o1 & -> & Hc1 & Hv1 & Ho1 & Hr1 & _); [apply Hsub; left|].
  cbn [mbind option_bind]. destruct (IH e1 c1 o1 Hc1 Ho1) as (e2 & c2 & o2 & -> & Hc2 & Hv2 & Hr2); [set_solver|].
  exists e2, c2, o2. split_and!; [done..|congruence|]. rewrite Hr2 Hr1 Hv1 -app_assoc. f_equal.
  unfold option_texts. simpl. by destruct (view c !! cf_field s).
Qed.

Lemma num_set_length extra c : cfg_ok extra c -> num_set c = length (option_texts (view c) UNIFYFS_CONFIGS).
Proof.
  intros Hc. unfold num_set, option_texts. generalize UNIFYFS_CONFIGS as l. induction l as [|s l IH]; [done|].
  rewrite filter_cons. cbn [omap list_omap]. pose proof (view_none _ _ (cf_field s) Hc) as Hn.
  destruct (view c !! cf_field s), (c_fields c !! cf_field s) eqn:E; cbn [mbind option_bind];
    (case_decide as Hd; [|by destruct Hd]) || (case_decide as Hd; [by destruct Hd|]); simpl; rewrite ?IH; try done.
  - by discriminate (proj2 Hn eq_refl).
  - by discriminate (proj1 Hn eq_refl).
Qed.

(** Setting the options again. *)
Lemma options_spec_texts m m0 l :
  l ⊆ UNIFYFS_CONFIGS -> options_spec m0 (option_texts m l) =
    (foldl (fun acc s => match m !! cf_field s with Some v => <[cf_field s := v]> acc | None => acc end) m0 l, 0).
Proof.
  revert m0; induction l as [|s l IH]; intros m0 Hsub; [done|]. unfold option_texts. cbn [omap list_omap foldl].
  destruct (m !! cf_field s) as [v|]; cbn [mbind option_bind]; [|apply IH; set_solver].
  cbn [options_spec]. rewrite option_spec_own; [apply Hsub; left|]. unfold or_return_spec. simpl. apply IH. set_solver.
Qed.

(** Listing the settings of a configuration and passing them as options sets
    them again. *)
Theorem config_options_roundtrip extra c extra0 c0 :
  cfg_ok extra c -> cfg_ok extra0 c0 ->
  exists c1 opts c2, unifyfs_config_get_options c = Some (c1, 0, (Z.of_nat (length opts), opts)) /\
    view c1 = view c /\
    unifyfs_config_process_options c0 (Z.of_nat (length opts)) (Some (read_opt (c_heap c1) <$> opts)) = Some (c2, 0) /\
    forall s, s ∈ UNIFYFS_CONFIGS -> get_field c2 (cf_field s) =
      Some (match view c !! cf_field s with Some v => Some v | None => view c0 !! cf_field s end).
Proof.
  intros Hc Hc0. unfold unifyfs_config_get_options.
  destruct (calloc_plenty _ (ok_plenty _ _ Hc)) as (m & -> & Hm & Hn).
  set (cm := Cfg (Heap m (hp_blocks (c_heap c))) (c_fields c)).
  assert (Hcm : cfg_ok extra cm).
  { destruct Hc as [H1 H2 H3 H4 H5 H6]. split; try done. simpl. intros p Hp%H5. lia. }
  destruct (get_options_loop extra cm [] UNIFYFS_CONFIGS Hcm) as (e1 & c1 & opts & -> & _ & Hv1 & Hr); [constructor|done|].
  change (view cm) with (view c) in *. cbn [mbind option_bind]. simpl in Hr.
  assert (Hlen : num_set c = length opts).
  { rewrite (num_set_length _ _ Hc) -Hr. by rewrite length_fmap. }
  rewrite Hlen.
  destruct (config_process_options_ok extra0 c0 (Z.of_nat (length opts)) (Some (read_opt (c_heap c1) <$> opts)) Hc0)
    as (c2 & Hp & Hc2 & Hv2 & _); [simpl; rewrite length_fmap; lia|].
  unfold given_options in Hp, Hv2. simpl in Hp, Hv2. rewrite Nat2Z.id Hr take_ge in Hp, Hv2; try (rewrite -Hr length_fmap; lia).
  rewrite options_spec_texts // in Hp, Hv2. exists c1, opts, c2. split_and!; [done..|by rewrite Hr|].
  intros s Hs. rewrite (get_field_ok _ _ _ Hc2) Hv2. cbn [fst]. f_equal.
  apply (foldl_field _ (fun s cur => match view c !! cf_field s with Some v => Some v | None => cur end)); [|done].
  clear. intros m s f. destruct (view c !! cf_field s); case_bool_decide as Hf; try done.
  - by rewrite Hf lookup_insert_eq.
  - by rewrite lookup_insert_ne.
Qed.

(** ** A concrete platform *)

(** Expressions and their values; other expressions are errors. *)
Definition demo_expressions : list (cstring * Z) :=
  [(cs "(20 * 1048576)", 20971520); (cs "(4 * 1048576)", 4194304); (cs "(256 * 1048576)", 268435456);
   (cs "(4 * 1073741824)", 4294967296); (cs "2^30", 1073741824); (cs "64*1024", 65536)].

Definition table_lookup {A} (t : list (cstring * A)) (k : cstring) : option A :=
  snd <$> find (fun e => bool_decide (e.1 = k)) t.

(** An environment, files with their contents, and the results of
    [getopt_long]; all other paths are directories. *)
Definition demo_platform (env files : list (cstring * cstring)) (cli : list getopt_ret) : platform unit Z :=
  Platform unit Z (table_lookup env) (fun _ => table_lookup files)
    (fun _ path => match table_lookup files path with Some _ => inr 33188 | None => inr 16877 end)
    (fun os _ _ => (os, 0)) (fun _ _ _ => cli) (table_lookup demo_expressions)
    (fun _ => (0, None, false)) id dec.

Lemma int_setting_readback_witness :
  exists p h' w, configurator_int_check (demo_platform [] [] []) empty_heap (Some (cs "64*1024")) = (0, Some p, h') /\
    hp_blocks h' !! p = Some w /\ configurator_int_val (demo_platform [] [] []) (Some w) = (0, Some 65536).
Proof.
  destruct (int_setting_readback (demo_platform [] [] []) empty_heap (cs "64*1024") 65536)
    as (p & h' & w & Hc & Hb & _ & Hr); [constructor|reflexivity|reflexivity|vm_compute; split; discriminate|].
  exists p, h', w. split; [exact Hc|]. split; [exact Hb|]. apply Hr. vm_compute. lia.
Defined.

(** An expression that is shorter than its value loses the last digits. *)
Example int_setting_truncated :
  exists h', configurator_int_check (demo_platform [] [] []) empty_heap (Some (cs "2^30")) = (0, Some 1, h') /\
    hp_blocks h' !! 1 = Some (cs "1073") /\
    configurator_int_val (demo_platform [] [] []) (Some (cs "2^30")) = (0, Some 1073741824) /\
    configurator_int_val (demo_platform [] [] []) (Some (cs "1073")) = (0, Some 1073).
Proof. eexists. split; [reflexivity|]. by split_and!. Qed.

(** A value that is longer than the buffer of the parser is not read back: the
    part that does not fit is taken for a line of its own. *)
Example long_value_split :
  let v := replicate 200 "a"%char in
  ini_calls (cs "[client]" ++ [newline] ++ cs "cwd = " ++ v ++ [newline]) =
    ([(cs "client", cs "cwd", replicate 193 "a"%char)], 3).
Proof. vm_compute. reflexivity. Qed.
