(* ===== verification/ConfigThms.v ===== *)
(** * What the configuration promises

    The theorems on the configuration as a whole, their instances on concrete
    platforms, and the cases in which it does not do what its documentation
    says. *)
From stdpp Require Import strings.
From Stdlib Require Import Ascii String.
From S2P Require Import Prelude Ini Config ConfigProps ConfigInit ConfigValues ConfigRound.

#[local] Opaque UNIFYFS_CONFIGS field_names.
#[local] Typeclasses Opaque UNIFYFS_CONFIGS field_names.

(** ** Valid settings *)

Section valid.
Context {OS D : Type} (pl : platform OS D).

(** A value that the check of its type accepts. *)
Definition valid_value (s : cfg_setting) (v : option cstring) : Prop :=
  cf_vfn s = NO_CHECK ->
  match cf_typ s with
  | BOOL => v <> None -> exists b, configurator_bool_val v = (0, Some b)
  | INT => v <> None -> exists l, configurator_int_val pl v = (0, Some l)
  | FLOAT | STRING => True
  end.

Lemma bool_check_valid v : configurator_bool_check v = 0 -> v <> None -> exists b, configurator_bool_val v = (0, Some b).
Proof.
  destruct v as [v|]; [|done]. unfold configurator_bool_check, configurator_bool_val. intros H _.
  destruct v as [|c [|d v]]; repeat case_match; simpl in *; by eauto.
Qed.

Lemma int_check_valid h v : (configurator_int_check pl h v).1.1 = 0 -> v <> None ->
  exists l, configurator_int_val pl v = (0, Some l).
Proof.
  destruct v as [v|]; [|done]. unfold configurator_int_check. intros H _.
  destruct (configurator_int_val pl (Some v)) as [rc [l|]] eqn:E; simpl in H.
  - assert (rc = 0) as -> by (by destruct (bool_decide (rc = 0) && _); [destruct (strdup h _)|]). eauto.
  - unfold configurator_int_val in E. repeat case_match; simplify_eq.
Qed.

Lemma validate_value_valid os h s v :
  (validate_value pl os h v (cf_typ s) (cf_vfn s)).2.1.1 = 0 -> valid_value s v.
Proof.
  intros H Hn. rewrite Hn in H. unfold validate_value in H. destruct (cf_typ s); simpl in *; try done.
  - by apply bool_check_valid.
  - by eapply int_check_valid.
Qed.

(** One setting keeps a return code that is not zero. *)
Lemma validate_setting_zero extra os c rc s os' c' :
  cfg_ok extra c -> validate_setting pl (os, c, rc) s = Some (os', c', 0) ->
  rc = 0 /\ valid_value s (view c !! cf_field s).
Proof.
  intros Hc. unfold validate_setting. rewrite (get_field_ok _ _ _ Hc). cbn [mbind option_bind].
  pose proof (validate_value_valid os (c_heap c) s (view c !! cf_field s)) as Hv.
  destruct (validate_value _ _ _ _ _ _) as [os1 [[vrc new_val] h]]. simpl in Hv.
  case_bool_decide as Hz; simpl; [|intros [= _ _ H]; by destruct Hz]. specialize (Hv Hz).
  destruct new_val; [|by intros [= _ _ ->]].
  destruct (free_field _ _); simpl; [by intros [= _ _ ->]|done].
Qed.

(** A validation without errors has found all settings valid. *)
Lemma config_validate_zero extra os c os' c' s :
  cfg_ok extra c -> unifyfs_config_validate pl os c = Some (os', c', 0) -> s ∈ UNIFYFS_CONFIGS ->
  valid_value s (view c !! cf_field s).
Proof.
  unfold unifyfs_config_validate. intros Hc He Hs.
  assert (Hl : forall l os c rc, NoDup (cf_field <$> l) -> l ⊆ UNIFYFS_CONFIGS -> cfg_ok extra c ->
    each (validate_setting pl) (os, c, rc) l = Some (os', c', 0) ->
    rc = 0 /\ forall s, s ∈ l -> valid_value s (view c !! cf_field s)).
  { clear - pl. induction l as [|t l IH]; intros os c rc Hnd Hsub Hc.
    { intros [= _ _ ->]. split; [done|]. by intros s ?%elem_of_nil. }
    cbn [each]. rewrite fmap_cons in Hnd. apply NoDup_cons in Hnd as [Ht Hnd].
    destruct (validate_setting_ok extra pl os c rc t Hc) as (os1 & c1 & rc1 & E & Hc1 & Hv1 & _); [apply Hsub; left|].
    rewrite E. cbn [mbind option_bind]. intros H. destruct (IH os1 c1 rc1 Hnd) as [-> Hall]; [set_solver|done|done|].
    destruct (validate_setting_zero extra _ _ _ _ _ _ Hc E) as [-> Hval]. split; [done|].
    intros s [->|Hs]%elem_of_cons; [done|]. specialize (Hall s Hs). rewrite Hv1 in Hall.
    unfold settle_spec in Hall. rewrite lookup_partial_alter_ne in Hall; [|done].
    intros Heq. apply Ht. rewrite Heq. by apply list_elem_of_fmap_2. }
  destruct (Hl UNIFYFS_CONFIGS os c _ field_names_nodup ltac:(done) Hc He) as [_ Hall]. by apply Hall.
Qed.
End valid.

(** ** Initialisation *)


(** A platform where all sources set something. *)
Definition demo_files : list (cstring * cstring) :=
  [(cs "/etc/unifyfs.conf", cs "[log]" ++ [newline] ++ cs "verbosity = 1" ++ [newline] ++ cs "file = a.log ; name" ++ [newline]);
   (cs "/my.conf", cs "[log]" ++ [newline] ++ cs "verbosity = 4" ++ [newline]
                   ++ cs "[client]" ++ [newline] ++ cs "max_files: 64*1024" ++ [newline])].

Definition demo_init : platform unit Z :=
  demo_platform [(cs "UNIFYFS_LOG_VERBOSITY", cs "2"); (cs "UNIFYFS_CLEANUP", cs "on")] demo_files
    [GetoptRet "f" (Some (cs "/my.conf")); GetoptRet "D" None].

Definition demo_options : list (option cstring * option cstring) :=
  [(Some (cs "client.write_sync"), Some (cs "yes"))].


(** ** Where the code departs from its documentation *)

(** A system file that sets the name of the configuration file, as its
    documentation allows, makes the initialisation free that name twice. *)
Example system_file_double_free :
  unifyfs_config_init
    (demo_platform [] [(cs "/etc/unifyfs.conf", cs "[unifyfs]" ++ [newline] ++ cs "configfile = /my.conf" ++ [newline])] [])
    tt empty_heap [] 0 None = None.
Proof. vm_compute. reflexivity. Qed.

(** A setting of the command line or the environment that is equal to the
    default is overridden by the custom file. *)
Example custom_file_overrides_command_line :
  let pl := demo_platform [(cs "UNIFYFS_CLEANUP", cs "off")]
              [(cs "/my.conf", cs "[unifyfs]" ++ [newline] ++ cs "daemonize = on" ++ [newline] ++ cs "cleanup = on" ++ [newline])]
              [GetoptRet "f" (Some (cs "/my.conf")); GetoptRet "D" (Some (cs "off"))] in
  match unifyfs_config_init pl tt empty_heap [] 0 None with
  | Some (_, c, rc) => rc = 0 /\ get_field c "unifyfs_daemonize" = Some (Some (cs "on")) /\
      get_field c "unifyfs_cleanup" = Some (Some (cs "on"))
  | None => False
  end.
Proof. vm_compute. by split_and!. Qed.

(** An integer may be followed by any text that starts with a suffix. *)
Example int_suffix_unchecked : forall {OS D} (pl : platform OS D),
  configurator_int_val pl (Some (cs "5unlimited")) = (0, Some 5).
Proof. reflexivity. Qed.

(** A path to a block device passes for a directory. *)
Example block_device_is_directory : forall {OS D} (pl : platform OS D) os path,
  pl_stat pl os path = inr 25008 -> configurator_directory_check pl os (Some path) = (os, 0).
Proof. intros OS D pl os path H. unfold configurator_directory_check. by rewrite H. Qed.
